(* ===== verification/_CoqProject ===== *)
-Q . S2P
Prelude.v
Errors.v
Dispatch.v
Slab.v
Worker.v
Update.v
Arrow.v
Channel.v
Callback.v
Lifecycle.v
Status.v
Text.v
Subscription.v
Decoder.v
DecoderTypes.v
Projection.v
Shared.v
Services.v
Plan.v
Sharding.v
StateDelivery.v
StateInvariant.v
StateDrain.v
StateShown.v
Dates.v
Words.v
Ext.v
Cdx.v
RecipeError.v
Batch.v
Ladder.v
Futures.v
Options.v
FuturesRecipes.v
RequestErrors.v
Schema.v
RequestStream.v
Backoff.v
Pool.v
Feed.v
FeedImage.v
FeedViews.v
Consumer.v
Diagnostics.v
Metadata.v
ShardMerge.v
Delayed.v
Calendar.v
Columns.v
Extract.v
Extractors.v
Refdata.v
Bulk.v
Intraday.v
Ticks.v
SessionPool.v
