(* ===== verification/Prelude.v ===== *)
(** * xbbg: a verification development

    xbbg is a Bloomberg market-data engine: requests and subscriptions of host
    languages are planned, dispatched over SDK sessions, decoded into Arrow batches
    and delivered to consumers.  This library models the parts that carry the
    engine's own logic and proves what makes them correct.  Paths below are under
    [src/crates/].

    ** The program and the files

    A request is planned ([xbbg-async/src/engine/request_plan.rs],
    [request_builder.rs], [services.rs]: [Plan.v], [Services.v]), split into shards
    ([engine/request_sharding.rs]: [Sharding.v]), and given a slot and a correlation
    identifier by a worker, which matches SDK responses to it and replies once
    ([engine/worker.rs], [engine/dispatch.rs]: [Worker.v], [Dispatch.v], over the
    interface [Slab.v] of the slab crate).  The pool chooses the worker, retries
    transient failures after a delay and streams partial responses
    ([engine/request_pool.rs]: [Pool.v], [Backoff.v], [RequestStream.v]); failures
    are enriched with what was requested ([RequestErrors.v]) and results with
    identifiers, the key column and the output time zone ([engine/key_column.rs],
    [engine/intraday_timezone.rs]: [Schema.v]).  The diagnostics of a response are
    collected and travel in the metadata of its batch ([engine/state/value_utils.rs],
    [diagnostics.rs]: [Metadata.v], [Diagnostics.v]); its values become the columns of the
    batch ([engine/state/typed_builder.rs]: [Columns.v]), with dates and times converted
    and rendered by [xbbg-core/src/datetime.rs] and [value_utils.rs] ([Calendar.v]).
    Reference and historical responses are read into long or wide rows, answered at once
    or streamed ([engine/state/refdata.rs], [histdata.rs], [histdata_stream.rs],
    [xbbg-core/src/element.rs]: [Extract.v], [Extractors.v], [Refdata.v]), and the rows of
    array fields into tables ([bulkdata.rs]: [Bulk.v]); intraday bars and ticks into
    fixed and discovered columns ([intradaybar.rs], [intradaytick.rs] and their streams:
    [Intraday.v], [Ticks.v]).  The results of
    shards are joined ([ShardMerge.v]), and the status of delayed data is looked up,
    combined with the response and enforced ([engine/delayed.rs], [Engine::request] of
    [engine/mod.rs]: [Delayed.v]).  Sessions open services on demand and share the
    outcome among waiters ([engine/session_lifecycle.rs]: [Lifecycle.v]).  Subscriptions
    claim sessions from a bounded pool and return them ([engine/subscription_pool.rs]:
    [SessionPool.v]).

    A subscription keeps a table of its fields and decodes messages against it
    ([engine/state/subscription.rs]: [Subscription.v], [Decoder.v], [DecoderTypes.v],
    over the values and layouts of [engine/state/update.rs]: [Update.v]).  Consumers
    of one topic share a feed: it decodes once, keeps the last values, recovers from
    losses and projects every update onto each consumer
    ([engine/shared_subscriptions.rs]: [Feed.v], [FeedImage.v], [FeedViews.v];
    [Projection.v], [Shared.v]).  A consumer batches its updates
    ([engine/state/update_arrow.rs]: [Arrow.v]) and delivers them through a bounded
    channel or an inline callback ([engine/state/channel.rs]: [Channel.v],
    [Callback.v]), or as conflated images of dirty topics
    ([engine/shared_subscriptions/state_delivery.rs]: [StateDelivery.v],
    [StateInvariant.v], [StateDrain.v], [StateShown.v]).  Host adapters read through a consumer whose
    deliveries commit or roll back ([subscription_consumer.rs]: [Consumer.v]).  Its
    status is a snapshot published to readers ([engine/subscription_status.rs]:
    [Status.v]).  Errors carry the identifiers of the SDK requests that contributed
    ([xbbg-core/src/errors.rs], [xbbg-async/src/errors.rs]: [Errors.v]).

    On top of the engine, recipes resolve generic tickers: [Ext.v], [Cdx.v] and
    [Futures.v] model the extension crate ([xbbg-ext/src/error.rs],
    [constants.rs], [utils/date.rs], [utils/ticker.rs], [resolvers/cdx.rs],
    [resolvers/futures.rs]); [RecipeError.v], [Batch.v], [Options.v],
    [Ladder.v] and [FuturesRecipes.v] the recipe crate ([xbbg-recipes/src/error.rs],
    [utils.rs], [futures.rs]).  [Text.v], [Words.v] and [Dates.v] hold the string,
    token and calendar operations they share.

    ** How code becomes definitions

    A struct is a [Record], an enum an [Inductive], a [Result] a [result], a Rust
    panic or an exhausted fuel is [None].  A [HashMap] is a [gmap]; a [Vec] a
    list.  Machine integers are [Z] with their wrap-around, saturation or checks
    written out.  Strings are ASCII.  Concurrent code is a transition system: a
    call in progress is a program counter, one mutex section or atomic operation is
    one step, and any interleaving of steps is a run ([Channel.exec],
    [Callback.cexec], [Worker.wstep], [Lifecycle], [StateDelivery.dexec]), under
    sequential consistency.  An operation that reads the clock takes the time as
    an argument.  History variables record what was accepted, delivered or
    acknowledged; no operation reads them.

    Code outside the repository is a class or an argument with the laws its
    documentation states, and an instance on which examples evaluate: the slab
    ([SlabOps]), the tokio semaphore ([SemaphoreOps]), chrono's dates ([Chrono],
    [ChronoText]), serde_json and the rendering of floats (arguments), and the
    answers of Bloomberg to an engine request ([engine_request]), Arrow schemas and
    arrays ([ArrowOps] with [ArrowLaws], [ArrowConcat]), the JSON texts of metadata
    ([Json], [ExceptionsJson]), Arrow's builders ([ArrowBuild]), chrono's rendering of an
    instant ([ChronoStamp]), the elements of a response ([Sdk], [SdkScalars],
    [SdkArrays]).  The [f64] operations
    recipes use are the class [F64]; no theorem assumes a law of them.  [Backoff.v] computes with the
    binary64 numbers of the standard library, with [powf] as an argument.  An SDK
    element is the list of its children; an interned name is its text; an
    [Arc<FieldLayout>] is an address and a layout, and addresses identify layouts.
    What a feed reads of its consumers' owners is an argument of each step and what
    it does to them is a list of effects.

    ** What is proved

    - Channels: delivered updates are a prefix of the accepted ones in order, and
      the terminal error comes after them and once; the overwriting queue reports
      exactly what it evicted; permits are conserved; no wake-up or close
      notification is lost; the end of a stream is permanent.  The callback sink
      delivers nothing after a terminal error.
    - Request workers: a request is answered at most once, after every partial
      response it was given; a correlation identifier finds its own request only and
      is never reused within the generation bound; a taken slot completes.
    - The request pool: the first attempt that does not fail transiently decides,
      with the identifiers of every attempt; dispatch goes round the live workers;
      delays stay within their bounds; a stream maps every item as without its caches
      and cancels its request exactly when it is abandoned.
    - Results: interned field exceptions implement the exceptions of each security and
      survive their encoding, which is canonical; joining shards loses no diagnostics
      and reports the first failure with every identifier; a status lookup combines
      with its response in either order, and delayed data is never returned when it is
      to be refused.  Columns filled in lazily are the table filled in eagerly, with
      rejected values counted; days and dates are the Gregorian calendar, and a datetime
      with an offset is its UTC instant.
    - Extractors: the answer to a reference request is the requested table in the layout
      asked for (failed securities have error rows in the long ones only) and that to a bulk
      request the table of its rows, however the entries are split into messages; streamed historical chunks are
      exact and typed by what the stream has shown; cached types and the cached schema
      are invisible; a stream ends once and reports an overflow.  Streamed bars are the
      collected ones; collected ticks are the table of their children.  The stream of
      ticks delivers in order but drops chunks that find its channel full.
    - Subscriptions: the decoder's caches are invisible; every update it emits is
      described by the layout it carries; decoding once for a union of fields and
      projecting delivers to a consumer exactly what its own decoder would.
    - Shared feeds: until the hub shuts down, the image is always that of the updates since
      a paint that follows the last loss, no event delivers anything while a feed recovers,
      until the paint that ends the recovery, and a recovery that
      waits to be sent has exactly one task, which sends it; what a consumer of deltas
      was given always adds up to the image, whatever repaints suppress.
    - Consumers: whatever is committed, dropped, restored, drained, discarded or retried,
      the outputs and what closes without draining threw away account for exactly what the
      receiver handed over, in order; if every close drains nothing is thrown away, and a
      drain that was dropped can be retried with the same outcome.
    - State delivery: no dirty topic is lost and the last image captured of it is
      acknowledged, a continuity loss is shown before the image that follows it, by the
      live queue and in what a drain hands out, a drain publishes every pending image, the terminal
      error is handed over once, and selection never panics.
    - Status, services and sessions: indexes stay coherent, deferred and eager
      index maintenance agree, events are logged exactly; each waiter of a service
      open is answered once; startup reports the first outcome.
    - Session pool: sessions never exceed the bound and have one owner, none is pooled
      while a command handle can use it, and a shutdown stops every session, whatever
      interleaves with it.
    - Planning and sharding: accepted requests are complete for their operation, and every
      keyword is where its routing puts it, routing partitions keywords, normalisation is idempotent, and shards preserve
      the request.
    - Encodings: correlation identifiers, Arrow batches and presence bitmaps,
      CDX tickers.
    - Recipes: the CDX search refines "the latest series that started by the date",
      skips no series whatever is answered, and ends; futures candidates and
      contract ranks are exact; failures keep their kind and every identifier.

    ** Bounds and fuel

    - Correlation generations have 30 bits: worker theorems on reuse are for runs
      with fewer than 2^30 registrations; service opens for fewer than 2^62.
    - Field indices are [u16]: theorems on names are for at most 65536 of them.  The
      layout version is a [u32] that goes round: no message moves it all the way,
      with fewer than 2^29 children and names in a run.
    - Identifiers of pooled sessions are natural numbers and do not wrap around.
    - Retry delays are exact below 2^53 ms; the retry loop takes its attempts as fuel.
    - Revisions of state delivery are [u64]; [retire] saturates.
    - The drain of a consumer has as many rounds as there are unread events.
    - [chunks_fuel] of [Sharding.v] is the length of the list it splits.
    - A decimal [u32] has ten digits, an [i64] nineteen ([dec_digits]).
    - The window search of [Ladder.v] takes fuel; one round, and one more per 24
      of the series from the second below the current one down, or a part of them, are enough
      and more change nothing ([cdx_rounds], [cdx_search_terminates]).
    - Month generation has three rounds per candidate, since every third month is a
      quarterly one; [cdx_rolls_between] stops after 24 rounds by its own guard.

    ** Not modelled

    The receipts of state delivery in a consumer, the admission of sessions and the
    status patches of shared feeds, the session worker behind the pool, the
    field, BQL, BSRCH and generic extractors, exchange metadata (which needs a time-zone
    database), the schema and field caches, the remaining recipes, market sessions and
    transforms, the host layer:
    these are the next components, in this order.  SDK wrappers, language
    bindings, the MCP server, generated bindings and benchmarks call the SDK or the
    public interface and have no logic of their own to model. *)

From Stdlib Require Import ZArith Lia Sorting.
From stdpp Require Export base tactics list gmap strings.

(** Hint database of the arithmetic side conditions of bit-field layouts. *)
Create HintDb xbbg_bits discriminated.

(** Hint database of the preservation lemmas of state invariants. *)
Create HintDb xbbg_state discriminated.

(** ** Results

    Rust's [Result<T, E>]: fallible operations of the program return a value of
    this type, and a Rust panic is an [option] around the modelled operation. *)

Inductive result (A E : Type) : Type :=
| Ok (a : A)
| Err (e : E).
Arguments Ok {A E} a.
Arguments Err {A E} e.

Declare Scope xbbg_scope.
Delimit Scope xbbg_scope with xbbg.

(** The [?] operator: return early on an error. *)
Notation "'let?' x := m 'in' k" :=
  (match m with Ok x => k | Err e => Err e end)
  (at level 10, x pattern, m at level 100, k at level 200) : xbbg_scope.

#[export] Instance result_eq_dec {A E} `{EqDecision A, EqDecision E} :
  EqDecision (result A E).
Proof. solve_decision. Defined.

Definition result_map {A B E} (f : A -> B) (r : result A E) : result B E :=
  match r with Ok a => Ok (f a) | Err e => Err e end.

Definition result_map_err {A E F} (f : E -> F) (r : result A E) : result A F :=
  match r with Ok a => Ok a | Err e => Err (f e) end.

Definition result_ok {A E} (r : result A E) : option A :=
  match r with Ok a => Some a | Err _ => None end.

(** ** Machine integers

    A w-bit integer is a [Z]; wrap-around, saturation and checked arithmetic are
    written out at the width the source uses. *)

Section Machine.
Local Open Scope Z_scope.

Definition u32_max : Z := 2 ^ 32 - 1.
Definition u64_max : Z := 2 ^ 64 - 1.
Definition i64_min : Z := - 2 ^ 63.
Definition i64_max : Z := 2 ^ 63 - 1.

(** Reduction of an integer to its unsigned w-bit representative. *)
Definition wrap_u (w x : Z) : Z := x mod 2 ^ w.

(** Reduction to the signed w-bit representative (two's complement). *)
Definition wrap_s (w x : Z) : Z := (x + 2 ^ (w - 1)) mod 2 ^ w - 2 ^ (w - 1).

Definition u32_wrapping_add (a b : Z) : Z := wrap_u 32 (a + b).
Definition u64_wrapping_add (a b : Z) : Z := wrap_u 64 (a + b).
Definition i64_wrapping_add (a b : Z) : Z := wrap_s 64 (a + b).

Definition u64_saturating_add (a b : Z) : Z := Z.min (a + b) u64_max.
Definition u32_saturating_sub (a b : Z) : Z := Z.max (a - b) 0.

Definition u32_checked_add (a b : Z) : option Z :=
  if a + b <=? u32_max then Some (a + b) else None.
Definition u32_checked_mul (a b : Z) : option Z :=
  if a * b <=? u32_max then Some (a * b) else None.

Lemma wrap_u_bound w x : 0 <= w -> 0 <= wrap_u w x < 2 ^ w.
Proof. intros. apply Z.mod_pos_bound. lia. Qed.

Lemma wrap_u_small w x : 0 <= x < 2 ^ w -> wrap_u w x = x.
Proof. intros. by apply Z.mod_small. Qed.

Lemma wrap_s_small w x :
  - 2 ^ (w - 1) <= x < 2 ^ (w - 1) -> 0 < w -> wrap_s w x = x.
Proof.
  intros Hx Hw. unfold wrap_s.
  assert (2 ^ w = 2 * 2 ^ (w - 1)) by (rewrite <- Z.pow_succ_r by lia; f_equal; lia).
  rewrite Z.mod_small; lia.
Qed.

(** Packing two bit fields: shifting [a] above an [n]-bit field [b]. *)
Lemma lor_shiftl_add a b n :
  0 <= n -> 0 <= b < 2 ^ n -> Z.lor (Z.shiftl a n) b = a * 2 ^ n + b.
Proof.
  intros Hn Hb. rewrite <- Z.add_nocarry_lor; [by rewrite Z.shiftl_mul_pow2|].
  apply Z.bits_inj'. intros i Hi.
  rewrite Z.land_spec, Z.bits_0, Z.shiftl_spec by done.
  destruct (decide (i < n)).
  - by rewrite Z.testbit_neg_r by lia.
  - rewrite (proj1 (Z.bounded_iff_bits_nonneg' n b Hn (proj1 Hb)) Hb i) by lia.
    by rewrite andb_false_r.
Qed.

Lemma shiftl_1_sub_1 n : 0 <= n -> Z.shiftl 1 n - 1 = Z.ones n.
Proof. intros. by rewrite Z.ones_equiv, Z.shiftl_1_l. Qed.

(** A power of two tests a single bit. *)
Lemma land_pow2_zero x n :
  0 <= n -> Z.land x (Z.shiftl 1 n) = 0 <-> Z.testbit x n = false.
Proof.
  intros Hn. rewrite Z.shiftl_1_l. split.
  - intros H. apply (f_equal (fun z => Z.testbit z n)) in H.
    by rewrite Z.land_spec, Z.pow2_bits_true, andb_true_r, Z.bits_0 in H.
  - intros H. apply Z.bits_inj'. intros i Hi.
    rewrite Z.land_spec, Z.bits_0, Z.pow2_bits_eqb by done.
    destruct (Z.eqb_spec n i) as [->|]; [by rewrite H|by rewrite andb_false_r].
Qed.

Lemma testbit_small x n : 0 <= x < 2 ^ n -> 0 <= n -> Z.testbit x n = false.
Proof.
  intros Hx Hn. apply (proj1 (Z.bounded_iff_bits_nonneg' n x Hn (proj1 Hx)) Hx n). lia.
Qed.
End Machine.

(** ** Tactics of the development *)

(** Case analysis on every [match]/[if] of the goal or of the hypotheses, then
    clean up.  [state_cases] is the workhorse for handlers written as nested
    guards. *)
Ltac state_cases :=
  repeat (case_match || case_decide || case_bool_decide); simplify_eq/=.

(** Split conjunctions of the goal and close each part with the given tactic. *)
Ltac split_by tac := repeat match goal with |- _ /\ _ => split end; tac.

(** ** Lists *)

Section Lists.
Context {A : Type}.

Lemma length_le_snoc (l : list A) (x : A) n :
  length l < n -> length (l ++ [x]) <= n.
Proof. rewrite length_app. simpl. lia. Qed.

Lemma filter_all (P : A -> Prop) `{!forall x, Decision (P x)} (l : list A) :
  Forall P l -> filter P l = l.
Proof.
  induction 1 as [|x l Hx _ IH]; [done|]. by rewrite filter_cons_True, IH.
Qed.
End Lists.

(** Membership in the first components of a list of triples. *)
Lemma elem_of_fst3 {A B C : Type} (l : list (A * B * C)) (a : A) :
  a ∈ l.*1.*1 <-> exists b c, (a, b, c) ∈ l.
Proof.
  rewrite list_elem_of_fmap. setoid_rewrite list_elem_of_fmap. split.
  - intros ([a' b] & -> & [[a'' b'] c] & [= -> ->] & Hin). eauto.
  - intros (b & c & Hin). exists (a, b). split; [done|]. by exists (a, b, c).
Qed.

(** A list sorted by an asymmetric relation is determined by its members. *)
Lemma strongly_sorted_ext {A : Type} (R : A -> A -> Prop) (l1 l2 : list A) :
  (forall x y, R x y -> R y x -> False) ->
  StronglySorted R l1 -> StronglySorted R l2 -> (forall x, x ∈ l1 <-> x ∈ l2) -> l1 = l2.
Proof.
  intros Has H1. revert l2. induction H1 as [|a l1 Hs1 IH Ha]; intros l2 H2 Hx.
  { destruct l2 as [|b l2]; [done|]. by destruct (not_elem_of_nil b (proj2 (Hx b) ltac:(left))). }
  destruct H2 as [|b l2 Hs2 Hb]; [by destruct (not_elem_of_nil a (proj1 (Hx a) ltac:(left)))|].
  rewrite Forall_forall in Ha, Hb.
  assert (a = b) as ->.
  { pose proof (proj1 (Hx a) ltac:(left)) as H1. pose proof (proj2 (Hx b) ltac:(left)) as H2.
    apply elem_of_cons in H1 as [H1|H1]; [done|]. apply elem_of_cons in H2 as [H2|H2]; [done|].
    destruct (Has a b); auto. }
  f_equal. apply IH; [done|]. intros x. specialize (Hx x). rewrite !elem_of_cons in Hx.
  assert (forall l : list A, (forall y, y ∈ l -> R b y) -> x ∈ l -> x <> b) as Hne
    by (intros l Hl Hin ->; destruct (Has b b); auto).
  split; intros Hin.
  - destruct (proj1 Hx (or_intror Hin)); [|done]. by destruct (Hne l1 Ha Hin).
  - destruct (proj2 Hx (or_intror Hin)); [|done]. by destruct (Hne l2 Hb Hin).
Qed.
