(* ===== verification/Errors.v ===== *)
(** * Errors of the core crate

    Models [BlpError] of [crates/xbbg-core/src/errors.rs] and the union of the
    SDK request identifiers carried by failed requests.  A boxed source error
    ([Box<dyn Error>]) is represented by the text it displays. *)

From Stdlib Require Import ZArith Lia Sorting.
From stdpp Require Import sorting.
From S2P Require Import Prelude.

Inductive CorrelationContext : Type :=
| U64 (v : Z)
| Tag (s : string).

Record ValidationError : Type := mkValidationError {
  ve_path : string;
  ve_message : string;
  ve_suggestion : option string
}.

Inductive BlpError : Type :=
| SessionStart (source : option string) (label : option string)
| OpenService (service : string) (source : option string) (label : option string)
| RequestFailure (service : string) (operation : option string)
    (cid : option CorrelationContext) (label : option string)
    (request_id : option string) (ids : list string) (source : option string)
| InvalidArgument (detail : string)
| Timeout
| RequestTimeout (request_id : option string) (ids : list string)
| TemplateTerminated (cid : option CorrelationContext)
| SubscriptionFailure (cid : option CorrelationContext) (label : option string)
| SubscriptionDataLoss (topic detail : string)
| Internal (detail : string)
| SchemaOperationNotFound (service operation : string)
| SchemaElementNotFound (parent name : string)
| SchemaTypeMismatch (element expected found : string)
| SchemaUnsupported (element detail : string)
| Validation (message : string) (errors : list ValidationError).

#[export] Instance CorrelationContext_eq_dec : EqDecision CorrelationContext.
Proof. solve_decision. Defined.
#[export] Instance ValidationError_eq_dec : EqDecision ValidationError.
Proof. solve_decision. Defined.
#[export] Instance BlpError_eq_dec : EqDecision BlpError.
Proof. solve_decision. Defined.

(** ** Request identifiers *)

Definition bloomberg_request_ids (e : BlpError) : list string :=
  match e with
  | RequestFailure _ _ _ _ _ ids _ => ids
  | RequestTimeout _ ids => ids
  | _ => []
  end.

(** [Vec::dedup]: drop every element equal to the one kept before it. *)
Fixpoint dedup_from (prev : string) (l : list string) : list string :=
  match l with
  | [] => []
  | x :: l => if decide (prev = x) then dedup_from prev l else x :: dedup_from x l
  end.

Definition dedup (l : list string) : list string :=
  match l with [] => [] | x :: l => x :: dedup_from x l end.

(** [sort_unstable] on strings orders by bytes; equal strings are
    indistinguishable, so the stable merge sort has the same result. *)
Definition sort_unstable (l : list string) : list string := merge_sort String.le l.

Definition union_ids (ids more : list string) : list string :=
  dedup (sort_unstable (ids ++ more)).

Definition extend_bloomberg_request_ids (e : BlpError) (more : list string) : BlpError :=
  match e with
  | RequestFailure service operation cid label request_id ids source =>
      RequestFailure service operation cid label request_id (union_ids ids more) source
  | RequestTimeout request_id ids => RequestTimeout request_id (union_ids ids more)
  | e => e
  end.

(** ** Engine errors ([crates/xbbg-async/src/errors.rs]) *)

Inductive BlpAsyncError : Type :=
| AsyncBlp (e : BlpError)
| AsyncInternal (detail : string)
| ConfigError (detail : string)
| ChannelClosed
| AllWorkersDown (pool_size : nat).

Definition async_bloomberg_request_ids (e : BlpAsyncError) : list string :=
  match e with AsyncBlp e => bloomberg_request_ids e | _ => [] end.

(** The updated error and whether it was a sent-request error. *)
Definition try_extend_bloomberg_request_ids (e : BlpAsyncError) (more : list string)
  : BlpAsyncError * bool :=
  match e with
  | AsyncBlp (RequestFailure _ _ _ _ _ _ _ as b) | AsyncBlp (RequestTimeout _ _ as b) =>
      (AsyncBlp (extend_bloomberg_request_ids b more), true)
  | e => (e, false)
  end.

(** Does the error kind carry request identifiers? *)
Definition carries_ids (e : BlpError) : bool :=
  match e with
  | RequestFailure _ _ _ _ _ _ _ | RequestTimeout _ _ => true
  | _ => false
  end.

(** ** Lemmas *)

Lemma elem_of_dedup_from p l x : x ∈ p :: dedup_from p l <-> x ∈ p :: l.
Proof.
  revert p. induction l as [|y l IH]; intros p; simpl; [done|].
  case_decide as Hd; [subst y|].
  - rewrite IH. set_solver.
  - rewrite (elem_of_cons _ x p), IH. set_solver.
Qed.

Lemma elem_of_dedup l x : x ∈ dedup l <-> x ∈ l.
Proof. destruct l; [done|]. apply elem_of_dedup_from. Qed.

(** Strict order: no two adjacent equal elements remain in a sorted list. *)
Definition string_lt (a b : string) : Prop := String.le a b /\ a <> b.

Lemma dedup_from_sorted p l :
  StronglySorted String.le (p :: l) -> StronglySorted string_lt (p :: dedup_from p l).
Proof.
  revert p. induction l as [|y l IH]; intros p Hs; simpl; [by repeat constructor|].
  apply StronglySorted_inv in Hs as [Hs Hp]. case_decide as Hd; [subst y; by apply IH|].
  specialize (IH y Hs). constructor; [done|].
  apply Forall_forall. intros x Hx.
  assert (x ∈ y :: l) as Hxl by by apply elem_of_dedup_from.
  rewrite Forall_forall in Hp. split; [by apply Hp|]. intros ->.
  apply elem_of_cons in Hxl as [->|Hxl]; [done|].
  apply StronglySorted_inv in Hs as [_ Hy]. rewrite Forall_forall in Hy.
  apply Hd. apply (anti_symm String.le); [apply Hp; left|by apply Hy].
Qed.

Lemma union_ids_sorted ids more : StronglySorted string_lt (union_ids ids more).
Proof.
  unfold union_ids, dedup, sort_unstable.
  pose proof (StronglySorted_merge_sort String.le (ids ++ more)) as Hs.
  destruct (merge_sort String.le (ids ++ more)); [constructor|].
  by apply dedup_from_sorted.
Qed.

Lemma elem_of_union_ids ids more x : x ∈ union_ids ids more <-> x ∈ ids \/ x ∈ more.
Proof.
  unfold union_ids. rewrite elem_of_dedup. unfold sort_unstable.
  rewrite (merge_sort_Permutation String.le). apply elem_of_app.
Qed.

(** A strictly sorted list is determined by its members. *)
Lemma strictly_sorted_ext l1 l2 :
  StronglySorted string_lt l1 -> StronglySorted string_lt l2 ->
  (forall x, x ∈ l1 <-> x ∈ l2) -> l1 = l2.
Proof.
  apply strongly_sorted_ext. intros x y [H1 Hne] [H2 _]. by apply Hne, (anti_symm String.le).
Qed.

(** ** Properties *)

(** Composing failed requests is a union of identifier sets.  After
    [extend_bloomberg_request_ids] the identifiers are strictly sorted (no
    duplicates), are exactly the old ones and the new ones, the operation is
    idempotent, and the order in which contributions arrive does not matter;
    error kinds without identifiers are returned unchanged. *)
Theorem extend_request_ids_union (e : BlpError) (xs ys : list string) :
  (carries_ids e = false -> extend_bloomberg_request_ids e xs = e)
  /\ (carries_ids e = true ->
      StronglySorted string_lt (bloomberg_request_ids (extend_bloomberg_request_ids e xs))
      /\ (forall i, i ∈ bloomberg_request_ids (extend_bloomberg_request_ids e xs)
                    <-> i ∈ bloomberg_request_ids e \/ i ∈ xs))
  /\ extend_bloomberg_request_ids (extend_bloomberg_request_ids e xs) xs
     = extend_bloomberg_request_ids e xs
  /\ extend_bloomberg_request_ids (extend_bloomberg_request_ids e xs) ys
     = extend_bloomberg_request_ids (extend_bloomberg_request_ids e ys) xs.
Proof.
  assert (forall ids, union_ids (union_ids ids xs) xs = union_ids ids xs) as Hidem.
  { intros ids. apply strictly_sorted_ext; [apply union_ids_sorted..|].
    intros x. rewrite !elem_of_union_ids. tauto. }
  assert (forall ids, union_ids (union_ids ids xs) ys = union_ids (union_ids ids ys) xs) as Hcomm.
  { intros ids. apply strictly_sorted_ext; [apply union_ids_sorted..|].
    intros x. rewrite !elem_of_union_ids. tauto. }
  destruct e; simpl; (split; [done|]); (split; [intros; simplify_eq|]);
    eauto using union_ids_sorted, elem_of_union_ids; rewrite ?Hidem, ?Hcomm; done.
Qed.
