(* ===== verification/Dispatch.v ===== *)
(** * Dispatch keys: correlation identifiers of the async engine

    Models [crates/xbbg-async/src/engine/dispatch.rs] and the [CorrelationId] it
    encodes into ([crates/xbbg-core/src/correlation.rs]).  Identifiers are [i64]
    values kept as [Z]; the bit layout is written with the shifts and masks of
    the source.  A Rust [expect] that fails (a panic) is [None]. *)

From Stdlib Require Import ZArith Lia.
From S2P Require Import Prelude.

Local Open Scope Z_scope.

(** ** Data *)

(** Pointer identifiers are opaque addresses. *)
Inductive CorrelationId : Type :=
| Unset
| Int (value : Z)
| Ptr (address : Z).

#[export] Instance CorrelationId_eq_dec : EqDecision CorrelationId.
Proof. solve_decision. Defined.

Definition SERVICE_OPEN_CID_TAG : Z := Z.shiftl 1 62.
Definition IDENTITY_CID : Z := Z.shiftl 1 61.
Definition IDENTITY_TOKEN_CID : Z := Z.shiftl 3 60.
Definition SLOT_BITS : Z := 32.
Definition SLOT_MASK : Z := Z.shiftl 1 SLOT_BITS - 1.
Definition GENERATION_MASK : Z := Z.shiftl 1 30 - 1.

Record DispatchKey : Type := mkDispatchKey { dispatch_value : Z }.

#[export] Instance DispatchKey_eq_dec : EqDecision DispatchKey.
Proof. solve_decision. Defined.

(** ** Operations *)

(** [slab_key] is a [usize], [generation] a [u32]; [None] is the panic of
    [expect("slab key exceeds ...")]. *)
Definition with_generation (slab_key generation : Z) : option DispatchKey :=
  let slot := if slab_key <=? u32_max then u32_checked_add slab_key 1 else None in
  match slot with
  | None => None
  | Some slot =>
      Some (mkDispatchKey
              (Z.lor (Z.shiftl (Z.land generation GENERATION_MASK) SLOT_BITS) slot))
  end.

Definition from_slab_key (slab_key : Z) : option DispatchKey :=
  with_generation slab_key 0.

Definition from_correlation_id (correlation_id : CorrelationId) : option DispatchKey :=
  match correlation_id with
  | Int value =>
      if (0 <? value)
         && (Z.land value SERVICE_OPEN_CID_TAG =? 0)
         && negb (Z.land value SLOT_MASK =? 0)
      then Some (mkDispatchKey value)
      else None
  | _ => None
  end.

(** [usize::try_from] rejects a negative slot. *)
Definition to_slab_key (d : DispatchKey) : option Z :=
  let slot := Z.land (dispatch_value d) SLOT_MASK - 1 in
  if 0 <=? slot then Some slot else None.

Definition generation (d : DispatchKey) : Z :=
  Z.land (Z.shiftr (dispatch_value d) SLOT_BITS) GENERATION_MASK.

Definition to_correlation_id (d : DispatchKey) : CorrelationId :=
  Int (dispatch_value d).

(** ** The layout as arithmetic *)

(** A slab key that fits the slot field, as the [u32] conversion requires. *)
Definition slab_key_ok (k : Z) : Prop := 0 <= k < u32_max.

(** A [u32] generation counter value. *)
Definition u32_ok (g : Z) : Prop := 0 <= g <= u32_max.

#[export] Hint Unfold slab_key_ok u32_ok u32_max : xbbg_bits.

Lemma slot_mask_mod x : Z.land x SLOT_MASK = x mod 2 ^ 32.
Proof. unfold SLOT_MASK, SLOT_BITS. by rewrite shiftl_1_sub_1, Z.land_ones. Qed.

Lemma generation_mask_mod x : Z.land x GENERATION_MASK = x mod 2 ^ 30.
Proof. unfold GENERATION_MASK. by rewrite shiftl_1_sub_1, Z.land_ones. Qed.

(** The encoded value: the low 30 bits of the generation above [slab key + 1]. *)
Lemma with_generation_value k g :
  slab_key_ok k ->
  with_generation k g = Some (mkDispatchKey (g mod 2 ^ 30 * 2 ^ 32 + (k + 1))).
Proof.
  unfold slab_key_ok, u32_max. intros Hk. unfold with_generation, u32_checked_add, u32_max.
  rewrite (proj2 (Z.leb_le _ _)) by lia. rewrite (proj2 (Z.leb_le _ _)) by lia.
  rewrite generation_mask_mod. unfold SLOT_BITS. by rewrite lor_shiftl_add by lia.
Qed.

Lemma with_generation_panics k g :
  u32_max <= k -> with_generation k g = None.
Proof.
  unfold u32_max. intros Hk. unfold with_generation, u32_checked_add, u32_max.
  destruct (Z.leb_spec k (2 ^ 32 - 1)); [|done].
  by rewrite (proj2 (Z.leb_gt _ _)) by lia.
Qed.

Section Packed.
Variables k g : Z.
Hypothesis Hk : slab_key_ok k.
Let v := g mod 2 ^ 30 * 2 ^ 32 + (k + 1).

Lemma packed_bounds : 0 < v < 2 ^ 62.
Proof using Hk.
  pose proof (Z.mod_pos_bound g (2 ^ 30) ltac:(lia)).
  unfold v, slab_key_ok, u32_max in *. lia.
Qed.

Lemma packed_slot : v mod 2 ^ 32 = k + 1.
Proof using Hk.
  unfold v, slab_key_ok, u32_max in *.
  rewrite Z.add_comm, Z.mod_add by lia. apply Z.mod_small. lia.
Qed.

Lemma packed_generation : v / 2 ^ 32 = g mod 2 ^ 30.
Proof using Hk.
  unfold v, slab_key_ok, u32_max in *.
  rewrite Z.div_add_l by lia. rewrite (Z.div_small (k + 1)) by lia. lia.
Qed.

Lemma packed_decodes :
  from_correlation_id (Int v) = Some (mkDispatchKey v).
Proof using Hk.
  pose proof packed_bounds. unfold from_correlation_id.
  rewrite (proj2 (Z.ltb_lt _ _)) by lia.
  rewrite (proj2 (Z.eqb_eq (Z.land v SERVICE_OPEN_CID_TAG) 0)).
  2:{ apply land_pow2_zero; [lia|]. apply testbit_small; lia. }
  rewrite slot_mask_mod, packed_slot.
  unfold slab_key_ok in Hk. by rewrite (proj2 (Z.eqb_neq _ _)) by lia.
Qed.

Lemma packed_to_slab_key : to_slab_key (mkDispatchKey v) = Some k.
Proof using Hk.
  unfold to_slab_key. simpl. rewrite slot_mask_mod, packed_slot.
  unfold slab_key_ok in Hk. rewrite (proj2 (Z.leb_le _ _)) by lia. f_equal. lia.
Qed.

Lemma packed_to_generation : generation (mkDispatchKey v) = g mod 2 ^ 30.
Proof using Hk.
  unfold generation. simpl. rewrite generation_mask_mod.
  unfold SLOT_BITS. rewrite Z.shiftr_div_pow2 by lia.
  rewrite packed_generation. by rewrite Z.mod_mod by lia.
Qed.
End Packed.

(** Decoding never yields a key whose slot is missing. *)
Lemma from_correlation_id_slab_key c d :
  from_correlation_id c = Some d ->
  is_Some (to_slab_key d) /\ to_correlation_id d = c.
Proof.
  destruct c as [|v|]; [done| |done]. unfold from_correlation_id.
  destruct (_ && _) eqn:E; [|done]. intros [= <-].
  apply andb_true_iff in E as [_ E]. apply negb_true_iff, Z.eqb_neq in E.
  split; [|done]. unfold to_slab_key. simpl.
  rewrite slot_mask_mod in *.
  pose proof (Z.mod_pos_bound v (2 ^ 32) ltac:(lia)).
  rewrite (proj2 (Z.leb_le _ _)) by lia. by eexists.
Qed.

Lemma with_generation_bounded k g d :
  0 <= k -> with_generation k g = Some d -> slab_key_ok k.
Proof.
  intros Hk Hd. destruct (decide (k < u32_max)); [done|].
  rewrite with_generation_panics in Hd by lia. done.
Qed.

Lemma with_generation_decodes k g d :
  0 <= k -> with_generation k g = Some d ->
  from_correlation_id (to_correlation_id d) = Some d
  /\ to_slab_key d = Some k /\ generation d = g mod 2 ^ 30.
Proof.
  intros Hk Hd. pose proof (with_generation_bounded k g d Hk Hd) as Hok.
  rewrite with_generation_value in Hd by done. simplify_eq.
  split; [by apply packed_decodes|].
  split; [by apply packed_to_slab_key|by apply packed_to_generation].
Qed.

(** ** Properties *)

(** Every request or subscription slot the engine can allocate gets a
    correlation identifier that decodes back to the same dispatch key, hence to
    the same slab key, and carries the generation modulo 2^30; a slab key
    outside the 32-bit slot field is refused by the encoder (the Rust [expect])
    instead of aliasing another slot. *)
Theorem dispatch_roundtrip (k g : Z) :
  0 <= k ->
  match with_generation k g with
  | Some d =>
      k < u32_max
      /\ from_correlation_id (to_correlation_id d) = Some d
      /\ to_slab_key d = Some k
      /\ generation d = g mod 2 ^ 30
  | None => u32_max <= k
  end.
Proof.
  intros Hk. destruct (with_generation k g) as [d|] eqn:Hd.
  - split; [apply (with_generation_bounded k g d Hk Hd)|].
    by apply with_generation_decodes.
  - destruct (decide (k < u32_max)); [|lia].
    by rewrite with_generation_value in Hd.
Qed.

Lemma dispatch_roundtrip_witness :
  from_correlation_id (to_correlation_id (mkDispatchKey (7 * 2 ^ 32 + 4)))
    = Some (mkDispatchKey (7 * 2 ^ 32 + 4)).
Proof. exact (proj1 (proj2 (dispatch_roundtrip 3 7 ltac:(lia)))). Defined.

(** The three identifier spaces are disjoint.  An identifier of a
    service-open attempt (tag bit 62 over any [i64] counter) and the two fixed
    identity identifiers never decode to a dispatch key, and no dispatch key the
    encoder produces is one of them. *)
Theorem dispatch_spaces_disjoint (k g n : Z) (d : DispatchKey) :
  0 <= k ->
  with_generation k g = Some d ->
  let service_cid := Z.lor SERVICE_OPEN_CID_TAG (Z.land n (SERVICE_OPEN_CID_TAG - 1)) in
  from_correlation_id (Int service_cid) = None
  /\ from_correlation_id (Int IDENTITY_CID) = None
  /\ from_correlation_id (Int IDENTITY_TOKEN_CID) = None
  /\ dispatch_value d <> service_cid
  /\ dispatch_value d <> IDENTITY_CID
  /\ dispatch_value d <> IDENTITY_TOKEN_CID.
Proof.
  intros Hk Hd. cbv zeta.
  destruct (with_generation_decodes k g d Hk Hd) as (Hdec & _ & _).
  set (s := Z.lor _ _).
  assert (from_correlation_id (Int s) = None) as Hs.
  { unfold from_correlation_id.
    assert (Z.land s SERVICE_OPEN_CID_TAG <> 0) as Ht.
    { unfold SERVICE_OPEN_CID_TAG at 1. rewrite land_pow2_zero by lia.
      unfold s. rewrite Z.lor_spec.
      by replace (Z.testbit SERVICE_OPEN_CID_TAG 62) with true by reflexivity. }
    rewrite (proj2 (Z.eqb_neq _ _) Ht). by rewrite andb_false_r. }
  assert (from_correlation_id (Int IDENTITY_CID) = None) as Hi by reflexivity.
  assert (from_correlation_id (Int IDENTITY_TOKEN_CID) = None) as Ht by reflexivity.
  unfold to_correlation_id in Hdec.
  repeat split; [done..| | |]; intros E; rewrite E in Hdec; congruence.
Qed.

Lemma dispatch_spaces_disjoint_witness :
  from_correlation_id
    (Int (Z.lor SERVICE_OPEN_CID_TAG (Z.land (-1) (SERVICE_OPEN_CID_TAG - 1)))) = None.
Proof.
  exact (proj1 (dispatch_spaces_disjoint 3 7 (-1) (mkDispatchKey (7 * 2 ^ 32 + 4))
                  ltac:(lia) eq_refl)).
Defined.
