(* ===== verification/Slab.v ===== *)
(** * The slab interface

    The request workers keep in-flight requests in a [slab::Slab] (an external
    crate).  [SlabOps] lists the operations the engine calls and [SlabLaws] the
    documented behaviour it relies on: [insert] returns a vacant key, [get] and
    [remove] address exactly that key, [remove] of a vacant key panics ([None]),
    and iteration visits every occupied entry once.  [gmap_slab] is a reference
    instance, used by the witnesses. *)

From Stdlib Require Import ZArith Lia.
From stdpp Require Import fin_maps numbers.
From S2P Require Import Prelude.

Class SlabOps (V S : Type) := {
  slab_new : S;
  slab_insert : S -> V -> Z * S;
  slab_get : S -> Z -> option V;
  slab_remove : S -> Z -> option (V * S);
  slab_alter : (V -> V) -> S -> Z -> S;
  slab_iter : S -> list (Z * V);
}.

Class SlabLaws (V S : Type) `{SlabOps V S} := {
  slab_get_new k : slab_get slab_new k = None;
  slab_insert_vacant s v : slab_get s (slab_insert s v).1 = None;
  slab_insert_key s v : (0 <= (slab_insert s v).1)%Z;
  slab_get_insert s v j :
    slab_get (slab_insert s v).2 j
    = if decide (j = (slab_insert s v).1) then Some v else slab_get s j;
  slab_remove_get s k v s' :
    slab_remove s k = Some (v, s') ->
    slab_get s k = Some v
    /\ forall j, slab_get s' j = if decide (j = k) then None else slab_get s j;
  slab_remove_occupied s k v : slab_get s k = Some v -> exists s', slab_remove s k = Some (v, s');
  slab_get_alter f s k j :
    slab_get (slab_alter f s k) j
    = if decide (j = k) then f <$> slab_get s j else slab_get s j;
  slab_iter_get s k v : (k, v) ∈ slab_iter s <-> slab_get s k = Some v;
  slab_iter_nodup s : NoDup (slab_iter s).*1;
}.

(** ** The reference instance *)

Section GmapSlab.
Context {V : Type}.

Definition gmap_fresh (m : gmap Z V) : Z :=
  (1 + map_fold (fun k _ acc => Z.max k acc) 0 m)%Z.

Lemma gmap_fresh_above m k v : m !! k = Some v -> (k < gmap_fresh m)%Z.
Proof.
  unfold gmap_fresh. revert k v.
  apply (map_fold_weak_ind (fun acc m => forall k v, m !! k = Some v -> (k < 1 + acc)%Z)).
  - intros k v. by rewrite lookup_empty.
  - intros i x m' acc _ IH k v. rewrite lookup_insert. case_decide; [subst; lia|].
    intros Hk%IH. lia.
Qed.

Lemma gmap_fresh_nonneg m : (0 <= gmap_fresh m)%Z.
Proof.
  unfold gmap_fresh.
  apply (map_fold_weak_ind (fun acc _ => (0 <= 1 + acc)%Z)); intros; lia.
Qed.

#[export] Instance gmap_slab_ops : SlabOps V (gmap Z V) := {
  slab_new := ∅;
  slab_insert m v := (gmap_fresh m, <[gmap_fresh m := v]> m);
  slab_get m k := m !! k;
  slab_remove m k := match m !! k with Some v => Some (v, delete k m) | None => None end;
  slab_alter f m k := alter f k m;
  slab_iter m := map_to_list m;
}.

#[export] Instance gmap_slab_laws : SlabLaws V (gmap Z V).
Proof.
  split; simpl; intros.
  - apply lookup_empty.
  - destruct (s !! gmap_fresh s) as [v'|] eqn:E; [|done].
    apply gmap_fresh_above in E. lia.
  - apply gmap_fresh_nonneg.
  - rewrite lookup_insert. repeat case_decide; congruence.
  - destruct (s !! k) as [v0|] eqn:E; simplify_eq. split; [done|].
    intros j. rewrite lookup_delete. repeat case_decide; congruence.
  - rewrite H. eauto.
  - rewrite lookup_alter. repeat case_decide; subst; congruence.
  - apply elem_of_map_to_list.
  - apply NoDup_fst_map_to_list.
Qed.
End GmapSlab.
