(* ===== verification/Worker.v ===== *)
(** * Request worker: generation-tagged slots and the reply protocol

    Models the slab of in-flight requests of
    [crates/xbbg-async/src/engine/worker.rs]: [RequestStateCell],
    [RequestPartialGuard], [RequestSlot], [WorkerShared::{next_generation,
    insert_slot, take_slot, scan_timeouts, drain_in_flight}], and the handlers
    that use them.  The cells are reference counted and shared between the slab,
    the partial-response guards and the final consumers, so they live in a store
    [cells] addressed by a cell identifier (the [Arc] pointer).

    Submitter threads, the SDK dispatcher and timeout scans interleave: [wstep]
    has one rule per critical section (one lock acquisition) of the source. *)

From Stdlib Require Import ZArith Lia.
From stdpp Require Import fin_maps numbers.
From S2P Require Import Prelude Errors Dispatch Slab.

(** One in-flight request slot; [slot_cell] is the [Arc] to its cell and
    instants are nanoseconds. *)
Record RequestSlot : Type := mkSlot {
  sent_at : Z;
  warned : bool;
  slot_cell : nat
}.

Record RequestTicket : Type := mkTicket { ticket_key : Z; ticket_generation : Z }.

(** Mutable state of one request; [None] once completed, failed or cancelled. *)
Record Cell (St : Type) : Type := mkCell {
  cell_generation : Z;
  cell_state : option St;
  active_partials : nat
}.
Arguments mkCell {St} _ _ _.
Arguments cell_generation {St} _.
Arguments cell_state {St} _.
Arguments active_partials {St} _.

(** What the consumer of a taken slot does with the decoder state. *)
Inductive Outcome (Msg : Type) : Type :=
| FinishAndReply (msg : Msg)
| FailWith (error : BlpError)
| Discard.
Arguments FinishAndReply {Msg} msg.
Arguments FailWith {Msg} error.
Arguments Discard {Msg}.

Definition SLOW_REQUEST_WARN_THRESHOLD : Z := 30 * 10 ^ 9.

Section Worker.
Context {St Msg SL : Type}.
Context `{Laws : SlabLaws RequestSlot SL}.
(** The response decoder: one of the twelve request state machines. *)
Variable decode_partial : St -> Msg -> St.

Record WorkerShared : Type := mkShared {
  worker_id : Z;
  requests : SL;
  generation_counter : Z;
  cells : gmap nat (Cell St);
  next_cell : nat
}.

Definition worker_new (id : Z) : WorkerShared := mkShared id slab_new 0 ∅ 0.

Definition with_requests (w : WorkerShared) (rs : SL) : WorkerShared :=
  mkShared (worker_id w) rs (generation_counter w) (cells w) (next_cell w).
Definition with_cell (w : WorkerShared) (c : nat) (x : Cell St) : WorkerShared :=
  mkShared (worker_id w) (requests w) (generation_counter w) (<[c := x]> (cells w))
    (next_cell w).

(** [fetch_add(1).wrapping_add(1)] *)
Definition next_generation (w : WorkerShared) : Z * WorkerShared :=
  let g := u32_wrapping_add (generation_counter w) 1 in
  (g, mkShared (worker_id w) (requests w) g (cells w) (next_cell w)).

Definition insert_slot (now g : Z) (st : St) (w : WorkerShared) : Z * WorkerShared :=
  let c := next_cell w in
  let '(key, rs) := slab_insert (requests w) (mkSlot now false c) in
  (key, mkShared (worker_id w) rs (generation_counter w)
          (<[c := mkCell g (Some st) 0]> (cells w)) (S c)).

Definition slot_generation (w : WorkerShared) (slot : RequestSlot) : option Z :=
  cell_generation <$> cells w !! slot_cell slot.

Definition generation_matches (w : WorkerShared) (slot : RequestSlot) (d : DispatchKey) : bool :=
  bool_decide (slot_generation w slot = Some (generation d)).

(** Keys reaching [take_slot] were decoded or built by [DispatchKey], so
    [to_slab_key] does not panic on them. *)
Definition take_slot (w : WorkerShared) (d : DispatchKey) : option (RequestSlot * WorkerShared) :=
  match to_slab_key d with
  | None => None
  | Some key =>
      match slab_get (requests w) key with
      | Some slot =>
          if generation_matches w slot d then
            match slab_remove (requests w) key with
            | Some (slot', rs) => Some (slot', with_requests w rs)
            | None => None
            end
          else None
      | None => None
      end
  end.

(** [dispatch_prepared] up to [sendRequest]: allocate the generation, register
    the state, build the correlation identifier. *)
Definition register_request (now : Z) (st : St) (w : WorkerShared)
  : Z * Z * option DispatchKey * WorkerShared :=
  let '(g, w1) := next_generation w in
  let '(key, w2) := insert_slot now g st w1 in
  (key, g, with_generation key g, w2).

(** [RequestStateCell::begin_partial] *)
Definition begin_partial (x : Cell St) : Cell St :=
  mkCell (cell_generation x) (cell_state x) (S (active_partials x)).

(** The lookup of [handle_partial_response]: the cell a partial may enter. *)
Definition partial_target (w : WorkerShared) (cid : CorrelationId) : option nat :=
  match from_correlation_id cid with
  | None => None
  | Some d =>
      match to_slab_key d with
      | None => None
      | Some key =>
          match slab_get (requests w) key with
          | Some slot => if generation_matches w slot d then Some (slot_cell slot) else None
          | None => None
          end
      end
  end.

(** [RequestStateCell::on_partial] *)
Definition cell_on_partial (x : Cell St) (msg : Msg) : Cell St :=
  match cell_state x with
  | None => x
  | Some st => mkCell (cell_generation x) (Some (decode_partial st msg)) (active_partials x)
  end.

(** [Drop for RequestPartialGuard] *)
Definition end_partial (x : Cell St) : Cell St :=
  mkCell (cell_generation x) (cell_state x) (active_partials x - 1).

(** The [state.lock().take()] of [finish_and_reply], [fail] and [discard]. *)
Definition take_state (x : Cell St) : Cell St :=
  mkCell (cell_generation x) None (active_partials x).

(** [scan_timeouts]: mark slow requests, collect hard-timeout candidates. *)
Definition scan_slot (now : Z) (hard : option Z)
  (acc : list RequestTicket * SL) (w : WorkerShared) (entry : Z * RequestSlot)
  : list RequestTicket * SL :=
  let '(key, slot) := entry in
  let elapsed := Z.max 0 (now - sent_at slot) in
  let rs :=
    if (SLOW_REQUEST_WARN_THRESHOLD <? elapsed)%Z && negb (warned slot)
    then slab_alter (fun s => mkSlot (sent_at s) true (slot_cell s)) acc.2 key
    else acc.2 in
  let expired :=
    match hard, slot_generation w slot with
    | Some h, Some g => if (h <=? elapsed)%Z then acc.1 ++ [mkTicket key g] else acc.1
    | _, _ => acc.1
    end in
  (expired, rs).

Definition scan_timeouts (now : Z) (hard : option Z) (w : WorkerShared)
  : list RequestTicket * WorkerShared :=
  let '(expired, rs) :=
    fold_left (fun acc e => scan_slot now hard acc w e) (slab_iter (requests w))
      ([], requests w) in
  (expired, with_requests w rs).

(** [drain_in_flight] removes every slot; each cell is then failed. *)
Definition drain_in_flight (w : WorkerShared) : list RequestSlot * WorkerShared :=
  ((slab_iter (requests w)).*2, with_requests w slab_new).

(** ** The interleaved protocol

    [guards] are the partial guards alive on some thread (the flag says whether
    the message was applied), [consumers] the taken slots on their way to their
    outcome (the flag says whether [wait_for_partials] returned).  [replies],
    [begun], [applied] and [initial] record history. *)
Record Config : Type := mkConfig {
  shared : WorkerShared;
  guards : list (nat * Msg * bool);
  consumers : list (nat * Outcome Msg * bool);
  replies : list (nat * Outcome Msg * St);
  begun : list (nat * Msg);
  applied : list (nat * Msg);
  initial : gmap nat St
}.

Definition config_new (id : Z) : Config := mkConfig (worker_new id) [] [] [] [] [] ∅.

Inductive wstep : Config -> Config -> Prop :=
| step_register cfg now st key g d w :
    register_request now st (shared cfg) = (key, g, d, w) ->
    wstep cfg (mkConfig w (guards cfg) (consumers cfg) (replies cfg) (begun cfg)
                 (applied cfg) (<[next_cell (shared cfg) := st]> (initial cfg)))
| step_begin cfg cid msg c x :
    partial_target (shared cfg) cid = Some c ->
    cells (shared cfg) !! c = Some x ->
    wstep cfg (mkConfig (with_cell (shared cfg) c (begin_partial x))
                 ((c, msg, false) :: guards cfg) (consumers cfg) (replies cfg)
                 (begun cfg ++ [(c, msg)]) (applied cfg) (initial cfg))
| step_apply cfg l1 l2 c msg x :
    guards cfg = l1 ++ (c, msg, false) :: l2 ->
    cells (shared cfg) !! c = Some x ->
    wstep cfg (mkConfig (with_cell (shared cfg) c (cell_on_partial x msg))
                 (l1 ++ (c, msg, true) :: l2) (consumers cfg) (replies cfg)
                 (begun cfg) (applied cfg ++ [(c, msg)]) (initial cfg))
| step_drop cfg l1 l2 c msg x :
    guards cfg = l1 ++ (c, msg, true) :: l2 ->
    cells (shared cfg) !! c = Some x ->
    wstep cfg (mkConfig (with_cell (shared cfg) c (end_partial x))
                 (l1 ++ l2) (consumers cfg) (replies cfg)
                 (begun cfg) (applied cfg) (initial cfg))
| step_take cfg d o slot w :
    take_slot (shared cfg) d = Some (slot, w) ->
    wstep cfg (mkConfig w (guards cfg) ((slot_cell slot, o, false) :: consumers cfg)
                 (replies cfg) (begun cfg) (applied cfg) (initial cfg))
| step_waited cfg l1 l2 c o x :
    consumers cfg = l1 ++ (c, o, false) :: l2 ->
    cells (shared cfg) !! c = Some x ->
    active_partials x = 0 ->
    wstep cfg (mkConfig (shared cfg) (guards cfg) (l1 ++ (c, o, true) :: l2)
                 (replies cfg) (begun cfg) (applied cfg) (initial cfg))
| step_consume cfg l1 l2 c o x st :
    consumers cfg = l1 ++ (c, o, true) :: l2 ->
    cells (shared cfg) !! c = Some x ->
    cell_state x = Some st ->
    wstep cfg (mkConfig (with_cell (shared cfg) c (take_state x)) (guards cfg)
                 (l1 ++ l2) (replies cfg ++ [(c, o, st)]) (begun cfg) (applied cfg)
                 (initial cfg))
| step_consume_gone cfg l1 l2 c o x :
    consumers cfg = l1 ++ (c, o, true) :: l2 ->
    cells (shared cfg) !! c = Some x ->
    cell_state x = None ->
    wstep cfg (mkConfig (shared cfg) (guards cfg) (l1 ++ l2) (replies cfg) (begun cfg)
                 (applied cfg) (initial cfg))
| step_drain cfg e slots w :
    drain_in_flight (shared cfg) = (slots, w) ->
    wstep cfg (mkConfig w (guards cfg)
                 (((fun s => (slot_cell s, FailWith e, false)) <$> slots) ++ consumers cfg)
                 (replies cfg) (begun cfg) (applied cfg) (initial cfg))
| step_scan cfg now hard ts w :
    scan_timeouts now hard (shared cfg) = (ts, w) ->
    wstep cfg (mkConfig w (guards cfg) (consumers cfg) (replies cfg) (begun cfg)
                 (applied cfg) (initial cfg)).

Inductive reachable (id : Z) : Config -> Prop :=
| reach_init : reachable id (config_new id)
| reach_step cfg cfg' : reachable id cfg -> wstep cfg cfg' -> reachable id cfg'.

(** ** Invariant *)

Definition msgs_of (c : nat) (l : list (nat * Msg)) : list Msg :=
  (filter (fun p => p.1 = c) l).*2.
Definition guards_of (c : nat) (gs : list (nat * Msg * bool)) : list (nat * Msg * bool) :=
  filter (fun g => g.1.1 = c) gs.
Definition pending_of (c : nat) (gs : list (nat * Msg * bool)) : list Msg :=
  (filter (fun g => g.1.1 = c /\ g.2 = false) gs).*1.*2.

(** The decoder state after the partials applied so far. *)
Definition decoded (cfg : Config) (c : nat) (st : St) : Prop :=
  exists st0, initial cfg !! c = Some st0
              /\ st = fold_left decode_partial (msgs_of c (applied cfg)) st0.

Definition live (cfg : Config) (c : nat) : Prop :=
  exists x st, cells (shared cfg) !! c = Some x /\ cell_state x = Some st.

Record inv (cfg : Config) : Prop := {
  inv_alloc c : is_Some (cells (shared cfg) !! c) -> c < next_cell (shared cfg);
  inv_slot k slot :
    slab_get (requests (shared cfg)) k = Some slot ->
    live cfg (slot_cell slot) /\ slot_cell slot ∉ (consumers cfg).*1.*1;
  inv_slot_inj k1 k2 s1 s2 :
    slab_get (requests (shared cfg)) k1 = Some s1 ->
    slab_get (requests (shared cfg)) k2 = Some s2 ->
    slot_cell s1 = slot_cell s2 -> k1 = k2;
  inv_consumers_nodup : NoDup (consumers cfg).*1.*1;
  inv_consumers c o b :
    (c, o, b) ∈ consumers cfg ->
    live cfg c /\ (b = true -> guards_of c (guards cfg) = []);
  inv_active c x :
    cells (shared cfg) !! c = Some x ->
    active_partials x = length (guards_of c (guards cfg));
  inv_guards c m b : (c, m, b) ∈ guards cfg -> live cfg c;
  inv_replies_nodup : NoDup (replies cfg).*1.*1;
  inv_replies c o st :
    (c, o, st) ∈ replies cfg ->
    (exists x, cells (shared cfg) !! c = Some x /\ cell_state x = None) /\ decoded cfg c st;
  inv_state c x st :
    cells (shared cfg) !! c = Some x -> cell_state x = Some st -> decoded cfg c st;
  inv_begun c :
    msgs_of c (begun cfg) ≡ₚ msgs_of c (applied cfg) ++ pending_of c (guards cfg);
  inv_fresh c : next_cell (shared cfg) <= c ->
    msgs_of c (applied cfg) = [] /\ guards_of c (guards cfg) = []
}.

Lemma msgs_of_snoc c l c' m :
  msgs_of c (l ++ [(c', m)]) = msgs_of c l ++ (if decide (c' = c) then [m] else []).
Proof.
  unfold msgs_of. rewrite filter_app, fmap_app. f_equal. rewrite filter_cons, filter_nil.
  simpl. by repeat case_decide.
Qed.

Lemma guards_of_cons c g gs :
  guards_of c (g :: gs) = if decide (g.1.1 = c) then g :: guards_of c gs else guards_of c gs.
Proof. unfold guards_of. by rewrite filter_cons. Qed.

Lemma guards_of_app c l1 l2 : guards_of c (l1 ++ l2) = guards_of c l1 ++ guards_of c l2.
Proof. apply filter_app. Qed.

Lemma pending_of_app c l1 l2 : pending_of c (l1 ++ l2) = pending_of c l1 ++ pending_of c l2.
Proof. unfold pending_of. by rewrite filter_app, !fmap_app. Qed.

Lemma pending_of_cons c c' m b gs :
  pending_of c ((c', m, b) :: gs)
  = (if decide (c' = c /\ b = false) then [m] else []) ++ pending_of c gs.
Proof. unfold pending_of. rewrite filter_cons. simpl. by repeat case_decide. Qed.

Lemma guards_of_elem c m b gs : (c, m, b) ∈ gs -> guards_of c gs <> [].
Proof.
  intros Hin Hnil. assert ((c, m, b) ∈ guards_of c gs) as H1.
  { unfold guards_of. by apply list_elem_of_filter. }
  rewrite Hnil in H1. by apply not_elem_of_nil in H1.
Qed.

(** Updating one cell's decoder state or counter keeps the other cells. *)
Lemma live_with_cell cfg c c' x y w gs cs rs bs ap ini :
  live cfg c ->
  cells (shared cfg) !! c' = Some x ->
  (is_Some (cell_state x) -> is_Some (cell_state y)) ->
  w = with_cell (shared cfg) c' y ->
  live (mkConfig w gs cs rs bs ap ini) c.
Proof.
  intros (z & st & Hz & Hst) Hx Hxy ->. unfold live. simpl.
  destruct (decide (c' = c)) as [->|Hne].
  - rewrite Hx in Hz. simplify_eq. destruct (Hxy (ltac:(eauto))) as [st' Hst'].
    exists y, st'. by rewrite lookup_insert_eq.
  - exists z, st. by rewrite lookup_insert_ne.
Qed.
(** *** Preservation, one lemma per kind of step *)

Lemma inv_init id : inv (config_new id).
Proof.
  split; simpl; intros *; rewrite ?lookup_empty, ?slab_get_new;
    try done; try (by intros [? [=]]); try (by intros ?%not_elem_of_nil); constructor.
Qed.

(** A registration allocates a cell nothing refers to yet. *)
Lemma inv_new_cell cfg : inv cfg -> cells (shared cfg) !! next_cell (shared cfg) = None.
Proof.
  intros I. destruct (cells _ !! _) eqn:E; [|done].
  pose proof (inv_alloc _ I _ ltac:(eauto)). lia.
Qed.

Lemma live_new_cell cfg c n y rs k1 k2 gs cs rp bs ap ini :
  cells (shared cfg) !! n = None -> live cfg c ->
  live (mkConfig (mkShared k1 rs k2 (<[n := y]> (cells (shared cfg))) (S n))
          gs cs rp bs ap ini) c.
Proof.
  intros Hn (x & s & Hx & Hs). exists x, s. simpl.
  rewrite lookup_insert_ne; [done|congruence].
Qed.

Lemma decoded_new_cell cfg c n st s0 w gs cs rp bs :
  c <> n -> decoded cfg c s0 ->
  decoded (mkConfig w gs cs rp bs (applied cfg) (<[n:=st]> (initial cfg))) c s0.
Proof. intros Hne (st0 & Hi & He). exists st0. simpl. by rewrite lookup_insert_ne. Qed.

Lemma inv_register cfg now st key g d w :
  inv cfg -> register_request now st (shared cfg) = (key, g, d, w) ->
  inv (mkConfig w (guards cfg) (consumers cfg) (replies cfg) (begun cfg)
         (applied cfg) (<[next_cell (shared cfg) := st]> (initial cfg))).
Proof.
  intros I Hr. unfold register_request, next_generation, insert_slot in Hr. simpl in Hr.
  set (n := next_cell (shared cfg)) in *.
  pose proof (slab_get_insert (requests (shared cfg)) (mkSlot now false n)) as Hget.
  pose proof (slab_insert_vacant (requests (shared cfg)) (mkSlot now false n)) as Hvac.
  destruct (slab_insert _ _) as [key' rs] eqn:Hins. simpl in *. simplify_eq.
  assert (Hnew : cells (shared cfg) !! n = None) by by apply inv_new_cell.
  assert (Hlive : forall c, live cfg c -> c <> n).
  { intros c (x & s & Hx & _) ->. congruence. }
  destruct (inv_fresh _ I n ltac:(lia)) as [Hap0 Hgs0].
  split; simpl.
  - intros c. rewrite lookup_insert. case_decide; [lia|]. intros Hc%(inv_alloc _ I). lia.
  - intros k slot. rewrite Hget. case_decide as Hd; intros Hk; simplify_eq/=.
    + split; [eexists _, _; simpl; by rewrite lookup_insert_eq|].
      intros (o & b & Hin)%elem_of_fst3.
      by destruct (Hlive n (proj1 (inv_consumers _ I _ _ _ Hin))).
    + destruct (inv_slot _ I _ _ Hk). auto using live_new_cell.
  - intros k1 k2 s1 s2. rewrite !Hget. repeat case_decide; intros; simplify_eq/=; auto.
    + by destruct (Hlive _ (proj1 (inv_slot _ I k2 s2 ltac:(done)))).
    + by destruct (Hlive _ (proj1 (inv_slot _ I k1 s1 ltac:(done)))).
    + by eapply (inv_slot_inj _ I).
  - apply (inv_consumers_nodup _ I).
  - intros c o b Hin. destruct (inv_consumers _ I _ _ _ Hin). auto using live_new_cell.
  - intros c x. rewrite lookup_insert. case_decide as Hc; intros; simplify_eq/=.
    + by rewrite Hgs0.
    + by apply (inv_active _ I).
  - intros c m b Hin. apply live_new_cell; [done|]. by eapply (inv_guards _ I).
  - apply (inv_replies_nodup _ I).
  - intros c o s Hin. destruct (inv_replies _ I _ _ _ Hin) as [(x & Hx & Hn) Hd].
    assert (c <> n) by congruence. split; [|by apply decoded_new_cell].
    exists x. by rewrite lookup_insert_ne.
  - intros c x s. rewrite lookup_insert. case_decide as Hc; intros; simplify_eq/=.
    + exists s. simpl. by rewrite lookup_insert_eq, Hap0.
    + apply decoded_new_cell; [done|]. by eapply (inv_state _ I).
  - apply (inv_begun _ I).
  - intros c Hc. apply (inv_fresh _ I). unfold n in *. lia.
Qed.

Lemma elem_of_guards_of c m b gs : (c, m, b) ∈ guards_of c gs <-> (c, m, b) ∈ gs.
Proof. unfold guards_of. rewrite list_elem_of_filter. naive_solver. Qed.

(** The steps of a partial touch one live cell: [begin], [apply] and [drop]
    are instances of this lemma. *)
Lemma inv_touch cfg c x y gs bs ap :
  inv cfg ->
  cells (shared cfg) !! c = Some x ->
  is_Some (cell_state x) -> is_Some (cell_state y) ->
  (forall st, cell_state y = Some st ->
     exists st0, initial cfg !! c = Some st0
                 /\ st = fold_left decode_partial (msgs_of c ap) st0) ->
  active_partials y = length (guards_of c gs) ->
  (forall c', c' <> c ->
     guards_of c' gs = guards_of c' (guards cfg)
     /\ pending_of c' gs = pending_of c' (guards cfg)
     /\ msgs_of c' ap = msgs_of c' (applied cfg)
     /\ msgs_of c' bs = msgs_of c' (begun cfg)) ->
  msgs_of c bs ≡ₚ msgs_of c ap ++ pending_of c gs ->
  (forall o, (c, o, true) ∈ consumers cfg -> guards_of c gs = []) ->
  inv (mkConfig (with_cell (shared cfg) c y) gs (consumers cfg) (replies cfg) bs ap
         (initial cfg)).
Proof.
  intros I Hx Hsx [sy Hsy] Hdec Hact Hoth Hperm Hcons.
  assert (Hlive : forall c' gs cs rp bs ap ini, live cfg c' ->
    live (mkConfig (with_cell (shared cfg) c y) gs cs rp bs ap ini) c').
  { intros * Hl. by eapply live_with_cell. }
  assert (Hlt : c < next_cell (shared cfg)) by (apply (inv_alloc _ I); eauto).
  assert (Hd : forall c' st, c' <> c -> decoded cfg c' st ->
    decoded (mkConfig (with_cell (shared cfg) c y) gs (consumers cfg) (replies cfg) bs ap
               (initial cfg)) c' st).
  { intros c' st Hne (st0 & Hi & He). exists st0. simpl.
    by destruct (Hoth c' Hne) as (_ & _ & -> & _). }
  split; simpl.
  - intros c'. rewrite lookup_insert. case_decide; [by subst|]. apply (inv_alloc _ I).
  - intros k slot Hk. destruct (inv_slot _ I _ _ Hk). auto.
  - apply (inv_slot_inj _ I).
  - apply (inv_consumers_nodup _ I).
  - intros c' o b Hin. destruct (inv_consumers _ I _ _ _ Hin) as [Hl Hg]. split; [auto|].
    intros ->. destruct (decide (c' = c)) as [->|Hne]; [by eapply Hcons|].
    destruct (Hoth c' Hne) as (-> & _). auto.
  - intros c' z. rewrite lookup_insert. case_decide as Hc; intros; simplify_eq/=; [done|].
    destruct (Hoth c' ltac:(done)) as (-> & _). by apply (inv_active _ I).
  - intros c' m b Hin. destruct (decide (c' = c)) as [->|Hne].
    + exists y, sy. simpl. by rewrite lookup_insert_eq.
    + apply elem_of_guards_of in Hin. destruct (Hoth c' Hne) as (Hg & _). rewrite Hg in Hin.
      apply Hlive, (inv_guards _ I c' m b). by apply elem_of_guards_of.
  - apply (inv_replies_nodup _ I).
  - intros c' o st Hin. destruct (inv_replies _ I _ _ _ Hin) as [(z & Hz & Hn) Hde].
    assert (c' <> c) as Hne by (intros ->; rewrite Hx in Hz; simplify_eq; destruct Hsx; congruence).
    split; [|by apply Hd]. exists z. by rewrite lookup_insert_ne.
  - intros c' z st. rewrite lookup_insert. case_decide as Hc; intros; simplify_eq/=.
    + apply Hdec. done.
    + apply Hd; [done|]. by eapply (inv_state _ I).
  - intros c'. destruct (decide (c' = c)) as [->|Hne]; [done|].
    destruct (Hoth c' Hne) as (_ & -> & -> & ->). apply (inv_begun _ I).
  - intros c' Hc'. destruct (Hoth c' ltac:(lia)) as (-> & _ & -> & _). by apply (inv_fresh _ I).
Qed.

Lemma partial_target_slot w cid c :
  partial_target w cid = Some c ->
  exists k slot, slab_get (requests w) k = Some slot /\ slot_cell slot = c.
Proof. unfold partial_target. intros. state_cases. eauto. Qed.

Lemma inv_begin cfg cid msg c x :
  inv cfg -> partial_target (shared cfg) cid = Some c -> cells (shared cfg) !! c = Some x ->
  inv (mkConfig (with_cell (shared cfg) c (begin_partial x)) ((c, msg, false) :: guards cfg)
         (consumers cfg) (replies cfg) (begun cfg ++ [(c, msg)]) (applied cfg) (initial cfg)).
Proof.
  intros I (k & slot & Hk & Hc)%partial_target_slot Hx.
  destruct (inv_slot _ I _ _ Hk) as [(x' & st & Hx' & Hst) Hnc]. rewrite Hc in *. simplify_eq.
  eapply (inv_touch cfg _ x); simpl; eauto.
  - intros st' Hst'. by eapply (inv_state _ I).
  - rewrite guards_of_cons, decide_True by done. simpl. f_equal. by apply (inv_active _ I).
  - intros c' Hne. rewrite guards_of_cons, pending_of_cons, msgs_of_snoc. simpl.
    rewrite !decide_False by naive_solver. by rewrite app_nil_r.
  - rewrite msgs_of_snoc, pending_of_cons, !decide_True by done. rewrite (inv_begun _ I).
    rewrite <- app_assoc. apply Permutation_app_head. by rewrite Permutation_app_comm.
  - intros o Hin. exfalso. apply Hnc. apply elem_of_fst3. eauto.
Qed.

Lemma inv_apply cfg l1 l2 c msg x :
  inv cfg -> guards cfg = l1 ++ (c, msg, false) :: l2 -> cells (shared cfg) !! c = Some x ->
  inv (mkConfig (with_cell (shared cfg) c (cell_on_partial x msg)) (l1 ++ (c, msg, true) :: l2)
         (consumers cfg) (replies cfg) (begun cfg) (applied cfg ++ [(c, msg)]) (initial cfg)).
Proof.
  intros I Hg Hx. assert ((c, msg, false) ∈ guards cfg) as Hin by (rewrite Hg; set_solver).
  destruct (inv_guards _ I _ _ _ Hin) as (x' & st & Hx' & Hst). simplify_eq.
  assert (Hlen : length (guards_of c (l1 ++ (c, msg, true) :: l2))
                 = length (guards_of c (guards cfg))).
  { rewrite Hg, !guards_of_app, !guards_of_cons, !length_app. simpl. by rewrite !decide_True. }
  eapply (inv_touch cfg _ x); simpl; eauto; unfold cell_on_partial; rewrite ?Hst; simpl; eauto.
  - intros st' [= <-]. destruct (inv_state _ I _ _ _ Hx Hst) as (st0 & Hi & He).
    exists st0. rewrite msgs_of_snoc, decide_True, fold_left_app by done. simpl. by rewrite <- He.
  - rewrite Hlen. by apply (inv_active _ I).
  - intros c' Hne. rewrite Hg, !guards_of_app, !guards_of_cons, !pending_of_app, !pending_of_cons,
      msgs_of_snoc. simpl. rewrite !decide_False by naive_solver. by rewrite app_nil_r.
  - rewrite (inv_begun _ I), msgs_of_snoc, Hg, !pending_of_app, !pending_of_cons.
    rewrite !decide_True by done. rewrite decide_False by naive_solver. simpl.
    rewrite <- app_assoc. apply Permutation_app_head. simpl. by rewrite Permutation_middle.
  - intros o Hino. exfalso. eapply (guards_of_elem c msg false); [exact Hin|].
    by apply (proj2 (inv_consumers _ I _ _ _ Hino)).
Qed.

Lemma inv_drop cfg l1 l2 c msg x :
  inv cfg -> guards cfg = l1 ++ (c, msg, true) :: l2 -> cells (shared cfg) !! c = Some x ->
  inv (mkConfig (with_cell (shared cfg) c (end_partial x)) (l1 ++ l2)
         (consumers cfg) (replies cfg) (begun cfg) (applied cfg) (initial cfg)).
Proof.
  intros I Hg Hx. assert ((c, msg, true) ∈ guards cfg) as Hin by (rewrite Hg; set_solver).
  destruct (inv_guards _ I _ _ _ Hin) as (x' & st & Hx' & Hst). simplify_eq.
  eapply (inv_touch cfg _ x); simpl; eauto.
  - intros st' Hst'. by eapply (inv_state _ I).
  - rewrite (inv_active _ I _ _ Hx), Hg, !guards_of_app, guards_of_cons. simpl.
    rewrite decide_True by done. rewrite !length_app. simpl. lia.
  - intros c' Hne. rewrite Hg, !guards_of_app, guards_of_cons, !pending_of_app, pending_of_cons.
    simpl. by rewrite !decide_False by naive_solver.
  - rewrite (inv_begun _ I), Hg, !pending_of_app, pending_of_cons.
    by rewrite decide_False by naive_solver.
  - intros o Hino. exfalso. eapply (guards_of_elem c msg true); [exact Hin|].
    by apply (proj2 (inv_consumers _ I _ _ _ Hino)).
Qed.

(** Steps that only move a slot or a consumer keep the cell store. *)
Lemma inv_moved cfg w cs :
  inv cfg ->
  cells w = cells (shared cfg) -> next_cell w = next_cell (shared cfg) ->
  (forall k slot, slab_get (requests w) k = Some slot ->
     exists slot', slab_get (requests (shared cfg)) k = Some slot'
                   /\ slot_cell slot' = slot_cell slot
                   /\ slot_cell slot ∉ cs.*1.*1) ->
  NoDup cs.*1.*1 ->
  (forall c o b, (c, o, b) ∈ cs ->
     live cfg c /\ (b = true -> guards_of c (guards cfg) = [])) ->
  inv (mkConfig w (guards cfg) cs (replies cfg) (begun cfg) (applied cfg) (initial cfg)).
Proof.
  intros I Hcells Hnext Hslots Hnd Hcs.
  assert (Hl : forall c, live cfg c ->
    live (mkConfig w (guards cfg) cs (replies cfg) (begun cfg) (applied cfg) (initial cfg)) c).
  { intros c. unfold live. simpl. by rewrite Hcells. }
  split; simpl; rewrite ?Hcells, ?Hnext; try apply I; try done.
  - intros k slot (slot' & Hk & He & Hn)%Hslots. rewrite <- He in *. split; [|done].
    apply Hl. by apply (inv_slot _ I _ _ Hk).
  - intros k1 k2 s1 s2 (s1' & H1 & E1 & _)%Hslots (s2' & H2 & E2 & _)%Hslots He.
    eapply (inv_slot_inj _ I); [exact H1|exact H2|congruence].
  - intros c o b Hin. destruct (Hcs _ _ _ Hin). auto.
  - intros c m b Hin. apply Hl. by eapply (inv_guards _ I).
Qed.

Lemma take_slot_spec w d slot w' :
  take_slot w d = Some (slot, w') ->
  exists k, to_slab_key d = Some k
    /\ slab_get (requests w) k = Some slot
    /\ slot_generation w slot = Some (generation d)
    /\ cells w' = cells w /\ next_cell w' = next_cell w
    /\ forall j, slab_get (requests w') j = if decide (j = k) then None
                                            else slab_get (requests w) j.
Proof.
  unfold take_slot. destruct (to_slab_key d) as [k|]; [|done].
  destruct (slab_get (requests w) k) as [slot'|] eqn:Hk; [|done].
  destruct (generation_matches w slot' d) eqn:Hg; [|done].
  destruct (slab_remove (requests w) k) as [[slot'' rs]|] eqn:Hr; [|done].
  intros [= <- <-]. apply slab_remove_get in Hr as [Hk' Hr]. simplify_eq.
  apply bool_decide_eq_true in Hg. exists k. eauto 10.
Qed.

Lemma inv_take cfg d o slot w :
  inv cfg -> take_slot (shared cfg) d = Some (slot, w) ->
  inv (mkConfig w (guards cfg) ((slot_cell slot, o, false) :: consumers cfg)
         (replies cfg) (begun cfg) (applied cfg) (initial cfg)).
Proof.
  intros I (k & Hk & Hget & _ & Hc & Hn & Hrest)%take_slot_spec.
  destruct (inv_slot _ I _ _ Hget) as [Hl Hnc].
  apply inv_moved; [done|done|done|..]; simpl.
  - intros j slot'. rewrite Hrest. case_decide as Hj; [done|]. intros Hj'.
    exists slot'. split_and!; [done..|]. apply not_elem_of_cons. split.
    + intros He. apply Hj. by eapply (inv_slot_inj _ I).
    + by apply (inv_slot _ I _ _ Hj').
  - constructor; [done|]. apply (inv_consumers_nodup _ I).
  - intros c o' b [He|Hin]%elem_of_cons; [by simplify_eq|]. by eapply (inv_consumers _ I).
Qed.

Lemma inv_waited cfg l1 l2 c o x :
  inv cfg -> consumers cfg = l1 ++ (c, o, false) :: l2 ->
  cells (shared cfg) !! c = Some x -> active_partials x = 0 ->
  inv (mkConfig (shared cfg) (guards cfg) (l1 ++ (c, o, true) :: l2)
         (replies cfg) (begun cfg) (applied cfg) (initial cfg)).
Proof.
  intros I Hcs Hx Hact. rewrite (inv_active _ I _ _ Hx) in Hact.
  apply nil_length_inv in Hact.
  assert (Hdom : (l1 ++ (c, o, true) :: l2).*1.*1 = (consumers cfg).*1.*1)
    by by rewrite Hcs, !fmap_app.
  apply inv_moved; [done..| | |].
  - intros k slot Hk. exists slot. rewrite Hdom. split_and!; [done..|]. by eapply (inv_slot _ I).
  - rewrite Hdom. apply (inv_consumers_nodup _ I).
  - intros c' o' b Hin.
    assert ((c', o', b) = (c, o, true) \/ (c', o', b) ∈ consumers cfg) as [He|Hin'].
    { rewrite Hcs. revert Hin. rewrite !elem_of_app, !elem_of_cons. tauto. }
    + simplify_eq. split; [|done]. eapply (proj1 (inv_consumers _ I c o false _)).
      Unshelve. rewrite Hcs. set_solver.
    + by eapply (inv_consumers _ I).
Qed.

Lemma inv_consume cfg l1 l2 c o x st :
  inv cfg -> consumers cfg = l1 ++ (c, o, true) :: l2 ->
  cells (shared cfg) !! c = Some x -> cell_state x = Some st ->
  inv (mkConfig (with_cell (shared cfg) c (take_state x)) (guards cfg)
         (l1 ++ l2) (replies cfg ++ [(c, o, st)]) (begun cfg) (applied cfg) (initial cfg)).
Proof.
  intros I Hcs Hx Hst.
  pose proof (inv_consumers_nodup _ I) as Hnd. rewrite Hcs, !fmap_app in Hnd. simpl in Hnd.
  apply NoDup_app in Hnd as (Hnd1 & Hdisj & Hnd2). apply NoDup_cons in Hnd2 as [Hc2 Hnd2].
  assert (Hinc : (c, o, true) ∈ consumers cfg) by (rewrite Hcs; set_solver).
  pose proof (proj2 (inv_consumers _ I _ _ _ Hinc) eq_refl) as Hg0.
  assert (Hsub : forall y, y ∈ l1 ++ l2 -> y ∈ consumers cfg).
  { intros y. rewrite Hcs. set_solver. }
  assert (Hout : c ∉ (l1 ++ l2).*1.*1).
  { rewrite !fmap_app, not_elem_of_app. split; [|done]. intros H1.
    apply (Hdisj _ H1). left. }
  assert (Hl : forall c' gs cs rp bs ap ini, c' <> c -> live cfg c' ->
    live (mkConfig (with_cell (shared cfg) c (take_state x)) gs cs rp bs ap ini) c').
  { intros * Hne (y & s & Hy & Hs). exists y, s. simpl. by rewrite lookup_insert_ne. }
  split; simpl; try apply I.
  - intros c'. rewrite lookup_insert. case_decide; [subst; intros _|]; apply (inv_alloc _ I); eauto.
  - intros k slot Hk. destruct (inv_slot _ I _ _ Hk) as [Hlv Hnc].
    assert (slot_cell slot <> c) as Hne.
    { intros He. apply Hnc. rewrite He. apply elem_of_fst3. eauto. }
    split; [by apply Hl|]. intros (o' & b & Hin)%elem_of_fst3. apply Hnc, elem_of_fst3. eauto.
  - rewrite !fmap_app. apply NoDup_app. set_solver.
  - intros c' o' b Hin. destruct (inv_consumers _ I _ _ _ (Hsub _ Hin)).
    split; [apply Hl; [|done]|done]. intros ->. apply Hout, elem_of_fst3. eauto.
  - intros c' y. rewrite lookup_insert. case_decide; intros; simplify_eq/=; by apply (inv_active _ I).
  - intros c' m b Hin. apply Hl; [|by eapply (inv_guards _ I)]. intros ->.
    by eapply guards_of_elem.
  - rewrite !fmap_app. simpl. apply NoDup_app. split; [apply (inv_replies_nodup _ I)|].
    split; [|apply NoDup_singleton]. intros c' (o' & s' & Hin)%elem_of_fst3 ->%list_elem_of_singleton.
    destruct (inv_replies _ I _ _ _ Hin) as [(y & Hy & Hn) _]. congruence.
  - intros c' o' st' [Hin|Hin]%elem_of_app.
    + destruct (inv_replies _ I _ _ _ Hin) as [(y & Hy & Hn) Hd]. split; [|done].
      exists y. rewrite lookup_insert_ne; [done|]. intros ->. congruence.
    + apply list_elem_of_singleton in Hin. simplify_eq. split.
      * exists (take_state x). by rewrite lookup_insert_eq.
      * by eapply (inv_state _ I).
  - intros c' y s. rewrite lookup_insert. case_decide; intros; simplify_eq/=.
    by eapply (inv_state _ I).
Qed.

Lemma inv_consume_gone cfg l1 l2 c o x :
  inv cfg -> consumers cfg = l1 ++ (c, o, true) :: l2 ->
  cells (shared cfg) !! c = Some x -> cell_state x = None -> False.
Proof.
  intros I Hcs Hx Hn.
  destruct (inv_consumers _ I c o true ltac:(rewrite Hcs; set_solver)) as [(y & st & Hy & Hs) _].
  congruence.
Qed.

Lemma inv_drain cfg e slots w :
  inv cfg -> drain_in_flight (shared cfg) = (slots, w) ->
  inv (mkConfig w (guards cfg)
         (((fun s => (slot_cell s, FailWith e, false)) <$> slots) ++ consumers cfg)
         (replies cfg) (begun cfg) (applied cfg) (initial cfg)).
Proof.
  intros I [= <- <-].
  set (es := slab_iter (requests (shared cfg))).
  assert (Hes : forall s, s ∈ es.*2 -> exists k, slab_get (requests (shared cfg)) k = Some s).
  { intros s ([k s'] & -> & Hin)%list_elem_of_fmap. exists k. by apply slab_iter_get. }
  assert (Hfst : (((fun s => (slot_cell s, @FailWith Msg e, false)) <$> es.*2) ++ consumers cfg).*1.*1
                 = (slot_cell <$> es.*2) ++ (consumers cfg).*1.*1).
  { rewrite !fmap_app. f_equal. rewrite <- !list_fmap_compose. done. }
  assert (Hnd : NoDup (slot_cell <$> es.*2)).
  { pose proof (slab_iter_nodup (requests (shared cfg))) as Hnd. fold es in Hnd.
    assert (Hall : forall k s, (k, s) ∈ es -> slab_get (requests (shared cfg)) k = Some s)
      by (intros k s; apply slab_iter_get).
    clearbody es. clear Hes Hfst. induction es as [|[k s] es IH]; simpl in *; [constructor|].
    apply NoDup_cons in Hnd as [Hk Hnd]. constructor.
    - intros (s' & He & ([k' s''] & -> & Hin)%list_elem_of_fmap)%list_elem_of_fmap. simpl in *.
      apply Hk. apply list_elem_of_fmap. exists (k', s''). split; [|done]. simpl.
      eapply (inv_slot_inj _ I); [apply Hall; left|apply Hall; right; exact Hin|done].
    - apply IH; [done|]. intros k' s' Hin. apply Hall. by right. }
  apply inv_moved; simpl; [done..| | |].
  - intros k slot. by rewrite slab_get_new.
  - rewrite Hfst. apply NoDup_app. split; [done|]. split; [|apply (inv_consumers_nodup _ I)].
    intros c (s & -> & (k & Hk)%Hes)%list_elem_of_fmap. by apply (inv_slot _ I _ _ Hk).
  - intros c o b [Hin|Hin]%elem_of_app; [|by eapply (inv_consumers _ I)].
    apply list_elem_of_fmap in Hin as (s & [= -> -> ->] & (k & Hk)%Hes).
    split; [|done]. by apply (inv_slot _ I _ _ Hk).
Qed.

(** A timeout scan only flips [warned] flags. *)
Lemma scan_fold_slots now hard w es acc :
  forall k slot,
    slab_get (fold_left (fun acc e => scan_slot now hard acc w e) es acc).2 k = Some slot ->
    exists slot', slab_get acc.2 k = Some slot'
                  /\ slot_cell slot' = slot_cell slot /\ sent_at slot' = sent_at slot.
Proof.
  revert acc. induction es as [|[k0 s0] es IH]; intros acc k slot; simpl; [eauto|].
  intros (s1 & H1 & E1 & E2)%IH. simpl in H1. case_match; [|eauto].
  rewrite slab_get_alter in H1. case_decide; [|eauto].
  destruct (slab_get acc.2 k) as [s2|] eqn:E; simplify_eq/=. eauto.
Qed.

Lemma inv_scan cfg now hard ts w :
  inv cfg -> scan_timeouts now hard (shared cfg) = (ts, w) ->
  inv (mkConfig w (guards cfg) (consumers cfg) (replies cfg) (begun cfg) (applied cfg)
         (initial cfg)).
Proof.
  intros I Hs. unfold scan_timeouts in Hs.
  pose proof (scan_fold_slots now hard (shared cfg) (slab_iter (requests (shared cfg)))
                ([], requests (shared cfg))) as Hslots.
  destruct (fold_left _ _ _) as [es rs]. simplify_eq. simpl in Hslots.
  apply inv_moved; [done..| |apply (inv_consumers_nodup _ I)|by apply (inv_consumers _ I)].
  intros k slot (slot' & Hk & He & _)%Hslots. exists slot'. split_and!; [done..|].
  rewrite <- He. by apply (inv_slot _ I _ _ Hk).
Qed.

Lemma inv_step cfg cfg' : inv cfg -> wstep cfg cfg' -> inv cfg'.
Proof.
  intros I Hstep.
  destruct Hstep; eauto using inv_register, inv_begin, inv_apply, inv_drop, inv_take,
    inv_waited, inv_consume, inv_drain, inv_scan.
  by destruct (inv_consume_gone cfg l1 l2 c o x).
Qed.

Lemma reachable_inv id cfg : reachable id cfg -> inv cfg.
Proof. induction 1; eauto using inv_init, inv_step. Qed.

(** ** Progress *)

Inductive wsteps : Config -> Config -> Prop :=
| wsteps_refl cfg : wsteps cfg cfg
| wsteps_cons a b c : wstep a b -> wsteps b c -> wsteps a c.

(** Removing the guards of a cell one by one: each is applied if needed, then
    dropped. *)
Lemma drain_guards cfg c o b n :
  inv cfg -> length (guards_of c (guards cfg)) = n -> (c, o, b) ∈ consumers cfg ->
  exists cfg', wsteps cfg cfg' /\ inv cfg' /\ guards_of c (guards cfg') = []
               /\ consumers cfg' = consumers cfg.
Proof.
  revert cfg. induction n as [|n IH]; intros cfg I Hlen Hin.
  { exists cfg. apply nil_length_inv in Hlen. eauto using wsteps_refl. }
  destruct (guards_of c (guards cfg)) as [|[[c' m] f] gs] eqn:Hg; [done|].
  assert ((c', m, f) ∈ guards_of c (guards cfg)) as Hel by (rewrite Hg; left).
  unfold guards_of in Hel. apply list_elem_of_filter in Hel as [Hc Hel]. simpl in Hc. subst c'.
  assert (Hdrop : forall cfg, inv cfg -> length (guards_of c (guards cfg)) = S n ->
    (c, o, b) ∈ consumers cfg -> (c, m, true) ∈ guards cfg ->
    exists cfg', wsteps cfg cfg' /\ inv cfg' /\ guards_of c (guards cfg') = []
                 /\ consumers cfg' = consumers cfg).
  { clear cfg I Hlen Hin gs Hg Hel. intros cfg I Hlen Hin Hel.
    destruct (inv_guards _ I _ _ _ Hel) as (x & st & Hx & Hst).
    apply list_elem_of_split in Hel as (l1 & l2 & Hgs).
    pose proof (step_drop cfg l1 l2 c m x Hgs Hx) as Hstep.
    destruct (IH _ (inv_step _ _ I Hstep)) as (cfg' & Hs & HI & Hz & Hc); simpl; [|done|].
    - rewrite Hgs, !guards_of_app, guards_of_cons, decide_True, !length_app in Hlen by done.
      rewrite guards_of_app, length_app. simpl in Hlen. lia.
    - exists cfg'. split_and!; [by eapply wsteps_cons|done..]. }
  destruct f; [apply Hdrop; [done|by rewrite Hg|done|done]|].
  destruct (inv_guards _ I _ _ _ Hel) as (x & st & Hx & Hst).
  apply list_elem_of_split in Hel as (l1 & l2 & Hgs).
  pose proof (step_apply cfg l1 l2 c m x Hgs Hx) as Hstep.
  destruct (Hdrop _ (inv_step _ _ I Hstep)) as (cfg' & Hs & HI & Hz & Hc); simpl; [|done|set_solver|].
  - rewrite <- Hlen, <- Hg, Hgs, !guards_of_app, !guards_of_cons, !length_app. simpl.
    by rewrite !decide_True by done.
  - exists cfg'. split_and!; [by eapply wsteps_cons|done..].
Qed.

Lemma consumer_progress cfg c o b :
  inv cfg -> (c, o, b) ∈ consumers cfg ->
  exists cfg' st, wsteps cfg cfg' /\ (c, o, st) ∈ replies cfg'.
Proof.
  intros I Hin.
  destruct (drain_guards cfg c o b _ I eq_refl Hin) as (cfg1 & Hs1 & I1 & Hg & Hc).
  rewrite <- Hc in Hin. destruct (inv_consumers _ I1 _ _ _ Hin) as [(x & st & Hx & Hst) _].
  apply list_elem_of_split in Hin as (l1 & l2 & Hcs).
  assert (exists cfg2 l1 l2, wsteps cfg1 cfg2 /\ consumers cfg2 = l1 ++ (c, o, true) :: l2
                        /\ cells (shared cfg2) !! c = Some x) as (cfg2 & m1 & m2 & Hs2 & Hc2 & Hx2).
  { destruct b; [exists cfg1, l1, l2; eauto using wsteps_refl|].
    assert (active_partials x = 0) as Ha by (rewrite (inv_active _ I1 _ _ Hx), Hg; done).
    eexists _, _, _. split_and!; [eapply wsteps_cons; [by eapply step_waited|apply wsteps_refl]|done..]. }
  assert (Htr : forall a b' d, wsteps a b' -> wsteps b' d -> wsteps a d).
  { intros a b' d H1. revert d. induction H1; eauto using wsteps_cons. }
  eexists _, st. split.
  - eapply Htr; [exact Hs1|]. eapply Htr; [exact Hs2|].
    eapply wsteps_cons; [by eapply step_consume|apply wsteps_refl].
  - simpl. set_solver.
Qed.

(** ** Correlation identifiers over a run of the worker *)

Inductive op : Type :=
| OpRegister (now : Z) (st : St)
| OpTake (d : DispatchKey)
| OpScan (now : Z) (hard : option Z)
| OpDrain.

(** The dispatch keys issued by a sequence of slab operations. *)
Fixpoint run_ops (ops : list op) (w : WorkerShared) : list DispatchKey * WorkerShared :=
  match ops with
  | [] => ([], w)
  | OpRegister now st :: ops =>
      let '(_, _, d, w1) := register_request now st w in
      let '(ds, w2) := run_ops ops w1 in
      (option_list d ++ ds, w2)
  | OpTake d :: ops =>
      run_ops ops (match take_slot w d with Some (_, w1) => w1 | None => w end)
  | OpScan now hard :: ops => run_ops ops (scan_timeouts now hard w).2
  | OpDrain :: ops => run_ops ops (drain_in_flight w).2
  end.

Definition is_register (o : op) : bool :=
  match o with OpRegister _ _ => true | _ => false end.

Lemma take_slot_counter w d slot w' :
  take_slot w d = Some (slot, w') -> generation_counter w' = generation_counter w.
Proof. unfold take_slot. intros. state_cases. done. Qed.

Lemma scan_counter now hard w :
  generation_counter (scan_timeouts now hard w).2 = generation_counter w.
Proof. unfold scan_timeouts. by destruct (fold_left _ _ _). Qed.

Lemma register_request_spec now st w key g d w' :
  register_request now st w = (key, g, d, w') ->
  g = u32_wrapping_add (generation_counter w) 1 /\ generation_counter w' = g
  /\ d = with_generation key g
  /\ (0 <= key)%Z
  /\ slab_get (requests w') key = Some (mkSlot now false (next_cell w))
  /\ cells w' !! next_cell w = Some (mkCell g (Some st) 0).
Proof.
  unfold register_request, next_generation, insert_slot. simpl.
  pose proof (slab_get_insert (requests w) (mkSlot now false (next_cell w))) as Hget.
  pose proof (slab_insert_key (requests w) (mkSlot now false (next_cell w))) as Hkey.
  destruct (slab_insert _ _) as [k rs]. intros [= <- <- <- <-]. simpl in *.
  rewrite Hget, decide_True by done. by rewrite lookup_insert_eq.
Qed.

(** The generation tags issued by a run are consecutive modulo 2^30; a
    registration that panics on its key issues none. *)
Lemma run_ops_generations ops w :
  exists idx : list Z,
    (generation <$> (run_ops ops w).1)
      = ((fun i => (generation_counter w + i) mod 2 ^ 30)%Z <$> idx)
    /\ NoDup idx
    /\ Forall (fun i => 1 <= i <= Z.of_nat (length (filter (fun o => is_register o) ops)))%Z idx.
Proof.
  revert w. induction ops as [|o ops IH]; intros w; simpl.
  { exists []. repeat constructor. }
  destruct o as [now st|d|now hard|]; simpl.
  - destruct (register_request now st w) as [[[key g] d] w1] eqn:Hr.
    apply register_request_spec in Hr as (Hg & Hc & Hd & Hk & _).
    destruct (IH w1) as (idx & Hgen & Hnd & Hb).
    destruct (run_ops ops w1) as [ds w2]. simpl in *. rewrite Hc in Hgen.
    assert (Hgm : forall i, ((g + i) mod 2 ^ 30 = (generation_counter w + (1 + i)) mod 2 ^ 30)%Z).
    { intros i. rewrite Hg. unfold u32_wrapping_add, wrap_u.
      rewrite <- Z.add_mod_idemp_l, Z.mod_mod_divide by (lia || by exists 4%Z).
      rewrite Z.add_mod_idemp_l by lia. f_equal. lia. }
    set (js := (Z.add 1) <$> idx).
    assert (Hjs : (generation <$> ds) = ((fun i => (generation_counter w + i) mod 2 ^ 30)%Z <$> js)).
    { rewrite Hgen. unfold js. rewrite <- list_fmap_compose. apply list_fmap_ext.
      intros ? i _. simpl. apply Hgm. }
    assert (Hnj : NoDup js) by (apply NoDup_fmap; [intros ???; lia|done]).
    assert (Hbj : Forall (fun i => 2 <= i
      <= Z.of_nat (S (length (filter (fun o => is_register o) ops))))%Z js).
    { unfold js. apply Forall_fmap. eapply Forall_impl; [exact Hb|]. simpl. intros. lia. }
    destruct d as [d|].
    + exists (1%Z :: js). change (option_list (Some d) ++ ds) with (d :: ds).
      rewrite !fmap_cons, Hjs. split_and!.
      * f_equal. symmetry in Hd. destruct (with_generation_decodes _ _ _ Hk Hd) as (_ & _ & ->).
        rewrite <- (Z.add_0_r g). by rewrite Hgm.
      * constructor; [|done]. intros Hin. rewrite Forall_forall in Hbj. specialize (Hbj _ Hin). lia.
      * constructor; [lia|]. eapply Forall_impl; [exact Hbj|]. simpl. intros. lia.
    + exists js. split_and!; [done..|]. eapply Forall_impl; [exact Hbj|]. simpl. intros. lia.
  - replace (generation_counter w) with (generation_counter (match take_slot w d with
      | Some (_, w1) => w1 | None => w end)); [apply IH|].
    destruct (take_slot w d) as [[slot w1]|] eqn:E; [|done]. by eapply take_slot_counter.
  - rewrite <- (scan_counter now hard w). apply IH.
  - apply (IH (with_requests w slab_new)).
Qed.

Lemma run_ops_single_use ops w :
  (Z.of_nat (length (filter (fun o => is_register o) ops)) <= 2 ^ 30)%Z ->
  NoDup (run_ops ops w).1.
Proof.
  intros Hlen. destruct (run_ops_generations ops w) as (idx & Hgen & Hnd & Hb).
  apply (NoDup_fmap_1 generation). rewrite Hgen.
  apply NoDup_fmap_2_strong; [|done]. intros i j Hi Hj He.
  rewrite Forall_forall in Hb. pose proof (Hb i Hi). pose proof (Hb j Hj).
  set (c := generation_counter w) in *.
  pose proof (Z.div_mod (c + i) (2 ^ 30) ltac:(lia)).
  pose proof (Z.div_mod (c + j) (2 ^ 30) ltac:(lia)).
  nia.
Qed.
End Worker.

(** ** Properties *)

Section Claims.
Context {St Msg SL : Type}.
Context `{Laws : SlabLaws RequestSlot SL}.
Variable decode_partial : St -> Msg -> St.

(** C5: in every interleaving of submissions, partial responses, responses,
    failures, cancellations, timeout scans and drains, each request receives at
    most one outcome, and the decoder state handed to that outcome is the
    initial state after every partial response that was dispatched to the
    request: the final consumer never overtakes a partial in progress, and no
    partial is applied after it. *)
Theorem worker_reply_once_after_partials (id : Z) (cfg : @Config St Msg SL) :
  reachable decode_partial id cfg ->
  NoDup (replies cfg).*1.*1
  /\ forall c o st,
       (c, o, st) ∈ replies cfg ->
       (exists st0, initial cfg !! c = Some st0
                    /\ st = fold_left decode_partial (msgs_of c (applied cfg)) st0)
       /\ msgs_of c (begun cfg) ≡ₚ msgs_of c (applied cfg)
       /\ guards_of c (guards cfg) = [].
Proof using Laws.
  intros I%reachable_inv. split; [apply (inv_replies_nodup _ _ I)|].
  intros c o st Hin. destruct (inv_replies _ _ I _ _ _ Hin) as [(x & Hx & Hn) Hd].
  assert (Hg : guards_of c (guards cfg) = []).
  { destruct (guards_of c (guards cfg)) as [|[[c' m] b] gs] eqn:E; [done|].
    assert ((c', m, b) ∈ guards_of c (guards cfg)) as Hel by (rewrite E; left).
    unfold guards_of in Hel. apply list_elem_of_filter in Hel as [Hc Hel]. simpl in Hc. subst.
    destruct (inv_guards _ _ I _ _ _ Hel) as (y & st' & Hy & Hs). congruence. }
  split_and!; [done| |done]. rewrite (inv_begun _ _ I c).
  replace (pending_of c (guards cfg)) with (@nil Msg); [by rewrite app_nil_r|].
  symmetry. apply nil_length_inv.
  enough (length (pending_of c (guards cfg)) <= length (guards_of c (guards cfg))) by
    (rewrite Hg in *; simpl in *; lia).
  unfold pending_of, guards_of. rewrite !length_fmap. clear.
  induction (guards cfg) as [|g gs IH]; [done|]. rewrite !filter_cons.
  repeat case_decide; simpl; lia || naive_solver.
Qed.

(** No lost wake-up in the reply protocol.  Once a slot has been taken, its
    consumer can always run to completion: finitely many steps that apply and
    drop the partials still in progress lead to its outcome. *)
Theorem worker_taken_slot_completes (id : Z) (cfg : @Config St Msg SL) c o b :
  reachable decode_partial id cfg ->
  (c, o, b) ∈ consumers cfg ->
  exists cfg' st, wsteps decode_partial cfg cfg' /\ (c, o, st) ∈ replies cfg'.
Proof using Laws. intros I%reachable_inv. by apply consumer_progress. Qed.

(** Correlation identifiers are single use.  Over any sequence of slab
    operations of a worker that registers at most 2^30 requests, the dispatch
    keys it issues are pairwise distinct, however slots are recycled. *)
Theorem worker_cid_single_use (ops : list op) (w : @WorkerShared St SL) :
  (Z.of_nat (length (filter (fun o => is_register o) ops)) <= 2 ^ 30)%Z ->
  NoDup (run_ops ops w).1.
Proof using Laws. apply run_ops_single_use. Qed.

(** C36: a response carrying the correlation identifier of a request finds that
    request's slot exactly when the generation counter value of the request is
    below 2^30.  The counter is a full [u32] while the identifier carries 30
    bits of it, so from the 2^30-th request of a worker on, [take_slot] treats
    the worker's own responses as stale and drops them. *)
Theorem worker_response_found_iff now st (w w' : @WorkerShared St SL) key g d :
  register_request now st w = (key, g, Some d, w') ->
  is_Some (take_slot w' d) <-> (g < 2 ^ 30)%Z.
Proof using Laws.
  intros (Hg & _ & Hd & Hk & Hget & Hcell)%register_request_spec. symmetry in Hd.
  destruct (with_generation_decodes _ _ _ Hk Hd) as (_ & Hkey & Hgen).
  assert (0 <= g)%Z by (rewrite Hg; apply (wrap_u_bound 32); lia).
  unfold take_slot, generation_matches, slot_generation. rewrite Hkey, Hget. simpl.
  rewrite Hcell, Hgen. simpl. case_bool_decide as Hb.
  - destruct (slab_remove_occupied _ _ _ Hget) as [rs ->]. simplify_eq.
    split; [|by eexists]. intros _. rewrite Hb. apply Z.mod_pos_bound. lia.
  - split; [by intros []|]. intros Hlt. destruct Hb. by rewrite Z.mod_small by lia.
Qed.
End Claims.

(** ** Witnesses

    The decoder appends messages to a list, the slab is the reference one. *)

Definition demo_config : Type := @Config (list nat) nat (gmap Z RequestSlot).

Definition demo_decode (st : list nat) (m : nat) : list nat := st ++ [m].

(** Extend a run by the given rule, its premises evaluated. *)
Ltac demo_step R rule :=
  eapply reach_step in R; [|rule; vm_compute; reflexivity]; cbn in R.

Lemma demo_run :
  exists cfg : demo_config,
    reachable demo_decode 0 cfg /\ replies cfg = [(0, FinishAndReply 9, [5])].
Proof.
  pose proof (reach_init demo_decode 0 : reachable demo_decode 0 (config_new 0 : demo_config)) as R.
  demo_step R ltac:(eapply (step_register _ _ 0 [])).
  demo_step R ltac:(eapply (step_begin _ _ (Int (2 ^ 32 + 2)) 5)).
  demo_step R ltac:(eapply (step_apply _ _ [] [] 0 5)).
  demo_step R ltac:(eapply (step_drop _ _ [] [] 0 5)).
  demo_step R ltac:(eapply (step_take _ _ (mkDispatchKey (2 ^ 32 + 2)) (FinishAndReply 9))).
  demo_step R ltac:(eapply (step_waited _ _ [] [] 0 (FinishAndReply 9))).
  demo_step R ltac:(eapply (step_consume _ _ [] [] 0 (FinishAndReply 9))).
  eexists. split; [exact R|reflexivity].
Qed.

(** A slot taken while a partial is still in progress. *)
Lemma demo_taken :
  exists cfg : demo_config,
    reachable demo_decode 0 cfg
    /\ guards cfg = [(0, 5, false)] /\ (0, FinishAndReply 9, false) ∈ consumers cfg.
Proof.
  pose proof (reach_init demo_decode 0 : reachable demo_decode 0 (config_new 0 : demo_config)) as R.
  demo_step R ltac:(eapply (step_register _ _ 0 [])).
  demo_step R ltac:(eapply (step_begin _ _ (Int (2 ^ 32 + 2)) 5)).
  demo_step R ltac:(eapply (step_take _ _ (mkDispatchKey (2 ^ 32 + 2)) (FinishAndReply 9))).
  eexists. split_and!; [exact R|reflexivity|left].
Qed.

Lemma worker_reply_witness :
  exists cfg : demo_config,
    replies cfg = [(0, FinishAndReply 9, [5])]
    /\ msgs_of 0 (begun cfg) ≡ₚ msgs_of 0 (applied cfg).
Proof.
  destruct demo_run as (cfg & R & Hr). exists cfg. split; [done|].
  destruct (worker_reply_once_after_partials demo_decode 0 cfg R) as [_ H].
  apply (H 0 (FinishAndReply 9) [5]). rewrite Hr. left.
Defined.

Lemma worker_taken_witness :
  exists cfg cfg' : demo_config,
    guards cfg = [(0, 5, false)]
    /\ exists st, wsteps demo_decode cfg cfg' /\ (0, FinishAndReply 9, st) ∈ replies cfg'.
Proof.
  destruct demo_taken as (cfg & R & Hg & Hin).
  destruct (worker_taken_slot_completes demo_decode 0 cfg 0 (FinishAndReply 9) false R Hin)
    as (cfg' & st & H). eauto.
Defined.

Lemma worker_cid_witness :
  NoDup (run_ops [OpRegister 0 [1]; OpTake (mkDispatchKey (2 ^ 32 + 2)); OpRegister 5 [2]]
           (worker_new 0 : @WorkerShared (list nat) (gmap Z RequestSlot))).1.
Proof. apply worker_cid_single_use. vm_compute. done. Defined.

(** The first request of a worker, and a request after 2^30 - 1 earlier ones. *)
Definition demo_worker (counter : Z) : @WorkerShared (list nat) (gmap Z RequestSlot) :=
  mkShared 0 slab_new counter ∅ 0.

Lemma worker_response_witness :
  is_Some (take_slot (register_request 0 [1] (demo_worker 0)).2 (mkDispatchKey (2 ^ 32 + 2)))
  /\ ~ is_Some (take_slot (register_request 0 [1] (demo_worker (2 ^ 30 - 1))).2
                  (mkDispatchKey 2)).
Proof.
  assert (H1 : register_request 0 [1] (demo_worker 0)
    = (1%Z, 1%Z, Some (mkDispatchKey (2 ^ 32 + 2)), (register_request 0 [1] (demo_worker 0)).2))
    by (vm_compute; reflexivity).
  assert (H2 : register_request 0 [1] (demo_worker (2 ^ 30 - 1))
    = (1%Z, (2 ^ 30)%Z, Some (mkDispatchKey 2),
       (register_request 0 [1] (demo_worker (2 ^ 30 - 1))).2))
    by (vm_compute; reflexivity).
  split.
  - exact (proj2 (worker_response_found_iff _ _ _ _ _ _ _ H1) ltac:(lia)).
  - intros H. pose proof (proj1 (worker_response_found_iff _ _ _ _ _ _ _ H2) H). lia.
Defined.
