(* ===== verification/Update.v ===== *)
(** * Subscription updates and field kinds

    Models [crates/xbbg-async/src/engine/state/update.rs] (field layouts, sparse
    update values, the kind lattice used to type a column from what the SDK
    delivers) and the type codes of [crates/xbbg-core/src/datatype.rs].
    An [f64] is a [spec_float] (binary64 as an inductive type); [u16] field
    indices and [u32] topic identifiers are [nat]. *)

From Stdlib Require Import ZArith Lia SpecFloat.
From stdpp Require Import pretty.
From S2P Require Import Prelude.

(** ** SDK type codes *)

Inductive DataType : Type :=
| DtBool | DtChar | DtByte | DtInt32 | DtInt64 | DtFloat32 | DtFloat64 | DtString
| DtByteArray | DtDate | DtTime | DtDecimal | DtDatetime | DtEnumeration
| DtSequence | DtChoice | DtCorrelationId.

Definition from_raw (v : Z) : DataType :=
  match v with
  | 1 => DtBool | 2 => DtChar | 3 => DtByte | 4 => DtInt32 | 5 => DtInt64
  | 6 => DtFloat32 | 7 => DtFloat64 | 8 => DtString | 9 => DtByteArray
  | 10 => DtDate | 11 => DtTime | 12 => DtDecimal | 13 => DtDatetime
  | 14 => DtEnumeration | 15 => DtSequence | 16 => DtChoice | 17 => DtCorrelationId
  | _ => DtString
  end%Z.

(** ** Layouts and values *)

Inductive FieldKind : Type :=
| KUnknown | KBool | KI32 | KI64 | KF64 | KStr | KDate32 | KTime64Micros
| KTimestampMicros.

#[export] Instance FieldKind_eq_dec : EqDecision FieldKind.
Proof. solve_decision. Defined.

Record FieldMeta : Type := mkMeta {
  meta_name : string;
  meta_index : nat;
  meta_kind : FieldKind;
  meta_provisional : bool
}.

#[export] Instance FieldMeta_eq_dec : EqDecision FieldMeta.
Proof. solve_decision. Defined.

Record FieldLayout : Type := mkLayout {
  layout_version : Z;
  layout_fields : list FieldMeta
}.

Inductive UpdateValue : Type :=
| VNull
| VBool (b : bool)
| VI32 (v : Z)
| VI64 (v : Z)
| VF64 (v : spec_float)
| VStr (s : string)
| VDate32 (v : Z)
| VTime64Micros (v : Z)
| VTimestampMicros (v : Z).

Record UpdateField : Type := mkField { field_index : nat; field_value : UpdateValue }.

Record SubscriptionUpdate : Type := mkUpdate {
  timestamp_us : Z;
  topic_id : nat;
  update_topic : string;
  update_layout : FieldLayout;
  update_values : list UpdateField
}.

Definition field_meta_new (name : string) (index : nat) (kind : FieldKind) : FieldMeta :=
  mkMeta name index kind false.

(** ** Kinds *)

Definition from_value (v : UpdateValue) : FieldKind :=
  match v with
  | VNull => KUnknown
  | VBool _ => KBool
  | VI32 _ => KI32
  | VI64 _ => KI64
  | VF64 _ => KF64
  | VStr _ => KStr
  | VDate32 _ => KDate32
  | VTime64Micros _ => KTime64Micros
  | VTimestampMicros _ => KTimestampMicros
  end.

Definition from_blp_datatype (d : DataType) : FieldKind :=
  match d with
  | DtBool => KBool
  | DtInt32 => KI32
  | DtInt64 => KI64
  | DtFloat32 | DtFloat64 | DtDecimal => KF64
  | DtString | DtEnumeration => KStr
  | DtDate => KDate32
  | DtTime => KTime64Micros
  | DtChar | DtByte | DtDatetime | DtSequence | DtChoice | DtByteArray
  | DtCorrelationId => KUnknown
  end.

Definition merge_observed (self observed : FieldKind) : FieldKind :=
  match self, observed with
  | KUnknown, kind => kind
  | kind, KUnknown => kind
  | kind, observed => if decide (kind = observed) then kind else KStr
  end.

(** A kind with its [provisional] flag; the boolean result of the Rust methods
    is whether the layout must change. *)
Definition seed_hint (self : FieldKind * bool) (hint : FieldKind)
  : (FieldKind * bool) * bool :=
  if decide (self.1 = KUnknown /\ hint <> KUnknown) then ((hint, true), true)
  else (self, false).

Definition observe (self : FieldKind * bool) (observed : FieldKind)
  : (FieldKind * bool) * bool :=
  if decide (observed = KUnknown) then (self, false)
  else
    let merged := if self.2 then observed else merge_observed self.1 observed in
    let changed := negb (bool_decide (merged = self.1)) || self.2 in
    ((merged, false), changed).

(** ** Cached strings

    [cached_str] reuses the previous allocation when the text is equal; the
    cache holds the byte length and the text. *)
Definition StringValueCache : Type := option (Z * string).

Definition cached_str (value : string) (cache : option StringValueCache)
  : string * option StringValueCache :=
  match cache with
  | None => (value, None)
  | Some cache =>
      match cache with
      | Some (_, cached) =>
          if decide (cached = value) then (cached, Some cache)
          else (value, Some (Some (Z.of_nat (String.length value), value)))
      | None => (value, Some (Some (Z.of_nat (String.length value), value)))
      end
  end.

Definition bool_text (b : bool) : string := if b then "true" else "false".

Section Lossy.
(** Rust's shortest round-trip rendering of a float. *)
Variable f64_display : spec_float -> string.

Definition as_string_lossy (v : UpdateValue) : option string :=
  match v with
  | VNull => None
  | VBool b => Some (bool_text b)
  | VI32 v | VI64 v | VDate32 v | VTime64Micros v | VTimestampMicros v => Some (pretty v)
  | VF64 v => Some (f64_display v)
  | VStr s => Some s
  end.
End Lossy.

(** ** The kind lattice *)

(** Observing a sequence of kinds, as decoding consecutive messages does. *)
Definition observe_all (self : FieldKind * bool) (ks : list FieldKind) : FieldKind * bool :=
  fold_left (fun s k => (observe s k).1) ks self.

(** The join of a list of kinds: [KUnknown] is bottom, [KStr] is top, distinct
    concrete kinds join to [KStr]. *)
Definition kind_join (ks : list FieldKind) : FieldKind :=
  fold_right merge_observed KUnknown ks.

#[export] Instance merge_observed_comm : Comm (=) merge_observed.
Proof. intros [] []; done. Qed.
#[export] Instance merge_observed_assoc : Assoc (=) merge_observed.
Proof. intros [] [] []; done. Qed.
#[export] Instance merge_observed_idemp : IdemP (=) merge_observed.
Proof. intros []; done. Qed.
#[export] Instance merge_observed_unknown_l : LeftId (=) KUnknown merge_observed.
Proof. intros []; done. Qed.

Lemma kind_join_perm ks1 ks2 : ks1 ≡ₚ ks2 -> kind_join ks1 = kind_join ks2.
Proof.
  induction 1; simpl; [done|congruence| |congruence].
  by rewrite !(assoc_L merge_observed), (comm_L merge_observed y).
Qed.

Lemma observe_all_cons s k ks : observe_all s (k :: ks) = observe_all (observe s k).1 ks.
Proof. done. Qed.

Lemma observe_all_concrete k ks :
  observe_all (k, false) ks = (merge_observed k (kind_join ks), false).
Proof.
  revert k. induction ks as [|k' ks IH]; intros k.
  { simpl. f_equal. by rewrite (comm_L merge_observed), (left_id_L KUnknown _). }
  rewrite observe_all_cons. unfold observe. case_decide as Hu; simpl; [subst k'; apply IH|].
  rewrite IH. by rewrite (assoc_L merge_observed).
Qed.

Lemma kind_join_unknown ks :
  kind_join ks = KUnknown <-> Forall (fun k => k = KUnknown) ks.
Proof.
  induction ks as [|k ks IH]; simpl; [by split|]. rewrite Forall_cons, <- IH.
  destruct k, (kind_join ks); simpl; naive_solver.
Qed.

(** ** Properties *)

(** Typing a column is order independent and hints never leak.  After any
    sequence of observed kinds the kind of a field is: unchanged (with its hint)
    if nothing concrete was observed; otherwise the join of the observed kinds,
    joined with the previous kind unless that was only a provisional hint, and
    no longer provisional.  Hence it only depends on the multiset of observed
    kinds. *)
Theorem observe_all_join (k : FieldKind) (prov : bool) (ks ks' : list FieldKind) :
  observe_all (k, prov) ks
  = (if decide (kind_join ks = KUnknown) then (k, prov)
     else (if prov then kind_join ks else merge_observed k (kind_join ks), false))
  /\ (ks ≡ₚ ks' -> observe_all (k, prov) ks = observe_all (k, prov) ks').
Proof.
  assert (Hmain : forall ks, observe_all (k, prov) ks
    = (if decide (kind_join ks = KUnknown) then (k, prov)
       else (if prov then kind_join ks else merge_observed k (kind_join ks), false))).
  { clear ks ks'. intros ks. destruct prov.
    - induction ks as [|k' ks IH]; [done|]. rewrite observe_all_cons. unfold observe.
      destruct (decide (k' = KUnknown)) as [->|Hu]; [apply IH|].
      simpl. rewrite observe_all_concrete. rewrite decide_False; [done|]. by destruct k', (kind_join ks).
    - rewrite observe_all_concrete. case_decide as Hu; [|done]. rewrite Hu.
      by destruct k. }
  split; [apply Hmain|]. intros Hp. by rewrite !Hmain, (kind_join_perm _ _ Hp).
Qed.
