(* ===== verification/Arrow.v ===== *)
(** * Arrow batches of subscription updates

    Models [crates/xbbg-async/src/engine/state/update_arrow.rs]: the batcher that
    turns sparse updates into record batches with a presence bitmap.  An Arrow
    array is its logical contents, a list of optional values; a record batch is
    a schema with its columns.  [Arc::ptr_eq] in [matches_layout] is a shortcut
    for layouts that are structurally equal, so it does not appear here.  The
    builder capacity only sizes allocations.  Rendering a float ([ryu],
    [f64::to_string]) is external and a parameter. *)

From Stdlib Require Import ZArith Lia SpecFloat.
From stdpp Require Import pretty numbers.
From S2P Require Import Prelude Update.

(** ** Schemas, columns, batches *)

Inductive ArrowType : Type :=
| AUtf8 | ABoolean | AInt32 | AInt64 | AFloat64 | ADate32 | ATime64Micros
| ATimestampMicrosUtc | ABinary.

Record ArrowField : Type := mkArrowField {
  af_name : string;
  af_type : ArrowType;
  af_nullable : bool
}.

Inductive acell : Type :=
| CBool (b : bool)
| CI32 (v : Z) | CI64 (v : Z)
| CF64 (v : spec_float)
| CStr (s : string)
| CDate32 (v : Z) | CTime64 (v : Z) | CTimestamp (v : Z)
| CBinary (bytes : list Z).

Definition column : Type := list (option acell).

Record RecordBatch : Type := mkBatch { rb_schema : list ArrowField; rb_columns : list column }.

Definition arrow_datatype (kind : FieldKind) : ArrowType :=
  match kind with
  | KUnknown | KStr => AUtf8
  | KBool => ABoolean
  | KI32 => AInt32
  | KI64 => AInt64
  | KF64 => AFloat64
  | KDate32 => ADate32
  | KTime64Micros => ATime64Micros
  | KTimestampMicros => ATimestampMicrosUtc
  end.

Definition PRESENCE_COLUMN_NAME : string := "__xbbg_present".

Definition schema_of (layout : FieldLayout) : list ArrowField :=
  [mkArrowField "timestamp" ATimestampMicrosUtc false; mkArrowField "topic" AUtf8 false]
  ++ ((fun meta => mkArrowField (meta_name meta) (arrow_datatype (meta_kind meta)) true)
        <$> layout_fields layout)
  ++ [mkArrowField PRESENCE_COLUMN_NAME ABinary false].

(** ** Values to cells *)

(** [i as f64]: round to nearest, ties to even. *)
Definition f64_of_int (z : Z) : spec_float := binary_normalize 53 1024 z 0 false.

Definition f64_is_finite (f : spec_float) : bool :=
  match f with S754_zero _ | S754_finite _ _ _ => true | _ => false end.

Inductive ColumnBuilder : Type :=
| BTimestamp (cells : column)
| BTopic (cells : column)
| BPresence (cells : column)
| BBool (cells : column)
| BI32 (cells : column)
| BI64 (cells : column)
| BF64 (cells : column)
| BString (cells : column)
| BDate32 (cells : column)
| BTime64Micros (cells : column)
| BTimestampMicros (cells : column).

Definition for_kind (kind : FieldKind) : ColumnBuilder :=
  match kind with
  | KUnknown | KStr => BString []
  | KBool => BBool []
  | KI32 => BI32 []
  | KI64 => BI64 []
  | KF64 => BF64 []
  | KDate32 => BDate32 []
  | KTime64Micros => BTime64Micros []
  | KTimestampMicros => BTimestampMicros []
  end.

Definition finish (b : ColumnBuilder) : column :=
  match b with
  | BTimestamp c | BTopic c | BPresence c | BBool c | BI32 c | BI64 c | BF64 c
  | BString c | BDate32 c | BTime64Micros c | BTimestampMicros c => c
  end.

(** The fixed columns; [None] is the [unreachable!] of a mismatched builder. *)
Definition append_timestamp (b : ColumnBuilder) (v : Z) : option ColumnBuilder :=
  match b with BTimestamp c => Some (BTimestamp (c ++ [Some (CTimestamp v)])) | _ => None end.
Definition append_topic (b : ColumnBuilder) (s : string) : option ColumnBuilder :=
  match b with BTopic c => Some (BTopic (c ++ [Some (CStr s)])) | _ => None end.
Definition append_presence (b : ColumnBuilder) (bytes : list Z) : option ColumnBuilder :=
  match b with BPresence c => Some (BPresence (c ++ [Some (CBinary bytes)])) | _ => None end.

Section Batcher.
Variable ryu_format_finite : spec_float -> string.
Variable f64_display : spec_float -> string.

Definition string_cell (value : option UpdateValue) : option acell :=
  match value with
  | Some (VBool b) => Some (CStr (bool_text b))
  | Some (VI32 v) | Some (VI64 v) => Some (CStr (pretty v))
  | Some (VF64 v) =>
      if f64_is_finite v then Some (CStr (ryu_format_finite v)) else Some (CStr (f64_display v))
  | Some (VStr s) => Some (CStr s)
  | Some (VDate32 v) | Some (VTime64Micros v) | Some (VTimestampMicros v) =>
      Some (CStr (pretty v))
  | Some VNull | None => None
  end.

Definition append_update (b : ColumnBuilder) (value : option UpdateValue)
  : option ColumnBuilder :=
  match b with
  | BTimestamp _ | BTopic _ | BPresence _ => None
  | BBool c =>
      Some (BBool (c ++ [match value with Some (VBool v) => Some (CBool v) | _ => None end]))
  | BI32 c =>
      Some (BI32 (c ++ [match value with Some (VI32 v) => Some (CI32 v) | _ => None end]))
  | BI64 c =>
      Some (BI64 (c ++ [match value with
                        | Some (VI64 v) | Some (VI32 v) => Some (CI64 v)
                        | _ => None end]))
  | BF64 c =>
      Some (BF64 (c ++ [match value with
                        | Some (VF64 v) => Some (CF64 v)
                        | Some (VI32 v) | Some (VI64 v) => Some (CF64 (f64_of_int v))
                        | _ => None end]))
  | BString c => Some (BString (c ++ [string_cell value]))
  | BDate32 c =>
      Some (BDate32 (c ++ [match value with Some (VDate32 v) => Some (CDate32 v) | _ => None end]))
  | BTime64Micros c =>
      Some (BTime64Micros
              (c ++ [match value with Some (VTime64Micros v) => Some (CTime64 v) | _ => None end]))
  | BTimestampMicros c =>
      Some (BTimestampMicros
              (c ++ [match value with Some (VTimestampMicros v) => Some (CTimestamp v) | _ => None end]))
  end.

(** ** The batcher *)

Record Batcher : Type := mkBatcher {
  bt_layout : option FieldLayout;
  bt_schema : option (list ArrowField);
  bt_builders : list ColumnBuilder;
  bt_rows : nat
}.

Definition batcher_new : Batcher := mkBatcher None None [] 0.

Definition subscription_builders (layout : FieldLayout) : list ColumnBuilder :=
  [BTimestamp []; BTopic []]
  ++ ((fun meta => for_kind (meta_kind meta)) <$> layout_fields layout)
  ++ [BPresence []].

Definition same_field (a b : FieldMeta) : bool :=
  bool_decide (meta_index a = meta_index b)
  && bool_decide (meta_kind a = meta_kind b)
  && bool_decide (meta_name a = meta_name b).

Definition same_layout (current layout : FieldLayout) : bool :=
  bool_decide (layout_version current = layout_version layout)
  && bool_decide (length (layout_fields current) = length (layout_fields layout))
  && forallb (fun p => same_field p.1 p.2)
       (combine (layout_fields current) (layout_fields layout)).

Definition matches_layout (b : Batcher) (layout : FieldLayout) : bool :=
  match bt_layout b with Some current => same_layout current layout | None => false end.

Definition rebuild_for_layout (b : Batcher) (layout : FieldLayout) : Batcher :=
  mkBatcher (Some layout) (Some (schema_of layout)) (subscription_builders layout) (bt_rows b).

(** The scratch table: for each field slot, the position of its last entry. *)
Definition fill_scratch (n : nat) (values : list UpdateField) : list (option nat) :=
  fold_left (fun scratch p => <[field_index p.2 := Some p.1]> scratch)
    (imap pair values) (replicate n None).

Definition scratch_value (scratch : list (option nat)) (values : list UpdateField)
  (meta : FieldMeta) : option UpdateValue :=
  match scratch !! meta_index meta with
  | Some (Some position) => field_value <$> values !! position
  | _ => None
  end.

Definition div_ceil8 (n : nat) : nat := (n + 7) / 8.

(** [presence[position / 8] |= 1u8 << (position % 8)] *)
Definition set_presence (bytes : list Z) (position : nat) : list Z :=
  alter (fun byte => Z.lor byte (Z.shiftl 1 (Z.of_nat (position mod 8)))) (position / 8) bytes.

Definition is_some {A} (o : option A) : bool := match o with Some _ => true | None => false end.

(** The loop over the fields: builders and presence bytes advance together. *)
Fixpoint append_fields (position : nat) (fields : list FieldMeta) (value : FieldMeta -> option UpdateValue)
  (builders : list ColumnBuilder) (presence : list Z)
  : option (list ColumnBuilder * list Z) :=
  match fields with
  | [] => Some ([], presence)
  | meta :: fields =>
      let v := value meta in
      let presence := if is_some v then set_presence presence position else presence in
      match builders with
      | [] => None
      | b :: builders =>
          match append_update b v, append_fields (S position) fields value builders presence with
          | Some b, Some (bs, presence) => Some (b :: bs, presence)
          | _, _ => None
          end
      end
  end.

Definition append_current_layout (b : Batcher) (u : SubscriptionUpdate) : option Batcher :=
  match bt_layout b with
  | None => None
  | Some layout =>
      let fields := layout_fields layout in
      let n := length fields in
      let builders :=
        match bt_builders b with [] => subscription_builders layout | bs => bs end in
      let scratch := fill_scratch n (update_values u) in
      let presence := replicate (div_ceil8 n) 0%Z in
      match builders with
      | b_ts :: b_topic :: rest =>
          match append_timestamp b_ts (timestamp_us u), append_topic b_topic (update_topic u),
                append_fields 0 fields (scratch_value scratch (update_values u)) rest presence,
                rest !! n with
          | Some b_ts, Some b_topic, Some (bs, presence), Some b_presence =>
              match append_presence b_presence presence with
              | Some b_presence =>
                  Some (mkBatcher (bt_layout b) (bt_schema b)
                          (b_ts :: b_topic :: bs ++ [b_presence]) (S (bt_rows b)))
              | None => None
              end
          | _, _, _, _ => None
          end
      | _ => None
      end
  end.

(** [RecordBatch::try_new] succeeds because the builders match the schema; the
    [expect] on a missing schema is [None]. *)
Definition flush (b : Batcher) : option (option RecordBatch * Batcher) :=
  match bt_rows b with
  | 0 => Some (None, b)
  | _ =>
      match bt_schema b with
      | None => None
      | Some schema =>
          Some (Some (mkBatch schema (finish <$> bt_builders b)),
                mkBatcher (bt_layout b) (bt_schema b) [] 0)
      end
  end.

Definition append (b : Batcher) (u : SubscriptionUpdate) : option (option RecordBatch * Batcher) :=
  if negb (matches_layout b (update_layout u)) then
    match flush b with
    | None => None
    | Some (batch, b) =>
        match append_current_layout (rebuild_for_layout b (update_layout u)) u with
        | Some b => Some (batch, b)
        | None => None
        end
    end
  else
    match append_current_layout b u with
    | Some b => Some (None, b)
    | None => None
    end.

(** [subscription_update_to_record_batch] *)
Definition update_to_record_batch (u : SubscriptionUpdate) : option RecordBatch :=
  match append batcher_new u with
  | Some (_, b) => match flush b with Some (batch, _) => batch | None => None end
  | None => None
  end.

(** A consumer: append every update, then flush. *)
Fixpoint run_batcher (b : Batcher) (us : list SubscriptionUpdate) : option (list RecordBatch) :=
  match us with
  | [] => match flush b with Some (batch, _) => Some (option_list batch) | None => None end
  | u :: us =>
      match append b u with
      | Some (batch, b) =>
          match run_batcher b us with
          | Some batches => Some (option_list batch ++ batches)
          | None => None
          end
      | None => None
      end
  end.

(** ** Reference encoding *)

Definition with_cells (kind : FieldKind) (c : column) : ColumnBuilder :=
  match kind with
  | KUnknown | KStr => BString c
  | KBool => BBool c
  | KI32 => BI32 c
  | KI64 => BI64 c
  | KF64 => BF64 c
  | KDate32 => BDate32 c
  | KTime64Micros => BTime64Micros c
  | KTimestampMicros => BTimestampMicros c
  end.

(** The cell a column of the given kind shows for a field value. *)
Definition cell_for (kind : FieldKind) (value : option UpdateValue) : option acell :=
  match kind, value with
  | KUnknown, v | KStr, v => string_cell v
  | KBool, Some (VBool v) => Some (CBool v)
  | KI32, Some (VI32 v) => Some (CI32 v)
  | KI64, Some (VI64 v) | KI64, Some (VI32 v) => Some (CI64 v)
  | KF64, Some (VF64 v) => Some (CF64 v)
  | KF64, Some (VI32 v) | KF64, Some (VI64 v) => Some (CF64 (f64_of_int v))
  | KDate32, Some (VDate32 v) => Some (CDate32 v)
  | KTime64Micros, Some (VTime64Micros v) => Some (CTime64 v)
  | KTimestampMicros, Some (VTimestampMicros v) => Some (CTimestamp v)
  | _, _ => None
  end.

(** The value of a field slot: the last entry of the update with that index. *)
Definition slot_value (n : nat) (u : SubscriptionUpdate) (meta : FieldMeta) : option UpdateValue :=
  if decide (meta_index meta < n) then
    field_value <$> last (filter (fun f => field_index f = meta_index meta) (update_values u))
  else None.

Fixpoint presence_from (position : nat) (fields : list FieldMeta)
  (value : FieldMeta -> option UpdateValue) (presence : list Z) : list Z :=
  match fields with
  | [] => presence
  | meta :: fields =>
      presence_from (S position) fields value
        (if is_some (value meta) then set_presence presence position else presence)
  end.

Definition presence_of (l : FieldLayout) (u : SubscriptionUpdate) : list Z :=
  let n := length (layout_fields l) in
  presence_from 0 (layout_fields l) (slot_value n u) (replicate (div_ceil8 n) 0%Z).

Definition field_column (l : FieldLayout) (us : list SubscriptionUpdate) (meta : FieldMeta) : column :=
  (fun u => cell_for (meta_kind meta) (slot_value (length (layout_fields l)) u meta)) <$> us.

Definition builders_of (l : FieldLayout) (us : list SubscriptionUpdate) : list ColumnBuilder :=
  [BTimestamp ((fun u => Some (CTimestamp (timestamp_us u))) <$> us);
   BTopic ((fun u => Some (CStr (update_topic u))) <$> us)]
  ++ ((fun meta => with_cells (meta_kind meta) (field_column l us meta)) <$> layout_fields l)
  ++ [BPresence ((fun u => Some (CBinary (presence_of l u))) <$> us)].

(** The record batch of a group of updates under one layout: a timestamp and a
    topic column, one column per field, and the presence column. *)
Definition batch_of (g : FieldLayout * list SubscriptionUpdate) : RecordBatch :=
  let '(l, us) := g in
  mkBatch (schema_of l)
    ([(fun u => Some (CTimestamp (timestamp_us u))) <$> us;
      (fun u => Some (CStr (update_topic u))) <$> us]
     ++ (field_column l us <$> layout_fields l)
     ++ [(fun u => Some (CBinary (presence_of l u))) <$> us]).

(** *** The implementation follows the reference *)

Lemma append_update_with_cells kind c v :
  append_update (with_cells kind c) v = Some (with_cells kind (c ++ [cell_for kind v])).
Proof. destruct kind; simpl; repeat f_equal; destruct v as [[]|]; done. Qed.

Lemma finish_with_cells kind c : finish (with_cells kind c) = c.
Proof. by destruct kind. Qed.

Lemma fill_scratch_lookup n values i :
  i < n ->
  fill_scratch n values !! i
  = Some ((fun p => p.1) <$> last (filter (fun p => field_index p.2 = i) (imap pair values))).
Proof.
  intros Hi. unfold fill_scratch. generalize (imap pair values). intros l.
  induction l as [|p l IH] using rev_ind.
  { simpl. by rewrite lookup_replicate_2. }
  rewrite fold_left_app, filter_app. simpl.
  assert (Hlen : forall s, length (fold_left (fun scratch p0 =>
     <[field_index p0.2:=Some p0.1]> scratch) l s) = length s).
  { clear. induction l as [|x l IH]; intros s; simpl; [done|]. by rewrite IH, length_insert. }
  rewrite filter_cons. case_decide as Hp; simpl.
  - rewrite filter_nil, last_snoc. subst i. rewrite list_lookup_insert_eq; [done|].
    by rewrite Hlen, length_replicate.
  - rewrite filter_nil, app_nil_r, list_lookup_insert_ne; done.
Qed.

Lemma imap_filter_last values i :
  match last (filter (fun p => field_index p.2 = i) (imap pair values)) with
  | Some p => values !! p.1
  | None => None
  end = last (filter (fun f => field_index f = i) values).
Proof.
  induction values as [|f values IH] using rev_ind; [done|].
  rewrite imap_app, !filter_app. simpl. rewrite Nat.add_0_r, !filter_cons, !filter_nil.
  destruct (decide (field_index f = i)) as [Hf|Hf].
  - rewrite decide_True by done. rewrite !last_snoc. simpl. by rewrite lookup_app_r, Nat.sub_diag by lia.
  - rewrite decide_False by done. rewrite !app_nil_r, <- IH.
    destruct (last (filter _ (imap pair values))) as [p|] eqn:E; [|done].
    apply last_Some_elem_of, list_elem_of_filter in E as [_ E].
    apply elem_of_lookup_imap in E as (j & y & -> & Hj). simpl.
    apply lookup_lt_Some in Hj. by rewrite lookup_app_l.
Qed.

Lemma scratch_value_slot n u meta :
  scratch_value (fill_scratch n (update_values u)) (update_values u) meta = slot_value n u meta.
Proof.
  unfold scratch_value, slot_value. case_decide as Hn.
  - rewrite fill_scratch_lookup by done. rewrite <- imap_filter_last.
    by destruct (last (filter _ (imap pair _))).
  - replace (fill_scratch n (update_values u) !! meta_index meta) with (@None (option nat)); [done|].
    symmetry. apply lookup_ge_None. unfold fill_scratch.
    enough (forall l s, length (fold_left (fun scratch p => <[field_index p.2:=Some p.1]> scratch) l s)
      = length s) as -> by (rewrite length_replicate; lia).
    clear. intros l. induction l as [|x l IH]; intros s; simpl; [done|]. by rewrite IH, length_insert.
Qed.

Lemma append_fields_ref (F : FieldMeta -> column) value rest position fields presence :
  append_fields position fields value
    (((fun meta => with_cells (meta_kind meta) (F meta)) <$> fields) ++ rest) presence
  = Some ((fun meta => with_cells (meta_kind meta)
             (F meta ++ [cell_for (meta_kind meta) (value meta)])) <$> fields,
          presence_from position fields value presence).
Proof.
  revert position presence. induction fields as [|meta fields IH]; intros; [done|].
  simpl. rewrite append_update_with_cells. unfold fmap in IH. by rewrite IH.
Qed.

Lemma append_fields_ext position fields v1 v2 builders presence :
  (forall meta, v1 meta = v2 meta) ->
  append_fields position fields v1 builders presence
  = append_fields position fields v2 builders presence.
Proof.
  intros Hv. revert position builders presence.
  induction fields as [|meta fields IH]; intros; simpl; [done|]. rewrite Hv.
  destruct builders; [done|]. by rewrite IH.
Qed.

(** ** Abstraction: a batcher holds a group of pending updates *)

Definition holds (b : Batcher) (us : list SubscriptionUpdate) : Prop :=
  bt_rows b = length us
  /\ match bt_layout b with
     | None => us = []
     | Some l =>
         bt_schema b = Some (schema_of l)
         /\ (bt_builders b = builders_of l us \/ (us = [] /\ bt_builders b = []))
         /\ Forall (fun u => same_layout l (update_layout u) = true) us
     end.

Lemma builders_of_nil l : builders_of l [] = subscription_builders l.
Proof. reflexivity. Qed.

Lemma append_current_holds b l us u :
  holds b us -> bt_layout b = Some l -> same_layout l (update_layout u) = true ->
  exists b', append_current_layout b u = Some b' /\ bt_layout b' = Some l /\ holds b' (us ++ [u]).
Proof.
  intros [Hrows Hb] Hl Hsame. rewrite Hl in Hb. destruct Hb as (Hsch & Hbs & Hall).
  assert (Hbs' : match bt_builders b with [] => subscription_builders l | bs => bs end
                 = builders_of l us).
  { destruct Hbs as [->|[-> ->]]; [done|by rewrite builders_of_nil]. }
  unfold append_current_layout. rewrite Hl. rewrite Hbs'. unfold builders_of at 1. simpl.
  rewrite (append_fields_ext _ _ _ _ _ _ (scratch_value_slot _ u)), append_fields_ref.
  rewrite lookup_app_r by by rewrite length_fmap. rewrite length_fmap, Nat.sub_diag. simpl.
  eexists. split_and!; [reflexivity|done|]. split; simpl.
  - rewrite length_app, Hrows. simpl. lia.
  - split_and!; [done| |].
    + left. unfold builders_of. rewrite !fmap_app. simpl. do 2 f_equal. f_equal.
      apply list_fmap_ext. intros ? meta _. unfold field_column. by rewrite fmap_app.
    + apply Forall_app. eauto.
Qed.

Lemma same_layout_refl l : same_layout l l = true.
Proof.
  unfold same_layout. rewrite !bool_decide_eq_true_2 by done. simpl.
  induction (layout_fields l) as [|m ms IH]; [done|]. simpl. rewrite IH.
  unfold same_field. by rewrite !bool_decide_eq_true_2.
Qed.

Lemma flush_holds b us :
  holds b us ->
  exists b', flush b = Some (match us with [] => None | _ =>
               match bt_layout b with Some l => Some (batch_of (l, us)) | None => None end end, b')
             /\ bt_layout b' = bt_layout b /\ bt_rows b' = 0.
Proof.
  intros [Hrows Hb]. unfold flush. rewrite Hrows. destruct us as [|u us]; [simpl; eauto|]. cbn [length].
  destruct (bt_layout b) as [l|] eqn:Hl; [|done]. destruct Hb as (-> & [Hbs|[? _]] & _); [|done].
  assert (mkBatch (schema_of l) (finish <$> bt_builders b) = batch_of (l, u :: us)) as <-.
  { unfold batch_of. f_equal. rewrite Hbs. unfold builders_of. rewrite !fmap_app. simpl.
    do 2 f_equal. f_equal. rewrite <- list_fmap_compose. apply list_fmap_ext.
    intros ? meta _. apply finish_with_cells. }
  eexists. by split_and!.
Qed.

(** A group of updates encoded under one layout. *)
Definition group_ok (g : FieldLayout * list SubscriptionUpdate) : Prop :=
  g.2 <> [] /\ Forall (fun u => same_layout g.1 (update_layout u) = true) g.2.

Lemma run_batcher_holds b us0 us :
  holds b us0 ->
  exists gs, run_batcher b us = Some (batch_of <$> gs)
             /\ concat gs.*2 = us0 ++ us /\ Forall group_ok gs.
Proof.
  revert b us0. induction us as [|u us IH]; intros b us0 Hb.
  - simpl. destruct (flush_holds b us0 Hb) as (b' & -> & _ & _).
    destruct us0 as [|u0 us0]; [exists []; simpl; eauto|].
    destruct Hb as [_ Hb]. destruct (bt_layout b) as [l|]; [|done].
    exists [(l, u0 :: us0)]. simpl. split_and!; [done|by rewrite !app_nil_r|].
    constructor; [|constructor]. split; [done|]. apply Hb.
  - simpl. unfold append. destruct (matches_layout b (update_layout u)) eqn:Hm; simpl.
    + unfold matches_layout in Hm. destruct (bt_layout b) as [l|] eqn:Hl; [|done].
      destruct (append_current_holds b l us0 u Hb Hl Hm) as (b' & -> & _ & Hb').
      destruct (IH b' _ Hb') as (gs & -> & Hc & Hok). exists gs.
      split_and!; [done| |done]. rewrite Hc. by rewrite <- app_assoc.
    + destruct (flush_holds b us0 Hb) as (b1 & -> & Hl1 & Hr1).
      assert (holds (rebuild_for_layout b1 (update_layout u)) []) as Hb1.
      { split; [done|]. simpl. split_and!; [done| |constructor]. left. by rewrite builders_of_nil. }
      destruct (append_current_holds _ (update_layout u) [] u Hb1 eq_refl (same_layout_refl _))
        as (b' & -> & _ & Hb').
      destruct (IH b' _ Hb') as (gs & -> & Hc & Hok). simpl in Hc.
      destruct us0 as [|u0 us0]; [exists gs; simpl; eauto|].
      destruct Hb as [_ Hb]. destruct (bt_layout b) as [l|]; [|done].
      exists ((l, u0 :: us0) :: gs). split_and!; [done|by rewrite fmap_cons; cbn [concat]; rewrite Hc|].
      constructor; [|done]. split; simpl; [done|]. apply Hb.
Qed.
End Batcher.

(** ** The presence bitmap *)

(** Bit [i] of a byte string, least significant bit first. *)
Definition presence_bit (bytes : list Z) (i : nat) : bool :=
  match bytes !! (i / 8) with
  | Some byte => Z.testbit byte (Z.of_nat (i mod 8))
  | None => false
  end.

Lemma length_set_presence bytes p : length (set_presence bytes p) = length bytes.
Proof. apply length_alter. Qed.

Lemma div_mod8_inj i j : i / 8 = j / 8 -> i mod 8 = j mod 8 -> i = j.
Proof. intros. pose proof (Nat.div_mod_eq i 8). pose proof (Nat.div_mod_eq j 8). lia. Qed.

Lemma presence_bit_set bytes p i :
  p / 8 < length bytes ->
  presence_bit (set_presence bytes p) i = bool_decide (i = p) || presence_bit bytes i.
Proof.
  intros Hp. unfold presence_bit, set_presence.
  destruct (decide (p / 8 = i / 8)) as [Hd|Hd].
  - rewrite <- Hd, list_lookup_alter_eq.
    destruct (lookup_lt_is_Some_2 _ _ Hp) as [byte ->]. simpl.
    rewrite Z.lor_spec, Z.shiftl_1_l, Z.pow2_bits_eqb, orb_comm by lia. f_equal.
    case_bool_decide as Hip; [subst; apply Z.eqb_refl|]. apply Z.eqb_neq. intros He.
    apply Hip. symmetry. apply div_mod8_inj; [done|]. by apply Nat2Z.inj.
  - rewrite list_lookup_alter_ne by done. rewrite bool_decide_eq_false_2; [done|].
    intros ->. done.
Qed.

Lemma presence_from_length position fields value bytes :
  length (presence_from position fields value bytes) = length bytes.
Proof.
  revert position bytes. induction fields as [|m fields IH]; intros; simpl; [done|].
  rewrite IH. destruct (is_some _); [apply length_set_presence|done].
Qed.

Lemma presence_from_bit position fields value bytes i :
  (position + length fields + 7) / 8 <= length bytes ->
  presence_bit (presence_from position fields value bytes) i
  = (bool_decide (position <= i)
     && match fields !! (i - position) with Some meta => is_some (value meta) | None => false end)
    || presence_bit bytes i.
Proof.
  revert position bytes. induction fields as [|m fields IH]; intros position bytes Hlen; simpl.
  { by rewrite andb_false_r. }
  cbn [length] in Hlen.
  assert (Hp : position / 8 < length bytes).
  { apply (Nat.lt_le_trans _ ((position + 1 * 8) / 8)); [rewrite Nat.div_add; lia|].
    etrans; [|exact Hlen]. apply Nat.Div0.div_le_mono. lia. }
  rewrite IH; [|destruct (is_some _); rewrite ?length_set_presence;
    replace (S position + length fields + 7) with (position + S (length fields) + 7) by lia; done].
  assert (Hb : presence_bit (if is_some (value m) then set_presence bytes position else bytes) i
               = (bool_decide (i = position) && is_some (value m)) || presence_bit bytes i).
  { destruct (is_some (value m)); [by rewrite presence_bit_set, andb_true_r|by rewrite andb_false_r]. }
  rewrite Hb. destruct (decide (i = position)) as [->|Hne].
  - rewrite Nat.sub_diag, (bool_decide_eq_false_2 (S position <= position)) by lia.
    by rewrite !bool_decide_eq_true_2 by lia.
  - rewrite (bool_decide_eq_false_2 (i = position)) by done. simpl.
    destruct (decide (S position <= i)).
    + rewrite !bool_decide_eq_true_2 by lia. by replace (i - position) with (S (i - S position)) by lia.
    + by rewrite !bool_decide_eq_false_2 by lia.
Qed.

Lemma is_some_slot_value n u meta :
  is_some (slot_value n u meta) = true
  <-> meta_index meta < n /\ exists f, f ∈ update_values u /\ field_index f = meta_index meta.
Proof.
  unfold slot_value. case_decide as Hn; [|naive_solver].
  destruct (last _) as [f|] eqn:Hl; simpl.
  - split; [|done]. intros _. split; [done|]. apply last_Some_elem_of, list_elem_of_filter in Hl.
    naive_solver.
  - apply last_None in Hl. split; [done|]. intros (_ & f & Hf & Hi).
    assert (f ∈ filter (fun f => field_index f = meta_index meta) (update_values u)) as Hin
      by by apply list_elem_of_filter. rewrite Hl in Hin. by apply not_elem_of_nil in Hin.
Qed.

(** ** Properties *)

Section Claims.
Variable ryu_format_finite : spec_float -> string.
Variable f64_display : spec_float -> string.

(** C39: batching loses nothing and reorders nothing.  Appending any sequence of
    updates to a fresh batcher and flushing it never panics, and the emitted
    record batches are the reference encodings of consecutive non-empty groups
    whose concatenation is the input, each group under a single layout (the
    batch schema); a change of layout closes the current batch first. *)
Theorem batcher_encodes_stream (us : list SubscriptionUpdate) :
  exists gs : list (FieldLayout * list SubscriptionUpdate),
    run_batcher ryu_format_finite f64_display batcher_new us
      = Some (batch_of ryu_format_finite f64_display <$> gs)
    /\ concat gs.*2 = us
    /\ Forall group_ok gs.
Proof. by apply (run_batcher_holds _ _ batcher_new []). Qed.

(** The presence column of an update tells present fields from absent ones.
    It has one bit per field of the layout, rounded up to bytes, and bit [i],
    least significant first, is set exactly when the update has an entry
    (possibly an explicit null) for the field at position [i]; padding bits are
    zero. *)
Theorem presence_bitmap_exact (u : SubscriptionUpdate) :
  let fields := layout_fields (update_layout u) in
  exists rb bytes,
    update_to_record_batch ryu_format_finite f64_display u = Some rb
    /\ last (rb_columns rb) = Some [Some (CBinary bytes)]
    /\ length bytes = (length fields + 7) / 8
    /\ forall i, presence_bit bytes i = true
         <-> exists meta, fields !! i = Some meta /\ meta_index meta < length fields
             /\ exists f, f ∈ update_values u /\ field_index f = meta_index meta.
Proof.
  intros fields.
  destruct (run_batcher_holds ryu_format_finite f64_display batcher_new [] [u])
    as (gs & Hrun & Hc & Hok); [done|].
  exists (batch_of ryu_format_finite f64_display (update_layout u, [u])),
    (presence_of (update_layout u) u).
  split_and!.
  - unfold update_to_record_batch, append. simpl.
    destruct (append_current_holds ryu_format_finite f64_display
      (rebuild_for_layout batcher_new (update_layout u)) (update_layout u) [] u)
      as (b' & -> & Hl & Hb); [|done|apply same_layout_refl|].
    { split; [done|]. simpl. split_and!; [done| |constructor]. by left. }
    destruct (flush_holds ryu_format_finite f64_display b' _ Hb) as (b'' & -> & _ & _).
    simpl. by rewrite Hl.
  - unfold batch_of. cbn [rb_columns]. rewrite app_assoc, last_snoc. done.
  - unfold presence_of. rewrite presence_from_length, length_replicate. done.
  - intros i. unfold presence_of. rewrite presence_from_bit by by rewrite length_replicate.
    rewrite Nat.sub_0_r, bool_decide_eq_true_2 by lia. simpl.
    assert (presence_bit (replicate (div_ceil8 (length (layout_fields (update_layout u)))) 0%Z) i
            = false) as ->.
    { unfold presence_bit. destruct (_ !! _) eqn:E; [|done].
      apply lookup_replicate in E as [-> _]. apply Z.bits_0. }
    rewrite orb_false_r. fold fields. destruct (fields !! i) as [meta|]; [|naive_solver].
    rewrite is_some_slot_value. naive_solver.
Qed.
End Claims.
