(* ===== verification/Channel.v ===== *)
(** * The subscription transport

    Models [crates/xbbg-async/src/engine/state/channel.rs]: the bounded
    subscription channel between an SDK callback and its consumer, in its strict
    form (capacity guarded by a [tokio] semaphore) and its overwriting form
    ([DropOldest], which counts what it evicts).  The inline callback sink of the
    same file is [Callback.v].

    Every function of the source is a program counter [Pc] and the atomic
    sections between its lock, semaphore, atomic and notification operations are
    the steps of [pc_step]; a mutex section is one step.  [Sys] runs any number
    of such calls concurrently with one receiver, under sequentially consistent
    interleaving.  [Notify] is its stored permit, [on_closed] the installed
    callback with the list of its invocations.  [Shared] carries history
    variables (what was accepted, delivered, reported as failed, discarded) that
    no operation reads. *)

From Stdlib Require Import ZArith Lia.
From S2P Require Import Prelude Errors Update.

Local Abbreviation U := SubscriptionUpdate.
Local Abbreviation Item := (result SubscriptionUpdate BlpError).

(** ** The tokio semaphore *)

Inductive TryAcquireError : Type := AcqClosed | NoPermits.

(** The calls the channel makes; [try_acquire] returns the semaphore without the
    acquired permit, dropping a permit is [add_permits] of one, and forgetting a
    permit is doing nothing. *)
Class SemaphoreOps (T : Type) := {
  sem_new : nat -> T;
  try_acquire : T -> result T TryAcquireError;
  add_permits : T -> nat -> T;
  sem_close : T -> T;
  available_permits : T -> nat;
  sem_is_closed : T -> bool;
}.

Class SemaphoreLaws (T : Type) `{SemaphoreOps T} := {
  available_new n : available_permits (sem_new n) = n;
  closed_new n : sem_is_closed (sem_new n) = false;
  try_acquire_closed s : sem_is_closed s = true -> try_acquire s = Err AcqClosed;
  try_acquire_none s :
    sem_is_closed s = false -> available_permits s = 0 -> try_acquire s = Err NoPermits;
  try_acquire_some s n :
    sem_is_closed s = false -> available_permits s = S n ->
    exists s', try_acquire s = Ok s' /\ available_permits s' = n /\ sem_is_closed s' = false;
  available_add s n : available_permits (add_permits s n) = available_permits s + n;
  closed_add s n : sem_is_closed (add_permits s n) = sem_is_closed s;
  available_close s : available_permits (sem_close s) = available_permits s;
  closed_close s : sem_is_closed (sem_close s) = true;
}.

(** A successful acquisition takes one permit from an open semaphore. *)
Lemma try_acquire_ok `{SemaphoreLaws T} s s' :
  try_acquire s = Ok s' ->
  available_permits s = 1 + available_permits s'
  /\ sem_is_closed s = false /\ sem_is_closed s' = false.
Proof.
  intros Hs. destruct (sem_is_closed s) eqn:Hc.
  { rewrite try_acquire_closed in Hs; done. }
  destruct (available_permits s) as [|n] eqn:Ha.
  { rewrite try_acquire_none in Hs; done. }
  destruct (try_acquire_some s n) as (s0 & Hs0 & Ha0 & Hc0); [done..|].
  rewrite Hs in Hs0. simplify_eq. split_and!; [lia|done..].
Qed.

(** A reference semaphore, for witnesses. *)
Record Counting : Type := mkCounting { cnt_permits : nat; cnt_closed : bool }.

#[export] Instance counting_ops : SemaphoreOps Counting := {
  sem_new n := mkCounting n false;
  try_acquire s :=
    if cnt_closed s then Err AcqClosed
    else match cnt_permits s with
         | 0 => Err NoPermits
         | S n => Ok (mkCounting n false)
         end;
  add_permits s n := mkCounting (cnt_permits s + n) (cnt_closed s);
  sem_close s := mkCounting (cnt_permits s) true;
  available_permits := cnt_permits;
  sem_is_closed := cnt_closed;
}.

#[export] Instance counting_laws : SemaphoreLaws Counting.
Proof.
  split; simpl; try done.
  - by intros s ->.
  - by intros s -> ->.
  - intros s n -> ->. eauto.
Qed.

(** ** Shared state *)

Record SubscriptionGap : Type := mkGap { dropped_updates : Z }.

Inductive SubscriptionEvent : Type :=
| EvUpdate (update : U) (gap_before : option SubscriptionGap)
| EvError (error : BlpError).

Record ChannelState (G : Type) : Type := mkState {
  queue : list U;
  pending_gap : G;
  terminal_error : option BlpError;
  terminal_delivered : bool;
  receiver_closed : bool
}.
Arguments mkState {G}. Arguments queue {G}. Arguments pending_gap {G}.
Arguments terminal_error {G}. Arguments terminal_delivered {G}. Arguments receiver_closed {G}.

(** History variables. *)
Record History : Type := mkHist {
  accepted : list U;
  delivered : list SubscriptionEvent;
  failures : list BlpError;
  discarded : list U
}.

Record Shared (Q G : Type) : Type := mkShared {
  accepting : bool;
  state : ChannelState G;
  slots : Q;
  sender_count : nat;
  ready : bool;
  on_closed : option nat;
  closed_calls : list nat;
  hist : History
}.
Arguments mkShared {Q G}. Arguments accepting {Q G}. Arguments state {Q G}.
Arguments slots {Q G}. Arguments sender_count {Q G}. Arguments ready {Q G}.
Arguments on_closed {Q G}. Arguments closed_calls {Q G}. Arguments hist {Q G}.

(** The strategy a queue is specialised to: closing its capacity and the type of
    its gap counter. *)
Class QueueStrategy (Q G : Type) := { gap_default : G; strategy_close : Q -> Q }.

#[export] Instance semaphore_strategy `{SemaphoreOps T} : QueueStrategy T unit :=
  { gap_default := tt; strategy_close := sem_close }.

Record DropOldest : Type := mkDropOldest { capacity : nat }.

#[export] Instance drop_oldest_strategy : QueueStrategy DropOldest Z :=
  { gap_default := 0%Z; strategy_close := id }.

Definition accepts_data {G} (st : ChannelState G) : bool :=
  negb (receiver_closed st) && bool_decide (terminal_error st = None)
  && negb (terminal_delivered st).

(** ** Calls in progress *)

Inductive TrySendError (A : Type) : Type := SendClosed (a : A) | SendFull (a : A).
Arguments SendClosed {A}. Arguments SendFull {A}.

(** Results of the calls; a [SendError] is [SendClosed], and a successful send
    carries the number of updates it evicted. *)
Inductive Ret : Type :=
| RUnit
| RSend (r : result Z (TrySendError Item)).

Inductive Pc : Type :=
| PSend (blocking : bool) (item : Item)     (* send / try_send: accepting.load *)
| PAcquire (blocking : bool) (u : U)        (* slots.acquire().await / try_acquire *)
| PFull (u : U)                             (* NoPermits: is_closed() *)
| PPush (u : U)                             (* permit held: lock, check, push *)
| PDropPermit (u : U)                       (* rejected under the lock *)
| PLossy (u : U)                            (* try_send_lossy: lock section *)
| PTerminal (e : BlpError)                  (* send_terminal: lock section *)
| PClose                                    (* Shared::close: lock section *)
| PReceiverDropped                          (* receiver_dropped: lock section *)
| PCloseSlots (r : Ret)                     (* slots.close() *)
| PNotify (closing : bool) (r : Ret)        (* ready.notify_one() *)
| PNotifyClosed (r : Ret)                   (* notify_closed() *)
| PDropStore                                (* sender_dropped: accepting.store *)
| POnClosed (cb : nat)                      (* on_closed.set(callback) *)
| POnClosedCheck.                           (* accepting.load after the set *)

(** What a call does next: another section, or return. *)
Inductive Next : Type := Cont (pc : Pc) | Return (r : Ret).

Section Setters.
Context {Q G : Type}.
Implicit Types sh : Shared Q G.

Definition set_state sh (st : ChannelState G) : Shared Q G :=
  mkShared (accepting sh) st (slots sh) (sender_count sh) (ready sh) (on_closed sh)
    (closed_calls sh) (hist sh).
Definition set_accepting sh (b : bool) : Shared Q G :=
  mkShared b (state sh) (slots sh) (sender_count sh) (ready sh) (on_closed sh)
    (closed_calls sh) (hist sh).
Definition set_slots sh (q : Q) : Shared Q G :=
  mkShared (accepting sh) (state sh) q (sender_count sh) (ready sh) (on_closed sh)
    (closed_calls sh) (hist sh).
Definition set_sender_count sh (n : nat) : Shared Q G :=
  mkShared (accepting sh) (state sh) (slots sh) n (ready sh) (on_closed sh)
    (closed_calls sh) (hist sh).
Definition set_ready sh (b : bool) : Shared Q G :=
  mkShared (accepting sh) (state sh) (slots sh) (sender_count sh) b (on_closed sh)
    (closed_calls sh) (hist sh).
Definition set_on_closed sh (cb : option nat) (calls : list nat) : Shared Q G :=
  mkShared (accepting sh) (state sh) (slots sh) (sender_count sh) (ready sh) cb
    calls (hist sh).
Definition set_hist sh (h : History) : Shared Q G :=
  mkShared (accepting sh) (state sh) (slots sh) (sender_count sh) (ready sh) (on_closed sh)
    (closed_calls sh) h.
Definition set_queue (st : ChannelState G) (q : list U) : ChannelState G :=
  mkState q (pending_gap st) (terminal_error st) (terminal_delivered st) (receiver_closed st).
Definition set_gap (st : ChannelState G) (g : G) : ChannelState G :=
  mkState (queue st) g (terminal_error st) (terminal_delivered st) (receiver_closed st).
Definition set_terminal (st : ChannelState G) (e : option BlpError) (d : bool) : ChannelState G :=
  mkState (queue st) (pending_gap st) e d (receiver_closed st).
Definition set_receiver_closed (st : ChannelState G) : ChannelState G :=
  mkState (queue st) (pending_gap st) (terminal_error st) (terminal_delivered st) true.
End Setters.

Definition log_accepted (h : History) (u : U) : History :=
  mkHist (accepted h ++ [u]) (delivered h) (failures h) (discarded h).
Definition log_delivered (h : History) (ev : SubscriptionEvent) : History :=
  mkHist (accepted h) (delivered h ++ [ev]) (failures h) (discarded h).
Definition log_failure (h : History) (e : BlpError) : History :=
  mkHist (accepted h) (delivered h) (failures h ++ [e]) (discarded h).
Definition log_discarded (h : History) (us : list U) : History :=
  mkHist (accepted h) (delivered h) (failures h) (discarded h ++ us).

(** ** Operations of every queue *)

Section Shared.
Context {Q G : Type} `{QueueStrategy Q G}.
Implicit Types sh : Shared Q G.

(** [Shared::new]; [None] is the failed assertion on the capacity. *)
Definition shared_new (capacity : nat) (slots : Q) : option (Shared Q G) :=
  if decide (0 < capacity) then
    Some (mkShared true (mkState [] gap_default None false false) slots 1 false None []
            (mkHist [] [] [] []))
  else None.

Definition notify_closed sh : Shared Q G :=
  match on_closed sh with
  | Some cb => set_on_closed sh (on_closed sh) (closed_calls sh ++ [cb])
  | None => sh
  end.

Definition send_terminal sh (e : BlpError) : Shared Q G * Next :=
  if bool_decide (sender_count sh = 0) || negb (accepts_data (state sh))
  then (sh, Return (RSend (Err (SendClosed (Err e)))))
  else (set_hist (set_accepting (set_state sh (set_terminal (state sh) (Some e)
          (terminal_delivered (state sh)))) false) (log_failure (hist sh) e),
        Cont (PCloseSlots (RSend (Ok 0%Z)))).

Definition close sh : Shared Q G * Next :=
  if receiver_closed (state sh) then (sh, Return RUnit)
  else (set_accepting (set_state sh (set_receiver_closed (state sh))) false,
        Cont (PCloseSlots RUnit)).

(** [sender_dropped] up to its first atomic operation. *)
Definition sender_dropped sh : Shared Q G * Next :=
  (set_sender_count sh (sender_count sh - 1),
   if decide (sender_count sh = 1) then Cont PDropStore else Return RUnit).

Definition receiver_dropped sh : Shared Q G * Next :=
  (set_hist
     (set_accepting
        (set_state sh
           (set_receiver_closed (set_terminal (set_queue (state sh) []) None
                                   (terminal_delivered (state sh))))) false)
     (log_discarded (hist sh) (queue (state sh))),
   Cont (PCloseSlots RUnit)).

(** [on_closed.set(callback)] on a [OnceLock]: the first callback stays. *)
Definition on_closed_set sh (cb : nat) : Shared Q G :=
  set_on_closed sh (match on_closed sh with Some old => Some old | None => Some cb end)
    (closed_calls sh).

Definition common_step sh (pc : Pc) : option (Shared Q G * Next) :=
  match pc with
  | PTerminal e => Some (send_terminal sh e)
  | PClose => Some (close sh)
  | PReceiverDropped => Some (receiver_dropped sh)
  | PCloseSlots r => Some (set_slots sh (strategy_close (slots sh)), Cont (PNotify true r))
  | PNotify closing r =>
      Some (set_ready sh true, if closing then Cont (PNotifyClosed r) else Return r)
  | PNotifyClosed r => Some (notify_closed sh, Return r)
  | PDropStore => Some (set_accepting sh false, Cont (PNotify true RUnit))
  | POnClosed cb => Some (on_closed_set sh cb, Cont POnClosedCheck)
  | POnClosedCheck =>
      Some (sh, if accepting sh then Return RUnit else Cont (PNotifyClosed RUnit))
  | _ => None
  end.
End Shared.

(** ** Polling the receiver *)

Inductive Poll : Type :=
| PollEvent (ev : SubscriptionEvent)
| PollDisconnected
| PollEmpty.

Section Poll.
Context {Q G : Type}.
Implicit Types sh : Shared Q G.

(** The part of [try_recv] and [try_recv_event] after an empty queue. *)
Definition poll_drained sh : Shared Q G * Poll :=
  match terminal_error (state sh) with
  | Some e =>
      (set_hist (set_state sh (set_terminal (state sh) None true))
         (log_delivered (hist sh) (EvError e)), PollEvent (EvError e))
  | None =>
      if receiver_closed (state sh) || terminal_delivered (state sh)
         || bool_decide (sender_count sh = 0)
      then (sh, PollDisconnected) else (sh, PollEmpty)
  end.
End Poll.

(** ** Strict queues *)

Section Strict.
Context {T : Type} `{SemaphoreOps T}.
Implicit Types sh : Shared T unit.

Definition push sh (u : U) : Shared T unit :=
  set_hist (set_state sh (set_queue (state sh) (queue (state sh) ++ [u])))
    (log_accepted (hist sh) u).

(** [SubscriptionSender::send] ([blocking]) and [try_send] on a strict queue. *)
Definition strict_step sh (pc : Pc) : option (Shared T unit * Next) :=
  match pc with
  | PSend blocking item =>
      if negb (accepting sh) then Some (sh, Return (RSend (Err (SendClosed item))))
      else match item with
           | Ok u => Some (sh, Cont (PAcquire blocking u))
           | Err e => Some (sh, Cont (PTerminal e))
           end
  | PAcquire blocking u =>
      match try_acquire (slots sh) with
      | Ok slots' => Some (set_slots sh slots', Cont (PPush u))
      | Err AcqClosed => Some (sh, Return (RSend (Err (SendClosed (Ok u)))))
      | Err NoPermits => if blocking then None else Some (sh, Cont (PFull u))
      end
  | PFull u =>
      Some (sh, Return (RSend (Err (if negb (accepting sh) then SendClosed (Ok u)
                                    else SendFull (Ok u)))))
  | PPush u =>
      if negb (accepts_data (state sh)) then Some (sh, Cont (PDropPermit u))
      else Some (push sh u, Cont (PNotify false (RSend (Ok 0%Z))))
  | PDropPermit u =>
      Some (set_slots sh (add_permits (slots sh) 1), Return (RSend (Err (SendClosed (Ok u)))))
  | PLossy _ => None
  | pc => common_step sh pc
  end.

(** The lock section of [recv] and [try_recv]; a popped update is followed by
    [slots.add_permits(1)] outside the lock. *)
Definition strict_poll sh : Shared T unit * Poll :=
  match queue (state sh) with
  | u :: q =>
      (set_hist (set_state sh (set_queue (state sh) q))
         (log_delivered (hist sh) (EvUpdate u None)), PollEvent (EvUpdate u None))
  | [] => poll_drained sh
  end.

Definition strict_release sh : Shared T unit := set_slots sh (add_permits (slots sh) 1).
End Strict.

(** ** Overwriting queues *)

Section Lossy.
Implicit Types sh : Shared DropOldest Z.

Definition try_send_lossy sh (u : U) : Shared DropOldest Z * Next :=
  if negb (accepts_data (state sh)) || negb (accepting sh)
  then (sh, Return (RSend (Err (SendClosed (Ok u)))))
  else
    let st := state sh in
    let full := bool_decide (length (queue st) = capacity (slots sh)) in
    let '(st, evicted) :=
      if full then
        (set_queue (set_gap st (u64_saturating_add (pending_gap st) 1)) (tail (queue st)),
         head (queue st))
      else (st, None) in
    let dropped := match evicted with Some _ => 1%Z | None => 0%Z end in
    (set_hist (set_state sh (set_queue st (queue st ++ [u]))) (log_accepted (hist sh) u),
     Cont (PNotify false (RSend (Ok dropped)))).

(** [Shared<DropOldest>::send] has no atomic operation of its own: it enters
    [try_send_lossy] or [send_terminal]. *)
Definition lossy_send (item : Item) : Pc :=
  match item with Ok u => PLossy u | Err e => PTerminal e end.

Definition lossy_step sh (pc : Pc) : option (Shared DropOldest Z * Next) :=
  match pc with
  | PLossy u => Some (try_send_lossy sh u)
  | PSend _ item => Some (sh, Cont (lossy_send item))
  | PAcquire _ _ | PFull _ | PPush _ | PDropPermit _ => None
  | pc => common_step sh pc
  end.

Definition take_gap (st : ChannelState Z) : option SubscriptionGap :=
  if Z.eqb (pending_gap st) 0 then None else Some (mkGap (pending_gap st)).

Definition lossy_poll sh : Shared DropOldest Z * Poll :=
  match queue (state sh) with
  | u :: q =>
      let ev := EvUpdate u (take_gap (state sh)) in
      (set_hist (set_state sh (set_gap (set_queue (state sh) q) 0%Z))
         (log_delivered (hist sh) ev), PollEvent ev)
  | [] => poll_drained sh
  end.
End Lossy.

(** ** The transport interface

    What the concurrent system needs of a queue: its sender steps and its
    receiver sections.  The laws say that a data step either only touches the
    slots, or pushes one update on a queue that accepts data and goes on to
    notify, and that polling takes the oldest queued update. *)

Class Transport (Q G : Type) `{QueueStrategy Q G} := {
  pc_step : Shared Q G -> Pc -> option (Shared Q G * Next);
  poll : Shared Q G -> Shared Q G * Poll;
  release : Shared Q G -> Shared Q G;
}.

#[export] Instance strict_transport `{SemaphoreOps T} : Transport T unit :=
  { pc_step := strict_step; poll := strict_poll; release := strict_release }.

#[export] Instance lossy_transport : Transport DropOldest Z :=
  { pc_step := lossy_step; poll := lossy_poll; release := id }.

(** Sections of a data send; they borrow a sender handle. *)
Definition is_data (pc : Pc) : bool :=
  match pc with
  | PSend _ _ | PAcquire _ _ | PFull _ | PPush _ | PDropPermit _ | PLossy _ => true
  | _ => false
  end.

Definition quiet (n : Next) : Prop :=
  match n with
  | Cont (PTerminal _) | Return _ => True
  | Cont pc => is_data pc = true
  end.

Class TransportLaws (Q G : Type) `{Transport Q G} := {
  step_common sh pc : is_data pc = false -> pc_step sh pc = common_step sh pc;
  step_data sh pc sh' n :
    is_data pc = true -> pc_step sh pc = Some (sh', n) ->
    (exists q, sh' = set_slots sh q /\ quiet n)
    \/ (accepts_data (state sh) = true
        /\ exists u q g r,
             (q = queue (state sh) \/ q = tail (queue (state sh)))
             /\ sh' = set_hist (set_state sh (set_gap (set_queue (state sh) (q ++ [u])) g))
                        (log_accepted (hist sh) u)
             /\ n = Cont (PNotify false r));
  poll_nil sh : queue (state sh) = [] -> poll sh = poll_drained sh;
  poll_cons sh u q :
    queue (state sh) = u :: q ->
    exists gap g,
      poll sh = (set_hist (set_state sh (set_gap (set_queue (state sh) q) g))
                   (log_delivered (hist sh) (EvUpdate u gap)), PollEvent (EvUpdate u gap));
  release_slots sh : exists q, release sh = set_slots sh q;
}.

Lemma set_slots_same {Q G} (sh : Shared Q G) : sh = set_slots sh (slots sh).
Proof. by destruct sh. Qed.

#[export] Instance strict_laws `{SemaphoreOps T} : TransportLaws T unit.
Proof.
  split.
  - by intros sh [].
  - intros sh pc sh' n Hd Hs. cbn [pc_step strict_transport] in Hs.
    destruct pc; try done; unfold strict_step in Hs;
      repeat case_match; simplify_eq;
      try (left; eexists; split; [first [reflexivity|apply set_slots_same]|done]).
    right. split; [by destruct (accepts_data _)|].
    do 4 eexists. split; [by left|]. split; [|done]. unfold push. by destruct sh as [? [? [] ???] ??????].
  - intros sh Hq. cbn. unfold strict_poll. by rewrite Hq.
  - intros sh u q Hq. exists None, tt. cbn. unfold strict_poll. rewrite Hq.
    by destruct sh as [? [? [] ???] ??????].
  - intros sh. by eexists.
Qed.

#[export] Instance lossy_laws : TransportLaws DropOldest Z.
Proof.
  split.
  - by intros sh [].
  - intros sh pc sh' n Hd Hs. cbn [pc_step lossy_transport] in Hs.
    destruct pc as [? []| | | | | | | | | | | | | |]; try done; simplify_eq/=;
      try (left; eexists; split; [apply set_slots_same|done]).
    unfold try_send_lossy in Hs.
    destruct (negb _ || negb _) eqn:Hg; simplify_eq/=.
    { left; eexists; split; [apply set_slots_same|done]. }
    right. apply orb_false_elim in Hg as [Hg _]. split; [by destruct (accepts_data _)|].
    case_bool_decide; simplify_eq/=; do 4 eexists; (split; [|split; reflexivity]); auto.
  - intros sh Hq. cbn. unfold lossy_poll. by rewrite Hq.
  - intros sh u q Hq. eexists _, 0%Z. cbn. unfold lossy_poll. rewrite Hq. reflexivity.
  - intros sh. exists (slots sh). apply set_slots_same.
Qed.

(** ** The concurrent system *)

Inductive RcvPc : Type :=
| RIdle
| RCheck (blocking : bool)   (* recv / try_recv: about to take the lock *)
| RWait                      (* recv: awaiting the notification *)
| RRelease                   (* popped an update, permit not yet returned *)
| RGone.                     (* receiver dropped *)

Inductive Action : Type :=
| ACall (pc : Pc)            (* a sender, terminator or receiver enters a call *)
| AOp (i : nat)              (* call [i] executes its next section *)
| ACancel (i : nat)          (* a send awaiting capacity is dropped *)
| AClone
| ADrop
| ARecv (blocking : bool)
| APoll
| ARelease
| AWake
| ARecvCancel
| AReceiverDrop.

(** The sections a caller may enter first. *)
Definition entry (pc : Pc) : bool :=
  match pc with PSend _ _ | PTerminal _ | PClose | POnClosed _ => true | _ => false end.

Record Sys (Q G : Type) : Type := mkSys {
  sh : Shared Q G;
  ops : list Pc;
  rcv : RcvPc
}.
Arguments mkSys {Q G}. Arguments sh {Q G}. Arguments ops {Q G}. Arguments rcv {Q G}.

Definition next_ops (n : Next) : list Pc :=
  match n with Cont pc => [pc] | Return _ => [] end.

Definition replace_op (i : nat) (l : list Pc) (new : list Pc) : list Pc :=
  take i l ++ new ++ drop (S i) l.

(** What [recv] ([blocking]) or [try_recv] does after its lock section. *)
Definition after_poll (blocking : bool) (p : Poll) : RcvPc :=
  match p with
  | PollEvent (EvUpdate _ _) => RRelease
  | PollEmpty => if blocking then RWait else RIdle
  | _ => RIdle
  end.

Section System.
Context {Q G : Type} `{Transport Q G}.
Implicit Types s : Sys Q G.

(** A data send borrows a live handle, and the last handle is not dropped while
    borrowed: the borrow checker's rule. *)
Definition exec s (a : Action) : option (Sys Q G) :=
  let c := sh s in
  match a with
  | ACall pc =>
      if entry pc && implb (is_data pc) (bool_decide (0 < sender_count c))
      then Some (mkSys c (ops s ++ [pc]) (rcv s)) else None
  | AOp i =>
      match ops s !! i with
      | Some pc =>
          match pc_step c pc with
          | Some (c', n) => Some (mkSys c' (replace_op i (ops s) (next_ops n)) (rcv s))
          | None => None
          end
      | None => None
      end
  | ACancel i =>
      match ops s !! i with
      | Some (PAcquire true _) => Some (mkSys c (replace_op i (ops s) []) (rcv s))
      | _ => None
      end
  | AClone =>
      if bool_decide (0 < sender_count c)
      then Some (mkSys (set_sender_count c (S (sender_count c))) (ops s) (rcv s)) else None
  | ADrop =>
      if bool_decide (0 < sender_count c)
         && implb (bool_decide (sender_count c = 1)) (forallb (fun pc => negb (is_data pc)) (ops s))
      then let '(c', n) := sender_dropped c in Some (mkSys c' (ops s ++ next_ops n) (rcv s))
      else None
  | ARecv blocking =>
      match rcv s with RIdle => Some (mkSys c (ops s) (RCheck blocking)) | _ => None end
  | APoll =>
      match rcv s with
      | RCheck blocking =>
          let '(c', p) := poll c in
          Some (mkSys c' (ops s) (after_poll blocking p))
      | _ => None
      end
  | ARelease =>
      match rcv s with RRelease => Some (mkSys (release c) (ops s) RIdle) | _ => None end
  | AWake =>
      match rcv s with
      | RWait => if ready c then Some (mkSys (set_ready c false) (ops s) (RCheck true)) else None
      | _ => None
      end
  | ARecvCancel =>
      match rcv s with RWait => Some (mkSys c (ops s) RIdle) | _ => None end
  | AReceiverDrop =>
      match rcv s with
      | RIdle => Some (mkSys c (ops s ++ [PReceiverDropped]) RGone)
      | _ => None
      end
  end.

Fixpoint run (acts : list Action) s : option (Sys Q G) :=
  match acts with
  | [] => Some s
  | a :: acts => match exec s a with Some s' => run acts s' | None => None end
  end.

(** A fresh channel. *)
Definition sys_new (cap : nat) (q : Q) : option (Sys Q G) :=
  match shared_new cap q with Some c => Some (mkSys c [] RIdle) | None => None end.

(** The step relation the executable scheduler realises: a call executes a
    section, the receiver polls, or a handle, the receiver or the list of calls
    changes without touching the queue. *)
Inductive step s : Sys Q G -> Prop :=
| step_section i pc c' n :
    ops s !! i = Some pc -> pc_step (sh s) pc = Some (c', n) ->
    step s (mkSys c' (replace_op i (ops s) (next_ops n)) (rcv s))
| step_cancel i u :
    ops s !! i = Some (PAcquire true u) -> step s (mkSys (sh s) (replace_op i (ops s) []) (rcv s))
| step_enter pc :
    entry pc = true -> (is_data pc = true -> 0 < sender_count (sh s)) ->
    step s (mkSys (sh s) (ops s ++ [pc]) (rcv s))
| step_clone :
    0 < sender_count (sh s) ->
    step s (mkSys (set_sender_count (sh s) (S (sender_count (sh s)))) (ops s) (rcv s))
| step_drop c' n :
    0 < sender_count (sh s) ->
    (sender_count (sh s) = 1 -> existsb is_data (ops s) = false) ->
    sender_dropped (sh s) = (c', n) ->
    step s (mkSys c' (ops s ++ next_ops n) (rcv s))
| step_recv b : rcv s = RIdle -> step s (mkSys (sh s) (ops s) (RCheck b))
| step_poll b c' p :
    rcv s = RCheck b -> poll (sh s) = (c', p) -> step s (mkSys c' (ops s) (after_poll b p))
| step_release : rcv s = RRelease -> step s (mkSys (release (sh s)) (ops s) RIdle)
| step_wake :
    rcv s = RWait -> ready (sh s) = true ->
    step s (mkSys (set_ready (sh s) false) (ops s) (RCheck true))
| step_recv_cancel : rcv s = RWait -> step s (mkSys (sh s) (ops s) RIdle)
| step_receiver_drop :
    rcv s = RIdle -> step s (mkSys (sh s) (ops s ++ [PReceiverDropped]) RGone).

Lemma forallb_negb (f : Pc -> bool) l : forallb (fun pc => negb (f pc)) l = negb (existsb f l).
Proof. induction l as [|x l IH]; [done|]. simpl. by rewrite IH, negb_orb. Qed.

Lemma exec_step s a s' : exec s a = Some s' -> step s s'.
Proof.
  unfold exec. destruct a; intros He.
  - destruct (entry pc && _) eqn:Hg; simplify_eq. apply andb_prop in Hg as [He Hd].
    apply step_enter; [done|]. intros Hdata. rewrite Hdata in Hd. by apply bool_decide_eq_true in Hd.
  - destruct (ops s !! i) eqn:Hi; [|done]. destruct (pc_step _ _) as [[c' n]|] eqn:Hs; [|done].
    simplify_eq. by eapply step_section.
  - destruct (ops s !! i) as [[| [] ? | | | | | | | | | | | | |]|] eqn:Hi; simplify_eq.
    by eapply step_cancel.
  - case_bool_decide; simplify_eq. by apply step_clone.
  - destruct (bool_decide _ && _) eqn:Hg; [|done]. apply andb_prop in Hg as [Hg Hd].
    apply bool_decide_eq_true in Hg. destruct (sender_dropped _) as [c' n] eqn:Hs. simplify_eq.
    eapply step_drop; [done| |done]. intros H1. rewrite bool_decide_eq_true_2, forallb_negb in Hd by done.
    by destruct (existsb is_data (ops s)).
  - destruct (rcv s) eqn:Hr; simplify_eq. by apply step_recv.
  - destruct (rcv s) eqn:Hr; simplify_eq. destruct (poll _) as [c' p] eqn:Hp. simplify_eq.
    by eapply step_poll.
  - destruct (rcv s) eqn:Hr; simplify_eq. by apply step_release.
  - destruct (rcv s) eqn:Hr; simplify_eq. destruct (ready _) eqn:Hy; simplify_eq. by apply step_wake.
  - destruct (rcv s) eqn:Hr; simplify_eq. by apply step_recv_cancel.
  - destruct (rcv s) eqn:Hr; simplify_eq. by apply step_receiver_drop.
Qed.

(** Invariant induction over runs. *)
Lemma run_inv (I : Sys Q G -> Prop) acts s s' :
  (forall s s', step s s' -> I s -> I s') ->
  run acts s = Some s' -> I s -> I s'.
Proof.
  intros Hstep. revert s. induction acts as [|a acts IH]; intros s Hrun Hs; simplify_eq/=; [done|].
  destruct (exec s a) as [s1|] eqn:Ha; [|done]. eauto using exec_step.
Qed.

Lemma replace_op_split i l pc new :
  l !! i = Some pc -> exists l1 l2, l = l1 ++ pc :: l2 /\ replace_op i l new = l1 ++ new ++ l2.
Proof.
  intros Hi. exists (take i l), (drop (S i) l). split; [|done]. symmetry. by apply take_drop_middle.
Qed.

(** Can a poll return something other than "empty"? *)
Definition deliverable (c : Shared Q G) : bool :=
  match queue (state c) with [] => false | _ => true end
  || bool_decide (terminal_error (state c) <> None)
  || receiver_closed (state c) || terminal_delivered (state c)
  || bool_decide (sender_count c = 0).

(** Calls that still have to notify the receiver. *)
Definition will_notify (pc : Pc) : bool :=
  match pc with PNotify _ _ | PCloseSlots _ | PDropStore => true | _ => false end.

Context `{!TransportLaws Q G}.

Lemma deliverable_poll c : deliverable c = false <-> (poll c).2 = PollEmpty.
Proof.
  unfold deliverable. destruct (queue (state c)) as [|u q] eqn:Hq.
  - rewrite (poll_nil c Hq). unfold poll_drained.
    destruct (terminal_error (state c)); [done|]. simpl.
    destruct (receiver_closed _), (terminal_delivered _), (bool_decide (sender_count c = 0)); done.
  - destruct (poll_cons c u q Hq) as (gap & g & ->). done.
Qed.

(** *** No lost wake-up *)

Definition wake_inv s : Prop :=
  rcv s = RWait -> deliverable (sh s) = true ->
  ready (sh s) = true \/ existsb will_notify (ops s) = true.

Lemma existsb_replace i l pc new :
  l !! i = Some pc ->
  existsb will_notify l = true ->
  existsb will_notify (replace_op i l new) = true \/ will_notify pc = true.
Proof.
  intros Hi. destruct (replace_op_split i l pc new Hi) as (l1 & l2 & -> & ->).
  rewrite !existsb_app. simpl. rewrite !orb_true_iff. naive_solver.
Qed.

Lemma existsb_replace_new i l pc new :
  l !! i = Some pc -> existsb will_notify new = true ->
  existsb will_notify (replace_op i l new) = true.
Proof.
  intros Hi Hn. destruct (replace_op_split i l pc new Hi) as (l1 & l2 & -> & ->).
  by rewrite !existsb_app, Hn, orb_true_r.
Qed.

(** A section keeps what is deliverable unless it goes on to notify; a section
    that notifies leaves the notification behind. *)
Lemma step_notifies c pc c' n :
  pc_step c pc = Some (c', n) ->
  (existsb will_notify (next_ops n) = true \/ ready c' = true
   \/ (deliverable c' = deliverable c /\ ready c' = ready c /\ will_notify pc = false)).
Proof.
  intros Hs. destruct (is_data pc) eqn:Hd.
  - destruct (step_data c pc c' n Hd Hs) as [(q & -> & _)|(_ & u & q & g & r & _ & _ & ->)];
      [|by left]. right; right. by destruct pc.
  - rewrite step_common in Hs by done.
    destruct pc; simplify_eq/=; auto; unfold send_terminal, close, receiver_dropped, notify_closed in *;
      repeat case_match; simplify_eq/=; auto 6.
Qed.

Lemma poll_empty_same c c' : poll c = (c', PollEmpty) -> c' = c.
Proof.
  intros Hp. destruct (queue (state c)) as [|u q] eqn:Hq.
  - rewrite (poll_nil _ Hq) in Hp. unfold poll_drained in Hp. repeat case_match; by simplify_eq.
  - destruct (poll_cons c u q Hq) as (? & ? & Hp'). congruence.
Qed.

Lemma wake_step s s' : step s s' -> wake_inv s -> wake_inv s'.
Proof.
  intros Hstep Hinv. destruct Hstep as
    [i pc c' n Hi Hs|i u Hi|pc _ _|Hc|c' n Hc _ Hs|b Hr|b c' p Hr Hp|Hr|Hr|Hr|Hr]; intros Hw Hd;
    cbn in Hw, Hd |- *; try done.
  - destruct (step_notifies _ _ _ _ Hs) as [Hn|[?|(Hde & Hre & Hp)]]; [|by left|].
    { right. by eapply existsb_replace_new. }
    rewrite Hde in Hd. rewrite Hre. destruct (Hinv Hw Hd) as [?|Hx]; [by left|].
    destruct (existsb_replace i _ pc (next_ops n) Hi Hx) as [?|?]; [by right|congruence].
  - destruct (Hinv Hw Hd) as [?|Hx]; [by left|].
    destruct (existsb_replace i _ _ [] Hi Hx) as [?|?]; [by right|done].
  - destruct (Hinv Hw Hd) as [?|Hx]; [by left|right]. by rewrite existsb_app, Hx.
  - apply Hinv; [done|]. unfold deliverable in *. cbn in *.
    rewrite (bool_decide_eq_false_2 (S _ = 0)) in Hd by done.
    by rewrite (bool_decide_eq_false_2 (sender_count _ = 0)) by lia.
  - unfold sender_dropped in Hs. simplify_eq/=.
    case_decide as Hone; [right; by rewrite existsb_app, orb_true_r|]. cbn. rewrite app_nil_r.
    apply Hinv; [done|]. unfold deliverable in *. cbn in Hd.
    rewrite (bool_decide_eq_false_2 (sender_count _ - 1 = 0)) in Hd by lia.
    by rewrite (bool_decide_eq_false_2 (sender_count _ = 0)) by lia.
  - destruct p as [[]| |]; [done..|]. pose proof (poll_empty_same _ _ Hp) as ->.
    assert (deliverable (sh s) = false) by (apply deliverable_poll; by rewrite Hp). congruence.
Qed.

(** *** Terminal failures *)

Definition is_update (ev : SubscriptionEvent) : bool :=
  match ev with EvUpdate _ _ => true | EvError _ => false end.

(** The life of the terminal error: none yet, stored, delivered last, or
    discarded with the receiver. *)
Definition terminal_ok (c : Shared Q G) : Prop :=
  let st := state c in
  match failures (hist c) with
  | [] => terminal_error st = None /\ terminal_delivered st = false
          /\ forallb is_update (delivered (hist c)) = true
  | [e] =>
      (terminal_error st = Some e /\ terminal_delivered st = false
       /\ forallb is_update (delivered (hist c)) = true)
      \/ (terminal_error st = None /\ terminal_delivered st = true /\ queue st = []
          /\ exists evs, delivered (hist c) = evs ++ [EvError e] /\ forallb is_update evs = true)
      \/ (terminal_error st = None /\ terminal_delivered st = false
          /\ receiver_closed st = true /\ queue st = []
          /\ forallb is_update (delivered (hist c)) = true)
  | _ => False
  end.

Definition core_inv s : Prop :=
  (accepting (sh s) = true -> accepts_data (state (sh s)) = true)
  /\ (sender_count (sh s) = 0 -> existsb is_data (ops s) = false)
  /\ terminal_ok (sh s).

Lemma accepts_data_true {G'} (st : ChannelState G') :
  accepts_data st = true <->
  receiver_closed st = false /\ terminal_error st = None /\ terminal_delivered st = false.
Proof.
  unfold accepts_data. rewrite !andb_true_iff, !negb_true_iff, bool_decide_eq_true. tauto.
Qed.

Lemma terminal_open c :
  terminal_ok c -> accepts_data (state c) = true ->
  failures (hist c) = [] /\ forallb is_update (delivered (hist c)) = true.
Proof.
  intros Ht (Hr & He & Hd)%accepts_data_true. unfold terminal_ok in Ht.
  destruct (failures (hist c)) as [|e [|]]; [naive_solver| |done].
  destruct Ht as [(? & _)|[(_ & ? & _)|(_ & _ & ? & _)]]; congruence.
Qed.

(** Sections of a call that is not a data send never become one, and no section
    changes the number of handles. *)
Lemma step_borrow c pc c' n :
  pc_step c pc = Some (c', n) ->
  sender_count c' = sender_count c
  /\ (is_data pc = false -> existsb is_data (next_ops n) = false).
Proof.
  intros Hs. destruct (is_data pc) eqn:Hd.
  - destruct (step_data c pc c' n Hd Hs) as [(q & -> & _)|(_ & u & q & g & r & _ & -> & ->)]; done.
  - rewrite step_common in Hs by done.
    destruct pc; simplify_eq/=;
      unfold send_terminal, close, receiver_dropped, notify_closed in *;
      repeat case_match; simplify_eq/=; auto.
Qed.

Lemma step_terminal c pc c' n :
  pc_step c pc = Some (c', n) -> terminal_ok c -> terminal_ok c'.
Proof.
  intros Hs Ht. destruct (is_data pc) eqn:Hd.
  - destruct (step_data c pc c' n Hd Hs) as [(q & -> & _)|(Ha & u & q & g & r & _ & -> & ->)]; [done|].
    destruct (terminal_open c Ht Ha) as [Hf Hu]. apply accepts_data_true in Ha.
    unfold terminal_ok. cbn. rewrite Hf. naive_solver.
  - rewrite step_common in Hs by done. destruct pc; simplify_eq/=; try done.
    + unfold send_terminal in Hs. destruct (bool_decide _ || _) eqn:Hg; simplify_eq; [done|].
      apply orb_false_elim in Hg as [_ Ha]. apply negb_false_iff in Ha.
      destruct (terminal_open c Ht Ha) as [Hf Hu]. apply accepts_data_true in Ha as (? & ? & ?).
      unfold terminal_ok. cbn. rewrite Hf. by left.
    + unfold close in Hs. case_match; simplify_eq; [done|]. unfold terminal_ok in *. cbn.
      destruct (failures (hist c)) as [|e [|]]; naive_solver.
    + unfold receiver_dropped in Hs. simplify_eq. unfold terminal_ok in *. cbn.
      destruct (failures (hist c)) as [|e [|]]; naive_solver.
    + unfold notify_closed. by destruct (on_closed c).
Qed.

Lemma step_accepting c pc c' n :
  pc_step c pc = Some (c', n) ->
  (accepting c = true -> accepts_data (state c) = true) ->
  accepting c' = true -> accepts_data (state c') = true.
Proof.
  intros Hs Ha. destruct (is_data pc) eqn:Hd.
  - destruct (step_data c pc c' n Hd Hs) as [(q & -> & _)|(Ho & u & q & g & r & _ & -> & ->)]; [done|].
    by intros _.
  - rewrite step_common in Hs by done.
    destruct pc; simplify_eq/=; try done;
      unfold send_terminal, close, receiver_dropped, notify_closed in *;
      repeat case_match; simplify_eq/=; first [by auto|done].
Qed.

Lemma poll_terminal c c' p : poll c = (c', p) -> terminal_ok c -> terminal_ok c'.
Proof.
  intros Hp Ht. destruct (queue (state c)) as [|u q] eqn:Hq.
  - rewrite (poll_nil _ Hq) in Hp. unfold poll_drained in Hp.
    destruct (terminal_error (state c)) as [e|] eqn:He; [|repeat case_match; by simplify_eq].
    simplify_eq. unfold terminal_ok in *. cbn.
    destruct (failures (hist c)) as [|e' [|]]; [naive_solver| |done].
    destruct Ht as [(? & ? & Hu)|[(? & _)|(? & _)]]; simplify_eq. right; left.
    split_and!; [done..|]. by eexists.
  - destruct (poll_cons c u q Hq) as (gap & g & Hpc). rewrite Hpc in Hp. simplify_eq.
    unfold terminal_ok in *. cbn. rewrite forallb_app. cbn.
    destruct (failures (hist c)) as [|e' [|]]; [|rewrite Hq in Ht|done].
    + destruct Ht as (? & ? & ->). done.
    + destruct Ht as [(? & ? & ->)|[(_ & _ & ? & _)|(_ & _ & _ & ? & _)]]; [|done..]. by left.
Qed.

Lemma poll_accepting c c' p :
  poll c = (c', p) ->
  sender_count c' = sender_count c /\ accepting c' = accepting c
  /\ ((accepting c = true -> accepts_data (state c) = true) ->
      accepting c = true -> accepts_data (state c') = true).
Proof.
  intros Hp. destruct (queue (state c)) as [|u q] eqn:Hq.
  - rewrite (poll_nil _ Hq) in Hp. unfold poll_drained in Hp.
    destruct (terminal_error (state c)) as [e|] eqn:He; [|repeat case_match; by simplify_eq].
    simplify_eq. cbn. split_and!; [done..|]. intros Ha Hb. apply Ha, accepts_data_true in Hb. naive_solver.
  - destruct (poll_cons c u q Hq) as (gap & g & Hpc). rewrite Hpc in Hp. by simplify_eq.
Qed.

Lemma existsb_replace_false (f : Pc -> bool) i l pc new :
  l !! i = Some pc -> existsb f l = false -> (f pc = false -> existsb f new = false) ->
  existsb f (replace_op i l new) = false.
Proof.
  intros Hi. destruct (replace_op_split i l pc new Hi) as (l1 & l2 & -> & ->).
  rewrite !existsb_app. simpl. rewrite !orb_false_iff. naive_solver.
Qed.

Lemma core_step s s' : step s s' -> core_inv s -> core_inv s'.
Proof.
  intros Hstep (Ha & Hb & Ht). destruct Hstep as
    [i pc c' n Hi Hs|i u Hi|pc _ Hd|Hc|c' n Hc Hd Hs|b Hr|b c' p Hr Hp|Hr|Hr|Hr|Hr];
    unfold core_inv; cbn; try done.
  - destruct (step_borrow _ _ _ _ Hs) as [Hsc Hnd]. split_and!.
    + eauto using step_accepting.
    + rewrite Hsc. intros H0'. eapply existsb_replace_false; eauto.
    + eauto using step_terminal.
  - split_and!; [done| |done]. intros H0'. by eapply existsb_replace_false; eauto.
  - split_and!; [done| |done]. intros H0'. rewrite existsb_app, Hb by done. cbn.
    destruct (is_data pc); [|done]. specialize (Hd eq_refl). lia.
  - unfold sender_dropped in Hs. simplify_eq. cbn. split_and!; [done| |done]. intros H1.
    rewrite existsb_app, Hd by lia. by case_decide.
  - destruct (poll_accepting _ _ _ Hp) as (Hsc & Hac & Had). rewrite Hsc, Hac.
    eauto using poll_terminal.
  - destruct (release_slots (sh s)) as [q ->]. done.
  - split_and!; [done| |done]. intros H0'. by rewrite existsb_app, Hb.
Qed.

(** *** End of stream *)

(** Nothing is left to deliver and nothing can be accepted any more. *)
Definition dead (c : Shared Q G) : Prop :=
  queue (state c) = [] /\ terminal_error (state c) = None
  /\ (receiver_closed (state c) = true \/ terminal_delivered (state c) = true
      \/ sender_count c = 0).

Lemma dead_poll c : dead c <-> (poll c).2 = PollDisconnected.
Proof.
  unfold dead. destruct (queue (state c)) as [|u q] eqn:Hq.
  - rewrite (poll_nil c Hq). unfold poll_drained.
    destruct (terminal_error (state c)); [naive_solver|].
    destruct (receiver_closed (state c)), (terminal_delivered (state c)); simpl; try tauto.
    case_bool_decide; simpl; naive_solver.
  - destruct (poll_cons c u q Hq) as (? & ? & ->). naive_solver.
Qed.

Lemma dead_rejects c : dead c -> accepts_data (state c) = true -> sender_count c = 0.
Proof. intros (_ & _ & Hd) (? & ? & ?)%accepts_data_true. naive_solver congruence. Qed.

Lemma dead_section c pc c' n :
  pc_step c pc = Some (c', n) -> dead c ->
  (sender_count c = 0 -> is_data pc = false) ->
  dead c' /\ accepted (hist c') = accepted (hist c) /\ delivered (hist c') = delivered (hist c).
Proof.
  intros Hs Hdead Hb. destruct (is_data pc) eqn:Hd.
  - destruct (step_data c pc c' n Hd Hs) as [(q & -> & _)|(Ha & _)]; [done|].
    by discriminate (Hb (dead_rejects _ Hdead Ha)).
  - rewrite step_common in Hs by done. destruct Hdead as (Hq & He & Hdd).
    destruct pc; simplify_eq/=; try done.
    + unfold send_terminal in Hs. destruct (bool_decide _ || _) eqn:Hg; simplify_eq; [by unfold dead|].
      apply orb_false_elim in Hg as [Hc Ha]. apply bool_decide_eq_false in Hc.
      destruct Hc. apply negb_false_iff in Ha. by apply dead_rejects.
    + unfold close in Hs. case_match; simplify_eq; [by unfold dead; auto 6|]. split; [|done]. split_and!; [done..|]. by left.
    + unfold receiver_dropped in Hs. simplify_eq. split; [|done]. split_and!; [done..|]. by left.
    + unfold notify_closed. by destruct (on_closed c).
Qed.

Lemma existsb_lookup_false (f : Pc -> bool) l i pc :
  l !! i = Some pc -> existsb f l = false -> f pc = false.
Proof.
  intros Hi. destruct (replace_op_split i l pc [] Hi) as (l1 & l2 & -> & _).
  rewrite existsb_app. simpl. rewrite !orb_false_iff. naive_solver.
Qed.

Definition dead_inv (acc : list U) (del : list SubscriptionEvent) s : Prop :=
  core_inv s /\ dead (sh s) /\ accepted (hist (sh s)) = acc /\ delivered (hist (sh s)) = del.

Lemma dead_step acc del s s' : step s s' -> dead_inv acc del s -> dead_inv acc del s'.
Proof.
  intros Hstep (Hcore & Hdead & <- & <-). split; [by eapply core_step|].
  destruct Hcore as (_ & Hb & _). destruct Hstep as
    [i pc c' n Hi Hs|i u Hi|pc _ Hd|Hc|c' n Hc Hd Hs|b Hr|b c' p Hr Hp|Hr|Hr|Hr|Hr]; cbn; try done.
  - eapply dead_section; [done..|]. intros H1. eapply existsb_lookup_false; eauto.
  - destruct Hdead as (? & ? & [?|[?|?]]); unfold dead; cbn; naive_solver lia.
  - unfold sender_dropped in Hs. simplify_eq/=. split; [|done].
    destruct Hdead as (? & ? & [?|[?|?]]); unfold dead; cbn; naive_solver lia.
  - pose proof (proj1 (dead_poll _) Hdead) as Hpd. rewrite Hp in Hpd. cbn in Hpd. subst p.
    destruct Hdead as (Hq & He & Hdd). rewrite (poll_nil _ Hq) in Hp. unfold poll_drained in Hp.
    rewrite He in Hp. case_match; by simplify_eq.
  - destruct (release_slots (sh s)) as [q ->]. done.
Qed.

(** *** The close callback *)

Definition will_call (pc : Pc) : bool :=
  match pc with
  | PCloseSlots _ | PNotify true _ | PNotifyClosed _ | PDropStore | POnClosedCheck => true
  | _ => false
  end.

Definition closed_inv s : Prop :=
  forall cb, accepting (sh s) = false -> on_closed (sh s) = Some cb ->
  cb ∈ closed_calls (sh s) \/ existsb will_call (ops s) = true.

Lemma step_calls c pc c' n :
  pc_step c pc = Some (c', n) ->
  existsb will_call (next_ops n) = true
  \/ accepting c' = true
  \/ (forall cb, on_closed c' = Some cb -> cb ∈ closed_calls c')
  \/ (accepting c' = accepting c /\ on_closed c' = on_closed c
      /\ closed_calls c' = closed_calls c /\ will_call pc = false).
Proof.
  intros Hs. destruct (is_data pc) eqn:Hd.
  - destruct (step_data c pc c' n Hd Hs) as [(q & -> & _)|(_ & u & q & g & r & _ & -> & ->)];
      right; right; right; by destruct pc.
  - rewrite step_common in Hs by done.
    destruct pc as [| | | | | | | | | |[]| | | |]; simplify_eq/=; auto;
      unfold send_terminal, close, receiver_dropped in *; repeat case_match; simplify_eq/=; auto 7.
    right; right; left. intros cb. unfold notify_closed.
    destruct (on_closed c) as [cb'|] eqn:Hcb; cbn; [|congruence]. intros [= ->].
    rewrite elem_of_app. right. by apply list_elem_of_singleton.
Qed.

Lemma existsb_replace_gen (f : Pc -> bool) i l pc new :
  l !! i = Some pc -> existsb f l = true \/ existsb f new = true ->
  existsb f (replace_op i l new) = true \/ f pc = true.
Proof.
  intros Hi. destruct (replace_op_split i l pc new Hi) as (l1 & l2 & -> & ->).
  rewrite !existsb_app. simpl. rewrite !orb_true_iff. naive_solver.
Qed.

Lemma closed_step s s' : step s s' -> closed_inv s -> closed_inv s'.
Proof.
  intros Hstep Hinv. destruct Hstep as
    [i pc c' n Hi Hs|i u Hi|pc _ Hd|Hc|c' n Hc Hd Hs|b Hr|b c' p Hr Hp|Hr|Hr|Hr|Hr];
    intros cb Ha Hcb; cbn in *; eauto.
  - destruct (step_calls _ _ _ _ Hs) as [Hn|[?|[?|(Hac & Hoc & Hcc & Hw)]]]; [|congruence|by eauto|].
    + right. destruct (replace_op_split i _ pc (next_ops n) Hi) as (l1 & l2 & _ & ->).
      by rewrite !existsb_app, Hn, orb_true_r.
    + rewrite Hac in Ha. rewrite Hoc in Hcb. rewrite Hcc.
      destruct (Hinv cb Ha Hcb) as [?|Hx]; [by left|].
      destruct (existsb_replace_gen will_call i _ pc (next_ops n) Hi (or_introl Hx)); [by right|congruence].
  - destruct (Hinv cb Ha Hcb) as [?|Hx]; [by left|].
    by destruct (existsb_replace_gen will_call i _ _ [] Hi (or_introl Hx)); [right|].
  - destruct (Hinv cb Ha Hcb) as [?|Hx]; [by left|right]. by rewrite existsb_app, Hx.
  - unfold sender_dropped in Hs. simplify_eq/=. destruct (Hinv cb Ha Hcb) as [?|Hx]; [by left|right].
    by rewrite existsb_app, Hx.
  - destruct (queue (state (sh s))) as [|u q] eqn:Hq.
    + rewrite (poll_nil _ Hq) in Hp. unfold poll_drained in Hp. repeat case_match; simplify_eq; eauto.
    + destruct (poll_cons _ u q Hq) as (? & ? & Hp'). rewrite Hp' in Hp. simplify_eq. eauto.
  - destruct (release_slots (sh s)) as [q Hq]. rewrite Hq in *. eauto.
  - destruct (Hinv cb Ha Hcb) as [?|Hx]; [by left|right]. by rewrite existsb_app, Hx.
Qed.

(** *** Discarded updates

    Only dropping the receiver discards queued updates; afterwards nothing is
    queued, stored or delivered. *)

Definition is_receiver_drop (pc : Pc) : bool :=
  match pc with PReceiverDropped => true | _ => false end.

Definition discard_inv s : Prop :=
  core_inv s
  /\ (existsb is_receiver_drop (ops s) = true -> rcv s = RGone)
  /\ (discarded (hist (sh s)) <> [] ->
      rcv s = RGone /\ queue (state (sh s)) = [] /\ receiver_closed (state (sh s)) = true
      /\ terminal_error (state (sh s)) = None /\ terminal_delivered (state (sh s)) = false).

Lemma existsb_lookup_true (f : Pc -> bool) l i pc :
  l !! i = Some pc -> f pc = true -> existsb f l = true.
Proof.
  intros Hi Hf. destruct (replace_op_split i l pc [] Hi) as (l1 & l2 & -> & _).
  rewrite existsb_app. simpl. by rewrite Hf, orb_true_r.
Qed.

Lemma discard_section c pc c' n :
  pc_step c pc = Some (c', n) ->
  existsb is_receiver_drop (next_ops n) = false
  /\ (is_receiver_drop pc = true /\ (c', n) = receiver_dropped c
      \/ discarded (hist c') = discarded (hist c)
         /\ (receiver_closed (state c) = true ->
             queue (state c') = queue (state c)
             /\ receiver_closed (state c') = true
             /\ terminal_error (state c') = terminal_error (state c)
             /\ terminal_delivered (state c') = terminal_delivered (state c))).
Proof.
  intros Hs. destruct (is_data pc) eqn:Hd.
  - destruct (step_data c pc c' n Hd Hs) as [(q & -> & Hq)|(Ha & u & q & g & r & _ & -> & ->)].
    + split; [|by right]. by destruct n as [[]|].
    + split; [done|]. right. split; [done|]. apply accepts_data_true in Ha. intros. by destruct Ha; congruence.
  - rewrite step_common in Hs by done.
    destruct pc as [| | | | | | | | | |[]| | | |]; simplify_eq/=; auto 7;
      unfold send_terminal, close, notify_closed in *; repeat case_match; simplify_eq/=; auto 9.
    + split; [done|]. right. split; [done|]. intros Hr.
      rewrite orb_false_iff, negb_false_iff in *. destruct_and!.
      match goal with H : accepts_data _ = true |- _ => apply accepts_data_true in H end.
      naive_solver congruence.
    + unfold receiver_dropped in *. simplify_eq. auto.
Qed.

Lemma discard_step s s' : step s s' -> discard_inv s -> discard_inv s'.
Proof.
  intros Hstep (Hcore & Hdr & Hdis). split; [by eapply core_step|].
  destruct Hcore as (_ & _ & Ht). destruct Hstep as
    [i pc c' n Hi Hs|i u Hi|pc He Hd|Hc|c' n Hc Hd Hs|b Hr|b c' p Hr Hp|Hr|Hr|Hr|Hr]; cbn in *; try done.
  - destruct (discard_section _ _ _ _ Hs) as [Hn Hcase]. split.
    { intros Hx. destruct (existsb is_receiver_drop (ops s)) eqn:Hy; [by auto|].
      by rewrite (existsb_replace_false _ i _ pc) in Hx. }
    destruct Hcase as [[Hp Heq]|(Heq & Hk)].
    + unfold receiver_dropped in Heq. simplify_eq. cbn. intros Hne.
      assert (rcv s = RGone) as Hg by eauto using existsb_lookup_true. split_and!; [done..|].
      destruct (terminal_delivered (state (sh s))) eqn:Htd; [|done]. exfalso.
      unfold terminal_ok in Ht. rewrite Htd in Ht.
      destruct (discarded (hist (sh s))) eqn:Hds; [|by naive_solver].
      destruct (failures _) as [|? [|]]; naive_solver.
    + rewrite Heq. intros Hne. destruct (Hdis Hne) as (? & ? & Hrc & ? & ?).
      destruct (Hk Hrc) as (-> & ? & -> & ->). done.
  - split; [|done]. intros Hx. destruct (existsb is_receiver_drop (ops s)) eqn:Hy; [by auto|].
    by rewrite (existsb_replace_false _ i _ (PAcquire true u)) in Hx.
  - split; [|done]. rewrite existsb_app. by destruct (existsb _ (ops s)) eqn:Hx; [auto|destruct pc].
  - unfold sender_dropped in Hs. simplify_eq/=. split; [|done]. rewrite existsb_app.
    destruct (existsb is_receiver_drop (ops s)); [by auto|]. by case_decide.
  - split; [intros Hx%Hdr; congruence|]. intros Hx. apply Hdis in Hx. naive_solver congruence.
  - assert (discarded (hist (sh s)) = []) as Hd0.
    { destruct (discarded (hist (sh s))); [done|]. destruct Hdis as [? _]; congruence. }
    assert (discarded (hist c') = discarded (hist (sh s))) as ->.
    { destruct (queue (state (sh s))) as [|u q] eqn:Hq.
      + rewrite (poll_nil _ Hq) in Hp. unfold poll_drained in Hp. repeat case_match; by simplify_eq.
      + destruct (poll_cons _ u q Hq) as (? & ? & Hp'). rewrite Hp' in Hp. by simplify_eq. }
    split; [|by rewrite Hd0]. intros Hx%Hdr. congruence.
  - destruct (release_slots (sh s)) as [q ->]. cbn. naive_solver congruence.
  - split; [intros Hx%Hdr; congruence|]. intros Hx. apply Hdis in Hx. naive_solver congruence.
  - split; [intros Hx%Hdr; congruence|]. intros Hx. apply Hdis in Hx. naive_solver congruence.
  - split; [done|]. intros Hx. apply Hdis in Hx. naive_solver congruence.
Qed.

(** *** Initial states *)

Lemma sys_new_invs cap q s :
  sys_new cap q = Some s ->
  0 < cap /\ wake_inv s /\ discard_inv s /\ closed_inv s
  /\ s = mkSys (mkShared true (mkState [] gap_default None false false) q 1 false None []
                  (mkHist [] [] [] [])) [] RIdle.
Proof.
  unfold sys_new, shared_new. case_decide; [|done]. intros [= <-].
  split_and!; [done|done| |done|done]. by repeat split.
Qed.
End System.

(** ** Strict queues: order and capacity *)

Definition as_update (u : U) : SubscriptionEvent := EvUpdate u None.

(** The updates among the delivered events. *)
Definition delivered_updates (h : History) : list SubscriptionEvent :=
  List.filter is_update (delivered h).

Definition permits_held (pc : Pc) : nat :=
  match pc with PPush _ | PDropPermit _ => 1 | _ => 0 end.

Lemma sum_replace (f : Pc -> nat) i l pc new :
  l !! i = Some pc ->
  sum_list_with f (replace_op i l new) + f pc = sum_list_with f l + sum_list_with f new.
Proof.
  intros Hi. destruct (replace_op_split i l pc new Hi) as (l1 & l2 & -> & ->).
  rewrite !sum_list_with_app. simpl. lia.
Qed.

Lemma filter_is_update l : forallb is_update l = true -> List.filter is_update l = l.
Proof.
  induction l as [|x l IH]; [done|]. simpl. intros [-> Hl]%andb_prop. by rewrite IH.
Qed.

(** With the terminal invariant, the delivered events are the updates followed by
    the failure once it was delivered. *)
Lemma delivered_shape {Q G} (c : Shared Q G) :
  terminal_ok c ->
  delivered (hist c)
  = delivered_updates (hist c)
      ++ (EvError <$> (if terminal_delivered (state c) then failures (hist c) else []))
  /\ length (failures (hist c)) <= 1
  /\ (terminal_delivered (state c) = true -> failures (hist c) <> [] /\ queue (state c) = []).
Proof.
  unfold terminal_ok, delivered_updates. destruct (failures (hist c)) as [|e [|]]; [| |done].
  - intros (_ & -> & Hu). rewrite (filter_is_update _ Hu), app_nil_r. split_and!; [done|cbn; lia|done].
  - intros [(_ & -> & Hu)|[(_ & -> & Hq & evs & -> & Hu)|(_ & -> & _ & _ & Hu)]].
    + rewrite (filter_is_update _ Hu), app_nil_r. by split_and!.
    + rewrite List.filter_app. cbn. rewrite app_nil_r, (filter_is_update _ Hu). by split_and!.
    + rewrite (filter_is_update _ Hu), app_nil_r. by split_and!.
Qed.

Section StrictClaims.
Context {T : Type} `{SemaphoreLaws T}.
Implicit Types s : Sys T unit.

Definition permits_of (c : Shared T unit) : nat :=
  available_permits (slots c) + length (queue (state c)) + length (discarded (hist c)).

(** Every permit is available, backs a queued update, is held by a send, is owed
    by the receiver for the update it just took, or was dropped with the receiver. *)
Definition permits s : nat :=
  permits_of (sh s) + sum_list_with permits_held (ops s)
  + match rcv s with RRelease => 1 | _ => 0 end.

Definition strict_stream (c : Shared T unit) : Prop :=
  exists us, delivered_updates (hist c) = as_update <$> us
             /\ us ++ queue (state c) ++ discarded (hist c) = accepted (hist c).

Definition strict_inv (cap : nat) s : Prop :=
  discard_inv s /\ permits s = cap /\ strict_stream (sh s).

Lemma strict_section c pc c' n :
  strict_step c pc = Some (c', n) ->
  permits_of c' + sum_list_with permits_held (next_ops n) = permits_of c + permits_held pc.
Proof.
  unfold permits_of. destruct pc; simpl; intros Hs;
    unfold send_terminal, close, receiver_dropped, notify_closed in *;
    repeat (case_match || simplify_eq/=); rewrite ?available_add, ?available_close, ?length_app; simpl;
    repeat match goal with Ha : try_acquire _ = Ok _ |- _ => apply try_acquire_ok in Ha end;
    rewrite ?length_app; simpl; lia.
Qed.

Lemma strict_section_stream c pc c' n :
  strict_step c pc = Some (c', n) ->
  (discarded (hist c) <> [] -> receiver_closed (state c) = true /\ queue (state c) = []) ->
  strict_stream c -> strict_stream c'.
Proof.
  intros Hs Hdis (us & Hd & Ha). destruct pc; simpl in Hs;
    unfold send_terminal, close, notify_closed in *;
    repeat (case_match || simplify_eq/=); try (by exists us).
  - exists us. split; [done|]. cbn. rewrite <- Ha.
    destruct (discarded (hist c)) as [|x l] eqn:Hx; [by rewrite !app_nil_r, app_assoc|].
    destruct Hdis as [Hr _]; [done|]. rewrite negb_false_iff in *.
    match goal with Hacc : accepts_data _ = true |- _ => apply accepts_data_true in Hacc end. naive_solver congruence.
  - exists us. unfold receiver_dropped in Hs. simplify_eq. split; [done|]. cbn. rewrite <- Ha.
    destruct (discarded (hist c)) as [|x l] eqn:Hx; [by rewrite !app_nil_r|].
    destruct Hdis as [_ ->]; [done|]. by rewrite app_nil_r.
Qed.

Lemma strict_poll_stream c c' p :
  strict_poll c = (c', p) -> strict_stream c ->
  strict_stream c'
  /\ permits_of c' + match p with PollEvent (EvUpdate _ _) => 1 | _ => 0 end = permits_of c.
Proof.
  unfold strict_poll, strict_stream, permits_of, delivered_updates. intros Hp (us & Hd & Ha).
  destruct (queue (state c)) as [|u q] eqn:Hq; simplify_eq/=.
  - unfold poll_drained in Hp. repeat case_match; simplify_eq/=; rewrite ?Hq; cbn; (split; [|lia]);
      exists us; rewrite ?List.filter_app; cbn; by rewrite ?app_nil_r.
  - split; [|lia]. exists (us ++ [u]). rewrite List.filter_app, fmap_app, Hd. split; [done|].
    by rewrite <- Ha, <- app_assoc.
Qed.

Lemma strict_inv_step cap s s' : step s s' -> strict_inv cap s -> strict_inv cap s'.
Proof.
  intros Hstep (Hdi & Hp & Hst). split; [by eapply discard_step|].
  destruct Hdi as (Hcore & _ & Hdis). unfold permits in *. destruct Hstep as
    [i pc c' n Hi Hs|i u Hi|pc He Hd|Hc|c' n Hc Hd Hs|b Hr|b c' p Hr Hpl|Hr|Hr|Hr|Hr]; cbn in *.
  - split.
    + pose proof (strict_section _ _ _ _ Hs). pose proof (sum_replace permits_held i _ pc (next_ops n) Hi). lia.
    + eapply strict_section_stream; [done| |done]. naive_solver.
  - pose proof (sum_replace permits_held i _ _ [] Hi). cbn in *. split; [lia|done].
  - rewrite sum_list_with_app. split; [|done]. destruct pc; simpl in *; try done; lia.
  - done.
  - unfold sender_dropped in Hs. simplify_eq/=. rewrite sum_list_with_app. split; [|done].
    case_decide; simpl; unfold permits_of in *; cbn in *; lia.
  - rewrite Hr in Hp. done.
  - rewrite Hr in Hp. destruct (strict_poll_stream _ _ _ Hpl Hst) as [? Hpp]. split; [|done].
    destruct p as [[]| |]; simpl in *; [lia..|]. destruct b; lia.
  - rewrite Hr in Hp. split; [|done]. unfold permits_of in *. cbn. rewrite available_add. lia.
  - rewrite Hr in Hp. done.
  - rewrite Hr in Hp. done.
  - rewrite Hr in Hp. rewrite sum_list_with_app. split; [|done]. simpl. lia.
Qed.

Lemma strict_reachable cap acts s0 s :
  sys_new cap (sem_new cap) = Some s0 -> run acts s0 = Some s -> strict_inv cap s.
Proof.
  intros Hnew Hrun. eapply run_inv; [apply strict_inv_step|done|].
  apply sys_new_invs in Hnew as (_ & _ & Hd & _ & ->). split; [done|].
  split; [unfold permits, permits_of; cbn; rewrite available_new; lia|by exists []].
Qed.
End StrictClaims.

(** ** Overwriting queues: exact gaps *)

(** What the consumer should be told about the updates [d] dropped just before the
    next delivered one: nothing, or their number (saturating at [u64::MAX]). *)
Definition gap_of (d : list U) : option SubscriptionGap :=
  match d with [] => None | _ => Some (mkGap (Z.min (Z.of_nat (length d)) u64_max)) end.

(** A delivered update with the updates dropped since the previous delivery. *)
Definition as_delivery (p : list U * U) : SubscriptionEvent := EvUpdate p.2 (gap_of p.1).
Definition as_accepted (p : list U * U) : list U := p.1 ++ [p.2].

Definition lossy_stream (c : Shared DropOldest Z) : Prop :=
  exists chunks pend,
    delivered_updates (hist c) = as_delivery <$> chunks
    /\ concat (as_accepted <$> chunks) ++ pend ++ queue (state c) ++ discarded (hist c)
       = accepted (hist c)
    /\ pending_gap (state c) = Z.min (Z.of_nat (length pend)) u64_max.

Definition lossy_inv (cap : nat) (s : Sys DropOldest Z) : Prop :=
  discard_inv s /\ 0 < cap /\ capacity (slots (sh s)) = cap
  /\ length (queue (state (sh s))) <= cap /\ lossy_stream (sh s).

Lemma saturating_succ n :
  u64_saturating_add (Z.min (Z.of_nat n) u64_max) 1 = Z.min (Z.of_nat (S n)) u64_max.
Proof. unfold u64_saturating_add, u64_max. lia. Qed.

Lemma take_gap_of (st : ChannelState Z) pend :
  pending_gap st = Z.min (Z.of_nat (length pend)) u64_max -> take_gap st = gap_of pend.
Proof.
  intros Hg. unfold take_gap, gap_of. rewrite Hg. unfold u64_max.
  destruct pend as [|u pend]; [done|]. simpl length. destruct (Z.eqb_spec (Z.min (Z.of_nat (S (length pend))) (2 ^ 64 - 1)) 0); [lia|done].
Qed.

Lemma try_send_lossy_stream c u c' n :
  try_send_lossy c u = (c', n) ->
  (discarded (hist c) <> [] -> receiver_closed (state c) = true /\ queue (state c) = []) ->
  0 < capacity (slots c) -> length (queue (state c)) <= capacity (slots c) ->
  lossy_stream c ->
  lossy_stream c' /\ slots c' = slots c /\ length (queue (state c')) <= capacity (slots c).
Proof.
  unfold try_send_lossy. intros Hs Hdis Hcap Hlen (chunks & pend & Hd & Ha & Hg).
  destruct (negb _ || negb _) eqn:Hop; simplify_eq/=.
  { split; [|done]. by exists chunks, pend. }
  apply orb_false_elim in Hop as [Hop _]. apply negb_false_iff, accepts_data_true in Hop as [Hrc _].
  assert (discarded (hist c) = []) as Hd0.
  { destruct (discarded (hist c)); [done|]. destruct Hdis as [? _]; congruence. }
  rewrite Hd0, app_nil_r in Ha. case_bool_decide as Hfull; simplify_eq/=.
  - destruct (queue (state c)) as [|v q] eqn:Hq; [simpl in *; lia|]. simpl in *. split_and!.
    + exists chunks, (pend ++ [v]). cbn. rewrite Hg, saturating_succ, Hd0, app_nil_r, <- Ha.
      split_and!; [done|by rewrite <- !app_assoc|]. rewrite length_app. simpl. do 2 f_equal. lia.
    + done.
    + rewrite length_app. simpl. lia.
  - split_and!; [|done|rewrite length_app; simpl; lia].
    exists chunks, pend. cbn. rewrite Hd0, app_nil_r, <- Ha, <- !app_assoc. done.
Qed.

Lemma lossy_section c pc c' n :
  lossy_step c pc = Some (c', n) ->
  (discarded (hist c) <> [] -> receiver_closed (state c) = true /\ queue (state c) = []) ->
  0 < capacity (slots c) -> length (queue (state c)) <= capacity (slots c) ->
  lossy_stream c ->
  lossy_stream c' /\ slots c' = slots c /\ length (queue (state c')) <= capacity (slots c).
Proof.
  intros Hs Hdis Hcap Hlen Hst. destruct pc; simpl in Hs; simplify_eq; try done.
  - by eapply try_send_lossy_stream.
  - unfold send_terminal in *. case_match; by simplify_eq.
  - unfold close in *. case_match; by simplify_eq.
  - unfold receiver_dropped in *. simplify_eq. cbn. split_and!; [|done|lia].
    destruct Hst as (chunks & pend & Hd & Ha & Hg). exists chunks, pend. cbn.
    split_and!; [done| |done]. rewrite <- Ha.
    destruct (discarded (hist c)) as [|x l] eqn:Hx; [by rewrite !app_nil_r|].
    destruct Hdis as [_ ->]; [done|]. by rewrite app_nil_r.
  - unfold notify_closed. by destruct (on_closed c).
Qed.

Lemma lossy_poll_stream c c' p :
  lossy_poll c = (c', p) -> lossy_stream c ->
  lossy_stream c' /\ slots c' = slots c /\ length (queue (state c')) <= length (queue (state c)).
Proof.
  unfold lossy_poll, lossy_stream, delivered_updates. intros Hp (chunks & pend & Hd & Ha & Hg).
  destruct (queue (state c)) as [|u q] eqn:Hq; simplify_eq/=.
  - unfold poll_drained in Hp. repeat case_match; simplify_eq/=; rewrite ?Hq; cbn;
      (split; [|split; [done|lia]]); exists chunks, pend; rewrite ?List.filter_app; cbn; by rewrite ?app_nil_r.
  - split_and!; [|done|lia]. exists (chunks ++ [(pend, u)]), [].
    rewrite List.filter_app, !fmap_app, Hd, (take_gap_of _ pend Hg). split_and!; [done| |done].
    rewrite <- Ha, concat_app. cbn. unfold as_accepted. cbn. by rewrite app_nil_r, <- !app_assoc.
Qed.

Lemma lossy_inv_step cap s s' : step s s' -> lossy_inv cap s -> lossy_inv cap s'.
Proof.
  intros Hstep (Hdi & Hpos & Hcap & Hlen & Hst). split; [by eapply discard_step|].
  split; [done|]. destruct Hdi as (Hcore & _ & Hdis). destruct Hstep as
    [i pc c' n Hi Hs|i u Hi|pc He Hd|Hc|c' n Hc Hd Hs|b Hr|b c' p Hr Hpl|Hr|Hr|Hr|Hr]; cbn in *; try done.
  - destruct (lossy_section _ _ _ _ Hs) as (? & -> & ?); [naive_solver|lia|lia|done|].
    split_and!; [done|lia|done].
  - unfold sender_dropped in Hs. by simplify_eq/=.
  - destruct (lossy_poll_stream _ _ _ Hpl Hst) as (? & -> & ?). split_and!; [done|lia|done].
Qed.

Lemma lossy_reachable cap acts (s0 s : Sys DropOldest Z) :
  sys_new cap (mkDropOldest cap) = Some s0 -> run acts s0 = Some s -> lossy_inv cap s.
Proof.
  intros Hnew Hrun. eapply run_inv; [apply lossy_inv_step|done|].
  apply sys_new_invs in Hnew as (Hpos & _ & Hd & _ & ->). split_and!; [done..|cbn; lia|].
  by exists [], [].
Qed.

(** ** Waking the receiver *)

Section Wake.
Context {Q G : Type} `{TransportLaws Q G}.
Implicit Types s : Sys Q G.

Definition is_op (a : Action) : bool := match a with AOp _ => true | _ => false end.

Lemma replace_op_same i l (pc pc' : Pc) :
  l !! i = Some pc -> replace_op i l [pc'] !! i = Some pc'.
Proof.
  intros Hi. unfold replace_op. assert (i < length l) by by eapply lookup_lt_Some.
  rewrite lookup_app_r; rewrite length_take; [|lia].
  by replace (i - min i (length l)) with 0 by lia.
Qed.

(** One section of a call at a program counter every queue shares. *)
Lemma exec_common s i pc c' n :
  ops s !! i = Some pc -> is_data pc = false -> common_step (sh s) pc = Some (c', n) ->
  exec s (AOp i) = Some (mkSys c' (replace_op i (ops s) (next_ops n)) (rcv s)).
Proof. intros Hi Hd Hs. unfold exec. by rewrite Hi, step_common, Hs. Qed.

Lemma notify_reaches_ready s i pc :
  ops s !! i = Some pc -> will_notify pc = true ->
  exists acts s', forallb is_op acts = true /\ run acts s = Some s'
                  /\ rcv s' = rcv s /\ ready (sh s') = true
                  /\ deliverable (sh s') = deliverable (sh s).
Proof.
  intros Hi Hw. destruct pc; try done.
  - pose proof (exec_common s i _ _ _ Hi eq_refl eq_refl) as E1.
    match type of E1 with _ = Some ?x => set (s1 := x) in E1 end.
    assert (ops s1 !! i = Some (PNotify true r)) as Hi1 by by eapply replace_op_same.
    pose proof (exec_common s1 i _ _ _ Hi1 eq_refl eq_refl) as E2.
    eexists [AOp i; AOp i], _. split; [done|]. cbn [run]. rewrite E1. cbn [run]. by rewrite E2.
  - pose proof (exec_common s i _ _ _ Hi eq_refl eq_refl) as E1.
    eexists [AOp i], _. split; [done|]. cbn [run]. by rewrite E1.
  - pose proof (exec_common s i _ _ _ Hi eq_refl eq_refl) as E1.
    match type of E1 with _ = Some ?x => set (s1 := x) in E1 end.
    assert (ops s1 !! i = Some (PNotify true RUnit)) as Hi1 by by eapply replace_op_same.
    pose proof (exec_common s1 i _ _ _ Hi1 eq_refl eq_refl) as E2.
    eexists [AOp i; AOp i], _. split; [done|]. cbn [run]. rewrite E1. cbn [run]. by rewrite E2.
Qed.

Lemma existsb_lookup (f : Pc -> bool) l :
  existsb f l = true -> exists i pc, l !! i = Some pc /\ f pc = true.
Proof.
  intros (pc & Hin & Hf)%existsb_exists. apply list_elem_of_In, list_elem_of_lookup in Hin as [i Hi]. eauto.
Qed.

Lemma run_app acts1 acts2 s s1 :
  run acts1 s = Some s1 -> run (acts1 ++ acts2) s = run acts2 s1.
Proof.
  revert s. induction acts1 as [|a acts1 IH]; intros s Hr; simplify_eq/=; [done|].
  destruct (exec s a); [auto|done].
Qed.

Lemma wake_progress s :
  wake_inv s -> rcv s = RWait -> deliverable (sh s) = true ->
  exists acts s', forallb is_op acts = true /\ run (acts ++ [AWake]) s = Some s'
                  /\ rcv s' = RCheck true /\ deliverable (sh s') = true.
Proof.
  intros Hinv Hr Hd.
  assert (exists acts s1, forallb is_op acts = true /\ run acts s = Some s1 /\ rcv s1 = rcv s
            /\ ready (sh s1) = true /\ deliverable (sh s1) = deliverable (sh s))
    as (acts & s1 & Hops & Hrun & Hr1 & Hy1 & Hd1).
  { destruct (Hinv Hr Hd) as [Hy|(i & pc & Hi & Hw)%existsb_lookup].
    - exists [], s. by split_and!.
    - by eapply notify_reaches_ready. }
  eexists acts, _. split; [done|]. rewrite (run_app _ _ _ _ Hrun). cbn. rewrite Hr1, Hr, Hy1.
  split_and!; [done|done|]. by rewrite <- Hd, <- Hd1.
Qed.
End Wake.

(** ** Properties *)

Section Properties.
Context {T : Type} `{SemaphoreLaws T}.

(** C1: order and finality of a strict channel.  In every interleaving of
    senders, terminators, closes and the receiver, the delivered events are a
    prefix of the accepted updates, in order, without gap markers, followed by
    the failure once it was delivered; at most one failure is ever stored (the
    first), it is delivered after every accepted update and nothing is lost
    unless the receiver itself was dropped. *)
Theorem strict_delivery_order cap acts (s0 s : Sys T unit)
  (Hnew : sys_new cap (sem_new cap) = Some s0) (Hrun : run acts s0 = Some s) :
  let c := sh s in
  exists us,
    delivered (hist c) = (as_update <$> us)
      ++ (EvError <$> (if terminal_delivered (state c) then failures (hist c) else []))
    /\ us ++ queue (state c) ++ discarded (hist c) = accepted (hist c)
    /\ length (failures (hist c)) <= 1
    /\ (terminal_delivered (state c) = true -> failures (hist c) <> [] /\ us = accepted (hist c))
    /\ (discarded (hist c) <> [] -> rcv s = RGone).
Proof.
  cbv zeta. destruct (strict_reachable cap acts s0 s Hnew Hrun) as ((Hcore & _ & Hdis) & _ & us & Hd & Ha).
  destruct Hcore as (_ & _ & Ht). apply delivered_shape in Ht as (Hsh & Hlen & Htd).
  exists us. rewrite <- Hd. split_and!; [done..| |naive_solver].
  intros Hterm. destruct (Htd Hterm) as [? Hq]. split; [done|]. rewrite <- Ha, Hq.
  destruct (discarded (hist (sh s))) as [|x l]; [by rewrite app_nil_r|]. naive_solver congruence.
Qed.

(** The capacity of a strict channel is exact.  Available permits, queued
    updates, permits held by sends in progress, the permit owed for an update
    just taken and updates discarded with the receiver always add up to the
    capacity; in particular the queue never exceeds it, and no permit leaks. *)
Theorem strict_permits_balanced cap acts (s0 s : Sys T unit)
  (Hnew : sys_new cap (sem_new cap) = Some s0) (Hrun : run acts s0 = Some s) :
  available_permits (slots (sh s)) + length (queue (state (sh s)))
  + sum_list_with permits_held (ops s)
  + match rcv s with RRelease => 1 | _ => 0 end + length (discarded (hist (sh s))) = cap.
Proof.
  destruct (strict_reachable cap acts s0 s Hnew Hrun) as (_ & Hp & _).
  unfold permits, permits_of in Hp. lia.
Qed.
End Properties.

Section GenericProperties.
Context {Q G : Type} `{TransportLaws Q G}.

(** End of stream is permanent.  Once a poll reports "disconnected" (closed
    and drained, failed and reported, or no sender left), then whatever calls,
    clones and terminators run afterwards, polls keep reporting it, no update is
    accepted and nothing more is delivered. *)
Theorem channel_eof_permanent cap q acts acts' (s0 s s' : Sys Q G)
  (Hnew : sys_new cap q = Some s0) (Hrun : run acts s0 = Some s)
  (Heof : (poll (sh s)).2 = PollDisconnected) (Hrun' : run acts' s = Some s') :
  (poll (sh s')).2 = PollDisconnected
  /\ accepted (hist (sh s')) = accepted (hist (sh s))
  /\ delivered (hist (sh s')) = delivered (hist (sh s)).
Proof.
  apply sys_new_invs in Hnew as (_ & _ & [Hc _] & _ & _).
  assert (core_inv s) by (eapply run_inv; [apply core_step|done..]).
  assert (dead_inv (accepted (hist (sh s))) (delivered (hist (sh s))) s') as (_ & Hd & ? & ?).
  { eapply run_inv; [apply dead_step|done|]. split_and!; [done| |done|done]. by apply dead_poll. }
  split_and!; [by apply dead_poll|done..].
Qed.

(** C26: no lost wake-up.  Whenever the receiver waits in [recv] while a poll
    would return something (an update, the failure or the end of stream), the
    calls already in progress alone can finish a notification that wakes it, and
    its next poll then returns something. *)
Theorem channel_no_lost_wakeup cap q acts (s0 s : Sys Q G)
  (Hnew : sys_new cap q = Some s0) (Hrun : run acts s0 = Some s)
  (Hwait : rcv s = RWait) (Hpoll : (poll (sh s)).2 <> PollEmpty) :
  exists acts' s', forallb is_op acts' = true /\ run (acts' ++ [AWake]) s = Some s'
                   /\ rcv s' = RCheck true /\ (poll (sh s')).2 <> PollEmpty.
Proof.
  apply sys_new_invs in Hnew as (_ & Hw & _).
  assert (wake_inv s) as Hws by (eapply run_inv; [apply wake_step|done..]).
  rewrite <- deliverable_poll, not_false_iff_true in Hpoll.
  destruct (wake_progress s Hws Hwait Hpoll) as (acts' & s' & Hops & Hr & Hrcv & Hd).
  exists acts', s'. by rewrite <- deliverable_poll, Hd.
Qed.

(** The close callback is not lost.  When no call is in progress on a
    channel that stopped accepting data, an installed close callback has been
    invoked, however its installation raced with the close. *)
Theorem channel_close_notified cap q acts (s0 s : Sys Q G) cb
  (Hnew : sys_new cap q = Some s0) (Hrun : run acts s0 = Some s)
  (Hquiet : ops s = []) (Hclosed : accepting (sh s) = false)
  (Hcb : on_closed (sh s) = Some cb) :
  cb ∈ closed_calls (sh s).
Proof.
  apply sys_new_invs in Hnew as (_ & _ & _ & Hc & _).
  assert (closed_inv s) as Hinv by (eapply run_inv; [apply closed_step|done..]).
  destruct (Hinv cb Hclosed Hcb) as [?|Hx]; [done|]. by rewrite Hquiet in Hx.
Qed.
End GenericProperties.

(** C3: an overwriting channel reports exactly what it drops.  In every
    interleaving the delivered updates split the accepted sequence: each carries
    as its gap the number of updates dropped between the previous delivery and
    itself (none: no gap; saturating at [u64::MAX]), the pending gap counts those
    dropped since, and what remains is the queue; the failure, once delivered, is
    last.  The queue never exceeds the capacity. *)
Theorem lossy_gaps_exact cap acts (s0 s : Sys DropOldest Z)
  (Hnew : sys_new cap (mkDropOldest cap) = Some s0) (Hrun : run acts s0 = Some s) :
  let c := sh s in
  exists chunks pend,
    delivered (hist c) = (as_delivery <$> chunks)
      ++ (EvError <$> (if terminal_delivered (state c) then failures (hist c) else []))
    /\ concat (as_accepted <$> chunks) ++ pend ++ queue (state c) ++ discarded (hist c)
       = accepted (hist c)
    /\ pending_gap (state c) = Z.min (Z.of_nat (length pend)) u64_max
    /\ length (queue (state c)) <= cap
    /\ (discarded (hist c) <> [] -> rcv s = RGone).
Proof.
  cbv zeta. destruct (lossy_reachable cap acts s0 s Hnew Hrun)
    as ((Hcore & _ & Hdis) & _ & _ & Hlen & chunks & pend & Hd & Ha & Hg).
  destruct Hcore as (_ & _ & Ht). apply delivered_shape in Ht as (Hsh & _ & _).
  exists chunks, pend. rewrite <- Hd. split_and!; [done..|naive_solver].
Qed.

(** *** Witnesses *)

Definition layout0 : FieldLayout := mkLayout 0 [].
Definition upd (n : nat) : U := mkUpdate 0 n EmptyString layout0 [].

(** Capacity one: a send fills the queue, a second one finds it full, a failure is
    stored, the receiver drains the update and then the failure. *)
Definition strict_acts : list Action :=
  [ACall (PSend true (Ok (upd 1))); AOp 0; AOp 0; AOp 0; AOp 0;
   ACall (PSend false (Ok (upd 2))); AOp 0; AOp 0; AOp 0;
   ACall (PTerminal Timeout); AOp 0; AOp 0;
   ARecv true; APoll; ARelease; ARecv true; APoll].

Definition strict_start : option (Sys Counting unit) := sys_new 1 (sem_new 1).
Definition lossy_start : option (Sys DropOldest Z) := sys_new 1 (mkDropOldest 1).

Lemma strict_delivery_order_witness :
  exists s0 s, strict_start = Some s0 /\ run strict_acts s0 = Some s
    /\ exists us, delivered (hist (sh s)) = (as_update <$> us) ++ [EvError Timeout]
                  /\ us ++ queue (state (sh s)) ++ discarded (hist (sh s)) = [upd 1].
Proof.
  eexists _, _. split; [reflexivity|]. split; [vm_compute; reflexivity|].
  edestruct (strict_delivery_order 1 strict_acts) as (us & Hd & Ha & _);
    [reflexivity|vm_compute; reflexivity|].
  exists us. split; [exact Hd|exact Ha].
Defined.

Lemma strict_permits_witness :
  exists s0 s, strict_start = Some s0 /\ run (take 5 strict_acts) s0 = Some s
    /\ length (queue (state (sh s))) = 1
    /\ available_permits (slots (sh s)) + length (queue (state (sh s)))
       + sum_list_with permits_held (ops s)
       + match rcv s with RRelease => 1 | _ => 0 end + length (discarded (hist (sh s))) = 1.
Proof.
  eexists _, _. split; [reflexivity|]. split; [vm_compute; reflexivity|].
  split; [reflexivity|].
  eapply (strict_permits_balanced 1 (take 5 strict_acts)); [reflexivity|vm_compute; reflexivity].
Defined.

(** All senders gone, then a terminator tries to fail the channel. *)
Definition eof_acts : list Action := [ADrop; AOp 0; AOp 0; AOp 0].
Definition late_acts : list Action := [ACall (PTerminal Timeout); AOp 0; ARecv false; APoll].

Lemma channel_eof_witness :
  exists s0 s s', strict_start = Some s0 /\ run eof_acts s0 = Some s
    /\ run late_acts s = Some s' /\ (poll (sh s')).2 = PollDisconnected.
Proof.
  eexists _, _, _. split; [reflexivity|]. split; [vm_compute; reflexivity|].
  split; [vm_compute; reflexivity|].
  eapply (channel_eof_permanent 1 (sem_new 1) eof_acts late_acts);
    [reflexivity|vm_compute; reflexivity|reflexivity|vm_compute; reflexivity].
Defined.

(** The receiver waits first; a send then gets as far as its push. *)
Definition wait_acts : list Action :=
  [ARecv true; APoll; ACall (PSend false (Ok (upd 1))); AOp 0; AOp 0].

Lemma channel_wakeup_witness :
  exists s0 s acts' s', lossy_start = Some s0 /\ run wait_acts s0 = Some s /\ rcv s = RWait
    /\ run (acts' ++ [AWake]) s = Some s' /\ (poll (sh s')).2 <> PollEmpty.
Proof.
  edestruct (channel_no_lost_wakeup 1 (mkDropOldest 1) wait_acts)
    as (acts' & s' & _ & Hr & _ & Hp);
    [reflexivity|vm_compute; reflexivity|reflexivity|vm_compute; discriminate|].
  eexists _, _, acts', s'. split; [reflexivity|]. split; [vm_compute; reflexivity|].
  split; [reflexivity|]. split; [exact Hr|exact Hp].
Defined.

(** The callback is installed after the close: the installation itself calls it. *)
Definition close_acts : list Action :=
  [ACall PClose; AOp 0; AOp 0; AOp 0; AOp 0; ACall (POnClosed 7); AOp 0; AOp 0; AOp 0].

Lemma channel_close_witness :
  exists s0 s, strict_start = Some s0 /\ run close_acts s0 = Some s /\ 7 ∈ closed_calls (sh s).
Proof.
  eexists _, _. split; [reflexivity|]. split; [vm_compute; reflexivity|].
  eapply (channel_close_notified 1 (sem_new 1) close_acts);
    [reflexivity|vm_compute; reflexivity|reflexivity..].
Defined.

(** Capacity one: the first of two updates is dropped, the second is delivered
    with a gap of one. *)
Definition lossy_acts : list Action :=
  [ACall (PSend false (Ok (upd 1))); AOp 0; AOp 0; AOp 0;
   ACall (PSend false (Ok (upd 2))); AOp 0; AOp 0; AOp 0; ARecv false; APoll].

Lemma lossy_gaps_witness :
  exists s0 s, lossy_start = Some s0 /\ run lossy_acts s0 = Some s
    /\ delivered (hist (sh s)) = [EvUpdate (upd 2) (Some (mkGap 1))]
    /\ exists chunks pend,
         concat (as_accepted <$> chunks) ++ pend ++ queue (state (sh s)) ++ discarded (hist (sh s))
         = [upd 1; upd 2].
Proof.
  eexists _, _. split; [reflexivity|]. split; [vm_compute; reflexivity|].
  edestruct (lossy_gaps_exact 1 lossy_acts) as (chunks & pend & _ & Ha & _);
    [reflexivity|vm_compute; reflexivity|].
  split; [reflexivity|]. exists chunks, pend. exact Ha.
Defined.
