(* ===== verification/Callback.v ===== *)
(** * The inline callback sink

    The [Callback] variant of a subscription sender
    ([crates/xbbg-async/src/engine/state/channel.rs]): no queue, every item is handed
    to a callback under the [delivery] mutex, and the first terminal error closes
    the sink.

    As in [Channel.v] a call is a program counter, here [CPc], and each atomic or
    mutex operation is one step of [cb_step]; any number of calls interleave.  A
    call may enter at any time, which allows more behaviours than handles and
    weak terminators do.  [calls] records the invocations of the callback, each
    with the sender's verdict whether it was terminal. *)

From Stdlib Require Import ZArith Lia.
From S2P Require Import Prelude Errors Update.

Local Abbreviation Item := (result SubscriptionUpdate BlpError).

Record CallbackShared : Type := mkCb {
  cb_accepting : bool;
  keep_open : bool;
  cb_senders : nat;
  delivery : bool;                      (* the mutex is held *)
  field_error : option nat;
  availability : option nat;
  cb_on_closed : option nat;
  calls : list (Item * bool);
  field_calls : list (nat * BlpError * bool);
  avail_calls : list (nat * bool);
  cb_closed_calls : list nat
}.

Inductive CPc : Type :=
| CSend (item : Item)                   (* accepting.load *)
| CLock (item : Item)                   (* delivery.lock() *)
| CRecheck (item : Item)                (* accepting.load under the lock *)
| CDecide (item : Item)                 (* is the item terminal? *)
| CStore (item : Item)                  (* terminal: accepting.store(false) *)
| CCall (item : Item) (terminal : bool) (* (self.callback)(item) *)
| CUnlock (closing : bool)              (* drop(_delivery) *)
| CNotify                               (* notify_closed() *)
| CClose                                (* close: delivery.lock() *)
| CCloseStore                           (* close: accepting.store(false) *)
| CKeep                                 (* keep_open_on_data_loss: delivery.lock() *)
| CKeepStore                            (* keep_open_on_data_loss.store(true) *)
| CClone                                (* clone: fetch_add *)
| CDrop                                 (* drop: fetch_sub *)
| CDropStore                            (* last handle: accepting.store(false) *)
| COnClosed (cb : nat)                  (* on_closed.set(callback) *)
| COnClosedCheck                        (* accepting.load after the set *)
| COnField (cb : nat)                   (* field_error.set(callback) *)
| COnAvail (cb : nat)                   (* stream_availability.set(callback) *)
| CAvail (active : bool)                (* report: accepting.load *)
| CAvailCall (active : bool)            (* report: callback(active) *)
| CField (e : BlpError) (scalar : bool). (* report_field_error *)

Definition is_data_loss (item : Item) : bool :=
  match item with Err (SubscriptionDataLoss _ _) => true | _ => false end.

Definition is_error (item : Item) : bool := match item with Err _ => true | Ok _ => false end.

(** [item.is_err() && !(data loss && keep_open_on_data_loss)] *)
Definition is_terminal (c : CallbackShared) (item : Item) : bool :=
  is_error item && negb (is_data_loss item && keep_open c).

Definition cb_new : CallbackShared := mkCb true false 1 false None None None [] [] [] [].

Definition set_lock (c : CallbackShared) (held : bool) : CallbackShared :=
  mkCb (cb_accepting c) (keep_open c) (cb_senders c) held (field_error c) (availability c)
    (cb_on_closed c) (calls c) (field_calls c) (avail_calls c) (cb_closed_calls c).

Definition stop_accepting (c : CallbackShared) : CallbackShared :=
  mkCb false (keep_open c) (cb_senders c) (delivery c) (field_error c) (availability c)
    (cb_on_closed c) (calls c) (field_calls c) (avail_calls c) (cb_closed_calls c).

Definition set_keep_open (c : CallbackShared) : CallbackShared :=
  mkCb (cb_accepting c) true (cb_senders c) (delivery c) (field_error c) (availability c)
    (cb_on_closed c) (calls c) (field_calls c) (avail_calls c) (cb_closed_calls c).

Definition set_senders (c : CallbackShared) (n : nat) : CallbackShared :=
  mkCb (cb_accepting c) (keep_open c) n (delivery c) (field_error c) (availability c)
    (cb_on_closed c) (calls c) (field_calls c) (avail_calls c) (cb_closed_calls c).

(** [OnceLock::set]: the first callback stays. *)
Definition once (old : option nat) (cb : nat) : option nat :=
  match old with Some old => Some old | None => Some cb end.

Definition set_callbacks (c : CallbackShared) (fe av oc : option nat) : CallbackShared :=
  mkCb (cb_accepting c) (keep_open c) (cb_senders c) (delivery c) fe av oc
    (calls c) (field_calls c) (avail_calls c) (cb_closed_calls c).

Definition log_call (c : CallbackShared) (item : Item) (terminal : bool) : CallbackShared :=
  mkCb (cb_accepting c) (keep_open c) (cb_senders c) (delivery c) (field_error c) (availability c)
    (cb_on_closed c) (calls c ++ [(item, terminal)]) (field_calls c) (avail_calls c)
    (cb_closed_calls c).

Definition log_reports (c : CallbackShared) (fs : list (nat * BlpError * bool))
    (avs : list (nat * bool)) : CallbackShared :=
  mkCb (cb_accepting c) (keep_open c) (cb_senders c) (delivery c) (field_error c) (availability c)
    (cb_on_closed c) (calls c) (field_calls c ++ fs) (avail_calls c ++ avs) (cb_closed_calls c).

(** [CallbackShared::notify_closed] *)
Definition cb_notify_closed (c : CallbackShared) : CallbackShared :=
  mkCb (cb_accepting c) (keep_open c) (cb_senders c) (delivery c) (field_error c) (availability c)
    (cb_on_closed c) (calls c) (field_calls c) (avail_calls c)
    (cb_closed_calls c ++ match cb_on_closed c with Some cb => [cb] | None => [] end).

(** The next operation of a call: the shared state and what the call does then; no
    step while it waits for the mutex. *)
Definition cb_step (c : CallbackShared) (pc : CPc) : option (CallbackShared * list CPc) :=
  match pc with
  | CSend item => Some (c, if cb_accepting c then [CLock item] else [])
  | CLock item => if delivery c then None else Some (set_lock c true, [CRecheck item])
  | CRecheck item => Some (c, if cb_accepting c then [CDecide item] else [CUnlock false])
  | CDecide item => Some (c, if is_terminal c item then [CStore item] else [CCall item false])
  | CStore item => Some (stop_accepting c, [CCall item true])
  | CCall item terminal => Some (log_call c item terminal, [CUnlock terminal])
  | CUnlock closing => Some (set_lock c false, if closing then [CNotify] else [])
  | CNotify => Some (cb_notify_closed c, [])
  | CClose => if delivery c then None else Some (set_lock c true, [CCloseStore])
  | CCloseStore => Some (stop_accepting c, [CUnlock true])
  | CKeep => if delivery c then None else Some (set_lock c true, [CKeepStore])
  | CKeepStore => Some (set_keep_open c, [CUnlock false])
  | CClone => Some (set_senders c (S (cb_senders c)), [])
  | CDrop => Some (set_senders c (cb_senders c - 1),
                   if decide (cb_senders c = 1) then [CDropStore] else [])
  | CDropStore => Some (stop_accepting c, [CNotify])
  | COnClosed cb =>
      Some (set_callbacks c (field_error c) (availability c) (once (cb_on_closed c) cb),
            [COnClosedCheck])
  | COnClosedCheck => Some (c, if cb_accepting c then [] else [CNotify])
  | COnField cb =>
      Some (set_callbacks c (once (field_error c) cb) (availability c) (cb_on_closed c), [])
  | COnAvail cb =>
      Some (set_callbacks c (field_error c) (once (availability c) cb) (cb_on_closed c), [])
  | CAvail active => Some (c, if cb_accepting c then [CAvailCall active] else [])
  | CAvailCall active =>
      Some (log_reports c [] (match availability c with Some cb => [(cb, active)] | None => [] end), [])
  | CField e scalar =>
      Some (log_reports c (match field_error c with Some cb => [(cb, e, scalar)] | None => [] end) [], [])
  end.

(** The operations a caller may enter. *)
Definition cb_entry (pc : CPc) : bool :=
  match pc with
  | CSend _ | CClose | CKeep | CClone | CDrop | COnClosed _ | COnField _ | COnAvail _ | CAvail _
  | CField _ _ => true
  | _ => false
  end.

Record CSys : Type := mkCSys { cb : CallbackShared; cops : list CPc }.

Inductive CAction : Type := CEnter (pc : CPc) | COp (i : nat).

Definition cexec (s : CSys) (a : CAction) : option CSys :=
  match a with
  | CEnter pc => if cb_entry pc then Some (mkCSys (cb s) (cops s ++ [pc])) else None
  | COp i =>
      match cops s !! i with
      | Some pc =>
          match cb_step (cb s) pc with
          | Some (c, next) => Some (mkCSys c (take i (cops s) ++ next ++ drop (S i) (cops s)))
          | None => None
          end
      | None => None
      end
  end.

Fixpoint crun (acts : list CAction) (s : CSys) : option CSys :=
  match acts with
  | [] => Some s
  | a :: acts => match cexec s a with Some s' => crun acts s' | None => None end
  end.

(** ** Invariants *)

(** Calls inside the mutex. *)
Definition holds_lock (pc : CPc) : bool :=
  match pc with
  | CRecheck _ | CDecide _ | CStore _ | CCall _ _ | CUnlock _ | CCloseStore | CKeepStore => true
  | _ => false
  end.

(** Calls that will still invoke the callback without asking again. *)
Definition committed (pc : CPc) : bool :=
  match pc with CDecide _ | CStore _ | CCall _ _ => true | _ => false end.

(** Calls that will notify the close callback. *)
Definition will_notify (pc : CPc) : bool :=
  match pc with CCall _ true | CUnlock true | CNotify | COnClosedCheck => true | _ => false end.

Definition lock_inv (s : CSys) : Prop :=
  length (filter (fun pc => holds_lock pc = true) (cops s)) = if delivery (cb s) then 1 else 0.

(** What a call in the mutex knows. *)
Definition pc_inv (c : CallbackShared) (pc : CPc) : Prop :=
  match pc with
  | CStore item => is_error item = true
  | CCall item true => is_error item = true /\ cb_accepting c = false
  | CCall item false => is_error item = true -> is_data_loss item = true
  | CUnlock true | CNotify => cb_accepting c = false
  | _ => True
  end.

(** A terminal invocation is the last one. *)
Definition calls_inv (c : CallbackShared) : Prop :=
  (forall i x, calls c !! i = Some (x, true) -> S i = length (calls c) /\ is_error x = true)
  /\ (forall x, (x, false) ∈ calls c -> is_error x = true -> is_data_loss x = true).

Definition closed (c : CallbackShared) : Prop := exists x, (x, true) ∈ calls c.

Record cb_inv (s : CSys) : Prop := {
  ci_lock : lock_inv s;
  ci_pc : Forall (pc_inv (cb s)) (cops s);
  ci_calls : calls_inv (cb s);
  ci_closed : closed (cb s) ->
    cb_accepting (cb s) = false /\ Forall (fun pc => committed pc = false) (cops s);
  ci_notify : cb_accepting (cb s) = false -> forall n, cb_on_closed (cb s) = Some n ->
    n ∈ cb_closed_calls (cb s) \/ exists pc, pc ∈ cops s /\ will_notify pc = true
}.

Section Preservation.
Context (c c' : CallbackShared) (l1 l2 next : list CPc) (pc : CPc).
Hypothesis HI : cb_inv (mkCSys c (l1 ++ pc :: l2)).
Hypothesis Hstep : cb_step c pc = Some (c', next).

Lemma holders_split l :
  length (filter (fun p => holds_lock p = true) (l1 ++ l ++ l2))
  = length (filter (fun p => holds_lock p = true) l)
    + length (filter (fun p => holds_lock p = true) (l1 ++ l2)).
Proof. rewrite !filter_app, !length_app. lia. Qed.

Lemma cstep_lock : lock_inv (mkCSys c' (l1 ++ next ++ l2)).
Proof.
  pose proof (ci_lock _ HI) as HL. unfold lock_inv in *. simpl in *.
  change (pc :: l2) with ([pc] ++ l2) in HL. rewrite holders_split in HL |- *.
  destruct pc; simpl in Hstep; repeat case_match; simplify_eq/=; (lia || congruence).
Qed.

Lemma accepting_mono : cb_accepting c = false -> cb_accepting c' = false.
Proof. intros. destruct pc; simpl in Hstep; repeat case_match; by simplify_eq/=. Qed.

Lemma pc_inv_mono p : pc_inv c p -> pc_inv c' p.
Proof. pose proof accepting_mono. destruct p as [| | | | |? []|[]| | | | | | | | | | | | | | |]; naive_solver. Qed.

Lemma cstep_pc : Forall (pc_inv c') (l1 ++ next ++ l2).
Proof.
  pose proof (ci_pc _ HI) as HP. simpl in HP. apply Forall_app in HP as [H1 HP].
  apply Forall_cons in HP as [Hpc H2].
  apply Forall_app. split; [eapply Forall_impl; [exact H1|]; intros; by apply pc_inv_mono|].
  apply Forall_app. split; [|eapply Forall_impl; [exact H2|]; intros; by apply pc_inv_mono].
  clear H1 H2. destruct pc; simpl in Hstep; repeat case_match; simplify_eq/=; repeat constructor;
    simpl; try done.
  - unfold is_terminal in *. by destruct (is_error item).
  - unfold is_terminal in *. intros Hi. rewrite Hi in *. by destruct (is_data_loss item).
  - destruct terminal; [by destruct Hpc|done].
Qed.

Lemma committed_open : committed pc = true -> ~ closed c.
Proof.
  intros Hc Hcl. destruct (ci_closed _ HI Hcl) as [_ HF]. simpl in HF.
  apply Forall_app in HF as [_ HF]. apply Forall_cons in HF as [HF _]. congruence.
Qed.

Lemma cstep_calls : calls_inv c'.
Proof.
  pose proof (ci_calls _ HI) as [H1 H2]. simpl in *.
  assert (calls c' = calls c \/ exists item t, pc = CCall item t /\ calls c' = calls c ++ [(item, t)])
    as [E|(item & t & Ep & E)].
  { destruct pc; simpl in Hstep; repeat case_match; simplify_eq/=; eauto 6. }
  - split; rewrite E; [|done]. intros i x Hx. by apply H1.
  - assert (~ closed c) as Hopen by (apply committed_open; by rewrite Ep).
    pose proof (ci_pc _ HI) as HP. simpl in HP. apply Forall_app in HP as [_ HP].
    apply Forall_cons in HP as [Hpc _]. rewrite Ep in Hpc. simpl in Hpc. split; rewrite E.
    + intros i x Hi. apply lookup_app_Some in Hi as [Hi|[Hi1 Hi]].
      * exfalso. apply Hopen. exists x. by eapply list_elem_of_lookup_2.
      * apply list_lookup_singleton_Some in Hi as [Hi2 [= <- ->]].
        rewrite length_app. simpl. split; [lia|]. by destruct Hpc.
    + intros x Hx. apply elem_of_app in Hx as [Hx|Hx]; [by apply H2|].
      apply list_elem_of_singleton in Hx as [= -> <-]. done.
Qed.

(** The mutex admits one call: no other call is committed. *)
Lemma others_uncommitted :
  holds_lock pc = true -> Forall (fun p => committed p = false) (l1 ++ l2).
Proof.
  intros Hh. pose proof (ci_lock _ HI) as HL. unfold lock_inv in HL. simpl in HL.
  change (pc :: l2) with ([pc] ++ l2) in HL. rewrite holders_split in HL.
  rewrite (filter_cons_True _ pc) in HL by done. simpl in HL.
  assert (length (filter (fun p => holds_lock p = true) (l1 ++ l2)) = 0) as H0
    by (destruct (delivery c); lia).
  apply nil_length_inv in H0. apply Forall_forall. intros p Hp.
  destruct (committed p) eqn:E; [|done]. exfalso.
  eapply (filter_nil_not_elem_of _ _ p); [exact H0| |done]. by destruct p.
Qed.

Lemma cstep_closed :
  closed c' -> cb_accepting c' = false /\ Forall (fun p => committed p = false) (l1 ++ next ++ l2).
Proof.
  intros Hcl.
  assert (closed c \/ exists item, pc = CCall item true) as [Hc|(item & Ep)].
  { destruct Hcl as [x Hx].
    destruct pc; simpl in Hstep; repeat case_match; simplify_eq/=; try (left; by exists x).
    apply elem_of_app in Hx as [Hx|Hx]; [left; by exists x|].
    apply list_elem_of_singleton in Hx as [= <- <-]. right. by exists x. }
  - destruct (ci_closed _ HI Hc) as [Ha HF]. simpl in Ha, HF. split; [by apply accepting_mono|].
    apply Forall_app in HF as [HF1 HF2]. apply Forall_cons in HF2 as [Hpc HF2].
    apply Forall_app. split; [done|]. apply Forall_app. split; [|done].
    destruct pc; simpl in Hstep, Hpc; repeat case_match; simplify_eq/=; repeat constructor; congruence.
  - assert (Forall (fun p => committed p = false) (l1 ++ l2)) as HF
      by (apply others_uncommitted; by rewrite Ep). apply Forall_app in HF as [HF1 HF2].
    pose proof (ci_pc _ HI) as HP. simpl in HP. apply Forall_app in HP as [_ HP].
    apply Forall_cons in HP as [Hp _]. rewrite Ep in Hp, Hstep. destruct Hp as [_ Hacc].
    simpl in Hstep. simplify_eq/=. split; [done|].
    apply Forall_app. split; [done|]. by constructor.
Qed.

Lemma cstep_notify :
  cb_accepting c' = false -> forall n, cb_on_closed c' = Some n ->
  n ∈ cb_closed_calls c' \/ exists p, p ∈ l1 ++ next ++ l2 /\ will_notify p = true.
Proof.
  intros Ha n Hn.
  assert ((exists p, p ∈ next /\ will_notify p = true) \/ n ∈ cb_closed_calls c'
          \/ (cb_accepting c = false /\ cb_on_closed c = Some n /\ will_notify pc = false
              /\ cb_closed_calls c' = cb_closed_calls c)) as [(p & Hp & Hw)|[Hd|(Ha0 & Hn0 & Hw & Ec)]].
  { destruct pc as [| | | | |? []|[]| | | | | | | | | | | | | | |]; simpl in Hstep; repeat case_match;
      simplify_eq/=; try congruence; try (by right; right); try (left; eexists; split; [by left|done]).
    right. left. rewrite Hn. set_solver. }
  - right. exists p. split; [set_solver|done].
  - by left.
  - destruct (ci_notify _ HI Ha0 n Hn0) as [Hd|(p & Hp & Hpw)]; [left; by rewrite Ec|].
    simpl in Hp. right. exists p. split; [|done].
    rewrite elem_of_app, elem_of_cons in Hp. destruct Hp as [Hp|[->|Hp]]; [set_solver|congruence|set_solver].
Qed.

Lemma cstep_inv : cb_inv (mkCSys c' (l1 ++ next ++ l2)).
Proof.
  split; simpl; [apply cstep_lock|apply cstep_pc|apply cstep_calls|apply cstep_closed|apply cstep_notify].
Qed.
End Preservation.

Lemma enter_inv s pc :
  cb_entry pc = true -> cb_inv s -> cb_inv (mkCSys (cb s) (cops s ++ [pc])).
Proof.
  intros He [HL HP HC HD HN]. split; simpl; [| |done| |].
  - unfold lock_inv in *. simpl. rewrite filter_app, length_app.
    rewrite (filter_cons_False _ pc []) by by destruct pc. simpl. lia.
  - apply Forall_app. split; [done|]. apply Forall_singleton. by destruct pc.
  - intros Hc. destruct (HD Hc) as [Ha HF]. split; [done|].
    apply Forall_app. split; [done|]. apply Forall_singleton. by destruct pc.
  - intros Ha n Hn. destruct (HN Ha n Hn) as [?|(p & Hp & Hw)]; [by left|].
    right. exists p. split; [set_solver|done].
Qed.

Definition csys_new : CSys := mkCSys cb_new [].

Lemma csys_new_inv : cb_inv csys_new.
Proof.
  split; simpl; [done|constructor| | |done].
  - split; [by intros i x Hx|by intros x Hx%not_elem_of_nil].
  - by intros [x Hx%not_elem_of_nil].
Qed.

Lemma crun_inv acts s s' : crun acts s = Some s' -> cb_inv s -> cb_inv s'.
Proof.
  revert s. induction acts as [|a acts IH]; intros s Hrun HI; simpl in Hrun; [by simplify_eq|].
  destruct (cexec s a) as [s1|] eqn:Ha; [|done]. apply (IH s1); [done|]. destruct a as [pc|i]; simpl in Ha.
  - destruct (cb_entry pc) eqn:He; simplify_eq. by apply enter_inv.
  - destruct (cops s !! i) as [pc|] eqn:Hi; [|done].
    destruct (cb_step (cb s) pc) as [[c' next]|] eqn:Hs; [|done]. simplify_eq.
    apply (cstep_inv (cb s) c' _ _ next pc); [|done].
    rewrite (take_drop_middle _ _ _ Hi). by destruct s.
Qed.


(** *** Witness *)

Definition sink_acts : list CAction :=
  [CEnter (COnClosed 7); COp 0; COp 0; CEnter CKeep; COp 0; COp 0; COp 0;
   CEnter (CSend (Err (SubscriptionDataLoss EmptyString EmptyString))); CEnter (CSend (Err Timeout));
   COp 0; COp 1; COp 0; COp 0; COp 0; COp 0; COp 0; COp 0; COp 0; COp 0; COp 0; COp 0; COp 0; COp 0].

Definition sink_state : CSys := default csys_new (crun sink_acts csys_new).

Lemma sink_runs : crun sink_acts csys_new = Some sink_state.
Proof. vm_compute. reflexivity. Qed.

