(* ===== verification/Lifecycle.v ===== *)
(** * Session startup and service opens

    Models [crates/xbbg-async/src/engine/session_lifecycle.rs]: the startup latch,
    the concurrent start of a pool, and the bookkeeping of service-open attempts
    ([PendingServiceOpens]) with the oneshot channels of their waiters.

    A oneshot sender is the number of its waiter; [LSys] holds the waiters beside
    the pending opens, and a [LOp] is one critical section of the worker: an open,
    a service event, a timeout, the two halves of dropping a waiter (the receiver
    closes, then the attempt is pruned) and the drain of a dead session. *)

From Stdlib Require Import ZArith Lia.
From stdpp Require Import gmap strings.
From S2P Require Import Prelude Errors Dispatch.

(** ** The startup latch *)

Record StartupOutcome : Type := mkOutcome {
  resolved : bool;
  outcome_result : option (result unit BlpError)
}.

Definition latch_default : StartupOutcome := mkOutcome false None.

Definition resolve (o : StartupOutcome) (r : result unit BlpError) : StartupOutcome :=
  if resolved o then o else mkOutcome true (Some r).

(** [wait]: woken with a result, or out of time ([None] as result). *)
Definition wait (o : StartupOutcome) : StartupOutcome * result unit BlpError :=
  match outcome_result o with
  | Some r => (mkOutcome (resolved o) None, r)
  | None => (o, Err Timeout)
  end.

(** ** Starting a pool *)

Section StartConcurrently.
Context {T : Type}.
Variable start : nat -> option T.       (* [None]: the call panics *)
Variable spawns : nat -> bool.          (* does the thread of this index spawn? *)

Fixpoint collect (l : list (option T)) : option (list T) :=
  match l with
  | [] => Some []
  | None :: _ => None
  | Some x :: l => match collect l with Some xs => Some (x :: xs) | None => None end
  end.

Definition start_concurrently (count : nat) : option (list T) :=
  let spawned :=
    (fun index => if spawns index then Ok (start index) else Err index) <$> seq 1 (count - 1) in
  let outcomes := if decide (0 < count) then [start 0] else [] in
  collect (outcomes ++ ((fun h => match h with Ok joined => joined | Err index => start index end)
                          <$> spawned)).

Lemma collect_map (f : nat -> T) l :
  (forall i, i ∈ l -> start i = Some (f i)) -> collect (start <$> l) = Some (f <$> l).
Proof.
  induction l as [|i l IH]; intros Hl; [done|]. cbn. rewrite (Hl i) by set_solver.
  change (list_fmap _ _ start l) with (start <$> l). rewrite IH by set_solver. done.
Qed.

Lemma start_concurrently_seq count :
  start_concurrently count = collect (start <$> seq 0 count).
Proof.
  unfold start_concurrently. f_equal. rewrite <- list_fmap_compose.
  assert ((fun h : result (option T) nat => match h with Ok joined => joined | Err index => start index end)
            ∘ (fun index => if spawns index then Ok (start index) else Err index)
          <$> seq 1 (count - 1) = start <$> seq 1 (count - 1)) as ->.
  { apply list_fmap_ext. intros ? i _. unfold compose. by destruct (spawns i). }
  destruct count as [|count]; [done|]. cbn. by rewrite Nat.sub_0_r.
Qed.
End StartConcurrently.

(** ** Pending service opens *)

Record PendingServiceOpen : Type := mkOpen { open_cid : Z; open_waiters : list nat }.

Record PendingServiceOpens : Type := mkOpens {
  next_id : Z;
  by_service : gmap string PendingServiceOpen
}.

Definition opens_default : PendingServiceOpens := mkOpens 0 ∅.

Definition attempt_cid (id : Z) : Z :=
  Z.lor SERVICE_OPEN_CID_TAG (Z.land id (SERVICE_OPEN_CID_TAG - 1)).

Section Opens.
(** [oneshot::Sender::is_closed]. *)
Variable is_closed : nat -> bool.

Definition retain_open (ws : list nat) : list nat := List.filter (fun w => negb (is_closed w)) ws.

Definition register (self : PendingServiceOpens) (service : string) (tx : nat)
  : (bool * Z) * PendingServiceOpens :=
  match by_service self !! service with
  | Some open =>
      ((false, open_cid open),
       mkOpens (next_id self)
         (<[service := mkOpen (open_cid open) (retain_open (open_waiters open) ++ [tx])]>
            (by_service self)))
  | None =>
      let id := i64_wrapping_add (next_id self) 1 in
      let cid := attempt_cid id in
      ((true, cid), mkOpens id (<[service := mkOpen cid [tx]]> (by_service self)))
  end.

Definition remove (self : PendingServiceOpens) (service : string) (cid : Z)
  : option PendingServiceOpen * PendingServiceOpens :=
  match by_service self !! service with
  | Some open =>
      if decide (open_cid open = cid)
      then (Some open, mkOpens (next_id self) (delete service (by_service self)))
      else (None, self)
  | None => (None, self)
  end.

(** The first entry with the correlation id, in the map's iteration order. *)
Definition remove_by_cid (self : PendingServiceOpens) (cid : Z)
  : option (string * PendingServiceOpen) * PendingServiceOpens :=
  match List.find (fun p => Z.eqb (open_cid p.2) cid) (map_to_list (by_service self)) with
  | Some (service, open) =>
      (Some (service, open), mkOpens (next_id self) (delete service (by_service self)))
  | None => (None, self)
  end.

Definition prune (self : PendingServiceOpens) (service : string) (cid : Z) : PendingServiceOpens :=
  match by_service self !! service with
  | Some open =>
      if decide (open_cid open = cid) then
        let waiters := retain_open (open_waiters open) in
        match waiters with
        | [] => mkOpens (next_id self) (delete service (by_service self))
        | _ => mkOpens (next_id self) (<[service := mkOpen (open_cid open) waiters]> (by_service self))
        end
      else self
  | None => self
  end.

Definition drain (self : PendingServiceOpens)
  : list (string * PendingServiceOpen) * PendingServiceOpens :=
  (map_to_list (by_service self), mkOpens (next_id self) ∅).
End Opens.

(** ** Waiters *)

Record Waiter : Type := mkWaiter {
  w_service : string;
  w_cid : Z;
  w_closed : bool;
  w_answers : list (result unit BlpError)
}.

(** An attempt taken out of the map whose waiters are still to be answered; an
    opened service is recorded before its waiters are. *)
Record Completion : Type := mkCompletion {
  c_opened : option string;
  c_waiters : list nat;
  c_result : result unit BlpError
}.

Record LSys : Type := mkLSys {
  opens : PendingServiceOpens;
  open_services : gset string;
  waiters : gmap nat Waiter;
  next_tx : nat;
  inflight : list Completion
}.

Definition lsys_default : LSys := mkLSys opens_default ∅ ∅ 0 [].

(** [oneshot::Sender::send]: lost when the receiver is gone. *)
Definition send_answer (r : result unit BlpError) (w : Waiter) : Waiter :=
  if w_closed w then w
  else mkWaiter (w_service w) (w_cid w) (w_closed w) (w_answers w ++ [r]).

(** [PendingServiceOpen::complete]. *)
Definition complete (m : gmap nat Waiter) (ws : list nat) (r : result unit BlpError)
  : gmap nat Waiter :=
  fold_left (fun m w => alter (send_answer r) w m) ws m.

Definition close_waiter (W : Waiter) : Waiter :=
  mkWaiter (w_service W) (w_cid W) true (w_answers W).

Definition closed_in (m : gmap nat Waiter) (w : nat) : bool :=
  match m !! w with Some W => w_closed W | None => true end.

Definition open_failure (service : string) (label : option string) : result unit BlpError :=
  Err (OpenService service None label).

(** [ensure_service] up to the wait; [enqueued] is the result of the SDK's
    [open_service_async], called only by the caller that registered the attempt. *)
Definition ensure_service (s : LSys) (service : string) (enqueued : bool) : LSys :=
  if decide (service ∈ open_services s) then s
  else
    let tx := next_tx s in
    let '((should_open, cid), opens') :=
      register (closed_in (waiters s)) (opens s) service tx in
    if should_open && negb enqueued
    then mkLSys (remove opens' service cid).2 (open_services s)
           (<[tx := mkWaiter service cid true []]> (waiters s)) (S tx) (inflight s)
    else mkLSys opens' (open_services s)
           (<[tx := mkWaiter service cid false []]> (waiters s)) (S tx) (inflight s).

(** [handle_service_status] on [ServiceOpened] or, with its reason as [label],
    [ServiceOpenFailure]. *)
Definition handle_service_status (s : LSys) (opened : bool) (cid : Z) (label : option string)
  : LSys :=
  match remove_by_cid (opens s) cid with
  | (Some (service, open), opens') =>
      mkLSys opens' (open_services s) (waiters s) (next_tx s)
        (inflight s
           ++ [if opened then mkCompletion (Some service) (open_waiters open) (Ok tt)
               else mkCompletion None (open_waiters open) (open_failure service label)])
  | (None, _) => s
  end.

(** The timeout branch of [wait_service_open]. *)
Definition wait_timeout (s : LSys) (w : nat) : LSys :=
  match waiters s !! w with
  | Some W =>
      match remove (opens s) (w_service W) (w_cid W) with
      | (Some open, opens') =>
          mkLSys opens' (open_services s) (waiters s) (next_tx s)
            (inflight s ++ [mkCompletion None (open_waiters open) (Err Timeout)])
      | (None, _) => s
      end
  | None => s
  end.

Definition fail_pending_service_opens (s : LSys) (reason : string) : LSys :=
  let '(drained, opens') := drain (opens s) in
  mkLSys opens' (open_services s) (waiters s) (next_tx s)
    (inflight s ++ ((fun p => mkCompletion None (open_waiters p.2)
                                (open_failure p.1 (Some reason))) <$> drained)).

Inductive LOp : Type :=
| LOpen (service : string) (enqueued : bool)
| LEvent (opened : bool) (cid : Z) (label : option string)
| LTimeout (w : nat)
| LClose (w : nat)          (* PendingWaiter::drop: receiver.take() *)
| LPrune (w : nat)          (* PendingWaiter::drop: (self.prune)() *)
| LFail (reason : string)
| LComplete (i : nat).      (* open.complete(..) of a removed attempt *)

Definition lexec (s : LSys) (op : LOp) : LSys :=
  match op with
  | LOpen service enqueued => ensure_service s service enqueued
  | LEvent opened cid label => handle_service_status s opened cid label
  | LTimeout w => wait_timeout s w
  | LClose w =>
      mkLSys (opens s) (open_services s) (alter close_waiter w (waiters s)) (next_tx s) (inflight s)
  | LPrune w =>
      match waiters s !! w with
      | Some W =>
          mkLSys (prune (closed_in (waiters s)) (opens s) (w_service W) (w_cid W))
            (open_services s) (waiters s) (next_tx s) (inflight s)
      | None => s
      end
  | LFail reason => fail_pending_service_opens s reason
  | LComplete i =>
      match inflight s !! i with
      | Some c =>
          mkLSys (opens s)
            (match c_opened c with Some svc => {[svc]} ∪ open_services s | None => open_services s end)
            (complete (waiters s) (c_waiters c) (c_result c)) (next_tx s)
            (take i (inflight s) ++ drop (S i) (inflight s))
      | None => s
      end
  end.

Definition lrun (ops : list LOp) (s : LSys) : LSys := fold_left lexec ops s.

(** ** Correlation ids of attempts *)

Lemma attempt_cid_small j :
  (0 <= j < 2 ^ 62)%Z -> attempt_cid j = (2 ^ 62 + j)%Z.
Proof.
  intros Hj. unfold attempt_cid, SERVICE_OPEN_CID_TAG.
  rewrite shiftl_1_sub_1, Z.land_ones, Z.mod_small by lia.
  rewrite lor_shiftl_add by lia. lia.
Qed.

(** ** Completing waiters *)

Lemma complete_lookup m ws r w :
  NoDup ws ->
  complete m ws r !! w = if decide (w ∈ ws) then send_answer r <$> m !! w else m !! w.
Proof.
  unfold complete. intros Hnd. revert m. induction Hnd as [|x ws Hx Hnd IH]; intros m; [done|]. cbn.
  rewrite IH. destruct (decide (w = x)) as [->|Hne].
  - rewrite decide_False by done. rewrite decide_True by set_solver. by rewrite lookup_alter_eq.
  - rewrite lookup_alter_ne by done. by do 2 case_decide; set_solver.
Qed.

(** ** The invariant of the bookkeeping *)

Definition flying (s : LSys) : list nat := inflight s ≫= c_waiters.

Definition attempt_of (s : LSys) (svc : string) (cid : Z) (w : nat) : Prop :=
  exists o, by_service (opens s) !! svc = Some o /\ open_cid o = cid /\ w ∈ open_waiters o.

Record linv (s : LSys) : Prop := mkLinv {
  li_id : (0 <= next_id (opens s) <= Z.of_nat (next_tx s))%Z;
  li_cid svc o :
    by_service (opens s) !! svc = Some o ->
    (2 ^ 62 < open_cid o <= 2 ^ 62 + next_id (opens s))%Z /\ NoDup (open_waiters o);
  li_inj svc1 svc2 o1 o2 :
    by_service (opens s) !! svc1 = Some o1 -> by_service (opens s) !! svc2 = Some o2 ->
    open_cid o1 = open_cid o2 -> svc1 = svc2;
  li_open svc cid w :
    attempt_of s svc cid w ->
    (w ∉ flying s)
    /\ exists W, waiters s !! w = Some W /\ w_service W = svc /\ w_cid W = cid /\ w_answers W = [];
  li_nodup : NoDup (flying s);
  li_flying c w :
    c ∈ inflight s -> w ∈ c_waiters c ->
    exists W, waiters s !! w = Some W /\ w_answers W = []
              /\ (c_result c = Ok tt -> c_opened c = Some (w_service W));
  li_waiting w W :
    waiters s !! w = Some W -> w_answers W = [] -> w_closed W = false ->
    attempt_of s (w_service W) (w_cid W) w \/ w ∈ flying s;
  li_once w W :
    waiters s !! w = Some W ->
    w < next_tx s /\ length (w_answers W) <= 1
    /\ (Ok tt ∈ w_answers W -> w_service W ∈ open_services s)
}.

Lemma linv_default : linv lsys_default.
Proof.
  split; cbn; try (intros *; rewrite lookup_empty; done).
  - lia.
  - intros svc cid w (o & Ho & _). cbn in Ho. by rewrite lookup_empty in Ho.
  - constructor.
  - intros c w Hc. by apply not_elem_of_nil in Hc.
Qed.

Lemma flying_app s c :
  (inflight s ++ [c]) ≫= c_waiters = flying s ++ c_waiters c.
Proof. unfold flying. rewrite bind_app. cbn. by rewrite app_nil_r. Qed.

Lemma elem_of_flying s w : w ∈ flying s <-> exists c, w ∈ c_waiters c /\ c ∈ inflight s.
Proof. apply list_elem_of_bind. Qed.

(** Taking an attempt out of the map to complete it. *)
Definition take_out (s : LSys) (svc : string) (c : Completion) : LSys :=
  mkLSys (mkOpens (next_id (opens s)) (delete svc (by_service (opens s)))) (open_services s)
    (waiters s) (next_tx s) (inflight s ++ [c]).

Lemma take_out_inv s svc o c :
  by_service (opens s) !! svc = Some o -> c_waiters c = open_waiters o ->
  (c_result c = Ok tt -> c_opened c = Some svc) -> linv s -> linv (take_out s svc c).
Proof.
  intros Ho Hcw Hcr Hi. destruct (li_cid s Hi svc o Ho) as [Hcid Hnd].
  assert (Hat : forall w, w ∈ open_waiters o -> attempt_of s svc (open_cid o) w) by (intros; by exists o).
  split; unfold take_out, flying; cbn -[flying]; rewrite ?flying_app.
  - apply Hi.
  - intros svc' o' [_ Ho']%lookup_delete_Some. by eapply li_cid.
  - intros ? ? ? ? [_ ?]%lookup_delete_Some [_ ?]%lookup_delete_Some. by eapply li_inj.
  - intros svc' cid w (o' & Ho' & Hc' & Hw). cbn in Ho'. apply lookup_delete_Some in Ho' as [Hne Ho'].
    destruct (li_open s Hi svc' cid w) as (Hnf & W & HW & HS & ? & ?); [by exists o'|].
    split; [|eauto]. rewrite elem_of_app. intros [?|Hin]; [done|]. rewrite Hcw in Hin.
    destruct (li_open s Hi _ _ _ (Hat w Hin)) as (_ & W' & HW' & ? & _). congruence.
  - rewrite Hcw. apply NoDup_app. split_and!; [apply Hi| |done].
    intros w Hf Hin. by destruct (li_open s Hi _ _ _ (Hat w Hin)).
  - intros c' w [Hc'|Hc'%list_elem_of_singleton]%elem_of_app Hw; [by eapply li_flying|].
    subst c'. rewrite Hcw in Hw.
    destruct (li_open s Hi _ _ _ (Hat w Hw)) as (_ & W & ? & <- & _ & ?). eauto.
  - intros w W HW Ha Hcl. rewrite elem_of_app, Hcw.
    destruct (li_waiting s Hi w W HW Ha Hcl) as [(o' & Ho' & Hc' & Hw)|?]; [|by auto].
    destruct (decide (w_service W = svc)) as [He|Hne]; [rewrite He in Ho'; simplify_eq; auto|].
    left. exists o'. cbn. by rewrite lookup_delete_ne.
  - intros w W HW. by apply li_once.
Qed.

(** Replacing the waiters of an attempt by those still open. *)
Definition set_attempt (s : LSys) (svc : string) (o : PendingServiceOpen) : LSys :=
  mkLSys (mkOpens (next_id (opens s)) (<[svc := o]> (by_service (opens s)))) (open_services s)
    (waiters s) (next_tx s) (inflight s).

Lemma retain_open_spec f ws w : w ∈ retain_open f ws <-> w ∈ ws /\ f w = false.
Proof.
  unfold retain_open. rewrite list_elem_of_In, List.filter_In, <- list_elem_of_In, negb_true_iff. done.
Qed.

Lemma NoDup_retain_open f ws : NoDup ws -> NoDup (retain_open f ws).
Proof. rewrite !NoDup_ListNoDup. apply List.NoDup_filter. Qed.

Lemma retain_inv s svc o :
  by_service (opens s) !! svc = Some o -> linv s ->
  linv (set_attempt s svc (mkOpen (open_cid o) (retain_open (closed_in (waiters s)) (open_waiters o)))).
Proof.
  intros Ho Hi. destruct (li_cid s Hi svc o Ho) as [Hcid Hnd].
  split; unfold set_attempt; cbn.
  - apply Hi.
  - intros svc' o' [[-> <-]|[_ Ho']]%lookup_insert_Some; [|by eapply li_cid].
    split; [done|]. by apply NoDup_retain_open.
  - intros s1 s2 o1 o2 [[<- <-]|[_ H1]]%lookup_insert_Some [[<- <-]|[_ H2]]%lookup_insert_Some; cbn;
      try done; eauto using li_inj.
  - intros svc' cid w (o' & Ho' & Hc' & Hw). cbn in Ho'.
    apply lookup_insert_Some in Ho' as [[<- <-]|[_ Ho']]; cbn in *.
    + apply retain_open_spec in Hw as [Hw _]. apply (li_open s Hi). by exists o.
    + apply (li_open s Hi). by exists o'.
  - apply Hi.
  - apply Hi.
  - intros w W HW Ha Hcl. destruct (li_waiting s Hi w W HW Ha Hcl) as [(o' & Ho' & Hc' & Hw)|?]; [left|by right].
    destruct (decide (w_service W = svc)) as [<-|Hne].
    + simplify_eq. eexists. cbn. rewrite lookup_insert_eq. split_and!; [done..|].
      apply retain_open_spec. split; [done|]. unfold closed_in. by rewrite HW.
    + exists o'. cbn. by rewrite lookup_insert_ne.
  - apply Hi.
Qed.

Lemma prune_inv s svc cid :
  linv s ->
  linv (mkLSys (prune (closed_in (waiters s)) (opens s) svc cid) (open_services s) (waiters s)
          (next_tx s) (inflight s)).
Proof.
  intros Hi. unfold prune. destruct (by_service (opens s) !! svc) as [o|] eqn:Ho; [|destruct s; exact Hi].
  case_decide as Hc; [|destruct s; exact Hi]. pose proof (retain_inv s svc o Ho Hi) as Hr.
  destruct (retain_open _ _) as [|w ws] eqn:Hw; [|done].
  (* nobody waits any more: the attempt is forgotten *)
  split; cbn.
  - apply Hi.
  - intros svc' o' [_ Ho']%lookup_delete_Some. by eapply (li_cid s Hi).
  - intros ? ? ? ? [_ ?]%lookup_delete_Some [_ ?]%lookup_delete_Some. by eapply (li_inj s Hi).
  - intros svc' cid' w (o' & Ho' & Hc' & Hin). cbn in Ho'. apply lookup_delete_Some in Ho' as [Hne Ho'].
    apply (li_open s Hi). by exists o'.
  - apply Hi.
  - apply Hi.
  - intros w W HW Ha Hcl. destruct (li_waiting _ Hr w W HW Ha Hcl) as [(o' & Ho' & Hc' & Hin)|?]; [left|by right].
    cbn in Ho'. apply lookup_insert_Some in Ho' as [[_ <-]|[Hne Ho']]; cbn in *.
    + by apply not_elem_of_nil in Hin.
    + exists o'. cbn. by rewrite lookup_delete_ne.
  - apply Hi.
Qed.

(** A new waiter joins the attempt of its service, or starts it. *)
Lemma join_inv s svc id cid ws :
  linv s ->
  (next_id (opens s) <= id <= Z.of_nat (S (next_tx s)))%Z ->
  (2 ^ 62 < cid <= 2 ^ 62 + id)%Z ->
  (forall svc' o, by_service (opens s) !! svc' = Some o -> open_cid o = cid -> svc' = svc) ->
  (by_service (opens s) !! svc = Some (mkOpen cid ws)
   \/ by_service (opens s) !! svc = None /\ ws = []) ->
  linv (mkLSys (mkOpens id (<[svc := mkOpen cid (ws ++ [next_tx s])]> (by_service (opens s))))
          (open_services s) (<[next_tx s := mkWaiter svc cid false []]> (waiters s))
          (S (next_tx s)) (inflight s)).
Proof.
  intros Hi Hid Hcid Hinj Hws.
  assert (Hfresh : forall w W, waiters s !! w = Some W -> w <> next_tx s).
  { intros w W HW. apply (li_once s Hi) in HW. lia. }
  assert (Hold : forall w, w ∈ ws -> attempt_of s svc cid w).
  { intros w Hw. destruct Hws as [Ho|[_ ->]]; [|by apply not_elem_of_nil in Hw]. by eexists. }
  assert (Hin : forall w, w ∈ ws -> w <> next_tx s).
  { intros w Hw. destruct (li_open s Hi _ _ _ (Hold w Hw)) as (_ & W & HW & _). by eapply Hfresh. }
  pose proof (li_id s Hi) as Hpos. split; cbn -[Z.of_nat].
  - lia.
  - intros svc' o [[<- <-]|[_ Ho]]%lookup_insert_Some; cbn.
    + split; [done|]. apply NoDup_app. split_and!; [|set_solver|apply NoDup_singleton].
      destruct Hws as [Ho|[_ ->]]; [apply (li_cid s Hi _ _ Ho)|constructor].
    + apply (li_cid s Hi) in Ho as [? ?]. split; [lia|done].
  - intros s1 s2 o1 o2 [[<- <-]|[_ H1]]%lookup_insert_Some [[<- <-]|[_ H2]]%lookup_insert_Some; cbn;
      try done; eauto using li_inj. intros Heq. symmetry in Heq. symmetry. eauto.
  - intros svc' cid' w (o & Ho & Hc & Hw). cbn in Ho.
    apply lookup_insert_Some in Ho as [[<- <-]|[Hne Ho]]; cbn in *.
    + subst cid'. apply elem_of_app in Hw as [Hw|Hw%list_elem_of_singleton].
      * rewrite lookup_insert_ne by (symmetry; auto). apply (li_open s Hi _ _ _ (Hold w Hw)).
      * subst w. rewrite lookup_insert_eq. split; [|eauto].
        intros (c & Hwc & Hc)%elem_of_flying. destruct (li_flying s Hi c _ Hc Hwc) as (W & HW & _).
        by eapply Hfresh.
    + destruct (li_open s Hi svc' cid' w) as (? & W & HW & ?); [by exists o|].
      split; [done|]. exists W. rewrite lookup_insert_ne; [done|]. symmetry. by eapply Hfresh.
  - apply Hi.
  - intros c w Hc Hw. destruct (li_flying s Hi c w Hc Hw) as (W & HW & ?). exists W.
    rewrite lookup_insert_ne; [done|]. symmetry. by eapply Hfresh.
  - intros w W [[<- <-]|[Hne HW]]%lookup_insert_Some Ha Hcl; cbn in *.
    + left. eexists. cbn. rewrite lookup_insert_eq. split_and!; [done..|]. cbn. set_solver.
    + destruct (li_waiting s Hi w W HW Ha Hcl) as [(o & Ho & Hc & Hw)|?]; [left|by right].
      destruct (decide (w_service W = svc)) as [<-|Hns].
      * destruct Hws as [Ho'|[Ho' _]]; [|congruence]. simplify_eq. eexists. cbn.
        rewrite lookup_insert_eq. split_and!; [done..|]. cbn in *. set_solver.
      * exists o. cbn. by rewrite lookup_insert_ne.
  - intros w W [[<- <-]|[Hne HW]]%lookup_insert_Some; cbn.
    + split_and!; [lia|lia|]. intros Hx. by apply not_elem_of_nil in Hx.
    + destruct (li_once s Hi w W HW) as (? & ? & ?). split_and!; [lia|done|done].
Qed.

(** A caller whose open could not be enqueued leaves only a closed waiter. *)
Lemma refused_inv s svc id cid :
  linv s -> (next_id (opens s) <= id <= Z.of_nat (S (next_tx s)))%Z ->
  linv (mkLSys (mkOpens id (by_service (opens s))) (open_services s)
          (<[next_tx s := mkWaiter svc cid true []]> (waiters s)) (S (next_tx s)) (inflight s)).
Proof.
  intros Hi Hid. pose proof (li_id s Hi) as Hpos.
  assert (Hfresh : forall w W, waiters s !! w = Some W -> next_tx s <> w).
  { intros w W HW. apply (li_once s Hi) in HW. lia. }
  split; cbn -[Z.of_nat].
  - lia.
  - intros svc' o Ho. apply (li_cid s Hi) in Ho as [? ?]. split; [lia|done].
  - by apply (li_inj s Hi).
  - intros svc' cid' w Hat. destruct (li_open s Hi svc' cid' w Hat) as (? & W & HW & ?).
    split; [done|]. exists W. rewrite lookup_insert_ne; eauto.
  - apply Hi.
  - intros c w Hc Hw. destruct (li_flying s Hi c w Hc Hw) as (W & HW & ?). exists W.
    rewrite lookup_insert_ne; eauto.
  - intros w W [[<- <-]|[Hne HW]]%lookup_insert_Some Ha Hcl; [done|]. by apply (li_waiting s Hi).
  - intros w W [[<- <-]|[Hne HW]]%lookup_insert_Some; cbn.
    + split_and!; [lia|lia|]. intros Hx. by apply not_elem_of_nil in Hx.
    + destruct (li_once s Hi w W HW) as (? & ? & ?). split_and!; [lia|done|done].
Qed.

Lemma ensure_service_inv s svc enqueued :
  linv s -> (Z.of_nat (next_tx (ensure_service s svc enqueued)) < 2 ^ 62)%Z ->
  linv (ensure_service s svc enqueued).
Proof.
  intros Hi Hb. pose proof (li_id s Hi) as Hpos. unfold ensure_service in *.
  case_decide; [done|]. unfold register in *.
  destruct (by_service (opens s) !! svc) as [o|] eqn:Ho; cbn -[Z.of_nat] in *.
  - pose proof (retain_inv s svc o Ho Hi) as Hr.
    assert (Hcid := proj1 (li_cid s Hi svc o Ho)).
    pose proof (join_inv _ svc (next_id (opens s)) (open_cid o)
                  (retain_open (closed_in (waiters s)) (open_waiters o)) Hr) as Hj.
    cbn -[Z.of_nat] in Hj. rewrite insert_insert_eq in Hj. apply Hj; [lia|done| |].
    + intros svc' o' [[<- _]|[_ Ho']]%lookup_insert_Some Hc; [done|]. by eapply (li_inj s Hi).
    + left. by rewrite lookup_insert_eq.
  - assert (next_id (opens s) + 1 < 2 ^ 62)%Z as Hsmall.
    { destruct enqueued; cbn -[Z.of_nat] in Hb; lia. }
    assert (i64_wrapping_add (next_id (opens s)) 1 = next_id (opens s) + 1)%Z as ->.
    { unfold i64_wrapping_add. apply wrap_s_small; lia. }
    destruct enqueued; cbn -[Z.of_nat].
    + rewrite attempt_cid_small by lia. apply (join_inv s svc _ _ [] Hi); [lia|lia| |by right].
      intros svc' o Ho' Hc. apply (li_cid s Hi) in Ho' as [? _]. lia.
    + unfold remove. cbn -[Z.of_nat]. rewrite lookup_insert_eq. cbn. rewrite decide_True by done.
      cbn -[Z.of_nat]. rewrite delete_insert_id by done. apply refused_inv; [done|lia].
Qed.

Lemma handle_service_status_inv s opened cid label :
  linv s -> linv (handle_service_status s opened cid label).
Proof.
  intros Hi. unfold handle_service_status, remove_by_cid.
  destruct (List.find _ _) as [[svc o]|] eqn:Hf; [|done].
  apply List.find_some in Hf as [Hin Hc]. apply list_elem_of_In, elem_of_map_to_list in Hin.
  by destruct opened; apply (take_out_inv s svc o).
Qed.

Lemma wait_timeout_inv s w : linv s -> linv (wait_timeout s w).
Proof.
  intros Hi. unfold wait_timeout. destruct (waiters s !! w) as [W|]; [|done].
  unfold remove. destruct (by_service (opens s) !! w_service W) as [o|] eqn:Ho; [|done].
  case_decide; [|done]. by apply (take_out_inv s _ o).
Qed.

(** Draining is taking out every attempt, one after the other. *)
Lemma drain_inv l s (f : string * PendingServiceOpen -> Completion) :
  (forall p, c_waiters (f p) = open_waiters p.2 /\ c_result (f p) <> Ok tt) ->
  (forall svc o, (svc, o) ∈ l -> by_service (opens s) !! svc = Some o) -> NoDup l.*1 ->
  linv s ->
  linv (mkLSys (mkOpens (next_id (opens s)) (fold_left (fun m p => delete p.1 m) l (by_service (opens s))))
          (open_services s) (waiters s) (next_tx s) (inflight s ++ (f <$> l))).
Proof.
  intros Hf. revert s. induction l as [|[svc o] l IH]; intros s Hl Hnd Hi.
  { cbn. rewrite app_nil_r. by destruct s as [[]]. }
  rewrite fmap_cons in Hnd. apply NoDup_cons in Hnd as [Hnin Hnd].
  destruct (Hf (svc, o)) as [Hfw Hfr].
  assert (linv (take_out s svc (f (svc, o)))) as Hi1.
  { apply (take_out_inv s svc o); [apply Hl; set_solver|done| |done]. by intros ?%Hfr. }
  specialize (IH (take_out s svc (f (svc, o)))). cbn in IH |- *. rewrite <- app_assoc in IH.
  apply IH; [|done|done]. intros svc' o' Hin. rewrite lookup_delete_ne; [apply Hl; set_solver|].
  intros <-. apply Hnin. apply list_elem_of_fmap. by exists (svc, o').
Qed.

Lemma fold_delete_lookup (l : list (string * PendingServiceOpen)) (m : gmap string PendingServiceOpen) k :
  fold_left (fun m p => delete p.1 m) l m !! k = if decide (k ∈ l.*1) then None else m !! k.
Proof.
  revert m. induction l as [|[svc o] l IH]; intros m; [done|]. cbn. rewrite IH, lookup_delete.
  change (list_fmap _ _ fst l) with (l.*1). repeat case_decide; set_solver.
Qed.

Lemma fail_pending_inv s reason : linv s -> linv (fail_pending_service_opens s reason).
Proof.
  intros Hi. unfold fail_pending_service_opens, drain.
  replace (∅ : gmap string PendingServiceOpen) with
    (fold_left (fun m p => delete p.1 m) (map_to_list (by_service (opens s))) (by_service (opens s))).
  - apply drain_inv; [done| |apply NoDup_fst_map_to_list|done].
    intros svc o. apply elem_of_map_to_list.
  - apply map_eq. intros k. rewrite fold_delete_lookup, lookup_empty. case_decide as Hk; [done|].
    destruct (by_service (opens s) !! k) as [o|] eqn:Ho; [|done]. destruct Hk.
    apply list_elem_of_fmap. exists (k, o). split; [done|]. by apply elem_of_map_to_list.
Qed.

Lemma close_inv s w :
  linv s ->
  linv (mkLSys (opens s) (open_services s) (alter close_waiter w (waiters s)) (next_tx s) (inflight s)).
Proof.
  intros Hi.
  assert (Hget : forall v W, alter close_waiter w (waiters s) !! v = Some W ->
    exists W0, waiters s !! v = Some W0 /\ w_service W = w_service W0 /\ w_cid W = w_cid W0
               /\ w_answers W = w_answers W0 /\ (w_closed W = false -> W = W0)).
  { intros v W. rewrite lookup_alter_Some. intros [(-> & W0 & ? & ->)|(? & ?)]; [exists W0; by split_and!|eauto 8]. }
  assert (Hput : forall v W0, waiters s !! v = Some W0 ->
    exists W, alter close_waiter w (waiters s) !! v = Some W /\ w_service W = w_service W0
              /\ w_cid W = w_cid W0 /\ w_answers W = w_answers W0).
  { intros v W0 HW. destruct (decide (v = w)) as [->|].
    - rewrite lookup_alter_eq, HW. cbn. by eexists.
    - rewrite lookup_alter_ne by done. eauto. }
  split; cbn.
  - apply Hi.
  - apply (li_cid s Hi).
  - apply (li_inj s Hi).
  - intros svc cid v Hat. destruct (li_open s Hi svc cid v Hat) as (? & W0 & HW & ? & ? & ?).
    split; [done|]. destruct (Hput v W0 HW) as (W & ? & ? & ? & ?). exists W. split_and!; congruence.
  - apply Hi.
  - intros c v Hc Hv. destruct (li_flying s Hi c v Hc Hv) as (W0 & HW & ? & Hr).
    destruct (Hput v W0 HW) as (W & ? & Hs & ? & ?). exists W. rewrite Hs. split_and!; [done|congruence|done].
  - intros v W HW Ha Hcl. destruct (Hget v W HW) as (W0 & HW0 & _ & _ & _ & Heq).
    pose proof (Heq Hcl). subst W0. by apply (li_waiting s Hi).
  - intros v W HW. destruct (Hget v W HW) as (W0 & HW0 & -> & _ & -> & _). by apply (li_once s Hi).
Qed.

(** What completing a removed attempt does to a waiter. *)
Lemma send_answer_cases r W :
  w_service (send_answer r W) = w_service W /\ w_cid (send_answer r W) = w_cid W
  /\ w_closed (send_answer r W) = w_closed W
  /\ w_answers (send_answer r W) = (if w_closed W then w_answers W else w_answers W ++ [r]).
Proof. unfold send_answer. by destruct (w_closed W) eqn:Hc; rewrite ?Hc. Qed.

Lemma complete_inv s i c :
  linv s -> inflight s !! i = Some c -> linv (lexec s (LComplete i)).
Proof.
  intros Hi Hc. cbn. rewrite Hc.
  assert (Hsplit : inflight s = take i (inflight s) ++ c :: drop (S i) (inflight s))
    by (symmetry; by apply take_drop_middle).
  set (rest := take i (inflight s) ++ drop (S i) (inflight s)) in *.
  assert (Hperm : flying s ≡ₚ c_waiters c ++ (rest ≫= c_waiters)).
  { unfold flying. rewrite Hsplit at 1. unfold rest. rewrite !bind_app, bind_cons. solve_Permutation. }
  assert (Hnd : NoDup (c_waiters c ++ (rest ≫= c_waiters))) by (rewrite <- Hperm; apply Hi).
  apply NoDup_app in Hnd as (Hndc & Hdisj & Hndr).
  assert (Hin : c ∈ inflight s) by by eapply list_elem_of_lookup_2.
  assert (Hsub : forall c', c' ∈ rest -> c' ∈ inflight s).
  { intros c'. rewrite Hsplit. unfold rest. set_solver. }
  assert (Hlook : forall v, complete (waiters s) (c_waiters c) (c_result c) !! v
    = if decide (v ∈ c_waiters c) then send_answer (c_result c) <$> waiters s !! v else waiters s !! v)
    by (intros; by apply complete_lookup).
  split; cbn; try (apply Hi); unfold flying; cbn.
  - intros svc cid v Hat. destruct (li_open s Hi svc cid v Hat) as (Hnf & W & HW & ?).
    rewrite Hperm in Hnf. split; [set_solver|]. exists W. rewrite Hlook, decide_False by set_solver. done.
  - exact Hndr.
  - intros c' v Hc' Hv. destruct (li_flying s Hi c' v (Hsub _ Hc') Hv) as (W & HW & ?). exists W.
    rewrite Hlook, decide_False; [done|]. intros Hx. apply (Hdisj v Hx), list_elem_of_bind. eauto.
  - intros v W HW Ha Hcl. rewrite Hlook in HW. case_decide as Hv.
    + destruct (waiters s !! v) as [W0|]; simplify_eq/=.
      destruct (send_answer_cases (c_result c) W0) as (_ & _ & Hc0 & Ha0).
      rewrite Hc0 in Hcl. rewrite Ha0, Hcl in Ha. by destruct (w_answers W0).
    + destruct (li_waiting s Hi v W HW Ha Hcl) as [?|Hf]; [by left|right].
      rewrite Hperm in Hf. set_solver.
  - intros v W HW. rewrite Hlook in HW.
    assert (Hmono : open_services s ⊆ match c_opened c with
      Some svc => {[svc]} ∪ open_services s | None => open_services s end) by (destruct (c_opened c); set_solver).
    case_decide as Hv; [|destruct (li_once s Hi v W HW) as (? & ? & ?); split_and!; set_solver].
    destruct (waiters s !! v) as [W0|] eqn:HW0; simplify_eq/=.
    destruct (li_flying s Hi c v Hin Hv) as (W0' & ? & Ha0 & Hok). simplify_eq.
    destruct (li_once s Hi v W0 HW0) as (? & _ & _).
    destruct (send_answer_cases (c_result c) W0) as (-> & _ & _ & ->). rewrite Ha0.
    destruct (w_closed W0); cbn; (split_and!; [done|lia|]); [set_solver|].
    intros Hr%list_elem_of_singleton. rewrite Hok by done. set_solver.
Qed.

Lemma lexec_tx s op : next_tx s <= next_tx (lexec s op).
Proof.
  destruct op; cbn; try done.
  - unfold ensure_service, register. repeat case_match; cbn; lia.
  - unfold handle_service_status, remove_by_cid. repeat case_match; simplify_eq/=; lia.
  - unfold wait_timeout, remove. repeat case_match; simplify_eq/=; lia.
  - by case_match.
  - by case_match.
Qed.

Lemma lexec_inv s op :
  linv s -> (Z.of_nat (next_tx (lexec s op)) < 2 ^ 62)%Z -> linv (lexec s op).
Proof.
  intros Hi Hb. destruct op.
  - by apply ensure_service_inv.
  - by apply handle_service_status_inv.
  - by apply wait_timeout_inv.
  - by apply close_inv.
  - cbn. destruct (waiters s !! w); [|done]. by apply prune_inv.
  - by apply fail_pending_inv.
  - destruct (inflight s !! i) as [c|] eqn:Hc; [by eapply complete_inv|]. cbn. by rewrite Hc.
Qed.

Lemma lrun_inv ops s :
  linv s -> (Z.of_nat (next_tx (lrun ops s)) < 2 ^ 62)%Z -> linv (lrun ops s).
Proof.
  assert (Hmono : forall ops s, next_tx s <= next_tx (lrun ops s)).
  { clear. induction ops as [|op ops IH]; intros s; [done|]. cbn.
    etrans; [apply (lexec_tx s op)|apply IH]. }
  revert s. induction ops as [|op ops IH]; intros s Hi Hb; [done|].
  change (lrun (op :: ops) s) with (lrun ops (lexec s op)) in *.
  apply IH; [|done]. apply lexec_inv; [done|]. pose proof (Hmono ops (lexec s op)). lia.
Qed.

(** ** Properties *)

Lemma remove_by_cid_pending s svc o :
  linv s -> by_service (opens s) !! svc = Some o ->
  remove_by_cid (opens s) (open_cid o)
  = (Some (svc, o), mkOpens (next_id (opens s)) (delete svc (by_service (opens s)))).
Proof.
  intros Hi Ho. unfold remove_by_cid. destruct (List.find _ _) as [[svc' o']|] eqn:Hf.
  - apply List.find_some in Hf as [Hin Hc]. apply list_elem_of_In, elem_of_map_to_list in Hin.
    apply Z.eqb_eq in Hc. cbn in Hc. pose proof (li_inj s Hi _ _ _ _ Hin Ho Hc). by simplify_eq.
  - exfalso. apply elem_of_map_to_list, list_elem_of_In in Ho. apply (List.find_none _ _ Hf) in Ho.
    cbn in Ho. by rewrite Z.eqb_refl in Ho.
Qed.

(** C35: service-open bookkeeping answers each waiter at most once and loses none.
    Over any interleaving of opens, service events, timeouts, cancellations, prunes
    and session failures (below 2^62 registrations), every waiter has at most one
    answer; a waiter with an open receiver and no answer is still listed under the
    attempt whose correlation id it was given, or under an attempt being answered;
    and an [Ok] answer means its service is recorded as open. *)
Theorem service_open_waiters ops w W
  (Hbound : (Z.of_nat (next_tx (lrun ops lsys_default)) < 2 ^ 62)%Z)
  (Hw : waiters (lrun ops lsys_default) !! w = Some W) :
  let s := lrun ops lsys_default in
  length (w_answers W) <= 1
  /\ (w_answers W = [] -> w_closed W = false ->
      attempt_of s (w_service W) (w_cid W) w \/ w ∈ flying s)
  /\ (Ok tt ∈ w_answers W -> w_service W ∈ open_services s).
Proof.
  pose proof (lrun_inv ops lsys_default linv_default Hbound) as Hi. cbv zeta.
  destruct (li_once _ Hi w W Hw) as (_ & ? & ?). split_and!; [done| |done].
  intros. by apply (li_waiting _ Hi).
Qed.

(** A service event resolves exactly its own attempt.  When the session
    reports the outcome of a pending attempt's correlation id and the attempt is
    answered, every one of its waiters with an open receiver gets exactly that
    outcome, and no other waiter gets an answer; the attempt's waiters are exactly
    the pending ones registered under its correlation id, so an event of an older
    generation of the same service reaches none of them. *)
Theorem service_event_exact ops svc o opened label v V
  (Hbound : (Z.of_nat (next_tx (lrun ops lsys_default)) < 2 ^ 62)%Z)
  (Hpending : by_service (opens (lrun ops lsys_default)) !! svc = Some o)
  (Hv : waiters (lrun ops lsys_default) !! v = Some V) :
  let s := lrun ops lsys_default in
  let s' := lrun [LEvent opened (open_cid o) label; LComplete (length (inflight s))] s in
  let r := if opened then Ok tt else open_failure svc label in
  (v ∈ open_waiters o
   <-> attempt_of s (w_service V) (w_cid V) v /\ w_cid V = open_cid o)
  /\ exists V', waiters s' !! v = Some V'
       /\ w_answers V' = if decide (v ∈ open_waiters o) then if w_closed V then [] else [r]
                         else w_answers V.
Proof.
  pose proof (lrun_inv ops lsys_default linv_default Hbound) as Hi. cbv zeta.
  set (s := lrun ops lsys_default) in *. split.
  { split.
    - intros Hin. destruct (li_open s Hi svc (open_cid o) v) as (_ & V0 & ? & <- & ? & _); [by exists o|].
      simplify_eq. split; [|done]. by exists o.
    - intros ((ov & Hov & Hc & Hin) & Hc'). assert (svc = w_service V) as ->; [|by simplify_eq].
      eapply (li_inj s Hi); [done..|]. congruence. }
  destruct (li_cid s Hi svc o Hpending) as [_ Hnd].
  set (c := if opened then mkCompletion (Some svc) (open_waiters o) (Ok tt)
            else mkCompletion None (open_waiters o) (open_failure svc label)).
  assert (lexec s (LEvent opened (open_cid o) label) = take_out s svc c) as Hev.
  { cbn. unfold handle_service_status. rewrite (remove_by_cid_pending s svc o Hi Hpending). by destruct opened. }
  change (lrun [_; LComplete (length (inflight s))] s)
    with (lexec (lexec s (LEvent opened (open_cid o) label)) (LComplete (length (inflight s)))).
  rewrite Hev. cbn. rewrite lookup_app_r, Nat.sub_diag by done. cbn.
  assert (c_waiters c = open_waiters o) as -> by by unfold c; destruct opened.
  rewrite complete_lookup, Hv by done.
  assert (c_result c = if opened then Ok tt else open_failure svc label) as -> by by unfold c; destruct opened.
  case_decide as Hin; [|by exists V]. eexists. split; [done|].
  destruct (li_open s Hi svc (open_cid o) v) as (_ & V0 & ? & _ & _ & Ha); [by exists o|]. simplify_eq.
  destruct (send_answer_cases (if opened then Ok tt else open_failure svc label) V) as (_ & _ & _ & ->).
  by rewrite Ha.
Qed.

(** Startup reports the first status and a pool starts in index order.  The
    latch keeps the first of any sequence of startup outcomes, hands it out once
    and times out afterwards; starting a pool returns the outcomes of the calls in
    index order, whichever threads fail to spawn. *)
Theorem startup_first_outcome (r : result unit BlpError) (rs : list (result unit BlpError))
  (T : Type) (f : nat -> T) (spawns : nat -> bool) (count : nat) :
  let o := fold_left resolve (r :: rs) latch_default in
  (wait o).2 = r /\ (wait (fold_left resolve rs (wait o).1)).2 = Err Timeout
  /\ start_concurrently (fun i => Some (f i)) spawns count = Some (f <$> seq 0 count).
Proof.
  assert (Hres : forall rs o, resolved o = true -> fold_left resolve rs o = o).
  { clear. induction rs as [|r rs IH]; intros o Ho; [done|]. cbn. unfold resolve at 2. rewrite Ho. auto. }
  cbv zeta. cbn [fold_left]. rewrite (Hres rs) by done. split; [done|].
  split; [cbn; by rewrite Hres|].
  rewrite start_concurrently_seq. by apply collect_map.
Qed.

(** *** Witnesses *)

(** Two callers share an attempt for one service, a second service has its own;
    the first one's failure is reported. *)
Definition open_ops : list LOp :=
  [LOpen "//blp/refdata" true; LOpen "//blp/refdata" true; LOpen "//blp/mktdata" true].

Lemma service_open_waiters_witness :
  let s := lrun (open_ops ++ [LEvent true (2 ^ 62 + 1) None; LComplete 0]) lsys_default in
  exists W, waiters s !! 1 = Some W /\ w_answers W = [Ok tt] /\ w_service W ∈ open_services s.
Proof.
  eexists. split; [vm_compute; reflexivity|]. split; [reflexivity|].
  eapply (service_open_waiters (open_ops ++ [LEvent true (2 ^ 62 + 1) None; LComplete 0]) 1);
    [vm_compute; reflexivity|vm_compute; reflexivity|]. apply list_elem_of_singleton. reflexivity.
Defined.

Lemma service_event_witness :
  let s := lrun open_ops lsys_default in
  let s' := lrun [LEvent false (2 ^ 62 + 1) None; LComplete 0] s in
  exists V', waiters s' !! 1 = Some V' /\ w_answers V' = [open_failure "//blp/refdata" None].
Proof.
  edestruct (service_event_exact open_ops "//blp/refdata" (mkOpen (2 ^ 62 + 1) [0; 1]) false None 1)
    as (_ & V' & HV & Ha); [vm_compute; reflexivity|vm_compute; reflexivity|vm_compute; reflexivity|].
  exists V'. split; [exact HV|exact Ha].
Defined.
