(* ===== verification/Status.v ===== *)
(** * Subscription status

    Models [crates/xbbg-async/src/engine/subscription_status.rs]: the status
    snapshot of a subscription (topic indexes, lifecycle states, event history,
    session, service and admin status), its operations, and the handle that
    publishes snapshots to readers and an observer.

    The Rust struct's fields are grouped in three records: [Index] (the key and
    topic indexes with their deferral flags), [EventLog] (history, warnings and
    the events captured for the observer) and [Status] (the rest).  A [SlabKey] is
    a [nat], metrics are opaque identities, and an operation reads the clock once:
    its microsecond timestamp is the argument [now]. *)

From Stdlib Require Import ZArith Lia.
From stdpp Require Import gmap strings.
From S2P Require Import Prelude.

(** ** Data *)

Inductive SubscriptionFailureKind : Type := FkFailure | FkTerminated.

Inductive TopicLifecycleState : Type :=
| TsPending | TsStarted | TsStreaming | TsUnsubscribing | TsUnsubscribed | TsFailed | TsTerminated.

Inductive SessionLifecycleState : Type := SsStarting | SsUp | SsDown | SsTerminated.

Inductive SubscriptionEventCategory : Type := CatSession | CatService | CatAdmin | CatSubscription | CatLifecycle.

Inductive SubscriptionEventLevel : Type := LvInfo | LvWarning | LvError.

#[export] Instance TopicLifecycleState_eq_dec : EqDecision TopicLifecycleState.
Proof. solve_decision. Defined.
#[export] Instance SessionLifecycleState_eq_dec : EqDecision SessionLifecycleState.
Proof. solve_decision. Defined.
#[export] Instance SubscriptionEventLevel_eq_dec : EqDecision SubscriptionEventLevel.
Proof. solve_decision. Defined.

Record TopicStatusInfo : Type := mkTopicStatus {
  ts_topic : string;
  ts_feed_topic : string;
  ts_delayed : option bool;
  ts_state : TopicLifecycleState;
  ts_last_change_us : Z;
  ts_streams_active : bool;
  ts_streams_changed_us : Z
}.

Record ServiceStatusInfo : Type := mkServiceStatus {
  sv_service : string; sv_up : bool; sv_last_change_us : Z
}.

Record AdminStatusInfo : Type := mkAdmin {
  slow_consumer_warning_active : bool;
  slow_consumer_warning_count : Z;
  slow_consumer_cleared_count : Z;
  data_loss_count : Z;
  last_warning_us : option Z;
  last_cleared_us : option Z;
  last_data_loss_us : option Z
}.

Record SessionStatusInfo : Type := mkSession {
  ss_state : SessionLifecycleState;
  ss_last_change_us : Z;
  disconnect_count : Z;
  reconnect_count : Z
}.

Record SubscriptionEventInfo : Type := mkEvent {
  at_us : Z;
  category : SubscriptionEventCategory;
  level : SubscriptionEventLevel;
  message_type : string;
  ev_topic : option string;
  detail : option string
}.

Record SubscriptionFailureInfo : Type := mkFailure {
  fl_topic : string; fl_reason : string; fl_kind : SubscriptionFailureKind; fl_at_us : Z
}.

Record Index : Type := mkIndex {
  keys : list nat;
  topics : list string;
  topic_to_key : gmap string nat;
  key_to_topic : gmap nat string;
  pending_key_to_topic : gmap nat string;
  metrics : gmap nat nat;
  defer_indices : bool;
  indices_dirty : bool
}.

Record EventLog : Type := mkLog {
  events : list SubscriptionEventInfo;
  event_sequence : Z;
  observer_events : option (list SubscriptionEventInfo);
  warnings : list SubscriptionEventInfo
}.

Record Status : Type := mkStatus {
  ix : Index;
  log : EventLog;
  failures : list SubscriptionFailureInfo;
  topic_states : gmap string TopicStatusInfo;
  field_errors : gmap string (gmap string string);
  session : SessionStatusInfo;
  services : gmap string ServiceStatusInfo;
  admin : AdminStatusInfo
}.

Definition SUBSCRIPTION_EVENT_HISTORY_LIMIT : nat := 128.

(** [Default], with the session's timestamp. *)
Definition index_default : Index := mkIndex [] [] ∅ ∅ ∅ ∅ false false.
Definition log_default : EventLog := mkLog [] 0 None [].
Definition status_default (now : Z) : Status :=
  mkStatus index_default log_default [] ∅ ∅ (mkSession SsStarting now 0 0) ∅
    (mkAdmin false 0 0 0 None None None).

Definition set_ix (st : Status) (i : Index) : Status :=
  mkStatus i (log st) (failures st) (topic_states st) (field_errors st) (session st) (services st) (admin st).
Definition set_log (st : Status) (l : EventLog) : Status :=
  mkStatus (ix st) l (failures st) (topic_states st) (field_errors st) (session st) (services st) (admin st).
Definition set_failures (st : Status) (f : list SubscriptionFailureInfo) : Status :=
  mkStatus (ix st) (log st) f (topic_states st) (field_errors st) (session st) (services st) (admin st).
Definition set_topic_states (st : Status) (m : gmap string TopicStatusInfo) : Status :=
  mkStatus (ix st) (log st) (failures st) m (field_errors st) (session st) (services st) (admin st).
Definition set_field_errors (st : Status) (m : gmap string (gmap string string)) : Status :=
  mkStatus (ix st) (log st) (failures st) (topic_states st) m (session st) (services st) (admin st).
Definition set_session (st : Status) (s : SessionStatusInfo) : Status :=
  mkStatus (ix st) (log st) (failures st) (topic_states st) (field_errors st) s (services st) (admin st).
Definition set_services (st : Status) (m : gmap string ServiceStatusInfo) : Status :=
  mkStatus (ix st) (log st) (failures st) (topic_states st) (field_errors st) (session st) m (admin st).
Definition set_admin (st : Status) (a : AdminStatusInfo) : Status :=
  mkStatus (ix st) (log st) (failures st) (topic_states st) (field_errors st) (session st) (services st) a.

(** ** Topic indexes *)

Definition retain_keys (f : nat -> bool) (i : Index) : list nat := List.filter f (keys i).
Definition retain_topics (f : string -> bool) (i : Index) : list string := List.filter f (topics i).

Definition remove_active_index (i : Index) (key : nat) (topic : string) : Index :=
  if defer_indices i then
    mkIndex (keys i) (topics i) (topic_to_key i) (key_to_topic i) (pending_key_to_topic i) (metrics i)
      (defer_indices i) true
  else
    mkIndex (retain_keys (fun k => bool_decide (k <> key)) i)
      (retain_topics (fun t => bool_decide (t <> topic)) i)
      (topic_to_key i) (key_to_topic i) (pending_key_to_topic i) (metrics i)
      (defer_indices i) (indices_dirty i).

Definition finish_index_changes (i : Index) : Index :=
  if indices_dirty i then
    mkIndex (retain_keys (fun k => bool_decide (is_Some (key_to_topic i !! k))) i)
      (retain_topics (fun t => bool_decide (is_Some (topic_to_key i !! t))) i)
      (topic_to_key i) (key_to_topic i) (pending_key_to_topic i) (metrics i) false false
  else
    mkIndex (keys i) (topics i) (topic_to_key i) (key_to_topic i) (pending_key_to_topic i)
      (metrics i) false false.

(** The part of [add_active]'s loop body on the indexes. *)
Definition add_index (i : Index) (topic : string) (key metric : nat) : Index :=
  mkIndex (keys i ++ [key]) (topics i ++ [topic]) (<[topic := key]> (topic_to_key i))
    (<[key := topic]> (key_to_topic i)) (delete key (pending_key_to_topic i))
    (<[key := metric]> (metrics i)) (defer_indices i) (indices_dirty i).

(** Forget an active pair: both maps, the index vectors and the metrics. *)
Definition unlink (i : Index) (key : nat) (topic : string) : Index :=
  let i := remove_active_index
             (mkIndex (keys i) (topics i) (delete topic (topic_to_key i))
                (delete key (key_to_topic i)) (pending_key_to_topic i) (metrics i)
                (defer_indices i) (indices_dirty i)) key topic in
  mkIndex (keys i) (topics i) (topic_to_key i) (key_to_topic i) (pending_key_to_topic i)
    (delete key (metrics i)) (defer_indices i) (indices_dirty i).

Definition set_pending (i : Index) (p : gmap nat string) : Index :=
  mkIndex (keys i) (topics i) (topic_to_key i) (key_to_topic i) p (metrics i)
    (defer_indices i) (indices_dirty i).

Definition index_remove_topic (i : Index) (topic : string) : Index * option nat :=
  match topic_to_key i !! topic with
  | Some key => (unlink i key topic, Some key)
  | None => (i, None)
  end.

Definition finalize_key (i : Index) (key : nat) : Index * option string :=
  match key_to_topic i !! key with
  | Some topic => (unlink i key topic, Some topic)
  | None =>
      match pending_key_to_topic i !! key with
      | Some topic => (unlink (set_pending i (delete key (pending_key_to_topic i))) key topic, Some topic)
      | None => (i, None)
      end
  end.

(** ** Events *)

Definition is_warning (ev : SubscriptionEventInfo) : bool :=
  bool_decide (level ev = LvWarning)
  && (bool_decide (message_type ev = "DelayedStream"%string)
      || bool_decide (message_type ev = "FieldException"%string)).

Definition append_event (l : EventLog) (ev : SubscriptionEventInfo) : EventLog :=
  mkLog ((if decide (SUBSCRIPTION_EVENT_HISTORY_LIMIT <= length (events l))
          then tail (events l) else events l) ++ [ev])
    (u64_wrapping_add (event_sequence l) 1)
    (option_map (fun evs => evs ++ [ev]) (observer_events l))
    (if is_warning ev then warnings l ++ [ev] else warnings l).

Definition push_event (st : Status) (now : Z) (c : SubscriptionEventCategory)
    (lv : SubscriptionEventLevel) (mt : string) (topic d : option string) : Status :=
  set_log st (append_event (log st) (mkEvent now c lv mt topic d)).

(** ** Operations *)

Definition update_topic_state (st : Status) (now : Z) (topic : string) (state : TopicLifecycleState)
  : Status :=
  set_topic_states st
    (<[topic :=
       match topic_states st !! topic with
       | Some s => mkTopicStatus (ts_topic s) (ts_feed_topic s) (ts_delayed s) state now
                     (ts_streams_active s) (ts_streams_changed_us s)
       | None => mkTopicStatus topic topic None state now false now
       end]> (topic_states st)).

Definition set_topic_streams_active (st : Status) (now : Z) (topic : string) (active : bool)
  : Status * option bool :=
  match topic_states st !! topic with
  | Some s =>
      (if bool_decide (ts_streams_active s <> active) then
         set_topic_states st
           (<[topic := mkTopicStatus (ts_topic s) (ts_feed_topic s) (ts_delayed s) (ts_state s)
                         (ts_last_change_us s) active now]> (topic_states st))
       else st, Some (ts_streams_active s))
  | None => (st, None)
  end.

Definition add_one (now : Z) (st : Status) (t : string * nat * nat) : Status :=
  let '(topic, key, metric) := t in
  set_topic_states (set_ix st (add_index (ix st) topic key metric))
    (<[topic := mkTopicStatus topic topic None TsPending now false now]> (topic_states st)).

Definition add_active (st : Status) (now : Z) (ts : list string) (ks : list nat) (ms : list nat)
  : Status :=
  let st :=
    match keys (ix st) with
    | [] => set_session st (mkSession SsUp now (disconnect_count (session st))
                              (reconnect_count (session st)))
    | _ => st
    end in
  fold_left (add_one now) (zip (zip ts ks) ms) st.

Definition remove_topic (st : Status) (topic : string) : Status * option nat :=
  let '(i, key) := index_remove_topic (ix st) topic in (set_ix st i, key).

(** The first pending key of the topic, in the map's iteration order. *)
Definition find_pending (i : Index) (topic : string) : option nat :=
  option_map fst (List.find (fun p => bool_decide (p.2 = topic)) (map_to_list (pending_key_to_topic i))).

Definition drop_topic (st : Status) (topic : string) : Status * option nat :=
  let '(st, key) :=
    match remove_topic st topic with
    | (st, Some key) => (st, Some key)
    | (st, None) =>
        match find_pending (ix st) topic with
        | Some key => (set_ix st (set_pending (ix st) (delete key (pending_key_to_topic (ix st)))), Some key)
        | None => (st, None)
        end
    end in
  (set_field_errors (set_topic_states st (delete topic (topic_states st)))
     (delete topic (field_errors st)), key).

Definition topic_for_key (st : Status) (key : nat) : option string := key_to_topic (ix st) !! key.

Definition set_feed_topic (st : Status) (label feed_topic : string) : Status :=
  set_topic_states st
    (alter (fun s => mkTopicStatus (ts_topic s) feed_topic (ts_delayed s) (ts_state s)
                       (ts_last_change_us s) (ts_streams_active s) (ts_streams_changed_us s))
       label (topic_states st)).

Definition set_delayed (st : Status) (label : string) (delayed : option bool) : Status :=
  set_topic_states st
    (alter (fun s => mkTopicStatus (ts_topic s) (ts_feed_topic s) delayed (ts_state s)
                       (ts_last_change_us s) (ts_streams_active s) (ts_streams_changed_us s))
       label (topic_states st)).

Definition record_field_error (st : Status) (label field cat : string) : Status :=
  set_field_errors st
    (<[label := <[field := cat]> (default ∅ (field_errors st !! label))]> (field_errors st)).

Definition take_warnings (st : Status) : Status * list SubscriptionEventInfo :=
  (set_log st (mkLog (events (log st)) (event_sequence (log st)) (observer_events (log st)) []),
   warnings (log st)).

Definition mark_topic (state : TopicLifecycleState) (st : Status) (now : Z) (key : nat)
  : Status * option string :=
  match topic_for_key st key with
  | Some topic => (update_topic_state st now topic state, Some topic)
  | None => (st, None)
  end.

Definition mark_topic_started := mark_topic TsStarted.
Definition mark_topic_streaming := mark_topic TsStreaming.

Definition mark_topic_unsubscribing (st : Status) (now : Z) (key : nat) : Status * option string :=
  match key_to_topic (ix st) !! key with
  | Some topic =>
      let i := unlink (ix st) key topic in
      (update_topic_state (set_ix st (set_pending i (<[key := topic]> (pending_key_to_topic i))))
         now topic TsUnsubscribing, Some topic)
  | None => (st, None)
  end.

Definition mark_topic_unsubscribed (st : Status) (now : Z) (key : nat) : Status * option string :=
  match finalize_key (ix st) key with
  | (i, Some topic) =>
      ((set_topic_streams_active (update_topic_state (set_ix st i) now topic TsUnsubscribed)
          now topic false).1, Some topic)
  | (_, None) => (st, None)
  end.

Definition failure_state (kind : SubscriptionFailureKind) : TopicLifecycleState :=
  match kind with FkFailure => TsFailed | FkTerminated => TsTerminated end.

(** The status changes of a failed topic, shared by both ways of recording it. *)
Definition fail_topic (st : Status) (now : Z) (topic reason : string) (kind : SubscriptionFailureKind)
  : Status :=
  let st := (set_topic_streams_active (update_topic_state st now topic (failure_state kind))
               now topic false).1 in
  set_failures st (failures st ++ [mkFailure topic reason kind now]).

Definition record_failure (st : Status) (now : Z) (key : nat) (reason : string)
    (kind : SubscriptionFailureKind) : Status * option string :=
  match finalize_key (ix st) key with
  | (i, Some topic) => (fail_topic (set_ix st i) now topic reason kind, Some topic)
  | (_, None) => (st, None)
  end.

(** One iteration of [record_failures]: the maps change, the vectors do not. *)
Definition record_failures_one (now : Z) (st : Status)
    (f : nat * string * SubscriptionFailureKind) : Status :=
  let '(key, reason, kind) := f in
  let i := ix st in
  let forget topic pending :=
    mkIndex (keys i) (topics i) (delete topic (topic_to_key i)) (delete key (key_to_topic i))
      pending (delete key (metrics i)) (defer_indices i) (indices_dirty i) in
  match key_to_topic i !! key with
  | Some topic => fail_topic (set_ix st (forget topic (pending_key_to_topic i))) now topic reason kind
  | None =>
      match pending_key_to_topic i !! key with
      | Some topic =>
          fail_topic (set_ix st (forget topic (delete key (pending_key_to_topic i)))) now topic reason kind
      | None => st
      end
  end.

Definition record_failures (st : Status) (now : Z) (fs : list (nat * string * SubscriptionFailureKind))
  : Status :=
  let failed := fs.*1.*1 in
  let st := fold_left (record_failures_one now) fs st in
  let i := ix st in
  set_ix st
    (mkIndex (retain_keys (fun k => negb (bool_decide (k ∈ failed))) i)
       (retain_topics (fun t => bool_decide (is_Some (topic_to_key i !! t))) i)
       (topic_to_key i) (key_to_topic i) (pending_key_to_topic i) (metrics i)
       (defer_indices i) (indices_dirty i)).

Definition clear_active (st : Status) (now : Z) : Status :=
  let i := ix st in
  set_topic_states
    (set_ix st (mkIndex [] [] ∅ ∅ (pending_key_to_topic i) ∅ (defer_indices i) (indices_dirty i)))
    ((fun s => if ts_streams_active s then
                 mkTopicStatus (ts_topic s) (ts_feed_topic s) (ts_delayed s) (ts_state s)
                   (ts_last_change_us s) false now
               else s) <$> topic_states st).

Definition record_subscription_event (st : Status) (now : Z) (mt : string) (topic d : option string)
    (lv : SubscriptionEventLevel) : Status :=
  push_event st now CatSubscription lv mt topic d.

Definition record_session_state (st : Status) (now : Z) (state : SessionLifecycleState)
    (mt : string) (d : option string) : Status :=
  let s := session st in
  let reconnects :=
    if decide (ss_state s = SsDown /\ state = SsUp) then u64_wrapping_add (reconnect_count s) 1
    else reconnect_count s in
  let disconnects :=
    if decide (state = SsDown) then u64_wrapping_add (disconnect_count s) 1 else disconnect_count s in
  push_event (set_session st (mkSession state now disconnects reconnects)) now CatSession
    (match state with SsDown | SsTerminated => LvError | _ => LvInfo end) mt None d.

Definition record_service_state (st : Status) (now : Z) (service : string) (up : bool)
    (mt : string) (d : option string) : Status :=
  push_event (set_services st (<[service := mkServiceStatus service up now]> (services st))) now
    CatService (if up then LvInfo else LvWarning) mt (Some service) d.

Definition record_admin_warning (st : Status) (now : Z) (mt : string) (d : option string) : Status :=
  let a := admin st in
  push_event
    (set_admin st (mkAdmin true (u64_wrapping_add (slow_consumer_warning_count a) 1)
                     (slow_consumer_cleared_count a) (data_loss_count a) (Some now)
                     (last_cleared_us a) (last_data_loss_us a)))
    now CatAdmin LvWarning mt None d.

Definition record_admin_warning_cleared (st : Status) (now : Z) (mt : string) (d : option string)
  : Status :=
  let a := admin st in
  push_event
    (set_admin st (mkAdmin false (slow_consumer_warning_count a)
                     (u64_wrapping_add (slow_consumer_cleared_count a) 1) (data_loss_count a)
                     (last_warning_us a) (Some now) (last_data_loss_us a)))
    now CatAdmin LvInfo mt None d.

Definition record_admin_data_loss (st : Status) (now : Z) (topic d : option string) : Status :=
  let a := admin st in
  push_event
    (set_admin st (mkAdmin (slow_consumer_warning_active a) (slow_consumer_warning_count a)
                     (slow_consumer_cleared_count a) (u64_wrapping_add (data_loss_count a) 1)
                     (last_warning_us a) (last_cleared_us a) (Some now)))
    now CatAdmin LvWarning "DataLoss" topic d.

(** ** The published handle *)

Inductive Scope : Type := ScTopics (ks : list nat) | ScGlobal.

Record Handle : Type := mkHandle {
  snapshot : Status;
  revision : Z;
  pending_warnings : nat;
  has_observer : bool;
  observed : list (list SubscriptionEventInfo)   (* events passed to the observer *)
}.

Definition handle_new (initial : Status) (observer : bool) : Handle :=
  mkHandle initial 0 (length (warnings (log initial))) observer [].

Definition notify_observer (h : Handle) (evs : list SubscriptionEventInfo) : Handle :=
  if has_observer h
  then mkHandle (snapshot h) (revision h) (pending_warnings h) (has_observer h) (observed h ++ [evs])
  else h.

Definition store (h : Handle) (next : Status) : Handle :=
  let count := wrap_u 64 (event_sequence (log next) - event_sequence (log (snapshot h))) in
  let evs := events (log next) in
  notify_observer
    (mkHandle next (u64_wrapping_add (revision h) 1) (length (warnings (log next)))
       (has_observer h) (observed h))
    (drop (Z.to_nat (Z.of_nat (length evs) - count)) evs).

Definition scope_defers (scope : Scope) : bool :=
  match scope with ScTopics ks => bool_decide (1 < length ks) | ScGlobal => false end.

Definition set_observer_events (st : Status) (o : option (list SubscriptionEventInfo)) : Status :=
  set_log st (mkLog (events (log st)) (event_sequence (log st)) o (warnings (log st))).

Definition set_defer (st : Status) (b : bool) : Status :=
  let i := ix st in
  set_ix st (mkIndex (keys i) (topics i) (topic_to_key i) (key_to_topic i) (pending_key_to_topic i)
               (metrics i) b (indices_dirty i)).

Definition update_scoped (h : Handle) (scope : Scope) (mutate : Status -> Status) : Handle :=
  let next := set_observer_events (snapshot h) (if has_observer h then Some [] else None) in
  let next := mutate (set_defer next (scope_defers scope)) in
  let next := set_ix next (finish_index_changes (ix next)) in
  let evs := default [] (observer_events (log next)) in
  let next := set_observer_events next None in
  notify_observer
    (mkHandle next (u64_wrapping_add (revision h) 1) (length (warnings (log next)))
       (has_observer h) (observed h)) evs.

Definition handle_take_warnings (h : Handle) : Handle * list SubscriptionEventInfo :=
  if decide (pending_warnings h = 0) then (h, [])
  else
    let '(next, ws) := take_warnings (snapshot h) in
    (notify_observer
       (mkHandle next (u64_wrapping_add (revision h) 1) 0 (has_observer h) (observed h)) [], ws).

(** ** Mutations

    The operations a status update applies, other than adding topics and clearing
    the subscription. *)

Inductive Mutation : Type :=
| MStarted (key : nat)
| MStreaming (key : nat)
| MUnsubscribing (key : nat)
| MUnsubscribed (key : nat)
| MFailure (key : nat) (reason : string) (kind : SubscriptionFailureKind)
| MRemove (topic : string)
| MDrop (topic : string)
| MStreams (topic : string) (active : bool)
| MFeed (label feed : string)
| MDelayed (label : string) (delayed : option bool)
| MFieldError (label field cat : string)
| MEvent (mt : string) (topic d : option string) (lv : SubscriptionEventLevel)
| MSession (state : SessionLifecycleState) (mt : string) (d : option string)
| MService (service : string) (up : bool) (mt : string) (d : option string)
| MAdminWarning (mt : string) (d : option string)
| MAdminCleared (mt : string) (d : option string)
| MDataLoss (topic d : option string).

Definition apply (now : Z) (st : Status) (m : Mutation) : Status :=
  match m with
  | MStarted key => (mark_topic_started st now key).1
  | MStreaming key => (mark_topic_streaming st now key).1
  | MUnsubscribing key => (mark_topic_unsubscribing st now key).1
  | MUnsubscribed key => (mark_topic_unsubscribed st now key).1
  | MFailure key reason kind => (record_failure st now key reason kind).1
  | MRemove topic => (remove_topic st topic).1
  | MDrop topic => (drop_topic st topic).1
  | MStreams topic active => (set_topic_streams_active st now topic active).1
  | MFeed label feed => set_feed_topic st label feed
  | MDelayed label delayed => set_delayed st label delayed
  | MFieldError label field cat => record_field_error st label field cat
  | MEvent mt topic d lv => record_subscription_event st now mt topic d lv
  | MSession state mt d => record_session_state st now state mt d
  | MService service up mt d => record_service_state st now service up mt d
  | MAdminWarning mt d => record_admin_warning st now mt d
  | MAdminCleared mt d => record_admin_warning_cleared st now mt d
  | MDataLoss topic d => record_admin_data_loss st now topic d
  end.

Definition apply_all (now : Z) (ms : list Mutation) (st : Status) : Status :=
  fold_left (apply now) ms st.

(** ** Coherent indexes *)

Record coherent (i : Index) : Prop := mkCoherent {
  co_keys : NoDup (keys i);
  co_topics : NoDup (topics i);
  co_key k : k ∈ keys i <-> is_Some (key_to_topic i !! k);
  co_topic t : t ∈ topics i <-> is_Some (topic_to_key i !! t);
  co_inverse k t : key_to_topic i !! k = Some t <-> topic_to_key i !! t = Some k;
  co_pending k t :
    pending_key_to_topic i !! k = Some t -> key_to_topic i !! k = None /\ topic_to_key i !! t = None;
  co_metrics k : is_Some (metrics i !! k) <-> is_Some (key_to_topic i !! k);
  co_flags : defer_indices i = false /\ indices_dirty i = false
}.

Lemma coherent_default : coherent index_default.
Proof.
  split; cbn; [apply NoDup_nil_2|apply NoDup_nil_2|..]; intros *; rewrite ?lookup_empty; try done;
    (split; [try (by intros ?%not_elem_of_nil)|]; by intros []).
Qed.

Lemma elem_of_retain {A} (f : A -> bool) l x : x ∈ List.filter f l <-> x ∈ l /\ f x = true.
Proof. by rewrite !list_elem_of_In, List.filter_In. Qed.

Lemma NoDup_retain {A} (f : A -> bool) l : NoDup l -> NoDup (List.filter f l).
Proof. rewrite !NoDup_ListNoDup. apply List.NoDup_filter. Qed.

(** Unlinking an active pair, or a pair of which neither side is active. *)
Lemma unlink_coherent i key topic :
  coherent i ->
  (key_to_topic i !! key = Some topic
   \/ key_to_topic i !! key = None /\ topic_to_key i !! topic = None) ->
  coherent (unlink i key topic).
Proof.
  intros Hc Hpair. destruct (co_flags i Hc) as [Hd Hdi].
  assert (Hinv : forall k, topic_to_key i !! topic = Some k -> k = key).
  { intros k Hk. destruct Hpair as [Hp|[_ Hp]]; [|congruence].
    apply (co_inverse i Hc) in Hk, Hp. apply (co_inverse i Hc) in Hk. congruence. }
  assert (Hinv' : forall t, key_to_topic i !! key = Some t -> t = topic) by (destruct Hpair as [|[]]; naive_solver congruence).
  unfold unlink, remove_active_index. cbn. rewrite Hd. split; cbn; unfold retain_keys, retain_topics; cbn.
  - apply NoDup_retain, Hc.
  - apply NoDup_retain, Hc.
  - intros k. rewrite elem_of_retain, bool_decide_eq_true, (co_key i Hc), lookup_delete_is_Some. naive_solver.
  - intros t. rewrite elem_of_retain, bool_decide_eq_true, (co_topic i Hc), lookup_delete_is_Some. naive_solver.
  - intros k t. rewrite !lookup_delete_Some, <- (co_inverse i Hc). split; intros [Hne Hk]; (split; [|done]).
    + intros <-. apply Hne. symmetry. apply Hinv. by apply (co_inverse i Hc).
    + intros <-. apply Hne. symmetry. by apply Hinv'.
  - intros k t Hk%(co_pending i Hc). rewrite !lookup_delete_None. naive_solver.
  - intros k. rewrite !lookup_delete_is_Some, (co_metrics i Hc). done.
  - done.
Qed.

Lemma set_pending_coherent i p :
  coherent i ->
  (forall k t, p !! k = Some t -> key_to_topic i !! k = None /\ topic_to_key i !! t = None) ->
  coherent (set_pending i p).
Proof. intros [] Hp. by split. Qed.

Lemma delete_pending_coherent i key :
  coherent i -> coherent (set_pending i (delete key (pending_key_to_topic i))).
Proof.
  intros Hc. apply set_pending_coherent; [done|]. intros k t [_ Hk]%lookup_delete_Some. by eapply co_pending.
Qed.

Lemma finalize_key_coherent i key : coherent i -> coherent (finalize_key i key).1.
Proof.
  intros Hc. unfold finalize_key. destruct (key_to_topic i !! key) as [t|] eqn:Hk.
  { apply unlink_coherent; auto. }
  destruct (pending_key_to_topic i !! key) as [t|] eqn:Hp; [|done]. cbn.
  apply unlink_coherent; [by apply delete_pending_coherent|]. right. cbn. by apply (co_pending i Hc) in Hp.
Qed.

Lemma add_index_coherent i topic key metric :
  coherent i -> (key ∉ keys i) -> (topic ∉ topics i) ->
  (forall k, pending_key_to_topic i !! k <> Some topic) ->
  coherent (add_index i topic key metric).
Proof.
  intros Hc Hk Ht Hp. pose proof Hk as Hk'. pose proof Ht as Ht'.
  rewrite (co_key i Hc), <- eq_None_not_Some in Hk'. rewrite (co_topic i Hc), <- eq_None_not_Some in Ht'.
  split; cbn.
  - apply NoDup_app. split_and!; [apply Hc|set_solver|apply NoDup_singleton].
  - apply NoDup_app. split_and!; [apply Hc|set_solver|apply NoDup_singleton].
  - intros k. rewrite elem_of_app, list_elem_of_singleton, lookup_insert_is_Some, (co_key i Hc).
    destruct (decide (key = k)); naive_solver.
  - intros t. rewrite elem_of_app, list_elem_of_singleton, lookup_insert_is_Some, (co_topic i Hc).
    destruct (decide (topic = t)); naive_solver.
  - intros k t. rewrite !lookup_insert_Some, <- (co_inverse i Hc). split.
    + intros [[-> ->]|[Hne Hkt]]; [by left|right]. split; [|done]. intros ->.
      apply (co_inverse i Hc) in Hkt. congruence.
    + intros [[-> ->]|[Hne Hkt]]; [by left|right]. split; [|done]. intros ->. congruence.
  - intros k t [Hne Hkt]%lookup_delete_Some. pose proof (Hp k).
    rewrite !lookup_insert_ne by congruence. by apply (co_pending i Hc).
  - intros k. rewrite !lookup_insert_is_Some, (co_metrics i Hc). done.
  - apply Hc.
Qed.

Lemma ix_update_topic_state st now t s : ix (update_topic_state st now t s) = ix st.
Proof. done. Qed.

Lemma ix_streams st now t b : ix (set_topic_streams_active st now t b).1 = ix st.
Proof. unfold set_topic_streams_active. repeat case_match; simplify_eq/=; by try case_bool_decide. Qed.

Lemma ix_fail_topic st now t r k : ix (fail_topic st now t r k) = ix st.
Proof. unfold fail_topic. cbn. by rewrite ix_streams. Qed.

Lemma apply_coherent now st m : coherent (ix st) -> coherent (ix (apply now st m)).
Proof.
  intros Hc. destruct m; cbn; try done;
    unfold mark_topic_started, mark_topic_streaming, mark_topic, mark_topic_unsubscribing,
      mark_topic_unsubscribed, record_failure, remove_topic, drop_topic, remove_topic; cbn.
  - by destruct (topic_for_key st key).
  - by destruct (topic_for_key st key).
  - destruct (key_to_topic (ix st) !! key) as [t|] eqn:Hk; [|done]. cbn.
    pose proof (unlink_coherent (ix st) key t Hc (or_introl Hk)) as Hu.
    apply set_pending_coherent; [done|]. intros k t'.
    assert (forall i, pending_key_to_topic (unlink i key t) = pending_key_to_topic i
                      /\ key_to_topic (unlink i key t) = delete key (key_to_topic i)
                      /\ topic_to_key (unlink i key t) = delete t (topic_to_key i)) as Hun.
    { intros i. unfold unlink, remove_active_index. cbn. by destruct (defer_indices i). }
    intros [[<- <-]|[Hne Hp]]%lookup_insert_Some; [|by apply (co_pending _ Hu)].
    destruct (Hun (ix st)) as (_ & -> & ->). by rewrite !lookup_delete_eq.
  - pose proof (finalize_key_coherent (ix st) key Hc) as Hf.
    destruct (finalize_key (ix st) key) as [i [t|]]; [|done]. cbn in *. by rewrite ix_streams.
  - pose proof (finalize_key_coherent (ix st) key Hc) as Hf.
    destruct (finalize_key (ix st) key) as [i [t|]]; [|done]. cbn in *. by rewrite ix_streams.
  - unfold index_remove_topic. destruct (topic_to_key (ix st) !! topic) as [k|] eqn:Hk; cbn; [|by destruct st].
    apply unlink_coherent; [done|]. left. by apply (co_inverse _ Hc).
  - unfold index_remove_topic. destruct (topic_to_key (ix st) !! topic) as [k|] eqn:Hk; cbn.
    + apply unlink_coherent; [done|]. left. by apply (co_inverse _ Hc).
    + destruct (find_pending (ix st) topic); cbn; [by apply delete_pending_coherent|by destruct st].
  - by rewrite ix_streams.
Qed.

Lemma apply_all_coherent now ms st : coherent (ix st) -> coherent (ix (apply_all now ms st)).
Proof.
  revert st. induction ms as [|m ms IH]; intros st Hc; [done|]. by apply IH, apply_coherent.
Qed.

(** ** Deferred index scans *)

(** [d] is [e] with the scans of the vectors still to be done. *)
Record deferred (e d : Status) : Prop := mkDeferred {
  df_rest : e = set_ix d (ix e);
  df_t2k : topic_to_key (ix e) = topic_to_key (ix d);
  df_k2t : key_to_topic (ix e) = key_to_topic (ix d);
  df_pend : pending_key_to_topic (ix e) = pending_key_to_topic (ix d);
  df_met : metrics (ix e) = metrics (ix d);
  df_flags : defer_indices (ix e) = false /\ indices_dirty (ix e) = false /\ defer_indices (ix d) = true;
  df_keys : keys (ix e) = retain_keys (fun k => bool_decide (is_Some (key_to_topic (ix d) !! k))) (ix d);
  df_topics : topics (ix e) = retain_topics (fun t => bool_decide (is_Some (topic_to_key (ix d) !! t))) (ix d);
  df_clean : indices_dirty (ix d) = false -> keys (ix e) = keys (ix d) /\ topics (ix e) = topics (ix d)
}.

Lemma deferred_finish e d : deferred e d -> set_ix d (finish_index_changes (ix d)) = e.
Proof.
  intros []. destruct df_flags0 as (Hd & Hdi & _). rewrite df_rest0. f_equal. unfold finish_index_changes.
  destruct (ix e) as [ks ts t2k k2t p m df di]. cbn in *. subst.
  destruct (indices_dirty (ix d)); [done|]. by destruct df_clean0 as [-> ->].
Qed.

Lemma filter_filter {A} (f g : A -> bool) l :
  List.filter f (List.filter g l) = List.filter (fun x => g x && f x) l.
Proof.
  induction l as [|x l IH]; [done|]. cbn. destruct (g x); cbn; [|done]. destruct (f x); by rewrite IH.
Qed.

Lemma filter_ext {A} (f g : A -> bool) l : (forall x, f x = g x) -> List.filter f l = List.filter g l.
Proof. intros Hfg. by apply List.filter_ext. Qed.

Lemma unlink_deferred e d key topic :
  deferred e d ->
  deferred (set_ix e (unlink (ix e) key topic)) (set_ix d (unlink (ix d) key topic)).
Proof.
  intros []. destruct df_flags0 as (Hd & Hdi & Hdd).
  unfold unlink, remove_active_index. cbn. rewrite Hd, Hdd.
  split; cbn; rewrite ?df_t2k0, ?df_k2t0, ?df_pend0, ?df_met0; try done.
  - by rewrite df_rest0.
  - unfold retain_keys in *. cbn. rewrite df_keys0, filter_filter. apply filter_ext. intros k.
    rewrite <- bool_decide_and. apply bool_decide_ext. rewrite lookup_delete_is_Some. naive_solver.
  - unfold retain_topics in *. cbn. rewrite df_topics0, filter_filter. apply filter_ext. intros t.
    rewrite <- bool_decide_and. apply bool_decide_ext. rewrite lookup_delete_is_Some. naive_solver.
Qed.

Lemma set_pending_deferred e d p :
  deferred e d -> deferred (set_ix e (set_pending (ix e) p)) (set_ix d (set_pending (ix d) p)).
Proof. intros []. split; cbn; try done. by rewrite df_rest0. Qed.

(** A change outside the indexes. *)
Lemma rest_deferred e d (f : Status -> Status) :
  (forall st i, f (set_ix st i) = set_ix (f st) i) -> (forall st, ix (f st) = ix st) ->
  deferred e d -> deferred (f e) (f d).
Proof.
  intros Hf Hi []. split; rewrite ?Hi; try done. by rewrite df_rest0, Hf.
Qed.

Lemma set_ix_streams st i now t b :
  (set_topic_streams_active (set_ix st i) now t b).1 = set_ix (set_topic_streams_active st now t b).1 i.
Proof. unfold set_topic_streams_active. cbn. case_match; [|done]. by case_bool_decide. Qed.

Lemma streams_deferred e d now t b :
  deferred e d ->
  deferred (set_topic_streams_active e now t b).1 (set_topic_streams_active d now t b).1.
Proof.
  apply (rest_deferred e d (fun st => (set_topic_streams_active st now t b).1)).
  - intros. apply set_ix_streams.
  - intros. apply ix_streams.
Qed.

Lemma update_topic_state_deferred e d now t s :
  deferred e d -> deferred (update_topic_state e now t s) (update_topic_state d now t s).
Proof. by apply (rest_deferred e d (fun st => update_topic_state st now t s)). Qed.

Lemma fail_topic_deferred e d now t r k :
  deferred e d -> deferred (fail_topic e now t r k) (fail_topic d now t r k).
Proof.
  apply (rest_deferred e d (fun st => fail_topic st now t r k)).
  - intros. unfold fail_topic. change (update_topic_state (set_ix st i) now t (failure_state k))
      with (set_ix (update_topic_state st now t (failure_state k)) i). by rewrite set_ix_streams.
  - intros. apply ix_fail_topic.
Qed.

Lemma finalize_key_deferred e d key :
  deferred e d ->
  (finalize_key (ix e) key).2 = (finalize_key (ix d) key).2
  /\ deferred (set_ix e (finalize_key (ix e) key).1) (set_ix d (finalize_key (ix d) key).1).
Proof.
  intros Hd. pose proof Hd as []. unfold finalize_key. rewrite df_k2t0.
  destruct (key_to_topic (ix d) !! key) as [t|]; cbn.
  { split; [done|]. by apply unlink_deferred. }
  rewrite df_pend0. destruct (pending_key_to_topic (ix d) !! key) as [t|]; cbn.
  - split; [done|]. by apply (unlink_deferred _ _ key t (set_pending_deferred _ _ _ Hd)).
  - split; [done|]. by destruct e, d.
Qed.

Lemma remove_topic_deferred e d topic :
  deferred e d ->
  (remove_topic e topic).2 = (remove_topic d topic).2
  /\ deferred (remove_topic e topic).1 (remove_topic d topic).1.
Proof.
  intros Hd. pose proof Hd as []. unfold remove_topic, index_remove_topic. rewrite df_t2k0.
  destruct (topic_to_key (ix d) !! topic) as [k|]; cbn; split; try done.
  - by apply unlink_deferred.
  - by destruct e, d.
Qed.

Lemma drop_topic_deferred e d topic :
  deferred e d -> deferred (drop_topic e topic).1 (drop_topic d topic).1.
Proof.
  intros Hd. destruct (remove_topic_deferred e d topic Hd) as [Heq Hr]. unfold drop_topic.
  destruct (remove_topic e topic) as [e1 ke], (remove_topic d topic) as [d1 kd]. cbn in Heq, Hr. subst kd.
  assert (Hf : forall e d, deferred e d ->
    deferred (set_field_errors (set_topic_states e (delete topic (topic_states e)))
                (delete topic (field_errors e)))
             (set_field_errors (set_topic_states d (delete topic (topic_states d)))
                (delete topic (field_errors d)))).
  { clear. intros e d. by apply (rest_deferred e d (fun st =>
      set_field_errors (set_topic_states st (delete topic (topic_states st)))
        (delete topic (field_errors st)))). }
  destruct ke as [k|]; [by apply Hf|]. pose proof Hr as []. unfold find_pending. rewrite df_pend0.
  destruct (option_map _ _) as [k|]; cbn; [|by apply Hf].
  by apply (Hf _ _ (set_pending_deferred _ _ _ Hr)).
Qed.

Lemma apply_deferred now m e d : deferred e d -> deferred (apply now e m) (apply now d m).
Proof.
  intros Hd. pose proof Hd as [_ _ Hk _ _ _ _ _ _]. destruct m; cbn.
  - unfold mark_topic_started, mark_topic, topic_for_key. rewrite Hk.
    case_match; cbn; [by apply update_topic_state_deferred|done].
  - unfold mark_topic_streaming, mark_topic, topic_for_key. rewrite Hk.
    case_match; cbn; [by apply update_topic_state_deferred|done].
  - unfold mark_topic_unsubscribing. rewrite Hk.
    destruct (key_to_topic (ix d) !! key) as [t|]; cbn; [|done].
    apply update_topic_state_deferred. pose proof (unlink_deferred _ _ key t Hd) as Hu.
    pose proof Hu as [_ _ _ Hp _ _ _ _ _]. cbn in Hp. rewrite Hp.
    by apply (set_pending_deferred _ _ _ Hu).
  - destruct (finalize_key_deferred e d key Hd) as [Heq Hf]. unfold mark_topic_unsubscribed.
    destruct (finalize_key (ix e) key) as [ie [t|]], (finalize_key (ix d) key) as [id [t'|]];
      cbn in Heq; simplify_eq; cbn; [|done]. by apply streams_deferred, update_topic_state_deferred.
  - destruct (finalize_key_deferred e d key Hd) as [Heq Hf]. unfold record_failure.
    destruct (finalize_key (ix e) key) as [ie [t|]], (finalize_key (ix d) key) as [id [t'|]];
      cbn in Heq; simplify_eq; cbn -[fail_topic]; [|done]. by apply fail_topic_deferred.
  - by apply remove_topic_deferred.
  - by apply drop_topic_deferred.
  - by apply streams_deferred.
  - by apply (rest_deferred e d (fun st => set_feed_topic st label feed)).
  - by apply (rest_deferred e d (fun st => set_delayed st label delayed)).
  - by apply (rest_deferred e d (fun st => record_field_error st label field cat)).
  - by apply (rest_deferred e d (fun st => record_subscription_event st now mt topic d0 lv)).
  - by apply (rest_deferred e d (fun st => record_session_state st now state mt d0)).
  - by apply (rest_deferred e d (fun st => record_service_state st now service up mt d0)).
  - by apply (rest_deferred e d (fun st => record_admin_warning st now mt d0)).
  - by apply (rest_deferred e d (fun st => record_admin_warning_cleared st now mt d0)).
  - by apply (rest_deferred e d (fun st => record_admin_data_loss st now topic d0)).
Qed.

Lemma apply_all_deferred now ms e d :
  deferred e d -> deferred (apply_all now ms e) (apply_all now ms d).
Proof.
  revert e d. induction ms as [|m ms IH]; intros e d Hd; [done|]. by apply IH, apply_deferred.
Qed.

Lemma filter_true {A} (f : A -> bool) l : (forall x, x ∈ l -> f x = true) -> List.filter f l = l.
Proof.
  induction l as [|x l IH]; intros Hl; [done|]. cbn. rewrite Hl by set_solver. f_equal. apply IH. set_solver.
Qed.

Lemma deferred_start st : coherent (ix st) -> deferred st (set_defer st true).
Proof.
  intros Hc. destruct (co_flags _ Hc) as [Hd Hdi]. split; cbn; try done.
  - by destruct st.
  - unfold retain_keys. cbn. symmetry. apply filter_true. intros k Hk.
    apply bool_decide_eq_true. by apply (co_key _ Hc).
  - unfold retain_topics. cbn. symmetry. apply filter_true. intros k Hk.
    apply bool_decide_eq_true. by apply (co_topic _ Hc).
Qed.

(** ** Batched failures *)

Definition record_one (now : Z) (st : Status) (f : nat * string * SubscriptionFailureKind) : Status :=
  (record_failure st now f.1.1 f.1.2 f.2).1.

(** The state with a scan of the vectors pending. *)
Definition dirty (st : Status) : Status :=
  let i := ix st in
  set_ix st (mkIndex (keys i) (topics i) (topic_to_key i) (key_to_topic i) (pending_key_to_topic i)
               (metrics i) true true).

Lemma fail_topic_set_ix st i now t r k :
  fail_topic (set_ix st i) now t r k = set_ix (fail_topic st now t r k) i.
Proof.
  unfold fail_topic. change (update_topic_state (set_ix st i) now t (failure_state k))
    with (set_ix (update_topic_state st now t (failure_state k)) i). by rewrite set_ix_streams.
Qed.

Lemma record_failures_one_dirty now st f :
  record_one now (dirty st) f = dirty (record_failures_one now st f).
Proof.
  destruct f as [[key reason] kind]. unfold record_one, record_failure, record_failures_one, finalize_key.
  cbn -[fail_topic]. destruct (key_to_topic (ix st) !! key) as [t|]; cbn -[fail_topic].
  - unfold dirty. rewrite !fail_topic_set_ix. done.
  - destruct (pending_key_to_topic (ix st) !! key) as [t|]; cbn -[fail_topic]; [|done].
    unfold dirty. rewrite !fail_topic_set_ix. done.
Qed.

Lemma deferred_dirty st : coherent (ix st) -> deferred st (dirty st).
Proof.
  intros Hc. destruct (deferred_start st Hc). split; cbn; try done.
Qed.

Lemma record_failures_loop_deferred now fs e d :
  deferred e (dirty d) ->
  deferred (fold_left (record_one now) fs e) (dirty (fold_left (record_failures_one now) fs d)).
Proof.
  revert e d. induction fs as [|f fs IH]; intros e d Hd; [done|]. cbn. apply IH.
  rewrite <- record_failures_one_dirty. by apply (apply_deferred now (MFailure f.1.1 f.1.2 f.2)).
Qed.

Lemma record_failures_one_frame now st f :
  let i := ix (record_failures_one now st f) in
  keys i = keys (ix st) /\ topics i = topics (ix st)
  /\ key_to_topic i = delete f.1.1 (key_to_topic (ix st))
  /\ defer_indices i = defer_indices (ix st) /\ indices_dirty i = indices_dirty (ix st).
Proof.
  destruct f as [[key reason] kind]. unfold record_failures_one. cbn.
  destruct (key_to_topic (ix st) !! key) as [t|] eqn:Hk; rewrite ?ix_fail_topic; [done|].
  destruct (pending_key_to_topic (ix st) !! key) as [t|]; rewrite ?ix_fail_topic; cbn; [done|].
  by rewrite (delete_id (key_to_topic (ix st))).
Qed.

Lemma record_failures_loop_frame now fs st :
  let i := ix (fold_left (record_failures_one now) fs st) in
  keys i = keys (ix st) /\ topics i = topics (ix st)
  /\ (forall k, is_Some (key_to_topic i !! k)
                <-> is_Some (key_to_topic (ix st) !! k) /\ (k ∉ fs.*1.*1))
  /\ defer_indices i = defer_indices (ix st) /\ indices_dirty i = indices_dirty (ix st).
Proof.
  revert st. induction fs as [|f fs IH]; intros st; cbn.
  - split_and!; try done. intros k. set_solver.
  - destruct (IH (record_failures_one now st f)) as (-> & -> & Hk & -> & ->).
    destruct (record_failures_one_frame now st f) as (-> & -> & Hd & -> & ->). split_and!; try done.
    intros k. rewrite Hk, Hd, lookup_delete_is_Some.
    change (list_fmap _ _ fst (list_fmap _ _ fst fs)) with (fs.*1.*1). set_solver.
Qed.

Lemma record_failures_fold st now fs :
  coherent (ix st) -> record_failures st now fs = fold_left (record_one now) fs st.
Proof.
  intros Hc. pose proof (record_failures_loop_deferred now fs _ _ (deferred_dirty st Hc)) as Hd.
  apply deferred_finish in Hd. rewrite <- Hd. unfold record_failures.
  destruct (record_failures_loop_frame now fs st) as (Hk & Ht & Hm & Hdf & Hdi).
  destruct (co_flags _ Hc) as [Hf1 Hf2]. rewrite Hdf, Hdi, Hf1, Hf2.
  set (D := fold_left (record_failures_one now) fs st) in *. unfold dirty, finish_index_changes. cbn.
  f_equal. f_equal. unfold retain_keys. cbn. apply List.filter_ext_in. intros k Hin.
  apply list_elem_of_In in Hin. rewrite Hk in Hin. apply (co_key _ Hc) in Hin.
  rewrite <- bool_decide_not. apply bool_decide_ext. rewrite Hm. naive_solver.
Qed.

(** ** The event history *)

Definition append_all (evs : list SubscriptionEventInfo) (l : EventLog) : EventLog :=
  fold_left append_event evs l.

(** The last [n] elements. *)
Definition last_n {A} (n : nat) (l : list A) : list A := drop (length l - n) l.

Lemma last_n_snoc {A} n (l : list A) x :
  0 < n -> last_n n (l ++ [x])
  = (if decide (n <= length (last_n n l)) then tail (last_n n l) else last_n n l) ++ [x].
Proof.
  intros Hn. unfold last_n. rewrite length_app, length_drop. simpl.
  case_decide as Hc.
  - replace (length l + 1 - n) with (S (length l - n)) by lia.
    rewrite drop_app_le by lia. f_equal. rewrite <- (Nat.add_1_r (length l - n)), <- drop_drop. by destruct (drop _ l).
  - replace (length l - n) with 0 by lia. replace (length l + 1 - n) with 0 by lia. done.
Qed.

Lemma append_all_log all evs l :
  events l = last_n SUBSCRIPTION_EVENT_HISTORY_LIMIT all ->
  event_sequence l = wrap_u 64 (Z.of_nat (length all)) ->
  let l' := append_all evs l in
  events l' = last_n SUBSCRIPTION_EVENT_HISTORY_LIMIT (all ++ evs)
  /\ event_sequence l' = wrap_u 64 (Z.of_nat (length (all ++ evs)))
  /\ observer_events l' = option_map (fun o => o ++ evs) (observer_events l)
  /\ warnings l' = warnings l ++ List.filter is_warning evs.
Proof.
  revert all l. induction evs as [|ev evs IH]; intros all l He Hs; cbn.
  - rewrite !app_nil_r. split_and!; try done. destruct (observer_events l); cbn; by rewrite ?app_nil_r.
  - destruct (IH (all ++ [ev]) (append_event l ev)) as (IH1 & IH2 & IH3 & IH4).
    + cbn. rewrite He. rewrite last_n_snoc by (unfold SUBSCRIPTION_EVENT_HISTORY_LIMIT; lia). done.
    + cbn. rewrite Hs, length_app. unfold u64_wrapping_add, wrap_u. cbn [length].
      rewrite Z.add_mod_idemp_l by lia. f_equal. lia.
    + rewrite <- app_assoc in IH1, IH2. split_and!; [exact IH1|exact IH2| |].
      * etrans; [exact IH3|]. cbn. destruct (observer_events l); cbn; by rewrite <- ?app_assoc.
      * etrans; [exact IH4|]. cbn. destruct (is_warning ev); by rewrite <- ?app_assoc.
Qed.

(** The events a mutation records. *)
Definition mutation_events (now : Z) (m : Mutation) : list SubscriptionEventInfo :=
  match m with
  | MEvent mt topic d lv => [mkEvent now CatSubscription lv mt topic d]
  | MSession state mt d =>
      [mkEvent now CatSession (match state with SsDown | SsTerminated => LvError | _ => LvInfo end)
         mt None d]
  | MService service up mt d =>
      [mkEvent now CatService (if up then LvInfo else LvWarning) mt (Some service) d]
  | MAdminWarning mt d => [mkEvent now CatAdmin LvWarning mt None d]
  | MAdminCleared mt d => [mkEvent now CatAdmin LvInfo mt None d]
  | MDataLoss topic d => [mkEvent now CatAdmin LvWarning "DataLoss" topic d]
  | _ => []
  end.

Lemma log_streams st now t b : log (set_topic_streams_active st now t b).1 = log st.
Proof. unfold set_topic_streams_active. repeat case_match; simplify_eq/=; by try case_bool_decide. Qed.

Lemma log_fail_topic st now t r k : log (fail_topic st now t r k) = log st.
Proof. unfold fail_topic. cbn. by rewrite log_streams. Qed.

Lemma apply_log now st m : log (apply now st m) = append_all (mutation_events now m) (log st).
Proof.
  destruct m; cbn; try done;
    unfold mark_topic_started, mark_topic_streaming, mark_topic, mark_topic_unsubscribing,
      mark_topic_unsubscribed, record_failure, remove_topic, drop_topic, remove_topic, index_remove_topic;
    repeat case_match; simplify_eq/=; rewrite ?log_streams; done.
Qed.

Lemma apply_all_log now ms st :
  log (apply_all now ms st) = append_all (ms ≫= mutation_events now) (log st).
Proof.
  revert st. induction ms as [|m ms IH]; intros st; [done|]. cbn. fold (apply_all now ms (apply now st m)).
  rewrite IH, apply_log. unfold append_all. by rewrite fold_left_app.
Qed.

(** ** Histories of a published status *)

(** The caller's obligation when adding topics: new keys, and labels neither active
    nor still being unsubscribed. *)
Definition fresh_add (i : Index) (ts : list string) (ks : list nat) : Prop :=
  NoDup ts /\ NoDup ks
  /\ (forall t, t ∈ ts -> (t ∉ topics i) /\ forall k, pending_key_to_topic i !! k <> Some t)
  /\ (forall k, k ∈ ks -> k ∉ keys i).

Inductive Reach : Handle -> list SubscriptionEventInfo -> list SubscriptionEventInfo -> Prop :=
| reach_new now observer : Reach (handle_new (status_default now) observer) [] []
| reach_update h all drained scope now ms :
    Reach h all drained ->
    Reach (update_scoped h scope (apply_all now ms)) (all ++ (ms ≫= mutation_events now)) drained
| reach_add h all drained scope now ts ks metrics :
    Reach h all drained -> fresh_add (ix (snapshot h)) ts ks ->
    Reach (update_scoped h scope (fun st => add_active st now ts ks metrics)) all drained
| reach_failures h all drained now fs :
    Reach h all drained ->
    Reach (update_scoped h ScGlobal (fun st => record_failures st now fs)) all drained
| reach_clear h all drained now :
    Reach h all drained -> Reach (update_scoped h ScGlobal (fun st => clear_active st now)) all drained
| reach_take h h' all drained ws :
    Reach h all drained -> handle_take_warnings h = (h', ws) -> Reach h' all (drained ++ ws).

Lemma add_one_defer now st t b : add_one now (set_defer st b) t = set_defer (add_one now st t) b.
Proof. by destruct t as [[? ?] ?]. Qed.

Lemma add_active_defer st now ts ks ms b :
  add_active (set_defer st b) now ts ks ms = set_defer (add_active st now ts ks ms) b.
Proof.
  unfold add_active. cbn.
  set (st0 := match keys (ix st) with [] => _ | _ => st end).
  assert ((match keys (ix st) with
           | [] => set_session (set_defer st b) _ | _ => set_defer st b end) = set_defer st0 b) as ->
    by (unfold st0; by destruct (keys (ix st))).
  generalize st0. induction (zip (zip ts ks) ms) as [|t l IH]; intros s; [done|]. cbn.
  by rewrite add_one_defer, IH.
Qed.

Lemma add_loop_coherent now ts ks ms st :
  coherent (ix st) -> fresh_add (ix st) ts ks ->
  coherent (ix (fold_left (add_one now) (zip (zip ts ks) ms) st)).
Proof.
  revert ks ms st. induction ts as [|t ts IH]; intros [|k ks] [|m ms] st Hc Hf; try done. cbn.
  destruct Hf as ([Htn Htd]%NoDup_cons & [Hkn Hkd]%NoDup_cons & Ht & Hk). apply IH; cbn.
  - apply add_index_coherent; [done|apply Hk; set_solver|apply Ht; set_solver|apply Ht; set_solver].
  - split_and!; [done..| |]; cbn.
    + intros t' Hin. destruct (Ht t') as [Ht1 Ht2]; [set_solver|]. split; [set_solver|].
      intros k' [_ Hp]%lookup_delete_Some. by apply (Ht2 k').
    + intros k' Hin. pose proof (Hk k'). set_solver.
Qed.

Lemma add_active_coherent st now ts ks ms :
  coherent (ix st) -> fresh_add (ix st) ts ks -> coherent (ix (add_active st now ts ks ms)).
Proof.
  intros Hc Hf. unfold add_active. destruct (keys (ix st)); by apply add_loop_coherent.
Qed.

Lemma clear_active_coherent st now : coherent (ix st) -> coherent (ix (clear_active st now)).
Proof.
  intros Hc. destruct (co_flags _ Hc). split; cbn; [apply NoDup_nil_2|apply NoDup_nil_2|..]; intros *;
    rewrite ?lookup_empty; try done;
    (split; [try (by intros ?%not_elem_of_nil)|]; by intros []).
Qed.

Lemma record_failures_coherent st now fs : coherent (ix st) -> coherent (ix (record_failures st now fs)).
Proof.
  intros Hc. rewrite record_failures_fold by done. revert st Hc.
  induction fs as [|f fs IH]; intros st Hc; [done|]. cbn. apply IH.
  by apply (apply_coherent now st (MFailure f.1.1 f.1.2 f.2)).
Qed.

Lemma finish_coherent i : coherent i -> finish_index_changes i = i.
Proof. intros Hc. destruct (co_flags i Hc) as [Hd Hdi]. unfold finish_index_changes. rewrite Hdi. by destruct i; cbn in *; subst. Qed.

Lemma set_defer_false st : coherent (ix st) -> set_defer st false = st.
Proof.
  intros Hc. destruct (co_flags _ Hc) as [Hd Hdi]. destruct st as [i]. cbn in *. unfold set_defer. cbn.
  destruct i; cbn in *; by subst.
Qed.

(** Running mutations under any scope settles to the state of running them eagerly. *)
Lemma settle_scope now ms st b :
  coherent (ix st) ->
  let d := apply_all now ms (set_defer st b) in
  set_ix d (finish_index_changes (ix d)) = apply_all now ms st.
Proof.
  intros Hc. cbv zeta. destruct b.
  - apply deferred_finish, apply_all_deferred. by apply deferred_start.
  - rewrite set_defer_false by done.
    rewrite finish_coherent by by apply apply_all_coherent. by destruct (apply_all now ms st).
Qed.

(** The copy an update mutates, and the publication of its result. *)
Definition working (h : Handle) : Status :=
  set_observer_events (snapshot h) (if has_observer h then Some [] else None).

Definition publish (h : Handle) (st : Status) : Handle :=
  notify_observer
    (mkHandle (set_observer_events st None) (u64_wrapping_add (revision h) 1)
       (length (warnings (log st))) (has_observer h) (observed h))
    (default [] (observer_events (log st))).

Lemma update_settles h scope f st :
  (let d := f (set_defer (working h) (scope_defers scope)) in
   set_ix d (finish_index_changes (ix d)) = st) ->
  update_scoped h scope f = publish h st.
Proof. intros <-. done. Qed.

Lemma settle_coherent st b :
  coherent (ix st) ->
  set_ix (set_defer st b) (finish_index_changes (ix (set_defer st b))) = st.
Proof.
  intros Hc. destruct (co_flags _ Hc) as [Hd Hdi]. unfold finish_index_changes. cbn. rewrite Hdi.
  destruct st as [i]. cbn in *. unfold set_ix, set_defer. cbn. destruct i; cbn in *; by subst.
Qed.

Lemma update_mutations h scope now ms :
  coherent (ix (snapshot h)) ->
  update_scoped h scope (apply_all now ms) = publish h (apply_all now ms (working h)).
Proof. intros Hc. apply update_settles. by apply settle_scope. Qed.

Lemma update_add h scope now ts ks ms :
  coherent (ix (snapshot h)) -> fresh_add (ix (snapshot h)) ts ks ->
  update_scoped h scope (fun st => add_active st now ts ks ms)
  = publish h (add_active (working h) now ts ks ms).
Proof.
  intros Hc Hf. apply update_settles. cbv zeta. rewrite add_active_defer.
  apply settle_coherent. by apply add_active_coherent.
Qed.

Lemma update_global h f :
  coherent (ix (snapshot h)) -> (forall st, coherent (ix st) -> coherent (ix (f st))) ->
  update_scoped h ScGlobal f = publish h (f (working h)).
Proof.
  intros Hc Hf. apply update_settles. cbn. rewrite set_defer_false by done.
  rewrite finish_coherent by by apply Hf. by destruct (f (working h)).
Qed.

Lemma publish_snapshot h st : snapshot (publish h st) = set_observer_events st None.
Proof. unfold publish, notify_observer. cbn. by destruct (has_observer h). Qed.

Lemma take_warnings_snapshot h h' ws :
  handle_take_warnings h = (h', ws) -> ix (snapshot h') = ix (snapshot h).
Proof.
  unfold handle_take_warnings, notify_observer. cbn. case_decide; intros; simplify_eq/=; [done|].
  by destruct (has_observer h).
Qed.

Lemma reach_coherent h all drained : Reach h all drained -> coherent (ix (snapshot h)).
Proof.
  induction 1 as [now obs|h all dr scope now ms _ IH|h all dr scope now ts ks ms _ IH Hf
                 |h all dr now fs _ IH|h all dr now _ IH|h h' all dr ws _ IH Ht].
  - apply coherent_default.
  - rewrite update_mutations, publish_snapshot by done. by apply apply_all_coherent.
  - rewrite update_add, publish_snapshot by done. by apply add_active_coherent.
  - rewrite update_global, publish_snapshot; [by apply record_failures_coherent|done|].
    intros. by apply record_failures_coherent.
  - rewrite update_global, publish_snapshot; [by apply clear_active_coherent|done|].
    intros. by apply clear_active_coherent.
  - by rewrite (take_warnings_snapshot _ _ _ Ht).
Qed.

Definition logged (h : Handle) (all drained : list SubscriptionEventInfo) : Prop :=
  let l := log (snapshot h) in
  events l = last_n SUBSCRIPTION_EVENT_HISTORY_LIMIT all
  /\ event_sequence l = wrap_u 64 (Z.of_nat (length all))
  /\ drained ++ warnings l = List.filter is_warning all
  /\ pending_warnings h = length (warnings l)
  /\ (has_observer h = true -> concat (observed h) = all).

(** Publishing a state whose log is the working copy's with [evs] appended. *)
Lemma publish_logged h st evs all drained :
  logged h all drained -> log st = append_all evs (log (working h)) ->
  logged (publish h st) (all ++ evs) drained.
Proof.
  intros (He & Hs & Hw & Hp & Ho) Hlog. unfold logged. rewrite publish_snapshot. cbn.
  pose proof (append_all_log all evs (log (working h)) He Hs) as (He' & Hs' & Hob & Hwa).
  rewrite <- Hlog in He', Hs', Hob, Hwa. cbn in Hob, Hwa. split_and!; [done|done| |  |].
  - by rewrite Hwa, List.filter_app, <- Hw, app_assoc.
  - unfold publish, notify_observer. cbn. by destruct (has_observer h).
  - unfold publish, notify_observer. cbn. destruct (has_observer h) eqn:Hob'; [|cbn; congruence]. intros _.
    cbn. rewrite Hob. cbn. rewrite concat_app. cbn. by rewrite app_nil_r, Ho.
Qed.

Lemma reach_logged h all drained : Reach h all drained -> logged h all drained.
Proof.
  induction 1 as [now obs|h all dr scope now ms Hr IH|h all dr scope now ts ks ms Hr IH Hf
                 |h all dr now fs Hr IH|h all dr now Hr IH|h h' all dr ws Hr IH Ht].
  - by split_and!.
  - rewrite update_mutations by by eapply reach_coherent. apply publish_logged; [done|]. apply apply_all_log.
  - rewrite update_add by (done || by eapply reach_coherent).
    rewrite <- (app_nil_r all). apply publish_logged; [done|]. cbn.
    unfold add_active. assert (forall l st, log (fold_left (add_one now) l st) = log st) as Hl.
    { clear. induction l as [|[[t k] m] l IH]; intros st; [done|]. cbn. by rewrite IH. }
    rewrite Hl. by destruct (keys _).
  - rewrite update_global; [|by eapply reach_coherent|intros; by apply record_failures_coherent].
    rewrite <- (app_nil_r all). apply publish_logged; [done|]. unfold record_failures. cbn.
    assert (forall fs st, log (fold_left (record_failures_one now) fs st) = log st) as Hl; [|by rewrite Hl].
    clear. induction fs as [|[[k r] kd] fs IH]; intros st; [done|]. cbn. rewrite IH. unfold record_failures_one.
    repeat case_match; by rewrite ?log_fail_topic.
  - rewrite update_global; [|by eapply reach_coherent|intros; by apply clear_active_coherent].
    rewrite <- (app_nil_r all). by apply publish_logged.
  - destruct IH as (He & Hs & Hw & Hp & Ho). unfold handle_take_warnings in Ht.
    case_decide as H0; simplify_eq/=.
    + rewrite app_nil_r. by split_and!.
    + unfold notify_observer. cbn. destruct (has_observer h) eqn:Hob; split_and!; cbn;
        rewrite ?concat_app; cbn; rewrite ?app_nil_r; try done; congruence.
Qed.

(** ** Properties *)

(** The topic indexes stay coherent.  Through any history of published
    updates (mutations under any scope, fresh topics added, batched failures, the
    subscription cleared, warnings drained) the active keys and topics are listed
    once each, the two maps are inverse to one another and have exactly those
    domains, metrics exist for exactly the active keys, and no key or topic still
    being unsubscribed is active. *)
Theorem status_index_coherent h all drained (Hreach : Reach h all drained) :
  coherent (ix (snapshot h)).
Proof. by eapply reach_coherent. Qed.

(** Deferring the index scans changes nothing.  An update over several topics,
    which postpones the scans of the key and topic vectors to its end, publishes
    exactly the handle an eager update publishes. *)
Theorem status_deferred_equals_eager h ks now ms
  (Hcoherent : coherent (ix (snapshot h))) :
  update_scoped h (ScTopics ks) (apply_all now ms) = update_scoped h ScGlobal (apply_all now ms).
Proof. by rewrite !update_mutations. Qed.

(** Recording failures in a batch equals recording them one by one. *)
Theorem status_batched_failures st now (fs : list (nat * string * SubscriptionFailureKind))
  (Hcoherent : coherent (ix st)) :
  record_failures st now fs
  = fold_left (fun st f => (record_failure st now f.1.1 f.1.2 f.2).1) fs st.
Proof. by apply record_failures_fold. Qed.

(** Events are neither lost nor repeated.  After any history of updates that
    recorded the events [all], the history is its last 128, the drained warnings
    followed by those still pending are exactly its warnings, the atomic count
    readers test is their number, and the observer, when there is one, was passed
    exactly [all], update by update. *)
Theorem status_events_exact h all drained (Hreach : Reach h all drained) :
  events (log (snapshot h)) = last_n SUBSCRIPTION_EVENT_HISTORY_LIMIT all
  /\ drained ++ warnings (log (snapshot h)) = List.filter is_warning all
  /\ pending_warnings h = length (warnings (log (snapshot h)))
  /\ (has_observer h = true -> concat (observed h) = all).
Proof. by apply reach_logged in Hreach as (? & _ & ? & ? & ?). Qed.

(** *** Witnesses *)

Definition handle0 : Handle := handle_new (status_default 0) true.
Definition handle1 : Handle :=
  update_scoped handle0 (ScTopics [1; 2])
    (fun st => add_active st 10 ["IBM US Equity"; "MSFT US Equity"]%string [1; 2] [7; 8]).
Definition muts : list Mutation :=
  [MUnsubscribing 1; MFailure 2 "denied" FkFailure; MEvent "DelayedStream" None None LvWarning].
Definition handle2 : Handle := update_scoped handle1 (ScTopics [1; 2]) (apply_all 20 muts).

Lemma handle1_reach : Reach handle1 [] [].
Proof.
  apply (reach_add handle0 [] [] (ScTopics [1; 2])); [apply reach_new|].
  split; [by vm_compute; repeat (constructor; [set_solver|]); constructor|].
  split; [by repeat (constructor; [set_solver|]); constructor|]. split; [|set_solver].
  intros t _. split; [set_solver|]. done.
Qed.

Lemma handle2_reach : Reach handle2 (muts ≫= mutation_events 20) [].
Proof. apply (reach_update handle1 [] [] (ScTopics [1; 2])), handle1_reach. Qed.

Lemma status_index_witness : coherent (ix (snapshot handle2)) /\ keys (ix (snapshot handle2)) = [].
Proof. split; [exact (status_index_coherent _ _ _ handle2_reach)|vm_compute; reflexivity]. Defined.

Lemma status_deferred_witness :
  update_scoped handle1 (ScTopics [1; 2]) (apply_all 20 muts)
  = update_scoped handle1 ScGlobal (apply_all 20 muts).
Proof.
  exact (status_deferred_equals_eager handle1 [1; 2] 20 muts (reach_coherent _ _ _ handle1_reach)).
Defined.

Lemma status_batched_witness :
  record_failures (snapshot handle1) 30 [((1, "a"%string), FkTerminated); ((9, "b"%string), FkFailure)]
  = fold_left (fun st f => (record_failure st 30 f.1.1 f.1.2 f.2).1)
      [((1, "a"%string), FkTerminated); ((9, "b"%string), FkFailure)] (snapshot handle1).
Proof.
  exact (status_batched_failures (snapshot handle1) 30 _ (reach_coherent _ _ _ handle1_reach)).
Defined.

Lemma status_events_witness :
  length (warnings (log (snapshot handle2))) = 1
  /\ concat (observed handle2) = muts ≫= mutation_events 20.
Proof.
  split; [vm_compute; reflexivity|].
  apply (status_events_exact handle2 _ [] handle2_reach). reflexivity.
Defined.
