(* ===== verification/Text.v ===== *)
(** * ASCII text

    The string operations of the Rust standard library the engine uses, on ASCII
    strings: a [string] is a sequence of bytes below 128, for which characters and
    bytes coincide and Unicode case and white space are the ASCII ones. *)

From Stdlib Require Import Ascii String.
From S2P Require Import Prelude.

Definition code (c : ascii) : nat := nat_of_ascii c.

Definition is_upper (c : ascii) : bool := (65 <=? code c) && (code c <=? 90).
Definition is_lower (c : ascii) : bool := (97 <=? code c) && (code c <=? 122).
Definition is_digit (c : ascii) : bool := (48 <=? code c) && (code c <=? 57).
Definition is_whitespace (c : ascii) : bool := ((9 <=? code c) && (code c <=? 13)) || (code c =? 32).

Definition to_lower (c : ascii) : ascii := if is_upper c then ascii_of_nat (code c + 32) else c.
Definition to_upper (c : ascii) : ascii := if is_lower c then ascii_of_nat (code c - 32) else c.

Definition chars (s : string) : list ascii := list_ascii_of_string s.
Definition of_chars (l : list ascii) : string := string_of_list_ascii l.

Definition to_ascii_lowercase (s : string) : string := of_chars (List.map to_lower (chars s)).
Definition to_ascii_uppercase (s : string) : string := of_chars (List.map to_upper (chars s)).
Definition eq_ignore_ascii_case (a b : string) : bool :=
  bool_decide (to_ascii_lowercase a = to_ascii_lowercase b).

Fixpoint skip_while (f : ascii -> bool) (l : list ascii) : list ascii :=
  match l with
  | [] => []
  | c :: l' => if f c then skip_while f l' else l
  end.

Definition trim_start (l : list ascii) : list ascii := skip_while is_whitespace l.
Definition trim_end (l : list ascii) : list ascii := rev (skip_while is_whitespace (rev l)).
Definition trim (s : string) : string := of_chars (trim_end (trim_start (chars s))).

(** ** Lemmas *)

Lemma of_chars_chars s : of_chars (chars s) = s.
Proof. apply string_of_list_ascii_of_string. Qed.

Lemma chars_of_chars l : chars (of_chars l) = l.
Proof. apply list_ascii_of_string_of_list_ascii. Qed.

Lemma skip_while_idemp f l : skip_while f (skip_while f l) = skip_while f l.
Proof. induction l as [|c l IH]; [done|]. simpl. destruct (f c) eqn:Hc; [done|]. simpl. by rewrite Hc. Qed.

(** A string that starts with a kept character is kept. *)
Lemma skip_while_head f l :
  skip_while f l = match l with c :: _ => if f c then skip_while f l else l | [] => [] end.
Proof. destruct l as [|c l]; [done|]. simpl. by destruct (f c). Qed.

Lemma skip_while_suffix f l : exists p, l = p ++ skip_while f l /\ Forall (fun c => f c = true) p.
Proof.
  induction l as [|c l (p & Hp & Hall)]; [by exists []|]. simpl. destruct (f c) eqn:Hc.
  - exists (c :: p). simpl. split; [by f_equal|by constructor].
  - by exists [].
Qed.

(** Trimming the end keeps a start without white space. *)
Lemma skip_while_trim_end l :
  skip_while is_whitespace l = l -> trim_start (trim_end l) = trim_end l.
Proof.
  intros Hl. unfold trim_start, trim_end.
  destruct (skip_while_suffix is_whitespace (rev l)) as (p & Hp & _).
  destruct (rev (skip_while is_whitespace (rev l))) as [|c m] eqn:Hm; [done|].
  assert (l = (c :: m) ++ rev p) as Heq.
  { rewrite <- (rev_involutive l), Hp, rev_app_distr. by rewrite Hm. }
  simpl. destruct (is_whitespace c) eqn:Hc; [|done]. exfalso.
  rewrite Heq in Hl. simpl in Hl. rewrite Hc in Hl.
  destruct (skip_while_suffix is_whitespace (m ++ rev p)) as (p' & Hp' & _).
  apply (f_equal length) in Hl, Hp'. simpl in Hl. rewrite (length_app p') in Hp'. lia.
Qed.

Lemma trim_idemp s : trim (trim s) = trim s.
Proof.
  unfold trim. rewrite chars_of_chars. f_equal.
  rewrite skip_while_trim_end by apply skip_while_idemp.
  unfold trim_end. by rewrite rev_involutive, skip_while_idemp.
Qed.
