(* ===== verification/Subscription.v ===== *)
(** * Subscription state

    [SubscriptionState] of [engine/state/subscription.rs]: the table of a
    subscription's fields (names, indices, observed kinds), its immutable layout and
    the operations that grow and seed it.  Bloomberg interns names, one address per
    text: a name key is the text.  The parallel vectors of kinds and provisional flags
    are one list of pairs.  Indexing outside the table, which panics in the source, is
    excluded by [table_ok]. *)

From Stdlib Require Import Ascii String ZArith Lia.
From S2P Require Import Prelude Text Update.
Local Open Scope string_scope.

(** [n as u16] *)
Definition as_u16 (n : nat) : nat := Z.to_nat (wrap_u 16 (Z.of_nat n)).

(** An [Arc<FieldLayout>]: its address and what it points to. *)
Record SharedLayout : Type := mkShared { layout_addr : nat; layout_of : FieldLayout }.

Record FieldTable : Type := mkTable {
  field_strings : list string;
  field_name_keys : gmap string nat;
  requested_fields : list bool;
  field_kinds : list (FieldKind * bool);
  layout_version : Z;
  string_value_cache : list StringValueCache
}.

(** Per-position cache of the fields of an all-fields subscription. *)
Inductive AllFieldSlot : Type :=
| Captured (key : string) (idx : nat) (datatype : DataType)
| Skipped (key : string) (datatype : DataType).

Record SubscriptionState : Type := mkSub {
  sub_topic : string;
  sub_topic_id : nat;
  table : FieldTable;
  all_field_slots : list (option AllFieldSlot);
  sub_layout : FieldLayout;
  projection_source : option SharedLayout;
  projection_version : Z;
  projection_indices : list (option nat);
  capture_all_fields : bool;
  mktdata_service : bool;
  subscription_data_index : option nat;
  event_type_index : nat;
  event_subtype_index : nat;
  subscription_data_type_cache : list (option (nat * string));
  has_received_data : bool;
  messages_received : Z;
  last_message_us : Z;
  slow_consumer : bool;
  data_loss_events : Z;
  last_data_loss_us : Z
}.

Definition set_table (st : SubscriptionState) (t : FieldTable) : SubscriptionState :=
  mkSub (sub_topic st) (sub_topic_id st) t (all_field_slots st) (sub_layout st)
    (projection_source st) (projection_version st) (projection_indices st) (capture_all_fields st)
    (mktdata_service st) (subscription_data_index st) (event_type_index st) (event_subtype_index st)
    (subscription_data_type_cache st) (has_received_data st) (messages_received st)
    (last_message_us st) (slow_consumer st) (data_loss_events st) (last_data_loss_us st).

Definition set_slots (st : SubscriptionState) (l : list (option AllFieldSlot)) : SubscriptionState :=
  mkSub (sub_topic st) (sub_topic_id st) (table st) l (sub_layout st)
    (projection_source st) (projection_version st) (projection_indices st) (capture_all_fields st)
    (mktdata_service st) (subscription_data_index st) (event_type_index st) (event_subtype_index st)
    (subscription_data_type_cache st) (has_received_data st) (messages_received st)
    (last_message_us st) (slow_consumer st) (data_loss_events st) (last_data_loss_us st).

Definition set_layout (st : SubscriptionState) (l : FieldLayout) : SubscriptionState :=
  mkSub (sub_topic st) (sub_topic_id st) (table st) (all_field_slots st) l
    (projection_source st) (projection_version st) (projection_indices st) (capture_all_fields st)
    (mktdata_service st) (subscription_data_index st) (event_type_index st) (event_subtype_index st)
    (subscription_data_type_cache st) (has_received_data st) (messages_received st)
    (last_message_us st) (slow_consumer st) (data_loss_events st) (last_data_loss_us st).

Definition set_projection (st : SubscriptionState) (src : option SharedLayout) (v : Z)
  (ix : list (option nat)) : SubscriptionState :=
  mkSub (sub_topic st) (sub_topic_id st) (table st) (all_field_slots st) (sub_layout st)
    src v ix (capture_all_fields st)
    (mktdata_service st) (subscription_data_index st) (event_type_index st) (event_subtype_index st)
    (subscription_data_type_cache st) (has_received_data st) (messages_received st)
    (last_message_us st) (slow_consumer st) (data_loss_events st) (last_data_loss_us st).

Definition forget_projection (st : SubscriptionState) : SubscriptionState :=
  set_projection st None (projection_version st) (projection_indices st).

Definition set_type_cache (st : SubscriptionState) (l : list (option (nat * string)))
  : SubscriptionState :=
  mkSub (sub_topic st) (sub_topic_id st) (table st) (all_field_slots st) (sub_layout st)
    (projection_source st) (projection_version st) (projection_indices st) (capture_all_fields st)
    (mktdata_service st) (subscription_data_index st) (event_type_index st) (event_subtype_index st)
    l (has_received_data st) (messages_received st)
    (last_message_us st) (slow_consumer st) (data_loss_events st) (last_data_loss_us st).

Definition set_metrics (st : SubscriptionState) (received : bool) (messages last : Z) (slow : bool)
  (losses lost_at : Z) : SubscriptionState :=
  mkSub (sub_topic st) (sub_topic_id st) (table st) (all_field_slots st) (sub_layout st)
    (projection_source st) (projection_version st) (projection_indices st) (capture_all_fields st)
    (mktdata_service st) (subscription_data_index st) (event_type_index st) (event_subtype_index st)
    (subscription_data_type_cache st) received messages last slow losses lost_at.

(** ** The field table *)

(** [layout_version.wrapping_add(1).max(1)] *)
Definition bump (v : Z) : Z := Z.max (u32_wrapping_add v 1) 1.

Definition set_kinds (t : FieldTable) (ks : list (FieldKind * bool)) (v : Z) : FieldTable :=
  mkTable (field_strings t) (field_name_keys t) (requested_fields t) ks v (string_value_cache t).

Definition set_string_cache (t : FieldTable) (c : list StringValueCache) : FieldTable :=
  mkTable (field_strings t) (field_name_keys t) (requested_fields t) (field_kinds t)
    (layout_version t) c.

(** Apply a kind operation to one field; the version moves when the layout must. *)
Definition change_kind (f : FieldKind * bool -> (FieldKind * bool) * bool) (t : FieldTable)
  (idx : nat) : FieldTable :=
  match field_kinds t !! idx with
  | Some k =>
      let '(k', changed) := f k in
      set_kinds t (<[idx := k']> (field_kinds t))
        (if changed then bump (layout_version t) else layout_version t)
  | None => t
  end.

Definition seed_kind (t : FieldTable) (idx : nat) (kind : FieldKind) : FieldTable :=
  change_kind (fun k => seed_hint k kind) t idx.

Definition observe_field_kind (t : FieldTable) (idx : nat) (observed : FieldKind) : FieldTable :=
  change_kind (fun k => observe k observed) t idx.

Definition observe_kind (t : FieldTable) (idx : nat) (v : UpdateValue) : FieldTable :=
  observe_field_kind t idx (from_value v).

Definition append_field (t : FieldTable) (name : string) : FieldTable * nat :=
  let idx := as_u16 (length (field_strings t)) in
  (mkTable (field_strings t ++ [name])%list (<[name := idx]> (field_name_keys t))
     (requested_fields t ++ [false])%list (field_kinds t ++ [(KUnknown, false)])%list
     (bump (layout_version t)) (string_value_cache t ++ [None])%list, idx).

(** [push_field_if_new], used while the state is built: the version is not counted. *)
Definition push_field_if_new (t : FieldTable) (name : string) : FieldTable * nat :=
  match field_name_keys t !! name with
  | Some idx => (t, idx)
  | None =>
      let idx := as_u16 (length (field_strings t)) in
      (mkTable (field_strings t ++ [name])%list (<[name := idx]> (field_name_keys t))
         (requested_fields t ++ [true])%list (field_kinds t ++ [(KUnknown, false)])%list
         (layout_version t) (string_value_cache t ++ [None])%list, idx)
  end.

Definition build_layout (t : FieldTable) : FieldLayout :=
  mkLayout (layout_version t)
    (imap (fun idx '(name, (kind, provisional)) => mkMeta name (as_u16 idx) kind provisional)
       (zip (field_strings t) (field_kinds t))).

(** ** Construction and growth *)

Definition EVENT_TYPE : string := "MKTDATA_EVENT_TYPE".
Definition EVENT_SUBTYPE : string := "MKTDATA_EVENT_SUBTYPE".
Definition SUBSCRIPTION_DATA_FIELD : string := "SUBSCRIPTION_DATA".

Definition table_empty : FieldTable := mkTable [] ∅ [] [] 1 [].

Definition sub_new (topic : string) (fields : list string) (capture_all : bool)
  : SubscriptionState :=
  let t := fold_left (fun t f => (push_field_if_new t f).1) fields table_empty in
  let '(t, et) := push_field_if_new t EVENT_TYPE in
  let '(t, es) := push_field_if_new t EVENT_SUBTYPE in
  let '(t, sd) :=
    if String.prefix "//blp/mktbar/" topic
    then let '(t, i) := push_field_if_new t SUBSCRIPTION_DATA_FIELD in (t, Some i)
    else (t, None) in
  mkSub topic 0 t [] (build_layout t) None 0 [] capture_all
    (negb (String.prefix "//" topic) || bool_decide (topic = "//blp/mktdata")
     || String.prefix "//blp/mktdata/" topic)
    sd et es (repeat None 4) false 0 0 false 0 0.

Definition refresh_layout (st : SubscriptionState) : SubscriptionState :=
  if decide (Update.layout_version (sub_layout st) = layout_version (table st)) then st
  else set_layout st (build_layout (table st)).

Definition set_topic_id (st : SubscriptionState) (id : nat) : SubscriptionState :=
  mkSub (sub_topic st) id (table st) (all_field_slots st) (sub_layout st)
    (projection_source st) (projection_version st) (projection_indices st) (capture_all_fields st)
    (mktdata_service st) (subscription_data_index st) (event_type_index st) (event_subtype_index st)
    (subscription_data_type_cache st) (has_received_data st) (messages_received st)
    (last_message_us st) (slow_consumer st) (data_loss_events st) (last_data_loss_us st).

Definition set_label (st : SubscriptionState) (label : string) : SubscriptionState :=
  mkSub label (sub_topic_id st) (table st) (all_field_slots st) (sub_layout st)
    (projection_source st) (projection_version st) (projection_indices st) (capture_all_fields st)
    (mktdata_service st) (subscription_data_index st) (event_type_index st) (event_subtype_index st)
    (subscription_data_type_cache st) (has_received_data st) (messages_received st)
    (last_message_us st) (slow_consumer st) (data_loss_events st) (last_data_loss_us st).

Definition set_mode (st : SubscriptionState) (all mktdata : bool) : SubscriptionState :=
  mkSub (sub_topic st) (sub_topic_id st) (table st) (all_field_slots st) (sub_layout st)
    (projection_source st) (projection_version st) (projection_indices st) all
    mktdata (subscription_data_index st) (event_type_index st) (event_subtype_index st)
    (subscription_data_type_cache st) (has_received_data st) (messages_received st)
    (last_message_us st) (slow_consumer st) (data_loss_events st) (last_data_loss_us st).

Definition set_service (st : SubscriptionState) (service : string) : SubscriptionState :=
  set_mode st (capture_all_fields st) (bool_decide (trim service = "//blp/mktdata")).

Definition enable_all_fields (st : SubscriptionState) : SubscriptionState :=
  forget_projection (set_mode st true (mktdata_service st)).

(** One field of [add_fields]. *)
Definition add_field (st : SubscriptionState) (field : string) : SubscriptionState :=
  let '(st, idx) :=
    match field_name_keys (table st) !! field with
    | Some idx => (st, idx)
    | None =>
        let '(t, idx) := append_field (table st) field in (forget_projection (set_table st t), idx)
    end in
  let t := table st in
  set_table st (mkTable (field_strings t) (field_name_keys t) (<[idx := true]> (requested_fields t))
                  (field_kinds t) (layout_version t) (string_value_cache t)).

Definition add_fields (st : SubscriptionState) (fields : list string) : SubscriptionState :=
  refresh_layout (fold_left add_field fields st).

(** One index of [seed_kinds]. *)
Definition seed_one (kinds : gmap string FieldKind) (t : FieldTable) (idx : nat) : FieldTable :=
  match field_kinds t !! idx, field_strings t !! idx ≫= fun n => kinds !! n with
  | Some (KUnknown, _), Some kind => seed_kind t (as_u16 idx) kind
  | _, _ => t
  end.

Definition seed_kinds (st : SubscriptionState) (kinds : gmap string FieldKind) : SubscriptionState :=
  refresh_layout
    (set_table st (fold_left (seed_one kinds) (seq 0 (length (field_strings (table st)))) (table st))).
