(* ===== verification/Decoder.v ===== *)
(** * Decoding subscription messages

    [SubscriptionState::on_message] of [engine/state/subscription.rs] and what it
    calls: the extraction of requested fields (by name, or by the children of a sparse
    message), of all fields with its per-position cache, and the delivery of the
    update.  An SDK element is the list of its children and whether indexed access to
    each works; what the stream answers (closed, field-error handler, accepted) is an
    argument. *)

From Stdlib Require Import Ascii String ZArith Lia SpecFloat Sorting.
From stdpp Require Import sorting pretty.
From S2P Require Import Prelude Text Errors Update Subscription.
Local Open Scope string_scope.

(** ** SDK messages *)

(** [xbbg_core::Value]; a datetime is its microseconds. *)
Inductive Value : Type :=
| BNull
| BBool (b : bool)
| BInt32 (v : Z)
| BInt64 (v : Z)
| BFloat64 (v : spec_float)
| BString (s : string)
| BDate32 (v : Z)
| BTimestampMicros (v : Z)
| BTime64Micros (v : Z)
| BDatetime (micros : Z)
| BEnum (s : string)
| BByte (v : Z).

(** [ch_value] is what [get_value_fast_with_datatype] reads at the child's type. *)
Record Child : Type := mkChild {
  ch_name : string;
  ch_is_array : bool;
  ch_datatype : DataType;
  ch_value : option Value;
  ch_is_null : bool
}.

Record Element : Type := mkElement {
  el_name : string;
  el_children : list Child;
  el_indexed : nat -> bool
}.

Definition elem_get (e : Element) (name : string) : option Child :=
  List.find (fun c => bool_decide (ch_name c = name)) (el_children e).

Definition elem_get_at (e : Element) (i : nat) : option Child :=
  if el_indexed e i then el_children e !! i else None.

(** The element, the message type with its key, and the receive time. *)
Record Message : Type := mkMessage {
  m_elements : Element;
  m_type_key : nat;
  m_type : string;
  m_received_us : option Z
}.

(** What the stream answers during one message. *)
Record StreamEnv : Type := mkStreamEnv {
  stream_closed : bool;
  stream_is_callback : bool;
  field_handler : bool;
  stream_accepts : bool;
  system_time_us : Z
}.

(** ** Values *)

Definition should_capture_datatype (d : DataType) : bool :=
  match d with DtSequence | DtChoice | DtByteArray | DtCorrelationId => false | _ => true end.

(** The [Debug] text of a type. *)
Definition datatype_debug (d : DataType) : string :=
  match d with
  | DtBool => "Bool" | DtChar => "Char" | DtByte => "Byte" | DtInt32 => "Int32"
  | DtInt64 => "Int64" | DtFloat32 => "Float32" | DtFloat64 => "Float64" | DtString => "String"
  | DtByteArray => "ByteArray" | DtDate => "Date" | DtTime => "Time" | DtDecimal => "Decimal"
  | DtDatetime => "Datetime" | DtEnumeration => "Enumeration" | DtSequence => "Sequence"
  | DtChoice => "Choice" | DtCorrelationId => "CorrelationId"
  end.

Definition from_blp_with_str_cache (v : Value) (cache : option StringValueCache)
  : UpdateValue * option StringValueCache :=
  match v with
  | BNull => (VNull, cache)
  | BBool b => (VBool b, cache)
  | BInt32 v => (VI32 v, cache)
  | BInt64 v => (VI64 v, cache)
  | BFloat64 v => (VF64 v, cache)
  | BString s | BEnum s => let '(s, cache) := cached_str s cache in (VStr s, cache)
  | BDate32 v => (VDate32 v, cache)
  | BTimestampMicros v | BDatetime v => (VTimestampMicros v, cache)
  | BTime64Micros v => (VTime64Micros v, cache)
  | BByte v => (VI32 v, cache)
  end.

Definition unsupported_shape (c : Child) : BlpError :=
  SchemaUnsupported (ch_name c) "subscription fields must be top-level scalar values".

Definition update_value_for_field (t : FieldTable) (idx : nat) (c : Child) (d : DataType)
  : FieldTable * result UpdateValue BlpError :=
  let value :=
    match ch_value c with
    | Some v => Some v
    | None => if ch_is_null c then Some BNull else None
    end in
  match value with
  | None =>
      (t, Err (SchemaUnsupported (default "" (field_strings t !! idx))
                 ("cannot decode non-null Bloomberg " ++ datatype_debug d ++ " scalar")))
  | Some v =>
      let '(v, cache) := from_blp_with_str_cache v (string_value_cache t !! idx) in
      let t := match cache with
               | Some c => set_string_cache t (<[idx := c]> (string_value_cache t))
               | None => t
               end in
      (match v with VNull => observe_field_kind t (as_u16 idx) (from_blp_datatype d) | _ => t end, Ok v)
  end.

(** ** Requested fields *)

(** Errors reported to the field-error handler, with their [scalar] flag. *)
Definition Reports : Type := list (BlpError * bool).

(** One field: nothing to push, a value, or a failure of the message. *)
Definition Step : Type := FieldTable * Reports * result (option UpdateValue) BlpError.

(** [report_field_error]: consumed by the handler, or fatal. *)
Definition report (handler : bool) (t : FieldTable) (e : BlpError) (scalar : bool) : Step :=
  if handler then (t, [(e, scalar)], Ok None) else (t, [], Err e).

Definition decode_scalar (handler : bool) (t : FieldTable) (idx : nat) (c : Child) : Step :=
  match update_value_for_field t idx c (ch_datatype c) with
  | (t, Ok v) => (t, [], Ok (Some v))
  | (t, Err e) => report handler t e true
  end.

Definition decode_requested (handler : bool) (t : FieldTable) (idx : nat) (c : Child) : Step :=
  if ch_is_array c || negb (should_capture_datatype (ch_datatype c))
  then report handler t (unsupported_shape c) false
  else decode_scalar handler t idx c.

(** Push a value and observe its kind. *)
Definition push_value (t : FieldTable) (idx : nat) (v : UpdateValue) (values : list UpdateField)
  : FieldTable * list UpdateField :=
  (observe_kind t idx v, values ++ [mkField idx v])%list.

(** A table, the reports and the values or the failure of a message. *)
Definition Extracted : Type := FieldTable * Reports * result (list UpdateField) BlpError.

(** Sparse messages: the children found among the requested names, by index;
    [None] is projected metadata.  [None] as a whole keeps the lookup by name. *)
Definition Selection : Type := list (nat * option Child).

Fixpoint select_children (keys : gmap string nat) (sd : option nat) (e : Element) (is_ : list nat)
  (selected : Selection) : option Selection :=
  match is_ with
  | [] => Some selected
  | i :: is_ =>
      match elem_get_at e i with
      | None => None
      | Some child =>
          match keys !! ch_name child with
          | None => select_children keys sd e is_ selected
          | Some idx =>
              select_children keys sd e is_
                (if decide (Some idx = sd) then selected else selected ++ [(idx, Some child)])%list
          end
      end
  end.

Definition selection_le (a b : nat * option Child) : Prop := a.1 <= b.1.

#[export] Instance selection_le_dec a b : Decision (selection_le a b).
Proof. unfold selection_le. apply _. Defined.
#[export] Instance selection_le_trans : Transitive selection_le.
Proof. unfold selection_le. intros ? ? ? ? ?. lia. Qed.
#[export] Instance selection_le_total : Total selection_le.
Proof. unfold selection_le. intros ? ?. lia. Qed.

Definition select_present_requested_fields (st : SubscriptionState) (e : Element)
  (has_subscription_data : bool) : option Selection :=
  let n := Z.of_nat (length (field_strings (table st))) in
  if (n <=? 8)%Z || (65536 <? n)%Z then None
  else
    let projected := if has_subscription_data then subscription_data_index st else None in
    let children := length (el_children e) in
    if (8 - (if decide (projected = None) then 0 else 1) <? children)%nat
       || (n <? Z.of_nat children * 2)%Z
    then None
    else
      merge_sort selection_le <$>
        select_children (field_name_keys (table st)) (subscription_data_index st) e (seq 0 children)
          (match projected with Some idx => [(idx, None)] | None => [] end).

(** The loop over positions, in the selection or in the table. *)
Fixpoint requested_loop (handler : bool) (sd_index : option nat) (selected : option Selection)
  (e : Element) (sd : option string) (positions : list nat) (t : FieldTable) (rs : Reports)
  (values : list UpdateField) : Extracted :=
  match positions with
  | [] => (t, rs, Ok values)
  | position :: positions =>
      let continue_ t rs values :=
        requested_loop handler sd_index selected e sd positions t rs values in
      let '(idx, selected_field) :=
        match selected with
        | Some fields => default (position, None) (fields !! position)
        | None => (position, None)
        end in
      let push t rs v :=
        let '(t, values) := push_value t (as_u16 idx) v values in continue_ t rs values in
      if decide (Some (as_u16 idx) = sd_index) then
        match sd with
        | None => continue_ t rs values
        | Some s => push t rs (VStr s)
        end
      else
        let field :=
          match selected_field with
          | Some c => Some c
          | None => field_strings t !! idx ≫= elem_get e
          end in
        match field with
        | None => continue_ t rs values
        | Some c =>
            match decode_requested handler t idx c with
            | (t, rs', Ok None) => continue_ t (rs ++ rs')%list values
            | (t, rs', Ok (Some v)) => push t (rs ++ rs')%list v
            | (t, rs', Err err) => (t, (rs ++ rs')%list, Err err)
            end
        end
  end.

Definition extract_requested_with (selected : option Selection) (handler : bool)
  (st : SubscriptionState) (e : Element) (sd : option string) : Extracted :=
  let count := match selected with
               | Some fields => length fields
               | None => length (field_strings (table st))
               end in
  requested_loop handler (subscription_data_index st) selected e sd (seq 0 count) (table st) [] [].

Definition extract_requested_fields (handler : bool) (st : SubscriptionState) (e : Element)
  (sd : option string) : Extracted :=
  extract_requested_with
    (select_present_requested_fields st e (bool_decide (sd <> None))) handler st e sd.

(** ** All fields *)

Definition is_requested_field (t : FieldTable) (key : string) : bool :=
  match field_name_keys t !! key with
  | Some idx => default false (requested_fields t !! idx)
  | None => false
  end.

Definition cache_all_field_slot (st : SubscriptionState) (i : nat) (slot : AllFieldSlot)
  : SubscriptionState :=
  let slots := all_field_slots st in
  set_slots st (<[i := Some slot]> (slots ++ replicate (S i - length slots) None)%list).

Definition ensure_field_for_child (st : SubscriptionState) (c : Child) : SubscriptionState * nat :=
  match field_name_keys (table st) !! ch_name c with
  | Some idx => (st, idx)
  | None =>
      let '(t, idx) := append_field (table st) (ch_name c) in
      (set_table (forget_projection st) t, idx)
  end.

(** The state, the reports, and the value to push with its index or a failure. *)
Definition AllStep : Type :=
  SubscriptionState * Reports * result (option (nat * UpdateValue)) BlpError.

(** A child of a shape that is not captured matters only when it was requested. *)
Definition reject_child (handler : bool) (st : SubscriptionState) (c : Child) : AllStep :=
  if is_requested_field (table st) (ch_name c) then
    if handler then (st, [(unsupported_shape c, false)], Ok None)
    else (st, [], Err (unsupported_shape c))
  else (st, [], Ok None).

Definition capture_child (handler : bool) (st : SubscriptionState) (idx : nat) (c : Child)
  : AllStep :=
  let '(t, rs, r) := decode_scalar handler (table st) idx c in
  match r with
  | Ok None => (set_table st t, rs, Ok None)
  | Ok (Some v) => (set_table st (observe_kind t idx v), rs, Ok (Some (idx, v)))
  | Err e => (set_table st t, rs, Err e)
  end.

(** A child that no cached slot describes. *)
Definition learn_child (handler : bool) (st : SubscriptionState) (i : nat) (c : Child) : AllStep :=
  let d := ch_datatype c in
  if should_capture_datatype d then
    let '(st, idx) := ensure_field_for_child st c in
    let st := cache_all_field_slot st i (Captured (ch_name c) idx d) in
    capture_child handler st idx c
  else
    match reject_child handler st c with
    | (st, rs, Ok r) => (cache_all_field_slot st i (Skipped (ch_name c) d), rs, Ok r)
    | failed => failed
    end.

#[export] Instance DataType_eq_dec : EqDecision DataType.
Proof. solve_decision. Defined.

Definition all_child (handler : bool) (st : SubscriptionState) (i : nat) (c : Child) : AllStep :=
  if ch_is_array c then reject_child handler st c
  else
    let here key d := bool_decide (key = ch_name c) && bool_decide (d = ch_datatype c) in
    match all_field_slots st !! i with
    | Some (Some (Captured key idx d)) =>
        if here key d then capture_child handler st idx c else learn_child handler st i c
    | Some (Some (Skipped key d)) =>
        if here key d then reject_child handler st c else learn_child handler st i c
    | _ => learn_child handler st i c
    end.

Definition ExtractedAll : Type := SubscriptionState * Reports * result (list UpdateField) BlpError.

Definition inaccessible (e : Element) (i : nat) : BlpError :=
  SchemaUnsupported (el_name e)
    ("Bloomberg reported " ++ pretty (length (el_children e)) ++ " children but child "
     ++ pretty i ++ " was inaccessible").

Fixpoint all_loop (child : SubscriptionState -> nat -> Child -> AllStep) (e : Element)
  (is_ : list nat) (st : SubscriptionState) (rs : Reports) (values : list UpdateField)
  : ExtractedAll :=
  match is_ with
  | [] => (st, rs, Ok values)
  | i :: is_ =>
      match elem_get_at e i with
      | None => (st, rs, Err (inaccessible e i))
      | Some c =>
          match child st i c with
          | (st, rs', Ok None) => all_loop child e is_ st (rs ++ rs')%list values
          | (st, rs', Ok (Some (idx, v))) =>
              all_loop child e is_ st (rs ++ rs')%list (values ++ [mkField idx v])%list
          | (st, rs', Err err) => (st, (rs ++ rs')%list, Err err)
          end
      end
  end.

Definition push_subscription_data (st : SubscriptionState) (sd : option string)
  : SubscriptionState * list UpdateField :=
  match subscription_data_index st, sd with
  | Some idx, Some s =>
      (set_table st (observe_kind (table st) idx (VStr s)), [mkField idx (VStr s)])
  | _, _ => (st, [])
  end.

Definition extract_all_with (child : SubscriptionState -> nat -> Child -> AllStep)
  (st : SubscriptionState) (e : Element) (sd : option string) : ExtractedAll :=
  let '(st, values) := push_subscription_data st sd in
  all_loop child e (seq 0 (length (el_children e))) st [] values.

Definition extract_all_fields (handler : bool) (st : SubscriptionState) (e : Element)
  (sd : option string) : ExtractedAll :=
  extract_all_with (all_child handler) st e sd.

(** ** Messages *)

(** The text of the message type, by its key in a four-way cache. *)
Definition subscription_data_arc (st : SubscriptionState) (m : Message)
  : SubscriptionState * option string :=
  match subscription_data_index st with
  | None => (st, None)
  | Some _ =>
      let cache := subscription_data_type_cache st in
      match List.find (fun e => bool_decide (e.1 = m_type_key m)) (omap id cache) with
      | Some (_, text) => (st, Some text)
      | None =>
          (set_type_cache st
             (<[m_type_key m mod length cache := Some (m_type_key m, m_type m)]> cache),
           Some (m_type m))
      end
  end.

Definition is_str (v : UpdateValue) (s : string) : bool :=
  match v with VStr t => bool_decide (t = s) | _ => false end.

(** One field of [is_dataloss_update]. *)
Definition loss_scan (et es : nat) (sd : bool * bool) (f : UpdateField) : bool * bool :=
  let '(summary, dataloss) := sd in
  if decide (field_index f = et) then (is_str (field_value f) "SUMMARY", dataloss)
  else if decide (field_index f = es) then (summary, is_str (field_value f) "DATALOSS")
  else (summary, dataloss).

(** The last event type and the last subtype decide. *)
Definition is_dataloss_update (st : SubscriptionState) (values : list UpdateField) : bool :=
  let '(summary, dataloss) :=
    fold_left (loss_scan (event_type_index st) (event_subtype_index st)) values (false, false) in
  summary && dataloss.

Definition record_dataloss (st : SubscriptionState) (timestamp : option Z) : SubscriptionState :=
  set_metrics st (has_received_data st) (messages_received st) (last_message_us st) true
    (u64_wrapping_add (data_loss_events st) 1) (Z.max (default 0%Z timestamp) 0).

Definition dataloss_error (st : SubscriptionState) : BlpError :=
  SubscriptionDataLoss (sub_topic st) "Bloomberg reported DATALOSS; resubscribe for a fresh image".

Definition record_received (st : SubscriptionState) (timestamp : Z) : SubscriptionState * bool :=
  (set_metrics st true (u64_wrapping_add (messages_received st) 1) (wrap_u 64 timestamp)
     (slow_consumer st) (data_loss_events st) (last_data_loss_us st),
   negb (has_received_data st)).

Inductive MessageOutcome : Type := Normal (first_message : bool) | DataLoss | Closed.

(** What is handed to the stream: an update or a terminal error. *)
Definition Emitted : Type := option (result SubscriptionUpdate BlpError).

Definition has_requested_data (st : SubscriptionState) (values : list UpdateField) : bool :=
  existsb (fun f => negb (bool_decide (field_index f = event_type_index st))
                    && negb (bool_decide (field_index f = event_subtype_index st))) values.

Definition deliver_update (env : StreamEnv) (st : SubscriptionState) (u : SubscriptionUpdate)
  (suppress_empty : bool) : SubscriptionState * MessageOutcome * Emitted :=
  let '(st, first) := record_received st (timestamp_us u) in
  if suppress_empty && negb (capture_all_fields st) && negb (has_requested_data st (update_values u))
  then (st, Normal first, None)
  else (st, if stream_accepts env then Normal first else Closed, Some (Ok u)).

(** The part of [on_message] after the values are extracted. *)
Definition finish_message (env : StreamEnv) (m : Message) (x : ExtractedAll)
  : SubscriptionState * MessageOutcome * Emitted * Reports :=
  let '(st, rs, r) := x in
  let st := refresh_layout st in
  match r with
  | Err e => (st, Closed, Some (Err e), rs)
  | Ok values =>
      if is_dataloss_update st values
      then (record_dataloss st (m_received_us m), DataLoss, Some (Err (dataloss_error st)), rs)
      else
        let u := mkUpdate (default (system_time_us env) (m_received_us m)) (sub_topic_id st)
                   (sub_topic st) (sub_layout st) values in
        let '(st, o, em) :=
          deliver_update env st u (mktdata_service st && negb (stream_is_callback env)) in
        (st, o, em, rs)
  end.

Definition extract (env : StreamEnv) (st : SubscriptionState) (m : Message) (sd : option string)
  : ExtractedAll :=
  if capture_all_fields st then extract_all_fields (field_handler env) st (m_elements m) sd
  else let '(t, rs, r) := extract_requested_fields (field_handler env) st (m_elements m) sd in
       (set_table st t, rs, r).

Definition on_message (env : StreamEnv) (st : SubscriptionState) (m : Message)
  : SubscriptionState * MessageOutcome * Emitted * Reports :=
  if stream_closed env then (st, Closed, None, [])
  else
    let '(st, sd) := subscription_data_arc st m in
    finish_message env m (extract env st m sd).

(** ** Tables *)

(** Names and keys are inverse to each other and every column has the same length. *)
Record table_ok (t : FieldTable) : Prop := mkTableOk {
  ok_keys name idx : field_name_keys t !! name = Some idx <-> field_strings t !! idx = Some name;
  ok_bound : (Z.of_nat (length (field_strings t)) <= 65536)%Z
}.

(** Decoding a field changes kinds, versions and string caches, never the names. *)
Definition same_names (t t' : FieldTable) : Prop :=
  field_strings t' = field_strings t /\ field_name_keys t' = field_name_keys t
  /\ requested_fields t' = requested_fields t.

Lemma same_names_refl t : same_names t t.
Proof. done. Qed.

Lemma same_names_trans t1 t2 t3 : same_names t1 t2 -> same_names t2 t3 -> same_names t1 t3.
Proof. unfold same_names. intuition congruence. Qed.

Lemma change_kind_names f t idx : same_names t (change_kind f t idx).
Proof. unfold change_kind. destruct (_ !! idx); [|done]. by destruct (f _). Qed.

Lemma update_value_names t idx c d : same_names t (update_value_for_field t idx c d).1.
Proof.
  unfold update_value_for_field.
  destruct (match ch_value c with Some v => _ | None => _ end) as [b|]; [|done].
  destruct (from_blp_with_str_cache b _) as [v cache]. simpl.
  destruct cache, v; try done; (eapply same_names_trans; [|apply change_kind_names]); done.
Qed.

Lemma decode_scalar_names h t idx c : same_names t (decode_scalar h t idx c).1.1.
Proof.
  unfold decode_scalar, report. pose proof (update_value_names t idx c (ch_datatype c)) as Hn.
  destruct (update_value_for_field _ _ _ _) as [t' [v|e]]; [done|]. by destruct h.
Qed.

Lemma decode_requested_names h t idx c : same_names t (decode_requested h t idx c).1.1.
Proof.
  unfold decode_requested, report. destruct (_ || _); [by destruct h|apply decode_scalar_names].
Qed.

Lemma as_u16_small n : (Z.of_nat n < 65536)%Z -> as_u16 n = n.
Proof. intros Hn. unfold as_u16. rewrite wrap_u_small; lia. Qed.

(** ** The two ways to find requested fields *)

(** What a position contributes: a field index with the subscription data or the
    child it is decoded from. *)
Definition Source : Type := nat * (string + Child).

Definition resolve_entry (sd_index : option nat) (e : Element) (sd : option string) (names : list string)
  (entry : nat * option Child) : option Source :=
  let '(idx, selected_field) := entry in
  if decide (Some (as_u16 idx) = sd_index) then (fun s => (idx, inl s)) <$> sd
  else (fun c => (idx, inr c)) <$>
         match selected_field with
         | Some c => Some c
         | None => names !! idx ≫= elem_get e
         end.

(** The loop over resolved sources. *)
Fixpoint source_loop (handler : bool) (sources : list Source) (t : FieldTable) (rs : Reports)
  (values : list UpdateField) : Extracted :=
  match sources with
  | [] => (t, rs, Ok values)
  | (idx, s) :: sources =>
      let push t rs v :=
        let '(t, values) := push_value t (as_u16 idx) v values in source_loop handler sources t rs values in
      match s with
      | inl s => push t rs (VStr s)
      | inr c =>
          match decode_requested handler t idx c with
          | (t, rs', Ok None) => source_loop handler sources t (rs ++ rs')%list values
          | (t, rs', Ok (Some v)) => push t (rs ++ rs')%list v
          | (t, rs', Err err) => (t, (rs ++ rs')%list, Err err)
          end
      end
  end.

Definition entries (selected : option Selection) (positions : list nat) : Selection :=
  (fun p => match selected with
            | Some fields => default (p, None) (fields !! p)
            | None => (p, None)
            end) <$> positions.

Lemma requested_loop_sources h sdi selected e sd positions t rs values :
  requested_loop h sdi selected e sd positions t rs values
  = source_loop h (omap (resolve_entry sdi e sd (field_strings t)) (entries selected positions)) t rs values.
Proof.
  revert t rs values. induction positions as [|p ps IH]; intros t rs values; [done|].
  cbn [requested_loop entries fmap list_fmap omap list_omap]. fold (entries selected ps).
  destruct (match selected with Some fields => _ | None => _ end) as [idx o]. simpl.
  assert (forall t' rs' v, same_names t t' ->
    (let '(t'', values'') := push_value t' (as_u16 idx) v values in
     requested_loop h sdi selected e sd ps t'' rs' values'')
    = (let '(t'', values'') := push_value t' (as_u16 idx) v values in
       source_loop h (omap (resolve_entry sdi e sd (field_strings t)) (entries selected ps)) t'' rs' values''))
    as Hpush.
  { intros t' rs' v Hn. simpl. rewrite IH.
    by rewrite (proj1 (change_kind_names _ t' (as_u16 idx)) : field_strings (observe_kind t' (as_u16 idx) v) = _),
      (proj1 Hn). }
  case_decide; [destruct sd; simpl; [by apply Hpush|apply IH]|].
  destruct (match o with Some c => Some c | None => _ end) as [c|]; simpl; [|apply IH].
  pose proof (decode_requested_names h t idx c) as Hn.
  destruct (decode_requested h t idx c) as [[t' rs'] [[v|]|err]]; simpl in Hn |- *.
  - by apply Hpush.
  - rewrite IH. by destruct Hn as [-> _].
  - done.
Qed.

(** The children of an SDK sequence have distinct names. *)
Definition distinct_children (e : Element) : Prop := NoDup (ch_name <$> el_children e).

Lemma elem_get_iff e name c :
  distinct_children e -> elem_get e name = Some c <-> c ∈ el_children e /\ ch_name c = name.
Proof.
  unfold distinct_children, elem_get. intros Hd.
  induction (el_children e) as [|x l IH]; simpl; [split; [done|by intros [?%not_elem_of_nil _]]|].
  simpl in Hd. apply NoDup_cons in Hd as [Hx Hd]. specialize (IH Hd). case_bool_decide as Hn.
  - split; [intros [= ->]; split; [left|done]|]. intros [Hin Hc].
    apply elem_of_cons in Hin as [->|Hin]; [done|]. destruct Hx. rewrite Hn, <-Hc.
    by apply list_elem_of_fmap_2.
  - rewrite IH, elem_of_cons. split; [intros [? ?]; auto|]. intros [[->|?] ?]; [done|auto].
Qed.

(** What the selection is made of. *)
Lemma select_children_spec keys sdi e is_ acc sel :
  select_children keys sdi e is_ acc = Some sel ->
  sel = (acc ++ omap (fun i => c ← el_children e !! i; idx ← keys !! ch_name c;
                       if decide (Some idx = sdi) then None else Some (idx, Some c)) is_)%list
  /\ Forall (fun i => is_Some (el_children e !! i)) is_.
Proof.
  revert acc. induction is_ as [|i is_ IH]; intros acc; simpl.
  { intros [= <-]. by rewrite app_nil_r. }
  unfold elem_get_at. destruct (el_indexed e i); [|done].
  destruct (el_children e !! i) as [c|] eqn:Hc; [|done]. simpl.
  destruct (keys !! ch_name c) as [idx|] eqn:Hk; simpl.
  - intros Hs. apply IH in Hs as [-> Hf].
    split; [|constructor; [by rewrite Hc|done]]. case_decide; [done|]. simpl.
    by rewrite <-app_assoc.
  - intros Hs. apply IH in Hs as [-> Hf]. split; [done|]. constructor; [by rewrite Hc|done].
Qed.

Definition child_entry (keys : gmap string nat) (sdi : option nat) (c : Child)
  : option (nat * option Child) :=
  idx ← keys !! ch_name c; if decide (Some idx = sdi) then None else Some (idx, Some c).

Lemma omap_of_fmap {A B C} (g : A -> B) (f : B -> option C) (l : list A) :
  omap f (g <$> l) = omap (fun x => f (g x)) l.
Proof. induction l as [|x l IH]; [done|]. csimpl. by rewrite IH. Qed.

Lemma omap_seq_lookup {A B} (f : A -> option B) (l : list A) :
  omap (fun i => l !! i ≫= f) (seq 0 (length l)) = omap f l.
Proof.
  induction l as [|x l IH]; [done|]. cbn [length seq]. csimpl.
  rewrite <-(fmap_S_seq 0), omap_of_fmap. csimpl. by rewrite IH.
Qed.

(** Entries of the selection: the projected metadata and the requested children. *)
Lemma selection_members st e has sel x :
  select_present_requested_fields st e has = Some sel ->
  x ∈ sel <->
  (has = true /\ x.2 = None /\ subscription_data_index st = Some x.1)
  \/ exists c, c ∈ el_children e /\ field_name_keys (table st) !! ch_name c = Some x.1
       /\ Some x.1 <> subscription_data_index st /\ x.2 = Some c.
Proof.
  unfold select_present_requested_fields. destruct (_ || _); [done|]. destruct (_ || _); [done|].
  intros Hs. apply fmap_Some in Hs as (raw & Hraw & ->).
  apply select_children_spec in Hraw as [-> _].
  rewrite (merge_sort_Permutation selection_le), elem_of_app.
  change (omap _ (seq 0 _)) with
    (omap (fun i => el_children e !! i ≫= child_entry (field_name_keys (table st))
                      (subscription_data_index st)) (seq 0 (length (el_children e)))).
  rewrite omap_seq_lookup, list_elem_of_omap. destruct x as [idx o]. simpl.
  apply Morphisms_Prop.or_iff_morphism.
  - destruct has; [|set_solver]. destruct (subscription_data_index st) as [i|]; [|set_solver].
    rewrite list_elem_of_singleton. naive_solver.
  - unfold child_entry. split.
    + intros (c & Hc & Hx). destruct (_ !! ch_name c) as [i|] eqn:Hk; simpl in Hx; [|done].
      case_decide; [done|]. simplify_eq. eauto 10.
    + intros (c & Hc & Hk & Hne & ->). exists c. split; [done|]. rewrite Hk. simpl.
      by rewrite decide_False.
Qed.

(** ** The selection is the lookup by name *)

Definition before {B} (x y : nat * B) : Prop := x.1 < y.1.

Lemma before_asym {B} (x y : nat * B) : before x y -> before y x -> False.
Proof. unfold before. lia. Qed.

Lemma sorted_omap {B C} (f : nat * B -> option (nat * C)) l :
  (forall x y, f x = Some y -> y.1 = x.1) ->
  StronglySorted before l -> StronglySorted before (omap f l).
Proof.
  intros Hf. induction 1 as [|x l Hs IH Hx]; [constructor|]. csimpl.
  destruct (f x) as [y|] eqn:Hy; [|done]. constructor; [done|].
  apply Forall_forall. intros z (w & Hw & Hz)%list_elem_of_omap. rewrite Forall_forall in Hx.
  unfold before. rewrite (Hf _ _ Hy), (Hf _ _ Hz). by apply Hx.
Qed.

Lemma sorted_le_before {B} (l : list (nat * B)) :
  StronglySorted (fun a b => a.1 <= b.1) l -> NoDup l.*1 -> StronglySorted before l.
Proof.
  induction 1 as [|x l Hs IH Hx]; intros Hd; [constructor|]. csimpl in Hd.
  apply NoDup_cons in Hd as [Hn Hd]. constructor; [auto|].
  rewrite Forall_forall in *. intros y Hy. specialize (Hx y Hy). unfold before.
  destruct (decide (x.1 = y.1)) as [He|]; [|lia]. destruct Hn. rewrite He.
  by apply list_elem_of_fmap_2.
Qed.

Section Selection.
Variable st : SubscriptionState.
Hypothesis Ht : table_ok (table st).
Hypothesis Hsdi : forall i, subscription_data_index st = Some i ->
  i < length (field_strings (table st)).
Let n := length (field_strings (table st)).

Lemma index_u16 i : i < n -> as_u16 i = i.
Proof. intros Hi. apply as_u16_small. pose proof (ok_bound _ Ht). unfold n in Hi. lia. Qed.

Lemma selection_sorted e has sel :
  distinct_children e -> select_present_requested_fields st e has = Some sel ->
  StronglySorted before sel.
Proof.
  unfold select_present_requested_fields. intros Hd. destruct (_ || _); [done|].
  destruct (_ || _); [done|]. intros Hs. apply fmap_Some in Hs as (raw & Hraw & ->).
  apply select_children_spec in Hraw as [-> _].
  change (omap _ (seq 0 _)) with
    (omap (fun i => el_children e !! i ≫= child_entry (field_name_keys (table st))
                      (subscription_data_index st)) (seq 0 (length (el_children e)))).
  rewrite omap_seq_lookup. apply sorted_le_before.
  { apply (StronglySorted_merge_sort selection_le). }
  rewrite (merge_sort_Permutation selection_le), fmap_app. apply NoDup_app. split; [|split].
  - destruct has; [|constructor]. destruct (subscription_data_index st); repeat constructor; set_solver.
  - intros i Hi (x & -> & Hx)%list_elem_of_fmap. apply list_elem_of_omap in Hx as (c & _ & Hx).
    unfold child_entry in Hx. destruct (_ !! ch_name c); simpl in Hx; [|done]. case_decide; [done|].
    simplify_eq/=. destruct has; [|set_solver]. destruct (subscription_data_index st); set_solver.
  - unfold distinct_children in Hd. induction (el_children e) as [|c l IH]; [constructor|].
    csimpl in *. apply NoDup_cons in Hd as [Hc Hd].
    destruct (child_entry _ _ c) as [[i o]|] eqn:He; [|auto]. csimpl. constructor; [|auto].
    intros (x & -> & Hx)%list_elem_of_fmap. apply list_elem_of_omap in Hx as (c' & Hc' & Hx).
    unfold child_entry in He, Hx.
    destruct (_ !! ch_name c) as [j|] eqn:Hk; simpl in He; [|done]. case_decide; [done|].
    destruct (_ !! ch_name c') as [j'|] eqn:Hk'; simpl in Hx; [|done]. case_decide; [done|].
    simplify_eq/=. apply (ok_keys _ Ht) in Hk, Hk'. rewrite Hk in Hk'. simplify_eq.
    destruct Hc. rewrite Hk'. by apply list_elem_of_fmap_2.
Qed.

(** What a message contributes: the subscription data, and every child that is
    requested, under its index. *)
Definition contributes (e : Element) (sd : option string) (x : Source) : Prop :=
  (Some x.1 = subscription_data_index st /\ exists s, sd = Some s /\ x.2 = inl s)
  \/ (Some x.1 <> subscription_data_index st
      /\ exists c, c ∈ el_children e /\ field_strings (table st) !! x.1 = Some (ch_name c)
         /\ x.2 = inr c).

Lemma named_contributes e sd x :
  distinct_children e ->
  x ∈ omap (resolve_entry (subscription_data_index st) e sd (field_strings (table st)))
        (entries None (seq 0 n)) <-> contributes e sd x.
Proof.
  intros Hd. rewrite list_elem_of_omap. unfold contributes. destruct x as [idx src]. simpl. split.
  - intros ([i o] & Hi & Hr). unfold entries in Hi. apply list_elem_of_fmap in Hi as (j & [= -> ->] & Hj).
    apply elem_of_seq in Hj. unfold resolve_entry in Hr. rewrite index_u16 in Hr by lia. case_decide.
    + apply fmap_Some in Hr as (s & Hs & [= -> ->]). eauto.
    + right. apply fmap_Some in Hr as (c & Hc & [= -> ->]). split; [done|].
      apply bind_Some in Hc as (nm & Hn & Hc). apply elem_get_iff in Hc as [Hc <-]; [|done]. eauto.
  - intros H. assert (idx < n) as Hlt.
    { destruct H as [[H _]|(_ & c & _ & H & _)]; [by apply Hsdi|by eapply lookup_lt_Some]. }
    exists (idx, None). split; [apply list_elem_of_fmap; exists idx; split; [done|]; apply elem_of_seq; lia|].
    unfold resolve_entry. rewrite index_u16 by done.
    destruct H as [(H & s & -> & ->)|(H & c & Hc & Hn & ->)]; [by rewrite decide_True|].
    rewrite decide_False, Hn by done. simpl.
    by rewrite (proj2 (elem_get_iff e (ch_name c) c Hd)).
Qed.

Lemma selected_contributes e sd sel x :
  distinct_children e ->
  select_present_requested_fields st e (bool_decide (sd <> None)) = Some sel ->
  x ∈ omap (resolve_entry (subscription_data_index st) e sd (field_strings (table st))) sel
  <-> contributes e sd x.
Proof.
  intros Hd Hsel. rewrite list_elem_of_omap. unfold contributes. destruct x as [idx src]. simpl.
  assert (forall i c, field_name_keys (table st) !! ch_name c = Some i -> as_u16 i = i) as Hu.
  { intros i c Hk. apply (ok_keys _ Ht) in Hk. by eapply index_u16, lookup_lt_Some. }
  split.
  - intros ([i o] & Hi & Hr). apply (selection_members _ _ _ _ _ Hsel) in Hi. simpl in Hi.
    destruct Hi as [(_ & -> & Hi)|(c & Hc & Hk & Hne & ->)]; unfold resolve_entry in Hr.
    + rewrite index_u16, decide_True in Hr by auto. apply fmap_Some in Hr as (s & Hs & [= -> ->]). eauto.
    + rewrite (Hu _ _ Hk), decide_False in Hr by done. simplify_eq/=. right. split; [done|].
      exists c. split; [done|]. split; [by apply (ok_keys _ Ht)|done].
  - intros [(H & s & -> & ->)|(H & c & Hc & Hn & ->)].
    + exists (idx, None). split; [apply (selection_members _ _ _ _ _ Hsel); left; by rewrite bool_decide_true|].
      unfold resolve_entry. by rewrite index_u16, decide_True by auto.
    + apply (ok_keys _ Ht) in Hn. exists (idx, Some c). split.
      * apply (selection_members _ _ _ _ _ Hsel). right. eauto 10.
      * unfold resolve_entry. by rewrite (Hu _ _ Hn), decide_False.
Qed.

(** The sources found through a selection are those found by name. *)
Lemma selected_sources e sd sel :
  distinct_children e ->
  select_present_requested_fields st e (bool_decide (sd <> None)) = Some sel ->
  let sources entries := omap (resolve_entry (subscription_data_index st) e sd (field_strings (table st))) entries in
  sources (entries (Some sel) (seq 0 (length sel))) = sources (entries None (seq 0 n)).
Proof.
  intros Hd Hs sources. assert (entries (Some sel) (seq 0 (length sel)) = sel) as ->.
  { unfold entries. apply list_eq. intros i. rewrite list_lookup_fmap.
    destruct (decide (i < length sel)) as [Hi|Hi].
    - rewrite lookup_seq_lt, Nat.add_0_l by done. destruct (lookup_lt_is_Some_2 sel i Hi) as [x Hx].
      rewrite Hx. csimpl. f_equal. exact (f_equal (default (i, None)) Hx).
    - rewrite lookup_seq_ge, lookup_ge_None_2 by lia. done. }
  assert (forall x y, resolve_entry (subscription_data_index st) e sd (field_strings (table st)) x = Some y ->
          y.1 = x.1) as Hfst.
  { intros [idx o] y. unfold resolve_entry. intros H. repeat case_match; simplify_option_eq; done. }
  apply (strongly_sorted_ext before); [apply before_asym| | |].
  - by eapply sorted_omap, selection_sorted.
  - apply sorted_omap; [done|]. unfold entries. clear. generalize 0. induction n as [|m IH]; intros k; [constructor|].
    csimpl. constructor; [apply IH|]. apply Forall_forall.
    intros x (i & -> & Hi%elem_of_seq)%list_elem_of_fmap. unfold before. simpl. lia.
  - intros x. unfold sources. by rewrite selected_contributes, named_contributes.
Qed.

Lemma extract_requested_by_name handler e sd :
  distinct_children e ->
  extract_requested_fields handler st e sd = extract_requested_with None handler st e sd.
Proof.
  intros Hd. unfold extract_requested_fields.
  destruct (select_present_requested_fields _ _ _) as [sel|] eqn:Hsel; [|done].
  unfold extract_requested_with. rewrite !requested_loop_sources. f_equal.
  by apply selected_sources.
Qed.
End Selection.

(** ** The per-position cache is invisible *)

(** A child without the cache. *)
Definition all_child_plain (handler : bool) (st : SubscriptionState) (i : nat) (c : Child)
  : AllStep :=
  if ch_is_array c || negb (should_capture_datatype (ch_datatype c)) then reject_child handler st c
  else let '(st, idx) := ensure_field_for_child st c in capture_child handler st idx c.

Definition slot_ok (t : FieldTable) (s : AllFieldSlot) : Prop :=
  match s with
  | Captured key idx d => field_name_keys t !! key = Some idx /\ should_capture_datatype d = true
  | Skipped _ d => should_capture_datatype d = false
  end.

Definition slots_ok (st : SubscriptionState) : Prop :=
  forall i s, all_field_slots st !! i = Some (Some s) -> slot_ok (table st) s.

(** Keys are only ever added. *)
Definition keys_grow (t t' : FieldTable) : Prop := field_name_keys t ⊆ field_name_keys t'.

Lemma slot_ok_grow t t' s : keys_grow t t' -> slot_ok t s -> slot_ok t' s.
Proof. intros Hg. destruct s; [|done]. intros [Hk Hd]. split; [|done]. by eapply lookup_weaken. Qed.

Lemma same_names_grow t t' : same_names t t' -> keys_grow t t'.
Proof. unfold keys_grow. by intros (_ & -> & _). Qed.

Lemma slots_ok_grow st st' :
  all_field_slots st' = all_field_slots st -> keys_grow (table st) (table st') ->
  slots_ok st -> slots_ok st'.
Proof. intros Hs Hg Hok i s Hi. rewrite Hs in Hi. by eapply slot_ok_grow, Hok. Qed.

Lemma cache_slot_ok st i s : slots_ok st -> slot_ok (table st) s -> slots_ok (cache_all_field_slot st i s).
Proof.
  intros Hok Hs j s' Hj. unfold cache_all_field_slot in Hj. simpl in *.
  destruct (decide (i = j)) as [<-|Hne].
  - apply list_lookup_insert_Some in Hj as [(_ & [= ->] & _)|[? _]]; done.
  - rewrite list_lookup_insert_ne in Hj by done.
    apply lookup_app_Some in Hj as [Hj|[_ Hj]]; [by eapply Hok|].
    apply lookup_replicate in Hj as [? _]. done.
Qed.

(** The state without its caches. *)
Definition erase (st : SubscriptionState) : SubscriptionState :=
  set_type_cache (set_slots st []) [].

Definition with_erase (x : AllStep) : AllStep := let '(st, rs, r) := x in (erase st, rs, r).

Lemma reject_child_slots h st c : reject_child h (erase st) c = with_erase (reject_child h st c).
Proof. unfold reject_child. simpl. destruct (is_requested_field _ _); [|done]. by destruct h. Qed.

Lemma capture_child_slots h st idx c :
  capture_child h (erase st) idx c = with_erase (capture_child h st idx c).
Proof.
  unfold capture_child. simpl. by destruct (decode_scalar h (table st) idx c) as [[t rs] [[v|]|e]].
Qed.

Lemma reject_child_state h st c : (reject_child h st c).1.1 = st.
Proof. unfold reject_child. destruct (is_requested_field _ _); [|done]. by destruct h. Qed.

Lemma capture_child_grow h st idx c :
  all_field_slots (capture_child h st idx c).1.1 = all_field_slots st
  /\ same_names (table st) (table (capture_child h st idx c).1.1).
Proof.
  unfold capture_child. pose proof (decode_scalar_names h (table st) idx c) as Hn.
  destruct (decode_scalar h (table st) idx c) as [[t rs] [[v|]|e]]; simpl in *; split; try done.
  by eapply same_names_trans, change_kind_names.
Qed.

Lemma ensure_field_spec st c st' idx :
  ensure_field_for_child st c = (st', idx) ->
  ensure_field_for_child (erase st) c = (erase st', idx)
  /\ field_name_keys (table st') !! ch_name c = Some idx
  /\ keys_grow (table st) (table st') /\ all_field_slots st' = all_field_slots st.
Proof.
  unfold ensure_field_for_child, keys_grow. simpl.
  destruct (field_name_keys (table st) !! ch_name c) as [i|] eqn:Hk; intros [= <- <-]; simpl.
  - by repeat split.
  - rewrite lookup_insert_eq. repeat split. by apply insert_subseteq.
Qed.

(** A step with the cache is the plain step, and keeps the cache right. *)
Lemma all_child_reference h st i c :
  slots_ok st ->
  all_child_plain h (erase st) i c = with_erase (all_child h st i c)
  /\ slots_ok (all_child h st i c).1.1.
Proof.
  intros Hok. unfold all_child, all_child_plain. destruct (ch_is_array c) eqn:Ha; simpl.
  { by rewrite reject_child_slots, reject_child_state. }
  assert (
    (if negb (should_capture_datatype (ch_datatype c)) then reject_child h (erase st) c
     else let '(st, idx) := ensure_field_for_child (erase st) c in capture_child h st idx c)
    = with_erase (learn_child h st i c) /\ slots_ok (learn_child h st i c).1.1) as Hlearn.
  { unfold learn_child. destruct (should_capture_datatype (ch_datatype c)) eqn:Hd; simpl.
    - destruct (ensure_field_for_child st c) as [st' idx] eqn:He.
      destruct (ensure_field_spec _ _ _ _ He) as (-> & Hk & Hg & Hs).
      assert (slots_ok (cache_all_field_slot st' i (Captured (ch_name c) idx (ch_datatype c)))) as Hc.
      { apply cache_slot_ok; [by eapply slots_ok_grow|done]. }
      rewrite <-(capture_child_slots h (cache_all_field_slot st' i _) idx c). split; [done|].
      destruct (capture_child_grow h (cache_all_field_slot st' i (Captured (ch_name c) idx (ch_datatype c))) idx c)
        as [Hs' Hn].
      by eapply slots_ok_grow; [exact Hs'|apply same_names_grow, Hn|].
    - rewrite reject_child_slots. pose proof (reject_child_state h st c) as Hst.
      destruct (reject_child h st c) as [[st' rs] [r|e]]; simpl in *; subst st'; split; try done.
      by apply cache_slot_ok. }
  destruct (all_field_slots st !! i) as [[[key idx d|key d]|]|] eqn:Hi; try exact Hlearn;
    (destruct (bool_decide (key = ch_name c) && bool_decide (d = ch_datatype c)) eqn:Hh; [|exact Hlearn]);
    apply andb_true_iff in Hh as [->%bool_decide_eq_true ->%bool_decide_eq_true];
    specialize (Hok _ _ Hi) as Hslot; simpl in Hslot.
  - destruct Hslot as [Hk Hd]. rewrite Hd. simpl. unfold ensure_field_for_child. simpl. rewrite Hk.
    rewrite capture_child_slots. split; [done|].
    destruct (capture_child_grow h st idx c) as [Hs' Hn].
    by eapply slots_ok_grow; [exact Hs'|apply same_names_grow, Hn|].
  - rewrite Hslot. simpl. by rewrite reject_child_slots, reject_child_state.
Qed.

Definition with_erase_all (x : ExtractedAll) : ExtractedAll :=
  let '(st, rs, r) := x in (erase st, rs, r).

Lemma all_loop_reference h e is_ st rs values :
  slots_ok st ->
  all_loop (all_child_plain h) e is_ (erase st) rs values
  = with_erase_all (all_loop (all_child h) e is_ st rs values)
  /\ slots_ok (all_loop (all_child h) e is_ st rs values).1.1.
Proof.
  revert st rs values. induction is_ as [|i is_ IH]; intros st rs values Hok; simpl; [done|].
  destruct (elem_get_at e i) as [c|]; [|done].
  destruct (all_child_reference h st i c Hok) as [-> Hok'].
  destruct (all_child h st i c) as [[st' rs'] [[[idx v]|]|err]]; simpl in *; [by apply IH..|done].
Qed.

Lemma push_subscription_data_slots st sd :
  push_subscription_data (erase st) sd
  = (erase (push_subscription_data st sd).1, (push_subscription_data st sd).2).
Proof. unfold push_subscription_data. simpl. by destruct (subscription_data_index st), sd. Qed.

Lemma push_subscription_data_grow st sd :
  all_field_slots (push_subscription_data st sd).1 = all_field_slots st
  /\ same_names (table st) (table (push_subscription_data st sd).1).
Proof.
  unfold push_subscription_data. destruct (subscription_data_index st), sd; try done.
  split; [done|]. apply change_kind_names.
Qed.

Lemma extract_all_reference h st e sd :
  slots_ok st ->
  extract_all_with (all_child_plain h) (erase st) e sd
  = with_erase_all (extract_all_fields h st e sd)
  /\ slots_ok (extract_all_fields h st e sd).1.1.
Proof.
  intros Hok. unfold extract_all_fields, extract_all_with. rewrite push_subscription_data_slots.
  destruct (push_subscription_data_grow st sd) as [Hs Hn].
  destruct (push_subscription_data st sd) as [st' values]. simpl in *.
  apply all_loop_reference. by eapply slots_ok_grow; [exact Hs|apply same_names_grow|].
Qed.

(** Extraction leaves the settings and the type cache alone. *)
Definition same_frame (st st' : SubscriptionState) : Prop :=
  subscription_data_type_cache st' = subscription_data_type_cache st
  /\ capture_all_fields st' = capture_all_fields st
  /\ subscription_data_index st' = subscription_data_index st
  /\ sub_layout st' = sub_layout st
  /\ event_type_index st' = event_type_index st
  /\ event_subtype_index st' = event_subtype_index st
  /\ mktdata_service st' = mktdata_service st.

Lemma same_frame_refl st : same_frame st st.
Proof. done. Qed.

Lemma same_frame_trans st1 st2 st3 : same_frame st1 st2 -> same_frame st2 st3 -> same_frame st1 st3.
Proof. unfold same_frame. intuition congruence. Qed.

Lemma capture_child_frame h st idx c : same_frame st (capture_child h st idx c).1.1.
Proof. unfold capture_child. by destruct (decode_scalar _ _ _ _) as [[? ?] [[?|]|?]]. Qed.

Lemma reject_child_frame h st c : same_frame st (reject_child h st c).1.1.
Proof. by rewrite reject_child_state. Qed.

Lemma learn_child_frame h st i c : same_frame st (learn_child h st i c).1.1.
Proof.
  unfold learn_child. destruct (should_capture_datatype _).
  - destruct (ensure_field_for_child st c) as [st' idx] eqn:He. simpl.
    eapply same_frame_trans; [|apply capture_child_frame].
    unfold ensure_field_for_child in He. by destruct (_ !! _); simplify_eq/=.
  - pose proof (reject_child_frame h st c) as Hf. by destruct (reject_child h st c) as [[? ?] [?|?]].
Qed.

Lemma all_child_frame h st i c : same_frame st (all_child h st i c).1.1.
Proof.
  unfold all_child. destruct (ch_is_array c); [apply reject_child_frame|].
  destruct (_ !! i) as [[[]|]|];
    try destruct (_ && _);
    auto using reject_child_frame, capture_child_frame, learn_child_frame.
Qed.

Lemma all_child_plain_frame h st i c : same_frame st (all_child_plain h st i c).1.1.
Proof.
  unfold all_child_plain. destruct (_ || _); [apply reject_child_frame|].
  destruct (ensure_field_for_child st c) as [st' idx] eqn:He.
  eapply same_frame_trans; [|apply capture_child_frame].
  unfold ensure_field_for_child in He. by destruct (_ !! _); simplify_eq/=.
Qed.

Lemma all_loop_frame child e is_ st rs values :
  (forall st i c, same_frame st (child st i c).1.1) ->
  same_frame st (all_loop child e is_ st rs values).1.1.
Proof.
  intros Hchild. revert st rs values. induction is_ as [|i is_ IH]; intros st rs values; simpl; [done|].
  destruct (elem_get_at e i) as [c|]; [|done].
  pose proof (Hchild st i c) as Hf.
  destruct (child st i c) as [[st' rs'] [[[idx v]|]|err]]; simpl in *;
    [eapply same_frame_trans; [exact Hf|apply IH]..|done].
Qed.

Lemma extract_all_frame child st e sd :
  (forall st i c, same_frame st (child st i c).1.1) ->
  same_frame st (extract_all_with child st e sd).1.1.
Proof.
  intros Hchild. unfold extract_all_with.
  destruct (push_subscription_data st sd) as [st' values] eqn:Hp.
  eapply same_frame_trans; [|by apply all_loop_frame].
  unfold push_subscription_data in Hp. by destruct (subscription_data_index st), sd; simplify_eq/=.
Qed.

Lemma source_loop_names h sources t rs values : same_names t (source_loop h sources t rs values).1.1.
Proof.
  revert t rs values. induction sources as [|[idx s] sources IH]; intros t rs values; simpl; [done|].
  assert (forall t' rs' v, same_names t t' -> same_names t
    (source_loop h sources (observe_kind t' (as_u16 idx) v) rs' (values ++ [mkField (as_u16 idx) v])%list).1.1)
    as Hpush.
  { intros t' rs' v Hn. eapply same_names_trans; [exact Hn|].
    eapply same_names_trans; [apply change_kind_names|apply IH]. }
  destruct s as [s|c]; [by apply Hpush|]. pose proof (decode_requested_names h t idx c) as Hn.
  destruct (decode_requested h t idx c) as [[t' rs'] [[v|]|err]]; simpl in *;
    [by apply Hpush| |done].
  eapply same_names_trans; [exact Hn|apply IH].
Qed.

Lemma extract_requested_names h st e sd :
  same_names (table st) (extract_requested_fields h st e sd).1.1.
Proof. unfold extract_requested_fields, extract_requested_with. rewrite requested_loop_sources. apply source_loop_names. Qed.

(** ** Messages without caches *)

(** Every requested name is looked up, every child examined. *)
Definition extract_plain (env : StreamEnv) (st : SubscriptionState) (m : Message)
  (sd : option string) : ExtractedAll :=
  if capture_all_fields st
  then extract_all_with (all_child_plain (field_handler env)) st (m_elements m) sd
  else let '(t, rs, r) := extract_requested_with None (field_handler env) st (m_elements m) sd in
       (set_table st t, rs, r).

Definition on_message_plain (env : StreamEnv) (st : SubscriptionState) (m : Message)
  : SubscriptionState * MessageOutcome * Emitted * Reports :=
  if stream_closed env then (st, Closed, None, [])
  else
    let sd := (fun _ => m_type m) <$> subscription_data_index st in
    finish_message env m (extract_plain env st m sd).

(** What a session does with a subscription between and on messages. *)
Inductive DecoderOp : Type :=
| OnMessage (env : StreamEnv) (m : Message)
| AddFields (fields : list string)
| SeedKinds (kinds : gmap string FieldKind)
| EnableAllFields
| SetTopicId (id : nat)
| SetLabel (label : string)
| SetService (service : string).

Definition Output : Type := MessageOutcome * Emitted * Reports.

Definition decode_op (step : StreamEnv -> SubscriptionState -> Message ->
    SubscriptionState * MessageOutcome * Emitted * Reports)
  (st : SubscriptionState) (op : DecoderOp) : SubscriptionState * list Output :=
  match op with
  | OnMessage env m => let '(st, o, em, rs) := step env st m in (st, [(o, em, rs)])
  | AddFields fields => (add_fields st fields, [])
  | SeedKinds kinds => (seed_kinds st kinds, [])
  | EnableAllFields => (enable_all_fields st, [])
  | SetTopicId id => (set_topic_id st id, [])
  | SetLabel label => (set_label st label, [])
  | SetService service => (set_service st service, [])
  end.

(** The outputs of a sequence of operations. *)
Fixpoint decode_run (step : StreamEnv -> SubscriptionState -> Message ->
    SubscriptionState * MessageOutcome * Emitted * Reports)
  (st : SubscriptionState) (ops : list DecoderOp) : list Output :=
  match ops with
  | [] => []
  | op :: ops =>
      let '(st, outs) := decode_op step st op in (outs ++ decode_run step st ops)%list
  end.

(** How many names an operation requests. *)
Definition added (op : DecoderOp) : nat :=
  match op with AddFields fields => length fields | _ => 0 end.

(** ** New subscriptions *)

(** A property the fields keep one by one holds of the table of a new subscription. *)
Lemma sub_new_table (P : FieldTable -> Prop) topic fields all :
  P table_empty -> (forall t name, P t -> P (push_field_if_new t name).1) ->
  P (table (sub_new topic fields all)).
Proof.
  intros H0 Hp. unfold sub_new.
  assert (forall t, P t -> P (fold_left (fun t f => (push_field_if_new t f).1) fields t)) as Hf.
  { induction fields as [|f fields IH]; intros t Ht; simpl; [done|]. by apply IH, Hp. }
  specialize (Hf _ H0). set (t0 := fold_left _ _ _) in *.
  pose proof (Hp t0 EVENT_TYPE Hf) as H1. destruct (push_field_if_new t0 EVENT_TYPE) as [t1 et].
  pose proof (Hp t1 EVENT_SUBTYPE H1) as H2. destruct (push_field_if_new t1 EVENT_SUBTYPE) as [t2 es].
  pose proof (Hp t2 SUBSCRIPTION_DATA_FIELD H2) as H3.
  destruct (String.prefix _ _); [|done]. by destruct (push_field_if_new t2 _) as [t3 sd].
Qed.

Lemma sub_new_size topic fields all :
  length (field_strings (table (sub_new topic fields all))) <= length fields + 3.
Proof.
  assert (forall t name, length (field_strings (push_field_if_new t name).1)
                         <= S (length (field_strings t))) as Hp.
  { intros t name. unfold push_field_if_new. destruct (_ !! name); simpl; [lia|].
    rewrite length_app. simpl. lia. }
  unfold sub_new.
  assert (forall t, length (field_strings (fold_left (fun t f => (push_field_if_new t f).1) fields t))
                    <= length fields + length (field_strings t)) as Hf.
  { induction fields as [|f fields IH]; intros t; simpl; [lia|].
    specialize (IH (push_field_if_new t f).1). specialize (Hp t f). lia. }
  specialize (Hf table_empty). set (t0 := fold_left _ _ _) in *. simpl in Hf.
  pose proof (Hp t0 EVENT_TYPE) as H1. destruct (push_field_if_new t0 EVENT_TYPE) as [t1 et].
  pose proof (Hp t1 EVENT_SUBTYPE) as H2. destruct (push_field_if_new t1 EVENT_SUBTYPE) as [t2 es].
  pose proof (Hp t2 SUBSCRIPTION_DATA_FIELD) as H3. simpl in *.
  destruct (String.prefix _ _); [destruct (push_field_if_new t2 _) as [t3 sd]|]; simpl in *; lia.
Qed.

(** A new name at the end keeps names and keys inverse. *)
Lemma snoc_table_ok t t' name :
  field_strings t' = (field_strings t ++ [name])%list ->
  field_name_keys t' = <[name := as_u16 (length (field_strings t))]> (field_name_keys t) ->
  field_name_keys t !! name = None -> table_ok t ->
  (Z.of_nat (length (field_strings t')) <= 65536)%Z -> table_ok t'.
Proof.
  intros Hs Hk Hn [Hkeys Hb] Hl. split; [|done]. rewrite Hs, length_app in Hl. simpl in Hl.
  intros nm idx. rewrite Hk, Hs, as_u16_small by lia. destruct (decide (nm = name)) as [->|Hne].
  - rewrite lookup_insert_eq, lookup_snoc_Some. split.
    + intros [= <-]. by right.
    + intros [[_ H]|[-> _]]; [|done]. apply Hkeys in H. congruence.
  - rewrite lookup_insert_ne by done. rewrite Hkeys, lookup_snoc_Some. split.
    + intros H. left. split; [by eapply lookup_lt_Some|done].
    + intros [[_ H]|[_ H]]; [done|congruence].
Qed.

Lemma push_new_ok t name :
  ((Z.of_nat (length (field_strings t)) <= 65536)%Z -> table_ok t) ->
  (Z.of_nat (length (field_strings (push_field_if_new t name).1)) <= 65536)%Z ->
  table_ok (push_field_if_new t name).1.
Proof.
  unfold push_field_if_new. intros Hok. destruct (field_name_keys t !! name) as [i|] eqn:Hk; [done|].
  intros Hn. apply (snoc_table_ok t _ name); try done. apply Hok. simpl in Hn.
  rewrite length_app in Hn. lia.
Qed.

Lemma sub_new_ok topic fields all :
  (Z.of_nat (length fields) + 3 <= 65536)%Z ->
  table_ok (table (sub_new topic fields all)).
Proof.
  intros Hn. pose proof (sub_new_size topic fields all) as Hs.
  apply (sub_new_table (fun t => (Z.of_nat (length (field_strings t)) <= 65536)%Z -> table_ok t));
    [|apply push_new_ok|lia].
  intros _. split; simpl; [|lia]. intros name idx. rewrite lookup_empty, lookup_nil. done.
Qed.

Lemma sub_new_data_index topic fields all i :
  subscription_data_index (sub_new topic fields all) = Some i ->
  field_name_keys (table (sub_new topic fields all)) !! SUBSCRIPTION_DATA_FIELD = Some i.
Proof.
  unfold sub_new. set (t0 := fold_left _ _ _). destruct (push_field_if_new t0 EVENT_TYPE) as [t1 et].
  destruct (push_field_if_new t1 EVENT_SUBTYPE) as [t2 es].
  destruct (String.prefix _ _); [|done]. unfold push_field_if_new.
  destruct (field_name_keys t2 !! SUBSCRIPTION_DATA_FIELD) as [k|] eqn:Hk; simpl; intros [= <-];
    [done|apply lookup_insert_eq].
Qed.

Section Caches.
(** The text interned under a key. *)
Variable type_of : nat -> string.

Record decoder_ok (st : SubscriptionState) : Prop := mkDecoderOk {
  dec_slots : slots_ok st;
  dec_types k s : Some (k, s) ∈ subscription_data_type_cache st -> s = type_of k;
  dec_table : capture_all_fields st = false ->
    table_ok (table st)
    /\ forall i, subscription_data_index st = Some i -> i < length (field_strings (table st))
}.

Definition message_ok (op : DecoderOp) : Prop :=
  match op with
  | OnMessage _ m => distinct_children (m_elements m) /\ m_type m = type_of (m_type_key m)
  | _ => True
  end.

Lemma subscription_data_arc_ok st m st' sd :
  decoder_ok st -> m_type m = type_of (m_type_key m) -> subscription_data_arc st m = (st', sd) ->
  sd = (fun _ => m_type m) <$> subscription_data_index st /\ decoder_ok st'
  /\ erase st' = erase st /\ capture_all_fields st' = capture_all_fields st.
Proof.
  intros Hok Hm. unfold subscription_data_arc.
  destruct (subscription_data_index st) as [i|] eqn:Hi; [|by intros [= <- <-]]. simpl.
  destruct (List.find _ _) as [[k s]|] eqn:Hf; intros [= <- <-].
  - apply List.find_some in Hf as [Hin Hk%bool_decide_eq_true]. simpl in Hk. subst k.
    apply list_elem_of_In, list_elem_of_omap in Hin as (x & Hx & Hs). unfold id in Hs. subst x.
    rewrite (dec_types st Hok _ _ Hx), Hm. done.
  - split; [done|]. split; [|done]. destruct Hok as [Hs Ht Hn]. split; simpl; [done| |].
    + intros k s Hin. apply list_elem_of_lookup in Hin as [j Hj].
      apply list_lookup_insert_Some in Hj as [(_ & He & _)|[_ Hj]]; [by simplify_eq|].
      eapply Ht, list_elem_of_lookup_2, Hj.
    + rewrite Hi. by rewrite Hi in Hn.
Qed.

Lemma finish_message_erase env m st rs r :
  finish_message env m (erase st, rs, r)
  = (let '(st', o, em, rs') := finish_message env m (st, rs, r) in (erase st', o, em, rs')).
Proof.
  unfold finish_message, refresh_layout. simpl.
  destruct (decide _), r as [values|err]; try done; simpl;
    (change (is_dataloss_update _ values) with (is_dataloss_update st values);
     destruct (is_dataloss_update st values); [done|]);
    unfold deliver_update; simpl;
    (change (has_requested_data _ values) with (has_requested_data st values);
     by destruct (_ && _ && _)).
Qed.

(** Finishing a message leaves the caches and the table alone. *)
Lemma finish_message_state env m st rs r :
  let st' := (finish_message env m (st, rs, r)).1.1.1 in
  all_field_slots st' = all_field_slots st /\ table st' = table st
  /\ subscription_data_type_cache st' = subscription_data_type_cache st
  /\ capture_all_fields st' = capture_all_fields st
  /\ subscription_data_index st' = subscription_data_index st.
Proof.
  unfold finish_message, refresh_layout. destruct (decide _), r as [values|err]; try done; simpl;
    (destruct (is_dataloss_update _ values); [done|]); unfold deliver_update; simpl;
    by destruct (_ && _ && _).
Qed.
(** Extraction with the caches is extraction without them. *)
Lemma extract_reference env st m sd :
  decoder_ok st -> distinct_children (m_elements m) ->
  extract_plain env (erase st) m sd = with_erase_all (extract env st m sd).
Proof.
  intros Hok Hd. unfold extract, extract_plain.
  change (capture_all_fields (erase st)) with (capture_all_fields st). destruct (capture_all_fields st) eqn:Hc.
  - apply extract_all_reference, Hok.
  - destruct (dec_table st Hok Hc) as [Ht Hi]. rewrite extract_requested_by_name by done.
    change (extract_requested_with None (field_handler env) (erase st) (m_elements m) sd)
      with (extract_requested_with None (field_handler env) st (m_elements m) sd).
    by destruct (extract_requested_with _ _ _ _ _) as [[t rs] r].
Qed.
Lemma extract_ok env st m sd : decoder_ok st -> decoder_ok (extract env st m sd).1.1.
Proof.
  intros Hok. unfold extract. destruct (capture_all_fields st) eqn:Hc.
  - destruct (extract_all_frame (all_child (field_handler env)) st (m_elements m) sd)
      as (Ht & Ha & Hi & _); [apply all_child_frame|].
    fold (extract_all_fields (field_handler env) st (m_elements m) sd) in Ht, Ha, Hi.
    split; [by apply extract_all_reference, Hok| |].
    + intros k s. rewrite Ht. apply Hok.
    + rewrite Ha, Hc. done.
  - pose proof (extract_requested_names (field_handler env) st (m_elements m) sd) as (Hs & Hk & _).
    destruct (dec_table st Hok Hc) as [Htab Hi].
    destruct (extract_requested_fields _ _ _ _) as [[t rs] r]. simpl in *. split; simpl.
    + intros i s Hin. eapply slot_ok_grow; [|by eapply (dec_slots st Hok)].
      unfold keys_grow. simpl. by rewrite Hk.
    + apply Hok.
    + intros _. rewrite Hs. split; [|done]. destruct Htab as [H1 H2].
      split; [intros name idx; rewrite Hk, Hs; apply H1|by rewrite Hs].
Qed.

Lemma finish_message_ok env m st rs r :
  decoder_ok st -> decoder_ok (finish_message env m (st, rs, r)).1.1.1.
Proof.
  intros [H1 H2 H3]. destruct (finish_message_state env m st rs r) as (Hs & Ht & Hc & Ha & Hi).
  split.
  - unfold slots_ok. rewrite Hs, Ht. exact H1.
  - rewrite Hc. exact H2.
  - rewrite Ha, Ht, Hi. exact H3.
Qed.

(** One message, with and without the caches. *)
Lemma on_message_reference env st m :
  decoder_ok st -> message_ok (OnMessage env m) ->
  on_message_plain env (erase st) m
  = (let '(st', o, em, rs) := on_message env st m in (erase st', o, em, rs))
  /\ decoder_ok (on_message env st m).1.1.1.
Proof.
  intros Hok [Hd Hm]. unfold on_message, on_message_plain. destruct (stream_closed env); [done|].
  destruct (subscription_data_arc st m) as [st1 sd] eqn:Harc.
  destruct (subscription_data_arc_ok st m st1 sd Hok Hm Harc) as (-> & Hok1 & He & Hc).
  change (subscription_data_index (erase st)) with (subscription_data_index st).
  rewrite <-He. rewrite (extract_reference env st1 m _ Hok1 Hd).
  pose proof (extract_ok env st1 m ((fun _ => m_type m) <$> subscription_data_index st) Hok1) as Hok2.
  destruct (extract env st1 m _) as [[st2 rs] r]. simpl in Hok2.
  split; [apply finish_message_erase|by apply finish_message_ok].
Qed.

(** Adding and seeding fields does not look at the caches either. *)
Lemma refresh_layout_erase st : refresh_layout (erase st) = erase (refresh_layout st).
Proof. unfold refresh_layout. simpl. by destruct (decide _). Qed.

Lemma add_field_erase st f : add_field (erase st) f = erase (add_field st f).
Proof. unfold add_field. simpl. by destruct (field_name_keys (table st) !! f). Qed.

Lemma add_fields_erase st fields : add_fields (erase st) fields = erase (add_fields st fields).
Proof.
  unfold add_fields. rewrite <-refresh_layout_erase. f_equal. revert st.
  induction fields as [|f fields IH]; intros st; simpl; [done|]. by rewrite add_field_erase, IH.
Qed.

Lemma seed_kinds_erase st kinds : seed_kinds (erase st) kinds = erase (seed_kinds st kinds).
Proof. unfold seed_kinds. by rewrite <-refresh_layout_erase. Qed.

(** What an operation other than a message leaves of the state. *)
Record grown (st st' : SubscriptionState) : Prop := mkGrown {
  grown_slots : all_field_slots st' = all_field_slots st;
  grown_types : subscription_data_type_cache st' = subscription_data_type_cache st;
  grown_mode : capture_all_fields st = true -> capture_all_fields st' = true;
  grown_index : subscription_data_index st' = subscription_data_index st;
  grown_keys : keys_grow (table st) (table st');
  grown_length : length (field_strings (table st)) <= length (field_strings (table st'));
  grown_table : table_ok (table st) ->
    (Z.of_nat (length (field_strings (table st'))) <= 65536)%Z -> table_ok (table st')
}.

Lemma grown_refl st : grown st st.
Proof. split; unfold keys_grow; done. Qed.

Lemma grown_trans st1 st2 st3 : grown st1 st2 -> grown st2 st3 -> grown st1 st3.
Proof.
  intros [S1 T1 M1 I1 K1 L1 O1] [S2 T2 M2 I2 K2 L2 O2].
  split; try congruence; try lia; [auto|unfold keys_grow in *; by etrans|].
  intros Ht Hl. apply O2; [|done]. apply O1; [done|lia].
Qed.

Lemma grown_same st st' :
  all_field_slots st' = all_field_slots st ->
  subscription_data_type_cache st' = subscription_data_type_cache st ->
  (capture_all_fields st = true -> capture_all_fields st' = true) ->
  subscription_data_index st' = subscription_data_index st ->
  same_names (table st) (table st') -> grown st st'.
Proof.
  intros Hs Ht Hm Hi (Hn & Hk & _). split; try done.
  - unfold keys_grow. by rewrite Hk.
  - by rewrite Hn.
  - intros [H1 H2] _. split; [|by rewrite Hn]. intros name idx. rewrite Hk, Hn. apply H1.
Qed.

Lemma refresh_layout_grown st : grown st (refresh_layout st).
Proof. unfold refresh_layout. destruct (decide _); [apply grown_refl|by apply grown_same]. Qed.

Lemma add_field_grown st f : grown st (add_field st f).
Proof.
  unfold add_field. destruct (field_name_keys (table st) !! f) as [i|] eqn:Hk.
  - split; try done; [by unfold keys_grow|]. intros [H1 H2] _. by split.
  - simpl. split; simpl; try done.
    + by apply insert_subseteq.
    + rewrite length_app. lia.
    + intros Hok Hl. by apply (snoc_table_ok (table st) _ f).
Qed.

Lemma add_fields_grown st fields : grown st (add_fields st fields).
Proof.
  unfold add_fields. eapply grown_trans; [|apply refresh_layout_grown].
  revert st. induction fields as [|f fields IH]; intros st; simpl; [apply grown_refl|].
  eapply grown_trans; [apply add_field_grown|apply IH].
Qed.

Lemma seed_one_names kinds t i : same_names t (seed_one kinds t i).
Proof.
  unfold seed_one. destruct (field_kinds t !! i) as [[[] p]|]; try done.
  destruct (_ ≫= _); [apply change_kind_names|done].
Qed.

Lemma seed_kinds_names st kinds :
  same_names (table st) (table (seed_kinds st kinds))
  /\ capture_all_fields (seed_kinds st kinds) = capture_all_fields st.
Proof.
  assert (forall l t, same_names t (fold_left (seed_one kinds) l t)) as H.
  { induction l as [|i l IH]; intros t; simpl; [done|].
    eapply same_names_trans; [apply seed_one_names|apply IH]. }
  unfold seed_kinds, refresh_layout. by destruct (decide _); split; try apply H.
Qed.

Lemma seed_kinds_grown st kinds : grown st (seed_kinds st kinds).
Proof.
  apply grown_same; try apply seed_kinds_names; unfold seed_kinds, refresh_layout;
    by destruct (decide _).
Qed.

Lemma grown_ok st st' :
  grown st st' ->
  (capture_all_fields st' = false -> (Z.of_nat (length (field_strings (table st'))) <= 65536)%Z) ->
  decoder_ok st -> decoder_ok st'.
Proof.
  intros [S T M I K L O] Hl [H1 H2 H3]. split.
  - by eapply slots_ok_grow.
  - rewrite T. exact H2.
  - intros Hc. assert (capture_all_fields st = false) as Hc'.
    { destruct (capture_all_fields st); [|done]. by rewrite M in Hc. }
    destruct (H3 Hc') as [Ht Hi]. split; [by auto|]. rewrite I. intros i Hs. specialize (Hi i Hs). lia.
Qed.
Lemma add_field_size st f :
  length (field_strings (table (add_field st f))) <= S (length (field_strings (table st))).
Proof.
  unfold add_field. destruct (field_name_keys (table st) !! f); simpl; [lia|].
  rewrite length_app. simpl. lia.
Qed.

Lemma add_fields_size st fields :
  length (field_strings (table (add_fields st fields)))
  <= length (field_strings (table st)) + length fields.
Proof.
  assert (forall st, length (field_strings (table (fold_left add_field fields st)))
                     <= length (field_strings (table st)) + length fields) as H.
  { induction fields as [|f fields IH]; intros st0; simpl; [lia|].
    specialize (IH (add_field st0 f)). pose proof (add_field_size st0 f). lia. }
  specialize (H st). unfold add_fields, refresh_layout. by destruct (decide _).
Qed.

(** A message adds names only in all-fields mode. *)
Lemma on_message_keeps env st m :
  capture_all_fields (on_message env st m).1.1.1 = capture_all_fields st
  /\ (capture_all_fields st = false ->
      field_strings (table (on_message env st m).1.1.1) = field_strings (table st)).
Proof.
  unfold on_message. destruct (stream_closed env); [done|].
  destruct (subscription_data_arc st m) as [st1 sd] eqn:Harc.
  assert (capture_all_fields st1 = capture_all_fields st /\ table st1 = table st) as [<- <-].
  { unfold subscription_data_arc in Harc. destruct (subscription_data_index st); [|by simplify_eq].
    by destruct (List.find _ _) as [[? ?]|]; simplify_eq. }
  pose proof (extract_all_frame _ st1 (m_elements m) sd (all_child_frame (field_handler env)))
    as (_ & Ha & _).
  fold (extract_all_fields (field_handler env) st1 (m_elements m) sd) in Ha.
  pose proof (extract_requested_names (field_handler env) st1 (m_elements m) sd) as (Hs & _).
  unfold extract. destruct (capture_all_fields st1) eqn:Hc.
  - destruct (extract_all_fields _ _ _ _) as [[st2 rs] r].
    destruct (finish_message_state env m st2 rs r) as (_ & _ & _ & -> & _). simpl in *. by rewrite Ha.
  - destruct (extract_requested_fields _ _ _ _) as [[t rs] r].
    destruct (finish_message_state env m (set_table st1 t) rs r) as (_ & -> & _ & -> & _). done.
Qed.

(** The names a subscription knows and those it will be asked for fit its index type. *)
Definition fits (st : SubscriptionState) (ops : list DecoderOp) : Prop :=
  capture_all_fields st = false ->
  (Z.of_nat (length (field_strings (table st)) + list_sum (added <$> ops)) <= 65536)%Z.

(** One operation, with and without the caches. *)
Lemma decode_op_reference st op ops :
  decoder_ok st -> message_ok op -> fits st (op :: ops) ->
  decode_op on_message_plain (erase st) op
  = (let '(st', outs) := decode_op on_message st op in (erase st', outs))
  /\ decoder_ok (decode_op on_message st op).1 /\ fits (decode_op on_message st op).1 ops.
Proof.
  intros Hok Hm Hf. unfold fits in *.
  change (list_sum (added <$> op :: ops)) with (added op + list_sum (added <$> ops)) in Hf.
  generalize dependent (list_sum (added <$> ops)). intros n Hf.
  destruct op as [env m|fields|kinds| |id|label|service]; simpl in *;
    try by split_and!; [done|destruct Hok; by split|done].
  - destruct (on_message_reference env st m Hok Hm) as [Hr Hok'].
    pose proof (on_message_keeps env st m) as Hk. rewrite Hr.
    destruct (on_message env st m) as [[[st' o] em] rs]. simpl in *.
    split_and!; [done|done|]. intros Hc. destruct Hk as [Hk1 Hk2]. rewrite Hk1 in Hc.
    rewrite (Hk2 Hc). by apply Hf.
  - rewrite add_fields_erase. pose proof (add_fields_grown st fields) as Hg.
    pose proof (add_fields_size st fields).
    assert (capture_all_fields (add_fields st fields) = false -> capture_all_fields st = false) as Hc.
    { destruct (capture_all_fields st) eqn:E; [|done]. by rewrite (grown_mode _ _ Hg E). }
    split_and!; [done| |intros; specialize (Hf (Hc ltac:(done))); lia].
    eapply grown_ok; [exact Hg| |done]. intros. specialize (Hf (Hc ltac:(done))). lia.
  - rewrite seed_kinds_erase. destruct (seed_kinds_names st kinds) as [(Hs & _) Hc].
    rewrite Hs, Hc. split_and!; [done| |done].
    eapply grown_ok; [apply seed_kinds_grown| |done]. rewrite Hs, Hc. intros H. specialize (Hf H). lia.
Qed.

Lemma decode_run_reference ops st :
  decoder_ok st -> Forall message_ok ops -> fits st ops ->
  decode_run on_message st ops = decode_run on_message_plain (erase st) ops.
Proof.
  revert st. induction ops as [|op ops IH]; intros st Hok Hms Hf; [done|].
  apply Forall_cons in Hms as [Hm Hms].
  destruct (decode_op_reference st op ops Hok Hm Hf) as (Hr & Hok' & Hf').
  simpl. rewrite Hr. destruct (decode_op on_message st op) as [st' outs]. simpl in *.
  f_equal. by apply IH.
Qed.

Lemma sub_new_decoder_ok topic fields all :
  (Z.of_nat (length fields) + 3 <= 65536)%Z -> decoder_ok (sub_new topic fields all).
Proof.
  intros Hn. pose proof (sub_new_ok topic fields all Hn) as Ht.
  assert (all_field_slots (sub_new topic fields all) = []
    /\ subscription_data_type_cache (sub_new topic fields all) = repeat None 4) as [Hs Hc].
  { unfold sub_new. set (t0 := fold_left _ _ _). destruct (push_field_if_new t0 EVENT_TYPE) as [t1 et].
    destruct (push_field_if_new t1 EVENT_SUBTYPE) as [t2 es].
    destruct (String.prefix _ _); [|done]. by destruct (push_field_if_new t2 _). }
  split.
  - intros i s. rewrite Hs. by rewrite lookup_nil.
  - intros k s. rewrite Hc. simpl. rewrite !elem_of_cons, elem_of_nil. naive_solver.
  - intros _. split; [done|]. intros i Hi. apply sub_new_data_index, (ok_keys _ Ht) in Hi.
    by eapply lookup_lt_Some.
Qed.
End Caches.

(** C30: The decoder's caches are invisible.  Over any sequence of messages and of
    operations that add fields, seed kinds or switch to all fields, a new subscription
    answers, delivers and reports exactly what a decoder does that looks every requested
    field up by name, re-examines every child and reads the message type each time:
    the selection of sparse messages, the per-position field slots and the four-way
    type cache (with its evictions) change nothing.  The names must fit the 16-bit
    index, the children of a message have distinct names and a type key has one text. *)
Theorem decoder_caches_invisible type_of topic fields all ops :
  (Z.of_nat (length fields + 3 + list_sum (added <$> ops)) <= 65536)%Z ->
  Forall (message_ok type_of) ops ->
  decode_run on_message (sub_new topic fields all) ops
  = decode_run on_message_plain (erase (sub_new topic fields all)) ops.
Proof.
  intros Hn Hms. apply (decode_run_reference type_of); [|done|].
  - apply sub_new_decoder_ok. lia.
  - intros _. pose proof (sub_new_size topic fields all). lia.
Qed.

Definition sample_env : StreamEnv := mkStreamEnv false false true true 7.
Definition sample_child (name : string) (v : Z) : Child := mkChild name false DtInt32 (Some (BInt32 v)) false.
Definition sample_types (key : nat) : string := if decide (key = 0) then "MarketBarStart" else "MarketBarUpdate".
Definition sample_ops : list DecoderOp :=
  let m key cs := OnMessage sample_env
                    (mkMessage (mkElement "bar" cs (fun _ => true)) key (sample_types key) None) in
  [m 0 [sample_child "OPEN" 1; sample_child "HIGH" 2];
   m 4 [sample_child "HIGH" 3; mkChild "OPEN" true DtInt32 None false];
   AddFields ["LOW"]; m 0 [sample_child "HIGH" 4; sample_child "LOW" 1]; EnableAllFields;
   m 4 [sample_child "CLOSE" 5; sample_child "LOW" 6]; m 4 [sample_child "CLOSE" 7]].

Lemma decoder_caches_invisible_witness :
  decode_run on_message (sub_new "//blp/mktbar/ticker/IBM" ["OPEN"; "HIGH"] false) sample_ops
  = decode_run on_message_plain (erase (sub_new "//blp/mktbar/ticker/IBM" ["OPEN"; "HIGH"] false)) sample_ops.
Proof.
  apply (decoder_caches_invisible sample_types); [vm_compute; discriminate|].
  repeat constructor; unfold distinct_children; simpl; apply (bool_decide_unpack _); vm_compute; exact I.
Defined.
