(* ===== verification/DecoderTypes.v ===== *)
(** * Decoded updates are well typed

    Every update a subscription emits carries the layout that describes its values:
    each value has a column of its index, whose kind admits it.  The layout is rebuilt
    only when its version moved, so the proof counts how often a message moves it. *)

From Stdlib Require Import Ascii String ZArith Lia.
From S2P Require Import Prelude Errors Update Subscription Decoder.

(** ** Versions *)

Definition version_ok (v : Z) : Prop := (1 <= v < 2 ^ 32)%Z.

Lemma bump_ok v : version_ok v -> version_ok (bump v).
Proof.
  unfold version_ok, bump, u32_wrapping_add. intros Hv.
  pose proof (wrap_u_bound 32 (v + 1) ltac:(lia)). lia.
Qed.

(** The version after [n] changes: it goes round the positive [u32] values. *)
Lemma bump_iter n v :
  version_ok v -> Nat.iter n bump v = ((v - 1 + Z.of_nat n) mod (2 ^ 32 - 1) + 1)%Z.
Proof.
  intros Hv. unfold version_ok in Hv. induction n as [|n IH].
  - rewrite Z.mod_small by lia. cbn. lia.
  - simpl. rewrite IH.
    set (w := (v - 1 + Z.of_nat n)%Z).
    replace (v - 1 + Z.of_nat (S n))%Z with (w + 1)%Z by (unfold w; lia).
    pose proof (Z.mod_pos_bound w (2 ^ 32 - 1) ltac:(lia)) as Hb.
    rewrite <-Zplus_mod_idemp_l. unfold bump, u32_wrapping_add, wrap_u.
    set (r := (w mod (2 ^ 32 - 1))%Z) in *.
    destruct (decide (r = 2 ^ 32 - 2)%Z) as [->|]; [reflexivity|].
    rewrite !Z.mod_small by lia. lia.
Qed.

Lemma bump_iter_moves n v :
  version_ok v -> (Z.of_nat n < 2 ^ 32 - 1)%Z -> Nat.iter n bump v = v -> n = 0.
Proof.
  intros Hv Hn. rewrite (bump_iter n v Hv). unfold version_ok in Hv. intros He.
  assert ((v - 1 + Z.of_nat n) mod (2 ^ 32 - 1) = v - 1)%Z as Hm by lia.
  pose proof (Z.div_mod (v - 1 + Z.of_nat n) (2 ^ 32 - 1) ltac:(lia)) as Hd. rewrite Hm in Hd.
  assert (0 <= (v - 1 + Z.of_nat n) / (2 ^ 32 - 1))%Z by (apply Z.div_pos; lia). nia.
Qed.

(** ** What decoding does to a table *)

(** [moved n t t']: the version moved [n] times from [t] to [t'], and without a move
    the layout stays. *)
Record moved (n : nat) (t t' : FieldTable) : Prop := mkMoved {
  moved_version : layout_version t' = Nat.iter n bump (layout_version t);
  moved_same : n = 0 -> field_strings t' = field_strings t /\ field_kinds t' = field_kinds t
}.

Lemma moved_refl t : moved 0 t t.
Proof. by split. Qed.

Lemma moved_trans n m t1 t2 t3 : moved n t1 t2 -> moved m t2 t3 -> moved (n + m) t1 t3.
Proof.
  intros [V1 S1] [V2 S2]. split.
  - rewrite V2, V1, Nat.add_comm. clear. induction m; simpl; congruence.
  - intros Hz. assert (n = 0 /\ m = 0) as [-> ->] by lia.
    destruct (S1 eq_refl), (S2 eq_refl). split; congruence.
Qed.

(** A value its column admits: nulls fit any kind, a column of another kind is
    exposed as text. *)
Definition admits (k : FieldKind) (v : UpdateValue) : Prop :=
  from_value v = KUnknown \/ k = from_value v \/ k = KStr.

(** The column of a value has observed it. *)
Definition column_ok (t : FieldTable) (f : UpdateField) : Prop :=
  (Z.of_nat (field_index f) < 65536)%Z
  /\ exists k p, field_kinds t !! field_index f = Some (k, p)
    /\ (from_value (field_value f) = KUnknown \/ (p = false /\ admits k (field_value f))).

(** Every index a name has is a column. *)
Definition columns_cover (t : FieldTable) : Prop :=
  length (field_kinds t) = length (field_strings t)
  /\ forall name idx, field_name_keys t !! name = Some idx ->
      idx < length (field_kinds t) /\ (Z.of_nat idx < 65536)%Z.

(** A step of decoding: at most [n] moves, columns of earlier values still fit. *)
Record steps (n : nat) (t t' : FieldTable) : Prop := mkSteps {
  steps_moved : exists m, m <= n /\ moved m t t';
  steps_cover : columns_cover t -> columns_cover t';
  steps_columns f : column_ok t f -> column_ok t' f;
  steps_length : length (field_kinds t) <= length (field_kinds t')
}.

Lemma steps_refl t : steps 0 t t.
Proof. split; try done. exists 0. split; [done|apply moved_refl]. Qed.

Lemma steps_trans n m t1 t2 t3 : steps n t1 t2 -> steps m t2 t3 -> steps (n + m) t1 t3.
Proof.
  intros [(a & Ha & Ma) C1 F1 L1] [(b & Hb & Mb) C2 F2 L2]. split; [|auto|auto|lia].
  exists (a + b). split; [lia|by eapply moved_trans].
Qed.

Lemma steps_weaken n m t t' : n <= m -> steps n t t' -> steps m t t'.
Proof. intros Hn [(a & Ha & Ma) C F L]. split; try done. exists a. split; [lia|done]. Qed.

Lemma observe_unchanged k ob : (observe k ob).2 = false -> (observe k ob).1 = k.
Proof.
  destruct k as [k p]. unfold observe. case_decide; [done|]. simpl.
  destruct p; simpl; [by rewrite orb_true_r|]. rewrite orb_false_r. case_bool_decide; [|done].
  simpl. intros _. congruence.
Qed.

Lemma observe_keeps k p ob v :
  from_value v = KUnknown \/ (p = false /\ admits k v) ->
  from_value v = KUnknown \/ ((observe (k, p) ob).1.2 = false /\ admits (observe (k, p) ob).1.1 v).
Proof.
  intros [H|[-> Ha]]; [by left|]. right. unfold observe, admits in *. case_decide; [done|]. simpl.
  split; [done|]. unfold merge_observed. destruct Ha as [Ha|[->| ->]]; [by left| |].
  - destruct (from_value v), ob; simpl; auto.
  - destruct ob; simpl; auto.
Qed.

Lemma observe_admits k v : from_value v <> KUnknown ->
  (observe k (from_value v)).1.2 = false /\ admits (observe k (from_value v)).1.1 v.
Proof.
  intros Hv. destruct k as [k p]. unfold observe. rewrite decide_False by done. simpl.
  split; [done|]. unfold admits. destruct p; [auto|]. unfold merge_observed.
  destruct k, (from_value v); simpl; auto.
Qed.

(** A kind operation that keeps what it does not count as a change and the values a
    column has observed is one step. *)
Lemma change_kind_steps f t idx :
  (forall k, (f k).2 = false -> (f k).1 = k) ->
  (forall k p v, from_value v = KUnknown \/ (p = false /\ admits k v) ->
     from_value v = KUnknown \/ ((f (k, p)).1.2 = false /\ admits (f (k, p)).1.1 v)) ->
  steps 1 t (change_kind f t idx).
Proof.
  intros Hu Hkeep. unfold change_kind. destruct (field_kinds t !! idx) as [[k p]|] eqn:Hk.
  2:{ apply (steps_weaken 0); [lia|apply steps_refl]. }
  specialize (Hu (k, p)). specialize (Hkeep k p).
  destruct (f (k, p)) as [[k' p'] changed] eqn:Ho. simpl in *. split; simpl.
  - destruct changed.
    + exists 1. split; [lia|]. split; [done|lia].
    + exists 0. split; [lia|]. split; [done|]. intros _. split; [done|]. simpl.
      rewrite (Hu eq_refl). by apply list_insert_id.
  - unfold columns_cover. simpl. by rewrite length_insert.
  - intros x (Hx & k0 & p0 & Hf & Hv). unfold column_ok. simpl. split; [done|].
    destruct (decide (idx = field_index x)) as [->|Hne].
    + rewrite list_lookup_insert_eq by by eapply lookup_lt_Some. simplify_eq. eauto.
    + rewrite list_lookup_insert_ne by done. eauto.
  - by rewrite length_insert.
Qed.

Lemma observe_steps t idx ob : steps 1 t (observe_field_kind t idx ob).
Proof.
  apply change_kind_steps; [intros k; apply observe_unchanged|intros k p v; apply observe_keeps].
Qed.

Lemma seed_steps t idx kind : steps 1 t (seed_kind t idx kind).
Proof.
  apply change_kind_steps; unfold seed_hint.
  - intros k. by case_decide.
  - intros k p v Hv. case_decide as Hd; [|done]. simpl in *. destruct Hd as [-> _].
    destruct Hv as [|[_ [|[|]]]]; [by left|by left|by left|done].
Qed.

Lemma push_column t idx v :
  idx < length (field_kinds t) -> (Z.of_nat idx < 65536)%Z -> column_ok (observe_kind t idx v) (mkField idx v).
Proof.
  intros Hi Hb. destruct (lookup_lt_is_Some_2 _ _ Hi) as [k Hk].
  unfold column_ok, observe_kind, observe_field_kind, change_kind. simpl. rewrite Hk.
  destruct (observe k (from_value v)) as [[k' p'] changed] eqn:Ho. simpl.
  rewrite list_lookup_insert_eq by done. split; [done|]. exists k', p'. split; [done|].
  destruct (decide (from_value v = KUnknown)); [by left|]. right.
  pose proof (observe_admits k v) as Ha. rewrite Ho in Ha. by apply Ha.
Qed.

Lemma string_cache_steps t c : steps 0 t (set_string_cache t c).
Proof. split; try done. exists 0. split; [done|by split]. Qed.

Lemma update_value_steps t idx c d : steps 1 t (update_value_for_field t idx c d).1.
Proof.
  unfold update_value_for_field.
  destruct (match ch_value c with Some v => _ | None => _ end) as [b|];
    [|apply (steps_weaken 0); [lia|apply steps_refl]].
  destruct (from_blp_with_str_cache b _) as [v cache]. simpl.
  assert (forall t', steps 0 t t' ->
    steps 1 t match v with VNull => observe_field_kind t' (as_u16 idx) (from_blp_datatype d) | _ => t' end) as H.
  { intros t' Ht'. destruct v; try (by apply (steps_weaken 0); [lia|]).
    apply (steps_trans 0 1 _ t'); [done|apply observe_steps]. }
  destruct cache; apply H; [apply string_cache_steps|apply steps_refl].
Qed.

Lemma decode_scalar_steps h t idx c : steps 1 t (decode_scalar h t idx c).1.1.
Proof.
  unfold decode_scalar, report. pose proof (update_value_steps t idx c (ch_datatype c)) as Hs.
  destruct (update_value_for_field _ _ _ _) as [t' [v|e]]; [done|]. by destruct h.
Qed.

Lemma decode_requested_steps h t idx c : steps 1 t (decode_requested h t idx c).1.1.
Proof.
  unfold decode_requested, report. destruct (_ || _); [|apply decode_scalar_steps].
  destruct h; apply (steps_weaken 0); try lia; apply steps_refl.
Qed.

Lemma as_u16_le n : as_u16 n <= n.
Proof.
  unfold as_u16, wrap_u. pose proof (Z.mod_le (Z.of_nat n) (2 ^ 16) ltac:(lia) ltac:(lia)). lia.
Qed.

Lemma as_u16_bound n : (Z.of_nat (as_u16 n) < 65536)%Z.
Proof. unfold as_u16. pose proof (wrap_u_bound 16 (Z.of_nat n) ltac:(lia)). lia. Qed.

Lemma append_steps t name : steps 1 t (append_field t name).1.
Proof.
  unfold append_field. simpl. split; simpl.
  - exists 1. split; [lia|]. split; [done|lia].
  - intros [Hl Hk]. split; simpl; [rewrite !length_app; simpl; lia|].
    intros nm idx Hi. rewrite length_app. simpl. destruct (decide (nm = name)) as [->|].
    + rewrite lookup_insert_eq in Hi. simplify_eq. pose proof (as_u16_le (length (field_strings t))).
      pose proof (as_u16_bound (length (field_strings t))). lia.
    + rewrite lookup_insert_ne in Hi by done. specialize (Hk nm idx Hi). lia.
  - intros f (Hb & k & p & Hf & Hv). split; [done|]. exists k, p. simpl.
    rewrite lookup_app_l by by eapply lookup_lt_Some. done.
  - rewrite length_app. simpl. lia.
Qed.

(** Pushing a value: its column and the columns of the earlier values fit. *)
Lemma push_steps n t t' idx v values :
  steps n t t' -> idx < length (field_kinds t) -> (Z.of_nat idx < 65536)%Z ->
  Forall (column_ok t) values ->
  steps (n + 1) t (observe_kind t' idx v)
  /\ Forall (column_ok (observe_kind t' idx v)) (values ++ [mkField idx v]).
Proof.
  intros Hs Hi Hb Hv. assert (steps (n + 1) t (observe_kind t' idx v)) as Hs'
    by (eapply steps_trans; [exact Hs|apply observe_steps]).
  split; [done|]. apply Forall_app. split.
  - eapply Forall_impl; [exact Hv|]. apply Hs'.
  - apply Forall_singleton, push_column; [|done]. destruct Hs. lia.
Qed.

Lemma source_loop_steps h sources t rs values :
  Forall (fun x => x.1 < length (field_kinds t)) sources -> Forall (column_ok t) values ->
  let '(t', _, r) := source_loop h sources t rs values in
  steps (2 * length sources) t t'
  /\ forall values', r = Ok values' -> Forall (column_ok t') values'.
Proof.
  revert t rs values. induction sources as [|[idx s] sources IH]; intros t rs values Hs Hv; simpl.
  { split; [apply steps_refl|]. by intros ? [= <-]. }
  apply Forall_cons in Hs as [Hi Hs]. simpl in Hi.
  assert (as_u16 idx < length (field_kinds t)) as Hu by (pose proof (as_u16_le idx); lia).
  assert (forall t1, steps 1 t t1 -> Forall (fun x => x.1 < length (field_kinds t1)) sources) as Hlen.
  { intros t1 [_ _ _ Hl]. eapply Forall_impl; [exact Hs|]. intros x Hx. simpl in *. lia. }
  assert (forall t1 rs1 v, steps 1 t t1 ->
    let '(t', _, r) := source_loop h sources (observe_kind t1 (as_u16 idx) v) rs1
                         (values ++ [mkField (as_u16 idx) v])%list in
    steps (2 * S (length sources)) t t' /\ forall values', r = Ok values' -> Forall (column_ok t') values')
    as Hpush.
  { intros t1 rs1 v H1. destruct (push_steps 1 t t1 (as_u16 idx) v values H1 Hu (as_u16_bound idx) Hv) as [H2 Hv2].
    pose proof (IH (observe_kind t1 (as_u16 idx) v) rs1 (values ++ [mkField (as_u16 idx) v])%list) as Hrest.
    destruct (source_loop h sources _ _ _) as [[t' rs'] r]. destruct Hrest as [Hst Hok]; [|done|].
    - eapply Forall_impl; [exact Hs|]. intros x Hx. simpl in *. destruct H2 as [_ _ _ Hl]. lia.
    - split; [|done]. replace (2 * S (length sources)) with (1 + 1 + 2 * length sources) by lia.
      by eapply steps_trans. }
  destruct s as [s|c].
  { apply (Hpush t rs (VStr s)). apply (steps_weaken 0); [lia|apply steps_refl]. }
  pose proof (decode_requested_steps h t idx c) as Hd.
  destruct (decode_requested h t idx c) as [[t1 rs1] [[v|]|err]]; simpl in Hd.
  - by apply Hpush.
  - pose proof (IH t1 (rs ++ rs1)%list values (Hlen t1 Hd)) as Hrest.
    destruct (source_loop h sources _ _ _) as [[t' rs'] r]. destruct Hrest as [Hst Hok].
    { eapply Forall_impl; [exact Hv|]. apply Hd. }
    split; [|done]. apply (steps_weaken (1 + 2 * length sources)); [lia|]. by eapply steps_trans.
  - split; [|done]. by eapply steps_weaken; [|exact Hd]; lia.
Qed.

(** ** All fields *)

Lemma ensure_field_steps st c st' idx :
  ensure_field_for_child st c = (st', idx) -> columns_cover (table st) ->
  steps 1 (table st) (table st')
  /\ idx < length (field_kinds (table st')) /\ (Z.of_nat idx < 65536)%Z
  /\ length (field_strings (table st')) <= S (length (field_strings (table st))).
Proof.
  unfold ensure_field_for_child. intros He Hc.
  destruct (field_name_keys (table st) !! ch_name c) as [i|] eqn:Hk.
  - injection He as <- <-. split; [apply (steps_weaken 0); [lia|apply steps_refl]|].
    destruct (proj2 Hc _ _ Hk). split_and!; [done|done|lia].
  - pose proof (append_steps (table st) (ch_name c)) as Hs.
    destruct (append_field (table st) (ch_name c)) as [t i] eqn:Ha. injection He as <- <-. simpl.
    pose proof (proj2 (steps_cover _ _ _ Hs Hc) (ch_name c) i) as Hi.
    unfold append_field in Ha. injection Ha as <- <-. simpl in *.
    rewrite lookup_insert_eq in Hi. destruct (Hi eq_refl). rewrite (length_app (field_strings _)).
    simpl. split_and!; try done; lia.
Qed.

(** One child: at most three moves, one new name, and a pushed value has its column. *)
Lemma all_child_steps h st i c :
  columns_cover (table st) ->
  let '(st', _, r) := all_child_plain h st i c in
  steps 3 (table st) (table st')
  /\ length (field_strings (table st')) <= S (length (field_strings (table st)))
  /\ forall idx v, r = Ok (Some (idx, v)) -> column_ok (table st') (mkField idx v).
Proof.
  intros Hc. unfold all_child_plain. destruct (_ || _).
  - unfold reject_child. assert (steps 3 (table st) (table st)) by (apply (steps_weaken 0); [lia|apply steps_refl]).
    destruct (is_requested_field _ _), h; (split_and!; [done|lia|done]).
  - destruct (ensure_field_for_child st c) as [st1 idx] eqn:He.
    destruct (ensure_field_steps _ _ _ _ He Hc) as (H1 & Hi & Hb & Hl). unfold capture_child.
    pose proof (decode_scalar_steps h (table st1) idx c) as H2.
    pose proof (decode_scalar_names h (table st1) idx c) as (Hn & _).
    destruct (decode_scalar h (table st1) idx c) as [[t rs] [[v|]|e]]; simpl in *.
    + pose proof (observe_steps t idx (from_value v)) as H3. split_and!.
      * by apply (steps_trans 1 2 _ (table st1)), (steps_trans 1 1 _ t).
      * unfold observe_kind, observe_field_kind. rewrite (proj1 (change_kind_names _ _ _)), Hn. lia.
      * intros ? ? [= <- <-]. apply push_column; [|done]. destruct H2. lia.
    + split_and!; [|by rewrite Hn|done]. by apply (steps_weaken (1 + 1)), (steps_trans 1 1 _ (table st1)); [lia|..].
    + split_and!; [|by rewrite Hn|done]. by apply (steps_weaken (1 + 1)), (steps_trans 1 1 _ (table st1)); [lia|..].
Qed.

Lemma all_loop_steps h e is_ st rs values :
  columns_cover (table st) -> Forall (column_ok (table st)) values ->
  let '(st', _, r) := all_loop (all_child_plain h) e is_ st rs values in
  steps (3 * length is_) (table st) (table st')
  /\ length (field_strings (table st')) <= length is_ + length (field_strings (table st))
  /\ forall values', r = Ok values' -> Forall (column_ok (table st')) values'.
Proof.
  revert st rs values. induction is_ as [|i is_ IH]; intros st rs values Hc Hv; simpl.
  { split_and!; [apply steps_refl|lia|]. by intros ? [= <-]. }
  assert (steps (3 * S (length is_)) (table st) (table st)) as H0
    by (apply (steps_weaken 0); [lia|apply steps_refl]).
  destruct (elem_get_at e i) as [c|]; [|split_and!; [done|lia|done]].
  pose proof (all_child_steps h st i c Hc) as H1.
  destruct (all_child_plain h st i c) as [[st1 rs1] r]. destruct H1 as (H1 & Hl & Hp).
  assert (Forall (column_ok (table st1)) values) as Hv1 by (eapply Forall_impl; [exact Hv|apply H1]).
  assert (forall rs values, Forall (column_ok (table st1)) values ->
    let '(st', _, r) := all_loop (all_child_plain h) e is_ st1 rs values in
    steps (3 * S (length is_)) (table st) (table st')
    /\ length (field_strings (table st')) <= S (length is_) + length (field_strings (table st))
    /\ forall values', r = Ok values' -> Forall (column_ok (table st')) values') as Hrest.
  { intros rs2 vs Hvs. specialize (IH st1 rs2 vs (steps_cover _ _ _ H1 Hc) Hvs).
    destruct (all_loop _ e is_ st1 rs2 vs) as [[st' ?] ?]. destruct IH as (Hs & Hl' & Hr).
    split_and!; [|lia|done]. replace (3 * S (length is_)) with (3 + 3 * length is_) by lia.
    by eapply steps_trans. }
  destruct r as [[[idx v]|]|err].
  - apply Hrest, Forall_app. split; [done|]. apply Forall_singleton. by apply Hp.
  - by apply Hrest.
  - split_and!; [|lia|done]. by eapply steps_weaken; [|exact H1]; lia.
Qed.

(** ** Messages *)

(** Between operations: the layout is the table's, and every known index is a column. *)
Record typed (st : SubscriptionState) : Prop := mkTyped {
  ty_cover : columns_cover (table st);
  ty_version : version_ok (layout_version (table st));
  ty_layout : sub_layout st = build_layout (table st);
  ty_data i : subscription_data_index st = Some i ->
    i < length (field_kinds (table st)) /\ (Z.of_nat i < 65536)%Z
}.

(** The layout of a state, rebuilt only when the version differs, is the table's. *)
Lemma refresh_built n t st :
  sub_layout st = build_layout t -> version_ok (layout_version t) -> steps n t (table st) ->
  (Z.of_nat n < 2 ^ 32 - 1)%Z ->
  sub_layout (refresh_layout st) = build_layout (table st) /\ version_ok (layout_version (table st)).
Proof.
  intros Hl Hv [(m & Hm & [Hver Hsame]) _ _ _] Hn. split.
  - unfold refresh_layout. case_decide as Hd; [|done]. rewrite Hl in Hd. simpl in Hd.
    rewrite Hver in Hd. symmetry in Hd.
    apply bump_iter_moves in Hd as ->; [|done|lia]. destruct (Hsame eq_refl) as [Hs Hk].
    rewrite Hl. unfold build_layout. simpl in Hver. by rewrite Hver, Hs, Hk.
  - rewrite Hver. clear -Hv. induction m; simpl; [done|by apply bump_ok].
Qed.

Lemma typed_refresh n st0 st :
  typed st0 -> same_frame st0 st -> steps n (table st0) (table st) -> (Z.of_nat n < 2 ^ 32 - 1)%Z ->
  typed (refresh_layout st).
Proof.
  intros [Hc Hv Hl Hd] (_ & _ & Hi & Hsl & _) Hs Hn.
  destruct (refresh_built n (table st0) st) as [Hr Hv']; [by rewrite Hsl|done|done|done|].
  assert (table (refresh_layout st) = table st /\ subscription_data_index (refresh_layout st)
    = subscription_data_index st) as [Ht Hx] by (unfold refresh_layout; by case_decide).
  split; rewrite ?Ht, ?Hx, ?Hi; [by apply Hs|done|done|].
  intros i Hsi. destruct (Hd i Hsi). split; [|done]. destruct Hs. lia.
Qed.

(** A column of the table is a column of its layout. *)
Definition typed_field (l : FieldLayout) (f : UpdateField) : Prop :=
  exists meta, layout_fields l !! field_index f = Some meta /\ meta_index meta = field_index f
    /\ (from_value (field_value f) = KUnknown
        \/ meta_provisional meta = false /\ admits (meta_kind meta) (field_value f)).

Lemma column_typed t f :
  columns_cover t -> column_ok t f -> typed_field (build_layout t) f.
Proof.
  intros [Hl _] (Hb & k & p & Hk & Hv). pose proof (lookup_lt_Some _ _ _ Hk) as Hlt. rewrite Hl in Hlt.
  apply lookup_lt_is_Some_2 in Hlt as [name Hn].
  exists (mkMeta name (as_u16 (field_index f)) k p). simpl.
  rewrite list_lookup_imap, lookup_zip_with, Hn. simpl. rewrite Hk. simpl.
  by rewrite as_u16_small.
Qed.

Lemma length_omap_le {A B} (f : A -> option B) (l : list A) : length (omap f l) <= length l.
Proof. induction l as [|x l IH]; [done|]. csimpl. destruct (f x); simpl; lia. Qed.

(** The indices of the requested fields are columns. *)
Lemma named_sources st e sd :
  let sources := omap (resolve_entry (subscription_data_index st) e sd (field_strings (table st)))
                   (entries None (seq 0 (length (field_strings (table st))))) in
  Forall (fun x => x.1 < length (field_strings (table st))) sources
  /\ length sources <= length (field_strings (table st)).
Proof.
  intros sources. subst sources. unfold entries. split.
  - apply Forall_forall. intros x Hx.
    apply list_elem_of_omap in Hx as (y & Hy & Hr). apply list_elem_of_fmap in Hy as (i & -> & Hi).
    apply elem_of_seq in Hi. unfold resolve_entry in Hr. case_decide.
    + destruct sd; simplify_eq/=. lia.
    + destruct (_ ≫= _); simplify_eq/=. lia.
  - etrans; [apply length_omap_le|]. by rewrite length_fmap, length_seq.
Qed.

(** What one message extracts. *)
Record extraction (n : nat) (st st' : SubscriptionState) (r : result (list UpdateField) BlpError) : Prop :=
  mkExtraction {
    ex_steps : steps n (table st) (table st');
    ex_frame : same_frame st st';
    ex_values values : r = Ok values -> Forall (column_ok (table st')) values
  }.

Lemma requested_extraction h st e sd :
  columns_cover (table st) ->
  let '(t, _, r) := extract_requested_with None h st e sd in
  extraction (2 * length (field_strings (table st))) st (set_table st t) r
  /\ field_strings t = field_strings (table st).
Proof.
  intros Hc. unfold extract_requested_with. rewrite requested_loop_sources.
  destruct (named_sources st e sd) as [Hs Hlen]. revert Hs Hlen.
  set (sources := omap _ _). intros Hs Hlen.
  pose proof (source_loop_steps h sources (table st) [] []) as Hsteps.
  pose proof (source_loop_names h sources (table st) [] []) as (Hn & _).
  destruct (source_loop h sources (table st) [] []) as [[t rs] r]. simpl in Hn.
  destruct Hsteps as [H1 H2]; [by rewrite (proj1 Hc)|done|].
  split; [|done]. split; [|done|exact H2].
  exact (steps_weaken _ _ _ _ (Nat.mul_le_mono_l _ _ 2 Hlen) H1).
Qed.

Lemma all_extraction h st e sd :
  typed st ->
  let '(st', _, r) := extract_all_with (all_child_plain h) st e sd in
  extraction (1 + 3 * length (el_children e)) st st' r
  /\ length (field_strings (table st')) <= length (el_children e) + length (field_strings (table st)).
Proof.
  intros [Hc _ _ Hd].
  pose proof (extract_all_frame _ st e sd (all_child_plain_frame h)) as Hf.
  unfold extract_all_with in *.
  destruct (push_subscription_data st sd) as [st1 values] eqn:Hp.
  assert (steps 1 (table st) (table st1) /\ Forall (column_ok (table st1)) values
          /\ field_strings (table st1) = field_strings (table st)) as (H1 & Hv & Hl).
  { unfold push_subscription_data in Hp.
    destruct (subscription_data_index st) as [i|], sd as [s|]; injection Hp as <- <-;
      try by split_and!; [apply (steps_weaken 0); [lia|apply steps_refl]|constructor|].
    destruct (Hd i eq_refl). split_and!; [apply observe_steps| |apply change_kind_names].
    by apply Forall_singleton, push_column. }
  pose proof (all_loop_steps h e (seq 0 (length (el_children e))) st1 [] values
                (steps_cover _ _ _ H1 Hc) Hv) as Hloop.
  destruct (all_loop _ _ _ _ _ _) as [[st' rs] r]. rewrite length_seq, Hl in Hloop.
  destruct Hloop as (H2 & Hl2 & Hr). split; [|done]. split; [by eapply steps_trans|done|done].
Qed.

(** How many names an operation can add. *)
Definition weight (op : DecoderOp) : nat :=
  match op with
  | OnMessage _ m => length (el_children (m_elements m))
  | AddFields fields => length fields
  | _ => 0
  end.

Definition well_typed (u : SubscriptionUpdate) : Prop :=
  Forall (typed_field (update_layout u)) (update_values u).

Definition output_typed (o : Output) : Prop :=
  match o with (_, Some (Ok u), _) => well_typed u | _ => True end.

Lemma typed_metrics st a b c d e f : typed st -> typed (set_metrics st a b c d e f).
Proof. intros []. by split. Qed.

(** The end of a message emits values with the layout of the table. *)
Lemma finish_typed n env m st0 st rs r :
  typed st0 -> extraction n st0 st r -> (Z.of_nat n < 2 ^ 32 - 1)%Z ->
  let '(st', o, em, rs') := finish_message env m (st, rs, r) in
  typed st' /\ output_typed (o, em, rs') /\ table st' = table st.
Proof.
  intros Hty [Hs Hf Hv] Hn. pose proof (typed_refresh n st0 st Hty Hf Hs Hn) as Hr.
  assert (table (refresh_layout st) = table st) as Ht by (unfold refresh_layout; by case_decide).
  unfold finish_message. destruct r as [values|err]; [|done].
  assert (Forall (typed_field (sub_layout (refresh_layout st))) values) as Hw.
  { rewrite (ty_layout _ Hr). eapply Forall_impl; [by apply Hv|].
    intros f. rewrite Ht. apply column_typed. rewrite <-Ht. apply Hr. }
  destruct (is_dataloss_update _ _); [by split_and!; [apply typed_metrics| |]|].
  unfold deliver_update. simpl. destruct (_ && _ && _); (split_and!; [by apply typed_metrics|done|done]).
Qed.

Lemma on_message_typed env st m :
  typed st ->
  (Z.of_nat (length (field_strings (table st)) + length (el_children (m_elements m))) < 2 ^ 30)%Z ->
  let '(st', o, em, rs) := on_message_plain env st m in
  typed st' /\ output_typed (o, em, rs)
  /\ length (field_strings (table st'))
     <= length (field_strings (table st)) + length (el_children (m_elements m)).
Proof.
  intros Hty Hn. unfold on_message_plain. destruct (stream_closed env); [by split_and!; try lia|].
  set (sd := _ <$> _). unfold extract_plain. destruct (capture_all_fields st).
  - pose proof (all_extraction (field_handler env) st (m_elements m) sd Hty) as Hx.
    destruct (extract_all_with _ _ _ _) as [[st1 rs] r]. destruct Hx as [Hx Hl].
    pose proof (finish_typed _ env m st st1 rs r Hty Hx ltac:(lia)) as Hfin.
    destruct (finish_message env m _) as [[[st' o] em] rs']. destruct Hfin as (? & ? & ->).
    split_and!; [done|done|lia].
  - pose proof (requested_extraction (field_handler env) st (m_elements m) sd (ty_cover _ Hty)) as Hx.
    destruct (extract_requested_with _ _ _ _ _) as [[t rs] r]. destruct Hx as [Hx Hl].
    pose proof (finish_typed _ env m st (set_table st t) rs r Hty Hx ltac:(lia)) as Hfin.
    destruct (finish_message env m _) as [[[st' o] em] rs']. destruct Hfin as (? & ? & ->).
    split_and!; [done|done|]. simpl. rewrite Hl. lia.
Qed.

(** ** Operations between messages *)

Lemma requested_flags_steps t fl :
  steps 0 t (mkTable (field_strings t) (field_name_keys t) fl (field_kinds t) (layout_version t)
               (string_value_cache t)).
Proof. split; try done. exists 0. split; [done|by split]. Qed.

Lemma add_field_steps st f :
  steps 1 (table st) (table (add_field st f)) /\ same_frame st (add_field st f).
Proof.
  unfold add_field. destruct (field_name_keys (table st) !! f); simpl.
  - split; [|done]. apply (steps_weaken 0); [lia|]. apply requested_flags_steps.
  - split; [|done]. apply (steps_trans 1 0 _ (append_field (table st) f).1);
      [apply append_steps|apply requested_flags_steps].
Qed.

Lemma add_fields_typed st fields :
  typed st -> (Z.of_nat (length fields) < 2 ^ 30)%Z -> typed (add_fields st fields).
Proof.
  intros Hty Hn.
  assert (forall st0, steps (length fields) (table st0) (table (fold_left add_field fields st0))
    /\ same_frame st0 (fold_left add_field fields st0)) as H.
  { clear. induction fields as [|f fields IH]; intros st0; simpl; [split; [apply steps_refl|done]|].
    destruct (add_field_steps st0 f) as [H1 F1], (IH (add_field st0 f)) as [H2 F2].
    split; [by eapply (steps_trans 1)|by eapply same_frame_trans]. }
  destruct (H st) as [Hs Hf]. apply (typed_refresh (length fields) st); [done|done|done|lia].
Qed.

Lemma seed_kinds_typed st kinds :
  typed st -> (Z.of_nat (length (field_strings (table st))) < 2 ^ 30)%Z -> typed (seed_kinds st kinds).
Proof.
  intros Hty Hn.
  assert (forall l t, steps (length l) t (fold_left (seed_one kinds) l t)) as H.
  { induction l as [|i l IH]; intros t; simpl; [apply steps_refl|].
    eapply (steps_trans 1); [|apply IH]. unfold seed_one.
    assert (steps 1 t t) by (apply (steps_weaken 0); [lia|apply steps_refl]).
    destruct (field_kinds t !! i) as [[[] p]|]; try done. destruct (_ ≫= _); [apply seed_steps|done]. }
  specialize (H (seq 0 (length (field_strings (table st)))) (table st)). rewrite length_seq in H.
  apply (typed_refresh (length (field_strings (table st))) st (set_table st _) Hty); [done|exact H|lia].
Qed.

Lemma decode_op_typed st op :
  typed st -> (Z.of_nat (length (field_strings (table st)) + weight op) < 2 ^ 30)%Z ->
  let '(st', outs) := decode_op on_message_plain st op in
  typed st' /\ Forall output_typed outs
  /\ length (field_strings (table st')) <= length (field_strings (table st)) + weight op.
Proof.
  intros Hty Hn. destruct op as [env m|fields|kinds| |id|label|service]; simpl in *;
    try by split_and!; [destruct Hty; by split|constructor|lia].
  - pose proof (on_message_typed env st m Hty Hn) as Hm.
    destruct (on_message_plain env st m) as [[[st' o] em] rs]. destruct Hm as (? & ? & ?).
    split_and!; [done| |done]. by apply Forall_singleton.
  - split_and!; [apply add_fields_typed; [done|lia]|constructor|apply add_fields_size].
  - split_and!; [apply seed_kinds_typed; [done|lia]|constructor|].
    destruct (seed_kinds_names st kinds) as [(-> & _) _]. lia.
Qed.

Lemma decode_run_typed ops st :
  typed st -> (Z.of_nat (length (field_strings (table st)) + list_sum (weight <$> ops)) < 2 ^ 30)%Z ->
  Forall output_typed (decode_run on_message_plain st ops).
Proof.
  revert st. induction ops as [|op ops IH]; intros st Hty Hn; simpl; [constructor|].
  change (list_sum (weight <$> op :: ops)) with (weight op + list_sum (weight <$> ops)) in Hn.
  pose proof (decode_op_typed st op Hty ltac:(lia)) as Hop.
  destruct (decode_op on_message_plain st op) as [st' outs]. destruct Hop as (Hty' & Ho & Hl).
  apply Forall_app. split; [done|]. apply IH; [done|lia].
Qed.

Lemma sub_new_typed topic fields all : typed (sub_new topic fields all).
Proof.
  assert (columns_cover (table (sub_new topic fields all))
          /\ layout_version (table (sub_new topic fields all)) = 1%Z) as [Hc Hv].
  { apply (sub_new_table (fun t => columns_cover t /\ layout_version t = 1%Z)); [done|].
    intros t name [[Hl Hk] Hv]. unfold push_field_if_new.
    destruct (field_name_keys t !! name) as [i|] eqn:Hn; simpl; [done|]. split; [|done].
    split; simpl; [rewrite !length_app; simpl; lia|]. intros nm idx. rewrite length_app. simpl.
    pose proof (as_u16_le (length (field_strings t))). pose proof (as_u16_bound (length (field_strings t))).
    destruct (decide (nm = name)) as [->|].
    - rewrite lookup_insert_eq. intros [= <-]. lia.
    - rewrite lookup_insert_ne by done. intros Hi. specialize (Hk nm idx Hi). lia. }
  split; [done|by rewrite Hv| |].
  - unfold sub_new. set (t0 := fold_left _ _ _). destruct (push_field_if_new t0 EVENT_TYPE) as [t1 et].
    destruct (push_field_if_new t1 EVENT_SUBTYPE) as [t2 es].
    destruct (String.prefix _ _); [|done]. by destruct (push_field_if_new t2 _).
  - intros i Hi. apply sub_new_data_index in Hi. by apply (proj2 Hc) in Hi.
Qed.

(** C21: Every update a subscription emits is well typed.  Whatever messages arrive and
    however fields are added, seeded or discovered in between, the layout an update
    carries has a column for each of its values, at the value's index, and a column that
    holds a known value has an observed (never a provisional) kind that is the value's
    own or text.  The layout is rebuilt only when its wrapping 32-bit version moved; no
    message can move it all the way round, so a stale layout is never attached. *)
Theorem emitted_updates_well_typed type_of topic fields all ops :
  (Z.of_nat (length fields + 3 + list_sum (added <$> ops)) <= 65536)%Z ->
  (Z.of_nat (list_sum (weight <$> ops)) < 2 ^ 29)%Z ->
  Forall (message_ok type_of) ops ->
  Forall output_typed (decode_run on_message (sub_new topic fields all) ops).
Proof.
  intros Hf Hn Hms. pose proof (sub_new_size topic fields all) as Hs.
  rewrite (decode_run_reference type_of); [|apply sub_new_decoder_ok; lia|done|intros _; lia].
  apply decode_run_typed; [|change (table (erase ?s)) with (table s); lia].
  destruct (sub_new_typed topic fields all). by split.
Qed.

Lemma emitted_updates_well_typed_witness :
  Forall output_typed
    (decode_run on_message (sub_new "//blp/mktbar/ticker/IBM" ["OPEN"; "HIGH"] false) sample_ops).
Proof.
  apply (emitted_updates_well_typed sample_types); [vm_compute; discriminate|vm_compute; reflexivity|].
  repeat constructor; unfold distinct_children; simpl; apply (bool_decide_unpack _); vm_compute; exact I.
Defined.
