(* ===== verification/Projection.v ===== *)
(** * Projecting shared updates onto consumers

    A shared feed decodes each message once; every consumer projects the decoded
    update onto its own table ([project_update], [project_image] and
    [project_current_image] of [engine/state/subscription.rs]), with the map from the
    feed's columns to its own cached per feed layout.  An [Arc<FieldLayout>] is its
    address and its contents; the cache holds the layout it was built from, so its
    address belongs to no other layout. *)

From Stdlib Require Import Ascii String ZArith Lia Sorting.
From stdpp Require Import sorting.
From S2P Require Import Prelude Errors Update Subscription Decoder DecoderTypes.
Local Open Scope string_scope.

(** ** The operations *)

(** [names.iter().position(|n| n == name)] *)
Definition position_of (names : list string) (name : string) : option nat :=
  fst <$> list_find (eq name) names.

Definition project_index (t : FieldTable) (meta : FieldMeta) : option nat :=
  as_u16 <$> position_of (field_strings t) (meta_name meta).

Definition cache_projection (st : SubscriptionState) (source : SharedLayout) : SubscriptionState :=
  let version := Update.layout_version (layout_of source) in
  if decide (projection_version st = version
             /\ layout_addr <$> projection_source st = Some (layout_addr source))
  then st
  else set_projection st (Some source) version
         (project_index (table st) <$> layout_fields (layout_of source)).

(** The column of one source field: cached, or discovered by an all-fields consumer. *)
Definition find_column (st : SubscriptionState) (meta : FieldMeta) (source_idx : nat)
  : SubscriptionState * option nat :=
  match projection_indices st !! source_idx with
  | Some (Some idx) => (st, Some idx)
  | _ =>
      if capture_all_fields st then
        let '(t, idx) := append_field (table st) (meta_name meta) in
        (set_projection (set_table st t) (projection_source st) (projection_version st)
           (<[source_idx := Some idx]> (projection_indices st)), Some idx)
      else (st, None)
  end.

(** The kinds a consumer's column learns from the feed's column and the value. *)
Definition learn_kind (t : FieldTable) (idx : nat) (meta : FieldMeta) (v : UpdateValue) : FieldTable :=
  let t := if meta_provisional meta then seed_kind t idx (meta_kind meta)
           else observe_field_kind t idx (meta_kind meta) in
  observe_kind t idx v.

Fixpoint visit_loop (layout : FieldLayout) (source : list (nat * UpdateValue))
  (st : SubscriptionState) (values : list UpdateField) : SubscriptionState * list UpdateField :=
  match source with
  | [] => (st, values)
  | (source_idx, v) :: source =>
      match layout_fields layout !! source_idx with
      | None => visit_loop layout source st values
      | Some meta =>
          match find_column st meta source_idx with
          | (st, None) => visit_loop layout source st values
          | (st, Some idx) =>
              visit_loop layout source (set_table st (learn_kind (table st) idx meta v))
                (values ++ [mkField idx v])%list
          end
      end
  end.

Definition visit_projected_values (st : SubscriptionState) (layout : SharedLayout)
  (source : list (nat * UpdateValue)) : SubscriptionState * list UpdateField :=
  let '(st, values) := visit_loop (layout_of layout) source (cache_projection st layout) [] in
  (refresh_layout st, values).

Definition field_le (a b : UpdateField) : Prop := field_index a <= field_index b.

#[export] Instance field_le_dec a b : Decision (field_le a b).
Proof. unfold field_le. apply _. Defined.
#[export] Instance field_le_trans : Transitive field_le.
Proof. unfold field_le. intros ? ? ? ? ?. lia. Qed.
#[export] Instance field_le_total : Total field_le.
Proof. unfold field_le. intros ? ?. lia. Qed.

(** No value was pushed below the one before it. *)
Fixpoint ordered (last : option nat) (values : list UpdateField) : bool :=
  match values with
  | [] => true
  | f :: values =>
      match last with Some i => bool_decide (i <= field_index f) | None => true end
      && ordered (Some (field_index f)) values
  end.

(** The source sorts without stability; with distinct indices there is one order. *)
Definition project_values (st : SubscriptionState) (layout : SharedLayout)
  (source : list (nat * UpdateValue)) (timestamp : Z) : SubscriptionState * SubscriptionUpdate :=
  let '(st, values) := visit_projected_values st layout source in
  let values :=
    if negb (capture_all_fields st) && negb (ordered None values)
    then merge_sort field_le values else values in
  (st, mkUpdate timestamp (sub_topic_id st) (sub_topic st) (sub_layout st) values).

Definition source_of (values : list UpdateField) : list (nat * UpdateValue) :=
  (fun f => (field_index f, field_value f)) <$> values.

(** A decoded update with the identity of its layout. *)
Record SharedUpdate : Type := mkSharedUpdate {
  su_layout : SharedLayout;
  su_values : list UpdateField;
  su_timestamp : Z
}.

Definition project_image (st : SubscriptionState) (source : SharedUpdate)
  : SubscriptionState * SubscriptionUpdate :=
  project_values st (su_layout source) (source_of (su_values source)) (su_timestamp source).

Definition project_current_image (st : SubscriptionState) (layout : SharedLayout)
  (image : list (option UpdateValue)) (timestamp : Z) : SubscriptionState * SubscriptionUpdate :=
  project_values st layout (omap (fun x => pair x.1 <$> x.2) (imap pair image)) timestamp.

Definition project_update (env : StreamEnv) (st : SubscriptionState) (source : SharedUpdate)
  (suppress_empty : bool) : SubscriptionState * MessageOutcome * Emitted :=
  if stream_closed env then (st, Closed, None)
  else
    let '(st, u) := project_image st source in
    if is_dataloss_update st (update_values u)
    then (record_dataloss st (Some (su_timestamp source)), DataLoss, Some (Err (dataloss_error st)))
    else deliver_update env st u suppress_empty.

Definition observe_update (env : StreamEnv) (st : SubscriptionState) (source : SharedUpdate)
  : SubscriptionState * MessageOutcome :=
  if stream_closed env then (st, Closed)
  else
    let '(st, _) := visit_projected_values st (su_layout source) (source_of (su_values source)) in
    let '(st, first) := record_received st (su_timestamp source) in
    (st, Normal first).

(** ** What a message holds under a name *)

(** The value of a child that can be decoded. *)
Definition child_result (c : Child) : option UpdateValue :=
  if ch_is_array c || negb (should_capture_datatype (ch_datatype c)) then None
  else (fun b => (from_blp_with_str_cache b None).1)
         <$> match ch_value c with
             | Some v => Some v
             | None => if ch_is_null c then Some BNull else None
             end.

(** The value of a name: the message type for the projected metadata field, else the
    child of that name. *)
Definition value_of (data : option string) (e : Element) (s : string) (name : string)
  : option UpdateValue :=
  if decide (Some name = data) then Some (VStr s) else elem_get e name ≫= child_result.

Definition data_name (st : SubscriptionState) : option string :=
  subscription_data_index st ≫= fun i => field_strings (table st) !! i.

Definition field_lt (a b : UpdateField) : Prop := field_index a < field_index b.

(** The values of a table's names, by index. *)
Definition named_values (names : list string) (data : option string) (e : Element) (s : string)
  : list UpdateField :=
  omap (fun i => names !! i ≫= fun name => mkField i <$> value_of data e s name) (seq 0 (length names)).

Lemma from_blp_value v cache :
  (from_blp_with_str_cache v cache).1 = (from_blp_with_str_cache v None).1.
Proof.
  destruct v; try done; simpl; unfold cached_str; destruct cache as [[]|]; try done;
    by repeat case_match; simplify_eq/=.
Qed.

Lemma decode_scalar_value h t idx c :
  ch_is_array c || negb (should_capture_datatype (ch_datatype c)) = false ->
  match (decode_scalar h t idx c).2 with
  | Ok ov => ov = child_result c
  | Err _ => h = false /\ child_result c = None
  end.
Proof.
  intros Hc. unfold decode_scalar, child_result, update_value_for_field, report. rewrite Hc.
  destruct (match ch_value c with Some v => _ | None => _ end) as [b|]; simpl; [|by destruct h].
  pose proof (from_blp_value b (string_value_cache t !! idx)) as Hv.
  destruct (from_blp_with_str_cache b _) as [v cache]. simpl in *. by rewrite Hv.
Qed.

Lemma decode_requested_value h t idx c :
  match (decode_requested h t idx c).2 with
  | Ok ov => ov = child_result c
  | Err _ => h = false /\ child_result c = None
  end.
Proof.
  unfold decode_requested. destruct (_ || _) eqn:Hc; [|by apply decode_scalar_value].
  unfold report, child_result. rewrite Hc. by destruct h.
Qed.

Definition source_value (x : Source) : option UpdateField :=
  mkField (as_u16 x.1) <$> match x.2 with inl s => Some (VStr s) | inr c => child_result c end.

Lemma source_loop_values h sources t rs values :
  match (source_loop h sources t rs values).2 with
  | Ok vs => vs = (values ++ omap source_value sources)%list
  | Err _ => h = false /\ exists x c, x ∈ sources /\ x.2 = inr c /\ child_result c = None
  end.
Proof.
  revert t rs values. induction sources as [|[idx s] sources IH]; intros t rs values; simpl.
  { by rewrite app_nil_r. }
  assert (forall t' rs' v,
    match (source_loop h sources t' rs' (values ++ [mkField (as_u16 idx) v])%list).2 with
    | Ok vs => vs = (values ++ mkField (as_u16 idx) v :: omap source_value sources)%list
    | Err _ => h = false /\ exists x c, x ∈ (idx, s) :: sources /\ x.2 = inr c /\ child_result c = None
    end) as Hpush.
  { intros t' rs' v. specialize (IH t' rs' (values ++ [mkField (as_u16 idx) v])%list).
    destruct (source_loop h sources _ _ _) as [? [vs|]]; simpl in *; [by rewrite IH, <-app_assoc|].
    destruct IH as (-> & x & c & Hx & Hc). split; [done|]. exists x, c. split; [by right|done]. }
  destruct s as [s|c]; [apply Hpush|]. pose proof (decode_requested_value h t idx c) as Hv.
  unfold source_value at 1. simpl.
  destruct (decode_requested h t idx c) as [[t' rs'] [[v|]|err]]; simpl in *; rewrite <-?Hv;
    [apply Hpush| |].
  - specialize (IH t' (rs ++ rs')%list values).
    destruct (source_loop h sources _ _ _) as [? [vs|]]; simpl in *; [done|].
    destruct IH as (-> & x & c' & Hx & Hc). split; [done|]. exists x, c'. split; [by right|done].
  - destruct Hv as [-> Hn]. split; [done|]. exists (idx, inr c), c. split; [by left|done].
Qed.

Lemma omap_omap {A B C} (f : B -> option C) (g : A -> option B) (l : list A) :
  omap f (omap g l) = omap (fun x => g x ≫= f) l.
Proof. induction l as [|x l IH]; [done|]. csimpl. destruct (g x); csimpl; [|done]. by rewrite IH. Qed.

Lemma omap_ext_in {A B} (f g : A -> option B) (l : list A) :
  (forall x, x ∈ l -> f x = g x) -> omap f l = omap g l.
Proof.
  induction l as [|x l IH]; intros H; [done|]. csimpl. rewrite (H x) by set_solver.
  rewrite IH by set_solver. done.
Qed.

Lemma table_index t i name :
  table_ok t -> field_strings t !! i = Some name -> (Z.of_nat i < 65536)%Z /\ as_u16 i = i.
Proof.
  intros [_ Hb] Hi. apply lookup_lt_Some in Hi. split; [lia|]. apply as_u16_small. lia.
Qed.

Lemma table_names_inj t i j name :
  table_ok t -> field_strings t !! i = Some name -> field_strings t !! j = Some name -> i = j.
Proof. intros [Hk _] Hi Hj. apply Hk in Hi, Hj. congruence. Qed.

(** The projected metadata field is the one of that name. *)
Lemma data_name_index st i name :
  table_ok (table st) -> field_strings (table st) !! i = Some name ->
  Some name = data_name st <-> subscription_data_index st = Some i.
Proof.
  intros Ht Hi. unfold data_name. split.
  - destruct (subscription_data_index st) as [j|]; simpl; [|done]. intros Hj. f_equal.
    by eapply (table_names_inj (table st)).
  - intros ->. simpl. by rewrite Hi.
Qed.

(** Every child with one of the names can be decoded. *)
Definition decodable (names : list string) (e : Element) : Prop :=
  forall name c, name ∈ names -> elem_get e name = Some c -> child_result c <> None.

(** Extraction of requested fields yields the values of the table's names. *)
Lemma requested_values h st e s :
  table_ok (table st) ->
  match (extract_requested_with None h st e ((fun _ => s) <$> subscription_data_index st)).2 with
  | Ok vs => vs = named_values (field_strings (table st)) (data_name st) e s
  | Err _ => h = false /\ ~ decodable (field_strings (table st)) e
  end.
Proof.
  intros Ht. unfold extract_requested_with. rewrite requested_loop_sources.
  set (sources := omap _ _). pose proof (source_loop_values h sources (table st) [] []) as Hv.
  destruct (source_loop h sources _ _ _).2 as [vs|]; subst sources.
  2:{ destruct Hv as (-> & x & c & Hx & Hc & Hn). split; [done|]. intros Hd.
      apply list_elem_of_omap in Hx as ([i o] & (j & [= -> ->] & _)%list_elem_of_fmap & Hr).
      unfold resolve_entry in Hr. case_decide; [destruct (subscription_data_index st); by simplify_eq/=|].
      destruct (field_strings (table st) !! j) as [name|] eqn:Hj; simpl in Hr; [|done].
      destruct (elem_get e name) as [c'|] eqn:Hg; simplify_eq/=.
      apply (Hd name c); [by eapply list_elem_of_lookup_2|done|done]. }
  rewrite Hv. simpl.
  unfold entries. rewrite omap_omap, omap_of_fmap. unfold named_values. apply omap_ext_in.
  intros i Hi. apply elem_of_seq in Hi. simpl.
  destruct (lookup_lt_is_Some_2 (field_strings (table st)) i) as [name Hn]; [lia|].
  rewrite Hn. simpl. destruct (table_index _ _ _ Ht Hn) as [_ Hu]. rewrite Hu.
  pose proof (data_name_index st i name Ht Hn) as Hd. unfold value_of.
  destruct (decide (Some i = subscription_data_index st)) as [He|He];
    destruct (decide (Some name = data_name st)) as [Hx|Hx]; try (exfalso; naive_solver congruence).
  - rewrite <-He. simpl. unfold source_value. simpl. by rewrite Hu.
  - destruct (elem_get e name) as [c|]; simpl; [|done]. unfold source_value. simpl. by rewrite Hu.
Qed.

Lemma named_values_spec names data e s i v :
  mkField i v ∈ named_values names data e s
  <-> exists name, names !! i = Some name /\ value_of data e s name = Some v.
Proof.
  unfold named_values. rewrite list_elem_of_omap. split.
  - intros (j & _ & Hj). destruct (names !! j) as [name|] eqn:Hn; simplify_eq/=.
    destruct (value_of data e s name) eqn:Hv; simplify_eq/=. eauto.
  - intros (name & Hn & Hv). exists i. split.
    + apply elem_of_seq. apply lookup_lt_Some in Hn. lia.
    + rewrite Hn. simpl. by rewrite Hv.
Qed.

Lemma named_values_sorted names data e s : StronglySorted field_lt (named_values names data e s).
Proof.
  unfold named_values. generalize 0 as k. induction (length names) as [|n IH]; intros k; [constructor|].
  cbn [seq]. csimpl. destruct (names !! k ≫= _) as [f|] eqn:Hf; [|apply IH]. constructor; [apply IH|].
  apply Forall_forall. intros g Hg. apply list_elem_of_omap in Hg as (j & Hj & Hg).
  apply elem_of_seq in Hj. unfold field_lt.
  destruct (names !! k); simplify_eq/=. destruct (value_of _ _ _ _); simplify_eq/=.
  destruct (names !! j); simplify_eq/=. destruct (value_of _ _ _ _); simplify_eq/=. lia.
Qed.

(** ** All fields *)

Definition child_field (t : FieldTable) (c : Child) : option UpdateField :=
  child_result c ≫= fun v => (fun idx => mkField idx v) <$> field_name_keys t !! ch_name c.

Lemma all_child_value h st i c st' rs r :
  all_child_plain h st i c = (st', rs, Ok r) ->
  keys_grow (table st) (table st')
  /\ length (field_strings (table st)) <= length (field_strings (table st'))
  /\ (table_ok (table st) -> (Z.of_nat (length (field_strings (table st'))) <= 65536)%Z ->
      table_ok (table st'))
  /\ (fun x => mkField x.1 x.2) <$> r = child_field (table st') c
  /\ (child_result c = None \/ is_Some (field_name_keys (table st') !! ch_name c)).
Proof.
  unfold all_child_plain, child_field. destruct (_ || _) eqn:Hc.
  - unfold reject_child, child_result. rewrite Hc.
    destruct (is_requested_field _ _), h; intros; simplify_eq/=; unfold keys_grow; split_and!; auto.
  - destruct (ensure_field_for_child st c) as [st1 idx] eqn:He.
    destruct (ensure_field_spec _ _ _ _ He) as (_ & Hk & Hg & _).
    assert (length (field_strings (table st)) <= length (field_strings (table st1))
      /\ (table_ok (table st) -> (Z.of_nat (length (field_strings (table st1))) <= 65536)%Z ->
          table_ok (table st1))) as [Hlen Hok].
    { unfold ensure_field_for_child in He.
      destruct (field_name_keys (table st) !! ch_name c) eqn:Hn; simplify_eq/=; [done|].
      split; [rewrite length_app; lia|]. intros Ht Hl. by eapply (snoc_table_ok (table st)). }
    intros Hcap. destruct (capture_child_grow h st1 idx c) as (_ & Hs & Hks & _). rewrite Hcap in Hs, Hks.
    simpl in Hs, Hks.
    split_and!.
    + unfold keys_grow in *. by rewrite Hks.
    + by rewrite Hs.
    + intros Ht. rewrite Hs. intros Hl. destruct (Hok Ht Hl) as [H1 H2]. split; [|by rewrite Hs].
      intros name j. rewrite Hks, Hs. apply H1.
    + rewrite Hks, Hk. pose proof (decode_scalar_value h (table st1) idx c Hc) as Hv.
      unfold capture_child in Hcap.
      destruct (decode_scalar h (table st1) idx c) as [[t ?] [[v|]|e]]; simplify_eq/=; by rewrite <-Hv.
    + right. by rewrite Hks, Hk.
Qed.

Lemma child_field_grow t t' c :
  keys_grow t t' -> child_result c = None \/ is_Some (field_name_keys t !! ch_name c) ->
  child_field t' c = child_field t c.
Proof.
  unfold keys_grow, child_field. intros Hg [->|[i Hi]]; [done|].
  by rewrite (lookup_weaken _ _ _ _ Hi Hg), Hi.
Qed.

Lemma all_loop_values h e is_ st rs values st' rs' vs :
  all_loop (all_child_plain h) e is_ st rs values = (st', rs', Ok vs) ->
  keys_grow (table st) (table st')
  /\ length (field_strings (table st)) <= length (field_strings (table st'))
  /\ (table_ok (table st) -> (Z.of_nat (length (field_strings (table st'))) <= 65536)%Z ->
      table_ok (table st'))
  /\ vs = (values ++ omap (fun i => el_children e !! i ≫= child_field (table st')) is_)%list
  /\ forall i c, i ∈ is_ -> el_children e !! i = Some c ->
     child_result c = None \/ is_Some (field_name_keys (table st') !! ch_name c).
Proof.
  revert st rs values. induction is_ as [|i is_ IH]; intros st rs values; simpl.
  { intros ?; simplify_eq. rewrite app_nil_r. unfold keys_grow. split_and!; auto.
    intros i c Hi. by apply not_elem_of_nil in Hi. }
  unfold elem_get_at. destruct (el_indexed e i); [|done].
  destruct (el_children e !! i) as [c|] eqn:Hi; [|done].
  destruct (all_child_plain h st i c) as [[st1 rs1] [r|err]] eqn:Hc; [|done].
  destruct (all_child_value _ _ _ _ _ _ _ Hc) as (Hg & Hl & Ht & Hr & Hk).
  intros Hloop.
  assert (exists values1, all_loop (all_child_plain h) e is_ st1 (rs ++ rs1)%list values1 = (st', rs', Ok vs)
    /\ values1 = (values ++ option_list (child_field (table st1) c))%list) as (values1 & Hl1 & ->).
  { rewrite <-Hr. destruct r as [[idx v]|]; simpl; eexists; (split; [exact Hloop|]); [done|by rewrite app_nil_r]. }
  destruct (IH _ _ _ Hl1) as (Hg' & Hl' & Ht' & -> & Hcov). split_and!.
  - unfold keys_grow in *. by etrans.
  - lia.
  - intros H1 H2. apply Ht'; [|done]. apply Ht; [done|lia].
  - rewrite <-app_assoc. f_equal. simpl. rewrite (child_field_grow _ _ c Hg' Hk).
    by destruct (child_field (table st1) c).
  - intros j c' [->|Hj]%elem_of_cons Hc'; [|by eapply Hcov].
    simplify_eq. destruct Hk as [|[idx Hidx]]; [by left|right].
    exists idx. by eapply lookup_weaken.
Qed.

(** ** Both modes *)

(** The values are exactly those the names of the table have in the message. *)
Definition exact (t : FieldTable) (data : option string) (e : Element) (s : string)
  (values : list UpdateField) : Prop :=
  (forall i v, mkField i v ∈ values
     <-> exists name, field_strings t !! i = Some name /\ value_of data e s name = Some v)
  /\ NoDup (field_index <$> values).

Lemma sorted_indices_nodup values : StronglySorted field_lt values -> NoDup (field_index <$> values).
Proof.
  induction 1 as [|f values _ IH Hf]; csimpl; constructor; [|done].
  intros (g & Hg & Hin)%list_elem_of_fmap. rewrite Forall_forall in Hf. specialize (Hf g Hin).
  unfold field_lt in Hf. lia.
Qed.

Lemma requested_exact h st e s t rs vs :
  table_ok (table st) ->
  extract_requested_with None h st e ((fun _ => s) <$> subscription_data_index st) = (t, rs, Ok vs) ->
  exact (table st) (data_name st) e s vs.
Proof.
  intros Ht Hx. pose proof (requested_values h st e s Ht) as Hv. rewrite Hx in Hv. simpl in Hv. subst vs.
  split; [apply named_values_spec|apply sorted_indices_nodup, named_values_sorted].
Qed.

(** Values that name their items under distinct names have distinct indices. *)
Lemma omap_index_nodup {A} (name : A -> string) (names : list string) (f : A -> option UpdateField)
  (l : list A) :
  NoDup (name <$> l) ->
  (forall x g, x ∈ l -> f x = Some g -> names !! field_index g = Some (name x)) ->
  NoDup (field_index <$> omap f l).
Proof.
  induction l as [|x l IH]; csimpl; intros Hd Hf; [constructor|]. apply NoDup_cons in Hd as [Hx Hd].
  specialize (IH Hd ltac:(intros; apply Hf; set_solver)).
  destruct (f x) as [g|] eqn:Hg; [|done]. csimpl. constructor; [|done].
  intros (g' & Hi & (y & Hy & Hg')%list_elem_of_omap)%list_elem_of_fmap. apply Hx.
  pose proof (Hf x g ltac:(set_solver) Hg) as H1. pose proof (Hf y g' ltac:(set_solver) Hg') as H2.
  rewrite Hi, H2 in H1. apply list_elem_of_fmap. exists y. split; [congruence|done].
Qed.

Lemma child_field_spec t c i v :
  table_ok t -> child_field t c = Some (mkField i v)
  <-> child_result c = Some v /\ field_strings t !! i = Some (ch_name c).
Proof.
  intros [Ht _]. rewrite <-Ht. unfold child_field.
  destruct (child_result c) as [w|]; simpl; [|naive_solver].
  destruct (field_name_keys t !! ch_name c) as [j|]; simpl; naive_solver.
Qed.

Section AllFields.
Context (t : FieldTable) (data : option string) (e : Element) (s : string) (index : option nat).
Context (Ht : table_ok t) (Hd : distinct_children e).
Context (Hindex : forall i name, field_strings t !! i = Some name -> data = Some name <-> index = Some i).
Context (Hrange : forall i, index = Some i -> is_Some (field_strings t !! i)).
Context (Hno : forall name, data = Some name -> elem_get e name = None).

(** What an all-fields message pushes: the metadata field and every child. *)
Definition all_values : list UpdateField :=
  (((fun i => mkField i (VStr s)) <$> option_list index) ++ omap (child_field t) (el_children e))%list.

Lemma all_values_head i v : mkField i v ∈ (fun i => mkField i (VStr s)) <$> option_list index
  <-> index = Some i /\ v = VStr s.
Proof. destruct index; simpl; set_solver. Qed.

Lemma all_values_spec i v :
  mkField i v ∈ all_values
  <-> exists name, field_strings t !! i = Some name /\ value_of data e s name = Some v.
Proof.
  unfold all_values, value_of. rewrite elem_of_app, all_values_head, list_elem_of_omap. split.
  - intros [[Hi ->]|(c & Hc & [Hr Hi]%child_field_spec)]; [| |done].
    + destruct (Hrange i Hi) as [name Hn]. exists name. split; [done|].
      rewrite decide_True; [done|]. symmetry. by apply (Hindex i).
    + exists (ch_name c). split; [done|].
      assert (elem_get e (ch_name c) = Some c) as Hget by by apply elem_get_iff.
      rewrite decide_False by (intros Heq; by rewrite (Hno _ (eq_sym Heq)) in Hget). by rewrite Hget.
  - intros (name & Hi & Hv). case_decide as Hx; simplify_eq.
    + left. split; [|done]. by apply (Hindex i name).
    + right. destruct (elem_get e name) as [c|] eqn:Hget; simpl in Hv; [|done].
      apply elem_get_iff in Hget as [Hc <-]; [|done]. exists c. split; [done|]. by apply child_field_spec.
Qed.

Lemma all_values_nodup : NoDup (field_index <$> all_values).
Proof.
  unfold all_values. rewrite fmap_app. apply NoDup_app. split_and!.
  - destruct index; simpl; [apply NoDup_singleton|constructor].
  - intros i ([j w] & Hi & [Hj _]%all_values_head)%list_elem_of_fmap.
    intros ([k v] & Hk & (c & Hc & Hf)%list_elem_of_omap)%list_elem_of_fmap. simpl in *. subst j k.
    apply child_field_spec in Hf as [_ Hi]; [|done]. apply (Hindex i _ Hi) in Hj.
    specialize (Hno _ Hj). by rewrite (proj2 (elem_get_iff e (ch_name c) c Hd)) in Hno.
  - apply (omap_index_nodup ch_name (field_strings t)); [done|].
    intros c [i v] _ Hf. by apply child_field_spec in Hf as [_ ?].
Qed.
End AllFields.

Lemma all_exact h st e s st' rs vs :
  table_ok (table st) -> (Z.of_nat (length (field_strings (table st'))) <= 65536)%Z ->
  (forall i, subscription_data_index st = Some i -> is_Some (field_strings (table st) !! i)) ->
  distinct_children e -> (forall name, data_name st = Some name -> elem_get e name = None) ->
  extract_all_with (all_child_plain h) st e ((fun _ => s) <$> subscription_data_index st)
  = (st', rs, Ok vs) ->
  table_ok (table st') /\ exact (table st') (data_name st) e s vs
  /\ (forall i name, field_strings (table st) !! i = Some name ->
                      field_strings (table st') !! i = Some name)
  /\ (forall name v, value_of (data_name st) e s name = Some v -> name ∈ field_strings (table st')).
Proof.
  intros Ht Hl Hsd Hd Hno. unfold extract_all_with.
  assert (exists st1, push_subscription_data st ((fun _ => s) <$> subscription_data_index st)
      = (st1, (fun i => mkField i (VStr s)) <$> option_list (subscription_data_index st))
    /\ same_names (table st) (table st1)) as (st1 & -> & Hn1 & Hk1 & _).
  { unfold push_subscription_data. destruct (subscription_data_index st) as [i|]; simpl; eexists;
      (split; [done|]); [apply change_kind_names|done]. }
  intros Hx. apply all_loop_values in Hx as (Hg & Hlen & Hok & -> & Hcov).
  rewrite omap_seq_lookup. unfold keys_grow in Hg. rewrite Hk1 in Hg.
  assert (table_ok (table st')) as Ht'.
  { apply Hok; [|done]. destruct Ht as [H1 H2]. split; [|by rewrite Hn1]. intros. rewrite Hk1, Hn1. apply H1. }
  assert (forall i name, field_strings (table st) !! i = Some name ->
                         field_strings (table st') !! i = Some name) as Hstr.
  { intros i name Hi. apply Ht in Hi. apply Ht'. by eapply lookup_weaken. }
  assert (forall i name, field_strings (table st') !! i = Some name ->
    data_name st = Some name <-> subscription_data_index st = Some i) as Hindex.
  { intros i name Hi. unfold data_name. split.
    - destruct (subscription_data_index st) as [j|]; simpl; [|done]. intros Hj%Hstr. f_equal.
      by eapply (table_names_inj (table st')).
    - intros Hj. destruct (Hsd i Hj) as [name' Hn]. rewrite Hj. simpl. rewrite Hn. apply Hstr in Hn. congruence. }
  assert (forall i, subscription_data_index st = Some i -> is_Some (field_strings (table st') !! i)) as Hrange.
  { intros i Hi. destruct (Hsd i Hi) as [name Hn]. exists name. by apply Hstr. }
  fold (all_values (table st') e s (subscription_data_index st)).
  split_and!; [done| |done|].
  { split; [by apply all_values_spec|by apply (all_values_nodup _ (data_name st))]. }
  intros name v. unfold value_of. case_decide as Hx.
  - intros _. unfold data_name in Hx. destruct (subscription_data_index st) as [i|] eqn:Hi; [|done].
    simpl in Hx. symmetry in Hx. by eapply list_elem_of_lookup_2, Hstr.
  - destruct (elem_get e name) as [c|] eqn:Hget; simpl; [|done]. intros Hv.
    apply elem_get_iff in Hget as [(i & Hi)%list_elem_of_lookup <-]; [|done].
    destruct (Hcov i c) as [|[idx Hidx]]; [|done|congruence|].
    + apply elem_of_seq. apply lookup_lt_Some in Hi. lia.
    + eapply list_elem_of_lookup_2, Ht', Hidx.
Qed.

(** ** Filtered consumers *)

Lemma position_of_spec t name i :
  table_ok t -> position_of (field_strings t) name = Some i <-> field_strings t !! i = Some name.
Proof.
  intros Ht. unfold position_of. split.
  - destruct (list_find _ _) as [[j x]|] eqn:Hf; simpl; [|done]. intros [= ->].
    apply list_find_Some in Hf as (Hj & -> & _). done.
  - intros Hi. assert (list_find (eq name) (field_strings t) = Some (i, name)) as ->; [|done].
    apply list_find_Some. split_and!; [done|done|]. intros j y Hj Hlt <-.
    pose proof (table_names_inj _ _ _ _ Ht Hi Hj). lia.
Qed.

Lemma project_index_spec t meta i :
  table_ok t -> project_index t meta = Some i <-> field_strings t !! i = Some (meta_name meta).
Proof.
  intros Ht. unfold project_index. split.
  - destruct (position_of _ _) as [j|] eqn:Hp; simpl; [|done]. intros [= <-].
    apply (position_of_spec t) in Hp; [|done]. by rewrite (proj2 (table_index _ _ _ Ht Hp)).
  - intros Hi. rewrite (proj2 (position_of_spec t _ _ Ht) Hi). simpl.
    by rewrite (proj2 (table_index _ _ _ Ht Hi)).
Qed.

(** The cached map is the one of the layout it was built from. *)
Definition projection_ok (st : SubscriptionState) : Prop :=
  forall c, projection_source st = Some c -> projection_version st = Update.layout_version (layout_of c) ->
    projection_indices st = project_index (table st) <$> layout_fields (layout_of c).

(** A held layout's address belongs to it alone. *)
Definition same_arc (st : SubscriptionState) (source : SharedLayout) : Prop :=
  forall c, projection_source st = Some c -> layout_addr c = layout_addr source -> c = source.

Lemma cache_projection_spec st source :
  projection_ok st -> same_arc st source ->
  projection_indices (cache_projection st source)
  = project_index (table st) <$> layout_fields (layout_of source)
  /\ projection_ok (cache_projection st source)
  /\ same_frame st (cache_projection st source) /\ table (cache_projection st source) = table st
  /\ projection_source (cache_projection st source) = Some source.
Proof.
  intros Hok Harc. unfold cache_projection. case_decide as Hd.
  - destruct Hd as [Hv Ha]. destruct (projection_source st) as [c|] eqn:Hc; simplify_eq/=.
    apply (Harc c) in Ha as ->; [|done]. split_and!; [by apply Hok|done|done|done|done].
  - split_and!; try done. intros c [= <-] _. done.
Qed.

Definition project_field (t : FieldTable) (layout : FieldLayout) (x : nat * UpdateValue)
  : option UpdateField :=
  layout_fields layout !! x.1 ≫= fun meta => (fun idx => mkField idx x.2) <$> project_index t meta.

Lemma learn_kind_names t idx meta v : same_names t (learn_kind t idx meta v).
Proof.
  unfold learn_kind. eapply same_names_trans; [|apply change_kind_names].
  destruct (meta_provisional meta); apply change_kind_names.
Qed.

(** A filtered consumer picks the fields it knows by name. *)
Lemma visit_filtered layout source st values :
  capture_all_fields st = false ->
  projection_indices st = project_index (table st) <$> layout_fields layout ->
  let '(st', vs) := visit_loop layout source st values in
  vs = (values ++ omap (project_field (table st) layout) source)%list
  /\ same_names (table st) (table st') /\ same_frame st st'
  /\ projection_indices st' = projection_indices st
  /\ projection_source st' = projection_source st /\ projection_version st' = projection_version st.
Proof.
  revert st values. induction source as [|[i v] source IH]; intros st values Hc Hp; simpl.
  { rewrite app_nil_r. done. }
  unfold project_field at 1. simpl.
  destruct (layout_fields layout !! i) as [meta|] eqn:Hm; simpl; [|by apply IH].
  unfold find_column. rewrite Hp, list_lookup_fmap, Hm. simpl. rewrite Hc.
  destruct (project_index (table st) meta) as [idx|] eqn:Hi; simpl.
  2:{ specialize (IH st values Hc Hp). rewrite <-Hp. exact IH. }
  destruct (learn_kind_names (table st) idx meta v) as (Hs & Hk & Hr).
  set (st1 := set_table st (learn_kind (table st) idx meta v)).
  assert (forall m, project_index (table st1) m = project_index (table st) m) as He
    by (intros m; unfold project_index; simpl; by rewrite Hs).
  specialize (IH st1 (values ++ [mkField idx v])%list Hc).
  destruct (visit_loop layout source st1 _) as [st' vs].
  destruct IH as (-> & Hn & Hf & HI & HS & HV).
  { simpl. rewrite Hp. apply list_fmap_ext. intros ? m _. symmetry. apply He. }
  split_and!; [|by eapply same_names_trans|done|by rewrite HI|done|done].
  rewrite <-app_assoc. simpl. f_equal. f_equal. apply omap_ext_in. intros x _. unfold project_field.
  destruct (layout_fields layout !! x.1); simpl; [|done]. by rewrite He.
Qed.

(** ** Ordering *)

Lemma ordered_sorted last values :
  ordered last values = true ->
  StronglySorted field_le values
  /\ forall i f, last = Some i -> f ∈ values -> i <= field_index f.
Proof.
  revert last. induction values as [|f values IH]; intros last H; simpl in H.
  { split; [constructor|]. by intros i f _ ?%not_elem_of_nil. }
  apply andb_true_iff in H as [Hl Ho]. destruct (IH _ Ho) as [Hs Hm]. split.
  - constructor; [done|]. apply Forall_forall. intros g Hg. by apply (Hm (field_index f)).
  - intros i g -> Hg. apply bool_decide_eq_true in Hl. apply elem_of_cons in Hg as [->|Hg]; [done|].
    specialize (Hm _ _ eq_refl Hg). lia.
Qed.

Lemma strictly_sorted values :
  StronglySorted field_le values -> NoDup (field_index <$> values) -> StronglySorted field_lt values.
Proof.
  induction 1 as [|f values _ IH Hf]; csimpl; [constructor|].
  intros [Hn Hd]%NoDup_cons. constructor; [by apply IH|]. rewrite Forall_forall in *.
  intros g Hg. specialize (Hf g Hg). unfold field_le, field_lt in *.
  assert (field_index f <> field_index g); [|lia]. intros He. apply Hn. rewrite He.
  apply list_elem_of_fmap. eauto.
Qed.

(** Sorting when out of order gives the values of a filtered consumer in its order. *)
Lemma sort_values values :
  NoDup (field_index <$> values) ->
  let vs := if negb (ordered None values) then merge_sort field_le values else values in
  StronglySorted field_lt vs /\ forall f, f ∈ vs <-> f ∈ values.
Proof.
  intros Hd vs. subst vs. destruct (ordered None values) eqn:Ho; simpl.
  - split; [|done]. apply strictly_sorted; [|done]. by apply (ordered_sorted None).
  - assert (merge_sort field_le values ≡ₚ values) as Hperm by apply merge_sort_Permutation.
    split; [|intros f; by rewrite Hperm].
    apply strictly_sorted; [apply (StronglySorted_merge_sort field_le)|]. by rewrite Hperm.
Qed.

(** ** One projected update *)

Lemma build_layout_name t i :
  columns_cover t -> meta_name <$> layout_fields (build_layout t) !! i = field_strings t !! i.
Proof.
  intros [Hl _]. simpl. rewrite list_lookup_imap, lookup_zip_with.
  destruct (field_strings t !! i) as [name|] eqn:Hn; simpl; [|done].
  apply lookup_lt_Some in Hn. rewrite <-Hl in Hn. apply lookup_lt_is_Some_2 in Hn as [[k p] ->]. done.
Qed.

Section Projected.
Context (t tc : FieldTable) (Hc : columns_cover t) (Ht : table_ok t) (Htc : table_ok tc).
Context (values : list UpdateField) (Hd : NoDup (field_index <$> values)).
Context (Hnamed : forall i v, mkField i v ∈ values -> is_Some (field_strings t !! i)).

Lemma project_field_spec i v f :
  project_field tc (build_layout t) (i, v) = Some f
  <-> exists name, field_strings t !! i = Some name
      /\ field_strings tc !! field_index f = Some name /\ field_value f = v.
Proof.
  unfold project_field. cbn [fst snd]. rewrite <-(build_layout_name t i Hc).
  destruct (layout_fields (build_layout t) !! i) as [meta|]; simpl; [|naive_solver].
  pose proof (project_index_spec tc meta) as Hp.
  destruct (project_index tc meta) as [j|]; simpl; destruct f as [k w]; simpl.
  - split; [intros [= <- <-]; exists (meta_name meta); split_and!; try done; by apply Hp|].
    intros (name & [= <-] & Hk & <-). apply Hp in Hk; [|done]. naive_solver.
  - split; [done|]. intros (name & [= <-] & Hk & _). by apply Hp in Hk.
Qed.

(** A projected value is the value of its name. *)
Lemma projected_spec j v :
  mkField j v ∈ omap (project_field tc (build_layout t)) (source_of values)
  <-> exists i name, mkField i v ∈ values /\ field_strings t !! i = Some name
      /\ field_strings tc !! j = Some name.
Proof.
  unfold source_of. rewrite list_elem_of_omap. split.
  - intros (x & ([i w] & -> & Hin)%list_elem_of_fmap & (name & Hi & Hj & Hv)%project_field_spec).
    simpl in *. subst w. eauto.
  - intros (i & name & Hin & Hi & Hj). exists (i, v). split.
    + apply list_elem_of_fmap. by exists (mkField i v).
    + apply project_field_spec. eauto.
Qed.

Lemma projected_nodup :
  NoDup (field_index <$> omap (project_field tc (build_layout t)) (source_of values)).
Proof.
  apply (omap_index_nodup (fun x => default "" (field_strings t !! x.1)) (field_strings tc)).
  - unfold source_of. rewrite <-list_fmap_compose.
    change (_ <$> values) with ((fun i => default "" (field_strings t !! i)) ∘ field_index <$> values).
    rewrite list_fmap_compose.
    apply NoDup_fmap_2_strong; [|done]. intros i j (f & -> & Hf)%list_elem_of_fmap (g & -> & Hg)%list_elem_of_fmap.
    destruct f as [i v], g as [j w]. simpl. apply Hnamed in Hf as [n Hi], Hg as [n' Hj].
    rewrite Hi, Hj. simpl. intros ->. by eapply (table_names_inj t).
  - intros [i v] f _ (name & Hi & Hj & _)%project_field_spec. simpl. by rewrite Hi.
Qed.

(** The update a filtered consumer projects, by name and in its own order. *)
Lemma projected_values data e s own :
  exact t data e s values -> StronglySorted field_lt own ->
  (forall j v, mkField j v ∈ own
     <-> exists name, field_strings tc !! j = Some name /\ value_of data e s name = Some v) ->
  (forall name v, name ∈ field_strings tc -> value_of data e s name = Some v -> name ∈ field_strings t) ->
  (if negb (ordered None (omap (project_field tc (build_layout t)) (source_of values)))
   then merge_sort field_le (omap (project_field tc (build_layout t)) (source_of values))
   else omap (project_field tc (build_layout t)) (source_of values)) = own.
Proof.
  intros [Hx _] Hs Hown Hcover. destruct (sort_values _ projected_nodup) as [Hsorted Hmem].
  eapply (strongly_sorted_ext field_lt); [unfold field_lt; lia|exact Hsorted|done|].
  intros [j v]. rewrite Hmem, projected_spec, Hown. split.
  - intros (i & name & Hi & Hn & Hj). exists name. split; [done|].
    apply Hx in Hi as (name' & Hn' & Hv). congruence.
  - intros (name & Hj & Hv). destruct (list_elem_of_lookup_1 _ _ (Hcover name v
      ltac:(by eapply list_elem_of_lookup_2) Hv)) as [i Hi].
    exists i, name. split_and!; [|done|done]. apply Hx. eauto.
Qed.
End Projected.

Definition same_modes (st st' : SubscriptionState) : Prop :=
  capture_all_fields st' = capture_all_fields st
  /\ subscription_data_index st' = subscription_data_index st
  /\ event_type_index st' = event_type_index st
  /\ event_subtype_index st' = event_subtype_index st
  /\ mktdata_service st' = mktdata_service st.

(** What projecting leaves of a filtered consumer. *)
Lemma project_image_filtered st source :
  capture_all_fields st = false -> projection_ok st -> same_arc st (su_layout source) ->
  let picked := omap (project_field (table st) (layout_of (su_layout source))) (source_of (su_values source)) in
  let '(st', u) := project_image st source in
  update_values u = (if negb (ordered None picked) then merge_sort field_le picked else picked)
  /\ timestamp_us u = su_timestamp source
  /\ same_names (table st) (table st') /\ same_modes st st' /\ projection_ok st'
  /\ projection_source st' = Some (su_layout source).
Proof.
  intros Hc Hok Harc picked. unfold project_image, project_values, visit_projected_values.
  destruct (cache_projection_spec st (su_layout source) Hok Harc) as (Hi & Hok1 & Hf1 & Ht1 & Hsrc).
  set (st1 := cache_projection st (su_layout source)) in *.
  pose proof (visit_filtered (layout_of (su_layout source)) (source_of (su_values source)) st1 []) as Hv.
  destruct (visit_loop _ _ st1 []) as [st2 vs]. destruct Hf1 as (_ & Hc1 & Hs1 & _ & He1 & Hb1 & Hm1).
  destruct Hv as (-> & Hn & (_ & Hc2 & Hs2 & _ & He2 & Hb2 & Hm2) & HI & HS & HV); [congruence|by rewrite Ht1|].
  rewrite Ht1 in *. assert (capture_all_fields (refresh_layout st2) = false) as ->.
  { unfold refresh_layout. case_decide; simpl; congruence. }
  simpl. subst picked. split_and!; [done|done| | | |].
  - unfold refresh_layout. by case_decide.
  - unfold same_modes, refresh_layout. case_decide; simpl; split_and!; congruence.
  - assert (projection_ok st2) as Hok2.
    { intros c. rewrite HS, HV, HI. intros H1 H2. rewrite (Hok1 c H1 H2), Ht1. apply list_fmap_ext.
      intros ? m _. unfold project_index. by destruct Hn as [-> _]. }
    unfold refresh_layout. by case_decide.
  - unfold refresh_layout. case_decide; simpl; congruence.
Qed.
