(* ===== verification/Shared.v ===== *)
(** * A shared feed is transparent

    One decoder per feed, projected onto its consumers, delivers to each filtered
    consumer exactly what the consumer's own decoder would: the same values under the
    same indices with the same timestamps, the same suppressed messages and the same
    losses ([Feed::sink], [Feed::on_update] of [engine/shared_subscriptions.rs] with
    [SubscriptionState::on_message] and [project_update]). *)

From Stdlib Require Import Ascii String ZArith Lia Sorting.
From stdpp Require Import sorting.
From S2P Require Import Prelude Errors Update Subscription Decoder DecoderTypes Projection.
Local Open Scope string_scope.

(** ** The two pipelines *)

(** What a consumer sees of one message. *)
Inductive Delivered : Type :=
| DNothing
| DLost
| DFailed (e : BlpError)
| DValues (timestamp : Z) (values : list UpdateField).

Definition delivered (em : Emitted) : Delivered :=
  match em with
  | None => DNothing
  | Some (Ok u) => DValues (timestamp_us u) (update_values u)
  | Some (Err (SubscriptionDataLoss _ _)) => DLost
  | Some (Err e) => DFailed e
  end.

(** A feed decodes into a callback that stays open and handles field errors. *)
Definition feed_env (env : StreamEnv) : StreamEnv :=
  mkStreamEnv false true true true (system_time_us env).

Section Pipelines.
(** The address of the layout an update carries. *)
Variable arc : FieldLayout -> nat.

Definition share (u : SubscriptionUpdate) : SharedUpdate :=
  mkSharedUpdate (mkShared (arc (update_layout u)) (update_layout u)) (update_values u) (timestamp_us u).

(** Decode once and project onto one consumer. *)
Definition shared_step (st c : SubscriptionState) (env : StreamEnv) (m : Message)
  : SubscriptionState * SubscriptionState * Delivered :=
  let '(st, _, em, _) := on_message (feed_env env) st m in
  match em with
  | Some (Ok u) =>
      let '(c, _, em) := project_update env c (share u) (mktdata_service c) in (st, c, delivered em)
  | _ => (st, c, if stream_closed env then DNothing else delivered em)
  end.

Fixpoint shared_run (st c : SubscriptionState) (ms : list (StreamEnv * Message)) : list Delivered :=
  match ms with
  | [] => []
  | (env, m) :: ms => let '(st, c, d) := shared_step st c env m in d :: shared_run st c ms
  end.
End Pipelines.

(** The consumer's own decoder. *)
Fixpoint own_run (own : SubscriptionState) (ms : list (StreamEnv * Message)) : list Delivered :=
  match ms with
  | [] => []
  | (env, m) :: ms => let '(own, _, em, _) := on_message env own m in delivered em :: own_run own ms
  end.

(** ** Losses are seen by name *)

Lemma is_str_spec v s : is_str v s = true <-> v = VStr s.
Proof. destruct v; simpl; try naive_solver. rewrite bool_decide_eq_true. naive_solver. Qed.

Lemma loss_scan_spec et es values s d :
  et <> es -> NoDup (field_index <$> values) ->
  let '(s', d') := fold_left (loss_scan et es) values (s, d) in
  (s' = true <-> mkField et (VStr "SUMMARY") ∈ values \/ s = true /\ et ∉ field_index <$> values)
  /\ (d' = true <-> mkField es (VStr "DATALOSS") ∈ values \/ d = true /\ es ∉ field_index <$> values).
Proof.
  intros Hne. revert s d. induction values as [|[i v] values IH]; intros s d; csimpl.
  { set_solver. }
  intros [Hi Hd]%NoDup_cons. assert (forall w, mkField i w ∉ values) as Hi'.
  { intros w Hw. apply Hi, list_elem_of_fmap. by exists (mkField i w). }
  simpl. destruct (decide (i = et)) as [->|Het]; [|destruct (decide (i = es)) as [->|Hes]].
  - specialize (IH (is_str v "SUMMARY") d Hd). destruct (fold_left _ values _) as [s' d'].
    destruct IH as [-> ->]. rewrite is_str_spec, !not_elem_of_cons, !elem_of_cons. naive_solver.
  - specialize (IH s (is_str v "DATALOSS") Hd). destruct (fold_left _ values _) as [s' d'].
    destruct IH as [-> ->]. rewrite is_str_spec, !not_elem_of_cons, !elem_of_cons. naive_solver.
  - specialize (IH s d Hd). destruct (fold_left _ values _) as [s' d'].
    destruct IH as [-> ->]. rewrite !not_elem_of_cons, !elem_of_cons. naive_solver.
Qed.

Definition events_ok (st : SubscriptionState) : Prop :=
  field_strings (table st) !! event_type_index st = Some EVENT_TYPE
  /\ field_strings (table st) !! event_subtype_index st = Some EVENT_SUBTYPE.

(** A loss is a matter of the message, not of the table that decoded it. *)
Lemma dataloss_exact st data e s values :
  events_ok st -> table_ok (table st) -> exact (table st) data e s values ->
  is_dataloss_update st values = true
  <-> value_of data e s EVENT_TYPE = Some (VStr "SUMMARY")
      /\ value_of data e s EVENT_SUBTYPE = Some (VStr "DATALOSS").
Proof.
  intros [Het Hes] Ht [Hx Hd]. assert (event_type_index st <> event_subtype_index st) as Hne
    by (intros He; rewrite He, Hes in Het; discriminate).
  pose proof (loss_scan_spec _ _ values false false Hne Hd) as Hs. unfold is_dataloss_update.
  destruct (fold_left _ values _) as [s' d']. destruct Hs as [Hs Hl].
  rewrite andb_true_iff, Hs, Hl, !Hx, Het, Hes. naive_solver.
Qed.

(** ** One message *)

Lemma all_child_handled st i c : exists r, (all_child_plain true st i c).2 = Ok r.
Proof.
  unfold all_child_plain. destruct (_ || _) eqn:Hc.
  - unfold reject_child. destruct (is_requested_field _ _); eauto.
  - destruct (ensure_field_for_child st c) as [st1 idx]. unfold capture_child.
    pose proof (decode_scalar_value true (table st1) idx c Hc) as Hv.
    destruct (decode_scalar _ _ _ _) as [[t rs] [[v|]|e]]; simpl in *; [eauto|eauto|by destruct Hv].
Qed.

Lemma all_loop_handled e is_ st rs values :
  (forall i, i ∈ is_ -> is_Some (elem_get_at e i)) ->
  exists vs, (all_loop (all_child_plain true) e is_ st rs values).2 = Ok vs.
Proof.
  revert st rs values. induction is_ as [|i is_ IH]; intros st rs values Hi; simpl; [eauto|].
  destruct (Hi i ltac:(set_solver)) as [c ->]. destruct (all_child_handled st i c) as [r Hr].
  destruct (all_child_plain true st i c) as [[st1 rs1] o]. simpl in Hr. subst o.
  destruct r as [[idx v]|]; apply IH; set_solver.
Qed.

Lemma extract_requested_keys h st e sd :
  field_name_keys (extract_requested_with None h st e sd).1.1 = field_name_keys (table st).
Proof. unfold extract_requested_with. rewrite requested_loop_sources. apply source_loop_names. Qed.

Section OneMessage.
Context (type_of : nat -> string).

(** A decoder between messages. *)
Record healthy (st : SubscriptionState) : Prop := mkHealthy {
  he_dec : decoder_ok type_of st;
  he_typed : typed st;
  he_table : table_ok (table st);
  he_events : events_ok st;
  he_data i : subscription_data_index st = Some i ->
    field_strings (table st) !! i = Some SUBSCRIPTION_DATA_FIELD
}.

(** A message whose children can be reached, without a child of the projected name;
    the consumer has an ordinary stream and can decode what it asked for. *)
Record shared_ok (names : list string) (x : StreamEnv * Message) : Prop := mkSharedOk {
  so_message : message_ok type_of (OnMessage x.1 x.2);
  so_decodable : decodable names (m_elements x.2);
  so_stream : stream_is_callback x.1 = false;
  so_indexed i : i < length (el_children (m_elements x.2)) -> el_indexed (m_elements x.2) i = true;
  so_data : elem_get (m_elements x.2) SUBSCRIPTION_DATA_FIELD = None
}.

Lemma data_name_field st name : healthy st -> data_name st = Some name -> name = SUBSCRIPTION_DATA_FIELD.
Proof.
  intros [_ _ _ _ Hd]. unfold data_name. destruct (subscription_data_index st) as [i|]; simpl; [|done].
  rewrite (Hd i eq_refl). congruence.
Qed.

(** What a message leaves and yields. *)
Record decoded (st st2 : SubscriptionState) (m : Message) (values : list UpdateField) : Prop :=
  mkDecoded {
    de_table : table_ok (table st2);
    de_exact : exact (table st2) (data_name st) (m_elements m) (m_type m) values;
    de_modes : same_modes st st2;
    de_names i name : field_strings (table st) !! i = Some name ->
      field_strings (table st2) !! i = Some name;
    de_filtered : capture_all_fields st = false ->
      field_strings (table st2) = field_strings (table st)
      /\ values = named_values (field_strings (table st)) (data_name st) (m_elements m) (m_type m);
    de_all : capture_all_fields st = true -> forall name v,
      value_of (data_name st) (m_elements m) (m_type m) name = Some v -> name ∈ field_strings (table st2)
  }.

Lemma plain_decoded env env0 names st m :
  healthy st -> shared_ok names (env0, m) ->
  field_handler env = true
  \/ capture_all_fields st = false /\ decodable (field_strings (table st)) (m_elements m) ->
  (Z.of_nat (length (field_strings (table st)) + length (el_children (m_elements m))) <= 65536)%Z ->
  exists st2 rs values,
    extract_plain env st m ((fun _ => m_type m) <$> subscription_data_index st) = (st2, rs, Ok values)
    /\ decoded st st2 m values.
Proof.
  intros He [Hm _ _ Hi Hsd] Hh Hn. simpl in *. unfold extract_plain.
  destruct (capture_all_fields st) eqn:Hc.
  1: destruct Hh as [->|[? _]]; [|done].
  - pose proof (all_extraction true st (m_elements m) ((fun _ => m_type m) <$> subscription_data_index st)
                  (he_typed _ He)) as Hx.
    pose proof (extract_all_frame _ st (m_elements m) ((fun _ => m_type m) <$> subscription_data_index st)
                  (all_child_plain_frame true)) as (_ & Hf1 & Hf2 & _ & Hf3 & Hf4 & Hf5).
    destruct (extract_all_with (all_child_plain true) st _ _) as [[st2 rs] r] eqn:Hex.
    destruct Hx as [_ Hl]. simpl in *.
    assert (exists vs, r = Ok vs) as [vs ->].
    { unfold extract_all_with in Hex. destruct (push_subscription_data st _) as [st1 values].
      destruct (all_loop_handled (m_elements m) (seq 0 (length (el_children (m_elements m)))) st1 [] values)
        as [vs Hvs]; [|rewrite Hex in Hvs; eauto].
      intros i [_ Hlt]%elem_of_seq. unfold elem_get_at. rewrite Hi by lia. by apply lookup_lt_is_Some. }
    destruct (all_exact true st (m_elements m) (m_type m) st2 rs vs) as (Ht & Hx & Hs & Hcov); try done.
    + exact (he_table _ He).
    + lia.
    + intros i Hd. rewrite (he_data _ He i Hd). eauto.
    + apply Hm.
    + intros name Hd. by rewrite (data_name_field st name He Hd).
    + exists st2, rs, vs. split; [done|]. split; try done. by rewrite Hc.
  - pose proof (requested_values (field_handler env) st (m_elements m) (m_type m) (he_table _ He)) as Hv.
    pose proof (requested_exact (field_handler env) st (m_elements m) (m_type m)) as Hx.
    pose proof (requested_extraction (field_handler env) st (m_elements m) ((fun _ => m_type m) <$> subscription_data_index st)
                  (ty_cover _ (he_typed _ He))) as Hex.
    pose proof (extract_requested_keys (field_handler env) st (m_elements m)
      ((fun _ => m_type m) <$> subscription_data_index st)) as Hkeys.
    destruct (extract_requested_with None (field_handler env) st _ _) as [[t rs] [vs|err]];
      simpl in Hv, Hkeys; [|by destruct Hv as [Hv1 Hv2], Hh as [|[_ ?]]; [congruence|]].
    destruct Hex as [_ Hs]. exists (set_table st t), rs, vs. split; [done|].
    specialize (Hx t rs vs (he_table _ He) eq_refl). destruct (he_table _ He) as [Hk Hb].
    split; simpl; try done.
    + split; [|by rewrite Hs]. intros name i. rewrite Hkeys, Hs. apply Hk.
    + unfold exact. rewrite Hs. exact Hx.
    + intros i name. by rewrite Hs.
    + by rewrite Hc.
Qed.

Lemma healthy_erase st : healthy st -> healthy (erase st).
Proof.
  intros [[H1 H2 H3] [T1 T2 T3 T4] Ht He Hd].
  split; [|by split|exact Ht|exact He|exact Hd]. split; [|by intros k s ?%not_elem_of_nil|exact H3].
  intros i s. simpl. by rewrite lookup_nil.
Qed.

Lemma finish_modes env m st rs r : same_modes st (finish_message env m (st, rs, r)).1.1.1.
Proof.
  unfold same_modes, finish_message, refresh_layout, deliver_update.
  destruct (decide _), r as [values|err]; try done; simpl;
    (destruct (is_dataloss_update _ values); [done|]); simpl; by destruct (_ && _ && _).
Qed.

(** A message decodes to the values its names have, and leaves a healthy decoder. *)
Lemma on_message_decoded env env0 names st m :
  healthy st -> shared_ok names (env0, m) ->
  field_handler env = true
  \/ capture_all_fields st = false /\ decodable (field_strings (table st)) (m_elements m) ->
  stream_closed env = false ->
  (Z.of_nat (length (field_strings (table st)) + length (el_children (m_elements m))) <= 65536)%Z ->
  exists st2 rs values,
    on_message env st m = finish_message env m (st2, rs, Ok values) /\ decoded st st2 m values
    /\ healthy (on_message env st m).1.1.1
    /\ length (field_strings (table (on_message env st m).1.1.1))
       <= length (field_strings (table st)) + length (el_children (m_elements m)).
Proof.
  intros He Hs Hh Hcl Hn. pose proof (healthy_erase st He) as Hee.
  destruct (so_message _ _ Hs) as [Hd Hm]. simpl in Hd, Hm.
  destruct (plain_decoded env env0 names (erase st) m Hee Hs Hh Hn) as (st2 & rs & values & Hx & Hde).
  destruct (on_message_reference type_of env st m (he_dec _ He) (so_message _ _ Hs)) as [Href Hdec].
  pose proof (on_message_typed env (erase st) m (he_typed _ Hee) ltac:(simpl; lia)) as Hty.
  rewrite Href in Hty.
  assert (exists st3, on_message env st m = finish_message env m (st3, rs, Ok values)
    /\ decoded st st3 m values) as (st3 & Hon & Hde3).
  { unfold on_message. rewrite Hcl.
    destruct (subscription_data_arc st m) as [st1 sd] eqn:Harc.
    destruct (subscription_data_arc_ok type_of st m st1 sd (he_dec _ He) Hm Harc) as (-> & Hok1 & Heq & Hc1).
    pose proof (extract_reference type_of env st1 m ((fun _ => m_type m) <$> subscription_data_index st) Hok1 Hd) as Hr.
    rewrite Heq in Hr. change (subscription_data_index (erase st)) with (subscription_data_index st) in Hx.
    rewrite Hx in Hr. destruct (extract env st1 m _) as [[st3 rs3] r3]. simpl in Hr. simplify_eq.
    exists st3. split; [done|]. destruct Hde. by split. }
  exists st3, rs, values. split_and!; [done|done| |].
  - pose proof (finish_modes env m st3 rs (Ok values)) as (Hm1 & Hm2 & Hm3 & Hm4 & _).
    destruct (finish_message_state env m st3 rs (Ok values)) as (_ & Htab & _). rewrite <-Hon in *.
    destruct (on_message env st m) as [[[st' o] em] rs']. simpl in *.
    destruct Hde3 as [Ht3 _ (_ & Hd3 & He3 & Hs3 & _) Hnm _ _]. split.
    + done.
    + destruct Hty as [[] _]. by split.
    + by rewrite Htab.
    + destruct (he_events _ He). split; rewrite Htab; [rewrite Hm3, He3|rewrite Hm4, Hs3]; by apply Hnm.
    + intros i. rewrite Htab, Hm2, Hd3. intros Hi. by apply Hnm, (he_data _ He).
  - destruct (on_message env st m) as [[[st' o] em] rs']. by destruct Hty as (_ & _ & Hl).
Qed.
End OneMessage.

(** ** Shared and own decoding in step *)

Definition message_time (env : StreamEnv) (m : Message) : Z :=
  default (system_time_us env) (m_received_us m).

(** What a consumer sees of decoded values. *)
Definition seen (st : SubscriptionState) (suppress : bool) (time : Z) (values : list UpdateField)
  : Delivered :=
  if is_dataloss_update st values then DLost
  else if suppress && negb (capture_all_fields st) && negb (has_requested_data st values) then DNothing
  else DValues time values.

Lemma is_dataloss_modes st st' values :
  same_modes st st' -> is_dataloss_update st' values = is_dataloss_update st values.
Proof. intros (_ & _ & He & Hs & _). unfold is_dataloss_update. by rewrite He, Hs. Qed.

Lemma has_requested_modes st st' values :
  same_modes st st' -> has_requested_data st' values = has_requested_data st values.
Proof. intros (_ & _ & He & Hs & _). unfold has_requested_data. by rewrite He, Hs. Qed.

Lemma refresh_modes st : same_modes st (refresh_layout st).
Proof. unfold refresh_layout. by case_decide. Qed.

Lemma seen_modes st st' suppress time values :
  same_modes st st' -> seen st' suppress time values = seen st suppress time values.
Proof.
  intros Hm. unfold seen. rewrite (is_dataloss_modes st), (has_requested_modes st) by done.
  by destruct Hm as (-> & _).
Qed.

Lemma finish_seen env m st rs values :
  delivered (finish_message env m (st, rs, Ok values)).1.2
  = seen st (mktdata_service st && negb (stream_is_callback env)) (message_time env m) values.
Proof.
  rewrite <-(seen_modes st (refresh_layout st)) by apply refresh_modes.
  replace (mktdata_service st) with (mktdata_service (refresh_layout st)) by apply refresh_modes.
  unfold finish_message, seen. destruct (is_dataloss_update _ _); [done|]. unfold deliver_update. simpl.
  change (has_requested_data (set_metrics ?s _ _ _ _ _ _) ?v) with (has_requested_data s v).
  by destruct (_ && _ && _).
Qed.

Lemma finish_feed env m st rs values :
  (finish_message (feed_env env) m (st, rs, Ok values)).1.2
  = if is_dataloss_update st values then Some (Err (dataloss_error (refresh_layout st)))
    else Some (Ok (mkUpdate (message_time env m) (sub_topic_id (refresh_layout st))
                     (sub_topic (refresh_layout st)) (sub_layout (refresh_layout st)) values)).
Proof.
  rewrite <-(is_dataloss_modes st (refresh_layout st)) by apply refresh_modes.
  unfold finish_message. destruct (is_dataloss_update _ _); [done|]. unfold deliver_update. simpl.
  by rewrite andb_false_r.
Qed.

Lemma finish_layout env m st rs r :
  sub_layout (finish_message env m (st, rs, r)).1.1.1 = sub_layout (refresh_layout st).
Proof.
  unfold finish_message. destruct r as [values|err]; [|done].
  destruct (is_dataloss_update _ values); [done|]. unfold deliver_update. simpl. by destruct (_ && _ && _).
Qed.

Lemma project_update_seen env st source suppress :
  stream_closed env = false ->
  let '(st', u) := project_image st source in
  delivered (project_update env st source suppress).2 = seen st' suppress (timestamp_us u) (update_values u)
  /\ table (project_update env st source suppress).1.1 = table st'
  /\ same_modes st' (project_update env st source suppress).1.1
  /\ projection_source (project_update env st source suppress).1.1 = projection_source st'
  /\ (projection_ok st' -> projection_ok (project_update env st source suppress).1.1).
Proof.
  intros Hc. unfold project_update. rewrite Hc. destruct (project_image st source) as [st' u].
  unfold seen. destruct (is_dataloss_update st' _); [done|]. unfold deliver_update. simpl.
  change (has_requested_data (set_metrics ?s _ _ _ _ _ _) ?v) with (has_requested_data s v).
  by destruct (_ && _ && _).
Qed.

Section Step.
Context (type_of : nat -> string) (arc : FieldLayout -> nat) (Harc : Inj (=) (=) arc).

(** A consumer's projection and its own decoder have the same fields. *)
Record twin (c own : SubscriptionState) : Prop := mkTwin {
  tw_names : field_strings (table c) = field_strings (table own);
  tw_keys : field_name_keys (table c) = field_name_keys (table own);
  tw_modes : same_modes own c;
  tw_projection : projection_ok c;
  tw_arc s : projection_source c = Some s -> layout_addr s = arc (layout_of s)
}.

Record linked (budget : nat) (st c own : SubscriptionState) : Prop := mkLinked {
  li_shared : healthy type_of st;
  li_size : (Z.of_nat (length (field_strings (table st)) + budget) <= 65536)%Z;
  li_own : healthy type_of own;
  li_own_size : (Z.of_nat (length (field_strings (table own)) + budget) <= 65536)%Z;
  li_filtered : capture_all_fields own = false;
  li_twin : twin c own;
  li_data : data_name st = data_name own;
  li_cover : capture_all_fields st = true
    \/ forall name, name ∈ field_strings (table own) -> name ∈ field_strings (table st)
}.

Lemma same_modes_trans st1 st2 st3 : same_modes st1 st2 -> same_modes st2 st3 -> same_modes st1 st3.
Proof. unfold same_modes. intuition congruence. Qed.

Lemma twin_table c own : twin c own -> table_ok (table own) -> table_ok (table c).
Proof.
  intros [Hn Hk _ _ _] [H1 H2]. split; [|by rewrite Hn]. intros name i. rewrite Hn, Hk. apply H1.
Qed.

(** The projection of the shared update is the consumer's own decoding. *)
Lemma twin_project budget st c own st2 m vs time :
  linked budget st c own -> decoded st st2 m vs -> columns_cover (table st2) ->
  let l := build_layout (table st2) in
  let '(c', u) := project_image c (mkSharedUpdate (mkShared (arc l) l) vs time) in
  update_values u
  = named_values (field_strings (table own)) (data_name own) (m_elements m) (m_type m)
  /\ timestamp_us u = time /\ twin c' own.
Proof.
  intros [He _ Ho _ Hc Htw Hda Hcov] Hde Hcol l.
  pose proof (twin_table _ _ Htw (he_table _ _ Ho)) as Htc. destruct Htw as [Hn Hk Hm Hp Ha].
  pose proof (project_image_filtered c (mkSharedUpdate (mkShared (arc l) l) vs time)) as Hpr.
  simpl in Hpr. destruct (project_image c _) as [c' u].
  destruct Hpr as (Hv & Ht & (Hn' & Hk' & _) & Hm' & Hp' & Hs'); [by destruct Hm as (-> & _)|done| |].
  { intros s Hs Heq. specialize (Ha s Hs). destruct s as [a l']. simpl in *. subst a.
    apply Harc in Heq as ->. done. }
  split_and!; [|done|].
  - rewrite Hv, <-Hn. apply (projected_values (table st2) (table c)) with (data := data_name own)
      (e := m_elements m) (s := m_type m); try done.
    + apply Hde.
    + apply (de_exact _ _ _ _ Hde).
    + intros i v Hi. apply (de_exact _ _ _ _ Hde) in Hi as (name & Hi & _). eauto.
    + rewrite <-Hda. apply Hde.
    + apply named_values_sorted.
    + intros j v. apply named_values_spec.
    + intros name v Hin Hval. destruct (capture_all_fields st) eqn:Hca.
      * rewrite <-Hda in Hval. by eapply (de_all _ _ _ _ Hde).
      * destruct Hcov as [|Hcov]; [done|]. rewrite (proj1 (de_filtered _ _ _ _ Hde Hca)).
        apply Hcov. by rewrite <-Hn.
  - split; [congruence|congruence|by eapply same_modes_trans|done|]. rewrite Hs'. by intros s [= <-].
Qed.

(** The data name of a decoder does not change. *)
Lemma decoded_data_name st st2 m vs :
  healthy type_of st -> decoded st st2 m vs -> data_name st2 = data_name st.
Proof.
  intros He Hde. destruct (de_modes _ _ _ _ Hde) as (_ & Hi & _). unfold data_name. rewrite Hi.
  destruct (subscription_data_index st) as [i|] eqn:Hs; simpl; [|done].
  rewrite (he_data _ _ He i Hs). by apply (de_names _ _ _ _ Hde), (he_data _ _ He).
Qed.

Lemma decoded_events st st2 m vs :
  healthy type_of st -> decoded st st2 m vs -> events_ok st2.
Proof.
  intros He Hde. destruct (he_events _ _ He) as [H1 H2].
  destruct (de_modes _ _ _ _ Hde) as (_ & _ & Het & Hes & _). split; rewrite ?Het, ?Hes; by apply (de_names _ _ _ _ Hde).
Qed.

(** Both decoders agree on losses. *)
Lemma decoded_losses budget st c own st2 own2 m vs vo :
  linked budget st c own -> decoded st st2 m vs -> decoded own own2 m vo ->
  is_dataloss_update st2 vs = is_dataloss_update own2 vo.
Proof.
  intros [He _ Ho _ _ _ Hda _] Hs Hw.
  pose proof (dataloss_exact st2 (data_name st) _ _ vs (decoded_events _ _ _ _ He Hs) (de_table _ _ _ _ Hs)
                (de_exact _ _ _ _ Hs)) as H1.
  pose proof (dataloss_exact own2 (data_name own) _ _ vo (decoded_events _ _ _ _ Ho Hw) (de_table _ _ _ _ Hw)
                (de_exact _ _ _ _ Hw)) as H2.
  rewrite Hda in H1. apply eq_true_iff_eq. by rewrite H1, H2.
Qed.
End Step.

Section Run.
Context (type_of : nat -> string) (arc : FieldLayout -> nat) (Harc : Inj (=) (=) arc).

(** What a message leaves linked. *)
Lemma linked_after budget st c c' own st2 st' own' m vs :
  linked type_of arc (length (el_children (m_elements m)) + budget) st c own ->
  decoded st st2 m vs -> healthy type_of st' -> table st' = table st2 -> same_modes st2 st' ->
  length (field_strings (table st')) <= length (field_strings (table st)) + length (el_children (m_elements m)) ->
  healthy type_of own' -> field_strings (table own') = field_strings (table own) ->
  data_name own' = data_name own -> capture_all_fields own' = false -> twin arc c' own' ->
  linked type_of arc budget st' c' own'.
Proof.
  intros [He Hs Ho Hos Hc _ Hda Hcov] Hd1 He' Ht1 Hm1 Hl1 Ho' Hn2 Hdo Hc2 Htw.
  assert (data_name st' = data_name st) as Hds.
  { rewrite <-(decoded_data_name type_of _ _ _ _ He Hd1). unfold data_name.
    destruct Hm1 as (_ & -> & _). by rewrite Ht1. }
  destruct (de_modes _ _ _ _ Hd1) as (Hc1 & _), Hm1 as (Hc1' & _).
  split; try done; try congruence; [lia|rewrite Hn2; lia|].
  rewrite Hc1', Hc1, Ht1, Hn2. destruct Hcov as [|Hcov]; [by left|right].
  intros name Hin. destruct (list_elem_of_lookup_1 _ _ (Hcov name Hin)) as [i Hi].
  eapply list_elem_of_lookup_2, (de_names _ _ _ _ Hd1), Hi.
Qed.

(** A twin stays one as its own decoder goes on. *)
Lemma twin_after c own own2 own' m vo :
  healthy type_of own -> capture_all_fields own = false -> decoded own own2 m vo ->
  healthy type_of own' -> table own' = table own2 -> same_modes own2 own' ->
  field_name_keys (table own') = field_name_keys (table own) -> twin arc c own -> twin arc c own'.
Proof.
  intros Ho Hc Hde Ho' Ht Hm Hk [H1 H2 H3 H4 H5]. destruct (de_filtered _ _ _ _ Hde Hc) as [Hn _].
  split; try done; [congruence|congruence|].
  destruct H3 as (A1 & A2 & A3 & A4 & A5), Hm as (B1 & B2 & B3 & B4 & B5).
  destruct (de_modes _ _ _ _ Hde) as (C1 & C2 & C3 & C4 & C5).
  unfold same_modes. split_and!; congruence.
Qed.

(** The table's keys are determined by its names. *)
Lemma table_keys_ext t t' :
  table_ok t -> table_ok t' -> field_strings t' = field_strings t -> field_name_keys t' = field_name_keys t.
Proof.
  intros [H1 _] [H2 _] Hs. apply map_eq. intros name.
  destruct (field_name_keys t !! name) as [i|] eqn:Hi.
  - apply H2. rewrite Hs. by apply H1.
  - destruct (field_name_keys t' !! name) as [i|] eqn:Hi'; [|done]. apply H2 in Hi'. rewrite Hs in Hi'.
    apply H1 in Hi'. congruence.
Qed.

(** The own decoder's side of a message. *)
Lemma linked_own budget st c c' own st2 st' own2 own' m vs vo :
  linked type_of arc (length (el_children (m_elements m)) + budget) st c own ->
  decoded st st2 m vs -> healthy type_of st' -> table st' = table st2 -> same_modes st2 st' ->
  length (field_strings (table st')) <= length (field_strings (table st)) + length (el_children (m_elements m)) ->
  decoded own own2 m vo -> healthy type_of own' -> table own' = table own2 -> same_modes own2 own' ->
  twin arc c' own -> linked type_of arc budget st' c' own'.
Proof.
  intros Hl Hde He' Ht Hm Hlen Hdo Ho' Hto Hmo Htw.
  pose proof (li_own _ _ _ _ _ _ Hl) as Ho. pose proof (li_filtered _ _ _ _ _ _ Hl) as Hc.
  destruct (de_filtered _ _ _ _ Hdo Hc) as [Hn _].
  assert (field_strings (table own') = field_strings (table own)) as Hn' by congruence.
  eapply linked_after; try done.
  - rewrite <-(decoded_data_name type_of _ _ _ _ Ho Hdo). unfold data_name.
    destruct Hmo as (_ & -> & _). by rewrite Hto.
  - destruct Hmo as (-> & _), (de_modes _ _ _ _ Hdo) as (-> & _). done.
  - eapply twin_after; try done. by apply table_keys_ext; [apply (he_table _ _ Ho)|apply (he_table _ _ Ho')|].
Qed.

(** The projection delivers what the own decoder's values amount to. *)
Lemma twin_delivers budget st c own st2 env m vs time :
  linked type_of arc budget st c own -> decoded st st2 m vs -> columns_cover (table st2) ->
  stream_closed env = false ->
  let l := build_layout (table st2) in
  let '(c', _, em) :=
    project_update env c (mkSharedUpdate (mkShared (arc l) l) vs time) (mktdata_service c) in
  delivered em = seen own (mktdata_service own) time
    (named_values (field_strings (table own)) (data_name own) (m_elements m) (m_type m))
  /\ twin arc c' own.
Proof.
  intros Hl Hde Hcol Hcl l. set (source := mkSharedUpdate _ _ _).
  pose proof (twin_project _ _ Harc _ _ _ _ _ _ _ time Hl Hde Hcol) as Hpr.
  pose proof (project_update_seen env c source (mktdata_service c) Hcl) as Hps.
  cbv zeta in Hpr. fold l in Hpr. fold source in Hpr. destruct (project_image c source) as [c1 u].
  destruct (project_update env c source (mktdata_service c)) as [[c' oc] emc]. simpl in *.
  destruct Hps as (-> & Htc & Hmc & Hsc & Hpc), Hpr as (-> & -> & [T1 T2 T3 T4 T5]). split.
  - pose proof (tw_modes _ _ _ (li_twin _ _ _ _ _ _ Hl)) as (_ & _ & _ & _ & ->).
    by rewrite (seen_modes own c1 _ _ _ T3).
  - split; rewrite ?Htc, ?Hsc; try done; [by eapply same_modes_trans|by apply Hpc].
Qed.

Lemma shared_step_own budget st c own env m :
  linked type_of arc (length (el_children (m_elements m)) + budget) st c own ->
  shared_ok type_of (field_strings (table own)) (env, m) ->
  let '(st', c', d) := shared_step arc st c env m in
  let '(own', _, em, _) := on_message env own m in
  d = delivered em /\ linked type_of arc budget st' c' own'
  /\ field_strings (table own') = field_strings (table own).
Proof.
  intros Hl Hm. pose proof (li_shared _ _ _ _ _ _ Hl) as He. pose proof (li_own _ _ _ _ _ _ Hl) as Ho.
  pose proof (li_size _ _ _ _ _ _ Hl) as Hsz. pose proof (li_own_size _ _ _ _ _ _ Hl) as Hosz.
  pose proof (li_filtered _ _ _ _ _ _ Hl) as Hcap. pose proof (li_twin _ _ _ _ _ _ Hl) as Htw.
  destruct (on_message_decoded type_of (feed_env env) env _ st m He Hm (or_introl eq_refl) eq_refl ltac:(lia))
    as (st2 & rs & vs & Hon & Hde & He' & Hlen).
  unfold shared_step. pose proof (finish_feed env m st2 rs vs) as Hfeed.
  pose proof (finish_modes (feed_env env) m st2 rs (Ok vs)) as Hmod.
  pose proof (finish_layout (feed_env env) m st2 rs (Ok vs)) as Hlay.
  destruct (finish_message_state (feed_env env) m st2 rs (Ok vs)) as (_ & Htab & _).
  rewrite <-Hon in Hfeed, Hmod, Hlay, Htab.
  destruct (on_message (feed_env env) st m) as [[[st' o] em] rs']. simpl in *.
  destruct (stream_closed env) eqn:Hcl.
  { assert (linked type_of arc budget st' c own) as Hl' by (by eapply linked_after).
    unfold on_message. rewrite Hcl. destruct em as [[u|err]|]; [|by split..].
    unfold project_update. rewrite Hcl. by split. }
  destruct (on_message_decoded type_of env env _ own m Ho Hm
    (or_intror (conj Hcap (so_decodable _ _ _ Hm))) Hcl ltac:(lia))
    as (own2 & rso & vo & Hono & Hdeo & Ho' & _).
  pose proof (finish_seen env m own2 rso vo) as Hseen. pose proof (so_stream _ _ _ Hm) as Hcb. simpl in Hcb.
  rewrite Hcb, andb_true_r in Hseen.
  pose proof (finish_modes env m own2 rso (Ok vo)) as Hmodo.
  destruct (finish_message_state env m own2 rso (Ok vo)) as (_ & Htabo & _).
  rewrite <-Hono in Hseen, Hmodo, Htabo.
  destruct (on_message env own m) as [[[own' oo] emo] rso']. simpl in *. rewrite Hseen.
  assert (field_strings (table own') = field_strings (table own)) as Hns
    by (rewrite Htabo; by apply (de_filtered _ _ _ _ Hdeo Hcap)).
  assert (forall c', twin arc c' own -> linked type_of arc budget st' c' own') as Hlink.
  { intros c' Htw'. by eapply linked_own. }
  pose proof (decoded_losses _ _ _ _ _ _ _ _ _ _ _ Hl Hde Hdeo) as Hloss.
  destruct (is_dataloss_update st2 vs); subst em.
  { split_and!; [|by apply Hlink|done]. unfold seen. by rewrite <-Hloss. }
  rewrite <-Hlay, (ty_layout _ (he_typed _ _ He')), Htab. unfold share. cbn [update_layout update_values timestamp_us].
  pose proof (twin_delivers _ _ _ _ _ env m vs (message_time env m) Hl Hde
    ltac:(rewrite <-Htab; apply (he_typed _ _ He')) Hcl) as Hpr. cbv zeta in Hpr.
  destruct (project_update env c _ _) as [[c' oc] emc]. destruct Hpr as [-> Htw'].
  destruct (de_filtered _ _ _ _ Hdeo Hcap) as [_ <-], (de_modes _ _ _ _ Hdeo) as (_ & _ & _ & _ & Hmk).
  split_and!; [|by apply Hlink|done]. rewrite Hmk, (seen_modes own own2); [done|apply Hdeo].
Qed.

Definition message_weight (x : StreamEnv * Message) : nat := length (el_children (m_elements x.2)).

Lemma shared_run_own ms st c own :
  linked type_of arc (list_sum (message_weight <$> ms)) st c own ->
  Forall (shared_ok type_of (field_strings (table own))) ms ->
  shared_run arc st c ms = own_run own ms.
Proof.
  revert st c own. induction ms as [|[env m] ms IH]; intros st c own Hl Hms; [done|].
  apply Forall_cons in Hms as [Hm Hms]. simpl.
  pose proof (shared_step_own _ st c own env m Hl Hm) as Hs.
  destruct (shared_step arc st c env m) as [[st' c'] d].
  destruct (on_message env own m) as [[[own' o] em] rs]. destruct Hs as (-> & Hl' & Hn). f_equal. apply IH; [done|]. by rewrite Hn.
Qed.
End Run.

(** ** New subscriptions *)

Definition mktbar (topic : string) : bool := String.prefix "//blp/mktbar/" topic.

Lemma push_new_spec t name :
  field_name_keys (push_field_if_new t name).1 !! name = Some (push_field_if_new t name).2
  /\ field_name_keys t ⊆ field_name_keys (push_field_if_new t name).1.
Proof.
  unfold push_field_if_new. destruct (field_name_keys t !! name) as [i|] eqn:Hk; simpl; [done|].
  split; [apply lookup_insert_eq|by apply insert_subseteq].
Qed.

Lemma push_new_dom t name :
  dom (field_name_keys (push_field_if_new t name).1) = dom (field_name_keys t) ∪ {[name]}.
Proof.
  unfold push_field_if_new. destruct (field_name_keys t !! name) as [i|] eqn:Hk; simpl; [|set_solver].
  apply elem_of_dom_2 in Hk. set_solver.
Qed.

(** The indices a new subscription remembers, and the names it knows. *)
Lemma sub_new_keys topic fields all :
  let st := sub_new topic fields all in
  let keys := field_name_keys (table st) in
  keys !! EVENT_TYPE = Some (event_type_index st) /\ keys !! EVENT_SUBTYPE = Some (event_subtype_index st)
  /\ (subscription_data_index st = None <-> mktbar topic = false)
  /\ dom keys = list_to_set fields ∪ {[EVENT_TYPE; EVENT_SUBTYPE]}
                ∪ (if mktbar topic then {[SUBSCRIPTION_DATA_FIELD]} else ∅).
Proof.
  assert (forall t, dom (field_name_keys (fold_left (fun t f => (push_field_if_new t f).1) fields t))
                    = dom (field_name_keys t) ∪ list_to_set fields) as Hf.
  { induction fields as [|f fields IH]; intros t; simpl; [set_solver|]. rewrite IH, push_new_dom. set_solver. }
  specialize (Hf table_empty). unfold sub_new. set (t0 := fold_left _ _ _) in *.
  change (field_name_keys table_empty) with (∅ : gmap string nat) in Hf. rewrite dom_empty_L in Hf.
  pose proof (push_new_spec t0 EVENT_TYPE) as [H1 _]. pose proof (push_new_dom t0 EVENT_TYPE) as D1.
  destruct (push_field_if_new t0 EVENT_TYPE) as [t1 et]. simpl in *.
  pose proof (push_new_spec t1 EVENT_SUBTYPE) as [H2 G2]. pose proof (push_new_dom t1 EVENT_SUBTYPE) as D2.
  destruct (push_field_if_new t1 EVENT_SUBTYPE) as [t2 es]. simpl in *.
  pose proof (push_new_spec t2 SUBSCRIPTION_DATA_FIELD) as [H3 G3].
  pose proof (push_new_dom t2 SUBSCRIPTION_DATA_FIELD) as D3.
  unfold mktbar. destruct (String.prefix _ _).
  - destruct (push_field_if_new t2 _) as [t3 sd]. simpl in *. split_and!; [| |done|].
    + eapply lookup_weaken, G3. by eapply lookup_weaken.
    + by eapply lookup_weaken.
    + rewrite D3, D2, D1, Hf, (left_id_L ∅ (∪)). by rewrite !(assoc_L (∪)).
  - simpl. split_and!; [by eapply lookup_weaken|done|done|].
    rewrite D2, D1, Hf, (left_id_L ∅ (∪)), (right_id_L ∅ (∪)). by rewrite !(assoc_L (∪)).
Qed.

Lemma sub_new_data_name topic fields all :
  table_ok (table (sub_new topic fields all)) ->
  data_name (sub_new topic fields all) = if mktbar topic then Some SUBSCRIPTION_DATA_FIELD else None.
Proof.
  intros [Ht _]. destruct (sub_new_keys topic fields all) as (_ & _ & Hd & _).
  pose proof (sub_new_data_index topic fields all) as Hi. unfold data_name.
  destruct (subscription_data_index (sub_new topic fields all)) as [i|]; destruct (mktbar topic); simpl;
    naive_solver.
Qed.

Lemma sub_new_healthy type_of topic fields all :
  (Z.of_nat (length fields) + 3 <= 65536)%Z -> healthy type_of (sub_new topic fields all).
Proof.
  intros Hn. pose proof (sub_new_ok topic fields all Hn) as Ht.
  destruct (sub_new_keys topic fields all) as (He & Hs & _ & _).
  split; [by apply sub_new_decoder_ok|apply sub_new_typed|done|by split; apply Ht|].
  intros i Hi. by apply Ht, sub_new_data_index.
Qed.

Lemma table_dom t name : table_ok t -> name ∈ field_strings t <-> name ∈ dom (field_name_keys t).
Proof.
  intros [Ht _]. rewrite elem_of_dom, list_elem_of_lookup. split; intros [i Hi]; exists i; by apply Ht.
Qed.

Lemma sub_new_modes topic fields all all' :
  capture_all_fields (sub_new topic fields all) = all
  /\ projection_source (sub_new topic fields all') = None.
Proof.
  unfold sub_new. destruct (push_field_if_new _ EVENT_TYPE) as [t1 et].
  destruct (push_field_if_new t1 EVENT_SUBTYPE) as [t2 es].
  destruct (String.prefix _ _); [destruct (push_field_if_new t2 _)|]; done.
Qed.

(** C2: Sharing a feed is transparent.  One decoder for the union of the fields of
    several consumers (or for all fields), whose updates each consumer projects through
    its cached column map, delivers to a filtered consumer message by message exactly
    what the consumer's own decoder would have delivered: the same values under the same
    indices in the same order, with the same timestamps, the same suppressed messages,
    the same losses, and nothing while its stream is closed.  The messages hold nothing
    the consumer asked for that cannot be decoded (that ends its stream either way);
    layout addresses identify layouts, and names fit the 16-bit index. *)
Theorem shared_feed_transparent type_of arc topic union fields all ms :
  Inj (=) (=) arc ->
  Forall (shared_ok type_of (field_strings (table (sub_new topic fields false)))) ms ->
  (all = true \/ forall name, name ∈ fields -> name ∈ union) ->
  (Z.of_nat (length union + 3 + list_sum (message_weight <$> ms)) <= 65536)%Z ->
  (Z.of_nat (length fields + 3 + list_sum (message_weight <$> ms)) <= 65536)%Z ->
  shared_run arc (sub_new topic union all) (sub_new topic fields false) ms
  = own_run (sub_new topic fields false) ms.
Proof.
  intros Harc Hms Hcov Hu Hf. apply (shared_run_own type_of arc Harc); [|done].
  pose proof (sub_new_size topic union all). pose proof (sub_new_size topic fields false).
  pose proof (sub_new_healthy type_of topic union all ltac:(lia)) as H1.
  pose proof (sub_new_healthy type_of topic fields false ltac:(lia)) as H2.
  split; [done|lia|done|lia|by apply sub_new_modes| | |].
  - destruct (sub_new_modes topic fields false false) as [_ Hp].
    split; [done|done|done|intros c; by rewrite Hp|intros c; by rewrite Hp].
  - rewrite !sub_new_data_name; [done|apply (he_table _ _ H2)|apply (he_table _ _ H1)].
  - destruct Hcov as [->|Hcov]; [left; by apply (sub_new_modes topic union true true)|right].
    intros name Hin. apply (table_dom _ _ (he_table _ _ H2)) in Hin. apply (table_dom _ _ (he_table _ _ H1)).
    destruct (sub_new_keys topic union all) as (_ & _ & _ & ->).
    destruct (sub_new_keys topic fields false) as (_ & _ & _ & Hd). rewrite Hd in Hin. set_solver.
Qed.

(** ** An address per layout *)

#[export] Instance FieldLayout_eq_dec : EqDecision FieldLayout.
Proof. solve_decision. Defined.

Definition all_kinds : list FieldKind :=
  [KUnknown; KBool; KI32; KI64; KF64; KStr; KDate32; KTime64Micros; KTimestampMicros].

Definition kind_code (k : FieldKind) : nat := default 0 (fst <$> list_find (eq k) all_kinds).

#[export] Instance FieldKind_countable : Countable FieldKind.
Proof.
  apply (inj_countable' kind_code (fun n => default KUnknown (all_kinds !! n))). by intros [].
Defined.
#[export] Instance FieldMeta_countable : Countable FieldMeta.
Proof.
  apply (inj_countable' (fun m => (meta_name m, meta_index m, meta_kind m, meta_provisional m))
           (fun '(n, i, k, p) => mkMeta n i k p)). by intros [].
Defined.
#[export] Instance FieldLayout_countable : Countable FieldLayout.
Proof.
  apply (inj_countable' (fun l => (Update.layout_version l, layout_fields l)) (fun '(v, fs) => mkLayout v fs)).
  by intros [].
Defined.

Definition sample_messages : list (StreamEnv * Message) :=
  let env := mkStreamEnv false false false true 9 in
  let m key cs := (env, mkMessage (mkElement "tick" cs (fun _ => true)) key (sample_types key) (Some 5%Z)) in
  [m 0 [sample_child "ASK" 3; sample_child "BID" 2];
   m 4 [sample_child "LAST" 1];
   m 4 [sample_child "BID" 4; mkChild "MKTDATA_EVENT_TYPE" false DtString (Some (BString "SUMMARY")) false;
        mkChild "MKTDATA_EVENT_SUBTYPE" false DtString (Some (BString "DATALOSS")) false];
   m 0 [sample_child "BID" 5; sample_child "VOLUME" 8; sample_child "ASK" 6]].

Lemma shared_feed_transparent_witness :
  shared_run (fun l => Pos.to_nat (encode l)) (sub_new "IBM US Equity" ["LAST"; "BID"; "ASK"] true)
    (sub_new "IBM US Equity" ["ASK"; "BID"] false) sample_messages
  = own_run (sub_new "IBM US Equity" ["ASK"; "BID"] false) sample_messages
  /\ own_run (sub_new "IBM US Equity" ["ASK"; "BID"] false) sample_messages
     = [DValues 5 [mkField 0 (VI32 3); mkField 1 (VI32 2)]; DNothing; DLost;
        DValues 5 [mkField 0 (VI32 6); mkField 1 (VI32 5)]].
Proof.
  split; [|vm_compute; reflexivity].
  apply (shared_feed_transparent sample_types); [| |by left|vm_compute; discriminate..].
  - intros x y H. by apply (inj encode), Pos2Nat.inj.
  - repeat constructor; try (unfold distinct_children; apply (bool_decide_unpack _); vm_compute; exact I);
      intros name c Hin; apply list_elem_of_In in Hin; vm_compute in Hin;
      repeat (destruct Hin as [<-|Hin]; [vm_compute; by intros [= <-]|]); done.
Defined.
