(* ===== verification/Services.v ===== *)
(** * Services, operations, extractors and formats

    Models [crates/xbbg-async/src/services.rs]: the enumerations of Bloomberg
    services, operations, extractors and output formats with their names. *)

From S2P Require Import Prelude Text.
Local Open Scope string_scope.

Inductive Service : Type :=
| SvApiFlds | SvBqlSvc | SvExrSvc | SvInstruments | SvMktBar | SvMktData | SvMktDepth
| SvMktList | SvMktVwap | SvRefData | SvTaSvc | SvCustom (s : string).

Definition service_as_str (s : Service) : string :=
  match s with
  | SvApiFlds => "//blp/apiflds"
  | SvBqlSvc => "//blp/bqlsvc"
  | SvExrSvc => "//blp/exrsvc"
  | SvInstruments => "//blp/instruments"
  | SvMktBar => "//blp/mktbar"
  | SvMktData => "//blp/mktdata"
  | SvMktDepth => "//blp/mktdepthdata"
  | SvMktList => "//blp/mktlist"
  | SvMktVwap => "//blp/mktvwap"
  | SvRefData => "//blp/refdata"
  | SvTaSvc => "//blp/tasvc"
  | SvCustom s => s
  end.

Definition service_from_str (s : string) : Service :=
  if decide (s = "//blp/apiflds") then SvApiFlds
  else if decide (s = "//blp/bqlsvc") then SvBqlSvc
  else if decide (s = "//blp/exrsvc") then SvExrSvc
  else if decide (s = "//blp/instruments") then SvInstruments
  else if decide (s = "//blp/mktbar") then SvMktBar
  else if decide (s = "//blp/mktdata") then SvMktData
  else if decide (s = "//blp/mktdepthdata") then SvMktDepth
  else if decide (s = "//blp/mktlist") then SvMktList
  else if decide (s = "//blp/mktvwap") then SvMktVwap
  else if decide (s = "//blp/refdata") then SvRefData
  else if decide (s = "//blp/tasvc") then SvTaSvc
  else SvCustom s.

Inductive ExtractorType : Type :=
| ExBql | ExBsrch | ExBulkData | ExFieldInfo | ExGeneric | ExHistData | ExIntradayBar
| ExIntradayTick | ExRefData.

#[export] Instance ExtractorType_eq_dec : EqDecision ExtractorType.
Proof. solve_decision. Defined.

Definition extractor_default : ExtractorType := ExRefData.

Definition extractor_parse (s : string) : option ExtractorType :=
  if decide (s = "bql") then Some ExBql
  else if decide (s = "bsrch") then Some ExBsrch
  else if decide (s = "bulk") then Some ExBulkData
  else if decide (s = "fieldinfo") then Some ExFieldInfo
  else if decide (s = "generic") then Some ExGeneric
  else if decide (s = "histdata") then Some ExHistData
  else if decide (s = "intraday_bar") then Some ExIntradayBar
  else if decide (s = "intraday_tick") then Some ExIntradayTick
  else if decide (s = "refdata") then Some ExRefData
  else None.

Inductive Operation : Type :=
| OpBeqs | OpBqlSendQuery | OpCurveList | OpExcelGetGrid | OpFieldInfo | OpFieldSearch
| OpGovtList | OpHistoricalData | OpInstrumentList | OpIntradayBar | OpIntradayTick
| OpPortfolioData | OpRawRequest | OpReferenceData | OpStudyRequest | OpCustom (s : string).

Definition operation_as_str (o : Operation) : string :=
  match o with
  | OpBeqs => "BeqsRequest"
  | OpBqlSendQuery => "sendQuery"
  | OpCurveList => "curveListRequest"
  | OpExcelGetGrid => "ExcelGetGridRequest"
  | OpFieldInfo => "FieldInfoRequest"
  | OpFieldSearch => "FieldSearchRequest"
  | OpGovtList => "govtListRequest"
  | OpHistoricalData => "HistoricalDataRequest"
  | OpInstrumentList => "instrumentListRequest"
  | OpIntradayBar => "IntradayBarRequest"
  | OpIntradayTick => "IntradayTickRequest"
  | OpPortfolioData => "PortfolioDataRequest"
  | OpRawRequest => ""
  | OpReferenceData => "ReferenceDataRequest"
  | OpStudyRequest => "studyRequest"
  | OpCustom s => s
  end.

Definition default_extractor (o : Operation) : ExtractorType :=
  match o with
  | OpBeqs => ExGeneric
  | OpBqlSendQuery => ExBql
  | OpCurveList => ExGeneric
  | OpExcelGetGrid => ExBsrch
  | OpFieldInfo => ExFieldInfo
  | OpFieldSearch => ExGeneric
  | OpGovtList => ExGeneric
  | OpHistoricalData => ExHistData
  | OpInstrumentList => ExGeneric
  | OpIntradayBar => ExIntradayBar
  | OpIntradayTick => ExIntradayTick
  | OpPortfolioData => ExGeneric
  | OpRawRequest => ExGeneric
  | OpReferenceData => ExRefData
  | OpStudyRequest => ExGeneric
  | OpCustom _ => ExGeneric
  end.

Definition default_service (o : Operation) : option Service :=
  match o with
  | OpBeqs => Some SvRefData
  | OpBqlSendQuery => Some SvBqlSvc
  | OpCurveList => Some SvInstruments
  | OpExcelGetGrid => Some SvExrSvc
  | OpFieldInfo => Some SvApiFlds
  | OpFieldSearch => Some SvApiFlds
  | OpGovtList => Some SvInstruments
  | OpHistoricalData => Some SvRefData
  | OpInstrumentList => Some SvInstruments
  | OpIntradayBar => Some SvRefData
  | OpIntradayTick => Some SvRefData
  | OpPortfolioData => Some SvRefData
  | OpRawRequest => None
  | OpReferenceData => Some SvRefData
  | OpStudyRequest => Some SvTaSvc
  | OpCustom _ => None
  end.

Definition operation_from_str (s : string) : Operation :=
  if decide (s = "BeqsRequest") then OpBeqs
  else if decide (s = "sendQuery") then OpBqlSendQuery
  else if decide (s = "curveListRequest") then OpCurveList
  else if decide (s = "ExcelGetGridRequest") then OpExcelGetGrid
  else if decide (s = "FieldInfoRequest") then OpFieldInfo
  else if decide (s = "FieldSearchRequest") then OpFieldSearch
  else if decide (s = "govtListRequest") then OpGovtList
  else if decide (s = "HistoricalDataRequest") then OpHistoricalData
  else if decide (s = "instrumentListRequest") then OpInstrumentList
  else if decide (s = "IntradayBarRequest") then OpIntradayBar
  else if decide (s = "IntradayTickRequest") then OpIntradayTick
  else if decide (s = "PortfolioDataRequest") then OpPortfolioData
  else if decide (s = "") then OpRawRequest
  else if decide (s = "ReferenceDataRequest") then OpReferenceData
  else if decide (s = "studyRequest") then OpStudyRequest
  else OpCustom s.

Inductive Format : Type := FmLong | FmLongTyped | FmLongWithMetadata | FmSemiLong.

Definition format_default : Format := FmLong.

Definition format_as_str (f : Format) : string :=
  match f with
  | FmLong => "long"
  | FmLongTyped => "long_typed"
  | FmLongWithMetadata => "long_metadata"
  | FmSemiLong => "semi_long"
  end.

Definition format_from_str (s : string) : result Format string :=
  if decide (s = "long") then Ok FmLong
  else if decide (s = "long_typed" \/ s = "typed") then Ok FmLongTyped
  else if decide (s = "long_metadata" \/ s = "metadata" \/ s = "with_metadata")
  then Ok FmLongWithMetadata
  else if decide (s = "semi_long" \/ s = "wide") then Ok FmSemiLong
  else Err ("Unknown format: " +:+ s).

(** ** Properties *)

(** Names and values are the same data.  Printing a parsed service or
    operation gives back the text, parsing the printed name of any value that is
    not an alias hidden in the custom case gives back the value, and every format
    parses from its canonical name. *)
Theorem services_roundtrip :
  (forall s, service_as_str (service_from_str s) = s)
  /\ (forall s, operation_as_str (operation_from_str s) = s)
  /\ (forall v, service_from_str (service_as_str v) = v
                \/ exists s, v = SvCustom s /\ service_from_str s <> SvCustom s)
  /\ (forall o, operation_from_str (operation_as_str o) = o
                \/ exists s, o = OpCustom s /\ operation_from_str s <> OpCustom s)
  /\ (forall f, format_from_str (format_as_str f) = Ok f).
Proof.
  split_and!.
  - intros s. unfold service_from_str. repeat case_decide; by subst.
  - intros s. unfold operation_from_str. repeat case_decide; by subst.
  - intros []; try (left; reflexivity). cbn.
    destruct (service_from_str s) eqn:Hs; try (right; eexists; split; [reflexivity|congruence]).
    left. f_equal. unfold service_from_str in Hs. repeat case_decide; congruence.
  - intros []; try (left; reflexivity). cbn.
    destruct (operation_from_str s) eqn:Hs; try (right; eexists; split; [reflexivity|congruence]).
    left. f_equal. unfold operation_from_str in Hs. repeat case_decide; congruence.
  - by intros [].
Qed.
