(* ===== verification/Plan.v ===== *)
(** * Request planning

    Models [crates/xbbg-async/src/request_builder.rs] (routing of keyword
    arguments into request elements and field overrides) and
    [crates/xbbg-async/src/engine/request_plan.rs] (normalisation, validation and
    classification of a request before dispatch), with the request parameters of
    [engine/mod.rs].  A [HashMap] is a [gmap]; where the code iterates one without
    sorting its keys the model uses the map's canonical order.  The schema cache is
    the set of element names it holds for a service and operation, [serde_json] is
    a parameter, and warnings are data, not text. *)

From Stdlib Require Import ZArith Lia.
From stdpp Require Import gmap strings sorting.
From S2P Require Import Prelude Text Errors Services.
Local Open Scope string_scope.

(** ** Routing keyword arguments *)

Inductive Warning : Type :=
| WPresentation (key : string)
| WUnknown (key operation : string) (valid : list string).

Record RoutedParams : Type := mkRouted {
  r_elements : list (string * string);
  r_overrides : list (string * string);
  r_warnings : list Warning
}.

Definition routed_default : RoutedParams := mkRouted [] [] [].

(** [serde_json::Value], as far as routing looks at it. *)
Inductive JsonValue : Type := JString (s : string) | JOther (text : string).

Definition json_value_to_string (v : JsonValue) : string :=
  match v with JString s => s | JOther text => text end.

Definition one_of (s : string) (names : list string) : bool := bool_decide (s ∈ names).

Definition canonical_element_key (key : string) : string :=
  if one_of key ["PeriodAdj"; "PerAdj"] then "periodicityAdjustment"
  else if one_of key ["Period"; "Per"] then "periodicitySelection"
  else if one_of key ["Currency"; "Curr"; "FX"] then "currency"
  else if one_of key ["Days"] then "nonTradingDayFillOption"
  else if one_of key ["Fill"] then "nonTradingDayFillMethod"
  else if one_of key ["Points"] then "maxDataPoints"
  else if one_of key ["Quote"] then "overrideOption"
  else if one_of key ["QuoteType"; "QtTyp"] then "pricingOption"
  else if one_of key ["CshAdjNormal"] then "adjustmentNormal"
  else if one_of key ["CshAdjAbnormal"] then "adjustmentAbnormal"
  else if one_of key ["CapChg"] then "adjustmentSplit"
  else if one_of key ["UseDPDF"] then "adjustmentFollowDPDF"
  else if one_of key ["Calendar"] then "calendarCodeOverride"
  else if one_of key ["BarSz"; "BarSize"] then "interval"
  else if one_of key ["BarTp"; "BarType"] then "eventType"
  else if one_of key ["IncludeExchangeCodes"] then "includeExchangeCodes"
  else key.

(** The arms of [normalize_element_value], in order. *)
Definition element_value_table : list (string * list string * string) :=
  [("periodicityAdjustment", ["A"], "ACTUAL");
   ("periodicityAdjustment", ["C"], "CALENDAR");
   ("periodicityAdjustment", ["F"], "FISCAL");
   ("periodicitySelection", ["D"], "DAILY");
   ("periodicitySelection", ["W"], "WEEKLY");
   ("periodicitySelection", ["M"], "MONTHLY");
   ("periodicitySelection", ["Q"], "QUARTERLY");
   ("periodicitySelection", ["S"], "SEMI_ANNUALLY");
   ("periodicitySelection", ["Y"], "YEARLY");
   ("nonTradingDayFillOption", ["N"; "W"; "Weekdays"], "NON_TRADING_WEEKDAYS");
   ("nonTradingDayFillOption", ["C"; "A"; "All"], "ALL_CALENDAR_DAYS");
   ("nonTradingDayFillOption", ["T"; "Trading"], "ACTIVE_DAYS_ONLY");
   ("nonTradingDayFillMethod", ["C"; "P"; "Previous"], "PREVIOUS_VALUE");
   ("nonTradingDayFillMethod", ["B"; "Blank"; "NA"], "NIL_VALUE");
   ("overrideOption", ["A"; "G"; "Average"], "OVERRIDE_OPTION_GPA");
   ("overrideOption", ["C"; "Close"], "OVERRIDE_OPTION_CLOSE");
   ("pricingOption", ["P"; "Price"], "PRICING_OPTION_PRICE");
   ("pricingOption", ["Y"; "Yield"], "PRICING_OPTION_YIELD");
   ("eventType", ["B"; "Bid"], "BID");
   ("eventType", ["A"; "Ask"], "ASK");
   ("eventType", ["T"; "Trade"], "TRADE")].

Definition normalize_element_value (element value : string) : string :=
  match List.find (fun row => bool_decide (row.1.1 = element) && one_of value row.1.2)
          element_value_table with
  | Some row => row.2
  | None => value
  end.

Definition is_known_canonical_element_key (key : string) : bool :=
  one_of key
    ["periodicityAdjustment"; "periodicitySelection"; "currency"; "nonTradingDayFillOption";
     "nonTradingDayFillMethod"; "maxDataPoints"; "overrideOption"; "pricingOption";
     "adjustmentNormal"; "adjustmentAbnormal"; "adjustmentSplit"; "adjustmentFollowDPDF";
     "calendarCodeOverride"; "interval"; "eventType"; "includeExchangeCodes"].

Definition is_alias_element_key (original_key canonical_key : string) : bool :=
  bool_decide (original_key <> canonical_key) || is_known_canonical_element_key canonical_key.

Definition is_presentation_alias_key (key : string) : bool :=
  one_of key
    ["Dts"; "Dates"; "show_date"; "DtFmt"; "DateFormat"; "date_format"; "Sort"; "sort";
     "Orientation"; "Direction"; "Dir"; "orientation"].

Fixpoint is_all_uppercase_from (has_uppercase : bool) (l : list Ascii.ascii) : bool :=
  match l with
  | [] => has_uppercase
  | c :: l => if is_lower c then false else is_all_uppercase_from (has_uppercase || is_upper c) l
  end.

Definition is_all_uppercase (value : string) : bool := is_all_uppercase_from false (chars value).

Definition is_field_override_name (key : string) : bool :=
  is_all_uppercase key
  || (Nat.ltb 2 (List.length (chars key))
      && match chars key with c :: _ => is_upper c | [] => false end
      && existsb (fun c => bool_decide (c = Ascii.ascii_of_nat 95)) (chars key)).

(** The sorted element names a warning lists. *)
Definition format_unknown_parameter_warning (key operation : string) (valid : gset string) : Warning :=
  WUnknown key operation (sort_unstable (elements valid)).

Definition route_candidate (valid : gset string) (operation : string) (routed : RoutedParams)
    (kv : string * string) : RoutedParams :=
  let '(key, value) := kv in
  if is_presentation_alias_key key
  then mkRouted (r_elements routed) (r_overrides routed) (r_warnings routed ++ [WPresentation key])
  else
    let canonical_key := canonical_element_key key in
    let routed_value := normalize_element_value canonical_key value in
    let element := mkRouted (r_elements routed ++ [(canonical_key, routed_value)])
                     (r_overrides routed) (r_warnings routed) in
    if decide (canonical_key ∈ valid) then element
    else if is_alias_element_key key canonical_key then element
    else if is_field_override_name key
    then mkRouted (r_elements routed) (r_overrides routed ++ [(key, value)]) (r_warnings routed)
    else if decide (valid <> ∅)
    then mkRouted (r_elements element) (r_overrides element)
           (r_warnings element ++ [format_unknown_parameter_warning key operation valid])
    else element.

(** The pairs of a map by ascending key ([keys.sort()] and a lookup per key). *)
Definition sorted_pairs (m : gmap string string) : list (string * string) :=
  omap (fun k => match m !! k with Some v => Some (k, v) | None => None end)
    (sort_unstable (map_to_list m).*1).

Section Builder.
(** [serde_json::from_str] at the two types the raw overrides are read as. *)
Variable json_object : string -> option (list (string * JsonValue)).
Variable json_pairs : string -> option (list (string * JsonValue)).

Definition parse_raw_overrides (raw : string) : list (string * string) :=
  match json_object raw with
  | Some l => (fun p => (p.1, json_value_to_string p.2)) <$> l
  | None =>
      match json_pairs raw with
      | Some l => (fun p => (p.1, json_value_to_string p.2)) <$> l
      | None => []
      end
  end.

Definition route_kwargs (valid : gset string) (operation : string) (kwargs : gmap string string)
    (explicit_overrides : option (list (string * string))) : RoutedParams :=
  let routed :=
    match kwargs !! "overrides" with
    | Some raw => fold_left (route_candidate valid operation) (parse_raw_overrides raw) routed_default
    | None => routed_default
    end in
  let kwargs := delete "overrides" kwargs in
  let routed :=
    match explicit_overrides with
    | Some l => fold_left (route_candidate valid operation) l routed
    | None => routed
    end in
  fold_left (route_candidate valid operation) (sorted_pairs kwargs) routed.
End Builder.

(** ** Request parameters *)

Inductive ArrowType : Type :=
| ATFloat64 | ATInt64 | ATInt32 | ATString | ATBool | ATDate32 | ATTimestampMicros | ATTime64Micros.

Definition arrow_type_parse (s : string) : result ArrowType BlpError :=
  let s := to_ascii_lowercase (trim s) in
  if one_of s ["float64"; "float"; "double"; "f64"] then Ok ATFloat64
  else if one_of s ["int64"; "int"; "integer"; "i64"] then Ok ATInt64
  else if one_of s ["int32"; "i32"] then Ok ATInt32
  else if one_of s ["string"] then Ok ATString
  else if one_of s ["bool"; "boolean"] then Ok ATBool
  else if one_of s ["date32"; "date"] then Ok ATDate32
  else if one_of s ["timestamp"; "datetime"; "timestamp_us"] then Ok ATTimestampMicros
  else if one_of s ["time64"; "time"; "time64_us"] then Ok ATTime64Micros
  else Err (InvalidArgument "unsupported field type; expected float64, int64, int32, string, bool, date32, timestamp, or time64 (or a supported alias)").

Inductive DelayedPolicy : Type := DpWarn | DpRaise | DpIgnore.

Definition OverridePairs : Type := list (string * string).

Record RequestParams : Type := mkParams {
  service : string;
  operation : string;
  request_operation : option string;
  request_id : option string;
  extractor : ExtractorType;
  extractor_set : bool;
  securities : option (list string);
  security : option string;
  fields : option (list string);
  overrides : option OverridePairs;
  security_overrides : option (list (string * OverridePairs));
  p_elements : option (list (string * string));
  kwargs : option (gmap string string);
  start_date : option string;
  end_date : option string;
  start_datetime : option string;
  end_datetime : option string;
  request_tz : option string;
  output_tz : option string;
  event_type : option string;
  event_types : option (list string);
  interval : option Z;
  options : option (list (string * string));
  field_types : option (gmap string string);
  include_security_errors : bool;
  return_eids : bool;
  on_delayed : option DelayedPolicy;
  validate_fields : option bool;
  search_spec : option string;
  field_ids : option (list string);
  format : option string
}.

Definition set_extractor (p : RequestParams) (e : ExtractorType) (set : bool) : RequestParams :=
  mkParams (service p) (operation p) (request_operation p) (request_id p) e set (securities p)
    (security p) (fields p) (overrides p) (security_overrides p) (p_elements p) (kwargs p)
    (start_date p) (end_date p) (start_datetime p) (end_datetime p) (request_tz p) (output_tz p)
    (event_type p) (event_types p) (interval p) (options p) (field_types p)
    (include_security_errors p) (return_eids p) (on_delayed p) (validate_fields p)
    (search_spec p) (field_ids p) (format p).

(** The fields routing changes. *)
Definition set_routed (p : RequestParams) (fs : option (list string)) (ids : option (list string))
    (spec : option string) (els : option (list (string * string))) (kw : option (gmap string string))
    (ovr : option OverridePairs) : RequestParams :=
  mkParams (service p) (operation p) (request_operation p) (request_id p) (extractor p)
    (extractor_set p) (securities p) (security p) fs ovr (security_overrides p) els kw
    (start_date p) (end_date p) (start_datetime p) (end_datetime p) (request_tz p) (output_tz p)
    (event_type p) (event_types p) (interval p) (options p) (field_types p)
    (include_security_errors p) (return_eids p) (on_delayed p) (validate_fields p)
    spec ids (format p).

(** The fields the builder's setters change. *)
Definition set_built (p : RequestParams) (els : option (list (string * string)))
    (sd ed : option string) (types : option (gmap string string)) : RequestParams :=
  mkParams (service p) (operation p) (request_operation p) (request_id p) (extractor p)
    (extractor_set p) (securities p) (security p) (fields p) (overrides p) (security_overrides p)
    els (kwargs p) (start_date p) (end_date p) sd ed (request_tz p) (output_tz p) (event_type p)
    (event_types p) (interval p) (options p) types (include_security_errors p) (return_eids p)
    (on_delayed p) (validate_fields p) (search_spec p) (field_ids p) (format p).

Definition is_raw_request (p : RequestParams) : bool :=
  match operation_from_str (operation p) with OpRawRequest => true | _ => false end.

(** [RequestParams::effective_operation], a name. *)
Definition effective_operation_name (p : RequestParams) : string :=
  if is_raw_request p then default "" (request_operation p) else operation p.

Definition is_excel_get_grid_request (p : RequestParams) : bool :=
  match operation_from_str (effective_operation_name p) with OpExcelGetGrid => true | _ => false end.

(** ** Normalisation *)

Definition normalize_vec {A} (v : option (list A)) : option (list A) :=
  match v with Some [] => None | v => v end.

Definition normalize_map (v : option (gmap string string)) : option (gmap string string) :=
  match v with Some m => if decide (m = ∅) then None else Some m | None => None end.

Definition normalize_string (v : option string) : option string :=
  match v with Some s => if decide (s = "") then None else Some s | None => None end.

(** Trim the keys of an entry's overrides and drop the empty ones. *)
Definition normalize_entry_overrides (l : OverridePairs) : OverridePairs :=
  List.filter (fun kv : string * string => bool_decide (kv.1 <> ""))
    ((fun kv : string * string => (trim kv.1, kv.2)) <$> l).

Definition normalize_entry (e : string * OverridePairs) : string * OverridePairs :=
  (trim e.1, normalize_entry_overrides e.2).

Definition keep_entry (e : string * OverridePairs) : bool :=
  bool_decide (e.1 <> "") && bool_decide (e.2 <> []).

Definition normalize_security_overrides (v : option (list (string * OverridePairs)))
  : option (list (string * OverridePairs)) :=
  match v with
  | None => None
  | Some entries =>
      match List.filter keep_entry (normalize_entry <$> entries) with
      | [] => None
      | entries => Some entries
      end
  end.

Definition normalize_request_params (p : RequestParams) : RequestParams :=
  mkParams (service p) (operation p) (normalize_string (request_operation p))
    (normalize_string (request_id p)) (extractor p) (extractor_set p)
    (normalize_vec (securities p)) (normalize_string (security p)) (normalize_vec (fields p))
    (normalize_vec (overrides p)) (normalize_security_overrides (security_overrides p))
    (normalize_vec (p_elements p)) (normalize_map (kwargs p))
    (normalize_string (start_date p)) (normalize_string (end_date p))
    (normalize_string (start_datetime p)) (normalize_string (end_datetime p))
    (normalize_string (request_tz p)) (normalize_string (output_tz p))
    (normalize_string (event_type p)) (normalize_vec (event_types p)) (interval p)
    (normalize_vec (options p)) (normalize_map (field_types p)) (include_security_errors p)
    (return_eids p) (on_delayed p) (validate_fields p) (normalize_string (search_spec p))
    (normalize_vec (field_ids p)) (normalize_string (format p)).

(** ** Operation, extractor and shape *)

Local Open Scope xbbg_scope.

Definition config_error {A} (detail : string) : result A BlpAsyncError := Err (ConfigError detail).

Definition effective_operation (p : RequestParams) : result (Operation * bool) BlpAsyncError :=
  match operation_from_str (operation p) with
  | OpRawRequest =>
      match request_operation p with
      | Some op =>
          if decide (op = "") then config_error "request_operation is required for RawRequest"
          else Ok (operation_from_str op, true)
      | None => config_error "request_operation is required for RawRequest"
      end
  | outer =>
      if decide (operation p = "") then config_error "operation is required" else Ok (outer, false)
  end.

Inductive OutputFormat : Type := OfLong | OfWide.
Inductive LongMode : Type := LmString | LmWithMetadata | LmTyped.
Record PlannedOutput : Type := mkOutput { po_format : OutputFormat; po_long_mode : LongMode }.

Definition planned_output_parse (f : option string) : result PlannedOutput BlpAsyncError :=
  let? f := match f with
            | Some s => result_map_err ConfigError (format_from_str s)
            | None => Ok format_default
            end in
  Ok match f with
     | FmLong => mkOutput OfLong LmString
     | FmSemiLong => mkOutput OfWide LmString
     | FmLongTyped => mkOutput OfLong LmTyped
     | FmLongWithMetadata => mkOutput OfLong LmWithMetadata
     end.

Inductive PlannedRequestShape : Type :=
| ShRefData (o : PlannedOutput) | ShHistData (o : PlannedOutput) | ShBulkData | ShGeneric | ShBql
| ShBsrch | ShFieldInfo | ShIntradayBar | ShIntradayTick.

Definition has_key_column (s : PlannedRequestShape) : bool :=
  match s with
  | ShRefData _ | ShHistData _ | ShBulkData | ShBql | ShIntradayBar | ShIntradayTick => true
  | _ => false
  end.

(** The [{:?}] rendering of an extractor. *)
Definition extractor_debug (e : ExtractorType) : string :=
  match e with
  | ExBql => "Bql" | ExBsrch => "Bsrch" | ExBulkData => "BulkData" | ExFieldInfo => "FieldInfo"
  | ExGeneric => "Generic" | ExHistData => "HistData" | ExIntradayBar => "IntradayBar"
  | ExIntradayTick => "IntradayTick" | ExRefData => "RefData"
  end.

Definition validate_extractor_compatibility (op : Operation) (raw : bool) (e : ExtractorType)
  : result unit BlpAsyncError :=
  if raw || match op with OpCustom _ => true | _ => false end then Ok tt
  else if bool_decide (e = default_extractor op) || bool_decide (e = ExGeneric)
          || match op, e with
             | OpReferenceData, ExBulkData | OpFieldSearch, ExFieldInfo => true
             | _, _ => false
             end
  then Ok tt
  else config_error ("extractor " +:+ extractor_debug e +:+ " is not compatible with operation "
                     +:+ operation_as_str op).

Definition selected_extractor (op : Operation) (raw : bool) (p : RequestParams)
  : result ExtractorType BlpAsyncError :=
  let e := if extractor_set p then extractor p else default_extractor op in
  let? _ := validate_extractor_compatibility op raw e in Ok e.

Definition reject_format_for_shape (p : RequestParams) (shape : string) : result unit BlpAsyncError :=
  match format p with
  | Some _ => config_error ("format is not supported for " +:+ shape +:+ " output")
  | None => Ok tt
  end.

Definition from_params (op : Operation) (raw : bool) (p : RequestParams)
  : result PlannedRequestShape BlpAsyncError :=
  let? e := selected_extractor op raw p in
  match e with
  | ExRefData => let? o := planned_output_parse (format p) in Ok (ShRefData o)
  | ExHistData => let? o := planned_output_parse (format p) in Ok (ShHistData o)
  | ExBulkData => let? _ := reject_format_for_shape p "BulkData" in Ok ShBulkData
  | ExGeneric => let? _ := reject_format_for_shape p "Generic" in Ok ShGeneric
  | ExBql => let? _ := reject_format_for_shape p "Bql" in Ok ShBql
  | ExBsrch => let? _ := reject_format_for_shape p "Bsrch" in Ok ShBsrch
  | ExFieldInfo => let? _ := reject_format_for_shape p "FieldInfo" in Ok ShFieldInfo
  | ExIntradayBar => let? _ := reject_format_for_shape p "IntradayBar" in Ok ShIntradayBar
  | ExIntradayTick => let? _ := reject_format_for_shape p "IntradayTick" in Ok ShIntradayTick
  end.

Definition apply_request_defaults_for_operation (p : RequestParams) (op : Operation) : RequestParams :=
  if extractor_set p then p
  else if decide (extractor p <> extractor_default) then set_extractor p (extractor p) true
  else set_extractor p (default_extractor op) (extractor_set p).

(** ** Validation *)

Definition non_empty_vec {A} (v : option (list A)) : bool :=
  match v with Some (_ :: _) => true | _ => false end.
Definition non_empty_string (v : option string) : bool :=
  match v with Some s => bool_decide (s <> "") | None => false end.

Definition has_securities (p : RequestParams) : bool := non_empty_vec (securities p).
Definition has_security (p : RequestParams) : bool := non_empty_string (security p).
Definition has_fields (p : RequestParams) : bool := non_empty_vec (fields p).
Definition has_start_date (p : RequestParams) : bool := non_empty_string (start_date p).
Definition has_end_date (p : RequestParams) : bool := non_empty_string (end_date p).
Definition has_start_datetime (p : RequestParams) : bool := non_empty_string (start_datetime p).
Definition has_end_datetime (p : RequestParams) : bool := non_empty_string (end_datetime p).
Definition has_event_type (p : RequestParams) : bool := non_empty_string (event_type p).

Definition require (b : bool) (detail : string) : result unit BlpAsyncError :=
  if b then Ok tt else config_error detail.

Definition validate_field_metadata_aliases (p : RequestParams) (op : Operation)
  : result unit BlpAsyncError :=
  match op with
  | OpFieldInfo =>
      if has_fields p && non_empty_vec (field_ids p)
      then config_error "FieldInfoRequest accepts either fields or field_ids, not both" else Ok tt
  | OpFieldSearch =>
      let has_search_spec := non_empty_string (search_spec p) in
      if has_fields p && has_search_spec
      then config_error "FieldSearchRequest accepts either fields or search_spec, not both"
      else
        match fields p with
        | Some ((_ :: _) as vs) =>
            if negb has_search_spec && bool_decide (List.length vs <> 1)
            then config_error "FieldSearchRequest requires exactly one field value when fields is used as a search alias"
            else Ok tt
        | _ => Ok tt
        end
  | _ => Ok tt
  end.

Fixpoint validate_override_entries (requested seen : list string)
    (entries : list (string * OverridePairs)) : result unit BlpAsyncError :=
  match entries with
  | [] => Ok tt
  | (sec, ovr) :: entries =>
      match ovr with
      | [] => config_error ("security_overrides entry for " +:+ sec +:+ " has no overrides")
      | _ =>
          if decide (sec ∉ requested)
          then config_error ("security_overrides contains security not in request: " +:+ sec)
          else if decide (sec ∈ seen)
          then config_error ("security_overrides contains duplicate security: " +:+ sec)
          else validate_override_entries requested (seen ++ [sec]) entries
      end
  end.

Definition validate_security_overrides (p : RequestParams) (op : Operation) (raw : bool)
  : result unit BlpAsyncError :=
  match security_overrides p with
  | None | Some [] => Ok tt
  | Some entries =>
      if raw then config_error "security_overrides are not supported for RawRequest"
      else
        match op with
        | OpReferenceData | OpHistoricalData =>
            match securities p with
            | None => config_error "securities are required when security_overrides are provided"
            | Some secs => validate_override_entries secs [] entries
            end
        | _ => config_error "security_overrides are supported only for ReferenceDataRequest and HistoricalDataRequest"
        end
  end.

Definition validate_return_eids (p : RequestParams) (op : Operation) : result unit BlpAsyncError :=
  if negb (return_eids p) then Ok tt
  else match op with
       | OpReferenceData | OpHistoricalData | OpIntradayBar | OpIntradayTick => Ok tt
       | other =>
           config_error ("return_eids is only supported for ReferenceData, HistoricalData, IntradayBar, and IntradayTick requests (got "
                         +:+ operation_as_str other
                         +:+ "); generic requests may pass the returnEids element explicitly")
       end.

Definition validate_on_delayed (p : RequestParams) (op : Operation) (raw : bool)
  : result unit BlpAsyncError :=
  match on_delayed p with
  | None => Ok tt
  | Some _ =>
      match op with
      | OpHistoricalData | OpIntradayBar | OpIntradayTick => Ok tt
      | OpReferenceData =>
          let? shape := from_params op raw p in
          match shape with
          | ShRefData _ => Ok tt
          | _ => config_error "on_delayed is not supported for bulk (BDS) or generic reference data requests"
          end
      | other =>
          config_error ("on_delayed is only supported for ReferenceData (bdp), HistoricalData, IntradayBar, and IntradayTick requests (got "
                        +:+ operation_as_str other +:+ ")")
      end
  end.

Definition validate_reference_data (p : RequestParams) : result unit BlpAsyncError :=
  let? _ := require (has_securities p) "securities is required for ReferenceDataRequest" in
  require (has_fields p) "fields is required for ReferenceDataRequest".

Definition validate_historical_data (p : RequestParams) : result unit BlpAsyncError :=
  let? _ := require (has_securities p) "securities is required for HistoricalDataRequest" in
  let? _ := require (has_fields p) "fields is required for HistoricalDataRequest" in
  let? _ := require (has_start_date p) "start_date is required for HistoricalDataRequest" in
  require (has_end_date p) "end_date is required for HistoricalDataRequest".

Definition validate_intraday_bar (p : RequestParams) : result unit BlpAsyncError :=
  let? _ := require (has_security p) "security is required for IntradayBarRequest" in
  let? _ := require (has_event_type p) "event_type is required for IntradayBarRequest" in
  let? _ := require (bool_decide (interval p <> None)) "interval is required for IntradayBarRequest" in
  let? _ := require (has_start_datetime p) "start_datetime is required for IntradayBarRequest" in
  require (has_end_datetime p) "end_datetime is required for IntradayBarRequest".

Definition validate_intraday_tick (p : RequestParams) : result unit BlpAsyncError :=
  let? _ := require (has_security p) "security is required for IntradayTickRequest" in
  let? _ := require (has_start_datetime p) "start_datetime is required for IntradayTickRequest" in
  require (has_end_datetime p) "end_datetime is required for IntradayTickRequest".

Definition validate_field_request (p : RequestParams) (op : Operation) : result unit BlpAsyncError :=
  match op with
  | OpFieldInfo =>
      require (has_fields p || non_empty_vec (field_ids p)) "fields is required for field metadata requests"
  | OpFieldSearch =>
      require (has_fields p || non_empty_string (search_spec p)) "fields is required for field metadata requests"
  | _ => Ok tt
  end.

(** Parsing stops at the first unknown type name. *)
Fixpoint parse_types (l : list (string * string)) : result (list (string * ArrowType)) BlpAsyncError :=
  match l with
  | [] => Ok []
  | (field, name) :: l =>
      let? kind := result_map_err AsyncBlp (arrow_type_parse name) in
      let? rest := parse_types l in
      Ok ((field, kind) :: rest)
  end.

Definition parse_field_types (types : option (gmap string string))
  : result (gmap string ArrowType) BlpAsyncError :=
  let? l := parse_types (map_to_list (default ∅ types)) in Ok (list_to_map l).

Definition validate_request_params_with_operation (p : RequestParams) (op : Operation) (raw : bool)
  : result (gmap string ArrowType) BlpAsyncError :=
  let? _ := require (bool_decide (service p <> "")) "service is required" in
  let? _ := validate_field_metadata_aliases p op in
  let? _ := validate_security_overrides p op raw in
  let? _ := validate_return_eids p op in
  let? _ := validate_on_delayed p op raw in
  let? _ := from_params op raw p in
  let? types := parse_field_types (field_types p) in
  if raw then Ok types
  else
    let? _ := match op with
              | OpReferenceData => validate_reference_data p
              | OpHistoricalData => validate_historical_data p
              | OpIntradayBar => validate_intraday_bar p
              | OpIntradayTick => validate_intraday_tick p
              | OpFieldInfo | OpFieldSearch => validate_field_request p op
              | _ => Ok tt
              end in
    Ok types.

Definition validate_request_params (p : RequestParams) : result (Operation * bool) BlpAsyncError :=
  let? x := effective_operation p in
  let '(op, raw) := x in
  let? _ := validate_request_params_with_operation p op raw in
  Ok (op, raw).

(** ** Routing *)

Definition normalize_field_metadata_aliases (p : RequestParams) (op : Operation) : RequestParams :=
  match op with
  | OpFieldInfo =>
      match field_ids p with
      | None => set_routed p None (fields p) (search_spec p) (p_elements p) (kwargs p) (overrides p)
      | Some _ => p
      end
  | OpFieldSearch =>
      match search_spec p with
      | None =>
          match fields p with
          | Some vs => set_routed p None (field_ids p) (last vs) (p_elements p) (kwargs p) (overrides p)
          | None => p
          end
      | Some _ => p
      end
  | _ => p
  end.

Definition route_pair (acc : option string * list (string * string)) (kv : string * string)
  : option string * list (string * string) :=
  let '(domain, grid) := acc in
  if eq_ignore_ascii_case kv.1 "Domain" then (Some kv.2, grid)
  else if bool_decide (kv.1 <> "") && negb (eq_ignore_ascii_case kv.1 "Overrides")
  then (domain, (grid ++ [kv])%list) else (domain, grid).

Definition normalize_excel_grid_params (p : RequestParams) (kw : gmap string string) : RequestParams :=
  let pairs := (default [] (p_elements p) ++ default [] (overrides p) ++ sorted_pairs kw)%list in
  let '(domain, grid) := fold_left route_pair pairs (None, []) in
  set_routed p (fields p) (field_ids p) (search_spec p)
    (option_map (fun v => [("Domain", v)]) domain) None
    (match grid with [] => None | _ => Some grid end).

Definition merge_raw_kwargs_into_elements (p : RequestParams) (kw : gmap string string) : RequestParams :=
  set_routed p (fields p) (field_ids p) (search_spec p)
    (if decide (kw = ∅) then p_elements p else Some (default [] (p_elements p) ++ sorted_pairs kw)%list)
    None (overrides p).

Section Prepare.
Variable json_object : string -> option (list (string * JsonValue)).
Variable json_pairs : string -> option (list (string * JsonValue)).
(** [valid_elements_from_cache]: the element names cached for a service and operation. *)
Variable schema_elements : string -> string -> gset string.

Definition route_request_params (p : RequestParams) (op : Operation) : RequestParams :=
  let p := normalize_field_metadata_aliases p op in
  let kw := default ∅ (kwargs p) in
  if is_excel_get_grid_request p then normalize_excel_grid_params p kw
  else if is_raw_request p then merge_raw_kwargs_into_elements p kw
  else
    let routed := route_kwargs json_object json_pairs (schema_elements (service p) (operation p))
                    (operation p) kw (overrides p) in
    set_routed p (fields p) (field_ids p) (search_spec p)
      (match r_elements routed with
       | [] => p_elements p
       | els => Some (default [] (p_elements p) ++ els)%list
       end)
      None (match r_overrides routed with [] => None | ovr => Some ovr end).

Record PreparedRequestBuilder : Type := mkBuilder {
  b_params : RequestParams;
  b_field_types : gmap string ArrowType;
  b_operation : Operation;
  b_raw : bool
}.

Definition prepare (p : RequestParams) : result PreparedRequestBuilder BlpAsyncError :=
  let p := normalize_request_params p in
  let? x := effective_operation p in
  let '(op, raw) := x in
  let p := apply_request_defaults_for_operation p op in
  let? types := validate_request_params_with_operation p op raw in
  Ok (mkBuilder (route_request_params p op) types op raw).
End Prepare.

Definition builder_shape (b : PreparedRequestBuilder) : result PlannedRequestShape BlpAsyncError :=
  from_params (b_operation b) (b_raw b) (b_params b).

Definition apply_bql_app_name (b : PreparedRequestBuilder) (app_name : option string)
  : PreparedRequestBuilder :=
  match app_name with
  | None => b
  | Some name =>
      let p := b_params b in
      match b_operation b with
      | OpBqlSendQuery =>
          if bool_decide (service p <> service_as_str SvBqlSvc)
             || existsb (fun kv => bool_decide (kv.1 = "clientContext.appName")) (default [] (p_elements p))
          then b
          else mkBuilder
                 (set_built p (Some (default [] (p_elements p) ++ [("clientContext.appName", name)])%list)
                    (start_datetime p) (end_datetime p) (field_types p))
                 (b_field_types b) (b_operation b) (b_raw b)
      | _ => b
      end
  end.

Definition set_field_types (b : PreparedRequestBuilder) (types : gmap string string)
  : result PreparedRequestBuilder BlpAsyncError :=
  let? parsed := parse_field_types (Some types) in
  let p := b_params b in
  Ok (mkBuilder (set_built p (p_elements p) (start_datetime p) (end_datetime p) (Some types))
        parsed (b_operation b) (b_raw b)).

Definition set_intraday_datetimes (b : PreparedRequestBuilder) (sd ed : string)
  : PreparedRequestBuilder :=
  let p := b_params b in
  mkBuilder (set_built p (p_elements p) (Some sd) (Some ed) (field_types p)) (b_field_types b)
    (b_operation b) (b_raw b).

Record PreparedRequest : Type := mkPrepared {
  pr_params : RequestParams;
  pr_shape : PlannedRequestShape;
  pr_operation : Operation;
  pr_field_types : gmap string ArrowType;
  pr_raw : bool
}.

Definition finalize (b : PreparedRequestBuilder) : result PreparedRequest BlpAsyncError :=
  let? shape := builder_shape b in
  Ok (mkPrepared (b_params b) shape (b_operation b) (b_field_types b) (b_raw b)).

Definition for_security_shard (r : PreparedRequest) (secs : list string) (ovr : option OverridePairs)
  : PreparedRequest :=
  let p := pr_params r in
  mkPrepared
    (mkParams (service p) (operation p) (request_operation p) (request_id p) (extractor p)
       (extractor_set p) (Some secs) (security p) (fields p) ovr None (p_elements p) (kwargs p)
       (start_date p) (end_date p) (start_datetime p) (end_datetime p) (request_tz p) (output_tz p)
       (event_type p) (event_types p) (interval p) (options p) (field_types p)
       (include_security_errors p) (return_eids p) (on_delayed p) (validate_fields p)
       (search_spec p) (field_ids p) (format p))
    (pr_shape r) (pr_operation r) (pr_field_types r) (pr_raw r).

Local Close Scope string_scope.

(** ** Normalisation is idempotent *)

Lemma normalize_vec_idemp {A} (v : option (list A)) : normalize_vec (normalize_vec v) = normalize_vec v.
Proof. by destruct v as [[]|]. Qed.

Lemma normalize_map_idemp v : normalize_map (normalize_map v) = normalize_map v.
Proof. destruct v as [m|]; [|done]. cbn. case_decide; [done|]. cbn. by rewrite decide_False. Qed.

Lemma normalize_string_idemp v : normalize_string (normalize_string v) = normalize_string v.
Proof. destruct v as [s|]; [|done]. cbn. case_decide; [done|]. cbn. by rewrite decide_False. Qed.

Lemma filter_id {A} (f : A -> bool) l : Forall (fun x => f x = true) l -> List.filter f l = l.
Proof. induction 1 as [|x l Hx _ IH]; [done|]. cbn. by rewrite Hx, IH. Qed.

Lemma filter_Forall {A} (f : A -> bool) l : Forall (fun x => f x = true) (List.filter f l).
Proof. apply Forall_forall. intros x Hx%list_elem_of_In%List.filter_In. apply Hx. Qed.

(** A list whose elements are all fixed by [f] is fixed by mapping [f]. *)
Lemma fmap_fixed {A} (f : A -> A) (l : list A) : (forall x, x ∈ l -> f x = x) -> f <$> l = l.
Proof.
  induction l as [|x l IH]; intros Hl; [done|]. rewrite fmap_cons, IH, Hl by set_solver. done.
Qed.

Lemma elem_of_filter_bool {A} (f : A -> bool) l x : x ∈ List.filter f l <-> x ∈ l /\ f x = true.
Proof. by rewrite !list_elem_of_In, List.filter_In. Qed.

Lemma normalize_entry_overrides_idemp l :
  normalize_entry_overrides (normalize_entry_overrides l) = normalize_entry_overrides l.
Proof.
  unfold normalize_entry_overrides at 1. rewrite fmap_fixed; [apply filter_id, filter_Forall|].
  intros kv [(kv0 & -> & _)%list_elem_of_fmap _]%elem_of_filter_bool. cbn [fst snd].
  by rewrite trim_idemp.
Qed.

Lemma normalize_entry_idemp e : normalize_entry (normalize_entry e) = normalize_entry e.
Proof. unfold normalize_entry. cbn [fst snd]. by rewrite trim_idemp, normalize_entry_overrides_idemp. Qed.

Lemma normalize_security_overrides_idemp v :
  normalize_security_overrides (normalize_security_overrides v) = normalize_security_overrides v.
Proof.
  destruct v as [entries|]; [|done]. unfold normalize_security_overrides at 2 3.
  set (l := List.filter keep_entry (normalize_entry <$> entries)).
  assert (List.filter keep_entry (normalize_entry <$> l) = l) as Hl.
  { rewrite fmap_fixed; [apply filter_id, filter_Forall|].
    intros e [(e0 & -> & _)%list_elem_of_fmap _]%elem_of_filter_bool. apply normalize_entry_idemp. }
  clearbody l. destruct l as [|e l]; [done|]. unfold normalize_security_overrides. by rewrite Hl.
Qed.

Lemma normalize_idemp p : normalize_request_params (normalize_request_params p) = normalize_request_params p.
Proof.
  unfold normalize_request_params. cbn.
  by rewrite !normalize_vec_idemp, !normalize_map_idemp, !normalize_string_idemp,
    normalize_security_overrides_idemp.
Qed.

(** ** The shape depends on the extractor and the format only *)

Definition same_shape_inputs (p q : RequestParams) : Prop :=
  extractor p = extractor q /\ extractor_set p = extractor_set q /\ format p = format q.

Lemma from_params_ext op raw p q : same_shape_inputs p q -> from_params op raw p = from_params op raw q.
Proof.
  intros (He & Hs & Hf). unfold from_params, selected_extractor, reject_format_for_shape.
  by rewrite He, Hs, Hf.
Qed.

(** What routing keeps. *)
Lemma aliases_frame p op :
  let q := normalize_field_metadata_aliases p op in
  same_shape_inputs p q /\ service q = service p /\ operation q = operation p
  /\ request_operation q = request_operation p
  /\ securities q = securities p /\ security q = security p
  /\ security_overrides q = security_overrides p /\ start_date q = start_date p
  /\ end_date q = end_date p /\ start_datetime q = start_datetime p /\ end_datetime q = end_datetime p
  /\ event_type q = event_type p /\ interval q = interval p
  /\ kwargs q = kwargs p.
Proof.
  unfold normalize_field_metadata_aliases, same_shape_inputs. destruct op; try done.
  - by destruct (field_ids p).
  - destruct (search_spec p); [done|]. by destruct (fields p).
Qed.

(** ** Classification of keyword arguments *)

Inductive Route : Type := RtPresentation | RtElement | RtOverride.

Definition classify (valid : gset string) (key : string) : Route :=
  if is_presentation_alias_key key then RtPresentation
  else if decide (canonical_element_key key ∈ valid) then RtElement
  else if is_alias_element_key key (canonical_element_key key) then RtElement
  else if is_field_override_name key then RtOverride
  else RtElement.

Definition to_element (valid : gset string) (kv : string * string) : option (string * string) :=
  match classify valid kv.1 with
  | RtElement => Some (canonical_element_key kv.1,
                       normalize_element_value (canonical_element_key kv.1) kv.2)
  | _ => None
  end.

Definition to_override (valid : gset string) (kv : string * string) : option (string * string) :=
  match classify valid kv.1 with RtOverride => Some kv | _ => None end.

Lemma route_candidate_classify valid operation routed kv :
  let r := route_candidate valid operation routed kv in
  r_elements r = r_elements routed ++ option_list (to_element valid kv)
  /\ r_overrides r = r_overrides routed ++ option_list (to_override valid kv).
Proof.
  destruct kv as [key value]. unfold route_candidate, to_element, to_override, classify.
  cbn [fst snd]. destruct (is_presentation_alias_key key); [by rewrite !app_nil_r|].
  case_decide; [by rewrite !app_nil_r|]. destruct (is_alias_element_key _ _); [by rewrite !app_nil_r|].
  destruct (is_field_override_name key); [by rewrite !app_nil_r|].
  case_decide; by rewrite !app_nil_r.
Qed.

Lemma omap_cons_option {A B} (f : A -> option B) x (l : list A) :
  omap f (x :: l) = option_list (f x) ++ omap f l.
Proof. cbn. by destruct (f x). Qed.

Lemma route_fold valid operation l routed :
  let r := fold_left (route_candidate valid operation) l routed in
  r_elements r = r_elements routed ++ omap (to_element valid) l
  /\ r_overrides r = r_overrides routed ++ omap (to_override valid) l.
Proof.
  revert routed. induction l as [|kv l IH]; intros routed; [by rewrite !app_nil_r|].
  cbn [fold_left]. destruct (IH (route_candidate valid operation routed kv)) as [-> ->].
  destruct (route_candidate_classify valid operation routed kv) as [-> ->].
  by rewrite !omap_cons_option, !app_assoc.
Qed.

(** Everything given to the router, in the order it looks at it. *)
Definition route_inputs (json_object json_pairs : string -> option (list (string * JsonValue)))
    (kwargs : gmap string string) (explicit : option (list (string * string))) : list (string * string) :=
  (match kwargs !! "overrides"%string with
   | Some raw => parse_raw_overrides json_object json_pairs raw
   | None => []
   end ++ default [] explicit ++ sorted_pairs (delete "overrides"%string kwargs))%list.

Lemma route_kwargs_inputs jo jp valid op kw ex :
  route_kwargs jo jp valid op kw ex
  = fold_left (route_candidate valid op) (route_inputs jo jp kw ex) routed_default.
Proof.
  unfold route_kwargs, route_inputs. rewrite !fold_left_app.
  by destruct (kw !! _), ex.
Qed.

(** Sorting the keys of a map enumerates it. *)
Lemma sorted_pairs_perm m : sorted_pairs m ≡ₚ map_to_list m.
Proof.
  unfold sorted_pairs, sort_unstable.
  rewrite (merge_sort_Permutation String.le (map_to_list m).*1).
  assert (forall l : list (string * string), (forall k v, (k, v) ∈ l -> m !! k = Some v) ->
    omap (fun k => match m !! k with Some v => Some (k, v) | None => None end) l.*1 = l) as Hl.
  { induction l as [|[k v] l IH]; intros Hin; [done|]. cbn [fmap list_fmap].
    rewrite omap_cons_option. cbn [fst]. rewrite (Hin k v) by set_solver. cbn. f_equal.
    apply IH. set_solver. }
  rewrite Hl; [done|]. intros k v. apply elem_of_map_to_list.
Qed.

(** ** Prepared requests are complete *)

(** Parameters a rule of the operations reads, apart from the field aliases. *)
Definition same_inputs (p q : RequestParams) : Prop :=
  same_shape_inputs p q /\ service q = service p /\ securities q = securities p
  /\ security q = security p /\ security_overrides q = security_overrides p
  /\ start_date q = start_date p /\ end_date q = end_date p
  /\ start_datetime q = start_datetime p /\ end_datetime q = end_datetime p
  /\ event_type q = event_type p /\ interval q = interval p.

Lemma route_frame jo jp se p op :
  let a := normalize_field_metadata_aliases p op in
  let q := route_request_params jo jp se p op in
  same_inputs p q /\ kwargs q = None /\ fields q = fields a /\ field_ids q = field_ids a
  /\ search_spec q = search_spec a.
Proof.
  cbv zeta. destruct (aliases_frame p op) as (Hsh & ? & ? & ? & ? & ? & ? & ? & ? & ? & ? & ? & ? & _).
  unfold route_request_params.
  set (a := normalize_field_metadata_aliases p op) in *.
  assert (Hset : forall els ovr, let q := set_routed a (fields a) (field_ids a) (search_spec a) els None ovr in
    same_inputs p q /\ kwargs q = None /\ fields q = fields a /\ field_ids q = field_ids a
    /\ search_spec q = search_spec a).
  { intros els ovr. cbv zeta. split; [|done]. by split_and!. }
  destruct (is_excel_get_grid_request a).
  - unfold normalize_excel_grid_params. destruct (fold_left _ _ _) as [domain grid]. apply Hset.
  - destruct (is_raw_request a); apply Hset.
Qed.

(** Where a key that decides the domain of a grid, and every other one, goes. *)
Definition is_domain (kv : string * string) : bool := eq_ignore_ascii_case kv.1 "Domain".

Definition is_grid_pair (kv : string * string) : bool :=
  negb (is_domain kv) && bool_decide (kv.1 <> ""%string) && negb (eq_ignore_ascii_case kv.1 "Overrides").

Lemma route_pairs pairs : forall domain grid,
  fold_left route_pair pairs (domain, grid)
  = (match last (List.filter is_domain pairs) with Some kv => Some kv.2 | None => domain end, (grid ++ List.filter is_grid_pair pairs)%list).
Proof.
  induction pairs as [|kv pairs IH]; intros domain grid; cbn [fold_left]; [by rewrite app_nil_r|].
  unfold route_pair at 2. unfold is_grid_pair, is_domain in *. cbn [List.filter].
  destruct (eq_ignore_ascii_case kv.1 "Domain"); cbn [negb andb].
  - rewrite IH, last_cons. by destruct (last _).
  - destruct (_ && _); rewrite IH; [by rewrite <- app_assoc|done].
Qed.

(** The pairs of a map by ascending key. *)
Definition in_order (m : gmap string string) (l : list (string * string)) : Prop :=
  l ≡ₚ map_to_list m /\ StronglySorted String.le l.*1.

(** The elements and overrides [q] of a request with elements, overrides and keyword
    arguments [p], all of which are routed. *)
Definition routes (jo jp : string -> option (list (string * JsonValue))) (valid : gset string) (p q : RequestParams)
  : Prop :=
  let els := default [] (p_elements p) in
  let ovr := default [] (overrides p) in
  let kw := default ∅ (kwargs p) in
  kwargs q = None
  /\ if is_excel_get_grid_request p then
       exists l, in_order kw l /\ let pairs := (els ++ ovr ++ l)%list in
         default [] (p_elements q)
         = ((fun kv => ("Domain"%string, kv.2)) <$> option_list (last (List.filter is_domain pairs)))
         /\ default [] (overrides q) = List.filter is_grid_pair pairs
     else if is_raw_request p then
       exists l, in_order kw l /\ default [] (p_elements q) = (els ++ l)%list /\ default [] (overrides q) = ovr
     else
       exists l, in_order (delete "overrides"%string kw) l
         /\ let raw := default [] (parse_raw_overrides jo jp <$> kw !! "overrides"%string) in
            let pairs := (raw ++ ovr ++ l)%list in
            default [] (p_elements q) = (els ++ omap (to_element valid) pairs)%list
            /\ default [] (overrides q) = omap (to_override valid) pairs.

Lemma sorted_pairs_order m : in_order m (sorted_pairs m).
Proof.
  split; [apply sorted_pairs_perm|]. unfold sorted_pairs.
  assert (forall l, StronglySorted String.le l -> StronglySorted String.le
    (omap (fun k => match m !! k with Some v => Some (k, v) | None => None end) l).*1) as Hl.
  { induction 1 as [|k l Hs IH Hk]; [constructor|]. rewrite omap_cons_option, fmap_app.
    destruct (m !! k); cbn; [|done]. constructor; [done|]. apply Forall_forall. intros k'.
    rewrite list_elem_of_fmap. intros ([k1 v1] & -> & (k2 & Hk2 & E)%list_elem_of_omap).
    destruct (m !! k2); [|done]. injection E as <- <-. by eapply Forall_forall in Hk. }
  apply Hl. unfold sort_unstable. apply (StronglySorted_merge_sort _).
Qed.

Lemma route_routes jo jp se p op :
  routes jo jp (se (service p) (operation p)) p (route_request_params jo jp se p op).
Proof.
  destruct (route_frame jo jp se p op) as (_ & Hkw & _). split; [done|]. clear Hkw.
  assert (exists fs ids spec, normalize_field_metadata_aliases p op
    = set_routed p fs ids spec (p_elements p) (kwargs p) (overrides p)) as (fs & ids & spec & E).
  { unfold normalize_field_metadata_aliases. exists (fields (normalize_field_metadata_aliases p op)),
      (field_ids (normalize_field_metadata_aliases p op)), (search_spec (normalize_field_metadata_aliases p op)).
    unfold normalize_field_metadata_aliases. destruct p, op; cbn; repeat case_match; done. }
  unfold route_request_params. rewrite E. clear E.
  change (is_excel_get_grid_request (set_routed p _ _ _ _ _ _)) with (is_excel_get_grid_request p).
  change (is_raw_request (set_routed p _ _ _ _ _ _)) with (is_raw_request p).
  destruct (is_excel_get_grid_request p); [|destruct (is_raw_request p)].
  - exists (sorted_pairs (default ∅ (kwargs p))). split; [apply sorted_pairs_order|]. cbv zeta.
    unfold normalize_excel_grid_params. cbn [p_elements overrides kwargs set_routed]. rewrite route_pairs.
    cbn [p_elements overrides set_routed]. split; [by destruct (last _)|]. by destruct (List.filter is_grid_pair _).
  - exists (sorted_pairs (default ∅ (kwargs p))). split; [apply sorted_pairs_order|].
    unfold merge_raw_kwargs_into_elements. cbn [p_elements overrides kwargs set_routed]. split; [|done].
    case_decide as Hk; [|done]. rewrite Hk. unfold sorted_pairs. rewrite map_to_list_empty. cbn. by rewrite app_nil_r.
  - exists (sorted_pairs (delete "overrides"%string (default ∅ (kwargs p)))). split; [apply sorted_pairs_order|].
    cbv zeta. cbn [p_elements overrides kwargs service operation set_routed]. rewrite route_kwargs_inputs.
    unfold route_inputs. set (valid := se (service p) (operation p)).
    match goal with |- context [fold_left (route_candidate _ ?o) ?l _] =>
      destruct (route_fold valid o l routed_default) as [Hel Hov] end.
    cbn [r_elements r_overrides routed_default app] in Hel, Hov. fold valid. rewrite Hel, Hov.
    replace (default [] (parse_raw_overrides jo jp <$> default ∅ (kwargs p) !! "overrides"%string))
      with (match default ∅ (kwargs p) !! "overrides"%string with
            | Some raw => parse_raw_overrides jo jp raw | None => [] end) by (by destruct (_ !! _)).
    split; [destruct (omap (to_element valid) _); cbn; by rewrite ?app_nil_r|by destruct (omap (to_override valid) _)].
Qed.

(** Normalisation and defaults change nothing that is routed. *)
Lemma prepared_routes jo jp se p op :
  routes jo jp (se (service p) (operation p)) p
    (route_request_params jo jp se (apply_request_defaults_for_operation (normalize_request_params p) op) op).
Proof.
  set (q := apply_request_defaults_for_operation _ _).
  assert (p_elements q = normalize_vec (p_elements p) /\ overrides q = normalize_vec (overrides p)
    /\ kwargs q = normalize_map (kwargs p) /\ service q = service p /\ operation q = operation p
    /\ request_operation q = normalize_string (request_operation p)) as (E1 & E2 & E3 & E4 & E5 & E6).
  { unfold q, apply_request_defaults_for_operation. repeat case_match; done. }
  pose proof (route_routes jo jp se q op) as H. unfold routes in *.
  unfold is_excel_get_grid_request, effective_operation_name, is_raw_request in *.
  rewrite E1, E2, E3, E4, E5, E6 in H.
  assert (forall v : option (list (string * string)), default [] (normalize_vec v) = default [] v) as Hv
    by (by intros [[|]|]).
  assert (default ∅ (normalize_map (kwargs p)) = default ∅ (kwargs p)) as Hk.
  { destruct (kwargs p); cbn; [|done]. by case_decide. }
  assert (default ""%string (normalize_string (request_operation p)) = default ""%string (request_operation p)) as Hr.
  { destruct (request_operation p); cbn; [|done]. by case_decide. }
  by rewrite !Hv, Hk, Hr in H.
Qed.

(** What an operation needs of its parameters when it is dispatched. *)
Definition complete (op : Operation) (raw : bool) (p : RequestParams) : Prop :=
  (raw = false ->
   match op with
   | OpReferenceData => has_securities p = true /\ has_fields p = true
   | OpHistoricalData =>
       has_securities p = true /\ has_fields p = true /\ has_start_date p = true
       /\ has_end_date p = true
   | OpIntradayBar =>
       has_security p = true /\ has_event_type p = true /\ interval p <> None
       /\ has_start_datetime p = true /\ has_end_datetime p = true
   | OpIntradayTick =>
       has_security p = true /\ has_start_datetime p = true /\ has_end_datetime p = true
   | OpFieldInfo => non_empty_vec (field_ids p) = true /\ has_fields p = false
   | OpFieldSearch => search_spec p <> None /\ has_fields p = false
   | _ => True
   end)
  /\ service p <> ""%string /\ kwargs p = None
  /\ (forall sec ovr, (sec, ovr) ∈ default [] (security_overrides p) ->
        ovr <> [] /\ sec ∈ default [] (securities p))
  /\ NoDup (default [] (security_overrides p)).*1
  /\ (default [] (security_overrides p) <> [] ->
      raw = false /\ (op = OpReferenceData \/ op = OpHistoricalData)).

Lemma validate_override_entries_ok requested seen entries :
  validate_override_entries requested seen entries = Ok tt ->
  (forall sec ovr, (sec, ovr) ∈ entries -> ovr <> [] /\ sec ∈ requested)
  /\ NoDup entries.*1 /\ (forall sec, sec ∈ entries.*1 -> sec ∉ seen).
Proof.
  revert seen. induction entries as [|[sec ovr] entries IH]; intros seen Hv.
  { split_and!; [set_solver|apply NoDup_nil_2|set_solver]. }
  cbn in Hv. destruct ovr as [|kv ovr]; [done|]. case_decide as Hr; [done|]. case_decide as Hs; [done|].
  destruct (IH _ Hv) as (H1 & H2 & H3).
  rewrite fmap_cons. cbn [fst]. split_and!.
  - intros sec' ovr' [[= -> ->]|Hin]%elem_of_cons; [done|]. by apply H1.
  - apply NoDup_cons. split; [|done]. intros Hin%H3. set_solver.
  - intros sec' [->|Hin]%elem_of_cons; [done|]. apply H3 in Hin. set_solver.
Qed.

Lemma require_ok b d : require b d = Ok tt -> b = true.
Proof. by destruct b. Qed.

Lemma bind_ok {A B E} (m : result A E) (k : A -> result B E) b :
  match m with Ok a => k a | Err e => Err e end = Ok b -> exists a, m = Ok a /\ k a = Ok b.
Proof. destruct m; [eauto|done]. Qed.

Definition validate_operation (p : RequestParams) (op : Operation) : result unit BlpAsyncError :=
  match op with
  | OpReferenceData => validate_reference_data p
  | OpHistoricalData => validate_historical_data p
  | OpIntradayBar => validate_intraday_bar p
  | OpIntradayTick => validate_intraday_tick p
  | OpFieldInfo | OpFieldSearch => validate_field_request p op
  | _ => Ok tt
  end.

Lemma validate_parts p op raw types :
  validate_request_params_with_operation p op raw = Ok types ->
  service p <> ""%string /\ validate_field_metadata_aliases p op = Ok tt
  /\ validate_security_overrides p op raw = Ok tt
  /\ (exists shape, from_params op raw p = Ok shape)
  /\ (raw = false -> validate_operation p op = Ok tt).
Proof.
  unfold validate_request_params_with_operation. intros Hv.
  apply bind_ok in Hv as ([] & Hs%require_ok & Hv). apply bind_ok in Hv as ([] & Ha & Hv).
  apply bind_ok in Hv as ([] & Ho & Hv). apply bind_ok in Hv as ([] & _ & Hv).
  apply bind_ok in Hv as ([] & _ & Hv). apply bind_ok in Hv as (shape & Hshape & Hv).
  apply bind_ok in Hv as (ty & _ & Hv). apply bool_decide_eq_true in Hs. split_and!; [done..|by eauto|].
  intros ->. by apply bind_ok in Hv as ([] & Hop & _).
Qed.

Lemma validate_security_overrides_ok p op raw :
  validate_security_overrides p op raw = Ok tt ->
  (forall sec ovr, (sec, ovr) ∈ default [] (security_overrides p) ->
     ovr <> [] /\ sec ∈ default [] (securities p))
  /\ NoDup (default [] (security_overrides p)).*1
  /\ (default [] (security_overrides p) <> [] ->
      raw = false /\ (op = OpReferenceData \/ op = OpHistoricalData)).
Proof.
  unfold validate_security_overrides. destruct (security_overrides p) as [[|e entries]|].
  - intros _. split_and!; [set_solver|apply NoDup_nil_2|done].
  - destruct raw; [done|]. intros Hv. assert (op = OpReferenceData \/ op = OpHistoricalData) as Hop
      by (destruct op; naive_solver).
    destruct (securities p) as [secs|]; [|by destruct Hop; subst op].
    assert (validate_override_entries secs [] (e :: entries) = Ok tt) as Hv' by (by destruct Hop; subst op).
    apply validate_override_entries_ok in Hv' as (? & ? & _). by split_and!.
  - intros _. split_and!; [set_solver|apply NoDup_nil_2|done].
Qed.

(** The operation's own rules, through the field aliases. *)
Lemma validate_operation_complete p op :
  normalize_vec (field_ids p) = field_ids p -> normalize_string (search_spec p) = search_spec p ->
  validate_field_metadata_aliases p op = Ok tt -> validate_operation p op = Ok tt ->
  let a := normalize_field_metadata_aliases p op in
  match op with
  | OpReferenceData => has_securities p = true /\ has_fields a = true
  | OpHistoricalData =>
      has_securities p = true /\ has_fields a = true /\ has_start_date p = true
      /\ has_end_date p = true
  | OpIntradayBar =>
      has_security p = true /\ has_event_type p = true /\ interval p <> None
      /\ has_start_datetime p = true /\ has_end_datetime p = true
  | OpIntradayTick =>
      has_security p = true /\ has_start_datetime p = true /\ has_end_datetime p = true
  | OpFieldInfo => non_empty_vec (field_ids a) = true /\ has_fields a = false
  | OpFieldSearch => search_spec a <> None /\ has_fields a = false
  | _ => True
  end.
Proof.
  intros Hids Hspec Ha Hop. cbv zeta. destruct op; try done; cbn [validate_operation] in Hop.
  - (* FieldInfo *)
    cbn in Ha, Hop. apply require_ok in Hop. unfold normalize_field_metadata_aliases, has_fields in *.
    destruct (field_ids p) as [[|i ids]|] eqn:Hfi; [done| |].
    + rewrite Hfi. cbn in Ha. rewrite andb_true_r in Ha. by destruct (non_empty_vec (fields p)).
    + by rewrite orb_false_r in Hop.
  - (* FieldSearch *)
    cbn in Ha, Hop. apply require_ok in Hop. unfold normalize_field_metadata_aliases, has_fields in *.
    destruct (search_spec p) as [spec|] eqn:Hsp.
    + rewrite Hsp. cbn in Hspec. case_decide as Hs; [done|]. cbn in Ha. rewrite bool_decide_eq_true_2 in Ha by done.
      rewrite andb_true_r in Ha. by destruct (non_empty_vec (fields p)).
    + rewrite orb_false_r in Hop. destruct (fields p) as [[|f fs]|]; [done| |done]. cbn.
      split; [|done]. rewrite last_cons. by destruct (last fs).
  - unfold validate_historical_data in Hop. repeat (apply bind_ok in Hop as ([] & ?%require_ok & Hop)).
    by apply require_ok in Hop.
  - unfold validate_intraday_bar in Hop. repeat (apply bind_ok in Hop as ([] & ?%require_ok & Hop)).
    apply require_ok in Hop. rewrite bool_decide_eq_true in *. by split_and!.
  - unfold validate_intraday_tick in Hop. repeat (apply bind_ok in Hop as ([] & ?%require_ok & Hop)).
    by apply require_ok in Hop.
  - unfold validate_reference_data in Hop. repeat (apply bind_ok in Hop as ([] & ?%require_ok & Hop)).
    by apply require_ok in Hop.
Qed.

Lemma validate_complete jo jp se p op raw types :
  normalize_vec (field_ids p) = field_ids p -> normalize_string (search_spec p) = search_spec p ->
  validate_request_params_with_operation p op raw = Ok types ->
  complete op raw (route_request_params jo jp se p op)
  /\ exists shape, from_params op raw (route_request_params jo jp se p op) = Ok shape.
Proof.
  intros Hids Hspec Hv. destruct (validate_parts p op raw types Hv) as (Hs & Ha & Ho & [shape Hsh] & Hop).
  destruct (route_frame jo jp se p op) as ((Hshape & Hse & Hsecs & Hsec & Hso & Hsd & Hed & Hsdt & Hedt
    & Hev & Hin) & Hkw & Hf & Hfi & Hss).
  split; [|exists shape; rewrite <- Hsh; symmetry; by apply from_params_ext].
  unfold complete. rewrite Hse, Hso, Hsecs, Hkw.
  destruct (validate_security_overrides_ok p op raw Ho) as (? & ? & ?). split_and!; try done.
  intros Hraw. pose proof (validate_operation_complete p op Hids Hspec Ha (Hop Hraw)) as Hc.
  unfold has_securities, has_security, has_fields, has_start_date, has_end_date, has_start_datetime,
    has_end_datetime, has_event_type in *.
  rewrite Hsecs, Hsec, Hsd, Hed, Hsdt, Hedt, Hev, Hin, Hf, Hfi, Hss. exact Hc.
Qed.

(** ** Element names and values are fixed points *)

Lemma one_of_spec s l : one_of s l = true <-> s ∈ l.
Proof. apply bool_decide_eq_true. Qed.

Lemma canonical_element_key_idemp k :
  canonical_element_key (canonical_element_key k) = canonical_element_key k.
Proof.
  unfold canonical_element_key at 2 3.
  repeat match goal with |- context [if one_of k ?l then _ else _] =>
    destruct (one_of k l) eqn:?; [reflexivity|] end.
  unfold canonical_element_key.
  repeat match goal with H : one_of k _ = false |- _ => rewrite H; clear H end. done.
Qed.

Lemma normalize_element_value_idemp e v :
  normalize_element_value e (normalize_element_value e v) = normalize_element_value e v.
Proof.
  unfold normalize_element_value at 2 3. destruct (List.find _ _) as [row|] eqn:Hf.
  - apply List.find_some in Hf as [Hin [He Hv]%andb_prop]. apply bool_decide_eq_true in He. subst e.
    clear Hv. cbn in Hin. by repeat (destruct Hin as [<-|Hin]; [vm_compute; reflexivity|]).
  - unfold normalize_element_value. by rewrite Hf.
Qed.

(** ** Properties *)

Section Properties.
Variable json_object : string -> option (list (string * JsonValue)).
Variable json_pairs : string -> option (list (string * JsonValue)).
Variable schema_elements : string -> string -> gset string.


(** Routing is an ordered partition.  The elements and the overrides a request
    ends up with are exactly the given pairs (raw overrides, explicit overrides,
    then the remaining keyword arguments by ascending name) that classify as such,
    in that order: elements under their canonical name and value, overrides
    verbatim, presentation aliases in neither; the remaining keyword arguments are
    all looked at, once each. *)
Theorem route_kwargs_partition (valid : gset string) (operation : string)
  (kw : gmap string string) (explicit : option (list (string * string))) :
  let inputs := route_inputs json_object json_pairs kw explicit in
  let r := route_kwargs json_object json_pairs valid operation kw explicit in
  r_elements r = omap (to_element valid) inputs
  /\ r_overrides r = omap (to_override valid) inputs
  /\ length (r_elements r) + length (r_overrides r)
     + length (List.filter (fun kv => is_presentation_alias_key kv.1) inputs) = length inputs
  /\ sorted_pairs (delete "overrides"%string kw) ≡ₚ map_to_list (delete "overrides"%string kw).
Proof.
  cbv zeta. rewrite route_kwargs_inputs.
  set (inputs := route_inputs _ _ _ _).
  destruct (route_fold valid operation inputs routed_default) as [-> ->].
  cbn [r_elements r_overrides routed_default app]. split_and!; [done..| |apply sorted_pairs_perm].
  clearbody inputs. induction inputs as [|kv l IH]; [done|].
  rewrite !omap_cons_option, !length_app. cbn [List.filter length].
  unfold to_element, to_override, classify in *.
  destruct (is_presentation_alias_key kv.1); cbn; [lia|]. repeat case_match; cbn in *; try lia; done.
Qed.

(** Normalisation is idempotent.  Normalising request parameters twice, taking
    the canonical name of a canonical name, or normalising a normalised element
    value changes nothing. *)
Theorem request_normalization_idempotent (p : RequestParams) (k e v : string) :
  normalize_request_params (normalize_request_params p) = normalize_request_params p
  /\ canonical_element_key (canonical_element_key k) = canonical_element_key k
  /\ normalize_element_value e (normalize_element_value e v) = normalize_element_value e v.
Proof.
  split_and!; [apply normalize_idemp|apply canonical_element_key_idemp|apply normalize_element_value_idemp].
Qed.
End Properties.

(** *** Witnesses *)

Definition params0 : RequestParams :=
  mkParams "//blp/refdata" "ReferenceDataRequest" None None ExRefData false
    (Some ["IBM US Equity"]%string) None (Some ["PX_LAST"]%string) None
    (Some [(" IBM US Equity "%string, [("EQY_FUND_CRNCY"%string, "EUR"%string)])])
    None (Some {[ "Curr"%string := "USD"%string ]}) None None None None None None None None None
    None None false false None None None None (Some "long"%string).

