(* ===== verification/Sharding.v ===== *)
(** * Request sharding

    Models the planning half of
    [crates/xbbg-async/src/engine/request_sharding.rs]: splitting a prepared
    reference or historical request into shards, by chunks of securities or by runs
    of securities that share their per-security overrides.  Sizes are [nat];
    [usize::MAX], the bound without sharding, is the argument [usize_max]. *)

From Stdlib Require Import ZArith Lia.
From stdpp Require Import gmap strings.
From S2P Require Import Prelude Services Plan.

Record ShardConfig : Type := mkShardConfig {
  shard_requests : bool;
  shard_threshold : nat;
  shard_chunk_size : nat
}.

(** ** Chunks *)

(** [slice::chunks]: consecutive pieces of [n] elements, the last one shorter. *)
Fixpoint chunks_fuel (fuel n : nat) (l : list string) : list (list string) :=
  match fuel, l with
  | _, [] => []
  | 0, _ => []
  | S fuel, l => take n l :: chunks_fuel fuel n (drop n l)
  end.

Definition chunks (n : nat) (l : list string) : list (list string) := chunks_fuel (length l) n l.

Definition shard_security_chunks (secs : list string) (chunk_size : nat) : list (list string) :=
  if decide (chunk_size = 0) then [] else chunks chunk_size secs.

(** ** Overrides *)

(** Replace the value of the first pair with this key. *)
Fixpoint replace_first (l : OverridePairs) (k v : string) : option OverridePairs :=
  match l with
  | [] => None
  | (k', v') :: l =>
      if decide (k' = k) then Some ((k', v) :: l)
      else match replace_first l k v with Some l' => Some ((k', v') :: l') | None => None end
  end.

Definition merge_one (merged : OverridePairs) (kv : string * string) : OverridePairs :=
  match replace_first merged kv.1 kv.2 with
  | Some merged' => merged'
  | None => merged ++ [kv]
  end.

Definition merge_override_pairs (global security : option OverridePairs) : option OverridePairs :=
  if decide (length (default [] global) + length (default [] security) = 0) then None
  else Some (fold_left merge_one (default [] security) (default [] global)).

(** ** Shards by overrides *)

(** [HashMap::from_iter] over the entries: the last one of a security wins. *)
Definition override_lookup (entries : list (string * OverridePairs)) : gmap string OverridePairs :=
  fold_left (fun m e => <[e.1 := e.2]> m) entries ∅.

Record Group : Type := mkGroup {
  g_shards : list PreparedRequest;
  g_current : list string;
  g_overrides : option OverridePairs;
  g_have_current : bool
}.

Definition push_security_override_shard (r : PreparedRequest) (shards : list PreparedRequest)
    (secs : list string) (ovr : option OverridePairs) : list PreparedRequest :=
  match secs with
  | [] => shards
  | _ => shards ++ [for_security_shard r secs (merge_override_pairs (overrides (pr_params r)) ovr)]
  end.

Section Shards.
Variable usize_max : nat.

Definition group_step (r : PreparedRequest) (lookup : gmap string OverridePairs) (max_chunk : nat)
    (g : Group) (security : string) : Group :=
  let next := lookup !! security in
  let g :=
    if g_have_current g
       && (bool_decide (g_overrides g <> next) || bool_decide (max_chunk <= length (g_current g)))
    then mkGroup (push_security_override_shard r (g_shards g) (g_current g) (g_overrides g)) []
           (g_overrides g) false
    else g in
  let g := if negb (g_have_current g) then mkGroup (g_shards g) (g_current g) next true else g in
  mkGroup (g_shards g) (g_current g ++ [security]) (g_overrides g) (g_have_current g).

Definition security_override_shards (config : ShardConfig) (r : PreparedRequest)
  : option (list PreparedRequest) :=
  match security_overrides (pr_params r), securities (pr_params r) with
  | Some ((_ :: _) as entries), Some ((_ :: _) as secs) =>
      let max_chunk := if shard_requests config then shard_chunk_size config else usize_max in
      let g := fold_left (group_step r (override_lookup entries) max_chunk) secs
                 (mkGroup [] [] None false) in
      Some (if g_have_current g
            then push_security_override_shard r (g_shards g) (g_current g) (g_overrides g)
            else g_shards g)
  | _, _ => None
  end.

Definition sharded_requests (config : ShardConfig) (r : PreparedRequest)
  : option (list PreparedRequest) :=
  if pr_raw r then None
  else if negb match pr_operation r with OpReferenceData | OpHistoricalData => true | _ => false end
  then None
  else if negb match pr_shape r with ShRefData _ | ShHistData _ => true | _ => false end
  then None
  else
    match security_override_shards config r with
    | Some shards => Some shards
    | None =>
        if negb (shard_requests config) then None
        else
          match securities (pr_params r) with
          | None => None
          | Some secs =>
              if bool_decide (secs = []) || bool_decide (length secs < shard_threshold config) then None
              else
                let cs := shard_security_chunks secs (shard_chunk_size config) in
                if decide (length cs < 2) then None
                else Some ((fun c => for_security_shard r c (overrides (pr_params r))) <$> cs)
          end
    end.
End Shards.

(** ** Chunks partition the list *)

Lemma chunks_fuel_spec fuel n l :
  0 < n -> length l <= fuel ->
  concat (chunks_fuel fuel n l) = l
  /\ Forall (fun c => c <> [] /\ length c <= n) (chunks_fuel fuel n l).
Proof.
  intros Hn. revert l. induction fuel as [|fuel IH]; intros [|x l] Hl; try (simpl in *; lia);
    try (split; [done|constructor]).
  cbn [chunks_fuel concat]. destruct (IH (drop n (x :: l))) as [Hc Hf].
  { rewrite length_drop. simpl in *. lia. }
  split; [by rewrite Hc, take_drop|]. constructor; [|done]. split.
  - destruct n; [lia|done].
  - rewrite length_take. lia.
Qed.

(** ** Merged overrides *)

(** The value a request uses for an override: the first one listed. *)
Definition effective (l : OverridePairs) (k : string) : option string :=
  option_map snd (List.find (fun kv => bool_decide (kv.1 = k)) l).

Lemma effective_cons kv l k :
  effective (kv :: l) k = if decide (kv.1 = k) then Some kv.2 else effective l k.
Proof. unfold effective. cbn. case_bool_decide; case_decide; done. Qed.

Lemma effective_app l1 l2 k :
  effective (l1 ++ l2) k = match effective l1 k with Some v => Some v | None => effective l2 k end.
Proof.
  induction l1 as [|kv l1 IH]; [done|]. rewrite <- app_comm_cons, !effective_cons. by case_decide.
Qed.

Lemma replace_first_spec l k v :
  match replace_first l k v with
  | Some l' => effective l k <> None /\ forall j, effective l' j = if decide (j = k) then Some v else effective l j
  | None => effective l k = None
  end.
Proof.
  induction l as [|[k' v'] l IH]; [done|]. cbn [replace_first]. case_decide as Hk.
  - subst k'. rewrite effective_cons. cbn. rewrite decide_True by done. split; [done|]. intros j.
    rewrite !effective_cons. cbn. repeat case_decide; congruence.
  - rewrite effective_cons. cbn. rewrite decide_False by done.
    destruct (replace_first l k v) as [l'|]; [|done]. destruct IH as [Hne IH]. split; [done|]. intros j.
    rewrite !effective_cons, IH. cbn. repeat case_decide; congruence.
Qed.

Lemma merge_one_effective m kv j :
  effective (merge_one m kv) j = if decide (j = kv.1) then Some kv.2 else effective m j.
Proof.
  unfold merge_one. pose proof (replace_first_spec m kv.1 kv.2) as Hr.
  destruct (replace_first m kv.1 kv.2) as [m'|]; [apply Hr|].
  rewrite effective_app, effective_cons. destruct (decide (j = kv.1)) as [->|Hj].
  - by rewrite Hr, decide_True.
  - rewrite decide_False by done. by destruct (effective m j).
Qed.

(** The last value of a key among the security's pairs. *)
Definition last_value (l : OverridePairs) (k : string) : option string := effective (rev l) k.

Lemma merge_fold_effective security global k :
  effective (fold_left merge_one security global) k
  = match last_value security k with Some v => Some v | None => effective global k end.
Proof.
  unfold last_value. revert global. induction security as [|kv l IH]; intros global; [done|].
  cbn [fold_left rev]. rewrite IH, effective_app, merge_one_effective, effective_cons. cbn [effective].
  destruct (effective (rev l) k); [done|]. repeat case_decide; subst; done.
Qed.

Lemma merge_override_effective global security k :
  effective (default [] (merge_override_pairs global security)) k
  = match last_value (default [] security) k with
    | Some v => Some v
    | None => effective (default [] global) k
    end.
Proof.
  unfold merge_override_pairs. case_decide as Hz.
  - destruct (default [] global), (default [] security); simpl in Hz; try lia. done.
  - apply merge_fold_effective.
Qed.

(** ** Groups of equal overrides *)

Section Groups.
Variable r : PreparedRequest.
Variable lookup : gmap string OverridePairs.
Variable max_chunk : nat.

Definition shard_of (c : list string) (ovr : option OverridePairs) : PreparedRequest :=
  for_security_shard r c (merge_override_pairs (overrides (pr_params r)) ovr).

(** A shard holds securities that all have the overrides it was built with. *)
Definition shard_ok (s : PreparedRequest) : Prop :=
  exists c ovr, s = shard_of c ovr /\ c <> [] /\ length c <= max 1 max_chunk
                /\ forall sec, sec ∈ c -> lookup !! sec = ovr.

Definition shard_securities (s : PreparedRequest) : list string :=
  default [] (securities (pr_params s)).

Definition group_ok (seen : list string) (g : Group) : Prop :=
  concat (shard_securities <$> g_shards g) ++ g_current g = seen
  /\ Forall shard_ok (g_shards g)
  /\ (g_have_current g = false -> g_current g = [])
  /\ (g_have_current g = true ->
      g_current g <> [] /\ length (g_current g) <= max 1 max_chunk
      /\ forall sec, sec ∈ g_current g -> lookup !! sec = g_overrides g).

Lemma push_shard_ok seen g :
  group_ok seen g -> g_have_current g = true ->
  concat (shard_securities <$> push_security_override_shard r (g_shards g) (g_current g) (g_overrides g))
    = seen
  /\ Forall shard_ok (push_security_override_shard r (g_shards g) (g_current g) (g_overrides g)).
Proof.
  intros (Hc & Hf & _ & Hh) Hhave. destruct (Hh Hhave) as (Hne & Hlen & Hl).
  unfold push_security_override_shard. destruct (g_current g) as [|x c] eqn:Hcur; [done|]. split.
  - rewrite fmap_app, concat_app. cbn [fmap list_fmap concat]. rewrite app_nil_r. exact Hc.
  - apply Forall_app. split; [done|]. constructor; [|constructor]. by exists (x :: c), (g_overrides g).
Qed.

Lemma group_step_ok seen g sec :
  group_ok seen g -> group_ok (seen ++ [sec]) (group_step r lookup max_chunk g sec).
Proof.
  intros Hg. unfold group_step.
  destruct (g_have_current g && _) eqn:Hflush.
  - apply andb_prop in Hflush as [Hh _]. destruct (push_shard_ok seen g Hg Hh) as [Hc Hf].
    cbn. split_and!; cbn; [by rewrite Hc|done|done|]. intros _. split_and!; [done|lia|].
    intros s Hs%list_elem_of_singleton. by subst s.
  - destruct Hg as (Hc & Hf & Hno & Hh). destruct (g_have_current g) eqn:Hhave; cbn.
    + cbn in Hflush. apply orb_false_elim in Hflush as [Ho Hl].
      apply bool_decide_eq_false in Ho, Hl. destruct (Hh eq_refl) as (Hne & Hlen & Hall).
      split_and!; cbn; [by rewrite app_assoc, Hc|done|congruence|]. intros _. split_and!.
      * by destruct (g_current g).
      * rewrite length_app. cbn. lia.
      * intros s [Hs|Hs%list_elem_of_singleton]%elem_of_app; [by apply Hall|]. subst s.
        apply dec_stable in Ho. done.
    + rewrite (Hno eq_refl) in *. split_and!; cbn; [by rewrite <- Hc, app_nil_r|done|done|].
      intros _. split_and!; [done|lia|]. intros s Hs%list_elem_of_singleton. by subst s.
Qed.

Lemma group_fold_ok secs seen g :
  group_ok seen g -> group_ok (seen ++ secs) (fold_left (group_step r lookup max_chunk) secs g).
Proof.
  revert seen g. induction secs as [|sec secs IH]; intros seen g Hg; [by rewrite app_nil_r|].
  cbn [fold_left]. replace (seen ++ sec :: secs) with ((seen ++ [sec]) ++ secs) by by rewrite <- app_assoc.
  by apply IH, group_step_ok.
Qed.

Lemma group_final_ok secs :
  let g := fold_left (group_step r lookup max_chunk) secs (mkGroup [] [] None false) in
  let shards := if g_have_current g
                then push_security_override_shard r (g_shards g) (g_current g) (g_overrides g)
                else g_shards g in
  concat (shard_securities <$> shards) = secs /\ Forall shard_ok shards.
Proof.
  cbv zeta. pose proof (group_fold_ok secs [] (mkGroup [] [] None false)) as Hg. cbn [app] in Hg.
  set (g := fold_left _ secs _) in *.
  assert (Hgi : group_ok secs g) by (apply Hg; by split_and!). clear Hg. clearbody g.
  destruct (g_have_current g) eqn:Hh; [by apply push_shard_ok|].
  destruct Hgi as (Hc & Hf & Hno & _). by rewrite (Hno Hh), app_nil_r in Hc.
Qed.
End Groups.

Lemma security_override_shards_ok usize config r shards :
  security_override_shards usize config r = Some shards ->
  exists entries secs,
    security_overrides (pr_params r) = Some entries /\ securities (pr_params r) = Some secs
    /\ concat (shard_securities <$> shards) = secs
    /\ Forall (shard_ok r (override_lookup entries)
                 (if shard_requests config then shard_chunk_size config else usize)) shards.
Proof.
  unfold security_override_shards.
  destruct (security_overrides (pr_params r)) as [[|e entries]|]; [done| |done].
  destruct (securities (pr_params r)) as [[|sec secs]|]; [done| |done]. intros [= <-].
  eexists _, _. split; [done|]. split; [done|].
  exact (group_final_ok r (override_lookup (e :: entries)) _ (sec :: secs)).
Qed.

(** ** Properties *)

(** The per-security overrides of a request for one security. *)
Definition overrides_of (r : PreparedRequest) (sec : string) : OverridePairs :=
  default [] (override_lookup (default [] (security_overrides (pr_params r))) !! sec).

(** C28: sharding preserves the request.  The shards cover the securities in order,
    none is empty, with sharding enabled none exceeds the chunk size, each differs
    from the request in its securities and overrides only and carries no
    per-security overrides of its own; and for every security the override in force
    in its shard is the security's own last value, or else the request's global
    one. *)
Theorem sharding_preserves_request usize config r shards secs
  (Hsecs : securities (pr_params r) = Some secs)
  (Hshards : sharded_requests usize config r = Some shards) :
  concat (shard_securities <$> shards) = secs
  /\ Forall (fun s =>
       let c := shard_securities s in
       s = for_security_shard r c (overrides (pr_params s)) /\ c <> []
       /\ (shard_requests config = true -> length c <= max 1 (shard_chunk_size config))
       /\ forall sec k, sec ∈ c ->
            effective (default [] (overrides (pr_params s))) k
            = match last_value (overrides_of r sec) k with
              | Some v => Some v
              | None => effective (default [] (overrides (pr_params r))) k
              end) shards.
Proof.
  unfold sharded_requests in Hshards. destruct (pr_raw r); [done|].
  destruct (negb _); [done|]. destruct (negb _); [done|].
  destruct (security_override_shards usize config r) as [os|] eqn:Hos.
  - simplify_eq. apply security_override_shards_ok in Hos as (entries & secs' & He & Hs & Hc & Hf).
    simplify_eq. split; [done|]. eapply Forall_impl; [exact Hf|].
    intros s (c & ovr & -> & Hne & Hlen & Hall). cbv zeta. cbn. split_and!; [done..| |].
    + intros Hsh. by rewrite Hsh in Hlen.
    + intros sec k Hin. rewrite merge_override_effective. unfold overrides_of. rewrite He.
      by rewrite <- (Hall sec Hin).
  - rewrite Hsecs in Hshards. destruct (negb _); [done|].
    destruct (bool_decide (secs = []) || _) eqn:Hsmall; [done|].
    apply orb_false_elim in Hsmall as [Hsne _]. apply bool_decide_eq_false in Hsne.
    case_decide as H2; [done|]. simplify_eq. unfold shard_security_chunks in *.
    case_decide as H0; [cbn in H2; lia|].
    destruct (chunks_fuel_spec (length secs) (shard_chunk_size config) secs) as [Hc Hf]; [lia|done|].
    assert (Hno : default [] (security_overrides (pr_params r)) = []).
    { unfold security_override_shards in Hos. rewrite Hsecs in Hos.
      destruct (security_overrides (pr_params r)) as [[|]|]; [done| |done]. by destruct secs. }
    rewrite <- list_fmap_compose. split.
    + etrans; [|exact Hc]. f_equal. by apply fmap_fixed.
    + apply Forall_fmap. eapply Forall_impl; [exact Hf|]. intros c [Hne Hlen]. cbv zeta. cbn.
      split_and!; [done..|lia|]. intros sec k _. unfold overrides_of. by rewrite Hno.
Qed.

(** *** Witness *)

Definition request0 : PreparedRequest :=
  mkPrepared
    (mkParams "//blp/refdata" "ReferenceDataRequest" None None ExRefData false
       (Some ["A"; "B"; "C"]%string) None (Some ["PX_LAST"]%string)
       (Some [("CRNCY", "USD")]%string) (Some [("B", [("CRNCY", "EUR")])]%string)
       None None None None None None None None None None None None None false false None None
       None None None)
    (ShRefData (mkOutput OfLong LmString)) OpReferenceData ∅ false.

Lemma sharding_witness :
  exists shards, sharded_requests 1000 (mkShardConfig true 2 2) request0 = Some shards
    /\ (shard_securities <$> shards) = [["A"]; ["B"]; ["C"]]%string
    /\ concat (shard_securities <$> shards) = ["A"; "B"; "C"]%string.
Proof.
  eexists. split; [vm_compute; reflexivity|]. split; [reflexivity|].
  eapply (sharding_preserves_request 1000 (mkShardConfig true 2 2) request0);
    [reflexivity|vm_compute; reflexivity].
Defined.
