(* ===== verification/StateDelivery.v ===== *)
(** * State delivery of shared subscriptions

    Models [crates/xbbg-async/src/engine/shared_subscriptions/state_delivery.rs]:
    the dirty-topic queue through which one consumer reads conflated images of
    its topics.  A feed marks a topic dirty ([mark]); the reader leases dirty
    topics ([try_recv]), snapshots their images outside the lock and hands out a
    receipt, which is later acknowledged or dropped; a drain freezes the pending
    images ([prepare_close]).

    Each critical section of the state mutex is one action, and the receiver's
    own progress between sections is the program counter [RdPc]; any operation
    of another thread may happen between two sections.  Receiver operations take
    [&mut self], so at most one of them is in progress, while receipts are
    independent and may finish at any time.

    Keys are [nat] ([usize]), revisions [Z] ([u64]).  A [Weak<Feed>] is an
    identifier; whether it upgrades, and the image a snapshot finds, are inputs
    of the step.  The batch of a receipt is the list of its rows: building the
    Arrow batch may fail with any error.  The read-plan cache of a member is not
    modelled; recycled value buffers are counted. *)

From Stdlib Require Import ZArith Lia.
From stdpp Require Import sorting.
From S2P Require Import Prelude Errors Update.

(** ** Data *)

Record ImageRow : Type := mkRow {
  row_label : string;
  row_last_update : option Z;
  row_live : bool;
  row_delayed : option bool;
  row_valid : bool;
  row_layout : FieldLayout;
  row_projected : option SubscriptionUpdate
}.

Definition invalidate (r : ImageRow) : ImageRow :=
  mkRow (row_label r) (row_last_update r) false (row_delayed r) false (row_layout r) None.

Record DirtyMember : Type := mkMember {
  feed : nat;
  label : string;
  revision : Z;
  acknowledged : option Z;
  invalidated : option Z;
  queued : bool;
  in_flight : bool;
  retired : bool;
  final_image : option (Z * ImageRow)
}.

Record SelectedMember : Type := mkSelected {
  sel_key : nat;
  sel_feed : nat;
  sel_invalidated : option Z;
  sel_final_image : option (Z * ImageRow)
}.

(** A key of a receipt, with the revision and the row of the batch it goes
    with. *)
Record ReceiptKey : Type := mkKey {
  rk_key : nat;
  rk_acknowledged : Z;
  rk_invalidated : option Z;
  rk_revision : Z;
  rk_row : ImageRow
}.

Record FrozenImage : Type := mkFrozen {
  fr_key : nat;
  fr_revision : Z;
  fr_invalidated : option Z;
  recovery_epoch : bool;
  fr_row : ImageRow
}.

Definition covered_by (f : FrozenImage) (m : DirtyMember) : bool :=
  match acknowledged m with Some seen => bool_decide (fr_revision f <= seen)%Z | None => false end
  && match fr_invalidated f with
     | Some marker => bool_decide (invalidated m <> Some marker)
     | None => match invalidated m with
               | Some marker => bool_decide (fr_revision f < marker)%Z
               | None => true
               end
     end.

Record DirtyState : Type := mkDirty {
  members : gmap nat DirtyMember;
  queue : list nat;
  frozen_images : list FrozenImage;
  frozen_queue : list nat;
  spare_values : nat;
  live_batch_high_water : nat;
  terminal : option BlpError;
  terminal_in_flight : bool;
  terminal_delivered : bool;
  source_closed : bool;
  receiver_closed : bool;
  freezing : bool;
  frozen : bool
}.

Definition dirty_new : DirtyState :=
  mkDirty ∅ [] [] [] 0 0 None false false false false false false.

Definition set_dirty (s : DirtyState) (ms : gmap nat DirtyMember) (q : list nat) : DirtyState :=
  mkDirty ms q (frozen_images s) (frozen_queue s) (spare_values s) (live_batch_high_water s)
    (terminal s) (terminal_in_flight s) (terminal_delivered s) (source_closed s)
    (receiver_closed s) (freezing s) (frozen s).

Definition set_frozen_queue (s : DirtyState) (q : list nat) : DirtyState :=
  mkDirty (members s) (queue s) (frozen_images s) q (spare_values s) (live_batch_high_water s)
    (terminal s) (terminal_in_flight s) (terminal_delivered s) (source_closed s)
    (receiver_closed s) (freezing s) (frozen s).

Definition set_spare (s : DirtyState) (n high : nat) : DirtyState :=
  mkDirty (members s) (queue s) (frozen_images s) (frozen_queue s) n high
    (terminal s) (terminal_in_flight s) (terminal_delivered s) (source_closed s)
    (receiver_closed s) (freezing s) (frozen s).

Definition set_terminal (s : DirtyState) (e : option BlpError) (fl dl : bool) : DirtyState :=
  mkDirty (members s) (queue s) (frozen_images s) (frozen_queue s) (spare_values s)
    (live_batch_high_water s) e fl dl (source_closed s) (receiver_closed s) (freezing s) (frozen s).

Definition set_source_closed (s : DirtyState) : DirtyState :=
  mkDirty (members s) (queue s) (frozen_images s) (frozen_queue s) (spare_values s)
    (live_batch_high_water s) (terminal s) (terminal_in_flight s) (terminal_delivered s)
    true (receiver_closed s) (freezing s) (frozen s).

Definition set_freeze (s : DirtyState) (fz fr : bool) : DirtyState :=
  mkDirty (members s) (queue s) (frozen_images s) (frozen_queue s) (spare_values s)
    (live_batch_high_water s) (terminal s) (terminal_in_flight s) (terminal_delivered s)
    (source_closed s) (receiver_closed s) fz fr.

Definition set_queued (m : DirtyMember) (b : bool) : DirtyMember :=
  mkMember (feed m) (label m) (revision m) (acknowledged m) (invalidated m) b (in_flight m)
    (retired m) (final_image m).

Definition set_in_flight (m : DirtyMember) (b : bool) : DirtyMember :=
  mkMember (feed m) (label m) (revision m) (acknowledged m) (invalidated m) (queued m) b
    (retired m) (final_image m).

Definition set_final (m : DirtyMember) (rev : Z) (img : option (Z * ImageRow)) : DirtyMember :=
  mkMember (feed m) (label m) rev (acknowledged m) (invalidated m) (queued m) (in_flight m)
    (retired m) img.

(** ** The feed's side *)

Definition sd_register (s : DirtyState) (key f : nat) (rev : Z) (lbl : string) : DirtyState :=
  if source_closed s || receiver_closed s || freezing s || frozen s then s
  else
    let ms := filter (fun p : nat * DirtyMember => retired p.2 = false \/ label p.2 <> lbl)
                (members s) in
    let q := filter (fun k => is_Some (ms !! k)) (queue s) in
    set_dirty s (<[key := mkMember f lbl rev None None true false false None]> ms) (q ++ [key]).

(** The common tail of [mark] and [retire]: queue the member unless it is
    queued, leased, or a drain is being prepared. *)
Definition enqueue (s : DirtyState) (key : nat) (m : DirtyMember) : DirtyState :=
  if freezing s || queued m || in_flight m
  then set_dirty s (<[key := m]> (members s)) (queue s)
  else set_dirty s (<[key := set_queued m true]> (members s)) (queue s ++ [key]).

Definition mark (s : DirtyState) (key : nat) (rev : Z) (inv : bool) : DirtyState :=
  if source_closed s || receiver_closed s || frozen s then s
  else match members s !! key with
       | None => s
       | Some m =>
           let marker := if inv && bool_decide (invalidated m = None) then Some rev
                         else invalidated m in
           enqueue s key
             (mkMember (feed m) (label m) (Z.max (revision m) rev) (acknowledged m) marker
                (queued m) (in_flight m) (retired m) (final_image m))
       end.

Definition U64_MAX : Z := 2 ^ 64 - 1.

Definition retire (s : DirtyState) (key : nat) (row : ImageRow) : DirtyState :=
  if source_closed s || receiver_closed s || frozen s then s
  else match members s !! key with
       | None => s
       | Some m =>
           let rev := Z.min (revision m + 1) U64_MAX in
           enqueue s key
             (mkMember (feed m) (label m) rev (acknowledged m) None (queued m) (in_flight m)
                true (Some (rev, row)))
       end.

Definition sd_remove (s : DirtyState) (key : nat) : DirtyState :=
  set_dirty s (delete key (members s)) (filter (fun k => k <> key) (queue s)).

Definition detach (s : DirtyState) (key : nat) : DirtyState :=
  if frozen s || freezing s then s else sd_remove s key.

Definition fail (s : DirtyState) (e : BlpError) : DirtyState :=
  if receiver_closed s || terminal_delivered s || terminal_in_flight s then s
  else
    let t := match terminal s with None => Some e | Some e0 => Some e0 end in
    let s := set_terminal s t (terminal_in_flight s) (terminal_delivered s) in
    let s := set_frozen_queue (set_source_closed s) [] in
    set_dirty s ((fun m => set_queued m false) <$> members s) [].

Definition close_source (s : DirtyState) : DirtyState :=
  let s := set_source_closed s in
  if negb (frozen s) && negb (freezing s) then set_dirty (set_spare s 0 0) ∅ [] else s.

(** ** Receipts *)

Definition finish_member (committed : bool) (r : ReceiptKey) (m : DirtyMember) : DirtyMember :=
  if committed then
    mkMember (feed m) (label m) (revision m)
      (Some (match acknowledged m with
             | Some old => Z.max old (rk_acknowledged r)
             | None => rk_acknowledged r
             end))
      (if decide (invalidated m = rk_invalidated r) then None else invalidated m)
      (queued m) false (retired m) (final_image m)
  else set_in_flight m false.

(** The member's image has changed, or lost continuity, since the last
    acknowledged row. *)
Definition stale (m : DirtyMember) : bool :=
  bool_decide (is_Some (invalidated m))
  || match acknowledged m with Some seen => bool_decide (seen < revision m)%Z | None => true end.

Definition finish_one (committed closing can_queue : bool) (s : DirtyState) (r : ReceiptKey)
  : DirtyState :=
  match members s !! rk_key r with
  | None => s
  | Some m =>
      let m := finish_member committed r m in
      let dirty := negb committed || stale m in
      if negb closing && retired m && committed && negb dirty
      then set_dirty s (delete (rk_key r) (members s)) (queue s)
      else if can_queue && dirty && negb (queued m)
           then set_dirty s (<[rk_key r := set_queued m true]> (members s)) (queue s ++ [rk_key r])
           else set_dirty s (<[rk_key r := m]> (members s)) (queue s)
  end.

Definition finish (s : DirtyState) (keys : list ReceiptKey) (committed : bool) : DirtyState :=
  let closing := frozen s || freezing s in
  let can_queue :=
    negb (receiver_closed s) && negb (terminal_delivered s) && negb (terminal_in_flight s)
    && bool_decide (terminal s = None) && negb closing && negb (source_closed s) in
  fold_left (finish_one committed closing can_queue) keys s.

Definition requeue_frozen (n : nat) (q : list nat) (id : nat) : list nat :=
  if decide (n <= id \/ id ∈ q) then q
  else
    let before := match list_find (fun k => id < k) q with Some (i, _) => i | None => length q end in
    take before q ++ id :: drop before q.

Definition finish_frozen (s : DirtyState) (ids : list nat) (committed : bool) : DirtyState :=
  if negb committed && frozen s && negb (receiver_closed s) && negb (terminal_delivered s)
     && negb (terminal_in_flight s) && bool_decide (terminal s = None)
  then set_frozen_queue s
         (fold_left (requeue_frozen (length (frozen_images s))) ids (frozen_queue s))
  else s.

Definition finish_terminal (s : DirtyState) (e : option BlpError) : DirtyState :=
  match e with
  | Some e =>
      set_terminal s (if receiver_closed s then terminal s else Some e) false
        (terminal_delivered s)
  | None =>
      let s := set_terminal s (terminal s) false true in
      set_frozen_queue (set_dirty s (members s) []) []
  end.

(** ** The receiver *)

(** Lease up to [n] queued members. *)
Fixpoint select_live (q : list nat) (n : nat) (ms : gmap nat DirtyMember)
  : list SelectedMember * list nat * gmap nat DirtyMember :=
  match n, q with
  | 0, _ => ([], q, ms)
  | _, [] => ([], [], ms)
  | S n', key :: q' =>
      match ms !! key with
      | None => select_live q' n ms
      | Some m =>
          let m := set_queued m false in
          if in_flight m then select_live q' n (<[key := m]> ms)
          else
            let '(sel, q, ms) := select_live q' n' (<[key := set_in_flight m true]> ms) in
            (mkSelected key (feed m) (invalidated m) (final_image m) :: sel, q, ms)
      end
  end.

(** Lease up to [n] frozen images of one epoch, in order; [None] is the panic of
    an index out of bounds. *)
Fixpoint select_frozen (images : list FrozenImage) (ms : gmap nat DirtyMember)
    (q : list nat) (n : nat) (epoch : option bool)
  : option (list (nat * FrozenImage) * list nat) :=
  match n, q with
  | 0, _ => Some ([], q)
  | _, [] => Some ([], [])
  | S n', id :: q' =>
      image ← images !! id;
      let member := ms !! fr_key image in
      if match member with Some m => covered_by image m | None => false end
      then select_frozen images ms q' n epoch
      else if match member with Some m => in_flight m | None => false end
              || match epoch with
                 | Some e => negb (Bool.eqb e (recovery_epoch image))
                 | None => false
                 end
      then Some ([], q)
      else '(sel, q) ← select_frozen images ms q' n' (Some (recovery_epoch image));
           Some ((id, image) :: sel, q)
  end.

Inductive Selection : Type :=
| SelNothing
| SelTerminal (e : BlpError)
| SelFrozen (l : list (nat * FrozenImage))
| SelLive (l : list SelectedMember).

(** The locked part of [try_recv]; [None] is a panic. *)
Definition try_select (s : DirtyState) (limit : nat) : option (DirtyState * Selection) :=
  if receiver_closed s || freezing s || terminal_in_flight s || terminal_delivered s
  then Some (s, SelNothing)
  else match terminal s with
  | Some e => Some (set_terminal s None true (terminal_delivered s), SelTerminal e)
  | None =>
      if frozen s then
        '(sel, q) ← select_frozen (frozen_images s) (members s) (frozen_queue s)
                      (limit `max` 1) None;
        Some (set_frozen_queue s q, SelFrozen sel)
      else
        let '(sel, q, ms) := select_live (queue s) (limit `max` 1) (members s) in
        let s := set_dirty s ms q in
        if decide (live_batch_high_water s < length sel) then
          if decide (spare_values s <= length sel)
          then Some (set_spare s (spare_values s) (length sel), SelLive sel)
          else None
        else Some (s, SelLive sel)
  end.

Definition filter_le (at_ : option Z) (rev : Z) : option Z :=
  match at_ with Some at_ => if decide (at_ <= rev)%Z then Some at_ else None | None => None end.

Definition or_else {A} (o o' : option A) : option A := match o with Some a => Some a | None => o' end.

(** The key and row of a leased member whose image at revision [rev] is [row]:
    a continuity loss at or before the revision is shown first, as an
    invalidated row. *)
Definition row_key (s : DirtyState) (sel : SelectedMember) (rev : Z) (row : ImageRow) : ReceiptKey :=
  let inv := or_else (filter_le (members s !! sel_key sel ≫= invalidated) rev)
               (filter_le (sel_invalidated sel) rev) in
  match inv with
  | Some at_ =>
      if row_valid row then mkKey (sel_key sel) (Z.min rev at_) inv rev (invalidate row)
      else mkKey (sel_key sel) rev inv rev row
  | None => mkKey (sel_key sel) rev inv rev row
  end.

(** [ImageReadBuffer]: a spare buffer is taken for a member, and a spilled one
    comes back while the pool is below its high-water mark. *)
Definition read_buffer (s : DirtyState) (key : nat) : DirtyState :=
  match members s !! key with
  | None => s
  | Some _ => set_spare s (pred (spare_values s)) (live_batch_high_water s)
  end.

Definition recycle_values (s : DirtyState) (spilled : bool) : DirtyState :=
  if negb spilled then s
  else if negb (receiver_closed s) && bool_decide (spare_values s < live_batch_high_water s)
  then set_spare s (S (spare_values s)) (live_batch_high_water s)
  else s.

(** *** Preparing a drain, section by section *)

Definition leased_keys (ms : gmap nat DirtyMember) : list nat :=
  merge_sort Nat.le
    (map_to_list (filter (fun p => in_flight p.2 = true /\ queued p.2 = false) ms)).*1.

Definition prep_begin (s : DirtyState) : option (DirtyState * list (nat * nat * bool)) :=
  if receiver_closed s || frozen s || freezing s then None
  else Some (set_freeze s true (frozen s),
             omap (fun key => m ← members s !! key; Some (key, feed m, retired m))
               (queue s ++ leased_keys (members s))).

(** Store the captured image; the result tells whether the member is removed. *)
Definition prep_store (s : DirtyState) (key : nat) (image : option (Z * ImageRow))
  : DirtyState * bool :=
  match members s !! key with
  | None => (s, false)
  | Some m =>
      if retired m then (s, false)
      else match image with
      | Some image =>
          (set_dirty s (<[key := set_final m (Z.max (revision m) image.1) (Some image)]> (members s))
             (queue s), false)
      | None => (s, bool_decide (final_image m = None))
      end
  end.

Definition Snapshot : Type := nat * Z * ImageRow * option Z.

Fixpoint take_finals (ms : gmap nat DirtyMember) (keys : list nat)
  : gmap nat DirtyMember * list Snapshot :=
  match keys with
  | [] => (ms, [])
  | key :: keys =>
      match ms !! key with
      | None => take_finals ms keys
      | Some m =>
          let m := set_queued m false in
          let '(ms, snaps) :=
            take_finals (<[key := set_final m (revision m) None]> ms) keys in
          (ms, match final_image m with
               | Some (rev, row) => (key, rev, row, invalidated m) :: snaps
               | None => snaps
               end)
      end
  end.

Definition prep_take (s : DirtyState) (pending : list (nat * nat * bool))
  : DirtyState * list Snapshot :=
  let '(ms, snaps) := take_finals (members s) pending.*1.*1 in
  (set_freeze (set_dirty s ms []) (freezing s) true, snaps).

Definition loss_row (row : ImageRow) : ImageRow :=
  mkRow (row_label row) (row_last_update row) false (row_delayed row) false (row_layout row) None.

(** The images of the first epoch and the recovery images of one snapshot. *)
Definition snapshot_images (sn : Snapshot) : list FrozenImage * list FrozenImage :=
  let '(key, rev, row, inv) := sn in
  let inv := filter_le inv rev in
  match inv with
  | Some marker =>
      if row_valid row
      then ([mkFrozen key marker (Some marker) false (loss_row row)],
            [mkFrozen key rev None true row])
      else ([mkFrozen key rev inv false row], [])
  | None => ([mkFrozen key rev inv false row], [])
  end.

Definition epoch_images (snaps : list Snapshot) : list FrozenImage :=
  let l := snapshot_images <$> snaps in (l.*1 ≫= id) ++ (l.*2 ≫= id).

Definition prep_install (s : DirtyState) (images : list FrozenImage) : DirtyState :=
  mkDirty (members s) [] images
    (if negb (receiver_closed s) && negb (terminal_delivered s) && bool_decide (terminal s = None)
     then seq 0 (length images) else frozen_queue s)
    (spare_values s) (live_batch_high_water s) (terminal s) (terminal_in_flight s)
    (terminal_delivered s) true (receiver_closed s) false true.

Definition sd_close (s : DirtyState) : DirtyState :=
  mkDirty ∅ [] [] [] 0 0 None (terminal_in_flight s) (terminal_delivered s) true true
    (freezing s) (frozen s).

Definition is_closed (s : DirtyState) : bool := source_closed s || receiver_closed s.

Definition sd_len (s : DirtyState) : nat :=
  if frozen s then length (frozen_queue s) else length (queue s).

(** The condition under which [recv] ends instead of waiting. *)
Definition at_end (s : DirtyState) : bool :=
  receiver_closed s || terminal_delivered s
  || (source_closed s && negb (freezing s) && bool_decide (queue s = [])
      && bool_decide (frozen_queue s = []) && bool_decide (terminal s = None)
      && negb (terminal_in_flight s)).

(** ** The system *)

(** A receipt: [rc_result] is [None] once the caller took the result out. *)
Record Receipt : Type := mkReceipt {
  rc_result : option (result (list ImageRow) BlpError);
  rc_keys : list ReceiptKey;
  rc_frozen : list nat;
  rc_terminal : bool
}.

(** Where the receiver stands between two critical sections. *)
Inductive RdPc : Type :=
| RIdle
| RSelected (sel : list SelectedMember)
| RResolve (todo : list SelectedMember) (keys : list ReceiptKey)
| RLookup (sel : SelectedMember) (todo : list SelectedMember) (keys : list ReceiptKey)
| RRemove (sel : SelectedMember) (todo : list SelectedMember) (keys : list ReceiptKey)
| RRow (sel : SelectedMember) (rev : Z) (row : ImageRow) (todo : list SelectedMember)
    (keys : list ReceiptKey)
| RFrozen (sel : list (nat * FrozenImage))
| RPrep (todo pending : list (nat * nat * bool))
| RPrepStore (key : nat) (image : option (Z * ImageRow)) (todo pending : list (nat * nat * bool))
| RPrepRemove (key : nat) (todo pending : list (nat * nat * bool))
| RPrepInstall (snaps : list Snapshot).

Inductive DAction : Type :=
| DRegister (f : nat) (rev : Z) (lbl : string)
| DMark (key : nat) (rev : Z) (inv : bool)
| DRetire (key : nat) (row : ImageRow)
| DDetach (key : nat)
| DFail (e : BlpError)
| DCloseSource
| DRecv (limit : nat)
| DOwner (alive : bool)
| DSnapshot (image : option (Z * ImageRow))
| DLock
| DBatch (failure : option BlpError)
| DPrepare
| DClose
| DReadBuffer (key : nat)
| DRecycle (spilled : bool)
| DTake (i : nat)
| DRestore (i : nat) (e : BlpError)
| DAcknowledge (i : nat)
| DDropReceipt (i : nat).

(** The consumer's view of the world: the delivery state, the consumer's key
    counter, the receiver and the outstanding receipts; [feed_rev] is the
    revision last seen of a member's feed and [shown] the members whose image
    was captured at least once.  The remaining fields record history: the rows
    acknowledged by receipts of the live queue, the frozen images acknowledged,
    the continuity losses recorded as a marker, the members that were retired or
    removed, the members pending when the drain began with their revisions, and the terminal errors handed over. *)
Record DSys : Type := mkDSys {
  sd : DirtyState;
  next_key : nat;
  reader : RdPc;
  receipts : list Receipt;
  feed_rev : gmap nat Z;
  shown : gset nat;
  committed : list ReceiptKey;
  frozen_done : list nat;
  losses : list (nat * Z);
  gone : gset nat;
  drain_start : list (nat * Z);
  ended : list (option BlpError)
}.

Definition dsys_new : DSys := mkDSys dirty_new 0 RIdle [] ∅ ∅ [] [] [] ∅ [] [].

Section Exec.
Implicit Types s : DSys.

Definition put s (d : DirtyState) : DSys :=
  mkDSys d (next_key s) (reader s) (receipts s) (feed_rev s) (shown s) (committed s)
    (frozen_done s) (losses s) (gone s) (drain_start s) (ended s).
Definition goto s (pc : RdPc) : DSys :=
  mkDSys (sd s) (next_key s) pc (receipts s) (feed_rev s) (shown s) (committed s)
    (frozen_done s) (losses s) (gone s) (drain_start s) (ended s).
Definition set_receipts s (rs : list Receipt) : DSys :=
  mkDSys (sd s) (next_key s) (reader s) rs (feed_rev s) (shown s) (committed s)
    (frozen_done s) (losses s) (gone s) (drain_start s) (ended s).
Definition see s (key : nat) (rev : Z) (sh : gset nat) : DSys :=
  mkDSys (sd s) (next_key s) (reader s) (receipts s) (<[key := rev]> (feed_rev s)) sh
    (committed s) (frozen_done s) (losses s) (gone s) (drain_start s) (ended s).
Definition leave s (ks : gset nat) : DSys :=
  mkDSys (sd s) (next_key s) (reader s) (receipts s) (feed_rev s) (shown s) (committed s)
    (frozen_done s) (losses s) (gone s ∪ ks) (drain_start s) (ended s).
Definition log_loss s (key : nat) (rev : Z) : DSys :=
  mkDSys (sd s) (next_key s) (reader s) (receipts s) (feed_rev s) (shown s) (committed s)
    (frozen_done s) (losses s ++ [(key, rev)]) (gone s) (drain_start s) (ended s).
Definition log_done s (keys : list ReceiptKey) (ids : list nat) (e : list (option BlpError)) : DSys :=
  mkDSys (sd s) (next_key s) (reader s) (receipts s) (feed_rev s) (shown s) (committed s ++ keys)
    (frozen_done s ++ ids) (losses s) (gone s) (drain_start s) (ended s ++ e).
Definition begin_drain s (start : list (nat * Z)) : DSys :=
  mkDSys (sd s) (next_key s) (reader s) (receipts s) (feed_rev s) (shown s) (committed s)
    (frozen_done s) (losses s) (gone s) start (ended s).
Definition allocate s : DSys :=
  mkDSys (sd s) (S (next_key s)) (reader s) (receipts s) (feed_rev s) (shown s) (committed s)
    (frozen_done s) (losses s) (gone s) (drain_start s) (ended s).

(** A feed's revision only grows, and a data loss takes a new one
    ([on_data_loss] increments it under the feed lock, which a capture needs);
    only a member that was never captured may be registered as already lost.
    A feed knows the keys that the consumer allocated, and no other. *)
Definition feed_allows s (key : nat) (rev : Z) (loss : bool) : bool :=
  bool_decide (key < next_key s) && bool_decide (rev <= U64_MAX)%Z
  && match feed_rev s !! key with
  | Some r => bool_decide (r <= rev)%Z
              && negb (loss && bool_decide (key ∈ shown s) && bool_decide (rev <= r)%Z)
  | None => true
  end.

(** A mark sets a marker when the member is there and has none. *)
Definition sets_marker (d : DirtyState) (key : nat) (inv : bool) : bool :=
  inv && negb (source_closed d || receiver_closed d || frozen d)
  && match members d !! key with Some m => bool_decide (invalidated m = None) | None => false end.

Definition all_keys s : gset nat := set_seq 0 (next_key s).

(** The receiver's [close]; its last action, closing the consumer's stream, is a
    [DCloseSource] of its own. *)
Definition close_receiver s : DSys := leave (goto (put s (sd_close (sd s))) RIdle) (all_keys s).

Definition capture s (key : nat) (image : option (Z * ImageRow)) : option DSys :=
  match image with
  | None => Some s
  | Some (rev, _) =>
      if feed_allows s key rev false then Some (see s key rev (shown s ∪ {[key]})) else None
  end.

(** One critical section of the receiver. *)
Definition reader_lock s : option DSys :=
  match reader s with
  | RLookup sel todo keys =>
      match members (sd s) !! sel_key sel ≫= final_image with
      | Some (rev, row) => Some (goto s (RRow sel rev row todo keys))
      | None => Some (goto s (RRemove sel todo keys))
      end
  | RRemove sel todo keys =>
      Some (leave (goto (put s (sd_remove (sd s) (sel_key sel))) (RResolve todo keys))
              {[sel_key sel]})
  | RRow sel rev row todo keys =>
      Some (goto s (RResolve todo (keys ++ [row_key (sd s) sel rev row])))
  | RPrepStore key image todo pending =>
      let '(d, remove) := prep_store (sd s) key image in
      Some (goto (put s d) (if remove then RPrepRemove key todo pending else RPrep todo pending))
  | RPrepRemove key todo pending =>
      Some (leave (goto (put s (sd_remove (sd s) key)) (RPrep todo pending)) {[key]})
  | RPrep [] pending =>
      let '(d, snaps) := prep_take (sd s) pending in
      Some (goto (put s d) (RPrepInstall snaps))
  | RPrepInstall snaps =>
      Some (goto (put s (prep_install (sd s) (epoch_images snaps))) RIdle)
  | _ => None
  end.

(** The part of the receiver outside the lock that captures a feed's image. *)
Definition reader_snapshot s (image : option (Z * ImageRow)) : option DSys :=
  match reader s with
  | RResolve (sel :: todo) keys =>
      match sel_final_image sel with
      | Some (rev, row) => Some (goto s (RRow sel rev row todo keys))
      | None =>
          s ← capture s (sel_key sel) image;
          Some (goto s (match image with
                        | Some (rev, row) => RRow sel rev row todo keys
                        | None => RLookup sel todo keys
                        end))
      end
  | RPrep ((key, _, was_retired) :: todo) pending =>
      if (was_retired : bool) then Some (goto s (RPrep todo pending))
      else s ← capture s key image; Some (goto s (RPrepStore key image todo pending))
  | _ => None
  end.

(** Build the batch of the leased rows. *)
Definition batch_result (rows : list ImageRow) (failure : option BlpError)
  : option (result (list ImageRow) BlpError) :=
  Some (match failure with Some e => Err e | None => Ok rows end).

Definition reader_batch s (failure : option BlpError) : option DSys :=
  match reader s with
  | RResolve [] [] => Some (goto s RIdle)
  | RResolve [] keys =>
      Some (set_receipts (goto s RIdle)
              (receipts s ++ [mkReceipt (batch_result (rk_row <$> keys) failure) keys [] false]))
  | RFrozen sel =>
      Some (set_receipts (goto s RIdle)
              (receipts s ++ [mkReceipt (batch_result (fr_row <$> sel.*2) failure) [] sel.*1 false]))
  | _ => None
  end.

Definition reader_select s (limit : nat) : option DSys :=
  '(d, selection) ← try_select (sd s) limit;
  let s := put s d in
  Some (match selection with
        | SelNothing => s
        | SelTerminal e => set_receipts s (receipts s ++ [mkReceipt (Some (Err e)) [] [] true])
        | SelFrozen [] => s
        | SelFrozen sel => goto s (RFrozen sel)
        | SelLive [] => s
        | SelLive sel => goto s (RSelected sel)
        end).

Definition receipt_error (r : Receipt) : option BlpError :=
  match rc_result r with Some (Err e) => Some e | _ => None end.

(** Acknowledging ([acknowledge], [commit]) or dropping a receipt. *)
Definition end_receipt s (i : nat) (r : Receipt) (commit : bool) : DSys :=
  let s := set_receipts s (delete i (receipts s)) in
  if rc_terminal r then
    let e := if commit then None else receipt_error r in
    let s' := put s (finish_terminal (sd s) e) in
    match e with None => log_done s' [] [] [receipt_error r] | Some _ => s' end
  else
    let s' := put s (match rc_frozen r with
                     | [] => finish (sd s) (rc_keys r) commit
                     | ids => finish_frozen (sd s) ids commit
                     end) in
    if commit then log_done s' (rc_keys r) (rc_frozen r) [] else s'.

(** The revision a drain owes for a member: that of a retired member's final row,
    or the one the member has reached. *)
Definition pending_revision (m : DirtyMember) : Z :=
  match final_image m with Some (rev, _) => rev | None => revision m end.

Definition is_idle (pc : RdPc) : bool := match pc with RIdle => true | _ => false end.

Definition dexec s (a : DAction) : option DSys :=
  match a with
  | DRegister f rev lbl =>
      let key := next_key s in
      if bool_decide (rev <= U64_MAX)%Z
      then Some (see (allocate (put s (sd_register (sd s) key f rev lbl))) key rev (shown s))
      else None
  | DMark key rev inv =>
      if feed_allows s key rev inv then
        let s' := see (put s (mark (sd s) key rev inv)) key rev (shown s) in
        Some (if sets_marker (sd s) key inv then log_loss s' key rev else s')
      else None
  | DRetire key row =>
      if row_valid row then None
      else Some (leave (put s (retire (sd s) key row)) {[key]})
  | DDetach key => Some (leave (put s (detach (sd s) key)) {[key]})
  | DFail e => Some (put s (fail (sd s) e))
  | DCloseSource => Some (leave (put s (close_source (sd s))) (all_keys s))
  | DRecv limit => if is_idle (reader s) then reader_select s limit else None
  | DOwner alive =>
      match reader s with
      | RSelected sel => Some (if alive : bool then goto s (RResolve sel []) else close_receiver s)
      | RFrozen sel => Some (if alive then s else close_receiver s)
      | _ => None
      end
  | DSnapshot image => reader_snapshot s image
  | DLock => reader_lock s
  | DBatch failure => reader_batch s failure
  | DPrepare =>
      if is_idle (reader s) then
        match prep_begin (sd s) with
        | None => Some s
        | Some (d, pending) =>
            Some (begin_drain (goto (put s d) (RPrep pending pending))
                    (omap (fun k => m ← members d !! k; Some (k, pending_revision m)) pending.*1.*1))
        end
      else None
  | DClose => if is_idle (reader s) then Some (close_receiver s) else None
  | DReadBuffer key => Some (put s (read_buffer (sd s) key))
  | DRecycle spilled => Some (put s (recycle_values (sd s) spilled))
  | DTake i =>
      r ← receipts s !! i;
      Some (set_receipts s
              (<[i := mkReceipt None (rc_keys r) (rc_frozen r) (rc_terminal r)]> (receipts s)))
  | DRestore i e =>
      r ← receipts s !! i;
      match rc_result r with
      | Some _ => None
      | None =>
          Some (set_receipts s
                  (<[i := mkReceipt (Some (Err e)) (rc_keys r) (rc_frozen r) (rc_terminal r)]>
                     (receipts s)))
      end
  | DAcknowledge i => r ← receipts s !! i; Some (end_receipt s i r true)
  | DDropReceipt i => r ← receipts s !! i; Some (end_receipt s i r false)
  end.

Fixpoint drun (acts : list DAction) s : option DSys :=
  match acts with
  | [] => Some s
  | a :: acts => s ← dexec s a; drun acts s
  end.

Definition dreachable s : Prop := exists acts, drun acts dsys_new = Some s.
End Exec.

(** ** The queue invariant

    [qinv d nk L]: the queue holds exactly the members whose [queued] flag is
    set, without repetition; [L] lists the keys leased by the receiver and the
    receipts, and a member is in flight exactly when it is leased, in which case
    it is not queued. *)

Record qinv (d : DirtyState) (nk : nat) (L : list nat) : Prop := mkQinv {
  qi_nodup : NoDup (queue d);
  qi_queue k : k ∈ queue d -> exists m, members d !! k = Some m /\ queued m = true;
  qi_queued k m : members d !! k = Some m -> queued m = true -> k ∈ queue d;
  qi_bound k m : members d !! k = Some m -> k < nk;
  qi_lease_nodup : NoDup L;
  qi_lease_bound k : k ∈ L -> k < nk;
  qi_flight k m : members d !! k = Some m -> in_flight m = true <-> k ∈ L;
  qi_excl k m : members d !! k = Some m -> k ∈ L -> queued m = false
}.

Section Queue.
Implicit Types (d : DirtyState) (L : list nat).

Lemma qinv_perm d nk L L' : L ≡ₚ L' -> qinv d nk L -> qinv d nk L'.
Proof.
  intros HL [? ? ? ? Hn Hb Hf He]. split; [done..| | | |].
  - by rewrite <- HL.
  - intros k. rewrite <- HL. apply Hb.
  - intros k m Hk. rewrite <- HL. by apply (Hf k m).
  - intros k m Hk. rewrite <- HL. by apply He.
Qed.

(** Fields other than the queue, the members and the leases are irrelevant. *)
Lemma qinv_ext d d' nk L :
  members d' = members d -> queue d' = queue d -> qinv d nk L -> qinv d' nk L.
Proof. intros Hm Hq [? ? ? ? ? ? ? ?]. split; rewrite ?Hm, ?Hq; done. Qed.

(** Updating a member without touching its two flags. *)
Lemma qinv_touch d nk L k m m' :
  qinv d nk L -> members d !! k = Some m -> queued m' = queued m -> in_flight m' = in_flight m ->
  qinv (set_dirty d (<[k := m']> (members d)) (queue d)) nk L.
Proof.
  intros [Hn Hq Hq' Hb HnL HbL Hf He] Hk E1 E2. split; simpl; try done.
  - intros i Hi. rewrite lookup_insert. case_decide; [subst|by apply Hq].
    destruct (Hq _ Hi) as (m0 & ? & ?). simplify_eq. exists m'. by rewrite E1.
  - intros i mi. rewrite lookup_insert. case_decide; [intros [= <-]; subst|by apply Hq'].
    rewrite E1. by eapply Hq'.
  - intros i mi. rewrite lookup_insert. case_decide; [subst; eauto|apply Hb].
  - intros i mi. rewrite lookup_insert. case_decide; [intros [= <-]; subst|by apply Hf].
    rewrite E2. by eapply Hf.
  - intros i mi. rewrite lookup_insert. case_decide; [intros [= <-]; subst|by apply He].
    rewrite E1. by eapply He.
Qed.

(** Queueing a member that is neither queued nor leased. *)
Lemma qinv_push d nk L k m m' :
  qinv d nk L -> members d !! k = Some m -> queued m = false -> in_flight m = false ->
  queued m' = true -> in_flight m' = false ->
  qinv (set_dirty d (<[k := m']> (members d)) (queue d ++ [k])) nk L.
Proof.
  intros [Hn Hq Hq' Hb HnL HbL Hf He] Hk E1 E2 E3 E4. split; simpl; try done.
  - apply NoDup_app. split_and!; [done| |apply NoDup_singleton].
    intros i Hi ->%list_elem_of_singleton. destruct (Hq _ Hi) as (? & ? & ?). congruence.
  - intros i [Hi| ->%list_elem_of_singleton]%elem_of_app; rewrite lookup_insert;
      case_decide; subst; eauto; done.
  - intros i mi. rewrite lookup_insert, elem_of_app, list_elem_of_singleton.
    case_decide; [subst; auto|]. intros. left. by eapply Hq'.
  - intros i mi. rewrite lookup_insert. case_decide; [subst; eauto|apply Hb].
  - intros i mi. rewrite lookup_insert. case_decide; [intros [= <-]; subst|by apply Hf].
    rewrite E4, <- E2. by eapply Hf.
  - intros i mi. rewrite lookup_insert. case_decide; [intros [= <-] Hi; subst|by apply He].
    rewrite <- (Hf _ _ Hk) in Hi. congruence.
Qed.

Lemma qinv_enqueue d nk L k m m' :
  qinv d nk L -> members d !! k = Some m -> queued m' = queued m -> in_flight m' = in_flight m ->
  qinv (enqueue d k m') nk L.
Proof.
  intros I Hk E1 E2. unfold enqueue.
  destruct (freezing d || queued m' || in_flight m') eqn:E; [by eapply qinv_touch|].
  apply orb_false_iff in E as [[_ Eq]%orb_false_iff Ef].
  eapply qinv_push; eauto; congruence.
Qed.

Lemma qinv_mark d nk L k rev inv : qinv d nk L -> qinv (mark d k rev inv) nk L.
Proof.
  intros I. unfold mark. case_match; [done|]. destruct (members d !! k) eqn:E; [|done].
  by eapply qinv_enqueue.
Qed.

Lemma qinv_retire d nk L k row : qinv d nk L -> qinv (retire d k row) nk L.
Proof.
  intros I. unfold retire. case_match; [done|]. destruct (members d !! k) eqn:E; [|done].
  by eapply qinv_enqueue.
Qed.

(** Membership changes that drop members and keep the queue in step. *)
Lemma qinv_filter d nk L (ms : gmap nat DirtyMember) q :
  qinv d nk L -> ms ⊆ members d -> NoDup q ->
  (forall k, k ∈ q <-> k ∈ queue d /\ is_Some (ms !! k)) ->
  qinv (set_dirty d ms q) nk L.
Proof.
  intros [Hn Hq Hq' Hb HnL HbL Hf He] Hms Hsub Hin.
  assert (Hsubm : forall k m, ms !! k = Some m -> members d !! k = Some m)
    by (intros; by eapply lookup_weaken).
  split; simpl; try done.
  - intros k [Hk [m Hm]]%Hin. destruct (Hq k Hk) as (m' & Hm' & ?). exists m'.
    apply Hsubm in Hm as Hm2. split; [congruence|done].
  - intros k m Hk Hqm. apply Hin. split; [by eapply Hq'; [apply Hsubm|]|eauto].
  - eauto.
  - eauto.
  - eauto.
Qed.

Lemma qinv_remove d nk L k : qinv d nk L -> qinv (sd_remove d k) nk L.
Proof.
  intros I. eapply qinv_filter; [done|apply delete_subseteq|apply NoDup_filter, I|].
  intros i. rewrite list_elem_of_filter. split; [|by intros [Hi [m [Hne _]%lookup_delete_Some]]].
  intros [Hne Hi]. split; [done|]. rewrite lookup_delete_ne by done.
  destruct (qi_queue _ _ _ I i Hi) as (m & Hm & _). eauto.
Qed.

Lemma qinv_detach d nk L k : qinv d nk L -> qinv (detach d k) nk L.
Proof. intros I. unfold detach. case_match; [done|by apply qinv_remove]. Qed.

Lemma qinv_register d nk L f rev lbl :
  qinv d nk L -> qinv (sd_register d nk f rev lbl) (S nk) L.
Proof.
  intros I. unfold sd_register. case_match.
  { destruct I as [? ? ? Hb ? HbL ? ?].
    split; try done; [intros ? ? ?%Hb; lia|intros ? ?%HbL; lia]. }
  set (ms := filter _ (members d)). set (q := filter _ (queue d)).
  assert (I' : qinv (set_dirty d ms q) nk L).
  { eapply qinv_filter; [done|apply map_filter_subseteq|apply NoDup_filter, I|].
    intros k. unfold q. rewrite list_elem_of_filter. tauto. }
  clearbody ms q. destruct I' as [Hn Hq Hq' Hb HnL HbL Hf He]. simpl in *.
  assert (Hfresh : ms !! nk = None).
  { destruct (ms !! nk) eqn:E; [|done]. apply Hb in E. lia. }
  assert (Hout : nk ∉ q) by (intros (m & ? & _)%Hq; congruence).
  assert (HoutL : nk ∉ L) by (intros ?%HbL; lia).
  split; simpl; try done.
  - apply NoDup_app. split_and!; [done| |apply NoDup_singleton]. set_solver.
  - intros i [Hi| ->%list_elem_of_singleton]%elem_of_app; rewrite lookup_insert;
      case_decide; subst; eauto; done.
  - intros i mi. rewrite lookup_insert, elem_of_app, list_elem_of_singleton.
    case_decide; [subst; auto|]. intros. left. by eapply Hq'.
  - intros i mi. rewrite lookup_insert. case_decide; [lia|]. intros ?%Hb. lia.
  - intros i ?%HbL. lia.
  - intros i mi. rewrite lookup_insert. case_decide; [intros [= <-]; subst|by apply Hf]. done.
  - intros i mi. rewrite lookup_insert. case_decide; [intros [= <-]; subst|by apply He]. done.
Qed.

(** Emptying the membership releases every obligation but the leases' own. *)
Lemma qinv_clear d nk L :
  members d = ∅ -> queue d = [] -> NoDup L -> (forall k, k ∈ L -> k < nk) -> qinv d nk L.
Proof.
  intros Hm Hq HnL HbL. split; rewrite ?Hm, ?Hq; try done.
  - constructor.
  - by intros k ?%not_elem_of_nil.
Qed.

Lemma qinv_unqueue d nk L (f : DirtyMember -> DirtyMember) :
  (forall m, queued (f m) = false) -> (forall m, in_flight (f m) = in_flight m) ->
  qinv d nk L -> qinv (set_dirty d (f <$> members d) []) nk L.
Proof.
  intros Hf1 Hf2 [Hn Hq Hq' Hb HnL HbL Hf He]. split; simpl; try done.
  - constructor.
  - by intros k ?%not_elem_of_nil.
  - intros k m. rewrite lookup_fmap, fmap_Some. intros (m0 & ? & ->). by rewrite Hf1.
  - intros k m. rewrite lookup_fmap, fmap_Some. intros (m0 & ? & ->). eauto.
  - intros k m. rewrite lookup_fmap, fmap_Some. intros (m0 & ? & ->). rewrite Hf2. eauto.
  - intros k m. rewrite lookup_fmap, fmap_Some. intros (m0 & ? & ->). eauto.
Qed.

Lemma qinv_fail d nk L e : qinv d nk L -> qinv (fail d e) nk L.
Proof.
  intros I. unfold fail. case_match; [done|].
  apply (qinv_ext (set_dirty d ((fun m => set_queued m false) <$> members d) [])); [done..|].
  by apply qinv_unqueue.
Qed.

Lemma qinv_close_source d nk L : qinv d nk L -> qinv (close_source d) nk L.
Proof.
  intros I. unfold close_source. case_match; [|by eapply qinv_ext; [..|done]].
  eapply qinv_clear; [done..|apply I|apply I].
Qed.

(** *** Leases end *)

Lemma qinv_forget d nk k L : members d !! k = None -> qinv d nk (k :: L) -> qinv d nk L.
Proof.
  intros Hk [Hn Hq Hq' Hb HnL HbL Hf He]. apply NoDup_cons in HnL as [Hout HnL].
  split; try done.
  - intros i Hi. apply HbL. by right.
  - intros i m Hi. rewrite (Hf _ _ Hi). set_solver.
  - intros i m Hi HiL. eapply He; [done|]. by right.
Qed.

(** The member of the first lease is back in the queue or at rest. *)
Lemma qinv_release d nk k L m m' (push : bool) :
  qinv d nk (k :: L) -> members d !! k = Some m -> in_flight m' = false -> queued m' = push ->
  qinv (set_dirty d (<[k := m']> (members d)) (if push then queue d ++ [k] else queue d)) nk L.
Proof.
  intros [Hn Hq Hq' Hb HnL HbL Hf He] Hk E1 E2. apply NoDup_cons in HnL as [Hout HnL].
  assert (Hkq : k ∉ queue d).
  { intros (m0 & Hm0 & Ht)%Hq. simplify_eq. rewrite (He _ _ Hk) in Ht by left. done. }
  assert (Hsub : forall i, i ∈ queue d -> i <> k) by (intros i Hi ->; done).
  assert (Hin : forall i, i ∈ (if push then queue d ++ [k] else queue d) <->
                          i ∈ queue d \/ i = k /\ push = true).
  { intros i. destruct push; rewrite ?elem_of_app, ?list_elem_of_singleton; naive_solver. }
  split; simpl; try done.
  - destruct push; [|done]. apply NoDup_app. split_and!; [done| |apply NoDup_singleton].
    set_solver.
  - intros i [Hi|[-> ?]]%Hin; [rewrite lookup_insert_ne; [auto|intros ->; done]|].
    rewrite lookup_insert_eq. eexists; split; [done|congruence].
  - intros i mi. rewrite lookup_insert, Hin. case_decide; [intros [= <-] ?; right; naive_solver|].
    intros. left. by eapply Hq'.
  - intros i mi. rewrite lookup_insert. case_decide; [subst; eauto|apply Hb].
  - intros i Hi. apply HbL. by right.
  - intros i mi. rewrite lookup_insert. case_decide; [intros [= <-]; subst|].
    + rewrite E1. split; [done|]. intros ?. done.
    + intros Hi. rewrite (Hf _ _ Hi). set_solver.
  - intros i mi. rewrite lookup_insert. case_decide; [intros [= <-] ?; subst; done|].
    intros Hi HiL. eapply He; [done|]. by right.
Qed.

Lemma finish_member_flags c r m :
  in_flight (finish_member c r m) = false /\ queued (finish_member c r m) = queued m
  /\ retired (finish_member c r m) = retired m /\ revision (finish_member c r m) = revision m.
Proof. unfold finish_member. by destruct c. Qed.

Lemma qinv_finish_one d nk r L c cl cq :
  qinv d nk (rk_key r :: L) -> qinv (finish_one c cl cq d r) nk L.
Proof.
  intros I. unfold finish_one. destruct (members d !! rk_key r) as [m|] eqn:Hm;
    [|by eapply qinv_forget].
  destruct (finish_member_flags c r m) as (E1 & E2 & _).
  assert (Hq : queued m = false) by (eapply qi_excl; [done..|left]).
  repeat case_match.
  - apply (qinv_forget _ _ (rk_key r)); [simpl; by rewrite lookup_delete_eq|].
    eapply qinv_filter; [done|apply delete_subseteq|apply I|].
    intros k. split; [|tauto]. intros Hk. split; [done|].
    destruct (qi_queue _ _ _ I k Hk) as (m0 & ? & ?).
    rewrite lookup_delete_ne; [eauto|]. intros <-. simplify_eq. congruence.
  - eapply (qinv_release _ _ _ _ _ _ true); eauto.
  - eapply (qinv_release _ _ _ _ _ _ false); eauto.
Qed.

Lemma qinv_finish d nk keys L c :
  qinv d nk ((rk_key <$> keys) ++ L) -> qinv (finish d keys c) nk L.
Proof.
  unfold finish. generalize (frozen d || freezing d) as cl. intros cl.
  match goal with |- context [finish_one c cl ?b] => generalize b as cq end.
  intros cq. revert d. induction keys as [|r keys IH]; intros d; simpl; [done|].
  intros I%(qinv_finish_one _ _ _ _ c cl cq). by apply IH.
Qed.

(** *** Leases begin *)

Definition lease (m : DirtyMember) : DirtyMember := set_in_flight (set_queued m false) true.

Definition select_of (k : nat) (m : DirtyMember) : SelectedMember :=
  mkSelected k (feed m) (invalidated m) (final_image m).

(** The leased members are a prefix of the queue, and only they change. *)
Lemma select_live_spec q n ms sel q' ms' :
  NoDup q -> (forall k, k ∈ q -> exists m, ms !! k = Some m /\ in_flight m = false) ->
  select_live q n ms = (sel, q', ms') ->
  q = (sel_key <$> sel) ++ q'
  /\ (forall x, x ∈ sel -> exists m, ms !! sel_key x = Some m /\ x = select_of (sel_key x) m)
  /\ (forall k, ms' !! k = if decide (k ∈ sel_key <$> sel) then lease <$> ms !! k else ms !! k)
  /\ (n <> 0 -> q <> [] -> sel <> []).
Proof.
  revert n ms sel ms'. induction q as [|k q IH]; intros n ms sel ms' Hn Hq; simpl.
  { destruct n; intros [= <- <- <-]; split_and!; done || by intros x ?%not_elem_of_nil. }
  destruct n as [|n].
  { intros [= <- <- <-]. split_and!; done || by intros x ?%not_elem_of_nil. }
  apply NoDup_cons in Hn as [Hk Hn]. destruct (Hq k) as (m & Hm & Hf); [by left|].
  rewrite Hm. change (in_flight (set_queued m false)) with (in_flight m). rewrite Hf.
  change (set_in_flight (set_queued m false) true) with (lease m).
  destruct (select_live q n _) as [[sel0 q0] ms0] eqn:E. intros [= <- <- <-].
  apply IH in E as (-> & Hsel & Hms & _); [|done|].
  2:{ intros i Hi. rewrite lookup_insert_ne by (intros ->; done). apply Hq. by right. }
  assert (Hks : k ∉ sel_key <$> sel0) by set_solver.
  split_and!; [done| | |done].
  - intros x [-> |Hx]%elem_of_cons; [by exists m|].
    destruct (Hsel _ Hx) as (m' & Hm' & ->). rewrite lookup_insert_ne in Hm'; [by exists m'|].
    intros E. simpl in E. apply Hks. rewrite E. by apply (list_elem_of_fmap_2 sel_key).
  - intros i. rewrite Hms. rewrite fmap_cons. simpl. rewrite lookup_insert.
    destruct (decide (k = i)) as [<-|Hne].
    + rewrite decide_False by done. rewrite decide_True by (by left). by rewrite Hm.
    + apply decide_ext. set_solver.
Qed.

Lemma qinv_select d nk L n sel q ms :
  qinv d nk L -> select_live (queue d) n (members d) = (sel, q, ms) ->
  qinv (set_dirty d ms q) nk ((sel_key <$> sel) ++ L)
  /\ (forall x, x ∈ sel -> exists m, members d !! sel_key x = Some m /\ x = select_of (sel_key x) m)
  /\ (forall k, ms !! k = if decide (k ∈ sel_key <$> sel) then lease <$> members d !! k
                          else members d !! k).
Proof.
  intros [Hn Hq Hq' Hb HnL HbL Hf He] E.
  apply select_live_spec in E as (Hqd & Hsel & Hms & _); [|done|].
  2:{ intros k Hk. destruct (Hq k Hk) as (m & Hm & Ht). exists m. split; [done|].
      destruct (in_flight m) eqn:Hfl; [|done]. apply (Hf _ _ Hm) in Hfl.
      rewrite (He _ _ Hm Hfl) in Ht. done. }
  split; [|done]. rewrite Hqd in *. apply NoDup_app in Hn as (Hn1 & Hdis & Hn2).
  assert (HselL : forall k, k ∈ sel_key <$> sel -> k ∉ L).
  { intros k Hk HkL. destruct (Hq k) as (m & Hm & Ht); [by apply elem_of_app; left|].
    rewrite (He _ _ Hm HkL) in Ht. done. }
  assert (Hlook : forall k m, ms !! k = Some m -> exists m0, members d !! k = Some m0 /\
     ((k ∈ sel_key <$> sel) /\ m = lease m0 \/ (k ∉ sel_key <$> sel) /\ m = m0)).
  { intros k m. rewrite Hms. case_decide; [|eauto 10].
    rewrite fmap_Some. intros (m0 & ? & ->). eauto 10. }
  split; simpl; try done.
  - intros k Hk. destruct (Hq k) as (m & Hm & Ht); [by apply elem_of_app; right|].
    exists m. rewrite Hms, decide_False by (intros ?; by eapply Hdis). done.
  - intros k m (m0 & Hm0 & [[Hk ->]|[Hk ->]])%Hlook Ht; [done|].
    eapply Hq' in Ht; [|done]. set_solver.
  - intros k m (m0 & Hm0 & _)%Hlook. eauto.
  - apply NoDup_app. eauto.
  - intros k [Hk|Hk]%elem_of_app; [|auto].
    destruct (Hq k) as (m & Hm & _); [by apply elem_of_app; left|]. eauto.
  - intros k m (m0 & Hm0 & [[Hk ->]|[Hk ->]])%Hlook; rewrite elem_of_app.
    + split; [by left|done].
    + rewrite (Hf _ _ Hm0). tauto.
  - intros k m (m0 & Hm0 & [[Hk ->]|[Hk ->]])%Hlook; [done|].
    rewrite elem_of_app. intros [?|?]; [done|]. by eapply He.
Qed.

(** *** Preparing a drain *)

Lemma qinv_store d nk L k image : qinv d nk L -> qinv (prep_store d k image).1 nk L.
Proof.
  intros I. unfold prep_store. destruct (members d !! k) eqn:E; [|done].
  repeat case_match; simpl; try done. by eapply qinv_touch.
Qed.

(** Taking the final images clears the flags of the pending keys. *)
Lemma take_finals_spec ms keys ms' snaps :
  take_finals ms keys = (ms', snaps) ->
  forall k m', ms' !! k = Some m' -> exists m, ms !! k = Some m
    /\ in_flight m' = in_flight m /\ acknowledged m' = acknowledged m
    /\ invalidated m' = invalidated m /\ revision m' = revision m
    /\ retired m' = retired m
    /\ (if decide (k ∈ keys) then queued m' = false else m' = m).
Proof.
  revert ms ms' snaps. induction keys as [|k0 keys IH]; intros ms ms' snaps; simpl.
  { intros [= <- <-] k m' Hm. exists m'. split_and!; try done. }
  destruct (ms !! k0) as [m0|] eqn:E0.
  - destruct (take_finals _ _) as [ms1 snaps1] eqn:E. intros [= <- <-] k m' Hm.
    destruct (IH _ _ _ E k m' Hm) as (m & Hk & Ef & Ea & Ei & Er & Et & Hd).
    rewrite lookup_insert in Hk. destruct (decide (k0 = k)) as [->|Hne].
    + simplify_eq/=. exists m0. rewrite decide_True by (by left).
      split_and!; try done. case_decide; by subst.
    + exists m. split_and!; try done. erewrite decide_ext; [exact Hd|]. set_solver.
  - intros E k m' Hm. destruct (IH _ _ _ E k m' Hm) as (m & Hk & Ef & Ea & Ei & Er & Et & Hd).
    exists m. split_and!; try done. erewrite decide_ext; [exact Hd|].
    split; [|by right]. intros [-> |?]%elem_of_cons; [congruence|done].
Qed.

Lemma take_finals_dom ms keys ms' snaps k :
  take_finals ms keys = (ms', snaps) -> is_Some (ms !! k) -> is_Some (ms' !! k).
Proof.
  revert ms ms' snaps. induction keys as [|k0 keys IH]; intros ms ms' snaps; simpl.
  { by intros [= <- <-]. }
  destruct (ms !! k0) as [m0|] eqn:E0; [|eauto].
  destruct (take_finals _ _) as [ms1 snaps1] eqn:E. intros [= <- <-] Hk.
  apply (IH _ _ _ E). rewrite lookup_insert. case_decide; eauto.
Qed.

Lemma qinv_take d nk L pending :
  (forall k, k ∈ queue d -> k ∈ pending.*1.*1) ->
  qinv d nk L -> qinv (prep_take d pending).1 nk L.
Proof.
  intros Hp [Hn Hq Hq' Hb HnL HbL Hf He]. unfold prep_take.
  destruct (take_finals _ _) as [ms snaps] eqn:E. pose proof (take_finals_spec _ _ _ _ E) as Ht.
  split; simpl; try done.
  - constructor.
  - by intros k ?%not_elem_of_nil.
  - intros k m' Hk Hqm. destruct (Ht k m' Hk) as (m & Hm & _ & _ & _ & _ & _ & Hd).
    case_decide as Hpk; [congruence|]. subst. destruct Hpk. eapply Hp, Hq'; done.
  - intros k m' Hk. destruct (Ht k m' Hk) as (m & Hm & _). eauto.
  - intros k m' Hk. destruct (Ht k m' Hk) as (m & Hm & -> & _). eauto.
  - intros k m' Hk HkL. destruct (Ht k m' Hk) as (m & Hm & _ & _ & _ & _ & _ & Hd).
    case_decide; [done|]. subst. eauto.
Qed.
End Queue.

(** ** No dirty member is lost

    While the subscription is open ([live]), a member whose image changed since
    it was last acknowledged is queued or leased. *)

Definition live (d : DirtyState) : Prop :=
  source_closed d = false /\ freezing d = false /\ frozen d = false.

Record dinv (d : DirtyState) (nk : nat) (L : list nat) : Prop := mkDinv {
  di_queue : qinv d nk L;
  di_flags : source_closed d = false ->
    receiver_closed d = false /\ terminal d = None /\ terminal_in_flight d = false
    /\ terminal_delivered d = false;
  di_stale : live d -> forall k m, members d !! k = Some m -> stale m = true ->
    queued m = true \/ in_flight m = true;
  di_spare : spare_values d <= live_batch_high_water d
}.

Section Dirty.
Implicit Types (d : DirtyState) (L : list nat).

(** Replacing members and queue of a state. *)
Lemma dinv_set d nk nk' L L' ms q :
  dinv d nk L -> qinv (set_dirty d ms q) nk' L' ->
  (live d -> forall k m, ms !! k = Some m -> stale m = true ->
     queued m = true \/ in_flight m = true) ->
  dinv (set_dirty d ms q) nk' L'.
Proof. by intros [_ Hf _ Hs] Hq Hb. Qed.

Lemma dinv_weaken d nk L nk' L' : dinv d nk L -> qinv d nk' L' -> dinv d nk' L'.
Proof. intros [? ? ? ?] ?. by split. Qed.

(** Closing the source discharges every obligation but the queue's shape. *)
Lemma dinv_closed d nk L :
  qinv d nk L -> source_closed d = true -> spare_values d <= live_batch_high_water d ->
  dinv d nk L.
Proof. intros Hq Hs Hp. split; try done; [by rewrite Hs|]. intros [? _]. congruence. Qed.

Lemma dinv_enqueue d nk L k m m' :
  dinv d nk L -> members d !! k = Some m -> queued m' = queued m -> in_flight m' = in_flight m ->
  dinv (enqueue d k m') nk L.
Proof.
  intros I Hk E1 E2. pose proof (qinv_enqueue _ _ _ _ _ m' (di_queue _ _ _ I) Hk E1 E2) as Hq.
  unfold enqueue in *. destruct (freezing d || queued m' || in_flight m') eqn:E.
  - eapply dinv_set; [done..|]. intros Hl i mi. rewrite lookup_insert.
    case_decide; [intros [= <-]|by apply I]. destruct Hl as (_ & Hz & _). rewrite Hz in E.
    intros _. by apply orb_true_iff in E.
  - eapply dinv_set; [done..|]. intros Hl i mi. rewrite lookup_insert.
    case_decide; [intros [= <-]; by left|by apply I].
Qed.

Lemma dinv_mark d nk L k rev inv : dinv d nk L -> dinv (mark d k rev inv) nk L.
Proof.
  intros I. unfold mark. case_match; [done|]. destruct (members d !! k) eqn:E; [|done].
  by eapply dinv_enqueue.
Qed.

Lemma dinv_retire d nk L k row : dinv d nk L -> dinv (retire d k row) nk L.
Proof.
  intros I. unfold retire. case_match; [done|]. destruct (members d !! k) eqn:E; [|done].
  by eapply dinv_enqueue.
Qed.

Lemma dinv_register d nk L f rev lbl :
  dinv d nk L -> dinv (sd_register d nk f rev lbl) (S nk) L.
Proof.
  intros I. pose proof (qinv_register _ _ _ f rev lbl (di_queue _ _ _ I)) as Hq.
  unfold sd_register in *. case_match; [by eapply dinv_weaken|].
  eapply dinv_set; [done..|]. intros Hl k m. rewrite lookup_insert.
  case_decide; [intros [= <-]; by left|]. intros [Hk _]%map_lookup_filter_Some. by eapply I.
Qed.

Lemma dinv_remove d nk L k : dinv d nk L -> dinv (sd_remove d k) nk L.
Proof.
  intros I. eapply dinv_set; [done|by apply qinv_remove, I|].
  intros Hl i m [_ Hi]%lookup_delete_Some. by eapply I.
Qed.

Lemma dinv_detach d nk L k : dinv d nk L -> dinv (detach d k) nk L.
Proof. intros I. unfold detach. case_match; [done|by apply dinv_remove]. Qed.

Lemma dinv_fail d nk L e : dinv d nk L -> dinv (fail d e) nk L.
Proof.
  intros I. pose proof (qinv_fail _ _ _ e (di_queue _ _ _ I)) as Hq. unfold fail in *.
  case_match; [done|]. apply dinv_closed; [done..|apply I].
Qed.

Lemma dinv_close_source d nk L : dinv d nk L -> dinv (close_source d) nk L.
Proof.
  intros I. apply dinv_closed; [by apply qinv_close_source, I|..];
    unfold close_source; case_match; simpl; try done. apply I.
Qed.

Lemma dinv_close d nk L L' :
  dinv d nk L -> NoDup L' -> (forall k, k ∈ L' -> k ∈ L) -> dinv (sd_close d) nk L'.
Proof.
  intros I Hn HL. apply dinv_closed; [|done..]. apply qinv_clear; try done.
  intros k Hk%HL. by eapply qi_lease_bound; [apply I|].
Qed.

(** Changes to the terminal fields and the frozen queue keep the members. *)
Lemma dinv_ext d d' nk L :
  members d' = members d -> queue d' = queue d -> spare_values d' = spare_values d ->
  live_batch_high_water d' = live_batch_high_water d -> source_closed d' = true ->
  dinv d nk L -> dinv d' nk L.
Proof.
  intros Hm Hq Hs Hh Hc I. apply dinv_closed; [|done|].
  - eapply qinv_ext; [done..|]. apply I.
  - rewrite Hs, Hh. apply I.
Qed.

Lemma finish_one_live d nk r L c cl cq :
  dinv d nk (rk_key r :: L) -> (live d -> cq = true) ->
  dinv (finish_one c cl cq d r) nk L.
Proof.
  intros I Hcq. pose proof (qinv_finish_one _ _ _ _ c cl cq (di_queue _ _ _ I)) as Hq.
  unfold finish_one in *. destruct (members d !! rk_key r) as [m|] eqn:Hm;
    [|by eapply dinv_weaken].
  repeat case_match; (eapply dinv_set; [done..|]); intros Hl k m'.
  - intros [_ Hk]%lookup_delete_Some. by eapply I.
  - rewrite lookup_insert. case_decide; [intros [= <-]; by left|by apply I].
  - rewrite lookup_insert. case_decide; [intros [= <-]|by apply I]. intros Hst.
    rewrite Hcq, Hst, orb_true_r in * by done. simpl in *.
    left. by destruct (queued (finish_member c r m)).
Qed.

Lemma finish_one_shape c cl cq d r : exists ms q, finish_one c cl cq d r = set_dirty d ms q.
Proof.
  unfold finish_one. repeat case_match; eauto. exists (members d), (queue d). by destruct d.
Qed.

Lemma finish_shape d keys c : exists ms q, finish d keys c = set_dirty d ms q.
Proof.
  unfold finish. generalize (frozen d || freezing d) as cl. intros cl.
  match goal with |- context [finish_one c cl ?b] => generalize b as cq end.
  intros cq. revert d. induction keys as [|r keys IH]; intros d; simpl.
  { exists (members d), (queue d). by destruct d. }
  destruct (finish_one_shape c cl cq d r) as (ms & q & ->).
  destruct (IH (set_dirty d ms q)) as (ms' & q' & ->). by exists ms', q'.
Qed.

Lemma dinv_finish_fold d nk keys L c cl cq :
  dinv d nk ((rk_key <$> keys) ++ L) -> (live d -> cq = true) ->
  dinv (fold_left (finish_one c cl cq) keys d) nk L.
Proof.
  revert d. induction keys as [|r keys IH]; intros d I Hcq; simpl; [done|].
  apply IH; [by apply finish_one_live|].
  destruct (finish_one_shape c cl cq d r) as (ms & q & ->). apply Hcq.
Qed.

Lemma dinv_finish d nk keys L c :
  dinv d nk ((rk_key <$> keys) ++ L) -> dinv (finish d keys c) nk L.
Proof.
  intros I. apply dinv_finish_fold; [done|]. intros (Hs & Hz & Hf).
  destruct (di_flags _ _ _ I Hs) as (H1 & H2 & H3 & H4).
  by rewrite H1, H2, H3, H4, Hs, Hz, Hf.
Qed.

Lemma dinv_select d nk L n sel q ms :
  dinv d nk L -> select_live (queue d) n (members d) = (sel, q, ms) ->
  dinv (set_dirty d ms q) nk ((sel_key <$> sel) ++ L).
Proof.
  intros I E. apply (qinv_select _ nk L) in E as (Hq & _ & Hms); [|apply I].
  eapply dinv_set; [done..|]. intros Hl k m. rewrite Hms. case_decide; [|by apply I].
  rewrite fmap_Some. intros (m0 & _ & ->). by right.
Qed.

(** *** The receiver's locked selection *)

Lemma dinv_spare d nk L n h : dinv d nk L -> n <= h -> dinv (set_spare d n h) nk L.
Proof. intros [Hq Hf Hs Hp] Hn. split; try done. by eapply qinv_ext; [..|done]. Qed.

Lemma try_select_live d nk L limit d' sel :
  dinv d nk L -> try_select d limit = Some (d', SelLive sel) ->
  dinv d' nk ((sel_key <$> sel) ++ L)
  /\ (forall x, x ∈ sel -> exists m, members d !! sel_key x = Some m /\ x = select_of (sel_key x) m)
  /\ freezing d' = false /\ frozen d' = false.
Proof.
  intros I. unfold try_select. case_match eqn:E0; [done|].
  apply orb_false_iff in E0 as [[[_ Hz]%orb_false_iff _]%orb_false_iff _].
  destruct (terminal d); [done|]. destruct (frozen d) eqn:Hfr.
  { destruct (select_frozen _ _ _ _ _) as [[? ?]|]; done. }
  destruct (select_live _ _ _) as [[sel0 q] ms] eqn:E.
  pose proof (dinv_select _ _ _ _ _ _ _ I E) as I'.
  apply (qinv_select _ nk L) in E as (_ & Hsel & _); [|apply I].
  pose proof (di_spare _ _ _ I') as Hsp. simpl in *.
  repeat case_decide; intros [= <- <-]; split_and!; try done. by apply dinv_spare.
Qed.

(** The subtraction that sizes the buffer pool does not underflow. *)
Lemma try_select_live_defined d nk L limit :
  dinv d nk L -> frozen d = false -> is_Some (try_select d limit).
Proof.
  intros I Hfr. unfold try_select. case_match; [eauto|]. destruct (terminal d); [eauto|].
  rewrite Hfr. destruct (select_live _ _ _) as [[sel0 q] ms]. simpl.
  pose proof (di_spare _ _ _ I). repeat case_decide; eauto. lia.
Qed.

(** The other outcomes of the locked selection. *)
Inductive selects (d : DirtyState) (limit : nat) : DirtyState -> Selection -> Prop :=
| selects_nothing : selects d limit d SelNothing
| selects_terminal e :
    terminal d = Some e -> receiver_closed d = false -> terminal_in_flight d = false ->
    terminal_delivered d = false ->
    selects d limit (set_terminal d None true (terminal_delivered d)) (SelTerminal e)
| selects_frozen l q :
    frozen d = true -> freezing d = false -> terminal d = None ->
    select_frozen (frozen_images d) (members d) (frozen_queue d) (limit `max` 1) None = Some (l, q) ->
    selects d limit (set_frozen_queue d q) (SelFrozen l)
| selects_live l ms q n h :
    frozen d = false -> freezing d = false -> (queue d = [] -> q = []) ->
    select_live (queue d) (limit `max` 1) (members d) = (l, q, ms) ->
    selects d limit (set_spare (set_dirty d ms q) n h) (SelLive l).

Lemma try_select_cases d limit d' sel :
  try_select d limit = Some (d', sel) -> selects d limit d' sel.
Proof.
  unfold try_select. case_match eqn:E; [intros [= <- <-]; constructor|].
  apply orb_false_iff in E as [[[? ?]%orb_false_iff ?]%orb_false_iff ?].
  destruct (terminal d) eqn:Et; [intros [= <- <-]; by constructor|].
  destruct (frozen d) eqn:Ef.
  - destruct (select_frozen _ _ _ _ _) as [[l q]|] eqn:Es; [|done].
    intros [= <- <-]. by constructor.
  - destruct (select_live _ _ _) as [[l q] ms] eqn:Es.
    assert (queue d = [] -> q = []).
    { intros Hq. rewrite Hq in Es. by destruct (limit `max` 1); simplify_eq/=. }
    repeat case_match; intros [= <- <-]; [by constructor|].
    by apply (selects_live _ _ _ _ _ (spare_values d) (live_batch_high_water d)).
Qed.
End Dirty.
