(* ===== verification/StateInvariant.v ===== *)
(** * State delivery: the invariants of the live queue

    Invariants of the state-delivery protocol of [StateDelivery.v] over every
    interleaving of its critical sections: the queue and the leases of the receiver, and
    the history of the rows it acknowledged.  The drain is in [StateDrain.v]; what
    consumers are promised in [StateDrain.v] and [StateShown.v]. *)

From Stdlib Require Import ZArith Lia.
From S2P Require Import Prelude Errors Update StateDelivery.

(** ** The system invariant *)

Definition reader_leases (pc : RdPc) : list nat :=
  match pc with
  | RSelected sel => sel_key <$> sel
  | RResolve todo keys => (sel_key <$> todo) ++ (rk_key <$> keys)
  | RLookup sel todo keys | RRemove sel todo keys | RRow sel _ _ todo keys =>
      sel_key sel :: (sel_key <$> todo) ++ (rk_key <$> keys)
  | _ => []
  end.

Definition receipt_leases (rs : list Receipt) : list nat := rs ≫= fun r => rk_key <$> rc_keys r.

Definition leases (s : DSys) : list nat := reader_leases (reader s) ++ receipt_leases (receipts s).

(** Which phase of the drain the receiver's position implies. *)
Definition pc_ok (pc : RdPc) (d : DirtyState) : Prop :=
  match pc with
  | RIdle | RFrozen _ => freezing d = false
  | RSelected _ | RResolve _ _ | RLookup _ _ _ | RRemove _ _ _ | RRow _ _ _ _ _ =>
      freezing d = false /\ frozen d = false
  | RPrep _ pending | RPrepStore _ _ _ pending | RPrepRemove _ _ pending =>
      freezing d = true /\ frozen d = false /\ forall k, k ∈ queue d -> k ∈ pending.*1.*1
  | RPrepInstall _ => freezing d = true /\ frozen d = true /\ queue d = []
  end.

(** Operations of other threads keep the phase, and do not queue while a drain is
    being prepared. *)
Definition calm (d d' : DirtyState) : Prop :=
  freezing d' = freezing d /\ frozen d' = frozen d
  /\ (freezing d = true -> forall k, k ∈ queue d' -> k ∈ queue d).

Lemma pc_ok_calm pc d d' : calm d d' -> pc_ok pc d -> pc_ok pc d'.
Proof.
  intros (Hz & Hf & Hq).
  assert (Hnil : freezing d = true -> queue d = [] -> queue d' = []).
  { intros Hd E. apply elem_of_nil_inv. intros k Hk%Hq; [|done].
    rewrite E in Hk. by apply not_elem_of_nil in Hk. }
  destruct pc; simpl; rewrite ?Hz, ?Hf; naive_solver.
Qed.

Lemma calm_enqueue d k m : calm d (enqueue d k m).
Proof.
  unfold enqueue. destruct (freezing d) eqn:E; simpl; [by split_and!|].
  case_match; split_and!; done || by rewrite E.
Qed.

Lemma calm_refl d : calm d d.
Proof. by split_and!. Qed.

Lemma calm_mark d k rev inv : calm d (mark d k rev inv).
Proof. unfold mark. repeat case_match; apply calm_refl || apply calm_enqueue. Qed.

Lemma calm_retire d k row : calm d (retire d k row).
Proof. unfold retire. repeat case_match; apply calm_refl || apply calm_enqueue. Qed.

Lemma calm_register d nk f rev lbl : calm d (sd_register d nk f rev lbl).
Proof.
  unfold sd_register. case_match eqn:E; [apply calm_refl|].
  apply orb_false_iff in E as [[_ Hz]%orb_false_iff _]. split_and!; [done..|]. by rewrite Hz.
Qed.

Lemma calm_remove d k : calm d (sd_remove d k).
Proof. split_and!; [done..|]. intros _ i. simpl. rewrite list_elem_of_filter. tauto. Qed.

Lemma calm_detach d k : calm d (detach d k).
Proof. unfold detach. case_match; [apply calm_refl|apply calm_remove]. Qed.

Lemma calm_fail d e : calm d (fail d e).
Proof. unfold fail. case_match; [apply calm_refl|]. split_and!; [done..|]. set_solver. Qed.

Lemma calm_close_source d : calm d (close_source d).
Proof. unfold close_source. case_match; split_and!; try done. set_solver. Qed.

Lemma finish_one_calm c cl d r : queue (finish_one c cl false d r) = queue d.
Proof. unfold finish_one. by repeat case_match. Qed.

Lemma calm_finish d keys c : calm d (finish d keys c).
Proof.
  destruct (finish_shape d keys c) as (ms & q & E). split_and!; [by rewrite E..|].
  intros Hz k. clear ms q E. unfold finish. rewrite Hz, orb_true_r, andb_false_r. simpl.
  induction keys as [|r keys IH] in d |- *; simpl; [done|].
  intros Hk%IH. by rewrite finish_one_calm in Hk.
Qed.

#[export] Hint Resolve calm_refl calm_mark calm_retire calm_register calm_remove calm_detach
  calm_fail calm_close_source calm_finish : xbbg_state.
#[export] Hint Resolve dinv_mark dinv_retire dinv_register dinv_remove dinv_detach dinv_fail
  dinv_close_source : xbbg_state.

Record sinv (s : DSys) : Prop := mkSinv {
  si_dirty : dinv (sd s) (next_key s) (leases s);
  si_pc : pc_ok (reader s) (sd s);
  si_receipt r : r ∈ receipts s ->
    (rc_terminal r = true -> source_closed (sd s) = true /\ queue (sd s) = [])
    /\ (rc_terminal r = true \/ rc_frozen r <> [] -> rc_keys r = []);
  si_terminal : terminal (sd s) <> None -> queue (sd s) = []
}.

(** A closed source stays closed and queues nothing, and an operation that
    publishes a terminal error leaves the queue empty. *)
Definition closes (d d' : DirtyState) : Prop :=
  (source_closed d = true ->
     source_closed d' = true /\ (queue d = [] -> queue d' = []))
  /\ (terminal d' <> None -> terminal d <> None \/ queue d' = []).

Lemma closes_refl d : closes d d.
Proof. split; auto. Qed.
Lemma closes_eq d d' :
  source_closed d' = source_closed d -> (queue d = [] -> queue d' = []) ->
  terminal d' = terminal d -> closes d d'.
Proof. intros E1 E2 E3. split; rewrite ?E1, ?E3; auto. Qed.
Lemma closes_open d d' : source_closed d = false -> terminal d' = terminal d -> closes d d'.
Proof. intros E1 E2. split; rewrite ?E1, ?E2; auto. congruence. Qed.

Lemma closes_mark d k rev inv : closes d (mark d k rev inv).
Proof.
  unfold mark, enqueue. case_match eqn:E; [apply closes_refl|].
  apply orb_false_iff in E as [[? _]%orb_false_iff _].
  repeat case_match; try apply closes_refl; by apply closes_open.
Qed.
Lemma closes_retire d k row : closes d (retire d k row).
Proof.
  unfold retire, enqueue. case_match eqn:E; [apply closes_refl|].
  apply orb_false_iff in E as [[? _]%orb_false_iff _].
  repeat case_match; try apply closes_refl; by apply closes_open.
Qed.
Lemma closes_register d k f rev lbl : closes d (sd_register d k f rev lbl).
Proof.
  unfold sd_register. case_match eqn:E; [apply closes_refl|].
  apply orb_false_iff in E as [[[? _]%orb_false_iff _]%orb_false_iff _]. by apply closes_open.
Qed.
Lemma closes_remove d k : closes d (sd_remove d k).
Proof. apply closes_eq; try done. simpl. by intros ->. Qed.
Lemma closes_detach d k : closes d (detach d k).
Proof. unfold detach. case_match; [apply closes_refl|apply closes_remove]. Qed.
Lemma closes_fail d e : closes d (fail d e).
Proof. unfold fail. case_match; [apply closes_refl|]. split; simpl; auto. Qed.
Lemma closes_close_source d : closes d (close_source d).
Proof. unfold close_source. case_match; split; simpl; auto. Qed.
Lemma closes_finish d keys c : closes d (finish d keys c).
Proof.
  destruct (finish_shape d keys c) as (ms & q & E). split; [|rewrite E; simpl; auto].
  intros Hs. split; [by rewrite E|]. clear ms q E. unfold finish.
  rewrite Hs, !andb_false_r. generalize (frozen d || freezing d) as cl. intros cl Hq.
  clear Hs. induction keys as [|r keys IH] in d, Hq |- *; simpl; [done|].
  apply IH. by rewrite finish_one_calm.
Qed.
Ltac solve_closes :=
  solve [apply closes_refl | apply closes_remove | apply closes_eq; simpl; auto | split; simpl; auto].

#[export] Hint Resolve closes_refl closes_mark closes_retire closes_register closes_detach
  closes_remove closes_fail closes_close_source closes_finish : xbbg_state.

Lemma closes_terminal s d :
  sinv s -> closes (sd s) d ->
  (forall r, r ∈ receipts s ->
     (rc_terminal r = true -> source_closed d = true /\ queue d = [])
     /\ (rc_terminal r = true \/ rc_frozen r <> [] -> rc_keys r = []))
  /\ (terminal d <> None -> queue d = []).
Proof.
  intros I [Hc Ht]. split.
  - intros r Hr. destruct (si_receipt _ I r Hr) as [H1 H2]. split; [|done].
    intros Hrt. destruct (H1 Hrt) as [Hs Hq]. destruct (Hc Hs). auto.
  - intros [Hn|?]%Ht; [|done]. pose proof (si_terminal _ I Hn) as Hq.
    destruct (source_closed (sd s)) eqn:Es; [by apply Hc|].
    destruct (di_flags _ _ _ (si_dirty _ I) Es) as (_ & ? & _). done.
Qed.

(** A step that changes the delivery state only, from another thread. *)
Lemma sinv_put s s' d :
  sinv s -> sd s' = d -> reader s' = reader s -> receipts s' = receipts s ->
  dinv d (next_key s') (leases s) -> calm (sd s) d -> closes (sd s) d -> sinv s'.
Proof.
  intros I Ed Er Erc Hd Hc Hcl. split; unfold leases; rewrite ?Ed, ?Er, ?Erc.
  - done.
  - by eapply pc_ok_calm, I.
  - by apply (closes_terminal s).
  - by apply (closes_terminal s).
Qed.

(** A step of the receiver: its own leases change, the receipts do not. *)
Lemma sinv_goto s s' pc d :
  sinv s -> sd s' = d -> reader s' = pc -> receipts s' = receipts s ->
  dinv d (next_key s') (reader_leases pc ++ receipt_leases (receipts s)) ->
  pc_ok pc d -> closes (sd s) d -> sinv s'.
Proof.
  intros I Ed Er Erc Hd Hc Hcl. split; unfold leases; rewrite ?Ed, ?Er, ?Erc; try done;
    by apply (closes_terminal s).
Qed.

Lemma receipt_leases_app rs rs' :
  receipt_leases (rs ++ rs') = receipt_leases rs ++ receipt_leases rs'.
Proof. apply bind_app. Qed.

Lemma receipt_leases_delete rs i r :
  rs !! i = Some r ->
  receipt_leases rs ≡ₚ (rk_key <$> rc_keys r) ++ receipt_leases (delete i rs).
Proof.
  intros Hi%delete_Permutation. unfold receipt_leases. rewrite Hi at 1.
  by rewrite bind_cons.
Qed.

(** Leases whose member is gone may be dropped. *)
Lemma dinv_perm d nk L L' : L ≡ₚ L' -> dinv d nk L -> dinv d nk L'.
Proof. intros HL I. eapply dinv_weaken; [done|]. eapply qinv_perm; [done|]. apply I. Qed.

Lemma sinv_close s : sinv s -> freezing (sd s) = false -> sinv (close_receiver s).
Proof.
  intros I Hz. eapply sinv_goto; [done|done|done|done| |done|by split; auto]. simpl.
  apply dinv_close with (leases s); [apply I| |].
  - assert (NoDup (leases s)) as Hn by apply I. by apply NoDup_app in Hn as (_ & _ & ?).
  - intros k Hk. apply elem_of_app. by right.
Qed.

Lemma sinv_init : sinv dsys_new.
Proof.
  split; [|done|by intros r ?%not_elem_of_nil|done]. split; try done.
  apply qinv_clear; try done; [constructor|by intros k ?%not_elem_of_nil].
Qed.

(** *** Steps of the receiver *)

Lemma sinv_select s limit s' :
  sinv s -> reader s = RIdle -> reader_select s limit = Some s' -> sinv s'.
Proof.
  intros I Hr. unfold reader_select. destruct (try_select _ _) as [[d sel]|] eqn:E; [|done].
  simpl. intros [= <-].
  assert (Hz : freezing (sd s) = false) by (pose proof (si_pc _ I) as H; by rewrite Hr in H).
  assert (HL : leases s = receipt_leases (receipts s)) by (unfold leases; by rewrite Hr).
  pose proof (si_dirty _ I) as D. rewrite HL in D.
  pose proof (try_select_cases _ _ _ _ E) as HS. revert E.
  destruct HS as [|e He Hrc Hfl Hdl|l q Hfr _ Ht Hq|l ms q n h Hfr _ Hqn _]; intros E.
  - eapply sinv_put; eauto with xbbg_state. apply I.
  - assert (Hsc : source_closed (sd s) = true).
    { destruct (source_closed (sd s)) eqn:Es; [done|].
      destruct (di_flags _ _ _ D Es) as (_ & H & _). congruence. }
    split; simpl.
    + unfold leases. simpl. rewrite Hr. simpl. rewrite receipt_leases_app. simpl. rewrite app_nil_r.
      by apply (dinv_ext (sd s)).
    + rewrite Hr. simpl. done.
    + intros r [Hin| ->%list_elem_of_singleton]%elem_of_app; [by apply I|].
      split; [|done]. intros _. split; [done|]. apply I. congruence.
    + done.
  - assert (Hd : dinv (set_frozen_queue (sd s) q) (next_key s) (receipt_leases (receipts s))).
    { destruct D as [Dq Df Ds Dp]. split; try done. by eapply qinv_ext; [..|exact Dq]. }
    destruct l.
    + eapply sinv_put; eauto; [by rewrite HL|by split_and!|solve_closes].
    + eapply sinv_goto; eauto. solve_closes.
  - destruct (try_select_live _ _ _ _ _ _ D E) as (Hd & _ & Hz' & Hf').
    assert (Hcl : closes (sd s) (set_spare (set_dirty (sd s) ms q) n h)) by (apply closes_eq; auto).
    destruct l.
    + by eapply (sinv_goto s _ RIdle).
    + by eapply sinv_goto.
Qed.

Lemma sinv_remove_lease s k pc :
  sinv s -> reader_leases (reader s) ≡ₚ k :: reader_leases pc -> pc_ok pc (sd_remove (sd s) k) ->
  sinv (leave (goto (put s (sd_remove (sd s) k)) pc) {[k]}).
Proof.
  intros I HL Hpc. eapply sinv_goto; [done|done|done|done| |done|solve_closes]. simpl.
  assert (HD : dinv (sd_remove (sd s) k) (next_key s)
                 (k :: reader_leases pc ++ receipt_leases (receipts s))).
  { eapply dinv_perm; [|apply dinv_remove, I]. unfold leases. by rewrite HL. }
  eapply dinv_weaken; [exact HD|]. eapply qinv_forget; [|apply HD]. simpl.
  by rewrite lookup_delete_eq.
Qed.

Lemma row_key_key d sel rev row : rk_key (row_key d sel rev row) = sel_key sel.
Proof. unfold row_key. by repeat case_match. Qed.

Lemma sinv_lock s s' : sinv s -> reader_lock s = Some s' -> sinv s'.
Proof.
  intros I E. pose proof (si_pc _ I) as Hpc. pose proof (si_dirty _ I) as D.
  unfold leases in D. unfold reader_lock in E. destruct (reader s) eqn:Hr; try done.
  - repeat case_match; simplify_eq; eapply sinv_goto; eauto with xbbg_state.
  - simplify_eq. apply sinv_remove_lease; [done|by rewrite Hr|].
    eapply pc_ok_calm; [apply calm_remove|]. done.
  - simplify_eq. eapply sinv_goto; eauto with xbbg_state. simpl.
    eapply dinv_perm; [|exact D]. simpl. rewrite fmap_app, (assoc_L (++)). simpl.
    rewrite row_key_key. by rewrite (comm (++) (_ ++ _) [_]).
  - destruct todo as [|? ?]; [|done]. destruct Hpc as (Hz & Hf & Hq).
    assert (dinv (prep_take (sd s) pending).1 (next_key s) (receipt_leases (receipts s))).
    { pose proof (qinv_take _ _ _ _ Hq (di_queue _ _ _ D)) as Hqt. revert Hqt.
      unfold prep_take. destruct (take_finals _ _) as [ms snaps]. simpl. intros Hqt.
      destruct D as [_ Df _ Dp]. split; try done. intros (_ & ? & _). simpl in *. congruence. }
    revert E H. unfold prep_take. destruct (take_finals _ _) as [ms snaps]. simpl.
    intros [= <-] H. eapply sinv_goto; eauto with xbbg_state; [done|solve_closes].
  - destruct (prep_store _ _ _) as [d rm] eqn:Es. simplify_eq.
    assert (Hst : dinv d (next_key s) (receipt_leases (receipts s)) /\ calm (sd s) d
                  /\ closes (sd s) d).
    { pose proof (qinv_store _ _ _ key image (di_queue _ _ _ D)) as Hqs. rewrite Es in Hqs.
      revert Es Hqs. unfold prep_store. destruct D as [Dq Df Ds Dp]. destruct Hpc as (Hz & _).
      repeat case_match; intros [= <- <-] Hqs; split_and!; try done; try solve_closes.
      all: split; try done; intros (_ & ? & _); simpl in *; congruence. }
    destruct Hst as (Hd & Hc & Hcl).
    pose proof (pc_ok_calm _ _ _ Hc Hpc) as Hpc'.
    destruct rm; by eapply sinv_goto.
  - simplify_eq. eapply sinv_goto; eauto; [by apply dinv_remove| |solve_closes].
    eapply pc_ok_calm; [apply calm_remove|]. done.
  - simplify_eq. eapply sinv_goto; [done..| | |]; [|done|solve_closes].
    apply (dinv_ext (sd s)); try done. simpl. by destruct Hpc as (_ & _ & ->).
Qed.

Lemma sinv_see s k rev sh : sinv s -> sinv (see s k rev sh).
Proof. intros [? ? ? ?]. by split. Qed.

Lemma sinv_capture s k image s' : sinv s -> capture s k image = Some s' -> sinv s'.
Proof.
  intros I. unfold capture. repeat case_match; intros; simplify_eq; auto using sinv_see.
Qed.

Lemma capture_shape s k image s' :
  capture s k image = Some s' ->
  sd s' = sd s /\ next_key s' = next_key s /\ reader s' = reader s /\ receipts s' = receipts s
  /\ committed s' = committed s /\ losses s' = losses s /\ gone s' = gone s
  /\ frozen_done s' = frozen_done s /\ drain_start s' = drain_start s /\ ended s' = ended s.
Proof. unfold capture. repeat case_match; intros; simplify_eq; by split_and!. Qed.

Lemma sinv_snapshot s image s' : sinv s -> reader_snapshot s image = Some s' -> sinv s'.
Proof.
  intros I E. pose proof (si_pc _ I) as Hpc. pose proof (si_dirty _ I) as D.
  unfold leases in D. unfold reader_snapshot in E. destruct (reader s) eqn:Hr; try done.
  - destruct todo as [|sel todo]; [done|]. destruct (sel_final_image sel) as [[rev row]|].
    { simplify_eq. eapply sinv_goto; eauto with xbbg_state. }
    destruct (capture s _ image) as [s1|] eqn:Ec; [|done]. simpl in E. simplify_eq.
    pose proof (sinv_capture _ _ _ _ I Ec) as I1.
    apply capture_shape in Ec as (E1 & E2 & E3 & E4 & _).
    rewrite <- E1, <- E2, <- E4 in D. rewrite <- E1 in Hpc. clear E1 E2 E3 E4.
    destruct image as [[rev row]|]; eapply (sinv_goto s1); eauto with xbbg_state.
  - destruct todo as [|[[k f] b] todo]; [done|]. destruct b.
    { simplify_eq. eapply sinv_goto; eauto with xbbg_state. }
    destruct (capture s _ image) as [s1|] eqn:Ec; [|done]. simpl in E. simplify_eq.
    pose proof (sinv_capture _ _ _ _ I Ec) as I1.
    apply capture_shape in Ec as (E1 & E2 & E3 & E4 & _).
    rewrite <- E1, <- E2, <- E4 in D. rewrite <- E1 in Hpc. clear E1 E2 E3 E4.
    eapply (sinv_goto s1); eauto with xbbg_state.
Qed.

Lemma sinv_receipt s pc r :
  sinv s -> reader_leases (reader s) = rk_key <$> rc_keys r -> pc_ok RIdle (sd s) ->
  rc_terminal r = false -> (rc_frozen r <> [] -> rc_keys r = []) -> pc = RIdle ->
  sinv (set_receipts (goto s pc) (receipts s ++ [r])).
Proof.
  intros I HL Hpc Ht Hf ->. split; simpl; [| | |].
  - unfold leases. simpl. rewrite receipt_leases_app. simpl. rewrite app_nil_r.
    eapply dinv_perm; [|apply I]. unfold leases. rewrite HL. by rewrite (comm (++)).
  - done.
  - intros r' [Hin| ->%list_elem_of_singleton]%elem_of_app; [by apply I|].
    rewrite Ht. naive_solver.
  - apply I.
Qed.

Lemma sinv_batch s failure s' : sinv s -> reader_batch s failure = Some s' -> sinv s'.
Proof.
  intros I E. pose proof (si_pc _ I) as Hpc. pose proof (si_dirty _ I) as D.
  unfold leases in D. unfold reader_batch in E. destruct (reader s) eqn:Hr; try done.
  - destruct todo; [|done]. destruct keys as [|k keys]; simplify_eq.
    + eapply sinv_goto; eauto with xbbg_state. apply Hpc.
    + apply sinv_receipt; try done; [by rewrite Hr|apply Hpc].
  - simplify_eq. apply sinv_receipt; try done. by rewrite Hr.
Qed.

(** *** Receipts *)

Lemma sinv_update_receipt s i r r' :
  sinv s -> receipts s !! i = Some r -> rc_keys r' = rc_keys r -> rc_frozen r' = rc_frozen r ->
  rc_terminal r' = rc_terminal r -> sinv (set_receipts s (<[i := r']> (receipts s))).
Proof.
  intros I Hi E1 E2 E3. split; simpl; [| | |].
  - eapply dinv_perm; [|apply I]. unfold leases. simpl. f_equiv. unfold receipt_leases.
    rewrite <- (list_insert_id (receipts s) i r) at 1 by done.
    rewrite !insert_take_drop by (by eapply lookup_lt_Some). by rewrite !bind_app, !bind_cons, E1.
  - apply I.
  - intros x [j Hj]%list_elem_of_lookup. destruct (decide (i = j)) as [<-|Hne].
    + rewrite list_lookup_insert_eq in Hj by (by eapply lookup_lt_Some). simplify_eq.
      rewrite E1, E2, E3. by eapply I, list_elem_of_lookup_2.
    + rewrite list_lookup_insert_ne in Hj by done. by eapply I, list_elem_of_lookup_2.
  - apply I.
Qed.

(** Ending a receipt, given what the ending does to the delivery state. *)
Lemma sinv_end_with s s' i r d :
  sinv s -> receipts s !! i = Some r -> sd s' = d -> reader s' = reader s ->
  next_key s' = next_key s -> receipts s' = delete i (receipts s) ->
  dinv d (next_key s) (reader_leases (reader s) ++ receipt_leases (delete i (receipts s))) ->
  calm (sd s) d -> closes (sd s) d -> sinv s'.
Proof.
  intros I Hi Ed Er En Erc Hd Hc Hcl. destruct (closes_terminal _ _ I Hcl) as [Hr Ht].
  split; unfold leases; rewrite ?Ed, ?Er, ?En, ?Erc; try done.
  - by eapply pc_ok_calm, I.
  - intros r' Hr'. apply Hr. rewrite (delete_Permutation _ _ _ Hi). by right.
Qed.

Lemma dinv_finish_terminal d nk L e :
  dinv d nk L -> source_closed d = true -> queue d = [] ->
  dinv (finish_terminal d e) nk L /\ calm d (finish_terminal d e) /\ closes d (finish_terminal d e).
Proof.
  intros D Hs Hq. split_and!.
  - destruct e; (apply (dinv_ext d); simpl; done).
  - destruct e; split_and!; try done. simpl. by intros _ k ?%not_elem_of_nil.
  - destruct e; split; simpl; auto.
Qed.

Lemma calm_finish_frozen d ids c : calm d (finish_frozen d ids c).
Proof. unfold finish_frozen. case_match; by split_and!. Qed.

Lemma dinv_finish_frozen d nk L ids c : dinv d nk L -> dinv (finish_frozen d ids c) nk L.
Proof.
  unfold finish_frozen. case_match; [|done]. intros [Dq Df Ds Dp]. split; try done.
  by eapply qinv_ext; [..|exact Dq].
Qed.

Lemma sinv_end s i r c :
  sinv s -> receipts s !! i = Some r -> sinv (end_receipt s i r c).
Proof.
  intros I Hi. pose proof (si_dirty _ I) as D. unfold leases in D.
  assert (D' : dinv (sd s) (next_key s)
    ((rk_key <$> rc_keys r) ++ reader_leases (reader s) ++ receipt_leases (delete i (receipts s)))).
  { eapply dinv_perm; [|exact D]. rewrite (receipt_leases_delete _ _ _ Hi).
    rewrite !(assoc_L (++)). by rewrite (comm (++) (reader_leases _)). }
  destruct (si_receipt _ I r) as [Hterm Hkeys]; [by eapply list_elem_of_lookup_2|].
  unfold end_receipt. destruct (rc_terminal r) eqn:Et.
  - rewrite Hkeys in D' by auto. destruct (Hterm eq_refl) as [Hs Hq]. simpl in D'.
    generalize (if c then None else receipt_error r) as e. intros e.
    destruct (dinv_finish_terminal _ _ _ e D' Hs Hq) as (H1 & H2 & H3).
    destruct e; (eapply sinv_end_with; [done..|exact H1|exact H2|exact H3]).
  - assert (Hd : exists d, match rc_frozen r with [] => finish (sd s) (rc_keys r) c
                          | ids => finish_frozen (sd s) ids c end = d
      /\ dinv d (next_key s) (reader_leases (reader s) ++ receipt_leases (delete i (receipts s)))
      /\ calm (sd s) d /\ closes (sd s) d).
    { eexists. split; [done|]. destruct (rc_frozen r) eqn:Ef.
      - split_and!; auto with xbbg_state. by apply dinv_finish.
      - rewrite Hkeys in D' by (right; congruence).
        split_and!; [by apply dinv_finish_frozen|apply calm_finish_frozen|].
        unfold finish_frozen. case_match; solve_closes. }
    destruct Hd as (d & <- & H1 & H2 & H3).
    destruct c; (eapply sinv_end_with; [done..|exact H1|exact H2|exact H3]).
Qed.

(** *** Every step *)

Ltac put_step :=
  eapply sinv_put; [eassumption|reflexivity..| | |]; simpl; eauto with xbbg_state.

Lemma sinv_prepare s s' : sinv s -> dexec s DPrepare = Some s' -> sinv s'.
Proof.
  intros I. pose proof (si_dirty _ I) as D. simpl.
  destruct (is_idle (reader s)) eqn:Hi; [|done].
  unfold prep_begin. destruct (_ || freezing (sd s)) eqn:Eb; intros; simplify_eq; [done|].
  apply orb_false_iff in Eb as [[_ Hf]%orb_false_iff Hz].
  assert (Hr : reader s = RIdle) by (by destruct (reader s)).
  unfold leases in D. rewrite Hr in D. eapply sinv_goto; eauto; [| |solve_closes].
  - destruct D as [Dq Df Ds Dp]. split; try done; [by eapply qinv_ext; [..|exact Dq]|].
    by intros (_ & ? & _).
  - split_and!; [done..|]. intros k Hk. simpl in Hk.
    destruct (qi_queue _ _ _ (di_queue _ _ _ D) k Hk) as (m & Hm & _).
    rewrite <- list_fmap_compose. apply list_elem_of_fmap. exists (k, feed m, retired m).
    split; [done|]. apply list_elem_of_omap. exists k. rewrite Hm. split; [|done].
    apply elem_of_app. by left.
Qed.

Lemma sinv_step s a s' : sinv s -> dexec s a = Some s' -> sinv s'.
Proof.
  intros I. pose proof (si_dirty _ I) as D. pose proof (si_pc _ I) as Hpc. destruct a; simpl.
  - case_match; [|done]. intros [= <-]. put_step.
  - repeat case_match; intros; simplify_eq; put_step.
  - repeat case_match; intros; simplify_eq; put_step.
  - intros [= <-]. put_step.
  - intros [= <-]. put_step.
  - intros [= <-]. put_step.
  - destruct (is_idle (reader s)) eqn:Hi; [|done]. apply sinv_select; [done|].
    by destruct (reader s).
  - destruct (reader s) eqn:Hr; try done; destruct alive; intros; simplify_eq; try done.
    + eapply sinv_goto; eauto with xbbg_state. simpl. unfold leases in D. rewrite Hr in D.
      by rewrite app_nil_r.
    + apply sinv_close; [done|apply Hpc].
    + by apply sinv_close.
  - apply sinv_snapshot, I.
  - apply sinv_lock, I.
  - apply sinv_batch, I.
  - apply sinv_prepare, I.
  - destruct (is_idle (reader s)) eqn:Hi; [|done]. intros [= <-].
    apply sinv_close; [done|]. destruct (reader s); done.
  - intros [= <-]. unfold read_buffer. case_match; [|by put_step].
    eapply sinv_put; eauto; [|by split_and!|solve_closes]. apply dinv_spare; [done|].
    pose proof (di_spare _ _ _ D). lia.
  - intros [= <-]. unfold recycle_values.
    repeat case_match; try (by put_step).
    eapply sinv_put; eauto; [|by split_and!|solve_closes]. apply dinv_spare; [done|].
    apply andb_true_iff in H0 as [_ ?%bool_decide_eq_true]. lia.
  - destruct (receipts s !! i) eqn:Hi; [|done]. intros [= <-]. by eapply sinv_update_receipt.
  - destruct (receipts s !! i) eqn:Hi; [|done]. simpl. case_match; [done|]. intros [= <-].
    by eapply sinv_update_receipt.
  - destruct (receipts s !! i) eqn:Hi; [|done]. intros [= <-]. by apply sinv_end.
  - destruct (receipts s !! i) eqn:Hi; [|done]. intros [= <-]. by apply sinv_end.
Qed.

(** ** History: what was acknowledged and which losses were shown *)

Definition seen (fr : gmap nat Z) (sh : gset nat) (k : nat) (rev : Z) : Prop :=
  k ∈ sh /\ exists r, fr !! k = Some r /\ (rev <= r)%Z.

Definition valid_after (k : nat) (at_ : Z) (x : ReceiptKey) : Prop :=
  rk_key x = k /\ row_valid (rk_row x) = true /\ (at_ <= rk_revision x)%Z.

(** The loss [at_] of [k] was acknowledged as an invalid row, before any valid
    row of that revision or later. *)
Definition published (com : list ReceiptKey) (k : nat) (at_ : Z) : Prop :=
  exists l1 x l2, com = l1 ++ x :: l2 /\ rk_key x = k /\ rk_invalidated x = Some at_
    /\ row_valid (rk_row x) = false /\ forall y, y ∈ l1 -> ~ valid_after k at_ y.

(** [hinv ms fz com held sh fr ls g]: [com] are the rows acknowledged, [held]
    those in receipts and in the receiver, [fz] whether a drain has begun. *)
Record hinv (ms : gmap nat DirtyMember) (fz : bool) (com held : list ReceiptKey)
    (sh : gset nat) (fr : gmap nat Z) (ls : list (nat * Z)) (g : gset nat) : Prop := mkHinv {
  hi_ack k m a : ms !! k = Some m -> acknowledged m = Some a ->
    exists x, x ∈ com /\ rk_key x = k /\ (a <= rk_acknowledged x)%Z;
  hi_held x : x ∈ com \/ x ∈ held -> (rk_acknowledged x <= rk_revision x)%Z
    /\ (is_Some (rk_invalidated x) -> row_valid (rk_row x) = false);
  hi_seen x : x ∈ com \/ x ∈ held -> row_valid (rk_row x) = true ->
    seen fr sh (rk_key x) (rk_revision x);
  hi_loss k at_ : (k, at_) ∈ ls ->
    k ∈ g
    \/ (exists m, ms !! k = Some m /\ invalidated m = Some at_
        /\ forall x, x ∈ com \/ x ∈ held -> ~ valid_after k at_ x)
    \/ published com k at_;
  hi_retired k m : ms !! k = Some m -> retired m = true -> k ∈ g;
  hi_final k m rev row : ms !! k = Some m -> final_image m = Some (rev, row) ->
    row_valid row = true -> fz = true
}.

Lemma published_app com l k at_ : published com k at_ -> published (com ++ l) k at_.
Proof.
  intros (l1 & x & l2 & -> & H). exists l1, x, (l2 ++ l). split; [|done].
  by rewrite <- (assoc_L (++)).
Qed.

(** Steps that neither acknowledge nor mark: members keep their acknowledgement
    and marker, and one that disappears or retires is recorded in [g']. *)
Lemma hinv_members ms ms' fz fz' com held held' sh fr ls g g' :
  hinv ms fz com held sh fr ls g ->
  (forall k m', ms' !! k = Some m' -> exists m, ms !! k = Some m
     /\ acknowledged m' = acknowledged m /\ (k ∈ g' \/ invalidated m' = invalidated m)
     /\ (retired m' = true -> k ∈ g' \/ retired m = true)
     /\ (forall rev row, final_image m' = Some (rev, row) -> row_valid row = true ->
           fz' = true \/ final_image m = Some (rev, row))) ->
  (forall k m, ms !! k = Some m -> k ∈ g' \/ is_Some (ms' !! k)) ->
  g ⊆ g' -> (fz = true -> fz' = true) -> (forall x, x ∈ held' -> x ∈ held) ->
  hinv ms' fz' com held' sh fr ls g'.
Proof.
  intros [Ha Hh Hs Hl Hr Hf] Hms Hback Hg Hfz Hheld. split.
  - intros k m' a Hm' Ea. destruct (Hms _ _ Hm') as (m & Hm & E & _). rewrite E in Ea. eauto.
  - intros x Hx. apply Hh. naive_solver.
  - intros x Hx. apply Hs. naive_solver.
  - intros k at_ Hin. destruct (decide (k ∈ g')) as [?|Hn]; [by left|right].
    destruct (Hl _ _ Hin) as [Hk|[(m & Hm & Hi & Hv)|Hp]]; [set_solver| |by right].
    left. destruct (Hback _ _ Hm) as [?|[m' Hm']]; [done|].
    destruct (Hms _ _ Hm') as (m0 & Hm0 & _ & [?|E] & _); [done|]. simplify_eq.
    exists m'. split_and!; [done|congruence|]. intros x Hx. apply Hv. naive_solver.
  - intros k m' Hm' Hret. destruct (Hms _ _ Hm') as (m & Hm & _ & _ & Hr' & _).
    destruct (Hr' Hret); [done|]. apply Hg. eauto.
  - intros k m' rev row Hm' Hfin Hv. destruct (Hms _ _ Hm') as (m & Hm & _ & _ & _ & Hfi).
    destruct (Hfi _ _ Hfin Hv); eauto.
Qed.

Definition drained (d : DirtyState) : bool := freezing d || frozen d.

Definition reader_rows (pc : RdPc) : list ReceiptKey :=
  match pc with
  | RResolve _ keys | RLookup _ _ keys | RRemove _ _ keys | RRow _ _ _ _ keys => keys
  | _ => []
  end.

Definition held (s : DSys) : list ReceiptKey := reader_rows (reader s) ++ (receipts s ≫= rc_keys).

(** The final image a lease carries was stored by a retirement. *)
Definition sel_ok (l : list SelectedMember) : Prop :=
  forall x rev row, x ∈ l -> sel_final_image x = Some (rev, row) -> row_valid row = false.

Definition pc_hist (s : DSys) : Prop :=
  match reader s with
  | RSelected todo | RResolve todo _ => sel_ok todo
  | RLookup sel todo _ | RRemove sel todo _ => sel_ok (sel :: todo)
  | RRow sel rev row todo _ => sel_ok (sel :: todo)
      /\ (row_valid row = true -> seen (feed_rev s) (shown s) (sel_key sel) rev)
  | _ => True
  end.

Record hsys (s : DSys) : Prop := mkHsys {
  hs_hinv : hinv (members (sd s)) (drained (sd s)) (committed s) (held s) (shown s) (feed_rev s)
              (losses s) (gone s);
  hs_pc : pc_hist s;
  hs_rev k : is_Some (feed_rev s !! k) -> k < next_key s
}.

Section History.
Implicit Types (ms : gmap nat DirtyMember) (com held : list ReceiptKey).

Lemma seen_mono fr sh sh' k rev k' rev' :
  seen fr sh k' rev' -> (forall r, fr !! k = Some r -> (r <= rev)%Z) -> sh ⊆ sh' ->
  seen (<[k := rev]> fr) sh' k' rev'.
Proof.
  intros (Hk & r & Hr & Hle) Hm Hsh. split; [set_solver|]. rewrite lookup_insert.
  case_decide; [subst|by eauto]. exists rev. split; [done|]. specialize (Hm _ Hr). lia.
Qed.

Lemma hinv_see ms fz com held sh sh' fr ls g k rev :
  hinv ms fz com held sh fr ls g -> (forall r, fr !! k = Some r -> (r <= rev)%Z) -> sh ⊆ sh' ->
  hinv ms fz com held sh' (<[k := rev]> fr) ls g.
Proof. intros [? ? Hs ? ? ?] Hm Hsh. split; eauto using seen_mono. Qed.

Lemma enqueue_members d k m : exists b, members (enqueue d k m) = <[k := set_queued m b]> (members d).
Proof. unfold enqueue. case_match; [exists (queued m)|by exists true]. by destruct m. Qed.

Lemma enqueue_drained d k m : drained (enqueue d k m) = drained d.
Proof. unfold enqueue. by case_match. Qed.

Lemma mark_effect d k rev inv :
  (mark d k rev inv = d /\ sets_marker d k inv = false)
  \/ exists m m', members d !! k = Some m /\ members (mark d k rev inv) = <[k := m']> (members d)
     /\ acknowledged m' = acknowledged m /\ retired m' = retired m
     /\ final_image m' = final_image m /\ drained (mark d k rev inv) = drained d
     /\ invalidated m' = if sets_marker d k inv then Some rev else invalidated m.
Proof.
  unfold mark, sets_marker. destruct (source_closed d || receiver_closed d || frozen d);
    [left; split; [done|]; by rewrite andb_false_r|].
  destruct (members d !! k) as [m|]; [right|left; split; [done|by rewrite !andb_false_r]].
  destruct (enqueue_members d k (mkMember (feed m) (label m) (Z.max (revision m) rev)
    (acknowledged m) (if inv && bool_decide (invalidated m = None) then Some rev else invalidated m)
    (queued m) (in_flight m) (retired m) (final_image m))) as [b Hb].
  eexists m, _. split_and!; [done|exact Hb|done..|apply enqueue_drained|]. simpl.
  by rewrite andb_true_r.
Qed.

(** The step of a feed: a mark may record a loss later than every row shown. *)
Lemma hinv_mark d k rev inv com held sh fr ls g :
  hinv (members d) (drained d) com held sh fr ls g ->
  (forall r, fr !! k = Some r -> (r <= rev)%Z /\ (inv = true -> k ∈ sh -> (r < rev)%Z)) ->
  hinv (members (mark d k rev inv)) (drained (mark d k rev inv)) com held sh
    (<[k := rev]> fr) (if sets_marker d k inv then ls ++ [(k, rev)] else ls) g.
Proof.
  intros H Hfr. eapply hinv_see; [|by intros r Hr; apply Hfr|done].
  destruct (mark_effect d k rev inv) as [[-> ->]|(m & m' & Hm & Ems & Ea & Er & Ef & Ed & Ei)]; [done|].
  rewrite Ems, Ed. destruct (sets_marker d k inv) eqn:Esm.
  2:{ eapply hinv_members; [done| | |done|done|done].
      - intros i mi. rewrite lookup_insert. case_decide; [|eauto 10].
        intros [= <-]. subst. exists m. rewrite Ea, Er, Ef. eauto 10.
      - intros i mi Hi. right. rewrite lookup_insert. case_decide; eauto. }
  assert (Hinv : inv = true /\ invalidated m = None).
  { unfold sets_marker in Esm. rewrite Hm in Esm.
    apply andb_true_iff in Esm as [[-> _]%andb_true_iff ?%bool_decide_eq_true]. done. }
  destruct Hinv as [-> Hnone]. destruct H as [Ha Hh Hs Hl Hr Hf]. split; [|done|done| | |].
  - intros i mi a. rewrite lookup_insert. case_decide; [intros [= <-]; subst|by apply Ha].
    rewrite Ea. by eapply Ha.
  - intros i at_ [Hin|[= -> ->]%list_elem_of_singleton]%elem_of_app.
    + destruct (Hl _ _ Hin) as [?|[(m0 & Hm0 & Hi & Hv)|?]]; [by left| |by right; right].
      right; left. exists m0. split_and!; [|done..]. rewrite lookup_insert_ne; [done|].
      intros <-. by simplify_eq.
    + right; left. exists m'. rewrite lookup_insert_eq. split_and!; [done..|].
      intros x Hx (Hk & Hv & Hle). subst k.
      destruct (Hs x Hx Hv) as (Hsh & r & Hr' & Hle'). destruct (Hfr r Hr') as [_ Hlt].
      specialize (Hlt eq_refl Hsh). lia.
  - intros i mi. rewrite lookup_insert. case_decide; [intros [= <-]; subst|by apply Hr].
    rewrite Er. by eapply Hr.
  - intros i mi rv row. rewrite lookup_insert. case_decide; [intros [= <-]; subst|by apply Hf].
    rewrite Ef. by eapply Hf.
Qed.

Lemma hinv_held ms fz com held held' sh fr ls g :
  (forall x, x ∈ held' -> x ∈ held) -> hinv ms fz com held sh fr ls g ->
  hinv ms fz com held' sh fr ls g.
Proof. intros Hh H. eapply hinv_members; [exact H| | |done..|done]; eauto 10. Qed.

Lemma hinv_insert ms fz com held sh fr ls g k m :
  hinv ms fz com held sh fr ls g -> ms !! k = None -> acknowledged m = None ->
  retired m = false -> final_image m = None ->
  hinv (<[k := m]> ms) fz com held sh fr ls g.
Proof.
  intros [Ha Hh Hs Hl Hr Hf] Hk E1 E2 E3. split; [|done|done| | |].
  - intros i mi a. rewrite lookup_insert. case_decide; [intros [= <-]; congruence|apply Ha].
  - intros i at_ Hin. destruct (Hl _ _ Hin) as [?|[(m0 & Hm0 & Hi & Hv)|?]]; auto.
    right; left. exists m0. rewrite lookup_insert_ne by congruence. eauto.
  - intros i mi. rewrite lookup_insert. case_decide; [intros [= <-]; congruence|apply Hr].
  - intros i mi rv row. rewrite lookup_insert. case_decide; [intros [= <-]; congruence|apply Hf].
Qed.

(** An acknowledged key: the member's marker is cleared only if the row showed
    that loss. *)
Lemma hinv_ack ms fz com held sh fr ls g r :
  hinv ms fz com (r :: held) sh fr ls g ->
  hinv (match ms !! rk_key r with
        | Some m => <[rk_key r := finish_member true r m]> ms | None => ms end)
    fz (com ++ [r]) held sh fr ls g.
Proof.
  intros [Ha Hh Hs Hl Hr Hf]. destruct (Hh r ltac:(right; by left)) as [Hle Hinv].
  set (ms' := match ms !! rk_key r with Some m => _ | None => ms end).
  assert (Hms : forall k m', ms' !! k = Some m' -> exists m, ms !! k = Some m
    /\ (m' = m \/ k = rk_key r /\ m' = finish_member true r m)).
  { intros k m'. unfold ms'. destruct (ms !! rk_key r) as [m|] eqn:E; [|eauto].
    rewrite lookup_insert. case_decide; [intros [= <-]; subst; eauto|eauto]. }
  split.
  - intros k m' a Hm' Ea. destruct (Hms _ _ Hm') as (m & Hm & [-> |[-> ->]]).
    { destruct (Ha _ _ _ Hm Ea) as (x & ? & ?). exists x. rewrite elem_of_app. auto. }
    simpl in Ea. destruct (acknowledged m) as [old|] eqn:Eo; simplify_eq.
    + destruct (Z.max_spec_le old (rk_acknowledged r)) as [[_ ->]|[_ ->]].
      * exists r. rewrite elem_of_app, list_elem_of_singleton. auto using Z.le_refl.
      * destruct (Ha _ _ _ Hm Eo) as (x & ? & ?). exists x. rewrite elem_of_app. auto.
    + exists r. rewrite elem_of_app, list_elem_of_singleton. auto using Z.le_refl.
  - intros x Hx. apply Hh. rewrite elem_of_app, list_elem_of_singleton in Hx.
    rewrite elem_of_cons. naive_solver.
  - intros x Hx. apply Hs. rewrite elem_of_app, list_elem_of_singleton in Hx.
    rewrite elem_of_cons. naive_solver.
  - intros k at_ Hin. destruct (Hl _ _ Hin) as [?|[(m & Hm & Hi & Hv)|Hp]];
      [by left| |right; right; by apply published_app].
    assert (Hv' : forall x, x ∈ com ++ [r] \/ x ∈ held -> ~ valid_after k at_ x).
    { intros x Hx. apply Hv. rewrite elem_of_app, list_elem_of_singleton in Hx.
      rewrite elem_of_cons. naive_solver. }
    right. destruct (decide (rk_key r = k)) as [<-|Hne].
    2:{ left. exists m. split_and!; [|done..]. unfold ms'. case_match; [|done].
        by rewrite lookup_insert_ne. }
    destruct (decide (rk_invalidated r = Some at_)) as [Ei|Ei].
    + right. exists com, r, []. split_and!; [done..| |].
      { apply Hinv. by rewrite Ei. }
      intros y Hy. apply Hv. by left.
    + left. exists (finish_member true r m). unfold ms'. rewrite Hm, lookup_insert_eq.
      split_and!; [done| |done]. simpl. rewrite decide_False; congruence.
  - intros k m' Hm' Hret. destruct (Hms _ _ Hm') as (m & Hm & [-> |[-> ->]]); eauto.
  - intros k m' rv row Hm' Hfin Hv. destruct (Hms _ _ Hm') as (m & Hm & [-> |[-> ->]]); eauto.
Qed.

Lemma finish_one_members c cl cq d r :
  members (finish_one c cl cq d r) = match members d !! rk_key r with
    | None => members d
    | Some m => if negb cl && retired m && c && negb (stale (finish_member c r m))
                then delete (rk_key r) (members d)
                else <[rk_key r := set_queued (finish_member c r m)
                         (queued m || cq && (negb c || stale (finish_member c r m)))]> (members d)
    end.
Proof.
  unfold finish_one. destruct (members d !! rk_key r) as [m|]; [|done].
  destruct (finish_member_flags c r m) as (_ & Hq & Hr & _). rewrite Hr.
  assert (Hs : negb cl && retired m && c && negb (negb c || stale (finish_member c r m))
             = negb cl && retired m && c && negb (stale (finish_member c r m))).
  { destruct c; simpl; [done|]. by rewrite !andb_false_r. }
  rewrite Hs. case_match; [done|]. rewrite Hq. clear Hs H Hr.
  generalize (stale (finish_member c r m)) as st. intros st.
  destruct (finish_member c r m). simpl in Hq. subst.
  by destruct (queued m), cq, c, st.
Qed.

(** Rewriting one member without touching what [hinv] looks at. *)
Lemma hinv_touch ms fz com held sh fr ls g k m m' :
  hinv ms fz com held sh fr ls g -> ms !! k = Some m -> acknowledged m' = acknowledged m ->
  invalidated m' = invalidated m -> retired m' = retired m -> final_image m' = final_image m ->
  hinv (<[k := m']> ms) fz com held sh fr ls g.
Proof.
  intros H Hk E1 E2 E3 E4. eapply hinv_members; [exact H| | |done..|done].
  - intros i mi. rewrite lookup_insert. case_decide; [|eauto 10]. intros [= <-]. subst.
    exists m. rewrite E1, E2, E3, E4. eauto 10.
  - intros i mi Hi. right. rewrite lookup_insert. case_decide; eauto.
Qed.

Lemma hinv_delete ms fz com held sh fr ls g k :
  hinv ms fz com held sh fr ls g -> hinv (delete k ms) fz com held sh fr ls (g ∪ {[k]}).
Proof.
  intros H. eapply hinv_members; [exact H| | |set_solver|done..].
  - intros i mi [_ Hi]%lookup_delete_Some. eauto 10.
  - intros i mi Hi. destruct (decide (k = i)) as [->|]; [set_solver|].
    right. rewrite lookup_delete_ne by done. eauto.
Qed.

Lemma hinv_finish_one c cl cq d r fz com held sh fr ls g :
  hinv (members d) fz com (r :: held) sh fr ls g ->
  hinv (members (finish_one c cl cq d r)) fz (if c then com ++ [r] else com) held sh fr ls g.
Proof.
  intros H. rewrite finish_one_members. destruct c.
  - pose proof (hinv_ack _ _ _ _ _ _ _ _ _ H) as H'.
    destruct (members d !! rk_key r) as [m|] eqn:Hm; [|done]. case_match eqn:Ec.
    + apply andb_true_iff in Ec as [[[_ Hret]%andb_true_iff _]%andb_true_iff _].
      assert (Hg : rk_key r ∈ g) by (eapply hi_retired; [exact H|exact Hm|exact Hret]).
      apply hinv_delete with (k := rk_key r) in H'. rewrite delete_insert_eq in H'.
      by replace (g ∪ {[rk_key r]}) with g in H' by (apply set_eq; set_solver).
    + replace (<[rk_key r := set_queued _ _]> (members d)) with
        (<[rk_key r := set_queued (finish_member true r m) (queued m || cq && (negb true ||
            stale (finish_member true r m)))]> (<[rk_key r := finish_member true r m]> (members d)))
        by apply insert_insert_eq.
      eapply hinv_touch; [exact H'|by rewrite lookup_insert_eq|done..].
  - apply (hinv_held _ _ _ (r :: held) held) in H; [|by right].
    destruct (members d !! rk_key r) as [m|] eqn:Hm; [|done].
    rewrite andb_false_r. simpl. by eapply hinv_touch.
Qed.

Lemma hinv_finish c cl cq keys d fz com held sh fr ls g :
  hinv (members d) fz com (keys ++ held) sh fr ls g ->
  hinv (members (fold_left (finish_one c cl cq) keys d)) fz (if c then com ++ keys else com) held
    sh fr ls g.
Proof.
  revert d com. induction keys as [|r keys IH]; intros d com H; simpl.
  { destruct c; by rewrite ?app_nil_r. }
  apply hinv_finish_one with (c := c) (cl := cl) (cq := cq) in H. apply IH in H.
  destruct c; [by rewrite <- (assoc_L (++)) in H|done].
Qed.

(** Members lost by clearing the membership are gone. *)
Lemma hinv_clear d fz com held sh fr ls g nk L :
  hinv (members d) fz com held sh fr ls g -> qinv d nk L ->
  hinv ∅ fz com held sh fr ls (g ∪ set_seq 0 nk).
Proof.
  intros H Q. eapply hinv_members; [exact H|done| |set_solver|done..].
  intros k m Hk. left. apply elem_of_union_r, elem_of_set_seq.
  apply (qi_bound _ _ _ Q) in Hk. lia.
Qed.

Lemma hinv_gone ms fz fz' com held sh fr ls g g' :
  hinv ms fz com held sh fr ls g -> g ⊆ g' -> (fz = true -> fz' = true) ->
  hinv ms fz' com held sh fr ls g'.
Proof. intros H Hg Hf. eapply hinv_members; [exact H|..]; eauto 10. Qed.
End History.

Section HistorySteps.
Implicit Types s : DSys.

(** The position of the receiver is unaffected by what the feeds did since. *)
Lemma pc_hist_mono s s' :
  reader s' = reader s ->
  (forall k rev, seen (feed_rev s) (shown s) k rev -> seen (feed_rev s') (shown s') k rev) ->
  pc_hist s -> pc_hist s'.
Proof. intros Er Hs. unfold pc_hist. rewrite Er. destruct (reader s); naive_solver. Qed.

Lemma hsys_put s s' :
  hsys s -> reader s' = reader s -> receipts s' = receipts s -> committed s' = committed s ->
  feed_rev s' = feed_rev s -> shown s' = shown s -> losses s' = losses s ->
  next_key s' = next_key s ->
  hinv (members (sd s')) (drained (sd s')) (committed s) (held s) (shown s) (feed_rev s) (losses s)
    (gone s') -> hsys s'.
Proof.
  intros H E1 E2 E3 E4 E5 E6 E7 Hh. split.
  - unfold held. by rewrite E1, E2, E3, E4, E5, E6.
  - eapply pc_hist_mono; [exact E1| |apply H]. by rewrite E4, E5.
  - rewrite E4, E7. apply H.
Qed.

Lemma hinv_retire d k row fz com hd sh fr ls g :
  hinv (members d) fz com hd sh fr ls g -> row_valid row = false ->
  hinv (members (retire d k row)) fz com hd sh fr ls (g ∪ {[k]}).
Proof.
  intros H Hrow. unfold retire. case_match; [eapply hinv_gone; [exact H|set_solver|done]|].
  destruct (members d !! k) as [m|] eqn:Hm; [|eapply hinv_gone; [exact H|set_solver|done]].
  edestruct enqueue_members as [b ->]. eapply hinv_members; [exact H| | |set_solver|done..].
  - intros i mi. rewrite lookup_insert. case_decide; [|eauto 10]. intros [= <-]. subst.
    exists m. split_and!; [done|done|set_solver|set_solver|]. simpl. intros. simplify_eq. congruence.
  - intros i mi Hi. right. rewrite lookup_insert. case_decide; eauto.
Qed.

Lemma retire_drained d k row : drained (retire d k row) = drained d.
Proof. unfold retire. repeat case_match; try done. apply enqueue_drained. Qed.

Lemma hinv_fmap ms f fz com hd sh fr ls g :
  (forall m, acknowledged (f m) = acknowledged m /\ invalidated (f m) = invalidated m
     /\ retired (f m) = retired m /\ final_image (f m) = final_image m) ->
  hinv ms fz com hd sh fr ls g -> hinv (f <$> ms) fz com hd sh fr ls g.
Proof.
  intros Hf H. eapply hinv_members; [exact H| | |done..].
  - intros k m'. rewrite lookup_fmap, fmap_Some. intros (m & Hm & ->).
    destruct (Hf m) as (-> & -> & -> & ->). eauto 10.
  - intros k m Hk. right. rewrite lookup_fmap, Hk. simpl. eauto.
Qed.

Lemma hsys_register s f rev lbl s' :
  sinv s -> hsys s -> dexec s (DRegister f rev lbl) = Some s' -> hsys s'.
Proof.
  intros I H E. pose proof (hs_hinv _ H) as Hh.
  pose proof (di_queue _ _ _ (si_dirty _ I)) as Q. simpl in E.
  case_match; [|done]. simplify_eq. assert (Hnew : feed_rev s !! next_key s = None).
  { apply eq_None_not_Some. intros ?%(hs_rev _ H). lia. }
  assert (Hmono : forall r, feed_rev s !! next_key s = Some r -> (r <= rev)%Z) by congruence.
  split; simpl.
  - eapply hinv_see; [|done..]. unfold sd_register. case_match; [done|]. simpl.
    apply hinv_insert; try done.
    + eapply hinv_members; [exact Hh| | |done..].
      { intros k m [Hk _]%map_lookup_filter_Some. eauto 10. }
      intros k m Hk. destruct (retired m) eqn:Er; [left; by eapply hi_retired|].
      right. exists m. apply map_lookup_filter_Some. auto.
    + apply map_lookup_filter_None. left. destruct (members (sd s) !! next_key s) eqn:E; [|done].
      apply (qi_bound _ _ _ Q) in E. lia.
  - eapply (pc_hist_mono s); [done| |apply H]. simpl. eauto using seen_mono.
  - intros k. rewrite lookup_insert. destruct (decide (next_key s = k)); [lia|]. intros ?%(hs_rev _ H). lia.
Qed.

Lemma hsys_feed s s' a :
  sinv s -> hsys s -> dexec s a = Some s' ->
  match a with
  | DRegister _ _ _ | DMark _ _ _ | DRetire _ _ | DDetach _ | DFail _ | DCloseSource => True
  | _ => False
  end -> hsys s'.
Proof.
  intros I H E Ha. pose proof (hs_hinv _ H) as Hh. pose proof (di_queue _ _ _ (si_dirty _ I)) as Q.
  destruct a; try done; simpl in E.
  - by eapply hsys_register.
  - destruct (feed_allows s key rev inv) eqn:Ef; [|done]. unfold feed_allows in Ef.
    apply andb_true_iff in Ef as [[Hk%bool_decide_eq_true _]%andb_true_iff Ef].
    assert (Hfr : forall r, feed_rev s !! key = Some r ->
      (r <= rev)%Z /\ (inv = true -> key ∈ shown s -> (r < rev)%Z)).
    { intros r Hr. rewrite Hr in Ef. apply andb_true_iff in Ef as [Hle%bool_decide_eq_true Ef].
      split; [done|]. intros -> Hs. rewrite bool_decide_eq_true_2 in Ef by done. simpl in Ef.
      apply negb_true_iff, bool_decide_eq_false in Ef. lia. }
    pose proof (hinv_mark _ _ _ _ _ _ _ _ _ _ Hh Hfr) as Hm.
    assert (Hs' : sd s' = mark (sd s) key rev inv /\ reader s' = reader s /\ receipts s' = receipts s
      /\ committed s' = committed s /\ feed_rev s' = <[key := rev]> (feed_rev s)
      /\ shown s' = shown s /\ gone s' = gone s /\ next_key s' = next_key s
      /\ losses s' = if sets_marker (sd s) key inv then losses s ++ [(key, rev)] else losses s).
    { destruct (sets_marker _ _ _); simplify_eq; by split_and!. }
    destruct Hs' as (E1 & E2 & E3 & E4 & E5 & E6 & E7 & E8 & E9). split.
    + unfold held. by rewrite E1, E2, E3, E4, E5, E6, E7, E9.
    + eapply pc_hist_mono; [exact E2| |apply H]. rewrite E5, E6. intros k0 r0 Hs.
      eapply seen_mono; [done| |done]. intros r Hr. by apply Hfr.
    + intros k. rewrite E5, E8. destruct (decide (key = k)) as [<-|Hne]; [done|].
      rewrite lookup_insert_ne by done. apply H.
  - destruct (row_valid row) eqn:Hv; [done|]. simplify_eq. eapply hsys_put; [done..|]. simpl.
    rewrite retire_drained. by apply hinv_retire.
  - simplify_eq. eapply hsys_put; [done..|]. simpl. unfold detach.
    case_match; [eapply hinv_gone; [exact Hh|set_solver|done]|]. by apply hinv_delete.
  - simplify_eq. eapply hsys_put; [done..|]. simpl. unfold fail. case_match; [done|].
    by apply hinv_fmap.
  - simplify_eq. eapply hsys_put; [done..|]. simpl. unfold close_source.
    case_match; [by eapply hinv_clear|eapply hinv_gone; [exact Hh|set_solver|done]].
Qed.

(** Steps of the receiver: the members keep their history. *)
Lemma hsys_goto s s' :
  hsys s -> committed s' = committed s -> feed_rev s' = feed_rev s -> shown s' = shown s ->
  losses s' = losses s -> next_key s' = next_key s ->
  hinv (members (sd s')) (drained (sd s')) (committed s) (held s) (shown s) (feed_rev s) (losses s)
    (gone s') -> (forall x, x ∈ held s' -> x ∈ held s) -> pc_hist s' -> hsys s'.
Proof.
  intros H E3 E4 E5 E6 E7 Hh Hx Hp. split; [|done|rewrite E4, E7; apply H].
  rewrite E3, E4, E5, E6. by eapply hinv_held.
Qed.

Lemma hsys_select s limit s' :
  sinv s -> hsys s -> reader s = RIdle -> reader_select s limit = Some s' -> hsys s'.
Proof.
  intros I H Hr. unfold reader_select. destruct (try_select _ _) as [[d sel]|] eqn:E; [|done].
  simpl. intros [= <-]. pose proof (hs_hinv _ H) as Hh.
  pose proof (try_select_cases _ _ _ _ E) as HS. revert E.
  destruct HS as [|e He _ _ _|l q Hfr Hz Ht Hq|l ms q n h Hfr Hz Hqn El]; intros E.
  - by eapply hsys_put.
  - eapply hsys_goto; try done; simpl.
    + intros x. unfold held. simpl. rewrite bind_app. simpl. by rewrite app_nil_r.
    + unfold pc_hist. simpl. by rewrite Hr.
  - destruct l; (eapply hsys_goto; [exact H|done..|exact Hh| |]);
      unfold pc_hist, held; simpl; rewrite ?Hr; done.
  - pose proof (di_queue _ _ _ (si_dirty _ I)) as Q.
    apply (qinv_select _ _ _ _ _ _ _ Q) in El as (_ & Hsel & Hms).
    assert (Hnv : drained (sd s) = false) by (unfold drained; by rewrite Hz, Hfr).
    assert (Hok : sel_ok l).
    { intros x rev row Hx Hfin. destruct (Hsel _ Hx) as (m & Hm & Ex). rewrite Ex in Hfin.
      simpl in Hfin.
      destruct (row_valid row) eqn:Hv; [|done].
      pose proof (hi_final _ _ _ _ _ _ _ _ Hh _ _ _ _ Hm Hfin Hv). congruence. }
    set (d' := set_spare _ n h) in *.
    assert (Hh' : hinv (members d') (drained d') (committed s) (held s) (shown s) (feed_rev s)
                    (losses s) (gone s)).
    { eapply hinv_members; [exact Hh| | |done| |done].
      - intros k m'. simpl. rewrite Hms. case_decide; [|eauto 10].
        rewrite fmap_Some. intros (m & Hm & ->). exists m. split_and!; eauto.
      - intros k m Hk. right. simpl. rewrite Hms, Hk. case_decide; simpl; eauto.
      - by rewrite Hnv. }
    destruct l; (eapply hsys_goto; [exact H|done..|exact Hh'| |]);
      unfold pc_hist, held; simpl; rewrite ?Hr; done.
Qed.

Lemma hsys_capture s k image s' :
  hsys s -> capture s k image = Some s' ->
  hsys s' /\ forall rev row, image = Some (rev, row) -> seen (feed_rev s') (shown s') k rev.
Proof.
  intros H. unfold capture. destruct image as [[rev row]|]; [|intros [= <-]; done].
  destruct (feed_allows s k rev false) eqn:Ef; [|done]. intros [= <-]. unfold feed_allows in Ef.
  apply andb_true_iff in Ef as [[Hk%bool_decide_eq_true _]%andb_true_iff Ef].
  assert (Hfr : forall r, feed_rev s !! k = Some r -> (r <= rev)%Z).
  { intros r Hr. rewrite Hr in Ef. by apply andb_true_iff in Ef as [?%bool_decide_eq_true _]. }
  split; [split; simpl|].
  - eapply hinv_see; [apply H|done|set_solver].
  - eapply (pc_hist_mono s); [done| |apply H]. simpl. intros. eapply seen_mono; [done..|set_solver].
  - intros i. destruct (decide (k = i)) as [<-|Hne]; [done|].
    rewrite lookup_insert_ne by done. apply H.
  - intros rev' row' [= <- <-]. simpl. split; [set_solver|]. rewrite lookup_insert_eq.
    exists rev. split; [done|lia].
Qed.

Lemma hsys_snapshot s image s' : hsys s -> reader_snapshot s image = Some s' -> hsys s'.
Proof.
  intros H E. unfold reader_snapshot in E. pose proof (hs_pc _ H) as Hp. unfold pc_hist in Hp.
  destruct (reader s) eqn:Hr; try done.
  - destruct todo as [|sel todo]; [done|]. destruct (sel_final_image sel) as [[rev row]|] eqn:Efi.
    { simplify_eq. eapply hsys_goto; try done; [apply H|by unfold held; rewrite Hr|].
      split; [done|]. intros Hv. rewrite (Hp sel rev row) in Hv by (done || left). done. }
    destruct (capture s _ image) as [s1|] eqn:Ec; [|done]. simpl in E. simplify_eq.
    pose proof (hsys_capture _ _ _ _ H Ec) as [H1 Hseen].
    apply capture_shape in Ec as (E1 & E2 & E3 & E4 & _).
    destruct image as [[rev row]|]; (eapply hsys_goto; [exact H1|done..|apply H1| |]).
    + unfold held. simpl. by rewrite E3, Hr.
    + split; [done|]. eauto.
    + unfold held. simpl. by rewrite E3, Hr.
    + done.
  - destruct todo as [|[[k f] b] todo]; [done|]. destruct b.
    { simplify_eq. eapply hsys_goto; try done; [apply H|by unfold held; rewrite Hr]. }
    destruct (capture s _ image) as [s1|] eqn:Ec; [|done]. simpl in E. simplify_eq.
    pose proof (hsys_capture _ _ _ _ H Ec) as [H1 _].
    apply capture_shape in Ec as (E1 & E2 & E3 & E4 & _).
    eapply hsys_goto; [exact H1|done..|apply H1| |done]. unfold held. simpl. by rewrite E3, Hr.
Qed.

(** A row built under the lock shows the pending loss first. *)
Lemma hinv_row d sel rev row fz com hd sh fr ls g :
  hinv (members d) fz com hd sh fr ls g ->
  (row_valid row = true -> seen fr sh (sel_key sel) rev) ->
  hinv (members d) fz com (row_key d sel rev row :: hd) sh fr ls g.
Proof.
  intros [Ha Hh Hs Hl Hr Hf] Hrow.
  set (x := row_key d sel rev row).
  assert (Hx : rk_key x = sel_key sel /\ rk_revision x = rev
    /\ (rk_acknowledged x <= rev)%Z
    /\ (is_Some (rk_invalidated x) -> row_valid (rk_row x) = false)
    /\ (row_valid (rk_row x) = true -> row_valid row = true
        /\ filter_le (members d !! sel_key sel ≫= invalidated) rev = None)).
  { unfold x, row_key. destruct (filter_le (_ ≫= _) rev) eqn:E1; simpl.
    - destruct (row_valid row) eqn:Hv; simpl; rewrite ?Hv; split_and!; try done; lia.
    - destruct (filter_le (sel_invalidated sel) rev) eqn:E2; simpl;
        [destruct (row_valid row) eqn:Hv; simpl; rewrite ?Hv|]; split_and!; try done; try lia. }
  destruct Hx as (Ek & Er & Eac & Ei & Ev). split; [done| | | |done|done].
  - intros y [Hy|[-> |Hy]%elem_of_cons]; [auto|rewrite Er; auto|auto].
  - intros y [Hy|[-> |Hy]%elem_of_cons] Hv; [by apply Hs; [left|]| |by apply Hs; [right|]].
    rewrite Ek, Er. by apply Hrow, Ev.
  - intros k at_ Hin. destruct (Hl _ _ Hin) as [?|[(m & Hm & Hi & Hv)|?]]; auto.
    right; left. exists m. split_and!; [done..|].
    intros y [Hy|[-> |Hy]%elem_of_cons]; [by apply Hv; left| |by apply Hv; right].
    intros (E1 & E2 & E3). rewrite Ek in E1. subst k. destruct (Ev E2) as [_ Hn].
    rewrite Hm in Hn. simpl in Hn. rewrite Hi in Hn. simpl in Hn. rewrite Er in E3.
    by rewrite decide_True in Hn.
Qed.

Lemma hinv_take ms keys ms' snaps fz com hd sh fr ls g :
  hinv ms fz com hd sh fr ls g -> fz = true -> take_finals ms keys = (ms', snaps) ->
  hinv ms' true com hd sh fr ls g.
Proof.
  intros H -> Et. eapply hinv_members; [exact H| | |done..].
  - intros k m' Hm'.
    destruct (take_finals_spec _ _ _ _ Et k m' Hm') as (m & Hm & _ & E1 & E2 & _ & E3 & _).
    exists m. rewrite E1, E2, E3. split_and!; auto.
  - intros k m Hk. right. eapply take_finals_dom; [exact Et|]. eauto.
Qed.

Lemma hinv_store d k image fz com hd sh fr ls g :
  hinv (members d) fz com hd sh fr ls g -> fz = true ->
  hinv (members (prep_store d k image).1) true com hd sh fr ls g.
Proof.
  intros H ->. unfold prep_store. destruct (members d !! k) as [m|] eqn:Hm; [|done].
  destruct (retired m) eqn:Hret; [done|]. destruct image as [image|]; [|done]. simpl.
  eapply hinv_members; [exact H| | |done..].
  - intros i mi. rewrite lookup_insert. case_decide; [|eauto 10]. intros [= <-]. subst.
    exists m. split_and!; auto.
  - intros i mi Hi. right. rewrite lookup_insert. case_decide; eauto.
Qed.

Lemma hsys_lock s s' : sinv s -> hsys s -> reader_lock s = Some s' -> hsys s'.
Proof.
  intros I H E. pose proof (si_pc _ I) as Hpc. pose proof (hs_hinv _ H) as Hh.
  pose proof (hs_pc _ H) as Hp. unfold pc_hist in Hp. unfold reader_lock in E.
  destruct (reader s) eqn:Hr; try done.
  - destruct (members (sd s) !! sel_key sel ≫= final_image) as [[rev row]|] eqn:Ef; simplify_eq;
      (eapply hsys_goto; [exact H|done..|exact Hh|by unfold held; simpl; rewrite Hr|]); [|done].
    split; [done|]. intros Hv. apply bind_Some in Ef as (m & Hm & Hfin).
    pose proof (hi_final _ _ _ _ _ _ _ _ Hh _ _ _ _ Hm Hfin Hv) as Hdr.
    destruct Hpc as [Hz Hf]. unfold drained in Hdr. by rewrite Hz, Hf in Hdr.
  - simplify_eq. eapply hsys_goto; [exact H|done..| |by unfold held; simpl; rewrite Hr|].
    + by apply hinv_delete.
    + intros x rev row Hx. apply Hp. by right.
  - simplify_eq. destruct Hp as [Hp Hv].
    assert (Hh' : hinv (members (sd s)) (drained (sd s)) (committed s)
       (row_key (sd s) sel rev row :: held s) (shown s) (feed_rev s) (losses s) (gone s))
      by (by apply hinv_row).
    split; [|intros x rv rw Hx; apply Hp; by right|apply H].
    eapply hinv_held; [|exact Hh']. intros x. unfold held. simpl. rewrite Hr. simpl.
    set_solver.
  - destruct todo as [|? ?]; [|done]. destruct Hpc as (Hz & Hf & _). unfold prep_take in E.
    destruct (take_finals _ _) as [ms snaps] eqn:Et. simplify_eq.
    eapply hsys_goto; [exact H|done..| |by unfold held; simpl; rewrite Hr|done].
    simpl. unfold drained. simpl. rewrite orb_true_r. eapply hinv_take; [exact Hh| |exact Et].
    unfold drained. by rewrite Hz.
  - destruct (prep_store _ _ _) as [d rm] eqn:Es. simplify_eq. destruct Hpc as (Hz & Hf & _).
    assert (Hd : hinv (members d) true (committed s) (held s) (shown s) (feed_rev s) (losses s)
                   (gone s)).
    { replace d with (prep_store (sd s) key image).1 by (by rewrite Es).
      eapply hinv_store; [exact Hh|]. unfold drained. by rewrite Hz. }
    assert (Hdd : drained d = true).
    { replace d with (prep_store (sd s) key image).1 by (by rewrite Es).
      unfold prep_store, drained. repeat case_match; simpl; by rewrite Hz. }
    destruct rm; (eapply hsys_goto; [exact H|done..| |by unfold held; simpl; rewrite Hr|done]);
      simpl; by rewrite Hdd.
  - simplify_eq. eapply hsys_goto; [exact H|done..| |by unfold held; simpl; rewrite Hr|done].
    by apply hinv_delete.
  - simplify_eq. eapply hsys_goto; [exact H|done..| |by unfold held; simpl; rewrite Hr|done].
    simpl. eapply hinv_gone; [exact Hh|done|done].
Qed.

Lemma hsys_batch s failure s' : hsys s -> reader_batch s failure = Some s' -> hsys s'.
Proof.
  intros H E. pose proof (hs_hinv _ H) as Hh. unfold reader_batch in E.
  destruct (reader s) eqn:Hr; try done.
  - destruct todo; [|done]. destruct keys as [|k keys]; simplify_eq.
    + eapply hsys_goto; [exact H|done..|exact Hh|by unfold held; simpl; rewrite Hr|done].
    + eapply hsys_goto; [exact H|done..|exact Hh| |done]. intros x. unfold held. simpl.
      rewrite Hr, bind_app. simpl. rewrite app_nil_r, !elem_of_app, elem_of_cons, elem_of_cons.
      rewrite elem_of_app. naive_solver.
  - simplify_eq. eapply hsys_goto; [exact H|done..|exact Hh| |done]. intros x. unfold held. simpl.
    rewrite Hr, bind_app. simpl. by rewrite app_nil_r.
Qed.

Lemma hsys_close s : sinv s -> hsys s -> hsys (close_receiver s).
Proof.
  intros I H. pose proof (hs_hinv _ H) as Hh. eapply hsys_goto; [exact H|done..| | |done].
  - eapply hinv_clear; [exact Hh|apply I].
  - intros x Hx. unfold held. apply elem_of_app. by right.
Qed.

Lemma held_delete s i r x :
  receipts s !! i = Some r ->
  x ∈ held s <-> x ∈ rc_keys r \/ x ∈ reader_rows (reader s) ++ (delete i (receipts s) ≫= rc_keys).
Proof.
  intros Hi%delete_Permutation. unfold held. rewrite !elem_of_app.
  assert (E : receipts s ≫= rc_keys ≡ₚ rc_keys r ++ (delete i (receipts s) ≫= rc_keys))
    by (rewrite Hi at 1; by rewrite bind_cons).
  rewrite E, elem_of_app. tauto.
Qed.

Lemma hsys_end s i r c : sinv s -> hsys s -> receipts s !! i = Some r -> hsys (end_receipt s i r c).
Proof.
  intros I H Hi. pose proof (hs_hinv _ H) as Hh.
  destruct (si_receipt _ I r) as [_ Hkeys]; [by eapply list_elem_of_lookup_2|].
  set (hd := reader_rows (reader s) ++ (delete i (receipts s) ≫= rc_keys)).
  assert (Hh' : hinv (members (sd s)) (drained (sd s)) (committed s) (rc_keys r ++ hd) (shown s)
                  (feed_rev s) (losses s) (gone s)).
  { eapply hinv_held; [|exact Hh]. intros x. rewrite (held_delete _ _ _ x Hi), elem_of_app. done. }
  assert (Hgen : forall d com k2 k3,
    hinv (members d) (drained d) com hd (shown s) (feed_rev s) (losses s) (gone s) ->
    forall s', sd s' = d -> committed s' = com -> reader s' = reader s ->
      receipts s' = delete i (receipts s) -> shown s' = shown s -> feed_rev s' = feed_rev s ->
      losses s' = losses s -> gone s' = gone s -> next_key s' = next_key s ->
      frozen_done s' = k2 -> ended s' = k3 -> hsys s').
  { intros d com k2 k3 Hd s' E1 E2 E3 E4 E5 E6 E7 E8 E9 _ _. split.
    - unfold held. by rewrite E1, E2, E3, E4, E5, E6, E7, E8.
    - eapply (pc_hist_mono s); [done|by rewrite E5, E6|apply H].
    - rewrite E6, E9. apply H. }
  unfold end_receipt. destruct (rc_terminal r) eqn:Et.
  - rewrite Hkeys in Hh' by auto. simpl in Hh'. generalize (if c then None else receipt_error r) as e.
    intros e. destruct e; (eapply Hgen; [|done..]); simpl; [exact Hh'|].
    by rewrite app_nil_r.
  - destruct (rc_frozen r) as [|id ids] eqn:Ef.
    + apply (hinv_finish c (frozen (sd s) || freezing (sd s))
               (negb (receiver_closed (sd s)) && negb (terminal_delivered (sd s))
                && negb (terminal_in_flight (sd s)) && bool_decide (terminal (sd s) = None)
                && negb (frozen (sd s) || freezing (sd s)) && negb (source_closed (sd s)))) in Hh'.
      assert (Hdr : drained (finish (sd s) (rc_keys r) c) = drained (sd s))
        by (by destruct (finish_shape (sd s) (rc_keys r) c) as (ms & q & ->)).
      rewrite <- Hdr in Hh'. destruct c; (eapply Hgen; [|done..]); exact Hh'.
    + rewrite Hkeys in Hh' by (right; congruence). simpl in Hh'.
      assert (Hff : members (finish_frozen (sd s) (id :: ids) c) = members (sd s)
                    /\ drained (finish_frozen (sd s) (id :: ids) c) = drained (sd s))
        by (unfold finish_frozen; by case_match).
      destruct Hff as [E1 E2]. rewrite <- E1, <- E2 in Hh'.
      rewrite Hkeys by (right; congruence).
      destruct c; (eapply Hgen; [|done..]); simpl; rewrite ?app_nil_r; exact Hh'.
Qed.

Lemma hsys_update_receipt s i r r' :
  hsys s -> receipts s !! i = Some r -> rc_keys r' = rc_keys r ->
  hsys (set_receipts s (<[i := r']> (receipts s))).
Proof.
  intros H Hi E. eapply hsys_goto; [exact H|done..|apply H| |apply H].
  intros x. unfold held. simpl. rewrite !elem_of_app. intros [?|Hx]; [by left|right].
  rewrite insert_take_drop in Hx by (by eapply lookup_lt_Some).
  rewrite <- (take_drop_middle (receipts s) i r) by done.
  revert Hx. by rewrite !bind_app, !bind_cons, E.
Qed.

Lemma hsys_step s a s' : sinv s -> hsys s -> dexec s a = Some s' -> hsys s'.
Proof.
  intros I H E. pose proof (hs_hinv _ H) as Hh.
  destruct a; try (by eapply hsys_feed); simpl in E.
  - destruct (is_idle (reader s)) eqn:Hi; [|done]. eapply hsys_select; [done..| |done].
    by destruct (reader s).
  - pose proof (hs_pc _ H) as Hp. unfold pc_hist in Hp.
    destruct (reader s) eqn:Hr; try done; destruct alive; simplify_eq; try done;
      try by apply hsys_close.
    eapply hsys_goto; [exact H|done..|exact Hh| |done]. unfold held. simpl. by rewrite Hr.
  - by eapply hsys_snapshot.
  - by eapply hsys_lock.
  - by eapply hsys_batch.
  - destruct (is_idle (reader s)) eqn:Hi; [|done]. assert (Hr : reader s = RIdle)
      by (by destruct (reader s)).
    unfold prep_begin in E. destruct (_ || freezing (sd s)); simplify_eq; [done|].
    eapply hsys_goto; [exact H|done..| |unfold held; simpl; by rewrite Hr|done].
    simpl. eapply hinv_gone; [exact Hh|done|done].
  - destruct (is_idle (reader s)); [|done]. simplify_eq. by apply hsys_close.
  - simplify_eq. eapply hsys_put; [exact H|done..|]. simpl. unfold read_buffer. by case_match.
  - simplify_eq. eapply hsys_put; [exact H|done..|]. simpl. unfold recycle_values.
    by repeat case_match.
  - destruct (receipts s !! i) eqn:Hi; [|done]. simpl in E. simplify_eq.
    by eapply hsys_update_receipt.
  - destruct (receipts s !! i) eqn:Hi; [|done]. simpl in E. case_match; [done|]. simplify_eq.
    by eapply hsys_update_receipt.
  - destruct (receipts s !! i) eqn:Hi; [|done]. simpl in E. simplify_eq. by apply hsys_end.
  - destruct (receipts s !! i) eqn:Hi; [|done]. simpl in E. simplify_eq. by apply hsys_end.
Qed.

Lemma hsys_init : hsys dsys_new.
Proof.
  split; [|done|by intros k [? [=]]]. simpl.
  split; try (by intros); try (by intros ? [?%not_elem_of_nil|?%not_elem_of_nil]); try (by intros ? [? ?]).
  - by intros k at_ ?%not_elem_of_nil.
Qed.
End HistorySteps.

(** ** Reachable states *)

Lemma drun_ind (P : DSys -> Prop) acts s s' :
  (forall s a s', P s -> dexec s a = Some s' -> P s') ->
  P s -> drun acts s = Some s' -> P s'.
Proof.
  intros Hstep. revert s. induction acts as [|a acts IH]; intros s Hs; simpl; [by intros [= <-]|].
  destruct (dexec s a) as [s1|] eqn:E; [|done]. simpl. eauto.
Qed.

Lemma reachable_sinv acts s : drun acts dsys_new = Some s -> sinv s /\ hsys s.
Proof.
  apply (drun_ind (fun s => sinv s /\ hsys s)).
  - intros s0 a s1 [I H] E. eauto using sinv_step, hsys_step.
  - split; [apply sinv_init|apply hsys_init].
Qed.

(** *** Reading one topic *)

Definition row0 (valid : bool) : ImageRow :=
  mkRow "IBM US Equity" (Some 10%Z) valid None valid (mkLayout 0 []) None.

(** The receiver's steps that read and acknowledge one leased topic. *)
Definition read_acts (rev : Z) : list DAction :=
  [DRecv 8; DOwner true; DSnapshot (Some (rev, row0 true)); DLock; DBatch None; DAcknowledge 0].
