(* ===== verification/StateDrain.v ===== *)
(** * State delivery: the terminal error and the drain

    Further invariants of the protocol of [StateDelivery.v]: the terminal error
    is in exactly one place until it is handed over, and a drain
    ([prepare_close]) publishes an image for every member that was pending when
    it began. *)

From Stdlib Require Import ZArith Lia.
From stdpp Require Import sorting.
From S2P Require Import Prelude Errors Update StateDelivery StateInvariant.

(** ** The terminal error *)

Definition terminal_receipts (s : DSys) : list Receipt :=
  filter (fun r => rc_terminal r = true) (receipts s).

Definition opt_count {A} (o : option A) : nat := match o with Some _ => 1 | None => 0 end.

(** The places where a terminal error can be: waiting, leased, handed over. *)
Definition terminal_count (s : DSys) : nat :=
  opt_count (terminal (sd s)) + length (terminal_receipts s) + length (ended s).

Record tinv (s : DSys) : Prop := mkTinv {
  ti_flight : length (terminal_receipts s) = if terminal_in_flight (sd s) then 1 else 0;
  ti_ended : length (ended s) = if terminal_delivered (sd s) then 1 else 0;
  ti_one : terminal_count s <= 1
}.

(** What a step leaves alone when it does not concern the terminal error. *)
Definition same_terminal (d d' : DirtyState) : Prop :=
  terminal d' = terminal d /\ terminal_in_flight d' = terminal_in_flight d
  /\ terminal_delivered d' = terminal_delivered d /\ receiver_closed d' = receiver_closed d.

Lemma tinv_same s s' :
  same_terminal (sd s) (sd s') ->
  length (terminal_receipts s') = length (terminal_receipts s) -> ended s' = ended s ->
  (tinv s -> tinv s') /\ terminal_count s' = terminal_count s.
Proof.
  intros (E1 & E2 & E3 & _) Er Ee.
  assert (E : terminal_count s' = terminal_count s) by (unfold terminal_count; by rewrite E1, Er, Ee).
  split; [|done]. intros [H1 H2 H3]. split; rewrite ?Er, ?Ee, ?E, ?E2, ?E3; done.
Qed.

Section Same.
Implicit Types d : DirtyState.

Lemma same_refl d : same_terminal d d.
Proof. by split_and!. Qed.
Lemma same_set d ms q : same_terminal d (set_dirty d ms q).
Proof. by split_and!. Qed.
Lemma same_enqueue d k m : same_terminal d (enqueue d k m).
Proof. unfold enqueue. case_match; apply same_set. Qed.
Lemma same_mark d k rev inv : same_terminal d (mark d k rev inv).
Proof. unfold mark. repeat case_match; apply same_refl || apply same_enqueue. Qed.
Lemma same_retire d k row : same_terminal d (retire d k row).
Proof. unfold retire. repeat case_match; apply same_refl || apply same_enqueue. Qed.
Lemma same_register d k f rev lbl : same_terminal d (sd_register d k f rev lbl).
Proof. unfold sd_register. case_match; by split_and!. Qed.
Lemma same_detach d k : same_terminal d (detach d k).
Proof. unfold detach. case_match; by split_and!. Qed.
Lemma same_close_source d : same_terminal d (close_source d).
Proof. unfold close_source. case_match; by split_and!. Qed.
Lemma same_finish d keys c : same_terminal d (finish d keys c).
Proof. destruct (finish_shape d keys c) as (ms & q & ->). apply same_set. Qed.
Lemma same_finish_frozen d ids c : same_terminal d (finish_frozen d ids c).
Proof. unfold finish_frozen. case_match; by split_and!. Qed.
Lemma same_store d k image : same_terminal d (prep_store d k image).1.
Proof. unfold prep_store. repeat case_match; by split_and!. Qed.
Lemma same_take d pending : same_terminal d (prep_take d pending).1.
Proof. unfold prep_take. destruct (take_finals _ _). by split_and!. Qed.
Lemma same_buffer d k : same_terminal d (read_buffer d k).
Proof. unfold read_buffer. case_match; by split_and!. Qed.
Lemma same_recycle d b : same_terminal d (recycle_values d b).
Proof. unfold recycle_values. repeat case_match; by split_and!. Qed.
End Same.
#[export] Hint Resolve same_refl same_set same_mark same_retire same_register same_detach
  same_close_source same_finish same_finish_frozen same_store same_take same_buffer same_recycle
  : xbbg_state.

(** The steps that concern the terminal error. *)
Definition terminal_step (s s' : DSys) : Prop :=
  (same_terminal (sd s) (sd s')
     /\ length (terminal_receipts s') = length (terminal_receipts s) /\ ended s' = ended s)
  \/ (exists e, sd s' = fail (sd s) e /\ receipts s' = receipts s /\ ended s' = ended s)
  \/ (exists e, terminal (sd s) = Some e /\ terminal_in_flight (sd s) = false
        /\ sd s' = set_terminal (sd s) None true (terminal_delivered (sd s))
        /\ receipts s' = receipts s ++ [mkReceipt (Some (Err e)) [] [] true]
        /\ ended s' = ended s)
  \/ (exists r e i, receipts s !! i = Some r /\ rc_terminal r = true
        /\ sd s' = finish_terminal (sd s) e /\ receipts s' = delete i (receipts s)
        /\ length (ended s') = length (ended s) + (1 - opt_count e))
  \/ (sd s' = sd_close (sd s) /\ receipts s' = receipts s /\ ended s' = ended s).

Lemma terminal_receipts_app s rs r :
  receipts s = rs ++ [r] -> rc_terminal r = false ->
  terminal_receipts s = filter (fun r => rc_terminal r = true) rs.
Proof.
  intros E Hr. unfold terminal_receipts. rewrite E, filter_app. rewrite filter_cons_False by congruence.
  by rewrite app_nil_r.
Qed.

Lemma reader_terminal s s' :
  (exists image, reader_snapshot s image = Some s') \/ reader_lock s = Some s'
  \/ (exists e, reader_batch s e = Some s') -> terminal_step s s'.
Proof.
  intros H. left. destruct H as [[image E]|[E|[e E]]].
  - assert (Hc : forall s0 k, capture s k image = Some s0 -> sd s0 = sd s /\ receipts s0 = receipts s
                   /\ ended s0 = ended s).
    { intros s0 k (E1 & _ & _ & E2 & _ & _ & _ & _ & _ & E3)%capture_shape. done. }
    unfold reader_snapshot in E. unfold terminal_receipts. destruct (reader s); try done.
    + destruct todo as [|sel todo]; [done|]. destruct (sel_final_image sel) as [[rev row]|].
      { simplify_eq. by split_and!. }
      destruct (capture s _ image) as [s1|] eqn:Ec; simpl in E; [|done]; simplify_eq.
      destruct (Hc _ _ Ec) as (E1 & E2 & E3). simpl. rewrite E1, E2, E3. by split_and!.
    + destruct todo as [|[[k f] []] todo]; [done|simplify_eq; by split_and!|].
      destruct (capture s _ image) as [s1|] eqn:Ec; simpl in E; [|done]; simplify_eq.
      destruct (Hc _ _ Ec) as (E1 & E2 & E3). simpl. rewrite E1, E2, E3. by split_and!.
  - unfold reader_lock in E. unfold terminal_receipts. repeat case_match; simplify_eq; simpl.
    all: try (split_and!; auto with xbbg_state; done).
    1: replace d with (prep_take (sd s) pending).1 by (by rewrite H1); auto with xbbg_state.
    all: split_and!; [|done..];
      match goal with E : prep_store ?d ?k ?im = (?d', _) |- _ =>
        replace d' with (prep_store d k im).1 by (by rewrite E) end;
      auto with xbbg_state.
  - unfold reader_batch in E. repeat case_match; simplify_eq; simpl.
    all: split_and!; [by auto with xbbg_state| |done]; try done.
    all: by erewrite terminal_receipts_app by done.
Qed.

Lemma terminal_receipts_insert s i r r' :
  receipts s !! i = Some r -> rc_terminal r' = rc_terminal r ->
  length (terminal_receipts (set_receipts s (<[i := r']> (receipts s)))) = length (terminal_receipts s).
Proof.
  intros Hi E. unfold terminal_receipts. simpl.
  rewrite insert_take_drop by (by eapply lookup_lt_Some).
  rewrite <- (take_drop_middle (receipts s) i r) at 3 by done.
  rewrite !filter_app, !length_app, !filter_cons, E. by case_decide.
Qed.

Lemma terminal_receipts_delete s s' i r :
  receipts s !! i = Some r -> receipts s' = delete i (receipts s) ->
  length (terminal_receipts s) = length (terminal_receipts s') + (if rc_terminal r then 1 else 0).
Proof.
  intros Hi%delete_Permutation E. unfold terminal_receipts. rewrite E.
  rewrite Hi at 1. rewrite filter_cons. destruct (rc_terminal r); simpl; lia.
Qed.

Lemma end_terminal s i r c : receipts s !! i = Some r -> terminal_step s (end_receipt s i r c).
Proof.
  intros Hi. unfold end_receipt. destruct (rc_terminal r) eqn:Et.
  - right; right; right; left. exists r, (if c then None else receipt_error r), i.
    destruct (if c then None else receipt_error r); split_and!; try done; simpl; rewrite ?length_app; simpl; lia.
  - left. assert (Hl : length (filter (fun r => rc_terminal r = true) (delete i (receipts s)))
                       = length (terminal_receipts s)).
    { erewrite (terminal_receipts_delete s (set_receipts s (delete i (receipts s)))) by done.
      rewrite Et. unfold terminal_receipts. simpl. lia. }
    destruct c; split_and!; simpl; rewrite ?app_nil_r; try done; case_match; auto with xbbg_state.
Qed.

Lemma dstep_terminal s a s' : sinv s -> dexec s a = Some s' -> terminal_step s s'.
Proof.
  intros I E. destruct a; simpl in E.
  - case_match; [|done]. simplify_eq. left. split_and!; simpl; auto with xbbg_state.
  - repeat case_match; simplify_eq; left; split_and!; simpl; auto with xbbg_state.
  - repeat case_match; simplify_eq; left; split_and!; simpl; auto with xbbg_state.
  - simplify_eq. left. split_and!; simpl; auto with xbbg_state.
  - simplify_eq. right; left. by exists e.
  - simplify_eq. left. split_and!; simpl; auto with xbbg_state.
  - case_match; [|done]. unfold reader_select in E.
    destruct (try_select _ _) as [[d sel]|] eqn:Es; [|done]. simpl in E. simplify_eq.
    pose proof (try_select_cases _ _ _ _ Es) as HS.
    destruct HS as [|e He Hrc Hfl Hdl|l q Hfr _ Ht Hq|l ms q n h Hfr _ Hqn _].
    + left. by split_and!.
    + right; right; left. by exists e.
    + left. destruct l; by split_and!.
    + left. destruct l; by split_and!.
  - destruct (reader s); simplify_eq; try done; destruct alive; simplify_eq;
      try (left; by split_and!); right; right; right; right; by split_and!.
  - apply reader_terminal. eauto.
  - apply reader_terminal. eauto.
  - apply reader_terminal. eauto.
  - case_match; [|done]. left. unfold prep_begin in E. repeat case_match; simplify_eq; by split_and!.
  - case_match; [|done]. simplify_eq. right; right; right; right. by split_and!.
  - simplify_eq. left. split_and!; simpl; auto with xbbg_state.
  - simplify_eq. left. split_and!; simpl; auto with xbbg_state.
  - destruct (receipts s !! i) eqn:Hi; [|done]. simpl in E. simplify_eq. left.
    split_and!; [done| |done]. by eapply terminal_receipts_insert.
  - destruct (receipts s !! i) eqn:Hi; [|done]. simpl in E. case_match; [done|]. simplify_eq.
    left. split_and!; [done| |done]. by eapply terminal_receipts_insert.
  - destruct (receipts s !! i) eqn:Hi; [|done]. simpl in E. simplify_eq. by apply end_terminal.
  - destruct (receipts s !! i) eqn:Hi; [|done]. simpl in E. simplify_eq. by apply end_terminal.
Qed.

(** The terminal error moves between its places and never multiplies; while the
    receiver is open it is not lost either. *)
Definition conserves (s s' : DSys) : Prop :=
  tinv s' /\ (receiver_closed (sd s') = false -> terminal_count s = 1 -> terminal_count s' = 1)
  /\ (receiver_closed (sd s) = true -> receiver_closed (sd s') = true).

Lemma terminal_receipts_eq s s' : receipts s' = receipts s -> terminal_receipts s' = terminal_receipts s.
Proof. unfold terminal_receipts. by intros ->. Qed.

Lemma conserves_fail s s' e :
  tinv s -> sd s' = fail (sd s) e -> receipts s' = receipts s -> ended s' = ended s -> conserves s s'.
Proof.
  intros [T1 T2 T3] Ed E2%terminal_receipts_eq Ee. unfold fail in Ed. case_match eqn:E1.
  { split_and!; [split|..]; unfold terminal_count in *; rewrite ?Ed, ?E2, ?Ee; done. }
  apply orb_false_iff in E1 as [[Hrc Hdl]%orb_false_iff Hfl].
  rewrite Hfl in T1. rewrite Hdl in T2.
  assert (Hc : terminal_count s' = 1).
  { unfold terminal_count. rewrite Ed, E2, Ee, T1, T2. simpl. by destruct (terminal (sd s)). }
  split_and!; [split|by intros|].
  - rewrite E2, T1, Ed. simpl. by rewrite Hfl.
  - rewrite Ee, T2, Ed. simpl. by rewrite Hdl.
  - by rewrite Hc.
  - by rewrite Hrc.
Qed.

Lemma conserves_lease s s' e :
  tinv s -> terminal (sd s) = Some e -> terminal_in_flight (sd s) = false ->
  sd s' = set_terminal (sd s) None true (terminal_delivered (sd s)) ->
  receipts s' = receipts s ++ [mkReceipt (Some (Err e)) [] [] true] -> ended s' = ended s ->
  conserves s s'.
Proof.
  intros [T1 T2 T3] Ht Hf Ed Er Ee. rewrite Hf in T1.
  assert (E2 : length (terminal_receipts s') = 1).
  { unfold terminal_receipts in *. rewrite Er, filter_app, length_app, T1.
    by rewrite filter_cons_True. }
  assert (Hc : terminal_count s' = terminal_count s).
  { unfold terminal_count. rewrite Ed, E2, Ee, Ht, T1. simpl. lia. }
  split_and!; [split|lia|by rewrite Ed].
  - by rewrite E2, Ed.
  - by rewrite Ee, T2, Ed.
  - lia.
Qed.

Lemma conserves_handover s s' r e i :
  tinv s -> receipts s !! i = Some r -> rc_terminal r = true ->
  sd s' = finish_terminal (sd s) e -> receipts s' = delete i (receipts s) ->
  length (ended s') = length (ended s) + (1 - opt_count e) -> conserves s s'.
Proof.
  intros [T1 T2 T3] Hi Hrt Ed Er Ee.
  pose proof (terminal_receipts_delete s s' i r Hi Er) as Hd. rewrite Hrt in Hd.
  assert (Hfl : terminal (sd s) = None
                /\ terminal_delivered (sd s) = false /\ length (terminal_receipts s') = 0).
  { unfold terminal_count in T3. destruct (terminal_in_flight (sd s)), (terminal (sd s)),
      (terminal_delivered (sd s)); simpl in *; split_and!; try done; lia. }
  destruct Hfl as (Htm & Hdl & E2). rewrite Hdl in T2.
  assert (Hc : terminal_count s' = if decide (receiver_closed (sd s) = true /\ is_Some e) then 0 else 1).
  { unfold terminal_count. rewrite Ed, E2, Ee, T2. destruct e; simpl.
    - destruct (receiver_closed (sd s)); rewrite ?Htm; simpl; repeat case_decide; naive_solver.
    - rewrite Htm. rewrite decide_False; [done|]. by intros [_ [? [=]]]. }
  split_and!; [split|..].
  - rewrite E2, Ed. by destruct e.
  - rewrite Ee, T2, Ed. destruct e; simpl; by rewrite ?Hdl.
  - rewrite Hc. case_decide; lia.
  - rewrite Hc, Ed. destruct e; simpl; intros Hrc _; rewrite decide_False; naive_solver congruence.
  - rewrite Ed. by destruct e.
Qed.

Lemma conserves_close s s' :
  tinv s -> sd s' = sd_close (sd s) -> receipts s' = receipts s -> ended s' = ended s ->
  conserves s s'.
Proof.
  intros [T1 T2 T3] Ed E2%terminal_receipts_eq Ee. split_and!; [split|by rewrite Ed|by rewrite Ed].
  - by rewrite E2, Ed.
  - by rewrite Ee, Ed.
  - unfold terminal_count in *. rewrite Ed, E2, Ee. simpl. lia.
Qed.

Lemma tinv_step s s' : tinv s -> terminal_step s s' -> conserves s s'.
Proof.
  intros T [(Hs & Hr & He)|[(e & ? & ? & ?)|[(e & ? & ? & ? & ? & ?)|
    [(r & e & i & ? & ? & ? & ? & ?)|(? & ? & ?)]]]].
  - destruct (tinv_same _ _ Hs Hr He) as [H1 H2]. split_and!; [auto|lia|].
    destruct Hs as (_ & _ & _ & ->). done.
  - by eapply conserves_fail.
  - by eapply conserves_lease.
  - by eapply conserves_handover.
  - by eapply conserves_close.
Qed.

Lemma tinv_init : tinv dsys_new.
Proof. split; try done. unfold terminal_count. simpl. lia. Qed.

Lemma reachable_tinv acts s : drun acts dsys_new = Some s -> sinv s /\ hsys s /\ tinv s.
Proof.
  apply (drun_ind (fun s => sinv s /\ hsys s /\ tinv s)).
  - intros s0 a s1 (I & H & T) E. split_and!; eauto using sinv_step, hsys_step.
    by destruct (tinv_step s0 s1 T (dstep_terminal _ _ _ I E)).
  - split_and!; [apply sinv_init|apply hsys_init|apply tinv_init].
Qed.

Lemma run_conserves acts s s' :
  sinv s -> tinv s -> drun acts s = Some s' ->
  (receiver_closed (sd s') = false -> terminal_count s = 1 -> terminal_count s' = 1)
  /\ (receiver_closed (sd s) = true -> receiver_closed (sd s') = true).
Proof.
  revert s. induction acts as [|a acts IH]; intros s I T; simpl; [by intros [= <-]|].
  destruct (dexec s a) as [s1|] eqn:E; [|done]. simpl. intros Hr.
  destruct (tinv_step s s1 T (dstep_terminal _ _ _ I E)) as (T1 & H1 & H2).
  destruct (IH s1 (sinv_step _ _ _ I E) T1 Hr) as [H3 H4]. split; [|auto].
  intros Hrc Hc. apply H3; [done|]. apply H1; [|done].
  destruct (receiver_closed (sd s1)) eqn:E1; [|done]. by rewrite H4 in Hrc.
Qed.

(** ** The frozen queue *)

Definition out_ids (s : DSys) : list nat :=
  (match reader s with RFrozen sel => sel.*1 | _ => [] end) ++ (receipts s ≫= rc_frozen).

Definition open_drain (s : DSys) : Prop :=
  frozen (sd s) = true /\ freezing (sd s) = false /\ receiver_closed (sd s) = false
  /\ terminal (sd s) = None /\ terminal_in_flight (sd s) = false /\ terminal_delivered (sd s) = false.

(** Where a frozen image can be: waiting, leased, acknowledged, or made
    superfluous by a row acknowledged from before the drain. *)
Definition accounted (s : DSys) (id : nat) (f : FrozenImage) : Prop :=
  id ∈ frozen_queue (sd s) \/ id ∈ out_ids s \/ id ∈ frozen_done s
  \/ exists m, members (sd s) !! fr_key f = Some m /\ covered_by f m = true.

Record finv (s : DSys) : Prop := mkFinv {
  fi_before : frozen (sd s) = false \/ freezing (sd s) = true ->
    frozen_queue (sd s) = [] /\ frozen_images (sd s) = [];
  fi_bound id : id ∈ frozen_queue (sd s) -> id < length (frozen_images (sd s));
  fi_sorted : StronglySorted lt (frozen_queue (sd s));
  fi_account : open_drain s -> forall id f, frozen_images (sd s) !! id = Some f -> accounted s id f
}.

Section Requeue.
Implicit Types (q ids : list nat).

Lemma sorted_insert q id :
  StronglySorted lt q -> id ∉ q ->
  let i := match list_find (fun k => id < k) q with Some (i, _) => i | None => length q end in
  StronglySorted lt (take i q ++ id :: drop i q).
Proof.
  induction q as [|k q IH]; intros Hs Hid; [by repeat constructor|].
  apply StronglySorted_inv in Hs as [Hs Hk]. rewrite Forall_forall in Hk.
  cbn [list_find]. case_decide as Hlt.
  - cbn. constructor; [constructor; [done|by apply Forall_forall]|].
    apply Forall_cons. split; [lia|]. apply Forall_forall. intros x ?%Hk. lia.
  - assert (Hki : k < id). { assert (k <> id) by (intros ->; apply Hid; left). lia. }
    assert (Hid' : id ∉ q) by (intros ?; apply Hid; by right). specialize (IH Hs Hid').
    assert (Hall : forall i, Forall (lt k) (take i q ++ id :: drop i q)).
    { intros i. apply Forall_app. split; [by apply Forall_take, Forall_forall|].
      apply Forall_cons. split; [done|]. by apply Forall_drop, Forall_forall. }
    destruct (list_find _ q) as [[i y]|]; cbn in *; by constructor.
Qed.

Lemma requeue_frozen_spec n q id :
  StronglySorted lt q ->
  StronglySorted lt (requeue_frozen n q id)
  /\ forall x, x ∈ requeue_frozen n q id <-> x ∈ q \/ x = id /\ id < n.
Proof.
  intros Hs. unfold requeue_frozen. case_decide as Hd.
  - split; [done|]. intros x. split; [by left|]. intros [?|[-> ?]]; [done|].
    destruct Hd; [lia|done].
  - apply Decidable.not_or in Hd as [Hn Hq]. split; [by apply sorted_insert|]. intros x.
    rewrite elem_of_app, elem_of_cons.
    match goal with |- context [take ?i q] =>
      assert (E : x ∈ q <-> x ∈ take i q \/ x ∈ drop i q) by (by rewrite <- elem_of_app, take_drop)
    end.
    assert (id < n) by lia. naive_solver.
Qed.

Lemma requeue_fold_spec n ids q :
  StronglySorted lt q ->
  StronglySorted lt (fold_left (requeue_frozen n) ids q)
  /\ forall x, x ∈ fold_left (requeue_frozen n) ids q <-> x ∈ q \/ x ∈ ids /\ x < n.
Proof.
  revert q. induction ids as [|id ids IH]; intros q Hs; simpl.
  - split; [done|]. intros x. rewrite elem_of_nil. tauto.
  - destruct (requeue_frozen_spec n q id Hs) as [H1 H2]. destruct (IH _ H1) as [H3 H4].
    split; [done|]. intros x. rewrite H4, H2, elem_of_cons. naive_solver.
Qed.

(** A frozen selection takes a prefix, dropping only covered images. *)
Lemma select_frozen_spec images ms q n epoch :
  (forall id, id ∈ q -> id < length images) ->
  exists sel q', select_frozen images ms q n epoch = Some (sel, q')
    /\ (exists p, q = p ++ q') /\ sel.*1 `sublist_of` q
    /\ (forall id f, (id, f) ∈ sel -> images !! id = Some f /\ (forall e, epoch = Some e ->
          recovery_epoch f = e))
    /\ (forall id1 f1 id2 f2, (id1, f1) ∈ sel -> (id2, f2) ∈ sel ->
          recovery_epoch f1 = recovery_epoch f2)
    /\ (forall id, id ∈ q -> id ∈ q' \/ id ∈ sel.*1 \/
          exists f m, images !! id = Some f /\ ms !! fr_key f = Some m /\ covered_by f m = true).
Proof.
  revert n epoch. induction q as [|id q IH]; intros n epoch Hb.
  { exists [], []. split; [by destruct n|]. split; [by exists []|]. split; [done|].
    split_and!; intros; by set_solver. }
  destruct n as [|n].
  { exists [], (id :: q). split; [done|]. split; [by exists []|].
    split; [apply sublist_nil_l|]. set_solver. }
  destruct (lookup_lt_is_Some_2 images id) as [f Hf]; [apply Hb; left|].
  assert (Hb' : forall i, i ∈ q -> i < length images) by (intros; apply Hb; by right).
  simpl. rewrite Hf. simpl. set (mem := ms !! fr_key f).
  destruct (match mem with Some m => covered_by f m | None => false end) eqn:Ec.
  { destruct (IH (S n) epoch Hb') as (sel & q' & E & [p Ep] & Hsl & H1 & H2 & H3).
    exists sel, q'. split; [exact E|]. split; [exists (id :: p); by rewrite Ep|].
    split; [by apply sublist_cons|]. split_and!; [done..|]. intros i [-> |Hi]%elem_of_cons; [|auto].
    right; right. destruct mem as [m|] eqn:Em; [|done]. by exists f, m. }
  match goal with |- context [if ?b then Some ([], id :: q) else _] => destruct b eqn:Eb end.
  { exists [], (id :: q). split; [done|]. split; [by exists []|].
    split; [apply sublist_nil_l|]. set_solver. }
  destruct (IH n (Some (recovery_epoch f)) Hb') as (sel & q' & E & [p Ep] & Hsl & H1 & H2 & H3).
  rewrite E. exists ((id, f) :: sel), q'. split; [done|].
  split; [exists (id :: p); by rewrite Ep|]. split; [by apply sublist_skip|].
  assert (Hep : forall i g, (i, g) ∈ sel -> recovery_epoch g = recovery_epoch f)
    by (intros i g Hi; by apply (H1 i g)).
  apply orb_false_iff in Eb as [_ Eb]. split_and!.
  - intros i g [[= -> ->]|Hi]%elem_of_cons.
    + split; [done|]. intros e ->. by destruct e, (recovery_epoch f).
    + split; [by apply (H1 i g)|]. intros e ->. rewrite (Hep _ _ Hi).
      by destruct e, (recovery_epoch f).
  - intros i1 g1 i2 g2 [[= -> ->]|Hi1]%elem_of_cons [[= -> ->]|Hi2]%elem_of_cons; auto.
    + by rewrite (Hep _ _ Hi2).
    + eauto.
    + eauto.
  - intros i [-> |Hi]%elem_of_cons; [right; left; by left|].
    destruct (H3 i Hi) as [?|[?|?]]; [by left|right; left; by right|by right; right].
Qed.
End Requeue.

Section Frozen.
Implicit Types s : DSys.

Lemma open_count s : tinv s -> open_drain s -> terminal_count s = 0.
Proof.
  intros [T1 T2 _] (_ & _ & _ & Ht & Hf & Hd). rewrite Hf in T1. rewrite Hd in T2.
  unfold terminal_count. by rewrite Ht, T1, T2.
Qed.

Lemma open_back s s' :
  tinv s -> conserves s s' -> frozen (sd s') = frozen (sd s) -> freezing (sd s') = freezing (sd s) ->
  open_drain s' -> open_drain s.
Proof.
  intros T (T' & H1 & H2) Ef Ez O. pose proof (open_count _ T' O) as Hc.
  destruct O as (Of & Oz & Or & _). destruct T as [T1 T2 T3].
  assert (Hc0 : terminal_count s = 0).
  { destruct (terminal_count s) as [|[|n]] eqn:E; [done| |lia]. rewrite H1 in Hc; done. }
  unfold terminal_count in Hc0.
  assert (receiver_closed (sd s) = false)
    by (destruct (receiver_closed (sd s)); [by rewrite H2 in Or|done]).
  destruct (terminal_in_flight (sd s)) eqn:E1, (terminal_delivered (sd s)) eqn:E2;
    try (exfalso; lia).
  split_and!; try congruence. by destruct (terminal (sd s)).
Qed.

(** Steps that keep the frozen images and their queue. *)
Lemma finv_frame s s' :
  finv s -> frozen_queue (sd s') = frozen_queue (sd s) ->
  frozen_images (sd s') = frozen_images (sd s) -> frozen (sd s') = frozen (sd s) ->
  freezing (sd s') = freezing (sd s) ->
  (open_drain s' -> open_drain s) ->
  (open_drain s -> (forall id, id ∈ out_ids s -> id ∈ out_ids s' \/ id ∈ frozen_done s')
     /\ (forall id, id ∈ frozen_done s -> id ∈ frozen_done s')
     /\ (forall k m, members (sd s) !! k = Some m -> exists m', members (sd s') !! k = Some m'
           /\ forall f, covered_by f m = true -> covered_by f m' = true)) ->
  finv s'.
Proof.
  intros [F1 F2 F3 F4] Eq Ei Ef Ez Ho Hk. split; rewrite ?Eq, ?Ei, ?Ef, ?Ez; try done.
  intros O id f Hf. specialize (Ho O). destruct (Hk Ho) as (H1 & H2 & H3).
  destruct (F4 Ho id f Hf) as [H|[H|[H|(m & Hm & Hc)]]]; unfold accounted; rewrite ?Eq; eauto.
  - naive_solver.
  - destruct (H3 _ _ Hm) as (m' & ? & Hc'). eauto 10.
Qed.

(** The common case: receiver, receipts and history stay, and the members do once
    the drain is prepared. *)
Lemma finv_put s s' :
  finv s -> frozen_queue (sd s') = frozen_queue (sd s) ->
  frozen_images (sd s') = frozen_images (sd s) -> frozen (sd s') = frozen (sd s) ->
  freezing (sd s') = freezing (sd s) -> (open_drain s' -> open_drain s) ->
  out_ids s' = out_ids s -> frozen_done s' = frozen_done s ->
  (frozen (sd s) = true -> freezing (sd s) = false -> members (sd s') = members (sd s)) ->
  finv s'.
Proof.
  intros F E1 E2 E3 E4 Ho E5 E6 Hm. eapply finv_frame; eauto. intros (Of & Oz & _).
  rewrite E5, E6, (Hm Of Oz). split_and!; eauto.
Qed.

Lemma covered_finish f c r m : covered_by f m = true -> covered_by f (finish_member c r m) = true.
Proof.
  unfold finish_member, covered_by. destruct c; [|done]. simpl.
  intros [Ha Hi]%andb_true_iff. apply andb_true_iff. split.
  - destruct (acknowledged m) as [a|]; [|done]. apply bool_decide_eq_true in Ha.
    apply bool_decide_eq_true. lia.
  - case_decide as Hd; [|done]. by destruct (fr_invalidated f).
Qed.

Lemma covered_finish_fold c cq keys d k m :
  members d !! k = Some m ->
  exists m', members (fold_left (finish_one c true cq) keys d) !! k = Some m'
    /\ forall f, covered_by f m = true -> covered_by f m' = true.
Proof.
  revert d m. induction keys as [|r keys IH]; intros d m Hm; simpl; [eauto|].
  assert (Hone : exists m1, members (finish_one c true cq d r) !! k = Some m1
    /\ forall f, covered_by f m = true -> covered_by f m1 = true).
  { rewrite finish_one_members. simpl. destruct (members d !! rk_key r) as [m0|] eqn:E; [|eauto].
    rewrite lookup_insert. destruct (decide (rk_key r = k)) as [Hek|]; [|eauto]. rewrite Hek in E. simplify_eq.
    eexists. split; [done|]. intros f Hf. by apply (covered_finish f c r) in Hf. }
  destruct Hone as (m1 & Hm1 & H1). destruct (IH _ _ Hm1) as (m' & ? & ?). eauto.
Qed.

(** A terminal receipt ends the drain. *)
Lemma finv_terminal s s' e :
  finv s -> sd s' = finish_terminal (sd s) e -> finv s'.
Proof.
  intros [F1 F2 F3 F4] E. assert (Hno : ~ open_drain s').
  { intros (_ & _ & Or & Ot & _ & Od). rewrite E in *. destruct e; simpl in *; [|done].
    by rewrite Or in Ot. }
  split; [..|done]; rewrite E; destruct e; simpl; try done.
  - intros H. by destruct (F1 H).
  - by intros id ?%not_elem_of_nil.
  - constructor.
Qed.

Lemma out_ids_delete s i r id :
  receipts s !! i = Some r ->
  id ∈ out_ids s -> id ∈ rc_frozen r \/ id ∈ out_ids (set_receipts s (delete i (receipts s))).
Proof.
  intros Hi. unfold out_ids. rewrite !elem_of_app. simpl.
  assert (E : receipts s ≫= rc_frozen ≡ₚ rc_frozen r ++ (delete i (receipts s) ≫= rc_frozen))
    by (rewrite (delete_Permutation _ _ _ Hi) at 1; by rewrite bind_cons).
  rewrite E, elem_of_app. tauto.
Qed.

(** A dropped receipt puts its images back, in order. *)
Lemma finv_requeue s s' ids :
  finv s -> sd s' = finish_frozen (sd s) ids false -> (open_drain s' -> open_drain s) ->
  (forall id, id ∈ out_ids s -> id ∈ ids \/ id ∈ out_ids s') -> frozen_done s' = frozen_done s ->
  finv s'.
Proof.
  intros [F1 F2 F3 F4] E Ho Hout Hd.
  assert (Hsame : members (sd s') = members (sd s) /\ frozen_images (sd s') = frozen_images (sd s)
    /\ frozen (sd s') = frozen (sd s) /\ freezing (sd s') = freezing (sd s)).
  { rewrite E. unfold finish_frozen. by case_match. }
  destruct Hsame as (Em & Ei & Ef & Ez).
  destruct (requeue_fold_spec (length (frozen_images (sd s))) ids _ F3) as [Hs Hq].
  assert (Hfq : frozen_queue (sd s') = frozen_queue (sd s)
    \/ frozen_queue (sd s') = fold_left (requeue_frozen (length (frozen_images (sd s)))) ids
                                 (frozen_queue (sd s))).
  { rewrite E. unfold finish_frozen. case_match; auto. }
  split; rewrite ?Ei, ?Ef, ?Ez.
  - intros Hb. destruct (F1 Hb) as [E1 E2]. split; [|done]. destruct Hfq as [->|Hfq]; [done|].
    apply elem_of_nil_inv. intros x. rewrite Hfq, Hq, E1, E2, elem_of_nil. simpl. naive_solver lia.
  - intros id. destruct Hfq as [->| ->]; [apply F2|]. rewrite Hq. naive_solver.
  - by destruct Hfq as [->| ->].
  - intros O id f Hf. specialize (Ho O). apply lookup_lt_Some in Hf as Hlt.
    assert (Hfq' : forall x, x ∈ frozen_queue (sd s') <-> x ∈ frozen_queue (sd s)
                     \/ x ∈ ids /\ x < length (frozen_images (sd s))).
    { intros x. rewrite <- Hq. rewrite E. unfold finish_frozen.
      destruct Ho as (-> & _ & -> & -> & -> & ->). done. }
    destruct (F4 Ho id f Hf) as [H|[H|[H|H]]]; unfold accounted; rewrite Hfq', Em, ?Hd; auto.
    destruct (Hout _ H); auto.
Qed.

Lemma finv_end s i r c :
  finv s -> tinv s -> receipts s !! i = Some r -> conserves s (end_receipt s i r c) ->
  finv (end_receipt s i r c).
Proof.
  intros F T Hi Hc.
  pose proof (fun id => out_ids_delete s i r id Hi) as Hout.
  unfold end_receipt in *. destruct (rc_terminal r) eqn:Et.
  { generalize (if c then None else receipt_error r) as e. intros e.
    destruct e; by eapply finv_terminal. }
  destruct (rc_frozen r) as [|id0 ids] eqn:Ef.
  - assert (Hfr : forall s', sd s' = finish (sd s) (rc_keys r) c ->
      out_ids s' = out_ids (set_receipts s (delete i (receipts s))) ->
      frozen_done s' = frozen_done s -> conserves s s' -> finv s').
    { intros s' E1 E2 E3 Hcs.
      destruct (finish_shape (sd s) (rc_keys r) c) as (ms & q & Es).
      eapply finv_frame; [exact F|rewrite E1, Es; done ..| |].
      - apply open_back; [exact T|exact Hcs|by rewrite E1, Es|by rewrite E1, Es].
      - intros (Of & _). split_and!.
        + intros id Hid. destruct (Hout id Hid) as [H|H]; [set_solver|]. left. by rewrite E2.
        + by rewrite E3.
        + intros k m Hm. rewrite E1. unfold finish. rewrite Of. simpl.
          by apply covered_finish_fold. }
    destruct c; (eapply Hfr; [done|done|simpl; by rewrite ?app_nil_r|done]).
  - destruct c.
    + eapply finv_frame; [exact F|done..| |].
      * eapply open_back; [done..].
      * intros _. simpl. split_and!; [|set_solver|eauto].
        intros id Hid. destruct (Hout id Hid) as [H|H]; [set_solver|by left].
    + eapply finv_requeue; [exact F|done| |exact Hout|done].
      eapply open_back; [done..| |]; simpl; unfold finish_frozen; by case_match.
Qed.

(** What the frozen part of the state sees of another operation. *)
Definition frozen_same (d d' : DirtyState) : Prop :=
  frozen_queue d' = frozen_queue d /\ frozen_images d' = frozen_images d /\ frozen d' = frozen d
  /\ freezing d' = freezing d /\ (frozen d = true -> freezing d = false -> members d' = members d).

Lemma frozen_same_refl d : frozen_same d d.
Proof. by split_and!. Qed.

Lemma frozen_same_ops d k f rev inv lbl row b :
  frozen_same d (sd_register d k f rev lbl) /\ frozen_same d (mark d k rev inv)
  /\ frozen_same d (retire d k row) /\ frozen_same d (detach d k)
  /\ frozen_same d (close_source d) /\ frozen_same d (read_buffer d k)
  /\ frozen_same d (recycle_values d b).
Proof.
  assert (He : forall m, frozen d = false -> frozen_same d (enqueue d k m)).
  { intros m Hf. unfold enqueue. case_match; split_and!; simpl; congruence. }
  split_and!.
  - unfold sd_register. case_match eqn:E; [apply frozen_same_refl|].
    apply orb_false_iff in E as [_ Hf]. split_and!; simpl; congruence.
  - unfold mark. case_match eqn:E; [apply frozen_same_refl|].
    apply orb_false_iff in E as [_ Hf]. repeat case_match; auto using frozen_same_refl.
  - unfold retire. case_match eqn:E; [apply frozen_same_refl|].
    apply orb_false_iff in E as [_ Hf]. repeat case_match; auto using frozen_same_refl.
  - unfold detach. case_match eqn:E; [apply frozen_same_refl|].
    apply orb_false_iff in E as [Hf _]. split_and!; simpl; congruence.
  - unfold close_source. case_match eqn:E; split_and!; try done. simpl in E.
    apply andb_true_iff in E as [?%negb_true_iff _]. simpl. congruence.
  - unfold read_buffer. case_match; by split_and!.
  - unfold recycle_values. repeat case_match; by split_and!.
Qed.

Lemma finv_same s s' :
  finv s -> tinv s -> conserves s s' -> frozen_same (sd s) (sd s') -> out_ids s' = out_ids s ->
  frozen_done s' = frozen_done s -> finv s'.
Proof.
  intros F T Hc (E1 & E2 & E3 & E4 & E5) E6 E7. eapply finv_put; eauto. by eapply open_back.
Qed.

(** Steps before the drain is prepared, and those that close the receiver, have
    nothing to account for. *)
Lemma finv_empty s : frozen_queue (sd s) = [] -> frozen_images (sd s) = [] -> finv s.
Proof.
  intros E1 E2. split; rewrite ?E1, ?E2; [done|by intros ? ?%not_elem_of_nil|constructor|done].
Qed.

Lemma finv_ended s s' :
  finv s -> frozen_images (sd s') = frozen_images (sd s) -> frozen_queue (sd s') = [] ->
  frozen (sd s') = frozen (sd s) -> freezing (sd s') = freezing (sd s) -> ~ open_drain s' -> finv s'.
Proof.
  intros [F1 F2 F3 F4] E1 E2 E3 E4 Hn. split; rewrite ?E1, ?E2, ?E3, ?E4; try done.
  - intros H. by destruct (F1 H).
  - by intros ? ?%not_elem_of_nil.
  - constructor.
Qed.

Lemma finv_fail s s' e :
  finv s -> tinv s -> conserves s s' -> sd s' = fail (sd s) e -> out_ids s' = out_ids s ->
  frozen_done s' = frozen_done s -> finv s'.
Proof.
  intros F T Hc E E1 E2. unfold fail in E. case_match.
  - apply (finv_same s); [done..| |done|done]. rewrite E. apply frozen_same_refl.
  - eapply finv_ended; [exact F|by rewrite E..|]. intros (_ & _ & _ & Ot & _).
    rewrite E in Ot. simpl in Ot. by destruct (terminal (sd s)).
Qed.

Lemma finv_select s limit s' :
  sinv s -> finv s -> tinv s -> conserves s s' -> reader s = RIdle ->
  reader_select s limit = Some s' -> finv s'.
Proof.
  intros I F T Hc Hr. unfold reader_select. destruct (try_select _ _) as [[d sel]|] eqn:E; [|done].
  simpl. intros [= <-]. pose proof (try_select_cases _ _ _ _ E) as HS. clear E.
  destruct HS as [|e He _ _ _|l q Hfr Hz Ht Hq|l ms q n h Hfr Hz Hqn _].
  - by apply (finv_same s).
  - apply (finv_same s); [done..|by split_and!| |done]. unfold out_ids. simpl.
    rewrite bind_app. simpl. by rewrite app_nil_r.
  - destruct F as [F1 F2 F3 F4].
    destruct (select_frozen_spec (frozen_images (sd s)) (members (sd s)) (frozen_queue (sd s))
                (limit `max` 1) None F2) as (sel & q' & Es & [p Ep] & _ & H1 & _ & H3).
    rewrite Hq in Es. simplify_eq.
    set (s' := match sel with [] => _ | _ => _ end) in *.
    assert (Es' : sd s' = set_frozen_queue (sd s) q' /\ out_ids s' = sel.*1 ++ out_ids s
                  /\ frozen_done s' = frozen_done s).
    { unfold s', out_ids. destruct sel; simpl; rewrite ?Hr; done. }
    destruct Es' as (E1 & E2 & E3). clearbody s'.
    assert (Hsub : forall id, id ∈ q' -> id ∈ frozen_queue (sd s)) by (rewrite Ep; set_solver).
    split; rewrite ?E1; simpl.
    + rewrite Hfr, Hz. naive_solver.
    + intros id Hid%Hsub. auto.
    + rewrite Ep in F3. by eapply StronglySorted_app_1_r.
    + intros O id f Hf.
      assert (O' : open_drain s) by (unfold open_drain in *; by rewrite E1 in O).
      unfold accounted. rewrite E1, E2, E3. simpl.
      destruct (F4 O' id f Hf) as [H|[H|[H|H]]]; auto; [|set_solver].
      destruct (H3 _ H) as [?|[?|(f0 & m & ? & ? & ?)]]; [auto|set_solver|].
      simplify_eq. eauto 10.
  - assert (Hnew : forall s', sd s' = set_spare (set_dirty (sd s) ms q) n h -> finv s').
    { intros s' E. destruct F as [F1 _ _ _]. destruct F1 as [? ?]; [by left|].
      apply finv_empty; by rewrite E. }
    by destruct l; apply Hnew.
Qed.

Lemma sorted_seq i n : StronglySorted lt (seq i n).
Proof.
  revert i. induction n as [|n IH]; intros i; simpl; constructor; [done|].
  apply Forall_forall. intros x. rewrite elem_of_seq. lia.
Qed.

(** Installing the frozen images queues them all. *)
Lemma finv_install s snaps s' :
  sd s' = prep_install (sd s) (epoch_images snaps) ->
  frozen_queue (sd s) = [] -> finv s'.
Proof.
  intros E Hq. split; rewrite E; simpl.
  - naive_solver.
  - intros id. case_match; [rewrite elem_of_seq; lia|]. rewrite Hq. by intros ?%not_elem_of_nil.
  - case_match; [|rewrite Hq; constructor]. apply sorted_seq.
  - intros (_ & _ & Or & Ot & _ & Od) id f Hf. rewrite E in Or, Ot, Od. simpl in Or, Ot, Od.
    left. rewrite E. simpl. rewrite Or, Od, Ot. simpl. apply elem_of_seq.
    apply lookup_lt_Some in Hf. lia.
Qed.

Lemma prep_phase s : sinv s ->
  match reader s with
  | RPrep _ _ | RPrepStore _ _ _ _ | RPrepRemove _ _ _ | RPrepInstall _ => freezing (sd s) = true
  | RIdle | RFrozen _ => freezing (sd s) = false
  | _ => frozen (sd s) = false
  end.
Proof. intros I. pose proof (si_pc _ I) as Hp. destruct (reader s); naive_solver. Qed.

Lemma out_ids_insert s i r r' :
  receipts s !! i = Some r -> rc_frozen r' = rc_frozen r ->
  out_ids (set_receipts s (<[i := r']> (receipts s))) = out_ids s.
Proof.
  intros Hi E. unfold out_ids. simpl. f_equal.
  rewrite insert_take_drop by (by eapply lookup_lt_Some).
  rewrite <- (take_drop_middle (receipts s) i r) at 3 by done.
  by rewrite !bind_app, !bind_cons, E.
Qed.

(** Before the drain is prepared there is nothing to account for. *)
Lemma finv_before s :
  finv s -> frozen (sd s) = false \/ freezing (sd s) = true ->
  forall s1, frozen_queue (sd s1) = frozen_queue (sd s) ->
    frozen_images (sd s1) = frozen_images (sd s) -> finv s1.
Proof.
  intros F H s1 E1 E2. destruct (fi_before _ F H). apply finv_empty; congruence.
Qed.

Lemma finv_reader s s' :
  sinv s -> tinv s -> finv s -> conserves s s' ->
  (exists image, reader_snapshot s image = Some s') \/ reader_lock s = Some s'
  \/ (exists e, reader_batch s e = Some s') -> finv s'.
Proof.
  intros I T F Hc H. pose proof (prep_phase _ I) as Hph. pose proof (finv_before _ F) as Hempty.
  destruct H as [[image E]|[E|[e E]]].
  - unfold reader_snapshot in E. destruct (reader s); try done.
    + destruct todo as [|sel todo]; [done|]. destruct (sel_final_image sel) as [[rev row]|].
      { simplify_eq. apply Hempty; auto. }
      destruct (capture s _ image) as [s1|] eqn:Ec; simpl in E; [|done]; simplify_eq.
      apply capture_shape in Ec as (E1 & _). apply Hempty; simpl; rewrite ?E1; auto.
    + destruct todo as [|[[k f] []] todo]; [done|simplify_eq; apply Hempty; auto|].
      destruct (capture s _ image) as [s1|] eqn:Ec; simpl in E; [|done]; simplify_eq.
      apply capture_shape in Ec as (E1 & _). apply Hempty; simpl; rewrite ?E1; auto.
  - unfold reader_lock, prep_take, prep_store in E.
    destruct (reader s); try done;
      try (repeat case_match; simplify_eq; apply Hempty; by auto).
    simplify_eq. eapply finv_install; [done|]. apply (fi_before _ F). auto.
  - unfold reader_batch in E. destruct (reader s) eqn:Hr; try done.
    + destruct todo; [|done]. destruct keys; simplify_eq; apply Hempty; auto.
    + simplify_eq. eapply finv_frame; [exact F|done..|by apply open_back|].
      intros _. split_and!; [|done|eauto]. intros id. unfold out_ids. simpl.
      rewrite Hr, bind_app. simpl. rewrite app_nil_r, !elem_of_app. tauto.
Qed.

Lemma finv_step s a s' :
  sinv s -> tinv s -> finv s -> dexec s a = Some s' -> finv s'.
Proof.
  intros I T F E. pose proof (prep_phase _ I) as Hph.
  pose proof (tinv_step _ _ T (dstep_terminal _ _ _ I E)) as Hc.
  pose proof (finv_before _ F) as Hempty.
  destruct a; simpl in E.
  - destruct (bool_decide _); [|done]. simplify_eq. apply (finv_same s); [done..| |done|done]. simpl.
    by destruct (frozen_same_ops (sd s) (next_key s) f rev false lbl (row0 true) true) as (? & _).
  - destruct (frozen_same_ops (sd s) key 0 rev inv "" (row0 true) true) as (_ & ? & _).
    destruct (feed_allows _ _ _ _); [|done].
    destruct (sets_marker _ _ _); simplify_eq; by apply (finv_same s).
  - destruct (frozen_same_ops (sd s) key 0 0 false "" row true) as (_ & _ & ? & _).
    destruct (row_valid row); simplify_eq; by apply (finv_same s).
  - destruct (frozen_same_ops (sd s) key 0 0 false "" (row0 true) true) as (_ & _ & _ & ? & _).
    simplify_eq; by apply (finv_same s).
  - simplify_eq. by eapply (finv_fail s).
  - destruct (frozen_same_ops (sd s) 0 0 0 false "" (row0 true) true) as (_ & _ & _ & _ & ? & _).
    simplify_eq; by apply (finv_same s).
  - destruct (is_idle (reader s)) eqn:Hi; [|done]. eapply finv_select; [done..| |done].
    by destruct (reader s).
  - destruct (reader s); try done; destruct alive; simplify_eq; try done; try by apply finv_empty.
    apply Hempty; auto.
  - eapply finv_reader; eauto.
  - eapply finv_reader; eauto.
  - eapply finv_reader; eauto.
  - destruct (is_idle (reader s)) eqn:Hi; [|done]. unfold prep_begin in E.
    destruct (_ || freezing (sd s)) eqn:Eb; simplify_eq; [done|].
    apply orb_false_iff in Eb as [[_ Hf]%orb_false_iff Hz]. apply Hempty; auto.
  - destruct (is_idle (reader s)); [|done]. simplify_eq. by apply finv_empty.
  - destruct (frozen_same_ops (sd s) key 0 0 false "" (row0 true) true) as (_ & _ & _ & _ & _ & ? & _).
    simplify_eq; by apply (finv_same s).
  - destruct (frozen_same_ops (sd s) 0 0 0 false "" (row0 true) spilled) as (_ & _ & _ & _ & _ & _ & ?).
    simplify_eq; by apply (finv_same s).
  - destruct (receipts s !! i) as [r|] eqn:Hi; [|done]. simpl in E. simplify_eq.
    apply (finv_same s); [done..|apply frozen_same_refl| |done]. by eapply out_ids_insert.
  - destruct (receipts s !! i) as [r|] eqn:Hi; [|done]. simpl in E.
    destruct (rc_result r); simplify_eq.
    apply (finv_same s); [done..|apply frozen_same_refl| |done]. by eapply out_ids_insert.
  - destruct (receipts s !! i) as [r|] eqn:Hi; [|done]. simpl in E. simplify_eq.
    by apply finv_end.
  - destruct (receipts s !! i) as [r|] eqn:Hi; [|done]. simpl in E. simplify_eq.
    by apply finv_end.
Qed.

Lemma finv_init : finv dsys_new.
Proof. by apply finv_empty. Qed.
End Frozen.


(** ** What a drain owes *)

(** Revisions of members: bounded by [u64], known to the feed while the member is
    not retired, and at least that of the stored final image. *)
Record vinv (s : DSys) : Prop := mkVinv {
  vi_max k m : members (sd s) !! k = Some m -> (revision m <= U64_MAX)%Z;
  vi_feed_max k r : feed_rev s !! k = Some r -> (r <= U64_MAX)%Z;
  vi_feed k m : members (sd s) !! k = Some m -> retired m = false ->
    exists r, feed_rev s !! k = Some r /\ (revision m <= r)%Z;
  vi_final k m r row : members (sd s) !! k = Some m -> final_image m = Some (r, row) ->
    (r <= revision m)%Z;
  vi_retired k m : frozen (sd s) = false -> members (sd s) !! k = Some m -> retired m = true ->
    is_Some (final_image m);
  vi_image key r row todo pending : reader s = RPrepStore key (Some (r, row)) todo pending ->
    exists fr, feed_rev s !! key = Some fr /\ (r <= fr)%Z
}.

(** How other threads change members: revisions grow, and a final image is kept or
    replaced by one at the member's revision; retirement needs one. *)
Definition ages (ms ms' : gmap nat DirtyMember) : Prop :=
  forall k m', ms' !! k = Some m' -> exists m, ms !! k = Some m /\ (revision m <= revision m')%Z
    /\ (revision m' <= U64_MAX)%Z /\ (retired m' = false -> retired m = false)
    /\ (final_image m' = final_image m /\ (retired m' = true -> retired m = true)
        \/ exists row, final_image m' = Some (revision m', row) /\ retired m' = true).

Section Ages.
Implicit Types (d : DirtyState) (ms : gmap nat DirtyMember).

Lemma ages_refl ms : (forall k m, ms !! k = Some m -> (revision m <= U64_MAX)%Z) -> ages ms ms.
Proof. intros Hm k m Hk. exists m. split_and!; eauto. lia. Qed.

Lemma ages_sub ms ms' :
  (forall k m, ms !! k = Some m -> (revision m <= U64_MAX)%Z) -> ms' ⊆ ms -> ages ms ms'.
Proof.
  intros Hm Hs k m Hk. exists m. eapply lookup_weaken in Hk; [|done]. split_and!; eauto. lia.
Qed.

(** Members that differ in flags, acknowledgement or marker only. *)
Lemma ages_same ms ms' :
  (forall k m, ms !! k = Some m -> (revision m <= U64_MAX)%Z) ->
  (forall k m', ms' !! k = Some m' -> exists m, ms !! k = Some m /\ revision m' = revision m
     /\ retired m' = retired m /\ final_image m' = final_image m) ->
  ages ms ms'.
Proof.
  intros Hm H k m' Hk. destruct (H _ _ Hk) as (m & Hk' & E1 & E2 & E3). exists m.
  rewrite E1, E2, E3. split_and!; eauto. lia.
Qed.

Lemma ages_insert ms k m m' :
  (forall k m, ms !! k = Some m -> (revision m <= U64_MAX)%Z) -> ms !! k = Some m ->
  (revision m <= revision m' <= U64_MAX)%Z -> (retired m' = false -> retired m = false) ->
  (final_image m' = final_image m /\ (retired m' = true -> retired m = true)
   \/ exists row, final_image m' = Some (revision m', row) /\ retired m' = true) ->
  ages ms (<[k := m']> ms).
Proof.
  intros Hm Hk Hr Ht Hf i mi. rewrite lookup_insert. case_decide; [|by apply ages_refl].
  intros [= <-]. subst. exists m. split_and!; auto; lia.
Qed.

Lemma ages_mark d k rev inv :
  (forall k m, members d !! k = Some m -> (revision m <= U64_MAX)%Z) -> (rev <= U64_MAX)%Z ->
  ages (members d) (members (mark d k rev inv)).
Proof.
  intros Hm Hr. unfold mark. case_match; [by apply ages_refl|].
  destruct (members d !! k) as [m|] eqn:E; [|by apply ages_refl].
  edestruct enqueue_members as [b ->]. eapply ages_insert; [done|exact E|..]; simpl; auto.
  specialize (Hm _ _ E). lia.
Qed.

Lemma ages_retire d k row :
  (forall k m, members d !! k = Some m -> (revision m <= U64_MAX)%Z) ->
  ages (members d) (members (retire d k row)).
Proof.
  intros Hm. unfold retire. case_match; [by apply ages_refl|].
  destruct (members d !! k) as [m|] eqn:E; [|by apply ages_refl].
  edestruct enqueue_members as [b ->]. eapply ages_insert; [done|exact E|..]; simpl;
    [specialize (Hm _ _ E); lia|done|right; eauto].
Qed.

Lemma finish_fold_same c cl cq keys d k m' :
  members (fold_left (finish_one c cl cq) keys d) !! k = Some m' ->
  exists m, members d !! k = Some m /\ revision m' = revision m /\ retired m' = retired m
    /\ final_image m' = final_image m.
Proof.
  revert d. induction keys as [|r keys IH]; intros d; simpl; [eauto|].
  intros (m1 & Hm1 & E1 & E2 & E3)%IH. revert Hm1. rewrite finish_one_members.
  destruct (members d !! rk_key r) as [m|] eqn:E; [|eauto 10].
  case_match; [intros [_ ?]%lookup_delete_Some; eauto 10|].
  rewrite lookup_insert. destruct (decide (rk_key r = k)) as [Hek|]; [|eauto 10].
  intros [= <-]. rewrite Hek in E. exists m. rewrite E1, E2, E3. by destruct c.
Qed.
End Ages.

Lemma vinv_ages s s' :
  vinv s -> ages (members (sd s)) (members (sd s')) -> frozen (sd s') = frozen (sd s) ->
  (forall k r, feed_rev s' !! k = Some r -> (r <= U64_MAX)%Z) ->
  (forall k m, members (sd s') !! k = Some m -> retired m = false ->
     exists r, feed_rev s' !! k = Some r /\ (revision m <= r)%Z) ->
  (forall key r row todo pending, reader s' = RPrepStore key (Some (r, row)) todo pending ->
     exists fr, feed_rev s' !! key = Some fr /\ (r <= fr)%Z) ->
  vinv s'.
Proof.
  intros [V1 V2 V3 V4 V5 V6] Ha Ef Hfm Hfd Him. split; try done.
  - intros k m' Hk. by destruct (Ha _ _ Hk) as (m & _ & _ & ? & _).
  - intros k m' r row Hk Hf. destruct (Ha _ _ Hk) as (m & Hm & Hl & _ & _ & Hfi).
    destruct Hfi as [[E _]|(row' & E & _)]; [|rewrite E in Hf; by simplify_eq].
    rewrite E in Hf. specialize (V4 _ _ _ _ Hm Hf). lia.
  - rewrite Ef. intros k m' Hz Hk Hr. destruct (Ha _ _ Hk) as (m & Hm & _ & _ & _ & Hfi).
    destruct Hfi as [[E Hr']|(row' & E & _)]; rewrite E; eauto.
Qed.

(** The feed revisions known so far only grow. *)
Definition feeds_grow (fr fr' : gmap nat Z) : Prop :=
  forall k r, fr !! k = Some r -> exists r', fr' !! k = Some r' /\ (r <= r')%Z.

Definition in_todo (todo : list (nat * nat * bool)) (k : nat) : Prop := exists f, (k, f, false) ∈ todo.

(** The feeds of the members still to be captured have reached what is owed. *)
Definition start_feed (s : DSys) (todo : list (nat * nat * bool)) : Prop :=
  forall k rev, (k, rev) ∈ drain_start s -> in_todo todo k ->
    exists r, feed_rev s !! k = Some r /\ (rev <= r)%Z.

Definition settled (s : DSys) (k : nat) : Prop :=
  members (sd s) !! k = None \/ exists m, members (sd s) !! k = Some m /\ is_Some (final_image m).

Definition start_ok (s : DSys) : Prop :=
  forall k rev m, (k, rev) ∈ drain_start s -> members (sd s) !! k = Some m ->
    (rev <= revision m)%Z /\ forall r row, final_image m = Some (r, row) -> (rev <= r)%Z.

(** The debt of the drain at each position of the receiver. *)
Definition owed (s : DSys) : Prop :=
  match reader s with
  | RPrep todo pending => start_ok s /\ start_feed s todo
      /\ forall k rev, (k, rev) ∈ drain_start s -> k ∈ pending.*1.*1 /\ (settled s k \/ in_todo todo k)
  | RPrepStore key image todo pending => start_ok s /\ start_feed s todo
      /\ (forall rev r row, (key, rev) ∈ drain_start s -> image = Some (r, row) -> (rev <= r)%Z)
      /\ forall k rev, (k, rev) ∈ drain_start s ->
           k ∈ pending.*1.*1 /\ (settled s k \/ in_todo todo k \/ k = key)
  | RPrepRemove key todo pending => start_ok s /\ start_feed s todo
      /\ forall k rev, (k, rev) ∈ drain_start s ->
           k ∈ pending.*1.*1 /\ (settled s k \/ in_todo todo k \/ k = key)
  | RPrepInstall snaps => forall k rev, (k, rev) ∈ drain_start s ->
      members (sd s) !! k = None \/ exists r row inv, (k, r, row, inv) ∈ snaps /\ (rev <= r)%Z
  | _ =>
      (frozen (sd s) = false -> drain_start s = [])
      /\ (frozen (sd s) = true -> forall k rev, (k, rev) ∈ drain_start s ->
            members (sd s) !! k = None
            \/ exists id f, frozen_images (sd s) !! id = Some f /\ fr_key f = k
                 /\ (rev <= fr_revision f)%Z)
  end.

Section Owed.
Implicit Types s : DSys.

Lemma ages_none s s' k :
  ages (members (sd s)) (members (sd s')) -> members (sd s) !! k = None ->
  members (sd s') !! k = None.
Proof.
  intros Ha Hk. apply eq_None_not_Some. intros [m' Hm'].
  destruct (Ha _ _ Hm') as (m & Hm & _). congruence.
Qed.

Lemma settled_ages s s' k :
  ages (members (sd s)) (members (sd s')) -> settled s k -> settled s' k.
Proof.
  intros Ha [Hk|(m & Hm & Hf)]; [left; by eapply ages_none|].
  destruct (members (sd s') !! k) as [m'|] eqn:Hm'; [right|by left].
  exists m'. split; [done|]. destruct (Ha _ _ Hm') as (m0 & Hm0 & _ & _ & _ & Hfi). simplify_eq.
  destruct Hfi as [[-> _]|(row & -> & _)]; eauto.
Qed.

Lemma start_ok_ages s s' :
  ages (members (sd s)) (members (sd s')) -> drain_start s' = drain_start s ->
  start_ok s -> start_ok s'.
Proof.
  intros Ha E Hs k rev m' Hin Hm'. rewrite E in Hin.
  destruct (Ha _ _ Hm') as (m & Hm & Hl & _ & _ & Hfi). destruct (Hs _ _ _ Hin Hm) as [Hr Hf].
  split; [lia|]. intros r row Hfin. destruct Hfi as [[Ef _]|(row' & Ef & _)].
  - rewrite Ef in Hfin. eauto.
  - rewrite Ef in Hfin. simplify_eq. lia.
Qed.

Lemma start_feed_grow s s' todo :
  feeds_grow (feed_rev s) (feed_rev s') -> drain_start s' = drain_start s ->
  start_feed s todo -> start_feed s' todo.
Proof.
  intros Hg E Hs k rev Hin Ht. rewrite E in Hin. destruct (Hs _ _ Hin Ht) as (r & Hr & Hl).
  destruct (Hg _ _ Hr) as (r' & ? & ?). exists r'. split; [done|lia].
Qed.

(** A step of another thread. *)
Lemma owed_ages s s' :
  owed s -> reader s' = reader s -> drain_start s' = drain_start s ->
  frozen (sd s') = frozen (sd s) ->
  frozen_images (sd s') = frozen_images (sd s) -> ages (members (sd s)) (members (sd s')) ->
  feeds_grow (feed_rev s) (feed_rev s') -> owed s'.
Proof.
  intros Ho Er Es Ef Ei Ha Hg. unfold owed in *. rewrite Er. rewrite ?Ef, ?Ei.
  pose proof (start_ok_ages s s' Ha Es) as Hst.
  pose proof (fun k => settled_ages s s' k Ha) as Hse.
  pose proof (fun todo => start_feed_grow s s' todo Hg Es) as Hto.
  pose proof (fun k => ages_none s s' k Ha) as Hno.
  destruct (reader s); rewrite ?Es; naive_solver.
Qed.

Definition is_prep (pc : RdPc) : bool :=
  match pc with
  | RPrep _ _ | RPrepStore _ _ _ _ | RPrepRemove _ _ _ | RPrepInstall _ => true
  | _ => false
  end.

Definition owed_plain s : Prop :=
  (frozen (sd s) = false -> drain_start s = [])
  /\ (frozen (sd s) = true -> forall k rev, (k, rev) ∈ drain_start s ->
        members (sd s) !! k = None
        \/ exists id f, frozen_images (sd s) !! id = Some f /\ fr_key f = k
             /\ (rev <= fr_revision f)%Z).

Lemma owed_plain_iff s : is_prep (reader s) = false -> owed s <-> owed_plain s.
Proof. unfold owed, owed_plain. by destruct (reader s). Qed.

(** A step of the receiver outside the preparation of a drain. *)
Lemma owed_goto s s' :
  owed s -> is_prep (reader s) = false -> is_prep (reader s') = false ->
  drain_start s' = drain_start s -> frozen (sd s') = frozen (sd s) ->
  (frozen (sd s) = true -> frozen_images (sd s') = frozen_images (sd s)
     /\ ages (members (sd s)) (members (sd s'))) ->
  owed s'.
Proof.
  intros Ho Hr Hr' Es Ef Hm.
  apply (owed_plain_iff s Hr) in Ho. apply (owed_plain_iff s' Hr').
  unfold owed_plain in *. rewrite Es, Ef. destruct Ho as [H1 H2]. split; [done|].
  intros Hf k rev Hin. destruct (Hm Hf) as [Ei Ha]. rewrite Ei.
  destruct (H2 Hf k rev Hin) as [?|?]; [left; by eapply ages_none|by right].
Qed.

Lemma feeds_grow_refl fr : feeds_grow fr fr.
Proof. intros k r Hr. exists r. split; [done|lia]. Qed.

Lemma feeds_grow_see fr k rev :
  (forall r, fr !! k = Some r -> (r <= rev)%Z) -> feeds_grow fr (<[k := rev]> fr).
Proof.
  intros Hle i r Hr. rewrite lookup_insert. case_decide; [subst|exists r; split; [done|lia]].
  exists rev. auto.
Qed.

Lemma feed_allows_spec s k rev inv :
  feed_allows s k rev inv = true ->
  k < next_key s /\ (rev <= U64_MAX)%Z /\ forall r, feed_rev s !! k = Some r -> (r <= rev)%Z.
Proof.
  unfold feed_allows. intros [[? ?]%andb_true_iff E]%andb_true_iff.
  split_and!; [by eapply bool_decide_eq_true..|]. intros r Hr. rewrite Hr in E.
  apply andb_true_iff in E as [E _]. by apply bool_decide_eq_true in E.
Qed.

Lemma vinv_put s s' :
  vinv s -> ages (members (sd s)) (members (sd s')) -> frozen (sd s') = frozen (sd s) ->
  feed_rev s' = feed_rev s -> reader s' = reader s ->
  (forall k m', members (sd s') !! k = Some m' -> retired m' = false ->
     exists m, members (sd s) !! k = Some m /\ retired m = false /\ revision m' = revision m) ->
  vinv s'.
Proof.
  intros V Ha Ef Efr Er Hm. eapply vinv_ages; [done..|rewrite Efr; apply V| |].
  - intros k m' Hk Hr. destruct (Hm _ _ Hk Hr) as (m & Hm' & Hr' & ->). rewrite Efr. by eapply V.
  - rewrite Er, Efr. apply V.
Qed.

(** The steps of other threads. *)
Lemma oinv_put s s' :
  vinv s -> owed s -> reader s' = reader s -> drain_start s' = drain_start s ->
  frozen (sd s') = frozen (sd s) -> frozen_images (sd s') = frozen_images (sd s) ->
  feed_rev s' = feed_rev s ->
  (forall k m', members (sd s') !! k = Some m' -> exists m, members (sd s) !! k = Some m
     /\ revision m' = revision m /\ retired m' = retired m /\ final_image m' = final_image m) ->
  vinv s' /\ owed s'.
Proof.
  intros V O Er Es Ef Ei Efr Hm.
  assert (Ha : ages (members (sd s)) (members (sd s'))) by (apply ages_same; [apply V|done]).
  split.
  - eapply vinv_put; try done. intros k m' Hk Hr. destruct (Hm _ _ Hk) as (m & ? & ? & ? & ?).
    exists m. split_and!; congruence.
  - eapply owed_ages; try done. rewrite Efr. apply feeds_grow_refl.
Qed.

Lemma register_lookup d nk f rev lbl k m :
  members (sd_register d nk f rev lbl) !! k = Some m ->
  (k = nk /\ m = mkMember f lbl rev None None true false false None) \/ members d !! k = Some m.
Proof.
  unfold sd_register. case_match; [by right|]. simpl. rewrite lookup_insert.
  destruct (decide (nk = k)); [intros [= <-]; by left|].
  intros [? _]%map_lookup_filter_Some. by right.
Qed.

Lemma oinv_register s f rev lbl s' :
  sinv s -> hsys s -> vinv s -> owed s -> dexec s (DRegister f rev lbl) = Some s' ->
  vinv s' /\ owed s'.
Proof.
  intros I H V O E. simpl in E. destruct (bool_decide (rev <= U64_MAX)%Z) eqn:Hr; [|done].
  apply bool_decide_eq_true in Hr. simplify_eq.
  assert (Hnew : feed_rev s !! next_key s = None).
  { apply eq_None_not_Some. intros ?%(hs_rev _ H). lia. }
  assert (Hg : feeds_grow (feed_rev s) (<[next_key s := rev]> (feed_rev s)))
    by (apply feeds_grow_see; congruence).
  assert (Hfr : forall k r, <[next_key s := rev]> (feed_rev s) !! k = Some r -> (r <= U64_MAX)%Z).
  { intros k r. rewrite lookup_insert. case_decide; [intros [= <-]; done|apply V]. }
  assert (Hold : forall k m, members (sd s) !! k = Some m -> retired m = false ->
    exists r, <[next_key s := rev]> (feed_rev s) !! k = Some r /\ (revision m <= r)%Z).
  { intros k m Hk Hrt. destruct (vi_feed _ V _ _ Hk Hrt) as (r & Hr' & Hl).
    destruct (Hg _ _ Hr') as (r' & ? & ?). exists r'. split; [done|lia]. }
  assert (Him : forall key r row todo pending, reader s = RPrepStore key (Some (r, row)) todo pending ->
    exists fr, <[next_key s := rev]> (feed_rev s) !! key = Some fr /\ (r <= fr)%Z).
  { intros key r row todo pending Er. destruct (vi_image _ V _ _ _ _ _ Er) as (fr & Hr' & Hl).
    destruct (Hg _ _ Hr') as (r' & ? & ?). exists r'. split; [done|lia]. }
  destruct (source_closed (sd s) || receiver_closed (sd s) || freezing (sd s) || frozen (sd s)) eqn:Ec.
  - assert (Es : sd_register (sd s) (next_key s) f rev lbl = sd s)
      by (unfold sd_register; by rewrite Ec).
    rewrite Es. split; [eapply vinv_ages|eapply owed_ages]; try done; by apply ages_refl, V.
  - apply orb_false_iff in Ec as [[_ Hz]%orb_false_iff Hf].
    pose proof (prep_phase _ I) as Hph. pose proof (register_lookup (sd s) (next_key s) f rev lbl) as Hlk.
    split; [split; simpl; try done|].
    + intros k m [[-> ->]|Hk]%Hlk; [done|by eapply V].
    + intros k m [[-> ->]|Hk]%Hlk; [|by apply Hold]. rewrite lookup_insert_eq.
      exists rev. split; [done|]. simpl. lia.
    + intros k m r row [[-> ->]|Hk]%Hlk; [done|by eapply V].
    + intros k m _ [[-> ->]|Hk]%Hlk; [done|by eapply V].
    + assert (Hnp : is_prep (reader s) = false) by (destruct (reader s); simpl; congruence).
      eapply (owed_goto s); try done; [|congruence].
      simpl. unfold sd_register. by destruct (_ || frozen (sd s)).
Qed.

Lemma oinv_mark s k rev inv s' :
  vinv s -> owed s -> dexec s (DMark k rev inv) = Some s' -> vinv s' /\ owed s'.
Proof.
  intros V O E. simpl in E. destruct (feed_allows s k rev inv) eqn:Ha; [|done].
  apply feed_allows_spec in Ha as (_ & Hmax & Hle).
  assert (Hs : sd s' = mark (sd s) k rev inv /\ reader s' = reader s
    /\ feed_rev s' = <[k := rev]> (feed_rev s) /\ drain_start s' = drain_start s).
  { destruct (sets_marker _ _ _); by simplify_eq. }
  destruct Hs as (E1 & E2 & E3 & E4).
  assert (Hages : ages (members (sd s)) (members (sd s')))
    by (rewrite E1; apply ages_mark; [apply V|done]).
  destruct (frozen_same_ops (sd s) k 0 rev inv "" (row0 true) true) as (_ & Hfs & _).
  destruct Hfs as (_ & Hi & Hf & _). rewrite <- E1 in Hi, Hf.
  assert (Hg : feeds_grow (feed_rev s) (feed_rev s')) by (rewrite E3; by apply feeds_grow_see).
  split; [|by eapply owed_ages].
  eapply vinv_ages; try done.
  - intros i r. rewrite E3, lookup_insert. case_decide; [intros [= <-]; done|apply V].
  - rewrite E1, E3. intros i m Hm Hrt.
    destruct (mark_effect (sd s) k rev inv) as [[Em _]|(m0 & m1 & Hm0 & Em & _)].
    + rewrite Em in Hm. destruct (vi_feed _ V _ _ Hm Hrt) as (r & Hr & Hl).
      destruct (Hg _ _ Hr) as (r' & Hr' & ?). exists r'. rewrite <- E3. split; [done|lia].
    + destruct (decide (k = i)) as [<-|Hne].
      * rewrite lookup_insert_eq. exists rev. split; [done|].
        revert Hm. unfold mark. destruct (_ || frozen (sd s)).
        { intros Hm. destruct (vi_feed _ V _ _ Hm Hrt) as (r & Hr & Hl). specialize (Hle _ Hr). lia. }
        rewrite Hm0. edestruct enqueue_members as [b ->]. rewrite lookup_insert_eq.
        intros [= <-]. simpl in *. destruct (vi_feed _ V _ _ Hm0 Hrt) as (r & Hr & Hl).
        specialize (Hle _ Hr). lia.
      * rewrite lookup_insert_ne by done. rewrite Em, lookup_insert_ne in Hm by done.
        by eapply vi_feed.
  - intros key r row todo pending Er. rewrite E2 in Er.
    destruct (vi_image _ V _ _ _ _ _ Er) as (fr & Hr & Hl). destruct (Hg _ _ Hr) as (r' & ? & ?).
    exists r'. split; [done|lia].
Qed.

Lemma oinv_retire s k row s' :
  vinv s -> owed s -> dexec s (DRetire k row) = Some s' -> vinv s' /\ owed s'.
Proof.
  intros V O E. simpl in E. destruct (row_valid row); simplify_eq.
  assert (Hages : ages (members (sd s)) (members (retire (sd s) k row)))
    by (apply ages_retire, V).
  destruct (frozen_same_ops (sd s) k 0 0 false "" row true) as (_ & _ & Hfs & _).
  destruct Hfs as (_ & Hi & Hf & _). split.
  - eapply vinv_put; try done. simpl. intros i m' Hm' Hr. revert Hm'. unfold retire.
    destruct (_ || frozen (sd s)); [eauto|].
    destruct (members (sd s) !! k) as [m|] eqn:Hm; [|eauto].
    edestruct enqueue_members as [b ->]. rewrite lookup_insert.
    destruct (decide (k = i)); [|eauto]. intros [= <-]. done.
  - eapply owed_ages; try done. apply feeds_grow_refl.
Qed.

Lemma oinv_others s a s' :
  vinv s -> owed s -> dexec s a = Some s' ->
  match a with
  | DDetach _ | DFail _ | DCloseSource | DReadBuffer _ | DRecycle _ | DTake _ | DRestore _ _ => True
  | _ => False
  end -> vinv s' /\ owed s'.
Proof.
  intros V O E Ha. destruct a; try done; simpl in E; simplify_eq.
  - eapply oinv_put; try done; simpl; unfold detach; destruct (_ || _); try done; [eauto|].
    simpl. intros k m [_ Hk]%lookup_delete_Some. eauto.
  - eapply oinv_put; try done; simpl; unfold fail; destruct (_ || _); try done; [eauto|].
    intros k m. simpl. rewrite lookup_fmap, fmap_Some. intros (m0 & ? & ->). eauto.
  - eapply oinv_put; try done; simpl; unfold close_source; destruct (_ && _); try done. eauto.
  - eapply oinv_put; try done; simpl; unfold read_buffer; destruct (_ !! _); try done; eauto.
  - eapply oinv_put; try done; simpl; unfold recycle_values; repeat case_match; try done; eauto.
  - destruct (receipts s !! i); [|done]. simpl in E. simplify_eq. eapply oinv_put; eauto.
  - destruct (receipts s !! i) as [r|]; [|done]. simpl in E. destruct (rc_result r); simplify_eq.
    eapply oinv_put; eauto.
Qed.

Lemma oinv_end s i r c : vinv s -> owed s -> vinv (end_receipt s i r c) /\ owed (end_receipt s i r c).
Proof.
  intros V O.
  assert (Hfin : forall d, frozen d = frozen (sd s) -> frozen_images d = frozen_images (sd s) ->
    (forall k m', members d !! k = Some m' -> exists m, members (sd s) !! k = Some m
       /\ revision m' = revision m /\ retired m' = retired m /\ final_image m' = final_image m) ->
    forall s', sd s' = d -> reader s' = reader s -> drain_start s' = drain_start s ->
      feed_rev s' = feed_rev s -> vinv s' /\ owed s').
  { intros d E1 E2 Hm s' E3 E4 E5 E6. eapply oinv_put; try done; by rewrite E3. }
  unfold end_receipt. destruct (rc_terminal r).
  - generalize (if c then None else receipt_error r) as e. intros e.
    destruct e; (eapply Hfin; [..|done|done|done|done]); simpl; eauto.
  - destruct (rc_frozen r).
    + destruct (finish_shape (sd s) (rc_keys r) c) as (ms & q & Es).
      assert (Hm : forall k m', members (finish (sd s) (rc_keys r) c) !! k = Some m' ->
        exists m, members (sd s) !! k = Some m /\ revision m' = revision m
          /\ retired m' = retired m /\ final_image m' = final_image m)
        by (intros k m'; apply finish_fold_same).
      assert (E1 : frozen (finish (sd s) (rc_keys r) c) = frozen (sd s)) by (by rewrite Es).
      assert (E2 : frozen_images (finish (sd s) (rc_keys r) c) = frozen_images (sd s))
        by (by rewrite Es).
      pose proof (Hfin _ E1 E2 Hm) as Hf. destruct c; by apply Hf.
    + assert (Hff : forall ids c, frozen (finish_frozen (sd s) ids c) = frozen (sd s)
        /\ frozen_images (finish_frozen (sd s) ids c) = frozen_images (sd s)
        /\ members (finish_frozen (sd s) ids c) = members (sd s))
        by (intros ids c0; unfold finish_frozen; by case_match).
      destruct (Hff (n :: l) c) as (E1 & E2 & E3).
      destruct c; (eapply Hfin; [..|done|done|done|done]); simpl; rewrite ?E3; eauto.
Qed.

(** *** The receiver *)

Lemma oinv_capture s k image s' :
  vinv s -> owed s -> capture s k image = Some s' ->
  vinv s' /\ owed s' /\ feeds_grow (feed_rev s) (feed_rev s')
  /\ forall r row, image = Some (r, row) -> feed_rev s' !! k = Some r
       /\ forall r0, feed_rev s !! k = Some r0 -> (r0 <= r)%Z.
Proof.
  intros V O. unfold capture. destruct image as [[rev row]|].
  2:{ intros [= <-]. split_and!; [done..|apply feeds_grow_refl|done]. }
  destruct (feed_allows s k rev false) eqn:Ef; [|done]. intros [= <-].
  apply feed_allows_spec in Ef as (_ & Hmax & Hle).
  assert (Hg : feeds_grow (feed_rev s) (<[k := rev]> (feed_rev s))) by (by apply feeds_grow_see).
  assert (Ha : ages (members (sd s)) (members (sd s))) by (apply ages_refl, V).
  split_and!; [|by eapply (owed_ages s)|done|].
  - eapply (vinv_ages s); try done; simpl.
    + intros i r. rewrite lookup_insert. case_decide; [intros [= <-]; done|apply V].
    + intros i m Hm Hr. destruct (vi_feed _ V _ _ Hm Hr) as (r & Hr' & Hl).
      destruct (Hg _ _ Hr') as (r' & ? & ?). exists r'. split; [done|lia].
    + intros key r row0 todo pending Er. destruct (vi_image _ V _ _ _ _ _ Er) as (fr & Hr' & Hl).
      destruct (Hg _ _ Hr') as (r' & ? & ?). exists r'. split; [done|lia].
  - intros r row' [= <- <-]. simpl. rewrite lookup_insert_eq. auto.
Qed.

Lemma vinv_goto s pc :
  vinv s -> (forall key r row todo pending, pc = RPrepStore key (Some (r, row)) todo pending ->
     exists fr, feed_rev s !! key = Some fr /\ (r <= fr)%Z) -> vinv (goto s pc).
Proof. intros [V1 V2 V3 V4 V5 V6] Hp. by split. Qed.

Lemma oinv_snapshot s image s' :
  vinv s -> owed s -> reader_snapshot s image = Some s' -> vinv s' /\ owed s'.
Proof.
  intros V O E. unfold reader_snapshot in E. destruct (reader s) eqn:Hr; try done.
  - destruct todo as [|sel todo]; [done|].
    assert (Hgo : forall s1 pc, vinv s1 -> owed s1 -> reader s1 = reader s -> is_prep pc = false ->
      (forall key r row t p, pc <> RPrepStore key (Some (r, row)) t p) ->
      vinv (goto s1 pc) /\ owed (goto s1 pc)).
    { intros s1 pc V1 O1 Er Hp Hn. split; [apply vinv_goto; naive_solver|].
      eapply (owed_goto s1); try done; [by rewrite Er, Hr|].
      split; [done|]. apply ages_refl, V1. }
    destruct (sel_final_image sel) as [[rev row]|]; [simplify_eq; by apply Hgo|].
    destruct (capture s _ image) as [s1|] eqn:Ec; simpl in E; [|done]; simplify_eq.
    destruct (oinv_capture _ _ _ _ V O Ec) as (V1 & O1 & _).
    apply capture_shape in Ec as (_ & _ & E3 & _). destruct image as [[rev row]|]; by apply Hgo.
  - destruct todo as [|[[k f] b] todo]; [done|]. unfold owed in O. rewrite Hr in O. destruct b.
    + simplify_eq. split; [by apply vinv_goto|]. destruct O as (O1 & O2 & O3).
      split_and!; [done| |].
      * intros k' rev Hin [f' Hf']. apply (O2 _ _ Hin). exists f'. by right.
      * intros k' rev Hin. destruct (O3 _ _ Hin) as [Hp [Hs|[f' Hf']]]; (split; [done|]); [by left|].
        right. exists f'. by apply elem_of_cons in Hf' as [?|?].
    + destruct (capture s _ image) as [s1|] eqn:Ec; simpl in E; [|done]; simplify_eq.
      assert (O' : owed s) by (unfold owed; by rewrite Hr).
      destruct (oinv_capture _ _ _ _ V O' Ec) as (V1 & O1 & Hg & Him).
      pose proof (capture_shape _ _ _ _ Ec) as (_ & _ & E3 & _ & _ & _ & _ & _ & E4 & _).
      unfold owed in O1. rewrite E3, Hr in O1. destruct O1 as (O1 & O2 & O3). split.
      * apply vinv_goto; [done|]. intros key r row t p [= -> -> -> ->].
        destruct (Him r row eq_refl) as [? _]. exists r. split; [done|lia].
      * split_and!; [done|..].
        -- intros k' rev Hin [f' Hf']. apply (O2 _ _ Hin). exists f'. by right.
        -- intros rev r row Hin Ei. destruct (O2 _ _ Hin) as (r0 & Hr0 & Hl); [exists f; by left|].
           destruct (Him r row Ei) as [Hr1 _]. rewrite Hr1 in Hr0. by simplify_eq.
        -- intros k' rev Hin. destruct (O3 _ _ Hin) as [Hp [Hs|[f' Hf']]]; (split; [done|]); [by left|].
           right. apply elem_of_cons in Hf' as [[= -> ->]|?]; [by right|left; by exists f'].
Qed.

Lemma take_finals_snaps ms keys ms' snaps k m r row :
  take_finals ms keys = (ms', snaps) -> k ∈ keys -> ms !! k = Some m ->
  final_image m = Some (r, row) -> (k, r, row, invalidated m) ∈ snaps.
Proof.
  revert ms ms' snaps. induction keys as [|k0 keys IH]; intros ms ms' snaps; simpl.
  { by intros _ ?%not_elem_of_nil. }
  intros E [<-|Hk]%elem_of_cons Hm Hf.
  - rewrite Hm in E. destruct (take_finals _ _) as [ms1 snaps1]. simplify_eq.
    simpl. rewrite Hf. left.
  - destruct (decide (k0 = k)) as [->|Hne].
    + rewrite Hm in E. destruct (take_finals _ _) as [ms1 snaps1]. simplify_eq.
      simpl. rewrite Hf. left.
    + destruct (ms !! k0) as [m0|] eqn:E0; [|by eapply IH].
      destruct (take_finals _ _) as [ms1 snaps1] eqn:Et. simplify_eq.
      assert (Hin : (k, r, row, invalidated m) ∈ snaps1)
        by (eapply IH; [exact Et|done|by rewrite lookup_insert_ne|done]).
      simpl. destruct (final_image m0) as [[? ?]|]; [by right|done].
Qed.

Lemma take_finals_final ms keys ms' snaps k m' :
  take_finals ms keys = (ms', snaps) -> ms' !! k = Some m' ->
  exists m, ms !! k = Some m /\ (final_image m' = final_image m \/ final_image m' = None).
Proof.
  revert ms ms' snaps. induction keys as [|k0 keys IH]; intros ms ms' snaps; simpl.
  { intros [= <- <-]. eauto. }
  destruct (ms !! k0) as [m0|] eqn:E0; [|eauto].
  destruct (take_finals _ _) as [ms1 snaps1] eqn:Et. intros [= <- <-] Hk.
  destruct (IH _ _ _ Et Hk) as (m & Hm & Hf). rewrite lookup_insert in Hm.
  destruct (decide (k0 = k)) as [->|]; [|eauto]. simplify_eq. exists m0. split; [done|].
  right. simpl in Hf. tauto.
Qed.

Lemma epoch_images_complete snaps k r row inv :
  (k, r, row, inv) ∈ snaps -> exists f, f ∈ epoch_images snaps /\ fr_key f = k /\ fr_revision f = r.
Proof.
  intros Hin. unfold epoch_images.
  assert (Hs : exists f, (f ∈ (snapshot_images (k, r, row, inv)).1
                          \/ f ∈ (snapshot_images (k, r, row, inv)).2)
                         /\ fr_key f = k /\ fr_revision f = r).
  { unfold snapshot_images. destruct (filter_le inv r) as [mk|]; [destruct (row_valid row)|]; simpl.
    - exists (mkFrozen k r None true row). split; [right; by left|done].
    - exists (mkFrozen k r (Some mk) false row). split; [left; by left|done].
    - exists (mkFrozen k r None false row). split; [left; by left|done]. }
  destruct Hs as (f & [Hf|Hf] & Hk & Hr); exists f; (split; [|done]); apply elem_of_app;
    [left|right]; apply list_elem_of_bind; eexists; (split; [exact Hf|]);
    apply list_elem_of_fmap; (exists (snapshot_images (k, r, row, inv))); (split; [done|]);
    by apply list_elem_of_fmap_2.
Qed.

(** Collecting the final images and installing them pays the debt. *)
Lemma owed_take s pending s' :
  vinv s -> owed s -> reader s = RPrep [] pending ->
  s' = goto (put s (prep_take (sd s) pending).1) (RPrepInstall (prep_take (sd s) pending).2) ->
  vinv s' /\ owed s'.
Proof.
  intros V O Hr ->. unfold prep_take. destruct (take_finals _ _) as [ms snaps] eqn:Et. simpl. split.
  - pose proof (take_finals_spec _ _ _ _ Et) as Hsp. split; simpl; try done.
    + intros k m' (m & Hm & _ & _ & _ & -> & _)%Hsp. by eapply V.
    + apply V.
    + intros k m' (m & Hm & _ & _ & _ & -> & -> & _)%Hsp. by eapply V.
    + intros k m' r row Hm' Hf. destruct (Hsp _ _ Hm') as (m & Hm & _ & _ & _ & -> & _).
      destruct (take_finals_final _ _ _ _ _ _ Et Hm') as (m0 & Hm0 & [E|E]); [|congruence].
      simplify_eq. rewrite E in Hf. by eapply V.
  - unfold owed in *. rewrite Hr in O. simpl. destruct O as (O1 & _ & O2). intros k rev Hin.
    destruct (O2 _ _ Hin) as [Hp [[Hn|(m & Hm & [[r row] Hf])]|[f Hf]]].
    + left. apply eq_None_not_Some. intros [m' Hm'].
      destruct (take_finals_spec _ _ _ _ Et _ _ Hm') as (m & Hm & _). congruence.
    + right. exists r, row, (invalidated m). split; [by eapply take_finals_snaps|].
      by eapply (O1 k rev m).
    + by apply not_elem_of_nil in Hf.
Qed.

Lemma owed_store s key image todo pending s' :
  vinv s -> owed s -> reader s = RPrepStore key image todo pending ->
  frozen (sd s) = false ->
  s' = goto (put s (prep_store (sd s) key image).1)
         (if (prep_store (sd s) key image).2 then RPrepRemove key todo pending
          else RPrep todo pending) ->
  vinv s' /\ owed s'.
Proof.
  intros V O Hr Hfz ->. unfold owed in O. rewrite Hr in O. destruct O as (O1 & O2 & O3 & O4).
  unfold prep_store. destruct (members (sd s) !! key) as [m|] eqn:Hm; simpl.
  2:{ split; [split; simpl; try done; apply V|]. split_and!; [done..|]. intros k rev Hin.
      destruct (O4 _ _ Hin) as [Hp [?|[?| ->]]]; split; auto. left. by left. }
  destruct (retired m) eqn:Hrt; simpl.
  { split; [split; simpl; try done; apply V|]. split_and!; [done..|]. intros k rev Hin.
    destruct (O4 _ _ Hin) as [Hp [?|[?| ->]]]; split; auto.
    left. right. exists m. split; [done|]. by eapply V. }
  destruct image as [[r row]|]; simpl.
  - destruct (vi_image _ V _ _ _ _ _ Hr) as (fr & Hfr & Hlr).
    destruct (vi_feed _ V _ _ Hm Hrt) as (fr' & Hfr' & Hlm). simplify_eq.
    pose proof (vi_feed_max _ V _ _ Hfr) as Hfmax. split.
    + split; simpl; try done.
      * intros k m'. rewrite lookup_insert. case_decide; [intros [= <-]; simpl; lia|apply V].
      * apply V.
      * intros k m'. rewrite lookup_insert. case_decide; [intros [= <-] _; subst; simpl|apply V].
        exists fr. split; [done|lia].
      * intros k m' r0 row0. rewrite lookup_insert.
        case_decide; [intros [= <-]; simpl; intros [= <- <-]; lia|apply V].
      * intros k m' _. rewrite lookup_insert.
        case_decide; [intros [= <-]; simpl; congruence|by apply V].
    + split_and!; [|done|].
      * intros k rev m' Hin. simpl. rewrite lookup_insert.
        destruct (decide (key = k)) as [<-|]; [|by apply O1]. intros [= <-]. simpl.
        destruct (O1 _ _ _ Hin Hm) as [Hl Hf]. split; [lia|]. intros r0 row0 [= <- <-]. eauto.
      * intros k rev Hin. destruct (O4 _ _ Hin) as [Hp Hc]. split; [done|].
        unfold settled in *. simpl. rewrite lookup_insert.
        destruct (decide (key = k)) as [<-|]; [|naive_solver]. left. right. eexists. split; [done|].
        simpl. eauto.
  - split; [destruct V as [V1 V2 V3 V4 V5 V6]; split; try done; by case_match|].
    case_bool_decide as Hf; (split_and!; [done..|]); intros k rev Hin;
      destruct (O4 _ _ Hin) as [Hp [?|[?| ->]]]; (split; [done|]); auto.
    left. right. exists m. split; [done|]. by apply not_eq_None_Some.
Qed.

Lemma oinv_lock s s' :
  sinv s -> vinv s -> owed s -> reader_lock s = Some s' -> vinv s' /\ owed s'.
Proof.
  intros I V O E. pose proof (si_pc _ I) as Hpc. unfold reader_lock in E.
  assert (Hrem : forall k pc, is_prep (reader s) = false -> is_prep pc = false ->
    frozen (sd s) = false -> vinv (leave (goto (put s (sd_remove (sd s) k)) pc) {[k]})
      /\ owed (leave (goto (put s (sd_remove (sd s) k)) pc) {[k]})).
  { intros k pc Hp Hp' Hf. split.
    - eapply (vinv_ages s); try done; simpl.
      + apply ages_sub; [apply V|apply delete_subseteq].
      + apply V.
      + intros i m [_ Hi]%lookup_delete_Some. by eapply V.
      + by destruct pc.
    - eapply (owed_goto s); try done. simpl. congruence. }
  destruct (reader s) eqn:Hr; try done.
  - destruct (_ ≫= _) as [[rev row]|]; simplify_eq; (split; [by apply vinv_goto|]);
      (eapply (owed_goto s); try done; [by rewrite Hr|]); (split; [done|]); apply ages_refl, V.
  - simplify_eq. apply Hrem; [done..|apply Hpc].
  - simplify_eq. split; [by apply vinv_goto|].
    eapply (owed_goto s); try done; [by rewrite Hr|]. split; [done|]. apply ages_refl, V.
  - destruct todo as [|? ?]; [|done]. eapply owed_take; [done..|].
    destruct (prep_take _ _) as [d snaps]. by simplify_eq.
  - eapply owed_store; [done..|apply Hpc|]. destruct (prep_store _ _ _) as [d rm]. by simplify_eq.
  - simplify_eq. unfold owed in O. rewrite Hr in O. destruct O as (O1 & O2 & O3).
    assert (Ha : ages (members (sd s)) (delete key (members (sd s))))
      by (apply ages_sub; [apply V|apply delete_subseteq]).
    set (s1 := leave _ _). assert (Ha' : ages (members (sd s)) (members (sd s1))) by done. split.
    + eapply (vinv_ages s); try done; simpl; [apply V|].
      intros i m [_ Hi]%lookup_delete_Some. by eapply V.
    + split_and!; [by eapply start_ok_ages|by eapply (start_feed_grow s); [apply feeds_grow_refl|..]|].
      intros k rev Hin. destruct (O3 _ _ Hin) as [Hp [Hs|[Ht| ->]]]; (split; [done|]);
        [left; by eapply settled_ages|by right|].
      left. left. simpl. by rewrite lookup_delete_eq.
  - simplify_eq. unfold owed in O. rewrite Hr in O. split.
    + destruct V as [V1 V2 V3 V4 V5 V6]. by split.
    + split; [done|]. intros _ k rev Hin. simpl. destruct (O _ _ Hin) as [?|(r & row & inv & Hi & Hl)];
        [by left|right]. destruct (epoch_images_complete _ _ _ _ _ Hi) as (f & Hf & Ek & Er).
      apply list_elem_of_lookup in Hf as [id Hid]. exists id, f. split_and!; [done..|lia].
Qed.

(** Beginning a drain records what is owed. *)
Lemma oinv_prepare s :
  vinv s -> frozen (sd s) = false ->
  let pending := omap (fun key => m ← members (sd s) !! key; Some (key, feed m, retired m))
                   (queue (sd s) ++ leased_keys (members (sd s))) in
  let s' := begin_drain (goto (put s (set_freeze (sd s) true (frozen (sd s)))) (RPrep pending pending))
              (omap (fun k => m ← members (set_freeze (sd s) true (frozen (sd s))) !! k;
                              Some (k, pending_revision m)) pending.*1.*1) in
  vinv s' /\ owed s'.
Proof.
  intros V Hf pending s'. split; [destruct V as [V1 V2 V3 V4 V5 V6]; by split|].
  assert (Hst : forall k rev, (k, rev) ∈ drain_start s' -> k ∈ pending.*1.*1
    /\ exists m, members (sd s) !! k = Some m /\ rev = pending_revision m).
  { intros k rev Hin. apply list_elem_of_omap in Hin as (k' & Hk' & E).
    apply bind_Some in E as (m & Hm & [= -> <-]). eauto. }
  assert (Hpend : forall k f b, (k, f, b) ∈ pending ->
    exists m, members (sd s) !! k = Some m /\ b = retired m).
  { intros k f b Hin. apply list_elem_of_omap in Hin as (k' & _ & E).
    apply bind_Some in E as (m & Hm & [= -> _ <-]). eauto. }
  split_and!.
  - intros k rev m Hin Hm. destruct (Hst _ _ Hin) as (_ & m0 & Hm0 & ->). simpl in Hm. simplify_eq.
    unfold pending_revision. destruct (final_image m) as [[r row]|] eqn:Hfi.
    + split; [by eapply V|]. intros r' row' [= <- <-]. lia.
    + split; [lia|done].
  - intros k rev Hin [f Hfl]. destruct (Hst _ _ Hin) as (_ & m0 & Hm0 & ->).
    destruct (Hpend _ _ _ Hfl) as (m1 & Hm1 & Hb). simplify_eq.
    destruct (vi_feed _ V _ _ Hm0 (eq_sym Hb)) as (r & Hr & Hl). exists r. split; [done|].
    unfold pending_revision. destruct (final_image m0) as [[r0 row]|] eqn:Hfi; [|done].
    pose proof (vi_final _ V _ _ _ _ Hm0 Hfi). lia.
  - intros k rev Hin. destruct (Hst _ _ Hin) as (Hp & m & Hm & _). split; [done|].
    destruct (retired m) eqn:Hrt.
    + left. right. exists m. split; [done|]. by eapply V.
    + right. apply list_elem_of_fmap in Hp as ([k1 f1] & -> & Hp).
      apply list_elem_of_fmap in Hp as ([[k2 f2] b2] & [= -> ->] & Hp). exists f2.
      destruct (Hpend _ _ _ Hp) as (m1 & Hm1 & ->). simpl in *. simplify_eq. by rewrite Hrt in Hp.
Qed.

Lemma oinv_same s :
  vinv s -> owed s -> forall s1, members (sd s1) = members (sd s) ->
    frozen (sd s1) = frozen (sd s) -> frozen_images (sd s1) = frozen_images (sd s) ->
    feed_rev s1 = feed_rev s -> drain_start s1 = drain_start s -> is_prep (reader s) = false ->
    is_prep (reader s1) = false -> vinv s1 /\ owed s1.
Proof.
  intros V O s1 E1 E2 E3 E4 E5 P P1. assert (Ha : ages (members (sd s)) (members (sd s1)))
    by (rewrite E1; apply ages_refl, V). split.
  - destruct V as [V1 V2 V3 V4 V5 V6]. split; rewrite ?E1, ?E2, ?E4; try done.
    intros key r row t p Er. by rewrite Er in P1.
  - by eapply (owed_goto s).
Qed.

Lemma oinv_select s limit s' :
  sinv s -> vinv s -> owed s -> reader s = RIdle -> reader_select s limit = Some s' ->
  vinv s' /\ owed s'.
Proof.
  intros I V O Hr E. pose proof (oinv_same _ V O) as Hsame.
  unfold reader_select in E.
  destruct (try_select _ _) as [[d sel]|] eqn:Es; [|done]. simpl in E. simplify_eq.
  pose proof (try_select_cases _ _ _ _ Es) as HS. clear Es.
  destruct HS as [|e He Hrc Hfl Hdl|l q Hfr _ Ht Hq|l ms q n h Hfr Hz Hqn El].
  - apply Hsame; try done; simpl; by rewrite Hr.
  - apply Hsame; try done; simpl; by rewrite Hr.
  - destruct l; apply Hsame; try done; simpl; by rewrite Hr.
  - apply (qinv_select _ (next_key s) (leases s)) in El as (_ & _ & Hms); [|apply I].
    assert (Hg : forall k m', ms !! k = Some m' -> exists m, members (sd s) !! k = Some m
      /\ revision m' = revision m /\ retired m' = retired m /\ final_image m' = final_image m).
    { intros k m'. rewrite Hms. destruct (decide _); [|eauto]. rewrite fmap_Some.
      intros (m & ? & ->). eauto. }
    assert (Hsel : forall s1, members (sd s1) = ms -> frozen (sd s1) = frozen (sd s) ->
      feed_rev s1 = feed_rev s -> drain_start s1 = drain_start s -> is_prep (reader s1) = false ->
      vinv s1 /\ owed s1).
    { intros s1 E1 E2 E3 E4 P1. split.
      - eapply (vinv_ages s); try done; rewrite ?E1, ?E3; [by apply ages_same; [apply V|]|apply V| |].
        * intros k m' Hk Hrt. destruct (Hg _ _ Hk) as (m & Hm & -> & Et & _). eapply V; [done|congruence].
        * intros key r row t p Er. by rewrite Er in P1.
      - eapply (owed_goto s); try done; [by rewrite Hr|congruence]. }
    destruct l; apply Hsel; try done; simpl; by rewrite Hr.
Qed.

Lemma oinv_step s a s' :
  sinv s -> hsys s -> vinv s -> owed s -> dexec s a = Some s' -> vinv s' /\ owed s'.
Proof.
  intros I H V O E. pose proof (prep_phase _ I) as Hph.
  pose proof (oinv_same _ V O) as Hsame.
  assert (Hclose : is_prep (reader s) = false -> vinv (close_receiver s) /\ owed (close_receiver s)).
  { intros P. split; [split; simpl; try done; apply V|].
    split; simpl; [|intros _ k rev _; by left]. intros Hf.
    apply (owed_plain_iff s P) in O. by apply O. }
  destruct a; try (by eapply oinv_others); try (by eapply oinv_register); try (by eapply oinv_mark);
    try (by eapply oinv_retire); simpl in E.
  - destruct (is_idle (reader s)) eqn:Hi; [|done]. eapply oinv_select; [done..| |done].
    by destruct (reader s).
  - destruct (reader s) eqn:Hr; try done; destruct alive; simplify_eq; try done;
      try (by apply Hclose); apply Hsame; try done; simpl; by rewrite ?Hr.
  - by eapply oinv_snapshot.
  - by eapply oinv_lock.
  - unfold reader_batch in E. destruct (reader s) eqn:Hr; try done.
    + destruct todo; [|done]. destruct keys; simplify_eq; by apply Hsame.
    + simplify_eq. by apply Hsame.
  - destruct (is_idle (reader s)) eqn:Hi; [|done]. assert (Hr : reader s = RIdle)
      by (by destruct (reader s)).
    unfold prep_begin in E. destruct (_ || freezing (sd s)) eqn:Eb; simplify_eq; [done|].
    apply orb_false_iff in Eb as [[_ Hf]%orb_false_iff Hz]. by apply oinv_prepare.
  - destruct (is_idle (reader s)) eqn:Hi; [|done]. simplify_eq. apply Hclose.
    by destruct (reader s).
  - destruct (receipts s !! i); [|done]. simpl in E. simplify_eq. by apply oinv_end.
  - destruct (receipts s !! i); [|done]. simpl in E. simplify_eq. by apply oinv_end.
Qed.
End Owed.

(** ** Reachable states *)

Record dall (s : DSys) : Prop := mkDall {
  da_sinv : sinv s; da_hsys : hsys s; da_tinv : tinv s; da_finv : finv s; da_vinv : vinv s;
  da_owed : owed s
}.

Lemma dall_step s a s' : dall s -> dexec s a = Some s' -> dall s'.
Proof.
  intros [I H T F V O] E. destruct (oinv_step _ _ _ I H V O E).
  split; eauto using sinv_step, hsys_step, finv_step.
  by destruct (tinv_step s s' T (dstep_terminal _ _ _ I E)).
Qed.

Lemma dall_init : dall dsys_new.
Proof. split; [apply sinv_init|apply hsys_init|apply tinv_init|apply finv_init|by split|by split]. Qed.

Lemma reachable_dall acts s : drun acts dsys_new = Some s -> dall s.
Proof. apply (drun_ind dall); [apply dall_step|apply dall_init]. Qed.

Lemma sorted_sublist (l1 l2 : list nat) :
  l1 `sublist_of` l2 -> StronglySorted lt l2 -> StronglySorted lt l1.
Proof.
  induction 1 as [|x l1 l2 Hs IH|x l1 l2 Hs IH]; [done| |].
  - intros [H1 H2]%StronglySorted_cons. constructor; [auto|].
    apply Forall_forall. intros y Hy. rewrite Forall_forall in H1.
    apply H1. by eapply elem_of_sublist.
  - intros [_ H2]%StronglySorted_cons. auto.
Qed.

(** ** Theorems *)

Section DrainClaims.
Variables (acts : list DAction) (s : DSys).
Hypothesis Hrun : drun acts dsys_new = Some s.


(** The terminal error is handed over at most once and is not lost: at any
    time it waits, is leased by one receipt, or was handed over; dropping the
    receipt uncommitted puts it back, so it stays in one of the three places for
    as long as the receiver is open. *)
Theorem state_terminal_once acts' s' (Hrun' : drun acts' s = Some s') :
  opt_count (terminal (sd s)) + length (terminal_receipts s) + length (ended s) <= 1
  /\ (terminal_count s = 1 -> receiver_closed (sd s') = false -> terminal_count s' = 1)
  /\ (terminal_in_flight (sd s) = true <-> terminal_receipts s <> [])
  /\ (terminal_delivered (sd s) = true <-> ended s <> []).
Proof.
  destruct (reachable_dall _ _ Hrun) as [I H T F V O].
  destruct (run_conserves _ _ _ I T Hrun') as [Hc _]. destruct T as [T1 T2 T3].
  split_and!; [done|auto|..].
  - destruct (terminal_receipts s), (terminal_in_flight (sd s)); naive_solver.
  - destruct (ended s), (terminal_delivered (sd s)); naive_solver.
Qed.

(** Taking the next delivery never panics (no index of the frozen queue is out
    of bounds, the sizing of the buffer pool does not underflow), and a frozen
    batch has images of one epoch only, in increasing order. *)
Theorem state_recv_total limit :
  exists d sel, try_select (sd s) limit = Some (d, sel)
    /\ forall l, sel = SelFrozen l -> StronglySorted lt l.*1
         /\ forall id1 f1 id2 f2, (id1, f1) ∈ l -> (id2, f2) ∈ l ->
              recovery_epoch f1 = recovery_epoch f2.
Proof.
  destruct (reachable_dall _ _ Hrun) as [I H T [F1 F2 F3 F4] V O].
  destruct (frozen (sd s)) eqn:Hf.
  - unfold try_select. case_match; [by eexists _, _|]. destruct (terminal (sd s)); [by eexists _, _|].
    rewrite Hf.
    destruct (select_frozen_spec (frozen_images (sd s)) (members (sd s)) (frozen_queue (sd s))
                (limit `max` 1) None F2) as (sel & q' & -> & _ & Hsl & _ & He & _).
    eexists _, _. split; [done|]. intros l [= <-]. split; [by eapply sorted_sublist|done].
  - destruct (try_select_live_defined _ _ _ limit (si_dirty _ I) Hf) as [[d sel] E].
    exists d, sel. split; [done|]. intros l ->. apply try_select_cases in E.
    inversion E. congruence.
Qed.
End DrainClaims.

(** *** A drain with a pending loss *)

(** A topic is read, loses continuity and recovers, and the consumer drains. *)
Definition drain_acts : list DAction :=
  [DRegister 0 1 "IBM US Equity"] ++ read_acts 1 ++ [DMark 0 2 true; DMark 0 3 false]
  ++ [DPrepare; DSnapshot (Some (3%Z, row0 true)); DLock; DLock; DLock]
  ++ [DRecv 8; DBatch None; DDropReceipt 0]
  ++ [DRecv 8; DBatch None; DAcknowledge 0; DRecv 8; DBatch None; DAcknowledge 0].

Definition drain_state : DSys := default dsys_new (drun drain_acts dsys_new).

Lemma drain_run : drun drain_acts dsys_new = Some drain_state.
Proof. vm_compute. reflexivity. Qed.


Definition fail_acts : list DAction := [DFail Timeout; DRecv 1; DDropReceipt 0].
Definition fail_state : DSys := default dsys_new (drun fail_acts dsys_new).
Lemma fail_run : drun fail_acts dsys_new = Some fail_state.
Proof. vm_compute. reflexivity. Qed.
Definition fail_end : DSys := default dsys_new (drun [DRecv 1; DAcknowledge 0] fail_state).

Lemma state_terminal_witness : terminal_count fail_state = 1 /\ terminal_count fail_end = 1.
Proof.
  split; [vm_compute; reflexivity|].
  apply (state_terminal_once fail_acts fail_state fail_run [DRecv 1; DAcknowledge 0] fail_end);
    vm_compute; reflexivity.
Defined.

Lemma state_recv_witness :
  exists d sel, try_select (sd drain_state) 1 = Some (d, sel).
Proof.
  destruct (state_recv_total drain_acts drain_state drain_run 1) as (d & sel & E & _).
  exists d, sel. exact E.
Defined.
