(* ===== verification/StateShown.v ===== *)
(** * State delivery: the rows a consumer is shown

    Over the protocol of [StateDelivery.v] and the invariants of [StateInvariant.v] and
    [StateDrain.v]: where the rows of receipts come from, and with that the promises to a
    consumer: no image is lost to conflation, an image being one that was captured and not
    the blank row that shows a loss; and a loss is shown before the image that follows
    it, in the live queue and in a drain. *)

From Stdlib Require Import ZArith Lia.
From stdpp Require Import sorting.
From S2P Require Import Prelude Errors Update StateDelivery StateInvariant StateDrain.

(** ** Captured images *)

(** The images a step captures: those of the feeds, and the last ones of retired members. *)
Definition captured (s : DSys) (a : DAction) : list (nat * Z * ImageRow) :=
  match a with
  | DSnapshot (Some (rev, row)) =>
      match reader s with
      | RResolve (sel :: _) _ =>
          match sel_final_image sel with Some _ => [] | None => [(sel_key sel, rev, row)] end
      | RPrep ((key, _, false) :: _) _ => [(key, rev, row)]
      | _ => []
      end
  | DRetire key row =>
      match members (retire (sd s) key row) !! key ≫= final_image with
      | Some (rev, row) => [(key, rev, row)]
      | None => []
      end
  | _ => []
  end.

Fixpoint captures (acts : list DAction) (s : DSys) : list (nat * Z * ImageRow) :=
  match acts with
  | [] => []
  | a :: acts => captured s a ++ match dexec s a with Some s => captures acts s | None => [] end
  end.

(** A row is an image as it was captured, or it shows a loss and acknowledges nothing after it. *)
Definition origin (h : list (nat * Z * ImageRow)) (x : ReceiptKey) : Prop :=
  ((rk_key x, rk_revision x, rk_row x) ∈ h /\ rk_acknowledged x = rk_revision x)
  \/ exists at_, rk_invalidated x = Some at_ /\ (rk_acknowledged x <= at_)%Z.

Definition sel_from (h : list (nat * Z * ImageRow)) (l : list SelectedMember) : Prop :=
  forall x rev row, x ∈ l -> sel_final_image x = Some (rev, row) -> (sel_key x, rev, row) ∈ h.

Definition pc_from (h : list (nat * Z * ImageRow)) (pc : RdPc) : Prop :=
  match pc with
  | RSelected todo | RResolve todo _ => sel_from h todo
  | RLookup sel todo _ | RRemove sel todo _ => sel_from h (sel :: todo)
  | RRow sel rev row todo _ => sel_from h (sel :: todo) /\ (sel_key sel, rev, row) ∈ h
  | RPrepStore key (Some (rev, row)) _ _ => (key, rev, row) ∈ h
  | _ => True
  end.

Record cinv (s : DSys) (h : list (nat * Z * ImageRow)) : Prop := mkCinv {
  ci_final k m rev row : members (sd s) !! k = Some m -> final_image m = Some (rev, row) -> (k, rev, row) ∈ h;
  ci_pc : pc_from h (reader s);
  ci_rows x : x ∈ committed s \/ x ∈ held s -> origin h x
}.

Lemma origin_mono h h' x : h ⊆ h' -> origin h x -> origin h' x.
Proof. intros Hh [[? ?]|?]; [left|by right]. split; [by apply Hh|done]. Qed.

Lemma pc_from_mono h h' pc : h ⊆ h' -> pc_from h pc -> pc_from h' pc.
Proof.
  intros Hh. assert (forall l, sel_from h l -> sel_from h' l) as Hs by (intros l Hl x rev row Hx Hf; by apply Hh, (Hl x)).
  destruct pc; simpl; try done; try apply Hs.
  - intros [? ?]. split; [by apply Hs|by apply Hh].
  - destruct image as [[rev row]|]; [apply Hh|done].
Qed.

(** The final images of a step are those before it. *)
Definition finals_kept (ms ms' : gmap nat DirtyMember) : Prop :=
  forall k m', ms' !! k = Some m' -> final_image m' = None
    \/ exists m, ms !! k = Some m /\ final_image m' = final_image m.

Lemma cinv_keep s s' h h' :
  cinv s h -> h ⊆ h' -> finals_kept (members (sd s)) (members (sd s')) -> pc_from h' (reader s') ->
  (forall x, x ∈ committed s' \/ x ∈ held s' -> x ∈ committed s \/ x ∈ held s) -> cinv s' h'.
Proof.
  intros [C1 C2 C3] Hh Hf Hp Hx. split; [|done|intros x Hx'; by eapply origin_mono, C3, Hx].
  intros k m' rev row Hm' Hfi. destruct (Hf k m' Hm') as [?|(m & Hm & E)]; [congruence|]. rewrite E in Hfi. by eapply Hh, C1.
Qed.

Section Finals.
Implicit Types (d : DirtyState) (ms : gmap nat DirtyMember).

Lemma finals_refl ms : finals_kept ms ms.
Proof. intros k m Hk. right. by exists m. Qed.

Lemma finals_sub ms ms' : ms' ⊆ ms -> finals_kept ms ms'.
Proof. intros Hs k m Hk. right. exists m. split; [|done]. by eapply lookup_weaken. Qed.

Lemma finals_insert ms k m m' :
  ms !! k = Some m -> final_image m' = final_image m -> finals_kept ms (<[k := m']> ms).
Proof.
  intros Hm Hf i mi. rewrite lookup_insert. case_decide; [|apply finals_refl]. intros [= <-]. subst. right. by exists m.
Qed.

Lemma finals_mark d k rev inv : finals_kept (members d) (members (mark d k rev inv)).
Proof.
  destruct (mark_effect d k rev inv) as [[-> _]|(m & m' & Hm & -> & _ & _ & Hf & _)]; [apply finals_refl|].
  by eapply finals_insert.
Qed.

Lemma finals_register d nk f rev lbl : finals_kept (members d) (members (sd_register d nk f rev lbl)).
Proof. intros k m [[_ ->]|Hm]%register_lookup; [by left|by apply finals_refl]. Qed.

Lemma finals_remove d k : finals_kept (members d) (members (sd_remove d k)).
Proof. apply finals_sub. simpl. apply delete_subseteq. Qed.

Lemma finals_detach d k : finals_kept (members d) (members (StateDelivery.detach d k)).
Proof. unfold StateDelivery.detach. case_match; [apply finals_refl|apply finals_remove]. Qed.

Lemma finals_fail d e : finals_kept (members d) (members (fail d e)).
Proof.
  unfold fail. case_match; [apply finals_refl|]. intros k m. simpl. rewrite lookup_fmap.
  intros (m0 & Hm & ->)%fmap_Some. right. by exists m0.
Qed.

Lemma finals_close_source d : finals_kept (members d) (members (close_source d)).
Proof. unfold close_source. case_match; [|apply finals_refl]. intros k m. simpl. by rewrite lookup_empty. Qed.

Lemma finals_finish d keys c : finals_kept (members d) (members (finish d keys c)).
Proof.
  intros k m' Hm'. unfold finish in Hm'. destruct (finish_fold_same _ _ _ _ _ _ _ Hm') as (m & Hm & _ & _ & Hf).
  right. by exists m.
Qed.

Lemma finals_take ms keys ms' snaps : take_finals ms keys = (ms', snaps) -> finals_kept ms ms'.
Proof.
  intros Et k m' Hm'. destruct (take_finals_final _ _ _ _ _ _ Et Hm') as (m & Hm & [Hf|Hf]); [|by left].
  right. by exists m.
Qed.
End Finals.

#[export] Hint Resolve finals_refl finals_mark finals_register finals_remove finals_detach finals_fail
  finals_close_source finals_finish : xbbg_state.

Section CaptureSteps.
Implicit Types (s : DSys) (h : list (nat * Z * ImageRow)).

(** A step that leaves the reader and the receipts alone. *)
Lemma cinv_put s s' h h' :
  cinv s h -> h ⊆ h' -> reader s' = reader s -> receipts s' = receipts s -> committed s' = committed s ->
  (forall k m rev row, members (sd s') !! k = Some m -> final_image m = Some (rev, row) ->
     (k, rev, row) ∈ h' \/ exists m0, members (sd s) !! k = Some m0 /\ final_image m0 = Some (rev, row)) ->
  cinv s' h'.
Proof.
  intros [C1 C2 C3] Hh E1 E2 E3 Hf. split.
  - intros k m rev row Hm Hfi. destruct (Hf _ _ _ _ Hm Hfi) as [?|(m0 & ? & ?)]; [done|]. by eapply Hh, C1.
  - rewrite E1. by eapply pc_from_mono.
  - intros x. unfold held. rewrite E1, E2, E3. intros Hx. by eapply origin_mono, C3.
Qed.

Lemma finals_in ms ms' h k m rev row :
  finals_kept ms ms' -> ms' !! k = Some m -> final_image m = Some (rev, row) ->
  (k, rev, row) ∈ h \/ exists m0, ms !! k = Some m0 /\ final_image m0 = Some (rev, row).
Proof. intros Hf Hm Hfi. right. destruct (Hf _ _ Hm) as [?|(m0 & Hm0 & E)]; [congruence|]. exists m0. by rewrite <- E. Qed.

Lemma cinv_retire s h k row :
  cinv s h -> cinv (leave (put s (retire (sd s) k row)) {[k]}) (h ++ captured s (DRetire k row)).
Proof.
  intros C. eapply cinv_put; [exact C|set_solver|done..|]. simpl. intros i m rev r Hm Hfi.
  assert (Hn : i = k \/ members (sd s) !! i = Some m).
  { revert Hm. unfold retire. repeat case_match; try by right.
    edestruct enqueue_members as [b ->]. rewrite lookup_insert. case_decide; [by left|by right]. }
  destruct Hn as [-> |Hm']; [left|right; by exists m]. rewrite Hm. simpl. rewrite Hfi. set_solver.
Qed.

Lemma cinv_feed s h a s' :
  cinv s h -> dexec s a = Some s' ->
  match a with
  | DRegister _ _ _ | DMark _ _ _ | DRetire _ _ | DDetach _ | DFail _ | DCloseSource
  | DReadBuffer _ | DRecycle _ => True
  | _ => False
  end -> cinv s' (h ++ captured s a).
Proof.
  intros C E Ha. assert (Hgen : forall s', dexec s a = Some s' -> captured s a = [] ->
    reader s' = reader s -> receipts s' = receipts s -> committed s' = committed s ->
    finals_kept (members (sd s)) (members (sd s')) -> cinv s' (h ++ captured s a)).
  { intros s1 _ -> E1 E2 E3 Hf. rewrite app_nil_r. eapply cinv_put; eauto using finals_in. }
  destruct a; try done; pose proof E as E0; simpl in E.
  - case_match; [|done]. simplify_eq. apply Hgen; simpl; eauto with xbbg_state.
  - case_match; [|done]. destruct (sets_marker _ _ _); simplify_eq; apply Hgen; simpl; eauto with xbbg_state.
  - case_match; [done|]. simplify_eq. by apply cinv_retire.
  - simplify_eq. apply Hgen; simpl; eauto with xbbg_state.
  - simplify_eq. apply Hgen; simpl; eauto with xbbg_state.
  - simplify_eq. apply Hgen; simpl; eauto with xbbg_state.
  - simplify_eq. apply Hgen; simpl; eauto with xbbg_state. unfold read_buffer. case_match; apply finals_refl.
  - simplify_eq. apply Hgen; simpl; eauto with xbbg_state. unfold recycle_values. repeat case_match; apply finals_refl.
Qed.

Lemma cinv_select s h limit s' :
  sinv s -> cinv s h -> reader s = RIdle -> reader_select s limit = Some s' -> cinv s' h.
Proof.
  intros I C Hr. unfold reader_select. destruct (try_select _ _) as [[d sel]|] eqn:E; [|done].
  simpl. intros [= <-].
  destruct (try_select_cases _ _ _ _ E) as [|e He _ _ _|l q Hfr Hz Ht Hq|l ms q n hw Hfr Hz Hqn El].
  - eapply cinv_keep; [exact C|done|apply finals_refl|apply C|done].
  - eapply cinv_keep; [exact C|done|apply finals_refl|apply C|]. intros x. unfold held. simpl.
    rewrite bind_app. simpl. by rewrite app_nil_r.
  - destruct l; (eapply cinv_keep; [exact C|done|apply finals_refl| |]); unfold held; simpl; rewrite ?Hr; done.
  - pose proof (di_queue _ _ _ (si_dirty _ I)) as Q.
    apply (qinv_select _ _ _ _ _ _ _ Q) in El as (_ & Hsel & Hms).
    assert (Hf : finals_kept (members (sd s)) ms).
    { intros k m'. rewrite Hms. case_decide; [|apply finals_refl]. rewrite fmap_Some.
      intros (m & Hm & ->). right. by exists m. }
    assert (Hok : sel_from h l).
    { intros x rev row Hx Hfin. destruct (Hsel _ Hx) as (m & Hm & Ex). rewrite Ex in Hfin |- *.
      by eapply (ci_final _ _ C). }
    destruct l; (eapply cinv_keep; [exact C|done|exact Hf| |]); unfold held; simpl; rewrite ?Hr; done.
Qed.

Lemma cinv_close s h : cinv s h -> cinv (close_receiver s) h.
Proof.
  intros C. eapply cinv_keep; [exact C|done| |done|].
  - intros k m. simpl. by rewrite lookup_empty.
  - intros x. unfold held. simpl. rewrite elem_of_app. tauto.
Qed.

Lemma cinv_snapshot s h image s' :
  cinv s h -> reader_snapshot s image = Some s' -> cinv s' (h ++ captured s (DSnapshot image)).
Proof.
  intros C E. pose proof (ci_pc _ _ C) as Hp. unfold reader_snapshot in E. simpl.
  assert (Hgen : forall pc h', sd s' = sd s -> receipts s' = receipts s -> committed s' = committed s ->
    reader s' = pc -> reader_rows pc = reader_rows (reader s) -> h ⊆ h' -> pc_from h' pc -> cinv s' h').
  { intros pc h' E1 E2 E3 E4 E5 Hh Hpc. eapply cinv_keep; [exact C|done|rewrite E1; apply finals_refl|by rewrite E4|].
    intros x. unfold held. by rewrite E2, E3, E4, E5. }
  destruct (reader s) eqn:Hr; try done.
  - destruct todo as [|sel todo]; [done|]. destruct (sel_final_image sel) as [[rev row]|] eqn:Efi.
    { simplify_eq. assert (Hc : h ⊆ h ++ captured s (DSnapshot image)) by set_solver.
      simpl in Hc. rewrite Hr, Efi in Hc. eapply Hgen; [done..|exact Hc|].
      eapply pc_from_mono; [exact Hc|]. split; [done|]. apply Hp; [left|done]. }
    destruct (capture s _ image) as [s1|] eqn:Ec; [|done]. simpl in E. simplify_eq.
    apply capture_shape in Ec as (E1 & _ & _ & E2 & E3 & _).
    destruct image as [[rev row]|]; simpl; (eapply Hgen; [done..|set_solver|]); simpl.
    + split; [|set_solver]. intros y rv rw Hy Hfi. apply elem_of_app. left. by eapply Hp.
    + by rewrite app_nil_r.
  - destruct todo as [|[[k f] b] todo]; [done|]. destruct b.
    { simplify_eq. eapply Hgen; [done..|set_solver|done]. }
    destruct (capture s _ image) as [s1|] eqn:Ec; [|done]. simpl in E. simplify_eq.
    apply capture_shape in Ec as (E1 & _ & _ & E2 & E3 & _).
    destruct image as [[rev row]|]; simpl; (eapply Hgen; [done..|set_solver|]); simpl; [set_solver|done].
Qed.

(** A row built under the lock is the image it was given, or shows the pending loss. *)
Lemma row_key_origin h d sel rev row : (sel_key sel, rev, row) ∈ h -> origin h (row_key d sel rev row).
Proof.
  intros Hin. unfold row_key. destruct (or_else _ _) as [at_|] eqn:E; [|by left].
  destruct (row_valid row); [right|by left]. exists at_. split; [done|]. simpl. lia.
Qed.

Lemma cinv_lock s h s' : cinv s h -> reader_lock s = Some s' -> cinv s' h.
Proof.
  intros C E. pose proof (ci_pc _ _ C) as Hp. unfold reader_lock in E.
  assert (Hgen : forall pc, receipts s' = receipts s -> committed s' = committed s ->
    reader s' = pc -> reader_rows pc = reader_rows (reader s) -> pc_from h pc ->
    finals_kept (members (sd s)) (members (sd s')) -> cinv s' h).
  { intros pc E2 E3 E4 E5 Hpc Hf. eapply cinv_keep; [exact C|done|exact Hf|by rewrite E4|].
    intros x. unfold held. by rewrite E2, E3, E4, E5. }
  destruct (reader s) eqn:Hr; try done.
  - destruct (members (sd s) !! sel_key sel ≫= final_image) as [[rev row]|] eqn:Ef; simplify_eq;
      (eapply Hgen; [done..| |apply finals_refl]); [|done].
    split; [done|]. apply bind_Some in Ef as (m & Hm & Hfin). by eapply (ci_final _ _ C).
  - simplify_eq. eapply Hgen; [done..| |apply finals_remove]. intros x rev row Hx. apply Hp. by right.
  - simplify_eq. destruct Hp as [Hp Hin]. split; simpl; [apply C|intros x rv rw Hx; apply Hp; by right|].
    intros x Hx. assert (Hx' : x = row_key (sd s) sel rev row \/ x ∈ committed s \/ x ∈ held s).
    { revert Hx. unfold held. simpl. rewrite Hr. simpl. set_solver. }
    destruct Hx' as [-> |Hx']; [by apply row_key_origin|by apply C].
  - destruct todo as [|? ?]; [|done]. unfold prep_take in E.
    destruct (take_finals _ _) as [ms snaps] eqn:Et. simplify_eq. eapply Hgen; [done..|by eapply finals_take].
  - destruct (prep_store _ _ _) as [d rm] eqn:Es. simplify_eq.
    split; [|by destruct rm|].
    + intros k m rev row. simpl. revert Es. unfold prep_store.
      destruct (members (sd s) !! key) as [m0|] eqn:Hm0; [|intros [= <- <-]; apply C].
      destruct (retired m0); [intros [= <- <-]; apply C|].
      destruct image as [[rv rw]|]; intros [= <- <-]; [|apply C]. simpl. rewrite lookup_insert.
      case_decide; [|apply C]. intros [= <-]. simpl. intros [= <- <-]. by subst.
    + intros x Hx. apply C. revert Hx. unfold held. rewrite Hr. by destruct rm.
  - simplify_eq. eapply Hgen; [done..|apply finals_remove].
  - simplify_eq. eapply Hgen; [done..|apply finals_refl].
Qed.

Lemma cinv_batch s h failure s' : cinv s h -> reader_batch s failure = Some s' -> cinv s' h.
Proof.
  intros C E. unfold reader_batch in E. destruct (reader s) eqn:Hr; try done.
  - destruct todo; [|done]. destruct keys as [|k keys]; simplify_eq;
      (eapply cinv_keep; [exact C|done|apply finals_refl|done|]); intros x; unfold held; simpl; rewrite Hr; [done|].
    simpl. rewrite bind_app. simpl. rewrite app_nil_r, !elem_of_app, !elem_of_cons, !elem_of_app. naive_solver.
  - simplify_eq. eapply cinv_keep; [exact C|done|apply finals_refl|done|]. intros x. unfold held. simpl.
    rewrite Hr, bind_app. simpl. by rewrite app_nil_r.
Qed.

Lemma cinv_end s h i r c : cinv s h -> receipts s !! i = Some r -> cinv (end_receipt s i r c) h.
Proof.
  intros C Hi. assert (Hgen : forall s', reader s' = reader s -> receipts s' = delete i (receipts s) ->
    (committed s' = committed s \/ committed s' = committed s ++ rc_keys r \/ committed s' = committed s ++ []) ->
    finals_kept (members (sd s)) (members (sd s')) -> cinv s' h).
  { intros s' E1 E2 E3 Hf. eapply cinv_keep; [exact C|done|exact Hf|rewrite E1; apply C|].
    intros x. rewrite (held_delete _ _ _ x Hi). unfold held. rewrite E1, E2.
    destruct E3 as [-> |[-> | ->]]; set_solver. }
  unfold end_receipt. destruct (rc_terminal r).
  - generalize (if c then None else receipt_error r) as e. intros e.
    destruct e; apply Hgen; simpl; eauto with xbbg_state.
  - assert (Hf : finals_kept (members (sd s)) (members (match rc_frozen r with
      | [] => finish (sd s) (rc_keys r) c | ids => finish_frozen (sd s) ids c end))).
    { destruct (rc_frozen r); [apply finals_finish|]. unfold finish_frozen. case_match; apply finals_refl. }
    destruct c; apply Hgen; simpl; auto.
Qed.

Lemma cinv_update_receipt s h i r r' :
  cinv s h -> receipts s !! i = Some r -> rc_keys r' = rc_keys r ->
  cinv (set_receipts s (<[i := r']> (receipts s))) h.
Proof.
  intros C Hi E. eapply cinv_keep; [exact C|done|apply finals_refl|apply C|].
  intros x. unfold held. simpl. rewrite !elem_of_app. intros [?|[?|Hx]]; [by left|by right; left|right; right].
  rewrite insert_take_drop in Hx by (by eapply lookup_lt_Some).
  rewrite <- (take_drop_middle (receipts s) i r) by done. revert Hx. by rewrite !bind_app, !bind_cons, E.
Qed.

Lemma cinv_step s h a s' : sinv s -> cinv s h -> dexec s a = Some s' -> cinv s' (h ++ captured s a).
Proof.
  intros I C E. destruct a; try (by eapply cinv_feed); try (by apply cinv_snapshot);
    simpl captured; rewrite app_nil_r; simpl in E.
  - destruct (is_idle (reader s)) eqn:Hi; [|done]. eapply cinv_select; [done..| |done]. by destruct (reader s).
  - pose proof (ci_pc _ _ C) as Hp. destruct (reader s) eqn:Hr; try done; destruct alive; simplify_eq; try done;
      try by apply cinv_close.
    eapply cinv_keep; [exact C|done|apply finals_refl|done|]. unfold held. simpl. by rewrite Hr.
  - by eapply cinv_lock.
  - by eapply cinv_batch.
  - destruct (is_idle (reader s)) eqn:Hi; [|done]. assert (Hr : reader s = RIdle) by (by destruct (reader s)).
    unfold prep_begin in E. destruct (_ || freezing (sd s)); simplify_eq; [done|].
    eapply cinv_keep; [exact C|done|apply finals_refl|done|]. unfold held. simpl. by rewrite Hr.
  - destruct (is_idle (reader s)); [|done]. simplify_eq. by apply cinv_close.
  - destruct (receipts s !! i) eqn:Hi; [|done]. simpl in E. simplify_eq. by eapply cinv_update_receipt.
  - destruct (receipts s !! i) eqn:Hi; [|done]. simpl in E. case_match; [done|]. simplify_eq.
    by eapply cinv_update_receipt.
  - destruct (receipts s !! i) eqn:Hi; [|done]. simpl in E. simplify_eq. by apply cinv_end.
  - destruct (receipts s !! i) eqn:Hi; [|done]. simpl in E. simplify_eq. by apply cinv_end.
Qed.

Lemma cinv_run acts s h s' :
  sinv s -> cinv s h -> drun acts s = Some s' -> cinv s' (h ++ captures acts s).
Proof.
  revert s h. induction acts as [|a acts IH]; intros s h I C; simpl.
  - intros [= <-]. by rewrite app_nil_r.
  - destruct (dexec s a) as [s1|] eqn:E; [|done]. simpl. intros Hr. rewrite (assoc_L (++)).
    apply IH; [by eapply sinv_step|by apply cinv_step|done].
Qed.

Lemma reachable_cinv acts s : drun acts dsys_new = Some s -> cinv s (captures acts dsys_new).
Proof.
  intros Hr. apply (cinv_run acts dsys_new [] s sinv_init); [|done].
  split; [done|done|]. by intros x [?%not_elem_of_nil|?%not_elem_of_nil].
Qed.
End CaptureSteps.

(** ** Losses in a drain *)

(** Among frozen images, one that follows a loss comes after the image that shows it, unless
    the membership ended or a live row showed that loss. *)
Definition shows_first (ls : list (nat * Z)) (g : gset nat) (com : list ReceiptKey)
    (images : list FrozenImage) : Prop :=
  forall j f at_, images !! j = Some f -> row_valid (fr_row f) = true -> (fr_key f, at_) ∈ ls ->
    (at_ <= fr_revision f)%Z ->
    fr_key f ∈ g \/ published com (fr_key f) at_
    \/ exists i f0, i < j /\ images !! i = Some f0 /\ fr_key f0 = fr_key f /\ fr_invalidated f0 = Some at_
         /\ row_valid (fr_row f0) = false /\ recovery_epoch f0 = false /\ recovery_epoch f = true.

Definition linv (s : DSys) : Prop :=
  shows_first (losses s) (gone s) (committed s) (frozen_images (sd s))
  /\ match reader s with
     | RPrepInstall snaps => shows_first (losses s) (gone s) (committed s) (epoch_images snaps)
     | _ => True
     end.

Section DrainLosses.
Implicit Types s : DSys.

Lemma shows_first_mono ls g g' com l images :
  shows_first ls g com images -> g ⊆ g' -> shows_first ls g' (com ++ l) images.
Proof.
  intros H Hg j f at_ Hj Hv Hin Hle. destruct (H j f at_ Hj Hv Hin Hle) as [?|[?|?]]; [left; by apply Hg| |by right; right].
  right; left. by apply published_app.
Qed.

(** Every snapshot is the final image of a member, with the member's marker. *)
Lemma take_finals_from ms keys ms' snaps k rev row inv :
  take_finals ms keys = (ms', snaps) -> (k, rev, row, inv) ∈ snaps ->
  exists m, ms !! k = Some m /\ final_image m = Some (rev, row) /\ invalidated m = inv.
Proof.
  revert ms ms' snaps. induction keys as [|k0 keys IH]; intros ms ms' snaps; simpl.
  { intros [= <- <-]. by intros ?%not_elem_of_nil. }
  destruct (ms !! k0) as [m0|] eqn:E0; [|by apply IH].
  destruct (take_finals _ _) as [ms1 snaps1] eqn:Et. intros [= <- <-] Hin.
  assert (Htl : (k, rev, row, inv) ∈ snaps1 ->
    exists m, ms !! k = Some m /\ final_image m = Some (rev, row) /\ invalidated m = inv).
  { intros (m & Hm & Hf & Hi)%(IH _ _ _ Et). rewrite lookup_insert in Hm.
    destruct (decide (k0 = k)); [by simplify_eq|eauto]. }
  destruct (final_image m0) as [[rv rw]|] eqn:Ef; [|by apply Htl].
  apply elem_of_cons in Hin as [[= -> -> -> ->]|Hin]; [by exists m0|by apply Htl].
Qed.

(** Where the images of a drain come from, and where the loss of a recovered one is. *)
Lemma epoch_images_at snaps j f :
  epoch_images snaps !! j = Some f -> row_valid (fr_row f) = true ->
  exists rev row inv, (fr_key f, rev, row, inv) ∈ snaps /\ fr_revision f = rev
    /\ forall at_, filter_le inv rev = Some at_ -> recovery_epoch f = true
        /\ exists i, i < j /\ epoch_images snaps !! i = Some (mkFrozen (fr_key f) at_ (Some at_) false (loss_row row)).
Proof.
  unfold epoch_images. rewrite lookup_app_Some. intros Hj Hv.
  assert (Hf : exists sn, sn ∈ snaps /\ (f ∈ (snapshot_images sn).1
    \/ f ∈ (snapshot_images sn).2 /\ length ((snapshot_images <$> snaps).*1 ≫= id) <= j)).
  { destruct Hj as [Hj%list_elem_of_lookup_2|[Hle Hj%list_elem_of_lookup_2]];
      apply list_elem_of_bind in Hj as (l & Hl & Hin); apply list_elem_of_fmap in Hin as (p & -> & Hin);
      apply list_elem_of_fmap in Hin as (sn & -> & Hin); exists sn; auto. }
  destruct Hf as ([[[k rev] row] inv] & Hin & Hf). simpl in Hf.
  destruct (filter_le inv rev) as [mk|] eqn:Ei; [destruct (row_valid row) eqn:Er|]; simpl in Hf.
  - destruct Hf as [->%list_elem_of_singleton|[->%list_elem_of_singleton Hle]]; [done|].
    exists rev, row, inv. split_and!; [done..|]. intros at_. rewrite Ei. intros [= <-]. split; [done|].
    assert (Hl : mkFrozen k mk (Some mk) false (loss_row row) ∈ (snapshot_images <$> snaps).*1 ≫= id).
    { apply list_elem_of_bind. eexists. split; [|apply list_elem_of_fmap; eexists; split;
        [reflexivity|apply list_elem_of_fmap; eexists; split; [reflexivity|exact Hin]]].
      simpl. rewrite Ei, Er. left. }
    apply list_elem_of_lookup in Hl as [i Hi]. exists i. pose proof (lookup_lt_Some _ _ _ Hi).
    split; [lia|]. by rewrite lookup_app_l.
  - destruct Hf as [->%list_elem_of_singleton|[?%not_elem_of_nil _]]; [|done]. simpl in Hv. congruence.
  - destruct Hf as [->%list_elem_of_singleton|[?%not_elem_of_nil _]]; [|done].
    exists rev, row, inv. split_and!; [done..|]. congruence.
Qed.

Lemma shows_first_take s pending ms snaps :
  hsys s -> take_finals (members (sd s)) pending = (ms, snaps) ->
  shows_first (losses s) (gone s) (committed s) (epoch_images snaps).
Proof.
  intros H Et j f at_ Hj Hv Hl Hle.
  destruct (epoch_images_at _ _ _ Hj Hv) as (rev & row & inv & Hin & Er & Hfirst).
  destruct (hi_loss _ _ _ _ _ _ _ _ (hs_hinv _ H) _ _ Hl) as [?|[(m & Hm & Hi & _)|?]]; [by left| |by right; left].
  destruct (take_finals_from _ _ _ _ _ _ _ _ Et Hin) as (m0 & Hm0 & Hf & Hi0). simplify_eq.
  right; right. destruct (Hfirst at_) as (Hep & i & Hlt & Hat); [|by eexists i, _].
  rewrite Hi. simpl. by rewrite decide_True.
Qed.

(** What every step does to the recorded history and to the frozen images. *)
Definition drain_grows (s s' : DSys) : Prop :=
  gone s ⊆ gone s' /\ (exists l, committed s' = committed s ++ l)
  /\ (losses s' = losses s \/ frozen (sd s') = false)
  /\ (frozen_images (sd s') = frozen_images (sd s) \/ frozen_images (sd s') = []
      \/ exists snaps, reader s = RPrepInstall snaps /\ frozen_images (sd s') = epoch_images snaps)
  /\ (forall snaps, reader s' = RPrepInstall snaps -> reader s = RPrepInstall snaps
      \/ exists pending ms, take_finals (members (sd s)) pending = (ms, snaps)).

Lemma drain_grows_quiet s s' :
  gone s ⊆ gone s' -> committed s' = committed s -> losses s' = losses s ->
  frozen_images (sd s') = frozen_images (sd s) ->
  reader s' = reader s \/ (forall snaps, reader s' <> RPrepInstall snaps) -> drain_grows s s'.
Proof.
  intros H1 H2 H3 H4 H5. split_and!; [done|exists []; by rewrite app_nil_r|by left|by left|].
  intros snaps E. destruct H5 as [H5|H5]; [left; congruence|by destruct (H5 snaps)].
Qed.

Lemma frozen_images_ops d k f rev inv lbl row b :
  frozen_images (sd_register d k f rev lbl) = frozen_images d
  /\ frozen_images (mark d k rev inv) = frozen_images d
  /\ frozen_images (retire d k row) = frozen_images d
  /\ frozen_images (StateDelivery.detach d k) = frozen_images d
  /\ frozen_images (close_source d) = frozen_images d
  /\ frozen_images (read_buffer d k) = frozen_images d
  /\ frozen_images (recycle_values d b) = frozen_images d.
Proof.
  destruct (frozen_same_ops d k f rev inv lbl row b) as (H1 & H2 & H3 & H4 & H5 & H6 & H7).
  unfold frozen_same in *. tauto.
Qed.

Lemma drain_grows_close s : drain_grows s (close_receiver s).
Proof. split_and!; [set_solver|exists []; by rewrite app_nil_r|by left|by right; left|done]. Qed.

Lemma drain_grows_feed s a s' :
  dexec s a = Some s' ->
  match a with
  | DRegister _ _ _ | DMark _ _ _ | DRetire _ _ | DDetach _ | DFail _ | DCloseSource
  | DReadBuffer _ | DRecycle _ => True
  | _ => False
  end -> drain_grows s s'.
Proof.
  intros E Ha. destruct a; try done; simpl in E.
  - case_match; [|done]. simplify_eq. apply drain_grows_quiet; try done; [|by left].
    apply (frozen_images_ops _ _ _ _ false _ (row0 true) true).
  - case_match; [|done]. pose proof (frozen_images_ops (sd s) key 0 rev inv "" (row0 true) true) as (_ & Hm & _).
    destruct (sets_marker _ _ _) eqn:Es; simplify_eq; [|apply drain_grows_quiet; by auto].
    split_and!; [done|exists []; by rewrite app_nil_r|right|by left|auto].
    unfold sets_marker in Es. apply andb_true_iff in Es as [[_ Es%negb_true_iff]%andb_true_iff _].
    apply orb_false_iff in Es as [_ Hf]. destruct (frozen_same_ops (sd s) key 0 rev inv "" (row0 true) true) as (_ & Hs & _).
    simpl. unfold frozen_same in Hs. destruct Hs as (_ & _ & -> & _). done.
  - case_match; [done|]. simplify_eq. apply drain_grows_quiet; try done; [set_solver| |by left].
    apply (frozen_images_ops _ _ 0 0 false "" _ true).
  - simplify_eq. apply drain_grows_quiet; try done; [set_solver| |by left].
    apply (frozen_images_ops _ _ 0 0 false "" (row0 true) true).
  - simplify_eq. apply drain_grows_quiet; try done; [|by left]. simpl. unfold fail. by case_match.
  - simplify_eq. apply drain_grows_quiet; try done; [set_solver| |by left].
    apply (frozen_images_ops _ 0 0 0 false "" (row0 true) true).
  - simplify_eq. apply drain_grows_quiet; try done; [|by left].
    apply (frozen_images_ops _ _ 0 0 false "" (row0 true) true).
  - simplify_eq. apply drain_grows_quiet; try done; [|by left].
    apply (frozen_images_ops _ 0 0 0 false "" (row0 true) _).
Qed.

Lemma drain_grows_select s limit s' : reader_select s limit = Some s' -> drain_grows s s'.
Proof.
  unfold reader_select. destruct (try_select _ _) as [[d sel]|] eqn:E; [|done]. simpl. intros [= <-].
  destruct (try_select_cases _ _ _ _ E) as [|e He _ _ _|l q Hfr Hz Ht Hq|l ms q n hw Hfr Hz Hqn El];
    try destruct l; apply drain_grows_quiet; auto.
Qed.

Lemma drain_grows_lock s s' : reader_lock s = Some s' -> drain_grows s s'.
Proof.
  unfold reader_lock. intros E. destruct (reader s) eqn:Hr; try done.
  - case_match; [case_match|]; simplify_eq; apply drain_grows_quiet; auto.
  - simplify_eq. apply drain_grows_quiet; auto. set_solver.
  - simplify_eq. apply drain_grows_quiet; auto.
  - destruct todo; [|done]. unfold prep_take in E. destruct (take_finals _ _) as [ms snaps] eqn:Et. simplify_eq.
    split_and!; [done|exists []; by rewrite app_nil_r|by left|by left|]. intros snaps' [= <-]. right. eauto.
  - unfold prep_store in E. repeat case_match; simplify_eq; apply drain_grows_quiet; auto.
  - simplify_eq. apply drain_grows_quiet; auto. set_solver.
  - simplify_eq. split_and!; [done|exists []; by rewrite app_nil_r|by left| |done].
    right; right. by exists snaps.
Qed.

Lemma drain_grows_snapshot s image s' : reader_snapshot s image = Some s' -> drain_grows s s'.
Proof.
  unfold reader_snapshot. intros E. destruct (reader s) eqn:Hr; try done; destruct todo as [|x todo]; try done.
  - case_match; [case_match|]; simplify_eq; [apply drain_grows_quiet; auto|].
    destruct (capture s _ image) as [s1|] eqn:Ec; simplify_eq/=.
    apply capture_shape in Ec as (E1 & _ & _ & _ & E3 & E4 & E5 & _).
    destruct image as [[? ?]|]; apply drain_grows_quiet; simpl; auto; congruence || by rewrite E5.
  - destruct x as [[k f] []]; [simplify_eq; apply drain_grows_quiet; auto|].
    destruct (capture s _ image) as [s1|] eqn:Ec; simplify_eq/=.
    apply capture_shape in Ec as (E1 & _ & _ & _ & E3 & E4 & E5 & _).
    apply drain_grows_quiet; simpl; auto; congruence || by rewrite E5.
Qed.

Lemma drain_grows_end s i r c : drain_grows s (end_receipt s i r c).
Proof.
  assert (Hi : forall ks, frozen_images (match rc_frozen r with
      | [] => finish (sd s) ks c | ids => finish_frozen (sd s) ids c end) = frozen_images (sd s)).
  { intros ks. destruct (rc_frozen r).
    - by destruct (finish_shape (sd s) ks c) as (ms & q & ->).
    - unfold finish_frozen. by case_match. }
  unfold end_receipt. destruct (rc_terminal r).
  - destruct (if c then None else receipt_error r); (split_and!; [done|..|auto]);
      [exists []; by rewrite app_nil_r|by left|by left|by exists []|by left|by left].
  - destruct c; (split_and!; [done|..|auto]).
    + by exists (rc_keys r). + by left. + left. apply Hi.
    + exists []. by rewrite app_nil_r. + by left. + left. apply Hi.
Qed.

Lemma drain_grows_step s a s' : dexec s a = Some s' -> drain_grows s s'.
Proof.
  intros E. destruct a; try (by eapply drain_grows_feed); simpl in E.
  - case_match; [|done]. by eapply drain_grows_select.
  - destruct (reader s) eqn:Hr; try done; destruct alive; simplify_eq; try apply drain_grows_close;
      apply drain_grows_quiet; auto.
  - by eapply drain_grows_snapshot.
  - by apply drain_grows_lock.
  - unfold reader_batch in E. repeat case_match; simplify_eq; apply drain_grows_quiet; auto.
  - case_match; [|done]. unfold prep_begin in E. repeat case_match; simplify_eq; apply drain_grows_quiet; auto.
  - case_match; [|done]. simplify_eq. apply drain_grows_close.
  - destruct (receipts s !! i); [|done]. simplify_eq/=. apply drain_grows_quiet; auto.
  - destruct (receipts s !! i); [|done]. simpl in E. case_match; [done|]. simplify_eq. apply drain_grows_quiet; auto.
  - destruct (receipts s !! i); [|done]. simplify_eq/=. apply drain_grows_end.
  - destruct (receipts s !! i); [|done]. simplify_eq/=. apply drain_grows_end.
Qed.

Lemma shows_first_nil ls g com : shows_first ls g com [].
Proof. by intros j f at_ ?. Qed.

Lemma linv_step s a s' : dall s -> linv s -> dexec s a = Some s' -> linv s'.
Proof.
  intros [I H T F _ _] [L1 L2] E. pose proof (sinv_step _ _ _ I E) as I'.
  assert (F' : frozen (sd s') = false -> frozen_images (sd s') = [])
    by (intros Hf; apply (finv_step _ _ _ I T F E); by left).
  destruct (drain_grows_step _ _ _ E) as (Hg & [l El] & Hl & Hi & Hp).
  destruct (frozen (sd s')) eqn:Hf.
  2:{ split; [rewrite F' by done; apply shows_first_nil|]. pose proof (si_pc _ I') as Hpc.
      destruct (reader s'); try done. destruct Hpc as (_ & ? & _). congruence. }
  destruct Hl as [Hl|?]; [|done]. unfold linv. rewrite Hl, El. split.
  - destruct Hi as [-> |[-> |(snaps & Er & ->)]]; [by eapply shows_first_mono|apply shows_first_nil|].
    rewrite Er in L2. by eapply shows_first_mono.
  - destruct (reader s') eqn:Er; try done. destruct (Hp _ eq_refl) as [Er'|(pending & ms & Et)].
    + rewrite Er' in L2. by eapply shows_first_mono.
    + eapply shows_first_mono; [by eapply shows_first_take|done].
Qed.

Lemma reachable_linv acts s : drun acts dsys_new = Some s -> dall s /\ linv s.
Proof.
  apply (drun_ind (fun s => dall s /\ linv s)).
  - intros s0 a s1 [D L] E. split; [by eapply dall_step|by eapply linv_step].
  - split; [apply dall_init|]. split; [apply shows_first_nil|done].
Qed.

Lemma select_frozen_sub images ms q n epoch sel q' i :
  select_frozen images ms q n epoch = Some (sel, q') -> i ∈ q' -> i ∈ q.
Proof.
  revert n epoch sel. induction q as [|id q IH]; intros n epoch sel E Hi.
  { by destruct n; simplify_eq/=. }
  destruct n as [|n]; [by simplify_eq/=|].
  simpl in E. destruct (images !! id) as [f|]; [|done]. simpl in E. case_match; [right; eauto|].
  case_match; [by simplify_eq/=|].
  destruct (select_frozen images ms q n _) as [[sel0 q0]|] eqn:Er; [|done]. simplify_eq/=. right. eauto.
Qed.

(** What a frozen selection takes comes before what it leaves. *)
Lemma select_frozen_before images ms q n epoch sel q' i j :
  select_frozen images ms q n epoch = Some (sel, q') -> StronglySorted lt q ->
  j ∈ sel.*1 -> i ∈ q' -> j < i.
Proof.
  revert n epoch sel. induction q as [|id q IH]; intros n epoch sel E Hs Hj Hi.
  { destruct n; simplify_eq/=; by apply not_elem_of_nil in Hi. }
  destruct n as [|n]; [simplify_eq/=; by apply not_elem_of_nil in Hj|].
  apply StronglySorted_inv in Hs as [Hs Hid]. rewrite Forall_forall in Hid.
  simpl in E. destruct (images !! id) as [f|]; [|done]. simpl in E. case_match; [eauto|].
  case_match; [simplify_eq/=; by apply not_elem_of_nil in Hj|].
  destruct (select_frozen images ms q n _) as [[sel0 q0]|] eqn:Er; [|done]. simplify_eq/=.
  apply elem_of_cons in Hj as [-> |Hj]; [|eauto]. apply Hid. by eapply select_frozen_sub.
Qed.

Lemma try_select_open s limit d l :
  try_select (sd s) limit = Some (d, SelFrozen l) ->
  open_drain s /\ exists q, select_frozen (frozen_images (sd s)) (members (sd s)) (frozen_queue (sd s))
                             (limit `max` 1) None = Some (l, q).
Proof.
  unfold try_select. case_match eqn:E; [done|].
  apply orb_false_iff in E as [[[? ?]%orb_false_iff ?]%orb_false_iff ?].
  destruct (terminal (sd s)) eqn:Et; [done|]. destruct (frozen (sd s)) eqn:Ef; [|by repeat case_match].
  destruct (select_frozen _ _ _ _ _) as [[l' q]|] eqn:Es; [|done]. intros [= <- <-].
  split; [by split_and!|eauto].
Qed.

Lemma loss_before_valid s k at_ l1 x l2 :
  hsys s -> (k, at_) ∈ losses s -> k ∉ gone s -> committed s = l1 ++ x :: l2 -> valid_after k at_ x ->
  exists y, y ∈ l1 /\ rk_key y = k /\ rk_invalidated y = Some at_ /\ row_valid (rk_row y) = false.
Proof.
  intros H Hloss Hmember Hc Hv.
  destruct (hi_loss _ _ _ _ _ _ _ _ (hs_hinv _ H) _ _ Hloss)
    as [?|[(m & _ & _ & Hno)|(p1 & y & p2 & E & Ek & Ei & Ev & Hno)]]; [done| |].
  - destruct (Hno x); [|done]. left. rewrite Hc. set_solver.
  - exists y. split_and!; [|done..]. rewrite Hc in E. pose proof Hv as (_ & Hxv & _).
    apply app_eq_inv in E as [(l & -> & E)|(l & -> & E)].
    + destruct l as [|z l]; simpl in E; simplify_eq; [congruence|set_solver].
    + destruct l as [|z l]; simpl in E; simplify_eq; [congruence|].
      exfalso. eapply Hno, Hv. set_solver.
Qed.

(** A covered loss image was shown by a live row. *)
Lemma covered_published s f m at_ :
  hsys s -> (fr_key f, at_) ∈ losses s -> fr_key f ∉ gone s -> members (sd s) !! fr_key f = Some m ->
  fr_invalidated f = Some at_ -> covered_by f m = true -> published (committed s) (fr_key f) at_.
Proof.
  intros H Hloss Hn Hm Hi Hc. unfold covered_by in Hc. rewrite Hi in Hc.
  apply andb_true_iff in Hc as [_ Hc%bool_decide_eq_true].
  destruct (hi_loss _ _ _ _ _ _ _ _ (hs_hinv _ H) _ _ Hloss) as [?|[(m0 & ? & ? & _)|?]]; [done|congruence|done].
Qed.

Lemma frozen_loss_out s at_ limit d l j f :
  hsys s -> finv s -> shows_first (losses s) (gone s) (committed s) (frozen_images (sd s)) ->
  (fr_key f, at_) ∈ losses s -> fr_key f ∉ gone s -> try_select (sd s) limit = Some (d, SelFrozen l) ->
  (j, f) ∈ l -> row_valid (fr_row f) = true -> (at_ <= fr_revision f)%Z ->
  published (committed s) (fr_key f) at_
  \/ exists i f0, i < j /\ frozen_images (sd s) !! i = Some f0 /\ fr_key f0 = fr_key f
       /\ fr_invalidated f0 = Some at_ /\ row_valid (fr_row f0) = false
       /\ (i ∈ out_ids s \/ i ∈ frozen_done s).
Proof.
  intros H F L Hloss Hn Es Hj Hv Hle.
  destruct (try_select_open _ _ _ _ Es) as (Hopen & q & Eq).
  destruct (select_frozen_spec (frozen_images (sd s)) (members (sd s)) (frozen_queue (sd s))
              (limit `max` 1) None (fi_bound _ F)) as (sel & q' & Es' & _ & _ & Hat & Hep & Hq).
  rewrite Eq in Es'. simplify_eq. destruct (Hat _ _ Hj) as [Hf _].
  destruct (L j f at_ Hf Hv Hloss Hle) as [?|[?|(i & f0 & Hlt & Hf0 & Ek & Ei & Ev & Ee0 & Ee)]]; [done|by left|].
  assert (Hcov : forall m, members (sd s) !! fr_key f0 = Some m -> covered_by f0 m = true ->
    published (committed s) (fr_key f) at_).
  { intros m Hm Hc. rewrite <- Ek. eapply covered_published; eauto; congruence. }
  assert (Hout : i ∈ out_ids s \/ i ∈ frozen_done s -> exists i f0, i < j /\ frozen_images (sd s) !! i = Some f0
    /\ fr_key f0 = fr_key f /\ fr_invalidated f0 = Some at_ /\ row_valid (fr_row f0) = false
    /\ (i ∈ out_ids s \/ i ∈ frozen_done s)) by (intros Hi; by exists i, f0).
  destruct (fi_account _ F Hopen i f0 Hf0) as [Hi|[Hi|[Hi|(m & Hm & Hc)]]]; [|by auto|by auto|left; by eauto].
  destruct (Hq i Hi) as [Hi'|[Hi'|(f1 & m & Hf1 & Hm & Hc)]].
  - exfalso. assert (Hji : j < i); [|lia].
    eapply select_frozen_before; [exact Eq|apply F|by apply (list_elem_of_fmap_2 fst _ (j, f))|done].
  - exfalso. apply list_elem_of_fmap in Hi' as ([i1 f1] & -> & Hi1). simpl in *.
    destruct (Hat _ _ Hi1) as [Hf1 _]. simplify_eq. pose proof (Hep _ _ _ _ Hi1 Hj). congruence.
  - simplify_eq. left. eauto.
Qed.
End DrainLosses.

(** ** Theorems *)

Section Claims.
Variables (acts : list DAction) (s : DSys).
Hypothesis Hrun : drun acts dsys_new = Some s.

(** C20: no update of a topic is lost to conflation.  In every reachable state of
    an open subscription, a member whose image changed, or lost continuity, since
    the last acknowledged row is in the queue or leased; queue and leases are
    disjoint and free of repetitions, so the queue never outgrows the membership;
    and when both are empty no loss is left to show and the last row needed was
    acknowledged: an image that was captured at the member's revision or later, or, when
    nothing followed a loss, the row that shows that loss. *)
Theorem state_no_lost_update (Hlive : live (sd s)) k m (Hk : members (sd s) !! k = Some m) :
  (stale m = true -> k ∈ queue (sd s) \/ k ∈ leases s)
  /\ NoDup (queue (sd s) ++ filter (fun k => is_Some (members (sd s) !! k)) (leases s))
  /\ length (queue (sd s)) <= size (members (sd s))
  /\ (queue (sd s) = [] -> leases s = [] ->
        invalidated m = None
        /\ exists x, x ∈ committed s /\ rk_key x = k
           /\ ((revision m <= rk_revision x)%Z /\ (k, rk_revision x, rk_row x) ∈ captures acts dsys_new
               \/ exists at_, (revision m <= at_)%Z /\ rk_invalidated x = Some at_)).
Proof.
  destruct (reachable_sinv _ _ Hrun) as [I H]. pose proof (di_queue _ _ _ (si_dirty _ I)) as Q.
  assert (Hst : stale m = true -> k ∈ queue (sd s) \/ k ∈ leases s).
  { intros Hs. destruct (di_stale _ _ _ (si_dirty _ I) Hlive k m Hk Hs).
    - left. by eapply qi_queued. - right. by eapply qi_flight. }
  split_and!; [done| | |].
  - apply NoDup_app. split_and!; [apply Q| |apply NoDup_filter, Q].
    intros i (mi & Hmi & Hqi)%(qi_queue _ _ _ Q) [_ HiL]%list_elem_of_filter.
    rewrite (qi_excl _ _ _ Q i mi) in Hqi; done.
  - rewrite <- size_dom, <- (size_list_to_set (C := gset nat) (queue (sd s))) by apply Q.
    apply subseteq_size. intros i Hi%elem_of_list_to_set.
    apply elem_of_dom. destruct (qi_queue _ _ _ Q i Hi) as (mi & Hmi & _). eauto.
  - intros Hq HL. rewrite Hq, HL in Hst.
    destruct (stale m) eqn:Es; [by destruct Hst as [?%not_elem_of_nil|?%not_elem_of_nil]|].
    unfold stale in Es. apply orb_false_iff in Es as [Hi%bool_decide_eq_false Ha].
    split; [by apply eq_None_not_Some|].
    destruct (acknowledged m) as [a|] eqn:Ea; [|done]. apply bool_decide_eq_false in Ha.
    destruct (hi_ack _ _ _ _ _ _ _ _ (hs_hinv _ H) _ _ _ Hk Ea) as (x & ? & ? & ?).
    exists x. split_and!; [done..|]. subst k.
    destruct (ci_rows _ _ (reachable_cinv _ _ Hrun) x) as [[Hin Er]|(at_ & Ei & Hle)]; [by left|left|right].
    + split; [lia|done].
    + exists at_. split; [lia|done].
Qed.

(** C22: a loss of continuity is shown before the image that follows it.  When the feed marks a
    member lost at revision [at_], and the membership does not end (retired, detached or
    closed): of the rows acknowledged from the live queue, a valid one of that member at that
    revision or later comes after a row marked invalid for exactly that loss; and when a
    drain hands out a valid frozen image at that revision or later, the loss was shown
    by an acknowledged live row, or by an earlier frozen image that was handed out in a
    previous receipt.  A consumer may acknowledge the receipts of a drain in any order. *)
Theorem state_loss_shown_first k at_ (Hloss : (k, at_) ∈ losses s) (Hmember : k ∉ gone s) :
  (forall l1 x l2, committed s = l1 ++ x :: l2 -> valid_after k at_ x ->
     exists y, y ∈ l1 /\ rk_key y = k /\ rk_invalidated y = Some at_ /\ row_valid (rk_row y) = false)
  /\ (forall limit d l j f, try_select (sd s) limit = Some (d, SelFrozen l) -> (j, f) ∈ l ->
        fr_key f = k -> row_valid (fr_row f) = true -> (at_ <= fr_revision f)%Z ->
        (exists y, y ∈ committed s /\ rk_key y = k /\ rk_invalidated y = Some at_
           /\ row_valid (rk_row y) = false)
        \/ exists i f0, i < j /\ frozen_images (sd s) !! i = Some f0 /\ fr_key f0 = k
             /\ fr_invalidated f0 = Some at_ /\ row_valid (fr_row f0) = false
             /\ (i ∈ out_ids s \/ i ∈ frozen_done s)).
Proof.
  destruct (reachable_linv _ _ Hrun) as [[I H T F V O] [L _]]. split.
  - intros l1 x l2 Hc Hv. by eapply loss_before_valid.
  - intros limit d l j f Es Hj <- Hv Hle.
    destruct (frozen_loss_out s at_ limit d l j f H F L Hloss Hmember Es Hj Hv Hle) as [Hp|?]; [left|by right].
    destruct Hp as (p1 & y & p2 & E & Ek & Ei & Ev & _). exists y. rewrite E. split_and!; [set_solver|done..].
Qed.
End Claims.

(** *** A run with a loss between two images *)

(** A topic is registered and read, then loses continuity and recovers. *)
Definition loss_acts : list DAction :=
  [DRegister 0 1 "IBM US Equity"] ++ read_acts 1 ++ [DMark 0 2 true; DMark 0 3 false]
  ++ read_acts 3 ++ read_acts 3.

Definition loss_state : DSys := default dsys_new (drun loss_acts dsys_new).

Lemma loss_run : drun loss_acts dsys_new = Some loss_state.
Proof. vm_compute. reflexivity. Qed.

Lemma state_no_lost_witness :
  exists m, members (sd loss_state) !! 0 = Some m /\ revision m = 3%Z
    /\ exists x, x ∈ committed loss_state /\ rk_key x = 0
       /\ ((revision m <= rk_revision x)%Z /\ (0, rk_revision x, rk_row x) ∈ captures loss_acts dsys_new
           \/ exists at_, (revision m <= at_)%Z /\ rk_invalidated x = Some at_).
Proof.
  eexists. split; [vm_compute; reflexivity|]. split; [reflexivity|].
  edestruct (fun L => state_no_lost_update loss_acts loss_state loss_run L 0) as (_ & _ & _ & H);
    [split_and!; vm_compute; reflexivity|vm_compute; reflexivity|].
  destruct H as [_ H]; [vm_compute; reflexivity|vm_compute; reflexivity|]. exact H.
Defined.

(** A topic loses continuity and recovers, the consumer drains and has been handed the loss. *)
Definition lost_drain_acts : list DAction :=
  [DRegister 0 1 "IBM US Equity"] ++ read_acts 1 ++ [DMark 0 2 true; DMark 0 3 false]
  ++ [DPrepare; DSnapshot (Some (3%Z, row0 true)); DLock; DLock; DLock] ++ [DRecv 8; DBatch None].

Definition lost_drain : DSys := default dsys_new (drun lost_drain_acts dsys_new).

Lemma lost_drain_run : drun lost_drain_acts dsys_new = Some lost_drain.
Proof. vm_compute. reflexivity. Qed.

Lemma state_loss_witness :
  (exists x0 x1 x2, committed loss_state = [x0; x1] ++ x2 :: [] /\ losses loss_state = [(0, 2%Z)]
    /\ exists y, y ∈ [x0; x1] /\ rk_key y = 0 /\ rk_invalidated y = Some 2%Z
         /\ row_valid (rk_row y) = false)
  /\ (exists d f, try_select (sd lost_drain) 8 = Some (d, SelFrozen [(1, f)]) /\ row_valid (fr_row f) = true
      /\ ((exists y, y ∈ committed lost_drain /\ rk_key y = 0 /\ rk_invalidated y = Some 2%Z
             /\ row_valid (rk_row y) = false)
          \/ exists i f0, i < 1 /\ frozen_images (sd lost_drain) !! i = Some f0 /\ fr_key f0 = 0
               /\ fr_invalidated f0 = Some 2%Z /\ row_valid (fr_row f0) = false
               /\ (i ∈ out_ids lost_drain \/ i ∈ frozen_done lost_drain))).
Proof.
  split.
  - eexists _, _, _. split; [vm_compute; reflexivity|]. split; [vm_compute; reflexivity|].
    eapply (state_loss_shown_first loss_acts loss_state loss_run 0 2); [| |vm_compute; reflexivity|].
    + vm_compute. left.
    + apply (bool_decide_unpack _). vm_compute. exact I.
    + split_and!; vm_compute; [reflexivity..|discriminate].
  - eexists _, _. split; [vm_compute; reflexivity|]. split; [vm_compute; reflexivity|].
    edestruct (state_loss_shown_first lost_drain_acts lost_drain lost_drain_run 0 2) as [_ Hd];
      [vm_compute; left|apply (bool_decide_unpack _); vm_compute; exact I|].
    eapply (Hd 8); [vm_compute; reflexivity|left|vm_compute; reflexivity..|]. vm_compute. discriminate.
Defined.
