(* ===== verification/Dates.v ===== *)
(** * Calendar dates

    The resolvers compute with [chrono::NaiveDate], a type of a third-party
    crate.  [Chrono] is what they call of it and [ChronoLaws] what its
    documentation promises: dates are ordered chronologically, month arithmetic
    keeps the day unless the target month is too short, and fails only outside
    the supported range of years.  [Civil] is a calendar that satisfies the laws,
    on which examples evaluate. *)

From Stdlib Require Import ZArith Lia.
From S2P Require Import Prelude.
Local Open Scope Z_scope.

Class Chrono (D : Type) := {
  d_year : D -> Z;
  d_month : D -> Z;
  d_day : D -> Z;
  with_day : D -> Z -> option D;
  checked_add_months : D -> Z -> option D;
  checked_sub_months : D -> Z -> option D;
  checked_sub_days : D -> Z -> option D
}.

(** Reading and printing dates: [parse_from_str], [format], [Display] and the
    date some days after the Unix epoch. *)
Class ChronoText (D : Type) := {
  parse_from_str : string -> string -> option D;
  date_format : D -> string -> string;
  date_display : D -> string;
  epoch_plus_days : Z -> option D
}.

Definition leap (y : Z) : bool :=
  (y mod 4 =? 0) && (negb (y mod 100 =? 0) || (y mod 400 =? 0)).

Definition days_in_month (y m : Z) : Z :=
  if m =? 2 then (if leap y then 29 else 28)
  else if (m =? 4) || (m =? 6) || (m =? 9) || (m =? 11) then 30 else 31.

Definition MIN_YEAR : Z := -262143.
Definition MAX_YEAR : Z := 262142.

Section Order.
Context {D : Type} `{Chrono D}.

(** Months since year 0. *)
Definition d_months (d : D) : Z := 12 * d_year d + (d_month d - 1).

(** A number that orders dates chronologically ([NaiveDate]'s [Ord]). *)
Definition d_ord (d : D) : Z := 31 * d_months d + (d_day d - 1).

Definition d_le (a b : D) : bool := d_ord a <=? d_ord b.
Definition d_lt (a b : D) : bool := d_ord a <? d_ord b.
Definition d_min (a b : D) : D := if d_le a b then a else b.
End Order.

Class ChronoLaws (D : Type) `{Chrono D} := {
  d_range (d : D) :
    MIN_YEAR <= d_year d <= MAX_YEAR /\ 1 <= d_month d <= 12
    /\ 1 <= d_day d <= days_in_month (d_year d) (d_month d);
  d_ext (a b : D) : d_year a = d_year b -> d_month a = d_month b -> d_day a = d_day b -> a = b;
  with_first_day (d : D) :
    exists d', with_day d 1 = Some d' /\ d_months d' = d_months d /\ d_day d' = 1;
  add_months_some (d d' : D) n :
    0 <= n -> checked_add_months d n = Some d' ->
    d_months d' = d_months d + n
    /\ d_day d' = Z.min (d_day d) (days_in_month (d_year d') (d_month d'));
  add_months_none (d : D) n :
    0 <= n -> checked_add_months d n = None -> 12 * MAX_YEAR + 11 < d_months d + n;
  sub_months_some (d d' : D) n :
    0 <= n -> checked_sub_months d n = Some d' ->
    d_months d' = d_months d - n
    /\ d_day d' = Z.min (d_day d) (days_in_month (d_year d') (d_month d'));
  sub_months_none (d : D) n :
    0 <= n -> checked_sub_months d n = None -> d_months d - n < 12 * MIN_YEAR;
  sub_days_le (d d' : D) n : 0 <= n -> checked_sub_days d n = Some d' -> d_ord d' <= d_ord d
}.

Lemma days_in_month_range y m : 28 <= days_in_month y m <= 31.
Proof. unfold days_in_month. repeat case_match; lia. Qed.

Section Lemmas.
Context {D : Type} `{ChronoLaws D}.

Lemma d_day_range (d : D) : 1 <= d_day d <= 31.
Proof. pose proof (d_range d). pose proof (days_in_month_range (d_year d) (d_month d)). lia. Qed.

Lemma d_ord_inj (a b : D) : d_ord a = d_ord b -> a = b.
Proof.
  intros E. unfold d_ord, d_months in E.
  pose proof (d_day_range a). pose proof (d_day_range b).
  pose proof (d_range a). pose proof (d_range b). apply d_ext; lia.
Qed.

(** The order on dates refines the order on their months. *)
Lemma d_months_le (a b : D) : d_ord a <= d_ord b -> d_months a <= d_months b.
Proof. unfold d_ord. pose proof (d_day_range a). pose proof (d_day_range b). lia. Qed.

Lemma d_months_lt (a b : D) : d_months a < d_months b -> d_ord a < d_ord b.
Proof. unfold d_ord. pose proof (d_day_range a). pose proof (d_day_range b). lia. Qed.

Lemma d_le_spec (a b : D) : d_le a b = true <-> d_ord a <= d_ord b.
Proof. apply Z.leb_le. Qed.

Lemma d_lt_spec (a b : D) : d_lt a b = true <-> d_ord a < d_ord b.
Proof. apply Z.ltb_lt. Qed.

Lemma d_min_le_r (a b : D) : d_ord (d_min a b) <= d_ord b.
Proof. unfold d_min. destruct (d_le a b) eqn:E; [by apply d_le_spec|lia]. Qed.
End Lemmas.

(** ** A calendar *)

Definition valid_civil (y m d : Z) : bool :=
  (MIN_YEAR <=? y) && (y <=? MAX_YEAR) && (1 <=? m) && (m <=? 12)
  && (1 <=? d) && (d <=? days_in_month y m).

Record Civil : Type := mkCivil {
  cy : Z; cm : Z; cd : Z;
  c_ok : valid_civil cy cm cd = true
}.

Definition civil (y m d : Z) : option Civil :=
  match bool_dec (valid_civil y m d) true with
  | left ok => Some (mkCivil y m d ok)
  | right _ => None
  end.

(** The date [n] months away, on the same day or the last one of the month. *)
Definition civil_move (c : Civil) (n : Z) : option Civil :=
  let k := 12 * cy c + (cm c - 1) + n in
  let y := k / 12 in
  let m := k mod 12 + 1 in
  civil y m (Z.min (cd c) (days_in_month y m)).

Definition civil_pred (c : Civil) : option Civil :=
  if 1 <? cd c then civil (cy c) (cm c) (cd c - 1)
  else if 1 <? cm c then civil (cy c) (cm c - 1) (days_in_month (cy c) (cm c - 1))
  else civil (cy c - 1) 12 31.

#[export] Instance Civil_chrono : Chrono Civil := {
  d_year := cy; d_month := cm; d_day := cd;
  with_day c d := civil (cy c) (cm c) d;
  checked_add_months c n := civil_move c n;
  checked_sub_months c n := civil_move c (- n);
  checked_sub_days c n := Nat.iter (Z.to_nat n) (fun o => o ≫= civil_pred) (Some c)
}.

Lemma valid_civil_spec y m d :
  valid_civil y m d = true <->
  MIN_YEAR <= y <= MAX_YEAR /\ 1 <= m <= 12 /\ 1 <= d <= days_in_month y m.
Proof. unfold valid_civil. rewrite !andb_true_iff, !Z.leb_le. lia. Qed.

Lemma civil_some y m d c : civil y m d = Some c -> cy c = y /\ cm c = m /\ cd c = d.
Proof. unfold civil. intros. by destruct (bool_dec _ _); simplify_eq/=. Qed.

Lemma civil_none y m d :
  civil y m d = None ->
  ~ (MIN_YEAR <= y <= MAX_YEAR /\ 1 <= m <= 12 /\ 1 <= d <= days_in_month y m).
Proof.
  unfold civil. intros E V. apply valid_civil_spec in V. by destruct (bool_dec _ _).
Qed.

Lemma civil_move_some c n c' :
  civil_move c n = Some c' ->
  12 * cy c' + (cm c' - 1) = 12 * cy c + (cm c - 1) + n
  /\ cd c' = Z.min (cd c) (days_in_month (cy c') (cm c')).
Proof.
  unfold civil_move. intros (-> & -> & ->)%civil_some. split; [|done].
  set (k := 12 * cy c + (cm c - 1) + n). pose proof (Z.div_mod k 12). lia.
Qed.

Lemma civil_move_none c n :
  civil_move c n = None ->
  12 * cy c + (cm c - 1) + n < 12 * MIN_YEAR \/ 12 * MAX_YEAR + 11 < 12 * cy c + (cm c - 1) + n.
Proof.
  unfold civil_move. intros Hn%civil_none. revert Hn.
  set (k := 12 * cy c + (cm c - 1) + n). intros Hn.
  pose proof (proj1 (valid_civil_spec _ _ _) (c_ok c)).
  pose proof (days_in_month_range (k / 12) (k mod 12 + 1)).
  pose proof (Z.div_mod k 12). pose proof (Z.mod_pos_bound k 12).
  destruct (decide (k / 12 < MIN_YEAR)); [lia|].
  destruct (decide (MAX_YEAR < k / 12)); [lia|]. lia.
Qed.

Lemma civil_pred_le c c' : civil_pred c = Some c' -> d_ord c' <= d_ord c.
Proof.
  pose proof (proj1 (valid_civil_spec _ _ _) (c_ok c)) as V.
  pose proof (days_in_month_range (cy c) (cm c - 1)).
  unfold civil_pred, d_ord, d_months. simpl.
  repeat case_match; intros (-> & -> & ->)%civil_some; lia.
Qed.

#[export] Instance Civil_laws : ChronoLaws Civil.
Proof.
  split; unfold d_months; simpl.
  - intros d. apply valid_civil_spec, c_ok.
  - intros [y m d o] [y' m' d' o']. simpl. intros. subst. f_equal. apply proof_irrel.
  - intros d. destruct (civil (cy d) (cm d) 1) as [d'|] eqn:E.
    + exists d'. by apply civil_some in E as (-> & -> & ->).
    + apply civil_none in E. pose proof (proj1 (valid_civil_spec _ _ _) (c_ok d)). lia.
  - intros d d' n _ E. by apply civil_move_some.
  - intros d n Hn [?|?]%civil_move_none; [|lia].
    pose proof (proj1 (valid_civil_spec _ _ _) (c_ok d)). lia.
  - intros d d' n _ E%civil_move_some. lia.
  - intros d n Hn [?|?]%civil_move_none; [lia|].
    pose proof (proj1 (valid_civil_spec _ _ _) (c_ok d)). lia.
  - intros d d' n _. generalize (Z.to_nat n) as k. intros k.
    revert d'. induction k as [|k IH]; intros d' E; simpl in E; [by simplify_eq|].
    apply bind_Some in E as (e & E1 & E2). apply IH in E1. apply civil_pred_le in E2. lia.
Qed.
