(* ===== verification/Words.v ===== *)
(** * White-space tokens and decimal numbers

    [str::split_whitespace], [[&str]::join], [str::strip_prefix] on a character,
    [str::parse::<u32>] and the decimal [Display] of a [u32], on ASCII text. *)

From Stdlib Require Import Ascii String ZArith Lia.
From S2P Require Import Prelude Text.

(** ** Tokens *)

Definition flush_word (cur : list ascii) : list (list ascii) :=
  match cur with [] => [] | _ => [rev cur] end.

Fixpoint words_from (cur l : list ascii) : list (list ascii) :=
  match l with
  | [] => flush_word cur
  | c :: l => if is_whitespace c then flush_word cur ++ words_from [] l
              else words_from (c :: cur) l
  end.

Definition split_whitespace (s : string) : list string :=
  of_chars <$> words_from [] (chars s).

Fixpoint join_chars (sep : list ascii) (ws : list (list ascii)) : list ascii :=
  match ws with
  | [] => []
  | [w] => w
  | w :: ws => w ++ sep ++ join_chars sep ws
  end.

Definition space : ascii := ascii_of_nat 32.

(** [parts.join(" ")] *)
Definition join (ws : list string) : string := of_chars (join_chars [space] (chars <$> ws)).

Definition starts_with (c : ascii) (s : string) : bool :=
  match chars s with d :: _ => bool_decide (c = d) | [] => false end.

Definition strip_prefix (c : ascii) (s : string) : option string :=
  match chars s with
  | d :: l => if decide (c = d) then Some (of_chars l) else None
  | [] => None
  end.

(** ** Numbers *)

Definition digit_value (c : ascii) : Z := Z.of_nat (code c) - 48.
Definition digit_char (d : Z) : ascii := ascii_of_nat (48 + Z.to_nat d).

(** The digits of [u32::from_str]: every step is checked for overflow. *)
Fixpoint parse_digits (acc : Z) (l : list ascii) : option Z :=
  match l with
  | [] => Some acc
  | c :: l =>
      if is_digit c then
        let v := (acc * 10 + digit_value c)%Z in
        if (v <=? u32_max)%Z then parse_digits v l else None
      else None
  end.

(** A leading [+] is accepted, an empty number is not. *)
Definition parse_u32 (s : string) : option Z :=
  match chars s with
  | [] => None
  | c :: l =>
      if decide (c = ascii_of_nat 43) then (match l with [] => None | _ => parse_digits 0 l end)
      else parse_digits 0 (c :: l)
  end.

Fixpoint dec_digits (fuel : nat) (n : Z) (acc : list ascii) : list ascii :=
  match fuel with
  | O => acc
  | S fuel =>
      let acc := digit_char (n mod 10) :: acc in
      if (n <? 10)%Z then acc else dec_digits fuel (n / 10) acc
  end.

(** A [u32] has at most ten digits. *)
Definition u32_to_string (n : Z) : string := of_chars (dec_digits 10 n []).

(** ** Lemmas *)

(** A word: not empty, and no white space in it. *)
Definition word (w : list ascii) : Prop :=
  w <> [] /\ Forall (fun c => is_whitespace c = false) w.

Lemma words_from_cons cur w rest :
  Forall (fun c => is_whitespace c = false) w ->
  words_from cur (w ++ rest) = words_from (rev w ++ cur) rest.
Proof.
  intros Hw. revert cur. induction Hw as [|c w Hc _ IH]; intros cur; [done|].
  simpl. rewrite Hc, IH. by rewrite <- app_assoc.
Qed.

Lemma words_from_word w : word w -> words_from [] w = [w].
Proof.
  intros [Hn Hw]. rewrite <- (app_nil_r w) at 1. rewrite words_from_cons by done. simpl.
  rewrite app_nil_r. unfold flush_word. destruct (rev w) eqn:E.
  - by apply (f_equal (@rev _)) in E; rewrite rev_involutive in E.
  - by rewrite <- E, rev_involutive.
Qed.

(** Joining words with spaces and splitting again gives the words back. *)
Lemma words_join ws : Forall word ws -> words_from [] (join_chars [space] ws) = ws.
Proof.
  induction 1 as [|w ws Hw Hws IH]; [done|].
  destruct ws as [|w' ws]; [by apply words_from_word|].
  change (join_chars [space] (w :: w' :: ws)) with (w ++ space :: join_chars [space] (w' :: ws)).
  rewrite words_from_cons by apply Hw. rewrite app_nil_r.
  assert (forall cur l, words_from cur (space :: l) = flush_word cur ++ words_from [] l) as ->
    by done.
  rewrite IH. unfold flush_word. destruct (rev w) eqn:E.
  - apply (f_equal (@rev _)) in E. rewrite rev_involutive in E. by destruct Hw.
  - by rewrite <- E, rev_involutive.
Qed.

Lemma flush_word_words cur :
  Forall (fun c => is_whitespace c = false) cur -> Forall word (flush_word cur).
Proof.
  intros Hc. destruct cur as [|c cur]; [constructor|]. repeat constructor.
  - intros E. apply (f_equal length) in E. rewrite length_rev in E. done.
  - by apply Forall_rev.
Qed.

Lemma words_from_words cur l :
  Forall (fun c => is_whitespace c = false) cur -> Forall word (words_from cur l).
Proof.
  revert cur. induction l as [|c l IH]; intros cur Hc; simpl; [by apply flush_word_words|].
  destruct (is_whitespace c) eqn:E.
  - apply Forall_app. split; [by apply flush_word_words|]. apply IH. constructor.
  - apply IH. by constructor.
Qed.

Lemma split_words s : Forall (fun w => word (chars w)) (split_whitespace s).
Proof.
  unfold split_whitespace. apply Forall_fmap. eapply Forall_impl; [apply words_from_words; constructor|].
  intros w Hw. simpl. by rewrite chars_of_chars.
Qed.

Lemma split_join ws :
  Forall (fun w => word (chars w)) ws -> split_whitespace (join ws) = ws.
Proof.
  intros Hw. unfold split_whitespace, join. rewrite chars_of_chars, words_join by by apply Forall_fmap.
  rewrite <- list_fmap_compose. rewrite <- (list_fmap_id ws) at 2.
  apply list_fmap_ext. intros ? w _. simpl. apply of_chars_chars.
Qed.

Lemma join_chars_app ws us :
  ws <> [] -> us <> [] ->
  join_chars [space] (ws ++ us) = join_chars [space] ws ++ space :: join_chars [space] us.
Proof.
  intros Hw Hu. induction ws as [|w ws IH]; [done|].
  destruct ws as [|w' ws]; [by destruct us|].
  change (join_chars [space] ((w :: w' :: ws) ++ us))
    with (w ++ space :: join_chars [space] ((w' :: ws) ++ us)).
  rewrite IH by done. simpl. by rewrite <- !app_assoc.
Qed.

Lemma is_digit_char d : (0 <= d < 10)%Z -> is_digit (digit_char d) = true /\ digit_value (digit_char d) = d.
Proof.
  intros Hd. unfold digit_char, digit_value, is_digit, code.
  rewrite nat_ascii_embedding by lia. rewrite !andb_true_iff, !Nat.leb_le. lia.
Qed.

Lemma parse_dec_digits fuel n acc :
  (0 <= n <= u32_max)%Z -> (n < 10 ^ Z.of_nat fuel)%Z ->
  parse_digits 0 (dec_digits fuel n acc) = parse_digits n acc.
Proof.
  revert n acc. induction fuel as [|fuel IH]; intros n acc Hn Hf; [simpl in Hf; f_equal; lia|].
  cbn [dec_digits]. destruct (is_digit_char (n mod 10)) as [Hd Hv]; [apply Z.mod_pos_bound; lia|].
  destruct (Z.ltb_spec n 10).
  - cbn [parse_digits]. rewrite Hd, Hv. rewrite Z.mod_small by lia.
    destruct (Z.leb_spec (0 * 10 + n) u32_max); [f_equal; lia|lia].
  - rewrite IH.
    + cbn [parse_digits]. rewrite Hd, Hv.
      replace (n / 10 * 10 + n mod 10)%Z with n by (pose proof (Z.div_mod n 10); lia).
      destruct (Z.leb_spec n u32_max); [done|lia].
    + split; [apply Z.div_pos; lia|]. pose proof (Z.div_le_upper_bound n 10 n). lia.
    + apply Z.div_lt_upper_bound; [lia|].
      rewrite <- Z.pow_succ_r, <- Nat2Z.inj_succ by lia. done.
Qed.

Lemma dec_digits_digits fuel n acc :
  (0 <= n)%Z -> Forall (fun c => is_digit c = true) acc ->
  Forall (fun c => is_digit c = true) (dec_digits fuel n acc).
Proof.
  revert n acc. induction fuel as [|fuel IH]; intros n acc Hn Ha; [done|]. cbn [dec_digits].
  destruct (is_digit_char (n mod 10)) as [Hd _]; [apply Z.mod_pos_bound; lia|].
  case_match; [by constructor|]. apply IH; [apply Z.div_pos; lia|by constructor].
Qed.

Lemma dec_digits_nil fuel n acc : dec_digits (S fuel) n acc <> [].
Proof.
  revert n acc. induction fuel as [|fuel IH]; intros n acc; cbn [dec_digits].
  - by case_match.
  - case_match; [done|]. apply IH.
Qed.

Lemma digit_not_plus c : is_digit c = true -> c <> ascii_of_nat 43.
Proof. by intros H ->. Qed.

Lemma digit_not_space c : is_digit c = true -> is_whitespace c = false.
Proof.
  unfold is_digit, is_whitespace. rewrite andb_true_iff, !Nat.leb_le. intros [? ?].
  apply orb_false_iff. split; [apply andb_false_iff; right; apply Nat.leb_gt; lia|].
  apply Nat.eqb_neq. lia.
Qed.

(** Printing a [u32] and parsing it gives the number back. *)
Lemma parse_u32_to_string n : (0 <= n <= u32_max)%Z -> parse_u32 (u32_to_string n) = Some n.
Proof.
  intros Hn. unfold parse_u32, u32_to_string. rewrite chars_of_chars.
  pose proof (dec_digits_digits 10 n [] ltac:(lia) ltac:(constructor)) as Hd.
  assert (parse_digits 0 (dec_digits 10 n []) = Some n) as Hp
    by (rewrite parse_dec_digits; [done|done|unfold u32_max in *; simpl; lia]).
  destruct (dec_digits 10 n []) as [|c l] eqn:E; [by apply dec_digits_nil in E|].
  apply Forall_cons_1 in Hd as [Hc _]. rewrite decide_False by by apply digit_not_plus. done.
Qed.

Lemma u32_to_string_word n : (0 <= n)%Z -> word (chars (u32_to_string n)).
Proof.
  intros Hn. unfold u32_to_string. rewrite chars_of_chars. split; [apply dec_digits_nil|].
  eapply Forall_impl; [apply dec_digits_digits; [done|constructor]|]. apply digit_not_space.
Qed.

Lemma parse_digits_range acc l n :
  (0 <= acc <= u32_max)%Z -> parse_digits acc l = Some n -> (0 <= n <= u32_max)%Z.
Proof.
  revert acc. induction l as [|c l IH]; intros acc Ha E; simpl in E; [by simplify_eq|].
  destruct (is_digit c) eqn:Hd; [|done]. destruct (Z.leb_spec (acc * 10 + digit_value c) u32_max); [|done].
  apply IH in E; [done|]. split; [|done].
  unfold is_digit in Hd. apply andb_true_iff in Hd as [Hd _]. apply Nat.leb_le in Hd.
  unfold digit_value. lia.
Qed.

Lemma parse_u32_range s n : parse_u32 s = Some n -> (0 <= n <= u32_max)%Z.
Proof.
  unfold parse_u32. destruct (chars s) as [|c l]; [done|]. intros E.
  apply (parse_digits_range 0 (if decide (c = ascii_of_nat 43) then l else c :: l)); [by unfold u32_max|].
  destruct (decide _); [by destruct l|done].
Qed.

Lemma chars_app a b : chars (String.append a b) = (chars a ++ chars b)%list.
Proof. induction a as [|c a IH]; [done|]. simpl. by f_equal. Qed.

(** The first token of a text that starts with a word and a space. *)
Lemma split_first w rest :
  word w -> exists tl, split_whitespace (of_chars (w ++ space :: rest)) = of_chars w :: tl.
Proof.
  intros Hw. unfold split_whitespace. rewrite chars_of_chars, words_from_cons by apply Hw.
  rewrite app_nil_r. simpl.
  assert (flush_word (rev w) = [w]) as ->.
  { unfold flush_word. destruct (rev w) eqn:E.
    - apply (f_equal (@rev _)) in E. rewrite rev_involutive in E. by destruct Hw.
    - by rewrite <- E, rev_involutive. }
  by eexists.
Qed.
