(* ===== verification/Ext.v ===== *)
(** * Errors and constants of the extension crate

    [crates/xbbg-ext/src/error.rs] and the futures tables of
    [crates/xbbg-ext/src/constants.rs].  An Arrow error is represented by the
    text it displays. *)

From Stdlib Require Import Ascii String ZArith.
From S2P Require Import Prelude Text Words Dates.
Local Open Scope string_scope.

Inductive ExtError : Type :=
| ExInvalidInput (s : string)
| ExDateParse (s : string)
| ExInvalidTicker (s : string)
| ExSpecificTicker (s : string)
| ExUnknownYieldType (s : string)
| ExCandidateCountTooLarge (count max : Z)
| ExArrow (s : string)
| ExMissingColumn (s : string)
| ExInternal (s : string).

#[export] Instance ExtError_eq_dec : EqDecision ExtError.
Proof. solve_decision. Defined.

Definition MONTH_NUM_TO_CODE (m : Z) : option string :=
  match m with
  | 1%Z => Some "F" | 2%Z => Some "G" | 3%Z => Some "H" | 4%Z => Some "J"
  | 5%Z => Some "K" | 6%Z => Some "M" | 7%Z => Some "N" | 8%Z => Some "Q"
  | 9%Z => Some "U" | 10%Z => Some "V" | 11%Z => Some "X" | 12%Z => Some "Z"
  | _ => None
  end.

Definition VALID_MONTH_CODES : list ascii := chars "FGHJKMNQUVXZ".

Definition QUARTERLY_MONTHS : list Z := [3; 6; 9; 12]%Z.

(** ** Dates ([utils/date.rs]) *)

Section DateText.
Context {D : Type} `{ChronoText D}.

Definition DATE_FORMATS : list string := ["%Y-%m-%d"; "%Y%m%d"; "%Y/%m/%d"; "%d-%m-%Y"; "%d/%m/%Y"].

(** The format the length and the separators of a trimmed text suggest. *)
Definition fast_format (s : string) : option string :=
  let b i := nth i (chars s) zero in
  let at_ c i := bool_decide (b i = c) in
  if (length (chars s) =? 8)%nat then Some "%Y%m%d"
  else if (length (chars s) =? 10)%nat then
    if at_ (ascii_of_nat 45) 4%nat then Some "%Y-%m-%d"
    else if at_ (ascii_of_nat 47) 4%nat then Some "%Y/%m/%d"
    else if at_ (ascii_of_nat 45) 2%nat then Some "%d-%m-%Y"
    else if at_ (ascii_of_nat 47) 2%nat then Some "%d/%m/%Y"
    else None
  else None.

Fixpoint try_formats (s : string) (fmts : list string) : option D :=
  match fmts with
  | [] => None
  | f :: fmts => match parse_from_str s f with Some d => Some d | None => try_formats s fmts end
  end.

Definition parse_date (s : string) : result D ExtError :=
  let s := trim s in
  match fast_format s ≫= parse_from_str s with
  | Some d => Ok d
  | None => match try_formats s DATE_FORMATS with Some d => Ok d | None => Err (ExDateParse s) end
  end.

Definition try_parse_date (s : string) : option D := result_ok (parse_date s).

Definition fmt_date (date : D) (fmt : option string) : string :=
  date_format date (default "%Y%m%d" fmt).
End DateText.

(** *** The example calendar *)

(** Compact dates, the only format the example reads. *)
Definition civil_compact (s : string) : option Civil :=
  let num a n := parse_digits 0 (take n (drop a (chars s))) in
  if (length (chars s) =? 8)%nat then
    num 0%nat 4%nat ≫= fun y => num 4%nat 2%nat ≫= fun m => num 6%nat 2%nat ≫= fun d => civil y m d
  else None.

Definition civil_show (c : Civil) : string :=
  u32_to_string (cy c) ++ "-" ++ u32_to_string (cm c) ++ "-" ++ u32_to_string (cd c).

#[export] Instance Civil_text : ChronoText Civil := {
  parse_from_str s fmt := if decide (fmt = "%Y%m%d") then civil_compact s else None;
  date_format c _ := civil_show c;
  date_display := civil_show;
  epoch_plus_days _ := None
}.
