(* ===== verification/Cdx.v ===== *)
(** * CDX tickers and the series search window

    [crates/xbbg-ext/src/resolvers/cdx.rs]: the ticker grammar
    [INDEX (GEN | Sn) [Vn] TENOR ASSET], its printers, the resolved contract, and
    the windows of prior series the recipes probe.  A [NonZeroU32] is a [Z] whose
    positivity the constructors check. *)

From Stdlib Require Import Ascii String ZArith Lia.
From S2P Require Import Prelude Text Words Dates Ext.
Local Open Scope string_scope.

(** ** Tickers *)

Record ParsedCdxInfo : Type := mkParsed {
  index : string;
  series : string;
  version : option Z;
  tenor : string;
  asset : string;
  is_generic : bool;
  series_num : option Z
}.

Record CdxInfo : Type := mkCdxInfo {
  ci_index : string;
  ci_series : string;
  ci_tenor : string;
  ci_asset : string;
  ci_is_generic : bool;
  ci_series_num : option Z
}.

(** [From<ParsedCdxInfo> for CdxInfo] *)
Definition cdx_info_from (p : ParsedCdxInfo) : CdxInfo :=
  mkCdxInfo (index p) (series p) (tenor p) (asset p) (is_generic p) (series_num p).

Definition cdx_version_new (value : Z) : result Z ExtError :=
  if (value =? 0)%Z then Err (ExInvalidInput "CDX version must be positive") else Ok value.

(** The number of a token [c]n. *)
Definition tagged_number (c : ascii) (part : string) : option Z :=
  strip_prefix c part ≫= parse_u32.

(** The loop over the tokens of [parse_cdx_ticker]: the position, the text, the
    genericity and the number of the first series token.  Series 0 is an error. *)
Fixpoint scan_series (i : nat) (parts : list string)
  : option (option (nat * string * bool * option Z)) :=
  match parts with
  | [] => Some None
  | part :: parts =>
      if decide (part = "GEN") then Some (Some (i, "GEN", true, None))
      else match tagged_number "S" part with
           | Some n => if (n =? 0)%Z then None else Some (Some (i, part, false, Some n))
           | None => scan_series (S i) parts
           end
  end.

(** The optional version token at [next_idx]: the version and the next position. *)
Definition parse_version (ticker : string) (parts : list string) (next_idx : nat)
  : result (option Z * nat) ExtError :=
  match parts !! next_idx with
  | Some token =>
      if starts_with "V" token then
        match tagged_number "V" token with
        | Some raw =>
            match cdx_version_new raw with
            | Ok v => Ok (Some v, S next_idx)
            | Err _ => Err (ExInvalidTicker ticker)
            end
        | None => Err (ExInvalidTicker ticker)
        end
      else Ok (None, next_idx)
  | None => Ok (None, next_idx)
  end.

Definition parse_cdx_ticker (ticker : string) : result ParsedCdxInfo ExtError :=
  let parts := split_whitespace ticker in
  if (length parts <? 5)%nat then Err (ExInvalidTicker ticker)
  else match scan_series 0 parts with
       | None | Some None => Err (ExInvalidTicker ticker)
       | Some (Some (series_idx, ser, generic, num)) =>
           match parse_version ticker parts (S series_idx) with
           | Err e => Err e
           | Ok (ver, next_idx) =>
               if negb (next_idx + 2 =? length parts)%nat then Err (ExInvalidTicker ticker)
               else Ok (mkParsed (join (take series_idx parts)) ser ver
                          (nth next_idx parts "") (nth (S next_idx) parts "") generic num)
           end
       end.

Definition cdx_series_from_ticker (ticker : string) : result CdxInfo ExtError :=
  result_map cdx_info_from (parse_cdx_ticker ticker).

(** [format!("S{n}")] and [format!("V{n}")] *)
Definition series_token (n : Z) : string := String "S" (u32_to_string n).
Definition version_token (n : Z) : string := String "V" (u32_to_string n).

Definition build_cdx_alias (info : ParsedCdxInfo) : string :=
  match version info with
  | Some v => join [index info; series info; version_token v; tenor info; asset info]
  | None => join [index info; series info; tenor info; asset info]
  end.

Definition previous_series_ticker (ticker : string) : result (option string) ExtError :=
  match parse_cdx_ticker ticker with
  | Err e => Err e
  | Ok info =>
      if is_generic info then Ok None
      else match series_num info with
           | Some n =>
               if (1 <? n)%Z then
                 Ok (Some (build_cdx_alias
                             (mkParsed (index info) (series_token (n - 1)) None (tenor info)
                                (asset info) (is_generic info) (Some (n - 1)%Z))))
               else Ok None
           | None => Ok None
           end
  end.

Definition gen_to_specific (gen_ticker : string) (n : Z) : result string ExtError :=
  match parse_cdx_ticker gen_ticker with
  | Err e => Err e
  | Ok info =>
      if negb (is_generic info) then Err (ExSpecificTicker gen_ticker)
      else if (n =? 0)%Z then Err (ExInvalidInput "CDX series must be positive")
      else Ok (build_cdx_alias
                 (mkParsed (index info) (series_token n) None (tenor info) (asset info)
                    false (Some n)))
  end.

(** ** Resolved contracts *)

Record ResolvedCdxInfo : Type := mkResolved {
  r_index : string;
  r_series : Z;
  r_version : Z;
  r_tenor : string;
  r_asset : string
}.

Definition resolve_series_conflict (n : Z) (parsed : ParsedCdxInfo) : ExtError :=
  ExInvalidInput ("resolved CDX series S" ++ u32_to_string n ++ " conflicts with parsed "
                    ++ series parsed).

Definition resolve_version_conflict (v : Z) : ExtError :=
  ExInvalidInput ("resolved CDX version V" ++ u32_to_string v ++ " conflicts with parsed ticker").

(** [ResolvedCdxInfo::resolve] *)
Definition cdx_resolve (parsed : ParsedCdxInfo) (n v : Z) : result ResolvedCdxInfo ExtError :=
  if (n =? 0)%Z then Err (ExInvalidInput "CDX series must be positive")
  else match cdx_version_new v with
       | Err e => Err e
       | Ok v =>
           if negb (is_generic parsed) && negb (bool_decide (series_num parsed = Some n))
           then Err (resolve_series_conflict n parsed)
           else if match version parsed with Some pv => negb (pv =? v)%Z | None => false end
                then Err (resolve_version_conflict v)
                else Ok (mkResolved (index parsed) n v (tenor parsed) (asset parsed))
       end.

Definition previous_alias (r : ResolvedCdxInfo) : option string :=
  if (1 <? r_series r)%Z
  then Some (join [r_index r; series_token (r_series r - 1); r_tenor r; r_asset r])
  else None.

Definition build_resolved_cdx_ticker_with_options (r : ResolvedCdxInfo) (versionless : bool)
  : string :=
  if versionless then join [r_index r; series_token (r_series r); r_tenor r; r_asset r]
  else join [r_index r; series_token (r_series r); version_token (r_version r); r_tenor r;
             r_asset r].

(** ** Series windows *)

Definition CDX_ROLL_MONTHS : Z := 6.
Definition CDX_LADDER_BATCH : Z := 24.

Section Windows.
Context {D : Type} `{Chrono D}.

(** The [while] loop of [cdx_rolls_between]. *)
Fixpoint rolls_loop (fuel : nat) (dt probe : D) (rolls : Z) : Z :=
  match fuel with
  | O => rolls
  | S fuel =>
      if d_lt dt probe && (rolls <? CDX_LADDER_BATCH)%Z then
        match checked_sub_months probe CDX_ROLL_MONTHS with
        | Some earlier => rolls_loop fuel dt earlier (rolls + 1)
        | None => rolls
        end
      else rolls
  end.

(** The guard stops the loop after [CDX_LADDER_BATCH] rounds. *)
Definition cdx_rolls_between (dt accrual_start : D) : Z :=
  rolls_loop (S (Z.to_nat CDX_LADDER_BATCH)) dt accrual_start 0.

Definition cdx_prior_series_window (current_series : Z) (current_accrual_start dt : D)
  : option (Z * Z) :=
  if d_le current_accrual_start dt || (current_series <=? 1)%Z then None
  else
    let hi := (current_series - 1)%Z in
    Some (Z.max (u32_saturating_sub hi (cdx_rolls_between dt current_accrual_start)) 1, hi).
End Windows.

Definition cdx_next_series_window (probed_lo : Z) : option (Z * Z) :=
  if (probed_lo <=? 1)%Z then None
  else
    let hi := (probed_lo - 1)%Z in
    Some (Z.max (u32_saturating_sub hi (CDX_LADDER_BATCH - 1)) 1, hi).

(** ** The grammar *)

(** A token that is no series token. *)
Definition plain (part : string) : Prop := part <> "GEN" /\ tagged_number "S" part = None.

(** What a series token says. *)
Definition is_series (part : string) (generic : bool) (num : option Z) : Prop :=
  (part = "GEN" /\ generic = true /\ num = None)
  \/ (part <> "GEN" /\ generic = false
      /\ exists n, tagged_number "S" part = Some n /\ n <> 0%Z /\ num = Some n).

(** The version tokens a version is read from. *)
Definition is_version (ver : option Z) (toks : list string) : Prop :=
  match ver with
  | None => toks = []
  | Some v => exists tok, toks = [tok] /\ tagged_number "V" tok = Some v /\ v <> 0%Z
  end.

Lemma tagged_starts c part n : tagged_number c part = Some n -> starts_with c part = true.
Proof.
  unfold tagged_number, strip_prefix, starts_with. destruct (chars part) as [|d l]; [done|].
  destruct (decide (c = d)); [|done]. intros _. by apply bool_decide_eq_true.
Qed.

Lemma scan_series_some parts : forall i k ser generic num,
  scan_series i parts = Some (Some (k, ser, generic, num)) ->
  exists pre post, parts = (pre ++ ser :: post)%list /\ k = (i + length pre)%nat
    /\ Forall plain pre /\ is_series ser generic num.
Proof.
  induction parts as [|part parts IH]; intros i k ser generic num E; simpl in E; [done|].
  destruct (decide (part = "GEN")) as [->|Hg].
  - simplify_eq. exists [], parts. split_and!; [done|simpl; lia|constructor|by left].
  - destruct (tagged_number "S" part) as [n|] eqn:Hn.
    + destruct (Z.eqb_spec n 0); [done|]. simplify_eq.
      exists [], parts. split_and!; [done|simpl; lia|constructor|]. right. eauto 6.
    + apply IH in E as (pre & post & -> & -> & Hp & Hs).
      exists (part :: pre), post. split_and!; [done|simpl; lia|by constructor|done].
Qed.

Lemma scan_series_at pre ser post generic num : forall i,
  Forall plain pre -> is_series ser generic num ->
  scan_series i (pre ++ ser :: post)%list = Some (Some ((i + length pre)%nat, ser, generic, num)).
Proof.
  intros i Hp Hs. revert i. induction Hp as [|part pre [Hg Hn] _ IH]; intros i; simpl.
  - rewrite Nat.add_0_r. destruct Hs as [(-> & -> & ->)|(Hg & -> & n & Hn & H0 & ->)]; [done|].
    rewrite decide_False by done. rewrite Hn. by destruct (Z.eqb_spec n 0).
  - rewrite decide_False by done. rewrite Hn, IH. by rewrite Nat.add_succ_r.
Qed.

Lemma parse_version_some ticker parts i ver j :
  parse_version ticker parts i = Ok (ver, j) ->
  exists toks, is_version ver toks /\ j = (i + length toks)%nat
    /\ (forall k, (k < length toks)%nat -> parts !! (i + k)%nat = toks !! k)
    /\ (ver = None -> forall tok, parts !! i = Some tok -> starts_with "V" tok = false).
Proof.
  unfold parse_version. destruct (parts !! i) as [tok|] eqn:Hi.
  - destruct (starts_with "V" tok) eqn:Hs.
    + destruct (tagged_number "V" tok) as [v|] eqn:Hv; [|done]. unfold cdx_version_new.
      destruct (Z.eqb_spec v 0); [done|]. intros [= <- <-]. exists [tok].
      split_and!; [by exists tok|simpl; lia| |done]. intros [|k]; simpl; [|lia].
      by rewrite Nat.add_0_r.
    + intros [= <- <-]. exists []. split_and!; [done|simpl; lia|simpl; lia|]. intros _ tok' [= <-]. done.
  - intros [= <- <-]. exists []. split_and!; [done|simpl; lia|simpl; lia|done].
Qed.

(** The ticker grammar: [parse_cdx_ticker] accepts exactly the texts whose tokens
    are at least five, an index without series token, a series token, at most one
    version token, a tenor and an asset. *)
Definition cdx_tokens (parts : list string) (info : ParsedCdxInfo) : Prop :=
  exists pre toks,
    parts = (pre ++ series info :: toks ++ [tenor info; asset info])%list
    /\ Forall plain pre /\ index info = join pre
    /\ is_series (series info) (is_generic info) (series_num info)
    /\ is_version (version info) toks
    /\ (version info = None -> starts_with "V" (tenor info) = false)
    /\ (5 <= length parts)%nat.

Lemma prefix_and_two {A} (post toks : list A) :
  (forall k, (k < length toks)%nat -> post !! k = toks !! k) ->
  length post = (length toks + 2)%nat -> exists a b, post = (toks ++ [a; b])%list.
Proof.
  revert post. induction toks as [|t toks IH]; intros post Hk Hl; simpl in *.
  - destruct post as [|a [|b [|]]]; try done. eauto.
  - destruct post as [|p post]; [done|]. pose proof (Hk 0%nat ltac:(lia)) as E. simplify_eq/=.
    destruct (IH post) as (a & b & ->); [|lia|by exists a, b].
    intros k Hlt. apply (Hk (S k)). lia.
Qed.

Lemma nth_after {A} (pre toks : list A) s a b (d : A) :
  nth (S (length pre + length toks)) (pre ++ s :: toks ++ [a; b])%list d = a
  /\ nth (S (S (length pre + length toks))) (pre ++ s :: toks ++ [a; b])%list d = b.
Proof.
  assert (pre ++ s :: toks ++ [a; b] = (pre ++ s :: toks) ++ [a; b])%list as ->
    by by rewrite <- app_assoc.
  assert (S (length pre + length toks) = length (pre ++ s :: toks)%list)%nat as ->
    by (rewrite length_app; simpl; lia).
  split; rewrite app_nth2 by lia.
  - by rewrite Nat.sub_diag.
  - by replace (S (length (pre ++ s :: toks)%list) - length (pre ++ s :: toks)%list)%nat
      with 1%nat by lia.
Qed.

Lemma parse_cdx_sound t info :
  parse_cdx_ticker t = Ok info -> cdx_tokens (split_whitespace t) info.
Proof.
  unfold parse_cdx_ticker, cdx_tokens. set (parts := split_whitespace t).
  destruct (Nat.ltb_spec (length parts) 5); [done|].
  destruct (scan_series 0 parts) as [[[[[k ser] generic] num]|]|] eqn:Hs; [|done..].
  apply scan_series_some in Hs as (pre & post & Hp & -> & Hpre & Hser).
  destruct (parse_version t parts _) as [[ver next]|] eqn:Hv; [|done].
  apply parse_version_some in Hv as (toks & Hver & -> & Hat & Hno).
  destruct (Nat.eqb_spec (S (0 + length pre) + length toks + 2) (length parts)) as [Hl|]; [|done].
  intros [= <-]. simpl in *. rewrite Hp in Hat, Hno, Hl |- *.
  assert (forall k, (pre ++ ser :: post)%list !! (S (length pre) + k)%nat = post !! k) as Hpost.
  { intros k. rewrite lookup_app_r by lia. by replace (S (length pre) + k - length pre)%nat with (S k) by lia. }
  destruct (prefix_and_two post toks) as (a & b & ->).
  { intros k Hk. rewrite <- Hat, <- Hpost by done. done. }
  { rewrite length_app in Hl. simpl in Hl. lia. }
  destruct (nth_after pre toks ser a b "") as [Ha Hb].
  exists pre, toks. simpl. rewrite Ha, Hb, take_app_length. split_and!; try done; [|by rewrite <- Hp].
  intros ->. simpl in Hver. subst toks. apply (Hno eq_refl).
  rewrite lookup_app_r by lia. by replace (S (length pre) - length pre)%nat with 1%nat by lia.
Qed.

Lemma parse_version_at ticker pre ser toks a b ver :
  is_version ver toks -> (ver = None -> starts_with "V" a = false) ->
  parse_version ticker (pre ++ ser :: toks ++ [a; b])%list (S (length pre))
    = Ok (ver, S (length pre + length toks))%nat.
Proof.
  intros Hv Hn. unfold parse_version.
  rewrite lookup_app_r by lia. replace (S (length pre) - length pre)%nat with 1%nat by lia.
  destruct ver as [v|]; simpl in Hv.
  - destruct Hv as (tok & -> & Ht & H0). simpl. rewrite (tagged_starts _ _ _ Ht), Ht.
    unfold cdx_version_new. destruct (Z.eqb_spec v 0); [done|]. do 2 f_equal. lia.
  - subst toks. simpl. rewrite (Hn eq_refl). do 2 f_equal. lia.
Qed.

Lemma parse_cdx_complete t info :
  cdx_tokens (split_whitespace t) info -> parse_cdx_ticker t = Ok info.
Proof.
  intros (pre & toks & Hp & Hpre & Hix & Hser & Hver & Hno & Hl). unfold parse_cdx_ticker.
  destruct (Nat.ltb_spec (length (split_whitespace t)) 5); [lia|].
  rewrite Hp, (scan_series_at _ _ _ _ _ _ Hpre Hser). simpl plus.
  rewrite (parse_version_at _ _ _ _ _ _ _ Hver Hno).
  destruct (nth_after pre toks (series info) (tenor info) (asset info) "") as [-> ->].
  replace (length (pre ++ _)%list) with (S (length pre + length toks) + 2)%nat
    by (rewrite length_app; simpl; rewrite length_app; simpl; lia).
  rewrite Nat.eqb_refl. simpl. rewrite take_app_length, <- Hix. by destruct info.
Qed.

(** ** Printing and parsing *)

Lemma tagged_token (c : ascii) n :
  (0 <= n <= u32_max)%Z -> tagged_number c (String c (u32_to_string n)) = Some n.
Proof.
  intros Hn. unfold tagged_number, strip_prefix. simpl. rewrite decide_True by done. simpl.
  unfold of_chars at 1. rewrite string_of_list_ascii_of_string. by apply parse_u32_to_string.
Qed.

Lemma token_word c n :
  is_whitespace c = false -> (0 <= n)%Z -> word (chars (String c (u32_to_string n))).
Proof.
  intros Hc Hn. destruct (u32_to_string_word n Hn) as [_ Hw]. split; [done|]. by constructor.
Qed.

(** The tokens of a printed ticker. *)
Lemma split_printed pre rest :
  pre <> [] -> rest <> [] -> Forall (fun w => word (chars w)) (pre ++ rest)%list ->
  split_whitespace (join (join pre :: rest)) = (pre ++ rest)%list.
Proof.
  intros Hp Hr Hw. rewrite <- (split_join (pre ++ rest)%list) by done. f_equal.
  unfold join. f_equal. rewrite fmap_app.
  simpl fmap. rewrite chars_of_chars. rewrite join_chars_app; [|by destruct pre|by destruct rest].
  by destruct rest.
Qed.

(** The version tokens of a printed ticker. *)
Definition version_tokens (ver : option Z) : list string :=
  match ver with Some v => [version_token v] | None => [] end.

Definition version_ok (ver : option Z) : Prop :=
  match ver with Some v => (1 <= v <= u32_max)%Z | None => True end.

Lemma is_version_ok ver toks : is_version ver toks -> version_ok ver.
Proof.
  destruct ver as [v|]; [|done]. intros (tok & _ & Ht & H0). simpl.
  unfold tagged_number in Ht. apply bind_Some in Ht as (s & _ & Ht). apply parse_u32_range in Ht. lia.
Qed.

Lemma is_version_length ver toks : is_version ver toks -> length toks = length (version_tokens ver).
Proof. destruct ver as [v|]; simpl; [by intros (tok & -> & _)|by intros ->]. Qed.

Lemma version_tokens_ok ver :
  version_ok ver -> is_version ver (version_tokens ver)
    /\ Forall (fun w => word (chars w)) (version_tokens ver).
Proof.
  destruct ver as [v|]; simpl; [|by repeat constructor]. intros Hv. split.
  - exists (version_token v). split_and!; [done|apply tagged_token; lia|lia].
  - apply Forall_singleton, token_word; [done|lia].
Qed.

Lemma series_token_ok n :
  (1 <= n <= u32_max)%Z ->
  is_series (series_token n) false (Some n) /\ word (chars (series_token n)).
Proof.
  intros Hn. split; [|apply token_word; [done|lia]]. right. split_and!; [done..|].
  exists n. split_and!; [apply tagged_token; lia|lia|done].
Qed.

Lemma build_cdx_alias_join info :
  build_cdx_alias info
    = join (index info :: series info :: version_tokens (version info)
              ++ [tenor info; asset info])%list.
Proof. unfold build_cdx_alias. by destruct (version info). Qed.

(** Reprinting a parsed ticker with another series or version parses to it,
    provided enough tokens are left and the tenor is not taken for a version. *)
Lemma reparse_alias t info s ver g num :
  cdx_tokens (split_whitespace t) info ->
  is_series s g num -> word (chars s) -> version_ok ver ->
  (ver = None -> starts_with "V" (tenor info) = false) ->
  (5 + length (version_tokens (version info))
     <= length (split_whitespace t) + length (version_tokens ver))%nat ->
  parse_cdx_ticker (build_cdx_alias (mkParsed (index info) s ver (tenor info) (asset info) g num))
    = Ok (mkParsed (index info) s ver (tenor info) (asset info) g num).
Proof.
  intros (pre & toks & Hp & Hpre & Hix & Hser & Hver & Hno & Hl) Hs Hw Hv Hv0 Hlen.
  apply parse_cdx_complete. rewrite build_cdx_alias_join. simpl.
  destruct (version_tokens_ok ver Hv) as [Hvt Hvw]. pose proof (is_version_length _ _ Hver) as Hvl.
  pose proof (split_words t) as Hws. rewrite Hp in Hws, Hlen.
  rewrite Hix, split_printed.
  - exists pre, (version_tokens ver). split_and!; try done.
    rewrite !length_app in *. simpl in *. rewrite !length_app in *. simpl in *. lia.
  - intros ->. rewrite Hp in Hl. rewrite !length_app in *. simpl in *. rewrite !length_app in *.
    simpl in *. assert (length toks <= 1)%nat by (rewrite Hvl; by destruct (version info); simpl; lia). lia.
  - done.
  - apply Forall_app in Hws as [Hw1 Hw2]. apply Forall_cons_1 in Hw2 as [_ Hw2].
    apply Forall_app in Hw2 as [_ Hw2]. apply Forall_app. split; [done|]. constructor; [done|].
    by apply Forall_app.
Qed.

Lemma series_word t info :
  cdx_tokens (split_whitespace t) info -> word (chars (series info)).
Proof.
  intros (pre & toks & Hp & _). pose proof (split_words t) as Hw. rewrite Hp in Hw.
  apply Forall_app in Hw as [_ Hw]. by apply Forall_cons_1 in Hw as [Hw _].
Qed.

Lemma alias_roundtrip t info :
  cdx_tokens (split_whitespace t) info -> parse_cdx_ticker (build_cdx_alias info) = Ok info.
Proof.
  intros Ht. assert (info = mkParsed (index info) (series info) (version info) (tenor info)
    (asset info) (is_generic info) (series_num info)) as -> by by destruct info.
  pose proof (series_word _ _ Ht). pose proof Ht as (pre & toks & Hp & Hpre & Hix & Hser & Hver & Hno & Hl).
  apply (reparse_alias t info); try done; [by eapply is_version_ok|lia].
Qed.

Lemma cdx_resolve_some p n v r :
  cdx_resolve p n v = Ok r ->
  n <> 0%Z /\ v <> 0%Z /\ (is_generic p = false -> series_num p = Some n)
  /\ (forall pv, version p = Some pv -> pv = v)
  /\ r = mkResolved (index p) n v (tenor p) (asset p).
Proof.
  unfold cdx_resolve, cdx_version_new. destruct (Z.eqb_spec n 0); [done|].
  destruct (Z.eqb_spec v 0); [done|].
  destruct (negb (is_generic p) && _) eqn:E; [done|].
  destruct (match version p with Some pv => negb (pv =? v)%Z | None => false end) eqn:Ev; [done|].
  intros [= <-]. split_and!; try done.
  - intros Hg. rewrite Hg in E. simpl in E. apply negb_false_iff, bool_decide_eq_true in E. done.
  - intros pv Hpv. rewrite Hpv in Ev. apply negb_false_iff, Z.eqb_eq in Ev. done.
Qed.

(** Resolving with the numbers the ticker shows succeeds. *)
Lemma cdx_resolve_ok p n v :
  n <> 0%Z -> v <> 0%Z -> (is_generic p = false -> series_num p = Some n) ->
  (forall pv, version p = Some pv -> pv = v) ->
  cdx_resolve p n v = Ok (mkResolved (index p) n v (tenor p) (asset p)).
Proof.
  intros Hn Hv Hs Hp. unfold cdx_resolve, cdx_version_new.
  destruct (Z.eqb_spec n 0); [done|]. destruct (Z.eqb_spec v 0); [done|].
  destruct (is_generic p) eqn:Hg; simpl; [|rewrite bool_decide_true by by apply Hs; simpl].
  all: destruct (version p) as [pv|] eqn:E; [|done]; rewrite (Hp pv eq_refl), Z.eqb_refl; done.
Qed.

Lemma resolved_roundtrip t info n v r :
  cdx_tokens (split_whitespace t) info -> (0 <= n <= u32_max)%Z -> (0 <= v <= u32_max)%Z ->
  cdx_resolve info n v = Ok r ->
  let p := mkParsed (index info) (series_token n) (Some v) (tenor info) (asset info) false (Some n) in
  parse_cdx_ticker (build_resolved_cdx_ticker_with_options r false) = Ok p
  /\ cdx_resolve p n v = Ok r.
Proof.
  intros Ht Hn Hv (Hn0 & Hv0 & _ & _ & ->)%cdx_resolve_some p.
  destruct (series_token_ok n ltac:(lia)) as [Hs Hw]. split.
  - apply (reparse_alias t info (series_token n) (Some v) false (Some n)); try done; [simpl; lia|].
    destruct Ht as (pre & toks & Hp & _ & _ & _ & Hver & _ & Hl). simpl.
    destruct (version info); simpl; lia.
  - apply (cdx_resolve_ok p n v); try done. by intros pv [= <-].
Qed.

Lemma gen_to_specific_parses t info n :
  parse_cdx_ticker t = Ok info -> is_generic info = true -> version info = None ->
  (1 <= n <= u32_max)%Z ->
  exists alias, gen_to_specific t n = Ok alias
    /\ parse_cdx_ticker alias
       = Ok (mkParsed (index info) (series_token n) None (tenor info) (asset info) false (Some n)).
Proof.
  intros Ht Hg Hv Hn. destruct (series_token_ok n Hn) as [Hs Hw].
  eexists. unfold gen_to_specific. rewrite Ht, Hg. simpl.
  destruct (Z.eqb_spec n 0); [lia|]. split; [done|].
  apply parse_cdx_sound in Ht. apply (reparse_alias t info); try done.
  - intros _. destruct Ht as (pre & toks & Hp & _ & _ & _ & Hver & Hno & Hl). by apply Hno.
  - destruct Ht as (pre & toks & Hp & _ & _ & _ & Hver & Hno & Hl). rewrite Hv. simpl. lia.
Qed.

(** ** Windows *)

Section WindowLemmas.
Context {D : Type} `{ChronoLaws D}.
Local Open Scope Z_scope.

Lemma rolls_loop_range fuel dt (probe : D) rolls :
  rolls <= CDX_LADDER_BATCH -> rolls <= rolls_loop fuel dt probe rolls <= CDX_LADDER_BATCH.
Proof.
  revert probe rolls. induction fuel as [|fuel IH]; intros probe rolls Hr; simpl; [lia|].
  destruct (d_lt dt probe); simpl; [|lia]. destruct (Z.ltb_spec rolls CDX_LADDER_BATCH); [|lia].
  destruct (checked_sub_months probe CDX_ROLL_MONTHS) as [e|]; [|lia].
  pose proof (IH e (rolls + 1)). lia.
Qed.

Lemma prior_window_some cur (accrual dt : D) lo hi :
  cdx_prior_series_window cur accrual dt = Some (lo, hi) ->
  d_ord dt < d_ord accrual /\ hi = cur - 1 /\ 1 <= lo <= hi /\ hi - lo <= CDX_LADDER_BATCH.
Proof.
  unfold cdx_prior_series_window. destruct (d_le accrual dt) eqn:Hd; simpl; [done|].
  destruct (Z.leb_spec cur 1); [done|]. intros [= <- <-].
  assert (d_ord dt < d_ord accrual) by (unfold d_le in Hd; lia).
  pose proof (rolls_loop_range (S (Z.to_nat CDX_LADDER_BATCH)) dt accrual 0).
  unfold cdx_rolls_between, u32_saturating_sub, CDX_LADDER_BATCH in *. lia.
Qed.

Lemma prior_window_none cur (accrual dt : D) :
  cdx_prior_series_window cur accrual dt = None -> d_ord dt < d_ord accrual -> cur <= 1.
Proof.
  unfold cdx_prior_series_window. intros E Hlt.
  assert (d_le accrual dt = false) as Hd by (unfold d_le; lia). rewrite Hd in E. simpl in E.
  destruct (Z.leb_spec cur 1); [done|discriminate].
Qed.

Lemma next_window_some lo lo' hi' :
  cdx_next_series_window lo = Some (lo', hi') ->
  hi' = lo - 1 /\ 1 <= lo' <= hi' /\ lo' = Z.max 1 (lo - CDX_LADDER_BATCH).
Proof.
  unfold cdx_next_series_window. destruct (Z.leb_spec lo 1); [done|]. intros [= <- <-].
  unfold u32_saturating_sub, CDX_LADDER_BATCH. lia.
Qed.

Lemma next_window_none lo : cdx_next_series_window lo = None -> lo <= 1.
Proof. unfold cdx_next_series_window. by destruct (Z.leb_spec lo 1). Qed.

(** [k] nominal rolls before a date. *)
Fixpoint rolls_back (k : nat) (d : D) : option D :=
  match k with
  | O => Some d
  | S k => checked_sub_months d CDX_ROLL_MONTHS ≫= rolls_back k
  end.

(** A count below the bound is the first roll on or before the date, unless the
    calendar ends. *)
Lemma rolls_loop_stops fuel dt : forall (probe : D) rolls,
  CDX_LADDER_BATCH < Z.of_nat fuel + rolls -> 0 <= rolls ->
  rolls_loop fuel dt probe rolls < CDX_LADDER_BATCH -> MIN_YEAR < d_year dt ->
  exists p, rolls_back (Z.to_nat (rolls_loop fuel dt probe rolls - rolls)) probe = Some p
            /\ d_ord p <= d_ord dt.
Proof.
  induction fuel as [|fuel IH]; intros probe rolls Hf Hr Hlt Hy; simpl in *; [lia|].
  destruct (d_lt dt probe) eqn:Hd; simpl in *.
  - apply d_lt_spec in Hd.
    destruct (Z.ltb_spec rolls CDX_LADDER_BATCH); [|lia].
    destruct (checked_sub_months probe CDX_ROLL_MONTHS) as [e|] eqn:He.
    + pose proof (rolls_loop_range fuel dt e (rolls + 1)).
      destruct (IH e (rolls + 1)) as (p & Hp & Hle); [lia|lia|done|done|].
      exists p. split; [|done].
      replace (Z.to_nat (rolls_loop fuel dt e (rolls + 1) - rolls))
        with (S (Z.to_nat (rolls_loop fuel dt e (rolls + 1) - (rolls + 1)))) by lia.
      simpl. by rewrite He.
    + apply sub_months_none in He; [|unfold CDX_ROLL_MONTHS; lia].
      assert (d_months dt <= d_months probe) by (apply d_months_le; lia). unfold d_months, CDX_ROLL_MONTHS in *.
      pose proof (d_range dt). lia.
  - exists probe. rewrite Z.sub_diag. split; [done|]. unfold d_lt in Hd. lia.
Qed.

(** When every prior series starts no later than the nominal roll date after its
    own, the first window holds the series that applies on the date. *)
Lemma first_window_covers (accr : Z -> D) cur dt lo hi n :
  cdx_prior_series_window cur (accr cur) dt = Some (lo, hi) ->
  cdx_rolls_between dt (accr cur) < CDX_LADDER_BATCH -> MIN_YEAR < d_year dt ->
  (forall k p, rolls_back k (accr cur) = Some p -> 1 <= cur - Z.of_nat k - 1 ->
     d_ord (accr (cur - Z.of_nat k - 1)) <= d_ord p) ->
  1 <= n < cur -> (forall m, n < m <= cur -> d_ord dt < d_ord (accr m)) ->
  lo <= n <= hi.
Proof.
  intros Hw Hr Hy Hcad Hn Hlater.
  pose proof (prior_window_some _ _ _ _ _ Hw) as (Hdt & Hhi & Hlo & _). split; [|lia].
  unfold cdx_rolls_between in Hr.
  pose proof (rolls_loop_range (S (Z.to_nat CDX_LADDER_BATCH)) dt (accr cur) 0 ltac:(done)) as Hrange.
  destruct (rolls_loop_stops (S (Z.to_nat CDX_LADDER_BATCH)) dt (accr cur) 0) as (p & Hp & Hle);
    [by unfold CDX_LADDER_BATCH|done|done|done|].
  unfold cdx_prior_series_window in Hw. destruct (_ || _); [done|]. injection Hw as <- _.
  unfold cdx_rolls_between, u32_saturating_sub in *.
  set (r := rolls_loop _ dt (accr cur) 0) in *. destruct (decide (cur - r - 1 < 1)); [lia|].
  specialize (Hcad _ _ Hp). rewrite Z2Nat.id in Hcad by lia. rewrite Z.sub_0_r in Hcad.
  destruct (decide (n < cur - r - 1)); [|lia]. specialize (Hlater (cur - r - 1)). lia.
Qed.
End WindowLemmas.

(** Printing and parsing CDX tickers are inverse: a parsed ticker printed again
    parses to the same parts, a contract resolved from it and printed with its
    version parses to a specific ticker that resolves to the same contract, and a
    versionless generic ticker turned into a series parses to exactly that series. *)
Theorem cdx_ticker_roundtrip t info (Ht : parse_cdx_ticker t = Ok info) :
  parse_cdx_ticker (build_cdx_alias info) = Ok info
  /\ (forall n v r, (0 <= n <= u32_max)%Z -> (0 <= v <= u32_max)%Z ->
        cdx_resolve info n v = Ok r ->
        exists p, parse_cdx_ticker (build_resolved_cdx_ticker_with_options r false) = Ok p
          /\ is_generic p = false /\ series_num p = Some n /\ version p = Some v
          /\ cdx_resolve p n v = Ok r)
  /\ (forall n, is_generic info = true -> version info = None -> (1 <= n <= u32_max)%Z ->
        exists alias p, gen_to_specific t n = Ok alias /\ parse_cdx_ticker alias = Ok p
          /\ is_generic p = false /\ series_num p = Some n /\ version p = None
          /\ index p = index info /\ tenor p = tenor info /\ asset p = asset info).
Proof.
  pose proof (parse_cdx_sound _ _ Ht) as Hs. split_and!.
  - by eapply alias_roundtrip.
  - intros n v r Hn Hv Hr. destruct (resolved_roundtrip _ _ _ _ _ Hs Hn Hv Hr) as [H1 H2].
    eexists. split; [exact H1|]. done.
  - intros n Hg Hv Hn. destruct (gen_to_specific_parses _ _ _ Ht Hg Hv Hn) as (alias & H1 & H2).
    exists alias. eexists. split; [done|]. split; [exact H2|]. done.
Qed.

Lemma cdx_ticker_witness :
  exists info, parse_cdx_ticker "CDX  IG CDSI GEN 5Y Corp" = Ok info
    /\ gen_to_specific "CDX  IG CDSI GEN 5Y Corp" 45 = Ok "CDX IG CDSI S45 5Y Corp"
    /\ parse_cdx_ticker (build_cdx_alias info) = Ok info.
Proof.
  eexists. split; [vm_compute; reflexivity|]. split; [vm_compute; reflexivity|].
  apply (cdx_ticker_roundtrip "CDX  IG CDSI GEN 5Y Corp"). vm_compute. reflexivity.
Defined.
