(* ===== verification/RecipeError.v ===== *)
(** * Recipe errors and request provenance

    [crates/xbbg-recipes/src/error.rs] and [BloombergRequestIds] of
    [crates/xbbg-async/src/engine/state/value_utils.rs]: the failures of a recipe
    and the SDK request identifiers collected from the responses it used. *)

From Stdlib Require Import ZArith Lia Sorting.
From stdpp Require Import sorting.
From S2P Require Import Prelude Errors Ext.

(** ** Collected identifiers *)

(** [binary_search] and [insert] on the sorted identifiers: an identifier that is
    found is not inserted again. *)
Fixpoint insert_id (id : string) (ids : list string) : list string :=
  match ids with
  | [] => [id]
  | x :: ids' =>
      if decide (id = x) then ids
      else if decide (String.le id x) then id :: ids
      else x :: insert_id id ids'
  end.

Definition ids_extend (ids more : list string) : list string :=
  fold_left (fun acc id => insert_id id acc) more ids.

(** ** Errors *)

Inductive RecipeError : Type :=
| REngine (e : BlpAsyncError)
| RExt (e : ExtError)
| RArrow (s : string)
| RInvalidArgument (s : string)
| ROther (s : string)
| RRequestContext (source : RecipeError) (ids : list string).

Definition recipe_request_ids (e : RecipeError) : list string :=
  match e with
  | REngine e => async_bloomberg_request_ids e
  | RRequestContext _ ids => ids
  | _ => []
  end.

(** The [while let] of [into_request_context], which peels one wrapper per round. *)
Fixpoint peel_context (e : RecipeError) (ids : list string) : RecipeError * list string :=
  match e with
  | RRequestContext inner more => peel_context inner (ids_extend ids more)
  | e => (e, ids)
  end.

Definition into_request_context (e : RecipeError) : RecipeError * list string :=
  let '(source, ids) := peel_context e [] in
  (source, ids_extend ids (recipe_request_ids source)).

Definition with_bloomberg_request_ids (e : RecipeError) (more : list string) : RecipeError :=
  let '(source, ids) := into_request_context e in
  let ids := ids_extend ids more in
  match ids with
  | [] => source
  | _ =>
      match source with
      | REngine err =>
          let '(err', extended) := try_extend_bloomberg_request_ids err ids in
          if extended then REngine err' else RRequestContext source ids
      | _ => RRequestContext source ids
      end
  end.

(** ** What an error says *)

(** The failure itself, without wrappers and identifiers. *)
Definition forget_ids (e : BlpError) : BlpError :=
  match e with
  | RequestFailure service operation cid label request_id _ source =>
      RequestFailure service operation cid label request_id [] source
  | RequestTimeout request_id _ => RequestTimeout request_id []
  | e => e
  end.

Fixpoint failure (e : RecipeError) : RecipeError :=
  match e with
  | RRequestContext inner _ => failure inner
  | REngine (AsyncBlp b) => REngine (AsyncBlp (forget_ids b))
  | e => e
  end.

(** Every identifier recorded anywhere in an error. *)
Fixpoint contributors (e : RecipeError) : list string :=
  match e with
  | RRequestContext inner ids => ids ++ contributors inner
  | e => recipe_request_ids e
  end.

Definition wrapper_depth (e : RecipeError) : nat :=
  (fix go e := match e with RRequestContext inner _ => S (go inner) | _ => 0 end) e.

(** ** Lemmas *)

Lemma elem_of_insert_id id ids x : x ∈ insert_id id ids <-> x = id \/ x ∈ ids.
Proof.
  induction ids as [|y ids IH]; simpl; [set_solver|].
  repeat case_decide; subst; set_solver.
Qed.

Lemma elem_of_ids_extend more ids x : x ∈ ids_extend ids more <-> x ∈ ids \/ x ∈ more.
Proof.
  unfold ids_extend. revert ids. induction more as [|y more IH]; intros ids; simpl; [set_solver|].
  rewrite IH, elem_of_insert_id. set_solver.
Qed.

Lemma insert_id_sorted id ids :
  StronglySorted string_lt ids -> StronglySorted string_lt (insert_id id ids).
Proof.
  induction 1 as [|y ids Hs IH Hy]; simpl; [by repeat constructor|].
  case_decide as Hd; [by constructor|]. rewrite Forall_forall in Hy. case_decide as Hle.
  - constructor; [by constructor; [|apply Forall_forall]|].
    constructor; [by split|]. apply Forall_forall. intros z Hz.
    destruct (Hy z Hz) as [Hyz Hne]. split; [by etrans|].
    intros ->. apply Hd. by apply (anti_symm String.le).
  - constructor; [done|]. apply Forall_forall. intros z Hz.
    apply elem_of_insert_id in Hz as [->|Hz]; [|by apply Hy].
    split; [|by intros ->]. by destruct (total String.le id y).
Qed.

Lemma ids_extend_sorted more ids :
  StronglySorted string_lt ids -> StronglySorted string_lt (ids_extend ids more).
Proof.
  unfold ids_extend. revert ids. induction more as [|y more IH]; intros ids Hs; simpl; [done|].
  apply IH. by apply insert_id_sorted.
Qed.

Lemma peel_context_spec e : forall ids src ids',
  peel_context e ids = (src, ids') ->
  wrapper_depth src = 0 /\ failure src = failure e
  /\ (StronglySorted string_lt ids -> StronglySorted string_lt ids')
  /\ (forall x, x ∈ ids' \/ x ∈ recipe_request_ids src <-> x ∈ ids \/ x ∈ contributors e).
Proof.
  induction e as [| | | | |inner IH more]; intros ids src ids' E; simpl in E;
    try (injection E as <- <-; by split_and!).
  apply IH in E as (H1 & H2 & H3 & H4). split_and!; [done..| |].
  - intros Hs. by apply H3, ids_extend_sorted.
  - intros x. rewrite H4, elem_of_ids_extend. simpl. rewrite elem_of_app. tauto.
Qed.

Lemma into_request_context_spec e src ids :
  into_request_context e = (src, ids) ->
  wrapper_depth src = 0 /\ failure src = failure e /\ StronglySorted string_lt ids
  /\ (forall x, x ∈ ids <-> x ∈ contributors e).
Proof.
  unfold into_request_context. destruct (peel_context e []) as [src' ids'] eqn:E.
  apply peel_context_spec in E as (H1 & H2 & H3 & H4). intros [= <- <-]. split_and!; [done..| |].
  - apply ids_extend_sorted, H3. constructor.
  - intros x. rewrite elem_of_ids_extend, H4. set_solver.
Qed.

Lemma try_extend_failure err ids err' :
  try_extend_bloomberg_request_ids err ids = (err', true) ->
  failure (REngine err') = failure (REngine err).
Proof. destruct err as [[]| | | |]; simpl; by intros [= <-]. Qed.

Lemma try_extend_spec err ids err' :
  try_extend_bloomberg_request_ids err ids = (err', true) ->
  async_bloomberg_request_ids err' = union_ids (async_bloomberg_request_ids err) ids.
Proof. destruct err as [[]| | | |]; simpl; by intros [= <-]. Qed.

Lemma source_ids_subset e src ids :
  into_request_context e = (src, ids) -> forall x, x ∈ recipe_request_ids src -> x ∈ ids.
Proof.
  unfold into_request_context. destruct (peel_context e []) as [src' ids'] eqn:E.
  intros [= <- <-] x Hx. apply elem_of_ids_extend. by right.
Qed.

(** Adding request identifiers to a recipe failure never changes the failure and
    never nests wrappers; the identifiers it then shows are, sorted and without
    duplicates, exactly those recorded anywhere in the failure before and the
    added ones. *)
Theorem recipe_error_context e more :
  let e' := with_bloomberg_request_ids e more in
  failure e' = failure e /\ wrapper_depth e' <= 1
  /\ StronglySorted string_lt (recipe_request_ids e')
  /\ (forall x, x ∈ recipe_request_ids e' <-> x ∈ contributors e \/ x ∈ more).
Proof.
  simpl. unfold with_bloomberg_request_ids.
  destruct (into_request_context e) as [src ids0] eqn:E.
  pose proof (source_ids_subset _ _ _ E) as Hsub.
  apply into_request_context_spec in E as (Hd & Hf & Hs & Hids).
  pose proof (ids_extend_sorted more _ Hs) as Hs'.
  assert (forall x, x ∈ ids_extend ids0 more <-> x ∈ contributors e \/ x ∈ more) as Hall
    by (intros x; by rewrite elem_of_ids_extend, Hids).
  assert (forall x, x ∈ recipe_request_ids src -> x ∈ ids_extend ids0 more) as Hsub'
    by (intros x Hx; apply elem_of_ids_extend; left; by apply Hsub).
  destruct (ids_extend ids0 more) as [|i rest] eqn:Hi.
  - assert (recipe_request_ids src = []) as Hnil.
    { destruct (recipe_request_ids src) as [|x l]; [done|].
      specialize (Hsub' x (list_elem_of_here _ _)). by apply not_elem_of_nil in Hsub'. }
    rewrite Hnil. split_and!; [done|lia|constructor|done].
  - destruct src as [err| | | | |]; simpl in Hd; try done.
    destruct (try_extend_bloomberg_request_ids err (i :: rest)) as [err' []] eqn:Ht.
    + rewrite (try_extend_failure _ _ _ Ht). simpl. rewrite (try_extend_spec _ _ _ Ht).
      split_and!; [done|lia|apply union_ids_sorted|].
      intros x. rewrite elem_of_union_ids, <- Hall. split; [|by right]. intros [Hx|]; [|done].
      by apply Hsub'.
    + split_and!; [done|simpl; lia|done|done].
Qed.
