(* ===== verification/Batch.v ===== *)
(** * Result batches as recipes read them

    The readers of [crates/xbbg-recipes/src/utils.rs] and the long-format indices
    of [crates/xbbg-recipes/src/futures.rs].  A [RecordBatch] is its named columns,
    its row count and the SDK request identifiers of its metadata; an Arrow array
    is the list of its nullable values, by the concrete type the readers
    distinguish.  Floating-point arithmetic is the parameter [F64]. *)

From Stdlib Require Import Ascii String ZArith Lia.
From S2P Require Import Prelude Text Words Dates Errors Ext RecipeError.
Local Open Scope string_scope.

(** The [f64] operations of the readers: [parse], [Display], conversion of an
    integer, [<], [is_finite], [fract() == 0.0] and the cast to an integer. *)
Class F64 (F : Type) := {
  f64_parse : string -> option F;
  f64_display : F -> string;
  f64_of_Z : Z -> F;
  f64_lt : F -> F -> bool;
  f64_is_finite : F -> bool;
  f64_is_integral : F -> bool;
  f64_to_Z : F -> Z
}.

Inductive ColumnKind (F : Type) : Type :=
| Utf8 (l : list (option string))
| LargeUtf8 (l : list (option string))
| Float64 (l : list (option F))
| Int64 (l : list (option Z))
| Int32 (l : list (option Z))
| Date32 (l : list (option Z))
| Unsupported.
Arguments Utf8 {F}. Arguments LargeUtf8 {F}. Arguments Float64 {F}. Arguments Int64 {F}.
Arguments Int32 {F}. Arguments Date32 {F}. Arguments Unsupported {F}.

Record RecordBatch (F : Type) : Type := mkBatch {
  rb_columns : list (string * ColumnKind F);
  num_rows : nat;
  rb_request_ids : list string
}.
Arguments mkBatch {F}. Arguments rb_columns {F}. Arguments num_rows {F}.
Arguments rb_request_ids {F}.

Section Readers.
Context {D F : Type} `{Chrono D} `{ChronoText D} `{F64 F}.

Definition column_by_name (b : RecordBatch F) (name : string) : option (ColumnKind F) :=
  snd <$> List.find (fun c => bool_decide (c.1 = name)) (rb_columns b).

(** [BloombergRequestIds::collect] *)
Definition ids_collect (ids : list string) (b : RecordBatch F) : list string :=
  ids_extend ids (rb_request_ids b).

(** [BloombergRequestIds::attach] *)
Definition ids_attach (ids : list string) (b : RecordBatch F) : RecordBatch F :=
  match ids with
  | [] => b
  | _ => mkBatch (rb_columns b) (num_rows b) (ids_collect ids b)
  end.

(** ** Values *)

Definition date32_to_naive (days : Z) : option D := epoch_plus_days days.

(** [value.get(..10)] on ASCII text *)
Definition prefix10 (s : string) : option string :=
  if (length (chars s) <? 10)%nat then None else Some (of_chars (take 10 (chars s))).

Definition parse_any_date (value : string) : option D :=
  let value := trim value in
  if decide (value = "") then None
  else
    let try_format fmt other :=
      match parse_from_str value fmt with Some d => Some d | None => other end in
    try_format "%Y%m%d" (try_format "%Y-%m-%d" (try_format "%m/%d/%Y" (try_format "%d/%m/%Y"
      (prefix10 value ≫= fun p => parse_from_str p "%Y-%m-%d")))).

Definition parse_f64_like (value : string) : option F :=
  let trimmed := trim value in
  if decide (trimmed = "") then None
  else
    let text := if bool_decide (ascii_of_nat 44 ∈ chars trimmed)
                then of_chars (filter (fun c => c <> ascii_of_nat 44) (chars trimmed))
                else trimmed in
    match f64_parse text with
    | Some v => if f64_is_finite v then Some v else None
    | None => None
    end.

(** The decimal [Display] of a signed integer. *)
Definition int_to_string (n : Z) : string :=
  let digits := of_chars (dec_digits 20 (Z.abs n) []) in
  if (n <? 0)%Z then String (ascii_of_nat 45) digits else digits.

(** [ColumnValues::string]; a row that is out of range or null has no value. *)
Definition cv_string (c : ColumnKind F) (row : nat) : option string :=
  match c with
  | Utf8 l | LargeUtf8 l => mjoin (l !! row)
  | Float64 l => f64_display <$> mjoin (l !! row)
  | Int64 l | Int32 l => int_to_string <$> mjoin (l !! row)
  | Date32 l => mjoin (l !! row) ≫= fun d =>
                  (fun n => date_format n "%Y-%m-%d") <$> date32_to_naive d
  | Unsupported => None
  end.

Definition cv_f64 (c : ColumnKind F) (row : nat) : option F :=
  match c with
  | Float64 l => mjoin (l !! row)
  | Int64 l | Int32 l => f64_of_Z <$> mjoin (l !! row)
  | Utf8 l | LargeUtf8 l => mjoin (l !! row) ≫= parse_f64_like
  | Date32 _ | Unsupported => cv_string c row ≫= parse_f64_like
  end.

Definition cv_date (c : ColumnKind F) (row : nat) : option D :=
  match c with
  | Date32 l => mjoin (l !! row) ≫= date32_to_naive
  | Utf8 l | LargeUtf8 l => mjoin (l !! row) ≫= parse_any_date
  | Float64 _ | Int64 _ | Int32 _ | Unsupported => cv_string c row ≫= parse_any_date
  end.

(** [value_col.is_null(row)]; a batch has [num_rows] values in every column. *)
Definition cv_is_null (c : ColumnKind F) (row : nat) : bool :=
  match c with
  | Utf8 l | LargeUtf8 l => bool_decide (mjoin (l !! row) = None)
  | Float64 l => match mjoin (l !! row) with None => true | _ => false end
  | Int64 l | Int32 l | Date32 l => bool_decide (mjoin (l !! row) = None)
  | Unsupported => true
  end.

Definition as_string_col (b : RecordBatch F) (column : string)
  : result (list (option string)) RecipeError :=
  match column_by_name b column with
  | None => Err (ROther ("missing '" ++ column ++ "' column"))
  | Some (Utf8 l) => Ok l
  | Some _ => Err (ROther ("'" ++ column ++ "' column must be Utf8"))
  end.

Definition value_column (b : RecordBatch F) : result (ColumnKind F) RecipeError :=
  match column_by_name b "value" with
  | Some c => Ok c
  | None => Err (ROther "missing 'value' column")
  end.

(** ** Reference data by ticker *)

Record RefdataIndex : Type := mkIndex {
  ri_fields : list (option string);
  ri_values : ColumnKind F;
  ri_rows : gmap string (list nat)
}.

(** One row of the loop of [RefdataIndex::new]. *)
Definition index_row (tickers fields : list (option string)) (m : gmap string (list nat)) (row : nat)
  : gmap string (list nat) :=
  match mjoin (tickers !! row), mjoin (fields !! row) with
  | Some t, Some _ => <[t := (default [] (m !! t) ++ [row])%list]> m
  | _, _ => m
  end.

Definition refdata_index_new (b : RecordBatch F) (key : string) : result RefdataIndex RecipeError :=
  match as_string_col b key with
  | Err e => Err e
  | Ok tickers =>
      match as_string_col b "field" with
      | Err e => Err e
      | Ok fields =>
          match value_column b with
          | Err e => Err e
          | Ok values =>
              Ok (mkIndex fields values
                    (fold_left (index_row tickers fields) (seq 0 (num_rows b)) ∅))
          end
      end
  end.

(** The row test of [first_value]: the field matches and the value is not blank. *)
Definition value_at (fields : list (option string)) (values : ColumnKind F) (field : string)
    (row : nat) : option (nat * string) :=
  match mjoin (fields !! row) with
  | Some name =>
      if negb (eq_ignore_ascii_case name field) then None
      else match cv_string values row with
           | Some raw => if decide (trim raw = "") then None else Some (row, raw)
           | None => None
           end
  | None => None
  end.

Fixpoint find_map {A B} (f : A -> option B) (l : list A) : option B :=
  match l with
  | [] => None
  | x :: l => match f x with Some y => Some y | None => find_map f l end
  end.

Definition first_value (ix : RefdataIndex) (ticker field : string) : option (nat * string) :=
  ri_rows ix !! ticker ≫= find_map (value_at (ri_fields ix) (ri_values ix) field).

Definition ri_string (ix : RefdataIndex) (ticker field : string) : option string :=
  (fun p => trim p.2) <$> first_value ix ticker field.

Definition ri_date (ix : RefdataIndex) (ticker field : string) : option D :=
  first_value ix ticker field ≫= fun p => cv_date (ri_values ix) p.1.

(** ** History *)

(** The date of a row: a [Date32] or a text column. *)
Definition row_date (c : ColumnKind F) (row : nat) : option D :=
  match c with
  | Date32 l => mjoin (l !! row) ≫= date32_to_naive
  | Utf8 l => mjoin (l !! row) ≫= parse_any_date
  | _ => None
  end.

(** One row of the loops of [latest_history_numeric_point] and
    [latest_history_string_point], which differ in how a value is read: a later row
    wins unless its date is earlier. *)
Definition latest_row {V} (tickers fields : list (option string)) (values dates : ColumnKind F)
    (read : nat -> option V) (ticker field : string) (best : option (D * V)) (row : nat)
  : option (D * V) :=
  match mjoin (tickers !! row), mjoin (fields !! row) with
  | Some t, Some f =>
      if cv_is_null values row || negb (bool_decide (t = ticker)) || negb (eq_ignore_ascii_case f field)
      then best
      else match read row with
           | None => best
           | Some v =>
               match row_date dates row with
               | None => best
               | Some d =>
                   match best with
                   | Some (bd, _) => if d_lt d bd then best else Some (d, v)
                   | None => Some (d, v)
                   end
               end
           end
  | _, _ => best
  end.

Definition latest_history_point {V} (read : ColumnKind F -> nat -> option V) (b : RecordBatch F)
    (key ticker field : string) : result (option (D * V)) RecipeError :=
  match as_string_col b key with
  | Err e => Err e
  | Ok tickers =>
      match as_string_col b "field" with
      | Err e => Err e
      | Ok fields =>
          match value_column b with
          | Err e => Err e
          | Ok values =>
              match column_by_name b "date" with
              | None => Err (ROther "missing 'date' column")
              | Some dates =>
                  Ok (fold_left (latest_row tickers fields values dates (read values) ticker field)
                        (seq 0 (num_rows b)) None)
              end
          end
      end
  end.

Definition latest_history_numeric_point : RecordBatch F -> string -> string -> string ->
    result (option (D * F)) RecipeError := latest_history_point cv_f64.

Definition trimmed_text (c : ColumnKind F) (row : nat) : option string :=
  match cv_string c row with
  | Some raw => if decide (trim raw = "") then None else Some (trim raw)
  | None => None
  end.

Definition latest_history_string_point : RecordBatch F -> string -> string -> string ->
    result (option (D * string)) RecipeError := latest_history_point trimmed_text.

(** [RecordBatch] of one row with the [key] column. *)
Definition build_single_ticker_batch (ticker key : string) : RecordBatch F :=
  mkBatch [(key, Utf8 [Some ticker])] 1 [].

(** ** The index agrees with a scan of the batch *)

(** The first row of the batch for a ticker and a field with a value. *)
Definition scan_value (tickers fields : list (option string)) (values : ColumnKind F) (rows : list nat)
    (ticker field : string) : option (nat * string) :=
  find_map (fun row => if decide (mjoin (tickers !! row) = Some ticker)
                       then value_at fields values field row else None) rows.

Lemma find_map_app {A B} (f : A -> option B) l1 l2 :
  find_map f (l1 ++ l2)%list = match find_map f l1 with Some y => Some y | None => find_map f l2 end.
Proof. induction l1 as [|x l1 IH]; simpl; [done|]. by destruct (f x). Qed.

Lemma index_rows_scan tickers fields values rows ticker field :
  (fold_left (index_row tickers fields) rows ∅ !! ticker) ≫= find_map (value_at fields values field)
  = scan_value tickers fields values rows ticker field.
Proof.
  unfold scan_value. induction rows as [|row rows IH] using rev_ind;
    [simpl; by rewrite lookup_empty|].
  rewrite fold_left_app, find_map_app, <- IH. simpl. unfold index_row at 1.
  set (m := fold_left (index_row tickers fields) rows ∅).
  assert (forall o, match (o : option (nat * string)) with Some y => Some y | None => None end = o)
    as Hid by by intros [].
  destruct (decide (mjoin (tickers !! row) = Some ticker)) as [Ht|Ht].
  - rewrite Ht. destruct (mjoin (fields !! row)) as [name|] eqn:Hf.
    + rewrite lookup_insert_eq. simpl. rewrite find_map_app. simpl.
      destruct (m !! ticker); simpl; [done|]. by rewrite Hid.
    + assert (value_at fields values field row = None) as -> by (unfold value_at; by rewrite Hf).
      by rewrite Hid.
  - rewrite Hid. destruct (mjoin (tickers !! row)) as [t|] eqn:E; [|done].
    destruct (mjoin (fields !! row)); [|done]. rewrite lookup_insert_ne; [done|]. by intros ->.
Qed.
End Readers.
