(* ===== verification/Ladder.v ===== *)
(** * Resolving a CDX series at a date

    The CDX recipes of [crates/xbbg-recipes/src/futures.rs]: the series that
    applies on a date is the latest one whose first accrual date is on or before
    it, read from Bloomberg for the current series and then for windows of prior
    series, from the top down.

    [Engine::request] is the parameter [engine_request], a function of the request:
    no two requests of one resolution are for the same securities.  The recipes
    thread the collected request identifiers, and a resolution whose window loop
    runs out of fuel has no result ([None]). *)

From Stdlib Require Import Ascii String ZArith Lia.
From S2P Require Import Prelude Text Words Dates Errors Services Plan Ext Cdx RecipeError Batch.
Local Open Scope string_scope.

(** [RequestParams::default()] *)
Definition params_default : RequestParams :=
  mkParams "" "" None None extractor_default false None None None None None None None None None
    None None None None None None None None None false false None None None None None.

Definition CDX_ACCRUAL_FIELD : string := "CDS_FIRST_ACCRUAL_START_DATE".

Definition cdx_metadata_params (secs : list string) : RequestParams :=
  mkParams (service_as_str SvRefData) (operation_as_str OpReferenceData) None None
    extractor_default false (Some secs) None
    (Some ["ROLLING_SERIES"; "VERSION"; CDX_ACCRUAL_FIELD]) None None None None None None
    None None None None None None None None None false false None None None None None.

Section Recipes.
Context {D F : Type} `{Chrono D} `{ChronoText D} `{F64 F}.
Context (engine_request : RequestParams -> result (RecordBatch F) BlpAsyncError) (key : string).

Definition request_cdx_metadata (secs : list string) : result (RecordBatch F) RecipeError :=
  result_map_err REngine (engine_request (cdx_metadata_params secs)).

Definition parse_series_number (value : string) : option Z :=
  let value := trim value in
  match parse_u32 value with
  | Some v => if (0 <? v)%Z then Some v else None
  | None =>
      match f64_parse value with
      | None => None
      | Some parsed =>
          if negb (f64_is_finite parsed) || f64_lt parsed (f64_of_Z 1)
             || f64_lt (f64_of_Z u32_max) parsed || negb (f64_is_integral parsed)
          then None else Some (f64_to_Z parsed)
      end
  end.

Definition missing_field {A} (field ticker : string) : result A RecipeError :=
  Err (ROther ("missing " ++ field ++ " for '" ++ ticker ++ "' in Bloomberg response")).

Definition required_cdx_number (ix : @RefdataIndex F) (ticker field : string) : result Z RecipeError :=
  match ri_string ix ticker field with
  | None => missing_field field ticker
  | Some raw =>
      match parse_series_number raw with
      | Some n => Ok n
      | None => Err (ROther ("unable to parse " ++ field ++ "='" ++ raw ++ "' for '" ++ ticker ++ "'"))
      end
  end.

Definition required_cdx_date (ix : @RefdataIndex F) (ticker field : string) : result D RecipeError :=
  match ri_date ix ticker field with
  | Some d => Ok d
  | None => missing_field field ticker
  end.

(** A resolved series with the accrual date that makes it apply. *)
Record CdxSeriesAt : Type := mkAt { at_info : ResolvedCdxInfo; at_accrual : D }.

(** A [Result] of the extension crate inside a recipe. *)
Definition ext {A} (r : result A ExtError) : result A RecipeError := result_map_err RExt r.

(** ** One ladder *)

Definition ladder_order_error (gen_ticker : string) (n : Z) (d : D) (above : Z * D) : RecipeError :=
  ROther ("'" ++ gen_ticker ++ "' S" ++ u32_to_string n ++ " starts " ++ date_display d
            ++ ", not before S" ++ u32_to_string above.1 ++ " at " ++ date_display above.2).

(** The rung that applies, with its version. *)
Definition resolve_rung (ix : @RefdataIndex F) (n : Z) (alias : string) (accrual_start : D)
  : result CdxSeriesAt RecipeError :=
  match required_cdx_number ix alias "VERSION" with
  | Err e => Err e
  | Ok v =>
      match ext (parse_cdx_ticker alias) with
      | Err e => Err e
      | Ok p => result_map (fun info => mkAt info accrual_start) (ext (cdx_resolve p n v))
      end
  end.

(** The loop of [pick_cdx_ladder_series], over the rungs from the top down. *)
Fixpoint pick_loop (ix : @RefdataIndex F) (gen_ticker : string) (dt : D)
    (rungs : list (Z * string)) (above : option (Z * D)) : result (option CdxSeriesAt) RecipeError :=
  match rungs with
  | [] => Ok None
  | (n, alias) :: rungs =>
      match required_cdx_date ix alias CDX_ACCRUAL_FIELD with
      | Err e => Err e
      | Ok accrual_start =>
          match above with
          | Some a =>
              if d_le a.2 accrual_start
              then Err (ladder_order_error gen_ticker n accrual_start a)
              else if d_le accrual_start dt
                   then result_map Some (resolve_rung ix n alias accrual_start)
                   else pick_loop ix gen_ticker dt rungs (Some (n, accrual_start))
          | None =>
              if d_le accrual_start dt
              then result_map Some (resolve_rung ix n alias accrual_start)
              else pick_loop ix gen_ticker dt rungs (Some (n, accrual_start))
          end
      end
  end.

(** [aliases] is ordered by ascending series, starting at [lo]. *)
Definition pick_cdx_ladder_series (b : RecordBatch F) (gen_ticker : string) (aliases : list string)
    (lo : Z) (dt : D) : result (option CdxSeriesAt) RecipeError :=
  match aliases with
  | [] => Ok None
  | _ =>
      match refdata_index_new b key with
      | Err e => Err e
      | Ok ix =>
          pick_loop ix gen_ticker dt
            (rev (imap (fun i alias => ((lo + Z.of_nat i)%Z, alias)) aliases)) None
      end
  end.

(** [(lo..=hi).map(gen_to_specific).collect()]: the first error ends it. *)
Fixpoint ladder_aliases (gen_ticker : string) (ns : list Z) : result (list string) RecipeError :=
  match ns with
  | [] => Ok []
  | n :: ns =>
      match ext (gen_to_specific gen_ticker n) with
      | Err e => Err e
      | Ok alias => result_map (cons alias) (ladder_aliases gen_ticker ns)
      end
  end.

Definition resolve_cdx_ladder (gen_ticker : string) (lo hi : Z) (dt : D) (ids : list string)
  : result (option CdxSeriesAt) RecipeError * list string :=
  match ladder_aliases gen_ticker (seqZ lo (hi - lo + 1)) with
  | Err e => (Err e, ids)
  | Ok aliases =>
      match request_cdx_metadata aliases with
      | Err e => (Err e, ids)
      | Ok b => (pick_cdx_ladder_series b gen_ticker aliases lo dt, ids_collect ids b)
      end
  end.

(** ** The search *)

Definition not_started_error (gen_ticker : string) (dt : D) : RecipeError :=
  RInvalidArgument ("no '" ++ gen_ticker ++ "' series had started by " ++ date_display dt).

(** The [loop] of [resolve_cdx_series_at]. *)
Fixpoint search_windows (fuel : nat) (gen_ticker : string) (window : Z * Z) (dt : D)
    (ids : list string) : option (result CdxSeriesAt RecipeError * list string) :=
  match fuel with
  | O => None
  | S fuel =>
      let '(r, ids) := resolve_cdx_ladder gen_ticker window.1 window.2 dt ids in
      match r with
      | Err e => Some (Err e, ids)
      | Ok (Some found) => Some (Ok found, ids)
      | Ok None =>
          match cdx_next_series_window window.1 with
          | None => Some (Err (not_started_error gen_ticker dt), ids)
          | Some window => search_windows fuel gen_ticker window dt ids
          end
      end
  end.

Definition first_series_error (gen_ticker : string) (n : Z) (dt : D) : RecipeError :=
  RInvalidArgument (date_display dt ++ " precedes S" ++ u32_to_string n
                      ++ ", the first series of '" ++ gen_ticker ++ "'").

(** The metadata of the generic ticker: the current series, its accrual date, and
    the index for its version. *)
Definition current_series (b : RecordBatch F) (gen_ticker : string)
  : result (Z * D * @RefdataIndex F) RecipeError :=
  match refdata_index_new b key with
  | Err e => Err e
  | Ok ix =>
      match required_cdx_number ix gen_ticker "ROLLING_SERIES" with
      | Err e => Err e
      | Ok n =>
          match required_cdx_date ix gen_ticker CDX_ACCRUAL_FIELD with
          | Err e => Err e
          | Ok accrual_start => Ok (n, accrual_start, ix)
          end
      end
  end.

Definition resolve_cdx_series_at (fuel : nat) (gen_ticker : string) (dt : D) (ids : list string)
  : option (result CdxSeriesAt RecipeError * list string) :=
  match ext (parse_cdx_ticker gen_ticker) with
  | Err e => Some (Err e, ids)
  | Ok parsed =>
      if negb (is_generic parsed)
      then Some (Err (RInvalidArgument ("'" ++ gen_ticker ++
                        "' must be a generic CDX ticker containing GEN")), ids)
      else match request_cdx_metadata [gen_ticker] with
           | Err e => Some (Err e, ids)
           | Ok b =>
               let ids := ids_collect ids b in
               match current_series b gen_ticker with
               | Err e => Some (Err e, ids)
               | Ok (n, accrual_start, ix) =>
                   if d_le accrual_start dt then
                     Some (match required_cdx_number ix gen_ticker "VERSION" with
                           | Err e => Err e
                           | Ok v => result_map (fun info => mkAt info accrual_start)
                                       (ext (cdx_resolve parsed n v))
                           end, ids)
                   else match cdx_prior_series_window n accrual_start dt with
                        | None => Some (Err (first_series_error gen_ticker n dt), ids)
                        | Some window => search_windows fuel gen_ticker window dt ids
                        end
               end
           end
  end.

(** ** The recipes *)

Definition resolve_specific_cdx (ticker : string) (ids : list string)
  : result ResolvedCdxInfo RecipeError * list string :=
  match ext (parse_cdx_ticker ticker) with
  | Err e => (Err e, ids)
  | Ok parsed =>
      if is_generic parsed
      then (Err (RInvalidArgument ("'" ++ ticker ++ "' must be a specific CDX ticker")), ids)
      else match series_num parsed with
           | None => (Err (ROther ("missing parsed CDX series for '" ++ ticker ++ "'")), ids)
           | Some n =>
               match request_cdx_metadata [ticker] with
               | Err e => (Err e, ids)
               | Ok b =>
                   (match refdata_index_new b key with
                    | Err e => Err e
                    | Ok ix =>
                        match required_cdx_number ix ticker "VERSION" with
                        | Err e => Err e
                        | Ok v => ext (cdx_resolve parsed n v)
                        end
                    end, ids_collect ids b)
               end
           end
  end.

(** [Duration::try_days] holds at most [i64::MAX] milliseconds. *)
Definition cdx_activity_window_start (dt : D) (lookback_days : option Z) (accrual_start : D)
  : result D RecipeError :=
  let days := Z.max (default 10%Z lookback_days) 1 in
  if (i64_max / 86400000 <? days)%Z
  then Err (RInvalidArgument ("lookback_days=" ++ int_to_string days ++ " is out of range"))
  else match checked_sub_days dt days with
       | None => Err (RInvalidArgument ("lookback_days=" ++ int_to_string days
                                          ++ " is out of range for " ++ date_display dt))
       | Some windowed => Ok (d_min windowed accrual_start)
       end.

Definition has_history_value (b : RecordBatch F) (ticker field : string) : result bool RecipeError :=
  result_map (fun o : option (D * F) => match o with Some _ => true | None => false end)
    (latest_history_numeric_point b key ticker field).

Definition cdx_price_params (current previous : string) (start dt : D) : RequestParams :=
  mkParams (service_as_str SvRefData) (operation_as_str OpHistoricalData) None None
    extractor_default false (Some [current; previous]) None (Some ["PX_LAST"]) None None None None
    (Some (fmt_date start None)) (Some (fmt_date dt None))
    None None None None None None None None None false false None None None None None.

Definition no_price_error (current previous : string) (start dt : D) : RecipeError :=
  ROther ("neither '" ++ current ++ "' nor '" ++ previous ++ "' reported PX_LAST between "
            ++ fmt_date start None ++ " and " ++ fmt_date dt None).

(** The choice of [recipe_active_cdx_with_options] between the two series. *)
Definition select_active (b : RecordBatch F) (current previous : ResolvedCdxInfo) (start dt : D)
  : result ResolvedCdxInfo RecipeError :=
  let ct := build_resolved_cdx_ticker_with_options current false in
  let pt := build_resolved_cdx_ticker_with_options previous false in
  match has_history_value b ct "PX_LAST" with
  | Err e => Err e
  | Ok true => Ok current
  | Ok false =>
      match has_history_value b pt "PX_LAST" with
      | Err e => Err e
      | Ok true => Ok previous
      | Ok false => Err (no_price_error ct pt start dt)
      end
  end.

(** The part of the recipe after the series at the date is resolved. *)
Definition active_cdx_info (current : CdxSeriesAt) (dt : D) (lookback_days : option Z)
    (ids : list string) : result ResolvedCdxInfo RecipeError * list string :=
  match previous_alias (at_info current) with
  | None => (Ok (at_info current), ids)
  | Some alias =>
      match resolve_specific_cdx alias ids with
      | (Err e, ids) => (Err e, ids)
      | (Ok previous, ids) =>
          match cdx_activity_window_start dt lookback_days (at_accrual current) with
          | Err e => (Err e, ids)
          | Ok start =>
              match result_map_err REngine
                      (engine_request
                         (cdx_price_params
                            (build_resolved_cdx_ticker_with_options (at_info current) false)
                            (build_resolved_cdx_ticker_with_options previous false) start dt)) with
              | Err e => (Err e, ids)
              | Ok b => (select_active b (at_info current) previous start dt, ids_collect ids b)
              end
          end
      end
  end.

(** What both recipes do with the outcome of their [async] block: print the
    contract, and record the identifiers in the batch or the error. *)
Definition finish_cdx (versionless : bool) (out : result ResolvedCdxInfo RecipeError * list string)
  : result (RecordBatch F) RecipeError :=
  match out with
  | (Ok info, ids) =>
      Ok (ids_attach ids
            (build_single_ticker_batch (build_resolved_cdx_ticker_with_options info versionless) key))
  | (Err e, ids) => Err (with_bloomberg_request_ids e ids)
  end.

Definition recipe_cdx_ticker_with_options (fuel : nat) (gen_ticker dt : string) (versionless : bool)
  : option (result (RecordBatch F) RecipeError) :=
  match ext (parse_date dt) with
  | Err e => Some (finish_cdx versionless (Err e, []))
  | Ok dt =>
      (fun out : result CdxSeriesAt RecipeError * list string =>
         finish_cdx versionless (result_map at_info out.1, out.2))
        <$> resolve_cdx_series_at fuel gen_ticker dt []
  end.

Definition recipe_active_cdx_with_options (fuel : nat) (gen_ticker dt : string)
    (lookback_days : option Z) (versionless : bool) : option (result (RecordBatch F) RecipeError) :=
  match ext (parse_date dt) with
  | Err e => Some (Err e)
  | Ok dt =>
      (fun out : result CdxSeriesAt RecipeError * list string =>
         finish_cdx versionless
           (match out with
            | (Err e, ids) => (Err e, ids)
            | (Ok current, ids) => active_cdx_info current dt lookback_days ids
            end))
        <$> resolve_cdx_series_at fuel gen_ticker dt []
  end.
End Recipes.

(** The rungs of a window, from the top down. *)
Definition rungs_of (lo : Z) (aliases : list string) : list (Z * string) :=
  rev (imap (fun i alias => ((lo + Z.of_nat i)%Z, alias)) aliases).

Lemma rungs_of_snoc lo aliases alias :
  rungs_of lo (aliases ++ [alias])%list
  = (lo + Z.of_nat (length aliases), alias)%Z :: rungs_of lo aliases.
Proof. unfold rungs_of. rewrite imap_app, rev_app_distr. simpl. by rewrite Nat.add_0_r. Qed.

(** The top rung of a window, and the rungs below it. *)
Lemma rungs_inv (P : Z -> string -> Prop) lo k aliases :
  Forall2 P (seqZ lo (Z.of_nat (S k))) aliases ->
  exists al alias, Forall2 P (seqZ lo (Z.of_nat k)) al /\ P (lo + Z.of_nat k)%Z alias
    /\ rungs_of lo aliases = (lo + Z.of_nat k, alias)%Z :: rungs_of lo al.
Proof.
  rewrite Nat2Z.inj_succ, <- Z.add_1_r, seqZ_app by lia.
  intros (al & last & Ha & Hl & ->)%Forall2_app_inv_l.
  rewrite (seqZ_cons _ 1), (seqZ_nil _ (Z.pred 1)) in Hl by lia.
  apply Forall2_cons_inv_l in Hl as (alias & l' & Hl & Hnil & ->).
  apply Forall2_nil_inv_l in Hnil as ->.
  pose proof (Forall2_length _ _ _ Ha) as Hlen. rewrite length_seqZ, Nat2Z.id in Hlen.
  exists al, alias. by rewrite rungs_of_snoc, <- Hlen.
Qed.

(** ** The search on a consistent history *)

Section Exact.
Context {D F : Type} `{ChronoLaws D} `{ChronoText D} `{F64 F}.
Context (engine_request : RequestParams -> result (RecordBatch F) BlpAsyncError) (key : string).
Context (gen : string) (info : ParsedCdxInfo) (cur : Z) (accr : Z -> D) (ver : Z -> Z).

(** What an answer to a metadata request says of the series [n] under a ticker. *)
Definition answers (ix : @RefdataIndex F) (ticker : string) (n : Z) : Prop :=
  required_cdx_date ix ticker CDX_ACCRUAL_FIELD = Ok (accr n)
  /\ required_cdx_number ix ticker "VERSION" = Ok (ver n).

(** Bloomberg reports one history of the index: series 1 to [cur], with increasing
    accrual dates, whatever window of them is asked for. *)
Record CdxHistory : Prop := {
  hist_generic : parse_cdx_ticker gen = Ok info /\ is_generic info = true /\ version info = None;
  hist_current : (1 <= cur <= u32_max)%Z;
  hist_versions : forall n, (1 <= n <= cur)%Z -> ver n <> 0%Z;
  hist_sorted : forall m n, (1 <= m)%Z -> (m < n <= cur)%Z -> (d_ord (accr m) < d_ord (accr n))%Z;
  hist_top : exists b ix, request_cdx_metadata engine_request [gen] = Ok b
    /\ refdata_index_new b key = Ok ix
    /\ required_cdx_number ix gen "ROLLING_SERIES" = Ok cur /\ answers ix gen cur;
  hist_window : forall lo hi aliases, (1 <= lo <= hi)%Z -> (hi < cur)%Z ->
    ladder_aliases gen (seqZ lo (hi - lo + 1)) = Ok aliases ->
    exists b ix, request_cdx_metadata engine_request aliases = Ok b
      /\ refdata_index_new b key = Ok ix
      /\ forall n alias, (lo <= n <= hi)%Z -> gen_to_specific gen n = Ok alias -> answers ix alias n
}.

(** The specification: the latest of the [k] series from [lo] that started by [dt]. *)
Fixpoint latest_in (dt : D) (lo : Z) (k : nat) : option Z :=
  match k with
  | O => None
  | S k => if d_le (accr (lo + Z.of_nat k)) dt then Some (lo + Z.of_nat k)%Z else latest_in dt lo k
  end.

Definition contract (n : Z) : CdxSeriesAt (D := D) :=
  mkAt (mkResolved (index info) n (ver n) (tenor info) (asset info)) (accr n).

Lemma latest_in_app dt lo k1 k2 :
  latest_in dt lo (k1 + k2)
  = match latest_in dt (lo + Z.of_nat k1) k2 with
    | Some n => Some n
    | None => latest_in dt lo k1
    end.
Proof.
  induction k2 as [|k2 IH]; [by rewrite Nat.add_0_r|].
  rewrite Nat.add_succ_r. simpl. rewrite Nat2Z.inj_add, Z.add_assoc.
  by destruct (d_le _ dt).
Qed.

Lemma latest_in_some dt lo k n :
  latest_in dt lo k = Some n ->
  (lo <= n < lo + Z.of_nat k)%Z /\ (d_ord (accr n) <= d_ord dt)%Z
  /\ forall m, (n < m < lo + Z.of_nat k)%Z -> (d_ord dt < d_ord (accr m))%Z.
Proof.
  induction k as [|k IH]; simpl; [done|]. destruct (d_le (accr (lo + Z.of_nat k)) dt) eqn:E.
  - intros [= <-]. apply d_le_spec in E. split_and!; [lia|lia|done|lia].
  - intros Hn. destruct (IH Hn) as (H3 & H4 & H5). split_and!; [lia|lia|done|].
    intros m Hm. destruct (decide (m = lo + Z.of_nat k)%Z) as [->|]; [unfold d_le in E; lia|].
    apply H5. lia.
Qed.

Lemma latest_in_none dt lo k :
  latest_in dt lo k = None ->
  forall m, (lo <= m < lo + Z.of_nat k)%Z -> (d_ord dt < d_ord (accr m))%Z.
Proof.
  induction k as [|k IH]; simpl; [lia|]. destruct (d_le (accr (lo + Z.of_nat k)) dt) eqn:E; [done|].
  intros Hn m Hm. destruct (decide (m = lo + Z.of_nat k)%Z) as [->|]; [unfold d_le in E; lia|].
  apply IH; [done|lia].
Qed.

Lemma ladder_aliases_spec ns aliases :
  ladder_aliases gen ns = Ok aliases -> Forall2 (fun n a => gen_to_specific gen n = Ok a) ns aliases.
Proof.
  revert aliases. induction ns as [|n ns IH]; intros aliases E; simpl in E; [by simplify_eq|].
  destruct (gen_to_specific gen n) as [a|] eqn:Ha; [|done]. simpl in E.
  destruct (ladder_aliases gen ns) as [l|]; [|done]. simplify_eq/=. constructor; [done|by apply IH].
Qed.

Lemma ladder_aliases_total ns :
  (forall n, n ∈ ns -> exists a, gen_to_specific gen n = Ok a) ->
  exists aliases, ladder_aliases gen ns = Ok aliases.
Proof.
  induction ns as [|n ns IH]; intros Hn; simpl; [by eexists|].
  destruct (Hn n) as (a & ->); [left|]. simpl.
  destruct IH as (l & ->); [intros m Hm; apply Hn; by right|]. by eexists.
Qed.

Hypothesis HH : CdxHistory.

Lemma alias_of n :
  (1 <= n <= cur)%Z ->
  exists alias, gen_to_specific gen n = Ok alias
    /\ parse_cdx_ticker alias
       = Ok (mkParsed (index info) (series_token n) None (tenor info) (asset info) false (Some n)).
Proof.
  intros Hn. destruct HH as [[Hp [Hg Hv]] Hc _ _ _ _].
  apply gen_to_specific_parses; [done..|lia].
Qed.

Lemma resolve_rung_ok ix n alias :
  (1 <= n <= cur)%Z -> gen_to_specific gen n = Ok alias -> answers ix alias n ->
  resolve_rung ix n alias (accr n) = Ok (contract n).
Proof.
  intros Hn Ha [_ Hver]. destruct (alias_of n Hn) as (alias' & Ha' & Hp).
  rewrite Ha in Ha'. injection Ha' as <-.
  unfold resolve_rung. rewrite Hver, Hp. simpl.
  rewrite (cdx_resolve_ok (mkParsed _ _ _ _ _ _ _) n (ver n)); [done|lia|by apply HH|done|done].
Qed.

Lemma pick_loop_exact ix dt lo k : forall aliases above,
  (1 <= lo)%Z -> (lo + Z.of_nat k <= cur)%Z ->
  Forall2 (fun n a => gen_to_specific gen n = Ok a) (seqZ lo (Z.of_nat k)) aliases ->
  (forall n alias, (lo <= n < lo + Z.of_nat k)%Z -> gen_to_specific gen n = Ok alias ->
     answers ix alias n) ->
  (forall a, above = Some a -> a.2 = accr (lo + Z.of_nat k)) ->
  pick_loop ix gen dt (rungs_of lo aliases) above
  = Ok (contract <$> latest_in dt lo k).
Proof.
  induction k as [|k IH]; intros aliases above Hlo Hk Ha Hans Hab.
  { apply Forall2_nil_inv_l in Ha as ->. done. }
  apply rungs_inv in Ha as (al & alias & Ha & Hl & ->). simpl.
  destruct (Hans (lo + Z.of_nat k)%Z alias ltac:(lia) Hl) as [Hd Hv]. rewrite Hd.
  assert (forall n al', (lo <= n < lo + Z.of_nat k)%Z -> gen_to_specific gen n = Ok al' ->
            answers ix al' n) as Hans' by (intros; apply Hans; [lia|done]).
  assert ((if d_le (accr (lo + Z.of_nat k)) dt
           then result_map Some (resolve_rung ix (lo + Z.of_nat k) alias (accr (lo + Z.of_nat k)))
           else pick_loop ix gen dt (rungs_of lo al)
                  (Some ((lo + Z.of_nat k)%Z, accr (lo + Z.of_nat k))))
          = Ok (contract <$> (if d_le (accr (lo + Z.of_nat k)) dt then Some (lo + Z.of_nat k)%Z
                              else latest_in dt lo k))) as Hgo.
  { destruct (d_le (accr (lo + Z.of_nat k)) dt).
    - rewrite (resolve_rung_ok ix (lo + Z.of_nat k) alias); [done|lia|done|by split].
    - apply IH; [done|lia|done|done|]. by intros a [= <-]. }
  destruct above as [a|]; [|exact Hgo].
  assert (d_le a.2 (accr (lo + Z.of_nat k)) = false) as ->; [|exact Hgo].
  rewrite (Hab a eq_refl). unfold d_le. apply Z.leb_gt.
  apply (hist_sorted HH); lia.
Qed.

Lemma ladder_exact lo hi dt ids :
  (1 <= lo <= hi)%Z -> (hi < cur)%Z ->
  exists ids', resolve_cdx_ladder engine_request key gen lo hi dt ids
    = (Ok (contract <$> latest_in dt lo (Z.to_nat (hi - lo + 1))), ids').
Proof.
  intros Hlo Hhi. unfold resolve_cdx_ladder.
  destruct (ladder_aliases_total (seqZ lo (hi - lo + 1))) as (aliases & Ha).
  { intros n Hn%elem_of_seqZ. destruct (alias_of n ltac:(lia)) as (a & Hn' & _). by exists a. }
  destruct (hist_window HH lo hi aliases Hlo Hhi Ha) as (b & ix & Hb & Hix & Hans).
  rewrite Ha, Hb. eexists. f_equal. unfold pick_cdx_ladder_series.
  pose proof (ladder_aliases_spec _ _ Ha) as Hal.
  destruct aliases as [|a0 al]; [apply Forall2_length in Hal; rewrite length_seqZ in Hal; simpl in Hal; lia|].
  rewrite Hix. fold (rungs_of lo (a0 :: al)). apply pick_loop_exact; [lia|lia| | |done].
  - by rewrite Z2Nat.id by lia.
  - intros n alias Hn. apply Hans. lia.
Qed.

(** Each window settles its series; the next one continues below. *)
Lemma search_windows_exact dt fuel : forall lo hi ids,
  (1 <= lo <= hi)%Z -> (hi < cur)%Z -> (lo <= CDX_LADDER_BATCH * Z.of_nat fuel + 1)%Z ->
  exists ids',
    search_windows engine_request key (S fuel) gen (lo, hi) dt ids
    = Some (match latest_in dt 1 (Z.to_nat hi) with
            | Some n => Ok (contract n)
            | None => Err (not_started_error gen dt)
            end, ids').
Proof.
  induction fuel as [|fuel IH]; intros lo hi ids Hlo Hhi Hf; cbn [search_windows fst snd];
    destruct (ladder_exact lo hi dt ids Hlo Hhi) as (ids1 & ->);
    replace (Z.to_nat hi) with (Z.to_nat (lo - 1) + Z.to_nat (hi - lo + 1))%nat by lia;
    rewrite latest_in_app; replace (1 + Z.of_nat (Z.to_nat (lo - 1)))%Z with lo by lia;
    destruct (latest_in dt lo (Z.to_nat (hi - lo + 1))) as [n|]; simpl; try (by eexists).
  - replace lo with 1%Z by lia. by eexists.
  - destruct (cdx_next_series_window lo) as [[lo' hi']|] eqn:Hw.
    + apply next_window_some in Hw as (-> & Hlo' & Hl). apply IH; [done|lia|].
      unfold CDX_LADDER_BATCH in *. lia.
    + apply next_window_none in Hw. replace lo with 1%Z by lia. by eexists.
Qed.

(** C33: on a consistent Bloomberg history, resolving a generic ticker at a date
    refines the specification "the latest series whose first accrual date is on or
    before the date": with a round of the window loop per batch of series it
    returns exactly that series with its version and accrual date, and an
    invalid-argument error when no series had started. *)
Theorem cdx_search_exact dt ids fuel (Hf : (cur <= CDX_LADDER_BATCH * Z.of_nat fuel + 2)%Z) :
  exists r ids', resolve_cdx_series_at engine_request key (S fuel) gen dt ids = Some (r, ids')
    /\ match latest_in dt 1 (Z.to_nat cur) with
       | Some n => r = Ok (contract n)
       | None => exists detail, r = Err (RInvalidArgument detail)
       end.
Proof.
  destruct HH as [[Hp [Hg Hv]] Hc Hvs Hsort (b & ix & Hb & Hix & Hroll & Hacc & Hver) _].
  unfold resolve_cdx_series_at, current_series. rewrite Hp.
  cbn [ext result_map_err]. rewrite Hg. cbn [negb]. rewrite Hb, Hix, Hroll, Hacc.
  replace (Z.to_nat cur) with (S (Z.to_nat (cur - 1))) by lia. cbn [latest_in].
  replace (1 + Z.of_nat (Z.to_nat (cur - 1)))%Z with cur by lia.
  destruct (d_le (accr cur) dt) eqn:Hd.
  - rewrite Hver. rewrite (cdx_resolve_ok info cur (ver cur));
      [by eexists _, _|lia|apply Hvs; lia|by rewrite Hg|by rewrite Hv].
  - assert (d_ord dt < d_ord (accr cur))%Z as Hlt by (unfold d_le in Hd; lia).
    destruct (cdx_prior_series_window cur (accr cur) dt) as [[lo hi]|] eqn:Hw.
    + apply prior_window_some in Hw as (_ & -> & Hlo & _).
      destruct (search_windows_exact dt fuel lo (cur - 1) (ids_collect ids b)) as (ids' & ->);
        [done|lia|lia|]. eexists _, _. split; [done|].
      destruct (latest_in dt 1 (Z.to_nat (cur - 1))); [done|]. by eexists.
    + apply prior_window_none in Hw; [|done]. eexists _, _. split; [done|].
      replace (Z.to_nat (cur - 1)) with 0%nat by lia. simpl. by eexists.
Qed.
End Exact.

(** ** The search on any answers *)

Section Sound.
Context {D F : Type} `{ChronoLaws D} `{ChronoText D} `{F64 F}.
Context (engine_request : RequestParams -> result (RecordBatch F) BlpAsyncError) (key : string).
Context (gen : string) (dt : D).

(** The answer reports a series as starting after the date. *)
Definition later_in (ix : @RefdataIndex F) (m : Z) : Prop :=
  exists alias d, gen_to_specific gen m = Ok alias
    /\ required_cdx_date ix alias CDX_ACCRUAL_FIELD = Ok d /\ (d_ord dt < d_ord d)%Z.

Definition reported_later (m : Z) : Prop :=
  exists aliases b ix, request_cdx_metadata engine_request aliases = Ok b
    /\ refdata_index_new b key = Ok ix /\ later_in ix m.

(** What a ladder over the series from [lo] below [top] says. *)
Definition ladder_says (lo top : Z) (later : Z -> Prop) (out : option (CdxSeriesAt (D := D))) : Prop :=
  match out with
  | None => forall m, (lo <= m < top)%Z -> later m
  | Some a =>
      (lo <= r_series (at_info a) < top)%Z /\ (d_ord (at_accrual a) <= d_ord dt)%Z
      /\ forall m, (r_series (at_info a) < m < top)%Z -> later m
  end.

Lemma resolve_rung_series ix n alias (d : D) a :
  resolve_rung (F := F) ix n alias d = Ok a -> r_series (at_info a) = n /\ at_accrual a = d.
Proof.
  unfold resolve_rung. destruct (required_cdx_number _ _ _) as [v|]; [|done].
  destruct (parse_cdx_ticker alias) as [p|]; simpl; [|done].
  destruct (cdx_resolve p n v) as [info|] eqn:E; simpl; [|done]. intros [= <-]. simpl.
  by apply cdx_resolve_some in E as (_ & _ & _ & _ & ->).
Qed.

Lemma pick_loop_sound ix lo k : forall aliases above out,
  Forall2 (fun n a => gen_to_specific gen n = Ok a) (seqZ lo (Z.of_nat k)) aliases ->
  pick_loop ix gen dt (rungs_of lo aliases) above = Ok out ->
  ladder_says lo (lo + Z.of_nat k) (later_in ix) out.
Proof.
  induction k as [|k IH]; intros aliases above out Ha E.
  { apply Forall2_nil_inv_l in Ha as ->. simpl in E. simplify_eq. simpl. lia. }
  apply rungs_inv in Ha as (al & alias & Ha & Hl & Hr). rewrite Hr in E. simpl in E.
  clear Hr.
  destruct (required_cdx_date ix alias CDX_ACCRUAL_FIELD) as [d|] eqn:Hd; [|done].
  assert ((if d_le d dt then result_map Some (resolve_rung ix (lo + Z.of_nat k) alias d)
           else pick_loop ix gen dt (rungs_of lo al) (Some ((lo + Z.of_nat k)%Z, d))) = Ok out) as Hgo.
  { destruct above as [a|]; [|done]. by destruct (d_le a.2 d). }
  clear E. destruct (d_le d dt) eqn:Hle.
  - destruct (resolve_rung ix (lo + Z.of_nat k) alias d) as [a|] eqn:Hr; simpl in Hgo; [|done].
    injection Hgo as <-. apply resolve_rung_series in Hr as [Hs Hacc]. simpl.
    apply d_le_spec in Hle. rewrite Hs, Hacc. split_and!; [lia|lia|done|lia].
  - assert (later_in ix (lo + Z.of_nat k)) as Hlater.
    { exists alias, d. split_and!; [done..|]. unfold d_le in Hle. lia. }
    specialize (IH _ _ _ Ha Hgo). unfold ladder_says in *. destruct out as [a|].
    + destruct IH as (H3 & H4 & H5). split_and!; [lia|lia|done|]. intros m Hm.
      destruct (decide (m = lo + Z.of_nat k)%Z) as [->|]; [done|]. apply H5. lia.
    + intros m Hm. destruct (decide (m = lo + Z.of_nat k)%Z) as [->|]; [done|]. apply IH. lia.
Qed.

Lemma ladder_sound lo hi ids out ids' :
  (lo <= hi)%Z ->
  resolve_cdx_ladder engine_request key gen lo hi dt ids = (Ok out, ids') ->
  ladder_says lo (hi + 1) reported_later out.
Proof.
  intros Hlo. unfold resolve_cdx_ladder.
  destruct (ladder_aliases gen _) as [aliases|] eqn:Ha; [|done].
  destruct (request_cdx_metadata engine_request aliases) as [b|] eqn:Hb; [|done].
  intros [= Hp _]. apply ladder_aliases_spec in Ha. unfold pick_cdx_ladder_series in Hp.
  destruct aliases as [|a0 al].
  { apply Forall2_length in Ha. rewrite length_seqZ in Ha. simpl in Ha. lia. }
  destruct (refdata_index_new b key) as [ix|] eqn:Hix; [|done].
  fold (rungs_of lo (a0 :: al)) in Hp.
  apply (pick_loop_sound ix lo (Z.to_nat (hi - lo + 1))) in Hp; [|by rewrite Z2Nat.id by lia].
  replace (lo + Z.of_nat (Z.to_nat (hi - lo + 1)))%Z with (hi + 1)%Z in Hp by lia.
  assert (forall m, later_in ix m -> reported_later m) as Himp by (intros m Hm; by exists (a0 :: al), b, ix).
  destruct out as [a|]; simpl in *; [|by eauto].
  destruct Hp as (? & ? & ?). split_and!; [lia|lia|done|]. eauto.
Qed.

Lemma search_windows_sound fuel : forall lo hi ids a ids',
  (1 <= lo <= hi)%Z ->
  search_windows engine_request key fuel gen (lo, hi) dt ids = Some (Ok a, ids') ->
  ladder_says 1 (hi + 1) reported_later (Some a).
Proof.
  induction fuel as [|fuel IH]; intros lo hi ids a ids' Hlo E; [done|]. cbn [search_windows fst snd] in E.
  destruct (resolve_cdx_ladder engine_request key gen lo hi dt ids) as [[[a'|]|] ids1] eqn:Hl; [..|done].
  - injection E as -> ->. apply ladder_sound in Hl; [|lia]. simpl in *.
    destruct Hl as (? & ? & ?). split_and!; [lia|lia|done|done].
  - apply ladder_sound in Hl; [|lia]. simpl in Hl.
    destruct (cdx_next_series_window lo) as [[lo' hi']|] eqn:Hw; [|done].
    apply next_window_some in Hw as (-> & Hlo' & _). apply IH in E; [|done].
    simpl in *. destruct E as (? & ? & H3). split_and!; [lia|lia|done|].
    intros m Hm. destruct (decide (m < lo)%Z); [apply H3; lia|apply Hl; lia].
Qed.

(** Whatever Bloomberg answers, a series the search returns had started by the
    date, no series is skipped: the current series and every series above the
    result were reported to start after the date (a missing or unreadable accrual
    date is an error, never a hole). *)
Theorem cdx_search_never_skips fuel ids a ids'
    (Hrun : resolve_cdx_series_at engine_request key fuel gen dt ids = Some (Ok a, ids')) :
  exists b n d ix, request_cdx_metadata engine_request [gen] = Ok b
    /\ current_series key b gen = Ok (n, d, ix)
    /\ (d_ord (at_accrual a) <= d_ord dt)%Z
    /\ (r_series (at_info a) = n /\ at_accrual a = d
        \/ (1 <= r_series (at_info a) < n)%Z /\ (d_ord dt < d_ord d)%Z
           /\ forall m, (r_series (at_info a) < m < n)%Z -> reported_later m).
Proof.
  unfold resolve_cdx_series_at in Hrun.
  destruct (parse_cdx_ticker gen) as [parsed|]; cbn [ext result_map_err] in Hrun; [|done].
  destruct (is_generic parsed); cbn [negb] in Hrun; [|done].
  destruct (request_cdx_metadata engine_request [gen]) as [b|] eqn:Hb; [|done].
  destruct (current_series key b gen) as [[[n d] ix]|] eqn:Hc; [|done].
  exists b, n, d, ix. split; [done|]. split; [done|].
  destruct (d_le d dt) eqn:Hd.
  - apply d_le_spec in Hd. destruct (required_cdx_number _ _ _) as [v|]; [|done].
    destruct (cdx_resolve parsed n v) as [i|] eqn:Hi; simpl in Hrun; [|done].
    injection Hrun as <- _. simpl. apply cdx_resolve_some in Hi as (_ & _ & _ & _ & ->). auto.
  - destruct (cdx_prior_series_window n d dt) as [[lo hi]|] eqn:Hw; [|done].
    apply prior_window_some in Hw as (Hlt & -> & Hlo & _).
    apply search_windows_sound in Hrun; [|done]. simpl in Hrun. destruct Hrun as (? & ? & H3).
    split; [done|]. right. split_and!; [lia|lia|done|]. intros m Hm. apply H3. lia.
Qed.
End Sound.

(** ** Termination *)

Section Termination.
Context {D F : Type} `{ChronoLaws D} `{ChronoText D} `{F64 F}.
Context (engine_request : RequestParams -> result (RecordBatch F) BlpAsyncError) (key : string).
Context (gen : string) (dt : D).

(** The rounds that are enough for a current series: one, and one per 24 below the next. *)
Definition cdx_rounds (n : Z) : nat := S (Z.to_nat ((n - 3) / CDX_LADDER_BATCH + 1)).

Lemma cdx_rounds_enough n fuel : cdx_rounds n <= S fuel -> (n <= CDX_LADDER_BATCH * Z.of_nat fuel + 2)%Z.
Proof.
  unfold cdx_rounds, CDX_LADDER_BATCH. intros Hf. pose proof (Z.div_mod (n - 3) 24).
  pose proof (Z.mod_pos_bound (n - 3) 24). lia.
Qed.

(** A window needs a round per batch of series below it; more fuel changes nothing. *)
Lemma search_windows_enough fuel : forall lo hi ids,
  (1 <= lo)%Z -> (lo <= CDX_LADDER_BATCH * Z.of_nat fuel + 1)%Z ->
  exists out, forall more,
    search_windows engine_request key (S fuel + more) gen (lo, hi) dt ids = Some out.
Proof.
  induction fuel as [|fuel IH]; intros lo hi ids Hlo Hf; simpl;
    destruct (resolve_cdx_ladder engine_request key gen lo hi dt ids) as [[[a|]|] ids1];
    try (by eexists).
  - destruct (cdx_next_series_window lo) as [[lo' hi']|] eqn:Hw; [|by eexists].
    apply next_window_some in Hw. lia.
  - destruct (cdx_next_series_window lo) as [[lo' hi']|] eqn:Hw; [|by eexists].
    apply next_window_some in Hw as (-> & Hlo' & Hl).
    destruct (IH lo' (lo - 1)%Z ids1) as (out & Hout); [lia|unfold CDX_LADDER_BATCH in *; lia|].
    exists out. intros more. apply (Hout more).
Qed.

(** C38: the search ends whatever Bloomberg answers.  When series [n] is reported as the
    current one, the first window of the loop holds at least series [n - 1] and each
    further one 24 of the [n - 2] below it, or what is left: after one round and one more per
    24 of these, or a part of them, the search has returned a result or an error, and more
    rounds give the same outcome. *)
Theorem cdx_search_terminates ids rounds
    (Hf : forall b n d ix, request_cdx_metadata engine_request [gen] = Ok b ->
            current_series key b gen = Ok (n, d, ix) -> (cdx_rounds n <= rounds)%nat) :
  exists out, forall more,
    resolve_cdx_series_at (D := D) engine_request key (rounds + more) gen dt ids = Some out.
Proof.
  unfold resolve_cdx_series_at.
  destruct (parse_cdx_ticker gen) as [parsed|]; cbn [ext result_map_err]; [|by eexists].
  destruct (is_generic parsed); cbn [negb]; [|by eexists].
  destruct (request_cdx_metadata engine_request [gen]) as [b|] eqn:Hb; [|by eexists].
  destruct (current_series key b gen) as [[[n d] ix]|] eqn:Hc; [|by eexists].
  destruct (d_le d dt); [by eexists|].
  destruct (cdx_prior_series_window n d dt) as [[lo hi]|] eqn:Hw; [|by eexists].
  apply prior_window_some in Hw as (_ & -> & Hlo & _). specialize (Hf _ _ _ _ eq_refl Hc).
  destruct rounds as [|fuel]; [unfold cdx_rounds in Hf; lia|]. apply search_windows_enough; [lia|].
  pose proof (cdx_rounds_enough n fuel Hf). lia.
Qed.
End Termination.

(** *** Witnesses *)

#[local] Instance Z_f64 : F64 Z := {
  f64_parse := parse_u32; f64_display := int_to_string; f64_of_Z z := z; f64_lt := Z.ltb;
  f64_is_finite _ := true; f64_is_integral _ := true; f64_to_Z z := z
}.

Definition demo_gen : string := "CDX IG CDSI GEN 5Y Corp".

Definition demo_text (n : Z) : string :=
  if (n <=? 1)%Z then "20240320" else if (n =? 2)%Z then "20240920" else "20250320".

Definition demo_day : Civil := mkCivil 2024 12 2 eq_refl.
Definition demo_accrual (n : Z) : Civil := default demo_day (civil_compact (demo_text n)).

(** Three series; the generic ticker reports the last one. *)
Definition demo_series (ticker : string) : Z :=
  match parse_cdx_ticker ticker with
  | Ok p => default 3%Z (series_num p)
  | Err _ => 3%Z
  end.

Definition demo_engine (p : RequestParams) : result (RecordBatch Z) BlpAsyncError :=
  let secs := default [] (securities p) in
  Ok (mkBatch
        [("ticker", Utf8 (secs ≫= fun s => [Some s; Some s; Some s]));
         ("field", Utf8 (secs ≫= fun _ => [Some "ROLLING_SERIES"; Some "VERSION";
                                           Some CDX_ACCRUAL_FIELD]));
         ("value", Utf8 (secs ≫= fun s => [Some "3"; Some "1"; Some (demo_text (demo_series s))]))]
        (3 * length secs) ["id"]).

Definition demo_info : ParsedCdxInfo :=
  mkParsed "CDX IG CDSI" "GEN" None "5Y" "Corp" true None.

Lemma demo_history :
  CdxHistory demo_engine "ticker" demo_gen demo_info 3 demo_accrual (fun _ => 1%Z).
Proof.
  split.
  - by vm_compute.
  - by vm_compute.
  - done.
  - intros m n Hm Hn.
    assert (m = 1 \/ m = 2)%Z as [-> | ->] by lia; assert (n = 2 \/ n = 3)%Z as [-> | ->] by lia;
      try lia; by vm_compute.
  - eexists _, _. split; [reflexivity|]. split; [reflexivity|]. by vm_compute.
  - intros lo hi aliases Hlo Hhi Ha.
    assert (lo = 1 \/ lo = 2)%Z as [-> | ->] by lia; assert (hi = 1 \/ hi = 2)%Z as [-> | ->] by lia;
      try lia; vm_compute in Ha; injection Ha as <-;
      eexists _, _; (split; [reflexivity|]); (split; [reflexivity|]); intros n alias Hn;
      (assert (n = 1 \/ n = 2)%Z as [-> | ->] by lia); try lia; intros Hal; vm_compute in Hal;
      injection Hal as <-; split; vm_compute; reflexivity.
Qed.

Lemma cdx_search_witness :
  exists ids, resolve_cdx_series_at demo_engine "ticker" 2 demo_gen demo_day []
    = Some (Ok (mkAt (mkResolved "CDX IG CDSI" 2 1 "5Y" "Corp") (demo_accrual 2)), ids).
Proof.
  destruct (cdx_search_exact demo_engine "ticker" demo_gen demo_info 3 demo_accrual (fun _ => 1%Z)
              demo_history demo_day [] 1) as (r & ids & E & Hr).
  - by vm_compute.
  - exists ids. rewrite E. vm_compute in Hr. rewrite Hr. reflexivity.
Defined.

Definition demo_at : CdxSeriesAt (D := Civil) :=
  mkAt (mkResolved "CDX IG CDSI" 2 1 "5Y" "Corp") (mkCivil 2024 9 20 eq_refl).

Lemma cdx_never_skips_witness :
  exists b n d ix, request_cdx_metadata demo_engine [demo_gen] = Ok b
    /\ current_series "ticker" b demo_gen = Ok (n, d, ix) /\ n = 3%Z
    /\ (d_ord d > d_ord demo_day)%Z.
Proof.
  destruct (cdx_search_never_skips demo_engine "ticker" demo_gen demo_day 2 [] demo_at ["id"])
    as (b & n & d & ix & Hb & Hc & _); [vm_compute; reflexivity|].
  exists b, n, d, ix. split; [exact Hb|]. split; [exact Hc|].
  injection Hb as <-. vm_compute in Hc. injection Hc as <- <- _. split; [done|by vm_compute].
Defined.

Lemma cdx_terminates_witness :
  exists out, resolve_cdx_series_at demo_engine "ticker" 2 demo_gen demo_day [] = Some out.
Proof.
  destruct (cdx_search_terminates demo_engine "ticker" demo_gen demo_day [] 2) as (out & Hout).
  - intros b n d ix Hb Hc. injection Hb as <-. vm_compute in Hc. injection Hc as <- _ _. by vm_compute.
  - exists out. exact (Hout 0%nat).
Defined.

(** With four series one round is not enough: the first window holds two of the three. *)
Definition demo_engine4 (p : RequestParams) : result (RecordBatch Z) BlpAsyncError :=
  let secs := default [] (securities p) in
  let text s := match parse_cdx_ticker s with
                | Ok q => if decide (series_num q = Some 1%Z) then "20240320" else
                          if decide (series_num q = Some 2%Z) then "20241210" else
                          if decide (series_num q = Some 3%Z) then "20250110" else "20250320"
                | Err _ => "20250320"
                end in
  Ok (mkBatch
        [("ticker", Utf8 (secs ≫= fun s => [Some s; Some s; Some s]));
         ("field", Utf8 (secs ≫= fun _ => [Some "ROLLING_SERIES"; Some "VERSION";
                                           Some CDX_ACCRUAL_FIELD]));
         ("value", Utf8 (secs ≫= fun s => [Some "4"; Some "1"; Some (text s)]))]
        (3 * length secs) ["id"]).

Example four_series_rounds :
  cdx_rounds 4 = 2 /\ resolve_cdx_series_at demo_engine4 "ticker" 1 demo_gen demo_day [] = None
  /\ match resolve_cdx_series_at demo_engine4 "ticker" 2 demo_gen demo_day [] with
     | Some (Ok a, _) => r_series (at_info a) = 1%Z
     | _ => False
     end.
Proof. split_and!; vm_compute; reflexivity. Qed.
