(* ===== verification/Futures.v ===== *)
(** * Futures tickers

    [crates/xbbg-ext/src/utils/ticker.rs] and
    [crates/xbbg-ext/src/resolvers/futures.rs]: the parts of a generic ticker, the
    test for a specific contract, and the candidate contracts of a date.  The local
    clock is an argument ([now]), read once. *)

From Stdlib Require Import Ascii String ZArith Lia Sorting.
From stdpp Require Import sorting.
From S2P Require Import Prelude Text Words Dates Ext.
Local Open Scope string_scope.

(** ** Tickers *)

Record TickerParts : Type := mkParts {
  tp_prefix : string;
  tp_index : Z;
  tp_asset : string;
  tp_exchange : option string
}.

(** The position of the last digit. *)
Definition last_digit (l : list ascii) : option nat :=
  match list_find (fun c => is_digit c = true) (rev l) with
  | Some (i, _) => Some (length l - 1 - i)%nat
  | None => None
  end.

Definition parse_prefix_index (base : string) : result (string * Z) ExtError :=
  let l := chars base in
  match last_digit l with
  | None => Err (ExInvalidTicker base)
  | Some pos =>
      let prefix := of_chars (take pos l) in
      match parse_u32 (of_chars (take 1 (drop pos l))) with
      | None => Err (ExInvalidTicker base)
      | Some n => if decide (prefix = "") then Err (ExInvalidTicker base) else Ok (prefix, n)
      end
  end.

Definition parse_ticker_parts (ticker : string) : result TickerParts ExtError :=
  let parts := split_whitespace ticker in
  match last parts with
  | None => Err (ExInvalidTicker ticker)
  | Some a =>
      if decide (a ∈ ["Index"; "Curncy"; "Comdty"; "Corp"]) then
        if (length parts <? 2)%nat then Err (ExInvalidTicker ticker)
        else match parse_prefix_index (join (take (length parts - 1) parts)) with
             | Err e => Err e
             | Ok (prefix, n) => Ok (mkParts prefix n a None)
             end
      else if decide (a = "Equity") then
        if (length parts <? 3)%nat then Err (ExInvalidTicker ticker)
        else
          let exchange := join (take (length parts - 2) (drop 1 parts)) in
          match parse_prefix_index (nth 0 parts "") with
          | Err e => Err e
          | Ok (prefix, n) => Ok (mkParts prefix n a (Some exchange))
          end
      else Err (ExInvalidTicker ticker)
  end.

Fixpoint leading_digits (l : list ascii) : nat :=
  match l with
  | c :: l => if is_digit c then S (leading_digits l) else O
  | [] => O
  end.

Definition is_specific_contract (ticker : string) : bool :=
  match split_whitespace ticker with
  | [] => false
  | base :: _ =>
      let bytes := chars base in
      let len := length bytes in
      let digit_count := leading_digits (rev bytes) in
      if (len <=? digit_count)%nat then false
      else if (digit_count =? 0)%nat || (2 <? digit_count)%nat then false
      else
        let month_pos := (len - digit_count - 1)%nat in
        if (month_pos =? 0)%nat then false
        else if negb (bool_decide (nth month_pos bytes zero ∈ VALID_MONTH_CODES)) then false
        else if (digit_count =? 1)%nat && (month_pos <? 2)%nat then false
        else true
  end.

Definition normalize_tickers (tickers : list string) : list string := tickers.

Definition build_futures_ticker (prefix month_code year asset : string) : string :=
  prefix ++ month_code ++ year ++ " " ++ asset.

(** [t.contains(pattern)] *)
Definition contains (pattern t : string) : bool :=
  match String.index 0 pattern t with Some _ => true | None => false end.

Definition filter_equity_tickers (tickers : list string) : list string :=
  filter (fun t => contains "Equity" t && negb (contains "=" t) = true) tickers.

(** ** Resolution *)

Inductive RollFrequency : Type := Monthly | Quarterly.

(** [FromStr for RollFrequency] never fails. *)
Definition roll_frequency_from_str (s : string) : RollFrequency :=
  let s := to_ascii_uppercase (trim s) in
  if decide (s ∈ ["Q"; "QE"]) then Quarterly else Monthly.

Definition MAX_FUTURES_CANDIDATES : Z := 10000.

Section Candidates.
Context {D : Type} `{Chrono D} `{ChronoText D}.

Record FuturesCandidate : Type := mkCandidate { fc_ticker : string; fc_month : D }.

Definition next_month (date : D) : result D ExtError :=
  match checked_add_months date 1 ≫= fun next => with_day next 1 with
  | Some d => Ok d
  | None => Err (ExInternal ("failed to compute next month from " ++ date_display date))
  end.

Definition in_cycle (freq : RollFrequency) (month : Z) : bool :=
  match freq with
  | Monthly => true
  | Quarterly => bool_decide (month ∈ QUARTERLY_MONTHS)
  end.

(** The [while] loops of [generate_contract_months]. *)
Fixpoint months_loop (fuel : nat) (freq : RollFrequency) (count : nat) (months : list D) (current : D)
  : option (result (list D) ExtError) :=
  if (length months <? count)%nat then
    match fuel with
    | O => None
    | S fuel =>
        let months := if in_cycle freq (d_month current) then (months ++ [current])%list else months in
        match next_month current with
        | Err e => Some (Err e)
        | Ok next => months_loop fuel freq count months next
        end
    end
  else Some (Ok months).

(** Every third month is quarterly, so three rounds per candidate are enough. *)
Definition generate_contract_months (start : D) (freq : RollFrequency) (count : nat)
  : option (result (list D) ExtError) :=
  match with_day start 1 with
  | None => Some (Err (ExInternal ("failed to normalize contract month from " ++ date_display start)))
  | Some current => months_loop (3 * count) freq count [] current
  end.

(** [format!("{:02}", n)] for a remainder of a division by 100. *)
Definition two_digits (n : Z) : string :=
  if (0 <=? n)%Z && (n <? 10)%Z then String (ascii_of_nat 48) (of_chars (dec_digits 3 n []))
  else if (n <? 0)%Z then String (ascii_of_nat 45) (of_chars (dec_digits 3 (- n) []))
  else of_chars (dec_digits 3 n []).

Definition one_digit (n : Z) : string :=
  if (n <? 0)%Z then String (ascii_of_nat 45) (of_chars (dec_digits 3 (- n) []))
  else of_chars (dec_digits 3 n []).

(** Rust's [%] truncates towards zero. *)
Definition build_contract_ticker (parts : TickerParts) (month : D) (same_month : bool) : string :=
  let month_code := default "F" (MONTH_NUM_TO_CODE (d_month month)) in
  let year := d_year month in
  let year_str := if same_month then one_digit (Z.rem year 10) else two_digits (Z.rem year 100) in
  if decide (tp_asset parts = "Equity") then
    tp_prefix parts ++ month_code ++ year_str ++ " " ++ default "US" (tp_exchange parts) ++ " "
      ++ tp_asset parts
  else tp_prefix parts ++ month_code ++ year_str ++ " " ++ tp_asset parts.

Definition generate_futures_candidates (gen_ticker : string) (dt : D) (freq : RollFrequency)
    (count : Z) (now : D) : option (result (list FuturesCandidate) ExtError) :=
  if (MAX_FUTURES_CANDIDATES <? count)%Z
  then Some (Err (ExCandidateCountTooLarge count MAX_FUTURES_CANDIDATES))
  else if is_specific_contract gen_ticker then Some (Err (ExSpecificTicker gen_ticker))
  else match parse_ticker_parts gen_ticker with
       | Err e => Some (Err e)
       | Ok parts =>
           let same_month := (d_month now =? d_month dt)%Z && (d_year now =? d_year dt)%Z in
           result_map (List.map (fun m => mkCandidate (build_contract_ticker parts m same_month) m))
             <$> generate_contract_months dt freq (Z.to_nat count)
       end.

Definition validate_generic_ticker (ticker : string) : result unit ExtError :=
  if is_specific_contract ticker then Err (ExSpecificTicker ticker) else Ok tt.

Definition contract_index (gen_ticker : string) : result Z ExtError :=
  result_map (fun parts => Z.max (tp_index parts - 1) 0) (parse_ticker_parts gen_ticker).

(** A stable sort: an element goes behind the ones with the same key. *)
Fixpoint insert_by {A} (key : A -> Z) (x : A) (l : list A) : list A :=
  match l with
  | [] => [x]
  | y :: l' => if (key x <? key y)%Z then x :: l else y :: insert_by key x l'
  end.

Definition sort_by_key {A} (key : A -> Z) (l : list A) : list A :=
  fold_left (fun acc x => insert_by key x acc) l [].

Definition filter_valid_contracts (contracts : list (string * string)) (ref_date : D) : list string :=
  let valid := omap (fun c : string * string =>
                       match try_parse_date c.2 with
                       | Some d => if d_lt ref_date d then Some (c.1, d) else None
                       | None => None
                       end) contracts in
  fst <$> sort_by_key (fun c : string * D => d_ord c.2) valid.
End Candidates.

Definition filter_candidates_by_cycle (candidates : list (string * Z * Z)) (cycle : string)
  : list (string * Z * Z) :=
  filter (fun c : string * Z * Z =>
            match MONTH_NUM_TO_CODE c.2 with
            | Some code => contains code (to_ascii_uppercase cycle)
            | None => false
            end = true) candidates.

(** ** Stable sorting *)

Lemma filter_none {A} (P : A -> Prop) `{!forall x, Decision (P x)} (l : list A) :
  Forall (fun x => ~ P x) l -> filter P l = [].
Proof. induction 1 as [|x l Hx _ IH]; [done|]. by rewrite filter_cons_False. Qed.

Section SortLemmas.
Context {A : Type} (key : A -> Z).

Definition by_key (x y : A) : Prop := (key x <= key y)%Z.

Lemma insert_by_perm x l : insert_by key x l ≡ₚ x :: l.
Proof.
  induction l as [|y l IH]; simpl; [done|]. destruct (key x <? key y)%Z; [done|].
  rewrite IH. apply Permutation_swap.
Qed.

Lemma insert_by_sorted x l : StronglySorted by_key l -> StronglySorted by_key (insert_by key x l).
Proof.
  induction 1 as [|y l Hs IH Hy]; simpl; [by repeat constructor|].
  destruct (Z.ltb_spec (key x) (key y)).
  - constructor; [by constructor|]. constructor; [unfold by_key; lia|].
    eapply Forall_impl; [exact Hy|]. unfold by_key. intros. simpl in *. lia.
  - constructor; [done|]. rewrite insert_by_perm. constructor; [unfold by_key; lia|done].
Qed.

(** An element goes behind the elements with its key and moves no other. *)
Lemma insert_by_stable x l k :
  StronglySorted by_key l ->
  filter (fun y => key y = k) (insert_by key x l)
  = (filter (fun y => key y = k) l ++ filter (fun y => key y = k) [x])%list.
Proof.
  induction 1 as [|y l Hs IH Hy]; [done|]. simpl insert_by.
  destruct (Z.ltb_spec (key x) (key y)).
  - destruct (decide (key x = k)).
    + assert (filter (fun z => key z = k) (y :: l) = []) as Hnil.
      { apply filter_none. constructor; [lia|]. eapply Forall_impl; [exact Hy|].
        unfold by_key. intros. simpl in *. lia. }
      rewrite !(filter_cons_True _ x) by done. by rewrite Hnil.
    + rewrite filter_cons_False by done. rewrite (filter_cons_False _ x []) by done.
      by rewrite filter_nil, app_nil_r.
  - destruct (decide (key y = k)).
    + rewrite !(filter_cons_True _ y) by done. by rewrite IH.
    + rewrite !(filter_cons_False _ y) by done. by rewrite IH.
Qed.

Lemma sort_by_key_acc l : forall acc,
  StronglySorted by_key acc ->
  StronglySorted by_key (fold_left (fun acc x => insert_by key x acc) l acc)
  /\ fold_left (fun acc x => insert_by key x acc) l acc ≡ₚ (acc ++ l)%list
  /\ forall k, filter (fun y => key y = k) (fold_left (fun acc x => insert_by key x acc) l acc)
       = (filter (fun y => key y = k) acc ++ filter (fun y => key y = k) l)%list.
Proof.
  induction l as [|x l IH]; intros acc Hs; simpl fold_left.
  { split_and!; [done|by rewrite app_nil_r|]. intros k. by rewrite filter_nil, app_nil_r. }
  destruct (IH _ (insert_by_sorted x acc Hs)) as (H1 & H2 & H3). split_and!; [done| |].
  - rewrite H2, insert_by_perm. simpl. by rewrite Permutation_middle.
  - intros k. rewrite H3, insert_by_stable by done. rewrite <- app_assoc. f_equal.
    by rewrite <- filter_app.
Qed.

(** The sort orders by key, keeps the elements, and keeps the order of elements
    with the same key. *)
Lemma sort_by_key_spec l :
  StronglySorted by_key (sort_by_key key l) /\ sort_by_key key l ≡ₚ l
  /\ forall k, filter (fun y => key y = k) (sort_by_key key l) = filter (fun y => key y = k) l.
Proof. apply (sort_by_key_acc l []). constructor. Qed.

Lemma sorted_nth (l : list A) i c :
  StronglySorted by_key l -> l !! i = Some c ->
  (length (filter (fun y => (key y < key c)%Z) l) <= i
   < length (filter (fun y => (key y <= key c)%Z) l))%nat.
Proof.
  intros Hs Hi. pose proof (take_drop_middle _ _ _ Hi) as E. rewrite <- E in Hs |- *.
  apply lookup_lt_Some in Hi. assert (length (take i l) = i) as Hl by (rewrite length_take; lia).
  revert Hs Hl. generalize (take i l) (drop (S i) l). clear. intros a b Hs <-.
  apply StronglySorted_app in Hs as (H1 & Ha & Hb).
  apply StronglySorted_inv in Hb as [_ Hb].
  rewrite !filter_app, !length_app, filter_cons_False, (filter_cons_True _ c) by lia.
  rewrite (filter_none (fun y => (key y < key c)%Z) b)
    by (eapply Forall_impl; [exact Hb|]; unfold by_key; intros; simpl in *; lia).
  pose proof (length_filter (fun y => (key y < key c)%Z) a). rewrite (filter_all (fun y => (key y <= key c)%Z) a).
  - simpl. lia.
  - apply Forall_forall. intros y Hy. apply (H1 y c); [done|left].
Qed.
End SortLemmas.

(** ** Contract months *)

Section MonthLemmas.
Context {D : Type} `{ChronoLaws D} `{ChronoText D}.
Local Open Scope Z_scope.

(** The months of the cycle, counted from year 0. *)
Definition cycle_month (freq : RollFrequency) (m : Z) : Prop := in_cycle freq (m mod 12 + 1) = true.

#[local] Instance cycle_month_dec freq m : Decision (cycle_month freq m).
Proof. unfold cycle_month. apply _. Defined.

Lemma d_month_months (d : D) : d_month d = d_months d mod 12 + 1.
Proof.
  pose proof (d_range d) as (_ & Hm & _). unfold d_months.
  replace (12 * d_year d + (d_month d - 1)) with (d_month d - 1 + d_year d * 12) by lia.
  rewrite Z_mod_plus_full, Z.mod_small; lia.
Qed.

Lemma next_month_ok (d : D) :
  d_months d + 1 <= 12 * MAX_YEAR + 11 ->
  exists d', next_month d = Ok d' /\ d_months d' = d_months d + 1 /\ d_day d' = 1.
Proof.
  intros Hm. unfold next_month. destruct (checked_add_months d 1) as [e|] eqn:He.
  - apply add_months_some in He as [Hmo _]; [|lia].
    destruct (with_first_day e) as (d' & Hd & Hd1 & Hd2). simpl. rewrite Hd.
    exists d'. split_and!; [done|lia|done].
  - apply add_months_none in He; lia.
Qed.

Lemma quarterly_month m : cycle_month Quarterly m <-> (m + 1) mod 3 = 0.
Proof.
  unfold cycle_month, in_cycle, QUARTERLY_MONTHS. rewrite bool_decide_eq_true, !elem_of_cons, elem_of_nil.
  Z.to_euclidean_division_equations. lia.
Qed.

(** Any three months in a row have one of the cycle. *)
Lemma three_months freq m :
  cycle_month freq m \/ cycle_month freq (m + 1) \/ cycle_month freq (m + 2).
Proof.
  destruct freq; [by left|]. rewrite !quarterly_month. Z.to_euclidean_division_equations. lia.
Qed.

Lemma cycle_count freq m k :
  (k <= length (filter (cycle_month freq) (seqZ m (3 * Z.of_nat k))))%nat.
Proof.
  revert m. induction k as [|k IH]; intros m; [lia|].
  replace (3 * Z.of_nat (S k)) with (3 + 3 * Z.of_nat k) by lia.
  rewrite seqZ_app, filter_app, length_app by lia. specialize (IH (m + 3)).
  assert (1 <= length (filter (cycle_month freq) (seqZ m 3)))%nat; [|lia].
  destruct (filter (cycle_month freq) (seqZ m 3)) eqn:E; [|simpl; lia]. exfalso.
  destruct (three_months freq m) as [Hc|[Hc|Hc]];
    [eapply (filter_nil_not_elem_of _ _ m)|eapply (filter_nil_not_elem_of _ _ (m + 1))
    |eapply (filter_nil_not_elem_of _ _ (m + 2))]; try done; apply elem_of_seqZ; lia.
Qed.

Definition first_day (d : D) : Prop := d_day d = 1.

Lemma months_loop_spec freq count fuel : forall months current,
  first_day current -> Forall first_day months -> (length months <= count)%nat ->
  d_months current + Z.of_nat fuel <= 12 * MAX_YEAR + 11 ->
  (count <= length months
     + length (filter (cycle_month freq) (seqZ (d_months current) (Z.of_nat fuel))))%nat ->
  exists l, months_loop fuel freq count months current = Some (Ok l)
    /\ length l = count /\ Forall first_day l
    /\ d_months <$> l = take count ((d_months <$> months)
         ++ filter (cycle_month freq) (seqZ (d_months current) (Z.of_nat fuel)))%list.
Proof.
  induction fuel as [|fuel IH]; intros months current Hc Hms Hl Hmax Hcount; simpl.
  - rewrite Nat.add_0_r in Hcount. destruct (Nat.ltb_spec (length months) count); [lia|].
    exists months. split_and!; [done|lia|done|].
    rewrite app_nil_r, take_ge; [done|]. rewrite length_fmap. lia.
  - destruct (Nat.ltb_spec (length months) count).
    + destruct (next_month_ok current) as (next & -> & Hn & Hd); [lia|].
      rewrite Nat2Z.inj_succ, seqZ_cons in Hcount |- * by lia.
      replace (Z.succ (d_months current)) with (d_months next) in Hcount |- * by lia.
      replace (Z.pred (Z.succ (Z.of_nat fuel))) with (Z.of_nat fuel) in Hcount |- * by lia.
      rewrite d_month_months.
      destruct (decide (cycle_month freq (d_months current))) as [Hk|Hk].
      * rewrite filter_cons_True in Hcount |- * by done. unfold cycle_month in Hk. rewrite Hk.
        destruct (IH (months ++ [current])%list next) as (l & El & Hl3 & Hl4 & Hl5);
          [done|apply Forall_app; split; [done|by apply Forall_singleton]|by apply length_le_snoc|lia|rewrite length_app; simpl in *; lia|].
        exists l. split_and!; [done..|]. rewrite Hl5, fmap_app. simpl. by rewrite <- app_assoc.
      * rewrite filter_cons_False in Hcount |- * by done. unfold cycle_month in Hk.
        apply not_true_is_false in Hk. rewrite Hk. apply IH; [done|done|lia|lia|lia].
    + exists months. split_and!; [done|lia|done|].
      rewrite take_app_le by (rewrite length_fmap; lia). rewrite take_ge; [done|].
      rewrite length_fmap. lia.
Qed.

(** The reference: the first [count] months of the cycle from the date's month on. *)
Definition contract_months (start : Z) (freq : RollFrequency) (count : nat) : list Z :=
  take count (filter (cycle_month freq) (seqZ start (3 * Z.of_nat count))).

Lemma generate_contract_months_spec (start : D) freq count :
  d_months start + 3 * Z.of_nat count <= 12 * MAX_YEAR + 11 ->
  exists l, generate_contract_months start freq count = Some (Ok l)
    /\ length l = count /\ Forall first_day l
    /\ d_months <$> l = contract_months (d_months start) freq count.
Proof.
  intros Hm. unfold generate_contract_months. destruct (with_first_day start) as (c & -> & Hc & Hd).
  destruct (months_loop_spec freq count (3 * count) [] c) as (l & El & Hl3 & Hl4 & Hl5);
    [done|constructor|simpl; lia|lia| |].
  - rewrite Nat2Z.inj_mul. exact (cycle_count freq (d_months c) count).
  - exists l. split_and!; [done..|]. rewrite Hl5, Nat2Z.inj_mul, Hc. done.
Qed.
End MonthLemmas.

(** ** Candidates *)

Lemma leading_digits_app ds l :
  Forall (fun c => is_digit c = true) ds ->
  (forall c l', l = c :: l' -> is_digit c = false) ->
  leading_digits (ds ++ l)%list = length ds.
Proof.
  intros Hd Hl. induction Hd as [|c ds Hc _ IH]; simpl; [|by rewrite Hc, IH].
  destruct l as [|c l]; [done|]. simpl. by rewrite (Hl c l eq_refl).
Qed.

(** A root, a month code and a year of one or two digits make a specific contract,
    unless a one-letter root has a one-digit year. *)
Lemma specific_shape root code year rest :
  Forall (fun c => is_whitespace c = false) root -> code ∈ VALID_MONTH_CODES ->
  Forall (fun c => is_digit c = true) year -> (1 <= length year <= 2)%nat ->
  (3 <= length root + length year)%nat -> root <> [] ->
  is_specific_contract (of_chars (root ++ code :: year ++ space :: rest)%list) = true.
Proof.
  intros Hroot Hcode Hyear Hlen Htot Hne.
  assert (is_digit code = false /\ is_whitespace code = false) as [Hcd Hcw].
  { revert Hcode. unfold VALID_MONTH_CODES. simpl. intros Hcode.
    repeat (apply elem_of_cons in Hcode as [->|Hcode]; [by vm_compute|]). by apply not_elem_of_nil in Hcode. }
  assert (word (root ++ code :: year)%list) as Hw.
  { split; [by destruct root|]. apply Forall_app. split; [done|]. constructor; [done|].
    eapply Forall_impl; [exact Hyear|]. apply digit_not_space. }
  destruct (split_first (root ++ code :: year)%list rest Hw) as (tl & Htl).
  rewrite <- app_assoc in Htl. simpl in Htl. unfold is_specific_contract. rewrite Htl, chars_of_chars.
  assert (rev (root ++ code :: year) = rev year ++ code :: rev root)%list as ->
    by (rewrite rev_app_distr; simpl; by rewrite <- app_assoc).
  rewrite leading_digits_app, length_rev, length_app;
    [|by apply Forall_rev|by intros c l' [= <- _]].
  cbn [length]. assert (1 <= length root)%nat by (destruct root; [done|simpl; lia]).
  replace (length root + S (length year) - length year - 1)%nat with (length root) by lia.
  rewrite (proj2 (Nat.leb_gt _ _)) by lia.
  rewrite (proj2 (Nat.eqb_neq _ 0)) by lia. rewrite (proj2 (Nat.ltb_ge 2 _)) by lia. simpl.
  rewrite (proj2 (Nat.eqb_neq _ 0)) by lia.
  assert (nth (length root) (root ++ code :: year)%list zero = code) as ->
    by (rewrite app_nth2, Nat.sub_diag by lia; done).
  rewrite bool_decide_true by done. simpl.
  destruct (Nat.eqb_spec (length year) 1); simpl; [|done].
  by rewrite (proj2 (Nat.ltb_ge _ 2)) by lia.
Qed.

Lemma month_code_char m :
  (1 <= m <= 12)%Z ->
  exists c, default "F" (MONTH_NUM_TO_CODE m) = String c "" /\ c ∈ VALID_MONTH_CODES.
Proof.
  intros Hm.
  assert (m = 1 \/ m = 2 \/ m = 3 \/ m = 4 \/ m = 5 \/ m = 6 \/ m = 7 \/ m = 8 \/ m = 9 \/ m = 10
          \/ m = 11 \/ m = 12)%Z as Hc by lia.
  destruct_or! Hc; subst m; eexists; (split; [reflexivity|]);
    unfold VALID_MONTH_CODES; simpl; rewrite !elem_of_cons; tauto.
Qed.

Definition digits (n : nat) (l : list ascii) : Prop :=
  length l = n /\ Forall (fun c => is_digit c = true) l.

Lemma one_digit_digits n : (0 <= n < 10)%Z -> digits 1 (chars (one_digit n)).
Proof.
  intros Hn. unfold one_digit. rewrite (proj2 (Z.ltb_ge n 0)) by lia. rewrite chars_of_chars.
  split; [|apply dec_digits_digits; [lia|constructor]].
  cbn [dec_digits]. by rewrite (proj2 (Z.ltb_lt n 10)) by lia.
Qed.

Lemma two_digits_digits n : (0 <= n < 100)%Z -> digits 2 (chars (two_digits n)).
Proof.
  intros Hn. unfold two_digits. rewrite (proj2 (Z.leb_le 0 n)) by lia. cbn [andb].
  destruct (Z.ltb_spec n 10).
  - unfold chars. cbn [list_ascii_of_string]. fold (chars (of_chars (dec_digits 3 n []))).
    rewrite chars_of_chars. split.
    + cbn [dec_digits]. by rewrite (proj2 (Z.ltb_lt n 10)) by lia.
    + constructor; [done|]. apply dec_digits_digits; [lia|constructor].
  - rewrite (proj2 (Z.ltb_ge n 0)) by lia. rewrite chars_of_chars.
    split; [|apply dec_digits_digits; [lia|constructor]].
    cbn [dec_digits]. rewrite (proj2 (Z.ltb_ge n 10)) by lia.
    rewrite (proj2 (Z.ltb_lt (n / 10) 10)); [done|]. apply Z.div_lt_upper_bound; lia.
Qed.

Section CandidateLemmas.
Context {D : Type} `{ChronoLaws D} `{ChronoText D}.

Lemma built_ticker_specific parts (month : D) same :
  (0 <= d_year month)%Z ->
  Forall (fun c => is_whitespace c = false) (chars (tp_prefix parts)) ->
  (2 <= length (chars (tp_prefix parts)))%nat ->
  is_specific_contract (build_contract_ticker parts month same) = true.
Proof.
  intros Hy Hw Hl. pose proof (d_range month) as (_ & Hm & _).
  destruct (month_code_char _ Hm) as (c & Hc & Hv). unfold build_contract_ticker. rewrite Hc.
  set (y := if same then _ else _).
  assert (exists k, digits k (chars y) /\ (1 <= k <= 2)%nat) as (k & [Hk Hd] & Hk2).
  { unfold y. destruct same.
    - exists 1%nat. split; [apply one_digit_digits, Z.rem_bound_pos; lia|lia].
    - exists 2%nat. split; [apply two_digits_digits, Z.rem_bound_pos; lia|lia]. }
  assert (forall rest, is_specific_contract (tp_prefix parts ++ String c "" ++ y ++ " " ++ rest) = true)
    as Hgo.
  { intros rest. rewrite <- (of_chars_chars (_ ++ _)). rewrite !chars_app. simpl.
    apply (specific_shape (chars (tp_prefix parts)) c (chars y) (chars rest)); [done..|lia|lia|].
    intros E. rewrite E in Hl. simpl in Hl. lia. }
  destruct (decide _); apply Hgo.
Qed.

(** For a generic ticker and a candidate count within the bound, generation
    returns exactly [count] candidates: the first months of the roll cycle from
    the month of the date on, each on its first day, printed with the ticker's
    root; and every candidate is recognised as a specific contract when the root
    has at least two characters. *)
Theorem futures_candidates_exact gen (dt now : D) freq count parts
    (Hc : (0 <= count <= MAX_FUTURES_CANDIDATES)%Z)
    (Hs : is_specific_contract gen = false) (Hp : parse_ticker_parts gen = Ok parts)
    (Hm : (d_months dt + 3 * count <= 12 * MAX_YEAR + 11)%Z) :
  exists l, generate_futures_candidates gen dt freq count now = Some (Ok l)
    /\ Z.of_nat (length l) = count
    /\ (fun c => d_months (fc_month c)) <$> l = contract_months (d_months dt) freq (Z.to_nat count)
    /\ (forall c, c ∈ l ->
          d_day (fc_month c) = 1%Z
          /\ exists same, fc_ticker c = build_contract_ticker parts (fc_month c) same
             /\ ((0 <= d_year dt)%Z ->
                 Forall (fun ch => is_whitespace ch = false) (chars (tp_prefix parts)) ->
                 (2 <= length (chars (tp_prefix parts)))%nat ->
                 is_specific_contract (fc_ticker c) = true)).
Proof.
  unfold generate_futures_candidates.
  rewrite (proj2 (Z.ltb_ge _ _)) by lia. rewrite Hs, Hp.
  destruct (generate_contract_months_spec dt freq (Z.to_nat count)) as (l & -> & Hl & Hd & Hcm); [lia|].
  simpl. set (same := (_ =? _)%Z && _). eexists. split; [done|].
  rewrite length_map, Hl. split; [lia|]. split.
  { rewrite <- Hcm. rewrite <- list_fmap_compose. done. }
  intros c (m & -> & Hin)%list_elem_of_fmap. simpl. rewrite Forall_forall in Hd.
  split; [by apply Hd|]. exists same. split; [done|]. intros Hy Hw Hlen.
  apply built_ticker_specific; [|done..].
  assert (d_months m ∈ (d_months <$> l)) as Hmm by by apply list_elem_of_fmap_2.
  rewrite Hcm in Hmm. apply elem_of_take in Hmm as (i & Hi & _). apply list_elem_of_lookup_2 in Hi.
  apply list_elem_of_filter in Hi as [_ Hi]. apply elem_of_seqZ in Hi.
  pose proof (d_range m). pose proof (d_range dt). unfold d_months in *. lia.
Qed.
End CandidateLemmas.

(** ** The index of a generic ticker *)

Lemma last_digit_is_digit l pos :
  last_digit l = Some pos -> exists c, take 1 (drop pos l) = [c] /\ is_digit c = true.
Proof.
  unfold last_digit. destruct (list_find _ (rev l)) as [[i c]|] eqn:E; [|done]. intros [= <-].
  apply list_find_Some in E as (Hi & Hd & _). exists c. split; [|done].
  rewrite rev_alt in Hi. apply reverse_lookup_Some in Hi as [Hi _].
  replace (length l - 1 - i)%nat with (length l - S i)%nat by lia. by rewrite (drop_S _ _ _ Hi).
Qed.

Lemma digit_value_range c : is_digit c = true -> (0 <= digit_value c <= 9)%Z.
Proof.
  unfold is_digit, digit_value. rewrite andb_true_iff, !Nat.leb_le. lia.
Qed.

Lemma parse_prefix_index_range base prefix n :
  parse_prefix_index base = Ok (prefix, n) -> (0 <= n <= 9)%Z.
Proof.
  unfold parse_prefix_index. destruct (last_digit (chars base)) as [pos|] eqn:E; [|done].
  destruct (last_digit_is_digit _ _ E) as (c & -> & Hc). pose proof (digit_value_range c Hc).
  unfold parse_u32. rewrite chars_of_chars, decide_False by by apply digit_not_plus.
  cbn [parse_digits]. rewrite Hc. destruct (Z.leb_spec (0 * 10 + digit_value c) u32_max); [|done].
  destruct (decide _); [done|]. intros [= _ <-]. lia.
Qed.

(** Only the last digit of a generic ticker counts: an index has one digit, so the
    tenth and twelfth generics are read as the first and second of another root. *)
Lemma contract_index_one_digit gen n : contract_index gen = Ok n -> (0 <= n <= 8)%Z.
Proof.
  unfold contract_index, parse_ticker_parts. destruct (last _) as [a|]; [|done].
  intros E. assert (exists parts, n = Z.max (tp_index parts - 1) 0 /\ (0 <= tp_index parts <= 9)%Z)
    as (parts & -> & Hp); [|lia].
  repeat case_match; simplify_eq/=;
    match goal with HP : parse_prefix_index _ = Ok _ |- _ => apply parse_prefix_index_range in HP end;
    eexists (mkParts "" _ "" None); by split.
Qed.

Lemma contract_index_tenth :
  contract_index "CL10 Comdty" = contract_index "CL1 Comdty"
  /\ parse_ticker_parts "CL12 Comdty" = Ok (mkParts "CL1" 2 "Comdty" None).
Proof. by vm_compute. Qed.

(** *** Witnesses *)

Definition es_day : Civil := mkCivil 2024 1 15 eq_refl.

Lemma futures_candidates_witness :
  exists l, generate_futures_candidates "ES1 Index" es_day Quarterly 4 (mkCivil 2026 7 1 eq_refl)
      = Some (Ok l)
    /\ List.map fc_ticker l = ["ESH24 Index"; "ESM24 Index"; "ESU24 Index"; "ESZ24 Index"].
Proof.
  destruct (futures_candidates_exact "ES1 Index" es_day (mkCivil 2026 7 1 eq_refl) Quarterly 4
              (mkParts "ES" 1 "Index" None)) as (l & E & _).
  - by vm_compute.
  - vm_compute. reflexivity.
  - vm_compute. reflexivity.
  - by vm_compute.
  - exists l. split; [exact E|]. vm_compute in E. injection E as <-. vm_compute. reflexivity.
Defined.
