(* ===== verification/Options.v ===== *)
(** * Request controls of a recipe

    [apply_request_options] and [merge_pairs] of
    [crates/xbbg-recipes/src/utils.rs]: the caller's overrides and options are merged
    into the request a recipe built, without changing what is requested. *)

From Stdlib Require Import String.
From S2P Require Import Prelude Text Services Plan.
Local Open Scope string_scope.

Definition Pairs : Type := list (string * string).

(** Replace the value of the first pair whose name is [key] in any case. *)
Fixpoint set_named (target : Pairs) (key value : string) : option Pairs :=
  match target with
  | [] => None
  | (name, current) :: target =>
      if eq_ignore_ascii_case name key then Some ((name, value) :: target)
      else match set_named target key value with
           | Some target => Some ((name, current) :: target)
           | None => None
           end
  end.

Definition merge_pair (target : Pairs) (kv : string * string) : Pairs :=
  match set_named target kv.1 kv.2 with
  | Some target => target
  | None => (target ++ [kv])%list
  end.

Definition merge_pairs (target : option Pairs) (source : option Pairs) : option Pairs :=
  match source with
  | None | Some [] => target
  | Some source => Some (fold_left merge_pair source (default [] target))
  end.

(** The adjustment options a historical request gets from the [adjust] keyword. *)
Definition adjustment_fields (adjust : option string) : list string :=
  match adjust with
  | Some s =>
      if decide (s = "all") then ["adjustmentSplit"; "adjustmentNormal"; "adjustmentAbnormal"]
      else if decide (s = "dvd") then ["adjustmentNormal"; "adjustmentAbnormal"]
      else if decide (s = "split") then ["adjustmentSplit"]
      else []
  | None => []
  end.

Definition add_adjustments (opts : option Pairs) (fields : list string) : option Pairs :=
  match fields with
  | [] => opts
  | _ => Some (fold_left (fun acc f => merge_pair acc (f, "true")) fields (default [] opts))
  end.

(** The caller's per-security overrides for securities of this request. *)
Definition keep_security_overrides (p : RequestParams) (sec_overrides : list (string * OverridePairs))
  : list (string * OverridePairs) :=
  filter (fun e : string * OverridePairs =>
            bool_decide (e.1 ∈ default [] (securities p)) || bool_decide (security p = Some e.1) = true)
    sec_overrides.

Definition merged_kwargs (p : RequestParams) (opts : RequestParams) : option (gmap string string) :=
  let merged := match kwargs opts with
                | Some kw => Some (kw ∪ default ∅ (kwargs p))
                | None => kwargs p
                end in
  (fun kw => let kw := delete "adjust" kw in
             if decide (extractor p = ExBulkData) then delete "raw" kw else kw) <$> merged.

Definition apply_request_options (p opts : RequestParams) : RequestParams :=
  let bql := bool_decide (service p = service_as_str SvBqlSvc) in
  let els := if bql then merge_pairs (p_elements p) (overrides opts) else p_elements p in
  let ovr := if bql then overrides p else merge_pairs (overrides p) (overrides opts) in
  let els := merge_pairs els (p_elements opts) in
  let adjusted :=
    if decide (operation p = operation_as_str OpHistoricalData)
    then add_adjustments (options p) (adjustment_fields (kwargs opts ≫= lookup "adjust"))
    else options p in
  let sec_ovr :=
    match security_overrides opts with
    | None => security_overrides p
    | Some l =>
        match keep_security_overrides p l with
        | [] => security_overrides p
        | kept => Some (default [] (security_overrides p) ++ kept)%list
        end
    end in
  let types := match field_types opts with
               | Some t => Some (t ∪ default ∅ (field_types p))
               | None => field_types p
               end in
  let or_else {A} (new old : option A) := match new with Some _ => new | None => old end in
  let fmt := if decide (extractor p = ExBulkData) then None else or_else (format opts) (format p) in
  mkParams (service p) (operation p) (request_operation p) (or_else (request_id opts) (request_id p))
    (extractor p) (extractor_set p) (securities p) (security p) (fields p) ovr sec_ovr els
    (merged_kwargs p opts) (start_date p) (end_date p) (start_datetime p) (end_datetime p)
    (or_else (request_tz opts) (request_tz p)) (or_else (output_tz opts) (output_tz p))
    (event_type p) (event_types p) (interval p) (merge_pairs adjusted (options opts)) types
    (include_security_errors p || include_security_errors opts) (return_eids p || return_eids opts)
    (on_delayed p) (or_else (validate_fields opts) (validate_fields p)) (search_spec p)
    (field_ids p) fmt.
