(* ===== verification/FuturesRecipes.v ===== *)
(** * Futures recipes

    The futures half of [crates/xbbg-recipes/src/futures.rs]: candidate contracts and
    their maturities, the historical chain as a fallback, the contract at a generic
    index, and the active contract by volume.

    [Engine::request] is the parameter [engine_request], the local clock the
    argument [now].  A recipe has no result ([None]) where the code would panic: the
    subtraction of ten days below the earliest date. *)

From Stdlib Require Import Ascii String ZArith Lia Sorting.
From S2P Require Import Prelude Text Words Dates Errors Services Plan Ext RecipeError Batch.
From S2P Require Import Ladder Futures Options.
Local Open Scope string_scope.

(** ** Names *)

Definition is_alphanumeric (c : ascii) : bool := is_upper c || is_lower c || is_digit c.

(** Runs of other characters separate words, which are joined by underscores. *)
Definition canonical_name (name : string) : string :=
  of_chars (join_chars [ascii_of_nat 95]
              (words_from [] (List.map (fun c => if is_alphanumeric c then to_lower c else space)
                                (chars name)))).

Definition parse_roll_frequency (freq : option string) : RollFrequency :=
  match freq with Some s => roll_frequency_from_str s | None => Monthly end.

Definition futures_candidate_count (gen_ticker : string) (idx : Z) : result Z RecipeError :=
  result_map (fun parts => Z.max (idx + (if decide (tp_asset parts = "Comdty") then 4 else 2)) 3)
    (ext (parse_ticker_parts gen_ticker)).

Definition with_generic_index (gen_ticker : string) (n : Z) : result string RecipeError :=
  result_map
    (fun parts =>
       if decide (tp_asset parts = "Equity")
       then tp_prefix parts ++ u32_to_string n ++ " " ++ default "US" (tp_exchange parts) ++ " "
              ++ tp_asset parts
       else tp_prefix parts ++ u32_to_string n ++ " " ++ tp_asset parts)
    (ext (parse_ticker_parts gen_ticker)).

Definition normalize_mapped_generic_ticker (raw gen_ticker : string)
  : result (option string) RecipeError :=
  let raw := trim raw in
  if decide (raw = "") then Ok None
  else if (1 <? length (split_whitespace raw))%nat then Ok (Some raw)
  else result_map
         (fun parts =>
            Some (if decide (tp_asset parts = "Equity")
                  then raw ++ " " ++ default "US" (tp_exchange parts) ++ " " ++ tp_asset parts
                  else raw ++ " " ++ tp_asset parts))
         (ext (parse_ticker_parts gen_ticker)).

Section Recipes.
Context {D F : Type} `{Chrono D} `{ChronoText D} `{F64 F}.
Context (engine_request : RequestParams -> result (RecordBatch F) BlpAsyncError) (key : string).

Definition Contract : Type := (string * D)%type.

(** ** Columns *)

Definition find_column (b : RecordBatch F) (candidates : list string) : option string :=
  let wanted := List.map canonical_name candidates in
  fst <$> List.find (fun c : string * ColumnKind F => bool_decide (canonical_name c.1 ∈ wanted))
            (rb_columns b).

Definition find_chain_expiry_column (b : RecordBatch F) : option string :=
  find_column b ["last trade date"; "last tradeable dt"; "last_tradeable_dt"; "expiry";
                 "expiration date"].

Definition or_else {A} (o other : option A) : option A := match o with Some _ => o | None => other end.

(** One row of [extract_refdata_date_values]. *)
Definition date_value_row (tickers fields : list (option string)) (values : ColumnKind F)
    (field : string) (row : nat) : option Contract :=
  match mjoin (tickers !! row), mjoin (fields !! row) with
  | Some t, Some f =>
      if cv_is_null values row || negb (eq_ignore_ascii_case f field) then None
      else (fun d => (t, d)) <$> cv_date values row
  | _, _ => None
  end.

Definition extract_refdata_date_values (b : RecordBatch F) (field : string)
  : result (list Contract) RecipeError :=
  match as_string_col b key with
  | Err e => Err e
  | Ok tickers =>
      match as_string_col b "field" with
      | Err e => Err e
      | Ok fields =>
          match value_column b with
          | Err e => Err e
          | Ok values => Ok (omap (date_value_row tickers fields values field) (seq 0 (num_rows b)))
          end
      end
  end.

(** ** Contracts in order of maturity *)

Definition valid_futures_contracts (contracts : list Contract) (dt : D) : list Contract :=
  sort_by_key (fun c : Contract => d_ord c.2) (filter (fun c : Contract => d_lt dt c.2 = true) contracts).

Definition valid_futures_contracts_for_candidates (contracts : list Contract)
    (candidate_tickers : list string) (dt : D) : list Contract :=
  valid_futures_contracts (filter (fun c : Contract => c.1 ∈ candidate_tickers) contracts) dt.

Definition select_futures_contract (valid : list Contract) (gen_ticker dt : string) (idx : nat)
  : result Contract RecipeError :=
  match valid !! idx with
  | Some c => Ok c
  | None =>
      Err (ROther ("unable to resolve futures contract for '" ++ gen_ticker ++ "' on " ++ dt
                     ++ ": requested index " ++ int_to_string (Z.of_nat idx + 1) ++ " but only "
                     ++ int_to_string (Z.of_nat (length valid)) ++ " valid maturities"))
  end.

Definition select_active_futures_pair (front_contracts second_contracts : list Contract)
    (front_gen second_gen dt : string) (second_idx : nat)
  : result (Contract * option Contract) RecipeError :=
  match select_futures_contract front_contracts front_gen dt 0 with
  | Err e => Err e
  | Ok front =>
      Ok (front, result_ok (select_futures_contract second_contracts second_gen dt second_idx))
  end.

(** A quarterly contract ends in digits after the code of a quarterly month. *)
Definition quarterly_name (trimmed : string) : bool :=
  match split_whitespace trimmed with
  | [] => false
  | contract :: _ =>
      let l := chars contract in
      let root_month := rev (skip_while is_digit (rev l)) in
      negb (length root_month =? length l)%nat
      && match last root_month with
         | Some c => bool_decide (c ∈ chars "HMUZ")
         | None => false
         end
  end.

Definition chain_row (tickers expiries : ColumnKind F) (freq : RollFrequency) (row : nat)
  : option Contract :=
  match cv_string tickers row with
  | None => None
  | Some ticker =>
      let trimmed := trim ticker in
      if decide (trimmed = "") then None
      else if match freq with Quarterly => negb (quarterly_name trimmed) | Monthly => false end
           then None
           else (fun d => (trimmed, d)) <$> cv_date expiries row
  end.

Definition chain_ticker_column (b : RecordBatch F) : option string :=
  or_else (find_column b ["future's ticker"; "futures ticker"; "future ticker";
                          "security description"; "contract ticker"])
    (find_column b [key]).

Definition extract_futures_chain_maturities (b : RecordBatch F) (dt : D) (freq : RollFrequency)
  : result (list Contract) RecipeError :=
  if (num_rows b =? 0)%nat then Ok []
  else match chain_ticker_column b ≫= column_by_name b with
       | None => Err (ROther "futures chain is missing contract tickers")
       | Some tickers =>
           match or_else (find_chain_expiry_column b) (find_column b ["date"]) ≫= column_by_name b with
           | None => Err (ROther "futures chain is missing expiry dates")
           | Some expiries =>
               Ok (valid_futures_contracts (omap (chain_row tickers expiries freq) (seq 0 (num_rows b)))
                     dt)
           end
       end.

(** ** Requests *)

Definition futures_maturity_request (candidates : list string) (opts : RequestParams) : RequestParams :=
  apply_request_options
    (mkParams (service_as_str SvRefData) (operation_as_str OpReferenceData) None None
       extractor_default false (Some candidates) None (Some ["LAST_TRADEABLE_DT"]) None None None
       None None None None None None None None None None None None false false None None None None
       (Some "long")) opts.

Definition clear_format (p : RequestParams) : RequestParams :=
  mkParams (service p) (operation p) (request_operation p) (request_id p) (extractor p)
    (extractor_set p) (securities p) (security p) (fields p) (overrides p) (security_overrides p)
    (p_elements p) (kwargs p) (start_date p) (end_date p) (start_datetime p) (end_datetime p)
    (request_tz p) (output_tz p) (event_type p) (event_types p) (interval p) (options p)
    (field_types p) (include_security_errors p) (return_eids p) (on_delayed p)
    (validate_fields p) (search_spec p) (field_ids p) None.

Definition futures_chain_request (gen_ticker : string) (dt : D) (opts : RequestParams)
  : RequestParams :=
  clear_format
    (apply_request_options
       (mkParams (service_as_str SvRefData) (operation_as_str OpReferenceData) None None
          ExBulkData true (Some [gen_ticker]) None (Some ["FUT_CHAIN_LAST_TRADE_DATES"])
          (Some [("CHAIN_DATE", fmt_date dt None)]) None None None None None None None None None
          None None None None None false false None None None None None) opts).

(** [dt - Duration::days(10)] panics below the earliest date. *)
Definition futures_history_request (secs : list string) (field : string) (dt : D)
    (opts : RequestParams) : option RequestParams :=
  (fun start =>
     apply_request_options
       (mkParams (service_as_str SvRefData) (operation_as_str OpHistoricalData) None None
          extractor_default false (Some secs) None (Some [field]) None None None None
          (Some (fmt_date start None)) (Some (fmt_date dt None)) None None None None None None
          None None None false false None None None None (Some "long")) opts)
    <$> checked_sub_days dt 10.

Definition request_futures_maturities (candidates : list string) (opts : RequestParams)
    (ids : list string) : result (list Contract) RecipeError * list string :=
  match engine_request (futures_maturity_request candidates opts) with
  | Err e => (Err (REngine e), ids)
  | Ok b => (extract_refdata_date_values b "LAST_TRADEABLE_DT", ids_collect ids b)
  end.

Definition request_futures_chain_maturities (gen_ticker : string) (dt : D) (freq : RollFrequency)
    (opts : RequestParams) (ids : list string) : result (list Contract) RecipeError * list string :=
  match engine_request (futures_chain_request gen_ticker dt opts) with
  | Err e => (Err (REngine e), ids)
  | Ok b => (extract_futures_chain_maturities b dt freq, ids_collect ids b)
  end.

(** ** The recipes *)

Definition futures_candidate_tickers (gen_ticker : string) (dt : D) (freq : RollFrequency)
    (highest_index : Z) (now : D) : option (result (list string) RecipeError) :=
  match futures_candidate_count gen_ticker highest_index with
  | Err e => Some (Err e)
  | Ok count =>
      (fun r => match ext r with
                | Err e => Err e
                | Ok [] => Err (ROther ("no futures candidates generated for '" ++ gen_ticker ++ "'"))
                | Ok candidates => Ok (List.map fc_ticker candidates)
                end)
        <$> generate_futures_candidates gen_ticker dt freq count now
  end.

(** The outcome of a recipe: one ticker, or a failure with its identifiers. *)
Definition finish_futures (r : result string RecipeError) (ids : list string)
  : result (RecordBatch F) RecipeError :=
  match r with
  | Ok ticker => Ok (ids_attach ids (build_single_ticker_batch ticker key))
  | Err e => Err (with_bloomberg_request_ids e ids)
  end.

(** The [async] block of [recipe_fut_ticker]: the contract at the index. *)
Definition fut_contract (gen_ticker dt : string) (dt_parsed : D) (freq : RollFrequency) (idx : Z)
    (candidates : list string) (opts : RequestParams) : result string RecipeError * list string :=
  match request_futures_maturities candidates opts [] with
  | (Err e, ids) => (Err e, ids)
  | (Ok maturities, ids) =>
      let valid := valid_futures_contracts maturities dt_parsed in
      let select valid := result_map fst (select_futures_contract valid gen_ticker dt (Z.to_nat idx)) in
      if (length valid <=? Z.to_nat idx)%nat then
        match request_futures_chain_maturities gen_ticker dt_parsed freq opts ids with
        | (Err e, ids) => (Err e, ids)
        | (Ok chain, ids) => (select chain, ids)
        end
      else (select valid, ids)
  end.

Definition recipe_fut_ticker (gen_ticker dt : string) (freq : option string) (opts : RequestParams)
    (now : D) : option (result (RecordBatch F) RecipeError) :=
  match ext (parse_date dt) with
  | Err e => Some (Err e)
  | Ok dt_parsed =>
      match ext (contract_index gen_ticker) with
      | Err e => Some (Err e)
      | Ok idx =>
          let freq := parse_roll_frequency freq in
          (fun r => match r with
                    | Err e => Err e
                    | Ok candidates =>
                        let '(out, ids) := fut_contract gen_ticker dt dt_parsed freq idx candidates
                                             (clear_format opts) in
                        finish_futures out ids
                    end)
            <$> futures_candidate_tickers gen_ticker dt_parsed freq idx now
      end
  end.

Definition before_futures_roll_month (dt maturity : D) : bool :=
  (d_year dt <? d_year maturity)%Z
  || ((d_year dt =? d_year maturity)%Z && (d_month dt <? d_month maturity)%Z).

(** The choice of [active_futures_volume_batch]: a tie keeps the front. *)
Definition volume_choice (b : RecordBatch F) (front second : string) : result string RecipeError :=
  if (num_rows b =? 0)%nat then Ok front
  else match latest_history_numeric_point (D := D) b key front "VOLUME" with
       | Err e => Err e
       | Ok fv =>
           match latest_history_numeric_point (D := D) b key second "VOLUME" with
           | Err e => Err e
           | Ok sv =>
               Ok (match fv, sv with
                   | Some (_, f), Some (_, s) => if f64_lt f s then second else front
                   | None, Some _ => second
                   | _, None => front
                   end)
           end
       end.

Definition active_futures_volume_batch (b : RecordBatch F) (front second : string)
    (ids : list string) : result (RecordBatch F) RecipeError :=
  finish_futures (volume_choice b front second) (ids_collect ids b).

(** The generic mapping Bloomberg reports, with the identifiers collected. *)
Definition bloomberg_current_generic_ticker (gen_ticker : string) (dt : D) (opts : RequestParams)
    (ids : list string) : option (result (option string) RecipeError * list string) :=
  (fun p =>
     match engine_request p with
     | Err e => (Err (REngine e), ids)
     | Ok b =>
         (match latest_history_string_point (D := D) b key gen_ticker "FUT_CUR_GEN_TICKER" with
          | Err e => Err e
          | Ok None => Ok None
          | Ok (Some (_, root)) => normalize_mapped_generic_ticker root gen_ticker
          end, ids_collect ids b)
     end)
    <$> futures_history_request [gen_ticker] "FUT_CUR_GEN_TICKER" dt opts.

(** The identifiers after a step whose error is only noted ([inspect_err]). *)
Definition note_error {A} (out : result A RecipeError * list string) : list string :=
  match out with
  | (Err e, ids) => ids_extend ids (recipe_request_ids e)
  | (Ok _, ids) => ids
  end.

(** Fall back to the chain when the second contract, or both, are missing. *)
Definition chain_fallback (pair : result (Contract * option Contract) RecipeError)
    (front_gen second_gen dt : string) (dt_parsed : D) (freq : RollFrequency) (second_idx : nat)
    (opts : RequestParams) (ids : list string)
  : result (Contract * option Contract) RecipeError * list string :=
  let incomplete := match pair with Ok (_, Some _) => false | _ => true end in
  if negb incomplete then (pair, ids)
  else
    let out := request_futures_chain_maturities front_gen dt_parsed freq opts ids in
    (match out.1 with
     | Err _ => pair
     | Ok chain =>
         if (second_idx <? length chain)%nat || match pair with Err _ => true | Ok _ => false end
         then select_active_futures_pair chain chain front_gen second_gen dt second_idx
         else pair
     end, note_error out).

(** From the two contracts to the active one. *)
Definition choose_active (pair : Contract * option Contract) (dt_parsed : D) (opts : RequestParams)
    (ids : list string) : option (result (RecordBatch F) RecipeError) :=
  match pair with
  | ((front, _), None) => Some (finish_futures (Ok front) ids)
  | ((front, maturity), Some (second, _)) =>
      if before_futures_roll_month dt_parsed maturity then Some (finish_futures (Ok front) ids)
      else (fun p => match engine_request p with
                     | Err e => finish_futures (Err (REngine e)) ids
                     | Ok b => active_futures_volume_batch b front second ids
                     end)
             <$> futures_history_request [front; second] "VOLUME" dt_parsed opts
  end.

(** The inputs of the candidate request of [recipe_active_futures]: the front and
    second generics, the index of the second, and the candidates of both. *)
Definition active_inputs (gen_ticker : string) (dt : D) (freq : RollFrequency) (now : D)
  : option (result (string * string * Z * Z * list string) RecipeError) :=
  match with_generic_index gen_ticker 1 with
  | Err e => Some (Err e)
  | Ok front_gen =>
      match with_generic_index gen_ticker 2 with
      | Err e => Some (Err e)
      | Ok second_gen =>
          match ext (contract_index second_gen) with
          | Err e => Some (Err e)
          | Ok second_idx =>
              match futures_candidate_count front_gen 0 with
              | Err e => Some (Err e)
              | Ok front_count =>
                  result_map (fun c => (front_gen, second_gen, second_idx, front_count, c))
                    <$> futures_candidate_tickers front_gen dt freq second_idx now
              end
          end
      end
  end.

(** After the generic mapping: the recipe from the candidates on. *)
Definition active_from_candidates (gen_ticker dt : string) (dt_parsed : D) (freq : RollFrequency)
    (opts : RequestParams) (now : D) (ids : list string)
  : option (result (RecordBatch F) RecipeError) :=
  match active_inputs gen_ticker dt_parsed freq now with
  | None => None
  | Some (Err e) => Some (finish_futures (Err e) ids)
  | Some (Ok (front_gen, second_gen, second_idx, front_count, candidates)) =>
      match request_futures_maturities candidates opts ids with
      | (Err e, ids) => Some (finish_futures (Err e) ids)
      | (Ok maturities, ids) =>
          let k := Z.to_nat second_idx in
          let front_contracts := valid_futures_contracts_for_candidates maturities
                                   (take (Z.to_nat front_count) candidates) dt_parsed in
          let second_contracts := valid_futures_contracts maturities dt_parsed in
          let pair := select_active_futures_pair front_contracts second_contracts front_gen second_gen
                        dt k in
          match chain_fallback pair front_gen second_gen dt dt_parsed freq k opts ids with
          | (Err e, ids) => Some (finish_futures (Err e) ids)
          | (Ok chosen, ids) => choose_active chosen dt_parsed opts ids
          end
      end
  end.

Definition recipe_active_futures (gen_ticker dt : string) (freq : option string)
    (opts : RequestParams) (now : D) : option (result (RecordBatch F) RecipeError) :=
  match ext (validate_generic_ticker gen_ticker) with
  | Err e => Some (Err e)
  | Ok _ =>
      match ext (parse_date dt) with
      | Err e => Some (Err e)
      | Ok dt_parsed =>
          let opts := clear_format opts in
          match bloomberg_current_generic_ticker gen_ticker dt_parsed opts [] with
          | None => None
          | Some (Ok (Some mapped), ids) => Some (finish_futures (Ok mapped) ids)
          | Some out =>
              active_from_candidates gen_ticker dt dt_parsed (parse_roll_frequency freq) opts now
                (note_error out)
          end
      end
  end.
End Recipes.

(** ** The contract at an index *)

Section Selection.
Context {D F : Type} `{ChronoLaws D} `{ChronoText D} `{F64 F}.

(** How many contracts mature after [dt] and satisfy a test on their maturity. *)
Definition maturing (contracts : list (string * D)) (dt : D) (P : Z -> bool) : nat :=
  length (filter (fun c : string * D => d_lt dt c.2 && P (d_ord c.2) = true) contracts).

Lemma maturing_valid contracts dt (P : Z -> bool) :
  maturing contracts dt P
  = length (filter (fun c : string * D => P (d_ord c.2) = true) (valid_futures_contracts contracts dt)).
Proof.
  unfold maturing, valid_futures_contracts.
  destruct (sort_by_key_spec (fun c : string * D => d_ord c.2)
              (filter (fun c : string * D => d_lt dt c.2 = true) contracts)) as (_ & Hp & _).
  rewrite Hp, list_filter_filter. f_equal. apply list_filter_iff. intros c. rewrite andb_true_iff. tauto.
Qed.

(** The contract at a generic index is the one of that rank by maturity: it was
    reported, matures after the date, at most [idx] of the reported contracts
    mature after the date and before it, and more than [idx] no later than it;
    contracts of one maturity keep their reported order; and the selection fails
    exactly when too few contracts mature after the date. *)
Theorem futures_contract_by_rank contracts (dt : D) gen text idx :
  match select_futures_contract (valid_futures_contracts contracts dt) gen text idx with
  | Ok (t, m) =>
      (t, m) ∈ contracts /\ (d_ord dt < d_ord m)%Z
      /\ (maturing contracts dt (fun k => k <? d_ord m)%Z <= idx
          < maturing contracts dt (fun k => k <=? d_ord m)%Z)%nat
  | Err _ => (maturing contracts dt (fun _ => true) <= idx)%nat
  end
  /\ forall k, (d_ord dt < k)%Z ->
       filter (fun c : string * D => d_ord c.2 = k) (valid_futures_contracts contracts dt)
       = filter (fun c : string * D => d_ord c.2 = k) contracts.
Proof.
  rewrite !maturing_valid.
  destruct (sort_by_key_spec (fun c : string * D => d_ord c.2)
              (filter (fun c : string * D => d_lt dt c.2 = true) contracts)) as (Hs & Hp & Hst).
  fold (valid_futures_contracts contracts dt) in Hs, Hp, Hst. split.
  - unfold select_futures_contract. destruct (valid_futures_contracts contracts dt !! idx) as [[t m]|] eqn:E.
    + pose proof (sorted_nth (fun c : string * D => d_ord c.2) _ _ _ Hs E) as [H5 H6]. simpl in H5, H6.
      apply list_elem_of_lookup_2 in E. rewrite Hp in E.
      apply list_elem_of_filter in E as [Hd Hin]. simpl in Hd. apply d_lt_spec in Hd.
      split; [done|]. split; [done|]. rewrite !maturing_valid. split.
      * erewrite list_filter_iff; [exact H5|]. intros c. apply Z.ltb_lt.
      * eapply Nat.lt_le_trans; [exact H6|]. apply Nat.eq_le_incl. f_equal. apply list_filter_iff.
        intros c. symmetry. apply Z.leb_le.
    + apply lookup_ge_None in E. etrans; [apply length_filter|done].
  - intros k Hk. rewrite Hst, list_filter_filter. apply list_filter_iff. intros c. split; [tauto|].
    intros Hc. split; [done|]. unfold d_lt. lia.
Qed.
End Selection.

(** *** Witness *)

Definition chain_demo : list (string * Civil) :=
  [("ESH25 Index", mkCivil 2025 3 21 eq_refl); ("ESZ23 Index", mkCivil 2023 12 15 eq_refl);
   ("ESM24 Index", mkCivil 2024 6 21 eq_refl); ("ESH24 Index", mkCivil 2024 3 15 eq_refl)].

Lemma futures_rank_witness :
  select_futures_contract (valid_futures_contracts chain_demo es_day) "ES2 Index" "20240115" 1
    = Ok ("ESM24 Index", mkCivil 2024 6 21 eq_refl)
  /\ (maturing chain_demo es_day (fun k => k <? d_ord (mkCivil 2024 6 21 eq_refl))%Z <= 1)%nat.
Proof.
  assert (select_futures_contract (valid_futures_contracts chain_demo es_day) "ES2 Index" "20240115" 1
            = Ok ("ESM24 Index", mkCivil 2024 6 21 eq_refl)) as E by (vm_compute; reflexivity).
  destruct (futures_contract_by_rank chain_demo es_day "ES2 Index" "20240115" 1) as [Hr _].
  rewrite E in Hr. split; [exact E|]. apply Hr.
Defined.
