(* ===== verification/RequestErrors.v ===== *)
(** * Errors of sent requests

    The text of an error ([Display] of [BlpError], [xbbg-core/src/errors.rs], and
    of [BlpAsyncError], [xbbg-async/src/errors.rs]) and the enrichment of a failed
    request with its label and its SDK identifiers
    ([xbbg-async/src/engine/request_pool.rs]). *)

From Stdlib Require Import String.
From stdpp Require Import pretty.
From S2P Require Import Prelude Errors.
Local Open Scope string_scope.

(** ** Texts *)

Definition blp_display (e : BlpError) : string :=
  match e with
  | SessionStart _ _ => "session start failed"
  | OpenService _ _ _ => "open service failed"
  | RequestFailure _ _ _ _ _ _ _ => "request failed"
  | InvalidArgument _ => "invalid argument"
  | Timeout | RequestTimeout _ _ => "operation timed out"
  | TemplateTerminated _ => "request template terminated"
  | SubscriptionFailure _ _ => "subscription failure"
  | SubscriptionDataLoss topic detail => "subscription data loss for " ++ topic ++ ": " ++ detail
  | Internal detail => "internal error: " ++ detail
  | SchemaOperationNotFound service operation =>
      "operation not found: " ++ service ++ "::" ++ operation
  | SchemaElementNotFound parent name => "schema element not found: " ++ parent ++ "." ++ name
  | SchemaTypeMismatch element expected found =>
      "schema type mismatch at " ++ element ++ ": expected " ++ expected ++ ", found " ++ found
  | SchemaUnsupported element detail =>
      "unsupported schema construct at " ++ element ++ ": " ++ detail
  | Validation message _ => "validation error: " ++ message
  end.

Definition async_display (e : BlpAsyncError) : string :=
  match e with
  | AsyncBlp e => blp_display e
  | AsyncInternal detail => "internal error: " ++ detail
  | ConfigError detail => "configuration error: " ++ detail
  | ChannelClosed => "channel closed"
  | AllWorkersDown pool_size =>
      "all " ++ pretty pool_size ++ " request workers are dead — no healthy worker available"
  end.

(** ** Enrichment *)

(** [if label.is_none() { *label = request_id }] *)
Definition fill (label request_id : option string) : option string :=
  match label with None => request_id | Some _ => label end.

Definition sent_failure (service operation : string) (request_id : option string)
  (ids : list string) (source : string) : BlpError :=
  RequestFailure service (Some operation) None None request_id ids (Some source).

Definition enrich_request_error (error : BlpError) (service operation : string)
  (request_id : option string) (ids : list string) : BlpError :=
  match error with
  | RequestFailure s o cid l label have src =>
      extend_bloomberg_request_ids (RequestFailure s o cid l (fill label request_id) have src) ids
  | RequestTimeout label have =>
      extend_bloomberg_request_ids (RequestTimeout (fill label request_id) have) ids
  | Internal _ =>
      match ids with
      | [] => error
      | _ => sent_failure service operation request_id ids (blp_display error)
      end
  | _ => error
  end.

Definition enrich_async_request_error (error : BlpAsyncError) (service operation : string)
  (request_id : option string) (ids : list string) : BlpAsyncError :=
  match error with
  | AsyncBlp error => AsyncBlp (enrich_request_error error service operation request_id ids)
  | error =>
      match ids with
      | [] => error
      | _ => AsyncBlp (sent_failure service operation request_id ids (async_display error))
      end
  end.

(** ** Lemmas *)

(** Kinds of failure that can only come from a request Bloomberg may have seen. *)
Definition sent_kind (e : BlpAsyncError) : bool :=
  match e with
  | AsyncBlp (RequestFailure _ _ _ _ _ _ _) | AsyncBlp (RequestTimeout _ _)
  | AsyncBlp (Internal _) => true
  | AsyncBlp _ => false
  | _ => true
  end.

(** The identifiers a failure shows after enrichment. *)
Lemma enrich_async_ids e svc op rid ids i :
  sent_kind e = true ->
  i ∈ async_bloomberg_request_ids (enrich_async_request_error e svc op rid ids)
  <-> i ∈ async_bloomberg_request_ids e \/ i ∈ ids.
Proof.
  destruct e as [b| | | |]; simpl; [destruct b; simpl; try discriminate|..]; intros _;
    try (destruct ids; simpl; set_solver); by rewrite elem_of_union_ids.
Qed.

(** Other failures, and failures of a request that was never sent, keep their kind
    and their text. *)
Lemma enrich_async_unsent e svc op rid ids :
  sent_kind e = false \/ (ids = [] /\ carries_ids (match e with AsyncBlp b => b | _ => Timeout end) = false) ->
  enrich_async_request_error e svc op rid ids = e.
Proof. by intros [He|[-> He]]; destruct e as [b| | | |]; try destruct b; simpl in *. Qed.
