(* ===== verification/Schema.v ===== *)
(** * Schemas of result batches

    What leaves the engine with a batch besides its columns: the request identifier
    of its metadata ([engine/state/value_utils.rs]), the name of its security column
    ([engine/key_column.rs]) and the time zone of its timestamps
    ([engine/intraday_timezone.rs]).  Arrow's arrays and constructors are the class
    [ArrowOps]; [ArrowLaws] states what its documentation promises of them. *)

From Stdlib Require Import Ascii String ZArith Lia.
From S2P Require Import Prelude Text.
Local Open Scope string_scope.

(** ** Data *)

(** The code tells microsecond timestamps from every other type. *)
Inductive ArrowDataType : Type :=
| TimestampMicrosecond (timezone : option string)
| OtherType (name : string).

Record Field : Type := mkField {
  f_name : string;
  f_type : ArrowDataType;
  f_nullable : bool;
  f_metadata : gmap string string
}.

Record Schema : Type := mkSchema {
  fields : list Field;
  s_metadata : gmap string string
}.

#[export] Instance ArrowDataType_eq_dec : EqDecision ArrowDataType.
Proof. solve_decision. Defined.
#[export] Instance Field_eq_dec : EqDecision Field.
Proof. solve_decision. Defined.
#[export] Instance Schema_eq_dec : EqDecision Schema.
Proof. solve_decision. Defined.

Record ArrowBatch (Col : Type) : Type := mkArrowBatch {
  b_schema : Schema;
  b_columns : list Col;
  b_rows : nat
}.
Arguments mkArrowBatch {Col}. Arguments b_schema {Col}. Arguments b_columns {Col}.
Arguments b_rows {Col}.

(** ** Arrow's operations *)

Class ArrowOps (Col : Type) := {
  data_type : Col -> ArrowDataType;
  array_len : Col -> nat;
  null_count : Col -> nat;
  (** downcast to a microsecond timestamp array, then [with_timezone] *)
  us_with_timezone : Col -> string -> option Col;
  try_new : Schema -> list Col -> result (ArrowBatch Col) string;
  try_new_with_row_count : Schema -> list Col -> nat -> result (ArrowBatch Col) string;
  with_schema : ArrowBatch Col -> Schema -> result (ArrowBatch Col) string
}.

(** [Field::contains] and [Schema::contains]: a superset. *)
Definition field_contains (self other : Field) : Prop :=
  f_name self = f_name other /\ f_type self = f_type other
  /\ (f_nullable self = true \/ f_nullable other = false)
  /\ f_metadata other ⊆ f_metadata self.

Definition schema_contains (self other : Schema) : Prop :=
  Forall2 field_contains (fields self) (fields other) /\ s_metadata other ⊆ s_metadata self.

(** The columns of a batch have the types, nulls and length its schema says. *)
Definition column_fits {Col} `{ArrowOps Col} (n : nat) (f : Field) (c : Col) : Prop :=
  data_type c = f_type f /\ (f_nullable f = false -> null_count c = 0) /\ array_len c = n.

Definition fits {Col} `{ArrowOps Col} (s : Schema) (cols : list Col) (n : nat) : Prop :=
  Forall2 (column_fits n) (fields s) cols.

Class ArrowLaws (Col : Type) `{ArrowOps Col} := {
  us_with_timezone_ok c o tz :
    data_type c = TimestampMicrosecond o ->
    exists c', us_with_timezone c tz = Some c'
      /\ data_type c' = TimestampMicrosecond (Some tz)
      /\ array_len c' = array_len c /\ null_count c' = null_count c;
  try_new_ok s cols n :
    cols <> [] -> fits s cols n -> try_new s cols = Ok (mkArrowBatch s cols n);
  try_new_with_row_count_ok s cols n :
    fits s cols n -> try_new_with_row_count s cols n = Ok (mkArrowBatch s cols n);
  with_schema_ok b s :
    schema_contains s (b_schema b) ->
    with_schema b s = Ok (mkArrowBatch s (b_columns b) (b_rows b))
}.

(** ** Request identifiers *)

Definition METADATA_KEY_BLOOMBERG_REQUEST_ID : string := "xbbg.bloomberg_request_id".

Definition schema_with_id (id : string) (s : Schema) : Schema :=
  mkSchema (fields s) (<[METADATA_KEY_BLOOMBERG_REQUEST_ID := id]> (s_metadata s)).

Definition attach_bloomberg_request_id {Col} (b : ArrowBatch Col) (id : string) : ArrowBatch Col :=
  mkArrowBatch (schema_with_id id (b_schema b)) (b_columns b) (b_rows b).

(** ** Key column *)

Definition EXTRACTED_NAME : string := "ticker".

Inductive KeyColumn : Type := KcTicker | KcSecurity.

Definition key_as_str (k : KeyColumn) : string :=
  match k with KcTicker => "ticker" | KcSecurity => "security" end.

Definition key_from_str (s : string) : result KeyColumn string :=
  let l := to_ascii_lowercase s in
  if decide (l = "ticker") then Ok KcTicker
  else if decide (l = "security") then Ok KcSecurity
  else Err ("unknown key column '" ++ s ++ "': expected security or ticker").

Definition renamed_schema (s : Schema) (key : KeyColumn) : option Schema :=
  match fields s with
  | [] => None
  | first :: rest =>
      if decide (key_as_str key = EXTRACTED_NAME) then None
      else if decide (f_name first = EXTRACTED_NAME) then
        Some (mkSchema
                (mkField (key_as_str key) (f_type first) (f_nullable first) (f_metadata first)
                 :: rest) (s_metadata s))
      else None
  end.

Section Batches.
Context {Col : Type} `{ArrowOps Col}.

(** [expect]: [None] is a panic. *)
Definition with_renamed_schema (b : ArrowBatch Col) (s : Schema) : option (ArrowBatch Col) :=
  result_ok (try_new_with_row_count s (b_columns b) (b_rows b)).

Definition name_key_column (b : ArrowBatch Col) (key : KeyColumn) : option (ArrowBatch Col) :=
  match renamed_schema (b_schema b) key with
  | Some s => with_renamed_schema b s
  | None => Some b
  end.

(** ** Output time zone *)

Definition reschema (b : ArrowBatch Col) (output_schema : option Schema)
  : result (ArrowBatch Col) string :=
  match output_schema with Some s => with_schema b s | None => Ok b end.

(** The first column named [time], when it is a zoned microsecond timestamp; a batch
    has a column for every field. *)
Definition time_column (b : ArrowBatch Col) : option (nat * Col) :=
  match list_find (fun f => f_name f = "time") (fields (b_schema b)) with
  | Some (ti, _) =>
      match b_columns b !! ti with
      | Some c =>
          match data_type c with TimestampMicrosecond (Some _) => Some (ti, c) | _ => None end
      | None => None
      end
  | None => None
  end.

(** The zone a final schema already gives the column, shared with later chunks. *)
Definition schema_timezone (s : option Schema) (ti : nat) : option string :=
  match s ≫= fun s => fields s !! ti with
  | Some f => match f_type f with TimestampMicrosecond tz => tz | _ => None end
  | None => None
  end.

Definition apply_output_timezone_batch (b : ArrowBatch Col) (iana : string)
  (output_schema : option Schema) : result (ArrowBatch Col) string :=
  if decide (iana = "UTC") then reschema b output_schema
  else
    match time_column b with
    | None => reschema b output_schema
    | Some (ti, col) =>
        let timezone := default iana (schema_timezone output_schema ti) in
        match us_with_timezone col timezone with
        | None => Err "Compute error: time column: expected TimestampMicrosecondArray"
        | Some new_ts =>
            let new_field := mkField "time" (data_type new_ts) true ∅ in
            let new_schema :=
              default (mkSchema (<[ti := new_field]> (fields (b_schema b))) (s_metadata (b_schema b)))
                output_schema in
            try_new new_schema (<[ti := new_ts]> (b_columns b))
        end
    end.
End Batches.

(** ** Lemmas *)

(** The schema relabelling gives, read off the source schema alone. *)
Definition zone_schema (iana : string) (s : Schema) : Schema :=
  if decide (iana = "UTC") then s
  else
    match list_find (fun f => f_name f = "time") (fields s) with
    | Some (ti, f) =>
        match f_type f with
        | TimestampMicrosecond (Some _) =>
            mkSchema (<[ti := mkField "time" (TimestampMicrosecond (Some iana)) true ∅]> (fields s))
              (s_metadata s)
        | _ => s
        end
    | None => s
    end.

(** No identifier but [id] is recorded in the schema. *)
Definition id_compatible (id : string) (s : Schema) : Prop :=
  forall i, s_metadata s !! METADATA_KEY_BLOOMBERG_REQUEST_ID = Some i -> i = id.

Lemma schema_with_id_contains id s : id_compatible id s -> schema_contains (schema_with_id id s) s.
Proof.
  intros Hid. split; simpl.
  - induction (fields s) as [|f l IH]; constructor; [|done].
    repeat split; [|done]. destruct (f_nullable f); auto.
  - apply map_subseteq_spec. intros k v Hk. destruct (decide (k = METADATA_KEY_BLOOMBERG_REQUEST_ID)) as [->|].
    + rewrite (Hid _ Hk). by rewrite lookup_insert_eq.
    + by rewrite lookup_insert_ne.
Qed.

Section Laws.
Context {Col : Type} `{HL : ArrowLaws Col}.
Implicit Types b : ArrowBatch Col.

Definition batch_ok b : Prop := fits (b_schema b) (b_columns b) (b_rows b).

Lemma time_column_schema b :
  batch_ok b ->
  time_column b =
  match list_find (fun f => f_name f = "time") (fields (b_schema b)) with
  | Some (ti, f) =>
      match f_type f with
      | TimestampMicrosecond (Some _) => (ti,.) <$> b_columns b !! ti
      | _ => None
      end
  | None => None
  end.
Proof.
  intros Hb. unfold time_column.
  destruct (list_find _ _) as [[ti f]|] eqn:Hf; [|done].
  apply list_find_Some in Hf as (Hf & _ & _).
  destruct (Forall2_lookup_l _ _ _ _ _ Hb Hf) as (c & -> & Ht & _). rewrite Ht.
  by destruct (f_type f) as [[]|].
Qed.

(** Relabelling keeps every column but the time column, and agrees with
    relabelling into the final schema of an equal source schema. *)
Lemma apply_timezone_cached b iana id :
  batch_ok b -> id_compatible id (b_schema b) ->
  exists b', apply_output_timezone_batch b iana None = Ok b'
    /\ b_schema b' = zone_schema iana (b_schema b) /\ batch_ok b'
    /\ apply_output_timezone_batch b iana (Some (schema_with_id id (zone_schema iana (b_schema b))))
       = Ok (attach_bloomberg_request_id b' id).
Proof.
  intros Hb Hid. unfold apply_output_timezone_batch, zone_schema, reschema.
  assert (forall s, s = b_schema b -> with_schema b (schema_with_id id s)
          = Ok (attach_bloomberg_request_id b id)) as Hsame.
  { intros s ->. by rewrite with_schema_ok; [|apply schema_with_id_contains]. }
  case_decide; [exists b; eauto|]. rewrite (time_column_schema b Hb).
  destruct (list_find _ _) as [[ti f]|] eqn:Hf; [|exists b; eauto].
  destruct (f_type f) as [[tz|]|] eqn:Hty; [|exists b; eauto..].
  apply list_find_Some in Hf as (Hf & _ & _).
  destruct (Forall2_lookup_l _ _ _ _ _ Hb Hf) as (c & Hc & Hct & _ & Hlen). rewrite Hc. simpl.
  destruct (us_with_timezone_ok c (Some tz) iana) as (c' & Hc' & Ht' & Hl' & _); [congruence|].
  assert (fits (mkSchema (<[ti := mkField "time" (data_type c') true ∅]> (fields (b_schema b)))
            (s_metadata (b_schema b))) (<[ti := c']> (b_columns b)) (b_rows b)) as Hfit.
  { unfold fits. simpl. apply Forall2_insert; [exact Hb|]. repeat split; [done|congruence]. }
  assert (<[ti := c']> (b_columns b) <> []) as Hne.
  { intros Hn. apply (f_equal length) in Hn. rewrite length_insert in Hn.
    apply lookup_lt_Some in Hc. simpl in Hn. lia. }
  rewrite Hc'. eexists. split; [by apply try_new_ok|]. simpl. rewrite Ht'.
  split; [done|]. split; [by rewrite <-Ht'|].
  unfold schema_timezone. simpl. rewrite list_lookup_insert_eq by by eapply lookup_lt_Some. simpl.
  rewrite Hc'. apply try_new_ok; [done|]. unfold fits in *. simpl in *. by rewrite <-Ht'.
Qed.

(** Renaming the key column never panics and only changes a field name. *)
Lemma renamed_fits b key s :
  batch_ok b -> renamed_schema (b_schema b) key = Some s ->
  with_renamed_schema b s = Some (mkArrowBatch s (b_columns b) (b_rows b)).
Proof.
  unfold renamed_schema, with_renamed_schema. intros Hb Hr.
  rewrite try_new_with_row_count_ok; [done|].
  unfold batch_ok, fits in *. destruct (fields (b_schema b)) as [|f l]; [done|].
  case_decide; [done|]. case_decide; [|done]. simplify_eq/=.
  inversion Hb as [|? c ? ? Hc Hcs]; subst. by constructor.
Qed.

Lemma name_key_column_total b key :
  batch_ok b -> exists s, name_key_column b key = Some (mkArrowBatch s (b_columns b) (b_rows b)).
Proof.
  intros Hb. unfold name_key_column. destruct (renamed_schema _ _) eqn:Hr.
  - erewrite renamed_fits by eauto. eauto.
  - destruct b. eauto.
Qed.
End Laws.

(** ** A concrete instance

    Arrays reduced to what the constructors check; used to evaluate examples. *)

Record SimpleCol : Type := mkCol { sc_type : ArrowDataType; sc_len : nat; sc_nulls : nat }.

#[export] Instance schema_contains_dec s1 s2 : Decision (schema_contains s1 s2).
Proof. unfold schema_contains, field_contains. apply _. Defined.

Definition simple_fits (s : Schema) (cols : list SimpleCol) (n : nat) : Prop :=
  Forall2 (fun f c => sc_type c = f_type f /\ (f_nullable f = false -> sc_nulls c = 0) /\ sc_len c = n)
    (fields s) cols.

#[export] Instance simple_fits_dec s cols n : Decision (simple_fits s cols n).
Proof. unfold simple_fits. apply _. Defined.

Definition checked_batch (P : Prop) `{Decision P} (s : Schema) (cols : list SimpleCol) (n : nat)
  : result (ArrowBatch SimpleCol) string :=
  if decide P then Ok (mkArrowBatch s cols n) else Err "Invalid argument error".

#[export] Instance simple_arrow : ArrowOps SimpleCol := {
  data_type := sc_type;
  array_len := sc_len;
  null_count := sc_nulls;
  us_with_timezone c tz :=
    match sc_type c with
    | TimestampMicrosecond _ => Some (mkCol (TimestampMicrosecond (Some tz)) (sc_len c) (sc_nulls c))
    | OtherType _ => None
    end;
  try_new s cols :=
    match cols with
    | [] => Err "Invalid argument error"
    | c :: _ => checked_batch (simple_fits s cols (sc_len c)) s cols (sc_len c)
    end;
  try_new_with_row_count s cols n := checked_batch (simple_fits s cols n) s cols n;
  with_schema b s := checked_batch (schema_contains s (b_schema b)) s (b_columns b) (b_rows b)
}.

#[export] Instance simple_arrow_laws : ArrowLaws SimpleCol.
Proof.
  split; simpl; unfold checked_batch.
  - intros c o tz ->. by eexists.
  - intros s [|c cols] n Hne Hf; [done|].
    assert (sc_len c = n) as ->.
    { unfold fits, column_fits in Hf. inversion Hf as [|f ? fs ? Hc]; subst. apply Hc. }
    by rewrite decide_True.
  - intros s cols n Hf. by rewrite decide_True.
  - intros b s Hc. by rewrite decide_True.
Qed.
