(* ===== verification/RequestStream.v ===== *)
(** * Owned streaming requests

    The cancellation guard and [RequestStream] of [engine/request_pool.rs].  The
    receiver is tokio's: its answers are arguments of the operations, which hold
    whatever it answers.  Each operation returns the cancellations it sent to a
    worker; a panic is [None]. *)

From Stdlib Require Import Ascii String ZArith Lia.
From S2P Require Import Prelude Errors Worker Schema RequestErrors.
Local Open Scope string_scope.

(** ** Cancellation guard *)

(** [RequestCancellation::Worker]: the worker, by its index, and the ticket. *)
Record RequestCancellation : Type := mkCancellation {
  c_worker : nat;
  c_ticket : RequestTicket
}.

Record RequestCancelGuard : Type := mkGuard { cancellation : option RequestCancellation }.

Definition guard_new (worker : nat) (ticket : RequestTicket) : RequestCancelGuard :=
  mkGuard (Some (mkCancellation worker ticket)).

Definition disarm (g : RequestCancelGuard) : RequestCancelGuard := mkGuard None.

Definition guard_cancel (g : RequestCancelGuard) : RequestCancelGuard * list RequestCancellation :=
  (mkGuard None, option_list (cancellation g)).

(** [Drop] of a guard, and of an optional guard. *)
Definition guard_drop (g : RequestCancelGuard) : list RequestCancellation := (guard_cancel g).2.

Definition guard_drop_opt (g : option RequestCancelGuard) : list RequestCancellation :=
  match g with Some g => guard_drop g | None => [] end.

(** ** The stream *)

Record RequestStream : Type := mkStream {
  cancel_guard : option RequestCancelGuard;
  output_timezone : option string;
  stream_request_id : option string;
  request_context : option (string * string * option string);
  metadata_schema : option (Schema * Schema);
  key_column : option KeyColumn;
  key_schema : option (Schema * Schema)
}.

Definition stream_new (guard : option RequestCancelGuard) : RequestStream :=
  mkStream guard None None None None None None.

Definition set_guard (s : RequestStream) (g : option RequestCancelGuard) : RequestStream :=
  mkStream g (output_timezone s) (stream_request_id s) (request_context s) (metadata_schema s)
    (key_column s) (key_schema s).

Definition set_metadata_schema (s : RequestStream) (m : option (Schema * Schema)) : RequestStream :=
  mkStream (cancel_guard s) (output_timezone s) (stream_request_id s) (request_context s) m
    (key_column s) (key_schema s).

Definition set_key_schema (s : RequestStream) (m : option (Schema * Schema)) : RequestStream :=
  mkStream (cancel_guard s) (output_timezone s) (stream_request_id s) (request_context s)
    (metadata_schema s) (key_column s) m.

Definition with_output_timezone (s : RequestStream) (timezone : option string) : RequestStream :=
  mkStream (cancel_guard s) timezone (stream_request_id s) (request_context s) None
    (key_column s) (key_schema s).

Definition with_key_column (s : RequestStream) (key : option KeyColumn) : RequestStream :=
  mkStream (cancel_guard s) (output_timezone s) (stream_request_id s) (request_context s)
    (metadata_schema s) key None.

(** The end of the stream: the guard is disarmed, then dropped. *)
Definition finish (s : RequestStream) : RequestStream * list RequestCancellation :=
  (set_guard s None, guard_drop_opt (disarm <$> cancel_guard s)).

(** A schema equal to the cached source reuses the cached result; two schemas with
    the same address are equal. *)
Definition cached (cache : option (Schema * Schema)) (s : Schema) : option Schema :=
  match cache with
  | Some (source, result) => if decide (source = s) then Some result else None
  | None => None
  end.

Section Stream.
Context {Col : Type} `{ArrowOps Col}.

Definition stream_name_key_column (s : RequestStream) (b : ArrowBatch Col) (key : KeyColumn)
  : option (RequestStream * ArrowBatch Col) :=
  match cached (key_schema s) (b_schema b) with
  | Some renamed => (s,.) <$> with_renamed_schema b renamed
  | None =>
      match renamed_schema (b_schema b) key with
      | None => Some (s, b)
      | Some renamed =>
          (set_key_schema s (Some (b_schema b, renamed)),.) <$> with_renamed_schema b renamed
      end
  end.

Definition map_batch (s : RequestStream) (b : ArrowBatch Col)
  : option (RequestStream * result (ArrowBatch Col) BlpError) :=
  let source_schema := (fun _ => b_schema b) <$> stream_request_id s in
  let cached_schema := source_schema ≫= cached (metadata_schema s) in
  let cache_miss := bool_decide (cached_schema = None) in
  (* the outer option is a panic, the inner result the early return *)
  let zoned : option (result (ArrowBatch Col) BlpError) :=
    match output_timezone s with
    | Some timezone =>
        Some (result_map_err (fun e => Internal ("intraday output timezone: " ++ e))
                (apply_output_timezone_batch b timezone cached_schema))
    | None =>
        match cached_schema with
        | Some schema => Ok <$> result_ok (with_schema b schema)
        | None => Some (Ok b)
        end
    end in
  match zoned with
  | None => None
  | Some (Err e) => Some (s, Err e)
  | Some (Ok b) =>
      let '(s, b) :=
        match cache_miss, stream_request_id s, source_schema with
        | true, Some id, Some source =>
            let b := attach_bloomberg_request_id b id in
            (set_metadata_schema s (Some (source, b_schema b)), b)
        | _, _, _ => (s, b)
        end in
      match key_column s with
      | Some key => (fun '(s, b) => (s, Ok b)) <$> stream_name_key_column s b key
      | None => Some (s, Ok b)
      end
  end.

Definition map_item (s : RequestStream) (item : result (ArrowBatch Col) BlpError)
  : option (RequestStream * result (ArrowBatch Col) BlpError) :=
  match item with
  | Ok b => map_batch s b
  | Err error =>
      match request_context s with
      | Some (service, operation, label) =>
          Some (s, Err (enrich_request_error error service operation label
                          (option_list (stream_request_id s))))
      | None => Some (s, Err error)
      end
  end.

(** ** Operations *)

Definition Item : Type := result (ArrowBatch Col) BlpError.

(** The stream after an operation, what it returned and what it cancelled. *)
Definition Stepped (R : Type) : Type := option (RequestStream * R * list RequestCancellation).

Definition recv (s : RequestStream) (received : option Item) : Stepped (option Item) :=
  match received with
  | Some item => (fun '(s, r) => (s, Some r, [])) <$> map_item s item
  | None => let '(s, c) := finish s in Some (s, None, c)
  end.

Inductive TryRecvError : Type := TryEmpty | TryDisconnected.

Definition try_recv (s : RequestStream) (received : result Item TryRecvError)
  : Stepped (result Item TryRecvError) :=
  match received with
  | Ok item => (fun '(s, r) => (s, Ok r, [])) <$> map_item s item
  | Err TryDisconnected => let '(s, c) := finish s in Some (s, Err TryDisconnected, c)
  | Err error => Some (s, Err error, [])
  end.

(** [None] is [Poll::Pending]. *)
Definition poll_next (s : RequestStream) (received : option (option Item))
  : Stepped (option (option Item)) :=
  match received with
  | Some (Some item) => (fun '(s, r) => (s, Some (Some r), [])) <$> map_item s item
  | Some None => let '(s, c) := finish s in Some (s, Some None, c)
  | None => Some (s, None, [])
  end.

Definition close (s : RequestStream) : RequestStream * list RequestCancellation :=
  match cancel_guard s with
  | Some guard =>
      let '(guard, c) := guard_cancel guard in (set_guard s None, c ++ guard_drop guard)%list
  | None => (set_guard s None, [])
  end.

Definition stream_drop (s : RequestStream) : list RequestCancellation :=
  guard_drop_opt (cancel_guard s).
End Stream.
Arguments Item : clear implicits.

(** ** A consumer of a stream *)

Inductive StreamOp (Col : Type) : Type :=
| SRecv (received : option (Item Col))
| STryRecv (received : result (Item Col) TryRecvError)
| SPoll (received : option (option (Item Col)))
| SClose
| SDrop.
Arguments SRecv {Col}. Arguments STryRecv {Col}. Arguments SPoll {Col}.
Arguments SClose {Col}. Arguments SDrop {Col}.

Section Runs.
Context {Col : Type} `{ArrowOps Col}.

(** What a consumer holds: the stream until it is dropped, the items it was given
    and the cancellations sent so far. *)
Record Consumer : Type := mkConsumer {
  held : option RequestStream;
  given : list (Item Col);
  cancelled : list RequestCancellation
}.

Definition consumer_step (k : Consumer) (op : StreamOp Col) : option Consumer :=
  let after {R} (items : R -> list (Item Col)) (r : Stepped R) : option Consumer :=
    (fun '(s, x, c) => mkConsumer (Some s) (given k ++ items x)%list (cancelled k ++ c)%list) <$> r in
  match held k with
  | None => Some k
  | Some s =>
      match op with
      | SRecv a => after option_list (recv s a)
      | STryRecv a =>
          after (fun r => match r with Ok i => [i] | Err _ => [] end) (try_recv s a)
      | SPoll a =>
          after (fun r => match r with Some (Some i) => [i] | _ => [] end) (poll_next s a)
      | SClose => let '(s, c) := close s in
                  Some (mkConsumer (Some s) (given k) (cancelled k ++ c)%list)
      | SDrop => Some (mkConsumer None (given k) (cancelled k ++ stream_drop s)%list)
      end
  end.

Fixpoint consume (ops : list (StreamOp Col)) (k : Consumer) : option Consumer :=
  match ops with
  | [] => Some k
  | op :: ops => consumer_step k op ≫= consume ops
  end.

(** ** Specification *)

(** An item as it would be mapped with no cache at all. *)
Definition map_reference (s : RequestStream) (item : Item Col) : option (Item Col) :=
  match item with
  | Ok b =>
      match match output_timezone s with
            | Some z => apply_output_timezone_batch b z None
            | None => Ok b
            end with
      | Err e => Some (Err (Internal ("intraday output timezone: " ++ e)))
      | Ok b =>
          let b := match stream_request_id s with
                   | Some id => attach_bloomberg_request_id b id
                   | None => b
                   end in
          match key_column s with Some key => Ok <$> name_key_column b key | None => Some (Ok b) end
      end
  | Err e =>
      Some (Err match request_context s with
                | Some (service, operation, label) =>
                    enrich_request_error e service operation label (option_list (stream_request_id s))
                | None => e
                end)
  end.

(** The items the receiver hands out before the stream is dropped. *)
Definition op_items (op : StreamOp Col) : list (Item Col) :=
  match op with
  | SRecv (Some i) | STryRecv (Ok i) | SPoll (Some (Some i)) => [i]
  | _ => []
  end.

Fixpoint received (ops : list (StreamOp Col)) : list (Item Col) :=
  match ops with
  | [] => []
  | SDrop :: _ => []
  | op :: ops => (op_items op ++ received ops)%list
  end.

(** How the ownership of the request ended first: the response was complete, or the
    consumer closed or dropped the stream before. *)
Inductive Ending : Type := Completed | GivenUp.

Definition op_ending (op : StreamOp Col) : option Ending :=
  match op with
  | SRecv None | STryRecv (Err TryDisconnected) | SPoll (Some None) => Some Completed
  | SClose | SDrop => Some GivenUp
  | _ => None
  end.

Fixpoint first_ending (ops : list (StreamOp Col)) : option Ending :=
  match ops with
  | [] => None
  | op :: ops => match op_ending op with Some e => Some e | None => first_ending ops end
  end.

Definition cancellations_of (s : RequestStream) (e : option Ending) : list RequestCancellation :=
  match e with Some GivenUp => guard_drop_opt (cancel_guard s) | _ => [] end.

(** ** Lemmas *)

(** Mapping an item leaves the guard and the settings alone. *)
Definition same_settings (s s' : RequestStream) : Prop :=
  cancel_guard s' = cancel_guard s /\ output_timezone s' = output_timezone s
  /\ stream_request_id s' = stream_request_id s /\ request_context s' = request_context s
  /\ key_column s' = key_column s.

Lemma map_item_settings s i s' r : map_item s i = Some (s', r) -> same_settings s s'.
Proof.
  unfold map_item, map_batch, stream_name_key_column, same_settings. intros Hm.
  repeat (case_match || simplify_option_eq); repeat split; done.
Qed.

Lemma finish_silent s : finish s = (set_guard s None, []).
Proof. unfold finish. by destruct (cancel_guard s). Qed.

Lemma close_cancels s : close s = (set_guard s None, guard_drop_opt (cancel_guard s)).
Proof. unfold close. destruct (cancel_guard s) as [g|]; [|done]. simpl. by rewrite app_nil_r. Qed.

(** A step maps the item it received, or ends the ownership of the request. *)
Lemma consumer_step_cases k op s :
  held k = Some s ->
  consumer_step k op =
  match op_items op with
  | i :: _ => (fun '(s', r) => mkConsumer (Some s') (given k ++ [r])%list (cancelled k)) <$> map_item s i
  | [] =>
      match op_ending op with
      | Some e => Some (mkConsumer (match op with SDrop => None | _ => Some (set_guard s None) end)
                          (given k) (cancelled k ++ cancellations_of s (Some e))%list)
      | None => Some k
      end
  end.
Proof.
  destruct k as [h g c]. unfold consumer_step, stream_drop. simpl. intros ->.
  destruct op as [[i|]|[i|[]]|[[i|]|]| |]; simpl;
    rewrite ?close_cancels, ?app_nil_r; try done;
    try (by destruct (cancel_guard s); simpl; rewrite ?app_nil_r).
  all: destruct (map_item s i) as [[? ?]|]; simpl; [by rewrite app_nil_r|done].
Qed.

Lemma consume_dropped ops k : held k = None -> consume ops k = Some k.
Proof.
  intros Hk. induction ops as [|op ops IH]; simpl; [done|].
  unfold consumer_step. by rewrite Hk.
Qed.

(** Once the ownership has ended nothing is cancelled any more. *)
Lemma consume_ended ops k k' :
  (forall s, held k = Some s -> cancel_guard s = None) ->
  consume ops k = Some k' -> cancelled k' = cancelled k.
Proof.
  revert k. induction ops as [|op ops IH]; intros k Hg Hc; [by simplify_eq/=|].
  destruct (held k) as [s|] eqn:Hk.
  2:{ rewrite (consume_dropped _ k Hk) in Hc. by simplify_eq. }
  simpl in Hc.
  specialize (Hg s eq_refl). rewrite (consumer_step_cases k op s Hk) in Hc.
  apply bind_Some in Hc as (k1 & H1 & Hc).
  assert (cancelled k1 = cancelled k /\ forall s1, held k1 = Some s1 -> cancel_guard s1 = None) as [<- Hg1];
    [|by apply IH].
  destruct (op_items op) as [|i ?]; [|apply fmap_Some in H1 as ([s1 r] & Hm & ->)].
  - destruct (op_ending op) as [e|]; simplify_eq; [|naive_solver congruence].
    unfold cancellations_of. simpl. rewrite Hg. destruct e; simpl; rewrite app_nil_r;
      (split; [done|]); intros s1 Hs1; destruct op; by simplify_eq.
  - apply map_item_settings in Hm as [Hm _]. simpl. split; [done|]. intros. simplify_eq. congruence.
Qed.

Lemma consume_cancelled ops k k' s :
  held k = Some s -> consume ops k = Some k' ->
  cancelled k' = (cancelled k ++ cancellations_of s (first_ending ops))%list.
Proof.
  revert k s. induction ops as [|op ops IH]; intros k s Hk Hc; simpl in Hc.
  { simplify_eq. unfold cancellations_of. simpl. by rewrite app_nil_r. }
  rewrite (consumer_step_cases k op s Hk) in Hc. apply bind_Some in Hc as (k1 & H1 & Hc).
  destruct (op_items op) as [|i ?] eqn:Hi; [|apply fmap_Some in H1 as ([s1 r] & Hm & ->)]; simpl.
  - destruct (op_ending op) as [e|] eqn:He; simplify_eq; [|by eapply IH].
    apply consume_ended in Hc; [done|]. intros s1 Hs1. destruct op; by simplify_eq/=.
  - apply map_item_settings in Hm as [Hm _].
    assert (op_ending op = None) as -> by (destruct op as [[]|[|[]]|[[]|]| |]; by simplify_eq/=).
    apply (IH _ s1) in Hc; [|done]. rewrite Hc. unfold cancellations_of. by rewrite Hm.
Qed.
End Runs.

(** ** The schema caches *)

Section Caches.
Context {Col : Type} `{HL : ArrowLaws Col}.

Definition final_schema (s : RequestStream) (id : string) (source : Schema) : Schema :=
  schema_with_id id
    match output_timezone s with Some z => zone_schema z source | None => source end.

Record caches_ok (s : RequestStream) : Prop := mkCachesOk {
  metadata_cache source att :
    metadata_schema s = Some (source, att) ->
    exists id, stream_request_id s = Some id /\ att = final_schema s id source;
  key_cache source ren :
    key_schema s = Some (source, ren) ->
    exists key, key_column s = Some key /\ renamed_schema source key = Some ren
}.

(** A batch of the engine: its columns fit its schema, and it records no identifier
    but the one of this request. *)
Definition item_ok (s : RequestStream) (i : Item Col) : Prop :=
  match i with
  | Ok b => batch_ok b /\ forall id, stream_request_id s = Some id -> id_compatible id (b_schema b)
  | Err _ => True
  end.

Lemma same_settings_refl s : same_settings s s.
Proof. by repeat split. Qed.

Lemma same_settings_trans s1 s2 s3 :
  same_settings s1 s2 -> same_settings s2 s3 -> same_settings s1 s3.
Proof. unfold same_settings. intuition congruence. Qed.

Lemma map_reference_settings s s' (i : Item Col) :
  output_timezone s' = output_timezone s -> stream_request_id s' = stream_request_id s ->
  request_context s' = request_context s -> key_column s' = key_column s ->
  map_reference s' i = map_reference s i.
Proof. unfold map_reference. by intros -> -> -> ->. Qed.

Lemma attach_ok (b : ArrowBatch Col) id : batch_ok b -> batch_ok (attach_bloomberg_request_id b id).
Proof. done. Qed.

(** Naming the key column through the cache is naming it. *)
Lemma stream_key_reference s (b : ArrowBatch Col) key :
  caches_ok s -> key_column s = Some key -> batch_ok b ->
  exists s' b', stream_name_key_column s b key = Some (s', b')
    /\ name_key_column b key = Some b' /\ caches_ok s' /\ same_settings s s'.
Proof.
  intros Hs Hkey Hb. unfold stream_name_key_column, name_key_column.
  destruct (cached (key_schema s) (b_schema b)) as [ren|] eqn:Hc.
  - unfold cached in Hc. destruct (key_schema s) as [[src ren']|] eqn:Hk; [|done].
    case_decide; [|done]. simplify_eq. destruct (key_cache s Hs _ _ Hk) as (key' & ? & Hr).
    simplify_eq. rewrite Hr, (renamed_fits b key ren Hb Hr). simpl.
    eauto 10 using same_settings_refl.
  - destruct (renamed_schema (b_schema b) key) as [ren|] eqn:Hr.
    + rewrite (renamed_fits b key ren Hb Hr). simpl. do 2 eexists. split; [done|].
      split; [done|]. split; [|by repeat split]. destruct Hs as [Hm _]. split; simpl; [exact Hm|].
      intros src ren' [= <- <-]. eauto.
    + eauto 10 using same_settings_refl.
Qed.

(** The batch before its key column is named: what the cache gives is what the time
    zone and the identifier give, and the cache stays right. *)
Lemma zoned_reference s (b : ArrowBatch Col) id :
  stream_request_id s = Some id -> batch_ok b -> id_compatible id (b_schema b) ->
  exists b0, match output_timezone s with
             | Some z => apply_output_timezone_batch b z None
             | None => Ok b
             end = Ok b0
    /\ batch_ok b0 /\ b_schema (attach_bloomberg_request_id b0 id) = final_schema s id (b_schema b)
    /\ (forall z, output_timezone s = Some z ->
        apply_output_timezone_batch b z (Some (final_schema s id (b_schema b)))
        = Ok (attach_bloomberg_request_id b0 id))
    /\ (output_timezone s = None ->
        with_schema b (final_schema s id (b_schema b)) = Ok (attach_bloomberg_request_id b0 id)).
Proof.
  intros Hid Hb Hc. unfold final_schema. destruct (output_timezone s) as [z|].
  - destruct (apply_timezone_cached b z id Hb Hc) as (b0 & H0 & Hs & Hb0 & H1).
    exists b0. simpl. rewrite Hs. repeat split; try done. by intros ? [= <-].
  - exists b. repeat split; try done.
    intros _. by rewrite with_schema_ok; [|apply schema_with_id_contains].
Qed.

Lemma id_compatible_exists sch : exists id, id_compatible id sch.
Proof.
  unfold id_compatible. destruct (s_metadata sch !! METADATA_KEY_BLOOMBERG_REQUEST_ID) as [i|].
  - exists i. by intros ? [= ->].
  - by exists "".
Qed.

(** The last stage of [map_batch] and of the reference agree. *)
Lemma key_stage s (b : ArrowBatch Col) :
  caches_ok s -> batch_ok b ->
  exists s' r,
    match key_column s with
    | Some key => (fun '(s, b) => (s, Ok b)) <$> stream_name_key_column s b key
    | None => Some (s, Ok b)
    end = Some (s', r : Item Col)
    /\ match key_column s with Some key => Ok <$> name_key_column b key | None => Some (Ok b) end = Some r
    /\ caches_ok s' /\ same_settings s s'.
Proof.
  intros Hs Hb. destruct (key_column s) as [key|] eqn:Hkey; [|eauto 10 using same_settings_refl].
  destruct (stream_key_reference s b key Hs Hkey Hb) as (s' & b' & -> & -> & Hs' & Hset).
  simpl. eauto 10.
Qed.

(** Mapping a batch through the caches is mapping it without them. *)
Lemma map_batch_reference s (b : ArrowBatch Col) :
  caches_ok s -> item_ok s (Ok b) ->
  exists s' r, map_batch s b = Some (s', r) /\ map_reference s (Ok b) = Some r
    /\ caches_ok s' /\ same_settings s s'.
Proof.
  intros Hs [Hb Hid]. unfold map_batch, map_reference.
  destruct (stream_request_id s) as [id|] eqn:Hi; simpl.
  - destruct (zoned_reference s b id Hi Hb (Hid _ eq_refl)) as (b0 & H0 & Hb0 & Hsch & Hz & Hn).
    rewrite H0. destruct (cached (metadata_schema s) (b_schema b)) as [att|] eqn:Hc.
    + unfold cached in Hc. destruct (metadata_schema s) as [[src att']|] eqn:Hm; [|done].
      case_decide; [|done]. simplify_eq.
      destruct (metadata_cache s Hs _ _ Hm) as (id' & ? & ->). simplify_eq.
      destruct (output_timezone s) as [z|]; [rewrite (Hz z eq_refl)|rewrite (Hn eq_refl)]; simpl;
        by apply key_stage.
    + assert (caches_ok (set_metadata_schema s
          (Some (b_schema b, b_schema (attach_bloomberg_request_id b0 id))))) as Hs1.
      { destruct Hs as [_ Hk]. split; [|exact Hk]. intros src att [= <- <-]. by exists id. }
      destruct (output_timezone s) as [z|]; [rewrite H0|simplify_eq]; simpl;
        by apply (key_stage (set_metadata_schema s _)).
  - destruct (id_compatible_exists (b_schema b)) as [id Hc].
    destruct (output_timezone s) as [z|]; simpl; [|by apply key_stage].
    destruct (apply_timezone_cached b z id Hb Hc) as (b0 & -> & _ & Hb0 & _). simpl.
    by apply key_stage.
Qed.

Lemma map_item_reference s (i : Item Col) :
  caches_ok s -> item_ok s i ->
  exists s' r, map_item s i = Some (s', r) /\ map_reference s i = Some r
    /\ caches_ok s' /\ same_settings s s'.
Proof.
  intros Hs Hi. destruct i as [b|e]; [by apply map_batch_reference|]. simpl.
  destruct (request_context s) as [[[]]|]; eauto 10 using same_settings_refl.
Qed.

(** Settings that decide how items are mapped; the guard is not one of them. *)
Definition same_mapping (s s' : RequestStream) : Prop :=
  output_timezone s' = output_timezone s /\ stream_request_id s' = stream_request_id s
  /\ request_context s' = request_context s /\ key_column s' = key_column s.

Lemma same_settings_mapping s0 s s' :
  same_mapping s0 s -> same_settings s s' -> same_mapping s0 s'.
Proof. unfold same_mapping, same_settings. intuition congruence. Qed.

Lemma item_ok_mapping s s' (i : Item Col) : same_mapping s s' -> item_ok s i -> item_ok s' i.
Proof. intros (_ & Hid & _). destruct i; [|done]. simpl. by rewrite Hid. Qed.

Lemma received_cons op ops :
  op <> SDrop -> received (op :: ops) = (op_items op ++ received ops : list (Item Col))%list.
Proof. by destruct op. Qed.

Lemma consume_reference s0 ops k s :
  held k = Some s -> caches_ok s -> same_mapping s0 s -> Forall (item_ok s0) (received ops) ->
  exists k' outs, consume ops k = Some k' /\ mapM (map_reference s0) (received ops) = Some outs
    /\ given k' = (given k ++ outs)%list.
Proof.
  revert k s. induction ops as [|op ops IH]; intros k s Hk Hs Hm Hok.
  { exists k, []. by rewrite app_nil_r. }
  cbn [consume]. rewrite (consumer_step_cases k op s Hk).
  assert (op = SDrop \/ op <> SDrop) as [->|Hop] by (destruct op; auto).
  { simpl. rewrite consume_dropped by done. do 2 eexists. split; [done|]. split; [done|].
    simpl. by rewrite app_nil_r. }
  rewrite received_cons in Hok |- * by done. destruct (op_items op) as [|i l] eqn:Hi.
  - assert (forall s', match op with SDrop => None | _ => Some s' end = Some (s' : RequestStream))
      as Hh by (by destruct op).
    rewrite Hh. simpl. destruct (op_ending op) as [e|]; simpl; [|by eapply IH].
    apply (IH (mkConsumer (Some (set_guard s None)) _ _) (set_guard s None)); [done| |done..].
    by destruct Hs.
  - assert (l = []) as -> by (destruct op as [[]|[|[]]|[[]|]| |]; by simplify_eq/=).
    simpl in Hok. apply Forall_cons in Hok as [Hi0 Hok].
    destruct (map_item_reference s i Hs (item_ok_mapping s0 s i Hm Hi0))
      as (s' & r & -> & Hr & Hs' & Hset). simpl.
    destruct (IH (mkConsumer (Some s') (given k ++ [r]) (cancelled k)) s') as (k' & outs & Hc & Ho & Hg);
      [done..|by eapply same_settings_mapping|done|].
    exists k', (r :: outs). split; [exact Hc|]. destruct Hm as (? & ? & ? & ?).
    rewrite (map_reference_settings s0 s i) in Hr by done. rewrite Hr. simpl. rewrite Ho. simpl.
    split; [done|]. rewrite Hg. simpl. by rewrite <-app_assoc.
Qed.
End Caches.

(** ** Properties *)

(** C34: the schema caches of a stream are invisible.  However a consumer mixes its
    calls, when every received batch fits its schema and records no foreign request
    identifier, no call panics and the consumer is given, item by item, exactly what
    mapping each item on its own gives: time zone, request identifier and key column
    for a batch, request context for an error. *)
Theorem stream_maps_exactly {Col : Type} `{HL : ArrowLaws Col} (g : option RequestCancelGuard)
  (tz id : option string) (ctx : option (string * string * option string))
  (key : option KeyColumn) (ops : list (StreamOp Col)) :
  let s := mkStream g tz id ctx None key None in
  Forall (item_ok s) (received ops) ->
  exists k outs, consume ops (mkConsumer (Some s) [] []) = Some k
    /\ mapM (map_reference s) (received ops) = Some outs /\ given k = outs.
Proof.
  intros s Hok. apply (consume_reference s ops (mkConsumer (Some s) [] []) s); [done| | |done].
  - by split.
  - by repeat split.
Qed.

(** A streaming request is cancelled at most once, and exactly when its owner
    gives it up: closing or dropping the stream before the end of the response was
    seen cancels the request, after that nothing does, and no other call cancels. *)
Theorem stream_cancels_once {Col : Type} `{ArrowOps Col} (s : RequestStream)
  (ops : list (StreamOp Col)) (k : Consumer)
  (Hrun : consume ops (mkConsumer (Some s) [] []) = Some k) :
  (forall w t, cancel_guard s = Some (guard_new w t) ->
   cancelled k = match first_ending ops with
                 | Some GivenUp => [mkCancellation w t]
                 | _ => []
                 end)
  /\ (cancel_guard s = None -> cancelled k = []).
Proof.
  apply (consume_cancelled ops _ k s) in Hrun; [|done]. simpl in Hrun. rewrite Hrun.
  unfold cancellations_of. split; [intros w t ->|intros ->]; by destruct (first_ending ops) as [[]|].
Qed.

(** ** Witnesses *)

Definition bar_schema : Schema :=
  mkSchema [mkField "ticker" (OtherType "Utf8") false ∅;
            mkField "time" (TimestampMicrosecond (Some "UTC")) true ∅] {[ "source" := "sdk" ]}.
Definition bar_batch : ArrowBatch SimpleCol :=
  mkArrowBatch bar_schema
    [mkCol (OtherType "Utf8") 2 0; mkCol (TimestampMicrosecond (Some "UTC")) 2 1] 2.
Definition bar_ticket : RequestTicket := mkTicket 4 7.
Definition bar_stream : RequestStream :=
  mkStream (Some (guard_new 1 bar_ticket)) (Some "Asia/Tokyo") (Some "sdk-1")
    (Some ("//blp/refdata", "IntradayBarRequest", Some "mine")) None (Some KcSecurity) None.
Definition bar_ops : list (StreamOp SimpleCol) :=
  [SPoll None; SRecv (Some (Ok bar_batch)); STryRecv (Ok (Ok bar_batch));
   SRecv (Some (Err (Internal "session lost"))); SClose; STryRecv (Err TryDisconnected); SDrop].

Lemma bar_items_ok : Forall (item_ok bar_stream) (received bar_ops).
Proof.
  assert (item_ok bar_stream (Ok bar_batch)) as Hb; [|by repeat constructor].
  split; [apply (bool_decide_unpack _); by vm_compute|].
  intros id _ i Hi. by vm_compute in Hi.
Qed.

Lemma stream_maps_exactly_witness :
  exists k outs, consume bar_ops (mkConsumer (Some bar_stream) [] []) = Some k
    /\ mapM (map_reference bar_stream) (received bar_ops) = Some outs /\ given k = outs.
Proof.
  exact (stream_maps_exactly (Some (guard_new 1 bar_ticket)) (Some "Asia/Tokyo") (Some "sdk-1")
           (Some ("//blp/refdata", "IntradayBarRequest", Some "mine")) (Some KcSecurity)
           bar_ops bar_items_ok).
Defined.

Example bar_given :
  (fun k => (length (given k), cancelled k)) <$> consume bar_ops (mkConsumer (Some bar_stream) [] [])
  = Some (3, [mkCancellation 1 bar_ticket]).
Proof. by vm_compute. Qed.

Lemma stream_cancels_once_witness :
  exists k, consume bar_ops (mkConsumer (Some bar_stream) [] []) = Some k
    /\ cancelled k = [mkCancellation 1 bar_ticket].
Proof.
  destruct (consume bar_ops (mkConsumer (Some bar_stream) [] [])) as [k|] eqn:Hk;
    [|by vm_compute in Hk].
  exists k. split; [reflexivity|].
  exact (proj1 (stream_cancels_once bar_stream bar_ops k Hk) 1 bar_ticket eq_refl).
Defined.
