(* ===== verification/Backoff.v ===== *)
(** * Retry delays

    [RetryPolicy] of [engine/mod.rs] and [retry_delay] of [engine/request_pool.rs].
    A binary64 number is NaN, an infinity or a dyadic rational; [-0.0] and [0.0] are
    one value, which no operation here tells apart.  [powf] belongs to the platform's
    mathematics library, whose precision Rust leaves open: it is an argument. *)

From Stdlib Require Import ZArith Lia.
From S2P Require Import Prelude.
Local Open Scope Z_scope.

(** ** binary64 *)

(** [FFin m e] is [m * 2 ^ e]. *)
Inductive f64 : Type :=
| FNaN
| FInf (negative : bool)
| FFin (m e : Z).

(** Round to nearest, ties to even, to 53 bits and exponents from -1074 to 971. *)
Definition f64_round_to (m e : Z) : f64 :=
  let a := Z.abs m in
  if a =? 0 then FFin 0 0
  else
    let e' := Z.max (e + (Z.log2 a + 1) - 53) (-1074) in
    let '(q, e') :=
      if e' <=? e then (a, e)
      else
        let s := e' - e in
        let q := a / 2 ^ s in
        let r := a mod 2 ^ s in
        let half := 2 ^ (s - 1) in
        ((if (half <? r) || ((half =? r) && Z.odd q) then q + 1 else q), e') in
    if (0 <? q) && (1024 <=? Z.log2 q + e') then FInf (m <? 0) else FFin (Z.sgn m * q) e'.

(** [n as f64] *)
Definition f64_of_u64 (n : Z) : f64 := f64_round_to n 0.

Definition f64_mul (x y : f64) : f64 :=
  match x, y with
  | FNaN, _ | _, FNaN => FNaN
  | FInf s, FInf t => FInf (xorb s t)
  | FInf s, FFin m _ | FFin m _, FInf s => if m =? 0 then FNaN else FInf (xorb s (m <? 0))
  | FFin m e, FFin m' e' => f64_round_to (m * m') (e + e')
  end.

Definition f64_finite (x : f64) : bool := match x with FFin _ _ => true | _ => false end.

(** [<]; numbers are compared by value. *)
Definition f64_ltb (x y : f64) : bool :=
  match x, y with
  | FNaN, _ | _, FNaN => false
  | FInf true, FInf false => true
  | FInf _, FInf _ => false
  | FInf s, FFin _ _ => s
  | FFin _ _, FInf s => negb s
  | FFin m e, FFin m' e' =>
      let low := Z.min e e' in m * 2 ^ (e - low) <? m' * 2 ^ (e' - low)
  end.

(** [f64::min], [f64::max]: a NaN argument is ignored. *)
Definition f64_min (x y : f64) : f64 :=
  match x, y with FNaN, y => y | x, FNaN => x | x, y => if f64_ltb y x then y else x end.
Definition f64_max (x y : f64) : f64 :=
  match x, y with FNaN, y => y | x, FNaN => x | x, y => if f64_ltb x y then y else x end.

(** [f64::round]: to the nearest integer, halves away from zero. *)
Definition f64_round (x : f64) : f64 :=
  match x with
  | FFin m e =>
      if 0 <=? e then x
      else FFin (Z.sgn m * ((2 * Z.abs m + 2 ^ (- e)) / 2 ^ (1 - e))) 0
  | x => x
  end.

(** [x as u64]: truncation, saturating; NaN is zero. *)
Definition f64_as_u64 (x : f64) : Z :=
  match x with
  | FNaN => 0
  | FInf negative => if negative then 0 else u64_max
  | FFin m e =>
      let t := if 0 <=? e then m * 2 ^ e else Z.quot m (2 ^ (- e)) in
      Z.max 0 (Z.min t u64_max)
  end.

(** ** The policy *)

Record RetryPolicy : Type := mkRetryPolicy {
  max_retries : Z;
  initial_delay_ms : Z;
  backoff_factor : f64;
  max_delay_ms : Z
}.

Definition retry_policy_default : RetryPolicy := mkRetryPolicy 0 1000 (FFin 2 0) 30000.

Section Delay.
Variable powf : f64 -> f64 -> f64.

(** The product before it is bounded. *)
Definition backoff (policy : RetryPolicy) (attempt : nat) : f64 :=
  let exponent := f64_of_u64 (Z.of_nat attempt - 1) in
  f64_mul (f64_of_u64 (initial_delay_ms policy)) (powf (backoff_factor policy) exponent).

Definition retry_delay (policy : RetryPolicy) (attempt : nat) : Z :=
  match attempt with
  | O => 0
  | _ =>
      let delay := backoff policy attempt in
      let bounded :=
        if f64_finite delay then f64_min delay (f64_of_u64 (max_delay_ms policy))
        else f64_of_u64 (max_delay_ms policy) in
      f64_as_u64 (f64_round (f64_max bounded (FFin 0 0)))
  end.
End Delay.

(** ** Lemmas *)

(** The nearest millisecond to [m * 2 ^ e], halves up. *)
Definition nearest_ms (m e : Z) : Z :=
  if 0 <=? e then m * 2 ^ e else (2 * m + 2 ^ (- e)) / (2 * 2 ^ (- e)).

(** Integers below [2 ^ 53] are binary64 numbers. *)
Lemma f64_of_u64_exact n : 0 <= n < 2 ^ 53 -> f64_of_u64 n = FFin n 0.
Proof.
  intros Hn. unfold f64_of_u64, f64_round_to. rewrite Z.abs_eq by lia.
  destruct (n =? 0) eqn:H0; [apply Z.eqb_eq in H0; by subst|]. apply Z.eqb_neq in H0.
  assert (Z.log2 n < 53) by (apply Z.log2_lt_pow2; lia).
  assert (0 <= Z.log2 n) by apply Z.log2_nonneg.
  rewrite (proj2 (Z.leb_le _ _)) by lia. rewrite Z.add_0_r.
  rewrite (proj2 (Z.leb_gt 1024 _)) by lia. rewrite andb_false_r, Z.sgn_pos by lia.
  by rewrite Z.mul_1_l.
Qed.

Lemma f64_ltb_int m e n :
  f64_ltb (FFin m e) (FFin n 0)
  = if 0 <=? e then m * 2 ^ e <? n else m <? n * 2 ^ (- e).
Proof.
  simpl. destruct (0 <=? e) eqn:He.
  - apply Z.leb_le in He. rewrite Z.min_r, Z.sub_0_r by lia. simpl. by rewrite Z.mul_1_r.
  - apply Z.leb_gt in He. rewrite Z.min_l by lia. rewrite Z.sub_diag, Z.mul_1_r. done.
Qed.

Lemma f64_int_ltb m e n :
  f64_ltb (FFin n 0) (FFin m e)
  = if 0 <=? e then n <? m * 2 ^ e else n * 2 ^ (- e) <? m.
Proof.
  simpl. destruct (0 <=? e) eqn:He.
  - apply Z.leb_le in He. rewrite Z.min_l, !Z.sub_0_r by lia. rewrite Z.pow_0_r. by rewrite Z.mul_1_r.
  - apply Z.leb_gt in He. rewrite Z.min_r by lia. by rewrite Z.sub_diag, Z.mul_1_r.
Qed.

(** Rounding and casting a number between zero and the bound. *)
Lemma round_as_u64 m e :
  0 <= m -> nearest_ms m e <= u64_max -> f64_as_u64 (f64_round (FFin m e)) = nearest_ms m e.
Proof.
  unfold f64_round, nearest_ms. intros Hm. destruct (0 <=? e) eqn:He; intros Hb; simpl; rewrite ?He.
  - apply Z.leb_le in He. assert (0 < 2 ^ e) by (apply Z.pow_pos_nonneg; lia). nia.
  - apply Z.leb_gt in He. assert (0 < 2 ^ (- e)) by (apply Z.pow_pos_nonneg; lia).
    replace (2 ^ (1 - e)) with (2 * 2 ^ (- e)) by (rewrite <-Z.pow_succ_r by lia; f_equal; lia).
    rewrite Z.abs_eq by done. rewrite Z.mul_1_r.
    assert (0 <= (2 * m + 2 ^ (- e)) / (2 * 2 ^ (- e))) by (apply Z.div_pos; lia).
    destruct (decide (m = 0)) as [->|].
    + rewrite Z.mul_0_r, Z.add_0_l. rewrite Z.div_small by lia. done.
    + rewrite Z.sgn_pos by lia. lia.
Qed.

Lemma f64_ltb_zero m e : f64_ltb (FFin m e) (FFin 0 0) = (m <? 0).
Proof.
  rewrite f64_ltb_int. destruct (0 <=? e) eqn:He; [|by rewrite Z.mul_0_l].
  apply Z.leb_le in He. assert (0 < 2 ^ e) by (apply Z.pow_pos_nonneg; lia).
  apply eq_true_iff_eq. rewrite !Z.ltb_lt. nia.
Qed.

Lemma nearest_neg m e : m < 0 -> nearest_ms m e <= 0.
Proof.
  intros Hm. unfold nearest_ms. destruct (0 <=? e) eqn:He.
  - apply Z.leb_le in He. assert (0 < 2 ^ e) by (apply Z.pow_pos_nonneg; lia). nia.
  - apply Z.leb_gt in He. assert (0 < 2 ^ (- e)) by (apply Z.pow_pos_nonneg; lia).
    apply Z.lt_succ_r, Z.div_lt_upper_bound; lia.
Qed.

(** Rounding to an integer keeps the order with integers. *)
Lemma nearest_order n m e :
  if f64_ltb (FFin n 0) (FFin m e) then n <= nearest_ms m e else nearest_ms m e <= n.
Proof.
  rewrite f64_int_ltb. unfold nearest_ms. destruct (0 <=? e) eqn:He.
  - destruct (n <? m * 2 ^ e) eqn:Hlt; [apply Z.ltb_lt in Hlt|apply Z.ltb_ge in Hlt]; lia.
  - apply Z.leb_gt in He. assert (0 < 2 ^ (- e)) by (apply Z.pow_pos_nonneg; lia).
    destruct (_ <? m) eqn:Hlt; [apply Z.ltb_lt in Hlt|apply Z.ltb_ge in Hlt].
    + apply Z.div_le_lower_bound; lia.
    + apply Z.lt_succ_r, Z.div_lt_upper_bound; lia.
Qed.

Lemma clamp_low m e :
  nearest_ms m e <= u64_max ->
  f64_as_u64 (f64_round (f64_max (FFin m e) (FFin 0 0))) = Z.max 0 (nearest_ms m e).
Proof.
  intros Hb. cbn [f64_max]. rewrite f64_ltb_zero. destruct (m <? 0) eqn:Hm.
  - apply Z.ltb_lt in Hm. pose proof (nearest_neg m e Hm). rewrite Z.max_l by done. done.
  - apply Z.ltb_ge in Hm. rewrite round_as_u64 by done. unfold nearest_ms.
    destruct (0 <=? e) eqn:He; rewrite Z.max_r; try done.
    + apply Z.leb_le in He. assert (0 < 2 ^ e) by (apply Z.pow_pos_nonneg; lia). nia.
    + apply Z.leb_gt in He. assert (0 < 2 ^ (- e)) by (apply Z.pow_pos_nonneg; lia).
      apply Z.div_pos; lia.
Qed.

Section Bounds.
Variable powf : f64 -> f64 -> f64.

(** A finite product is rounded to the nearest millisecond and clamped. *)
Lemma retry_delay_finite policy attempt m e :
  0 <= max_delay_ms policy < 2 ^ 53 -> attempt <> 0%nat ->
  backoff powf policy attempt = FFin m e ->
  retry_delay powf policy attempt = Z.max 0 (Z.min (nearest_ms m e) (max_delay_ms policy)).
Proof.
  intros HM Ha Hd. destruct attempt as [|a]; [done|]. unfold retry_delay. rewrite Hd.
  set (M := max_delay_ms policy) in *. rewrite (f64_of_u64_exact M HM).
  cbn [f64_finite f64_min]. pose proof (nearest_order M m e) as Ho.
  assert (nearest_ms M 0 = M) as HM0 by (unfold nearest_ms; simpl; lia).
  destruct (f64_ltb _ _); (rewrite clamp_low; [rewrite ?HM0|unfold u64_max; rewrite ?HM0]; lia).
Qed.

Lemma retry_delay_not_finite policy attempt :
  0 <= max_delay_ms policy < 2 ^ 53 -> attempt <> 0%nat ->
  f64_finite (backoff powf policy attempt) = false ->
  retry_delay powf policy attempt = max_delay_ms policy.
Proof.
  intros HM Ha Hd. destruct attempt as [|a]; [done|]. unfold retry_delay. rewrite Hd.
  rewrite (f64_of_u64_exact _ HM). rewrite clamp_low; unfold nearest_ms, u64_max; simpl; lia.
Qed.
End Bounds.

(** ** Properties *)

(** The delay before a retry, for every policy whose maximum is below [2 ^ 53]
    milliseconds and whatever the power function of the platform returns.  The first
    attempt is not delayed; a finite product of initial delay and power is rounded to
    the nearest millisecond and clamped between zero and the maximum; a product that
    overflows or is not a number gives the maximum. *)
Theorem retry_delay_bounds (powf : f64 -> f64 -> f64) (policy : RetryPolicy) (attempt : nat)
  (Hmax : 0 <= max_delay_ms policy < 2 ^ 53) :
  retry_delay powf policy 0 = 0
  /\ 0 <= retry_delay powf policy attempt <= max_delay_ms policy
  /\ (attempt <> 0%nat ->
      retry_delay powf policy attempt =
      match backoff powf policy attempt with
      | FFin m e => Z.max 0 (Z.min (nearest_ms m e) (max_delay_ms policy))
      | _ => max_delay_ms policy
      end).
Proof.
  assert (attempt <> 0%nat -> retry_delay powf policy attempt =
      match backoff powf policy attempt with
      | FFin m e => Z.max 0 (Z.min (nearest_ms m e) (max_delay_ms policy))
      | _ => max_delay_ms policy
      end) as Heq.
  { intros Ha. destruct (backoff powf policy attempt) eqn:Hd.
    3: by apply retry_delay_finite.
    all: apply retry_delay_not_finite; [done..|]; by rewrite Hd. }
  split; [done|]. split; [|done].
  destruct attempt; [simpl; lia|]. rewrite Heq by done. destruct (backoff _ _ _); lia.
Qed.

(** ** Witness *)

(** Powers with integer exponents, by multiplication. *)
Fixpoint pow_nat (x : f64) (n : nat) : f64 :=
  match n with O => FFin 1 0 | S n => f64_mul (pow_nat x n) x end.
Definition pow_by_mul (x y : f64) : f64 := pow_nat x (Z.to_nat (f64_as_u64 y)).

Definition quick_policy : RetryPolicy := mkRetryPolicy 4 100 (FFin 5 (-1)) 600.
Definition endless_policy : RetryPolicy := mkRetryPolicy 1 u64_max (FInf false) 750.

Example quick_delays :
  retry_delay pow_by_mul quick_policy <$> [0; 1; 2; 3; 4]%nat = [0; 100; 250; 600; 600].
Proof. by vm_compute. Qed.

Example endless_delay : retry_delay pow_by_mul endless_policy 2 = 750.
Proof. by vm_compute. Qed.

Lemma retry_delay_bounds_witness :
  retry_delay pow_by_mul quick_policy 2
  = match backoff pow_by_mul quick_policy 2 with
    | FFin m e => Z.max 0 (Z.min (nearest_ms m e) 600)
    | _ => 600
    end.
Proof.
  refine (proj2 (proj2 (retry_delay_bounds pow_by_mul quick_policy 2 _)) _);
    [simpl; lia|discriminate].
Defined.
