(* ===== verification/Pool.v ===== *)
(** * Request worker pool

    [RequestWorkerPool] of [engine/request_pool.rs]: round-robin dispatch over the
    workers that are not dead, the retry loop of a request, streaming requests and
    shutdown.  What other tasks do to the pool between two steps of a request, the
    health read from each worker, and what the chosen worker answers are arguments:
    the theorems hold whatever they are.  The workers themselves are [Worker.v]. *)

From Stdlib Require Import Ascii String ZArith Lia.
From stdpp Require Import pretty.
From S2P Require Import Prelude Text Errors Worker Services Plan RecipeError Schema.
From S2P Require Import RequestErrors RequestStream Backoff.
Local Open Scope string_scope.

(** ** State *)

Inductive WorkerHealth : Type := Healthy | Degraded | Dead.

#[export] Instance WorkerHealth_eq_dec : EqDecision WorkerHealth.
Proof. solve_decision. Defined.

(** A stop request sent to a worker of the pool, by its index. *)
Inductive WorkerStop : Type := StopSignal (i : nat) | StopBlocking (i : nat).

Record Pool : Type := mkPool {
  p_size : nat;
  p_next_worker : Z;
  p_shutting_down : bool;
  p_scanner_stopped : bool;
  p_stops : list WorkerStop
}.

(** ** Construction *)

Definition worker_start_error (present : BlpError -> string) (worker internal : string)
  (error : BlpError) : BlpAsyncError :=
  AsyncBlp match error with
           | SessionStart source label =>
               SessionStart source
                 (Some match label with
                       | Some label => worker ++ ": " ++ label
                       | None => worker
                       end)
           | other => Internal (internal ++ ": " ++ present other)
           end.

(** The first failing worker, in index order. *)
Fixpoint first_start_error (present : BlpError -> string) (id : nat)
  (started : list (result unit BlpError)) : option BlpAsyncError :=
  match started with
  | [] => None
  | Ok _ :: started => first_start_error present (S id) started
  | Err error :: _ =>
      Some (worker_start_error present ("request worker " ++ pretty id)
              ("failed to spawn worker " ++ pretty id) error)
  end.

(** [started] are the outcomes of the session starts, in index order; [scanner] is
    the outcome of spawning the timeout scanner. *)
Definition pool_new (present : BlpError -> string) (started : list (result unit BlpError))
  (scanner : result unit string) : result Pool BlpAsyncError :=
  match started with
  | [] => Err (ConfigError "request_pool_size must be at least 1")
  | _ =>
      match first_start_error present 0 started, scanner with
      | Some error, _ => Err error
      | None, Err error =>
          Err (AsyncInternal ("failed to spawn request timeout scanner thread: " ++ error))
      | None, Ok _ => Ok (mkPool (length started) 0 false false [])
      end
  end.

(** ** Dispatch *)

Definition set_next (p : Pool) (n : Z) : Pool :=
  mkPool (p_size p) n (p_shutting_down p) (p_scanner_stopped p) (p_stops p).

Definition worker_at (p : Pool) (start offset : nat) : nat := (start + offset) mod p_size p.

(** [health i] is the health read from worker [i] during the scan.  A pool has a
    worker ([pool_new]): the remainder is defined. *)
Definition next_healthy_worker (health : nat -> WorkerHealth) (p : Pool)
  : Pool * result nat BlpAsyncError :=
  if p_shutting_down p then (p, Err (ConfigError "request worker pool is shut down"))
  else
    let start := Z.to_nat (p_next_worker p mod Z.of_nat (p_size p)) in
    let p := set_next p (u64_wrapping_add (p_next_worker p) 1) in
    match List.find (fun offset => bool_decide (health (worker_at p start offset) <> Dead))
            (seq 0 (p_size p)) with
    | Some offset => (p, Ok (worker_at p start offset))
    | None => (p, Err (AllWorkersDown (p_size p)))
    end.

(** ** Shutdown *)

Definition signal_shutdown (p : Pool) : Pool :=
  if p_shutting_down p then p
  else mkPool (p_size p) (p_next_worker p) true true
         (p_stops p ++ (StopSignal <$> seq 0 (p_size p)))%list.

Definition shutdown_blocking (p : Pool) : Pool :=
  mkPool (p_size p) (p_next_worker p) true true
    (p_stops p ++ (StopBlocking <$> seq 0 (p_size p)))%list.

(** What any task may do to a shared pool; every dispatch, entitlement query or
    schema introspection advances the counter through [next_healthy_worker]. *)
Inductive PoolOp : Type :=
| OpDispatch (health : nat -> WorkerHealth)
| OpSignalShutdown
| OpShutdownBlocking.

Definition pool_exec (p : Pool) (op : PoolOp) : Pool :=
  match op with
  | OpDispatch health => (next_healthy_worker health p).1
  | OpSignalShutdown => signal_shutdown p
  | OpShutdownBlocking => shutdown_blocking p
  end.

Definition pool_run (ops : list PoolOp) (p : Pool) : Pool := fold_left pool_exec ops p.

(** ** Retry decision *)

Definition str_contains (needle s : string) : bool :=
  match String.index 0 needle s with Some _ => true | None => false end.

Definition is_retryable (error : BlpError) : bool :=
  match error with
  | Internal detail =>
      let detail := to_ascii_lowercase detail in
      str_contains "session" detail || str_contains "connection" detail
      || str_contains "transport" detail
  | _ => false
  end.

(** ** Identifiers of a result *)

Definition METADATA_KEY_BLOOMBERG_REQUEST_IDS : string := "xbbg.bloomberg_request_ids".

Section Requests.
Context {Col : Type}.
(** [serde_json::to_string] of a list of strings *)
Variable to_json : list string -> string.
Variable powf : f64 -> f64 -> f64.

(** [BloombergRequestIds::attach_metadata] *)
Definition attach_metadata (ids : list string) (m : gmap string string) : gmap string string :=
  match ids with
  | [] => m
  | _ =>
      let m := delete METADATA_KEY_BLOOMBERG_REQUEST_IDS
                 (delete METADATA_KEY_BLOOMBERG_REQUEST_ID m) in
      match ids with
      | [id] => <[METADATA_KEY_BLOOMBERG_REQUEST_ID := id]> m
      | _ => <[METADATA_KEY_BLOOMBERG_REQUEST_IDS := to_json ids]> m
      end
  end.

(** [ResponseMetadata::with_bloomberg_request_ids(ids).attach(batch)] *)
Definition attach_ids (ids : list string) (b : ArrowBatch Col) : ArrowBatch Col :=
  mkArrowBatch
    (mkSchema (fields (b_schema b)) (attach_metadata (ids_extend [] ids) (s_metadata (b_schema b))))
    (b_columns b) (b_rows b).

Definition attach_attempt_ids (ids : list string) (b : ArrowBatch Col) : ArrowBatch Col :=
  match ids with
  | [] => b
  | [id] => attach_bloomberg_request_id b id
  | _ => attach_ids ids b
  end.

(** ** A request *)

Record RequestSubmission : Type := mkSubmission {
  sub_ticket : option RequestTicket;
  sub_request_id : option string
}.

(** How awaiting the reply ends: an answer, the sender dropped, or the caller drops
    the future that waits. *)
Inductive Reply : Type :=
| Replied (r : result (ArrowBatch Col) BlpError)
| SenderDropped
| Abandoned.

(** The environment of one attempt. *)
Record Attempt : Type := mkAttempt {
  others : list PoolOp;
  env_health : nat -> WorkerHealth;
  submission : nat -> RequestSubmission;
  reply : nat -> Reply
}.

(** [None]: the caller dropped the request. *)
Record Done : Type := mkDone {
  outcome : option (result (ArrowBatch Col) BlpAsyncError);
  pool_after : Pool;
  slept : list Z;
  dispatched : list (nat * nat);
  request_cancelled : list RequestCancellation
}.

(** Time and dispatches so far: the delays slept, the attempts and their workers. *)
Record Log : Type := mkLog { l_slept : list Z; l_dispatched : list (nat * nat) }.

Section Loop.
Variable policy : RetryPolicy.
Variable request : PreparedRequest.
Variable env : nat -> Attempt.

Definition max_attempts : nat := 1 + Z.to_nat (max_retries policy).

Definition enrich_reply (error : BlpError) (ids : list string) : BlpAsyncError :=
  AsyncBlp (enrich_request_error error (service (pr_params request))
              (operation_as_str (pr_operation request)) (request_id (pr_params request)) ids).

Definition enrich_lost (error : BlpAsyncError) (ids : list string) : BlpAsyncError :=
  enrich_async_request_error error (service (pr_params request))
    (effective_operation_name (pr_params request)) (request_id (pr_params request)) ids.

Definition done (o : option (result (ArrowBatch Col) BlpAsyncError)) (p : Pool) (l : Log)
  (c : list RequestCancellation) : Done :=
  mkDone o p (l_slept l) (l_dispatched l) c.

(** [remaining] attempts are left, the next one is [attempt]. *)
Fixpoint request_loop (remaining attempt : nat) (last_error : option BlpAsyncError) (ids : list string)
  (p : Pool) (l : Log) : Done :=
  match remaining with
  | O => done (Some (Err (enrich_lost (default ChannelClosed last_error) ids))) p l []
  | S remaining =>
      let again error ids p l := request_loop remaining (S attempt) (Some error) ids p l in
      let l := if (0 <? attempt)%nat
               then mkLog (l_slept l ++ [retry_delay powf policy attempt])%list (l_dispatched l)
               else l in
      let p := pool_run (others (env attempt)) p in
      let '(p, worker) := next_healthy_worker (env_health (env attempt)) p in
      match worker with
      | Err error => again error ids p l
      | Ok worker =>
          let l := mkLog (l_slept l) (l_dispatched l ++ [(attempt, worker)])%list in
          let sub := submission (env attempt) worker in
          let ids := (ids ++ option_list (sub_request_id sub))%list in
          let guard := guard_new worker <$> sub_ticket sub in
          match reply (env attempt) worker with
          | Abandoned => done None p l (guard_drop_opt guard)
          | r =>
              let c := guard_drop_opt (disarm <$> guard) in
              let more := (attempt + 1 <? max_attempts)%nat in
              match r with
              | Replied (Ok b) => done (Some (Ok (attach_attempt_ids ids b))) p l c
              | Replied (Err error) =>
                  if is_retryable error && more then again (AsyncBlp error) ids p l
                  else done (Some (Err (enrich_reply error ids))) p l c
              | _ =>
                  if more then again ChannelClosed ids p l
                  else done (Some (Err (enrich_lost ChannelClosed ids))) p l c
              end
          end
      end
  end.

Definition pool_request (p : Pool) : Done := request_loop max_attempts 0 None [] p (mkLog [] []).
End Loop.

(** [request_stream]: one attempt; the stream owns the guard. *)
Definition request_stream (request : PreparedRequest) (health : nat -> WorkerHealth)
  (submit : nat -> RequestSubmission) (p : Pool) : Pool * result RequestStream BlpAsyncError :=
  let '(p, worker) := next_healthy_worker health p in
  match worker with
  | Err error => (p, Err error)
  | Ok worker =>
      let sub := submit worker in
      (p, Ok (mkStream (guard_new worker <$> sub_ticket sub) None (sub_request_id sub)
                (Some (service (pr_params request), operation_as_str (pr_operation request),
                       request_id (pr_params request))) None None None))
  end.
End Requests.

(** ** Dispatch *)

Definition alive (health : nat -> WorkerHealth) (w : nat) : Prop := health w <> Dead.

(** Pools of the program: built by [pool_new], with a [usize] counter. *)
Record pool_ok (p : Pool) : Prop := mkPoolOk {
  pool_size_pos : 0 < p_size p;
  pool_counter : (0 <= p_next_worker p < 2 ^ 64)%Z
}.

Lemma pool_new_ok present started scanner p : pool_new present started scanner = Ok p -> pool_ok p.
Proof.
  unfold pool_new. destruct started as [|s started]; [done|].
  destruct (first_start_error _ _ _); [done|]. destruct scanner; [|done].
  intros [= <-]. split; simpl; lia.
Qed.

Lemma next_healthy_worker_ok health p : pool_ok p -> pool_ok (next_healthy_worker health p).1.
Proof.
  intros [Hs Hc]. unfold next_healthy_worker. destruct (p_shutting_down p); [done|].
  destruct (List.find _ _); split; simpl; try done; unfold u64_wrapping_add; by apply wrap_u_bound.
Qed.

Lemma pool_exec_ok p op : pool_ok p -> pool_ok (pool_exec p op).
Proof.
  intros Hp. destruct op; simpl; [by apply next_healthy_worker_ok| |by destruct Hp].
  unfold signal_shutdown. destruct (p_shutting_down p); [done|by destruct Hp].
Qed.

Lemma pool_run_ok ops p : pool_ok p -> pool_ok (pool_run ops p).
Proof. revert p. induction ops; simpl; eauto using pool_exec_ok. Qed.

Definition start_index (p : Pool) : nat := Z.to_nat (p_next_worker p mod Z.of_nat (p_size p)).

Lemma start_index_lt p : pool_ok p -> start_index p < p_size p.
Proof. intros [Hs _]. unfold start_index. pose proof (Z.mod_pos_bound (p_next_worker p) (Z.of_nat (p_size p))). lia. Qed.

Lemma find_seq_from f n k :
  match List.find f (seq k n) with
  | Some i => k <= i < k + n /\ f i = true /\ forall j, k <= j < i -> f j = false
  | None => forall j, k <= j < k + n -> f j = false
  end.
Proof.
  revert k. induction n as [|n IH]; intros k; simpl; [lia|].
  destruct (f k) eqn:Hk; [split; [lia|split; [done|lia]]|]. specialize (IH (S k)).
  assert (forall j, k <= j -> j = k \/ S k <= j) as Hsplit by lia.
  destruct (List.find f (seq (S k) n)) as [i|].
  - destruct IH as (? & ? & IH). split; [lia|]. split; [done|].
    intros j Hj. destruct (Hsplit j) as [->|]; [lia|done|apply IH; lia].
  - intros j Hj. destruct (Hsplit j) as [->|]; [lia|done|apply IH; lia].
Qed.

Lemma find_seq_spec f n :
  match List.find f (seq 0 n) with
  | Some i => i < n /\ f i = true /\ forall j, j < i -> f j = false
  | None => forall j, j < n -> f j = false
  end.
Proof.
  pose proof (find_seq_from f n 0) as H. destruct (List.find _ _).
  - destruct H as (? & ? & H). split; [lia|]. split; [done|]. intros. apply H. lia.
  - intros. apply H. lia.
Qed.

Lemma mod_wrap a s : 0 < s -> a < 2 * s -> a mod s = if decide (a < s) then a else a - s.
Proof.
  intros Hs Ha. case_decide; [by apply Nat.mod_small|].
  replace a with (a - s + 1 * s) at 1 by lia. rewrite Nat.Div0.mod_add. apply Nat.mod_small. lia.
Qed.

(** Every worker is at some offset of the scan. *)
Lemma worker_offset p start w :
  start < p_size p -> w < p_size p -> exists o, o < p_size p /\ worker_at p start o = w.
Proof.
  intros Hst Hw. unfold worker_at. destruct (decide (start <= w)).
  - exists (w - start). split; [lia|]. rewrite mod_wrap by lia. case_decide; lia.
  - exists (w + p_size p - start). split; [lia|]. rewrite mod_wrap by lia. case_decide; lia.
Qed.

Lemma next_healthy_worker_spec health p :
  pool_ok p -> p_shutting_down p = false ->
  match next_healthy_worker health p with
  | (_, Ok w) =>
      w < p_size p /\ alive health w
      /\ exists o, o < p_size p /\ w = worker_at p (start_index p) o
         /\ forall j, j < o -> health (worker_at p (start_index p) j) = Dead
  | (_, Err e) => e = AllWorkersDown (p_size p) /\ forall w, w < p_size p -> health w = Dead
  end.
Proof.
  intros Hp Hd. unfold next_healthy_worker. rewrite Hd. fold (start_index p).
  unfold worker_at at 1. simpl. unfold worker_at.
  pose proof (find_seq_spec (fun o => bool_decide
    (health ((start_index p + o) mod p_size p) <> Dead)) (p_size p)) as Hf.
  destruct (List.find _ _) as [o|].
  - destruct Hf as (Ho & Ha%bool_decide_eq_true & Hdead).
    split; [apply Nat.mod_upper_bound; destruct Hp; lia|]. split; [done|].
    exists o. split; [done|]. split; [done|]. intros j Hj.
    apply Hdead, bool_decide_eq_false, dec_stable in Hj. done.
  - split; [done|]. intros w Hw.
    destruct (worker_offset p (start_index p) w (start_index_lt p Hp) Hw) as (o & Ho & <-).
    by apply Hf, bool_decide_eq_false, dec_stable in Ho.
Qed.

(** The workers of consecutive dispatches. *)
Fixpoint picks (healths : list (nat -> WorkerHealth)) (p : Pool) : list (result nat BlpAsyncError) :=
  match healths with
  | [] => []
  | h :: hs => (next_healthy_worker h p).2 :: picks hs (next_healthy_worker h p).1
  end.

Lemma next_alive health p :
  pool_ok p -> p_shutting_down p = false -> (forall w, w < p_size p -> alive health w) ->
  next_healthy_worker health p
  = (set_next p (u64_wrapping_add (p_next_worker p) 1), Ok (start_index p)).
Proof.
  intros Hp Hd Ha. pose proof (next_healthy_worker_spec health p Hp Hd) as Hs.
  pose proof (start_index_lt p Hp) as Hlt. unfold next_healthy_worker in *. rewrite Hd in *.
  fold (start_index p) in *. destruct (List.find _ _) as [o|]; f_equal.
  - destruct Hs as (_ & _ & o' & Ho' & Hw & Hdead). rewrite Hw. f_equal.
    destruct o' as [|o']; [unfold worker_at; by rewrite Nat.add_0_r, Nat.mod_small|].
    destruct (Ha (worker_at p (start_index p) 0)); [|apply Hdead; lia].
    apply Nat.mod_upper_bound. lia.
  - destruct Hs as [_ Hs]. by destruct (Ha _ Hlt (Hs _ Hlt)).
Qed.

(** While no worker is dead and the counter does not wrap, the dispatches count
    round the workers. *)
Lemma picks_alive healths p :
  pool_ok p -> p_shutting_down p = false ->
  Forall (fun h => forall w, w < p_size p -> alive h w) healths ->
  (p_next_worker p + Z.of_nat (length healths) <= 2 ^ 64)%Z ->
  picks healths p =
  (fun i => Ok (Z.to_nat ((p_next_worker p + Z.of_nat i) mod Z.of_nat (p_size p))))
  <$> seq 0 (length healths).
Proof.
  revert p. induction healths as [|h hs IH]; intros p Hp Hd Ha Hw; [done|].
  apply Forall_cons in Ha as [Ha Hhs]. cbn [length] in Hw. cbn [picks].
  rewrite (next_alive h p Hp Hd Ha). simpl. f_equal; [by rewrite Z.add_0_r|].
  destruct hs as [|h' hs]; [done|]. pose proof Hp as [Hs Hc]. cbn [length] in Hw.
  assert (u64_wrapping_add (p_next_worker p) 1 = p_next_worker p + 1)%Z as Hn.
  { apply wrap_u_small. lia. }
  rewrite IH; rewrite ?Hn; cbn [p_next_worker p_size set_next length]; try done.
  - rewrite <-(fmap_S_seq 0), <-list_fmap_compose. apply list_fmap_ext. intros i x _. simpl.
    do 3 f_equal. lia.
  - split; simpl; lia.
  - simpl. lia.
Qed.

(** A full round of consecutive counts visits every worker once. *)
Lemma full_round n (c : Z) :
  0 < n -> (0 <= c)%Z ->
  (fun i => Z.to_nat ((c + Z.of_nat i) mod Z.of_nat n)) <$> seq 0 n ≡ₚ seq 0 n.
Proof.
  intros Hn Hc. set (f := fun i => Z.to_nat ((c + Z.of_nat i) mod Z.of_nat n)).
  symmetry. apply submseteq_length_Permutation; [|by rewrite length_fmap].
  apply NoDup_submseteq; [apply NoDup_seq|]. intros w Hw. apply elem_of_seq in Hw.
  apply list_elem_of_fmap.
  exists (Z.to_nat ((Z.of_nat w - c) mod Z.of_nat n)).
  pose proof (Z.mod_pos_bound (Z.of_nat w - c) (Z.of_nat n) ltac:(lia)).
  split; [|apply elem_of_seq; lia]. unfold f. rewrite Z2Nat.id by lia.
  rewrite Zplus_mod_idemp_r. replace (c + (Z.of_nat w - c))%Z with (Z.of_nat w) by lia.
  rewrite Z.mod_small by lia. lia.
Qed.

(** Shutdown is final: the flag never goes back, and every worker was told to stop. *)
Definition stop_sent (p : Pool) (i : nat) : Prop :=
  StopSignal i ∈ p_stops p \/ StopBlocking i ∈ p_stops p.

Definition stopped_all (p : Pool) : Prop :=
  p_shutting_down p = true -> p_scanner_stopped p = true /\ forall i, i < p_size p -> stop_sent p i.

Definition is_shutdown (op : PoolOp) : bool :=
  match op with OpDispatch _ => false | _ => true end.

Lemma pool_exec_size p op : p_size (pool_exec p op) = p_size p.
Proof.
  destruct op as [h| |]; simpl; unfold signal_shutdown, next_healthy_worker;
    destruct (p_shutting_down p); try done. by destruct (List.find _ _).
Qed.

Lemma pool_exec_flag p op :
  p_shutting_down (pool_exec p op) = p_shutting_down p || is_shutdown op.
Proof.
  destruct op as [h| |]; simpl; unfold signal_shutdown, next_healthy_worker;
    destruct (p_shutting_down p) eqn:Hp; try done. by destruct (List.find _ _).
Qed.

Lemma pool_exec_stopped p op : stopped_all p -> stopped_all (pool_exec p op).
Proof.
  unfold stopped_all, stop_sent. intros Hs.
  assert (forall f : nat -> WorkerStop, forall i, i < p_size p -> f i ∈ (f <$> seq 0 (p_size p))) as Hseq.
  { intros f i Hi. apply list_elem_of_fmap. exists i. split; [done|]. apply elem_of_seq. lia. }
  destruct op as [h| |]; simpl; unfold signal_shutdown, next_healthy_worker;
    destruct (p_shutting_down p) eqn:Hp; simpl; try rewrite Hp; try done.
  - destruct (List.find _ _); simpl; by rewrite Hp.
  - intros _. split; [done|]. intros i Hi. left. apply elem_of_app. right. by apply Hseq.
  - intros _. split; [done|]. intros i Hi. right. apply elem_of_app. right. by apply Hseq.
  - intros _. split; [done|]. intros i Hi. right. apply elem_of_app. right. by apply Hseq.
Qed.

Lemma pool_run_flag ops p :
  p_shutting_down (pool_run ops p) = p_shutting_down p || existsb is_shutdown ops.
Proof.
  unfold pool_run. revert p. induction ops as [|op ops IH]; intros p; simpl; [by rewrite orb_false_r|].
  rewrite IH, pool_exec_flag. by rewrite orb_assoc.
Qed.

Lemma pool_run_stopped ops p : stopped_all p -> stopped_all (pool_run ops p).
Proof. unfold pool_run. revert p. induction ops; simpl; eauto using pool_exec_stopped. Qed.

Lemma pool_run_size ops p : p_size (pool_run ops p) = p_size p.
Proof. unfold pool_run. revert p. induction ops as [|op ops IH]; intros p; simpl; [done|]. by rewrite IH, pool_exec_size. Qed.

(** ** The retry loop *)

Section Retry.
Context {Col : Type}.
Variable to_json : list string -> string.
Variable powf : f64 -> f64 -> f64.
Variable policy : RetryPolicy.
Variable request : PreparedRequest.
Variable env : nat -> @Attempt Col.
Variable p0 : Pool.

(** The pool attempt [k] finds, and the worker it is given: neither depends on what
    the workers answer. *)
Fixpoint pool_at (k : nat) : Pool :=
  match k with
  | O => p0
  | S k => (next_healthy_worker (env_health (env k)) (pool_run (others (env k)) (pool_at k))).1
  end.

Definition pick (k : nat) : result nat BlpAsyncError :=
  (next_healthy_worker (env_health (env k)) (pool_run (others (env k)) (pool_at k))).2.

(** SDK identifiers, dispatches and delays of the attempts before [k]. *)
Definition attempt_ids (k : nat) : list string :=
  match pick k with
  | Ok w => option_list (sub_request_id (submission (env k) w))
  | Err _ => []
  end.

Definition ids_before (k : nat) : list string := seq 0 k ≫= attempt_ids.

Definition attempt_dispatch (k : nat) : list (nat * nat) :=
  match pick k with Ok w => [(k, w)] | Err _ => [] end.

Definition dispatched_before (k : nat) : list (nat * nat) := seq 0 k ≫= attempt_dispatch.

Definition slept_before (k : nat) : list Z := retry_delay powf policy <$> seq 1 (k - 1).

(** A failure that leaves the request to the next attempt: no worker, no reply, or
    a reply that may not come again. *)
Definition transient (k : nat) : option BlpAsyncError :=
  match pick k with
  | Err e => Some e
  | Ok w =>
      match reply (env k) w with
      | Replied (Err e) => if is_retryable e then Some (AsyncBlp e) else None
      | SenderDropped => Some ChannelClosed
      | _ => None
      end
  end.

Lemma seq_bind_S {A} (f : nat -> list A) k : seq 0 (S k) ≫= f = ((seq 0 k ≫= f) ++ f k)%list.
Proof. rewrite seq_S, bind_app. simpl. by rewrite app_nil_r. Qed.

Lemma slept_before_S k : slept_before (S (S k)) = (slept_before (S k) ++ [retry_delay powf policy (S k)])%list.
Proof. unfold slept_before. cbn [Nat.sub]. by rewrite !Nat.sub_0_r, seq_S, fmap_app. Qed.

(** The log when attempt [k] begins. *)
Definition log_at (k : nat) : Log := mkLog (slept_before k) (dispatched_before k).

Lemma guard_disarmed (w : nat) (t : option RequestTicket) :
  guard_drop_opt (disarm <$> (guard_new w <$> t)) = [].
Proof. by destruct t. Qed.

(** The error the request ends with when attempt [k] was the last. *)
Definition last_failure (k : nat) (e : BlpAsyncError) : BlpAsyncError :=
  match e with
  | AsyncBlp b => enrich_reply request b (ids_before (S k))
  | e => enrich_lost request e (ids_before (S k))
  end.

(** One attempt, from the state before it. *)
Lemma loop_step remaining k last :
  request_loop to_json powf policy request env (S remaining) k last (ids_before k) (pool_at k) (log_at k)
  = let log := mkLog (slept_before (S k)) (dispatched_before (S k)) in
    let next e := request_loop to_json powf policy request env remaining (S k) (Some e)
                    (ids_before (S k)) (pool_at (S k)) (log_at (S k)) in
    let more := (k + 1 <? max_attempts policy)%nat in
    match pick k with
    | Err e => next e
    | Ok w =>
        match reply (env k) w with
        | Abandoned => done None (pool_at (S k)) log
                         (guard_drop_opt (guard_new w <$> sub_ticket (submission (env k) w)))
        | Replied (Ok b) =>
            done (Some (Ok (attach_attempt_ids to_json (ids_before (S k)) b))) (pool_at (S k)) log []
        | Replied (Err e) =>
            if is_retryable e && more then next (AsyncBlp e)
            else done (Some (Err (enrich_reply request e (ids_before (S k))))) (pool_at (S k)) log []
        | SenderDropped =>
            if more then next ChannelClosed
            else done (Some (Err (enrich_lost request ChannelClosed (ids_before (S k)))))
                   (pool_at (S k)) log []
        end
    end.
Proof.
  assert ((if (0 <? k)%nat
           then mkLog (l_slept (log_at k) ++ [retry_delay powf policy k])%list (l_dispatched (log_at k))
           else log_at k) = mkLog (slept_before (S k)) (dispatched_before k)) as Hlog.
  { destruct k as [|k]; [done|]. rewrite slept_before_S. done. }
  cbn [request_loop]. rewrite Hlog. unfold log_at.
  assert (ids_before (S k) = ids_before k ++ attempt_ids k)%list as -> by apply seq_bind_S.
  assert (dispatched_before (S k) = dispatched_before k ++ attempt_dispatch k)%list as ->
    by apply seq_bind_S.
  cbn [pool_at l_slept l_dispatched]. unfold attempt_ids, attempt_dispatch, pick.
  destruct (next_healthy_worker _ _) as [p1 [w|e]]; cbn [fst snd]; [|by rewrite !app_nil_r].
  rewrite guard_disarmed. by destruct (reply (env k) w) as [[b|e]| |].
Qed.

Definition run : Done := pool_request to_json powf policy request env p0.

(** The request reaches attempt [k] when every attempt before it failed for the
    moment. *)
Lemma loop_reaches k :
  k < max_attempts policy -> (forall j, j < k -> is_Some (transient j)) ->
  exists last, run = request_loop to_json powf policy request env (max_attempts policy - k) k last
                       (ids_before k) (pool_at k) (log_at k).
Proof.
  induction k as [|k IH]; intros Hk Ht; [exists None; by rewrite Nat.sub_0_r|].
  destruct IH as [last ->]; [lia|auto|].
  replace (max_attempts policy - k) with (S (max_attempts policy - S k)) by lia.
  rewrite loop_step. cbv zeta. destruct (Ht k) as [e He]; [lia|]. unfold transient in He.
  rewrite (proj2 (Nat.ltb_lt _ _)) by lia.
  destruct (pick k) as [w|e']; [|by eexists].
  destruct (reply (env k) w) as [[b|e']| |]; try done; [|by eexists].
  destruct (is_retryable e'); [|done]. by eexists.
Qed.

(** All attempts failed for the moment: the last failure is reported. *)
Lemma loop_exhausted :
  (forall j, j < max_attempts policy -> is_Some (transient j)) ->
  exists e, transient (max_attempts policy - 1) = Some e
    /\ outcome run = Some (Err (last_failure (max_attempts policy - 1) e))
    /\ dispatched run = dispatched_before (max_attempts policy)
    /\ request_cancelled run = [].
Proof.
  intros Ht. set (k := max_attempts policy - 1).
  assert (max_attempts policy = S k) as Hmax by (unfold k, max_attempts; lia).
  destruct (loop_reaches k) as [last ->]; [lia|intros; apply Ht; lia|].
  destruct (Ht k) as [e He]; [lia|]. exists e. split; [done|].
  replace (max_attempts policy - k) with 1 by lia. rewrite loop_step. cbv zeta.
  rewrite (proj2 (Nat.ltb_ge _ _)) by lia. rewrite Hmax. unfold transient in He.
  destruct (pick k) as [w|e'] eqn:Hp.
  - destruct (reply (env k) w) as [[b|e']| |]; try done; [|by simplify_eq].
    destruct (is_retryable e'); [|done]. by simplify_eq.
  - simplify_eq. unfold pick in Hp. simpl. split; [|done]. do 2 f_equal. unfold last_failure.
    destruct e; [|done..].
    unfold next_healthy_worker in Hp. destruct (p_shutting_down _); [done|].
    by destruct (List.find _ _).
Qed.

(** The first attempt that does not fail for the moment decides. *)
Lemma loop_decides k w :
  k < max_attempts policy -> (forall j, j < k -> is_Some (transient j)) ->
  transient k = None -> pick k = Ok w ->
  dispatched run = dispatched_before (S k) /\ slept run = slept_before (S k) /\
  match reply (env k) w with
  | Replied (Ok b) =>
      outcome run = Some (Ok (attach_attempt_ids to_json (ids_before (S k)) b))
      /\ request_cancelled run = []
  | Replied (Err e) =>
      outcome run = Some (Err (enrich_reply request e (ids_before (S k))))
      /\ request_cancelled run = []
  | _ =>
      outcome run = None
      /\ request_cancelled run = mkCancellation w <$> option_list (sub_ticket (submission (env k) w))
  end.
Proof.
  intros Hk Ht Hn Hp. destruct (loop_reaches k Hk Ht) as [last ->].
  replace (max_attempts policy - k) with (S (max_attempts policy - S k)) by lia.
  rewrite loop_step. cbv zeta. unfold transient in Hn. rewrite Hp in *.
  destruct (reply (env k) w) as [[b|e]| |]; [done| |done|].
  - by destruct (is_retryable e).
  - by destruct (sub_ticket _).
Qed.
End Retry.

(** ** Identifiers *)

(** [BloombergRequestIds::collect] on the metadata of a batch. *)
Definition metadata_ids (from_json : string -> option (list string)) (m : gmap string string)
  : list string :=
  let ids := match m !! METADATA_KEY_BLOOMBERG_REQUEST_ID with
             | Some id => insert_id id []
             | None => []
             end in
  match m !! METADATA_KEY_BLOOMBERG_REQUEST_IDS ≫= from_json with
  | Some more => ids_extend ids more
  | None => ids
  end.

Definition result_ids {Col} (from_json : string -> option (list string)) (b : ArrowBatch Col)
  : list string := metadata_ids from_json (s_metadata (b_schema b)).

(** A batch as the extractors build it: no identifier recorded yet. *)
Definition no_ids {Col} (b : ArrowBatch Col) : Prop :=
  s_metadata (b_schema b) !! METADATA_KEY_BLOOMBERG_REQUEST_ID = None
  /\ s_metadata (b_schema b) !! METADATA_KEY_BLOOMBERG_REQUEST_IDS = None.

Lemma attach_metadata_ids to_json from_json ids m i :
  (forall l, from_json (to_json l) = Some l) -> ids <> [] ->
  i ∈ metadata_ids from_json (attach_metadata to_json ids m) <-> i ∈ ids.
Proof.
  intros Hj Hne. unfold metadata_ids, attach_metadata. destruct ids as [|a [|b ids]]; [done|..].
  - rewrite lookup_insert_eq, lookup_insert_ne, lookup_delete_eq by done. simpl. done.
  - rewrite lookup_insert_eq, lookup_insert_ne by done.
    rewrite lookup_delete_ne, lookup_delete_eq by done. simpl.
    rewrite Hj, elem_of_ids_extend. set_solver.
Qed.

(** The batch a request returns shows the identifiers of all its attempts. *)
Lemma attach_attempt_ids_shown {Col} to_json from_json ids (b : ArrowBatch Col) i :
  (forall l, from_json (to_json l) = Some l) -> no_ids b ->
  i ∈ result_ids from_json (attach_attempt_ids to_json ids b) <-> i ∈ ids.
Proof.
  intros Hj [H1 H2]. unfold result_ids, attach_attempt_ids. destruct ids as [|a [|a' ids]].
  - unfold metadata_ids. by rewrite H1, H2.
  - simpl. unfold metadata_ids. rewrite lookup_insert_eq, lookup_insert_ne, H2 by done. done.
  - unfold attach_ids. cbn [b_schema s_metadata]. rewrite attach_metadata_ids; [|done|].
    + rewrite elem_of_ids_extend, elem_of_nil. tauto.
    + intros Hn. assert (a ∈ ids_extend [] (a :: a' :: ids)) as Ha
        by (apply elem_of_ids_extend; right; left).
      rewrite Hn in Ha. by apply not_elem_of_nil in Ha.
Qed.

Lemma attach_attempt_ids_data {Col} to_json ids (b : ArrowBatch Col) :
  b_columns (attach_attempt_ids to_json ids b) = b_columns b
  /\ b_rows (attach_attempt_ids to_json ids b) = b_rows b
  /\ fields (b_schema (attach_attempt_ids to_json ids b)) = fields (b_schema b).
Proof. by destruct ids as [|? [|? ?]]. Qed.

Section Failures.
Context {Col : Type}.
Variable request : PreparedRequest.
Variable env : nat -> @Attempt Col.
Variable p0 : Pool.

(** The failure concerns a request that may have been sent and has no identifiers. *)
Definition plain_failure (e : BlpAsyncError) : Prop :=
  sent_kind e = true /\ carries_ids (match e with AsyncBlp b => b | _ => Timeout end) = false.

Lemma plain_failure_ids e : plain_failure e -> async_bloomberg_request_ids e = [].
Proof. intros [_ He]. destruct e as [b| | | |]; [by destruct b|done..]. Qed.

Lemma pick_error k e : pick env p0 k = Err e -> plain_failure e.
Proof.
  unfold pick, next_healthy_worker. destruct (p_shutting_down _); simpl; [by intros [= <-]|].
  destruct (List.find _ _); simpl; [done|]. by intros [= <-].
Qed.

(** A failure worth another attempt carries no identifiers of its own. *)
Lemma transient_kind k e :
  transient env p0 k = Some e -> plain_failure e.
Proof.
  unfold transient. destruct (pick env p0 k) as [w|e'] eqn:Hp; [|intros [= <-]; by eapply pick_error].
  destruct (reply (env k) w) as [[b|e']| |]; try done; [|by intros [= <-]].
  destruct e'; simpl; try done. destruct (_ || _ || _); [|done]. by intros [= <-].
Qed.

Lemma last_failure_enriched k e :
  exists op, last_failure request env p0 k e
    = enrich_async_request_error e (service (pr_params request)) op (request_id (pr_params request))
        (ids_before env p0 (S k)).
Proof. destruct e; by eexists. Qed.

(** The reported error shows the identifiers of all attempts, and is the failure
    itself when nothing was sent. *)
Lemma last_failure_ids k e :
  transient env p0 k = Some e ->
  (forall i, i ∈ async_bloomberg_request_ids (last_failure request env p0 k e)
             <-> i ∈ ids_before env p0 (S k))
  /\ (ids_before env p0 (S k) = [] -> last_failure request env p0 k e = e).
Proof.
  intros He. pose proof (transient_kind k e He) as Hp. pose proof (plain_failure_ids e Hp) as Hi.
  destruct Hp as [Hk Hc]. destruct (last_failure_enriched k e) as [op ->]. split.
  - intros i. rewrite enrich_async_ids, Hi by done. set_solver.
  - intros ->. apply enrich_async_unsent. by right.
Qed.
End Failures.

Lemma dispatched_before_length {Col} (env : nat -> @Attempt Col) p0 k :
  length (dispatched_before env p0 k) <= k.
Proof.
  unfold dispatched_before. induction k as [|k IH]; [simpl; lia|].
  rewrite seq_bind_S, length_app. unfold attempt_dispatch at 2.
  destruct (pick env p0 k); simpl; lia.
Qed.

(** ** Properties *)


(** Round-robin dispatch.  A dispatch finds the first worker that is not dead,
    going round from the counter, and fails only when all are dead; while none is dead
    and the counter does not overflow, as many consecutive dispatches as workers use
    every worker once.  Shutdown is final: after it every worker was told to stop, the
    scanner too, and every dispatch is refused. *)
Theorem pool_dispatch_contract (p : Pool) (Hp : pool_ok p) (Hstops : stopped_all p) :
  (p_shutting_down p = false ->
   (forall health w, (next_healthy_worker health p).2 = Ok w ->
      w < p_size p /\ health w <> Dead
      /\ exists o, o < p_size p /\ w = worker_at p (start_index p) o
         /\ forall j, j < o -> health (worker_at p (start_index p) j) = Dead)
   /\ (forall health e, (next_healthy_worker health p).2 = Err e ->
        e = AllWorkersDown (p_size p) /\ forall w, w < p_size p -> health w = Dead)
   /\ (forall healths, length healths = p_size p ->
        Forall (fun h => forall w, w < p_size p -> alive h w) healths ->
        (p_next_worker p + Z.of_nat (p_size p) <= 2 ^ 64)%Z ->
        exists ws, picks healths p = Ok <$> ws /\ ws ≡ₚ seq 0 (p_size p)))
  /\ (forall ops, existsb is_shutdown ops = true ->
      let p' := pool_run ops p in
      p_scanner_stopped p' = true /\ (forall i, i < p_size p -> stop_sent p' i)
      /\ forall later health, let p'' := pool_run later p' in
           next_healthy_worker health p''
           = (p'', Err (ConfigError "request worker pool is shut down"))).
Proof.
  split.
  - intros Hd. split; [|split].
    + intros health w Hw. pose proof (next_healthy_worker_spec health p Hp Hd) as Hs.
      destruct (next_healthy_worker health p) as [p' r]. simpl in Hw. by subst r.
    + intros health e He. pose proof (next_healthy_worker_spec health p Hp Hd) as Hs.
      destruct (next_healthy_worker health p) as [p' r]. simpl in He. by subst r.
    + intros healths Hl Ha Hc. rewrite picks_alive by (try done; rewrite Hl; lia). rewrite Hl.
      exists ((fun i => Z.to_nat ((p_next_worker p + Z.of_nat i) mod Z.of_nat (p_size p)))
                <$> seq 0 (p_size p)).
      split; [by rewrite <-list_fmap_compose|]. destruct Hp. apply full_round; lia.
  - intros ops Hops. assert (p_shutting_down (pool_run ops p) = true) as Hflag
      by (by rewrite pool_run_flag, Hops, orb_true_r).
    destruct (pool_run_stopped ops p Hstops Hflag) as [Hsc Hst]. rewrite pool_run_size in Hst.
    split; [done|]. split; [done|]. intros later health p''.
    unfold next_healthy_worker. unfold p''. by rewrite pool_run_flag, Hflag.
Qed.

(** ** Witnesses *)

Definition demo_pool : Pool := mkPool 3 5 false false [].
Definition first_dead (w : nat) : WorkerHealth := if decide (w = 2) then Dead else Degraded.

Lemma demo_pool_ok : pool_ok demo_pool /\ stopped_all demo_pool.
Proof. split; [split; simpl; lia|done]. Qed.

Example demo_pick : (next_healthy_worker first_dead demo_pool).2 = Ok 0.
Proof. by vm_compute. Qed.

Lemma pool_dispatch_contract_witness :
  exists ws, picks (repeat (fun _ => Healthy) 3) demo_pool = Ok <$> ws /\ ws ≡ₚ [0; 1; 2].
Proof.
  refine (proj2 (proj2 (proj1 (pool_dispatch_contract demo_pool (proj1 demo_pool_ok)
            (proj2 demo_pool_ok)) eq_refl)) (repeat (fun _ => Healthy) 3) eq_refl _ _).
  - repeat constructor; discriminate.
  - vm_compute. discriminate.
Defined.

(** A reader and a writer of lists of strings: every character is marked, every
    string ends with a semicolon. *)
Definition mark_chars (s : string) : list ascii := flat_map (fun c => ["x"%char; c]) (chars s).
Definition write_list (l : list string) : string :=
  of_chars (flat_map (fun s => mark_chars s ++ [";"%char])%list l).

Fixpoint read_chars (cur l : list ascii) : option (list string) :=
  match l with
  | [] => Some []
  | ";"%char :: l => (of_chars cur ::.) <$> read_chars [] l
  | "x"%char :: c :: l => read_chars (cur ++ [c])%list l
  | _ => None
  end.
Definition read_list (s : string) : option (list string) := read_chars [] (chars s).

Lemma read_marked cur cs l :
  read_chars cur (flat_map (fun c => ["x"%char; c]) cs ++ l) = read_chars (cur ++ cs)%list l.
Proof.
  revert cur. induction cs as [|c cs IH]; intros cur; simpl; [by rewrite app_nil_r|].
  by rewrite IH, <-app_assoc.
Qed.

Lemma read_write_list l : read_list (write_list l) = Some l.
Proof.
  unfold read_list, write_list. rewrite chars_of_chars.
  induction l as [|s l IH]; [done|]. simpl. unfold mark_chars at 1.
  rewrite <-app_assoc, read_marked. simpl. rewrite IH. simpl. by rewrite of_chars_chars.
Qed.

Definition demo_request : PreparedRequest := mkPrepared params0 ShGeneric OpReferenceData ∅ false.
Definition demo_batch : ArrowBatch SimpleCol :=
  mkArrowBatch (mkSchema [mkField "ticker" (OtherType "Utf8") false ∅] ∅) [mkCol (OtherType "Utf8") 1 0] 1.
Definition demo_ticket : RequestTicket := mkTicket 1 1.

(** The first attempt loses its session, the second finds every worker dead, the
    third answers. *)
Definition demo_env (k : nat) : @Attempt SimpleCol :=
  match k with
  | 0 => mkAttempt [] (fun _ => Healthy) (fun _ => mkSubmission (Some demo_ticket) (Some "sdk-a"))
           (fun _ => Replied (Err (Internal "Session terminated")))
  | 1 => mkAttempt [OpDispatch first_dead] (fun _ => Dead) (fun _ => mkSubmission None None)
           (fun _ => SenderDropped)
  | _ => mkAttempt [] first_dead (fun _ => mkSubmission (Some demo_ticket) (Some "sdk-b"))
           (fun _ => Replied (Ok demo_batch))
  end.

Example demo_retries :
  let d := pool_request write_list pow_by_mul quick_policy demo_request demo_env demo_pool in
  (dispatched d, slept d, request_cancelled d) = ([(0, 2); (2, 0)], [100; 250]%Z, []).
Proof. by vm_compute. Qed.

