(* ===== verification/Feed.v ===== *)
(** * A shared feed

    [Feed] of [engine/shared_subscriptions.rs]: one upstream subscription, the last
    value of each of its fields (the image), and the consumers its updates are
    projected to, with the recovery of a lost feed by resubscription.  A step of the
    feed is one critical section of its mutex.  What a step reads of a consumer's
    owner (is it alive, closed, does its stream accept, which policy) is an argument;
    what it does outside the feed (deliveries, status changes, marks of the state
    delivery, spawned tasks) is a list of effects.  Field exceptions and the patches
    of consumer statuses are not part of this model. *)

From Stdlib Require Import Ascii String ZArith Lia SpecFloat.
From S2P Require Import Prelude Errors Update Subscription Decoder Projection.
From S2P Require Import RequestErrors Plan.
Local Open Scope string_scope.

(** ** State *)

Definition IS_DELAYED_STREAM : string := "IS_DELAYED_STREAM".

(** What a step sees of the owner of a consumer. *)
Record Owner : Type := mkOwner {
  ow_alive : bool;
  ow_closed : bool;
  ow_stream_closed : bool;
  ow_accepts : bool;
  ow_deltas : bool;
  ow_state_delivery : bool;
  ow_delayed_policy : DelayedPolicy;
  ow_all_fields : bool;
  ow_status_revision : Z;
  ow_topic_delayed : option bool
}.

(** Rows disabled or state delivery. *)
Definition image_delivery (o : Owner) : bool := negb (ow_deltas o).

(** A consumer of the feed, by its owner and its key there. *)
Record ConsumerTopic : Type := mkConsumer {
  c_id : nat * nat;
  c_active : bool;
  c_projection : SubscriptionState;
  c_explicit_fields : list string;
  c_awaiting_image : bool;
  c_awaiting_repaint : bool;
  c_delayed_warned : bool;
  c_delayed_synced : option (option bool * Z);
  c_pending_data_loss : Z;
  c_last_data_loss_us : Z
}.

Inductive RecoveryStage : Type :=
| QueuedInitial | WaitingInitialPaint | QueuedRestart | WaitingRestartStart | WaitingRestartPaint.

Record FeedRecovery : Type := mkRecovery { stage : RecoveryStage; restart_requested : bool }.

Record MetadataSlots : Type := mkSlots {
  slot_event_type : option nat;
  slot_event_subtype : option nat;
  slot_delayed_stream : option nat
}.

Inductive FeedLifecycle : Type := FPending | FActive | FFailed | FClosed.

Definition ended (l : FeedLifecycle) : bool :=
  match l with FFailed | FClosed => true | _ => false end.

Record FeedState : Type := mkFeed {
  f_fields : list string;
  f_capture_all : bool;
  f_consumers : list ConsumerTopic;
  f_layout : option SharedLayout;
  f_image : list (option UpdateValue);
  f_last_update : option Z;
  f_live : bool;
  f_streams_active : option bool;
  f_revision : Z;
  f_delayed : option bool;
  f_repainting : bool;
  f_repaint_started : bool;
  f_recovery : option FeedRecovery;
  f_recovery_task : bool;
  f_kinds : gmap string FieldKind;
  f_lifecycle : FeedLifecycle;
  f_slots : option SharedLayout * MetadataSlots
}.

Inductive Effect : Type :=
| EDeliver (c : nat * nat) (item : result SubscriptionUpdate BlpError)
| ESetDelayed (c : nat * nat) (delayed : option bool)
| EDelayedWarning (c : nat * nat)
| EFailTopic (c : nat * nat) (reason : string) (terminated : bool)
| EClearActive (c : nat * nat)
| EAdminLoss (c : nat * nat)
| EMark (c : nat * nat) (revision : Z) (invalid : bool)
| ERegister (c : nat * nat) (revision : Z) (label : string)
| ERecovered (c : nat * nat) (label : string)
| EScheduleRecovery
| EScheduleCleanup.

(** ** Metadata of an update *)

Definition layout_position (l : FieldLayout) (name : string) : option nat :=
  match list_find (fun m => meta_name m = name) (layout_fields l) with
  | Some (i, _) => if (Z.of_nat i <? 65536)%Z then Some i else None
  | None => None
  end.

Definition slots_of (l : FieldLayout) : MetadataSlots :=
  mkSlots (layout_position l EVENT_TYPE) (layout_position l EVENT_SUBTYPE)
    (layout_position l IS_DELAYED_STREAM).

Definition resolve_slots (cache : option SharedLayout * MetadataSlots) (l : SharedLayout)
  : option SharedLayout * MetadataSlots :=
  let cached :=
    match cache.1 with
    | Some c => bool_decide (Update.layout_version (layout_of c) = Update.layout_version (layout_of l))
                && bool_decide (layout_addr c = layout_addr l)
    | None => false
    end in
  if cached then cache else (Some l, slots_of (layout_of l)).

Definition scan_one (s : MetadataSlots) (acc : option string * option bool) (f : UpdateField)
  : option string * option bool :=
  let '(subtype, delayed) := acc in
  match field_value f with
  | VStr v =>
      if bool_decide (subtype = None) && bool_decide (slot_event_subtype s = Some (field_index f))
      then (Some v, delayed) else acc
  | VBool b =>
      if bool_decide (delayed = None) && bool_decide (slot_delayed_stream s = Some (field_index f))
      then (subtype, Some b) else acc
  | _ => acc
  end.

Definition scan (s : MetadataSlots) (values : list UpdateField) : option string * option bool :=
  fold_left (scan_one s) values (None, None).

Definition slot_metadata (s : MetadataSlots) (i : nat) : bool :=
  bool_decide (slot_event_type s = Some i) || bool_decide (slot_event_subtype s = Some i).

(** ** Images *)

(** Equal as values, with every NaN equal to itself. *)
Definition value_same (a b : UpdateValue) : bool :=
  match a, b with
  | VNull, VNull => true
  | VBool x, VBool y => Bool.eqb x y
  | VI32 x, VI32 y | VI64 x, VI64 y | VDate32 x, VDate32 y
  | VTime64Micros x, VTime64Micros y | VTimestampMicros x, VTimestampMicros y => (x =? y)%Z
  | VF64 S754_nan, VF64 S754_nan => true
  | VF64 x, VF64 y => SFeqb x y
  | VStr x, VStr y => bool_decide (x = y)
  | _, _ => false
  end.

Definition image_at (image : list (option UpdateValue)) (i : nat) : option UpdateValue :=
  mjoin (image !! i).

(** [image.resize(n, None)] and the values of an update. *)
Definition apply_image (image : list (option UpdateValue)) (n : nat) (values : list UpdateField)
  : list (option UpdateValue) :=
  fold_left (fun im f => <[field_index f := Some (field_value f)]> im) values (resize n None image).

(** The values of a repaint that the image does not have yet, and whether there are any
    besides the event metadata. *)
Fixpoint repaint_changes (values : list UpdateField) (image : list (option UpdateValue))
  (s : MetadataSlots) : list UpdateField * bool :=
  match values with
  | [] => ([], false)
  | f :: values =>
      let '(kept, has_data) := repaint_changes values image s in
      let metadata := slot_metadata s (field_index f) in
      let same := match image_at image (field_index f) with
                  | Some previous => value_same previous (field_value f)
                  | None => false
                  end in
      if metadata || negb same then (f :: kept, negb metadata || has_data) else (kept, has_data)
  end.

(** ** Consumers *)

Definition set_active (c : ConsumerTopic) (a : bool) : ConsumerTopic :=
  mkConsumer (c_id c) a (c_projection c) (c_explicit_fields c) (c_awaiting_image c)
    (c_awaiting_repaint c) (c_delayed_warned c) (c_delayed_synced c) (c_pending_data_loss c)
    (c_last_data_loss_us c).

Definition set_projected (c : ConsumerTopic) (st : SubscriptionState) : ConsumerTopic :=
  mkConsumer (c_id c) (c_active c) st (c_explicit_fields c) (c_awaiting_image c)
    (c_awaiting_repaint c) (c_delayed_warned c) (c_delayed_synced c) (c_pending_data_loss c)
    (c_last_data_loss_us c).

Definition set_awaiting (c : ConsumerTopic) (image repaint : bool) : ConsumerTopic :=
  mkConsumer (c_id c) (c_active c) (c_projection c) (c_explicit_fields c) image repaint
    (c_delayed_warned c) (c_delayed_synced c) (c_pending_data_loss c) (c_last_data_loss_us c).

Definition set_delayed_flags (c : ConsumerTopic) (warned : bool) (synced : option (option bool * Z))
  : ConsumerTopic :=
  mkConsumer (c_id c) (c_active c) (c_projection c) (c_explicit_fields c) (c_awaiting_image c)
    (c_awaiting_repaint c) warned synced (c_pending_data_loss c) (c_last_data_loss_us c).

Definition set_losses (c : ConsumerTopic) (pending at_us : Z) : ConsumerTopic :=
  mkConsumer (c_id c) (c_active c) (c_projection c) (c_explicit_fields c) (c_awaiting_image c)
    (c_awaiting_repaint c) (c_delayed_warned c) (c_delayed_synced c) pending at_us.

(** The stream of a consumer as its projection sees it. *)
Definition owner_env (o : Owner) : StreamEnv :=
  mkStreamEnv (ow_stream_closed o) false false (ow_accepts o) 0.

Definition emit (c : nat * nat) (em : Emitted) : list Effect :=
  match em with Some item => [EDeliver c item] | None => [] end.

Definition apply_delayed (o : Owner) (c : ConsumerTopic) (delayed : option bool)
  : ConsumerTopic * list Effect * bool :=
  let synced := Some (delayed, ow_status_revision o) in
  let sync :=
    if bool_decide (c_delayed_synced c = synced) then []
    else if bool_decide (ow_topic_delayed o = delayed) then [] else [ESetDelayed (c_id c) delayed] in
  let c := set_delayed_flags c (c_delayed_warned c) synced in
  if bool_decide (delayed = Some true) then
    match ow_delayed_policy o with
    | DpIgnore => (c, sync, true)
    | DpWarn =>
        if c_delayed_warned c then (c, sync, true)
        else (set_delayed_flags c true synced, (sync ++ [EDelayedWarning (c_id c)])%list, true)
    | DpRaise =>
        (set_active c false,
         (sync ++ [EFailTopic (c_id c) "Bloomberg is delivering delayed data; on_delayed=raise" false])%list,
         false)
    end
  else (c, sync, true).

(** What [on_update] decided about an update before it reaches the consumers. *)
Record Tick : Type := mkTick {
  tk_source : SharedUpdate;
  tk_initpaint : bool;
  tk_recovered : bool;
  tk_frozen : bool;
  tk_repainting : bool;
  tk_finish : bool;
  tk_changes : list UpdateField * bool;
  tk_delayed : option bool;
  tk_revision : Z;
  tk_mktdata : bool
}.

Definition changed_update (tk : Tick) : SharedUpdate :=
  mkSharedUpdate (su_layout (tk_source tk)) (tk_changes tk).1 (su_timestamp (tk_source tk)).

(** The outcome of a tick for a consumer: [None] when a repaint brings it nothing. *)
Definition tick_outcome (o : Owner) (tk : Tick) (c : ConsumerTopic)
  : option (SubscriptionState * MessageOutcome * Emitted) :=
  if image_delivery o then
    let '(st, out) := observe_update (owner_env o) (c_projection c) (tk_source tk) in Some (st, out, None)
  else if tk_repainting tk && tk_initpaint tk && negb (c_awaiting_image c) then
    if (tk_changes tk).2
    then Some (project_update (owner_env o) (c_projection c) (changed_update tk) true)
    else None
  else Some (project_update (owner_env o) (c_projection c) (tk_source tk) (tk_mktdata tk)).

(** The body of the loop over consumers: the consumer, its effects, whether a cleanup is
    due and whether its recovery is announced. *)
Definition tick_consumer (ow : nat * nat -> Owner) (tk : Tick) (c : ConsumerTopic)
  : ConsumerTopic * list Effect * bool * bool :=
  let o := ow (c_id c) in
  if negb (ow_alive o) then (c, [], true, false)
  else if negb (c_active c) || ow_closed o || ow_stream_closed o
  then (set_active c false, [], true, false)
  else
    let '(c, fx, allowed) := apply_delayed o c (tk_delayed tk) in
    if negb allowed then (c, fx, true, false)
    else if tk_frozen tk then (c, fx, false, false)
    else
      let c := if tk_finish tk then set_awaiting c false false else c in
      match tick_outcome o tk c with
      | None => (c, fx, false, false)
      | Some (st, out, em) =>
          let c := set_projected c st in
          let fx := (fx ++ emit (c_id c) em)%list in
          match out with
          | Normal _ =>
              let fx := if ow_state_delivery o
                        then (fx ++ [EMark (c_id c) (tk_revision tk) false])%list else fx in
              if tk_recovered tk && image_delivery o
              then (set_projected c (set_metrics st (has_received_data st) (messages_received st)
                      (last_message_us st) false (data_loss_events st) (last_data_loss_us st)),
                    fx, false, true)
              else (c, fx, false, false)
          | DataLoss | Closed =>
              (set_active c false, (fx ++ [EClearActive (c_id c)])%list, true, false)
          end
      end.

Fixpoint tick_consumers (ow : nat * nat -> Owner) (tk : Tick) (cs : list ConsumerTopic)
  : list ConsumerTopic * list Effect * bool * list (nat * nat * string) :=
  match cs with
  | [] => ([], [], false, [])
  | c :: cs =>
      let '(c, fx, cleanup, notice) := tick_consumer ow tk c in
      let '(cs, fxs, cleanups, notices) := tick_consumers ow tk cs in
      (c :: cs, (fx ++ fxs)%list, cleanup || cleanups,
       if notice then (c_id c, sub_topic (c_projection c)) :: notices else notices)
  end.

(** ** Updates *)

(** What a paint does to a pending recovery: the recovery left, whether the feed
    recovered, whether the update is withheld and whether a restart is due. *)
Definition recovery_paint (r : option FeedRecovery) (initpaint : bool)
  : option FeedRecovery * bool * bool * bool :=
  match r with
  | None => (None, false, false, false)
  | Some rec =>
      match stage rec, initpaint with
      | WaitingInitialPaint, true =>
          if restart_requested rec
          then (Some (mkRecovery QueuedRestart (restart_requested rec)), false, true, true)
          else (None, true, false, false)
      | WaitingRestartPaint, true => (None, true, false, false)
      | _, _ => (Some rec, false, true, false)
      end
  end.

Definition on_update (mktdata : bool) (ow : nat * nat -> Owner) (fs : FeedState) (u : SharedUpdate)
  : FeedState * list Effect :=
  if ended (f_lifecycle fs) then (fs, [])
  else
    let slots := resolve_slots (f_slots fs) (su_layout u) in
    let '(subtype, delayed) := scan slots.2 (su_values u) in
    let initpaint := bool_decide (subtype = Some "INITPAINT") in
    let delayed := match delayed with Some d => Some d | None => f_delayed fs end in
    let '(recovery, recovered, frozen, restart_ready) := recovery_paint (f_recovery fs) initpaint in
    let schedule_restart := restart_ready && negb (f_recovery_task fs) in
    let image := if recovered then (fun _ => None) <$> f_image fs else f_image fs in
    let repainting := f_repainting fs in
    let changes := repaint_changes (su_values u) image slots.2 in
    let started := f_repaint_started fs || (repainting && initpaint && negb frozen) in
    let finish := negb initpaint && negb frozen && (negb repainting || started) in
    let fs1 :=
      if frozen then
        mkFeed (f_fields fs) (f_capture_all fs) (f_consumers fs) (f_layout fs) image (f_last_update fs)
          (f_live fs) (f_streams_active fs) (f_revision fs) delayed repainting started recovery
          (f_recovery_task fs || schedule_restart) (f_kinds fs) (f_lifecycle fs) slots
      else
        mkFeed (f_fields fs) (f_capture_all fs) (f_consumers fs) (Some (su_layout u))
          (apply_image image (length (layout_fields (layout_of (su_layout u)))) (su_values u))
          (Some (su_timestamp u)) (f_live fs || (negb initpaint && bool_decide (recovery = None)))
          (f_streams_active fs) (u64_saturating_add (f_revision fs) 1) delayed
          (repainting && negb finish) (started && negb finish) recovery
          (f_recovery_task fs || schedule_restart) (f_kinds fs) FActive slots in
    let tk := mkTick u initpaint recovered frozen repainting finish changes delayed (f_revision fs1) mktdata in
    let '(cs, fx, cleanup, notices) := tick_consumers ow tk (f_consumers fs1) in
    (mkFeed (f_fields fs1) (f_capture_all fs1) cs (f_layout fs1) (f_image fs1) (f_last_update fs1)
       (f_live fs1) (f_streams_active fs1) (f_revision fs1) (f_delayed fs1) (f_repainting fs1)
       (f_repaint_started fs1) (f_recovery fs1) (f_recovery_task fs1) (f_kinds fs1) (f_lifecycle fs1)
       (f_slots fs1),
     (fx ++ (if schedule_restart then [EScheduleRecovery] else [])
      ++ (notices ≫= fun '(id, label) => [ERecovered id label])
      ++ (if cleanup then [EScheduleCleanup] else []))%list).

(** ** Losses, errors and availability *)

Definition with_consumers (fs : FeedState) (cs : list ConsumerTopic) : FeedState :=
  mkFeed (f_fields fs) (f_capture_all fs) cs (f_layout fs) (f_image fs) (f_last_update fs)
    (f_live fs) (f_streams_active fs) (f_revision fs) (f_delayed fs) (f_repainting fs)
    (f_repaint_started fs) (f_recovery fs) (f_recovery_task fs) (f_kinds fs) (f_lifecycle fs)
    (f_slots fs).

Definition with_lifecycle (fs : FeedState) (l : FeedLifecycle) : FeedState :=
  mkFeed (f_fields fs) (f_capture_all fs) (f_consumers fs) (f_layout fs) (f_image fs) (f_last_update fs)
    (f_live fs) (f_streams_active fs) (f_revision fs) (f_delayed fs) (f_repainting fs)
    (f_repaint_started fs) (f_recovery fs) (f_recovery_task fs) (f_kinds fs) l (f_slots fs).

Definition with_repaint (fs : FeedState) (repainting started : bool) : FeedState :=
  mkFeed (f_fields fs) (f_capture_all fs) (f_consumers fs) (f_layout fs) (f_image fs) (f_last_update fs)
    (f_live fs) (f_streams_active fs) (f_revision fs) (f_delayed fs) repainting started
    (f_recovery fs) (f_recovery_task fs) (f_kinds fs) (f_lifecycle fs) (f_slots fs).

Definition with_recovery (fs : FeedState) (r : option FeedRecovery) (task : bool) : FeedState :=
  mkFeed (f_fields fs) (f_capture_all fs) (f_consumers fs) (f_layout fs) (f_image fs) (f_last_update fs)
    (f_live fs) (f_streams_active fs) (f_revision fs) (f_delayed fs) (f_repainting fs)
    (f_repaint_started fs) r task (f_kinds fs) (f_lifecycle fs) (f_slots fs).

Definition with_streams (fs : FeedState) (active : option bool) (revision : Z) : FeedState :=
  mkFeed (f_fields fs) (f_capture_all fs) (f_consumers fs) (f_layout fs) (f_image fs) (f_last_update fs)
    (f_live fs) active revision (f_delayed fs) (f_repainting fs)
    (f_repaint_started fs) (f_recovery fs) (f_recovery_task fs) (f_kinds fs) (f_lifecycle fs) (f_slots fs).

Definition with_live (fs : FeedState) (live : bool) (revision : Z) : FeedState :=
  mkFeed (f_fields fs) (f_capture_all fs) (f_consumers fs) (f_layout fs) (f_image fs) (f_last_update fs)
    live (f_streams_active fs) revision (f_delayed fs) (f_repainting fs)
    (f_repaint_started fs) (f_recovery fs) (f_recovery_task fs) (f_kinds fs) (f_lifecycle fs) (f_slots fs).

(** Run a consumer step over the consumers, collecting effects. *)
Fixpoint each_consumer (step : ConsumerTopic -> ConsumerTopic * list Effect) (cs : list ConsumerTopic)
  : list ConsumerTopic * list Effect :=
  match cs with
  | [] => ([], [])
  | c :: cs =>
      let '(c, fx) := step c in
      let '(cs, fxs) := each_consumer step cs in (c :: cs, (fx ++ fxs)%list)
  end.

(** A loss fails delta consumers and is recorded for the others. *)
Definition lose_consumer (ow : nat * nat -> Owner) (at_us revision : Z) (c : ConsumerTopic)
  : ConsumerTopic * list Effect :=
  let o := ow (c_id c) in
  if negb (ow_alive o) then (c, [])
  else if negb (c_active c) || ow_closed o || ow_stream_closed o then (set_active c false, [])
  else
    let st := record_dataloss (c_projection c) (Some at_us) in
    if ow_deltas o then
      (set_active (set_projected c st) false,
       [EDeliver (c_id c) (Err (dataloss_error st)); EAdminLoss (c_id c); EClearActive (c_id c)])
    else
      (set_losses (set_projected c st) (c_pending_data_loss c + 1) at_us,
       if ow_state_delivery o then [EMark (c_id c) revision true] else []).

(** Whether a loss leaves the consumer waiting for a fresh image. *)
Definition keeps_image (ow : nat * nat -> Owner) (c : ConsumerTopic) : bool :=
  let o := ow (c_id c) in
  ow_alive o && c_active c && negb (ow_closed o) && negb (ow_stream_closed o) && negb (ow_deltas o).

Definition lose_recovery (r : option FeedRecovery) : FeedRecovery :=
  match r with
  | Some rec =>
      match stage rec with
      | QueuedInitial | WaitingInitialPaint => mkRecovery (stage rec) true
      | _ => rec
      end
  | None => mkRecovery QueuedInitial false
  end.

Definition queued (r : FeedRecovery) : bool :=
  match stage r with QueuedInitial | QueuedRestart => true | _ => false end.

Definition on_data_loss (ow : nat * nat -> Owner) (at_us : Z) (fs : FeedState)
  : FeedState * list Effect :=
  if ended (f_lifecycle fs) then (fs, [])
  else
    let revision := u64_saturating_add (f_revision fs) 1 in
    let '(cs, fx) := each_consumer (lose_consumer ow at_us revision) (f_consumers fs) in
    let fs' := with_live (with_consumers fs cs) false revision in
    if existsb (keeps_image ow) (f_consumers fs) then
      let r := lose_recovery (f_recovery fs) in
      let schedule := queued r && negb (f_recovery_task fs) in
      (with_recovery (with_repaint (with_lifecycle fs' FPending) true false) (Some r)
         (f_recovery_task fs || schedule),
       (fx ++ (if schedule then [EScheduleRecovery] else []) ++ [EScheduleCleanup])%list)
    else (with_lifecycle fs' FFailed, (fx ++ [EScheduleCleanup])%list).

(** The message of a terminal error. *)
Definition error_detail (e : BlpError) : string :=
  match e with
  | Internal d | SubscriptionFailure _ (Some d) => d
  | _ => blp_display e
  end.

Definition fail_consumer (ow : nat * nat -> Owner) (reason : string) (terminated : bool)
  (c : ConsumerTopic) : ConsumerTopic * list Effect :=
  let o := ow (c_id c) in
  if negb (ow_alive o) then (c, [])
  else if ow_stream_closed o then (set_active c false, [])
  else (set_active c false, [EFailTopic (c_id c) reason terminated]).

(** [session_end] is the event that ended the upstream session, if it ended. *)
Definition on_error (ow : nat * nat -> Owner) (at_us : Z) (session_end : option string)
  (fs : FeedState) (e : BlpError) : FeedState * list Effect :=
  match e with
  | SubscriptionDataLoss _ _ => on_data_loss ow at_us fs
  | _ =>
      if ended (f_lifecycle fs) then (fs, [])
      else
        let detail := error_detail e in
        let '(reason, terminated) :=
          match e, session_end with
          | SubscriptionFailure _ _, _ => (detail, false)
          | _, Some event => (event ++ ": " ++ detail, true)
          | _, None => (detail, false)
          end in
        let '(cs, fx) := each_consumer (fail_consumer ow reason terminated) (f_consumers fs) in
        (with_lifecycle (with_consumers fs cs) FFailed, (fx ++ [EScheduleCleanup])%list)
  end.

Definition reject_consumer (ow : nat * nat -> Owner) (element detail : string) (scalar : bool)
  (c : ConsumerTopic) : ConsumerTopic * list Effect :=
  let o := ow (c_id c) in
  if negb (ow_alive o) then (c, [])
  else if ow_stream_closed o then (set_active c false, [])
  else if c_active c && (bool_decide (element ∈ c_explicit_fields c) || (scalar && ow_all_fields o))
  then (set_active c false,
        [EDeliver (c_id c) (Err (SchemaUnsupported element detail)); EClearActive (c_id c)])
  else (c, []).

Definition on_field_error (ow : nat * nat -> Owner) (fs : FeedState) (e : BlpError) (scalar : bool)
  : FeedState * list Effect :=
  match e with
  | SchemaUnsupported element detail =>
      let '(cs, fx) := each_consumer (reject_consumer ow element detail scalar) (f_consumers fs) in
      (with_consumers fs cs, fx)
  | _ => (fs, [])
  end.

Definition mark_consumer (ow : nat * nat -> Owner) (revision : Z) (c : ConsumerTopic) : list Effect :=
  let o := ow (c_id c) in
  if c_active c && ow_alive o && negb (ow_closed o) && negb (ow_stream_closed o) && ow_state_delivery o
  then [EMark (c_id c) revision false] else [].

Definition on_stream_availability (ow : nat * nat -> Owner) (fs : FeedState) (active : bool)
  : FeedState * list Effect :=
  if ended (f_lifecycle fs) || bool_decide (f_streams_active fs = Some active) then (fs, [])
  else
    let revision := u64_saturating_add (f_revision fs) 1 in
    (with_streams fs (Some active) revision, f_consumers fs ≫= mark_consumer ow revision).

(** What a status of the upstream topic changes in the feed itself: did the subscription
    start, did it end, is it available. *)
Definition on_status (fs : FeedState) (started terminal : bool) (availability : option bool)
  : FeedState :=
  let fs :=
    if started then
      let fs := if f_repainting fs then with_repaint fs (f_repainting fs) false else fs in
      match f_recovery fs with
      | Some (mkRecovery WaitingRestartStart r) =>
          with_recovery fs (Some (mkRecovery WaitingRestartPaint r)) (f_recovery_task fs)
      | _ => fs
      end
    else fs in
  let fs := if terminal then with_lifecycle fs FFailed else fs in
  match availability with
  | Some active =>
      if bool_decide (f_streams_active fs = Some active) then fs
      else with_streams fs (Some active) (u64_saturating_add (f_revision fs) 1)
  | None => fs
  end.

(** ** Resubscription and its task *)

(** The first critical section of [resubscribe]; the command carries the fields and the
    known kinds. *)
Definition begin_resubscribe (mktdata : bool) (fs : FeedState) : FeedState :=
  with_repaint fs (mktdata || bool_decide (f_recovery fs <> None)) false.

(** Where the task spawned by [schedule_recovery] is: not yet running, before its
    critical section, before that of [resubscribe], before the command, after an error. *)
Inductive TaskPc : Type := TSpawn | TLoop | TResubscribe | TCommand | TFailed.

(** The critical section of the task: what to do next, [None] when it ends. *)
Definition recovery_decide (shutdown : bool) (fs : FeedState) : FeedState * option TaskPc :=
  if shutdown || ended (f_lifecycle fs) then (with_recovery fs None false, None)
  else
    match f_recovery fs with
    | Some (mkRecovery QueuedInitial r) =>
        (with_recovery fs (Some (mkRecovery WaitingInitialPaint r)) (f_recovery_task fs), Some TResubscribe)
    | Some (mkRecovery QueuedRestart r) =>
        (with_recovery fs (Some (mkRecovery WaitingRestartStart r)) (f_recovery_task fs), Some TResubscribe)
    | r => (with_recovery fs r false, None)
    end.

(** ** Fields and kinds *)

Definition grow_one (acc : list string * bool) (field : string) : list string * bool :=
  let '(fields, changed) := acc in
  if bool_decide (field ∈ fields) then acc else ((fields ++ [field])%list, true).

Definition with_fields (fs : FeedState) (fields : list string) (cs : list ConsumerTopic) : FeedState :=
  mkFeed fields (f_capture_all fs) cs (f_layout fs) (f_image fs) (f_last_update fs)
    (f_live fs) (f_streams_active fs) (f_revision fs) (f_delayed fs) (f_repainting fs)
    (f_repaint_started fs) (f_recovery fs) (f_recovery_task fs) (f_kinds fs) (f_lifecycle fs) (f_slots fs).

Definition grow_union (fs : FeedState) (fields : list string) : FeedState * bool :=
  let '(union, changed) := fold_left grow_one fields (f_fields fs, false) in
  let cs :=
    if changed && bool_decide (f_last_update fs <> None)
    then (fun c => if c_awaiting_repaint c then c
                   else set_awaiting c false (c_awaiting_repaint c)) <$> f_consumers fs
    else f_consumers fs in
  (with_fields fs union cs, changed).

(** Kinds of fields that have none yet. *)
Definition merge_kind (kinds : gmap string FieldKind) (field : string) (kind : FieldKind)
  : gmap string FieldKind :=
  if decide (kind = KUnknown) then kinds
  else match kinds !! field with Some _ => kinds | None => <[field := kind]> kinds end.

Definition merge_kinds (target hints : gmap string FieldKind) : gmap string FieldKind :=
  fold_left (fun ks '(f, k) => merge_kind ks f k) (map_to_list hints) target.

(** Names of the union without a column get one at the end. *)
Definition add_column (metas : list FieldMeta) (name : string) : list FieldMeta :=
  if existsb (fun m => bool_decide (meta_name m = name)) metas then metas
  else (metas ++ [mkMeta name (as_u16 (length metas)) KUnknown false])%list.

Definition seed_column (kinds : gmap string FieldKind) (m : FieldMeta) : FieldMeta :=
  match meta_kind m, kinds !! meta_name m with
  | KUnknown, Some kind => mkMeta (meta_name m) (meta_index m) kind true
  | _, _ => m
  end.

(** [addr] gives the address of a layout it allocates. *)
Definition seed_image_kinds (addr : FieldLayout -> nat) (fs : FeedState) (hints : gmap string FieldKind) : FeedState :=
  let kinds := merge_kinds (f_kinds fs) hints in
  let old := match f_layout fs with Some l => layout_fields (layout_of l) | None => [] end in
  let metas := fold_left add_column (f_fields fs ++ [EVENT_TYPE; EVENT_SUBTYPE])%list old in
  let seeded := seed_column kinds <$> metas in
  let changed := bool_decide (f_layout fs = None) || negb (bool_decide (length metas = length old))
                 || existsb (fun m => bool_decide (meta_kind m = KUnknown)
                                      && bool_decide (is_Some (kinds !! meta_name m))) metas in
  let '(layout, image) :=
    if changed then
      let version := match f_layout fs with
                     | Some l => bump (Update.layout_version (layout_of l))
                     | None => 1%Z
                     end in
      (Some (mkShared (addr (mkLayout version seeded)) (mkLayout version seeded)), resize (length seeded) None (f_image fs))
    else (f_layout fs, f_image fs) in
  mkFeed (f_fields fs) (f_capture_all fs) (f_consumers fs) layout image (f_last_update fs)
    (f_live fs) (f_streams_active fs) (f_revision fs) (f_delayed fs) (f_repainting fs)
    (f_repaint_started fs) (f_recovery fs) (f_recovery_task fs) kinds (f_lifecycle fs) (f_slots fs).

(** The image as one update, its metadata that of an initial paint. *)
Definition initial_value (image : list (option UpdateValue)) (m : FieldMeta) : option UpdateField :=
  mkField (meta_index m) <$>
    if decide (meta_name m = EVENT_TYPE) then Some (VStr "SUMMARY")
    else if decide (meta_name m = EVENT_SUBTYPE) then Some (VStr "INITPAINT")
    else image_at image (meta_index m).

Definition initial_image_update (now : Z) (fs : FeedState) : option SharedUpdate :=
  if bool_decide (f_last_update fs = None) || bool_decide (f_recovery fs <> None) then None
  else
    match f_layout fs with
    | None => None
    | Some l => Some (mkSharedUpdate l (omap (initial_value (f_image fs)) (layout_fields (layout_of l))) now)
    end.

(** ** Consumers that come and go *)

(** The consumer of [add_validated], before the image. *)
Definition new_consumer (id : nat * nat) (projection : SubscriptionState) (fields : list string)
  (created growth : bool) (fs : FeedState) : ConsumerTopic :=
  mkConsumer id true projection fields
    (created || growth || bool_decide (f_last_update fs = None) || bool_decide (f_recovery fs <> None))
    growth false None 0 0.

(** The critical section of [add_validated] that attaches a consumer to a feed, with the addresses of layouts it allocates; [None] when the feed ended.
    [accepted] is whether its policy lets the known field exceptions pass.  The flag says
    whether the union grew, so that a resubscription follows. *)
Definition attach (mktdata : bool) (addr : FieldLayout -> nat) (now : Z) (o : Owner) (created accepted : bool)
  (id : nat * nat) (projection : SubscriptionState) (fields : list string)
  (kinds : gmap string FieldKind) (fs : FeedState) : option (FeedState * list Effect * bool) :=
  if ended (f_lifecycle fs) then None
  else
    let '(fs, growth) := grow_union fs fields in
    let fs := seed_image_kinds addr fs kinds in
    let '(c, fx, allowed) :=
      apply_delayed o (new_consumer id projection fields created growth fs) (f_delayed fs) in
    let c := if allowed && negb accepted then set_active c false else c in
    let allowed := allowed && accepted in
    let '(c, fx) :=
      if allowed && ow_deltas o && negb created && mktdata then
        match initial_image_update now fs with
        | Some image =>
            let '(st, _, em) := project_update (owner_env o) (c_projection c) image false in
            (set_projected c st, (fx ++ emit id em)%list)
        | None => (c, fx)
        end
      else (c, fx) in
    let fx :=
      if allowed && ow_state_delivery o then
        (fx ++ [ERegister id (f_revision fs) (sub_topic projection)]
         ++ if bool_decide (f_recovery fs <> None) then [EMark id (f_revision fs) true] else [])%list
      else fx in
    Some (with_consumers fs (f_consumers fs ++ [c])%list,
          (fx ++ if allowed then [] else [EScheduleCleanup])%list, growth).

(** A membership is left by its key, of its owner or of one that is gone. *)
Definition detach (ow : nat * nat -> Owner) (id : nat * nat) (fs : FeedState) : FeedState :=
  with_consumers fs
    (List.filter (fun c => negb (bool_decide ((c_id c).2 = id.2)
                                 && (negb (ow_alive (ow (c_id c))) || bool_decide ((c_id c).1 = id.1))))
       (f_consumers fs)).

(** The part of [schedule_cleanup] for one feed. *)
Definition cleanup (ow : nat * nat -> Owner) (fs : FeedState) : FeedState :=
  let failed := match f_lifecycle fs with FFailed => true | _ => false end in
  with_consumers fs
    (List.filter (fun c => let o := ow (c_id c) in
       ow_alive o && negb failed && c_active c && negb (ow_closed o) && negb (ow_stream_closed o))
       (f_consumers fs)).

(** ** The feed and its tasks *)

Record FeedSys : Type := mkSys { sys_feed : FeedState; sys_registered : bool; sys_tasks : list TaskPc }.

Definition schedules (fx : list Effect) : bool :=
  existsb (fun e => match e with EScheduleRecovery => true | _ => false end) fx.

(** A scheduled recovery is a task that has not started yet. *)
Definition spawn (fx : list Effect) (tasks : list TaskPc) : list TaskPc :=
  if schedules fx then (tasks ++ [TSpawn])%list else tasks.

Inductive FeedEvent : Type :=
| EvUpdate (ow : nat * nat -> Owner) (u : SharedUpdate)
| EvError (ow : nat * nat -> Owner) (at_us : Z) (session_end : option string) (e : BlpError)
| EvFieldError (ow : nat * nat -> Owner) (e : BlpError) (scalar : bool)
| EvAvailability (ow : nat * nat -> Owner) (active : bool)
| EvStatus (started terminal : bool) (availability : option bool)
| EvAttach (addr : FieldLayout -> nat) (now : Z) (o : Owner) (created accepted : bool) (id : nat * nat)
    (projection : SubscriptionState) (fields : list string) (kinds : gmap string FieldKind)
| EvGrowResubscribe
| EvDetach (ow : nat * nat -> Owner) (id : nat * nat)
| EvCleanup (ow : nat * nat -> Owner).

(** One critical section of the feed. *)
Definition feed_event (mktdata : bool) (fs : FeedState) (ev : FeedEvent) : FeedState * list Effect :=
  match ev with
  | EvUpdate ow u => on_update mktdata ow fs u
  | EvError ow at_us session_end e => on_error ow at_us session_end fs e
  | EvFieldError ow e scalar => on_field_error ow fs e scalar
  | EvAvailability ow active => on_stream_availability ow fs active
  | EvStatus started terminal availability => (on_status fs started terminal availability, [])
  | EvAttach addr now o created accepted id projection fields kinds =>
      match attach mktdata addr now o created accepted id projection fields kinds fs with
      | Some (fs, fx, _) => (fs, fx)
      | None => (fs, [])
      end
  | EvGrowResubscribe => (begin_resubscribe mktdata fs, [])
  | EvDetach ow id => (detach ow id fs, [])
  | EvCleanup ow => (cleanup ow fs, [])
  end.

Inductive SysEvent : Type :=
| SysFeed (ev : FeedEvent)
| SysTask (shutdown command_ok : bool) (ow : nat * nat -> Owner) (at_us : Z) (detail : string)
| SysUnregister
| SysClose.

(** The task at the head takes its next step. *)
Definition task_step (mktdata shutdown command_ok : bool) (ow : nat * nat -> Owner) (at_us : Z)
  (detail : string) (s : FeedSys) : FeedSys * list Effect :=
  let '(mkSys fs reg tasks) := s in
  match tasks with
  | [] => (s, [])
  | TSpawn :: ts => (mkSys fs reg (if reg then TLoop :: ts else ts), [])
  | TLoop :: ts =>
      let '(fs, next) := recovery_decide shutdown fs in
      (mkSys fs reg (match next with Some pc => pc :: ts | None => ts end), [])
  | TResubscribe :: ts => (mkSys (begin_resubscribe mktdata fs) reg (TCommand :: ts), [])
  | TCommand :: ts =>
      if command_ok then (mkSys fs reg (TLoop :: ts), [])
      else let '(fs, fx) := on_error ow at_us None fs (Internal detail) in
           (mkSys fs reg (TFailed :: spawn fx ts), fx)
  | TFailed :: ts => (mkSys (with_recovery fs None false) reg ts, [])
  end.

Definition sys_step (mktdata : bool) (s : FeedSys) (ev : SysEvent) : FeedSys * list Effect :=
  match ev with
  | SysFeed ev =>
      let '(fs, fx) := feed_event mktdata (sys_feed s) ev in
      (mkSys fs (sys_registered s) (spawn fx (sys_tasks s)), fx)
  | SysTask shutdown ok ow at_us detail => task_step mktdata shutdown ok ow at_us detail s
  | SysUnregister => (mkSys (sys_feed s) false (sys_tasks s), [])
  | SysClose => (mkSys (with_lifecycle (sys_feed s) FClosed) (sys_registered s) (sys_tasks s), [])
  end.

Fixpoint sys_run (mktdata : bool) (s : FeedSys) (evs : list SysEvent) : FeedSys * list Effect :=
  match evs with
  | [] => (s, [])
  | ev :: evs =>
      let '(s, fx) := sys_step mktdata s ev in
      let '(s, fxs) := sys_run mktdata s evs in (s, (fx ++ fxs)%list)
  end.

Definition empty_feed (fields : list string) : FeedState :=
  mkFeed fields false [] None [] None false None 0 None false false None false ∅ FPending
    (None, mkSlots None None None).

(** [Feed::new], registered. *)
Definition feed_new (addr : FieldLayout -> nat) (fields : list string) (kinds : gmap string FieldKind) : FeedSys :=
  mkSys (seed_image_kinds addr (empty_feed fields) kinds) true [].

(** ** Recoveries are never lost *)

Lemma schedules_app fx1 fx2 : schedules (fx1 ++ fx2) = schedules fx1 || schedules fx2.
Proof. apply existsb_app. Qed.

Lemma emit_quiet c em : schedules (emit c em) = false.
Proof. by destruct em. Qed.

Lemma apply_delayed_quiet o c d : schedules (apply_delayed o c d).1.2 = false.
Proof.
  unfold apply_delayed. repeat case_match; simpl; rewrite ?schedules_app; try done;
    repeat case_match; done.
Qed.

Lemma tick_consumer_quiet ow tk c : schedules (tick_consumer ow tk c).1.1.2 = false.
Proof.
  unfold tick_consumer. do 2 (case_match; [done|]).
  pose proof (apply_delayed_quiet (ow (c_id c)) c (tk_delayed tk)) as Hq.
  destruct (apply_delayed _ c _) as [[c1 fx] allowed]. simpl in Hq.
  destruct (negb allowed); [done|]. destruct (tk_frozen tk); [done|].
  destruct (tick_outcome _ tk _) as [[[st out] em]|]; [|done].
  destruct out; [|by simpl; rewrite !schedules_app, Hq, emit_quiet..].
  repeat case_match; simpl; rewrite ?schedules_app, Hq, emit_quiet; done.
Qed.

Lemma tick_consumers_quiet ow tk cs : schedules (tick_consumers ow tk cs).1.1.2 = false.
Proof.
  induction cs as [|c cs IH]; simpl; [done|]. pose proof (tick_consumer_quiet ow tk c) as Hq.
  destruct (tick_consumer ow tk c) as [[[c' fx] cl] no].
  destruct (tick_consumers ow tk cs) as [[[cs' fxs] cls] nos]. simpl in *.
  by rewrite schedules_app, Hq, IH.
Qed.

Lemma each_consumer_quiet step cs :
  (forall c, schedules (step c).2 = false) -> schedules (each_consumer step cs).2 = false.
Proof.
  intros Hs. induction cs as [|c cs IH]; simpl; [done|]. specialize (Hs c).
  destruct (step c) as [c' fx], (each_consumer step cs) as [cs' fxs]. simpl in *.
  by rewrite schedules_app, Hs, IH.
Qed.

Lemma bind_quiet {A} (f : A -> list Effect) (l : list A) :
  (forall x, schedules (f x) = false) -> schedules (l ≫= f) = false.
Proof. intros Hf. induction l as [|x l IH]; csimpl; [done|]. by rewrite schedules_app, Hf, IH. Qed.

Definition is_queued (fs : FeedState) : bool :=
  match f_recovery fs with Some r => queued r | None => false end.

(** What an event of the feed does to a recovery: a queued recovery has its task flag, and
    the flag is raised together with the effect that spawns the task. *)
Record scheduled (fs fs' : FeedState) (fx : list Effect) : Prop := mkScheduled {
  sc_flag : f_recovery_task fs' = f_recovery_task fs || schedules fx;
  sc_once : schedules fx = true -> f_recovery_task fs = false;
  sc_queued : is_queued fs' = true -> is_queued fs = true \/ f_recovery_task fs' = true
}.

Lemma scheduled_same fs fs' fx :
  f_recovery fs' = f_recovery fs -> f_recovery_task fs' = f_recovery_task fs ->
  schedules fx = false -> scheduled fs fs' fx.
Proof.
  intros Hr Ht Hq. split; [by rewrite Ht, Hq, orb_false_r|by rewrite Hq|].
  unfold is_queued. rewrite Hr. auto.
Qed.

Lemma on_update_scheduled mktdata ow fs u :
  scheduled fs (on_update mktdata ow fs u).1 (on_update mktdata ow fs u).2.
Proof.
  unfold on_update. destruct (ended _); [by apply scheduled_same|].
  destruct (scan _ _) as [subtype delayed]. set (initpaint := bool_decide _).
  assert (forall r recovered frozen restart,
    recovery_paint (f_recovery fs) initpaint = (r, recovered, frozen, restart) ->
    (forall q, r = Some q -> queued q = true -> is_queued fs = true \/ restart = true)) as Hp.
  { unfold recovery_paint, is_queued. intros r recovered frozen restart.
    destruct (f_recovery fs) as [[[] []]|]; simpl; destruct initpaint; naive_solver. }
  destruct (recovery_paint _ _) as [[[r recovered] frozen] restart] eqn:Hr.
  specialize (Hp _ _ _ _ eq_refl).
  set (fs1 := if frozen then _ else _). set (tk := mkTick _ _ _ _ _ _ _ _ _ _).
  assert (f_recovery fs1 = r /\ f_recovery_task fs1
    = f_recovery_task fs || (restart && negb (f_recovery_task fs))) as [H1 H2]
    by (unfold fs1; by destruct frozen).
  pose proof (tick_consumers_quiet ow tk (f_consumers fs1)) as Hq.
  destruct (tick_consumers ow tk (f_consumers fs1)) as [[[cs fx] cleanup] notices]. simpl in *.
  split; simpl; rewrite ?schedules_app, ?Hq, ?(bind_quiet _ notices) by by intros [].
  - rewrite H2. by destruct restart, (f_recovery_task fs), cleanup.
  - by destruct restart, (f_recovery_task fs), cleanup.
  - unfold is_queued at 1. simpl. rewrite H1, H2. destruct r as [q|]; [|done]. intros Hqu.
    destruct (Hp q eq_refl Hqu) as [|Hre]; [by left|]. right. rewrite Hre. by destruct (f_recovery_task fs).
Qed.

Lemma on_data_loss_scheduled ow at_us fs :
  scheduled fs (on_data_loss ow at_us fs).1 (on_data_loss ow at_us fs).2.
Proof.
  unfold on_data_loss. destruct (ended _); [by apply scheduled_same|].
  assert (schedules (each_consumer (lose_consumer ow at_us (u64_saturating_add (f_revision fs) 1))
    (f_consumers fs)).2 = false) as Hq.
  { apply each_consumer_quiet. intros c. unfold lose_consumer. repeat case_match; done. }
  destruct (each_consumer _ _) as [cs fx]. simpl in Hq.
  destruct (existsb _ _).
  - split; simpl; rewrite ?schedules_app, ?Hq.
    + by destruct (queued _), (f_recovery_task fs).
    + by destruct (queued _), (f_recovery_task fs).
    + unfold is_queued. simpl. destruct (queued _); [|done]. right. by destruct (f_recovery_task fs).
  - apply scheduled_same; try done. simpl. by rewrite schedules_app, Hq.
Qed.

Lemma on_error_scheduled ow at_us se fs e :
  scheduled fs (on_error ow at_us se fs e).1 (on_error ow at_us se fs e).2.
Proof.
  assert (forall reason t, scheduled fs
    (let '(cs, fx) := each_consumer (fail_consumer ow reason t) (f_consumers fs) in
     (with_lifecycle (with_consumers fs cs) FFailed, (fx ++ [EScheduleCleanup])%list)).1
    (let '(cs, fx) := each_consumer (fail_consumer ow reason t) (f_consumers fs) in
     (with_lifecycle (with_consumers fs cs) FFailed, (fx ++ [EScheduleCleanup])%list)).2) as H.
  { intros reason t.
    assert (schedules (each_consumer (fail_consumer ow reason t) (f_consumers fs)).2 = false) as Hq.
    { apply each_consumer_quiet. intros c. unfold fail_consumer. repeat case_match; done. }
    destruct (each_consumer _ _) as [cs fx]. apply scheduled_same; try done. simpl in *.
    by rewrite schedules_app, Hq. }
  unfold on_error. destruct e; try apply on_data_loss_scheduled;
    (destruct (ended _); [by apply scheduled_same|]); destruct se; apply H.
Qed.

(** What a start makes of a recovery. *)
Definition started_recovery (r : option FeedRecovery) : option FeedRecovery :=
  match r with
  | Some (mkRecovery WaitingRestartStart q) => Some (mkRecovery WaitingRestartPaint q)
  | r => r
  end.

Lemma on_status_recovery fs started terminal av :
  f_recovery (on_status fs started terminal av)
  = (if started then started_recovery (f_recovery fs) else f_recovery fs)
  /\ f_recovery_task (on_status fs started terminal av) = f_recovery_task fs.
Proof.
  unfold on_status. set (fs1 := if started then _ else _).
  assert (f_recovery fs1 = (if started then started_recovery (f_recovery fs) else f_recovery fs)
    /\ f_recovery_task fs1 = f_recovery_task fs) as [<- <-].
  { unfold fs1. destruct started; [|done].
    destruct (f_repainting fs); simpl; destruct (f_recovery fs) as [[[] q]|] eqn:Hr; simpl; rewrite ?Hr; done. }
  destruct terminal, av as [active|]; simpl; try done; by case_match.
Qed.

Lemma on_status_scheduled fs started terminal av : scheduled fs (on_status fs started terminal av) [].
Proof.
  destruct (on_status_recovery fs started terminal av) as [Hr Ht].
  split; [by rewrite Ht, orb_false_r|done|]. unfold is_queued. rewrite Hr.
  destruct started, (f_recovery fs) as [[[] q]|]; simpl; auto.
Qed.

Lemma seed_image_recovery addr fs kinds :
  f_recovery (seed_image_kinds addr fs kinds) = f_recovery fs
  /\ f_recovery_task (seed_image_kinds addr fs kinds) = f_recovery_task fs.
Proof. unfold seed_image_kinds. by repeat case_match. Qed.

Lemma attach_scheduled mktdata addr now o created accepted id st fields kinds fs fs' fx g :
  attach mktdata addr now o created accepted id st fields kinds fs = Some (fs', fx, g) ->
  scheduled fs fs' fx.
Proof.
  unfold attach. destruct (ended _); [done|].
  destruct (grow_union fs fields) as [fs1 growth] eqn:Hg.
  assert (f_recovery fs1 = f_recovery fs /\ f_recovery_task fs1 = f_recovery_task fs) as [Hr1 Ht1].
  { unfold grow_union in Hg. destruct (fold_left grow_one _ _). by simplify_eq. }
  destruct (seed_image_recovery addr fs1 kinds) as [Hr2 Ht2].
  set (fs2 := seed_image_kinds addr fs1 kinds) in *.
  pose proof (apply_delayed_quiet o (new_consumer id st fields created growth fs2) (f_delayed fs2)) as Hq.
  destruct (apply_delayed o _ _) as [[c fxd] allowed]. simpl in Hq.
  set (imaged := if allowed && accepted && ow_deltas o && negb created && mktdata then _ else _).
  assert (schedules imaged.2 = false) as Hi.
  { unfold imaged. destruct (_ && _ && _ && _ && _); [|done].
    destruct (initial_image_update now fs2); [|done].
    destruct (project_update _ _ _ _) as [[st' out] em]. simpl. by rewrite schedules_app, Hq, emit_quiet. }
  destruct imaged as [c' fxi]. simpl in Hi. intros [= <- <- <-].
  apply scheduled_same; simpl; [congruence|congruence|].
  rewrite schedules_app. repeat case_match; rewrite ?schedules_app, Hi; done.
Qed.

Lemma feed_event_scheduled mktdata fs ev :
  scheduled fs (feed_event mktdata fs ev).1 (feed_event mktdata fs ev).2.
Proof.
  destruct ev; simpl; try by apply scheduled_same.
  - apply on_update_scheduled.
  - apply on_error_scheduled.
  - unfold on_field_error. destruct e; try by apply scheduled_same.
    assert (schedules (each_consumer (reject_consumer ow element detail scalar) (f_consumers fs)).2 = false) as Hq.
    { apply each_consumer_quiet. intros c. unfold reject_consumer. repeat case_match; done. }
    destruct (each_consumer _ _) as [cs fx]. by apply scheduled_same.
  - unfold on_stream_availability. destruct (_ || _); apply scheduled_same; try done.
    apply bind_quiet. intros c. unfold mark_consumer. by case_match.
  - apply on_status_scheduled.
  - destruct (attach _ _ _ _ _ _ _ _ _ _) as [[[fs' fx] g]|] eqn:Ha; [|by apply scheduled_same].
    by eapply attach_scheduled.
Qed.

Record recovery_ok (s : FeedSys) : Prop := mkRecoveryOk {
  ro_one : length (sys_tasks s) <= 1;
  ro_task : sys_tasks s <> [] -> f_recovery_task (sys_feed s) = true;
  ro_live : sys_registered s = true -> f_recovery_task (sys_feed s) = true -> sys_tasks s <> [];
  ro_queued : is_queued (sys_feed s) = true -> f_recovery_task (sys_feed s) = true
}.

Lemma recovery_ok_event mktdata s ev : recovery_ok s -> recovery_ok (sys_step mktdata s (SysFeed ev)).1.
Proof.
  intros [H1 H2 H3 H4]. destruct (feed_event_scheduled mktdata (sys_feed s) ev) as [Hf Ho Hq]. simpl.
  destruct (feed_event mktdata (sys_feed s) ev) as [fs fx]. simpl in *. unfold spawn.
  destruct (schedules fx) eqn:Hs.
  - specialize (Ho eq_refl). assert (sys_tasks s = []) as Ht.
    { destruct (sys_tasks s); [done|]. rewrite H2 in Ho; [done|done]. }
    rewrite Ht. split; simpl; [lia| |done|]; intros _; rewrite Hf; by rewrite orb_true_r.
  - rewrite orb_false_r in Hf. split; simpl; rewrite ?Hf; auto.
    intros Hi. destruct (Hq Hi) as [|]; [auto|congruence].
Qed.

Lemma recovery_ok_task mktdata shutdown ok ow at_us detail s :
  recovery_ok s -> recovery_ok (task_step mktdata shutdown ok ow at_us detail s).1.
Proof.
  destruct s as [fs reg tasks]. intros [H1 H2 H3 H4]. simpl in H1, H2, H3, H4.
  destruct tasks as [|pc [|? ?]]; [by split| |simpl in H1; lia]. specialize (H2 ltac:(done)).
  unfold task_step. destruct pc.
  - destruct reg; split; simpl; try done; auto.
  - unfold recovery_decide, is_queued in *.
    destruct (shutdown || ended (f_lifecycle fs)); [by split; unfold is_queued; simpl; auto|].
    destruct (f_recovery fs) as [[[] q]|] eqn:Hr; split; unfold is_queued; simpl; try done; auto.
  - by split.
  - destruct ok; [by split|].
    pose proof (on_error_scheduled ow at_us None fs (Internal detail)) as [Hf Ho Hq].
    destruct (on_error ow at_us None fs (Internal detail)) as [fs' fx]. simpl in *.
    rewrite H2 in *. assert (schedules fx = false) as Hs by (destruct (schedules fx); auto).
    unfold spawn. rewrite Hs. split; simpl; rewrite ?Hf; auto.
  - by split; unfold is_queued; simpl; auto.
Qed.

Lemma recovery_ok_step mktdata s ev : recovery_ok s -> recovery_ok (sys_step mktdata s ev).1.
Proof.
  destruct ev as [ev|shutdown ok ow at_us detail| |]; intros Hok.
  - by apply recovery_ok_event.
  - by apply recovery_ok_task.
  - destruct Hok. by split.
  - destruct Hok as [H1 H2 H3 H4]. by split.
Qed.

Lemma sys_run_ok (P : FeedSys -> Prop) mktdata :
  (forall s ev, P s -> P (sys_step mktdata s ev).1) ->
  forall evs s, P s -> P (sys_run mktdata s evs).1.
Proof.
  intros Hs evs. induction evs as [|ev evs IH]; intros s Hp; simpl; [done|].
  specialize (Hs s ev Hp). destruct (sys_step mktdata s ev) as [s' fx].
  specialize (IH s' Hs). by destruct (sys_run mktdata s' evs) as [s'' fxs].
Qed.

Lemma feed_new_recovery addr fields kinds :
  f_recovery (sys_feed (feed_new addr fields kinds)) = None
  /\ f_recovery_task (sys_feed (feed_new addr fields kinds)) = false.
Proof. apply seed_image_recovery. Qed.

(** [k] steps of the task, whose commands succeed. *)
Fixpoint task_run (mktdata : bool) (ow : nat * nat -> Owner) (k : nat) (s : FeedSys) : FeedSys :=
  match k with
  | 0 => s
  | S k => task_run mktdata ow k (task_step mktdata false true ow 0 "" s).1
  end.

Lemma loop_takes_queue mktdata ow fs ts :
  is_queued (sys_feed (task_run mktdata ow 1 (mkSys fs true (TLoop :: ts)))) = false.
Proof.
  unfold is_queued. simpl. unfold recovery_decide. destruct (_ || _); [done|].
  by destruct (f_recovery fs) as [[[] q]|] eqn:Hr; simpl; rewrite ?Hr.
Qed.

(** The only task takes a queued recovery within three of its steps. *)
Lemma task_takes_queue mktdata ow s :
  recovery_ok s -> sys_registered s = true ->
  exists k, k <= 3 /\ is_queued (sys_feed (task_run mktdata ow k s)) = false.
Proof.
  intros [H1 H2 H3 H4] Hr. destruct (is_queued (sys_feed s)) eqn:Hq; [|by exists 0; split; [lia|]].
  specialize (H3 Hr (H4 eq_refl)). destruct s as [fs reg tasks]. simpl in *. subst reg.
  destruct tasks as [|pc ts]; [done|]. destruct pc.
  - exists 2. split; [lia|]. apply (loop_takes_queue mktdata ow fs ts).
  - exists 1. split; [lia|]. apply loop_takes_queue.
  - exists 3. split; [lia|]. apply (loop_takes_queue mktdata ow (begin_resubscribe mktdata fs) ts).
  - exists 2. split; [lia|]. apply (loop_takes_queue mktdata ow fs ts).
  - exists 1. split; [lia|]. done.
Qed.


(** A run in which a loss queues a recovery. *)
Definition sample_owner : Owner := mkOwner true false false true false true DpWarn false 0 None.

Definition sample_attach (id : nat * nat) : SysEvent :=
  SysFeed (EvAttach (fun _ => 0) 0 sample_owner true true id
             (sub_new "IBM US Equity" ["BID"] false) ["BID"] ∅).

Definition sample_loss : SysEvent :=
  SysFeed (EvError (fun _ => sample_owner) 5 None (SubscriptionDataLoss "feed-0" "")).

