(* ===== verification/FeedImage.v ===== *)
(** * The image of a feed

    The image a feed keeps is, whenever it serves it, the last value of each field over
    the updates since the feed began or, after a loss, since a fresh initial paint that
    came after the loss; while it waits for that paint it serves nothing. *)

From Stdlib Require Import Ascii String ZArith Lia.
From S2P Require Import Prelude Errors Update Subscription Decoder Projection Shared Feed.
Local Open Scope string_scope.

(** ** The reference image *)

(** The last values of a list of updates. *)
Definition image_of (us : list SharedUpdate) : list (option UpdateValue) :=
  fold_left (fun im u => apply_image im (length (layout_fields (layout_of (su_layout u)))) (su_values u)) us [].

Definition initpaint_of (u : SharedUpdate) : bool :=
  bool_decide ((scan (slots_of (layout_of (su_layout u))) (su_values u)).1 = Some "INITPAINT").

(** What a feed was told that bears on its image. *)
Inductive Told : Type := TUpdate (u : SharedUpdate) | TLoss.

Definition told (fs : FeedState) (ev : SysEvent) : list Told :=
  if ended (f_lifecycle fs) then []
  else
    match ev with
    | SysFeed (EvUpdate _ u) => [TUpdate u]
    | SysFeed (EvError _ _ _ (SubscriptionDataLoss _ _)) => [TLoss]
    | _ => []
    end.

Fixpoint told_run (mktdata : bool) (s : FeedSys) (evs : list SysEvent) (h : list Told)
  : FeedSys * list Told :=
  match evs with
  | [] => (s, h)
  | ev :: evs => told_run mktdata (sys_step mktdata s ev).1 evs (h ++ told (sys_feed s) ev)%list
  end.

(** Equal images, up to unknown values at the end. *)
Definition image_eq (a b : list (option UpdateValue)) : Prop := forall i, image_at a i = image_at b i.

#[export] Instance image_eq_equiv : Equivalence image_eq.
Proof. split; [by intros ? ?|intros ? ? H i; by rewrite H|intros ? ? ? H1 H2 i; by rewrite H1]. Qed.

Lemma image_at_resize im n i : image_at (resize n None im) i = if decide (i < n) then image_at im i else None.
Proof.
  unfold image_at. case_decide as Hi.
  - destruct (decide (i < length im)) as [Hl|Hl].
    + rewrite lookup_resize by done. done.
    + rewrite lookup_resize_new by lia. by rewrite lookup_ge_None_2 by lia.
  - by rewrite lookup_resize_old by lia.
Qed.

Lemma length_set_values values im :
  length (fold_left (fun im f => <[field_index f := Some (field_value f)]> im) values im) = length im.
Proof. revert im. induction values as [|f values IH]; intros im; simpl; [done|]. by rewrite IH, length_insert. Qed.

Lemma length_apply_image im n values : length (apply_image im n values) = n.
Proof. unfold apply_image. by rewrite length_set_values, length_resize. Qed.

(** Applying values respects equality of images. *)
#[export] Instance apply_image_proper : Proper (image_eq ==> (=) ==> (=) ==> image_eq) apply_image.
Proof.
  intros a b Hab n ? <- values ? <-. unfold apply_image.
  assert (image_eq (resize n None a) (resize n None b) /\ length (resize n None a) = length (resize n None b))
    as [He Hl].
  { split; [|by rewrite !length_resize]. intros i. rewrite !image_at_resize. by rewrite Hab. }
  revert He Hl. generalize (resize n None a) (resize n None b). clear.
  induction values as [|f values IH]; intros a b He Hl; simpl; [done|]. apply IH; [|by rewrite !length_insert].
  intros i. unfold image_at in *. destruct (decide (field_index f = i)) as [<-|Hne].
  - destruct (decide (field_index f < length a)) as [Hi|Hi].
    + rewrite !list_lookup_insert_eq by lia. done.
    + rewrite !list_insert_ge by lia. apply He.
  - rewrite !list_lookup_insert_ne by done. apply He.
Qed.

Lemma image_of_snoc us u :
  image_of (us ++ [u])
  = apply_image (image_of us) (length (layout_fields (layout_of (su_layout u)))) (su_values u).
Proof. unfold image_of. by rewrite fold_left_app. Qed.

Lemma cleared_image (im : list (option UpdateValue)) :
  image_eq ((fun _ => None) <$> im) [].
Proof. intros i. unfold image_at. rewrite list_lookup_fmap, lookup_nil. by destruct (im !! i). Qed.

(** ** What events do to the image *)

Definition slots_now (fs : FeedState) (u : SharedUpdate) : option SharedLayout * MetadataSlots :=
  resolve_slots (f_slots fs) (su_layout u).

Definition paints (fs : FeedState) (u : SharedUpdate) : bool :=
  bool_decide ((scan (slots_now fs u).2 (su_values u)).1 = Some "INITPAINT").

Lemma on_update_spec mktdata ow fs u :
  ended (f_lifecycle fs) = false ->
  let fs' := (on_update mktdata ow fs u).1 in
  let '(r, recovered, frozen, _) := recovery_paint (f_recovery fs) (paints fs u) in
  let image := if recovered then (fun _ => None) <$> f_image fs else f_image fs in
  f_recovery fs' = r /\ f_slots fs' = slots_now fs u
  /\ f_image fs' = (if frozen then image
      else apply_image image (length (layout_fields (layout_of (su_layout u)))) (su_values u))
  /\ f_layout fs' = (if frozen then f_layout fs else Some (su_layout u))
  /\ f_lifecycle fs' = (if frozen then f_lifecycle fs else FActive).
Proof.
  intros He. unfold on_update. rewrite He. unfold paints. fold (slots_now fs u).
  destruct (scan (slots_now fs u).2 (su_values u)) as [subtype delayed]. cbn [fst].
  destruct (recovery_paint _ _) as [[[r recovered] frozen] restart].
  set (tk := mkTick _ _ _ _ _ _ _ _ _ _).
  destruct (tick_consumers ow tk _) as [[[cs fx] cl] no]. by destruct frozen.
Qed.

(** A paint decides: recovered updates are served, the others withheld. *)
Lemma recovery_paint_spec r initpaint :
  let '(r', recovered, frozen, _) := recovery_paint r initpaint in
  (frozen = true -> is_Some r /\ is_Some r' /\ recovered = false)
  /\ (frozen = false -> r' = None /\ (recovered = false -> r = None) /\ (recovered = true -> initpaint = true /\ is_Some r)).
Proof. destruct r as [[[] []]|], initpaint; simpl; naive_solver. Qed.

(** A withheld update delivers no value. *)
Definition delivers (e : Effect) : bool := match e with EDeliver _ (Ok _) => true | _ => false end.

Lemma apply_delayed_withheld o c d : existsb delivers (apply_delayed o c d).1.2 = false.
Proof. unfold apply_delayed. repeat case_match; simpl; rewrite ?existsb_app; simpl; repeat case_match; done. Qed.

Lemma tick_withheld ow tk cs : tk_frozen tk = true -> existsb delivers (tick_consumers ow tk cs).1.1.2 = false.
Proof.
  intros Hf. induction cs as [|c cs IH]; simpl; [done|].
  assert (existsb delivers (tick_consumer ow tk c).1.1.2 = false) as Hc.
  { unfold tick_consumer. do 2 (case_match; [done|]).
    pose proof (apply_delayed_withheld (ow (c_id c)) c (tk_delayed tk)) as Hq.
    destruct (apply_delayed _ c _) as [[c1 fx] allowed]. rewrite Hf. by destruct allowed. }
  destruct (tick_consumer ow tk c) as [[[c' fx] cl] no].
  destruct (tick_consumers ow tk cs) as [[[cs' fxs] cls] nos]. simpl in *.
  by rewrite existsb_app, Hc, IH.
Qed.

Lemma on_update_withheld mktdata ow fs u :
  let '(fs', fx) := on_update mktdata ow fs u in
  f_recovery fs <> None -> f_recovery fs' <> None ->
  f_image fs' = f_image fs /\ existsb delivers fx = false.
Proof.
  destruct (ended (f_lifecycle fs)) eqn:He; [by unfold on_update; rewrite He|].
  pose proof (on_update_spec mktdata ow fs u He) as Hs.
  pose proof (recovery_paint_spec (f_recovery fs) (paints fs u)) as Hp.
  unfold on_update in *. rewrite He in *. unfold paints in *. fold (slots_now fs u) in *.
  destruct (scan (slots_now fs u).2 (su_values u)) as [subtype delayed]. cbn [fst] in *.
  destruct (recovery_paint _ _) as [[[r recovered] frozen] restart].
  set (tk := mkTick _ _ _ _ _ _ _ _ _ _) in *.
  pose proof (tick_withheld ow tk) as Hw.
  destruct frozen.
  - specialize (Hw (f_consumers fs) eq_refl). simpl in *. destruct Hp as [Hp _].
    destruct (Hp eq_refl) as (_ & _ & ->).
    destruct (tick_consumers ow tk _) as [[[cs fx] cl] no]. simpl in *. intros _ _.
    rewrite !existsb_app, Hw. split; [done|].
    assert (existsb delivers (no ≫= fun '(id, label) => [ERecovered id label]) = false) as ->.
    { clear. induction no as [|[id l] no IH]; csimpl; [done|]. by rewrite IH. }
    by destruct (restart && _), cl.
  - destruct (tick_consumers ow tk _) as [[[cs fx] cl] no]. simpl in *.
    destruct Hp as [_ Hp]. destruct (Hp eq_refl) as [Hr _]. intros _ Hn. by destruct Hn.
Qed.

(** ** Events other than updates and losses *)

(** What the image depends on. *)
Record same_image (fs fs' : FeedState) : Prop := mkSameImage {
  si_image : f_image fs' = f_image fs;
  si_layout : f_layout fs' = f_layout fs;
  si_slots : f_slots fs' = f_slots fs;
  si_recovery : f_recovery fs' = None <-> f_recovery fs = None;
  si_ended : ended (f_lifecycle fs) = true -> ended (f_lifecycle fs') = true
}.

Lemma on_status_image fs started terminal av : same_image fs (on_status fs started terminal av).
Proof.
  destruct (on_status_recovery fs started terminal av) as [Hr _]. split.
  1-3: unfold on_status; repeat case_match; done.
  - rewrite Hr. destruct started; [|done]. by destruct (f_recovery fs) as [[[] q]|].
  - unfold on_status. repeat case_match; done.
Qed.

Lemma on_error_image ow at_us se fs e :
  (forall t d, e <> SubscriptionDataLoss t d) -> same_image fs (on_error ow at_us se fs e).1.
Proof.
  intros Hn. unfold on_error.
  destruct e; try (by destruct (Hn topic detail)); (destruct (ended _) eqn:He; [by split|]);
    destruct se; destruct (each_consumer _ _); by split.
Qed.

Lemma seed_image_spec addr fs kinds :
  match f_layout fs with
  | Some l => length (f_image fs) = length (layout_fields (layout_of l))
  | None => f_image fs = []
  end ->
  let fs' := seed_image_kinds addr fs kinds in
  image_eq (f_image fs') (f_image fs)
  /\ (exists l, f_layout fs' = Some l /\ length (f_image fs') = length (layout_fields (layout_of l)))
  /\ f_slots fs' = f_slots fs /\ f_recovery fs' = f_recovery fs /\ f_lifecycle fs' = f_lifecycle fs.
Proof.
  intros Hl. unfold seed_image_kinds.
  set (old := match f_layout fs with Some l => _ | None => _ end).
  set (metas := fold_left add_column _ old).
  assert (length old <= length metas) as Hlen.
  { unfold metas. generalize (f_fields fs ++ [EVENT_TYPE; EVENT_SUBTYPE])%list, old. clear.
    induction l as [|name l IH]; intros old; simpl; [lia|]. specialize (IH (add_column old name)).
    unfold add_column in *. case_match; [done|]. rewrite length_app in IH. lia. }
  assert (length (f_image fs) = length old) as Ho by (unfold old; destruct (f_layout fs); [done|by rewrite Hl]).
  destruct (_ || _ || _) eqn:Hc; simpl.
  - split_and!; try done.
    + intros i. rewrite image_at_resize. destruct (decide _) as [Hi|Hi]; [reflexivity|]. unfold image_at.
      rewrite length_fmap in Hi. by rewrite lookup_ge_None_2 by lia.
    + eexists. split; [done|]. simpl. by rewrite length_resize.
  - destruct (f_layout fs) as [l|] eqn:Hf; [|by rewrite bool_decide_true in Hc]. split_and!; try done. eauto.
Qed.

(** ** The invariant *)

(** The hub fails every stream when it shuts down; only then the task of a recovery sees it
    and gives the recovery up. *)
Definition before_shutdown (ev : SysEvent) : Prop :=
  match ev with SysTask shutdown _ _ _ _ => shutdown = false | _ => True end.

Section Fresh.
(** Addresses identify the layouts of updates. *)
Context (arc : FieldLayout -> nat) (Harc : Inj (=) (=) arc).

Definition addressed (ev : SysEvent) : Prop :=
  match ev with
  | SysFeed (EvUpdate _ u) => layout_addr (su_layout u) = arc (layout_of (su_layout u))
  | _ => True
  end.

Definition event_ok (ev : SysEvent) : Prop := addressed ev /\ before_shutdown ev.

(** The image is that of the updates since the beginning or since a paint after the last loss. *)
Definition served (h : list Told) (image : list (option UpdateValue)) : Prop :=
  exists pre us, h = (pre ++ (TUpdate <$> us))%list /\ image_eq image (image_of us)
    /\ (pre = [] \/ TLoss ∈ pre /\ exists u us', us = u :: us' /\ initpaint_of u = true).

Record fresh_feed (fs : FeedState) (h : list Told) : Prop := mkFresh {
  fr_length : match f_layout fs with
              | Some l => length (f_image fs) = length (layout_fields (layout_of l))
              | None => f_image fs = []
              end;
  fr_slots l : (f_slots fs).1 = Some l ->
    (f_slots fs).2 = slots_of (layout_of l) /\ layout_addr l = arc (layout_of l);
  fr_state : ended (f_lifecycle fs) = false ->
    match f_recovery fs with None => served h (f_image fs) | Some _ => TLoss ∈ h end
}.

Lemma slots_now_spec fs h u :
  fresh_feed fs h -> layout_addr (su_layout u) = arc (layout_of (su_layout u)) ->
  (slots_now fs u).2 = slots_of (layout_of (su_layout u))
  /\ forall l, (slots_now fs u).1 = Some l ->
      (slots_now fs u).2 = slots_of (layout_of l) /\ layout_addr l = arc (layout_of l).
Proof.
  intros [_ Hs _] Ha. unfold slots_now, resolve_slots.
  destruct ((f_slots fs).1) as [c|] eqn:Hc; [|by split; [|intros l [= <-]]].
  destruct (Hs c eq_refl) as [H1 H2].
  destruct (_ && bool_decide _) eqn:Hd; [|by split; [|intros l [= <-]]].
  apply andb_true_iff in Hd as [_ Hd%bool_decide_eq_true]. rewrite H2, Ha in Hd. apply Harc in Hd.
  split; [by rewrite H1, Hd|]. rewrite Hc. intros l [= <-]. done.
Qed.

Lemma fresh_update mktdata ow fs h u :
  fresh_feed fs h -> ended (f_lifecycle fs) = false ->
  layout_addr (su_layout u) = arc (layout_of (su_layout u)) ->
  fresh_feed (on_update mktdata ow fs u).1 (h ++ [TUpdate u]).
Proof.
  intros Hok He Ha. destruct (slots_now_spec fs h u Hok Ha) as [Hsl Hsc].
  pose proof (on_update_spec mktdata ow fs u He) as Hs.
  pose proof (recovery_paint_spec (f_recovery fs) (paints fs u)) as Hp.
  assert (paints fs u = initpaint_of u) as Hpa by (unfold paints, initpaint_of; by rewrite Hsl).
  destruct (recovery_paint _ _) as [[[r recovered] frozen] restart].
  destruct Hs as (Hr & Hs & Hi & Hl & Hlc), Hok as [H1 H2 H3]. specialize (H3 He).
  destruct frozen; [destruct Hp as [Hp _]|destruct Hp as [_ Hp]]; specialize (Hp eq_refl).
  - destruct Hp as ([q Hq] & [q' Hq'] & ->). split; rewrite ?Hr, ?Hs, ?Hi, ?Hl; try done.
    intros _. rewrite Hq'. rewrite Hq in H3. apply elem_of_app. by left.
  - destruct Hp as (-> & Hp1 & Hp2). split; rewrite ?Hr, ?Hs, ?Hi, ?Hl; try done;
      [apply length_apply_image|]. intros _. destruct recovered.
    + destruct (Hp2 eq_refl) as [Hini [q Hq]]. rewrite Hq in H3. exists h, [u]. split_and!; [done| |].
      * unfold image_of. simpl. by rewrite cleared_image.
      * right. split; [done|]. exists u, []. split; [done|congruence].
    + rewrite (Hp1 eq_refl) in H3. destruct H3 as (pre & us & -> & Heq & Hpre).
      exists pre, (us ++ [u])%list. split_and!.
      * by rewrite fmap_app, app_assoc.
      * by rewrite image_of_snoc, Heq.
      * destruct Hpre as [|(? & u0 & us' & -> & ?)]; [by left|right]. split; [done|]. by exists u0, (us' ++ [u])%list.
Qed.

Lemma fresh_loss ow at_us fs h :
  fresh_feed fs h -> ended (f_lifecycle fs) = false ->
  fresh_feed (on_data_loss ow at_us fs).1 (h ++ [TLoss]).
Proof.
  intros [H1 H2 H3] He. unfold on_data_loss. rewrite He. destruct (each_consumer _ _) as [cs fx].
  destruct (existsb _ _); split; simpl; try done. intros _. apply elem_of_app. right. by left.
Qed.

Lemma fresh_same fs fs' h : same_image fs fs' -> fresh_feed fs h -> fresh_feed fs' h.
Proof.
  intros [Hi Hl Hs Hr He] [H1 H2 H3]. split; rewrite ?Hi, ?Hl, ?Hs; try done.
  intros Hn. assert (ended (f_lifecycle fs) = false) as Hn'.
  { destruct (ended (f_lifecycle fs)); [|done]. by rewrite He in Hn. }
  specialize (H3 Hn'). destruct (f_recovery fs'), (f_recovery fs); naive_solver.
Qed.

Lemma fresh_seed addr fs h kinds : fresh_feed fs h -> fresh_feed (seed_image_kinds addr fs kinds) h.
Proof.
  intros [H1 H2 H3]. destruct (seed_image_spec addr fs kinds H1) as (Hi & (l & Hl & Hlen) & Hs & Hr & Hlc).
  split; rewrite ?Hl, ?Hs, ?Hr, ?Hlc; try done. intros He. specialize (H3 He).
  destruct (f_recovery fs); [done|]. destruct H3 as (pre & us & Hh & Heq & Hpre).
  exists pre, us. split_and!; [done| |done]. by rewrite Hi.
Qed.

Lemma attach_image mktdata addr now o created accepted id st fields kinds fs fs' fx g h :
  attach mktdata addr now o created accepted id st fields kinds fs = Some (fs', fx, g) ->
  fresh_feed fs h -> fresh_feed fs' h.
Proof.
  unfold attach. destruct (ended _); [done|]. destruct (grow_union fs fields) as [fs1 growth] eqn:Hg.
  destruct (apply_delayed o _ _) as [[c fxd] allowed].
  destruct (if allowed && accepted && ow_deltas o && negb created && mktdata then _ else _) as [c' fxi].
  intros [= <- <- <-] Hok. apply (fresh_same (seed_image_kinds addr fs1 kinds)); [by split|].
  apply fresh_seed. apply (fresh_same fs); [|done].
  unfold grow_union in Hg. destruct (fold_left grow_one _ _). simplify_eq. by split.
Qed.

Lemma fresh_event mktdata fs h ev :
  addressed (SysFeed ev) -> fresh_feed fs h ->
  fresh_feed (feed_event mktdata fs ev).1 (h ++ told fs (SysFeed ev)).
Proof.
  intros Hev Hok. unfold told. destruct (ended (f_lifecycle fs)) eqn:He.
  { rewrite app_nil_r. destruct ev; simpl; try (by apply (fresh_same fs); [split|]).
    - unfold on_update. by rewrite He.
    - unfold on_error, on_data_loss. rewrite He. by destruct e.
    - unfold on_field_error. destruct e; try done. destruct (each_consumer _ _). by apply (fresh_same fs); [split|].
    - unfold on_stream_availability. by rewrite He.
    - by apply (fresh_same fs); [apply on_status_image|].
    - unfold attach. by rewrite He. }
  destruct ev; simpl in *; rewrite ?app_nil_r; try (by apply (fresh_same fs); [split|]).
  - by apply fresh_update.
  - destruct e; try (rewrite app_nil_r; apply (fresh_same fs); [by apply on_error_image|done]).
    by apply fresh_loss.
  - unfold on_field_error. destruct e; try done. destruct (each_consumer _ _). by apply (fresh_same fs); [split|].
  - unfold on_stream_availability. destruct (_ || _); [done|]. by apply (fresh_same fs); [split|].
  - apply (fresh_same fs); [apply on_status_image|done].
  - destruct (attach _ _ _ _ _ _ _ _ _ _) as [[[fs' fx] g]|] eqn:Ha; [|done]. by eapply attach_image.
Qed.

Record fresh (s : FeedSys) (h : list Told) : Prop := mkFreshSys {
  fs_feed : fresh_feed (sys_feed s) h;
  fs_failed : TFailed ∈ sys_tasks s -> ended (f_lifecycle (sys_feed s)) = true
}.

Lemma feed_event_ended mktdata fs ev :
  ended (f_lifecycle fs) = true -> ended (f_lifecycle (feed_event mktdata fs ev).1) = true.
Proof.
  intros He. destruct ev; simpl; try done.
  - unfold on_update. by rewrite He.
  - unfold on_error, on_data_loss. rewrite He. by destruct e.
  - unfold on_field_error. destruct e; try done. by destruct (each_consumer _ _).
  - unfold on_stream_availability. by rewrite He.
  - by apply on_status_image.
  - unfold attach. by rewrite He.
Qed.

Lemma fresh_task mktdata ok ow at_us detail s h :
  fresh s h -> fresh (task_step mktdata false ok ow at_us detail s).1 h.
Proof.
  destruct s as [fs reg tasks]. intros [Hf Hx]. simpl in Hf, Hx. unfold task_step.
  destruct tasks as [|[] ts].
  - by split.
  - split; [done|]. simpl. intros H. apply Hx. destruct reg; set_solver.
  - unfold recovery_decide. simpl. destruct (ended (f_lifecycle fs)) eqn:He.
    { split; simpl; [|done]. destruct Hf as [H1 H2 H3]. split; try done. simpl. by rewrite He. }
    assert (TFailed ∉ ts) as Hts by (intros Hin; specialize (Hx ltac:(set_solver)); congruence).
    destruct (f_recovery fs) as [[[] q]|] eqn:Hr; (split; simpl; [|set_solver]);
      (apply (fresh_same fs); [split; simpl; rewrite ?Hr; try done; naive_solver|done]).
  - split; simpl; [by apply (fresh_same fs); [split|]|]. set_solver.
  - destruct ok.
    { split; simpl; [done|]. set_solver. }
    pose proof (on_error_image ow at_us None fs (Internal detail) ltac:(done)) as Hi.
    assert (ended (f_lifecycle (on_error ow at_us None fs (Internal detail)).1) = true) as He.
    { simpl. destruct (ended (f_lifecycle fs)) eqn:He; [done|]. by destruct (each_consumer _ _). }
    destruct (on_error ow at_us None fs (Internal detail)) as [fs' fx]. split; simpl in *; [|done].
    by apply (fresh_same fs).
  - specialize (Hx ltac:(set_solver)). split; simpl; [|done].
    destruct Hf as [H1 H2 H3]. split; try done. simpl. by rewrite Hx.
Qed.

Lemma fresh_step mktdata s h ev :
  event_ok ev -> fresh s h -> fresh (sys_step mktdata s ev).1 (h ++ told (sys_feed s) ev).
Proof.
  intros [Hev Hsd] [Hf Hx]. destruct ev as [ev|shutdown ok ow at_us detail| |].
  - pose proof (fresh_event mktdata (sys_feed s) h ev Hev Hf) as Hn.
    pose proof (feed_event_ended mktdata (sys_feed s) ev) as He. simpl in *.
    destruct (feed_event mktdata (sys_feed s) ev) as [fs fx]. split; [done|].
    simpl in *. intros Hin. apply He, Hx. unfold spawn in Hin. destruct (schedules fx); [|done].
    apply elem_of_app in Hin as [|Hin]; [done|]. by apply list_elem_of_singleton in Hin.
  - simpl in Hsd. subst shutdown. assert (told (sys_feed s) (SysTask false ok ow at_us detail) = []) as ->
      by (unfold told; by destruct (ended _)).
    rewrite app_nil_r. by apply fresh_task.
  - assert (told (sys_feed s) SysUnregister = []) as -> by (unfold told; by destruct (ended _)).
    rewrite app_nil_r. by split.
  - assert (told (sys_feed s) SysClose = []) as -> by (unfold told; by destruct (ended _)).
    rewrite app_nil_r. split; [|done]. simpl. by apply (fresh_same (sys_feed s)); [split|].
Qed.

(** ** What a recovering feed withholds *)

Lemma each_consumer_withheld step cs :
  (forall c, existsb delivers (step c).2 = false) -> existsb delivers (each_consumer step cs).2 = false.
Proof.
  intros Hs. induction cs as [|c cs IH]; simpl; [done|]. specialize (Hs c).
  destruct (step c) as [c' fx], (each_consumer step cs) as [cs' fxs]. simpl in *. by rewrite existsb_app, Hs, IH.
Qed.

Lemma on_error_withheld ow at_us se fs e :
  existsb delivers (on_error ow at_us se fs e).2 = false /\ f_image (on_error ow at_us se fs e).1 = f_image fs.
Proof.
  assert (existsb delivers (on_data_loss ow at_us fs).2 = false
          /\ f_image (on_data_loss ow at_us fs).1 = f_image fs) as Hloss.
  { unfold on_data_loss. destruct (ended _); [done|].
    pose proof (each_consumer_withheld (lose_consumer ow at_us (u64_saturating_add (f_revision fs) 1)) (f_consumers fs)) as H.
    destruct (each_consumer _ _) as [cs fx]. simpl in H. specialize (H ltac:(intros c; unfold lose_consumer; by repeat case_match)).
    destruct (existsb (keeps_image ow) _); simpl; rewrite !existsb_app, H; [|done]. by destruct (_ && _). }
  assert (forall r t, existsb delivers (each_consumer (fail_consumer ow r t) (f_consumers fs)).2 = false) as Hfail.
  { intros r t. apply each_consumer_withheld. intros c. unfold fail_consumer. by repeat case_match. }
  unfold on_error. destruct e; try exact Hloss; (destruct (ended _); [done|]); destruct se;
    match goal with |- context [each_consumer (fail_consumer ow ?r ?t) _] =>
      specialize (Hfail r t); destruct (each_consumer (fail_consumer ow r t) _) as [cs fx] end;
    simpl in *; by rewrite existsb_app, Hfail.
Qed.

Lemma attach_withheld mktdata addr now o created accepted id st fields kinds fs fs' fx g h :
  attach mktdata addr now o created accepted id st fields kinds fs = Some (fs', fx, g) ->
  fresh_feed fs h -> f_recovery fs <> None -> image_eq (f_image fs') (f_image fs) /\ existsb delivers fx = false.
Proof.
  unfold attach. destruct (ended _); [done|]. destruct (grow_union fs fields) as [fs1 growth] eqn:Hg.
  intros Ha Hok Hr. assert (same_image fs fs1) as Hs1.
  { unfold grow_union in Hg. destruct (fold_left grow_one _ _). simplify_eq. by split. }
  destruct (seed_image_spec addr fs1 kinds (fr_length _ _ (fresh_same _ _ _ Hs1 Hok))) as (Hi & _ & _ & Hr2 & _).
  assert (f_recovery (seed_image_kinds addr fs1 kinds) <> None) as Hrec by (by rewrite Hr2, (si_recovery _ _ Hs1)).
  assert (initial_image_update now (seed_image_kinds addr fs1 kinds) = None) as Hn.
  { unfold initial_image_update. by rewrite (bool_decide_true (f_recovery _ <> None)), orb_true_r. }
  pose proof (apply_delayed_withheld o (new_consumer id st fields created growth (seed_image_kinds addr fs1 kinds))
    (f_delayed (seed_image_kinds addr fs1 kinds))) as Hd.
  destruct (apply_delayed o _ _) as [[c fxd] allowed]. simpl in Hd. rewrite Hn in Ha.
  assert (forall b : bool, (if b then (if allowed && negb accepted then Feed.set_active c false else c, fxd)
    else (if allowed && negb accepted then Feed.set_active c false else c, fxd))
    = (if allowed && negb accepted then Feed.set_active c false else c, fxd)) as Hb by (by intros []).
  rewrite Hb in Ha. injection Ha as <- <- <-. split; [simpl; by rewrite Hi, (si_image _ _ Hs1)|].
  destruct (allowed && accepted), (ow_state_delivery o); simpl; rewrite !existsb_app, Hd; try done.
  by destruct (bool_decide _).
Qed.

(** Only the paint that ends a recovery shows values again. *)
Lemma withheld_step mktdata s h ev :
  addressed ev -> fresh s h -> f_recovery (sys_feed s) <> None ->
  let '(s', fx) := sys_step mktdata s ev in
  (exists ow u, ev = SysFeed (EvUpdate ow u) /\ initpaint_of u = true /\ f_recovery (sys_feed s') = None)
  \/ image_eq (f_image (sys_feed s')) (f_image (sys_feed s)) /\ existsb delivers fx = false.
Proof.
  intros Hev [Hf _] Hr. destruct ev as [ev|shutdown ok ow at_us detail| |]; [| |by right|by right].
  - unfold sys_step. destruct (feed_event mktdata (sys_feed s) ev) as [fs fx] eqn:E. simpl.
    destruct ev; simpl in E.
    + destruct (f_recovery fs) eqn:Hr'.
      * right. pose proof (on_update_withheld mktdata ow (sys_feed s) u) as Hw. rewrite E in Hw.
        destruct Hw as [-> ?]; [done|by rewrite Hr'|done].
      * left. exists ow, u. split_and!; [done| |done].
        destruct (ended (f_lifecycle (sys_feed s))) eqn:He; [unfold on_update in E; rewrite He in E; by simplify_eq|].
        pose proof (on_update_spec mktdata ow (sys_feed s) u He) as Hs. rewrite E in Hs. simpl in Hs.
        pose proof (recovery_paint_spec (f_recovery (sys_feed s)) (paints (sys_feed s) u)) as Hp.
        destruct (slots_now_spec _ _ _ Hf Hev) as [Hsl _].
        destruct (recovery_paint _ _) as [[[r recovered] frozen] restart]. destruct Hs as (Hs & _).
        destruct frozen; [destruct Hp as [Hp _]; destruct (Hp eq_refl) as (_ & [? ?] & _); congruence|].
        destruct Hp as [_ Hp]. destruct (Hp eq_refl) as (_ & Hp1 & Hp2). destruct recovered; [|by rewrite Hp1 in Hr].
        destruct (Hp2 eq_refl) as [Hp3 _]. unfold paints in Hp3. by rewrite Hsl in Hp3.
    + right. destruct (on_error_withheld ow at_us session_end (sys_feed s) e) as [H1 H2]. rewrite E in H1, H2. simpl in H1, H2. by rewrite H2.
    + right. unfold on_field_error in E. destruct e; simplify_eq; try done.
      pose proof (each_consumer_withheld (reject_consumer ow element detail scalar) (f_consumers (sys_feed s))) as H.
      destruct (each_consumer _ _) as [cs fx1]. simplify_eq. split; [done|]. apply H.
      intros c. unfold reject_consumer. by repeat case_match.
    + right. unfold on_stream_availability in E. destruct (_ || _); simplify_eq; [done|]. split; [done|].
      induction (f_consumers (sys_feed s)) as [|c cs IH]; csimpl; [done|]. rewrite existsb_app, IH.
      unfold mark_consumer. by case_match.
    + right. simplify_eq. split; [|done]. by rewrite (si_image _ _ (on_status_image _ _ _ _)).
    + right. destruct (attach _ _ _ _ _ _ _ _ _ _) as [[[fs1 fx1] g]|] eqn:Ha; simplify_eq; [|done].
      by eapply attach_withheld.
    + by right; simplify_eq.
    + by right; simplify_eq.
    + by right; simplify_eq.
  - destruct s as [fs reg tasks]. simpl in *. destruct tasks as [|[] ts]; try by right.
    + unfold recovery_decide. destruct (_ || _); [by right|]. destruct (f_recovery fs) as [[[] q]|]; by right.
    + destruct ok; [by right|]. destruct (on_error_withheld ow at_us None fs (Internal detail)) as [H1 H2].
      unfold on_error in *. destruct (if ended _ then _ else _) as [fs' fx]. simpl in *. right. by rewrite H2.
Qed.

Lemma fresh_run mktdata evs s h :
  Forall event_ok evs -> fresh s h ->
  let '(s', h') := told_run mktdata s evs h in fresh s' h'.
Proof.
  revert s h. induction evs as [|ev evs IH]; intros s h Hev Hok; simpl; [done|].
  apply Forall_cons in Hev as [Hev Hevs]. apply IH; [done|]. by apply fresh_step.
Qed.
End Fresh.

(** C6: The image a feed serves is fresh.  At every moment of every run before the hub shuts
    down, a feed that is not ended either serves an image that is exactly the last value of
    each field over the updates it was given since it began or, once a loss was reported, since
    an initial paint that came after the last loss; or it is recovering from a loss.  While it
    recovers, no event (an update, a consumer that attaches, a further loss, a step of its
    task or any other) delivers a value or changes one of the image, except for the initial
    paint that ends the recovery.  Updates name their layouts by distinct addresses. *)
Theorem feed_image_fresh arc mktdata addr fields kinds evs :
  Inj (=) (=) arc -> Forall (addressed arc) evs -> Forall before_shutdown evs ->
  let '(s, h) := told_run mktdata (feed_new addr fields kinds) evs [] in
  let fs := sys_feed s in
  (ended (f_lifecycle fs) = false ->
   match f_recovery fs with
   | None => exists pre us, h = (pre ++ (TUpdate <$> us))%list /\ image_eq (f_image fs) (image_of us)
       /\ (pre = [] \/ TLoss ∈ pre /\ exists u us', us = u :: us' /\ initpaint_of u = true)
   | Some _ => TLoss ∈ h
   end)
  /\ forall ev, addressed arc ev -> f_recovery fs <> None ->
     let '(s', fx) := sys_step mktdata s ev in
     (exists ow u, ev = SysFeed (EvUpdate ow u) /\ initpaint_of u = true /\ f_recovery (sys_feed s') = None)
     \/ image_eq (f_image (sys_feed s')) (f_image fs) /\ existsb delivers fx = false.
Proof.
  intros Harc Ha Hsd. pose proof (fresh_run arc Harc mktdata evs (feed_new addr fields kinds) []) as Hr.
  destruct (told_run mktdata (feed_new addr fields kinds) evs []) as [s h].
  assert (fresh arc s h) as Hf.
  { apply Hr; [by apply Forall_and|]. split; [|by intros ?%not_elem_of_nil]. apply fresh_seed. split; simpl; [done|done|].
    intros _. exists [], []. split_and!; [done|done|by left]. }
  split; [apply Hf|]. intros ev Hev. by apply (withheld_step arc Harc mktdata s h).
Qed.

Definition sample_layout (arc : FieldLayout -> nat) : SharedLayout :=
  let l := mkLayout 1 [field_meta_new "BID" 0 KI32; field_meta_new EVENT_SUBTYPE 1 KStr] in mkShared (arc l) l.

(** A paint, a loss, the task, a stale update and a fresh paint. *)
Definition sample_recovery (arc : FieldLayout -> nat) : list SysEvent :=
  let update values := SysFeed (EvUpdate (fun _ => sample_owner) (mkSharedUpdate (sample_layout arc) values 3)) in
  let paint := mkField 1 (VStr "INITPAINT") in
  let task := SysTask false true (fun _ => sample_owner) 0 "" in
  [sample_attach (0, 1); update [mkField 0 (VI32 1); paint]; sample_loss; task; task; task; task;
   update [mkField 0 (VI32 2)]; update [mkField 0 (VI32 3); paint]].

Lemma feed_image_fresh_witness :
  let arc := fun l => Pos.to_nat (encode l) in
  let '(s, h) := told_run true (feed_new arc ["BID"] ∅) (sample_recovery arc) [] in
  ended (f_lifecycle (sys_feed s)) = false ->
  match f_recovery (sys_feed s) with
  | None => exists pre us, h = (pre ++ (TUpdate <$> us))%list /\ image_eq (f_image (sys_feed s)) (image_of us)
      /\ (pre = [] \/ TLoss ∈ pre /\ exists u us', us = u :: us' /\ initpaint_of u = true)
  | Some _ => TLoss ∈ h
  end.
Proof.
  intros arc. pose proof (feed_image_fresh arc true arc ["BID"] ∅ (sample_recovery arc)) as H.
  destruct (told_run true (feed_new arc ["BID"] ∅) (sample_recovery arc) []) as [s h]. apply H.
  - intros x y Hxy. by apply (inj encode), Pos2Nat.inj.
  - repeat constructor.
  - repeat constructor.
Defined.

Example sample_recovers :
  let '(s, h) := told_run true (feed_new (fun _ => 0) ["BID"] ∅) (sample_recovery (fun _ => 0)) [] in
  f_recovery (sys_feed s) = None
  /\ f_image (sys_feed s) = [Some (VI32 3); Some (VStr "INITPAINT")] /\ length h = 4.
Proof. vm_compute. auto. Qed.
