(* ===== verification/FeedViews.v ===== *)
(** * What a consumer has seen is the image

    A consumer of deltas that attaches to a feed is given the image, then the updates,
    and during a repaint only what changed.  Putting together what it was given always
    yields the image of the feed, on the fields it asked for: the suppression of
    repainted values and of rows without requested data loses nothing. *)

From Stdlib Require Import Ascii String ZArith Lia SpecFloat Sorting.
From stdpp Require Import sorting.
From S2P Require Import Prelude Errors Update Subscription Decoder DecoderTypes Projection Shared.
From S2P Require Import RequestErrors Plan Feed FeedImage.
Local Open Scope string_scope.

(** ** Values up to representation *)

(** Zeros of either sign are one value. *)
Definition norm (v : UpdateValue) : UpdateValue :=
  match v with VF64 (S754_zero _) => VF64 (S754_zero false) | _ => v end.

Lemma finite_eqb s1 m1 e1 s2 m2 e2 :
  SFeqb (S754_finite s1 m1 e1) (S754_finite s2 m2 e2) = true <-> (s1, m1, e1) = (s2, m2, e2).
Proof.
  unfold SFeqb. simpl. change (Pos.compare_cont Eq m1 m2) with (Pos.compare m1 m2).
  destruct s1, s2, (Z.compare_spec e1 e2), (Pos.compare_spec m1 m2); subst; simpl;
    split; intros Heq; simplify_eq; try done; lia.
Qed.

Lemma float_same x y : value_same (VF64 x) (VF64 y) = true <-> norm (VF64 x) = norm (VF64 y).
Proof.
  destruct x as [s1|s1| |s1 m1 e1], y as [s2|s2| |s2 m2 e2]; simpl;
    try (destruct s1); try (destruct s2); try (split; done);
    rewrite finite_eqb; split; congruence.
Qed.

Lemma value_same_norm a b : value_same a b = true <-> norm a = norm b.
Proof.
  destruct a, b; try apply float_same; simpl;
    try (split; intros Heq; by repeat case_match);
    rewrite ?Z.eqb_eq, ?bool_decide_eq_true, ?Bool.eqb_true_iff; split; congruence.
Qed.

(** Known values that are the same, or none. *)
Definition same_opt (a b : option UpdateValue) : Prop := norm <$> a = norm <$> b.

#[export] Instance same_opt_equiv : Equivalence same_opt.
Proof. unfold same_opt. split; red; congruence. Qed.

(** ** Views *)

Abbreviation View := (gmap nat UpdateValue).

Definition apply_view (view : View) (values : list UpdateField) : View :=
  fold_left (fun v f => <[field_index f := field_value f]> v) values view.

(** What the effects delivered to a consumer. *)
Definition see (id : nat * nat) (view : View) (e : Effect) : View :=
  match e with
  | EDeliver c (Ok u) => if decide (c = id) then apply_view view (update_values u) else view
  | _ => view
  end.

Definition see_all (id : nat * nat) (view : View) (fx : list Effect) : View := fold_left (see id) fx view.

Lemma see_all_app id view fx1 fx2 : see_all id view (fx1 ++ fx2) = see_all id (see_all id view fx1) fx2.
Proof. apply fold_left_app. Qed.

(** Only deliveries to the consumer are seen. *)
Lemma see_all_quiet id view fx :
  (forall e, e ∈ fx -> delivers e = true -> exists c r, e = EDeliver c r /\ c <> id) -> see_all id view fx = view.
Proof.
  unfold see_all. induction fx as [|e fx IH]; intros H; simpl; [done|].
  assert (see id view e = view) as ->; [|apply IH; intros e' ?; apply H; set_solver].
  destruct e as [c [u|]| | | | | | | | | |]; try done. simpl.
  destruct (H (EDeliver c (Ok u)) ltac:(set_solver) eq_refl) as (? & ? & [= <- <-] & Hne). by rewrite decide_False.
Qed.

Lemma see_all_none id view fx : existsb delivers fx = false -> see_all id view fx = view.
Proof.
  intros H. apply see_all_quiet. intros e He Hd. assert (existsb delivers fx = true); [|congruence].
  apply existsb_exists. exists e. by rewrite <-list_elem_of_In.
Qed.

(** The view after distinct values: theirs, else what was there. *)
Lemma apply_view_out values view j :
  (forall v, mkField j v ∉ values) -> apply_view view values !! j = view !! j.
Proof.
  unfold apply_view. revert view. induction values as [|[k w] values IH]; intros view Hn; simpl; [done|].
  rewrite IH by (intros v Hv; by apply (Hn v); right). rewrite lookup_insert_ne; [done|].
  intros ->. apply (Hn w). by left.
Qed.

Lemma apply_view_in values view j v :
  NoDup (field_index <$> values) -> mkField j v ∈ values -> apply_view view values !! j = Some v.
Proof.
  revert view. induction values as [|[k w] values IH]; intros view Hd Hin; [by apply not_elem_of_nil in Hin|].
  csimpl in *. apply NoDup_cons in Hd as [Hn Hd]. unfold apply_view in *. simpl.
  apply elem_of_cons in Hin as [Heq|Hin]; [|by apply IH]. simplify_eq.
  pose proof (apply_view_out values (<[k := w]> view) k) as Ho. unfold apply_view in Ho. rewrite Ho.
  - apply lookup_insert_eq.
  - intros v Hv. apply Hn, list_elem_of_fmap. by exists (mkField k v).
Qed.

(** The image after distinct values, likewise. *)
Lemma set_values_out values im i :
  (forall v, mkField i v ∉ values) ->
  image_at (fold_left (fun im f => <[field_index f := Some (field_value f)]> im) values im) i = image_at im i.
Proof.
  revert im. induction values as [|[k w] values IH]; intros im Hn; simpl; [done|].
  rewrite IH by (intros v Hv; by apply (Hn v); right). unfold image_at.
  rewrite list_lookup_insert_ne; [done|]. intros ->. apply (Hn w). by left.
Qed.

Lemma image_out im n values i :
  i < n -> (forall v, mkField i v ∉ values) -> image_at (apply_image im n values) i = image_at im i.
Proof.
  intros Hi Hn. unfold apply_image. rewrite set_values_out by done. rewrite image_at_resize.
  by destruct (decide (i < n)).
Qed.

Lemma image_in im n values i v :
  NoDup (field_index <$> values) -> i < n -> mkField i v ∈ values ->
  image_at (apply_image im n values) i = Some v.
Proof.
  intros Hd Hi Hin. unfold apply_image.
  assert (i < length (resize n None im)) as Hl by (by rewrite length_resize). revert Hl.
  generalize (resize n None im) as l. induction values as [|[k w] values IH]; intros l Hl; [by apply not_elem_of_nil in Hin|].
  csimpl in *. apply NoDup_cons in Hd as [Hn Hd]. apply elem_of_cons in Hin as [Heq|Hin].
  - simplify_eq. rewrite set_values_out.
    + unfold image_at. by rewrite list_lookup_insert_eq.
    + intros v' Hv. apply Hn, list_elem_of_fmap. by exists (mkField k v').
  - apply IH; [done|done|]. by rewrite length_insert.
Qed.

(** ** Readers *)

Section Views.
(** The names of the feed's columns, in the end, and the address of a layout. *)
Context (names : list string) (arc : FieldLayout -> nat).
Context (Hnames : NoDup names) (Hbound : (Z.of_nat (length names) <= 65536)%Z) (Harc : Inj (=) (=) arc).

Definition event_name (name : string) : Prop := name = EVENT_TYPE \/ name = EVENT_SUBTYPE.

(** The value the image has under a name. *)
Definition named (image : list (option UpdateValue)) (name : string) : option UpdateValue :=
  position_of names name ≫= image_at image.

Lemma position_lookup name i : position_of names name = Some i <-> names !! i = Some name.
Proof.
  unfold position_of. split.
  - destruct (list_find _ _) as [[j x]|] eqn:Hf; simpl; [|done]. intros [= ->].
    apply list_find_Some in Hf as (Hj & -> & _). done.
  - intros Hi. assert (list_find (eq name) names = Some (i, name)) as ->; [|done].
    apply list_find_Some. split_and!; [done|done|]. intros j y Hj Hlt <-.
    pose proof (NoDup_lookup _ _ _ _ Hnames Hi Hj). lia.
Qed.

(** Columns are at their index and have distinct names. *)
Record columns_ok (metas : list FieldMeta) : Prop := mkColumnsOk {
  co_index i m : metas !! i = Some m -> meta_index m = i;
  co_names : NoDup (meta_name <$> metas);
  co_known m : m ∈ metas -> meta_name m ∈ names
}.

Record layout_ok (l : SharedLayout) : Prop := mkLayoutOk {
  lo_addr : layout_addr l = arc (layout_of l);
  lo_columns : columns_ok (layout_fields (layout_of l))
}.

(** A filtered consumer, its cached column map up to date. *)
Record reader (st : SubscriptionState) : Prop := mkReader {
  rd_table : table_ok (table st);
  rd_filtered : capture_all_fields st = false;
  rd_events : events_ok st;
  rd_projection : projection_ok st;
  rd_arc l : projection_source st = Some l -> layout_addr l = arc (layout_of l)
}.

Definition picked (st : SubscriptionState) (u : SharedUpdate) : list UpdateField :=
  omap (project_field (table st) (layout_of (su_layout u))) (source_of (su_values u)).

Lemma picked_spec st u j v :
  reader st ->
  mkField j v ∈ picked st u <-> exists i m, mkField i v ∈ su_values u
    /\ layout_fields (layout_of (su_layout u)) !! i = Some m /\ field_strings (table st) !! j = Some (meta_name m).
Proof.
  intros Hr. unfold picked, source_of. rewrite list_elem_of_omap. split.
  - intros (x & ([i w] & -> & Hin)%list_elem_of_fmap & Hp). unfold project_field in Hp. simpl in Hp.
    destruct (layout_fields _ !! i) as [m|] eqn:Hm; [|done]. simpl in Hp.
    destruct (project_index _ m) as [k|] eqn:Hk; simplify_eq/=.
    apply project_index_spec in Hk; [|apply Hr]. eauto.
  - intros (i & m & Hin & Hm & Hj). exists (i, v). split.
    + apply list_elem_of_fmap. by exists (mkField i v).
    + unfold project_field. simpl. rewrite Hm. simpl.
      by rewrite (proj2 (project_index_spec _ m j (rd_table _ Hr)) Hj).
Qed.

Lemma picked_nodup st u :
  reader st -> layout_ok (su_layout u) -> NoDup (field_index <$> su_values u) ->
  NoDup (field_index <$> picked st u).
Proof.
  intros Hr Hl Hd. unfold picked, source_of.
  rewrite omap_of_fmap. revert Hd. induction (su_values u) as [|[i v] values IH]; csimpl; [constructor|].
  intros [Hn Hd]%NoDup_cons.
  destruct (project_field _ _ _) as [[j w]|] eqn:Hp; csimpl; [|by apply IH]. constructor; [|by apply IH].
  intros ([j' w'] & [= ->] & ([i' v'] & Hin & Hp')%list_elem_of_omap)%list_elem_of_fmap. apply Hn.
  unfold project_field in *. simpl in *.
  destruct (layout_fields _ !! i) as [m|] eqn:Hm, (layout_fields _ !! i') as [m'|] eqn:Hm'; try done.
  simpl in *. destruct (project_index _ m) eqn:Hk, (project_index _ m') eqn:Hk'; simplify_eq/=.
  apply project_index_spec in Hk, Hk'; try apply Hr.
  assert (i = i') as ->; [|apply list_elem_of_fmap; by exists (mkField i' w')].
  eapply (NoDup_lookup _ _ _ (meta_name m) (co_names _ (lo_columns _ Hl))); rewrite list_lookup_fmap, ?Hm, ?Hm'; simpl; congruence.
Qed.

Lemma reader_same_arc st l : reader st -> layout_addr l = arc (layout_of l) -> same_arc st l.
Proof.
  intros Hr Hl c Hc Ha. pose proof (rd_arc _ Hr c Hc) as Hx. destruct c as [a1 l1], l as [a2 l2]. simpl in *.
  rewrite Hx, Hl in Ha. apply Harc in Ha. congruence.
Qed.

Lemma reader_modes st st' :
  reader st -> same_names (table st) (table st') -> same_modes st st' -> projection_ok st' ->
  (forall l, projection_source st' = Some l -> layout_addr l = arc (layout_of l)) -> reader st'.
Proof.
  intros [[Hk Hb] Hf [He Hs] _ _] (H1 & H2 & _) (M1 & _ & M3 & M4 & _) Hp Ha.
  split; [split| |split| |]; rewrite ?H1, ?H2, ?M1, ?M3, ?M4; done.
Qed.

Lemma event_index st j name :
  reader st -> field_strings (table st) !! j = Some name ->
  event_name name <-> j = event_type_index st \/ j = event_subtype_index st.
Proof.
  intros Hr Hj. destruct (rd_events _ Hr) as [He Hs]. unfold event_name. split.
  - intros [->| ->]; [left|right]; by eapply (table_names_inj (table st)); [apply Hr|..].
  - intros [->| ->]; [left|right]; congruence.
Qed.

(** What projecting an update gives a reader. *)
Lemma project_reader env st u suppress :
  reader st -> layout_ok (su_layout u) -> NoDup (field_index <$> su_values u) -> stream_closed env = false ->
  let '(st', out, em) := project_update env st u suppress in
  reader st' /\ field_strings (table st') = field_strings (table st)
  /\ match em with
     | Some (Ok x) => update_values x ≡ₚ picked st u
     | Some (Err _) => out = DataLoss /\ mkField (event_subtype_index st) (VStr "DATALOSS") ∈ picked st u
     | None => forall j v name, mkField j v ∈ picked st u -> field_strings (table st) !! j = Some name ->
         event_name name
     end.
Proof.
  intros Hr Hl Hd Hopen. unfold project_update. rewrite Hopen.
  pose proof (project_image_filtered st u (rd_filtered _ Hr) (rd_projection _ Hr)
    (reader_same_arc _ _ Hr (lo_addr _ Hl))) as Hp. cbv zeta in Hp.
  destruct (project_image st u) as [st1 x]. destruct Hp as (Hv & _ & Hn & Hm & Hp & Hs).
  assert (reader st1) as Hr1.
  { apply (reader_modes st); try done. intros l. rewrite Hs. intros [= <-]. apply Hl. }
  fold (picked st u) in Hv. pose proof (picked_nodup st u Hr Hl Hd) as Hdp.
  assert (update_values x ≡ₚ picked st u) as Hperm.
  { rewrite Hv. destruct (negb _); [apply merge_sort_Permutation|done]. }
  destruct (is_dataloss_update st1 (update_values x)) eqn:Hloss.
  - split_and!; [|apply Hn|done|].
    { apply (reader_modes st1); try done. apply Hr1. }
    rewrite <-Hperm. destruct Hm as (_ & _ & Het & Hes & _). unfold is_dataloss_update in Hloss.
    rewrite Het, Hes in Hloss.
    pose proof (loss_scan_spec (event_type_index st) (event_subtype_index st) (update_values x) false false) as Hx.
    destruct (fold_left _ _ _) as [s d]. apply andb_true_iff in Hloss as [-> ->].
    destruct Hx as [_ Hx]; [|by rewrite Hperm|by destruct (proj1 Hx eq_refl) as [|[? _]]].
    intros He. destruct (rd_events _ Hr) as [H1 H2]. rewrite He, H2 in H1. discriminate.
  - unfold deliver_update. cbn [record_received]. change (capture_all_fields (set_metrics _ _ _ _ _ _ _)) with (capture_all_fields st1).
    change (has_requested_data (set_metrics _ _ _ _ _ _ _) _) with (has_requested_data st1 (update_values x)).
    assert (reader (record_received st1 (timestamp_us x)).1) as Hr2 by (apply (reader_modes st1); try done; apply Hr1).
    simpl in Hr2. destruct (suppress && _ && _) eqn:Hsup; (split_and!; [done|apply Hn|]); [|done].
    apply andb_true_iff in Hsup as [_ Hsup%negb_true_iff]. intros j v name Hin Hj.
    apply (event_index st j name Hr Hj). rewrite (has_requested_modes st) in Hsup by done.
    assert (negb (bool_decide (j = event_type_index st)) && negb (bool_decide (j = event_subtype_index st)) = false) as Hb.
    { destruct (_ && _) eqn:Hb; [|done]. rewrite <-Hsup. symmetry. apply existsb_exists.
      exists (mkField j v). rewrite <-list_elem_of_In. by rewrite Hperm. }
    apply andb_false_iff in Hb as [Hb|Hb]; apply negb_false_iff, bool_decide_eq_true in Hb; auto.
Qed.

(** ** One update *)

Definition columns (u : SharedUpdate) : nat := length (layout_fields (layout_of (su_layout u))).

(** An update of the feed's decoder. *)
Record update_ok (u : SharedUpdate) : Prop := mkUpdateOk {
  uo_layout : layout_ok (su_layout u);
  uo_names : (meta_name <$> layout_fields (layout_of (su_layout u))) `prefix_of` names;
  uo_distinct : NoDup (field_index <$> su_values u);
  uo_columns f : f ∈ su_values u -> field_index f < columns u
}.

Lemma column_name u i m :
  update_ok u -> layout_fields (layout_of (su_layout u)) !! i = Some m ->
  position_of names (meta_name m) = Some i.
Proof.
  intros Hu Hm. apply position_lookup. eapply prefix_lookup_Some, Hu. by rewrite list_lookup_fmap, Hm.
Qed.

Lemma column_at u i name :
  update_ok u -> i < columns u -> names !! i = Some name ->
  exists m, layout_fields (layout_of (su_layout u)) !! i = Some m /\ meta_name m = name.
Proof.
  intros Hu Hi Hn. apply lookup_lt_is_Some_2 in Hi as [m Hm]. exists m. split; [done|].
  apply (column_name u) in Hm; [|done]. apply position_lookup in Hm. congruence.
Qed.

Lemma distinct_value values i v w :
  NoDup (field_index <$> values) -> mkField i v ∈ values -> mkField i w ∈ values -> v = w.
Proof.
  intros Hd [a Ha]%list_elem_of_lookup [b Hb]%list_elem_of_lookup.
  assert (a = b) as ->; [|congruence].
  eapply (NoDup_lookup _ _ _ i Hd); rewrite list_lookup_fmap, ?Ha, ?Hb; done.
Qed.

(** The view of a reader agrees with the image on its columns. *)
Definition tracks (st : SubscriptionState) (view : View) (image : list (option UpdateValue)) : Prop :=
  forall j name, field_strings (table st) !! j = Some name -> ~ event_name name ->
    same_opt (view !! j) (named image name).

(** Some values of an update: those left out are already in the image, or not asked for. *)
Definition part_of (st : SubscriptionState) (image : list (option UpdateValue)) (u : SharedUpdate)
  (sub : list UpdateField) : Prop :=
  sub `sublist_of` su_values u
  /\ forall i v m j, mkField i v ∈ su_values u -> layout_fields (layout_of (su_layout u)) !! i = Some m ->
      field_strings (table st) !! j = Some (meta_name m) -> ~ event_name (meta_name m) ->
      mkField i v ∈ sub \/ same_opt (image_at image i) (Some v).

Definition with_values (u : SharedUpdate) (values : list UpdateField) : SharedUpdate :=
  mkSharedUpdate (su_layout u) values (su_timestamp u).

Lemma nodup_sub values sub :
  sub `sublist_of` values -> NoDup (field_index <$> values) -> NoDup (field_index <$> sub).
Proof. intros Hs Hd. eapply sublist_NoDup; [exact Hd|]. by apply fmap_sublist. Qed.

Lemma tracks_step st view image u sub given :
  reader st -> update_ok u -> tracks st view image -> part_of st image u sub ->
  (forall i v, image_at image i = Some v -> i < columns u) ->
  given ≡ₚ picked st (with_values u sub) ->
  tracks st (apply_view view given) (apply_image image (columns u) (su_values u)).
Proof.
  intros Hr Hu Ht [Hsub Hpart] Hin Hgiven j name Hj Hne.
  pose proof (picked_spec st (with_values u sub) j) as Hspec.
  assert (NoDup (field_index <$> given)) as Hdg.
  { rewrite Hgiven. apply (picked_nodup st (with_values u sub) Hr (uo_layout _ Hu)).
    by eapply nodup_sub, Hu. }
  destruct (decide (j ∈ field_index <$> given)) as [Hg|Hg].
  - apply list_elem_of_fmap in Hg as ([j' w] & [= ->] & Hg). rewrite (apply_view_in _ _ _ w) by done.
    rewrite Hgiven in Hg. apply Hspec in Hg as (i & m & Hi & Hm & Hj'); [|done]. simpl in Hi, Hm.
    assert (meta_name m = name) as Hmn by congruence. unfold named.
    rewrite <-Hmn, (column_name u i m) by done. simpl. rewrite (image_in _ _ _ i w); [done|apply Hu|..].
    + by apply lookup_lt_Some in Hm.
    + by eapply elem_of_sublist.
  - rewrite apply_view_out; [|intros v Hv; apply Hg, list_elem_of_fmap; by exists (mkField j v)].
    rewrite (Ht j name Hj Hne). unfold named. destruct (position_of names name) as [i|] eqn:Hp; [|done]. simpl.
    destruct (decide (i < columns u)) as [Hi|Hi].
    + apply position_lookup in Hp. destruct (column_at u i name Hu Hi Hp) as (m & Hm & <-).
      destruct (decide (i ∈ field_index <$> su_values u)) as [Hv|Hv].
      * apply list_elem_of_fmap in Hv as ([i' v] & [= ->] & Hv).
        rewrite (image_in _ _ _ i' v); [|apply Hu|done|done].
        destruct (Hpart i' v m j Hv Hm Hj Hne) as [Hs|Hs]; [|done]. exfalso. apply Hg, list_elem_of_fmap.
        exists (mkField j v). split; [done|]. rewrite Hgiven. apply Hspec; [done|]. by exists i', m.
      * rewrite image_out; [done|done|]. intros v Hin'. apply Hv, list_elem_of_fmap. by exists (mkField i v).
    + assert (image_at image i = None) as ->.
      { destruct (image_at image i) eqn:Hx; [|done]. apply Hin in Hx. lia. }
      unfold image_at. rewrite lookup_ge_None_2; [done|]. rewrite length_apply_image. lia.
Qed.

(** ** What a repaint leaves out *)

Lemma slot_event u i m :
  slot_metadata (slots_of (layout_of (su_layout u))) i = true ->
  layout_fields (layout_of (su_layout u)) !! i = Some m -> event_name (meta_name m).
Proof.
  intros Hs Hm. assert (forall name, layout_position (layout_of (su_layout u)) name = Some i -> meta_name m = name) as Hp.
  { intros name. unfold layout_position. destruct (list_find _ _) as [[k m']|] eqn:Hf; [|done].
    case_match; [|done]. intros [= ->]. apply list_find_Some in Hf as (Hk & Hn & _). congruence. }
  unfold slot_metadata, slots_of in Hs. simpl in Hs. apply orb_true_iff in Hs as [Hs|Hs];
    apply bool_decide_eq_true in Hs; apply Hp in Hs; [by left|by right].
Qed.

Lemma repaint_spec values image s :
  let '(kept, has_data) := repaint_changes values image s in
  kept `sublist_of` values
  /\ (forall i v, mkField i v ∈ values -> mkField i v ∈ kept \/ same_opt (image_at image i) (Some v))
  /\ (has_data = false -> forall i v, mkField i v ∈ kept -> slot_metadata s i = true).
Proof.
  induction values as [|[k w] values IH]; simpl.
  { split_and!; [done|by intros i v ?%not_elem_of_nil|by intros _ i v ?%not_elem_of_nil]. }
  destruct (repaint_changes values image s) as [kept has_data]. destruct IH as (Hsub & Hkeep & Hdata).
  assert (forall i v, mkField i v ∈ mkField k w :: values ->
    mkField i v ∈ mkField k w :: kept \/ same_opt (image_at image i) (Some v)) as Hcons.
  { intros i v [Heq|Hin]%elem_of_cons; [rewrite Heq; left; by left|].
    destruct (Hkeep i v Hin); [left; by right|by right]. }
  destruct (slot_metadata s k) eqn:Hmeta; simpl; [|destruct (image_at image k) as [p|] eqn:Hp; [destruct (value_same p w) eqn:Hs|]]; simpl.
  - split_and!; [by constructor|done|]. intros Hd i v [[= -> ->]|Hin]%elem_of_cons; [done|]. by apply (Hdata Hd i v).
  - split_and!; [by constructor| |done]. intros i v [[= -> ->]|Hin]%elem_of_cons; [|by apply Hkeep]. right.
    rewrite Hp. unfold same_opt. simpl. f_equal. by apply value_same_norm.
  - split_and!; [by constructor|done|done].
  - split_and!; [by constructor|done|done].
Qed.

(** The tick of an update over an image. *)
Record tick_of (tk : Tick) (u : SharedUpdate) (image : list (option UpdateValue)) : Prop := mkTickOf {
  to_update : update_ok u;
  to_source : tk_source tk = u;
  to_mktdata : tk_mktdata tk = true;
  to_changes : tk_changes tk = repaint_changes (su_values u) image (slots_of (layout_of (su_layout u)));
  to_columns i v : image_at image i = Some v -> i < columns u
}.

Section Tick.
Context (u : SharedUpdate) (image : list (option UpdateValue)) (tk : Tick) (Htk : tick_of tk u image).
Let Hu : update_ok u := to_update _ _ _ Htk.
Let Hcolumns : forall i v, image_at image i = Some v -> i < columns u := to_columns _ _ _ Htk.

Lemma changes_part st : part_of st image u (tk_changes tk).1.
Proof.
  rewrite (to_changes _ _ _ Htk). pose proof (repaint_spec (su_values u) image (slots_of (layout_of (su_layout u)))) as Hs.
  destruct (repaint_changes _ _ _) as [kept has_data]. destruct Hs as (Hsub & Hkeep & _). split; [done|].
  intros i v m j Hv _ _ _. by apply Hkeep.
Qed.

Lemma no_changes_part st : (tk_changes tk).2 = false -> part_of st image u [].
Proof.
  rewrite (to_changes _ _ _ Htk). pose proof (repaint_spec (su_values u) image (slots_of (layout_of (su_layout u)))) as Hs.
  destruct (repaint_changes _ _ _) as [kept has_data]. destruct Hs as (_ & Hkeep & Hdata). simpl. intros Hd.
  split; [apply sublist_nil_l|]. intros i v m j Hv Hm _ Hne. right.
  destruct (Hkeep i v Hv) as [Hk|]; [|done]. destruct Hne. eapply slot_event, Hm. by eapply Hdata.
Qed.

(** A projection of some of the values keeps the view and the image together. *)
Lemma project_tracks env st view sub suppress :
  reader st -> tracks st view image -> part_of st image u sub -> stream_closed env = false ->
  let '(st', out, em) := project_update env st (with_values u sub) suppress in
  reader st' /\ field_strings (table st') = field_strings (table st)
  /\ (out = DataLoss \/ forall me, tracks st (see_all me view (emit me em)) (apply_image image (columns u) (su_values u))).
Proof.
  intros Hr Ht Hp Hopen. destruct Hp as [Hsub Hpart].
  pose proof (project_reader env st (with_values u sub) suppress Hr (uo_layout _ Hu)
    (nodup_sub _ _ Hsub (uo_distinct _ Hu)) Hopen) as Hx.
  destruct (project_update _ _ _ _) as [[st' out] em]. destruct Hx as (Hr' & Hn & Hem). split_and!; [done|done|].
  destruct em as [[x|err]|]; [right|by left; destruct Hem|right]; intros me; simpl.
  - rewrite decide_True by done. by apply (tracks_step st view image u sub).
  - apply (tracks_step st view image u [] []); try done. split; [apply sublist_nil_l|].
    intros i v m j Hv Hm Hj Hne. destruct (Hpart i v m j Hv Hm Hj Hne) as [Hs|Hs]; [|by right].
    destruct Hne. apply (Hem j v); [|done]. apply picked_spec; [done|]. by exists i, m.
Qed.

Lemma tick_outcome_tracks o c view :
  reader (c_projection c) -> tracks (c_projection c) view image ->
  ow_deltas o = true -> ow_stream_closed o = false ->
  match tick_outcome o tk c with
  | None => tracks (c_projection c) view (apply_image image (columns u) (su_values u))
  | Some (st', out, em) =>
      reader st' /\ field_strings (table st') = field_strings (table (c_projection c))
      /\ (out = DataLoss
          \/ forall me, tracks (c_projection c) (see_all me view (emit me em)) (apply_image image (columns u) (su_values u)))
  end.
Proof.
  intros Hr Ht Hd Hopen. unfold tick_outcome, image_delivery. rewrite Hd, (to_mktdata _ _ _ Htk). simpl.
  destruct (tk_repainting tk && tk_initpaint tk && negb (c_awaiting_image c)).
  - destruct (tk_changes tk).2 eqn:Hc.
    + unfold changed_update. rewrite (to_source _ _ _ Htk).
      pose proof (project_tracks (owner_env o) _ view _ true Hr Ht (changes_part _) Hopen) as Hx.
      unfold with_values in Hx. by destruct (project_update _ _ _ true) as [[st' out] em].
    + apply (tracks_step _ view image u [] []); try done. by apply no_changes_part.
  - rewrite (to_source _ _ _ Htk).
    pose proof (project_tracks (owner_env o) _ view (su_values u) true Hr Ht) as Hx.
    replace (with_values u (su_values u)) with u in Hx by (by destruct u).
    specialize (Hx ltac:(split; [done|by left]) Hopen). by destruct (project_update _ _ _ true) as [[st' out] em].
Qed.
End Tick.

(** ** The consumers of an update *)

Section Consumers.
Context (me : nat * nat).

(** The owner of the consumer lives and wants deltas. *)
Definition keeps (ow : nat * nat -> Owner) : Prop := ow_alive (ow me) = true /\ ow_deltas (ow me) = true.

Lemma apply_delayed_spec o c d :
  let '(c', fx, allowed) := apply_delayed o c d in
  c_id c' = c_id c /\ c_projection c' = c_projection c /\ existsb delivers fx = false
  /\ (c_active c' = true -> c_active c = true) /\ (c_active c' = true -> allowed = true).
Proof.
  pose proof (apply_delayed_withheld o c d) as Hw. unfold apply_delayed in *.
  repeat case_match; simplify_eq/=; split_and!; done.
Qed.

(** A consumer is only delivered its own. *)
Lemma tick_frame ow tk c :
  let '(c', fx, _, _) := tick_consumer ow tk c in
  c_id c' = c_id c /\ (c_id c <> me -> forall view, see_all me view fx = view).
Proof.
  unfold tick_consumer. destruct (negb (ow_alive _)); [by split|].
  destruct (negb (c_active c) || _ || _); [by split|].
  pose proof (apply_delayed_spec (ow (c_id c)) c (tk_delayed tk)) as Ha.
  destruct (apply_delayed _ c _) as [[c1 fx] allowed]. destruct Ha as (Hid & _ & Hq & _).
  assert (forall view fx', existsb delivers fx' = false -> c_id c <> me ->
    forall em, see_all me view (fx ++ emit (c_id c) em ++ fx') = view) as Hsee.
  { intros view fx' Hq' Hne em. rewrite !see_all_app, (see_all_none _ _ fx), (see_all_none _ _ fx') by done.
    destruct em as [[x|err]|]; simpl; rewrite ?decide_False by done; done. }
  assert (c_id c <> me -> forall view, see_all me view fx = view) as Hsee0
    by (intros ? view; by apply see_all_none).
  destruct (negb allowed); [by split|]. destruct (tk_frozen tk); [by split|].
  destruct (tick_outcome _ tk _) as [[[st out] em]|]; [|by destruct (tk_finish tk)].
  assert (c_id (if tk_finish tk then set_awaiting c1 false false else c1) = c_id c) as Hid'
    by (by destruct (tk_finish tk)).
  destruct out; simpl; rewrite ?Hid'; [|split; [done|]; intros Hne view; rewrite <-app_assoc; by apply Hsee..].
  destruct (tk_recovered tk && _), (ow_state_delivery _); simpl; rewrite ?Hid'; (split; [done|]); intros Hne view;
    rewrite <-?app_assoc; [by apply Hsee| |by apply Hsee|]; specialize (Hsee view [] eq_refl Hne em);
    by rewrite app_nil_r in Hsee.
Qed.

(** From one consumer and view to the next by a tick. *)
Definition ticked (tk : Tick) (c c' : ConsumerTopic) (view view' : View) : Prop :=
  if tk_frozen tk then c_projection c' = c_projection c /\ view' = view
  else forall u image, tick_of tk u image -> reader (c_projection c) -> tracks (c_projection c) view image ->
    reader (c_projection c') /\ tracks (c_projection c') view' (apply_image image (columns u) (su_values u)).

(** What a tick does to the consumer itself. *)
Lemma tick_mine ow tk c view :
  c_id c = me -> keeps ow ->
  let '(c', fx, _, _) := tick_consumer ow tk c in
  c_active c' = true -> c_active c = true /\ ticked tk c c' view (see_all me view fx).
Proof.
  intros Hid [Hal Hde]. unfold tick_consumer, ticked. rewrite Hid, Hal. simpl.
  destruct (negb (c_active c) || _ || _) eqn:Hcl; [done|].
  apply orb_false_iff in Hcl as [[Hac%negb_false_iff _]%orb_false_iff Hsc].
  pose proof (apply_delayed_spec (ow me) c (tk_delayed tk)) as Ha.
  destruct (apply_delayed _ c _) as [[c1 fx] allowed]. destruct Ha as (Hid1 & Hpr & Hq & Hac1 & Hall).
  assert (see_all me view fx = view) as Hsee by (by apply see_all_none).
  destruct allowed; simpl; [|intros Hx; by specialize (Hall Hx)].
  destruct (tk_frozen tk); [done|].
  set (c2 := if tk_finish tk then _ else c1). assert (c_projection c2 = c_projection c /\ c_id c2 = me) as [Hpr2 Hid2].
  { unfold c2. destruct (tk_finish tk); simpl; split; congruence. }
  destruct (tick_outcome (ow me) tk c2) as [[[st out] em]|] eqn:Ho.
  2:{ intros _. split; [done|]. intros u image Htk Hr Ht.
      pose proof (tick_outcome_tracks u image tk Htk (ow me) c2 view) as Hx. rewrite Ho, Hpr2 in Hx.
      rewrite Hpr2, Hsee. split; [done|]. by apply Hx. }
  assert (forall b fx', existsb delivers fx' = false -> out = Normal b ->
    forall u image, tick_of tk u image -> reader (c_projection c) -> tracks (c_projection c) view image ->
       reader st /\ tracks st (see_all me view (fx ++ emit me em ++ fx')) (apply_image image (columns u) (su_values u)))
    as Hmain.
  { intros b fx' Hfx' -> u image Htk Hr Ht.
    pose proof (tick_outcome_tracks u image tk Htk (ow me) c2 view) as Hx. rewrite Ho, Hpr2 in Hx.
    destruct (Hx Hr Ht Hde Hsc) as (Hr' & Hn & [|Htr]); [done|]. split; [done|].
    rewrite !see_all_app, Hsee, (see_all_none _ _ fx') by done. specialize (Htr me).
    unfold tracks in *. by rewrite Hn. }
  destruct out as [b| |]; simpl; [|done..]. rewrite Hid2. unfold image_delivery. rewrite Hde, andb_false_r.
  destruct (ow_state_delivery _); simpl; intros _; (split; [done|]); intros u image Htk Hr Ht.
  - rewrite <-app_assoc. by apply (Hmain b [EMark me (tk_revision tk) false] eq_refl eq_refl u image).
  - rewrite <-(app_nil_r (emit me em)). by apply (Hmain b [] eq_refl eq_refl u image).
Qed.

Lemma ticks_mine ow tk cs view :
  NoDup (c_id <$> cs) -> keeps ow ->
  let '(cs', fx, _, _) := tick_consumers ow tk cs in
  c_id <$> cs' = c_id <$> cs
  /\ (me ∉ c_id <$> cs -> see_all me view fx = view)
  /\ forall c', c' ∈ cs' -> c_id c' = me -> c_active c' = true ->
      exists c, c ∈ cs /\ c_id c = me /\ c_active c = true /\ ticked tk c c' view (see_all me view fx).
Proof.
  intros Hd Hk. revert view Hd. induction cs as [|c cs IH]; intros view Hd; simpl.
  { split_and!; [done|done|]. by intros c' ?%not_elem_of_nil. }
  csimpl in Hd. apply NoDup_cons in Hd as [Hn Hd].
  pose proof (tick_frame ow tk c) as Hf. pose proof (tick_mine ow tk c view) as Hm.
  destruct (tick_consumer ow tk c) as [[[c1 fx] cl] no]. destruct Hf as [Hid Hne].
  specialize (IH (see_all me view fx) Hd). destruct (tick_consumers ow tk cs) as [[[cs1 fxs] cls] nos].
  destruct IH as (Hids & Hout & Hin). csimpl. rewrite Hid, Hids, see_all_app. split_and!; [done| |].
  - intros [H1 H2]%not_elem_of_cons. rewrite Hout by done. by apply Hne.
  - intros c' [->|Hc]%elem_of_cons Hme Hac.
    + rewrite Hid in Hme. rewrite Hout by congruence. destruct (Hm Hme Hk Hac). exists c. split; [by left|done].
    + destruct (Hin c' Hc Hme Hac) as (c0 & H0 & Hid0 & Hac0 & Ht). exists c0. split; [by right|].
      rewrite Hne in Ht |- *; [done|..]; intros Heq; apply Hn; rewrite Heq, <-Hid0; by apply list_elem_of_fmap_2.
Qed.

(** ** An update *)

Definition mine_ok (fs : FeedState) (view : View) (c : ConsumerTopic) : Prop :=
  reader (c_projection c)
  /\ match f_recovery fs with None => tracks (c_projection c) view (f_image fs) | Some _ => view = ∅ end.

Lemma tracks_cleared st (image : list (option UpdateValue)) : tracks st ∅ ((fun _ => None) <$> image).
Proof.
  intros j name _ _. rewrite lookup_empty. unfold named. destruct (position_of names name); simpl; [|done].
  rewrite (cleared_image image). unfold image_at. by rewrite lookup_nil.
Qed.

Lemma notices_quiet (l : list (nat * nat * string)) view :
  see_all me view (l ≫= fun '(id, label) => [ERecovered id label]) = view.
Proof. apply see_all_none. induction l as [|[id label] l IH]; csimpl; [done|]. by rewrite IH. Qed.

Lemma on_update_mine ow fs u view :
  ended (f_lifecycle fs) = false -> keeps ow -> update_ok u -> NoDup (c_id <$> f_consumers fs) ->
  (slots_now fs u).2 = slots_of (layout_of (su_layout u)) ->
  (forall i v, image_at (f_image fs) i = Some v -> i < columns u) ->
  let '(fs', fx) := on_update true ow fs u in
  c_id <$> f_consumers fs' = c_id <$> f_consumers fs
  /\ (me ∉ c_id <$> f_consumers fs -> see_all me view fx = view)
  /\ forall c', c' ∈ f_consumers fs' -> c_id c' = me -> c_active c' = true ->
      exists c, c ∈ f_consumers fs /\ c_id c = me /\ c_active c = true
        /\ (mine_ok fs view c -> mine_ok fs' (see_all me view fx) c').
Proof.
  intros He Hk Hu Hd Hsl Hcol. unfold on_update. rewrite He. fold (slots_now fs u). rewrite Hsl.
  destruct (scan _ (su_values u)) as [subtype delayed].
  pose proof (recovery_paint_spec (f_recovery fs) (bool_decide (subtype = Some "INITPAINT"))) as Hp.
  destruct (recovery_paint _ _) as [[[r recovered] frozen] restart].
  set (image := if recovered then _ else _). set (tk := mkTick _ _ _ _ _ _ _ _ _ _).
  set (fs1 := if frozen then _ else _). assert (f_consumers fs1 = f_consumers fs) as Hcs by (by destruct frozen).
  pose proof (ticks_mine ow tk (f_consumers fs1) view) as Ht. rewrite Hcs in Ht |- *. specialize (Ht Hd Hk).
  destruct (tick_consumers ow tk _) as [[[cs fx] cl] no]. destruct Ht as (Hids & Hout & Hin).
  cbn [f_consumers f_recovery f_image]. rewrite !see_all_app, notices_quiet.
  rewrite (see_all_none _ _ (if cl then _ else _)) by (by destruct cl).
  rewrite (see_all_none _ _ (if restart && _ then _ else _)) by (by destruct (restart && _)).
  split_and!; [done|done|]. intros c' Hc Hme Hac. destruct (Hin c' Hc Hme Hac) as (c & H1 & H2 & H3 & Htick).
  exists c. split_and!; [done|done|done|]. intros [Hr Hm]. unfold mine_ok. unfold ticked in Htick. simpl in Htick.
  destruct frozen; [destruct Hp as [Hp _]|destruct Hp as [_ Hp]]; specialize (Hp eq_refl); subst fs1 image.
  - destruct Hp as ([q Hq] & [q' Hq'] & ->), Htick as [-> ->]. simpl. rewrite Hq' in *. rewrite Hq in Hm. done.
  - destruct Hp as (-> & Hp1 & Hp2). simpl. apply Htick; [|done|].
    + split; try done. destruct recovered; [|done]. intros i v. rewrite cleared_image. unfold image_at. by rewrite lookup_nil.
    + destruct recovered; [|by rewrite Hp1 in Hm]. destruct (Hp2 eq_refl) as [_ [q Hq]]. rewrite Hq in Hm. subst view.
      apply tracks_cleared.
Qed.

(** ** The columns of the feed *)

Context (Hevents : EVENT_TYPE ∈ names /\ EVENT_SUBTYPE ∈ names).

Lemma columns_bound metas : columns_ok metas -> (Z.of_nat (length metas) <= 65536)%Z.
Proof.
  intros Hc. assert (length (meta_name <$> metas) <= length names) as Hl.
  { apply submseteq_length, NoDup_submseteq; [apply Hc|]. intros name (m & -> & Hm)%list_elem_of_fmap.
    by apply (co_known _ Hc). }
  rewrite length_fmap in Hl. lia.
Qed.

Lemma add_column_ok metas name :
  columns_ok metas -> name ∈ names -> columns_ok (add_column metas name) /\ metas `prefix_of` add_column metas name.
Proof.
  intros Hc Hn. unfold add_column. destruct (existsb _ metas) eqn:He; [done|].
  assert (name ∉ meta_name <$> metas) as Hnew.
  { intros (m & -> & Hm)%list_elem_of_fmap. rewrite <-not_true_iff_false in He. apply He, existsb_exists.
    exists m. rewrite <-list_elem_of_In, bool_decide_eq_true. done. }
  split; [|by apply prefix_app_r].
  assert (forall idx, NoDup (meta_name <$> (metas ++ [mkMeta name idx KUnknown false])%list)) as Hd.
  { intros idx. rewrite fmap_app. apply NoDup_app. split_and!; [apply Hc| |apply NoDup_singleton].
    intros x Hx ->%list_elem_of_singleton. done. }
  assert (length metas < length names) as Hlt.
  { assert (length (meta_name <$> (metas ++ [mkMeta name 0 KUnknown false])%list) <= length names) as Hl.
    { apply submseteq_length, NoDup_submseteq; [apply Hd|]. rewrite fmap_app.
      intros x [(m & -> & Hm)%list_elem_of_fmap| ->%list_elem_of_singleton]%elem_of_app; [|done].
      by apply (co_known _ Hc). }
    rewrite length_fmap, length_app in Hl. simpl in Hl. lia. }
  split; [|apply Hd|].
  - intros i m [Hi|[Hi Hm]]%lookup_app_Some; [by apply (co_index _ Hc)|].
    apply list_lookup_singleton_Some in Hm as [Hx <-]. simpl. rewrite as_u16_small by lia. lia.
  - intros m [Hm| ->%list_elem_of_singleton]%elem_of_app; [by apply (co_known _ Hc)|done].
Qed.

Lemma add_columns_ok l metas :
  columns_ok metas -> (forall name, name ∈ l -> name ∈ names) ->
  columns_ok (fold_left add_column l metas) /\ metas `prefix_of` fold_left add_column l metas.
Proof.
  revert metas. induction l as [|name l IH]; intros metas Hc Hl; simpl; [done|].
  destruct (add_column_ok metas name Hc) as [H1 H2]; [apply Hl; by left|].
  destruct (IH _ H1) as [H3 H4]; [intros; apply Hl; by right|]. split; [done|]. by etrans.
Qed.

Lemma seed_column_meta kinds m :
  meta_name (seed_column kinds m) = meta_name m /\ meta_index (seed_column kinds m) = meta_index m.
Proof. unfold seed_column. by destruct (meta_kind m), (kinds !! meta_name m). Qed.

Lemma seed_columns_ok kinds metas : columns_ok metas -> columns_ok (seed_column kinds <$> metas).
Proof.
  intros Hc. pose proof (seed_column_meta kinds) as Hs. split.
  - intros i m Hm. rewrite list_lookup_fmap in Hm. destruct (metas !! i) as [m'|] eqn:Hi; simplify_eq/=.
    rewrite (proj2 (Hs m')). by apply (co_index _ Hc).
  - rewrite <-list_fmap_compose. erewrite list_fmap_ext; [apply Hc|]. intros i m _. apply Hs.
  - intros m (m' & -> & Hm)%list_elem_of_fmap. rewrite (proj1 (Hs m')). by apply (co_known _ Hc).
Qed.

(** What the feed knows: values are under the names of the decoder. *)
Record known (k : nat) (fs : FeedState) : Prop := mkKnown {
  kn_layout l : f_layout fs = Some l -> layout_ok l;
  kn_fields name : name ∈ f_fields fs -> name ∈ names;
  kn_values i v : image_at (f_image fs) i = Some v ->
    i < k /\ f_last_update fs <> None
    /\ exists l m, f_layout fs = Some l /\ layout_fields (layout_of l) !! i = Some m /\ names !! i = Some (meta_name m)
}.

Lemma known_seed k fs kinds :
  known k fs ->
  match f_layout fs with
  | Some l => length (f_image fs) = length (layout_fields (layout_of l))
  | None => f_image fs = []
  end ->
  known k (seed_image_kinds arc fs kinds).
Proof.
  intros Hkn Hlen. destruct (seed_image_spec arc fs kinds Hlen) as (Hi & _). clear Hlen.
  unfold seed_image_kinds in *. set (old := match f_layout fs with Some l => _ | None => _ end) in *.
  destruct (add_columns_ok (f_fields fs ++ [EVENT_TYPE; EVENT_SUBTYPE])%list old) as [Hc Hpre].
  { unfold old. destruct (f_layout fs) as [l|] eqn:Hl; [by apply (kn_layout _ _ Hkn)|].
    split; [done|constructor|by intros m ?%not_elem_of_nil]. }
  { destruct Hevents. intros name [Hn|Hn]%elem_of_app; [by apply (kn_fields _ _ Hkn)|].
    apply elem_of_cons in Hn as [->|Hn]; [done|]. by apply list_elem_of_singleton in Hn as ->. }
  set (metas := fold_left add_column _ old) in *.
  destruct (_ || _ || _) eqn:Hch; simpl in *; [|by destruct Hkn; split].
  split; simpl; [|apply Hkn|].
  - intros l [= <-]. split; [done|]. by apply seed_columns_ok.
  - intros i v Hv. rewrite Hi in Hv. destruct (kn_values _ _ Hkn i v Hv) as (H1 & H2 & l & m & Hl & Hm & Hn).
    split_and!; [done|done|]. eexists _, (seed_column (merge_kinds (f_kinds fs) kinds) m). split_and!; [done| |].
    + simpl. assert (metas !! i = Some m) as Hmi.
      { eapply prefix_lookup_Some, Hpre. unfold old. by rewrite Hl. }
      by rewrite list_lookup_fmap, Hmi.
    + by rewrite (proj1 (seed_column_meta _ m)).
Qed.

(** ** The image a new consumer is given *)

Lemma initial_spec image metas i v :
  columns_ok metas ->
  mkField i v ∈ omap (initial_value image) metas
  <-> exists m, metas !! i = Some m /\ initial_value image m = Some (mkField i v).
Proof.
  intros Hc. rewrite list_elem_of_omap. split; intros (m & Hm & Hi).
  - exists m. split; [|done]. apply list_elem_of_lookup in Hm as [j Hj].
    assert (meta_index m = i) as <-; [|by rewrite (co_index _ Hc j m Hj)].
    unfold initial_value in Hi. apply fmap_Some in Hi as (w & _ & [= -> _]). done.
  - exists m. split; [by eapply list_elem_of_lookup_2|done].
Qed.

Lemma initial_nodup image metas :
  columns_ok metas -> NoDup (field_index <$> omap (initial_value image) metas).
Proof.
  intros Hc. apply (omap_index_nodup meta_name (meta_name <$> metas)); [apply Hc|].
  intros m [i v] Hm Hi. simpl. apply list_elem_of_lookup in Hm as [j Hj].
  unfold initial_value in Hi. apply fmap_Some in Hi as (w & _ & [= -> _]).
  by rewrite (co_index _ Hc j m Hj), list_lookup_fmap, Hj.
Qed.

Lemma initial_other image i m v :
  ~ event_name (meta_name m) -> meta_index m = i ->
  initial_value image m = Some (mkField i v) <-> image_at image i = Some v.
Proof.
  intros Hne Hi. unfold initial_value, event_name in *. rewrite !decide_False by tauto. rewrite Hi.
  destruct (image_at image i); simpl; split; congruence.
Qed.

(** The initial image gives a reader what the image has. *)
Lemma initial_tracks k fs l now st given :
  known k fs -> reader st -> f_layout fs = Some l ->
  let u := mkSharedUpdate l (omap (initial_value (f_image fs)) (layout_fields (layout_of l))) now in
  NoDup (field_index <$> given) ->
  (forall j v name, field_strings (table st) !! j = Some name -> ~ event_name name ->
     mkField j v ∈ given <-> mkField j v ∈ picked st u) ->
  tracks st (apply_view ∅ given) (f_image fs).
Proof.
  intros Hkn Hr Hl u Hd Hgiven j name Hj Hne. pose proof (lo_columns _ (kn_layout _ _ Hkn l Hl)) as Hc.
  assert (forall v, mkField j v ∈ given <-> named (f_image fs) name = Some v) as Hv.
  { intros v. rewrite (Hgiven j v name Hj Hne), picked_spec by done. simpl. unfold named. split.
    - intros (i & m & (m' & Hm' & Hi)%initial_spec & Hm & Hs); [|done].
      assert (m' = m) as -> by congruence. assert (name = meta_name m) as -> by congruence.
      apply initial_other in Hi; [|done|by apply (co_index _ Hc)].
      destruct (kn_values _ _ Hkn i v Hi) as (_ & _ & l' & m2 & Hl2 & Hm2 & Hn).
      assert (m2 = m) as -> by congruence. by rewrite (proj2 (position_lookup (meta_name m) i) Hn).
    - destruct (position_of names name) as [i|] eqn:Hp; [|done]. simpl. intros Hi.
      apply position_lookup in Hp.
      destruct (kn_values _ _ Hkn i v Hi) as (_ & _ & l' & m' & Hl' & Hm' & Hn).
      assert (l' = l) as -> by congruence. assert (name = meta_name m') as -> by congruence.
      exists i, m'. split_and!; [|done|done]. apply initial_spec; [done|]. exists m'. split; [done|].
      apply initial_other; [done|by apply (co_index _ Hc)|done]. }
  destruct (named (f_image fs) name) as [v|] eqn:Hn.
  - rewrite (apply_view_in _ _ _ v); [done|done|by apply Hv].
  - rewrite apply_view_out; [done|]. intros v Hin%Hv. done.
Qed.

(** A new consumer, given the image, has its values. *)
Lemma project_initial k fs l now st env :
  known k fs -> reader st -> f_layout fs = Some l -> stream_closed env = false ->
  let u := mkSharedUpdate l (omap (initial_value (f_image fs)) (layout_fields (layout_of l))) now in
  let '(st', _, em) := project_update env st u false in
  reader st' /\ tracks st' (see_all me ∅ (emit me em)) (f_image fs).
Proof.
  intros Hkn Hr Hl Hopen u. pose proof (kn_layout _ _ Hkn l Hl) as Hlo.
  pose proof (initial_nodup (f_image fs) _ (lo_columns _ Hlo)) as Hd.
  pose proof (project_reader env st u false Hr Hlo Hd Hopen) as Hx.
  destruct (project_update env st u false) as [[st' out] em]. destruct Hx as (Hr' & Hn & Hem). split; [done|].
  unfold tracks. rewrite Hn. fold (tracks st (see_all me ∅ (emit me em)) (f_image fs)).
  destruct em as [[x|err]|]; simpl.
  - rewrite decide_True by done. apply (initial_tracks k fs l now st); try done.
    + rewrite Hem. by apply picked_nodup.
    + intros j v name _ _. by rewrite Hem.
  - destruct Hem as [_ Hin]. apply picked_spec in Hin as (i & m & Hi & Hm & Hs); [|done].
    rewrite (proj2 (rd_events _ Hr)) in Hs. injection Hs as Hs. simpl in Hi, Hm.
    apply initial_spec in Hi as (m' & Hm' & Hi); [|apply Hlo]. assert (m' = m) as -> by congruence.
    unfold initial_value in Hi. rewrite <-Hs in Hi. by rewrite decide_False, decide_True in Hi.
  - apply (initial_tracks k fs l now st []); try done; [constructor|]. intros j v name Hj Hne.
    split; [by intros ?%not_elem_of_nil|]. intros Hin. by destruct Hne; eapply Hem.
Qed.

(** ** The invariant *)

(** Consumers that are no more active than before, with the same projections. *)
Definition quieter (cs cs' : list ConsumerTopic) : Prop :=
  forall c', c' ∈ cs' -> c_active c' = true ->
    exists c, c ∈ cs /\ c_id c = c_id c' /\ c_active c = true /\ c_projection c = c_projection c'.

Record viewed (k : nat) (used : list (nat * nat)) (fs : FeedState) (view : View) : Prop := mkViewed {
  vw_fresh : exists h, fresh_feed arc fs h;
  vw_known : known k fs;
  vw_ids : NoDup (c_id <$> f_consumers fs);
  vw_used c : c ∈ f_consumers fs -> c_id c ∈ used;
  vw_new : me ∉ used -> view = ∅;
  vw_mine c : ended (f_lifecycle fs) = false -> c ∈ f_consumers fs -> c_id c = me -> c_active c = true -> mine_ok fs view c
}.

Lemma known_same k k' fs fs' :
  known k fs -> k <= k' -> f_layout fs' = f_layout fs -> f_image fs' = f_image fs ->
  f_last_update fs' = f_last_update fs -> f_fields fs' = f_fields fs -> known k' fs'.
Proof.
  intros [H1 H2 H3] Hk Hl Hi Hu Hf. split; rewrite ?Hl, ?Hi, ?Hu, ?Hf; [done|done|].
  intros i v Hv. destruct (H3 i v Hv) as (? & ? & ?). split; [lia|done].
Qed.

(** Steps that serve the same image and deliver nothing. *)
Lemma viewed_quiet k used fs fs' view :
  viewed k used fs view -> same_image fs fs' ->
  f_last_update fs' = f_last_update fs -> f_fields fs' = f_fields fs ->
  (c_id <$> f_consumers fs') `sublist_of` (c_id <$> f_consumers fs) -> quieter (f_consumers fs) (f_consumers fs') ->
  viewed k used fs' view.
Proof.
  intros [H1 H2 H3 H4 H5 H6] Hs Hu Hf Hsub Hq. destruct Hs as [Hi Hl Hsl Hr He].
  split; [destruct H1 as [h H1]; exists h; by apply (fresh_same arc fs); [split|]|by eapply known_same| | |done|].
  - by eapply sublist_NoDup.
  - intros c Hc. assert (c_id c ∈ c_id <$> f_consumers fs) as (c0 & -> & Hc0)%list_elem_of_fmap; [|by apply H4].
    eapply elem_of_sublist; [|done]. by apply list_elem_of_fmap_2.
  - intros c Hn Hc Hme Ha. destruct (Hq c Hc Ha) as (c0 & Hc0 & Hid0 & Ha0 & Hp0).
    assert (ended (f_lifecycle fs) = false) as Hn0.
    { destruct (ended (f_lifecycle fs)); [|done]. by rewrite He in Hn. }
    specialize (H6 c0 Hn0 Hc0 ltac:(congruence) Ha0). unfold mine_ok in *. rewrite Hi, <-Hp0.
    destruct H6 as [H6 H6'], Hr as [Hr1 Hr2]. split; [done|].
    destruct (f_recovery fs), (f_recovery fs'); try done; [by specialize (Hr1 eq_refl)|by specialize (Hr2 eq_refl)].
Qed.

Lemma mine_ok_image fs fs' view c :
  image_eq (f_image fs') (f_image fs) -> f_recovery fs' = f_recovery fs -> mine_ok fs view c -> mine_ok fs' view c.
Proof.
  intros Hi Hr [H1 H2]. split; [done|]. rewrite Hr. destruct (f_recovery fs); [done|].
  intros j name Hj Hne. rewrite (H2 j name Hj Hne). unfold named.
  destruct (position_of names name); simpl; [|done]. by rewrite Hi.
Qed.

Lemma grow_fields fields acc b :
  (forall name, name ∈ fields -> name ∈ names) -> (forall name, name ∈ acc -> name ∈ names) ->
  forall name, name ∈ (fold_left grow_one fields (acc, b)).1 -> name ∈ names.
Proof.
  revert acc b. induction fields as [|x fields IH]; intros acc b Hf Ha name; simpl; [apply Ha|].
  case_bool_decide; apply IH; try done; try (intros y Hy; apply Hf; by right).
  intros y [Hy| ->%list_elem_of_singleton]%elem_of_app; [by apply Ha|]. apply Hf. by left.
Qed.

Lemma viewed_grow k used fs view fields :
  viewed k used fs view -> (forall name, name ∈ fields -> name ∈ names) ->
  viewed k used (grow_union fs fields).1 view.
Proof.
  intros Hv Hf. pose proof (grow_fields fields (f_fields fs) false Hf (kn_fields _ _ (vw_known _ _ _ _ Hv))) as Hu.
  unfold grow_union. destruct (fold_left grow_one _ _) as [union changed]. simpl in *.
  set (g := fun c => if c_awaiting_repaint c then c else _).
  assert (forall c, c_id (g c) = c_id c /\ c_active (g c) = c_active c /\ c_projection (g c) = c_projection c) as Hg.
  { intros c. unfold g. by destruct (c_awaiting_repaint c). }
  assert (viewed k used (with_consumers fs (if changed && bool_decide (f_last_update fs <> None) then g <$> f_consumers fs
    else f_consumers fs)) view) as [V1 [K1 K2 K3] V3 V4 V5 V6].
  { apply (viewed_quiet k used fs); try done; simpl; destruct (changed && _); try done.
    - rewrite <-list_fmap_compose. erewrite list_fmap_ext; [done|]. intros i c _. apply Hg.
    - intros c' (c & -> & Hc)%list_elem_of_fmap. destruct (Hg c) as (-> & -> & ->). eauto.
    - intros c' Hc Ha. eauto. }
  split; try done. destruct V1 as [h V1]. exists h. by apply (fresh_same arc (with_consumers fs (if changed && bool_decide (f_last_update fs <> None)
    then g <$> f_consumers fs else f_consumers fs))).
Qed.

Lemma viewed_seed k used fs view kinds :
  viewed k used fs view -> viewed k used (seed_image_kinds arc fs kinds) view.
Proof.
  intros [[h V1] V2 V3 V4 V5 V6]. pose proof (seed_image_spec arc fs kinds (fr_length _ _ _ V1)) as (Hi & _ & _ & Hr & Hlc).
  assert (f_consumers (seed_image_kinds arc fs kinds) = f_consumers fs) as Hcs
    by (unfold seed_image_kinds; by destruct (_ || _ || _)).
  split; rewrite ?Hcs; try done.
  - exists h. by apply fresh_seed.
  - by apply known_seed; [|apply (fr_length _ _ _ V1)].
  - intros c. rewrite Hlc. intros Hn Hc Hme Ha. apply (mine_ok_image fs); try done. by apply V6.
Qed.

(** ** A consumer attaches *)

(** A consumer with a fresh projection; the tracked one is a reader of deltas with an open stream. *)
Record attach_ok (k : nat) (o : Owner) (created : bool) (id : nat * nat) (st : SubscriptionState)
  (fields : list string) : Prop := mkAttachOk {
  at_fields name : name ∈ fields -> name ∈ names;
  at_created : created = true -> k = 0;
  at_mine : id = me -> reader st /\ ow_deltas o = true /\ ow_stream_closed o = false
}.

Lemma no_image k fs st :
  known k fs -> f_last_update fs = None \/ k = 0 \/ f_layout fs = None -> tracks st ∅ (f_image fs).
Proof.
  intros Hkn Hor j name _ _. rewrite lookup_empty. unfold named.
  destruct (position_of names name) as [i|]; simpl; [|done].
  destruct (image_at (f_image fs) i) as [v|] eqn:Hi; [|done].
  destruct (kn_values _ _ Hkn i v Hi) as (? & ? & l & ? & ? & _). destruct Hor as [?|[->|?]]; [done|lia|congruence].
Qed.

(** The image offered to a consumer that attaches, if it is offered one. *)
Lemma offered_image k fs st now o created :
  known k fs -> reader st -> ow_stream_closed o = false -> (created = true -> k = 0) ->
  let '(st', em) :=
    if negb created then
      match initial_image_update now fs with
      | Some image => let '(st', _, em) := project_update (owner_env o) st image false in (st', em)
      | None => (st, None)
      end
    else (st, None) in
  reader st'
  /\ match f_recovery fs with
     | None => tracks st' (see_all me ∅ (emit me em)) (f_image fs)
     | Some _ => see_all me ∅ (emit me em) = ∅
     end.
Proof.
  intros Hkn Hr Hopen Hcr. assert (f_last_update fs = None \/ k = 0 \/ f_layout fs = None ->
    match f_recovery fs with None => tracks st ∅ (f_image fs) | Some _ => (∅ : View) = ∅ end) as Hno.
  { intros Hor. destruct (f_recovery fs); [done|]. by eapply no_image. }
  destruct created; simpl; [split; [done|]; apply Hno; auto|]. unfold initial_image_update.
  destruct (bool_decide (f_last_update fs = None)) eqn:Hlu; simpl.
  { apply bool_decide_eq_true in Hlu. split; [done|]. apply Hno. auto. }
  destruct (f_recovery fs) as [q|]; simpl; [done|].
  destruct (f_layout fs) as [l|] eqn:Hl; [|split; [done|]; apply Hno; auto].
  pose proof (project_initial k fs l now st (owner_env o) Hkn Hr Hl Hopen) as Hp. cbv zeta in Hp.
  by destruct (project_update _ _ _ _) as [[st' out] em].
Qed.

(** The consumer of [attach] once it was offered the image, and what it has then. *)
Lemma offered_viewed k fs c fx now o created ok id view :
  known k fs -> c_id c = id -> existsb delivers fx = false -> (c_active c = true -> ok = true) ->
  attach_ok k o created id (c_projection c) [] ->
  let '(c', fx') :=
    if ok && ow_deltas o && negb created && true then
      match initial_image_update now fs with
      | Some image =>
          let '(st, _, em) := project_update (owner_env o) (c_projection c) image false in
          (set_projected c st, (fx ++ emit id em)%list)
      | None => (c, fx)
      end
    else (c, fx) in
  c_id c' = id /\ (id <> me -> see_all me view fx' = view)
  /\ (id = me -> view = ∅ -> c_active c' = true -> mine_ok fs (see_all me view fx') c').
Proof.
  intros Hkn Hid Hq Hok [_ Hcr Hme].
  pose proof (offered_image k fs (c_projection c) now o created Hkn) as Hoff.
  assert (see_all me view fx = view) as Hsee by (by apply see_all_none).
  assert (forall em, id <> me -> see_all me view (fx ++ emit id em) = view) as Hother.
  { intros em Hne. rewrite see_all_app, Hsee. destruct em as [[x|err]|]; simpl; rewrite ?decide_False by done; done. }
  destruct (decide (id = me)) as [Heq|Hne]; [|repeat case_match; simplify_eq; split_and!; by auto].
  destruct (Hme Heq) as (Hr & Hd & Hopen). specialize (Hoff Hr Hopen Hcr). rewrite Hd.
  destruct ok; simpl; [|split_and!; [done|done|intros _ _ Ha; by specialize (Hok Ha)]]. rewrite andb_true_r.
  assert (view = ∅ -> see_all me view fx = see_all me ∅ (emit me None)) as Hnone by (by intros ->).
  destruct (negb created); [destruct (initial_image_update now fs) as [image|]|].
  - destruct (project_update _ _ _ _) as [[st out] em]. split_and!; [done|done|]. intros _ Hv _.
    rewrite see_all_app, Hsee, Heq, Hv. exact Hoff.
  - split_and!; [done|done|]. intros _ Hv _. rewrite (Hnone Hv). exact Hoff.
  - split_and!; [done|done|]. intros _ Hv _. rewrite (Hnone Hv). exact Hoff.
Qed.

Lemma attach_viewed k used fs view now o created accepted id st fields kinds fs' fx g :
  attach true arc now o created accepted id st fields kinds fs = Some (fs', fx, g) ->
  viewed k used fs view -> id ∉ used -> attach_ok k o created id st fields ->
  viewed k (id :: used) fs' (see_all me view fx).
Proof.
  unfold attach. destruct (ended (f_lifecycle fs)) eqn:He; [done|]. intros Hat Hv Hid [Hf Hcr Hme].
  pose proof (viewed_grow k used fs view fields Hv Hf) as Hv1.
  destruct (grow_union fs fields) as [fs1 growth]. simpl in Hv1.
  apply (viewed_seed _ _ _ _ kinds) in Hv1. set (fs2 := seed_image_kinds arc fs1 kinds) in *. clearbody fs2.
  pose proof (apply_delayed_spec o (new_consumer id st fields created growth fs2) (f_delayed fs2)) as Ha.
  destruct (apply_delayed o _ _) as [[c fxd] allowed]. destruct Ha as (Hcid & Hcpr & Hq & Hac & Hall).
  simpl in Hcid, Hcpr, Hac.
  set (c1 := if allowed && negb accepted then _ else c) in *.
  assert (c_id c1 = id /\ c_projection c1 = st /\ (c_active c1 = true -> allowed && accepted = true)) as (Hid1 & Hpr1 & Hac1).
  { unfold c1. destruct allowed, accepted; simpl; split_and!; try done; intros Hx; by specialize (Hall Hx). }
  pose proof (offered_viewed k fs2 c1 fxd now o created (allowed && accepted) id view (vw_known _ _ _ _ Hv1)
    Hid1 Hq Hac1) as Hoff. rewrite Hpr1 in *. specialize (Hoff ltac:(split; [by intros ? ?%not_elem_of_nil|exact Hcr|exact Hme])).
  destruct (if allowed && accepted && ow_deltas o && negb created && true then _ else _) as [c2 fx2].
  destruct Hoff as (Hid2 & Hother & Hmine).
  assert (exists fx3, fx = (fx2 ++ fx3)%list /\ existsb delivers fx3 = false
    /\ fs' = with_consumers fs2 (f_consumers fs2 ++ [c2])%list) as (fx3 & -> & Hq3 & ->).
  { simplify_eq. destruct (allowed && accepted && ow_state_delivery o).
    - eexists. rewrite <-app_assoc. split; [done|]. split; [|done]. rewrite !existsb_app.
      by destruct (bool_decide _), (allowed && accepted).
    - eexists. split; [done|]. split; [|done]. by destruct (allowed && accepted). }
  rewrite see_all_app, (see_all_none _ _ fx3) by done. destruct Hv1 as [[h V1] V2 V3 V4 V5 V6].
  split; simpl; [exists h; by apply (fresh_same arc fs2)|by eapply known_same| | | |].
  - rewrite fmap_app. apply NoDup_app. split_and!; [done| |apply NoDup_singleton].
    intros x (c0 & -> & Hc0)%list_elem_of_fmap Hx%list_elem_of_singleton. rewrite Hid2 in Hx.
    apply Hid. rewrite <-Hx. by apply V4.
  - intros c0 [Hc0| ->%list_elem_of_singleton]%elem_of_app; [right; by apply V4|rewrite Hid2; by left].
  - intros [Hn1 Hn2]%not_elem_of_cons. rewrite Hother by done. by apply V5.
  - intros c0 Hn [Hc0| ->%list_elem_of_singleton]%elem_of_app Hme0 Ha0.
    + rewrite Hother; [by apply V6|]. intros ->. apply Hid. rewrite <-Hme0. by apply V4.
    + rewrite Hid2 in Hme0. apply Hmine; [done| |done]. apply V5. by rewrite <-Hme0.
Qed.

(** ** Other events *)

Lemma each_in step cs c' :
  c' ∈ (each_consumer step cs).1 -> exists c, c ∈ cs /\ c' = (step c).1.
Proof.
  induction cs as [|c cs IH]; simpl; [by intros ?%not_elem_of_nil|].
  destruct (step c) as [c1 fx] eqn:Hs, (each_consumer step cs) as [cs1 fxs]. simpl in *.
  intros [->|Hc]%elem_of_cons; [exists c; rewrite Hs; split; [by left|done]|].
  destruct (IH Hc) as (c0 & H0 & ->). exists c0. split; [by right|done].
Qed.

Lemma each_spec step cs :
  (forall c, c_id (step c).1 = c_id c /\ existsb delivers (step c).2 = false) ->
  c_id <$> (each_consumer step cs).1 = c_id <$> cs /\ existsb delivers (each_consumer step cs).2 = false.
Proof.
  intros Hs. induction cs as [|c cs IH]; cbn [each_consumer]; [done|]. specialize (Hs c).
  destruct (step c) as [c1 fx], (each_consumer step cs) as [cs1 fxs]. cbn [fst snd] in *. csimpl.
  rewrite existsb_app. destruct Hs as [H1 ->], IH as [H2 ->]. split; [by rewrite H1, H2|done].
Qed.

Lemma lose_spec ow at_us revision c :
  let '(c', fx) := lose_consumer ow at_us revision c in
  c_id c' = c_id c /\ existsb delivers fx = false /\ (c_id c = me -> keeps ow -> c_active c' = false).
Proof.
  unfold lose_consumer. destruct (ow_alive (ow (c_id c))) eqn:Ha; simpl.
  2:{ split_and!; try done. intros Hid [Hk _]. congruence. }
  destruct (_ || _ || _); simpl; [done|]. destruct (ow_deltas (ow (c_id c))) eqn:Hd; simpl; [done|].
  split_and!; [done|by destruct (ow_state_delivery _)|]. intros Hid [_ Hk]. congruence.
Qed.

Lemma fail_spec ow reason terminated c :
  let '(c', fx) := fail_consumer ow reason terminated c in
  c_id c' = c_id c /\ existsb delivers fx = false /\ c_projection c' = c_projection c
  /\ (c_active c' = true -> c_active c = true).
Proof. unfold fail_consumer. by destruct (ow_alive (ow (c_id c))), (ow_stream_closed (ow (c_id c))). Qed.

Lemma reject_spec ow element detail scalar c :
  let '(c', fx) := reject_consumer ow element detail scalar c in
  c_id c' = c_id c /\ existsb delivers fx = false /\ c_projection c' = c_projection c
  /\ (c_active c' = true -> c_active c = true).
Proof.
  unfold reject_consumer. destruct (ow_alive (ow (c_id c))), (ow_stream_closed (ow (c_id c))); try done.
  simpl. by destruct (c_active c && _) eqn:Ha.
Qed.

(** A step of each consumer that keeps its projection. *)
Lemma each_quieter step cs :
  (forall c, let '(c', fx) := step c in
     c_id c' = c_id c /\ existsb delivers fx = false /\ c_projection c' = c_projection c
     /\ (c_active c' = true -> c_active c = true)) ->
  let '(cs', fx) := each_consumer step cs in
  c_id <$> cs' = c_id <$> cs /\ existsb delivers fx = false /\ quieter cs cs'.
Proof.
  intros Hs. destruct (each_spec step cs) as [H1 H2].
  { intros c. specialize (Hs c). destruct (step c). simpl. naive_solver. }
  pose proof (each_in step cs) as H3. destruct (each_consumer step cs) as [cs' fx]. split_and!; [done|done|].
  intros c' Hc Ha. destruct (H3 c' Hc) as (c & Hin & ->). exists c. specialize (Hs c).
  destruct (step c) as [c1 fx1]. simpl in *. destruct Hs as (H4 & _ & H6 & H7). by split_and!; auto.
Qed.

Lemma filter_sublist {A} (P : A -> bool) l : List.filter P l `sublist_of` l.
Proof. induction l as [|x l IH]; simpl; [done|]. by destruct (P x); constructor. Qed.

Lemma filter_quieter P cs :
  (c_id <$> List.filter P cs) `sublist_of` (c_id <$> cs) /\ quieter cs (List.filter P cs).
Proof.
  split; [apply fmap_sublist, filter_sublist|]. intros c Hc Ha. exists c. split_and!; try done.
  eapply elem_of_sublist; [done|apply filter_sublist].
Qed.

(** ** Runs *)

(** A run as seen by the consumer: the layouts of the updates grow, each consumer attaches
    once, its owner lives, and the process is not shutting down. *)
Fixpoint trace_ok (k : nat) (used : list (nat * nat)) (evs : list SysEvent) : Prop :=
  match evs with
  | [] => True
  | SysFeed (EvUpdate ow u) :: evs => keeps ow /\ update_ok u /\ k <= columns u /\ trace_ok (columns u) used evs
  | SysFeed (EvError ow _ _ _) :: evs => keeps ow /\ trace_ok k used evs
  | SysFeed (EvAttach addr _ o created _ id st fields _) :: evs =>
      addr = arc /\ (id ∉ used) /\ attach_ok k o created id st fields /\ trace_ok k (id :: used) evs
  | SysTask shutdown _ _ _ _ :: evs => shutdown = false /\ trace_ok k used evs
  | _ :: evs => trace_ok k used evs
  end.

Lemma viewed_wider k k' used fs view : viewed k used fs view -> k <= k' -> viewed k' used fs view.
Proof. intros [V1 V2 V3 V4 V5 V6] Hk. split; try done. by eapply known_same. Qed.

Lemma known_update k ow fs u :
  known k fs -> update_ok u -> k <= columns u -> ended (f_lifecycle fs) = false ->
  known (columns u) (on_update true ow fs u).1.
Proof.
  intros Hkn Hu Hk He. assert (f_fields (on_update true ow fs u).1 = f_fields fs
    /\ f_last_update (on_update true ow fs u).1
       = let '(_, _, frozen, _) := recovery_paint (f_recovery fs) (paints fs u) in
         if frozen then f_last_update fs else Some (su_timestamp u)) as [Hff Hlu].
  { unfold on_update, paints. rewrite He. fold (slots_now fs u). destruct (scan _ (su_values u)) as [subtype delayed].
    cbn [fst]. destruct (recovery_paint _ _) as [[[r recovered] frozen] restart].
    set (tk := mkTick _ _ _ _ _ _ _ _ _ _). destruct (tick_consumers ow tk _) as [[[cs fx] cl] no].
    by destruct frozen. }
  pose proof (on_update_spec true ow fs u He) as Hs. pose proof (recovery_paint_spec (f_recovery fs) (paints fs u)) as Hp.
  destruct (recovery_paint _ _) as [[[r recovered] frozen] restart]. destruct Hs as (_ & _ & Hi & Hl & _).
  destruct frozen; [destruct Hp as [Hp _]; destruct (Hp eq_refl) as (_ & _ & ->); by eapply known_same|].
  split; rewrite ?Hl, ?Hff, ?Hlu; [intros l [= <-]; apply Hu|apply Hkn|].
  intros i v Hv. assert (i < columns u) as Hlt.
  { unfold image_at in Hv. destruct (f_image (on_update true ow fs u).1 !! i) eqn:Hx; [|done].
    apply lookup_lt_Some in Hx. by rewrite Hi, length_apply_image in Hx. }
  split_and!; [done|done|]. destruct (lookup_lt_is_Some_2 _ _ Hlt) as [m Hm]. exists (su_layout u), m.
  split_and!; [done|done|]. by apply position_lookup, (column_name u).
Qed.

Lemma viewed_update k used ow fs u view :
  viewed k used fs view -> keeps ow -> update_ok u -> k <= columns u ->
  viewed (columns u) used (on_update true ow fs u).1 (see_all me view (on_update true ow fs u).2).
Proof.
  intros Hv Hk Hu Hc. destruct (ended (f_lifecycle fs)) eqn:He.
  { unfold on_update. rewrite He. by eapply viewed_wider. }
  destruct Hv as [[h V1] V2 V3 V4 V5 V6].
  destruct (slots_now_spec arc Harc fs h u V1 (lo_addr _ (uo_layout _ Hu))) as [Hsl _].
  pose proof (fresh_update arc Harc true ow fs h u V1 He (lo_addr _ (uo_layout _ Hu))) as Hfr.
  pose proof (known_update k ow fs u V2 Hu Hc He) as Hkn.
  pose proof (on_update_mine ow fs u view He Hk Hu V3 Hsl) as Hm.
  destruct (on_update true ow fs u) as [fs' fx]. simpl in *.
  destruct Hm as (Hids & Hout & Hmine).
  { intros i v Hi. destruct (kn_values _ _ V2 i v Hi). lia. }
  split; [by eauto|done|by rewrite Hids| | |].
  - intros c Hcin. assert (c_id c ∈ c_id <$> f_consumers fs') as Hin by (by apply list_elem_of_fmap_2).
    rewrite Hids in Hin. apply list_elem_of_fmap in Hin as (c0 & -> & Hc0). by apply V4.
  - intros Hn. rewrite Hout; [by apply V5|]. intros (c0 & -> & Hc0)%list_elem_of_fmap. by apply Hn, V4.
  - intros c _ Hcin Hme Ha. destruct (Hmine c Hcin Hme Ha) as (c0 & H1 & H2 & H3 & H4). by apply H4, V6.
Qed.

(** A loss ends the consumer. *)
Lemma viewed_loss k used ow at_us fs view :
  viewed k used fs view -> keeps ow -> ended (f_lifecycle fs) = false ->
  viewed k used (on_data_loss ow at_us fs).1 (see_all me view (on_data_loss ow at_us fs).2).
Proof.
  intros [[h V1] V2 V3 V4 V5 V6] Hk He. pose proof (fresh_loss arc ow at_us fs h V1 He) as Hfr.
  unfold on_data_loss in *. rewrite He in *. set (revision := u64_saturating_add _ 1) in *.
  destruct (each_spec (lose_consumer ow at_us revision) (f_consumers fs)) as [Hids Hq].
  { intros c. pose proof (lose_spec ow at_us revision c). destruct (lose_consumer _ _ _ c). naive_solver. }
  pose proof (each_in (lose_consumer ow at_us revision) (f_consumers fs)) as Hin.
  destruct (each_consumer _ _) as [cs fx]. cbn [fst snd] in *.
  assert (forall c, c ∈ cs -> c_id c = me -> c_active c = false) as Hlost.
  { intros c (c0 & _ & ->)%Hin Hme. pose proof (lose_spec ow at_us revision c0) as Hs.
    destruct (lose_consumer _ _ _ c0). simpl in *. destruct Hs as (Hid & _ & Hs). apply Hs; [congruence|done]. }
  assert (forall c, c ∈ cs -> c_id c ∈ used) as Hused.
  { intros c Hc. assert (c_id c ∈ c_id <$> cs) as Hi by (by apply list_elem_of_fmap_2).
    rewrite Hids in Hi. apply list_elem_of_fmap in Hi as (c0 & -> & Hc0). by apply V4. }
  destruct (existsb _ _); cbn [fst snd] in *.
  - rewrite see_all_none by (rewrite !existsb_app, Hq; by destruct (_ && _)).
    split; simpl; [by eauto|by eapply known_same|by rewrite Hids|done|done|].
    intros c _ Hc Hme Ha. by rewrite (Hlost c Hc Hme) in Ha.
  - rewrite see_all_none by (by rewrite !existsb_app, Hq).
    split; simpl; [by eauto|by eapply known_same|by rewrite Hids|done|done|done].
Qed.

Lemma viewed_error k used ow at_us se e fs view :
  viewed k used fs view -> keeps ow \/ (forall t d, e <> SubscriptionDataLoss t d) ->
  viewed k used (on_error ow at_us se fs e).1 (see_all me view (on_error ow at_us se fs e).2).
Proof.
  intros Hv Hk. destruct (ended (f_lifecycle fs)) eqn:He.
  { unfold on_error, on_data_loss. rewrite He. by destruct e. }
  assert (forall reason terminated,
    let '(cs, fx) := each_consumer (fail_consumer ow reason terminated) (f_consumers fs) in
    viewed k used (with_lifecycle (with_consumers fs cs) FFailed) (see_all me view (fx ++ [EScheduleCleanup]))) as Hf.
  { intros reason terminated. pose proof (each_quieter _ (f_consumers fs) (fail_spec ow reason terminated)) as Hx.
    destruct (each_consumer _ _) as [cs fx]. destruct Hx as (Hids & Hq & Hqu).
    rewrite see_all_none by (by rewrite existsb_app, Hq). apply (viewed_quiet k used fs); try done.
    cbn [with_lifecycle with_consumers f_consumers]. by rewrite Hids. }
  unfold on_error. rewrite He.
  destruct e; try (destruct Hk as [Hk|Hk]; [by apply viewed_loss|by destruct (Hk topic detail)]); destruct se; simpl;
    match goal with |- context [fail_consumer _ ?r ?t] => specialize (Hf r t) end;
    by destruct (each_consumer _ _) as [cs fx].
Qed.

Lemma viewed_field_error k used ow e scalar fs view :
  viewed k used fs view ->
  viewed k used (on_field_error ow fs e scalar).1 (see_all me view (on_field_error ow fs e scalar).2).
Proof.
  intros Hv. unfold on_field_error. destruct e; try done.
  pose proof (each_quieter _ (f_consumers fs) (reject_spec ow element detail scalar)) as Hx.
  destruct (each_consumer _ _) as [cs fx]. destruct Hx as (Hids & Hq & Hqu). cbn [fst snd].
  rewrite see_all_none by done. apply (viewed_quiet k used fs); try done.
  cbn [with_consumers f_consumers]. by rewrite Hids.
Qed.

(** Steps that leave the consumers alone. *)
Lemma viewed_same k used fs fs' view :
  viewed k used fs view -> same_image fs fs' -> f_last_update fs' = f_last_update fs ->
  f_fields fs' = f_fields fs -> f_consumers fs' = f_consumers fs -> viewed k used fs' view.
Proof.
  intros Hv Hs Hl Hf Hc. apply (viewed_quiet k used fs); try done; rewrite Hc; [done|].
  intros c Hin Ha. by exists c.
Qed.

Lemma viewed_filter k used fs P view :
  viewed k used fs view -> viewed k used (with_consumers fs (List.filter P (f_consumers fs))) view.
Proof. intros Hv. destruct (filter_quieter P (f_consumers fs)). by apply (viewed_quiet k used fs). Qed.

Lemma on_status_rest fs started terminal av :
  f_last_update (on_status fs started terminal av) = f_last_update fs
  /\ f_fields (on_status fs started terminal av) = f_fields fs
  /\ f_consumers (on_status fs started terminal av) = f_consumers fs.
Proof. unfold on_status. by repeat case_match. Qed.

Lemma marks_quiet ow revision cs : existsb delivers (cs ≫= mark_consumer ow revision) = false.
Proof.
  induction cs as [|c cs IH]; csimpl; [done|]. rewrite existsb_app, IH. unfold mark_consumer. by destruct (_ && _).
Qed.

Lemma viewed_more k used id fs view : viewed k used fs view -> viewed k (id :: used) fs view.
Proof.
  intros [V1 V2 V3 V4 V5 V6]. split; try done.
  - intros c Hc. right. by apply V4.
  - intros [_ Hn]%not_elem_of_cons. by apply V5.
Qed.

Lemma viewed_event k used fs ev evs view :
  viewed k used fs view -> trace_ok k used (SysFeed ev :: evs) ->
  exists k' used', viewed k' used' (feed_event true fs ev).1 (see_all me view (feed_event true fs ev).2)
    /\ trace_ok k' used' evs.
Proof.
  intros Hv Ht. destruct ev; simpl in Ht |- *.
  - destruct Ht as (Hk & Hu & Hc & Ht). exists (columns u), used. split; [by eapply viewed_update|done].
  - destruct Ht as [Hk Ht]. exists k, used. split; [by apply viewed_error; [|left]|done].
  - exists k, used. split; [by apply viewed_field_error|done].
  - exists k, used. split; [|done]. unfold on_stream_availability. destruct (_ || _); [done|]. cbn [fst snd].
    rewrite see_all_none by apply marks_quiet. by apply (viewed_same k used fs).
  - exists k, used. split; [|done]. pose proof (on_status_rest fs started terminal availability) as (H1 & H2 & H3).
    apply (viewed_same k used fs); try done. apply on_status_image.
  - destruct Ht as (-> & Hid & Ha & Ht). destruct (attach _ _ _ _ _ _ _ _ _ _) as [[[fs' fx] g]|] eqn:Hat.
    + exists k, (id :: used). split; [by eapply attach_viewed|done].
    + exists k, (id :: used). split; [by apply viewed_more|done].
  - exists k, used. split; [|done]. by apply (viewed_same k used fs).
  - exists k, used. split; [|done]. by apply viewed_filter.
  - exists k, used. split; [|done]. by apply viewed_filter.
Qed.

(** A step of the recovery task. *)
Lemma viewed_recovery k used fs r task view :
  viewed k used fs view -> ended (f_lifecycle fs) = true \/ (r = None <-> f_recovery fs = None) ->
  viewed k used (with_recovery fs r task) view.
Proof.
  intros Hv [He|Hr]; [|by apply (viewed_same k used fs)]. destruct Hv as [[h [F1 F2 F3]] V2 V3 V4 V5 V6].
  split; simpl; try done; [|by eapply known_same|congruence]. exists h. split; try done. simpl. congruence.
Qed.

Lemma viewed_task k used ok ow at_us detail s view :
  viewed k used (sys_feed s) view -> (TFailed ∈ sys_tasks s -> ended (f_lifecycle (sys_feed s)) = true) ->
  let '(s', fx) := task_step true false ok ow at_us detail s in
  viewed k used (sys_feed s') (see_all me view fx).
Proof.
  destruct s as [fs reg tasks]. cbn [sys_feed sys_tasks]. intros Hv Hx.
  destruct tasks as [|[] ts]; cbn [task_step sys_feed]; try done.
  - unfold recovery_decide. simpl. destruct (ended (f_lifecycle fs)) eqn:He; [by apply viewed_recovery; [|left]|].
    destruct (f_recovery fs) as [[[] q]|] eqn:Hr; simpl; apply viewed_recovery; try done; right; by rewrite Hr.
  - by apply (viewed_same k used fs).
  - destruct ok; [done|].
    pose proof (viewed_error k used ow at_us None (Internal detail) fs view Hv ltac:(by right)) as Hf.
    by destruct (on_error ow at_us None fs (Internal detail)).
  - apply viewed_recovery; [done|]. left. apply Hx. by left.
Qed.

Lemma trace_event_ok k used ev evs : trace_ok k used (ev :: evs) -> event_ok arc ev.
Proof.
  destruct ev as [[]| | |]; simpl; try done; [|by intros [-> _]]. intros (_ & Hu & _). split; [apply Hu|done].
Qed.

Lemma viewed_step k used s h ev evs view :
  fresh arc s h -> viewed k used (sys_feed s) view -> trace_ok k used (ev :: evs) ->
  exists k' used', trace_ok k' used' evs
    /\ viewed k' used' (sys_feed (sys_step true s ev).1) (see_all me view (sys_step true s ev).2).
Proof.
  intros Hf Hv Ht. destruct ev as [ev|shutdown ok ow at_us detail| |]; simpl.
  - destruct (viewed_event k used (sys_feed s) ev evs view Hv Ht) as (k' & used' & Hv' & Ht').
    exists k', used'. split; [done|]. by destruct (feed_event true (sys_feed s) ev).
  - simpl in Ht. destruct Ht as [-> Ht]. exists k, used. split; [done|].
    pose proof (viewed_task k used ok ow at_us detail s view Hv (fs_failed _ _ _ Hf)) as Hx.
    by destruct (task_step _ _ _ _ _ _ _).
  - exists k, used. done.
  - exists k, used. split; [done|]. by apply (viewed_same k used (sys_feed s)).
Qed.

Lemma viewed_run evs k used s h view :
  fresh arc s h -> viewed k used (sys_feed s) view -> trace_ok k used evs ->
  let '(s', fx) := sys_run true s evs in
  exists k' used', viewed k' used' (sys_feed s') (see_all me view fx).
Proof.
  revert k used s h view. induction evs as [|ev evs IH]; intros k used s h view Hf Hv Ht; simpl; [eauto|].
  destruct (viewed_step k used s h ev evs view Hf Hv Ht) as (k' & used' & Ht' & Hv').
  pose proof (fresh_step arc Harc true s h ev (trace_event_ok _ _ _ _ Ht) Hf) as Hf'.
  destruct (sys_step true s ev) as [s1 fx1]. specialize (IH k' used' s1 _ _ Hf' Hv' Ht').
  destruct (sys_run true s1 evs) as [s2 fx2]. by rewrite see_all_app.
Qed.

Lemma viewed_new fields kinds :
  (forall name, name ∈ fields -> name ∈ names) ->
  fresh arc (feed_new arc fields kinds) [] /\ viewed 0 [] (sys_feed (feed_new arc fields kinds)) ∅.
Proof.
  intros Hf. assert (fresh_feed arc (empty_feed fields) []) as Hfr.
  { split; simpl; [done|done|]. intros _. exists [], []. split_and!; [done|done|by left]. }
  split; [split; [by apply fresh_seed|by intros ?%not_elem_of_nil]|].
  apply viewed_seed. split; simpl; try done; [by exists []|constructor|by intros c ?%not_elem_of_nil|by intros c _ ?%not_elem_of_nil].
Qed.
End Consumers.
End Views.

(** C7: A consumer of deltas misses nothing.  In every run of a market data feed, whatever
    the interleaving of updates, repaints after the fields grew, other consumers that come
    and go, losses and recoveries: for a consumer that is attached and active while the feed
    serves an image, putting together all the values delivered to it, starting with the image
    it was given when it attached, yields for each of its fields the value the image has under
    that name, and nothing for a field without one.  So the values a repaint suppresses as
    unchanged and the rows suppressed for having no requested data are never missing.  The
    layouts of the decoder grow, an address identifies a layout, the event metadata is left
    out, and values are compared as the feed does (zeros of either sign are equal). *)
Theorem consumer_view_is_image names arc me fields kinds evs :
  NoDup names -> (Z.of_nat (length names) <= 65536)%Z -> Inj (=) (=) arc ->
  (forall name, name ∈ EVENT_TYPE :: EVENT_SUBTYPE :: fields -> name ∈ names) ->
  trace_ok names arc me 0 [] evs ->
  let '(s, fx) := sys_run true (feed_new arc fields kinds) evs in
  let fs := sys_feed s in
  forall c j name,
    ended (f_lifecycle fs) = false -> f_recovery fs = None ->
    c ∈ f_consumers fs -> c_id c = me -> c_active c = true ->
    field_strings (table (c_projection c)) !! j = Some name -> ~ event_name name ->
    same_opt (see_all me ∅ fx !! j) (position_of names name ≫= image_at (f_image fs)).
Proof.
  intros Hd Hb Harc Hn Ht.
  assert (EVENT_TYPE ∈ names /\ EVENT_SUBTYPE ∈ names) as He by (split; apply Hn; [by left|right; by left]).
  destruct (viewed_new names arc Hb me He fields kinds) as [Hf Hv]; [intros name Hin; apply Hn; by do 2 right|].
  pose proof (viewed_run names arc Hd Hb Harc me He evs 0 [] _ [] ∅ Hf Hv Ht) as Hr.
  destruct (sys_run true (feed_new arc fields kinds) evs) as [s fx]. destruct Hr as (k' & used' & Hv').
  intros fs c j name Hen Hrec Hc Hme Ha Hj Hne. subst fs.
  destruct (vw_mine _ _ _ _ _ _ _ Hv' c Hen Hc Hme Ha) as [_ Hm]. rewrite Hrec in Hm. by apply Hm.
Qed.

(** A new subscription is a reader. *)
Lemma sub_new_reader arc topic fields :
  (Z.of_nat (length fields) + 3 <= 65536)%Z -> reader arc (sub_new topic fields false).
Proof.
  intros Hn. pose proof (sub_new_healthy (fun _ => "") topic fields false Hn) as [_ _ Ht He _].
  destruct (sub_new_modes topic fields false false) as [Hc Hp].
  split; [done|done|done|intros c; by rewrite Hp|intros l; by rewrite Hp].
Qed.

Definition view_names : list string := ["BID"; EVENT_TYPE; EVENT_SUBTYPE; "ASK"].

Definition view_layout (arc : FieldLayout -> nat) (n : nat) : SharedLayout :=
  let l := mkLayout (Z.of_nat n) (imap (fun i name => mkMeta name i KI32 false) (take n view_names)) in
  mkShared (arc l) l.

Definition view_owner : Owner := mkOwner true false false true true false DpWarn false 0 None.

(** A paint, a second consumer with a new field, the repaint and a last update. *)
Definition sample_views (arc : FieldLayout -> nat) : list SysEvent :=
  let attach created id fields := SysFeed (EvAttach arc 0 view_owner created true id
    (sub_new "IBM US Equity" fields false) fields ∅) in
  let update n values := SysFeed (EvUpdate (fun _ => view_owner) (mkSharedUpdate (view_layout arc n) values 3)) in
  let paint := mkField 2 (VStr "INITPAINT") in
  [attach true (0, 1) ["BID"]; update 3 [mkField 0 (VI32 1); paint]; attach false (0, 2) ["BID"; "ASK"];
   SysFeed EvGrowResubscribe; update 4 [mkField 0 (VI32 1); paint; mkField 3 (VI32 7)];
   update 4 [mkField 3 (VI32 8)]; update 4 [mkField 0 (VI32 2)]].

Lemma view_layout_ok arc n : n = 3 \/ n = 4 -> layout_ok view_names arc (view_layout arc n).
Proof.
  intros Hn. split; [done|]. split.
  - intros i m. unfold view_layout. simpl. rewrite list_lookup_imap. by intros (name & _ & ->)%fmap_Some.
  - by destruct Hn as [-> | ->]; apply (bool_decide_unpack _); vm_compute.
  - intros m (i & Hi)%list_elem_of_lookup. unfold view_layout in Hi. simpl in Hi. rewrite list_lookup_imap in Hi.
    apply fmap_Some in Hi as (name & Hi & ->). simpl. apply list_elem_of_lookup_2 in Hi. by eapply subseteq_take.
Qed.

Lemma view_update_ok arc n values :
  n = 3 \/ n = 4 -> NoDup (field_index <$> values) -> Forall (fun f => field_index f < n) values ->
  update_ok view_names arc (mkSharedUpdate (view_layout arc n) values 3).
Proof.
  intros Hn Hd Hf. split; [by apply view_layout_ok| |done|].
  - destruct Hn as [-> | ->]; [by exists ["ASK"]|by exists []].
  - rewrite Forall_forall in Hf. intros f Hin%Hf. unfold columns. simpl. rewrite length_imap, length_take. simpl. lia.
Qed.

Lemma view_attach_ok arc k created id fields :
  (forall name, name ∈ fields -> name ∈ view_names) -> length fields <= 2 -> (created = true -> k = 0) ->
  attach_ok view_names arc (0, 1) k view_owner created id (sub_new "IBM US Equity" fields false) fields.
Proof. intros Hf Hl Hk. split; [done|done|]. intros _. split; [apply sub_new_reader; lia|done]. Qed.

Lemma sample_views_ok arc : trace_ok view_names arc (0, 1) 0 [] (sample_views arc).
Proof.
  assert (forall l : list UpdateField, bool_decide (NoDup (field_index <$> l)) = true -> NoDup (field_index <$> l)) as Hd
    by (intros l; by rewrite bool_decide_eq_true).
  assert (forall l : list string, bool_decide (Forall (fun name => name ∈ view_names) l) = true ->
    forall name, name ∈ l -> name ∈ view_names) as Hin
    by (intros l; by rewrite bool_decide_eq_true, Forall_forall).
  unfold sample_views. cbn [trace_ok]. split_and!; try done.
  all: first [apply view_update_ok; [by auto|by apply Hd; vm_compute|by repeat constructor; simpl; lia]
    |apply view_attach_ok; [by apply Hin; vm_compute|simpl; lia|done]|idtac].
  all: try (unfold columns; simpl; lia).
  all: apply (bool_decide_unpack _); by vm_compute.
Qed.

Lemma consumer_view_is_image_witness :
  let arc := fun l => Pos.to_nat (encode l) in
  let '(s, fx) := sys_run true (feed_new arc ["BID"] ∅) (sample_views arc) in
  forall c, ended (f_lifecycle (sys_feed s)) = false -> f_recovery (sys_feed s) = None ->
    c ∈ f_consumers (sys_feed s) -> c_id c = (0, 1) -> c_active c = true ->
    field_strings (table (c_projection c)) !! 0 = Some "BID" ->
    same_opt (see_all (0, 1) ∅ fx !! 0) (position_of view_names "BID" ≫= image_at (f_image (sys_feed s))).
Proof.
  intros arc. pose proof (consumer_view_is_image view_names arc (0, 1) ["BID"] ∅ (sample_views arc)) as H.
  destruct (sys_run true (feed_new arc ["BID"] ∅) (sample_views arc)) as [s fx].
  intros c H1 H2 H3 H4 H5 H6. apply H with (c := c); try done; [|intros x y Hxy|intros name Hin| |by intros []].
  - apply (bool_decide_unpack _). vm_compute. exact I.
  - by apply (inj encode), Pos2Nat.inj.
  - apply list_elem_of_In in Hin. apply list_elem_of_In. simpl in *. tauto.
  - apply sample_views_ok.
Defined.

Example sample_views_deliver :
  let arc l := Z.to_nat (Update.layout_version l) in
  let '(s, fx) := sys_run true (feed_new arc ["BID"] ∅) (sample_views arc) in
  map c_active (f_consumers (sys_feed s)) = [true; true]
  /\ see_all (0, 1) ∅ fx !! 0 = Some (VI32 2) /\ see_all (0, 2) ∅ fx !! 1 = Some (VI32 8)
  /\ length (List.filter delivers fx) = 6.
Proof. vm_compute. auto. Qed.
