(* ===== verification/Consumer.v ===== *)
(** * The consumer side of a subscription

    Models [crates/xbbg-async/src/subscription_consumer.rs] for subscriptions that
    deliver deltas: the queue of unread items, plain reads, marked reads whose leases
    and acknowledgements commit or roll back, and the closing of a consumer with its
    transactional drain.

    The async mutexes of a consumer (reader, receiver, operations) make each operation
    below one step, and what is out with the host between two steps (a plain batch, a
    lease, an acknowledgement, a drain) is part of the state.  The receiver is the list
    of events it would hand over now; its queue is [Channel.v].  Items that arrive while
    an operation waits for the forwarder are items that arrived before it.  Receipts of
    state delivery are [StateDelivery.v]. *)

From Stdlib Require Import ZArith Lia SpecFloat String.
From S2P Require Import Prelude Errors Update Arrow Channel.

(** ** Unread items *)

Local Abbreviation U := SubscriptionUpdate.
Local Abbreviation Ev := SubscriptionEvent.
Local Abbreviation Item := (result SubscriptionUpdate BlpError).

Definition plain_delivery_error : BlpError :=
  Validation "state and drop_oldest subscriptions require .deliveries(); use .deliveries().unsubscribe(drain=true) to drain without losing delivery metadata"%string [].

Definition into_legacy (ev : Ev) : Item :=
  match ev with EvUpdate u _ => Ok u | EvError e => Err e end.

Definition event_from (item : Item) : Ev :=
  match item with Ok u => EvUpdate u None | Err e => EvError e end.

Definition has_gap (ev : Ev) : bool := match ev with EvUpdate _ (Some _) => true | _ => false end.

(** An update after a gap is not consumed by a plain read. *)
Definition pop_front (pending : list Ev) : option Item * list Ev :=
  match pending with
  | [] => (None, [])
  | ev :: rest => if has_gap ev then (Some (Err plain_delivery_error), pending)
                  else (Some (into_legacy ev), rest)
  end.

Definition restore_events (events pending : list Ev) : list Ev := events ++ pending.

(** [restore] *)
Definition restore_updates (updates : list U) (pending : list Ev) : list Ev :=
  restore_events ((fun u => event_from (Ok u)) <$> updates) pending.

Definition append_to_batch (pending : list Ev) (updates : list U) (item : Item)
  : result bool BlpError * list U * list Ev :=
  let deferred := (Ok false, updates, event_from item :: pending) in
  match item, updates with
  | Ok u, [] => (Ok true, [u], pending)
  | Ok u, first :: _ =>
      if same_layout (update_layout first) (update_layout u) then (Ok true, updates ++ [u], pending)
      else deferred
  | Err e, [] => (Err e, [], pending)
  | Err e, _ => deferred
  end.

(** ** The receiver *)

(** What a receiver would hand over now, whether it is the overwriting one, and whether
    nothing more will come. *)
Record Receiver : Type := mkReceiver { rx_lossy : bool; rx_ready : list Ev; rx_over : bool }.

Definition try_recv_event (rx : Receiver) : option Ev * Receiver :=
  match rx_ready rx with
  | [] => (None, rx)
  | ev :: ready => (Some ev, mkReceiver (rx_lossy rx) ready (rx_over rx))
  end.

Definition try_recv (rx : Receiver) : option Item * Receiver :=
  if rx_lossy rx then (Some (Err plain_delivery_error), rx)
  else let '(ev, rx) := try_recv_event rx in (into_legacy <$> ev, rx).

(** ** Plain reads *)

Inductive SubscriptionRead : Type :=
| ReadUpdates (updates : list U)
| ReadError (error : BlpError)
| ReadEnded
| ReadClosed.

(** The loop of [receive_subscription_updates]; [n] more updates fit. *)
Fixpoint read_more (n : nat) (updates : list U) (rx : Receiver) (pending : list Ev)
  : SubscriptionRead * Receiver * list Ev :=
  match n with
  | 0 => (ReadUpdates updates, rx, pending)
  | S n =>
      let '(item, pending) := pop_front pending in
      let '(item, rx) := match item with Some item => (Some item, rx) | None => try_recv rx end in
      match item with
      | None => (ReadUpdates updates, rx, pending)
      | Some item =>
          match append_to_batch pending updates item with
          | (Ok true, updates, pending) => read_more n updates rx pending
          | (Ok false, updates, pending) => (ReadUpdates updates, rx, pending)
          | (Err e, _, pending) => (ReadError e, rx, pending)
          end
      end
  end.

(** [None] while it waits for an item. *)
Definition receive_subscription_updates (closed : bool) (limit : nat) (rx : Receiver) (pending : list Ev)
  : option (SubscriptionRead * Receiver * list Ev) :=
  if rx_lossy rx then Some (ReadError plain_delivery_error, rx, pending)
  else if closed then Some (ReadClosed, rx, pending)
  else
    let '(first, pending) := pop_front pending in
    let '(first, rx) := match first with Some item => (Some item, rx) | None => try_recv rx end in
    match first with
    | None => if rx_over rx then Some (ReadEnded, rx, pending) else None
    | Some (Err e) => Some (ReadError e, rx, pending)
    | Some (Ok u) => Some (read_more (limit - 1) [u] rx pending)
    end.

(** ** Deliveries and their receipts *)

Record SubscriptionDelivery : Type := mkDelivery {
  sd_data : RecordBatch;
  sd_gap_before : option SubscriptionGap
}.

Record RawDeliveryReceipt : Type := mkReceipt {
  rc_value : option (result SubscriptionDelivery BlpError);
  rc_events : list Ev
}.

Definition take_success (r : RawDeliveryReceipt) : option SubscriptionDelivery * RawDeliveryReceipt :=
  match rc_value r with
  | Some (Ok d) => (Some d, mkReceipt None (rc_events r))
  | _ => (None, r)
  end.

Definition take_error (r : RawDeliveryReceipt) : option BlpError * RawDeliveryReceipt :=
  match rc_value r with
  | Some (Err e) => (Some e, mkReceipt None (rc_events r))
  | _ => (None, r)
  end.

Definition restore_error (r : RawDeliveryReceipt) (e : BlpError) : RawDeliveryReceipt :=
  mkReceipt (Some (Err e)) (rc_events r).

(** [Drop] of a receipt: the error, if it still has it, then its events, to the front. *)
Definition drop_receipt (r : RawDeliveryReceipt) (pending : list Ev) : list Ev :=
  let pending := match rc_value r with Some (Err e) => EvError e :: pending | _ => pending end in
  restore_events (rc_events r) pending.

(** Can an event follow in a delivery that started with [first]? *)
Definition same_epoch_and_layout (first item : Ev) : bool :=
  match first, item with
  | EvUpdate u _, EvUpdate v None => same_layout (update_layout u) (update_layout v)
  | _, _ => false
  end.

(** The next unread event, from the pending ones or the receiver. *)
Definition next_event (rx : option Receiver) (pending : list Ev) : option Ev * option Receiver * list Ev :=
  match pending with
  | ev :: pending => (Some ev, rx, pending)
  | [] =>
      match rx with
      | Some rx => let '(ev, rx) := try_recv_event rx in (ev, Some rx, [])
      | None => (None, None, [])
      end
  end.

(** The loop of [read_ready_delivery]; [n] more events fit. *)
Fixpoint gather (n : nat) (first : Ev) (events : list Ev) (rx : option Receiver) (pending : list Ev)
  : list Ev * option Receiver * list Ev :=
  match n with
  | 0 => (events, rx, pending)
  | S n =>
      match next_event rx pending with
      | (None, rx, pending) => (events, rx, pending)
      | (Some item, rx, pending) =>
          if same_epoch_and_layout first item
          then gather n first (events ++ [item]) rx pending
          else (events, rx, item :: pending)
      end
  end.

Section Consumer.
Variable ryu_format_finite : spec_float -> string.
Variable f64_display : spec_float -> string.

(** Append the updates of the events; a boundary fails the [debug_assert!]. *)
Fixpoint append_events (b : Batcher) (events : list Ev) : option Batcher :=
  match events with
  | [] => Some b
  | EvError _ :: events => append_events b events
  | EvUpdate u _ :: events =>
      match append ryu_format_finite f64_display b u with
      | Some (None, b) => append_events b events
      | _ => None
      end
  end.

(** [None] is a panic. *)
Definition read_ready_delivery (limit : nat) (first : Ev) (rx : option Receiver) (pending : list Ev)
  (b : Batcher) : option (RawDeliveryReceipt * option Receiver * list Ev * Batcher) :=
  match first with
  | EvError e => Some (mkReceipt (Some (Err e)) [], rx, pending, b)
  | EvUpdate _ gap =>
      let '(events, rx, pending) := gather (Nat.max limit 1 - 1) first [first] rx pending in
      match append_events b events with
      | None => None
      | Some b =>
          match flush b with
          | Some (Some data, b) => Some (mkReceipt (Some (Ok (mkDelivery data gap))) events, rx, pending, b)
          | _ => None
          end
      end
  end.

(** ** Drains *)

(** The receiver of a closed consumer, and the first failure of the clean-up. *)
Record ClosedDeliverySource : Type := mkSource {
  src_receiver : option Receiver;
  src_cleanup_error : option BlpAsyncError
}.

Record DeliveryDrainRecovery : Type := mkRecovered {
  rec_source : option ClosedDeliverySource;
  rec_cleanup_error : option BlpAsyncError
}.

Definition no_recovery : DeliveryDrainRecovery := mkRecovered None None.

(** A failure with its origin: the receipt it came from, or the clean-up. *)
Inductive DrainFailure : Type :=
| FailStream (index : nat) (error : BlpError)
| FailCleanup (error : BlpAsyncError).

Definition failure_error (f : DrainFailure) : BlpAsyncError :=
  match f with FailStream _ e => AsyncBlp e | FailCleanup e => e end.

Record DeliveryDrainTransaction : Type := mkTransaction {
  tr_source : option ClosedDeliverySource;
  tr_receipts : list RawDeliveryReceipt;
  tr_deliveries : list SubscriptionDelivery;
  tr_failure : option DrainFailure
}.

Definition transaction_push (t : DeliveryDrainTransaction) (r : RawDeliveryReceipt)
  : DeliveryDrainTransaction :=
  match take_success r with
  | (Some d, r) =>
      mkTransaction (tr_source t) (tr_receipts t ++ [r]) (tr_deliveries t ++ [d]) (tr_failure t)
  | (None, r) =>
      match tr_failure t, take_error r with
      | None, (Some e, r) =>
          mkTransaction (tr_source t) (tr_receipts t ++ [r]) (tr_deliveries t)
            (Some (FailStream (length (tr_receipts t)) e))
      | failure, _ => mkTransaction (tr_source t) (tr_receipts t ++ [r]) (tr_deliveries t) failure
      end
  end.

(** [commit]; the receipts are acknowledged and the source dropped. *)
Definition transaction_commit (t : DeliveryDrainTransaction)
  : result (list SubscriptionDelivery) BlpAsyncError :=
  match tr_failure t with Some f => Err (failure_error f) | None => Ok (tr_deliveries t) end.

(** [Drop] of a transaction that still has its source: the failure goes back where it
    came from, the batches are unwound in reverse, and the source waits for a retry. *)
Definition transaction_drop (t : DeliveryDrainTransaction) (pending : list Ev)
  (recovery : DeliveryDrainRecovery) : list Ev * DeliveryDrainRecovery :=
  match tr_source t with
  | None => (pending, recovery)
  | Some source =>
      let '(receipts, source) :=
        match tr_failure t with
        | None => (tr_receipts t, source)
        | Some (FailStream index e) =>
            (alter (fun r => restore_error r e) index (tr_receipts t), source)
        | Some (FailCleanup e) => (tr_receipts t, mkSource (src_receiver source) (Some e))
        end in
      (foldr drop_receipt pending receipts, mkRecovered (Some source) (rec_cleanup_error recovery))
  end.

(** The events still unread, an upper bound on the rounds of a drain. *)
Definition unread (rx : option Receiver) (pending : list Ev) : nat :=
  length pending + match rx with Some rx => length (rx_ready rx) | None => 0 end.

(** The loop of [prepare_unsubscribe_deliveries], with fuel; it ends when nothing is left. *)
Fixpoint drain_loop (fuel limit : nat) (t : DeliveryDrainTransaction) (rx : option Receiver)
  (pending : list Ev) (b : Batcher)
  : option (DeliveryDrainTransaction * option Receiver * list Ev * Batcher) :=
  match next_event rx pending with
  | (None, rx, pending) => Some (t, rx, pending, b)
  | (Some first, rx, pending) =>
      match fuel with
      | 0 => None
      | S fuel =>
          match read_ready_delivery limit first rx pending b with
          | None => None
          | Some (r, rx, pending, b) => drain_loop fuel limit (transaction_push t r) rx pending b
          end
      end
  end.

(** [collect_unread] of a plain unsubscribe; it leaves nothing. *)
Fixpoint collect (events : list Ev) (updates : list U) (first_error : option BlpError) (advanced : bool)
  : list U * option BlpError * bool :=
  match events with
  | [] => (updates, first_error, advanced)
  | EvUpdate u None :: events => collect events (updates ++ [u]) first_error advanced
  | EvUpdate _ (Some _) :: events => collect events updates first_error true
  | EvError e :: events =>
      collect events updates (match first_error with None => Some e | some => some end) advanced
  end.

Definition collect_unread (rx : option Receiver) (pending : list Ev) (drain : bool)
  : result (list U) BlpError :=
  if negb drain then Ok []
  else
    let advanced := match rx with Some rx => rx_lossy rx | None => false end in
    let ready := match rx with Some rx => rx_ready rx | None => [] end in
    match collect (pending ++ ready) [] None advanced with
    | (_, Some e, _) => Err e
    | (_, None, true) => Err plain_delivery_error
    | (updates, None, false) => Ok updates
    end.

(** ** The consumer *)

(** What is out with the host. *)
Inductive Outstanding : Type :=
| OutNone
| OutPlain (updates : list U)
| OutLease (receipt : RawDeliveryReceipt)
| OutAck (delivery : SubscriptionDelivery) (receipt : RawDeliveryReceipt)
| OutDrain (transaction : DeliveryDrainTransaction)
| OutDrainAck (deliveries : list SubscriptionDelivery) (transaction : DeliveryDrainTransaction).

Record SubscriptionConsumer : Type := mkConsumer {
  cn_rx : option Receiver;
  cn_pending : list Ev;
  cn_closed : bool;
  cn_handle : bool;
  cn_requires_deliveries : bool;
  cn_batch_limit : nat;
  cn_batcher : Batcher;
  cn_recovery : DeliveryDrainRecovery;
  cn_out : Outstanding
}.

(** [SubscriptionConsumer::new] *)
Definition consumer_new (rx : Receiver) (delivery_batch_limit : nat) : SubscriptionConsumer :=
  mkConsumer (Some rx) [] false true (rx_lossy rx) delivery_batch_limit batcher_new no_recovery OutNone.

Definition with_line (c : SubscriptionConsumer) (rx : option Receiver) (pending : list Ev) (b : Batcher)
  (out : Outstanding) : SubscriptionConsumer :=
  mkConsumer rx pending (cn_closed c) (cn_handle c) (cn_requires_deliveries c) (cn_batch_limit c) b
    (cn_recovery c) out.

Definition with_out (c : SubscriptionConsumer) (pending : list Ev) (out : Outstanding) : SubscriptionConsumer :=
  with_line c (cn_rx c) pending (cn_batcher c) out.

Definition with_closed (c : SubscriptionConsumer) : SubscriptionConsumer :=
  mkConsumer (cn_rx c) (cn_pending c) true (cn_handle c) (cn_requires_deliveries c) (cn_batch_limit c)
    (cn_batcher c) (cn_recovery c) (cn_out c).

(** What closing meets: the outcome of the unsubscribe command and of the forwarder, and
    whether the engine shuts down when each is looked at. *)
Record CloseEnv : Type := mkCloseEnv {
  ce_unsubscribe : option BlpAsyncError;
  ce_down_after_unsubscribe : bool;
  ce_forwarder : option BlpAsyncError;
  ce_down_after_forwarder : bool
}.

(** [get_or_insert_with] on the error a recovery keeps. *)
Definition retain_cleanup (recovery : DeliveryDrainRecovery) (e : option BlpAsyncError)
  : DeliveryDrainRecovery :=
  match rec_cleanup_error recovery with
  | Some _ => recovery
  | None => mkRecovered (rec_source recovery) e
  end.

(** [close_receiver] with the locks it waits for: the receiver it took and the error it
    returns, which is [None] when the recovery retains it. *)
Definition close_receiver (drain : bool) (env : CloseEnv) (retains : bool) (c : SubscriptionConsumer)
  : SubscriptionConsumer * option Receiver * option BlpAsyncError :=
  let recovery := if drain then cn_recovery c else no_recovery in
  let unsubscribed := if cn_handle c && negb (ce_down_after_unsubscribe env) then ce_unsubscribe env else None in
  let '(recovery, cleanup_error) :=
    if retains then (retain_cleanup recovery unsubscribed, None) else (recovery, unsubscribed) in
  let '(rx, pending, recovery, cleanup_error) :=
    if drain && cn_handle c then
      let '(rx, pending) :=
        match cn_rx c with
        | Some rx => (Some (mkReceiver (rx_lossy rx) [] (rx_over rx)), cn_pending c ++ rx_ready rx)
        | None => (None, cn_pending c)
        end in
      let forwarded := if ce_down_after_forwarder env then None else ce_forwarder env in
      match cleanup_error with
      | Some e => (rx, pending, recovery, Some e)
      | None =>
          if retains then (rx, pending, retain_cleanup recovery forwarded, None)
          else (rx, pending, recovery, forwarded)
      end
    else (cn_rx c, cn_pending c, recovery, cleanup_error) in
  (mkConsumer None pending true false (cn_requires_deliveries c) (cn_batch_limit c) (cn_batcher c)
     recovery (cn_out c),
   rx, cleanup_error).

(** The source of a drain: that of a drain that was dropped, or the receiver just taken. *)
Definition found_source (recovered : DeliveryDrainRecovery) (rx : option Receiver)
  (cleanup_error : option BlpAsyncError) : ClosedDeliverySource :=
  let source := default (mkSource rx cleanup_error) (rec_source recovered) in
  match src_cleanup_error source with
  | Some _ => source
  | None => mkSource (src_receiver source) (rec_cleanup_error recovered)
  end.

(** [prepare_unsubscribe_deliveries]; [None] is a panic. *)
Definition prepare_unsubscribe_deliveries (drain : bool) (env : CloseEnv) (c : SubscriptionConsumer)
  : option (SubscriptionConsumer * DeliveryDrainTransaction) :=
  let '(c, rx, cleanup_error) := close_receiver drain env true c in
  let source := found_source (cn_recovery c) rx cleanup_error in
  let t := mkTransaction (Some source) [] [] None in
  let drained :=
    if drain
    then drain_loop (unread (src_receiver source) (cn_pending c)) (cn_batch_limit c) t
           (src_receiver source) (cn_pending c) (cn_batcher c)
    else Some (t, src_receiver source, [], cn_batcher c) in
  match drained with
  | None => None
  | Some (t, rx, pending, b) =>
      let '(failure, cleanup_error) :=
        match tr_failure t, src_cleanup_error source with
        | None, Some e => (Some (FailCleanup e), None)
        | failure, e => (failure, e)
        end in
      Some (mkConsumer (cn_rx c) pending (cn_closed c) (cn_handle c) (cn_requires_deliveries c)
              (cn_batch_limit c) b no_recovery (cn_out c),
            mkTransaction (Some (mkSource rx cleanup_error)) (tr_receipts t) (tr_deliveries t) failure)
  end.

(** [unsubscribe_deliveries]: prepare and commit. *)
Definition unsubscribe_deliveries (drain : bool) (env : CloseEnv) (c : SubscriptionConsumer)
  : option (SubscriptionConsumer * result (list SubscriptionDelivery) BlpAsyncError) :=
  match prepare_unsubscribe_deliveries drain env c with
  | Some (c, t) => Some (c, transaction_commit t)
  | None => None
  end.

Definition unsubscribe (drain : bool) (env : CloseEnv) (c : SubscriptionConsumer)
  : option (SubscriptionConsumer * result (list U) BlpAsyncError) :=
  if drain && cn_requires_deliveries c then
    match unsubscribe_deliveries true env c with
    | None => None
    | Some (c, Err e) => Some (c, Err e)
    | Some (c, Ok _) => Some (c, Err (AsyncBlp plain_delivery_error))
    end
  else
    let '(c, rx, cleanup_error) := close_receiver drain env false c in
    let remaining := collect_unread rx (cn_pending c) drain in
    let c := with_out c [] (cn_out c) in
    match remaining, cleanup_error with
    | Err e, _ => Some (c, Err (AsyncBlp e))
    | Ok _, Some e => Some (c, Err e)
    | Ok updates, None => Some (c, Ok updates)
    end.

(** The first event of [next_delivery]: [None] while it waits, [Some None] when there is nothing to come. *)
Definition next_first (rx : Receiver) (pending : list Ev) : option (option (Ev * Receiver * list Ev)) :=
  match pending with
  | ev :: pending => Some (Some (ev, rx, pending))
  | [] =>
      match try_recv_event rx with
      | (Some ev, rx) => Some (Some (ev, rx, []))
      | (None, rx) => if rx_over rx then Some None else None
      end
  end.

(** [None] while it waits, [Some None] when it returns nothing, then [None] on a panic. *)
Definition next_delivery (limit : nat) (c : SubscriptionConsumer)
  : option (option (option (RawDeliveryReceipt * option Receiver * list Ev * Batcher))) :=
  if cn_closed c then Some None
  else
    match cn_rx c with
    | None => Some None
    | Some rx =>
        match next_first rx (cn_pending c) with
        | None => None
        | Some None => Some None
        | Some (Some (first, rx, pending)) =>
            Some (Some (read_ready_delivery limit first (Some rx) pending (cn_batcher c)))
        end
    end.

(** [prepare_success] of a lease: the delivery moves out, an error stays. *)
Definition lease_prepare (r : RawDeliveryReceipt) : Outstanding :=
  match take_success r with (Some d, r) => OutAck d r | (None, r) => OutLease r end.

(** [prepare_success] of a drain. *)
Definition drain_prepare (t : DeliveryDrainTransaction) : Outstanding :=
  match tr_failure t with
  | Some _ => OutDrain t
  | None => OutDrainAck (tr_deliveries t) (mkTransaction (tr_source t) (tr_receipts t) [] None)
  end.

Inductive ConsumerOp : Type :=
| OpReady (ready : list Ev) (over : bool)
| OpSignalClose
| OpRead (limit : nat)
| OpReadDone
| OpReadRestore
| OpNext (limit : nat)
| OpCommit
| OpPrepareSuccess
| OpAckCommit
| OpDrop
| OpUnsubscribe (drain : bool) (env : CloseEnv)
| OpDrain (drain : bool) (env : CloseEnv)
| OpDrainCommit
| OpDrainPrepareSuccess
| OpDrainAckCommit.

(** What the host is given. *)
Inductive Output : Type :=
| GotNothing
| GotEnd
| GotUpdates (updates : list U)
| GotError (error : BlpError)
| GotDelivery (delivery : result SubscriptionDelivery BlpError)
| GotUnread (updates : result (list U) BlpAsyncError)
| GotDeliveries (deliveries : result (list SubscriptionDelivery) BlpAsyncError).

Inductive Stepped : Type := Waits | Panics | Steps (c : SubscriptionConsumer) (out : Output).

(** One step of a consumer.  The producer changes what the receiver has ready; a plain
    batch is published or restored by its adapter. *)
Definition step (c : SubscriptionConsumer) (op : ConsumerOp) : Stepped :=
  match op, cn_out c with
  | OpReady ready over, out =>
      match cn_rx c with
      | Some rx => Steps (with_line c (Some (mkReceiver (rx_lossy rx) ready (rx_over rx || over))) (cn_pending c)
                            (cn_batcher c) out) GotNothing
      | None => Waits
      end
  | OpSignalClose, _ => Steps (with_closed c) GotNothing
  | OpRead limit, OutNone =>
      match cn_rx c with
      | None => Steps c GotEnd
      | Some rx =>
          match receive_subscription_updates (cn_closed c) limit rx (cn_pending c) with
          | None => Waits
          | Some (ReadUpdates us, rx, pending) =>
              Steps (with_line c (Some rx) pending (cn_batcher c) (OutPlain us)) GotNothing
          | Some (ReadError e, rx, pending) =>
              Steps (with_line c (Some rx) pending (cn_batcher c) OutNone) (GotError e)
          | Some (_, rx, pending) =>
              Steps (with_line c (Some rx) pending (cn_batcher c) OutNone) GotEnd
          end
      end
  | OpReadDone, OutPlain us => Steps (with_out c (cn_pending c) OutNone) (GotUpdates us)
  | OpReadRestore, OutPlain us =>
      Steps (with_out c (restore_updates us (cn_pending c)) OutNone) GotNothing
  | OpNext limit, OutNone =>
      match next_delivery limit c with
      | None => Waits
      | Some None => Steps c GotEnd
      | Some (Some None) => Panics
      | Some (Some (Some (r, rx, pending, b))) => Steps (with_line c rx pending b (OutLease r)) GotNothing
      end
  | OpCommit, OutLease r =>
      match rc_value r with
      | Some v => Steps (with_out c (cn_pending c) OutNone) (GotDelivery v)
      | None => Panics
      end
  | OpPrepareSuccess, OutLease r => Steps (with_out c (cn_pending c) (lease_prepare r)) GotNothing
  | OpAckCommit, OutAck d _ => Steps (with_out c (cn_pending c) OutNone) (GotDelivery (Ok d))
  | OpDrop, OutLease r | OpDrop, OutAck _ r =>
      Steps (with_out c (drop_receipt r (cn_pending c)) OutNone) GotNothing
  | OpUnsubscribe drain env, OutNone =>
      match unsubscribe drain env c with
      | Some (c, r) => Steps c (GotUnread r)
      | None => Panics
      end
  | OpDrain drain env, OutNone =>
      match prepare_unsubscribe_deliveries drain env c with
      | Some (c, t) => Steps (with_out c (cn_pending c) (OutDrain t)) GotNothing
      | None => Panics
      end
  | OpDrainCommit, OutDrain t =>
      Steps (with_out c (cn_pending c) OutNone) (GotDeliveries (transaction_commit t))
  | OpDrainPrepareSuccess, OutDrain t => Steps (with_out c (cn_pending c) (drain_prepare t)) GotNothing
  | OpDrainAckCommit, OutDrainAck ds _ =>
      Steps (with_out c (cn_pending c) OutNone) (GotDeliveries (Ok ds))
  | OpDrop, OutDrain t | OpDrop, OutDrainAck _ t =>
      let '(pending, recovery) := transaction_drop t (cn_pending c) (cn_recovery c) in
      Steps (mkConsumer (cn_rx c) pending (cn_closed c) (cn_handle c) (cn_requires_deliveries c)
               (cn_batch_limit c) (cn_batcher c) recovery OutNone) GotNothing
  | _, _ => Waits
  end.

(** ** What is in flight *)

Definition receipt_events (r : RawDeliveryReceipt) : list Ev :=
  rc_events r ++ match rc_value r with Some (Err e) => [EvError e] | _ => [] end.

(** The receipts of a transaction, its failure back where it came from. *)
Definition transaction_events (t : DeliveryDrainTransaction) : list Ev :=
  concat (receipt_events <$>
    match tr_failure t with
    | Some (FailStream index e) => alter (fun r => restore_error r e) index (tr_receipts t)
    | _ => tr_receipts t
    end).

Definition in_flight (out : Outstanding) : list Ev :=
  match out with
  | OutNone => []
  | OutPlain us => (fun u => EvUpdate u None) <$> us
  | OutLease r | OutAck _ r => receipt_events r
  | OutDrain t | OutDrainAck _ t => transaction_events t
  end.

Definition ready_of (rx : option Receiver) : list Ev :=
  match rx with Some rx => rx_ready rx | None => [] end.

(** What a closed source still has: that of the drain that is out, or of the one dropped. *)
Definition source_ready (source : option ClosedDeliverySource) : list Ev :=
  match source with Some s => ready_of (src_receiver s) | None => [] end.

Definition held_back (c : SubscriptionConsumer) : list Ev :=
  match cn_out c with
  | OutDrain t | OutDrainAck _ t => source_ready (tr_source t)
  | _ => source_ready (rec_source (cn_recovery c))
  end.

(** What the receiver has ready, before and after it was closed. *)
Definition ready (c : SubscriptionConsumer) : list Ev :=
  match cn_rx c with Some rx => rx_ready rx | None => held_back c end.

(** ** Layouts that match *)

(** What matching compares. *)
Definition strip (l : FieldLayout) : FieldLayout :=
  mkLayout (layout_version l)
    ((fun m => mkMeta (meta_name m) (meta_index m) (meta_kind m) false) <$> layout_fields l).

Lemma same_layout_strip a b : same_layout a b = true <-> strip a = strip b.
Proof.
  unfold same_layout, strip. rewrite !andb_true_iff, !bool_decide_eq_true. split.
  - intros [[-> Hl] Hf]. f_equal. revert Hl Hf. generalize (layout_fields a) (layout_fields b).
    induction l as [|x l IH]; intros [|y l'] Hl Hf; try done. cbn [combine forallb fst snd] in Hf.
    apply andb_true_iff in Hf as [Hx Hf]. unfold same_field in Hx.
    rewrite !andb_true_iff, !bool_decide_eq_true in Hx. destruct Hx as [[Hi Hk] Hn].
    csimpl. rewrite Hi, Hk, Hn. f_equal. apply IH; [by injection Hl|done].
  - intros [= Hv Hf]. split; [split; [done|]|].
    + apply (f_equal length) in Hf. by rewrite !length_fmap in Hf.
    + revert Hf. generalize (layout_fields a) (layout_fields b).
      induction l as [|x l IH]; intros [|y l'] Hf; try done. csimpl in Hf. injection Hf as Hn Hi Hk Hf.
      cbn [combine forallb fst snd]. rewrite IH by done. unfold same_field. rewrite !bool_decide_eq_true_2 by done. done.
Qed.

Lemma presence_from_map (g : FieldMeta -> FieldMeta) value position fields presence :
  (forall m, value (g m) = value m) ->
  presence_from position (g <$> fields) value presence = presence_from position fields value presence.
Proof.
  intros Hg. revert position presence. induction fields as [|m fields IH]; intros; csimpl; [done|].
  cbn [presence_from]. by rewrite Hg, IH.
Qed.

(** A batch is the same under a layout that matches. *)
Lemma batch_of_strip l us :
  batch_of ryu_format_finite f64_display (strip l, us) = batch_of ryu_format_finite f64_display (l, us).
Proof.
  unfold batch_of. f_equal.
  - unfold schema_of, strip. cbn [layout_fields]. by rewrite <-list_fmap_compose.
  - unfold strip. cbn [layout_fields]. rewrite <-list_fmap_compose. do 2 f_equal.
    + apply list_fmap_ext. intros ? m _. unfold field_column. cbn. apply list_fmap_ext.
      intros ? u _. unfold slot_value. cbn. by rewrite length_fmap.
    + f_equal. apply list_fmap_ext. intros ? u _. do 2 f_equal. unfold presence_of. cbn [layout_fields].
      rewrite length_fmap. by apply presence_from_map.
Qed.

Lemma batch_of_same a b us :
  same_layout a b = true ->
  batch_of ryu_format_finite f64_display (a, us) = batch_of ryu_format_finite f64_display (b, us).
Proof. intros H%same_layout_strip. by rewrite <-batch_of_strip, H, batch_of_strip. Qed.

(** ** A delivery *)

Local Abbreviation batch_ref := (batch_of ryu_format_finite f64_display).
Local Abbreviation clean b := (holds ryu_format_finite f64_display b []).

(** The events of a delivery: one layout, and a gap only in front. *)
Definition delivery_of (events : list Ev) (d : SubscriptionDelivery) : Prop :=
  exists u gap rest,
    events = EvUpdate u gap :: ((fun v => EvUpdate v None) <$> rest)
    /\ Forall (fun v => same_layout (update_layout u) (update_layout v) = true) rest
    /\ d = mkDelivery (batch_ref (update_layout u, u :: rest)) gap.

(** Appending updates that match what the batcher holds meets no boundary. *)
Lemma append_rest b l us rest :
  holds ryu_format_finite f64_display b us -> bt_layout b = Some l ->
  Forall (fun v => same_layout l (update_layout v) = true) rest ->
  exists b', append_events b ((fun v => EvUpdate v None) <$> rest) = Some b'
    /\ bt_layout b' = Some l /\ holds ryu_format_finite f64_display b' (us ++ rest).
Proof.
  revert b us. induction rest as [|v rest IH]; intros b us Hb Hl Hr; csimpl.
  { exists b. by rewrite app_nil_r. }
  apply Forall_cons in Hr as [Hv Hr]. cbn [append_events]. unfold append, matches_layout. rewrite Hl, Hv. simpl.
  destruct (append_current_holds _ _ b l us v Hb Hl Hv) as (b1 & -> & Hl1 & Hb1).
  destruct (IH b1 (us ++ [v]) Hb1 Hl1 Hr) as (b' & Ha & Hl' & Hb'). exists b'. by rewrite <-app_assoc in Hb'.
Qed.

(** The first update of a delivery closes no batch. *)
Lemma append_first b u :
  clean b ->
  exists b' l, append ryu_format_finite f64_display b u = Some (None, b')
    /\ bt_layout b' = Some l /\ same_layout l (update_layout u) = true
    /\ holds ryu_format_finite f64_display b' [u].
Proof.
  intros Hb. unfold append, matches_layout. destruct (bt_layout b) as [l|] eqn:Hl.
  1: destruct (same_layout l (update_layout u)) eqn:Hs.
  - simpl. destruct (append_current_holds _ _ b l [] u Hb Hl Hs) as (b' & -> & Hl' & Hb'). eauto 6.
  - simpl. assert (flush b = Some (None, b)) as -> by (unfold flush; by destruct Hb as [-> _]).
    destruct (append_current_holds ryu_format_finite f64_display (rebuild_for_layout b (update_layout u)) (update_layout u) [] u)
      as (b' & -> & Hl' & Hb'); [|done|apply same_layout_refl|eauto 6 using same_layout_refl].
    destruct Hb as [Hr _]. split; [done|]. simpl. split_and!; [done|by left|constructor].
  - simpl. assert (flush b = Some (None, b)) as -> by (unfold flush; by destruct Hb as [-> _]).
    destruct (append_current_holds ryu_format_finite f64_display (rebuild_for_layout b (update_layout u)) (update_layout u) [] u)
      as (b' & -> & Hl' & Hb'); [|done|apply same_layout_refl|eauto 6 using same_layout_refl].
    destruct Hb as [Hr _]. split; [done|]. simpl. split_and!; [done|by left|constructor].
Qed.

Lemma flush_clean b us l :
  holds ryu_format_finite f64_display b us -> bt_layout b = Some l -> us <> [] ->
  exists b', flush b = Some (Some (batch_ref (l, us)), b') /\ clean b'.
Proof.
  intros Hb Hl Hne. destruct (flush_holds _ _ b us Hb) as (b' & Hf & Hl' & Hr').
  rewrite Hl in Hf. destruct us as [|u us]; [done|]. exists b'. split; [done|].
  destruct Hb as [Hr Hb]. rewrite Hl in Hb. destruct Hb as (Hs & _ & _).
  unfold flush in Hf. rewrite Hr, Hs in Hf. simpl in Hf. injection Hf as _ <-.
  split; [done|]. simpl. rewrite Hl. split_and!; [done|by right|constructor].
Qed.

(** Events taken from the pending ones, then from the receiver. *)
Definition takes (rx : option Receiver) (pending taken : list Ev) (rx' : option Receiver) (pending' : list Ev) : Prop :=
  (exists pop, ready_of rx = pop ++ ready_of rx' /\ pending ++ pop = taken ++ pending')
  /\ (rx_lossy <$> rx') = (rx_lossy <$> rx).

Lemma takes_refl rx pending : takes rx pending [] rx pending.
Proof. split; [|done]. exists []. by rewrite app_nil_r. Qed.

Lemma takes_trans rx p t1 rx1 p1 t2 rx2 p2 :
  takes rx p t1 rx1 p1 -> takes rx1 p1 t2 rx2 p2 -> takes rx p (t1 ++ t2) rx2 p2.
Proof.
  intros [(q1 & H1 & H2) H3] [(q2 & H4 & H5) H6]. split; [|congruence]. exists (q1 ++ q2). split.
  - by rewrite H1, H4, app_assoc.
  - by rewrite app_assoc, H2, <-!app_assoc, H5.
Qed.

(** The next event is the front of the line. *)
Lemma next_event_spec rx pending :
  match next_event rx pending with
  | (Some ev, rx', pending') => takes rx pending [ev] rx' pending'
      /\ unread rx pending = S (unread rx' pending')
  | (None, rx', pending') => rx' = rx /\ pending' = [] /\ pending = [] /\ ready_of rx = []
  end.
Proof.
  destruct pending as [|ev pending]; simpl.
  - destruct rx as [[lossy [|ev r] over]|]; simpl; try done. split; [|unfold unread; simpl; lia].
    split; [|done]. by exists [ev].
  - split; [|done]. split; [|done]. exists []. by rewrite app_nil_r.
Qed.

Lemma gather_spec n first events rx pending :
  let '(events', rx', pending') := gather n first events rx pending in
  exists more, events' = events ++ more /\ takes rx pending more rx' pending'
    /\ Forall (fun ev => same_epoch_and_layout first ev = true) more /\ length more <= n
    /\ unread rx pending = length more + unread rx' pending'.
Proof.
  revert events rx pending. induction n as [|n IH]; intros events rx pending; cbn [gather].
  { exists []. rewrite app_nil_r. split_and!; [done|apply takes_refl|constructor|done|done]. }
  pose proof (next_event_spec rx pending) as Hn. destruct (next_event rx pending) as [[[ev|] rx1] p1].
  2:{ destruct Hn as (-> & -> & -> & Hr). exists []. rewrite app_nil_r.
      split_and!; [done|apply takes_refl|constructor|simpl; lia|done]. }
  destruct Hn as [Ht Hu]. destruct (same_epoch_and_layout first ev) eqn:Hs.
  - specialize (IH (events ++ [ev]) rx1 p1). destruct (gather n first _ rx1 p1) as [[ev' rx'] p'].
    destruct IH as (more & -> & Ht' & Hf & Hl & Hu'). exists (ev :: more).
    split_and!; [by rewrite <-app_assoc|by apply (takes_trans _ _ [ev] rx1 p1)|by constructor|simpl; lia|simpl; lia].
  - exists []. rewrite app_nil_r. split_and!; [done| |constructor|simpl; lia|].
    + destruct Ht as [(pop & H1 & H2) H3]. split; [|done]. by exists pop.
    + rewrite Hu. unfold unread. simpl. lia.
Qed.

(** A receipt not yet committed: a delivery of its events, or an error without events. *)
Definition receipt_ok (r : RawDeliveryReceipt) : Prop :=
  (exists d, rc_value r = Some (Ok d) /\ delivery_of (rc_events r) d)
  \/ (exists e, rc_value r = Some (Err e) /\ rc_events r = []).

Lemma same_epoch_updates u gap more :
  Forall (fun ev => same_epoch_and_layout (EvUpdate u gap) ev = true) more ->
  exists rest, more = ((fun v => EvUpdate v None) <$> rest)
    /\ Forall (fun v => same_layout (update_layout u) (update_layout v) = true) rest.
Proof.
  induction 1 as [|ev more Hev _ (rest & -> & Hr)]; [by exists []|].
  destruct ev as [v [g|]|e]; try done. exists (v :: rest). split; [done|]. by constructor.
Qed.

(** Reading a delivery never panics, takes the front of the line, and is within its limit. *)
Lemma read_ready_spec limit first rx pending b :
  clean b ->
  exists r rx' pending' b', read_ready_delivery limit first rx pending b = Some (r, rx', pending', b')
    /\ clean b' /\ receipt_ok r /\ takes rx (first :: pending) (receipt_events r) rx' pending'
    /\ length (rc_events r) <= Nat.max limit 1 /\ unread rx' pending' <= unread rx pending.
Proof.
  intros Hb. destruct first as [u gap|e]; cbn [read_ready_delivery].
  2:{ exists (mkReceipt (Some (Err e)) []), rx, pending, b. split_and!; try done; [right; eauto| |simpl; lia].
      split; [|done]. exists []. by rewrite app_nil_r. }
  pose proof (gather_spec (Nat.max limit 1 - 1) (EvUpdate u gap) [EvUpdate u gap] rx pending) as Hg.
  destruct (gather _ _ _ rx pending) as [[events rx'] pending'].
  destruct Hg as (more & -> & Ht & Hf & Hl & Hu). destruct (same_epoch_updates _ _ _ Hf) as (rest & -> & Hr).
  cbn [app append_events]. destruct (append_first b u Hb) as (b1 & l & -> & Hl1 & Hs & Hb1).
  destruct (append_rest b1 l [u] rest Hb1 Hl1) as (b2 & -> & Hl2 & Hb2).
  { apply Forall_forall. intros v Hv. rewrite Forall_forall in Hr. specialize (Hr v Hv).
    apply same_layout_strip in Hs, Hr. apply same_layout_strip. congruence. }
  destruct (flush_clean b2 _ l Hb2 Hl2) as (b3 & -> & Hb3); [done|].
  eexists _, rx', pending', b3. split_and!; [done|done| | | |lia].
  - left. eexists. split; [done|]. exists u, gap, rest. split_and!; [done|done|]. f_equal. by apply batch_of_same.
  - destruct Ht as [(pop & H1 & H2) H3]. split; [|done]. exists pop. split; [done|].
    unfold receipt_events. simpl. by rewrite app_nil_r, H2.
  - simpl. rewrite length_fmap in *. lia.
Qed.

(** ** Transactions *)

Definition first_error (events : list Ev) : option BlpError :=
  head (omap (fun ev => match ev with EvError e => Some e | _ => None end) events).

Record transaction_ok (t : DeliveryDrainTransaction) : Prop := mkTransactionOk {
  tk_index index e : tr_failure t = Some (FailStream index e) ->
    index < length (tr_receipts t) /\ first_error (transaction_events t) = Some e;
  tk_groups : (forall index e, tr_failure t <> Some (FailStream index e)) ->
    first_error (transaction_events t) = None
    /\ exists groups, transaction_events t = concat groups /\ Forall2 delivery_of groups (tr_deliveries t)
}.

Lemma delivery_no_error events d : delivery_of events d -> omap (fun ev => match ev with EvError e => Some e | _ => None end) events = [].
Proof. intros (u & gap & rest & -> & _ & _). csimpl. induction rest as [|v rest IH]; [done|]. csimpl. done. Qed.

Lemma first_error_app l k :
  first_error (l ++ k) = match first_error l with Some e => Some e | None => first_error k end.
Proof.
  unfold first_error. rewrite omap_app. by destruct (omap _ l).
Qed.

Lemma push_success t r d :
  rc_value r = Some (Ok d) ->
  transaction_push t r = mkTransaction (tr_source t) (tr_receipts t ++ [mkReceipt None (rc_events r)])
    (tr_deliveries t ++ [d]) (tr_failure t).
Proof. intros Hv. unfold transaction_push, take_success. by rewrite Hv. Qed.

Lemma push_error t r e :
  rc_value r = Some (Err e) ->
  transaction_push t r =
    match tr_failure t with
    | None => mkTransaction (tr_source t) (tr_receipts t ++ [mkReceipt None (rc_events r)]) (tr_deliveries t)
                (Some (FailStream (length (tr_receipts t)) e))
    | Some f => mkTransaction (tr_source t) (tr_receipts t ++ [r]) (tr_deliveries t) (Some f)
    end.
Proof. intros Hv. unfold transaction_push, take_success, take_error. rewrite Hv. cbn. by rewrite Hv. Qed.

(** The events of a receipt join those of the transaction. *)
Lemma push_events t r :
  (forall index e, tr_failure t = Some (FailStream index e) -> index < length (tr_receipts t)) ->
  (forall e, tr_failure t <> Some (FailCleanup e)) -> receipt_ok r ->
  transaction_events (transaction_push t r) = transaction_events t ++ receipt_events r
  /\ tr_source (transaction_push t r) = tr_source t.
Proof.
  intros Hi Hc Hr. assert (forall r', receipt_events r' = receipt_events r ->
    concat (receipt_events <$> match tr_failure t with
      | Some (FailStream index e) => alter (fun r => restore_error r e) index (tr_receipts t ++ [r'])
      | _ => tr_receipts t ++ [r'] end) = transaction_events t ++ receipt_events r) as Hsame.
  { intros r' Hr'. unfold transaction_events. destruct (tr_failure t) as [[index e|e]|] eqn:Hf;
      rewrite ?alter_app_l by (by apply (Hi index e)); rewrite fmap_app, concat_app; csimpl; by rewrite app_nil_r, Hr'. }
  destruct Hr as [(d & Hv & _)|(e & Hv & He)].
  - rewrite (push_success t r d Hv). split; [|done]. unfold transaction_events at 1. simpl. apply Hsame.
    unfold receipt_events. by rewrite Hv.
  - rewrite (push_error t r e Hv). destruct (tr_failure t) as [[index e'|e']|] eqn:Hf; [|by destruct (Hc e')|];
      (split; [|done]); unfold transaction_events at 1; simpl.
    + by apply Hsame.
    + rewrite alter_app_r_alt by lia. rewrite Nat.sub_diag. simpl. rewrite fmap_app, concat_app.
      assert (receipt_events r = [EvError e]) as -> by (unfold receipt_events; by rewrite Hv, He).
      unfold transaction_events. rewrite Hf. csimpl. rewrite He. done.
Qed.

Lemma push_ok t r :
  transaction_ok t -> (forall e, tr_failure t <> Some (FailCleanup e)) -> receipt_ok r ->
  transaction_ok (transaction_push t r) /\ (forall e, tr_failure (transaction_push t r) <> Some (FailCleanup e))
  /\ transaction_events (transaction_push t r) = transaction_events t ++ receipt_events r
  /\ tr_source (transaction_push t r) = tr_source t.
Proof.
  intros [H1 H2] Hc Hr. destruct (push_events t r) as [He Hs]; try done.
  { intros index e Hf. by apply (H1 index e). }
  assert (forall index e, tr_failure t = Some (FailStream index e) -> first_error (transaction_events t ++ receipt_events r) = Some e) as Hfe.
  { intros index e Hf. rewrite first_error_app. by destruct (H1 index e Hf) as [_ ->]. }
  split_and!; [|..|done|done].
  - destruct Hr as [(d & Hv & Hd)|(e & Hv & Hev)].
    + pose proof (push_success t r d Hv) as Hp.
      assert (receipt_events r = rc_events r) as Hre by (unfold receipt_events; by rewrite Hv, app_nil_r).
      split; rewrite He; rewrite Hp; simpl.
      * intros index e Hf. split; [|by eapply Hfe]. rewrite length_app. destruct (H1 index e Hf). simpl. lia.
      * intros Hn. destruct (H2 Hn) as [Hn1 (groups & Hg & Hf2)]. rewrite first_error_app, Hn1, Hre.
        split; [unfold first_error; by rewrite (delivery_no_error _ d Hd)|].
        exists (groups ++ [rc_events r]). rewrite concat_app, Hg. simpl. rewrite app_nil_r. split; [done|].
        apply Forall2_app; [done|]. by constructor.
    + assert (receipt_events r = [EvError e]) as Hre by (unfold receipt_events; by rewrite Hv, Hev).
      rewrite (push_error t r e Hv) in He |- *. destruct (tr_failure t) as [[index e'|e']|] eqn:Hf; [|by destruct (Hc e')|]; split; rewrite He; simpl.
      * intros ? ? [= <- <-]. split; [|by eapply Hfe]. rewrite length_app. destruct (H1 index e' eq_refl). simpl. lia.
      * intros Hn. by destruct (Hn index e').
      * intros ? ? [= <- <-]. rewrite length_app. split; [simpl; lia|].
        destruct (H2 ltac:(done)) as [Hn1 _]. by rewrite first_error_app, Hn1, Hre.
      * intros Hn. by destruct (Hn (length (tr_receipts t)) e).
  - destruct Hr as [(d & Hv & _)|(e & Hv & _)]; [by rewrite (push_success t r d Hv)|].
    rewrite (push_error t r e Hv). by destruct (tr_failure t) as [[]|].
Qed.

(** The loop of a drain ends, and takes the whole line. *)
Lemma drain_loop_spec fuel limit t rx pending b :
  clean b -> transaction_ok t -> (forall e, tr_failure t <> Some (FailCleanup e)) -> unread rx pending <= fuel ->
  exists t' rx' b', drain_loop fuel limit t rx pending b = Some (t', rx', [], b')
    /\ clean b' /\ transaction_ok t' /\ (forall e, tr_failure t' <> Some (FailCleanup e))
    /\ transaction_events t' = transaction_events t ++ pending ++ ready_of rx
    /\ ready_of rx' = [] /\ tr_source t' = tr_source t /\ (rx_lossy <$> rx') = (rx_lossy <$> rx).
Proof.
  revert t rx pending b. induction fuel as [|fuel IH]; intros t rx pending b Hb Ht Hc Hu; cbn [drain_loop];
    pose proof (next_event_spec rx pending) as Hn; destruct (next_event rx pending) as [[[ev|] rx1] p1].
  - destruct Hn. lia.
  - destruct Hn as (-> & -> & -> & Hr). exists t, rx, b. rewrite Hr, !app_nil_r. split_and!; done.
  - destruct Hn as [[(pop & H1 & H2) H3] Hun].
    destruct (read_ready_spec limit ev rx1 p1 b Hb) as (r & rx2 & p2 & b2 & -> & Hb2 & Hr & Htk & _ & Hu2).
    destruct Htk as [(pop' & H4 & H5) H6].
    destruct (push_ok t r Ht Hc Hr) as (Ht' & Hc' & He & Hs).
    destruct (IH (transaction_push t r) rx2 p2 b2 Hb2 Ht' Hc' ltac:(lia)) as (t' & rx' & b' & Hd & X1 & X2 & X3 & X4 & X5 & X6 & X7).
    exists t', rx', b'. split_and!; try done; [|congruence|congruence].
    assert (pending ++ ready_of rx = (receipt_events r ++ p2) ++ ready_of rx2) as ->.
    { rewrite H1, H4, !app_assoc, H2. rewrite <-H5. done. }
    by rewrite X4, He, <-!app_assoc.
  - destruct Hn as (-> & -> & -> & Hr). exists t, rx, b. rewrite Hr, !app_nil_r. split_and!; done.
Qed.

(** ** Plain reads *)

Definition gapless (events : list Ev) : Prop := Forall (fun ev => has_gap ev = false) events.

Definition plainly (updates : list U) : list Ev := (fun u => EvUpdate u None) <$> updates.

Lemma event_from_legacy ev : has_gap ev = false -> event_from (into_legacy ev) = ev.
Proof. by destruct ev as [u []|e]. Qed.

Lemma takes_gapless rx p taken rx' p' :
  takes rx p taken rx' p' -> gapless (p ++ ready_of rx) -> gapless taken /\ gapless (p' ++ ready_of rx').
Proof.
  intros [(pop & H1 & H2) _] Hg. rewrite H1, app_assoc, H2, <-app_assoc in Hg. by apply Forall_app in Hg.
Qed.

(** The next item of a plain read is the front of the line. *)
Lemma plain_item rx pending :
  rx_lossy rx = false -> gapless (pending ++ rx_ready rx) ->
  let '(item, p1) := pop_front pending in
  let '(item, rx1) := match item with Some item => (Some item, rx) | None => try_recv rx end in
  match item with
  | Some item => takes (Some rx) pending [event_from item] (Some rx1) p1
  | None => rx1 = rx /\ pending = [] /\ p1 = [] /\ rx_ready rx = []
  end.
Proof.
  intros Hl Hg. destruct pending as [|ev pending]; simpl.
  - unfold try_recv, try_recv_event. rewrite Hl. destruct (rx_ready rx) as [|ev r] eqn:Hr; simpl; [done|].
    apply Forall_cons in Hg as [Hev _]. rewrite event_from_legacy by done. split; [|by simpl; rewrite ?Hl].
    exists [ev]. simpl. by rewrite Hr.
  - apply Forall_cons in Hg as [Hev _]. rewrite Hev. rewrite event_from_legacy by done. split; [|done].
    exists []. by rewrite app_nil_r.
Qed.

Lemma read_more_spec n updates rx pending :
  rx_lossy rx = false -> gapless (pending ++ rx_ready rx) -> updates <> [] ->
  let '(r, rx', pending') := read_more n updates rx pending in
  exists more, r = ReadUpdates (updates ++ more) /\ takes (Some rx) pending (plainly more) (Some rx') pending'.
Proof.
  revert updates rx pending. induction n as [|n IH]; intros updates rx pending Hl Hg Hne; cbn [read_more].
  { exists []. rewrite app_nil_r. split; [done|apply takes_refl]. }
  pose proof (plain_item rx pending Hl Hg) as Hi. destruct (pop_front pending) as [item p1].
  destruct (match item with Some item => _ | None => _ end) as [[item1|] rx1].
  2:{ destruct Hi as (-> & -> & -> & _). exists []. rewrite app_nil_r. split; [done|apply takes_refl]. }
  assert (rx_lossy rx1 = false) as Hl1 by (destruct Hi as [_ [= ->]]; done).
  destruct (takes_gapless _ _ _ _ _ Hi Hg) as [_ Hg1]. simpl in Hg1.
  assert (takes (Some rx) pending [] (Some rx1) (event_from item1 :: p1)) as Hdefer.
  { destruct Hi as [(pop & H1 & H2) H3]. split; [|done]. by exists pop. }
  destruct updates as [|first updates]; [done|]. unfold append_to_batch.
  destruct item1 as [u|e]; [destruct (same_layout _ _)|]; try (exists []; rewrite app_nil_r; by split).
  specialize (IH ((first :: updates) ++ [u]) rx1 p1 Hl1 Hg1 ltac:(done)).
  destruct (read_more n _ rx1 p1) as [[r rx'] p']. destruct IH as (more & -> & Ht). exists (u :: more).
  split; [by rewrite <-app_assoc|]. by apply (takes_trans _ _ [_] (Some rx1) p1).
Qed.

(** A plain read takes the updates it returns, or the error, or nothing. *)
Lemma receive_spec closed limit rx pending :
  (rx_lossy rx = false -> gapless (pending ++ rx_ready rx)) ->
  match receive_subscription_updates closed limit rx pending with
  | None => True
  | Some (r, rx', pending') =>
      takes (Some rx) pending
        (match r with
         | ReadUpdates us => plainly us
         | ReadError e => if rx_lossy rx then [] else [EvError e]
         | _ => []
         end) (Some rx') pending'
      /\ (rx_lossy rx = true -> r = ReadError plain_delivery_error)
  end.
Proof.
  intros Hg. unfold receive_subscription_updates. destruct (rx_lossy rx) eqn:Hl.
  { split; [apply takes_refl|done]. }
  destruct closed; [split; [apply takes_refl|done]|]. specialize (Hg eq_refl).
  pose proof (plain_item rx pending Hl Hg) as Hi. destruct (pop_front pending) as [item p1].
  destruct (match item with Some item => _ | None => _ end) as [[[u|e]|] rx1]; [| |].
  - assert (rx_lossy rx1 = false) as Hl1 by (destruct Hi as [_ [= ->]]; done).
    destruct (takes_gapless _ _ _ _ _ Hi Hg) as [_ Hg1].
    pose proof (read_more_spec (limit - 1) [u] rx1 p1 Hl1 Hg1 ltac:(done)) as Hm.
    destruct (read_more _ _ rx1 p1) as [[r rx'] p']. destruct Hm as (more & -> & Ht). split; [|done].
    by apply (takes_trans _ _ [_] (Some rx1) p1).
  - by split.
  - destruct (rx_over rx1); [|done]. destruct Hi as (-> & -> & -> & _). split; [apply takes_refl|done].
Qed.

(** ** Closing *)

Lemma close_spec env retains c :
  let '(c', rx, e) := close_receiver true env retains c in
  cn_pending c' ++ ready_of rx = cn_pending c ++ ready_of (cn_rx c) /\ cn_rx c' = None
  /\ cn_batcher c' = cn_batcher c /\ cn_requires_deliveries c' = cn_requires_deliveries c
  /\ cn_out c' = cn_out c /\ rec_source (cn_recovery c') = rec_source (cn_recovery c)
  /\ (rx_lossy <$> rx) = (rx_lossy <$> cn_rx c) /\ (retains = true -> e = None).
Proof.
  unfold close_receiver, retain_cleanup.
  destruct (cn_handle c), (cn_rx c) as [rx|], retains; simpl; repeat case_match; simplify_eq/=;
    split_and!; rewrite ?app_nil_r; done.
Qed.

Lemma collect_spec events updates e advanced :
  gapless events ->
  exists us, collect events updates e advanced
    = (updates ++ us, match e with Some e => Some e | None => first_error events end, advanced)
    /\ (first_error events = None -> events = plainly us).
Proof.
  revert updates e. induction events as [|ev events IH]; intros updates e Hg; cbn [collect].
  { exists []. rewrite app_nil_r. by destruct e. }
  apply Forall_cons in Hg as [Hev Hg]. destruct ev as [u [g|]|err]; [done| |].
  - destruct (IH (updates ++ [u]) e Hg) as (us & -> & Hus). exists (u :: us). rewrite <-app_assoc.
    split; [done|]. intros Hf. unfold plainly. csimpl. f_equal. by apply Hus.
  - destruct (IH updates (match e with None => Some err | some => some end) Hg) as (us & -> & Hus).
    exists us. by destruct e.
Qed.

(** ** The invariant *)

(** While a drain is out the consumer is closed and the drain has its source. *)
Definition closed_ok (c : SubscriptionConsumer) (t : DeliveryDrainTransaction) : Prop :=
  cn_rx c = None /\ cn_pending c = [] /\ rec_source (cn_recovery c) = None /\ is_Some (tr_source t).

Definition out_ok (c : SubscriptionConsumer) : Prop :=
  match cn_out c with
  | OutNone | OutPlain _ => True
  | OutLease r => receipt_ok r
  | OutAck d r => rc_value r = None /\ delivery_of (rc_events r) d
  | OutDrain t => transaction_ok t /\ closed_ok c t
  | OutDrainAck ds t => tr_failure t = None /\ closed_ok c t
      /\ exists groups, transaction_events t = concat groups /\ Forall2 delivery_of groups ds
  end.

(** The unread line: what is in flight, what is pending, what the receiver has. *)
Definition line (c : SubscriptionConsumer) : list Ev := in_flight (cn_out c) ++ cn_pending c ++ ready c.

Record consumer_ok (c : SubscriptionConsumer) : Prop := mkConsumerOk {
  co_clean : clean (cn_batcher c);
  co_lossy rx : cn_rx c = Some rx -> rx_lossy rx = cn_requires_deliveries c;
  co_plain : cn_requires_deliveries c = false -> gapless (line c);
  co_out : out_ok c;
  co_recovery : is_Some (rec_source (cn_recovery c)) -> cn_rx c = None
}.

(** A failed clean-up changes neither the events nor the deliveries of a transaction. *)
Lemma cleanup_ok t s failure :
  transaction_ok t ->
  failure = tr_failure t \/ tr_failure t = None /\ (exists e, failure = Some (FailCleanup e)) ->
  let t' := mkTransaction s (tr_receipts t) (tr_deliveries t) failure in
  transaction_ok t' /\ transaction_events t' = transaction_events t.
Proof.
  intros [H1 H2] Hf t'. assert (transaction_events t' = transaction_events t) as He.
  { unfold transaction_events, t'. simpl. by destruct Hf as [->|[-> [e ->]]]. }
  split; [|done]. split; rewrite He; unfold t'; simpl.
  - intros index e ->. destruct Hf as [Hf|[_ [e' ?]]]; [|done]. by apply H1.
  - intros Hn. apply H2. destruct Hf as [<-|[-> _]]; done.
Qed.

(** The source a drain finds has the rest of the line. *)
Lemma found_line env c :
  consumer_ok c -> cn_out c = OutNone ->
  let '(c1, rx, e) := close_receiver true env true c in
  cn_pending c1 ++ ready_of (src_receiver (found_source (cn_recovery c1) rx e)) = cn_pending c ++ ready c.
Proof.
  intros Hc Ho. pose proof (close_spec env true c) as Hcl. destruct (close_receiver true env true c) as [[c1 rx] e].
  destruct Hcl as (Hline & _ & _ & _ & _ & Hrec & Hlossy & _). unfold found_source.
  assert (forall s, src_receiver (match src_cleanup_error s with Some _ => s
    | None => mkSource (src_receiver s) (rec_cleanup_error (cn_recovery c1)) end) = src_receiver s) as ->
    by (intros s; by destruct (src_cleanup_error s)).
  rewrite Hrec. unfold ready, held_back. rewrite Ho. pose proof (co_recovery _ Hc) as Hn.
  destruct (rec_source (cn_recovery c)) as [s|] eqn:Hsrc; simpl.
  - rewrite (Hn ltac:(done)) in Hline, Hlossy |- *. destruct rx; [done|]. simpl in Hline. rewrite !app_nil_r in Hline.
    by rewrite Hline.
  - rewrite Hline. by destruct (cn_rx c).
Qed.

(** A drain takes the whole line into its transaction. *)
Lemma prepare_spec env c :
  consumer_ok c -> cn_out c = OutNone ->
  exists c' t, prepare_unsubscribe_deliveries true env c = Some (c', t)
    /\ consumer_ok c' /\ cn_out c' = OutNone /\ cn_rx c' = None /\ cn_pending c' = []
    /\ cn_requires_deliveries c' = cn_requires_deliveries c
    /\ transaction_ok t /\ transaction_events t = cn_pending c ++ ready c
    /\ rec_source (cn_recovery c') = None /\ exists s, tr_source t = Some s /\ ready_of (src_receiver s) = [].
Proof.
  intros Hc Hout. unfold prepare_unsubscribe_deliveries.
  pose proof (close_spec env true c) as Hcl. pose proof (found_line env c Hc Hout) as Hs.
  destruct (close_receiver true env true c) as [[c1 rx] e].
  destruct Hcl as (_ & Hrx & Hb & Hreq & Hout1 & _). set (source := found_source _ _ _) in *.
  destruct (drain_loop_spec (unread (src_receiver source) (cn_pending c1)) (cn_batch_limit c1)
    (mkTransaction (Some source) [] [] None) (src_receiver source) (cn_pending c1) (cn_batcher c1))
    as (t & rx' & b' & -> & Hb' & Ht & _ & Hev & Hr & Hsrc & _); [rewrite Hb; apply Hc| |done|done|].
  { split; [done|]. intros _. split; [done|]. by exists []. }
  unfold transaction_events in Hev at 2. simpl in Hev. rewrite Hs in Hev.
  set (fc := match tr_failure t with Some _ => _ | None => _ end).
  destruct (cleanup_ok t (Some (mkSource rx' fc.2)) fc.1 Ht) as [Ht' Hev'].
  { unfold fc. destruct (tr_failure t); [by left|]. destruct (src_cleanup_error source); [right; eauto|by left]. }
  destruct fc as [failure ce]. simpl in Ht', Hev'. rewrite Hev in Hev'.
  eexists _, _. split; [done|]. split_and!; try done; [|by rewrite Hout1|by eexists].
  split; simpl; [done|by rewrite Hrx|intros _|by unfold out_ok; simpl; rewrite Hout1, Hout|by intros [? ?]].
  unfold line, ready, held_back. simpl. rewrite Hrx, Hout1, Hout. constructor.
Qed.

(** ** Steps *)

(** What an output accounts for. *)
Definition published (events : list Ev) (out : Output) : Prop :=
  match out with
  | GotNothing | GotEnd => events = []
  | GotUpdates us | GotUnread (Ok us) => events = plainly us
  | GotError e => events = [EvError e] \/ events = [] /\ e = plain_delivery_error
  | GotDelivery (Ok d) => delivery_of events d
  | GotDelivery (Err e) => events = [EvError e]
  | GotDeliveries (Ok ds) => exists groups, events = concat groups /\ Forall2 delivery_of groups ds
  | GotUnread (Err e) | GotDeliveries (Err e) => forall x, first_error events = Some x -> e = AsyncBlp x
  end.

(** The host asks for what is unread when it closes the consumer. *)
Definition keeps (op : ConsumerOp) : bool :=
  match op with OpUnsubscribe drain _ | OpDrain drain _ => drain | _ => true end.

(** What a step throws away: a close that does not drain, and the commit of its drain. *)
Definition discarded (c : SubscriptionConsumer) (op : ConsumerOp) : list Ev :=
  match op, cn_out c with
  | OpUnsubscribe false _, OutNone => cn_pending c ++ ready c
  | OpDrain false _, OutNone => cn_pending c ++ match cn_rx c with Some _ => [] | None => ready c end
  | OpDrainCommit, OutDrain _ | OpDrainAckCommit, OutDrainAck _ _ => ready c
  | _, _ => []
  end.

(** Events leave the receiver for the line, and the front of the line is accounted for. *)
Definition moves (c c' : SubscriptionConsumer) (chunk lost : list Ev) : Prop :=
  exists pop, ready c = pop ++ ready c'
    /\ in_flight (cn_out c) ++ cn_pending c ++ pop = (chunk ++ lost) ++ in_flight (cn_out c') ++ cn_pending c'.

(** Only a close that does not drain leaves events in the receiver it takes. *)
Definition good (c : SubscriptionConsumer) (op : ConsumerOp) (r : Stepped) : Prop :=
  match r with
  | Waits => True
  | Panics => False
  | Steps c' out => consumer_ok c' /\ cn_requires_deliveries c' = cn_requires_deliveries c
      /\ (keeps op = true -> cn_rx c' = None -> cn_rx c = None \/ ready c' = [])
      /\ exists chunk, moves c c' chunk (discarded c op) /\ published chunk out
  end.

Lemma moves_plain c c' chunk lost : moves c c' chunk lost -> gapless (line c) -> gapless (line c').
Proof.
  intros (pop & H1 & H2). unfold line. rewrite H1. rewrite !app_assoc. rewrite <-(app_assoc (in_flight _)), H2.
  rewrite <-!app_assoc. unfold gapless. rewrite !Forall_app. tauto.
Qed.

(** A step of what is out, the receiver left alone. *)
Lemma good_out c op pending out chunk o :
  consumer_ok c -> out_ok (with_out c pending out) -> discarded c op = [] ->
  held_back (with_out c pending out) = held_back c ->
  in_flight (cn_out c) ++ cn_pending c = chunk ++ in_flight out ++ pending -> published chunk o ->
  good c op (Steps (with_out c pending out) o).
Proof.
  intros [O1 O2 O3 O4 O5] Hok Hd Hh Heq Hp.
  assert (moves c (with_out c pending out) chunk (discarded c op)) as Hm.
  { exists []. rewrite Hd, !app_nil_r. split; [|done]. unfold ready. simpl. by rewrite Hh. }
  split_and!; [|done|by left|by exists chunk]. split; try done. intros Hl. eapply moves_plain; [done|]. by apply O3.
Qed.

(** A step that takes from the line. *)
Lemma good_takes c op rx rx' pending' b out taken chunk o :
  consumer_ok c -> cn_rx c = Some rx -> cn_out c = OutNone -> clean b -> discarded c op = [] ->
  takes (Some rx) (cn_pending c) taken rx' pending' ->
  out_ok (with_line c rx' pending' b out) -> taken = chunk ++ in_flight out -> published chunk o ->
  good c op (Steps (with_line c rx' pending' b out) o).
Proof.
  intros [O1 O2 O3 O4 O5] Hrx Ho Hb Hd [(pop & H1 & H2) H3] Hok -> Hp. destruct rx' as [rx'|]; [|done].
  assert (moves c (with_line c (Some rx') pending' b out) chunk (discarded c op)) as Hm.
  { exists pop. unfold ready. simpl. rewrite Hd, Hrx, Ho, app_nil_r. simpl. split; [done|]. by rewrite H2, <-app_assoc. }
  split_and!; [|done|done|by exists chunk]. split; try done.
  - simpl. intros rx1 [= <-]. simpl in H3. injection H3 as H3. rewrite H3. by apply O2.
  - intros Hl. eapply moves_plain; [done|]. by apply O3.
  - simpl. intros Hs. by rewrite (O5 Hs) in Hrx.
Qed.

Lemma good_same c op o : consumer_ok c -> discarded c op = [] -> published [] o -> good c op (Steps c o).
Proof.
  intros Hc Hd Hp. split_and!; [done|done|by left|]. exists []. split; [|done]. exists []. by rewrite Hd, app_nil_r.
Qed.

Lemma step_read c limit : consumer_ok c -> good c (OpRead limit) (step c (OpRead limit)).
Proof.
  intros Hc. cbn [step]. destruct (cn_out c) eqn:Ho; try done.
  destruct (cn_rx c) as [rx|] eqn:Hrx; [|by apply good_same].
  pose proof (receive_spec (cn_closed c) limit rx (cn_pending c)) as Hr.
  destruct (receive_subscription_updates _ _ _ _) as [[[r rx'] p']|]; [|done]. destruct Hr as [Ht Hl].
  { intros Hl. rewrite (co_lossy _ Hc rx Hrx) in Hl. pose proof (co_plain _ Hc Hl) as Hg.
    unfold line, ready in Hg. by rewrite Ho, Hrx in Hg. }
  assert (forall out taken chunk o, takes (Some rx) (cn_pending c) taken (Some rx') p' ->
    out_ok (with_line c (Some rx') p' (cn_batcher c) out) -> taken = chunk ++ in_flight out -> published chunk o ->
    good c (OpRead limit) (Steps (with_line c (Some rx') p' (cn_batcher c) out) o)) as Hg.
  { intros out taken chunk o H1 H2 H3 H4. apply (good_takes c _ rx (Some rx') p' (cn_batcher c) out taken chunk); try done.
    apply Hc. }
  destruct r as [us|e| |].
  - by apply (Hg (OutPlain us) (plainly us) []).
  - destruct (rx_lossy rx); [injection (Hl eq_refl) as ->; apply (Hg OutNone [] []); try done; by right|].
    apply (Hg OutNone [EvError e] [EvError e]); try done. by left.
  - by apply (Hg OutNone [] []).
  - by apply (Hg OutNone [] []).
Qed.

Lemma step_next c limit : consumer_ok c -> good c (OpNext limit) (step c (OpNext limit)).
Proof.
  intros Hc. cbn [step]. destruct (cn_out c) eqn:Ho; try done. unfold next_delivery. destruct (cn_closed c); [by apply good_same|].
  destruct (cn_rx c) as [rx|] eqn:Hrx; [|by apply good_same].
  assert (match next_first rx (cn_pending c) with
          | Some (Some (ev, rx1, p1)) => takes (Some rx) (cn_pending c) [ev] (Some rx1) p1
          | _ => True end) as Hf.
  { unfold next_first. destruct (cn_pending c) as [|ev p].
    - unfold try_recv_event. destruct (rx_ready rx) as [|ev r] eqn:Hr; [by destruct (rx_over rx)|].
      split; [|done]. exists [ev]. simpl. by rewrite Hr.
    - split; [|done]. exists []. by rewrite app_nil_r. }
  destruct (next_first rx (cn_pending c)) as [[[[ev rx1] p1]|]|]; [|by apply good_same|done].
  destruct (read_ready_spec limit ev (Some rx1) p1 (cn_batcher c) (co_clean _ Hc))
    as (r & rx2 & p2 & b & -> & Hb & Hr & Ht & _ & _).
  eapply (good_takes c _ rx rx2 p2 b (OutLease r) (receipt_events r) []); try done.
  destruct Hf as [(q1 & H1 & H2) H3], Ht as [(q2 & H4 & H5) H6]. split; [|congruence].
  exists (q1 ++ q2). rewrite H1, H4, !app_assoc, H2. split; [done|]. by rewrite <-H5.
Qed.

Lemma drop_receipt_events r pending : drop_receipt r pending = receipt_events r ++ pending.
Proof.
  unfold drop_receipt, restore_events, receipt_events. destruct (rc_value r) as [[d|e]|]; simpl;
    by rewrite <-app_assoc.
Qed.

Lemma drop_receipts_events rs pending : foldr drop_receipt pending rs = concat (receipt_events <$> rs) ++ pending.
Proof. induction rs as [|r rs IH]; csimpl; [done|]. cbn [foldr]. by rewrite drop_receipt_events, IH, app_assoc. Qed.

(** Dropping a drain puts its events back in front, and its receiver aside for a retry. *)
Lemma transaction_drop_spec t s pending recovery :
  tr_source t = Some s ->
  let '(pending', recovery') := transaction_drop t pending recovery in
  pending' = transaction_events t ++ pending
  /\ exists s', rec_source recovery' = Some s' /\ src_receiver s' = src_receiver s.
Proof.
  intros Hs. unfold transaction_drop, transaction_events. rewrite Hs.
  destruct (tr_failure t) as [[index e|e]|]; rewrite drop_receipts_events; (split; [done|]); simpl; eauto.
Qed.

Lemma step_drop c : consumer_ok c -> good c OpDrop (step c OpDrop).
Proof.
  intros Hc. assert (forall t, closed_ok c t -> in_flight (cn_out c) = transaction_events t ->
    held_back c = source_ready (tr_source t) ->
    good c OpDrop (let '(pending, recovery) := transaction_drop t (cn_pending c) (cn_recovery c) in
      Steps (mkConsumer (cn_rx c) pending (cn_closed c) (cn_handle c) (cn_requires_deliveries c)
               (cn_batch_limit c) (cn_batcher c) recovery OutNone) GotNothing)) as Hdrain.
  { intros t (Hrx & _ & _ & [s Hs]) Hfl Hh. pose proof (transaction_drop_spec t s (cn_pending c) (cn_recovery c) Hs) as Hd.
    destruct (transaction_drop _ _ _) as [p' rec']. destruct Hd as (-> & s' & Hs' & Hrv).
    set (c' := mkConsumer _ _ _ _ _ _ _ _ _).
    assert (moves c c' [] []) as Hm.
    { exists []. unfold ready, c', held_back at 2. simpl. rewrite app_nil_r, Hfl, Hrx, Hh, Hs, Hs'. simpl. by rewrite Hrv. }
    split_and!; [|done|by left|by exists []]. destruct Hc as [O1 O2 O3 O4 O5]. split; try done.
    intros Hl. eapply moves_plain; [done|]. by apply O3. }
  pose proof (co_out _ Hc) as Ho. unfold out_ok in Ho. cbn [step]. unfold held_back in Hdrain.
  destruct (cn_out c) as [| |r|d r|t|ds t] eqn:Hout; try done.
  - apply (good_out c _ _ OutNone []); try done; [unfold held_back; simpl; by rewrite Hout|].
    rewrite Hout. simpl. by rewrite drop_receipt_events.
  - apply (good_out c _ _ OutNone []); try done; [unfold held_back; simpl; by rewrite Hout|].
    rewrite Hout. simpl. by rewrite drop_receipt_events.
  - destruct Ho as (_ & Hcl). by apply (Hdrain t).
  - destruct Ho as (_ & Hcl & _). by apply (Hdrain t).
Qed.

(** An error of a transaction is its first, a success all its deliveries. *)
Lemma commit_published t :
  transaction_ok t ->
  match transaction_commit t with
  | Ok ds => exists groups, transaction_events t = concat groups /\ Forall2 delivery_of groups ds
  | Err e => forall x, first_error (transaction_events t) = Some x -> e = AsyncBlp x
  end.
Proof.
  intros [H1 H2]. unfold transaction_commit. destruct (tr_failure t) as [[index e|e]|] eqn:Hf; simpl.
  - intros x. destruct (H1 index e eq_refl) as [_ ->]. congruence.
  - intros x. by destruct (H2 ltac:(done)) as [-> _].
  - by destruct (H2 ltac:(done)) as [_ H].
Qed.

(** A consumer that was closed and emptied; what a source held back may stay behind. *)
Lemma good_closed c c' op o chunk :
  consumer_ok c -> cn_out c = OutNone -> cn_out c' = OutNone -> cn_rx c' = None -> cn_pending c' = [] ->
  clean (cn_batcher c') -> cn_requires_deliveries c' = cn_requires_deliveries c ->
  moves c c' chunk (discarded c op) -> cn_rx c = None \/ ready c' = [] ->
  published chunk o -> good c op (Steps c' o).
Proof.
  intros Hc Ho Ho' Hrx Hp Hb Hreq Hm Hr Hpub. split_and!; [|done|done|by exists chunk].
  split; [done|by rewrite Hrx| |by unfold out_ok; rewrite Ho'|done].
  rewrite Hreq. intros Hl. eapply moves_plain; [done|]. by apply Hc.
Qed.

(** The whole line is accounted for or thrown away. *)
Lemma moves_all c c' chunk lost :
  cn_out c = OutNone -> cn_out c' = OutNone -> cn_pending c' = [] -> ready c' = [] ->
  chunk ++ lost = cn_pending c ++ ready c -> moves c c' chunk lost.
Proof. intros Ho Ho' Hp Hr Heq. exists (ready c). rewrite Hr, Ho, Ho', Hp. simpl. by rewrite !app_nil_r, Heq. Qed.

(** Closing without draining: the receiver is taken as it is and an earlier drain given up. *)
Lemma close_discard env retains c :
  let '(c', rx, e) := close_receiver false env retains c in
  cn_pending c' = cn_pending c /\ rx = cn_rx c /\ cn_rx c' = None /\ cn_batcher c' = cn_batcher c
  /\ cn_requires_deliveries c' = cn_requires_deliveries c /\ cn_out c' = cn_out c
  /\ rec_source (cn_recovery c') = None.
Proof.
  unfold close_receiver, retain_cleanup. simpl. destruct retains; split_and!; done.
Qed.

Lemma groups_no_error groups ds : Forall2 delivery_of groups ds -> first_error (concat groups) = None.
Proof.
  induction 1 as [|g d groups ds Hgd _ IH]; [done|]. simpl. rewrite first_error_app, IH. unfold first_error.
  by rewrite (delivery_no_error g d Hgd).
Qed.

Lemma step_unsubscribe c env : consumer_ok c -> good c (OpUnsubscribe true env) (step c (OpUnsubscribe true env)).
Proof.
  intros Hc. cbn [step]. destruct (cn_out c) eqn:Ho; try done. unfold unsubscribe, unsubscribe_deliveries.
  destruct (cn_requires_deliveries c) eqn:Hreq; simpl.
  - destruct (prepare_spec env c Hc Ho) as (c' & t & -> & Hc' & Ho' & Hrx & Hp & Hreq' & Ht & Hev & Hrec & _).
    pose proof (commit_published t Ht) as Hcp. rewrite Hev in Hcp.
    assert (ready c' = []) as Hr by (unfold ready, held_back; by rewrite Hrx, Ho', Hrec).
    assert (forall o, published (cn_pending c ++ ready c) o -> good c (OpUnsubscribe true env) (Steps c' o)) as Hg.
    { intros o Hpub. eapply good_closed; try done; [apply Hc'| |by right].
      apply moves_all; try done. cbn. by rewrite app_nil_r. }
    destruct (transaction_commit t) as [ds|e]; apply Hg; [|done]. destruct Hcp as (groups & -> & Hgs).
    simpl. intros x. by rewrite (groups_no_error groups ds Hgs).
  - pose proof (close_spec env false c) as Hcl. destruct (close_receiver true env false c) as [[c1 rx] e].
    destruct Hcl as (Hline & Hrx & Hb & Hreq1 & Hout1 & Hrec & Hlossy & _).
    assert ((match rx with Some rx => rx_lossy rx | None => false end) = false) as Hl.
    { destruct rx as [rx|]; [|done]. destruct (cn_rx c) as [rx0|] eqn:Hrx0; [|done]. simpl in Hlossy.
      injection Hlossy as ->. by rewrite (co_lossy _ Hc rx0 Hrx0). }
    unfold collect_unread. simpl. rewrite Hl. fold (ready_of rx). rewrite Hline.
    set (unread := cn_pending c ++ ready_of (cn_rx c)).
    destruct (collect_spec unread [] None false) as (us & -> & Hus).
    { pose proof (co_plain _ Hc Hreq) as Hg. unfold line, ready in Hg. rewrite Ho in Hg. unfold unread.
      destruct (cn_rx c); [done|]. cbn in Hg |- *. rewrite app_nil_r. unfold gapless in *. by apply Forall_app in Hg as [? _]. }
    assert (forall o, published unread o -> good c (OpUnsubscribe true env) (Steps (with_out c1 [] (cn_out c1)) o)) as Hg.
    { intros o Hpub. assert (ready (with_out c1 [] (cn_out c1)) = source_ready (rec_source (cn_recovery c))) as Hr'
        by (unfold ready, held_back; simpl; by rewrite Hrx, Hout1, Ho, Hrec).
      eapply good_closed; try done; simpl; try congruence; [rewrite Hb; apply Hc| |].
      - exists (ready_of (cn_rx c)). simpl. rewrite Hr', Hout1, Ho. simpl. split; [|by rewrite !app_nil_r].
        unfold ready, held_back. rewrite Ho. pose proof (co_recovery _ Hc) as Hn.
        destruct (rec_source (cn_recovery c)); [by rewrite Hn|]. destruct (cn_rx c); simpl; by rewrite ?app_nil_r.
      - rewrite Hr'. pose proof (co_recovery _ Hc) as Hn.
        destruct (rec_source (cn_recovery c)); [left; by apply Hn|by right]. }
    destruct (first_error unread) as [err|] eqn:Hfe; [|destruct e as [e|]]; apply Hg; simpl.
    + intros x. rewrite Hfe. congruence.
    + intros x. by rewrite Hfe.
    + by apply Hus.
Qed.

(** A close that does not drain throws the whole line away. *)
Lemma step_discard c env : consumer_ok c -> good c (OpUnsubscribe false env) (step c (OpUnsubscribe false env)).
Proof.
  intros Hc. cbn [step]. destruct (cn_out c) eqn:Ho; try done. unfold unsubscribe. rewrite andb_false_l.
  pose proof (close_discard env false c) as Hcl. destruct (close_receiver false env false c) as [[c1 rx] e].
  destruct Hcl as (_ & _ & Hrx & Hb & Hreq & Hout1 & Hrec).
  assert (forall o, published [] o -> good c (OpUnsubscribe false env) (Steps (with_out c1 [] (cn_out c1)) o)) as Hg.
  { intros o Hpub. assert (ready (with_out c1 [] (cn_out c1)) = []) as Hr
      by (unfold ready, held_back; simpl; by rewrite Hrx, Hout1, Ho, Hrec).
    eapply good_closed; try done; simpl; try congruence; [rewrite Hb; apply Hc| |by right].
    apply moves_all; simpl; try done; [congruence|]. by rewrite Ho. }
  unfold collect_unread. cbn [negb]. destruct e; by apply Hg.
Qed.

(** Preparing a drain, given what it leaves in the source. *)
Lemma good_prepared c c' op t :
  consumer_ok c -> consumer_ok c' -> cn_out c = OutNone -> cn_rx c' = None -> cn_pending c' = [] ->
  cn_requires_deliveries c' = cn_requires_deliveries c -> transaction_ok t -> is_Some (tr_source t) ->
  rec_source (cn_recovery c') = None ->
  moves c (with_out c' (cn_pending c') (OutDrain t)) [] (discarded c op) ->
  (keeps op = true -> source_ready (tr_source t) = []) ->
  good c op (Steps (with_out c' (cn_pending c') (OutDrain t)) GotNothing).
Proof.
  intros Hc Hc' Ho Hrx Hp Hreq Ht Hs Hrec Hm Hk. split_and!; [|done| |by exists []].
  - destruct Hc' as [O1 O2 O3 O4 O5]. split; try done.
    intros Hl. eapply moves_plain; [done|]. apply (co_plain _ Hc). simpl in Hl. congruence.
  - intros Hk' _. right. unfold ready, held_back. simpl. rewrite Hrx. by apply Hk.
Qed.

Lemma step_drain c env : consumer_ok c -> good c (OpDrain true env) (step c (OpDrain true env)).
Proof.
  intros Hc. cbn [step]. destruct (cn_out c) eqn:Ho; try done.
  destruct (prepare_spec env c Hc Ho) as (c' & t & -> & Hc' & Ho' & Hrx & Hp & Hreq' & Ht & Hev & Hrec & s & Hs & Hr).
  apply good_prepared; try done; [|intros _; by rewrite Hs].
  exists (ready c). unfold ready at 3, held_back. cbn. rewrite Hrx, Ho, Hp, Hev, Hs. cbn. rewrite Hr. by rewrite !app_nil_r.
Qed.

Lemma step_drain_discard c env : consumer_ok c -> good c (OpDrain false env) (step c (OpDrain false env)).
Proof.
  intros Hc. cbn [step]. destruct (cn_out c) eqn:Ho; try done. unfold prepare_unsubscribe_deliveries.
  pose proof (close_discard env true c) as Hcl. destruct (close_receiver false env true c) as [[c1 rx] e].
  destruct Hcl as (_ & -> & Hrx & Hb & Hreq & Hout1 & Hrec). set (source := found_source _ _ _).
  assert (src_receiver source = cn_rx c) as Hsr.
  { unfold source, found_source. rewrite Hrec. simpl. by destruct e. }
  assert (transaction_ok (mkTransaction (Some source) [] [] None)) as Ht
    by (split; [done|]; intros _; split; [done|]; by exists []).
  simpl. set (fc := match src_cleanup_error source with Some _ => _ | None => _ end).
  destruct (cleanup_ok _ (Some (mkSource (src_receiver source) fc.2)) fc.1 Ht) as [Ht' Hev].
  { unfold fc. simpl. destruct (src_cleanup_error source); [right; eauto|by left]. }
  destruct fc as [failure ce]. simpl in Ht', Hev.
  apply (good_prepared c (mkConsumer _ _ _ _ _ _ _ _ _)); simpl; try done.
  - split; simpl; [rewrite Hb; apply Hc|by rewrite Hrx|intros _|by unfold out_ok; simpl; rewrite Hout1, Ho|by intros [? ?]].
    unfold line, ready, held_back. simpl. rewrite Hrx, Hout1, Ho. constructor.
  - exists (match cn_rx c with Some _ => [] | None => ready c end). unfold ready at 1 3, held_back at 2. cbn -[transaction_events].
    rewrite Hrx, Ho. cbn -[transaction_events]. rewrite Hev, Hsr. cbn. split; [|by rewrite app_nil_r].
    unfold ready. destruct (cn_rx c); [done|]. by rewrite app_nil_r.
Qed.

(** A channel that does not overwrite has no gaps; the host may do what it likes. *)
Definition op_ok (requires_deliveries : bool) (op : ConsumerOp) : Prop :=
  match op with
  | OpReady events _ => requires_deliveries = false -> gapless events
  | _ => True
  end.

(** Case analysis on what is out, with what the invariant says of it. *)
Ltac at_out Hc :=
  let Hok := fresh "Hok" in let Ho := fresh "Ho" in
  cbn [step]; pose proof (co_out _ Hc) as Hok; unfold out_ok in Hok;
  match type of Hc with consumer_ok ?c => destruct (cn_out c) eqn:Ho; try done end.

(** A step of what is out that throws nothing away. *)
Ltac keep_out Ho out chunk :=
  apply (good_out _ _ _ out chunk);
  [done|try done|by cbn; rewrite ?Ho|by unfold held_back; cbn; rewrite Ho|rewrite Ho; try done|try done].

(** Steps of a lease and of its acknowledgement. *)
Lemma step_lease c op : consumer_ok c -> op ∈ [OpCommit; OpPrepareSuccess; OpAckCommit] -> good c op (step c op).
Proof.
  intros Hc Hop. rewrite !elem_of_cons, elem_of_nil in Hop. destruct Hop as [->|[->|[->|[]]]]; at_out Hc.
  - destruct Hok as [(d & Hv & Hd)|(e & Hv & He)]; rewrite Hv; keep_out Ho OutNone (receipt_events receipt);
      unfold receipt_events; rewrite Hv; simpl; by rewrite ?app_nil_r, ?He.
  - unfold lease_prepare, take_success. destruct Hok as [(d & Hv & Hd)|(e & Hv & He)]; rewrite Hv.
    + keep_out Ho (OutAck d (mkReceipt None (rc_events receipt))) (@nil Ev). simpl. unfold receipt_events. by rewrite Hv.
    + keep_out Ho (OutLease receipt) (@nil Ev). right; eauto.
  - destruct Hok as [Hv Hd]. keep_out Ho OutNone (rc_events receipt). simpl.
    unfold receipt_events. by rewrite Hv, app_nil_r.
Qed.

(** Committing a drain throws away what its source still has. *)
Lemma good_commit c op t o :
  consumer_ok c -> cn_out c = OutDrain t \/ (exists ds, cn_out c = OutDrainAck ds t) -> closed_ok c t ->
  discarded c op = ready c -> published (transaction_events t) o ->
  good c op (Steps (with_out c (cn_pending c) OutNone) o).
Proof.
  intros Hc Hout (Hrx & Hp & Hrec & _) Hd Hpub. set (c' := with_out _ _ _).
  assert (moves c c' (transaction_events t) (discarded c op)) as Hm.
  { exists (ready c). rewrite Hd. unfold c', ready at 3, held_back. simpl. rewrite Hrx, Hrec, Hp. simpl.
    rewrite !app_nil_r. split; [done|]. by destruct Hout as [->|[ds ->]]. }
  split_and!; [|done|by left|by eexists]. destruct Hc as [O1 O2 O3 O4 O5]. split; try done.
  intros Hl. eapply moves_plain; [done|]. by apply O3.
Qed.

(** Steps of a prepared drain. *)
Lemma step_prepared c op :
  consumer_ok c -> op ∈ [OpDrainCommit; OpDrainPrepareSuccess; OpDrainAckCommit] -> good c op (step c op).
Proof.
  intros Hc Hop. rewrite !elem_of_cons, elem_of_nil in Hop. destruct Hop as [->|[->|[->|[]]]]; at_out Hc.
  - destruct Hok as (Ht & Hcl). eapply good_commit; [done|by left|done|by cbn; rewrite Ho|].
    pose proof (commit_published transaction Ht). by destruct (transaction_commit transaction).
  - destruct Hok as (Ht & Hcl). unfold drain_prepare. destruct (tr_failure transaction) eqn:Hf.
    { by keep_out Ho (OutDrain transaction) (@nil Ev). }
    match goal with |- context [OutDrainAck ?ds ?t] => keep_out Ho (OutDrainAck ds t) (@nil Ev) end.
    + unfold out_ok. simpl. split_and!; try done. destruct Ht as [_ Ht]. destruct Ht as [_ Ht]; [by rewrite Hf|].
      unfold transaction_events in *. by rewrite Hf in Ht.
    + simpl. unfold transaction_events. by rewrite Hf.
  - destruct Hok as (_ & Hcl & Hg). eapply good_commit; [done|by right; eexists|done|by cbn; rewrite Ho|done].
Qed.

Lemma step_good c op :
  consumer_ok c -> op_ok (cn_requires_deliveries c) op -> (forall events over, op <> OpReady events over) ->
  good c op (step c op).
Proof.
  intros Hc Hop Hne. destruct op; simpl in Hop;
    try (apply step_lease; [done|by rewrite !elem_of_cons; auto]);
    try (apply step_prepared; [done|by rewrite !elem_of_cons; auto]).
  - by destruct (Hne _ _ eq_refl).
  - cbn [step]. destruct Hc as [O1 O2 O3 O4 O5]. split_and!; [by split|done|by left|]. exists []. split; [|done].
    exists []. simpl. by rewrite app_nil_r.
  - by apply step_read.
  - at_out Hc. by keep_out Ho OutNone (plainly updates).
  - at_out Hc. by keep_out Ho OutNone (@nil Ev).
  - by apply step_next.
  - by apply step_drop.
  - destruct drain; [by apply step_unsubscribe|by apply step_discard].
  - destruct drain; [by apply step_drain|by apply step_drain_discard].
Qed.

(** ** Runs *)

(** What left the receiver in a step. *)
Definition handed (c : SubscriptionConsumer) (op : ConsumerOp) (c' : SubscriptionConsumer) : list Ev :=
  match op with OpReady _ _ => [] | _ => take (length (ready c) - length (ready c')) (ready c) end.

(** A run: the outputs of its steps and what the receiver handed over; [None] on a panic.
    A step that has to wait is tried again later. *)
Fixpoint run (c : SubscriptionConsumer) (ops : list ConsumerOp)
  : option (SubscriptionConsumer * list Output * list Ev) :=
  match ops with
  | [] => Some (c, [], [])
  | op :: ops =>
      match step c op with
      | Panics => None
      | Waits => run c ops
      | Steps c1 out =>
          match run c1 ops with
          | Some (c2, outs, events) => Some (c2, out :: outs, handed c op c1 ++ events)
          | None => None
          end
      end
  end.

Lemma ready_ok c events over c' out :
  consumer_ok c -> op_ok (cn_requires_deliveries c) (OpReady events over) ->
  step c (OpReady events over) = Steps c' out ->
  consumer_ok c' /\ cn_requires_deliveries c' = cn_requires_deliveries c /\ out = GotNothing
  /\ in_flight (cn_out c') = in_flight (cn_out c) /\ cn_pending c' = cn_pending c /\ is_Some (cn_rx c').
Proof.
  intros [O1 O2 O3 O4 O5] Hop. simpl in Hop. cbn [step].
  destruct (cn_rx c) as [rx|] eqn:Hrx; [|by destruct (cn_out c)].
  intros Hs. assert (c' = with_line c (Some (mkReceiver (rx_lossy rx) events (rx_over rx || over))) (cn_pending c)
    (cn_batcher c) (cn_out c) /\ out = GotNothing) as [-> ->] by (destruct (cn_out c); by simplify_eq).
  split_and!; try done. split; try done; simpl.
  - intros rx1 [= <-]. simpl. by apply O2.
  - intros Hl. specialize (O3 Hl). unfold line, ready in *. simpl. rewrite app_assoc in O3 |- *. unfold gapless in *.
    rewrite Forall_app in O3 |- *. split; [apply O3|by apply Hop].
  - unfold out_ok, closed_ok in *. simpl. rewrite Hrx in O4.
    destruct (cn_out c); try done; by destruct O4 as (_ & (? & _) & _) || by destruct O4 as (_ & ? & _).
  - intros Hs'. by specialize (O5 Hs').
Qed.

(** A consumer none of whose drains left anything behind. *)
Definition settled (c : SubscriptionConsumer) : Prop := cn_rx c = None -> ready c = [].

Lemma discarded_settled c op : consumer_ok c -> settled c -> keeps op = true -> discarded c op = [].
Proof.
  intros Hc Hs Hk. pose proof (co_out _ Hc) as Ho. unfold out_ok, closed_ok in Ho. unfold discarded.
  destruct op; try done; simpl in Hk; subst; try done; destruct (cn_out c); try done; apply Hs; naive_solver.
Qed.

Lemma step_accounts c op :
  consumer_ok c -> op_ok (cn_requires_deliveries c) op ->
  match step c op with
  | Waits => True
  | Panics => False
  | Steps c1 out => consumer_ok c1 /\ cn_requires_deliveries c1 = cn_requires_deliveries c
      /\ (keeps op = true -> settled c -> settled c1)
      /\ exists chunk, in_flight (cn_out c) ++ cn_pending c ++ handed c op c1
           = (chunk ++ discarded c op) ++ in_flight (cn_out c1) ++ cn_pending c1 /\ published chunk out
  end.
Proof.
  intros Hc Hop. assert ((exists events over, op = OpReady events over) \/ forall events over, op <> OpReady events over)
    as [(events & over & ->)|Hn] by (destruct op; eauto).
  - pose proof (ready_ok c events over) as Hr. destruct (step c (OpReady events over)) as [| |c1 out] eqn:Hs; [done| |].
    + cbn [step] in Hs. by destruct (cn_out c), (cn_rx c).
    + destruct (Hr c1 out Hc Hop eq_refl) as (Hc1 & Hreq & -> & -> & -> & [rx Hrx]). split_and!; [done|done|by unfold settled; rewrite Hrx|].
      exists []. by rewrite app_nil_r.
  - pose proof (step_good c op Hc Hop Hn) as Hg. destruct (step c op) as [| |c1 out]; [done|done|].
    destruct Hg as (Hc1 & Hreq & Hk & chunk & (pop & H1 & H2) & Hp). split_and!; [done|done| |].
    { intros Hkeep Hs Hrx. destruct (Hk Hkeep Hrx) as [Hrx0|?]; [|done]. rewrite (Hs Hrx0) in H1.
      by destruct pop, (ready c1). }
    exists chunk. split; [|done]. assert (handed c op c1 = pop) as ->; [|done].
    assert (handed c op c1 = take (length (ready c) - length (ready c1)) (ready c)) as ->
      by (destruct op; try done; exfalso; by eapply Hn).
    rewrite H1, length_app. replace (length pop + length (ready c1) - length (ready c1)) with (length pop) by lia.
    by rewrite take_app_length.
Qed.

(** What each step of a run throws away. *)
Fixpoint discards (c : SubscriptionConsumer) (ops : list ConsumerOp) : list (list Ev) :=
  match ops with
  | [] => []
  | op :: ops =>
      match step c op with
      | Panics => []
      | Waits => discards c ops
      | Steps c1 _ => discarded c op :: discards c1 ops
      end
  end.

Lemma discards_settled ops c :
  consumer_ok c -> Forall (op_ok (cn_requires_deliveries c)) ops -> settled c ->
  Forall (fun op => keeps op = true) ops -> Forall (fun lost => lost = []) (discards c ops).
Proof.
  revert c. induction ops as [|op ops IH]; intros c Hc Hops Hs Hk; cbn [discards]; [constructor|].
  apply Forall_cons in Hops as [Hop Hops]. apply Forall_cons in Hk as [Hkeep Hk].
  pose proof (step_accounts c op Hc Hop) as Ha. destruct (step c op) as [| |c1 out]; [by apply IH|constructor|].
  destruct Ha as (Hc1 & Hreq & Hset & _). constructor; [by apply discarded_settled|].
  apply IH; [done|by rewrite Hreq|by apply Hset|done].
Qed.

Lemma run_good ops c :
  consumer_ok c -> Forall (op_ok (cn_requires_deliveries c)) ops ->
  exists c' outs events chunks, run c ops = Some (c', outs, events)
    /\ in_flight (cn_out c) ++ cn_pending c ++ events
       = concat (zip_with app chunks (discards c ops)) ++ in_flight (cn_out c') ++ cn_pending c'
    /\ Forall2 published chunks outs /\ length (discards c ops) = length outs
    /\ consumer_ok c' /\ cn_requires_deliveries c' = cn_requires_deliveries c.
Proof.
  revert c. induction ops as [|op ops IH]; intros c Hc Hops; cbn [run discards].
  { exists c, [], [], []. split_and!; try done. by rewrite app_nil_r. }
  apply Forall_cons in Hops as [Hop Hops].
  pose proof (step_accounts c op Hc Hop) as Hs.
  destruct (step c op) as [| |c1 out]; [by apply IH|done|]. destruct Hs as (Hc1 & Hreq & _ & chunk & Heq & Hp).
  destruct (IH c1 Hc1 ltac:(by rewrite Hreq)) as (c2 & outs & events & chunks & -> & Heq2 & Hps & Hl & Hc2 & Hreq2).
  exists c2, (out :: outs), (handed c op c1 ++ events), (chunk :: chunks).
  split_and!; [done| |by constructor|simpl; by rewrite Hl|done|congruence].
  cbn [zip_with concat]. rewrite <-!app_assoc, <-Heq2. rewrite !app_assoc. f_equal. rewrite <-!app_assoc, Heq. by rewrite <-!app_assoc.
Qed.

(** ** Retried drains *)

(** It does not matter which part of the line is still in the receiver. *)
Lemma next_event_merge rx pending :
  let '(ev, rx', pending') := next_event rx pending in
  next_event None (pending ++ ready_of rx) = (ev, None, pending' ++ ready_of rx').
Proof. destruct pending as [|ev p]; [|done]. by destruct rx as [[lossy [|ev r] over]|]. Qed.

Lemma gather_merge n first events rx pending :
  let '(events', rx', pending') := gather n first events rx pending in
  gather n first events None (pending ++ ready_of rx) = (events', None, pending' ++ ready_of rx').
Proof.
  revert events rx pending. induction n as [|n IH]; intros events rx pending; cbn [gather]; [done|].
  pose proof (next_event_merge rx pending) as Hm. destruct (next_event rx pending) as [[[ev|] rx1] p1]; rewrite Hm; [|done].
  destruct (same_epoch_and_layout first ev); [|done]. apply (IH _ rx1 p1).
Qed.

Lemma delivery_of_fun events d d' : delivery_of events d -> delivery_of events d' -> d = d'.
Proof.
  intros (u & gap & rest & -> & _ & ->) (u' & gap' & rest' & [= <- <- Hr] & _ & ->).
  assert (Inj (=) (=) (fun v => EvUpdate v None)) as Hinj by (by intros ? ? [=]). apply (inj _) in Hr. by subst.
Qed.

(** The receipt of a delivery is a matter of the line. *)
Lemma read_ready_merge limit first rx pending b b0 r rx' pending' b' :
  clean b -> clean b0 -> read_ready_delivery limit first rx pending b = Some (r, rx', pending', b') ->
  exists b1, read_ready_delivery limit first None (pending ++ ready_of rx) b0 = Some (r, None, pending' ++ ready_of rx', b1)
    /\ clean b1.
Proof.
  intros Hb Hb0 Hr.
  destruct (read_ready_spec limit first rx pending b Hb) as (r1 & rx1 & p1 & b1 & Hr1 & _ & Hok & _).
  destruct (read_ready_spec limit first None (pending ++ ready_of rx) b0 Hb0) as (r2 & rx2 & p2 & b2 & Hr2 & Hb2 & Hok2 & _).
  rewrite Hr in Hr1. injection Hr1 as <- <- <- <-. destruct first as [u gap|e]; cbn [read_ready_delivery] in *.
  2:{ simplify_eq. eauto. }
  pose proof (gather_merge (Nat.max limit 1 - 1) (EvUpdate u gap) [EvUpdate u gap] rx pending) as Hm.
  destruct (gather _ _ _ rx pending) as [[ev rx1] p1]. rewrite Hm in Hr2 |- *.
  destruct (append_events b ev) as [b3|]; [|done]. destruct (flush b3) as [[[data|] b4]|]; [|done..].
  destruct (append_events b0 ev) as [b5|]; [|done]. destruct (flush b5) as [[[data'|] b6]|]; [|done..].
  simplify_eq. exists b2. split; [|done].
  destruct Hok as [(d & [= <-] & Hd)|(e & [=] & _)], Hok2 as [(d' & [= <-] & Hd')|(e & [=] & _)]. simpl in *.
  by rewrite (delivery_of_fun _ _ _ Hd Hd').
Qed.

Lemma drain_merge fuel limit t rx pending b b0 t' rx' pending' b' :
  clean b -> clean b0 -> drain_loop fuel limit t rx pending b = Some (t', rx', pending', b') ->
  exists b1, drain_loop fuel limit t None (pending ++ ready_of rx) b0 = Some (t', None, [], b1).
Proof.
  revert t rx pending b b0. induction fuel as [|fuel IH]; intros t rx pending b b0 Hb Hb0; cbn [drain_loop];
    pose proof (next_event_merge rx pending) as Hm; pose proof (next_event_spec rx pending) as Hn;
    destruct (next_event rx pending) as [[[ev|] rx1] p1]; rewrite Hm; try done.
  - intros [= <- <- <- <-]. destruct Hn as (-> & -> & -> & Hr). rewrite Hr. eauto.
  - destruct (read_ready_delivery limit ev rx1 p1 b) as [[[[r rx2] p2] b2]|] eqn:Hr; [|done]. intros Hd.
    destruct (read_ready_merge _ _ _ _ _ b0 _ _ _ _ Hb Hb0 Hr) as (b1 & -> & Hb1).
    destruct (read_ready_spec limit ev rx1 p1 b Hb) as (? & ? & ? & ? & Hr' & Hb2 & _). rewrite Hr in Hr'. simplify_eq.
    by eapply (IH _ _ _ _ b1 Hb2 Hb1).
  - intros [= <- <- <- <-]. destruct Hn as (-> & -> & -> & Hr). rewrite Hr. eauto.
Qed.

Definition set_source (t : DeliveryDrainTransaction) (s : option ClosedDeliverySource) : DeliveryDrainTransaction :=
  mkTransaction s (tr_receipts t) (tr_deliveries t) (tr_failure t).

Lemma drain_source fuel limit t s rx pending b :
  drain_loop fuel limit (set_source t s) rx pending b
  = (fun '(t, rx, pending, b) => (set_source t s, rx, pending, b)) <$> drain_loop fuel limit t rx pending b.
Proof.
  revert t rx pending b. induction fuel as [|fuel IH]; intros t rx pending b; cbn [drain_loop];
    destruct (next_event rx pending) as [[[ev|] rx1] p1]; try done.
  destruct (read_ready_delivery limit ev rx1 p1 b) as [[[[r rx2] p2] b2]|]; [|done]. rewrite <-IH. f_equal.
  unfold transaction_push, take_success, take_error.
  destruct (rc_value r) as [[d|e]|] eqn:Hv; simpl; rewrite ?Hv; by destruct (tr_failure t).
Qed.

(** What a drain of a line yields, given the error its clean-up met. *)
Definition drained (limit : nat) (events : list Ev) (cleanup : option BlpAsyncError) (t : DeliveryDrainTransaction) : Prop :=
  exists b t0 b' s, clean b
    /\ drain_loop (length events) limit (mkTransaction None [] [] None) None events b = Some (t0, None, [], b')
    /\ tr_source t = Some s /\ tr_receipts t = tr_receipts t0 /\ tr_deliveries t = tr_deliveries t0
    /\ match tr_failure t0, cleanup with
       | None, Some e => tr_failure t = Some (FailCleanup e) /\ src_cleanup_error s = None
       | failure, cleanup => tr_failure t = failure /\ src_cleanup_error s = cleanup
       end.

(** The outcome is a matter of the line and of the clean-up error. *)
Lemma drained_commit limit events cleanup t t' :
  drained limit events cleanup t -> drained limit events cleanup t' -> transaction_commit t' = transaction_commit t.
Proof.
  intros (b & t0 & b1 & s & Hb & Hd & _ & _ & Hds & Hf) (b' & t0' & b1' & s' & Hb' & Hd' & _ & _ & Hds' & Hf').
  destruct (drain_merge _ _ _ _ _ b b' _ _ _ _ Hb Hb' Hd) as (b2 & Hd2). simpl in Hd2. rewrite app_nil_r, Hd' in Hd2.
  injection Hd2 as <- _. unfold transaction_commit. rewrite Hds, Hds'.
  destruct (tr_failure t0'), cleanup; destruct Hf as [-> _], Hf' as [-> _]; done.
Qed.

(** A consumer whose drain was prepared, on the way to be committed or dropped. *)
Definition prepared (events : list Ev) (cleanup : option BlpAsyncError) (c : SubscriptionConsumer)
  (t : DeliveryDrainTransaction) : Prop :=
  consumer_ok c /\ cn_out c = OutDrain t /\ source_ready (tr_source t) = [] /\ cn_handle c = false
  /\ cn_recovery c = no_recovery /\ drained (cn_batch_limit c) events cleanup t.

(** The clean-up error a later drain starts from. *)
Definition kept_cleanup (recovery : DeliveryDrainRecovery) : option BlpAsyncError :=
  match rec_source recovery with
  | Some (mkSource _ (Some e)) => Some e
  | _ => rec_cleanup_error recovery
  end.

Lemma close_rest env c :
  let c' := (close_receiver true env true c).1.1 in
  cn_handle c' = false /\ cn_batch_limit c' = cn_batch_limit c
  /\ (cn_handle c = false -> cn_recovery c' = cn_recovery c).
Proof.
  unfold close_receiver, retain_cleanup. destruct (cn_recovery c) as [src [ce|]], (cn_handle c), (cn_rx c); simpl;
    repeat case_match; simplify_eq/=; split_and!; done.
Qed.

(** The loop of a drain, on the source it found. *)
Lemma drain_drained limit source pending b events t rx' pending' b' s :
  clean b -> pending ++ ready_of (src_receiver source) = events ->
  drain_loop (unread (src_receiver source) pending) limit (mkTransaction (Some source) [] [] None)
    (src_receiver source) pending b = Some (t, rx', pending', b') ->
  let fc := match tr_failure t, src_cleanup_error source with
            | None, Some e => (Some (FailCleanup e), None)
            | failure, e => (failure, e)
            end in
  s = mkSource rx' fc.2 ->
  drained limit events (src_cleanup_error source) (mkTransaction (Some s) (tr_receipts t) (tr_deliveries t) fc.1).
Proof.
  intros Hb <- Hd fc ->. change (mkTransaction (Some source) [] [] None)
    with (set_source (mkTransaction None [] [] None) (Some source)) in Hd.
  rewrite drain_source in Hd. apply fmap_Some in Hd as ([[[t0 rx0] p0] b0] & Hd & [= -> <- <- <-]).
  destruct (drain_merge _ _ _ _ _ b b _ _ _ _ Hb Hb Hd) as (b1 & Hd1).
  assert (unread (src_receiver source) pending = length (pending ++ ready_of (src_receiver source))) as Hl
    by (rewrite length_app; by destruct (src_receiver source)).
  rewrite Hl in Hd1. exists b, t0, b1, (mkSource rx' fc.2). split_and!; try done.
  subst fc. simpl. by destruct (tr_failure t0), (src_cleanup_error source).
Qed.

(** What a drain prepares. *)
Lemma prepare_is_drained env c c' t :
  consumer_ok c -> cn_out c = OutNone -> prepare_unsubscribe_deliveries true env c = Some (c', t) ->
  cn_handle c' = false /\ cn_recovery c' = no_recovery /\ cn_batch_limit c' = cn_batch_limit c
  /\ exists cleanup, drained (cn_batch_limit c) (cn_pending c ++ ready c) cleanup t
      /\ (cn_handle c = false -> cleanup = kept_cleanup (cn_recovery c)).
Proof.
  intros Hc Ho. unfold prepare_unsubscribe_deliveries.
  pose proof (close_spec env true c) as Hcl. pose proof (found_line env c Hc Ho) as Hs. pose proof (close_rest env c) as Hcr.
  destruct (close_receiver true env true c) as [[c1 rx] e]. simpl in Hcr. destruct Hcr as (Hh & Hlim & Hrc).
  destruct Hcl as (_ & _ & Hb & _ & _ & _ & _ & He). rewrite (He eq_refl) in *.
  set (source := found_source _ _ _) in *.
  destruct (drain_loop _ _ _ _ _ _) as [[[[t1 rx2] p2] b2]|] eqn:Hd; [|done].
  assert (clean (cn_batcher c1)) as Hcb by (rewrite Hb; apply Hc).
  pose proof (drain_drained _ source _ _ _ t1 rx2 p2 b2 _ Hcb Hs Hd eq_refl) as Hdr.
  set (fc := match tr_failure t1 with Some _ => _ | None => _ end) in *. cbv zeta in Hdr. fold fc in Hdr.
  destruct fc as [failure ce]. intros [= <- <-]. simpl in *. rewrite Hlim in *. split_and!; try done.
  exists (src_cleanup_error source). split; [done|]. intros Hn. unfold source, found_source, kept_cleanup. rewrite (Hrc Hn).
  by destruct (rec_source (cn_recovery c)) as [[srx [ce'|]]|].
Qed.

Lemma prepare_drained env c :
  consumer_ok c -> cn_out c = OutNone ->
  exists c1 t cleanup, step c (OpDrain true env) = Steps c1 GotNothing /\ prepared (cn_pending c ++ ready c) cleanup c1 t
    /\ cn_batch_limit c1 = cn_batch_limit c /\ (cn_handle c = false -> cleanup = kept_cleanup (cn_recovery c)).
Proof.
  intros Hc Ho. pose proof (step_drain c env Hc) as Hg.
  destruct (prepare_spec env c Hc Ho) as (c' & t & Hpr & _ & _ & _ & Hp & _ & _ & _ & _ & s & Hs & Hsr).
  destruct (prepare_is_drained env c c' t Hc Ho Hpr) as (Hh & Hrc & Hlim & cleanup & Hd & Hcl).
  cbn [step] in *. rewrite Ho, Hpr in *. destruct Hg as (Hok & _ & _). eexists _, t, cleanup. split; [done|].
  split; [|split; [by simpl; rewrite Hlim|done]]. unfold prepared. split_and!; try done; [by rewrite Hs|]. simpl. by rewrite Hlim.
Qed.

(** The host drops a prepared drain, or its acknowledgement. *)
Definition undo (acknowledging : bool) : list ConsumerOp :=
  (if acknowledging then [OpDrainPrepareSuccess] else []) ++ [OpDrop].

(** A consumer with the line back in front, ready for another drain. *)
Definition retriable (events : list Ev) (cleanup : option BlpAsyncError) (limit : nat) (c : SubscriptionConsumer) : Prop :=
  consumer_ok c /\ cn_out c = OutNone /\ cn_pending c ++ ready c = events /\ cn_handle c = false
  /\ kept_cleanup (cn_recovery c) = cleanup /\ cn_batch_limit c = limit.

Lemma drop_prepared events cleanup c t s :
  consumer_ok c -> cn_out c = OutDrain t \/ (exists ds, cn_out c = OutDrainAck ds t) ->
  closed_ok c t -> ready_of (src_receiver s) = [] -> cn_handle c = false -> cn_recovery c = no_recovery ->
  tr_source t = Some s -> transaction_events t = events ->
  match tr_failure t with Some (FailCleanup e) => Some e | _ => src_cleanup_error s end = cleanup ->
  exists c', step c OpDrop = Steps c' GotNothing /\ retriable events cleanup (cn_batch_limit c) c'.
Proof.
  intros Hc Ho (Hrx & Hp & _ & _) Hsr Hh Hrc Hs Hev Hcl. pose proof (step_drop c Hc) as Hg.
  pose proof (transaction_drop_spec t s (cn_pending c) (cn_recovery c) Hs) as Hd.
  assert (kept_cleanup (transaction_drop t (cn_pending c) (cn_recovery c)).2 = cleanup) as Hk.
  { unfold transaction_drop, kept_cleanup. rewrite Hs, Hrc. destruct s as [srx [sce|]], (tr_failure t) as [[]|]; simpl in *; congruence. }
  assert (step c OpDrop = let '(pending, recovery) := transaction_drop t (cn_pending c) (cn_recovery c) in
      Steps (mkConsumer (cn_rx c) pending (cn_closed c) (cn_handle c) (cn_requires_deliveries c)
               (cn_batch_limit c) (cn_batcher c) recovery OutNone) GotNothing) as Hst
    by (cbn [step]; by destruct Ho as [->|[ds ->]]).
  rewrite Hst in *. destruct (transaction_drop _ _ _) as [p' rec']. simpl in Hk.
  destruct Hd as (-> & s' & Hs' & Hr'), Hg as (Hok & _ & _). eexists. split; [done|]. split_and!; try done.
  unfold ready, held_back. simpl. rewrite Hrx, Hp, Hev, Hs'. simpl. by rewrite Hr', Hsr, !app_nil_r.
Qed.

(** The events and the failure of a prepared drain are those of its line. *)
Lemma drained_events limit events cleanup t :
  drained limit events cleanup t ->
  transaction_events t = events
  /\ exists s, tr_source t = Some s
      /\ match tr_failure t with Some (FailCleanup e) => Some e | _ => src_cleanup_error s end = cleanup.
Proof.
  intros (b & t0 & b' & s & Hb & Hdl & Hs & Hrs & Hds & Hf).
  destruct (drain_loop_spec (length events) limit (mkTransaction None [] [] None) None events b Hb)
    as (t0' & rx' & b'' & Hdl' & _ & Ht0 & Hn0 & Hev0 & _); [by split; [|intros _; split; [|exists []]]|done|unfold unread; lia|].
  rewrite Hdl in Hdl'. injection Hdl' as <- <- <-. unfold transaction_events in Hev0 at 2. simpl in Hev0.
  rewrite app_nil_r in Hev0. split.
  - destruct (cleanup_ok t0 (Some s) (tr_failure t) Ht0) as [_ Heq].
    { destruct (tr_failure t0), cleanup; destruct Hf as [-> _]; eauto. }
    rewrite <-Hev0, <-Heq. unfold transaction_events. simpl. by rewrite Hrs.
  - exists s. split; [done|].
    destruct (tr_failure t0) as [[|e']|], cleanup; destruct Hf as [-> Hsc]; try done; by destruct (Hn0 e').
Qed.

Lemma undo_prepared events cleanup c t ack :
  prepared events cleanup c t ->
  exists c' outs h, run c (undo ack) = Some (c', outs, h) /\ retriable events cleanup (cn_batch_limit c) c'.
Proof.
  intros (Hc & Ho & Hsr & Hh & Hrc & Hd). destruct (drained_events _ _ _ _ Hd) as (Hev & s & Hs & Hcl).
  rewrite Hs in Hsr. simpl in Hsr.
  pose proof (co_out _ Hc) as Hok. unfold out_ok in Hok. rewrite Ho in Hok. destruct Hok as (Ht & Hck).
  destruct (drop_prepared events cleanup c t s Hc ltac:(by left) Hck Hsr Hh Hrc Hs Hev Hcl) as (c' & Hst & Hret).
  assert (exists c' outs h, run c [OpDrop] = Some (c', outs, h) /\ retriable events cleanup (cn_batch_limit c) c') as Hdrop
    by (cbn [run]; rewrite Hst; eauto).
  destruct ack; [|done]. unfold undo. cbn [app]. cbn [run].
  pose proof (step_prepared c OpDrainPrepareSuccess Hc ltac:(by rewrite !elem_of_cons; auto)) as Hg.
  assert (step c OpDrainPrepareSuccess = match tr_failure t with
      | Some _ => Steps c GotNothing
      | None => Steps (with_out c (cn_pending c)
                         (OutDrainAck (tr_deliveries t) (mkTransaction (tr_source t) (tr_receipts t) [] None)))
                  GotNothing
      end) as Hps
    by (cbn [step]; rewrite Ho; unfold drain_prepare; destruct (tr_failure t); [|done]; destruct c; simpl in *; by subst).
  rewrite Hps in Hg |- *. destruct (tr_failure t) eqn:Hf.
  - rewrite Hst. eauto.
  - destruct Hg as (Hc1 & _ & _). set (c1 := with_out _ _ _) in *.
    destruct (drop_prepared events cleanup c1 (mkTransaction (tr_source t) (tr_receipts t) [] None) s Hc1)
      as (c2 & Hst2 & Hret2); try done; [right; eauto| |].
    + rewrite <-Hev. unfold transaction_events. simpl. by rewrite Hf.
    + rewrite Hst2. eauto.
Qed.

(** Drains that are dropped and prepared again. *)
Definition retries (rounds : list (bool * CloseEnv)) : list ConsumerOp :=
  rounds ≫= fun '(ack, env) => undo ack ++ [OpDrain true env].

Lemma consumer_run_app c ops ops' :
  run c (ops ++ ops') =
    match run c ops with
    | Some (c1, outs, h) =>
        match run c1 ops' with Some (c2, outs', h') => Some (c2, outs ++ outs', h ++ h') | None => None end
    | None => None
    end.
Proof.
  revert c. induction ops as [|op ops IH]; intros c; cbn [run app].
  { by destruct (run c ops') as [[[? ?] ?]|]. }
  destruct (step c op) as [| |c1 out]; [apply IH|done|]. rewrite IH.
  destruct (run c1 ops) as [[[c2 outs] h]|]; [|done]. destruct (run c2 ops') as [[[c3 outs'] h']|]; [|done].
  by rewrite app_assoc.
Qed.

Lemma retries_prepared rounds events cleanup c t :
  prepared events cleanup c t ->
  exists c' t' outs h, run c (retries rounds) = Some (c', outs, h)
    /\ prepared events cleanup c' t' /\ cn_batch_limit c' = cn_batch_limit c.
Proof.
  revert c t. induction rounds as [|[ack env] rounds IH]; intros c t Hp; [by exists c, t, [], []|].
  destruct (undo_prepared events cleanup c t ack Hp) as (c1 & outs1 & h1 & Hr1 & Hc1 & Ho1 & Hl1 & Hh1 & Hk1 & Hlim1).
  destruct (prepare_drained env c1 Hc1 Ho1) as (c2 & t2 & cl2 & Hst & Hp2 & Hlim2 & Hcl). rewrite (Hcl Hh1), Hk1, Hl1 in Hp2.
  destruct (IH c2 t2 Hp2) as (c3 & t3 & outs3 & h3 & Hr3 & Hp3 & Hlim3).
  assert (retries ((ack, env) :: rounds) = undo ack ++ OpDrain true env :: retries rounds) as ->
    by (unfold retries; csimpl; by rewrite <-app_assoc).
  exists c3, t3. rewrite consumer_run_app, Hr1. cbn [run]. rewrite Hst, Hr3.
  eexists _, _. split_and!; [done|done|congruence].
Qed.
End Consumer.

(** ** Claims *)

Lemma consumer_new_ok ryu_format_finite f64_display lossy limit :
  consumer_ok ryu_format_finite f64_display (consumer_new (mkReceiver lossy [] false) limit).
Proof.
  split; try done.
  - simpl. by intros rx [= <-].
  - intros _. constructor.
  - by intros [? ?].
Qed.


(** C29: A drain that was not published can be retried.  At any point of any run at which the
    consumer is idle, preparing a drain, dropping it or its acknowledgement and preparing it
    again, any number of times and whatever the engine answers to the later attempts, then
    committing gives exactly what committing the first drain would have given: the same
    deliveries, or the same error, be it of the stream or of the clean-up. *)
Theorem drain_retry_same ryu_format_finite f64_display lossy limit ops c outs events env rounds :
  Forall (op_ok lossy) ops ->
  run ryu_format_finite f64_display (consumer_new (mkReceiver lossy [] false) limit) ops = Some (c, outs, events) ->
  cn_out c = OutNone ->
  exists c1 o1 h1 c2 o2 h2 r,
    run ryu_format_finite f64_display c [OpDrain true env; OpDrainCommit] = Some (c1, o1, h1)
    /\ run ryu_format_finite f64_display c (OpDrain true env :: retries rounds ++ [OpDrainCommit]) = Some (c2, o2, h2)
    /\ last o1 = Some (GotDeliveries r) /\ last o2 = Some (GotDeliveries r).
Proof.
  intros Hops Hr Ho. destruct (run_good ryu_format_finite f64_display ops (consumer_new (mkReceiver lossy [] false) limit))
    as (c' & outs' & events' & _ & Hr' & _ & _ & _ & Hc & _); [apply consumer_new_ok|done|].
  rewrite Hr in Hr'. injection Hr' as <- <- <-.
  destruct (prepare_drained _ _ env c Hc Ho) as (c1 & t & cleanup & Hst & Hp & Hlim & _).
  destruct (retries_prepared _ _ rounds _ _ _ _ Hp) as (c2 & t2 & outs2 & h2 & Hr2 & Hp2 & Hlim2).
  destruct Hp as (_ & Ho1 & _ & _ & _ & Hd1), Hp2 as (_ & Ho2 & _ & _ & _ & Hd2). rewrite Hlim2 in Hd2.
  pose proof (drained_commit _ _ _ _ _ _ _ Hd1 Hd2) as Heq.
  eexists _, _, _, _, _, _, (transaction_commit t). cbn [run]. rewrite Hst, consumer_run_app, Hr2. cbn [run].
  assert (step ryu_format_finite f64_display c1 OpDrainCommit
    = Steps (with_out c1 (cn_pending c1) OutNone) (GotDeliveries (transaction_commit t))) as ->
    by (cbn [step]; by rewrite Ho1).
  assert (step ryu_format_finite f64_display c2 OpDrainCommit
    = Steps (with_out c2 (cn_pending c2) OutNone) (GotDeliveries (transaction_commit t))) as ->
    by (cbn [step]; by rewrite Ho2, Heq).
  split_and!; [done|done|done|]. by rewrite app_comm_cons, last_snoc.
Qed.

Definition sample_update (layout : FieldLayout) (at_us : Z) : SubscriptionUpdate :=
  mkUpdate at_us 0 "IBM US Equity" layout [mkField 0 (VI32 at_us)].

Definition sample_layouts (k : FieldKind) : FieldLayout := mkLayout 1 [mkMeta "BID" 0 k false].

(** Two layouts, an error at the end, a dropped lease, a plain read that is restored and a drain. *)
Definition sample_ops : list ConsumerOp :=
  let u k n := EvUpdate (sample_update (sample_layouts k) (Z.of_nat n)) None in
  [OpReady [u KI32 1; u KI32 2; u KI64 3; EvError Timeout] false; OpNext 8; OpDrop; OpNext 1; OpCommit;
   OpRead 8; OpReadRestore; OpNext 8; OpPrepareSuccess; OpAckCommit].

Definition sample_env : CloseEnv := mkCloseEnv (Some ChannelClosed) false None false.

(** The same, then a close without drain, dropped and committed on the second attempt. *)
Definition discard_ops : list ConsumerOp :=
  sample_ops ++ [OpDrain false sample_env; OpDrop; OpDrain false sample_env; OpDrainCommit].


(** An update was pending, and the error in the receiver when it was closed. *)
Example discard_ops_lost :
  concat (discards (fun _ => "") (fun _ => "") (consumer_new (mkReceiver false [] false) 4) discard_ops)
  = [EvUpdate (sample_update (sample_layouts KI64) 3) None; EvError Timeout].
Proof. vm_compute. reflexivity. Qed.

Example sample_ops_left :
  match run (fun _ => "") (fun _ => "") (consumer_new (mkReceiver false [] false) 4) sample_ops with
  | Some (c, outs, events) => length events = 3 /\ length (cn_pending c) = 1 /\ cn_out c = OutNone
      /\ length (List.filter (fun o => match o with GotDelivery _ => true | _ => false end) outs) = 2
  | None => False
  end.
Proof. vm_compute. auto. Qed.

Lemma drain_retry_same_witness :
  match run (fun _ => "") (fun _ => "") (consumer_new (mkReceiver false [] false) 4) sample_ops with
  | Some (c, _, _) =>
      exists c1 o1 h1 c2 o2 h2 r,
        run (fun _ => "") (fun _ => "") c [OpDrain true sample_env; OpDrainCommit] = Some (c1, o1, h1)
        /\ run (fun _ => "") (fun _ => "") c
             (OpDrain true sample_env :: retries [(false, sample_env); (true, sample_env)] ++ [OpDrainCommit])
           = Some (c2, o2, h2)
        /\ last o1 = Some (GotDeliveries r) /\ last o2 = Some (GotDeliveries r)
  | None => False
  end.
Proof.
  pose proof (drain_retry_same (fun _ => "") (fun _ => "") false 4 sample_ops) as H.
  pose proof sample_ops_left as Hl.
  destruct (run (fun _ => "") (fun _ => "") (consumer_new (mkReceiver false [] false) 4) sample_ops) as [[[c outs] events]|]; [|done].
  apply (H c outs events); [repeat constructor|done|]. by destruct Hl as (_ & _ & Ho & _).
Defined.
