(* ===== verification/Diagnostics.v ===== *)
(** * Field exceptions

    Models [crates/xbbg-async/src/diagnostics.rs]: the dictionary of field
    exceptions that travels in the metadata of a result.  Payloads are interned in
    an [IndexSet] (the list [entries], without duplicates); a security has the list
    of the indices of its exceptions, in order and with repetitions.  What a
    dictionary means is its [view], the exceptions of each security: recording,
    merging and encoding are proved against it.

    [serde_json] is the class [ExceptionsJson]: what the text of an envelope or of a
    historical map parses to.  [None] is a panic (an index out of range). *)

From Stdlib Require Import Ascii String ZArith Lia Sorting.
From stdpp Require Import sorting pretty.
From S2P Require Import Prelude Errors.
Local Open Scope string_scope.

(** ** Data *)

Record FieldExceptionMeta : Type := mkException {
  fe_field : string;
  fe_category : string;
  fe_code : Z;
  fe_subcategory : string;
  fe_message : string
}.

#[export] Instance FieldExceptionMeta_eq_dec : EqDecision FieldExceptionMeta.
Proof. solve_decision. Defined.

(** A borrowed exception. *)
Record FieldExceptionRef : Type := mkExceptionRef {
  fr_field : string;
  fr_category : string;
  fr_code : Z;
  fr_subcategory : string;
  fr_message : string
}.

Definition equivalent (r : FieldExceptionRef) (m : FieldExceptionMeta) : bool :=
  bool_decide (fr_field r = fe_field m) && bool_decide (fr_category r = fe_category m)
  && bool_decide (fr_code r = fe_code m) && bool_decide (fr_subcategory r = fe_subcategory m)
  && bool_decide (fr_message r = fe_message m).

Definition to_owned (r : FieldExceptionRef) : FieldExceptionMeta :=
  mkException (fr_field r) (fr_category r) (fr_code r) (fr_subcategory r) (fr_message r).

Record FieldExceptions : Type := mkExceptions {
  entries : list FieldExceptionMeta;
  securities : gmap string (list nat)
}.

Definition exceptions_default : FieldExceptions := mkExceptions [] ∅.

(** ** Interning *)

(** [IndexSet::insert_full]: the index of the element, and the set with it. *)
Definition insert_full (s : list FieldExceptionMeta) (x : FieldExceptionMeta)
  : nat * list FieldExceptionMeta :=
  match list_find (eq x) s with
  | Some (i, _) => (i, s)
  | None => (length s, (s ++ [x])%list)
  end.

Definition get_index_of (s : list FieldExceptionMeta) (r : FieldExceptionRef) : option nat :=
  fst <$> list_find (fun m => equivalent r m = true) s.

(** [.into_iter().map(|entry| entries.insert_full(entry).0).collect()] *)
Fixpoint insert_all (s l : list FieldExceptionMeta) : list nat * list FieldExceptionMeta :=
  match l with
  | [] => ([], s)
  | x :: l =>
      let '(i, s) := insert_full s x in
      let '(is_, s) := insert_all s l in (i :: is_, s)
  end.

Definition record_index (d : FieldExceptions) (ticker : string) (index : nat) : FieldExceptions :=
  match securities d !! ticker with
  | Some indices => mkExceptions (entries d) (<[ticker := (indices ++ [index])%list]> (securities d))
  | None => mkExceptions (entries d) (<[ticker := [index]]> (securities d))
  end.

Definition record (d : FieldExceptions) (ticker : string) (x : FieldExceptionMeta)
  : FieldExceptions :=
  let '(i, es) := insert_full (entries d) x in
  record_index (mkExceptions es (securities d)) ticker i.

Definition record_ref (d : FieldExceptions) (ticker : string) (r : FieldExceptionRef)
  : FieldExceptions :=
  match get_index_of (entries d) r with
  | Some i => record_index d ticker i
  | None =>
      let '(i, es) := insert_full (entries d) (to_owned r) in
      record_index (mkExceptions es (securities d)) ticker i
  end.

Definition exceptions_is_empty (d : FieldExceptions) : bool := bool_decide (securities d = ∅).

(** ** Merging *)

(** The pairs of a [BTreeMap] in the order of its keys. *)
Definition btree_pairs {V} (m : gmap string V) : list (string * V) :=
  omap (fun k => pair k <$> m !! k) (sort_unstable (map_to_list m).*1).

(** [self.securities.entry(security).or_default().extend(remapped)] per security *)
Fixpoint extend_securities (remap : list nat) (l : list (string * list nat))
  (m : gmap string (list nat)) : option (gmap string (list nat)) :=
  match l with
  | [] => Some m
  | (security, indices) :: l =>
      js ← mapM (fun i => remap !! i) indices;
      extend_securities remap l (<[security := (default [] (m !! security) ++ js)%list]> m)
  end.

Definition extend (d other : FieldExceptions) : option FieldExceptions :=
  if exceptions_is_empty d then Some other
  else
    let '(remap, es) := insert_all (entries d) (entries other) in
    secs ← extend_securities remap (btree_pairs (securities other)) (securities d);
    Some (mkExceptions es secs).

(** ** Reading *)

Definition for_security (d : FieldExceptions) (ticker : string)
  : option (list FieldExceptionMeta) :=
  mapM (fun i => entries d !! i) (default [] (securities d !! ticker)).

(** [collect] into a map of a fallible image of each value. *)
Definition map_values {A B} (f : string -> A -> option B) (m : gmap string A)
  : option (gmap string B) :=
  list_to_map <$> mapM (fun kv => pair kv.1 <$> f kv.1 kv.2) (map_to_list m).

Definition expanded (d : FieldExceptions) : option (gmap string (list FieldExceptionMeta)) :=
  map_values (fun security _ => for_security d security) (securities d).

(** ** Encoding *)

Record Envelope : Type := mkEnvelope {
  env_version : Z;
  env_entries : list FieldExceptionMeta;
  env_securities : gmap string (list nat)
}.

Inductive Encoded : Type :=
| Compact (e : Envelope)
| Legacy (securities : gmap string (list FieldExceptionMeta)).

(** The members of an object that identify an envelope; the version is whether it
    equals 1, and its text. *)
Record EnvelopeMembers : Type := mkMembers {
  em_version : option (bool * string);
  em_entries : bool;
  em_securities : bool
}.

Class ExceptionsJson := {
  encode_envelope : Envelope -> string;
  decode_encoded : string -> result Encoded string;
  decode_envelope : string -> result Envelope string;
  decode_members : string -> option EnvelopeMembers
}.

(** Untagged decoding tries the envelope first. *)
Class ExceptionsJsonLaws `{ExceptionsJson} := {
  decode_encode_envelope e : decode_encoded (encode_envelope e) = Ok (Compact e)
}.

(** The derived order: the members in their order of declaration. *)
Definition lex (c d : comparison) : comparison := match c with Eq => d | c => c end.

Definition meta_cmp (a b : FieldExceptionMeta) : comparison :=
  lex (String.compare (fe_field a) (fe_field b))
    (lex (String.compare (fe_category a) (fe_category b))
       (lex (Z.compare (fe_code a) (fe_code b))
          (lex (String.compare (fe_subcategory a) (fe_subcategory b))
             (String.compare (fe_message a) (fe_message b))))).

Definition meta_le (a b : FieldExceptionMeta) : Prop := meta_cmp a b <> Gt.
#[export] Instance meta_le_dec : RelDecision meta_le.
Proof. intros a b. unfold meta_le. apply _. Defined.

(** [self.entries[left].cmp(&self.entries[right])]; the sorted indices are in range. *)
Definition index_le (es : list FieldExceptionMeta) (i j : nat) : Prop :=
  match es !! i, es !! j with
  | Some a, Some b => meta_le a b
  | Some _, None => False
  | None, _ => True
  end.
#[export] Instance index_le_dec es : RelDecision (index_le es).
Proof. intros i j. unfold index_le. destruct (es !! i), (es !! j); apply _. Defined.

(** Distinct entries compare unequal, so an unstable sort is the stable one. *)
Definition canonical_order (es : list FieldExceptionMeta) : list nat :=
  merge_sort (index_le es) (seq 0 (length es)).

Definition canonical_remap (order : list nat) : list nat :=
  fold_left (fun remap co => <[co.2 := co.1]> remap) (imap pair order) (replicate (length order) 0).

Section Json.
Context `{ExceptionsJson}.

Definition invalid {A} (message : string) : result A string := Err message.

Definition unsupported_version (version : string) : string :=
  "unsupported field-exception metadata version " ++ version.

Definition explain_rejection (raw error : string) : string :=
  match decode_members raw with
  | None => error
  | Some members =>
      let envelope_like :=
        match em_version members with
        | Some _ => em_entries members || em_securities members
        | None => em_entries members && em_securities members
        end in
      if negb envelope_like then error
      else
        match em_version members with
        | Some (false, version) => unsupported_version version
        | _ =>
            match decode_envelope raw with
            | Err envelope_error =>
                "malformed field-exception dictionary envelope: " ++ envelope_error
            | Ok _ => error
            end
        end
  end.

Fixpoint insert_legacy (d : FieldExceptions) (l : list (string * list FieldExceptionMeta))
  : FieldExceptions :=
  match l with
  | [] => d
  | (security, exceptions) :: l =>
      let '(indices, es) := insert_all (entries d) exceptions in
      insert_legacy (mkExceptions es (<[security := indices]> (securities d))) l
  end.

Definition from_json (raw : string) : option (result FieldExceptions string) :=
  match decode_encoded raw with
  | Err error => Some (Err (explain_rejection raw error))
  | Ok (Compact envelope) =>
      if negb (env_version envelope =? 1)%Z then
        Some (Err (unsupported_version (pretty (env_version envelope))))
      else if existsb (fun index => length (env_entries envelope) <=? index)%nat
                (concat (map_to_list (env_securities envelope)).*2)
      then Some (invalid "field-exception dictionary index out of range")
      else
        let '(remap, es) := insert_all [] (env_entries envelope) in
        secs ← map_values (fun _ => mapM (fun i => remap !! i)) (env_securities envelope);
        Some (Ok (mkExceptions es secs))
  | Ok (Legacy secs) =>
      if bool_decide (is_Some (secs !! "entries")) && bool_decide (is_Some (secs !! "securities"))
      then Some (invalid "malformed field-exception dictionary envelope: missing field `version`")
      else Some (Ok (insert_legacy exceptions_default (btree_pairs secs)))
  end.

Definition to_json (d : FieldExceptions) : option string :=
  let order := canonical_order (entries d) in
  let remap := canonical_remap order in
  es ← mapM (fun i => entries d !! i) order;
  secs ← map_values (fun _ => mapM (fun i => remap !! i)) (securities d);
  Some (encode_envelope (mkEnvelope 1 es secs)).
End Json.

Local Close Scope string_scope.

(** ** The meaning of a dictionary *)

(** The exceptions of each security, in order. *)
Definition payloads (es : list FieldExceptionMeta) (is_ : list nat) : list FieldExceptionMeta :=
  omap (fun i => es !! i) is_.

Definition view (d : FieldExceptions) : gmap string (list FieldExceptionMeta) :=
  payloads (entries d) <$> securities d.

(** Every index refers to an entry, and payloads are interned once. *)
Definition wf (d : FieldExceptions) : Prop :=
  NoDup (entries d)
  /\ map_Forall (fun _ is_ => Forall (fun i => i < length (entries d)) is_) (securities d).

(** Appending the exceptions of [n] to those of [m]. *)
Definition append_views (m n : gmap string (list FieldExceptionMeta))
  : gmap string (list FieldExceptionMeta) := union_with (fun a b => Some (a ++ b)) m n.

(** ** Interning *)

Lemma insert_full_spec s x :
  NoDup s ->
  exists s', (insert_full s x).2 = s' /\ NoDup s' /\ s `prefix_of` s'
    /\ s' !! (insert_full s x).1 = Some x /\ (forall y, y ∈ s' <-> y ∈ s \/ y = x).
Proof.
  intros Hs. unfold insert_full. destruct (list_find (eq x) s) as [[i y]|] eqn:Hf; simpl; eexists;
    (split; [done|]).
  - apply list_find_Some in Hf as (Hi & <- & _). repeat split; try done.
    + by left.
    + intros [?| ->]; [done|]. by eapply list_elem_of_lookup_2.
  - apply list_find_None in Hf. rewrite Forall_forall in Hf. repeat split.
    + apply NoDup_app. repeat split; [done| |apply NoDup_singleton].
      intros y Hy ->%list_elem_of_singleton. by apply (Hf x).
    + by eexists.
    + by rewrite lookup_app_r, Nat.sub_diag by lia.
    + intros Hy. apply elem_of_app in Hy as [?| ->%list_elem_of_singleton]; auto.
    + intros [?| ->]; apply elem_of_app; [by left|right; by apply list_elem_of_singleton].
Qed.

Lemma insert_all_spec s l :
  NoDup s ->
  exists s', (insert_all s l).2 = s' /\ NoDup s' /\ s `prefix_of` s'
    /\ Forall2 (fun i x => s' !! i = Some x) (insert_all s l).1 l
    /\ (forall y, y ∈ s' <-> y ∈ s \/ y ∈ l).
Proof.
  revert s. induction l as [|x l IH]; intros s Hs; simpl.
  { exists s. repeat split; try done; set_solver. }
  destruct (insert_full_spec s x Hs) as (s1 & E1 & H1 & Hp1 & Hi1 & Hm1).
  destruct (insert_full s x) as [i ?]. simpl in *. subst.
  destruct (IH s1 H1) as (s2 & E2 & H2 & Hp2 & Hi2 & Hm2).
  destruct (insert_all s1 l) as [is_ ?]. simpl in *. subst. exists s2.
  repeat split; [done|by etrans| |set_solver..].
  constructor; [|done]. by eapply prefix_lookup_Some.
Qed.

Lemma insert_all_nodup l : NoDup l -> (insert_all [] l).2 = l.
Proof.
  assert (forall s, NoDup (s ++ l) -> (insert_all s l).2 = s ++ l) as Hg; [|by apply (Hg [])].
  induction l as [|x l IH]; intros s Hs; simpl; [by rewrite app_nil_r|].
  unfold insert_full. replace (list_find (eq x) s) with (@None (nat * FieldExceptionMeta)).
  - specialize (IH (s ++ [x])). destruct (insert_all (s ++ [x]) l) as [is_ ?] eqn:E. simpl in *.
    rewrite <- app_assoc in IH. by apply IH.
  - symmetry. apply list_find_None, Forall_forall. intros y Hy ->.
    apply NoDup_app in Hs as (_ & Hs & _). apply (Hs y Hy). left.
Qed.

Lemma get_index_of_spec s r :
  get_index_of s r = fst <$> list_find (eq (to_owned r)) s.
Proof.
  unfold get_index_of. f_equal. apply list_find_ext. intros [f c n sc m].
  unfold equivalent, to_owned. simpl. rewrite !andb_true_iff, !bool_decide_eq_true.
  split; [intros [[[[-> ->] ->] ->] ->]; done|intros [= -> -> -> -> ->]; done].
Qed.

(** Borrowed exceptions are recorded as owned ones. *)
Lemma record_ref_owned d t r : record_ref d t r = record d t (to_owned r).
Proof.
  unfold record_ref, record, insert_full. rewrite get_index_of_spec.
  destruct (list_find (eq (to_owned r)) (entries d)) as [[i y]|]; [|done].
  simpl. by destruct d.
Qed.

(** ** Views *)

Lemma payloads_app es is_ js : payloads es (is_ ++ js) = payloads es is_ ++ payloads es js.
Proof. apply omap_app. Qed.

Lemma payloads_cons es i is_ x : es !! i = Some x -> payloads es (i :: is_) = x :: payloads es is_.
Proof. intros Hi. unfold payloads. simpl. by rewrite Hi. Qed.

Lemma in_range_prefix (s s' : list FieldExceptionMeta) is_ :
  s `prefix_of` s' -> Forall (fun i => i < length s) is_ ->
  payloads s' is_ = payloads s is_
  /\ Forall (fun i => i < length s') is_.
Proof.
  intros Hp Hi. split.
  - induction Hi as [|i is_ Hi _ IH]; [done|].
    destruct (lookup_lt_is_Some_2 s i Hi) as [x Hx].
    rewrite (payloads_cons _ _ _ _ Hx), <- IH. by apply payloads_cons, (prefix_lookup_Some s).
  - eapply Forall_impl; [exact Hi|]. simpl. intros i ?. apply prefix_length in Hp. lia.
Qed.

(** Growing the dictionary changes no security. *)
Lemma wf_prefix d es :
  wf d -> NoDup es -> entries d `prefix_of` es ->
  wf (mkExceptions es (securities d)) /\ view (mkExceptions es (securities d)) = view d.
Proof.
  intros [_ Hw] Hn Hp. split; [split; [done|]|].
  - intros k is_ Hk. by eapply in_range_prefix, Hw.
  - apply map_fmap_ext. intros k is_ Hk. by eapply in_range_prefix, Hw.
Qed.

(** A list of indices resolved entry by entry. *)
Lemma resolved_omap (s : list FieldExceptionMeta) is_ xs :
  Forall2 (fun i x => s !! i = Some x) is_ xs ->
  payloads s is_ = xs /\ Forall (fun i => i < length s) is_
  /\ mapM (fun i => s !! i) is_ = Some xs.
Proof.
  induction 1 as [|i x is_ xs Hi _ (IH1 & IH2 & IH3)]; [done|].
  rewrite (payloads_cons _ _ _ _ Hi), IH1. simpl. rewrite Hi, IH3.
  repeat split. constructor; [|done]. by eapply lookup_lt_Some.
Qed.

Lemma in_range_resolved (s : list FieldExceptionMeta) is_ :
  Forall (fun i => i < length s) is_ -> exists xs, Forall2 (fun i x => s !! i = Some x) is_ xs.
Proof.
  induction 1 as [|i is_ Hi _ (xs & IH)]; [by exists []|].
  destruct (lookup_lt_is_Some_2 s i Hi) as [x Hx]. exists (x :: xs). by constructor.
Qed.

(** Appending resolved indices to a security. *)
Lemma append_indices d t is_ xs :
  wf d -> Forall2 (fun i x => entries d !! i = Some x) is_ xs ->
  let d' := mkExceptions (entries d)
              (<[t := default [] (securities d !! t) ++ is_]> (securities d)) in
  wf d' /\ view d' = <[t := default [] (view d !! t) ++ xs]> (view d).
Proof.
  intros [Hn Hw] Hr. destruct (resolved_omap _ _ _ Hr) as (Ho & Hf & _). simpl. split.
  - split; [done|]. simpl. apply map_Forall_insert_2; [|done]. apply Forall_app. split; [|done].
    destruct (securities d !! t) as [old|] eqn:Ht; simpl; [by apply (Hw t)|constructor].
  - unfold view. simpl. rewrite fmap_insert, lookup_fmap, payloads_app, Ho. f_equal.
    by destruct (securities d !! t).
Qed.

Lemma record_spec d t x :
  wf d -> wf (record d t x) /\ view (record d t x) = <[t := default [] (view d !! t) ++ [x]]> (view d).
Proof.
  intros Hw. unfold record.
  destruct (insert_full_spec (entries d) x (proj1 Hw)) as (es & E & Hn & Hp & Hi & _).
  destruct (insert_full (entries d) x) as [i ?]. simpl in *. subst.
  destruct (wf_prefix d es Hw Hn Hp) as [Hw' <-].
  destruct (append_indices (mkExceptions es (securities d)) t [i] [x] Hw') as [H1 H2]; [by repeat constructor|].
  rewrite <- H2. unfold record_index. simpl in *. by destruct (securities d !! t).
Qed.

(** ** Merging *)

Lemma btree_pairs_perm {V} (m : gmap string V) : btree_pairs m ≡ₚ map_to_list m.
Proof.
  unfold btree_pairs, sort_unstable. rewrite (merge_sort_Permutation String.le (map_to_list m).*1).
  assert (forall l : list (string * V), (forall k v, (k, v) ∈ l -> m !! k = Some v) ->
            omap (fun k => pair k <$> m !! k) l.*1 = l) as Hl.
  { induction l as [|[k v] l IH]; intros Hm; [done|]. simpl.
    rewrite (Hm k v) by left. simpl. f_equal. apply IH. intros j w Hj. apply Hm. by right. }
  rewrite Hl; [done|]. intros k v. apply elem_of_map_to_list.
Qed.

Lemma append_views_fold v l :
  NoDup l.*1 ->
  fold_left (fun v kv => <[kv.1 := default [] (v !! kv.1) ++ kv.2]> v) l v
  = append_views v (list_to_map l).
Proof.
  revert v. induction l as [|[k x] l IH]; intros v Hn.
  { simpl. unfold append_views. apply map_eq. intros k. rewrite lookup_union_with, lookup_empty.
    by destruct (v !! k). }
  apply NoDup_cons in Hn as [Hk Hn]. cbn [fold_left fst snd]. rewrite IH by done.
  apply map_eq. intros j. unfold append_views. rewrite !lookup_union_with. simpl.
  destruct (decide (j = k)) as [->|Hj].
  - simpl in Hk. apply not_elem_of_list_to_map in Hk. rewrite Hk, !lookup_insert_eq. by destruct (v !! k).
  - by rewrite !lookup_insert_ne.
Qed.

(** Remapped indices denote what the originals did. *)
Lemma remapped_resolve (eo es : list FieldExceptionMeta) remap is_ :
  Forall2 (fun j x => es !! j = Some x) remap eo -> Forall (fun i => i < length eo) is_ ->
  exists js, mapM (fun i => remap !! i) is_ = Some js
    /\ Forall2 (fun j x => es !! j = Some x) js (payloads eo is_).
Proof.
  intros Hr. induction 1 as [|i is_ Hi _ (js & E & IH)]; [by exists []|].
  destruct (lookup_lt_is_Some_2 eo i Hi) as [x Hx].
  destruct (Forall2_lookup_r _ _ _ _ _ Hr Hx) as (j & Hj & Hjx). exists (j :: js).
  rewrite (payloads_cons _ _ _ _ Hx). split; [|by constructor]. simpl. by rewrite Hj, E.
Qed.

Lemma extend_securities_spec eo es remap l m :
  Forall2 (fun j x => es !! j = Some x) remap eo ->
  Forall (fun kv => Forall (fun i => i < length eo) kv.2) l -> wf (mkExceptions es m) ->
  exists m', extend_securities remap l m = Some m' /\ wf (mkExceptions es m')
    /\ view (mkExceptions es m')
       = fold_left (fun v kv => <[kv.1 := default [] (v !! kv.1) ++ kv.2]> v)
           (prod_map id (payloads eo) <$> l) (view (mkExceptions es m)).
Proof.
  intros Hr Hl. revert m. induction Hl as [|[k is_] l Hk _ IH]; intros m Hw; [by exists m|].
  destruct (remapped_resolve eo es remap is_ Hr Hk) as (js & E & Hjs).
  destruct (append_indices (mkExceptions es m) k js _ Hw Hjs) as [Hw' Hv].
  simpl in Hw', Hv.
  destruct (IH _ Hw') as (m' & E' & Hm' & Hv'). exists m'. simpl. rewrite E. simpl.
  split; [done|]. split; [done|]. by rewrite Hv', Hv.
Qed.

Lemma view_pairs d : prod_map id (payloads (entries d)) <$> btree_pairs (securities d) ≡ₚ map_to_list (view d).
Proof. rewrite btree_pairs_perm. unfold view. by rewrite map_to_list_fmap. Qed.

Lemma extend_spec d o :
  wf d -> wf o ->
  exists d', extend d o = Some d' /\ wf d' /\ view d' = append_views (view d) (view o).
Proof.
  intros Hd Ho. unfold extend, exceptions_is_empty. case_bool_decide as He.
  { exists o. repeat split; [apply Ho..|]. unfold append_views, view. rewrite He, fmap_empty.
    apply map_eq. intros k. rewrite lookup_union_with, lookup_empty. by destruct (_ !! k). }
  destruct (insert_all_spec (entries d) (entries o) (proj1 Hd)) as (es & E & Hn & Hp & Hr & _).
  destruct (insert_all (entries d) (entries o)) as [remap ?]. simpl in *. subst.
  destruct (wf_prefix d es Hd Hn Hp) as [Hw Hv].
  destruct (extend_securities_spec (entries o) es remap (btree_pairs (securities o)) (securities d))
    as (m' & Em & Hm' & Hvm); [done| |done|].
  { apply Forall_forall. intros [k is_] Hk. rewrite btree_pairs_perm in Hk.
    apply elem_of_map_to_list in Hk. by apply (proj2 Ho k). }
  rewrite Em. eexists. split; [done|]. split; [done|]. rewrite Hvm, Hv, append_views_fold.
  - f_equal. rewrite <- (list_to_map_to_list (view o)). symmetry.
    apply list_to_map_proper; [apply NoDup_fst_map_to_list|]. by rewrite view_pairs.
  - rewrite view_pairs. apply NoDup_fst_map_to_list.
Qed.

(** ** Reading *)

Lemma map_values_total {A B} (f : string -> A -> option B) (g : A -> B) (m : gmap string A) :
  (forall k x, m !! k = Some x -> f k x = Some (g x)) -> map_values f m = Some (g <$> m).
Proof.
  intros Hf. unfold map_values.
  replace (mapM _ _) with (Some (prod_map id g <$> map_to_list m)).
  - simpl. by rewrite list_to_map_fmap, list_to_map_to_list.
  - symmetry. apply mapM_Some, Forall2_fmap_r, Forall_Forall2_diag, Forall_forall.
    intros [k x] Hk%elem_of_map_to_list. simpl. by rewrite (Hf k x).
Qed.

Lemma expanded_view d : wf d -> expanded d = Some (view d).
Proof.
  intros [_ Hw]. apply map_values_total. intros k is_ Hk. unfold for_security. rewrite Hk. simpl.
  destruct (in_range_resolved (entries d) is_ (Hw k is_ Hk)) as [xs Hx].
  by destruct (resolved_omap _ _ _ Hx) as (-> & _ & ->).
Qed.

(** ** The derived order *)

(** Comparison functions that decide a strict total order. *)
Record CmpLaws {A} (c : A -> A -> comparison) : Prop := mkCmpLaws {
  cmp_eq x y : c x y = Eq <-> x = y;
  cmp_opp x y : c y x = CompOpp (c x y);
  cmp_lt_trans x y z : c x y = Lt -> c y z = Lt -> c x z = Lt
}.

Lemma string_cmp : CmpLaws String.compare.
Proof.
  assert (forall x y, String.le x y <-> String.compare x y <> Gt) as Hle.
  { intros x y. unfold String.le, String.leb. by destruct (String.compare x y). }
  constructor; [|intros; by rewrite String.compare_antisym|].
  { intros x y. split; [by apply String.compare_eq_iff|]. intros <-.
    pose proof (String.compare_antisym x x) as Ha. by destruct (String.compare x x). }
  intros x y z Hxy Hyz. destruct (String.compare x z) eqn:E; [|done|].
  - apply String.compare_eq_iff in E as ->. rewrite String.compare_antisym, Hyz in Hxy. done.
  - exfalso. assert (String.le x z) as Hxz; [|by apply Hle in Hxz].
    transitivity y; apply Hle; congruence.
Qed.

Lemma Z_cmp : CmpLaws Z.compare.
Proof.
  constructor; [apply Z.compare_eq_iff|apply Z.compare_antisym|apply Z.lt_trans].
Qed.

Lemma lex_cmp {A B} (c : A -> A -> comparison) (d : B -> B -> comparison) :
  CmpLaws c -> CmpLaws d ->
  CmpLaws (fun x y : A * B => lex (c x.1 y.1) (d x.2 y.2)).
Proof.
  intros Hc Hd. constructor.
  - intros [x x'] [y y']. simpl. split; [|by intros [= -> ->]; rewrite (proj2 (cmp_eq c Hc y y) eq_refl); apply (cmp_eq d Hd)].
    destruct (c x y) eqn:E; try discriminate. simpl.
    intros Hxy. by rewrite (proj1 (cmp_eq c Hc _ _) E), (proj1 (cmp_eq d Hd _ _) Hxy).
  - intros [x x'] [y y']. simpl. rewrite (cmp_opp c Hc x y), (cmp_opp d Hd x' y').
    by destruct (c x y).
  - intros [x x'] [y y'] [z z']. simpl.
    destruct (c x y) eqn:E1, (c y z) eqn:E2; simpl; try discriminate; intros H1 H2.
    + apply (cmp_eq c Hc) in E1 as ->. rewrite E2. simpl. by eapply (cmp_lt_trans d Hd).
    + apply (cmp_eq c Hc) in E1 as ->. by rewrite E2.
    + apply (cmp_eq c Hc) in E2 as <-. by rewrite E1.
    + by rewrite (cmp_lt_trans c Hc _ _ _ E1 E2).
Qed.

Definition meta_key (m : FieldExceptionMeta) : string * (string * (Z * (string * string))) :=
  (fe_field m, (fe_category m, (fe_code m, (fe_subcategory m, fe_message m)))).

Lemma meta_cmp_laws : CmpLaws meta_cmp.
Proof.
  pose proof (lex_cmp _ _ string_cmp (lex_cmp _ _ string_cmp (lex_cmp _ _ Z_cmp
    (lex_cmp _ _ string_cmp string_cmp)))) as [He Ho Ht].
  constructor.
  - intros a b. etrans; [apply (He (meta_key a) (meta_key b))|].
    split; [|by intros ->]. destruct a, b. by intros [= -> -> -> -> ->].
  - intros a b. apply (Ho (meta_key a) (meta_key b)).
  - intros a b c. apply (Ht (meta_key a) (meta_key b) (meta_key c)).
Qed.

#[export] Instance meta_le_total : Total meta_le.
Proof.
  intros a b. unfold meta_le. rewrite (cmp_opp _ meta_cmp_laws a b).
  destruct (meta_cmp a b); simpl; auto.
Qed.

#[export] Instance meta_le_trans : Transitive meta_le.
Proof.
  intros a b c. unfold meta_le. intros H1 H2.
  destruct (meta_cmp a b) eqn:E1; [apply (cmp_eq _ meta_cmp_laws) in E1 as ->; done| |done].
  destruct (meta_cmp b c) eqn:E2; [apply (cmp_eq _ meta_cmp_laws) in E2 as <-; by rewrite E1| |done].
  by rewrite (cmp_lt_trans _ meta_cmp_laws _ _ _ E1 E2).
Qed.

#[export] Instance meta_le_antisymm : AntiSymm (=) meta_le.
Proof.
  intros a b. unfold meta_le. rewrite (cmp_opp _ meta_cmp_laws a b).
  destruct (meta_cmp a b) eqn:E; simpl; try done. by apply (cmp_eq _ meta_cmp_laws) in E.
Qed.

#[export] Instance index_le_total es : Total (index_le es).
Proof.
  intros i j. unfold index_le. destruct (es !! i), (es !! j); auto. apply meta_le_total.
Qed.

#[export] Instance index_le_trans es : Transitive (index_le es).
Proof.
  intros i j k. unfold index_le. destruct (es !! i), (es !! j), (es !! k); try done.
  apply meta_le_trans.
Qed.

(** ** The canonical encoding *)

Lemma payloads_seq es : payloads es (seq 0 (length es)) = es.
Proof.
  induction es as [|x es IH] using rev_ind; [done|].
  rewrite length_app, Nat.add_1_r, seq_S, payloads_app, Nat.add_0_l.
  rewrite (payloads_cons (es ++ [x]) (length es) [] x) by by rewrite lookup_app_r, Nat.sub_diag by lia.
  change (payloads (es ++ [x]) []) with (@nil FieldExceptionMeta).
  f_equal. etrans; [|exact IH]. apply in_range_prefix; [by eexists|].
  apply Forall_forall. intros i Hi%elem_of_seq. lia.
Qed.

(** The order of the indices sorts the entries. *)
Lemma canonical_order_sorts es :
  Forall2 (fun i x => es !! i = Some x) (canonical_order es) (merge_sort meta_le es)
  /\ canonical_order es ≡ₚ seq 0 (length es).
Proof.
  unfold canonical_order.
  pose proof (merge_sort_Permutation (index_le es) (seq 0 (length es))) as Hp. split; [|done].
  assert (Forall (fun i => i < length es) (merge_sort (index_le es) (seq 0 (length es)))) as Hr.
  { rewrite Hp. apply Forall_forall. intros i Hi%elem_of_seq. lia. }
  destruct (in_range_resolved es _ Hr) as [xs Hx]. replace (merge_sort meta_le es) with xs; [done|].
  apply (StronglySorted_unique meta_le).
  - pose proof (StronglySorted_merge_sort (index_le es) (seq 0 (length es))) as Hs.
    clear Hp Hr. induction Hx as [|i x is_ xs Hi Hx IH]; [constructor|].
    apply StronglySorted_inv in Hs as [Hs Hh]. constructor; [by apply IH|]. clear IH Hs.
    induction Hx as [|j y is_ xs Hj _ IH]; [constructor|].
    apply Forall_cons in Hh as [H1 Hh]. constructor; [|by apply IH].
    unfold index_le in H1. by rewrite Hi, Hj in H1.
  - apply StronglySorted_merge_sort; apply _.
  - rewrite merge_sort_Permutation. rewrite <- (payloads_seq es).
    rewrite <- (proj1 (resolved_omap _ _ _ Hx)). unfold payloads. rewrite Hp. done.
Qed.

Lemma canonical_writes l (r : list nat) :
  NoDup l.*2 -> Forall (fun co => co.2 < length r) l ->
  length (fold_left (fun remap co => <[co.2 := co.1]> remap) l r) = length r
  /\ (forall c o, (c, o) ∈ l ->
        fold_left (fun remap co => <[co.2 := co.1]> remap) l r !! o = Some c)
  /\ (forall o, o ∉ l.*2 ->
        fold_left (fun remap co => <[co.2 := co.1]> remap) l r !! o = r !! o).
Proof.
  intros Hn Hf. revert r Hn Hf. induction l as [|[c o] l IH]; intros r Hn Hf; simpl.
  { split; [done|]. split; [|done]. by intros ? ? ?%not_elem_of_nil. }
  apply NoDup_cons in Hn as [Ho Hn]. apply Forall_cons in Hf as [Hr Hf]. simpl in *.
  destruct (IH (<[o := c]> r)) as (H1 & H2 & H3); [done|by rewrite length_insert|].
  rewrite length_insert in H1. split; [done|]. split.
  - intros c' o' [[= -> ->]|Hin]%elem_of_cons; [|by apply H2].
    rewrite H3 by done. by apply list_lookup_insert_eq.
  - intros o' Ho'. apply not_elem_of_cons in Ho' as [Hne Ho']. rewrite H3 by done.
    by apply list_lookup_insert_ne.
Qed.

(** The remapping inverts the order. *)
Lemma canonical_remap_resolves es :
  Forall2 (fun j x => merge_sort meta_le es !! j = Some x)
    (canonical_remap (canonical_order es)) es.
Proof.
  destruct (canonical_order_sorts es) as [Hs Hp]. set (order := canonical_order es) in *.
  assert ((imap pair order).*2 = order) as E2.
  { rewrite fmap_imap. etrans; [apply (imap_const id)|apply list_fmap_id]. }
  assert (length order = length es) as El by by rewrite Hp, length_seq.
  destruct (canonical_writes (imap pair order) (replicate (length order) 0)) as (H1 & H2 & _).
  - rewrite E2, Hp. apply NoDup_seq.
  - apply Forall_forall. intros [c o] Hin. apply elem_of_lookup_imap in Hin as (? & ? & [= -> ->] & Hin).
    apply list_elem_of_lookup_2 in Hin. rewrite Hp in Hin. apply elem_of_seq in Hin.
    rewrite length_replicate. simpl. lia.
  - fold (canonical_remap order) in *. rewrite length_replicate in H1.
    apply Forall2_same_length_lookup. split; [congruence|]. intros o c x Hc Hx.
    assert (o ∈ order) as Ho.
    { rewrite Hp. apply elem_of_seq. apply lookup_lt_Some in Hx. lia. }
    apply list_elem_of_lookup in Ho as [c' Hc'].
    assert (canonical_remap order !! o = Some c') as Hr.
    { apply H2. apply elem_of_lookup_imap. eauto. }
    rewrite Hr in Hc. simplify_eq. destruct (Forall2_lookup_l _ _ _ _ _ Hs Hc') as (y & Hy & Ey).
    congruence.
Qed.

(** The index of a payload. *)
Definition position (es : list FieldExceptionMeta) (x : FieldExceptionMeta) : nat :=
  default 0 (fst <$> list_find (eq x) es).

Definition positions (es xs : list FieldExceptionMeta) : list nat := position es <$> xs.

Lemma position_resolved es js xs :
  NoDup es -> Forall2 (fun j x => es !! j = Some x) js xs -> js = positions es xs.
Proof.
  intros Hn. induction 1 as [|j x js xs Hj _ ->]; [done|]. unfold positions. simpl. f_equal. unfold position.
  destruct (list_find (eq x) es) as [[i y]|] eqn:E.
  - apply list_find_Some in E as (Hi & <- & _). simpl. by eapply NoDup_lookup.
  - apply list_find_None in E. rewrite Forall_forall in E. destruct (E x); [|done].
    by eapply list_elem_of_lookup_2.
Qed.

(** What is encoded: the payloads in their order, and for each security the
    positions of its exceptions. *)
Definition canonical_envelope (es : list FieldExceptionMeta)
  (v : gmap string (list FieldExceptionMeta)) : Envelope :=
  let sorted := merge_sort meta_le es in
  mkEnvelope 1 sorted (positions sorted <$> v).

(** Remapping the securities of a dictionary onto another list of entries. *)
Lemma remap_securities eo es remap m :
  NoDup es -> Forall2 (fun j x => es !! j = Some x) remap eo ->
  map_Forall (fun _ is_ => Forall (fun i => i < length eo) is_) m ->
  exists m', map_values (fun _ => mapM (fun i => remap !! i)) m = Some m'
    /\ wf (mkExceptions es m') /\ view (mkExceptions es m') = payloads eo <$> m
    /\ m' = positions es <$> (payloads eo <$> m).
Proof.
  intros Hn Hr Hm. exists (positions es <$> (payloads eo <$> m)).
  assert (forall k is_, m !! k = Some is_ ->
            mapM (fun i => remap !! i) is_ = Some (positions es (payloads eo is_))
            /\ Forall2 (fun j x => es !! j = Some x) (positions es (payloads eo is_)) (payloads eo is_)) as Hk.
  { intros k is_ Hk. destruct (remapped_resolve eo es remap is_ Hr (Hm k is_ Hk)) as (js & -> & Hj).
    by rewrite <- (position_resolved es js (payloads eo is_) Hn Hj). }
  split; [|split; [split; [done|]|split; [|done]]].
  - rewrite <- map_fmap_compose. apply map_values_total. intros k is_ Hi. by apply (Hk k).
  - intros k js. simpl. rewrite !lookup_fmap. destruct (m !! k) as [is_|] eqn:Hi; [|done].
    intros [= <-]. by apply (resolved_omap es _ (payloads eo is_)), (Hk k).
  - unfold view. simpl. apply map_eq. intros k. rewrite !lookup_fmap.
    destruct (m !! k) as [is_|] eqn:Hi; [|done]. simpl. f_equal.
    by apply (resolved_omap es), (Hk k).
Qed.

Section Codec.
Context `{EJ : ExceptionsJson}.

Lemma to_json_canonical d :
  wf d -> to_json d = Some (encode_envelope (canonical_envelope (entries d) (view d))).
Proof.
  intros [Hn Hw]. unfold to_json.
  destruct (resolved_omap _ _ _ (proj1 (canonical_order_sorts (entries d)))) as (_ & _ & ->).
  destruct (remap_securities (entries d) (merge_sort meta_le (entries d))
              (canonical_remap (canonical_order (entries d))) (securities d)) as (m' & E & _ & _ & ->).
  - by rewrite merge_sort_Permutation.
  - apply canonical_remap_resolves.
  - done.
  - simpl. rewrite E. done.
Qed.

(** The indices of an envelope are checked before they are used. *)
Lemma range_check e :
  existsb (fun index => length (env_entries e) <=? index) (concat (map_to_list (env_securities e)).*2)
  = false <->
  map_Forall (fun _ is_ => Forall (fun i => i < length (env_entries e)) is_) (env_securities e).
Proof.
  rewrite <- not_true_iff_false, existsb_exists. split.
  - intros Hno k is_ Hk. apply Forall_forall. intros i Hi.
    destruct (decide (i < length (env_entries e))) as [|Hge]; [done|]. destruct Hno.
    exists i. split; [|by apply Nat.leb_le; lia]. apply in_concat. exists is_.
    split; [|by apply list_elem_of_In]. apply list_elem_of_In, list_elem_of_fmap. exists (k, is_).
    split; [done|]. by apply elem_of_map_to_list.
  - intros Hm (i & Hi & Hge%Nat.leb_le). apply in_concat in Hi as (is_ & Hl & Hi).
    apply list_elem_of_In, list_elem_of_fmap in Hl as ([k is'] & -> & Hk%elem_of_map_to_list).
    specialize (Hm k is' Hk). rewrite Forall_forall in Hm. apply list_elem_of_In, Hm in Hi. lia.
Qed.

Lemma from_json_compact raw e :
  decode_encoded raw = Ok (Compact e) -> env_version e = 1%Z ->
  map_Forall (fun _ is_ => Forall (fun i => i < length (env_entries e)) is_) (env_securities e) ->
  exists d, from_json raw = Some (Ok d) /\ wf d
    /\ view d = payloads (env_entries e) <$> env_securities e
    /\ (forall x, x ∈ entries d <-> x ∈ env_entries e)
    /\ (NoDup (env_entries e) -> entries d = env_entries e).
Proof.
  intros Hd Hv Hr. unfold from_json. rewrite Hd, Hv. simpl. rewrite (proj2 (range_check e) Hr).
  pose proof (insert_all_nodup (env_entries e)) as Hsame.
  destruct (insert_all_spec [] (env_entries e)) as (es & E & Hn & _ & Hres & Hm); [constructor|].
  destruct (insert_all [] (env_entries e)) as [remap ?]. simpl in *. subst.
  destruct (remap_securities (env_entries e) es remap (env_securities e)) as (m' & -> & Hw & Hview & _);
    [done..|].
  eexists. split; [done|]. split; [done|]. split; [done|]. split; [|done].
  intros x. simpl. rewrite Hm. set_solver.
Qed.

Lemma insert_legacy_spec d l :
  wf d -> NoDup l.*1 ->
  wf (insert_legacy d l) /\ view (insert_legacy d l) = list_to_map l ∪ view d.
Proof.
  revert d. induction l as [|[k xs] l IH]; intros d Hw Hn; simpl; [by rewrite (left_id_L ∅ (∪))|].
  apply NoDup_cons in Hn as [Hk Hn].
  destruct (insert_all_spec (entries d) xs (proj1 Hw)) as (es & E & Hne & Hp & Hr & _).
  destruct (insert_all (entries d) xs) as [is_ ?]. simpl in *. subst.
  destruct (wf_prefix d es Hw Hne Hp) as [[_ Hw'] Hv].
  destruct (resolved_omap _ _ _ Hr) as (Ho & Hf & _).
  assert (wf (mkExceptions es (<[k := is_]> (securities d)))) as Hw2.
  { split; [done|]. simpl. by apply map_Forall_insert_2. }
  destruct (IH _ Hw2 Hn) as [H1 ->]. split; [done|]. rewrite <- Hv. unfold view. simpl.
  rewrite fmap_insert, Ho, <- insert_union_l, insert_union_r; [done|].
  by apply not_elem_of_list_to_map.
Qed.

Lemma from_json_legacy raw m :
  decode_encoded raw = Ok (Legacy m) ->
  (m !! "entries"%string = None \/ m !! "securities"%string = None) ->
  exists d, from_json raw = Some (Ok d) /\ wf d /\ view d = m.
Proof.
  intros Hd Hm. unfold from_json. rewrite Hd.
  replace (bool_decide (is_Some (m !! "entries"%string)) && bool_decide (is_Some (m !! "securities"%string)))
    with false.
  - destruct (insert_legacy_spec exceptions_default (btree_pairs m)) as [Hw Hv].
    + split; [constructor|apply map_Forall_empty].
    + rewrite btree_pairs_perm. apply NoDup_fst_map_to_list.
    + eexists. split; [done|]. split; [done|]. rewrite Hv. unfold view. simpl.
      rewrite fmap_empty, (right_id_L ∅ (∪)). rewrite <- (list_to_map_to_list m) at 2.
      apply list_to_map_proper; [|apply btree_pairs_perm].
      rewrite btree_pairs_perm. apply NoDup_fst_map_to_list.
  - symmetry. apply andb_false_iff. rewrite !bool_decide_eq_false.
    destruct Hm as [-> | ->]; [left|right]; by intros [? ?].
Qed.
End Codec.

(** ** Any history of operations *)

(** A dictionary and what it should mean: the exceptions recorded for each security. *)
Inductive built `{ExceptionsJson} :
  FieldExceptions -> gmap string (list FieldExceptionMeta) -> Prop :=
| built_default : built exceptions_default ∅
| built_record d v t x :
    built d v -> built (record d t x) (<[t := default [] (v !! t) ++ [x]]> v)
| built_record_ref d v t r :
    built d v -> built (record_ref d t r) (<[t := default [] (v !! t) ++ [to_owned r]]> v)
| built_extend d v o w d' :
    built d v -> built o w -> extend d o = Some d' -> built d' (append_views v w)
| built_compact raw e d :
    decode_encoded raw = Ok (Compact e) -> from_json raw = Some (Ok d) ->
    built d (payloads (env_entries e) <$> env_securities e)
| built_legacy raw m d :
    decode_encoded raw = Ok (Legacy m) -> from_json raw = Some (Ok d) -> built d m.

(** What is accepted was checked. *)
Lemma from_json_compact_ok `{ExceptionsJson} raw e d :
  decode_encoded raw = Ok (Compact e) -> from_json raw = Some (Ok d) ->
  env_version e = 1%Z
  /\ map_Forall (fun _ is_ => Forall (fun i => i < length (env_entries e)) is_) (env_securities e).
Proof.
  unfold from_json. intros -> Hd. destruct (Z.eqb_spec (env_version e) 1) as [Hv|]; [|done].
  simpl in Hd. split; [done|]. apply range_check. by destruct (existsb _ _).
Qed.

Lemma from_json_legacy_ok `{ExceptionsJson} raw m d :
  decode_encoded raw = Ok (Legacy m) -> from_json raw = Some (Ok d) ->
  m !! "entries"%string = None \/ m !! "securities"%string = None.
Proof.
  unfold from_json. intros -> Hd.
  destruct (m !! "entries"%string) eqn:E1; [|by left]. destruct (m !! "securities"%string) eqn:E2; [|by right].
  rewrite !bool_decide_true in Hd by done. done.
Qed.

Lemma built_wf `{ExceptionsJson} d v : built d v -> wf d /\ view d = v.
Proof.
  induction 1 as [|d v t x _ [Hw <-]|d v t r _ [Hw <-]|d v o w d' _ [Hd <-] _ [Ho <-] He|raw e d Hr Hj|raw m d Hr Hj].
  - split; [split; [constructor|apply map_Forall_empty]|apply fmap_empty].
  - by apply record_spec.
  - rewrite record_ref_owned. by apply record_spec.
  - destruct (extend_spec d o Hd Ho) as (? & E & Hw & Hv). by simplify_eq.
  - destruct (from_json_compact_ok raw e d Hr Hj) as [Hv Hi].
    destruct (from_json_compact raw e Hr Hv Hi) as (d' & E & Hw & Hvw & _). by simplify_eq.
  - destruct (from_json_legacy raw m Hr (from_json_legacy_ok raw m d Hr Hj)) as (d' & E & Hw & Hvw).
    by simplify_eq.
Qed.

(** Reading any text ends with a dictionary or an error, never with a panic. *)
Lemma from_json_total `{ExceptionsJson} raw : is_Some (from_json raw).
Proof.
  unfold from_json. destruct (decode_encoded raw) as [[e|m]|err]; [|by case_match|done].
  destruct (Z.eqb_spec (env_version e) 1) as [Hv|]; [|done]. simpl.
  destruct (existsb _ _) eqn:E; [done|]. apply range_check in E.
  destruct (insert_all_spec [] (env_entries e)) as (es & Ee & Hn & _ & Hres & _); [constructor|].
  destruct (insert_all [] (env_entries e)) as [remap ?]. simpl in *. subst.
  destruct (remap_securities (env_entries e) es remap (env_securities e)) as (m' & -> & _); done.
Qed.

(** The canonical envelope passes the checks and means what the dictionary does. *)
Lemma canonical_envelope_ok d :
  wf d ->
  let e := canonical_envelope (entries d) (view d) in
  NoDup (env_entries e)
  /\ map_Forall (fun _ is_ => Forall (fun i => i < length (env_entries e)) is_) (env_securities e)
  /\ payloads (env_entries e) <$> env_securities e = view d.
Proof.
  intros [Hn Hw]. simpl. set (sorted := merge_sort meta_le (entries d)).
  assert (NoDup sorted) as Hs by (unfold sorted; by rewrite merge_sort_Permutation).
  destruct (remap_securities (entries d) sorted (canonical_remap (canonical_order (entries d)))
              (securities d)) as (m' & _ & [_ Hr] & Hv & ->);
    [done|apply canonical_remap_resolves|done|].
  done.
Qed.

(** It depends on the payloads only as a set. *)
Lemma canonical_envelope_perm es es' v :
  es ≡ₚ es' -> canonical_envelope es v = canonical_envelope es' v.
Proof.
  intros Hp. unfold canonical_envelope.
  replace (merge_sort meta_le es') with (merge_sort meta_le es); [done|].
  apply (StronglySorted_unique meta_le); [apply StronglySorted_merge_sort; apply _..|].
  by rewrite !merge_sort_Permutation.
Qed.

Lemma canonical_envelope_inj d d2 :
  wf d -> wf d2 ->
  canonical_envelope (entries d2) (view d2) = canonical_envelope (entries d) (view d) ->
  view d2 = view d.
Proof.
  intros (_ & _ & Hv)%canonical_envelope_ok (_ & _ & Hv2)%canonical_envelope_ok E.
  by rewrite <- Hv, <- Hv2, E.
Qed.

(** C12: a dictionary of interned payloads implements the exceptions of
    each security, in the order they were recorded.  Whatever was recorded, merged
    and read back from metadata, expanding gives exactly that, without a panic;
    merging with any other dictionary and encoding do not panic either. *)
Theorem field_exceptions_refine `{ExceptionsJson} d v :
  built d v ->
  expanded d = Some v
  /\ (forall t, for_security d t = Some (default [] (v !! t)))
  /\ (forall o w, built o w -> is_Some (extend d o))
  /\ is_Some (to_json d)
  /\ (forall raw, is_Some (from_json raw)).
Proof.
  intros Hb. destruct (built_wf d v Hb) as [Hw <-]. split; [by apply expanded_view|]. split; [|split; [|split]].
  - intros t. unfold for_security, view. rewrite lookup_fmap.
    destruct (securities d !! t) as [is_|] eqn:Ht; [|done]. simpl.
    destruct (in_range_resolved (entries d) is_ (proj2 Hw t is_ Ht)) as [xs Hx].
    by destruct (resolved_omap _ _ _ Hx) as (-> & _ & ->).
  - intros o w Ho. destruct (built_wf o w Ho) as [Hwo _].
    destruct (extend_spec d o Hw Hwo) as (d' & -> & _). done.
  - by rewrite to_json_canonical.
  - apply from_json_total.
Qed.

(** C19: the metadata text of a dictionary reads back as one with the
    same exceptions, which is written as the same text; the text depends only on the
    set of payloads and on the exceptions, not on the order in which payloads were
    interned, and determines the exceptions. *)
Theorem field_exceptions_roundtrip `{EJL : ExceptionsJsonLaws} d v :
  built d v ->
  exists raw d',
    to_json d = Some raw /\ from_json raw = Some (Ok d') /\ built d' v
    /\ to_json d' = Some raw
    /\ forall d2 v2, built d2 v2 ->
         (entries d2 ≡ₚ entries d -> v2 = v -> to_json d2 = Some raw)
         /\ (to_json d2 = Some raw -> v2 = v).
Proof.
  intros Hb. destruct (built_wf d v Hb) as [Hw <-].
  set (e := canonical_envelope (entries d) (view d)).
  destruct (canonical_envelope_ok d Hw) as (Hn & Hr & Hv). fold e in Hn, Hr, Hv.
  destruct (from_json_compact (encode_envelope e) e) as (d' & Ed & Hd' & Hview & _ & Hent);
    [apply decode_encode_envelope|done|done|].
  exists (encode_envelope e), d'. split; [by apply to_json_canonical|]. split; [done|].
  split; [|split].
  - rewrite <- Hv. by eapply built_compact; [apply decode_encode_envelope|].
  - rewrite to_json_canonical, Hview, Hv, Hent by done. do 2 f_equal.
    apply canonical_envelope_perm, merge_sort_Permutation.
  - intros d2 v2 Hb2. destruct (built_wf d2 v2 Hb2) as [Hw2 <-].
    rewrite to_json_canonical by done. split.
    + intros Hp ->. by rewrite (canonical_envelope_perm _ _ _ Hp).
    + intros [= E]. apply (f_equal decode_encoded) in E. rewrite !decode_encode_envelope in E.
      apply canonical_envelope_inj; [done..|]. fold e. congruence.
Qed.

(** ** A codec

    Texts for every envelope, with which the laws and the examples evaluate. *)
Module Codec.

Fixpoint bits_text (p : positive) : string :=
  match p with
  | xH => ""
  | xO p => String "0" (bits_text p)
  | xI p => String "1" (bits_text p)
  end%string.

Fixpoint text_bits (s : string) : option positive :=
  match s with
  | EmptyString => Some xH
  | String c s =>
      p ← text_bits s;
      if decide (c = "0"%char) then Some (xO p)
      else if decide (c = "1"%char) then Some (xI p) else None
  end.

Lemma text_bits_text p : text_bits (bits_text p) = Some p.
Proof. induction p as [p IH|p IH|]; simpl; [by rewrite IH..|done]. Qed.

#[export] Instance meta_countable : Countable FieldExceptionMeta :=
  inj_countable' (fun m => (fe_field m, fe_category m, fe_code m, fe_subcategory m, fe_message m))
    (fun k => let '(f, c, n, s, m) := k in mkException f c n s m)
    ltac:(by intros []).

#[export] Instance envelope_eq_dec : EqDecision Envelope.
Proof. solve_decision. Defined.
#[export] Instance envelope_countable : Countable Envelope :=
  inj_countable' (fun e => (env_version e, env_entries e, env_securities e))
    (fun k => let '(v, es, m) := k in mkEnvelope v es m) ltac:(by intros []).

#[export] Instance codec : ExceptionsJson := {
  encode_envelope e := bits_text (encode e);
  decode_encoded s :=
    match text_bits s ≫= decode with Some e => Ok (Compact e) | None => Err "expected value"%string end;
  decode_envelope s :=
    match text_bits s ≫= decode with Some e => Ok e | None => Err "expected value"%string end;
  decode_members _ := None
}.

#[export] Instance codec_laws : ExceptionsJsonLaws.
Proof.
  constructor. intros e. unfold decode_encoded, encode_envelope, codec.
  rewrite text_bits_text. simpl. by rewrite decode_encode.
Qed.
End Codec.

Section Examples.
Import Codec.
Local Open Scope string_scope.

Definition synthetic (field : string) (code : Z) : FieldExceptionMeta :=
  mkException field "BAD_FLD" code "NOT_APPLICABLE_TO_REF_DATA" "Synthetic field not applicable".
Definition synthetic_ref (field : string) (code : Z) : FieldExceptionRef :=
  mkExceptionRef field "BAD_FLD" code "NOT_APPLICABLE_TO_REF_DATA" "Synthetic field not applicable".

(** Two dictionaries that interned the same payloads in different orders. *)
Definition first_dictionary : FieldExceptions :=
  record (record_ref (record exceptions_default "SYN_A" (synthetic "FIELD_A" 10)) "SYN_A" (synthetic_ref "FIELD_A" 9))
    "SYN_A" (synthetic "FIELD_A" 10).

Definition second_dictionary : FieldExceptions :=
  record (record exceptions_default "SYN_B" (synthetic "FIELD_A" 9)) "SYN_A" (synthetic "FIELD_A" 10).

Example canonical_entries :
  env_entries (canonical_envelope (entries first_dictionary) (view first_dictionary))
  = [synthetic "FIELD_A" 9; synthetic "FIELD_A" 10]
  /\ env_securities (canonical_envelope (entries first_dictionary) (view first_dictionary)) !! "SYN_A"
     = Some [1; 0; 1].
Proof. split; reflexivity. Qed.

Example merged_view :
  (view <$> extend first_dictionary second_dictionary)
  = Some {["SYN_A" := [synthetic "FIELD_A" 10; synthetic "FIELD_A" 9; synthetic "FIELD_A" 10; synthetic "FIELD_A" 10];
           "SYN_B" := [synthetic "FIELD_A" 9]]}.
Proof. vm_compute. reflexivity. Qed.

Lemma field_exceptions_refine_witness :
  expanded first_dictionary
  = Some {["SYN_A" := [synthetic "FIELD_A" 10; synthetic "FIELD_A" 9; synthetic "FIELD_A" 10]]}.
Proof.
  etrans.
  - exact (proj1 (field_exceptions_refine first_dictionary _
      (built_record _ _ "SYN_A" (synthetic "FIELD_A" 10)
         (built_record_ref _ _ "SYN_A" (synthetic_ref "FIELD_A" 9)
            (built_record _ _ "SYN_A" (synthetic "FIELD_A" 10) built_default))))).
  - vm_compute. reflexivity.
Defined.

Lemma field_exceptions_roundtrip_witness :
  exists raw d', to_json second_dictionary = Some raw /\ from_json raw = Some (Ok d')
    /\ to_json d' = Some raw.
Proof.
  destruct (field_exceptions_roundtrip second_dictionary _
              (built_record _ _ "SYN_A" (synthetic "FIELD_A" 10)
                 (built_record _ _ "SYN_B" (synthetic "FIELD_A" 9) built_default)))
    as (raw & d' & H1 & H2 & _ & H4 & _).
  exists raw, d'. split; [exact H1|]. split; [exact H2|exact H4].
Defined.
End Examples.
