(* ===== verification/Metadata.v ===== *)
(** * Response diagnostics

    [ResponseMetadata] of [engine/state/value_utils.rs]: entitlement identifiers,
    security errors, field exceptions, delay status, conversion misses and request
    identifiers are collected from the messages of a response and attached to its
    batch as metadata texts; the metadata of shards or chunks is united.  Also the
    texts of [engine/delayed.rs] the collection reads.

    The SDK's elements are the class [Sdk]; the JSON texts of the maps are the class
    [Json], with the round trip serde_json documents as [JsonLaws]. *)

From Stdlib Require Import Ascii String ZArith Lia Sorting.
From stdpp Require Import pretty.
From S2P Require Import Prelude Text Words Errors RecipeError Schema Diagnostics Pool.
Local Open Scope string_scope.

(** ** Interfaces *)

(** An SDK element: its name, children by name and by index, values of an array,
    and typed reads of the value at an index. *)
Class Sdk (E : Type) := {
  e_name : E -> string;
  e_get : E -> string -> option E;
  e_num_children : E -> nat;
  e_get_at : E -> nat -> option E;
  e_values : E -> list E;
  e_len : E -> nat;
  e_is_null : E -> bool;
  e_str : E -> nat -> option string;
  e_i32 : E -> nat -> option Z;
  e_bool : E -> nat -> option bool
}.

Class Json (T : Type) := {
  to_string : T -> result string string;
  from_str : string -> result T string
}.

Class JsonLaws (T : Type) `{Json T} := {
  json_roundtrip x : exists s, to_string x = Ok s /\ from_str s = Ok x
}.

(** ** Texts of the delay status *)

Definition IS_DELAYED_STREAM : string := "IS_DELAYED_STREAM".
Definition EXCHANGE_DELAY : string := "EXCHANGE_DELAY".

Definition unit_minutes (unit : string) (amount : Z) : option Z :=
  if bool_decide (unit ∈ ["minute"; "minutes"; "min"; "mins"]) then Some amount
  else if bool_decide (unit ∈ ["hour"; "hours"; "hr"; "hrs"]) then u32_checked_mul amount 60
  else None.

Fixpoint delay_tokens (tokens : list string) : option Z :=
  match tokens with
  | [] => None
  | token :: tokens =>
      match parse_u32 token with
      | None => delay_tokens tokens
      | Some amount =>
          match tokens with
          | [] => None
          | unit :: _ => unit_minutes (to_ascii_lowercase unit) amount
          end
      end
  end.

Definition parse_exchange_delay_minutes (text : string) : option Z :=
  delay_tokens (split_whitespace text).

Definition parse_flag_text (text : string) : option bool :=
  let text := to_ascii_lowercase (trim text) in
  if bool_decide (text ∈ ["true"; "y"; "yes"; "1"]) then Some true
  else if bool_decide (text ∈ ["false"; "n"; "no"; "0"]) then Some false
  else None.

(** ** Data *)

Definition METADATA_KEY_EID_DATA : string := "xbbg.eid_data".
Definition METADATA_KEY_SECURITY_ERRORS : string := "xbbg.security_errors".
Definition METADATA_KEY_FIELD_EXCEPTIONS : string := "xbbg.field_exceptions".
Definition METADATA_KEY_DELAYED : string := "xbbg.delayed".
Definition METADATA_KEY_TYPE_MISSES : string := "xbbg.type_misses".

Record SecurityErrorMeta : Type := mkSecurityError {
  se_category : string;
  se_code : Z;
  se_subcategory : string;
  se_message : string
}.

Record DelayedMeta : Type := mkDelayedMeta {
  delayed : bool;
  delay_minutes : option Z
}.

#[export] Instance SecurityErrorMeta_eq_dec : EqDecision SecurityErrorMeta.
Proof. solve_decision. Defined.
#[export] Instance DelayedMeta_eq_dec : EqDecision DelayedMeta.
Proof. solve_decision. Defined.

Record ResponseMetadata : Type := mkMetadata {
  eid_data : gmap string (list Z);
  security_errors : gmap string SecurityErrorMeta;
  field_exceptions : FieldExceptions;
  rm_delayed : gmap string DelayedMeta;
  type_misses : gmap string Z;
  rm_ids : list string;
  rm_capture_delayed : bool;
  hidden_fields : list string
}.

Definition metadata_default : ResponseMetadata :=
  mkMetadata ∅ ∅ exceptions_default ∅ ∅ [] false [].

Definition with_bloomberg_request_ids (ids : list string) : ResponseMetadata :=
  mkMetadata ∅ ∅ exceptions_default ∅ ∅ (ids_extend [] ids) false [].

Definition with_delayed (d : gmap string DelayedMeta) : ResponseMetadata :=
  mkMetadata ∅ ∅ exceptions_default d ∅ [] false [].

Definition capture_delayed (m : ResponseMetadata) (hidden : list string) : ResponseMetadata :=
  mkMetadata (eid_data m) (security_errors m) (field_exceptions m) (rm_delayed m)
    (type_misses m) (rm_ids m) true hidden.

Definition extend_request_ids (m : ResponseMetadata) (ids : list string) : ResponseMetadata :=
  mkMetadata (eid_data m) (security_errors m) (field_exceptions m) (rm_delayed m)
    (type_misses m) (ids_extend (rm_ids m) ids) (rm_capture_delayed m) (hidden_fields m).

(** [*count += 1] on a [u64], in a release build *)
Definition record_type_miss (m : ResponseMetadata) (field : string) : ResponseMetadata :=
  let misses :=
    match type_misses m !! field with
    | Some count => <[field := u64_wrapping_add count 1]> (type_misses m)
    | None => <[field := 1%Z]> (type_misses m)
    end in
  mkMetadata (eid_data m) (security_errors m) (field_exceptions m) (rm_delayed m)
    misses (rm_ids m) (rm_capture_delayed m) (hidden_fields m).

(** ** Collection from a response *)

Section Elements.
Context {E : Type} `{Sdk E}.

(** [child.name_index(names)] *)
Definition name_index (child : E) (names : list string) : option nat :=
  fst <$> list_find (eq (e_name child)) names.

(** The children from an index on; stops where the SDK rejects an index. *)
Fixpoint find_from (element : E) (names : list string) (found : list (option E)) (index n : nat)
  : list (option E) :=
  match n with
  | 0 => found
  | S n =>
      match e_get_at element index with
      | None => found
      | Some child =>
          let found := match name_index child names with
                       | Some slot => <[slot := Some child]> found
                       | None => found
                       end in
          find_from element names found (S index) n
      end
  end.

Definition find_children (element : E) (names : list string) : list (option E) :=
  find_from element names (replicate (length names) None) 0 (e_num_children element).

Record SecurityElements : Type := mkSecurityElements {
  sec_security : option E;
  sec_field_data : option E;
  sec_eid_data : option E;
  sec_security_error : option E;
  sec_field_exceptions : option E
}.

Definition scan (entry : E) : SecurityElements :=
  let found := find_children entry
                 ["security"; "fieldData"; "eidData"; "securityError"; "fieldExceptions"] in
  let slot i := mjoin (found !! i) in
  mkSecurityElements (slot 0) (slot 1) (slot 2) (slot 3) (slot 4).

Definition ticker (s : SecurityElements) : string :=
  default "" (sec_security s ≫= fun e => e_str e 0).

Record SecurityErrorDetails : Type := mkErrorDetails {
  sd_category : string;
  sd_code : Z;
  sd_subcategory : string;
  sd_message : string
}.

Definition details_read (error : option E) : SecurityErrorDetails :=
  let text name := default "" (error ≫= fun e => e_get e name ≫= fun x => e_str x 0) in
  mkErrorDetails (text "category")
    (default 0%Z (error ≫= fun e => e_get e "code" ≫= fun x => e_i32 x 0))
    (text "subcategory") (text "message").

Definition record_eid_data (m : ResponseMetadata) (t : string) (eids : E) : ResponseMetadata :=
  let values := omap (fun i => e_i32 eids i) (seq 0 (e_len eids)) in
  mkMetadata (<[t := (default [] (eid_data m !! t) ++ values)%list]> (eid_data m))
    (security_errors m) (field_exceptions m) (rm_delayed m) (type_misses m) (rm_ids m)
    (rm_capture_delayed m) (hidden_fields m).

Definition record_security_error (m : ResponseMetadata) (t : string) (e : SecurityErrorMeta)
  : ResponseMetadata :=
  mkMetadata (eid_data m) (<[t := e]> (security_errors m)) (field_exceptions m) (rm_delayed m)
    (type_misses m) (rm_ids m) (rm_capture_delayed m) (hidden_fields m).

Definition set_exceptions (m : ResponseMetadata) (x : FieldExceptions) : ResponseMetadata :=
  mkMetadata (eid_data m) (security_errors m) x (rm_delayed m) (type_misses m) (rm_ids m)
    (rm_capture_delayed m) (hidden_fields m).

Definition exception_field (exception : E) : string :=
  default "?" (e_get exception "fieldId" ≫= fun e => e_str e 0).

Definition exception_ref (exception : E) : FieldExceptionRef :=
  let error := details_read (e_get exception "errorInfo") in
  mkExceptionRef (exception_field exception) (sd_category error) (sd_code error)
    (sd_subcategory error) (sd_message error).

Definition is_hidden (m : ResponseMetadata) (field : string) : bool :=
  existsb (fun hidden => eq_ignore_ascii_case hidden field) (hidden_fields m).

(** The loop over [fieldExceptions]: the metadata and the count of the reported ones. *)
Fixpoint record_exceptions (m : ResponseMetadata) (t : string) (l : list E) : ResponseMetadata * nat :=
  match l with
  | [] => (m, 0)
  | exception :: l =>
      if is_hidden m (exception_field exception) then record_exceptions m t l
      else
        let '(m, n) :=
          record_exceptions
            (set_exceptions m (record_ref (field_exceptions m) t (exception_ref exception))) t l in
        (m, S n)
  end.

Definition delayed_flag (field_data : E) : option bool :=
  match e_get field_data IS_DELAYED_STREAM with
  | Some flag =>
      if e_is_null flag then None
      else match e_bool flag 0 with
           | Some b => Some b
           | None => e_str flag 0 ≫= parse_flag_text
           end
  | None => None
  end.

Definition record_delayed (m : ResponseMetadata) (t : string) (field_data : E) : ResponseMetadata :=
  match delayed_flag field_data with
  | None => m
  | Some flag =>
      let minutes :=
        if flag then
          match e_get field_data EXCHANGE_DELAY with
          | Some text =>
              if e_is_null text then None else e_str text 0 ≫= parse_exchange_delay_minutes
          | None => None
          end
        else None in
      mkMetadata (eid_data m) (security_errors m) (field_exceptions m)
        (<[t := mkDelayedMeta flag minutes]> (rm_delayed m))
        (type_misses m) (rm_ids m) (rm_capture_delayed m) (hidden_fields m)
  end.

Record SecurityDiagnostics : Type := mkSecurityDiagnostics {
  diag_security_error : option SecurityErrorDetails;
  field_exception_count : nat
}.

Definition record_security (m : ResponseMetadata) (t : string) (s : SecurityElements)
  : ResponseMetadata * SecurityDiagnostics :=
  let m := match sec_eid_data s with Some eids => record_eid_data m t eids | None => m end in
  let security_error :=
    match sec_security_error s with
    | Some error => if e_is_null error then None else Some (details_read (Some error))
    | None => None
    end in
  let m :=
    match security_error with
    | Some e => record_security_error m t
                  (mkSecurityError (sd_category e) (sd_code e) (sd_subcategory e) (sd_message e))
    | None => m
    end in
  let '(m, count) :=
    match sec_field_exceptions s with
    | Some exceptions => record_exceptions m t (e_values exceptions)
    | None => (m, 0)
    end in
  let m :=
    match rm_capture_delayed m, sec_field_data s with
    | true, Some field_data => record_delayed m t field_data
    | _, _ => m
    end in
  (m, mkSecurityDiagnostics security_error count).

(** A whole-request rejection; [root] is the root of the message. *)
Definition top_level_response_error (root : E) (service operation : string) : option BlpError :=
  match mjoin (find_children root ["responseError"] !! 0) with
  | None => None
  | Some response_error =>
      let text name := e_get response_error name ≫= fun e => e_str e 0 in
      let part label := option_map (fun v : string => label ++ v) in
      let parts := omap id
        [part "source=" (text "source"); part "category=" (text "category");
         part "code=" (pretty <$> (e_get response_error "code" ≫= fun e => e_i32 e 0));
         part "subcategory=" (text "subcategory");
         part "message=" (trim <$> text "message")] in
      let label :=
        match parts with
        | [] => "Bloomberg responseError"
        | _ => "Bloomberg responseError: " ++ String.concat "; " parts
        end in
      Some (RequestFailure service (Some operation) None (Some label) None [] None)
  end.
End Elements.
Arguments SecurityElements : clear implicits.

(** ** Metadata texts *)

Definition parse_json {T} `{Json T} (value : option string) : option T :=
  value ≫= fun s => result_ok (from_str s).

Definition insert_json {T} `{Json (gmap string T)} (metadata : gmap string string) (key : string)
  (value : gmap string T) : gmap string string :=
  if decide (value = ∅) then metadata
  else match to_string value with
       | Ok json => <[key := json]> metadata
       | Err _ => metadata
       end.

Section Texts.
Context {Col : Type}.
Context `{JE : Json (gmap string (list Z))} `{JS : Json (gmap string SecurityErrorMeta)}.
Context `{JD : Json (gmap string DelayedMeta)} `{JM : Json (gmap string Z)}.
Context `{EX : ExceptionsJson}.
(** The JSON array of request identifiers. *)
Variable ids_to_json : list string -> string.
Variable ids_from_json : string -> option (list string).

(** [BloombergRequestIds::collect] *)
Definition collect_ids (ids : list string) (b : ArrowBatch Col) : list string :=
  let metadata := s_metadata (b_schema b) in
  let ids := match metadata !! METADATA_KEY_BLOOMBERG_REQUEST_ID with
             | Some id => insert_id id ids
             | None => ids
             end in
  match metadata !! METADATA_KEY_BLOOMBERG_REQUEST_IDS ≫= ids_from_json with
  | Some values => ids_extend ids values
  | None => ids
  end.

(** [ResponseMetadata::bloomberg_request_ids] *)
Definition batch_request_ids (b : ArrowBatch Col) : list string := collect_ids [] b.

Definition collect_bloomberg_request_ids (m : ResponseMetadata) (b : ArrowBatch Col)
  : ResponseMetadata :=
  mkMetadata (eid_data m) (security_errors m) (field_exceptions m) (rm_delayed m)
    (type_misses m) (collect_ids (rm_ids m) b) (rm_capture_delayed m) (hidden_fields m).

Definition delayed_metadata (b : ArrowBatch Col) : option (gmap string DelayedMeta) :=
  parse_json (s_metadata (b_schema b) !! METADATA_KEY_DELAYED).

(** [*self.type_misses.entry(field).or_default() += count] per field *)
Definition add_misses (m counts : gmap string Z) : gmap string Z :=
  fold_left (fun m fc => <[fc.1 := u64_wrapping_add (default 0%Z (m !! fc.1)) fc.2]> m)
    (btree_pairs counts) m.

Definition collect_type_misses (m : ResponseMetadata) (b : ArrowBatch Col) : ResponseMetadata :=
  match parse_json (s_metadata (b_schema b) !! METADATA_KEY_TYPE_MISSES) with
  | Some counts =>
      mkMetadata (eid_data m) (security_errors m) (field_exceptions m) (rm_delayed m)
        (add_misses (type_misses m) counts) (rm_ids m) (rm_capture_delayed m) (hidden_fields m)
  | None => m
  end.

Definition metadata_is_empty (m : ResponseMetadata) : bool :=
  bool_decide (eid_data m = ∅) && bool_decide (security_errors m = ∅)
  && exceptions_is_empty (field_exceptions m) && bool_decide (rm_delayed m = ∅)
  && bool_decide (type_misses m = ∅) && bool_decide (rm_ids m = []).

(** The metadata with the diagnostics; [None] is a panic. *)
Definition attached (m : ResponseMetadata) (metadata : gmap string string)
  : option (gmap string string) :=
  let metadata := insert_json metadata METADATA_KEY_EID_DATA (eid_data m) in
  let metadata := insert_json metadata METADATA_KEY_SECURITY_ERRORS (security_errors m) in
  metadata ←
    (if exceptions_is_empty (field_exceptions m) then Some metadata
     else (fun json => <[METADATA_KEY_FIELD_EXCEPTIONS := json]> metadata)
            <$> to_json (field_exceptions m));
  let metadata := insert_json metadata METADATA_KEY_DELAYED (rm_delayed m) in
  let metadata := insert_json metadata METADATA_KEY_TYPE_MISSES (type_misses m) in
  Some (attach_metadata ids_to_json (rm_ids m) metadata).

Definition attach (m : ResponseMetadata) (b : ArrowBatch Col) : option (ArrowBatch Col) :=
  if metadata_is_empty m then Some b
  else
    metadata ← attached m (s_metadata (b_schema b));
    Some (mkArrowBatch (mkSchema (fields (b_schema b)) metadata) (b_columns b) (b_rows b)).

(** ** Union *)

(** [BTreeMap::extend]: later entries replace earlier ones. *)
Definition map_extend {V} (m : gmap string V) (more : option (gmap string V)) : gmap string V :=
  match more with Some more => more ∪ m | None => m end.

Definition invalid_exceptions (error : string) : BlpError :=
  Internal ("invalid " ++ METADATA_KEY_FIELD_EXCEPTIONS ++ " metadata: " ++ error).

Definition merge_exceptions (x : FieldExceptions) (raw : option string)
  : option (result FieldExceptions BlpError) :=
  match raw with
  | None => Some (Ok x)
  | Some raw =>
      decoded ← from_json raw;
      match decoded with
      | Err error => Some (Err (invalid_exceptions error))
      | Ok other => Ok <$> extend x other
      end
  end.

(** One batch of [union_of]. *)
Definition union_step (merged : ResponseMetadata) (b : ArrowBatch Col)
  : option (result ResponseMetadata BlpError) :=
  let merged := collect_bloomberg_request_ids (collect_type_misses merged b) b in
  let metadata := s_metadata (b_schema b) in
  let eids := map_extend (eid_data merged) (parse_json (metadata !! METADATA_KEY_EID_DATA)) in
  let errors := map_extend (security_errors merged)
                  (parse_json (metadata !! METADATA_KEY_SECURITY_ERRORS)) in
  exceptions ← merge_exceptions (field_exceptions merged) (metadata !! METADATA_KEY_FIELD_EXCEPTIONS);
  Some (match exceptions with
        | Err e => Err e
        | Ok exceptions =>
            Ok (mkMetadata eids errors exceptions
                  (map_extend (rm_delayed merged) (parse_json (metadata !! METADATA_KEY_DELAYED)))
                  (type_misses merged) (rm_ids merged) (rm_capture_delayed merged)
                  (hidden_fields merged))
        end).

Fixpoint union_from (merged : ResponseMetadata) (batches : list (ArrowBatch Col))
  : option (result ResponseMetadata BlpError) :=
  match batches with
  | [] => Some (Ok merged)
  | b :: batches =>
      r ← union_step merged b;
      match r with
      | Err e => Some (Err e)
      | Ok merged => union_from merged batches
      end
  end.

Definition union_of (batches : list (ArrowBatch Col)) : option (result ResponseMetadata BlpError) :=
  union_from metadata_default batches.
End Texts.

Local Close Scope string_scope.

(** ** What a batch says *)

Record Reading : Type := mkReading {
  r_eids : gmap string (list Z);
  r_errors : gmap string SecurityErrorMeta;
  r_exceptions : gmap string (list FieldExceptionMeta);
  r_delayed : gmap string DelayedMeta;
  r_misses : gmap string Z;
  r_ids : list string
}.

Definition reading_empty : Reading := mkReading ∅ ∅ ∅ ∅ ∅ [].

Definition plus_misses (a b : option Z) : option Z :=
  match b with None => a | Some b => Some (u64_wrapping_add (default 0%Z a) b) end.

(** Diagnostics of two parts of a response: per-security entries of the later part
    win, exceptions follow one another, misses add up, identifiers are united. *)
Definition reading_union (a b : Reading) : Reading :=
  mkReading (r_eids b ∪ r_eids a) (r_errors b ∪ r_errors a)
    (append_views (r_exceptions a) (r_exceptions b)) (r_delayed b ∪ r_delayed a)
    (merge plus_misses (r_misses a) (r_misses b)) (union_ids (r_ids a) (r_ids b)).

(** What collected metadata means. *)
Definition meaning (m : ResponseMetadata) : Reading :=
  mkReading (eid_data m) (security_errors m) (view (field_exceptions m)) (rm_delayed m)
    (type_misses m) (rm_ids m).

Definition metadata_ok (m : ResponseMetadata) : Prop :=
  wf (field_exceptions m) /\ StronglySorted string_lt (rm_ids m).

Section Laws.
Context {Col : Type}.
Context `{LE : JsonLaws (gmap string (list Z))} `{LS : JsonLaws (gmap string SecurityErrorMeta)}.
Context `{LD : JsonLaws (gmap string DelayedMeta)} `{LM : JsonLaws (gmap string Z)}.
Context `{LX : ExceptionsJsonLaws}.
Variable ids_to_json : list string -> string.
Variable ids_from_json : string -> option (list string).
Hypothesis ids_json : forall l, ids_from_json (ids_to_json l) = Some l.

Implicit Types (b : ArrowBatch Col) (m : ResponseMetadata).
Local Abbreviation collect_ids := (collect_ids ids_from_json).
Local Abbreviation union_step := (union_step ids_from_json).
Local Abbreviation union_from := (union_from ids_from_json).
Local Abbreviation attached := (attached ids_to_json).

(** The exceptions a metadata text stands for; [None] for one that is rejected. *)
Definition read_exceptions (raw : option string) : option (gmap string (list FieldExceptionMeta)) :=
  match raw with
  | None => Some ∅
  | Some raw => match from_json raw with Some (Ok d) => Some (view d) | _ => None end
  end.

Definition reading b : Reading :=
  let metadata := s_metadata (b_schema b) in
  mkReading (default ∅ (parse_json (metadata !! METADATA_KEY_EID_DATA)))
    (default ∅ (parse_json (metadata !! METADATA_KEY_SECURITY_ERRORS)))
    (default ∅ (read_exceptions (metadata !! METADATA_KEY_FIELD_EXCEPTIONS)))
    (default ∅ (parse_json (metadata !! METADATA_KEY_DELAYED)))
    (default ∅ (parse_json (metadata !! METADATA_KEY_TYPE_MISSES)))
    (collect_ids [] b).

(** ** Collecting *)

Lemma elem_of_collect_ids ids b i : i ∈ collect_ids ids b <-> i ∈ ids \/ i ∈ collect_ids [] b.
Proof.
  unfold Metadata.collect_ids.
  destruct (s_metadata (b_schema b) !! METADATA_KEY_BLOOMBERG_REQUEST_ID) as [x|],
    (s_metadata (b_schema b) !! METADATA_KEY_BLOOMBERG_REQUEST_IDS ≫= ids_from_json) as [l|];
    rewrite ?elem_of_ids_extend, ?elem_of_insert_id, ?elem_of_nil; tauto.
Qed.

Lemma collect_ids_sorted ids b :
  StronglySorted string_lt ids -> StronglySorted string_lt (collect_ids ids b).
Proof.
  intros Hs. unfold Metadata.collect_ids. do 2 case_match; auto using ids_extend_sorted, insert_id_sorted.
Qed.

Lemma collect_ids_union ids b :
  StronglySorted string_lt ids -> collect_ids ids b = union_ids ids (collect_ids [] b).
Proof.
  intros Hs. apply strictly_sorted_ext; [by apply collect_ids_sorted|apply union_ids_sorted|].
  intros x. by rewrite elem_of_union_ids, elem_of_collect_ids.
Qed.

Lemma add_misses_merge (m counts : gmap string Z) : add_misses m counts = merge plus_misses m counts.
Proof.
  unfold add_misses. pose proof (btree_pairs_perm counts) as Hp.
  assert (NoDup (btree_pairs counts).*1) as Hn by (rewrite Hp; apply NoDup_fst_map_to_list).
  rewrite <- (list_to_map_to_list counts) at 2.
  rewrite <- (list_to_map_proper (M := gmap string) _ _ Hn Hp). clear Hp. revert m Hn.
  induction (btree_pairs counts) as [|[k c] l IH]; intros m Hn; simpl.
  { apply map_eq. intros j. rewrite lookup_merge, lookup_empty. by destruct (m !! j). }
  apply NoDup_cons in Hn as [Hk Hn]. simpl in Hk. apply not_elem_of_list_to_map in Hk.
  rewrite IH by done. apply map_eq. intros j. rewrite !lookup_merge.
  destruct (decide (j = k)) as [->|Hj]; [rewrite Hk, !lookup_insert_eq|rewrite !lookup_insert_ne by done].
  - by destruct (m !! k).
  - done.
Qed.

Lemma map_extend_default {V} (m : gmap string V) more : map_extend m more = default ∅ more ∪ m.
Proof. destruct more; [done|]. simpl. by rewrite (left_id_L ∅ (∪)). Qed.

Lemma append_views_empty v : append_views v ∅ = v.
Proof.
  apply map_eq. intros k. unfold append_views. rewrite lookup_union_with, lookup_empty.
  by destruct (v !! k).
Qed.

Lemma collect_type_misses_frame m b :
  collect_type_misses m b
  = mkMetadata (eid_data m) (security_errors m) (field_exceptions m) (rm_delayed m)
      (merge plus_misses (type_misses m) (r_misses (reading b))) (rm_ids m)
      (rm_capture_delayed m) (hidden_fields m).
Proof.
  unfold collect_type_misses. simpl. destruct (parse_json _) as [c|]; simpl.
  - by rewrite add_misses_merge.
  - destruct m. simpl. f_equal. apply map_eq. intros j. rewrite lookup_merge, lookup_empty.
    by destruct (_ !! j).
Qed.

Lemma from_json_wf raw d : from_json raw = Some (Ok d) -> wf d.
Proof.
  intros Hr. destruct (decode_encoded raw) as [[e|l]|] eqn:Hdec.
  - eapply built_wf. by eapply built_compact.
  - eapply built_wf. by eapply built_legacy.
  - unfold from_json in Hr. by rewrite Hdec in Hr.
Qed.

Lemma merge_exceptions_spec x raw :
  wf x ->
  match read_exceptions raw with
  | None => exists error, merge_exceptions x raw = Some (Err (invalid_exceptions error))
  | Some v => exists x', merge_exceptions x raw = Some (Ok x') /\ wf x'
                /\ view x' = append_views (view x) v
  end.
Proof.
  intros Hw. destruct raw as [raw|]; simpl.
  - destruct (from_json_total raw) as [[d|error] Hr]; rewrite Hr; simpl; [|by exists error].
    destruct (extend_spec x d Hw (from_json_wf raw d Hr)) as (x' & -> & Hx & Ex). by exists x'.
  - exists x. by rewrite append_views_empty.
Qed.

(** A batch whose exceptions text is rejected ends the union with an error; any other
    adds what it says. *)
Lemma union_step_spec m b :
  metadata_ok m ->
  match read_exceptions (s_metadata (b_schema b) !! METADATA_KEY_FIELD_EXCEPTIONS) with
  | None => exists error, union_step m b = Some (Err (invalid_exceptions error))
  | Some _ => exists m', union_step m b = Some (Ok m') /\ metadata_ok m'
                /\ meaning m' = reading_union (meaning m) (reading b)
  end.
Proof.
  intros [Hw Hs]. unfold Metadata.union_step. rewrite collect_type_misses_frame. simpl.
  pose proof (merge_exceptions_spec (field_exceptions m)
                (s_metadata (b_schema b) !! METADATA_KEY_FIELD_EXCEPTIONS) Hw) as Hm.
  destruct (read_exceptions _) as [v|] eqn:Hv.
  - destruct Hm as (x' & -> & Hx & Ex). simpl. eexists. split; [done|]. split.
    + split; [done|]. by apply collect_ids_sorted.
    + unfold meaning, reading_union, reading. simpl. rewrite Hv, !map_extend_default, Ex. simpl.
      by rewrite collect_ids_union.
  - destruct Hm as [error ->]. by exists error.
Qed.

(** Can the exceptions of the batch be read? *)
Definition readable b : Prop :=
  is_Some (read_exceptions (s_metadata (b_schema b) !! METADATA_KEY_FIELD_EXCEPTIONS)).

Lemma union_from_spec batches : forall m,
  metadata_ok m ->
  (exists m', union_from m batches = Some (Ok m') /\ metadata_ok m' /\ Forall readable batches
     /\ meaning m' = fold_left reading_union (reading <$> batches) (meaning m))
  \/ (exists error, union_from m batches = Some (Err (invalid_exceptions error))
        /\ Exists (fun b => ~ readable b) batches).
Proof.
  induction batches as [|b batches IH]; intros m Hm; simpl; [left; by exists m|].
  pose proof (union_step_spec m b Hm) as Hb.
  destruct (read_exceptions _) as [v|] eqn:Hv.
  - destruct Hb as (m' & -> & Hm' & E). simpl.
    destruct (IH m' Hm') as [(m2 & -> & Hm2 & Hr2 & E2)|(error & -> & Hx)].
    + left. exists m2. rewrite <- E. split_and!; try done. constructor; [by exists v|done].
    + right. exists error. split; [done|]. by right.
  - destruct Hb as [error ->]. right. exists error. split; [done|]. left. unfold readable.
    rewrite Hv. by intros [? ?].
Qed.

(** ** Attaching *)

Lemma insert_json_eq {T} `{JsonLaws (gmap string T)} metadata key (v : gmap string T) :
  parse_json (insert_json metadata key v !! key)
  = if decide (v = ∅) then parse_json (metadata !! key) else Some v.
Proof.
  unfold insert_json. case_decide; [done|]. destruct (json_roundtrip v) as (s & -> & Hs).
  rewrite lookup_insert_eq. simpl. by rewrite Hs.
Qed.

Lemma insert_json_ne {T} `{Json (gmap string T)} metadata key (v : gmap string T) k :
  key <> k -> insert_json metadata key v !! k = metadata !! k.
Proof.
  intros Hk. unfold insert_json. case_decide; [done|]. destruct (to_string v); [|done].
  by rewrite lookup_insert_ne.
Qed.

Lemma attach_metadata_ne ids metadata k :
  k <> METADATA_KEY_BLOOMBERG_REQUEST_ID -> k <> METADATA_KEY_BLOOMBERG_REQUEST_IDS ->
  attach_metadata ids_to_json ids metadata !! k = metadata !! k.
Proof.
  intros Hk1 Hk2. unfold attach_metadata. destruct ids as [|? [|? ?]]; [done|..];
    by rewrite lookup_insert_ne, !lookup_delete_ne by done.
Qed.

(** The value of a map after attaching: the collected one, or what was there. *)
Definition kept {V} (new old : gmap string V) : gmap string V :=
  if decide (new = ∅) then old else new.

Lemma kept_json {T} `{JsonLaws (gmap string T)} metadata key (v : gmap string T) :
  default ∅ (parse_json (insert_json metadata key v !! key))
  = kept v (default ∅ (parse_json (metadata !! key))).
Proof. rewrite insert_json_eq. unfold kept. by case_decide. Qed.

Lemma view_empty x : view x = ∅ <-> securities x = ∅.
Proof. unfold view. apply fmap_empty_iff. Qed.

(** Reading back a dictionary that was written. *)
Lemma read_written x :
  wf x -> exists raw, to_json x = Some raw /\ read_exceptions (Some raw) = Some (view x).
Proof.
  intros Hw. rewrite to_json_canonical by done. eexists. split; [done|]. simpl.
  destruct (canonical_envelope_ok x Hw) as (_ & Hr & Hv).
  destruct (from_json_compact (encode_envelope (canonical_envelope (entries x) (view x)))
              (canonical_envelope (entries x) (view x))) as (d & -> & _ & Hd & _);
    [apply decode_encode_envelope|done|done|].
  by rewrite Hd, Hv.
Qed.

(** A chain of writes reads at one key as the write of that key. *)
Local Ltac other_keys :=
  rewrite ?attach_metadata_ne by done; rewrite ?insert_json_ne by done;
  rewrite ?lookup_insert_ne by done; rewrite ?insert_json_ne by done.

Lemma attached_spec m metadata :
  wf (field_exceptions m) ->
  exists metadata', attached m metadata = Some metadata'
    /\ default ∅ (parse_json (metadata' !! METADATA_KEY_EID_DATA))
       = kept (eid_data m) (default ∅ (parse_json (metadata !! METADATA_KEY_EID_DATA)))
    /\ default ∅ (parse_json (metadata' !! METADATA_KEY_SECURITY_ERRORS))
       = kept (security_errors m) (default ∅ (parse_json (metadata !! METADATA_KEY_SECURITY_ERRORS)))
    /\ default ∅ (read_exceptions (metadata' !! METADATA_KEY_FIELD_EXCEPTIONS))
       = kept (view (field_exceptions m))
           (default ∅ (read_exceptions (metadata !! METADATA_KEY_FIELD_EXCEPTIONS)))
    /\ default ∅ (parse_json (metadata' !! METADATA_KEY_DELAYED))
       = kept (rm_delayed m) (default ∅ (parse_json (metadata !! METADATA_KEY_DELAYED)))
    /\ default ∅ (parse_json (metadata' !! METADATA_KEY_TYPE_MISSES))
       = kept (type_misses m) (default ∅ (parse_json (metadata !! METADATA_KEY_TYPE_MISSES)))
    /\ exists md0, metadata' = attach_metadata ids_to_json (rm_ids m) md0
        /\ md0 !! METADATA_KEY_BLOOMBERG_REQUEST_ID = metadata !! METADATA_KEY_BLOOMBERG_REQUEST_ID
        /\ md0 !! METADATA_KEY_BLOOMBERG_REQUEST_IDS = metadata !! METADATA_KEY_BLOOMBERG_REQUEST_IDS.
Proof.
  intros Hw. unfold Metadata.attached, exceptions_is_empty. case_bool_decide as He.
  - eexists. split; [done|]. split_and!; other_keys; rewrite ?kept_json; other_keys; try done.
    + unfold kept. by rewrite decide_True by by apply view_empty.
    + eexists. split; [done|]. by split; other_keys.
  - destruct (read_written _ Hw) as (raw & -> & Hr). eexists. split; [done|].
    split_and!; other_keys; rewrite ?kept_json; other_keys; try done.
    + rewrite lookup_insert_eq, Hr. unfold kept. rewrite decide_False; [done|].
      by intros ?%view_empty.
    + eexists. split; [done|]. by split; other_keys.
Qed.

Lemma attached_ids m metadata :
  StronglySorted string_lt (rm_ids m) -> rm_ids m <> [] ->
  metadata_ids ids_from_json (attach_metadata ids_to_json (rm_ids m) metadata) = rm_ids m.
Proof.
  intros Hs Hne. apply strictly_sorted_ext; [|done|].
  - unfold metadata_ids. do 2 case_match; auto using ids_extend_sorted, insert_id_sorted, SSorted_nil.
  - intros i. by apply attach_metadata_ids.
Qed.

Lemma attach_reading m b :
  metadata_ok m ->
  exists b', attach ids_to_json m b = Some b'
    /\ b_columns b' = b_columns b /\ b_rows b' = b_rows b
    /\ fields (b_schema b') = fields (b_schema b)
    /\ reading b' = mkReading (kept (eid_data m) (r_eids (reading b)))
         (kept (security_errors m) (r_errors (reading b)))
         (kept (view (field_exceptions m)) (r_exceptions (reading b)))
         (kept (rm_delayed m) (r_delayed (reading b)))
         (kept (type_misses m) (r_misses (reading b)))
         (match rm_ids m with [] => r_ids (reading b) | ids => ids end).
Proof.
  intros [Hw Hs]. unfold attach. destruct (metadata_is_empty m) eqn:He.
  - unfold metadata_is_empty, exceptions_is_empty in He.
    rewrite !andb_true_iff, !bool_decide_eq_true in He. destruct He as [[[[[E1 E2] E3] E4] E5] E6].
    apply view_empty in E3. exists b. split_and!; try done.
    by rewrite E1, E2, E3, E4, E5, E6.
  - destruct (attached_spec m (s_metadata (b_schema b)) Hw)
      as (md' & -> & E1 & E2 & E3 & E4 & E5 & md0 & E6 & K1 & K2).
    eexists. split; [done|]. split_and!; try done. unfold reading. simpl.
    rewrite E1, E2, E3, E4, E5. f_equal.
    destruct (rm_ids m) as [|i l] eqn:Hids.
    + simpl in E6. subst md'. unfold Metadata.collect_ids. simpl. by rewrite K1, K2.
    + change (Metadata.collect_ids ids_from_json []
                (mkArrowBatch (mkSchema (fields (b_schema b)) md') (b_columns b) (b_rows b)))
        with (metadata_ids ids_from_json md').
      rewrite E6, <- Hids. apply attached_ids; [by rewrite Hids|by rewrite Hids].
Qed.

(** ** Nothing of a part is empty when the union is *)

Definition within (a c : Reading) : Prop :=
  (r_eids c = ∅ -> r_eids a = ∅) /\ (r_errors c = ∅ -> r_errors a = ∅)
  /\ (r_exceptions c = ∅ -> r_exceptions a = ∅) /\ (r_delayed c = ∅ -> r_delayed a = ∅)
  /\ (r_misses c = ∅ -> r_misses a = ∅) /\ (r_ids c = [] -> r_ids a = []).

#[local] Instance within_trans : Transitive within.
Proof. intros a c d. unfold within. tauto. Qed.

Lemma append_views_nil v w : append_views v w = ∅ -> v = ∅ /\ w = ∅.
Proof.
  intros Hvw. split; apply map_eq; intros k; apply (f_equal (lookup k)) in Hvw;
    unfold append_views in Hvw; rewrite lookup_union_with, lookup_empty in Hvw;
    rewrite lookup_empty; by destruct (v !! k), (w !! k).
Qed.

Lemma merge_misses_nil (v w : gmap string Z) : merge plus_misses v w = ∅ -> v = ∅ /\ w = ∅.
Proof.
  intros Hvw. split; apply map_eq; intros k; apply (f_equal (lookup k)) in Hvw;
    rewrite lookup_merge, lookup_empty in Hvw; rewrite lookup_empty; by destruct (v !! k), (w !! k).
Qed.

Lemma union_ids_nil v w : union_ids v w = [] -> v = [] /\ w = [].
Proof.
  intros Hvw. assert (forall x, ~ (x ∈ v \/ x ∈ w)) as Hx.
  { intros x Hx. apply elem_of_union_ids in Hx. rewrite Hvw in Hx. by apply not_elem_of_nil in Hx. }
  split; apply elem_of_nil_inv; intros x ?; apply (Hx x); auto.
Qed.

Lemma union_nil_r {V} (v w : gmap string V) : v ∪ w = ∅ -> w = ∅.
Proof.
  intros Hvw. apply map_empty. intros k. apply (f_equal (lookup k)) in Hvw.
  rewrite lookup_empty in Hvw. by apply lookup_union_None in Hvw as [].
Qed.

Lemma within_union a c : within a (reading_union a c) /\ within c (reading_union a c).
Proof.
  unfold within, reading_union. simpl.
  split; split_and!; intros Hu;
    first [ by apply append_views_nil in Hu as []
          | by apply merge_misses_nil in Hu as []
          | by apply union_ids_nil in Hu as []
          | by apply map_positive_l in Hu | by apply union_nil_r in Hu ].
Qed.

Lemma within_fold rs : forall acc, within acc (fold_left reading_union rs acc).
Proof.
  induction rs as [|r rs IH]; intros acc; simpl; [unfold within; tauto|].
  etrans; [apply (within_union acc r)|apply IH].
Qed.

Lemma kept_within {V} (new old : gmap string V) : (new = ∅ -> old = ∅) -> kept new old = new.
Proof. intros Hn. unfold kept. case_decide as E; [|done]. by rewrite E, Hn. Qed.

(** Attaching a union to a batch that has the metadata of its first part gives a batch
    that says exactly what the union means. *)
Lemma attach_union m b first rest :
  metadata_ok m -> s_metadata (b_schema b) = s_metadata (b_schema first) ->
  meaning m = fold_left reading_union (reading <$> first :: rest) reading_empty ->
  exists b', attach ids_to_json m b = Some b' /\ reading b' = meaning m
    /\ b_columns b' = b_columns b /\ b_rows b' = b_rows b
    /\ fields (b_schema b') = fields (b_schema b).
Proof.
  intros Hm Hb Hmean. assert (reading b = reading first) as Er.
  { unfold reading, Metadata.collect_ids. by rewrite Hb. }
  assert (within (reading first) (meaning m)) as (W1 & W2 & W3 & W4 & W5 & W6).
  { rewrite Hmean. simpl. etrans; [apply (within_union reading_empty)|apply within_fold]. }
  destruct (attach_reading m b Hm) as (b' & E & Hc & Hr & Hf & Hread). exists b'.
  split_and!; try done. rewrite Hread, Er, !kept_within by done. unfold meaning. simpl. f_equal.
  destruct (rm_ids m) as [|i l] eqn:Ei; [|done]. apply W6. simpl. by rewrite Ei.
Qed.
End Laws.

(** ** Collection is exact *)

(** The exceptions of one security, added to those of a response. *)
Definition add_exceptions (t : string) (xs : list FieldExceptionMeta)
  (v : gmap string (list FieldExceptionMeta)) : gmap string (list FieldExceptionMeta) :=
  match xs with [] => v | _ => <[t := default [] (v !! t) ++ xs]> v end.

Section Collected.
Context {E : Type} `{Sdk E}.

(** The exceptions that are the caller's. *)
Definition reported (hidden : list string) (l : list E) : list E :=
  List.filter (fun e => negb (existsb (fun h => eq_ignore_ascii_case h (exception_field e)) hidden)) l.

Lemma record_exceptions_spec t l : forall m,
  wf (field_exceptions m) ->
  exists x, record_exceptions m t l = (set_exceptions m x, length (reported (hidden_fields m) l))
    /\ wf x
    /\ view x = add_exceptions t (to_owned ∘ exception_ref <$> reported (hidden_fields m) l)
                  (view (field_exceptions m)).
Proof.
  induction l as [|e l IH]; intros m Hw; simpl.
  { exists (field_exceptions m). by destruct m. }
  unfold is_hidden. destruct (existsb _ _); simpl; [by apply IH|].
  set (m1 := set_exceptions m _).
  destruct (record_spec (field_exceptions m) t (to_owned (exception_ref e)) Hw) as [Hw1 Hv1].
  rewrite <- record_ref_owned in Hw1, Hv1.
  destruct (IH m1 Hw1) as (x & -> & Hx & Hv). exists x. split; [by destruct m|]. split; [done|].
  rewrite Hv. unfold m1. simpl. rewrite Hv1.
  destruct (reported (hidden_fields m) l) as [|e' l']; simpl; [done|].
  rewrite lookup_insert_eq, insert_insert_eq. simpl. by rewrite <- app_assoc.
Qed.

(** The delay status of one security, when it is asked for and reported. *)
Definition delay_status (m : ResponseMetadata) (s : SecurityElements E) : option DelayedMeta :=
  if rm_capture_delayed m then
    field_data ← sec_field_data s;
    flag ← delayed_flag field_data;
    Some (mkDelayedMeta flag
            (if flag then
               text ← e_get field_data EXCHANGE_DELAY;
               if e_is_null text then None else e_str text 0 ≫= parse_exchange_delay_minutes
             else None))
  else None.

(** The security error of an entry. *)
Definition entry_error (s : SecurityElements E) : option SecurityErrorDetails :=
  e ← sec_security_error s; if e_is_null e then None else Some (details_read (Some e)).

Definition upsert {V} (t : string) (v : option V) (m : gmap string V) : gmap string V :=
  match v with Some v => <[t := v]> m | None => m end.

Lemma record_delayed_status m t (s : SecurityElements E) :
  match rm_capture_delayed m, sec_field_data s with
  | true, Some field_data => record_delayed m t field_data
  | _, _ => m
  end
  = mkMetadata (eid_data m) (security_errors m) (field_exceptions m)
      (upsert t (delay_status m s) (rm_delayed m)) (type_misses m) (rm_ids m)
      (rm_capture_delayed m) (hidden_fields m).
Proof.
  destruct m as [a b c d e f [] g]; unfold delay_status; simpl; [|done].
  destruct (sec_field_data s) as [fd|]; simpl; [|done]. unfold record_delayed.
  destruct (delayed_flag fd) as [[]|]; simpl; [|done..]. by destruct (e_get fd EXCHANGE_DELAY).
Qed.

(** Processing one security of a response adds exactly what its entry
    says: its entitlement identifiers after those already collected, its security error,
    its field exceptions in their order except those of fields the engine added itself,
    and its delay status when that is captured.  Nothing else changes, and the caller
    is told the error and the number of exceptions kept. *)
Theorem response_diagnostics_exact m t (s : SecurityElements E) :
  wf (field_exceptions m) ->
  let mine := reported (hidden_fields m)
                (from_option e_values [] (sec_field_exceptions s)) in
  exists x,
    record_security m t s
    = (mkMetadata
         (upsert t ((fun eids => default [] (eid_data m !! t)
                       ++ omap (fun i => e_i32 eids i) (seq 0 (e_len eids))) <$> sec_eid_data s)
            (eid_data m))
         (upsert t ((fun d => mkSecurityError (sd_category d) (sd_code d) (sd_subcategory d)
                                (sd_message d)) <$> entry_error s) (security_errors m))
         x (upsert t (delay_status m s) (rm_delayed m)) (type_misses m) (rm_ids m)
         (rm_capture_delayed m) (hidden_fields m),
       mkSecurityDiagnostics (entry_error s) (length mine))
    /\ wf x
    /\ view x = add_exceptions t (to_owned ∘ exception_ref <$> mine) (view (field_exceptions m)).
Proof.
  intros Hw mine. unfold record_security.
  change (match sec_security_error s with
          | Some error => if e_is_null error then None else Some (details_read (Some error))
          | None => None
          end) with (entry_error s).
  set (m1 := match sec_eid_data s with Some eids => record_eid_data m t eids | None => m end).
  set (m2 := match entry_error s with Some e => record_security_error m1 t
              (mkSecurityError (sd_category e) (sd_code e) (sd_subcategory e) (sd_message e))
            | None => m1 end).
  assert (field_exceptions m2 = field_exceptions m /\ hidden_fields m2 = hidden_fields m) as [Ef Eh]
    by (unfold m2, m1; destruct (entry_error s), (sec_eid_data s); done).
  assert (exists x, match sec_field_exceptions s with
                    | Some exceptions => record_exceptions m2 t (e_values exceptions)
                    | None => (m2, 0)
                    end = (set_exceptions m2 x, length mine) /\ wf x
            /\ view x = add_exceptions t (to_owned ∘ exception_ref <$> mine) (view (field_exceptions m)))
    as (x & -> & Hx & Hv).
  { unfold mine. destruct (sec_field_exceptions s) as [es|]; simpl.
    - rewrite <- Eh, <- Ef. apply record_exceptions_spec. by rewrite Ef.
    - exists (field_exceptions m2). split_and!; [|by rewrite Ef..]. clearbody m2. by destruct m2. }
  exists x. split; [|done]. rewrite record_delayed_status. unfold m2, m1.
  by destruct (entry_error s), (sec_eid_data s).
Qed.
End Collected.

(** ** Concrete elements and texts *)

Module Concrete.
Import Codec.

Inductive Scalar : Type := SStr (s : string) | SInt (z : Z) | SBool (b : bool).

(** A named element: scalar values, children, or the entries of an array. *)
Inductive Tree : Type :=
| TValues (name : string) (values : list Scalar)
| TSequence (name : string) (children : list Tree)
| TArray (name : string) (entries : list Tree).

Definition t_name (t : Tree) : string :=
  match t with TValues n _ | TSequence n _ | TArray n _ => n end.
Definition t_children (t : Tree) : list Tree := match t with TSequence _ l => l | _ => [] end.
Definition t_scalar (t : Tree) (i : nat) : option Scalar :=
  match t with TValues _ l => l !! i | _ => None end.

#[export] Instance tree_sdk : Sdk Tree := {
  e_name := t_name;
  e_get t name := List.find (fun c => bool_decide (t_name c = name)) (t_children t);
  e_num_children t := length (t_children t);
  e_get_at t i := t_children t !! i;
  e_values t := match t with TArray _ l => l | _ => [] end;
  e_len t := match t with TValues _ l => length l | TArray _ l => length l | TSequence _ _ => 0 end;
  e_is_null t := match t with TValues _ [] => true | _ => false end;
  e_str t i := match t_scalar t i with Some (SStr s) => Some s | _ => None end;
  e_i32 t i := match t_scalar t i with Some (SInt z) => Some z | _ => None end;
  e_bool t i := match t_scalar t i with Some (SBool b) => Some b | _ => None end
}.

#[export] Instance security_error_countable : Countable SecurityErrorMeta :=
  inj_countable' (fun e => (se_category e, se_code e, se_subcategory e, se_message e))
    (fun k => let '(c, n, s, m) := k in mkSecurityError c n s m) ltac:(by intros []).
#[export] Instance delayed_meta_countable : Countable DelayedMeta :=
  inj_countable' (fun d => (delayed d, delay_minutes d))
    (fun k => mkDelayedMeta k.1 k.2) ltac:(by intros []).

#[export] Instance codec_json (T : Type) `{Countable T} : Json T := {
  to_string x := Ok (bits_text (encode x));
  from_str s := match text_bits s ≫= decode with Some x => Ok x | None => Err "expected value"%string end
}.

#[export] Instance codec_json_laws (T : Type) `{Countable T} : JsonLaws T.
Proof.
  constructor. intros x. exists (bits_text (encode x)). split; [done|].
  unfold from_str, codec_json. rewrite text_bits_text. simpl. by rewrite decode_encode.
Qed.

Definition ids_text (ids : list string) : string := bits_text (encode ids).
Definition text_ids (s : string) : option (list string) := text_bits s ≫= decode.

Lemma text_ids_text ids : text_ids (ids_text ids) = Some ids.
Proof. unfold text_ids, ids_text. rewrite text_bits_text. simpl. by rewrite decode_encode. Qed.
End Concrete.

Section Examples.
Import Concrete.
Local Open Scope string_scope.

(** A delayed security with one exception of the caller and one of a status field. *)
Definition synthetic_entry : Tree :=
  let exception field :=
    TSequence "fieldException"
      [TValues "fieldId" [SStr field];
       TSequence "errorInfo" [TValues "category" [SStr "BAD_FLD"]; TValues "code" [SInt 9]]] in
  TSequence "securityData"
    [TValues "security" [SStr "SYN LN Equity"]; TValues "eidData" [SInt 39491; SStr "x"; SInt 14003];
     TArray "fieldExceptions" [exception "PX_LAST"; exception "exchange_delay"];
     TSequence "fieldData"
       [TValues "IS_DELAYED_STREAM" [SStr " Y "]; TValues "EXCHANGE_DELAY" [SStr "1 Hour"]]].

Example top_level_error_text :
  top_level_response_error
    (TSequence "root" [TSequence "responseError"
       [TValues "code" [SInt (-4001)]; TValues "message" [SStr " daily capacity reached "]]])
    "//blp/refdata" "ReferenceDataRequest"
  = Some (RequestFailure "//blp/refdata" (Some "ReferenceDataRequest") None
            (Some "Bloomberg responseError: code=-4001; message=daily capacity reached") None [] None).
Proof. reflexivity. Qed.

Lemma response_diagnostics_exact_witness :
  let m := capture_delayed metadata_default [EXCHANGE_DELAY] in
  let '(m', diag) := record_security m "SYN LN Equity" (scan synthetic_entry) in
  ticker (scan synthetic_entry) = "SYN LN Equity"
  /\ eid_data m' = {["SYN LN Equity" := [39491%Z; 14003%Z]]}
  /\ rm_delayed m' = {["SYN LN Equity" := mkDelayedMeta true (Some 60%Z)]}
  /\ view (field_exceptions m')
     = {["SYN LN Equity" := [mkException "PX_LAST" "BAD_FLD" 9 "" ""]]}
  /\ field_exception_count diag = 1.
Proof.
  destruct (response_diagnostics_exact (capture_delayed metadata_default [EXCHANGE_DELAY])
              "SYN LN Equity" (scan synthetic_entry)) as (x & E & _ & Hv).
  { split; [constructor|apply map_Forall_empty]. }
  cbv zeta. rewrite E. clear E. simpl in Hv |- *. split_and!; try reflexivity.
  rewrite Hv. reflexivity.
Defined.
End Examples.
