(* ===== verification/ShardMerge.v ===== *)
(** * Joining the results of shards

    The executing half of [engine/request_sharding.rs]: the results of the shards of a
    request, in the order of the shards, become one batch or one error.  Columns are
    reconciled with the schema of the first shard, diagnostics are united
    ([Metadata.v]) and a failure names every SDK request that contributed.

    Arrow's concatenation and arrays of nulls are the class [ArrowConcat]. *)

From Stdlib Require Import Ascii String ZArith Lia Sorting.
From stdpp Require Import pretty.
From S2P Require Import Prelude Errors RecipeError Services Plan Schema RequestErrors.
From S2P Require Import Diagnostics Pool Metadata.
Local Open Scope string_scope.

Class ArrowConcat (Col : Type) := {
  concat_batches : Schema -> list (ArrowBatch Col) -> result (ArrowBatch Col) string;
  null_array : ArrowDataType -> nat -> Col;
  type_debug : ArrowDataType -> string
}.

(** Concatenating batches of the schema's fields succeeds, with that schema and all
    rows; an array of nulls has the type and the length asked for. *)
Class ArrowConcatLaws (Col : Type) `{ArrowOps Col, ArrowConcat Col} := {
  concat_schema s bs b : concat_batches s bs = Ok b -> b_schema b = s;
  concat_ok s bs :
    Forall (fun b => fields (b_schema b) = fields s /\ batch_ok b) bs ->
    exists b, concat_batches s bs = Ok b /\ b_rows b = sum_list (b_rows <$> bs);
  null_array_ok t n :
    data_type (null_array t n) = t /\ array_len (null_array t n) = n /\ null_count (null_array t n) = n
}.

Definition to_arrow_datatype (t : ArrowType) : ArrowDataType :=
  match t with
  | ATFloat64 => OtherType "Float64"
  | ATInt64 => OtherType "Int64"
  | ATInt32 => OtherType "Int32"
  | ATString => OtherType "Utf8"
  | ATBool => OtherType "Boolean"
  | ATDate32 => OtherType "Date32"
  | ATTimestampMicros => TimestampMicrosecond (Some "UTC")
  | ATTime64Micros => OtherType "Time64(Microsecond)"
  end.

Section Join.
Context {Col : Type} `{ArrowOps Col} `{ArrowConcat Col}.

(** ** Reconciling schemas *)

(** The builder type whose arrays have the data type. *)
Definition null_builder_type (t : ArrowDataType) : option ArrowType :=
  match t with
  | OtherType "Utf8" => Some ATString
  | OtherType "Float64" => Some ATFloat64
  | OtherType "Int64" => Some ATInt64
  | OtherType "Int32" => Some ATInt32
  | OtherType "Boolean" => Some ATBool
  | OtherType "Date32" => Some ATDate32
  | TimestampMicrosecond (Some "UTC") => Some ATTimestampMicros
  | OtherType "Time64(Microsecond)" => Some ATTime64Micros
  | _ => None
  end.

Definition null_array_for_datatype (t : ArrowDataType) (len : nat) : result Col BlpAsyncError :=
  match null_builder_type t with
  | Some b => Ok (null_array (to_arrow_datatype b) len)
  | None => Err (AsyncInternal ("cannot build null shard column for Arrow type " ++ type_debug t))
  end.

Definition normalize_column (idx : nat) (target source : Field) (col : Col) (rows : nat)
  : result Col BlpAsyncError :=
  if decide (f_name source <> f_name target) then
    Err (AsyncInternal ("sharded request column mismatch at index " ++ pretty idx
           ++ ": expected " ++ f_name target ++ ", got " ++ f_name source))
  else if decide (data_type col = f_type target) then Ok col
  else if decide (null_count col = array_len col) then null_array_for_datatype (f_type target) rows
  else Err (AsyncInternal ("sharded request column type mismatch for " ++ f_name target
              ++ ": expected " ++ type_debug (f_type target) ++ ", got " ++ type_debug (data_type col))).

(** [None] is an index out of range. *)
Fixpoint normalize_columns (idx : nat) (targets sources : list Field) (cols : list Col) (rows : nat)
  : option (result (list Col) BlpAsyncError) :=
  match targets, sources, cols with
  | [], _, _ => Some (Ok [])
  | target :: targets, source :: sources, col :: cols =>
      match normalize_column idx target source col rows with
      | Err e => Some (Err e)
      | Ok col =>
          r ← normalize_columns (S idx) targets sources cols rows;
          Some (match r with Ok cols => Ok (col :: cols) | Err e => Err e end)
      end
  | _, _, _ => None
  end.

Definition concat_error (error : string) : BlpAsyncError :=
  AsyncInternal ("concatenate sharded request batches: " ++ error).

Definition normalize_batch_to_schema (b : ArrowBatch Col) (s : Schema)
  : option (result (ArrowBatch Col) BlpAsyncError) :=
  if decide (fields (b_schema b) = fields s) then Some (Ok b)
  else if decide (length (b_columns b) <> length (fields s)) then
    Some (Err (AsyncInternal "sharded request produced incompatible column count"))
  else
    r ← normalize_columns 0 (fields s) (fields (b_schema b)) (b_columns b) (b_rows b);
    Some (match r with
          | Err e => Err e
          | Ok cols => result_map_err concat_error (try_new s cols)
          end).

Fixpoint normalize_all (bs : list (ArrowBatch Col)) (s : Schema)
  : option (result (list (ArrowBatch Col)) BlpAsyncError) :=
  match bs with
  | [] => Some (Ok [])
  | b :: bs =>
      r ← normalize_batch_to_schema b s;
      match r with
      | Err e => Some (Err e)
      | Ok b =>
          r ← normalize_all bs s;
          Some (match r with Ok bs => Ok (b :: bs) | Err e => Err e end)
      end
  end.

(** ** Concatenation and failures *)

Context `{JE : Json (gmap string (list Z))} `{JS : Json (gmap string SecurityErrorMeta)}.
Context `{JD : Json (gmap string DelayedMeta)} `{JM : Json (gmap string Z)}.
Context `{EX : ExceptionsJson}.
Variable ids_to_json : list string -> string.
Variable ids_from_json : string -> option (list string).

Definition concat_sharded_batches (batches : list (ArrowBatch Col))
  : option (result (ArrowBatch Col) BlpAsyncError) :=
  match batches with
  | [] => Some (Err (AsyncInternal "cannot concatenate zero sharded batches"))
  | [first] => Some (Ok first)
  | first :: rest =>
      merged ← union_of ids_from_json batches;
      match merged with
      | Err e => Some (Err (AsyncBlp e))
      | Ok merged =>
          normalized ← normalize_all rest (b_schema first);
          match normalized with
          | Err e => Some (Err e)
          | Ok normalized =>
              match concat_batches (b_schema first) (first :: normalized) with
              | Err error => Some (Err (concat_error error))
              | Ok b => Ok <$> attach ids_to_json merged b
              end
          end
      end
  end.

(** [service], [operation] and [request_id] of the first shard. *)
Definition error_context (shards : list PreparedRequest) : string * string * option string :=
  match shards with
  | [] => ("", "", None)
  | r :: _ => (service (pr_params r), operation_as_str (pr_operation r), request_id (pr_params r))
  end.

(** The identifiers of all results and the first error. *)
Fixpoint gather_failures (results : list (result (ArrowBatch Col) BlpAsyncError))
  (ids : list string) (first_error : option BlpAsyncError) : list string * option BlpAsyncError :=
  match results with
  | [] => (ids, first_error)
  | Ok b :: results => gather_failures results (collect_ids ids_from_json ids b) first_error
  | Err e :: results =>
      gather_failures results (ids_extend ids (async_bloomberg_request_ids e))
        (match first_error with None => Some e | Some _ => first_error end)
  end.

Definition is_err {A E} (r : result A E) : bool := match r with Err _ => true | Ok _ => false end.

(** [results] are the answers to the shards, in their order. *)
Definition request_shards_ordered (shards : list PreparedRequest)
  (results : list (result (ArrowBatch Col) BlpAsyncError))
  : option (result (ArrowBatch Col) BlpAsyncError) :=
  let '(svc, op, rid) := error_context shards in
  if existsb is_err results then
    let '(ids, first_error) := gather_failures results [] None in
    e ← first_error;
    Some (Err (enrich_async_request_error e svc op rid ids))
  else concat_sharded_batches (omap result_ok results).
End Join.

Local Close Scope string_scope.

(** ** Lemmas *)

Section Laws.
Context {Col : Type} `{AL : ArrowLaws Col} `{CC : ArrowConcat Col} `{!ArrowConcatLaws Col}.
Context `{LE : JsonLaws (gmap string (list Z))} `{LS : JsonLaws (gmap string SecurityErrorMeta)}.
Context `{LD : JsonLaws (gmap string DelayedMeta)} `{LM : JsonLaws (gmap string Z)}.
Context `{LX : ExceptionsJsonLaws}.
Variable ids_to_json : list string -> string.
Variable ids_from_json : string -> option (list string).
Hypothesis ids_json : forall l, ids_from_json (ids_to_json l) = Some l.

Implicit Types (b : ArrowBatch Col) (bs : list (ArrowBatch Col)).
Implicit Types results : list (result (ArrowBatch Col) BlpAsyncError).
Local Abbreviation reading := (reading ids_from_json).
Local Abbreviation collect_ids := (collect_ids ids_from_json).
Local Abbreviation join := (request_shards_ordered ids_to_json ids_from_json).

Lemma normalize_columns_total idx targets sources cols rows :
  length sources = length targets -> length cols = length targets ->
  is_Some (normalize_columns idx targets sources cols rows).
Proof.
  revert idx sources cols. induction targets as [|t targets IH]; intros idx sources cols Hs Hc;
    destruct sources as [|s sources], cols as [|c cols]; simplify_eq/=; [done|].
  destruct (normalize_column idx t s c rows); [|done].
  destruct (IH (S idx) sources cols) as [r ->]; [done..|]. by destruct r.
Qed.

Lemma normalize_all_total bs s : Forall batch_ok bs -> is_Some (normalize_all bs s).
Proof.
  induction 1 as [|b bs Hb _ [r IH]]; simpl; [done|].
  assert (is_Some (normalize_batch_to_schema b s)) as [[b'|e] ->]; [|by rewrite IH; destruct r|done].
  unfold normalize_batch_to_schema. case_decide; [done|]. case_decide as Hl; [done|].
  destruct (normalize_columns_total 0 (fields s) (fields (b_schema b)) (b_columns b) (b_rows b)) as [r' ->];
    [|done|done].
  rewrite <- Hl. by eapply Forall2_length.
Qed.

Lemma normalize_all_same bs s :
  Forall (fun b => fields (b_schema b) = fields s) bs -> normalize_all bs s = Some (Ok bs).
Proof.
  induction 1 as [|b bs Hb _ IH]; simpl; [done|]. unfold normalize_batch_to_schema.
  rewrite decide_True by done. simpl. by rewrite IH.
Qed.

(** The identifiers one result shows. *)
Definition result_request_ids (r : result (ArrowBatch Col) BlpAsyncError) : list string :=
  match r with Ok b => collect_ids [] b | Err e => async_bloomberg_request_ids e end.

Definition result_error (r : result (ArrowBatch Col) BlpAsyncError) : option BlpAsyncError :=
  match r with Ok _ => None | Err e => Some e end.

Lemma gather_failures_spec results : forall ids first,
  (gather_failures ids_from_json results ids first).2
  = match first with Some e => Some e | None => head (omap result_error results) end
  /\ (forall i, i ∈ (gather_failures ids_from_json results ids first).1
                <-> i ∈ ids \/ Exists (fun r => i ∈ result_request_ids r) results).
Proof.
  induction results as [|[b|e] results IH]; intros ids first; simpl.
  - split; [by destruct first|]. intros i. rewrite Exists_nil. tauto.
  - destruct (IH (collect_ids ids b) first) as [E Hi]. split; [done|]. intros i.
    rewrite Hi, elem_of_collect_ids, Exists_cons. simpl. tauto.
  - destruct (IH (ids_extend ids (async_bloomberg_request_ids e))
                (match first with None => Some e | Some _ => first end)) as [E Hi].
    split; [rewrite E; by destruct first|]. intros i.
    rewrite Hi, elem_of_ids_extend, Exists_cons. simpl. tauto.
Qed.

Lemma existsb_is_err results :
  existsb is_err results = true <-> omap result_error results <> [].
Proof.
  induction results as [|[b|e] results IH]; simpl; [done|done|].
  split; [done|]. done.
Qed.

Lemma all_ok results : existsb is_err results = false -> results = Ok <$> omap result_ok results.
Proof.
  induction results as [|[b|e] results IH]; simpl; [done| |done]. intros Hr. f_equal. by apply IH.
Qed.

(** C37: when shards fail, the request fails with the error of the first of
    them in the order of the securities, whatever order they finished in, and that
    error is enriched with exactly the identifiers of every shard, those that
    succeeded included. *)
Theorem shards_failure_exact shards results e :
  head (omap result_error results) = Some e ->
  exists ids, join shards results
      = Some (Err (let '(svc, op, rid) := error_context shards in
                   enrich_async_request_error e svc op rid ids))
    /\ (forall i, i ∈ ids <-> Exists (fun r => i ∈ result_request_ids r) results)
    /\ (sent_kind e = true -> forall e', join shards results = Some (Err e') ->
          forall i, i ∈ async_bloomberg_request_ids e'
                    <-> Exists (fun r => i ∈ result_request_ids r) results).
Proof.
  intros He. destruct (gather_failures_spec results [] None) as [Ef Hi]. rewrite He in Ef.
  destruct (gather_failures ids_from_json results [] None) as [ids first] eqn:Hg. simpl in *.
  assert (join shards results
      = Some (Err (let '(svc, op, rid) := error_context shards in
                   enrich_async_request_error e svc op rid ids))) as Hj.
  { unfold request_shards_ordered. destruct (error_context shards) as [[svc op] rid].
    rewrite (proj2 (existsb_is_err results)) by (intros Hn; by rewrite Hn in He).
    by rewrite Hg, Ef. }
  assert (forall i, i ∈ ids <-> Exists (fun r => i ∈ result_request_ids r) results) as Hids.
  { intros i. rewrite Hi, elem_of_nil. tauto. }
  exists ids. split; [done|]. split; [done|]. intros Hk e' Hj' i. rewrite Hj in Hj'. injection Hj' as <-.
  destruct (error_context shards) as [[svc op] rid].
  rewrite enrich_async_ids, Hids by done. split; [|by right]. intros [Hown|]; [|done].
  apply Exists_exists. exists (Err e). split; [|done].
  destruct (omap result_error results) as [|e0 l] eqn:Ho; [done|]. simplify_eq/=.
  assert (e ∈ omap result_error results) as Hin by (rewrite Ho; left).
  apply list_elem_of_omap in Hin as ([b|e0] & Hin & ?); by simplify_eq/=.
Qed.

Lemma omap_ok bs : omap result_ok (Ok <$> bs : list (result (ArrowBatch Col) BlpAsyncError)) = bs.
Proof. induction bs as [|b bs IH]; simpl; [done|]. f_equal. exact IH. Qed.

Lemma no_err bs : existsb is_err (Ok <$> bs : list (result (ArrowBatch Col) BlpAsyncError)) = false.
Proof. by induction bs. Qed.

Lemma union_spec bs :
  (exists m, union_of ids_from_json bs = Some (Ok m) /\ metadata_ok m
     /\ meaning m = fold_left reading_union (reading <$> bs) reading_empty)
  \/ (exists error, union_of ids_from_json bs = Some (Err (invalid_exceptions error))
        /\ Exists (fun b => ~ readable b) bs).
Proof.
  assert (metadata_ok metadata_default) as H0'.
  { split; [split; [constructor|apply map_Forall_empty]|constructor]. }
  destruct (union_from_spec ids_from_json bs metadata_default H0') as [(m & Hu & Hm & _ & E)|?];
    [|by right]. left. exists m. split; [done|]. split; [done|]. rewrite E. f_equal.
Qed.

(** What follows the union of the diagnostics. *)
Lemma joined m first second rest :
  metadata_ok m -> union_of ids_from_json (first :: second :: rest) = Some (Ok m) ->
  meaning m = fold_left reading_union (reading <$> first :: second :: rest) reading_empty ->
  Forall batch_ok (first :: second :: rest) ->
  let r := concat_sharded_batches ids_to_json ids_from_json (first :: second :: rest) in
  is_Some r
  /\ (forall b, r = Some (Ok b) ->
        reading b = fold_left reading_union (reading <$> first :: second :: rest) reading_empty)
  /\ (Forall readable (first :: second :: rest) ->
      Forall (fun b => fields (b_schema b) = fields (b_schema first)) (first :: second :: rest) ->
        exists b, r = Some (Ok b) /\ b_rows b = sum_list (b_rows <$> first :: second :: rest)).
Proof.
  intros Hm Hu E Hok. rewrite <- E.
  assert (forall b, b_schema b = b_schema first -> exists b', attach ids_to_json m b = Some b'
            /\ reading b' = meaning m /\ b_rows b' = b_rows b) as Hatt.
  { intros b Hb. destruct (attach_union ids_to_json ids_from_json ids_json m b first (second :: rest))
      as (b' & Ha & Hr & _ & Hn & _); [done|by rewrite Hb|done|]. eauto. }
  cbv zeta. unfold concat_sharded_batches. rewrite Hu. cbn [mbind option_bind].
  destruct (normalize_all_total (second :: rest) (b_schema first)) as [r Hr]; [by inversion Hok|].
  split; [|split].
  - rewrite Hr. simpl. destruct r as [norm|e]; [|done].
    destruct (concat_batches _ _) as [b|] eqn:Hc; [|done].
    by destruct (Hatt b (concat_schema _ _ _ Hc)) as (b' & -> & _).
  - intros b'. rewrite Hr. simpl. destruct r as [norm|e]; [|done].
    destruct (concat_batches _ _) as [b|] eqn:Hc; [|done].
    destruct (Hatt b (concat_schema _ _ _ Hc)) as (b2 & -> & Hb2 & _). by intros [= <-].
  - intros _ Hf. rewrite (normalize_all_same (second :: rest)) by by inversion Hf.
    destruct (concat_ok (b_schema first) (first :: second :: rest)) as (b & Hc & Hn).
    { apply Forall_and. by split. }
    simpl. rewrite Hc. destruct (Hatt b (concat_schema _ _ _ Hc)) as (b' & -> & _ & Hb').
    exists b'. split; [done|]. by rewrite Hb', Hn.
Qed.

(** C10: when every shard succeeds the join does not panic, and a batch it
    returns says exactly what the shards said together: every entitlement identifier,
    security error, field exception, delay status and conversion miss of every shard
    and the identifiers of all requests, although concatenation keeps the metadata of
    the first one only.  Shards with the fields of the first one and readable
    exceptions are always joined, with all their rows. *)
Theorem shards_lose_no_diagnostics shards first second rest :
  let bs := first :: second :: rest in
  Forall batch_ok bs ->
  is_Some (join shards (Ok <$> bs))
  /\ (forall b, join shards (Ok <$> bs) = Some (Ok b) ->
        reading b = fold_left reading_union (reading <$> bs) reading_empty)
  /\ (Forall readable bs -> Forall (fun b => fields (b_schema b) = fields (b_schema first)) bs ->
        exists b, join shards (Ok <$> bs) = Some (Ok b) /\ b_rows b = sum_list (b_rows <$> bs)).
Proof.
  intros bs Hok.
  assert (join shards (Ok <$> bs) = concat_sharded_batches ids_to_json ids_from_json bs) as ->.
  { unfold request_shards_ordered. destruct (error_context shards) as [[svc op] rid].
    by rewrite no_err, omap_ok. }
  destruct (union_spec bs) as [(m & Hu & Hm & E)|(error & Hu & Hx)].
  - destruct (joined m first second rest Hm Hu E Hok) as (H5 & H6 & H7). done.
  - unfold concat_sharded_batches. fold bs. unfold bs at 1 3. rewrite Hu. simpl.
    split; [done|]. split; [done|]. intros Hall.
    apply Exists_exists in Hx as (b & Hb & Hx). rewrite Forall_forall in Hall. by destruct Hx; apply Hall.
Qed.
End Laws.

(** ** A concrete instance *)

Module SimpleConcat.

Definition same_fields (s : Schema) (b : ArrowBatch SimpleCol) : Prop :=
  fields (b_schema b) = fields s.
#[export] Instance same_fields_dec s b : Decision (same_fields s b).
Proof. unfold same_fields. apply _. Defined.

#[export] Instance simple_concat : ArrowConcat SimpleCol := {
  concat_batches s bs :=
    if decide (Forall (same_fields s) bs) then
      let rows := sum_list (b_rows <$> bs) in
      let nulls i := sum_list ((fun b => from_option sc_nulls 0 (b_columns b !! i)) <$> bs) in
      Ok (mkArrowBatch s (imap (fun i f => mkCol (f_type f) rows (nulls i)) (fields s)) rows)
    else Err "Invalid argument error"%string;
  null_array t n := mkCol t n n;
  type_debug t := match t with OtherType name => name | TimestampMicrosecond _ => "Timestamp"%string end
}.

#[export] Instance simple_concat_laws : ArrowConcatLaws SimpleCol.
Proof.
  constructor.
  - intros s bs b. unfold concat_batches, simple_concat. case_decide; [|done]. by intros [= <-].
  - intros s bs Hbs. unfold concat_batches, simple_concat. rewrite decide_True.
    + eexists. split; [done|]. done.
    + eapply Forall_impl; [exact Hbs|]. by intros b [? _].
  - done.
Qed.
End SimpleConcat.

Section Examples.
Import Codec Concrete SimpleConcat.
Local Open Scope string_scope.

(** The result of one shard: a delayed security, a field exception and an identifier. *)
Definition shard_batch (security id : string) (rows : nat) : ArrowBatch SimpleCol :=
  let m := mkMetadata ∅ ∅ (record exceptions_default security (mkException "PX_LAST" "BAD_FLD" 9 "" ""))
             {[security := mkDelayedMeta true (Some 15%Z)]} {["PX_LAST" := 1%Z]} [id] false [] in
  let b := mkArrowBatch (mkSchema [mkField "ticker" (OtherType "Utf8") false ∅] ∅)
             [mkCol (OtherType "Utf8") rows 0] rows in
  default b (attach ids_text m b).

Example shard_null_column :
  normalize_column 1 (mkField "PX_LAST" (OtherType "Float64") true ∅)
    (mkField "PX_LAST" (OtherType "Utf8") true ∅) (mkCol (OtherType "Utf8") 3 3) 3
  = Ok (mkCol (OtherType "Float64") 3 3).
Proof. reflexivity. Qed.

Lemma shards_failure_exact_witness :
  let e := AsyncBlp (RequestTimeout (Some "req") ["sdk-b"]) in
  exists ids,
    request_shards_ordered ids_text text_ids []
      [Ok (shard_batch "SYN_A" "sdk-a" 2); Err e; Err ChannelClosed; Ok (shard_batch "SYN_C" "sdk-c" 1)]
    = Some (Err (enrich_async_request_error e "" "" None ids)).
Proof.
  cbv zeta.
  destruct (shards_failure_exact (Col := SimpleCol) ids_text text_ids []
    [Ok (shard_batch "SYN_A" "sdk-a" 2); Err (AsyncBlp (RequestTimeout (Some "req") ["sdk-b"]));
     Err ChannelClosed; Ok (shard_batch "SYN_C" "sdk-c" 1)]
    (AsyncBlp (RequestTimeout (Some "req") ["sdk-b"]))) as (ids & Hj & _); [reflexivity|].
  exists ids. exact Hj.
Defined.

Lemma shards_lose_no_diagnostics_witness :
  is_Some (request_shards_ordered ids_text text_ids []
             (Ok <$> [shard_batch "SYN_A" "sdk-a" 2; shard_batch "SYN_B" "sdk-b" 1])).
Proof.
  refine (proj1 (shards_lose_no_diagnostics (Col := SimpleCol) ids_text text_ids text_ids_text []
                   (shard_batch "SYN_A" "sdk-a" 2) (shard_batch "SYN_B" "sdk-b" 1) [] _)).
  unfold batch_ok, fits, column_fits. repeat constructor; vm_compute; reflexivity.
Defined.
End Examples.
