(* ===== verification/Delayed.v ===== *)
(** * Delayed data

    [engine/delayed.rs] and the part of [Engine::request] ([engine/mod.rs]) it is
    called from: which status fields ride on a reference request, which securities of
    a historical or intraday request are looked up beside it, how the two answers are
    combined, and what [on_delayed=raise] does with the result.  The date texts of
    [engine/intraday_timezone.rs] the window test reads are modelled with chrono's
    parsers as the class [ChronoParse]; an instant is its nanoseconds since the epoch
    and a date its days.  The two concurrent requests are the sequence of their
    completions. *)

From Stdlib Require Import Ascii String ZArith Lia Sorting.
From stdpp Require Import pretty.
From S2P Require Import Prelude Text Errors RecipeError Services Plan Schema RequestErrors.
From S2P Require Import Diagnostics Pool Metadata.
Local Open Scope string_scope.

(** ** Policy *)

Definition delayed_policy_from_str (value : string) : result DelayedPolicy BlpAsyncError :=
  let v := to_ascii_lowercase (trim value) in
  if decide (v = "warn") then Ok DpWarn
  else if decide (v = "raise") then Ok DpRaise
  else if decide (v = "ignore") then Ok DpIgnore
  else Err (ConfigError "on_delayed must be warn, raise, or ignore").

Definition STATUS_FIELDS : list string := [IS_DELAYED_STREAM; EXCHANGE_DELAY].
Definition RAISE_TICKER_LIMIT : nat := 10.

Definition hidden_refdata_fields (r : PreparedRequest) : list string :=
  let p := pr_params r in
  match on_delayed p, pr_shape r with
  | Some _, ShRefData _ =>
      List.filter
        (fun status => negb (existsb (fun field => eq_ignore_ascii_case (trim field) status)
                               (default [] (Plan.fields p))))
        STATUS_FIELDS
  | _, _ => []
  end.

(** ** Windows *)

Definition DAY_NANOS : Z := 86400 * 10 ^ 9.

(** chrono: an RFC 3339 text as an instant, a text in a format as a local date and
    time or as a date. *)
Class ChronoParse := {
  parse_rfc3339 : string -> option Z;
  parse_naive_datetime : string -> string -> option Z;
  parse_naive_date : string -> string -> option Z
}.

Inductive UserDateTime : Type := UdtUtc (nanos : Z) | UdtNaive (nanos : Z).

Section Windows.
Context `{ChronoParse}.

Definition replace_space (c : ascii) : ascii := if decide (c = " "%char) then "T"%char else c.

(** [t.trim_end_matches('Z')] *)
Definition trim_end_Z (l : list ascii) : list ascii :=
  rev (skip_while (fun c => bool_decide (c = "Z"%char)) (rev l)).

Definition ends_with_Z (l : list ascii) : bool :=
  match last l with Some c => bool_decide (c = "Z"%char) | None => false end.

Definition parse_user_datetime (input : string) : result UserDateTime BlpAsyncError :=
  let l := List.map replace_space (chars (trim input)) in
  let t := of_chars l in
  match parse_rfc3339 t with
  | Some nanos => Ok (UdtUtc nanos)
  | None =>
      let t_z := if ends_with_Z l && negb (bool_decide ("+"%char ∈ l))
                 then of_chars (trim_end_Z l) ++ "+00:00" else t in
      match parse_rfc3339 t_z with
      | Some nanos => Ok (UdtUtc nanos)
      | None =>
          match omap (parse_naive_datetime t)
                  ["%Y-%m-%dT%H:%M:%S%.f"; "%Y-%m-%dT%H:%M:%S"; "%Y-%m-%dT%H:%M"] with
          | nanos :: _ => Ok (UdtNaive nanos)
          | [] =>
              match parse_naive_date t "%Y-%m-%d" with
              | Some days => Ok (UdtNaive (days * DAY_NANOS))
              | None => Err (ConfigError ("could not parse datetime: " ++ input))
              end
          end
      end
  end.

Definition parse_utc_instant (input : string) : option Z :=
  match parse_user_datetime input with
  | Ok (UdtUtc nanos) | Ok (UdtNaive nanos) => Some nanos
  | Err _ => None
  end.

Definition parse_request_date (value : string) : option Z :=
  let value := trim value in
  match parse_naive_date value "%Y%m%d" with
  | Some d => Some d
  | None => parse_naive_date value "%Y-%m-%d"
  end.

(** [end >= bound], true when there is no end. *)
Definition none_or_ge (end_ : option Z) (bound : Z) : bool :=
  match end_ with None => true | Some e => (bound <=? e)%Z end.

(** The filter with a [HashSet] of what was seen. *)
Fixpoint first_seen (seen l : list string) : list string :=
  match l with
  | [] => []
  | x :: l => if decide (x ∈ seen) then first_seen seen l else x :: first_seen (x :: seen) l
  end.

(** Does the window reach the last 24 hours?  [None] for operations without one. *)
Definition recent_window (r : PreparedRequest) (now : Z) : option bool :=
  let p := pr_params r in
  match pr_operation r with
  | OpHistoricalData =>
      Some (none_or_ge (end_date p ≫= parse_request_date) ((now - DAY_NANOS) / DAY_NANOS))
  | OpIntradayBar | OpIntradayTick =>
      Some (none_or_ge (end_datetime p ≫= parse_utc_instant) (now - 24 * 3600 * 10 ^ 9))
  | _ => None
  end.

Definition lookup_securities (r : PreparedRequest) (now : Z) : option (list string) :=
  let p := pr_params r in
  match on_delayed p with
  | None => None
  | Some _ =>
      match recent_window r now with
      | Some true =>
          let secs := first_seen [] (default [] (Plan.securities p)
                                       ++ match security p with Some s => [s] | None => [] end)%list in
          match secs with [] => None | _ => Some secs end
      | _ => None
      end
  end.
End Windows.

(** ** Answers *)

Section Answers.
Context {Col : Type} `{ArrowOps Col}.
Context `{JE : Json (gmap string (list Z))} `{JS : Json (gmap string SecurityErrorMeta)}.
Context `{JD : Json (gmap string DelayedMeta)} `{JM : Json (gmap string Z)}.
Context `{EX : ExceptionsJson}.
Variable ids_to_json : list string -> string.
Variable ids_from_json : string -> option (list string).

(** The request of a status lookup. *)
Definition lookup_params (secs : list string) : RequestParams :=
  mkParams (service_as_str SvRefData) (operation_as_str OpReferenceData) None None ExRefData true
    (Some secs) None (Some STATUS_FIELDS) None None None None None None None None None None None
    None None None None false false (Some DpIgnore) (Some false) None None None.

(** [lookup], given the engine's answer to [lookup_params]. *)
Definition lookup (answer : result (ArrowBatch Col) BlpAsyncError)
  : result ResponseMetadata BlpAsyncError :=
  match answer with
  | Err e => Err e
  | Ok batch =>
      let m := with_delayed (default ∅ (delayed_metadata batch)) in
      Ok (collect_bloomberg_request_ids ids_from_json m batch)
  end.

(** One of the two concurrent requests completes. *)
Inductive Completion : Type :=
| ResponseDone (r : result (ArrowBatch Col) BlpAsyncError)
| LookupDone (r : result ResponseMetadata BlpAsyncError).

Record Join : Type := mkJoin {
  completed : list string;
  j_response : option (ArrowBatch Col);
  j_lookup : option ResponseMetadata
}.

(** The identifiers are recorded when a request completes; the first error ends both.
    A request that completed is not polled again. *)
Definition join_step (j : Join) (c : Completion) : Join + (BlpAsyncError * list string) :=
  match c with
  | ResponseDone r =>
      match j_response j, r with
      | Some _, _ => inl j
      | None, Ok b => inl (mkJoin (collect_ids ids_from_json (completed j) b) (Some b) (j_lookup j))
      | None, Err e => inr (e, ids_extend (completed j) (async_bloomberg_request_ids e))
      end
  | LookupDone r =>
      match j_lookup j, r with
      | Some _, _ => inl j
      | None, Ok m => inl (mkJoin (ids_extend (completed j) (rm_ids m)) (j_response j) (Some m))
      | None, Err e => inr (e, ids_extend (completed j) (async_bloomberg_request_ids e))
      end
  end.

Inductive Poll (A : Type) : Type := Pending | Ready (a : A).
#[global] Arguments Pending {A}.
#[global] Arguments Ready {A} a.

(** [tokio::try_join!] and what follows it; [Ready None] is a panic. *)
Fixpoint combine_from (p : RequestParams) (j : Join) (events : list Completion)
  : Poll (option (result (ArrowBatch Col) BlpAsyncError)) :=
  match j_response j, j_lookup j with
  | Some b, Some m => Ready (Ok <$> attach ids_to_json (extend_request_ids m (completed j)) b)
  | _, _ =>
      match events with
      | [] => Pending
      | c :: events =>
          match join_step j c with
          | inl j => combine_from p j events
          | inr (e, ids) =>
              Ready (Some (Err (enrich_async_request_error e (service p)
                                  (effective_operation_name p) (request_id p) ids)))
          end
      end
  end.

Definition combine (p : RequestParams) (events : list Completion)
  : Poll (option (result (ArrowBatch Col) BlpAsyncError)) :=
  combine_from p (mkJoin [] None None) events.

(** ** The policy on a finished result *)

Definition delayed_entry (index : nat) (entry : string * DelayedMeta) : string :=
  (if decide (index = 0) then " " else ", ") ++ entry.1
  ++ match delay_minutes entry.2 with
     | Some minutes => " (" ++ pretty minutes ++ " minutes behind real time)"
     | None => ""
     end.

Definition delayed_securities (b : ArrowBatch Col) : list (string * DelayedMeta) :=
  List.filter (fun e => delayed e.2) (btree_pairs (default ∅ (delayed_metadata b))).

Definition delayed_label (late : list (string * DelayedMeta)) : string :=
  "Bloomberg is delivering delayed data; on_delayed=raise:"
  ++ String.concat "" (imap delayed_entry (take RAISE_TICKER_LIMIT late))
  ++ (if (RAISE_TICKER_LIMIT <? length late)%nat
      then ", and " ++ pretty (length late - RAISE_TICKER_LIMIT) ++ " more" else "").

Definition enforce (p : RequestParams) (operation : string) (b : ArrowBatch Col)
  : result (ArrowBatch Col) BlpAsyncError :=
  match on_delayed p with
  | Some DpRaise =>
      match delayed_securities b with
      | [] => Ok b
      | late =>
          Err (AsyncBlp (RequestFailure (service p) (Some operation) None (Some (delayed_label late))
                 (request_id p) (batch_request_ids ids_from_json b) None))
      end
  | _ => Ok b
  end.

(** ** A whole request *)

Definition intraday_operation (p : RequestParams) : bool :=
  match operation_from_str (effective_operation_name p) with
  | OpIntradayBar | OpIntradayTick => true
  | _ => false
  end.

(** [resolve] is [resolve_tz_label] with the label and the security. *)
Definition apply_intraday_output_timezone
  (resolve : string -> option string -> result string BlpAsyncError)
  (b : ArrowBatch Col) (p : RequestParams) : result (ArrowBatch Col) BlpAsyncError :=
  if negb (intraday_operation p) then Ok b
  else
    match output_tz p with
    | None => Ok b
    | Some label =>
        if bool_decide (label = "") || eq_ignore_ascii_case label "utc" then Ok b
        else
          match resolve label (security p) with
          | Err e => Err e
          | Ok iana =>
              result_map_err (fun e => ConfigError ("intraday output timezone: " ++ e))
                (apply_output_timezone_batch b iana None)
          end
    end.

(** [Engine::request] from the prepared request on: [events] are the completions of the
    response and of the status lookup, of which only the response is awaited when
    there is nothing to look up. *)
Definition engine_answer `{ChronoParse} (r : PreparedRequest) (now : Z) (events : list Completion)
  : Poll (option (result (ArrowBatch Col) BlpAsyncError)) :=
  match lookup_securities r now with
  | Some _ => combine (pr_params r) events
  | None =>
      match omap (fun c => match c with ResponseDone r => Some r | LookupDone _ => None end) events with
      | [] => Pending
      | answer :: _ => Ready (Some answer)
      end
  end.

Definition finish_request (resolve : string -> option string -> result string BlpAsyncError)
  (key_column : KeyColumn) (r : PreparedRequest) (answer : result (ArrowBatch Col) BlpAsyncError)
  : option (result (ArrowBatch Col) BlpAsyncError) :=
  match answer with
  | Err e => Some (Err e)
  | Ok b =>
      match apply_intraday_output_timezone resolve b (pr_params r) with
      | Err e => Some (Err e)
      | Ok b =>
          match enforce (pr_params r) (operation_as_str (pr_operation r)) b with
          | Err e => Some (Err e)
          | Ok b =>
              if has_key_column (pr_shape r) then Ok <$> name_key_column b key_column
              else Some (Ok b)
          end
      end
  end.

Definition request `{ChronoParse}
  (resolve : string -> option string -> result string BlpAsyncError) (key_column : KeyColumn)
  (r : PreparedRequest) (now : Z) (events : list Completion)
  : Poll (option (result (ArrowBatch Col) BlpAsyncError)) :=
  match engine_answer r now events with
  | Pending => Pending
  | Ready None => Ready None
  | Ready (Some answer) => Ready (finish_request resolve key_column r answer)
  end.
End Answers.

(** *** Texts and windows on the values of the code's tests *)

Example delay_texts :
  parse_exchange_delay_minutes "15 Minutes" = Some 15%Z
  /\ parse_exchange_delay_minutes "10 Minutes and Not Available" = Some 10%Z
  /\ parse_exchange_delay_minutes "1 Hour" = Some 60%Z
  /\ parse_exchange_delay_minutes "None" = None
  /\ parse_exchange_delay_minutes "71582789 hours" = None
  /\ parse_exchange_delay_minutes "15" = None.
Proof. split_and!; reflexivity. Qed.

Example label_text :
  delayed_label [("BHP AT Equity", mkDelayedMeta true (Some 20%Z)); ("VOD LN Equity", mkDelayedMeta true None)]
  = "Bloomberg is delivering delayed data; on_delayed=raise: BHP AT Equity (20 minutes behind real time), VOD LN Equity".
Proof. reflexivity. Qed.

Local Close Scope string_scope.

(** ** Which securities are looked up *)

Lemma first_seen_spec seen l :
  NoDup (first_seen seen l) /\ (forall x, x ∈ first_seen seen l <-> x ∈ l /\ x ∉ seen).
Proof.
  revert seen. induction l as [|x l IH]; intros seen; simpl; [split; [constructor|set_solver]|].
  case_decide as Hx.
  - destruct (IH seen) as [Hn Hi]. split; [done|]. set_solver.
  - destruct (IH (x :: seen)) as [Hn Hi]. split; [constructor; [set_solver|done]|].
    intros y. rewrite elem_of_cons, Hi. destruct (decide (y = x)) as [->|]; set_solver.
Qed.

(** A status lookup is made exactly for requests with a policy whose window reaches
    the last day and that name a security, once for each security they name. *)
Lemma lookup_securities_spec `{ChronoParse} r now secs :
  lookup_securities r now = Some secs <->
  on_delayed (pr_params r) <> None /\ recent_window r now = Some true /\ secs <> []
  /\ secs = first_seen [] (default [] (Plan.securities (pr_params r)) ++ option_list (security (pr_params r))).
Proof.
  unfold lookup_securities.
  replace (match security (pr_params r) with Some s => [s] | None => [] end)
    with (option_list (security (pr_params r))) by (by destruct (security (pr_params r))).
  destruct (on_delayed (pr_params r)) as [pol|]; [|by naive_solver].
  destruct (recent_window r now) as [[]|]; [|by naive_solver..].
  destruct (first_seen [] _) as [|s l]; split.
  - done.
  - by intros (_ & _ & Hne & ->).
  - by intros [= <-].
  - by intros (_ & _ & _ & ->).
Qed.

Section Laws.
Context {Col : Type} `{AL : ArrowLaws Col}.
Context `{LE : JsonLaws (gmap string (list Z))} `{LS : JsonLaws (gmap string SecurityErrorMeta)}.
Context `{LD : JsonLaws (gmap string DelayedMeta)} `{LM : JsonLaws (gmap string Z)}.
Context `{LX : ExceptionsJsonLaws}.
Variable ids_to_json : list string -> string.
Variable ids_from_json : string -> option (list string).
Hypothesis ids_json : forall l, ids_from_json (ids_to_json l) = Some l.

Implicit Types (b : ArrowBatch Col) (m : ResponseMetadata).
Local Abbreviation reading := (reading ids_from_json).
Local Abbreviation collect_ids := (collect_ids ids_from_json).
Local Abbreviation combine := (combine (Col := Col) ids_to_json ids_from_json).

(** ** Combining the answers *)

(** The failure of the join: the first error with the identifiers of what completed. *)
Definition join_failure (p : RequestParams) (e : BlpAsyncError) (ids : list string)
  : Poll (option (result (ArrowBatch Col) BlpAsyncError)) :=
  Ready (Some (Err (enrich_async_request_error e (service p) (effective_operation_name p)
                      (request_id p) ids))).

Lemma attach_lookup m b ids :
  metadata_ok m ->
  (forall i, i ∈ ids <-> i ∈ collect_ids [] b \/ i ∈ rm_ids m) ->
  exists b', attach ids_to_json (extend_request_ids m ids) b = Some b'
    /\ b_columns b' = b_columns b /\ b_rows b' = b_rows b
    /\ fields (b_schema b') = fields (b_schema b)
    /\ r_delayed (reading b') = kept (rm_delayed m) (r_delayed (reading b))
    /\ r_ids (reading b') = union_ids (collect_ids [] b) (rm_ids m).
Proof.
  intros [Hw Hs] Hi.
  assert (metadata_ok (extend_request_ids m ids)) as Hok by (split; [done|by apply ids_extend_sorted]).
  destruct (attach_reading ids_to_json ids_from_json ids_json _ b Hok) as (b' & Ha & Hc & Hr & Hf & E).
  exists b'. split_and!; try done; [by rewrite E|].
  assert (rm_ids (extend_request_ids m ids) = union_ids (collect_ids [] b) (rm_ids m)) as Eids.
  { apply strictly_sorted_ext; [by apply ids_extend_sorted|apply union_ids_sorted|].
    intros x. simpl. rewrite elem_of_ids_extend, elem_of_union_ids, Hi. tauto. }
  rewrite E. simpl r_ids. simpl in Eids. rewrite Eids.
  destruct (union_ids (collect_ids [] b) (rm_ids m)) eqn:Eu; [|done].
  by apply union_ids_nil in Eu as [-> _].
Qed.

Lemma ids_extend_union l more :
  StronglySorted string_lt l -> ids_extend l more = union_ids l more.
Proof.
  intros Hl. apply strictly_sorted_ext; [by apply ids_extend_sorted|apply union_ids_sorted|].
  intros x. by rewrite elem_of_ids_extend, elem_of_union_ids.
Qed.

Lemma ids_extend_nil l : StronglySorted string_lt l -> ids_extend [] l = l.
Proof.
  intros Hl. apply strictly_sorted_ext; [apply ids_extend_sorted; constructor|done|].
  intros x. rewrite elem_of_ids_extend, elem_of_nil. tauto.
Qed.

Lemma combine_ok p b m :
  metadata_ok m ->
  exists b',
    combine p [ResponseDone (Ok b); LookupDone (Ok m)] = Ready (Some (Ok b'))
    /\ combine p [LookupDone (Ok m); ResponseDone (Ok b)] = Ready (Some (Ok b'))
    /\ b_columns b' = b_columns b /\ b_rows b' = b_rows b
    /\ fields (b_schema b') = fields (b_schema b)
    /\ r_delayed (reading b') = kept (rm_delayed m) (r_delayed (reading b))
    /\ r_ids (reading b') = union_ids (collect_ids [] b) (rm_ids m).
Proof.
  intros Hm. pose proof (proj2 Hm) as Hs.
  assert (StronglySorted string_lt (collect_ids [] b)) as Hb by (apply collect_ids_sorted; constructor).
  set (l1 := ids_extend (collect_ids [] b) (rm_ids m)). set (l2 := collect_ids (rm_ids m) b).
  assert (l1 = l2) as El.
  { apply strictly_sorted_ext; [by apply ids_extend_sorted|by apply collect_ids_sorted|].
    intros x. unfold l1, l2. rewrite elem_of_ids_extend, (elem_of_collect_ids ids_from_json (rm_ids m)). tauto. }
  destruct (attach_lookup m b l1 Hm) as (b' & Ha & Hrest).
  { intros i. unfold l1. by rewrite elem_of_ids_extend. }
  exists b'. unfold Delayed.combine. simpl. rewrite ids_extend_nil by done.
  fold l1 l2. rewrite <- El, Ha. done.
Qed.

(** The answer and its status lookup combine the same whichever of
    the two completes first: the rows of the answer, the delay status of the lookup,
    and the identifiers of both requests.  An error of either fails the call at once,
    without the other, with the identifiers of exactly the requests that completed. *)
Theorem status_lookup_combined p b m e :
  metadata_ok m ->
  (exists b',
     combine p [ResponseDone (Ok b); LookupDone (Ok m)] = Ready (Some (Ok b'))
     /\ combine p [LookupDone (Ok m); ResponseDone (Ok b)] = Ready (Some (Ok b'))
     /\ b_columns b' = b_columns b /\ b_rows b' = b_rows b
     /\ fields (b_schema b') = fields (b_schema b)
     /\ r_delayed (reading b') = kept (rm_delayed m) (r_delayed (reading b))
     /\ r_ids (reading b') = union_ids (collect_ids [] b) (rm_ids m))
  /\ (forall later, combine p (ResponseDone (Err e) :: later)
                    = join_failure p e (ids_extend [] (async_bloomberg_request_ids e))
                 /\ combine p (LookupDone (Err e) :: later)
                    = join_failure p e (ids_extend [] (async_bloomberg_request_ids e)))
  /\ combine p [ResponseDone (Ok b); LookupDone (Err e)]
     = join_failure p e (union_ids (collect_ids [] b) (async_bloomberg_request_ids e))
  /\ combine p [LookupDone (Ok m); ResponseDone (Err e)]
     = join_failure p e (union_ids (rm_ids m) (async_bloomberg_request_ids e))
  /\ combine p [ResponseDone (Ok b)] = Pending /\ combine p [LookupDone (Ok m)] = Pending.
Proof.
  intros Hm. pose proof (proj2 Hm) as Hs.
  assert (StronglySorted string_lt (collect_ids [] b)) as Hb by (apply collect_ids_sorted; constructor).
  split; [by apply combine_ok|]. split_and!; unfold Delayed.combine; simpl; try done.
  - by rewrite ids_extend_union.
  - by rewrite ids_extend_nil, ids_extend_union.
Qed.

(** ** The policy *)

Lemma delayed_securities_nil b :
  delayed_securities b = [] ->
  map_Forall (fun _ d => delayed d = false) (r_delayed (reading b)).
Proof.
  unfold delayed_securities. intros Hl t d Ht. simpl in Ht. fold (delayed_metadata b) in Ht.
  destruct (delayed d) eqn:Hd; [|done].
  assert ((t, d) ∈ List.filter (fun e => delayed e.2) (btree_pairs (default ∅ (delayed_metadata b)))) as Hin.
  { apply list_elem_of_In, filter_In. split; [|done]. apply list_elem_of_In.
    rewrite btree_pairs_perm. by apply elem_of_map_to_list. }
  rewrite Hl in Hin. by apply not_elem_of_nil in Hin.
Qed.

Lemma reading_metadata b b' :
  s_metadata (b_schema b') = s_metadata (b_schema b) -> reading b' = reading b.
Proof. intros E. unfold Metadata.reading, Metadata.collect_ids. by rewrite E. Qed.

Lemma timezone_metadata resolve b p b' :
  batch_ok b -> apply_intraday_output_timezone resolve b p = Ok b' ->
  batch_ok b' /\ s_metadata (b_schema b') = s_metadata (b_schema b).
Proof.
  intros Hb. unfold apply_intraday_output_timezone. destruct (intraday_operation p); simpl; [|by intros [= <-]].
  destruct (output_tz p) as [label|]; [|by intros [= <-]].
  destruct (_ || _); [by intros [= <-]|]. destruct (resolve label (security p)) as [iana|]; [|done].
  destruct (apply_timezone_cached b iana
              (default ""%string (s_metadata (b_schema b) !! METADATA_KEY_BLOOMBERG_REQUEST_ID)))
    as (b2 & -> & Hs & Hok & _); [done| |].
  { intros i Hi. by rewrite Hi. }
  simpl. intros [= <-]. split; [done|]. rewrite Hs. unfold zone_schema.
  case_decide; [done|]. destruct (list_find _ _) as [[ti f]|]; [|done]. by destruct (f_type f) as [[]|].
Qed.

Lemma key_column_metadata b key :
  batch_ok b -> exists b', name_key_column b key = Some b' /\ s_metadata (b_schema b') = s_metadata (b_schema b).
Proof.
  intros Hb. unfold name_key_column. destruct (renamed_schema (b_schema b) key) as [s|] eqn:Hr; [|by exists b].
  rewrite (renamed_fits b key s Hb Hr). eexists. split; [done|]. simpl.
  unfold renamed_schema in Hr. destruct (fields (b_schema b)); [done|].
  case_decide; [done|]. case_decide; [|done]. by injection Hr as <-.
Qed.

(** A good answer leaves the engine with its diagnostics, or is refused by the policy. *)
Lemma finish_request_spec resolve key r b :
  batch_ok b ->
  (exists e, finish_request ids_from_json resolve key r (Ok b) = Some (Err e))
  \/ (exists b', finish_request ids_from_json resolve key r (Ok b) = Some (Ok b')
        /\ reading b' = reading b
        /\ (on_delayed (pr_params r) = Some DpRaise ->
              map_Forall (fun _ d => delayed d = false) (r_delayed (reading b)))).
Proof.
  intros Hb. unfold finish_request. destruct (apply_intraday_output_timezone _ _ _) as [b1|e] eqn:Hz; [|left; by exists e].
  destruct (timezone_metadata _ _ _ _ Hb Hz) as [Hb1 E1].
  destruct (enforce _ _ _ b1) as [b2|e] eqn:Hf; [|left; by exists e]. right.
  assert (b2 = b1 /\ (on_delayed (pr_params r) = Some DpRaise ->
            map_Forall (fun _ d => delayed d = false) (r_delayed (reading b1)))) as [-> Hp].
  { unfold enforce in Hf. destruct (on_delayed (pr_params r)) as [[]|];
      try (injection Hf as <-; split; [done|discriminate]).
    destruct (delayed_securities b1) eqn:Hl; [|done]. split; [by simplify_eq|]. intros _.
    by apply delayed_securities_nil. }
  rewrite <- (reading_metadata b b1 E1).
  destruct (has_key_column _); [|by exists b1].
  destruct (key_column_metadata b1 key Hb1) as (b' & -> & E). exists b'. split; [done|].
  split; [by apply reading_metadata|done].
Qed.

Local Abbreviation request := (request (Col := Col) ids_to_json ids_from_json).

(** The answers are well formed. *)
Definition good_events (events : list Completion) : Prop :=
  Forall (fun c => match c with
                   | ResponseDone (Ok b) => batch_ok b
                   | LookupDone (Ok m) => metadata_ok m
                   | _ => True
                   end) events.

Lemma combine_good p events : forall ids rb lm,
  good_events events -> from_option batch_ok True rb -> from_option metadata_ok True lm ->
  match combine_from ids_to_json ids_from_json p (mkJoin ids rb lm) events with
  | Pending => True
  | Ready r => exists a, r = Some a /\ forall b, a = Ok b -> batch_ok b
  end.
Proof.
  assert (forall ids b m, batch_ok b -> metadata_ok m ->
    exists a, Ok (E := BlpAsyncError) <$> attach ids_to_json (extend_request_ids m ids) b = Some a
      /\ forall b', a = Ok b' -> batch_ok b') as Hboth.
  { intros ids b m Hb [Hw Hs]. destruct (attach_reading ids_to_json ids_from_json ids_json
      (extend_request_ids m ids) b) as (b' & -> & Hc & Hr & Hf & _).
    { split; [done|]. by apply ids_extend_sorted. }
    exists (Ok b'). split; [done|]. intros b2 [= <-]. unfold batch_ok, fits in *. by rewrite Hc, Hr, Hf. }
  induction events as [|c events IH]; intros ids rb lm Hg Hr Hl.
  - destruct rb, lm; simpl; auto.
  - inversion Hg as [|? ? Hc Hg']; subst.
    destruct rb as [b0|], lm as [m0|]; simpl; [by apply Hboth|..];
      destruct c as [[b|e]|[m|e]]; simpl; try (by apply IH); by eexists.
Qed.

Lemma request_ready `{ChronoParse} resolve key r now events :
  good_events events ->
  match engine_answer ids_to_json ids_from_json r now events with
  | Pending => request resolve key r now events = Pending
  | Ready a => exists x, a = Some x
      /\ request resolve key r now events = Ready (finish_request ids_from_json resolve key r x)
      /\ forall b, x = Ok b -> batch_ok b
  end.
Proof.
  intros Hg. unfold Delayed.request.
  assert (forall a, engine_answer ids_to_json ids_from_json r now events = Ready a ->
            exists x, a = Some x /\ forall b, x = Ok b -> batch_ok b) as Hans.
  { intros a. unfold engine_answer. destruct (lookup_securities r now).
    - pose proof (combine_good (pr_params r) events [] None None Hg I I) as Hc.
      unfold Delayed.combine. destruct (combine_from _ _ _ _ _); [done|]. by intros [= <-].
    - clear -Hg. induction Hg as [|c events Hc _ IH]; simpl; [done|].
      destruct c as [x|x]; [|exact IH]. intros [= <-]. exists x. split; [done|]. by intros b ->. }
  destruct (engine_answer _ _ r now events) as [|a]; [done|].
  destruct (Hans a eq_refl) as (x & -> & Hx). by exists x.
Qed.

(** C11: with [on_delayed=raise] no result that reports a delayed security is
    returned, whether the status came with the response or from a lookup; a lookup that
    reports one makes the call fail, in whatever order the two requests finish.  The
    engine never panics on well-formed answers. *)
Theorem raise_is_strict `{ChronoParse} resolve key r now events :
  good_events events ->
  request resolve key r now events <> Ready None
  /\ (on_delayed (pr_params r) = Some DpRaise ->
      (forall b', request resolve key r now events = Ready (Some (Ok b')) ->
         map_Forall (fun _ d => delayed d = false) (r_delayed (reading b')))
      /\ (forall secs b m t d,
            lookup_securities r now = Some secs ->
            events = [ResponseDone (Ok b); LookupDone (Ok m)]
            \/ events = [LookupDone (Ok m); ResponseDone (Ok b)] ->
            rm_delayed m !! t = Some d -> delayed d = true ->
            exists e, request resolve key r now events = Ready (Some (Err e)))).
Proof.
  intros Hg. pose proof (request_ready resolve key r now events Hg) as Hreq.
  split; [|intros Hp; split].
  - destruct (engine_answer _ _ r now events) as [|a]; [by rewrite Hreq|].
    destruct Hreq as ([b|e] & -> & -> & Hx); [|done].
    by destruct (finish_request_spec resolve key r b (Hx b eq_refl)) as [[e ->]|(b' & -> & _)].
  - intros b' Hb'. destruct (engine_answer _ _ r now events) as [|a]; [by rewrite Hreq in Hb'|].
    destruct Hreq as ([b|e] & -> & Hr & Hx); rewrite Hr in Hb'; [|done].
    destruct (finish_request_spec resolve key r b (Hx b eq_refl)) as [[e E]|(b2 & E & Er & Hs)];
      rewrite E in Hb'; [done|]. injection Hb' as <-. rewrite Er. by apply Hs.
  - intros secs b m t d Hl Hev Ht Hd.
    assert (metadata_ok m) as Hm.
    { destruct Hev as [-> | ->]; inversion Hg as [|? ? Hg1 Hg2]; subst; [|done].
      by inversion Hg2. }
    destruct (combine_ok (pr_params r) b m Hm) as (b1 & Hc1 & Hc2 & _ & _ & _ & Hdel & _).
    assert (engine_answer ids_to_json ids_from_json r now events = Ready (Some (Ok b1))) as Ea.
    { unfold engine_answer. rewrite Hl. by destruct Hev as [-> | ->]. }
    rewrite Ea in Hreq. destruct Hreq as (x & [= <-] & Hr & Hx). rewrite Hr.
    destruct (finish_request_spec resolve key r b1 (Hx b1 eq_refl)) as [[e ->]|(b2 & _ & _ & Hs)]; [by exists e|].
    specialize (Hs Hp). rewrite Hdel in Hs. unfold kept in Hs.
    rewrite decide_False in Hs by (intros Hn; by rewrite Hn in Ht).
    specialize (Hs t d Ht). simpl in Hs. congruence.
Qed.
End Laws.

(** ** Examples *)

Section Examples.
Import Codec Concrete.
Local Open Scope string_scope.

(** Dates [20240101] to [20240131] and instants on 2 January 2024. *)
#[local] Instance january : ChronoParse := {
  parse_rfc3339 s := if decide (s = "2024-01-02T11:59:59Z") then Some (19724 * DAY_NANOS + 43199 * 10 ^ 9)%Z
                     else None;
  parse_naive_datetime s fmt :=
    if decide ((s, fmt) = ("2024-01-02T12:00:00", "%Y-%m-%dT%H:%M:%S")) then
      Some (19724 * DAY_NANOS + 43200 * 10 ^ 9)%Z else None;
  parse_naive_date s fmt :=
    if decide (fmt = "%Y%m%d") then
      match s with "20240101" => Some 19723%Z | "20240102" => Some 19724%Z | _ => None end
    else None
}.

Definition noon_3_january : Z := 19725 * DAY_NANOS + 43200 * 10 ^ 9.

Definition dated_request (op : Operation) (end_d end_dt : option string) (policy : option DelayedPolicy)
  : PreparedRequest :=
  mkPrepared
    (mkParams "//blp/refdata" (operation_as_str op) None (Some "req") ExHistData false
       (Some ["VOD LN Equity"; "AAPL US Equity"; "VOD LN Equity"]) None (Some ["PX_LAST"]) None None None
       None None end_d None end_dt None None None None None None None false false policy None None None None)
    (ShHistData (mkOutput OfLong LmString)) op ∅ false.

Example windows :
  lookup_securities (dated_request OpHistoricalData (Some "20240102") None (Some DpWarn)) noon_3_january
  = Some ["VOD LN Equity"; "AAPL US Equity"]
  /\ lookup_securities (dated_request OpHistoricalData (Some "20240101") None (Some DpWarn)) noon_3_january = None
  /\ is_Some (lookup_securities (dated_request OpHistoricalData (Some "not a date") None (Some DpWarn)) noon_3_january)
  /\ is_Some (lookup_securities (dated_request OpIntradayBar None (Some "2024-01-02 12:00:00") (Some DpIgnore)) noon_3_january)
  /\ lookup_securities (dated_request OpIntradayBar None (Some "2024-01-02T11:59:59Z") (Some DpIgnore)) noon_3_january = None
  /\ lookup_securities (dated_request OpHistoricalData (Some "20240102") None None) noon_3_january = None.
Proof. split_and!; try reflexivity; by eexists. Qed.

Definition plain_batch : ArrowBatch SimpleCol :=
  mkArrowBatch (mkSchema [mkField "ticker" (OtherType "Utf8") false ∅]
                  {[METADATA_KEY_BLOOMBERG_REQUEST_ID := "sdk-data"]})
    [mkCol (OtherType "Utf8") 1 0] 1.

Definition late_status : ResponseMetadata :=
  mkMetadata ∅ ∅ exceptions_default {["VOD LN Equity" := mkDelayedMeta true (Some 15%Z)]} ∅
    ["sdk-status"] false [].

Lemma late_status_ok : metadata_ok late_status.
Proof. split; [split; [constructor|apply map_Forall_empty]|repeat constructor]. Qed.

Lemma status_lookup_combined_witness :
  exists b', combine ids_text text_ids params0 [LookupDone (Ok late_status); ResponseDone (Ok plain_batch)]
             = Ready (Some (Ok b'))
    /\ r_delayed (reading text_ids b') = {["VOD LN Equity" := mkDelayedMeta true (Some 15%Z)]}.
Proof.
  destruct (status_lookup_combined (Col := SimpleCol) ids_text text_ids text_ids_text params0 plain_batch
              late_status ChannelClosed late_status_ok) as [(b' & _ & E & _ & _ & _ & Ed & _) _].
  exists b'. split; [exact E|]. rewrite Ed. reflexivity.
Defined.

Lemma raise_is_strict_witness :
  exists e, request ids_text text_ids (fun _ _ => Ok "UTC") KcTicker
              (dated_request OpHistoricalData (Some "20240102") None (Some DpRaise)) noon_3_january
              [ResponseDone (Ok plain_batch); LookupDone (Ok late_status)] = Ready (Some (Err e)).
Proof.
  assert (good_events [ResponseDone (Ok plain_batch); LookupDone (Ok late_status)]) as Hg.
  { constructor; [|constructor; [exact late_status_ok|constructor]].
    constructor; [split; [reflexivity|split; reflexivity]|constructor]. }
  refine (proj2 (proj2 (raise_is_strict (Col := SimpleCol) ids_text text_ids text_ids_text
    (fun _ _ => Ok "UTC") KcTicker (dated_request OpHistoricalData (Some "20240102") None (Some DpRaise))
    noon_3_january _ Hg) eq_refl)
    ["VOD LN Equity"; "AAPL US Equity"] plain_batch late_status "VOD LN Equity"
    (mkDelayedMeta true (Some 15%Z)) _ _ _ _); [reflexivity|left; reflexivity|reflexivity|reflexivity].
Defined.
End Examples.
