(* ===== verification/Calendar.v ===== *)
(** * Days, dates and their texts

    The calendar arithmetic of [xbbg-core/src/datetime.rs] (Bloomberg's packed date and
    time to the microseconds and nanoseconds since the epoch) and of
    [engine/state/value_utils.rs] (days since the epoch to a date, and the texts of
    dates, times and timestamps).  Both are proved against the Gregorian calendar: day
    0 is 1 January 1970 and each day is followed by the next one.

    Divisions of signed integers truncate ([Z.quot]); casts wrap to their width.
    chrono's rendering of timestamps before the epoch is the class [ChronoStamp]. *)

From Stdlib Require Import Ascii String ZArith Lia.
From stdpp Require Import pretty.
From S2P Require Import Prelude Dates.
Local Open Scope Z_scope.

(** ** From a date to days *)

Definition days_from_ymd (y m d : Z) : Z :=
  let y := y - (if m <=? 2 then 1 else 0) in
  let era := y / 400 in
  let yoe := y mod 400 in
  let doy := wrap_u 32 ((153 * (if 2 <? m then m - 3 else m + 9) + 2) / 5 + d - 1) in
  let doe := wrap_u 32 (yoe * 365 + yoe / 4 - yoe / 100 + doy) in
  era * 146097 + doe - 719468.

(** [blpapi_HighPrecisionDatetime_t]; [parts] is a bit mask. *)
Record HighPrecisionDatetime : Type := mkDatetime {
  dt_parts : Z;
  dt_hours : Z;
  dt_minutes : Z;
  dt_seconds : Z;
  dt_milliseconds : Z;
  dt_month : Z;
  dt_day : Z;
  dt_year : Z;
  dt_offset : Z;
  dt_picoseconds : Z
}.

Section Datetime.
(** [BLPAPI_DATETIME_DATE_PART] and [BLPAPI_DATETIME_OFFSET_PART] *)
Variables (DATE_PART OFFSET_PART : Z).

Definition has_date_parts (t : HighPrecisionDatetime) : bool :=
  Z.land (dt_parts t) DATE_PART =? DATE_PART.

Definition has_offset_part (t : HighPrecisionDatetime) : bool :=
  Z.land (dt_parts t) OFFSET_PART =? OFFSET_PART.

Definition to_time_micros (t : HighPrecisionDatetime) : Z :=
  dt_hours t * 3600000000 + dt_minutes t * 60000000 + dt_seconds t * 1000000
  + dt_milliseconds t * 1000 + Z.quot (dt_picoseconds t) 1000000.

Definition offset_micros (t : HighPrecisionDatetime) : Z :=
  if has_offset_part t then dt_offset t * 60000000 else 0.

Definition offset_nanos (t : HighPrecisionDatetime) : Z :=
  if has_offset_part t then dt_offset t * 60000000000 else 0.

Definition to_micros (t : HighPrecisionDatetime) : Z :=
  days_from_ymd (dt_year t) (dt_month t) (dt_day t) * 86400000000 + to_time_micros t - offset_micros t.

Definition to_nanos (t : HighPrecisionDatetime) : Z :=
  let ns := dt_hours t * 3600000000000 + dt_minutes t * 60000000000 + dt_seconds t * 1000000000
            + dt_milliseconds t * 1000000 + Z.quot (dt_picoseconds t) 1000 in
  wrap_s 64 (wrap_s 64 (wrap_s 64 (days_from_ymd (dt_year t) (dt_month t) (dt_day t) * 86400000000000)
    + ns) - offset_nanos t).
End Datetime.

(** ** From days to a date *)

Definition civil_from_days (days : Z) : Z * Z * Z :=
  let z := days + 719468 in
  let era := Z.quot (if 0 <=? z then z else z - 146096) 146097 in
  let doe := z - era * 146097 in
  let yoe := Z.quot (doe - Z.quot doe 1460 + Z.quot doe 36524 - Z.quot doe 146096) 365 in
  let y := yoe + era * 400 in
  let doy := doe - (365 * yoe + Z.quot yoe 4 - Z.quot yoe 100) in
  let mp := Z.quot (5 * doy + 2) 153 in
  let day := doy - Z.quot (153 * mp + 2) 5 + 1 in
  let month := mp + (if mp <? 10 then 3 else -9) in
  let year := y + (if month <=? 2 then 1 else 0) in
  (wrap_s 32 year, wrap_u 32 month, wrap_u 32 day).

(** ** Texts *)

Local Open Scope string_scope.

Fixpoint zeros (n : nat) : string := match n with O => "" | S n => "0" ++ zeros n end.

(** [push_padded_u64]: the digits, with zeros in front up to the width. *)
Definition padded_u64 (value : Z) (width : nat) : string :=
  let digits := pretty value in zeros (width - String.length digits) ++ digits.

Definition padded_i64 (value : Z) (width : nat) : string :=
  if (value <? 0)%Z then "-" ++ padded_u64 (Z.abs value) width else padded_u64 value width.

(** [push_date] *)
Definition date_text (days : Z) : string :=
  let '(year, month, day) := civil_from_days days in
  padded_i64 year 4 ++ "-" ++ padded_u64 month 2 ++ "-" ++ padded_u64 day 2.

Definition format_date32 (days : Z) : string := date_text days.

Definition format_time64_micros (micros : Z) : string :=
  let total_secs := Z.quot micros 1000000 in
  let frac_us := Z.abs (Z.rem micros 1000000) in
  let h := Z.quot total_secs 3600 in
  let m := Z.quot (Z.rem total_secs 3600) 60 in
  let s := Z.rem total_secs 60 in
  padded_i64 h 2 ++ ":" ++ padded_i64 m 2 ++ ":" ++ padded_i64 s 2 ++ "." ++ padded_u64 frac_us 6.

(** [DateTime::from_timestamp] followed by [format("%Y-%m-%dT%H:%M:%S%.6fZ")]. *)
Class ChronoStamp := { from_timestamp_text : Z -> Z -> option string }.

(** chrono rejects more than two seconds of nanoseconds. *)
Class ChronoStampLaws `{ChronoStamp} := {
  from_timestamp_nanos secs nanos : (2 * 10 ^ 9 <= nanos)%Z -> from_timestamp_text secs nanos = None
}.

Section Stamps.
Context `{ChronoStamp}.

Definition format_timestamp_micros_fallback (micros : Z) : string :=
  let secs := Z.quot micros 1000000 in
  let nanos := wrap_u 32 (Z.rem micros 1000000 * 1000) in
  match from_timestamp_text secs nanos with
  | Some text => text
  | None => pretty micros ++ "us"
  end.

Definition format_timestamp_micros (micros : Z) : string :=
  if (micros <? 0)%Z then format_timestamp_micros_fallback micros
  else
    let secs := Z.quot micros 1000000 in
    let frac_us := Z.rem micros 1000000 in
    let days := Z.quot secs 86400 in
    let seconds_of_day := Z.rem secs 86400 in
    let h := Z.quot seconds_of_day 3600 in
    let m := Z.quot (Z.rem seconds_of_day 3600) 60 in
    let s := Z.rem seconds_of_day 60 in
    date_text days ++ "T" ++ padded_i64 h 2 ++ ":" ++ padded_i64 m 2 ++ ":" ++ padded_i64 s 2 ++ "."
    ++ padded_u64 frac_us 6 ++ "Z".
End Stamps.

Local Close Scope string_scope.
Local Open Scope Z_scope.

(** Linear arithmetic with division by constants. *)
Local Ltac div_lia := Z.to_euclidean_division_equations; lia.

(** ** The Gregorian calendar *)

Definition valid_date (y m d : Z) : Prop := 1 <= m <= 12 /\ 1 <= d <= days_in_month y m.

Definition next_day (c : Z * Z * Z) : Z * Z * Z :=
  let '(y, m, d) := c in
  if d <? days_in_month y m then (y, m, d + 1)
  else if m <? 12 then (y, m + 1, 1) else (y + 1, 1, 1).

Lemma triple_eq {A B C : Type} (a a' : A) (b b' : B) (c c' : C) :
  a = a' -> b = b' -> c = c' -> (a, b, c) = (a', b', c').
Proof. by intros -> -> ->. Qed.

(** *** Years that begin in March

    A day is era, year of the era, month from March and day of that month. *)

Definition year_start (yoe : Z) : Z := 365 * yoe + yoe / 4 - yoe / 100.
Definition month_start (mp : Z) : Z := (153 * mp + 2) / 5.

(** The days of the year: 366 when the February it ends with has 29 days. *)
Definition year_length (yoe : Z) : Z := 365 + (if leap (yoe + 1) then 1 else 0).

Definition month_length (yoe mp : Z) : Z :=
  if mp =? 11 then year_length yoe - 337 else month_start (mp + 1) - month_start mp.

Record Parts : Type := mkParts { p_era : Z; p_yoe : Z; p_mp : Z; p_dd : Z }.

Definition good_parts (p : Parts) : Prop :=
  0 <= p_yoe p < 400 /\ 0 <= p_mp p <= 11 /\ 0 <= p_dd p < month_length (p_yoe p) (p_mp p).

Definition parts_number (p : Parts) : Z :=
  p_era p * 146097 + year_start (p_yoe p) + month_start (p_mp p) + p_dd p - 719468.

Definition parts_date (p : Parts) : Z * Z * Z :=
  (p_yoe p + p_era p * 400 + (if p_mp p <? 10 then 0 else 1),
   p_mp p + (if p_mp p <? 10 then 3 else -9), p_dd p + 1).

(** The days of the era from which its year is computed. *)
Definition era_years (doe : Z) : Z := doe - doe / 1460 + doe / 36524 - doe / 146096.

Lemma era_years_mono a b : 0 <= a <= b -> era_years a <= era_years b.
Proof.
  intros Hab. unfold era_years.
  assert (b / 1460 - a / 1460 <= b - a) by div_lia.
  assert (forall n, n / 146096 = n / 36524 / 4) as E by (intros; by rewrite Z.div_div).
  rewrite !E. pose proof (Z.div_le_mono a b 36524) as Hm.
  generalize dependent (a / 36524). generalize dependent (b / 36524). intros u v Hm.
  assert (v - v / 4 <= u - u / 4) by div_lia. lia.
Qed.

(** Every year of an era, checked at its first and last day. *)
Definition year_check (yoe : Z) : bool :=
  (era_years (year_start yoe) / 365 =? yoe)
  && (era_years (year_start yoe + year_length yoe - 1) / 365 =? yoe)
  && ((yoe =? 399) || (year_start yoe + year_length yoe =? year_start (yoe + 1))).

Lemma year_checked yoe : 0 <= yoe < 400 ->
  era_years (year_start yoe) / 365 = yoe
  /\ era_years (year_start yoe + year_length yoe - 1) / 365 = yoe
  /\ (yoe <> 399 -> year_start yoe + year_length yoe = year_start (yoe + 1)).
Proof.
  assert (forallb year_check (Z.of_nat <$> seq 0 400) = true) as Hc by (vm_compute; reflexivity).
  intros Hy. rewrite forallb_forall in Hc. specialize (Hc yoe).
  assert (List.In yoe (Z.of_nat <$> seq 0 400)) as Hin.
  { apply list_elem_of_In, list_elem_of_fmap. exists (Z.to_nat yoe).
    split; [lia|]. apply elem_of_seq. lia. }
  apply Hc in Hin. unfold year_check in Hin. rewrite !andb_true_iff, orb_true_iff, !Z.eqb_eq in Hin. lia.
Qed.

Lemma year_length_range yoe : 365 <= year_length yoe <= 366.
Proof. unfold year_length. destruct (leap _); lia. Qed.

(** The year of a day of the era. *)
Lemma era_year doe :
  0 <= doe < 146097 ->
  let yoe := era_years doe / 365 in
  0 <= yoe < 400 /\ year_start yoe <= doe < year_start yoe + year_length yoe.
Proof.
  intros Hd. cbv zeta. remember (era_years doe / 365) as yoe eqn:Ey.
  assert (forall d, 0 <= d -> 0 <= era_years d) as Hpos.
  { intros d Hd0. pose proof (era_years_mono 0 d). change (era_years 0) with 0 in *. lia. }
  assert (0 <= yoe < 400) as Hy.
  { pose proof (era_years_mono doe 146096). change (era_years 146096) with 145999 in *.
    specialize (Hpos doe). div_lia. }
  split; [done|]. destruct (year_checked yoe Hy) as (H1 & H2 & H3). split.
  - destruct (Z_le_gt_dec (year_start yoe) doe) as [|Hlt]; [done|].
    assert (yoe <> 0) by (intros ->; change (year_start 0) with 0 in Hlt; lia).
    destruct (year_checked (yoe - 1)) as (_ & G2 & G3); [lia|].
    replace (yoe - 1 + 1) with yoe in G3 by lia.
    pose proof (era_years_mono doe (year_start (yoe - 1) + year_length (yoe - 1) - 1)).
    div_lia.
  - destruct (Z_lt_le_dec doe (year_start yoe + year_length yoe)) as [|Hge]; [done|].
    destruct (decide (yoe = 399)) as [E|Hne].
    + rewrite E in Hge. change (year_start 399 + year_length 399) with 146097 in Hge. lia.
    + destruct (year_checked (yoe + 1)) as (G1 & _); [lia|]. rewrite <- H3 in G1 by done.
      pose proof (era_years_mono (year_start yoe + year_length yoe) doe).
      pose proof (year_length_range yoe).
      assert (0 <= year_start yoe) by (unfold year_start; div_lia). div_lia.
Qed.

(** The day of the year of parts. *)
Lemma parts_doy p :
  good_parts p -> 0 <= month_start (p_mp p) + p_dd p < year_length (p_yoe p).
Proof.
  intros (Hy & Hm & Hd). pose proof (year_length_range (p_yoe p)).
  unfold month_length, month_start in *. destruct (Z.eqb_spec (p_mp p) 11) as [E|Hne].
  - rewrite E in *. change ((153 * 11 + 2) / 5) with 337. lia.
  - assert ((153 * (p_mp p + 1) + 2) / 5 <= 337) by div_lia.
    assert (0 <= (153 * p_mp p + 2) / 5) by div_lia. lia.
Qed.

Lemma parts_doe p :
  good_parts p ->
  0 <= year_start (p_yoe p) + (month_start (p_mp p) + p_dd p) < 146097
  /\ era_years (year_start (p_yoe p) + (month_start (p_mp p) + p_dd p)) / 365 = p_yoe p.
Proof.
  intros Hg. pose proof (parts_doy p Hg). destruct Hg as (Hy & _).
  destruct (year_checked _ Hy) as (H1 & H2 & H3).
  assert (0 <= year_start (p_yoe p)) by (unfold year_start; div_lia).
  assert (year_start (p_yoe p) + year_length (p_yoe p) <= 146097).
  { destruct (decide (p_yoe p = 399)) as [->|Hne]; [by vm_compute|]. rewrite H3 by done.
    unfold year_start. div_lia. }
  set (doy := month_start (p_mp p) + p_dd p) in *. split; [lia|].
  pose proof (era_years_mono (year_start (p_yoe p)) (year_start (p_yoe p) + doy)).
  pose proof (era_years_mono (year_start (p_yoe p) + doy) (year_start (p_yoe p) + year_length (p_yoe p) - 1)).
  div_lia.
Qed.

(** The month of a day of the year. *)
Lemma month_of_doy p :
  good_parts p -> (5 * (month_start (p_mp p) + p_dd p) + 2) / 153 = p_mp p.
Proof.
  intros Hg. pose proof (parts_doy p Hg). destruct Hg as (Hy & Hm & Hd).
  pose proof (year_length_range (p_yoe p)). unfold month_length, month_start in *.
  destruct (Z.eqb_spec (p_mp p) 11) as [E|Hne].
  - rewrite E in *. change ((153 * 11 + 2) / 5) with 337 in *. div_lia.
  - div_lia.
Qed.

Lemma parts_exist z : exists p, good_parts p /\ parts_number p = z.
Proof.
  set (doe := (z + 719468) mod 146097).
  assert (0 <= doe < 146097) as Hd by (unfold doe; apply Z.mod_pos_bound; lia).
  destruct (era_year doe Hd) as [Hy Hs]. set (yoe := era_years doe / 365) in *.
  set (doy := doe - year_start yoe). set (mp := (5 * doy + 2) / 153).
  assert (0 <= doy < year_length yoe) as Hdoy by (unfold doy; lia).
  pose proof (year_length_range yoe).
  assert (0 <= mp <= 11) as Hmp by (unfold mp; clearbody doy; div_lia).
  assert (month_start mp <= doy) as Hms by (unfold month_start, mp; clearbody doy; div_lia).
  exists (mkParts ((z + 719468) / 146097) yoe mp (doy - month_start mp)). split.
  - split; [done|]. split; [done|]. simpl. unfold month_length.
    destruct (Z.eqb_spec mp 11) as [E|Hne].
    + rewrite E in Hms |- *. change (month_start 11) with 337 in *. lia.
    + unfold month_start, mp in *. clearbody doy. div_lia.
  - unfold parts_number. simpl. unfold doy, doe. pose proof (Z.div_mod (z + 719468) 146097). lia.
Qed.

Lemma civil_of_parts p :
  good_parts p -> - 2 ^ 31 <= parts_number p < 2 ^ 31 ->
  civil_from_days (parts_number p) = parts_date p.
Proof.
  intros Hg Hr. destruct (parts_doe p Hg) as [Hd Hyoe]. pose proof (parts_doy p Hg) as Hdoy.
  pose proof (month_of_doy p Hg) as Hmp. pose proof (year_length_range (p_yoe p)).
  destruct Hg as (Hy & Hm & Hdd).
  set (doy := month_start (p_mp p) + p_dd p) in *. set (doe := year_start (p_yoe p) + doy) in *.
  assert (parts_number p + 719468 = p_era p * 146097 + doe) as En
    by (unfold parts_number, doe, doy; lia).
  unfold civil_from_days. cbv zeta. rewrite En.
  assert (Z.quot (if 0 <=? p_era p * 146097 + doe then p_era p * 146097 + doe
                  else p_era p * 146097 + doe - 146096) 146097 = p_era p) as ->.
  { clearbody doe. destruct (Z.leb_spec 0 (p_era p * 146097 + doe)); div_lia. }
  replace (p_era p * 146097 + doe - p_era p * 146097) with doe by lia.
  rewrite (Z.quot_div_nonneg doe 1460), (Z.quot_div_nonneg doe 36524), (Z.quot_div_nonneg doe 146096)
    by lia. fold (era_years doe).
  assert (0 <= era_years doe) as He.
  { pose proof (era_years_mono 0 doe). change (era_years 0) with 0 in *. lia. }
  rewrite (Z.quot_div_nonneg (era_years doe)), Hyoe by lia.
  rewrite (Z.quot_div_nonneg (p_yoe p) 4), (Z.quot_div_nonneg (p_yoe p) 100) by lia.
  fold (year_start (p_yoe p)).
  replace (doe - year_start (p_yoe p)) with doy by (unfold doe; lia).
  rewrite !(Z.quot_div_nonneg (5 * doy + 2)), Hmp by lia.
  rewrite (Z.quot_div_nonneg (153 * p_mp p + 2) 5) by lia. fold (month_start (p_mp p)).
  replace (doy - month_start (p_mp p) + 1) with (p_dd p + 1) by (unfold doy; lia).
  assert (0 <= p_dd p < 31) as Hdd31.
  { split; [lia|]. unfold month_length, month_start in Hdd.
    destruct (Z.eqb_spec (p_mp p) 11); [lia|]. div_lia. }
  unfold parts_date.
  rewrite (wrap_u_small 32 (p_dd p + 1)), (wrap_u_small 32 (p_mp p + _)), (wrap_s_small 32) by
    (destruct (Z.ltb_spec (p_mp p) 10); try destruct (Z.leb_spec (p_mp p + 3) 2);
     try destruct (Z.leb_spec (p_mp p + -9) 2); simpl; lia).
  apply triple_eq; [|done..]. destruct (Z.ltb_spec (p_mp p) 10); [destruct (Z.leb_spec (p_mp p + 3) 2)|destruct (Z.leb_spec (p_mp p + -9) 2)]; lia.
Qed.

(** *** Dates as parts *)

Lemma leap_period y k : leap (y + k * 400) = leap y.
Proof.
  unfold leap. replace (y + k * 400) with (y + (k * 100) * 4) at 1 by lia.
  replace (y + k * 400) with (y + (k * 4) * 100) at 1 by lia. by rewrite !Z.mod_add by lia.
Qed.

Lemma month_length_days p :
  0 <= p_mp p <= 11 ->
  let '(y, m, _) := parts_date p in days_in_month y m = month_length (p_yoe p) (p_mp p).
Proof.
  intros Hm. unfold parts_date, days_in_month, month_length, year_length, month_start.
  assert (p_mp p = 0 \/ p_mp p = 1 \/ p_mp p = 2 \/ p_mp p = 3 \/ p_mp p = 4 \/ p_mp p = 5
          \/ p_mp p = 6 \/ p_mp p = 7 \/ p_mp p = 8 \/ p_mp p = 9 \/ p_mp p = 10 \/ p_mp p = 11)
    as Hcases by lia.
  repeat destruct Hcases as [->|Hcases]; try reflexivity. rewrite Hcases. simpl.
  replace (p_yoe p + p_era p * 400 + 1) with (p_yoe p + 1 + p_era p * 400) by lia.
  rewrite leap_period. by destruct (leap (p_yoe p + 1)).
Qed.

Lemma parts_valid p : good_parts p -> let '(y, m, d) := parts_date p in valid_date y m d.
Proof.
  intros (Hy & Hm & Hd). pose proof (month_length_days p Hm) as Hl. unfold parts_date in *.
  split; [destruct (Z.ltb_spec (p_mp p) 10); lia|]. rewrite Hl. lia.
Qed.

Lemma date_parts y m d :
  valid_date y m d -> exists p, good_parts p /\ parts_date p = (y, m, d).
Proof.
  intros [Hm Hd].
  set (p := mkParts ((y - (if m <=? 2 then 1 else 0)) / 400) ((y - (if m <=? 2 then 1 else 0)) mod 400)
              (if m <=? 2 then m + 9 else m - 3) (d - 1)).
  assert (parts_date p = (y, m, d)) as E.
  { unfold parts_date, p. cbn [p_era p_yoe p_mp p_dd].
    pose proof (Z.div_mod (y - (if m <=? 2 then 1 else 0)) 400).
    destruct (Z.leb_spec m 2); [destruct (Z.ltb_spec (m + 9) 10)|destruct (Z.ltb_spec (m - 3) 10)];
      apply triple_eq; lia. }
  assert (0 <= p_mp p <= 11) as Hmp by (simpl; destruct (Z.leb_spec m 2); lia).
  exists p. split; [|done]. split; [apply Z.mod_pos_bound; lia|]. split; [done|].
  pose proof (month_length_days p Hmp) as Hl. rewrite E in Hl. rewrite <- Hl. simpl. lia.
Qed.

Lemma days_of_parts p :
  good_parts p ->
  let '(y, m, d) := parts_date p in days_from_ymd y m d = parts_number p.
Proof.
  intros Hg. pose proof (parts_doy p Hg) as Hdoy. destruct (parts_doe p Hg) as [Hdoe _].
  pose proof (year_length_range (p_yoe p)). destruct Hg as (Hy & Hm & _).
  unfold parts_date, days_from_ymd, parts_number. cbv zeta.
  set (m := p_mp p + (if p_mp p <? 10 then 3 else -9)).
  assert ((if 2 <? m then m - 3 else m + 9) = p_mp p) as ->.
  { unfold m. destruct (Z.ltb_spec (p_mp p) 10); [destruct (Z.ltb_spec 2 (p_mp p + 3))
      |destruct (Z.ltb_spec 2 (p_mp p + -9))]; lia. }
  assert (p_yoe p + p_era p * 400 + (if p_mp p <? 10 then 0 else 1) - (if m <=? 2 then 1 else 0)
          = p_yoe p + p_era p * 400) as ->.
  { unfold m. destruct (Z.ltb_spec (p_mp p) 10); [destruct (Z.leb_spec (p_mp p + 3) 2)
      |destruct (Z.leb_spec (p_mp p + -9) 2)]; lia. }
  rewrite Z.div_add, Z.mod_add, Z.div_small, Z.mod_small by lia. fold (month_start (p_mp p)).
  replace (month_start (p_mp p) + (p_dd p + 1) - 1) with (month_start (p_mp p) + p_dd p) by lia.
  rewrite (wrap_u_small 32 (month_start (p_mp p) + p_dd p)) by lia.
  replace (p_yoe p * 365 + p_yoe p / 4 - p_yoe p / 100) with (year_start (p_yoe p))
    by (unfold year_start; lia).
  rewrite wrap_u_small by lia. lia.
Qed.

(** *** The next day *)

Definition next_parts (p : Parts) : Parts :=
  if p_dd p + 1 <? month_length (p_yoe p) (p_mp p)
  then mkParts (p_era p) (p_yoe p) (p_mp p) (p_dd p + 1)
  else if p_mp p <? 11 then mkParts (p_era p) (p_yoe p) (p_mp p + 1) 0
  else if p_yoe p <? 399 then mkParts (p_era p) (p_yoe p + 1) 0 0
  else mkParts (p_era p + 1) 0 0 0.

Lemma month_length_pos yoe mp : 0 <= mp <= 11 -> 0 < month_length yoe mp.
Proof.
  intros Hm. unfold month_length, month_start. pose proof (year_length_range yoe).
  destruct (mp =? 11); [lia|div_lia].
Qed.

Lemma next_parts_good p :
  good_parts p -> good_parts (next_parts p) /\ parts_number (next_parts p) = parts_number p + 1.
Proof.
  intros (Hy & Hm & Hd). unfold next_parts.
  destruct (Z.ltb_spec (p_dd p + 1) (month_length (p_yoe p) (p_mp p))).
  { split; [repeat split; simpl; lia|unfold parts_number; simpl; lia]. }
  assert (p_dd p = month_length (p_yoe p) (p_mp p) - 1) as Ed by lia.
  destruct (Z.ltb_spec (p_mp p) 11).
  { pose proof (month_length_pos (p_yoe p) (p_mp p + 1)).
    split; [repeat split; simpl; lia|]. unfold parts_number. simpl. rewrite Ed. unfold month_length.
    destruct (Z.eqb_spec (p_mp p) 11); lia. }
  assert (p_mp p = 11) as Em by lia. rewrite Em in Ed. unfold month_length in Ed. simpl in Ed.
  destruct (year_checked _ Hy) as (_ & _ & Hnext).
  pose proof (month_length_pos (p_yoe p + 1) 0). pose proof (month_length_pos 0 0).
  unfold parts_number. rewrite Em, Ed. change (month_start 11) with 337. change (month_start 0) with 0.
  destruct (Z.ltb_spec (p_yoe p) 399).
  - split; [repeat split; simpl; lia|]. simpl. change (month_start 0) with 0. rewrite <- Hnext by lia.
    lia.
  - assert (p_yoe p = 399) as Ey by lia. split; [repeat split; simpl; lia|]. simpl. rewrite Ey.
    change (month_start 0) with 0. change (year_start 0) with 0. change (year_start 399) with 145731.
    change (year_length 399) with 366. lia.
Qed.

Lemma next_parts_date p : good_parts p -> parts_date (next_parts p) = next_day (parts_date p).
Proof.
  intros (Hy & Hm & Hd). pose proof (month_length_days p Hm) as Hl.
  unfold next_day. destruct (parts_date p) as [[y m] d] eqn:E. rewrite Hl. unfold parts_date in E.
  injection E as <- <- <-. unfold next_parts.
  destruct (Z.ltb_spec (p_dd p + 1) (month_length (p_yoe p) (p_mp p))); [done|].
  unfold parts_date. destruct (Z.ltb_spec (p_mp p) 11); cbn [p_era p_yoe p_mp p_dd].
  - destruct (Z.ltb_spec (p_mp p) 10), (Z.ltb_spec (p_mp p + 1) 10); try lia;
      match goal with |- context [?a <? 12] => destruct (Z.ltb_spec a 12) end; try lia; apply triple_eq; lia.
  - assert (p_mp p = 11) as -> by lia. simpl.
    destruct (Z.ltb_spec (p_yoe p) 399); simpl; apply triple_eq; lia.
Qed.

(** ** Theorems *)

Lemma civil_days y m d :
  valid_date y m d -> - 2 ^ 31 <= days_from_ymd y m d < 2 ^ 31 ->
  civil_from_days (days_from_ymd y m d) = (y, m, d).
Proof.
  intros Hv Hr. destruct (date_parts y m d Hv) as (p & Hg & E).
  pose proof (days_of_parts p Hg) as Hd. rewrite E in Hd. rewrite Hd in *.
  rewrite <- E. by apply civil_of_parts.
Qed.

(** The days of the years a packed date can hold are [i32] values. *)
Lemma days_range y m d :
  valid_date y m d -> 0 <= y <= 65535 -> - 10 ^ 6 <= days_from_ymd y m d < 3 * 10 ^ 7.
Proof.
  intros Hv Hy. destruct (date_parts y m d Hv) as (p & Hg & E).
  pose proof (days_of_parts p Hg) as Hd. rewrite E in Hd. rewrite Hd.
  pose proof (parts_doy p Hg). destruct (parts_doe p Hg) as [Hdoe _].
  destruct Hg as (Hyoe & Hm & _). unfold parts_date in E. injection E as E1 E2 E3.
  unfold parts_number. destruct (p_mp p <? 10); lia.
Qed.

(** Wrapping is done once. *)
Lemma wrap_s_add w a b : 0 < w -> wrap_s w (wrap_s w a + b) = wrap_s w (a + b).
Proof.
  intros Hw. unfold wrap_s. f_equal.
  replace ((a + 2 ^ (w - 1)) mod 2 ^ w - 2 ^ (w - 1) + b + 2 ^ (w - 1))
    with ((a + 2 ^ (w - 1)) mod 2 ^ w + b) by lia.
  rewrite Z.add_mod_idemp_l by lia. f_equal. lia.
Qed.

(** The nanoseconds of an instant refine its microseconds. *)
Lemma nanos_micros OFFSET_PART t :
  0 <= dt_picoseconds t -> - 2 ^ 63 <= to_micros OFFSET_PART t * 1000 -> to_micros OFFSET_PART t * 1000 + 1000 <= 2 ^ 63 ->
  to_nanos OFFSET_PART t / 1000 = to_micros OFFSET_PART t.
Proof.
  intros Hp Hlo Hhi. unfold to_nanos. rewrite <- Z.add_opp_r, wrap_s_add, <- Z.add_assoc, wrap_s_add by lia.
  assert (offset_nanos OFFSET_PART t = offset_micros OFFSET_PART t * 1000) as ->
    by (unfold offset_nanos, offset_micros; destruct (has_offset_part _ _); lia).
  set (d := days_from_ymd _ _ _). rewrite !Z.quot_div_nonneg by lia.
  assert (exists r, dt_picoseconds t / 1000 = dt_picoseconds t / 1000000 * 1000 + r /\ 0 <= r < 1000) as (r & -> & Hr).
  { exists ((dt_picoseconds t / 1000) mod 1000). split; [|by apply Z.mod_pos_bound].
    change 1000000 with (1000 * 1000). rewrite <- Z.div_div by lia.
    pose proof (Z.div_mod (dt_picoseconds t / 1000) 1000). lia. }
  match goal with |- wrap_s 64 ?x / _ = _ => replace x with (to_micros OFFSET_PART t * 1000 + r) end.
  - rewrite wrap_s_small by lia. rewrite Z.div_add_l, Z.div_small by lia. lia.
  - unfold to_micros, to_time_micros. rewrite Z.quot_div_nonneg by lia. fold d. lia.
Qed.


(** The fields of a timestamp text recompose to the timestamp. *)
Lemma timestamp_fields micros :
  0 <= micros ->
  let secs := Z.quot micros 1000000 in
  let tod := Z.rem secs 86400 in
  let h := Z.quot tod 3600 in let m := Z.quot (Z.rem tod 3600) 60 in let s := Z.rem tod 60 in
  micros = Z.quot secs 86400 * 86400000000 + h * 3600000000 + m * 60000000 + s * 1000000
           + Z.rem micros 1000000
  /\ 0 <= h < 24 /\ 0 <= m < 60 /\ 0 <= s < 60 /\ 0 <= Z.rem micros 1000000 < 1000000.
Proof. intros Hm. cbv zeta. div_lia. Qed.

(** A timestamp before the epoch with a fraction of a second is not written as a date
    and time: the negative remainder of the fraction becomes more nanoseconds than
    chrono accepts, and the text is the bare number of microseconds. *)
Theorem pre_epoch_fraction_text `{ChronoStampLaws} micros :
  micros < 0 -> Z.rem micros 1000000 <> 0 ->
  format_timestamp_micros micros = (pretty micros ++ "us")%string.
Proof.
  intros Hn Hf. unfold format_timestamp_micros, format_timestamp_micros_fallback.
  destruct (Z.ltb_spec micros 0); [|lia]. rewrite from_timestamp_nanos; [done|].
  assert (-1000000 < Z.rem micros 1000000 < 0) as Hr.
  { split; [|]; div_lia. }
  unfold wrap_u. rewrite <- (Z.mod_add _ 1) by lia. rewrite Z.mod_small; lia.
Qed.

Section Examples.
Local Open Scope string_scope.

#[local] Instance stamps : ChronoStamp := {
  from_timestamp_text secs nanos :=
    if (nanos <? 2 * 10 ^ 9)%Z then Some (date_text (secs / 86400) ++ "T..") else None
}.
#[local] Instance stamps_laws : ChronoStampLaws.
Proof. constructor. intros secs nanos Hn. simpl. destruct (Z.ltb_spec nanos (2 * 10 ^ 9)); [lia|done]. Qed.

Example texts :
  format_date32 0 = "1970-01-01" /\ format_date32 (-1) = "1969-12-31"
  /\ format_timestamp_micros 1714639234567890 = "2024-05-02T08:40:34.567890Z"
  /\ format_time64_micros 37234005006 = "10:20:34.005006".
Proof. split_and!; reflexivity. Qed.

Lemma pre_epoch_fraction_text_witness :
  format_timestamp_micros (-1500000) = "-1500000us".
Proof. exact (pre_epoch_fraction_text (-1500000) ltac:(lia) ltac:(done)). Defined.
End Examples.
