(* ===== verification/Columns.v ===== *)
(** * Building result columns

    [TypedBuilder] and [ColumnSet] of [engine/state/typed_builder.rs]: the extractors
    write values by column name or slot and end rows; a column is created by its first
    write and null cells are filled in lazily.  The set is proved to build the table
    one gets by filling every row eagerly.

    Values are those of [Decoder.v]; Arrow's builders are the class [ArrowBuild], which
    makes an array from its cells; the texts of floats are arguments. *)

From Stdlib Require Import Ascii String ZArith Lia SpecFloat.
From stdpp Require Import pretty.
From S2P Require Import Prelude Errors Update Decoder Plan Schema Diagnostics Pool Metadata.
From S2P Require Import ShardMerge Calendar.
Local Open Scope Z_scope.

(** ** Values and cells *)

Definition arrow_type_from_value (v : Value) : ArrowType :=
  match v with
  | BNull => ATString
  | BBool _ => ATBool
  | BInt32 _ => ATInt32
  | BInt64 _ => ATInt64
  | BFloat64 _ => ATFloat64
  | BString _ | BEnum _ => ATString
  | BDate32 _ => ATDate32
  | BTimestampMicros _ | BDatetime _ => ATTimestampMicros
  | BTime64Micros _ => ATTime64Micros
  | BByte _ => ATInt32
  end.

(** [v as f64] *)
Definition f64_of_int (z : Z) : spec_float := binary_normalize 53 1024 z 0 false.

(** The value of a finite float without a fraction. *)
Definition f64_integral (v : spec_float) : option Z :=
  match v with
  | S754_zero _ => Some 0
  | S754_finite s m e =>
      let signed n := if s then - n else n in
      if 0 <=? e then Some (signed (Z.pos m * 2 ^ e))
      else if Z.pos m mod 2 ^ (- e) =? 0 then Some (signed (Z.pos m / 2 ^ (- e)))
      else None
  | _ => None
  end.

Definition f64_is_finite (v : spec_float) : bool :=
  match v with S754_zero _ | S754_finite _ _ _ => true | _ => false end.

Definition as_f64 (v : Value) : option spec_float :=
  match v with
  | BFloat64 v => Some v
  | BInt64 v | BInt32 v | BByte v => Some (f64_of_int v)
  | BBool b => Some (f64_of_int (if b then 1 else 0))
  | _ => None
  end.

Definition in_range (lo hi z : Z) : option Z := if (lo <=? z) && (z <=? hi) then Some z else None.

Definition as_i64 (v : Value) : option Z :=
  match v with
  | BInt64 v | BInt32 v | BByte v | BDate32 v | BTimestampMicros v | BTime64Micros v => Some v
  | BBool b => Some (if b then 1 else 0)
  | BFloat64 v => f64_integral v ≫= in_range i64_min i64_max
  | _ => None
  end.

Definition as_bool (v : Value) : option bool :=
  match v with
  | BBool b => Some b
  | BInt32 v | BInt64 v => Some (negb (v =? 0))
  | _ => None
  end.

Inductive ArrayCell : Type :=
| CellF64 (v : spec_float) | CellI64 (v : Z) | CellI32 (v : Z) | CellStr (s : string)
| CellBool (b : bool) | CellDate (days : Z) | CellStamp (micros : Z) | CellTime (micros : Z).

Definition DAY_MICROS : Z := 86400000000.

Section Convert.
Context `{ChronoStamp}.
(** ryu's text of a finite float, and [Display] of the others. *)
Variables ryu_text other_text : spec_float -> string.

(** What a builder of the type makes of a value that is not null; [None] is rejected. *)
Definition convert (t : ArrowType) (v : Value) : option ArrayCell :=
  match t with
  | ATFloat64 => CellF64 <$> as_f64 v
  | ATInt64 => CellI64 <$> as_i64 v
  | ATInt32 =>
      CellI32 <$> match v with
                  | BInt32 i => Some i
                  | BInt64 i => in_range (- 2 ^ 31) (2 ^ 31 - 1) i
                  | BByte i => Some i
                  | BBool b => Some (if b then 1 else 0)
                  | BFloat64 f => f64_integral f ≫= in_range (- 2 ^ 31) (2 ^ 31 - 1)
                  | _ => None
                  end
  | ATString =>
      CellStr <$> match v with
                  | BString s | BEnum s => Some s
                  | BFloat64 f => Some (if f64_is_finite f then ryu_text f else other_text f)
                  | BInt64 i | BInt32 i | BByte i => Some (pretty i)
                  | BBool b => Some (if b then "true" else "false")%string
                  | BDate32 d => Some (format_date32 d)
                  | BTimestampMicros ts | BDatetime ts => Some (format_timestamp_micros ts)
                  | BTime64Micros t => Some (format_time64_micros t)
                  | BNull => None
                  end
  | ATBool => CellBool <$> as_bool v
  | ATDate32 =>
      CellDate <$> match v with
                   | BDate32 d => Some d
                   | BTimestampMicros ts => Some (wrap_s 32 (ts / DAY_MICROS))
                   | _ => None
                   end
  | ATTimestampMicros =>
      CellStamp <$> match v with
                    | BTimestampMicros ts | BDatetime ts => Some ts
                    | BDate32 d => in_range i64_min i64_max (d * DAY_MICROS)
                    | _ => None
                    end
  | ATTime64Micros =>
      CellTime <$> match v with
                   | BTime64Micros ts => in_range 0 (DAY_MICROS - 1) ts
                   | BTimestampMicros ts => Some (ts mod DAY_MICROS)
                   | _ => None
                   end
  end.

Definition is_null (v : Value) : bool := match v with BNull => true | _ => false end.

(** ** Builders *)

Record TypedBuilder : Type := mkBuilderT { tb_type : ArrowType; tb_values : list (option ArrayCell) }.

Definition builder_new (t : ArrowType) : TypedBuilder := mkBuilderT t [].

(** The builder, and whether a value that is not null was rejected. *)
Definition append_value (b : TypedBuilder) (v : option Value) : TypedBuilder * bool :=
  let push c := mkBuilderT (tb_type b) (tb_values b ++ [c]) in
  match v with
  | None | Some BNull => (push None, false)
  | Some v =>
      match convert (tb_type b) v with
      | Some c => (push (Some c), false)
      | None => (push None, true)
      end
  end.

Definition append_nulls (b : TypedBuilder) (n : nat) : TypedBuilder :=
  mkBuilderT (tb_type b) (tb_values b ++ replicate n None).

Definition pad_to (b : TypedBuilder) (len : nat) : TypedBuilder :=
  append_nulls b (len - length (tb_values b)).

(** ** Column sets *)

Record SlotColumn : Type := mkSlot { sl_name : string; sl_builder : option TypedBuilder }.

Record ColumnSet : Type := mkColumnSet {
  cs_columns : list SlotColumn;
  cs_slots : gmap string nat;
  cs_written : list nat;
  cs_type_hints : gmap string ArrowType;
  cs_row_count : nat;
  cs_meta : ResponseMetadata
}.

Definition column_set_new : ColumnSet := mkColumnSet [] ∅ [] ∅ 0 metadata_default.

Definition set_type_hint (cs : ColumnSet) (name : string) (t : ArrowType) : ColumnSet :=
  mkColumnSet (cs_columns cs) (cs_slots cs) (cs_written cs) (<[name := t]> (cs_type_hints cs))
    (cs_row_count cs) (cs_meta cs).

Definition slot (cs : ColumnSet) (name : string) : ColumnSet * nat :=
  match cs_slots cs !! name with
  | Some i => (cs, i)
  | None =>
      let i := length (cs_columns cs) in
      (mkColumnSet (cs_columns cs ++ [mkSlot name None]) (<[name := i]> (cs_slots cs))
         (cs_written cs) (cs_type_hints cs) (cs_row_count cs) (cs_meta cs), i)
  end.

(** The builder for the current row and the written slots. *)
Definition row_builder (cs : ColumnSet) (i : nat) (col : SlotColumn) (first_value_type : ArrowType)
  : TypedBuilder * list nat :=
  match sl_builder col with
  | Some b => (pad_to b (cs_row_count cs), cs_written cs)
  | None =>
      (pad_to (builder_new (default first_value_type (cs_type_hints cs !! sl_name col)))
         (cs_row_count cs), cs_written cs ++ [i])
  end.

Definition set_column (cs : ColumnSet) (i : nat) (col : SlotColumn) (b : TypedBuilder)
  (written : list nat) (meta : ResponseMetadata) : ColumnSet :=
  mkColumnSet (<[i := mkSlot (sl_name col) (Some b)]> (cs_columns cs)) (cs_slots cs) written
    (cs_type_hints cs) (cs_row_count cs) meta.

(** [None] is a slot of another set. *)
Definition append_slot (cs : ColumnSet) (i : nat) (v : Value) : option ColumnSet :=
  col ← cs_columns cs !! i;
  let '(b, written) := row_builder cs i col (arrow_type_from_value v) in
  let '(b, rejected) := append_value b (Some v) in
  Some (set_column cs i col b written
          (if rejected then record_type_miss (cs_meta cs) (sl_name col) else cs_meta cs)).

Definition append_null_slot (cs : ColumnSet) (i : nat) : option ColumnSet :=
  col ← cs_columns cs !! i;
  let '(b, written) := row_builder cs i col ATString in
  Some (set_column cs i col (append_nulls b 1) written (cs_meta cs)).

Definition append (cs : ColumnSet) (name : string) (v : Value) : option ColumnSet :=
  let '(cs, i) := slot cs name in append_slot cs i v.

Definition append_null (cs : ColumnSet) (name : string) : option ColumnSet :=
  let '(cs, i) := slot cs name in append_null_slot cs i.

Definition end_row (cs : ColumnSet) : ColumnSet :=
  mkColumnSet (cs_columns cs) (cs_slots cs) (cs_written cs) (cs_type_hints cs)
    (S (cs_row_count cs)) (cs_meta cs).
End Convert.

(** ** Batches *)

Class ArrowBuild (Col : Type) := { array_of : ArrowType -> list (option ArrayCell) -> Col }.

Class ArrowBuildLaws (Col : Type) `{ArrowOps Col, ArrowBuild Col} := {
  array_of_ok t l : data_type (array_of t l) = to_arrow_datatype t /\ array_len (array_of t l) = length l
}.

Section Finish.
Context {Col : Type} `{ArrowOps Col} `{ArrowBuild Col}.
Context `{JE : Json (gmap string (list Z))} `{JS : Json (gmap string SecurityErrorMeta)}.
Context `{JD : Json (gmap string DelayedMeta)} `{JM : Json (gmap string Z)}.
Context `{EX : ExceptionsJson}.
Variable ids_to_json : list string -> string.
Local Open Scope string_scope.

Definition empty_batch : ArrowBatch Col := mkArrowBatch (mkSchema [] ∅) [] 0.

(** [expect]: [None] for a column without a builder. *)
Definition column_finish (cs : ColumnSet) (i : nat) : option (Field * Col) :=
  col ← cs_columns cs !! i;
  b ← sl_builder col;
  let b := pad_to b (cs_row_count cs) in
  Some (mkField (sl_name col) (to_arrow_datatype (tb_type b)) true ∅, array_of (tb_type b) (tb_values b)).

Definition build (cs : ColumnSet) (cols : list (Field * Col)) : option (result (ArrowBatch Col) BlpError) :=
  match try_new (mkSchema cols.*1 ∅) cols.*2 with
  | Ok b => Ok <$> attach ids_to_json (cs_meta cs) b
  | Err e => Some (Err (Internal ("build RecordBatch: " ++ e)))
  end.

Definition finish (cs : ColumnSet) : option (result (ArrowBatch Col) BlpError) :=
  match cs_written cs with
  | [] => Some (Ok empty_batch)
  | written => cols ← mapM (column_finish cs) written; build cs cols
  end.

Definition build_empty_with_order (cs : ColumnSet) (order : list string)
  : result (ArrowBatch Col) BlpError :=
  match order with
  | [] => Ok empty_batch
  | _ =>
      let cols := (fun name =>
                     let t := default ATString (cs_type_hints cs !! name) in
                     (mkField name (to_arrow_datatype t) true ∅, array_of t [])) <$> order in
      result_map_err (fun e => Internal ("build empty RecordBatch from order: " ++ e))
        (try_new (mkSchema cols.*1 ∅) cols.*2)
  end.

(** [Vec::remove] of the first occurrence. *)
Fixpoint remove_first (i : nat) (l : list nat) : option (list nat) :=
  match l with
  | [] => None
  | j :: l => if decide (i = j) then Some l else cons j <$> remove_first i l
  end.

(** The slots in output order: those named, then the remaining ones. *)
Fixpoint ordered_slots (cs : ColumnSet) (order : list string) (remaining : list nat) : list nat :=
  match order with
  | [] => remaining
  | name :: order =>
      match cs_slots cs !! name ≫= fun i => pair i <$> remove_first i remaining with
      | Some (i, remaining) => i :: ordered_slots cs order remaining
      | None => ordered_slots cs order remaining
      end
  end.

Definition finish_with_order (cs : ColumnSet) (order : list string)
  : option (result (ArrowBatch Col) BlpError) :=
  match cs_written cs with
  | [] => Some (build_empty_with_order cs order)
  | written => cols ← mapM (column_finish cs) (ordered_slots cs order written); build cs cols
  end.
End Finish.

(** ** The table

    Rows are filled eagerly: a row maps the columns written in it to a value or a null,
    and a column is known from its first write. *)

Abbreviation Row := (gmap string (option Value)).

Record Table : Type := mkTable {
  t_rows : list Row;
  t_current : Row;
  t_columns : list (string * ArrowType);
  t_hints : gmap string ArrowType
}.

Definition table_new : Table := mkTable [] ∅ [] ∅.

Definition find_column (cols : list (string * ArrowType)) (n : string) : option (string * ArrowType) :=
  List.find (fun c => bool_decide (c.1 = n)) cols.

Definition table_type (tb : Table) (name : string) : option ArrowType :=
  snd <$> find_column (t_columns tb) name.

(** The column a write of the value creates when the name is new. *)
Definition fresh_type (tb : Table) (name : string) (v : option Value) : ArrowType :=
  default (from_option arrow_type_from_value ATString v) (t_hints tb !! name).

Definition table_write (tb : Table) (name : string) (v : option Value) : Table :=
  mkTable (t_rows tb) (<[name := v]> (t_current tb))
    (match table_type tb name with
     | Some _ => t_columns tb
     | None => t_columns tb ++ [(name, fresh_type tb name v)]
     end)
    (t_hints tb).

Inductive Op : Type :=
| OHint (name : string) (t : ArrowType)
| OSlot (name : string)
| OWrite (name : string) (v : option Value)
| OEndRow.

(** [None]: a column is written twice in one row. *)
Definition table_op (tb : Table) (o : Op) : option Table :=
  match o with
  | OHint name t =>
      Some (mkTable (t_rows tb) (t_current tb) (t_columns tb) (<[name := t]> (t_hints tb)))
  | OSlot _ => Some tb
  | OWrite name v =>
      match t_current tb !! name with Some _ => None | None => Some (table_write tb name v) end
  | OEndRow => Some (mkTable (t_rows tb ++ [t_current tb]) ∅ (t_columns tb) (t_hints tb))
  end.

Fixpoint table_ops (tb : Table) (l : list Op) : option Table :=
  match l with [] => Some tb | o :: l => tb ← table_op tb o; table_ops tb l end.

(** The columns in the order asked for: those named, once each, then the others. *)
Fixpoint first_occurrences (l : list string) : list string :=
  match l with [] => [] | n :: l => n :: filter (.≠ n) (first_occurrences l) end.

Definition order_columns (order : list string) (cols : list (string * ArrowType))
  : list (string * ArrowType) :=
  omap (find_column cols) (first_occurrences order) ++ filter (fun c => c.1 ∉ order) cols.

Lemma find_column_app l k n :
  find_column (l ++ k) n = match find_column l n with Some c => Some c | None => find_column k n end.
Proof. induction l as [|c l IH]; [done|]. simpl. by destruct (bool_decide _). Qed.

Lemma find_column_Some cols n c : find_column cols n = Some c -> c ∈ cols /\ c.1 = n.
Proof.
  intros [Hin Hb]%find_some. split; [by apply list_elem_of_In|]. by apply bool_decide_eq_true in Hb.
Qed.

Lemma find_column_None cols n : find_column cols n = None <-> n ∉ cols.*1.
Proof.
  split.
  - intros Hf Hn. apply list_elem_of_fmap in Hn as (c & -> & Hin%list_elem_of_In).
    pose proof (find_none _ _ Hf _ Hin) as Hb. simpl in Hb. by rewrite bool_decide_true in Hb.
  - intros Hn. destruct (find_column cols n) as [c|] eqn:E; [|done].
    apply find_column_Some in E as [Hin <-]. destruct Hn. by apply list_elem_of_fmap_2.
Qed.

Lemma table_type_Some tb n t : table_type tb n = Some t -> (n, t) ∈ t_columns tb.
Proof.
  unfold table_type. destruct (find_column _ _) as [[n' t']|] eqn:E; [|done]. intros [= <-].
  by apply find_column_Some in E as [? [= ->]].
Qed.

Lemma table_type_None tb n : table_type tb n = None <-> n ∉ (t_columns tb).*1.
Proof. unfold table_type. rewrite <- find_column_None. by destruct (find_column _ _). Qed.

Lemma Forall2_elem_of_l {A B} (R : A -> B -> Prop) l k x :
  Forall2 R l k -> x ∈ l -> exists y, y ∈ k /\ R x y.
Proof.
  intros HR [i Hi]%list_elem_of_lookup. destruct (Forall2_lookup_l _ _ _ _ _ HR Hi) as (y & Hy & Hxy).
  exists y. split; [by eapply list_elem_of_lookup_2|done].
Qed.

Lemma Forall2_elem_of_r {A B} (R : A -> B -> Prop) l k y :
  Forall2 R l k -> y ∈ k -> exists x, x ∈ l /\ R x y.
Proof.
  intros HR Hy. destruct (Forall2_elem_of_l (flip R) k l y) as (x & ? & ?); [by apply Forall2_flip|done|].
  by exists x.
Qed.

Section Tables.
Context `{ChronoStamp}.
Variables ryu_text other_text : spec_float -> string.
Local Abbreviation convert := (convert ryu_text other_text).
Local Abbreviation append := (append ryu_text other_text).
Local Abbreviation append_slot := (append_slot ryu_text other_text).
Local Abbreviation append_value := (append_value ryu_text other_text).

Definition run_op (cs : ColumnSet) (o : Op) : option ColumnSet :=
  match o with
  | OHint name t => Some (set_type_hint cs name t)
  | OSlot name => Some (slot cs name).1
  | OWrite name (Some v) => append cs name v
  | OWrite name None => append_null cs name
  | OEndRow => Some (end_row cs)
  end.

Fixpoint run_ops (cs : ColumnSet) (l : list Op) : option ColumnSet :=
  match l with [] => Some cs | o :: l => cs ← run_op cs o; run_ops cs l end.

(** The cell of a column in a row: null when it was not written, written as null, or
    given a value its type rejects. *)
Definition cell_of (t : ArrowType) (v : option Value) : option ArrayCell :=
  match v with
  | None | Some BNull => None
  | Some v => convert t v
  end.

Definition rejects (t : ArrowType) (v : option Value) : bool :=
  match v with
  | None | Some BNull => false
  | Some v => match convert t v with None => true | Some _ => false end
  end.

Definition column_cells (tb : Table) (c : string * ArrowType) : list (option ArrayCell) :=
  (fun row : Row => cell_of c.2 (mjoin (row !! c.1))) <$> t_rows tb.

(** The number of values a column rejected. *)
Definition rejected (tb : Table) (n : string) : Z :=
  match table_type tb n with
  | None => 0
  | Some t =>
      Z.of_nat (length (filter (fun row : Row => rejects t (mjoin (row !! n)) = true)
                          (t_rows tb ++ [t_current tb])))
  end.

(** *** The relation *)

(** A builder has the cells of its column up to trailing nulls, and the cell of the
    current row when that was written. *)
Definition builder_ok (tb : Table) (c : string * ArrowType) (b : TypedBuilder) : Prop :=
  tb_type b = c.2
  /\ match t_current tb !! c.1 with
     | Some v => tb_values b = column_cells tb c ++ [cell_of c.2 v]
     | None => tb_values (pad_to b (length (t_rows tb))) = column_cells tb c
     end.

Definition slot_ok (cs : ColumnSet) (tb : Table) (i : nat) (c : string * ArrowType) : Prop :=
  exists b, cs_columns cs !! i = Some (mkSlot c.1 (Some b)) /\ builder_ok tb c b.

Definition misses_ok (m : ResponseMetadata) (tb : Table) : Prop :=
  m = mkMetadata ∅ ∅ exceptions_default ∅ (type_misses m) [] false []
  /\ forall n, type_misses m !! n
               = if decide (rejected tb n = 0) then None else Some (wrap_u 64 (rejected tb n)).

Record related (cs : ColumnSet) (tb : Table) : Prop := mkRelated {
  rel_count : cs_row_count cs = length (t_rows tb);
  rel_hints : cs_type_hints cs = t_hints tb;
  rel_meta : misses_ok (cs_meta cs) tb;
  rel_slots : forall n i, cs_slots cs !! n = Some i <-> exists col, cs_columns cs !! i = Some col /\ sl_name col = n;
  rel_nodup : NoDup (cs_written cs);
  rel_written : Forall2 (slot_ok cs tb) (cs_written cs) (t_columns tb);
  rel_unwritten : forall i col, cs_columns cs !! i = Some col -> i ∉ cs_written cs -> sl_builder col = None;
  rel_fresh : forall n, n ∉ (t_columns tb).*1 ->
    t_current tb !! n = None /\ Forall (fun row : Row => row !! n = None) (t_rows tb)
}.

Lemma related_new : related column_set_new table_new.
Proof.
  constructor; try done; [|constructor..]. intros n i. simpl. rewrite lookup_empty. split; [done|].
  by intros (col & ? & _).
Qed.

Lemma append_value_cell b v :
  append_value b v = (mkBuilderT (tb_type b) (tb_values b ++ [cell_of (tb_type b) v]), rejects (tb_type b) v).
Proof.
  unfold Columns.append_value, cell_of, rejects. destruct v as [[]|]; try done;
    by destruct (convert (tb_type b) _).
Qed.

(** Resolving a name changes no table. *)
Lemma slot_related cs tb n cs' i :
  related cs tb -> slot cs n = (cs', i) ->
  related cs' tb /\ exists col, cs_columns cs' !! i = Some col /\ sl_name col = n.
Proof.
  intros [H1 H2 H3 H4 H0 H5 H6 H7]. unfold slot. destruct (cs_slots cs !! n) as [j|] eqn:Hs; intros [= <- <-].
  { split; [by constructor|]. by apply H4. }
  assert (forall m j, cs_slots cs !! m = Some j -> j < length (cs_columns cs))%nat as Hlt.
  { intros m j Hm. apply H4 in Hm as (col & Hc & _). by eapply lookup_lt_Some. }
  split; [|exists (mkSlot n None); simpl; by rewrite lookup_app_r, Nat.sub_diag by lia].
  constructor; try done; cbn [cs_columns cs_slots cs_written].
  - intros m j. destruct (decide (m = n)) as [->|Hne].
    + rewrite lookup_insert_eq. split.
      * intros [= <-]. exists (mkSlot n None). by rewrite lookup_app_r, Nat.sub_diag by lia.
      * intros (col & Hc & Hn). apply lookup_app_Some in Hc as [Hc|[Hge Hc]].
        -- assert (cs_slots cs !! n = Some j) as Hx by (apply H4; eauto). congruence.
        -- f_equal. apply list_lookup_singleton_Some in Hc as [Hj _]. lia.
    + rewrite lookup_insert_ne by done. rewrite H4. split; intros (col & Hc & Hn).
      * exists col. split; [by apply lookup_app_l_Some|done].
      * apply lookup_app_Some in Hc as [Hc|[Hge Hc]]; [eauto|].
        apply list_lookup_singleton_Some in Hc as [_ <-]. done.
  - eapply Forall2_impl; [exact H5|]. intros j c (b & Hb & Hok). exists b. split; [|done].
    by apply lookup_app_l_Some.
  - intros j col Hc Hj. apply lookup_app_Some in Hc as [Hc|[Hge Hc]]; [by eapply H6|].
    by apply list_lookup_singleton_Some in Hc as [_ <-].
Qed.

(** *** Writing *)

Lemma slot_name cs tb i c col :
  related cs tb -> slot_ok cs tb i c -> cs_columns cs !! i = Some col ->
  sl_name col = c.1 /\ exists b, sl_builder col = Some b /\ builder_ok tb c b.
Proof. intros _ (b & Hb & Hok) Hc. rewrite Hc in Hb. injection Hb as ->. eauto. Qed.

(** Two written slots with one name are one slot. *)
Lemma slot_unique cs tb i j c col :
  related cs tb -> cs_columns cs !! i = Some col -> slot_ok cs tb j c -> c.1 = sl_name col -> j = i.
Proof.
  intros R Hi (b & Hj & _) Hn.
  assert (cs_slots cs !! sl_name col = Some i) as H1 by (apply (rel_slots _ _ R); eauto).
  assert (cs_slots cs !! sl_name col = Some j) as H2 by (apply (rel_slots _ _ R); eexists; split; [exact Hj|done]).
  congruence.
Qed.

(** A column is known to the table exactly when its slot has a builder. *)
Lemma slot_builder cs tb i col :
  related cs tb -> cs_columns cs !! i = Some col ->
  match sl_builder col with
  | Some b => i ∈ cs_written cs /\ table_type tb (sl_name col) = Some (tb_type b)
              /\ builder_ok tb (sl_name col, tb_type b) b
  | None => (i ∉ cs_written cs) /\ table_type tb (sl_name col) = None
  end.
Proof.
  intros R Hc. destruct (decide (i ∈ cs_written cs)) as [Hi|Hi].
  - pose proof (rel_written _ _ R) as Hw.
    destruct (Forall2_elem_of_l _ _ _ _ Hw Hi) as ([n t] & Hin & Hok).
    destruct (slot_name _ _ _ _ _ R Hok Hc) as (Hn & b & Hb & Hbo). simpl in Hn. rewrite Hb.
    split; [done|]. assert (tb_type b = t) as Ht by apply Hbo. rewrite Hn, Ht.
    split; [|done]. destruct (table_type tb n) as [t'|] eqn:E.
    + apply table_type_Some in E. destruct (Forall2_elem_of_r _ _ _ _ Hw E) as (j & _ & Hj).
      assert (j = i) as -> by (eapply (slot_unique cs tb); eauto).
      destruct (slot_name _ _ _ _ _ R Hj Hc) as (_ & b' & Hb' & Hbo'). simplify_eq.
      f_equal. symmetry. apply Hbo'.
    + apply table_type_None in E. destruct E. apply list_elem_of_fmap. by exists (n, t).
  - rewrite (rel_unwritten _ _ R i col Hc Hi). split; [done|].
    apply table_type_None. intros Hn. apply list_elem_of_fmap in Hn as (c & Hn & Hin).
    destruct (Forall2_elem_of_r _ _ _ _ (rel_written _ _ R) Hin) as (j & Hj & Hok).
    assert (j = i) as -> by (eapply (slot_unique cs tb); eauto). done.
Qed.

(** Before its first write a column is null in every row. *)
Lemma fresh_cells cs tb n t :
  related cs tb -> n ∉ (t_columns tb).*1 -> column_cells tb (n, t) = replicate (length (t_rows tb)) None.
Proof.
  intros R Hn. destruct (rel_fresh _ _ R n Hn) as [_ Hr]. unfold column_cells. simpl.
  induction Hr as [|row rows Hrow _ IH]; [done|]. simpl. rewrite Hrow. f_equal. exact IH.
Qed.

(** The builder of the current row holds the rows completed so far. *)
Lemma row_builder_cells cs tb i col v :
  related cs tb -> cs_columns cs !! i = Some col -> t_current tb !! sl_name col = None ->
  exists t, t = default (fresh_type tb (sl_name col) v) (table_type tb (sl_name col))
    /\ row_builder cs i col (from_option arrow_type_from_value ATString v)
       = (mkBuilderT t (column_cells tb (sl_name col, t)),
          cs_written cs ++ match table_type tb (sl_name col) with Some _ => [] | None => [i] end).
Proof.
  intros R Hc Hcur. pose proof (slot_builder _ _ _ _ R Hc) as Hb. unfold row_builder.
  eexists. split; [done|]. rewrite (rel_count _ _ R). destruct (sl_builder col) as [b|].
  - destruct Hb as (_ & -> & Hbt & Hok). simpl in *. rewrite app_nil_r. f_equal.
    rewrite Hcur in Hok. by rewrite <- Hok.
  - destruct Hb as (_ & Ht). rewrite Ht. simpl. rewrite (rel_hints _ _ R). unfold pad_to, append_nulls. simpl.
    rewrite Nat.sub_0_r, (fresh_cells cs) by (done || by apply table_type_None). done.
Qed.

Lemma table_type_write tb n v m :
  table_type (table_write tb n v) m
  = if decide (m = n) then Some (default (fresh_type tb n v) (table_type tb n)) else table_type tb m.
Proof.
  unfold table_write, table_type at 1. simpl. destruct (table_type tb n) as [t|] eqn:E; simpl.
  - case_decide; [by subst|done].
  - rewrite find_column_app. unfold table_type in *. case_decide as Hm.
    + subst. destruct (find_column _ _); [done|]. simpl. by rewrite bool_decide_true.
    + destruct (find_column _ m); [done|]. simpl. by rewrite bool_decide_false.
Qed.

(** Of the rows, a write changes the count of rejected values of its column only. *)
Lemma rejected_write cs tb n v m :
  related cs tb -> t_current tb !! n = None ->
  rejected (table_write tb n v) m
  = rejected tb m
    + (if decide (m = n) then
         if rejects (default (fresh_type tb n v) (table_type tb n)) v then 1 else 0
       else 0).
Proof.
  intros R Hcur. unfold rejected. rewrite table_type_write. case_decide as Hm.
  - subst m. simpl. set (t := default _ _). rewrite filter_app, length_app, filter_cons, filter_nil.
    rewrite lookup_insert_eq. simpl.
    assert (match table_type tb n with
            | Some t => Z.of_nat (length (filter (fun row : Row => rejects t (mjoin (row !! n)) = true)
                                            (t_rows tb ++ [t_current tb])))
            | None => 0
            end = Z.of_nat (length (filter (fun row : Row => rejects t (mjoin (row !! n)) = true) (t_rows tb)))) as ->.
    { subst t. destruct (table_type tb n) as [t|] eqn:E; simpl.
      - rewrite filter_app, filter_cons, filter_nil, Hcur. simpl. by rewrite app_nil_r.
      - apply table_type_None in E. destruct (rel_fresh _ _ R n E) as [_ Hr].
        induction Hr as [|row rows Hrow _ IH]; [done|]. rewrite filter_cons, Hrow. simpl. exact IH. }
    case_decide as Hd; [rewrite Hd|destruct (rejects t v); [done|]]; simpl; lia.
  - destruct (table_type tb m); [|done]. rewrite !filter_app, !length_app, !filter_cons, !filter_nil.
    simpl. rewrite lookup_insert_ne by done. case_decide; simpl; lia.
Qed.

Lemma rejected_nonneg tb n : 0 <= rejected tb n.
Proof. unfold rejected. destruct (table_type tb n); lia. Qed.

Lemma misses_ok_ext m tb tb' :
  misses_ok m tb -> (forall n, rejected tb' n = rejected tb n) -> misses_ok m tb'.
Proof. intros [Hm Hn] Hr. split; [done|]. intros n. by rewrite Hr. Qed.

Lemma misses_ok_miss m tb tb' n :
  misses_ok m tb -> (forall k, rejected tb' k = rejected tb k + if decide (k = n) then 1 else 0) ->
  misses_ok (record_type_miss m n) tb'.
Proof.
  intros [Hm Hn] Hr. split; [rewrite Hm; by destruct m|]. intros k. rewrite Hr. simpl.
  pose proof (rejected_nonneg tb n) as Hpos. rewrite (Hn n).
  destruct (decide (k = n)) as [->|Hk].
  - rewrite (decide_False (P := (_ + 1 = 0))) by lia. case_decide as H0; rewrite lookup_insert_eq.
    + by rewrite H0.
    + f_equal. unfold u64_wrapping_add, wrap_u. by rewrite Zplus_mod_idemp_l.
  - rewrite Z.add_0_r, <- (Hn k). case_decide; by rewrite lookup_insert_ne.
Qed.

(** The set after a write through slot [i]. *)
Definition written_set (cs : ColumnSet) (tb : Table) (i : nat) (col : SlotColumn) (v : option Value) : ColumnSet :=
  let n := sl_name col in
  let t := default (fresh_type tb n v) (table_type tb n) in
  set_column cs i col (mkBuilderT t (column_cells tb (n, t) ++ [cell_of t v]))
    (cs_written cs ++ match table_type tb n with Some _ => [] | None => [i] end)
    (if rejects t v then record_type_miss (cs_meta cs) n else cs_meta cs).

Lemma append_slot_eq cs tb i col v :
  related cs tb -> cs_columns cs !! i = Some col -> t_current tb !! sl_name col = None ->
  append_slot cs i v = Some (written_set cs tb i col (Some v))
  /\ append_null_slot cs i = Some (written_set cs tb i col None).
Proof.
  intros R Hc Hcur. unfold Columns.append_slot, append_null_slot. rewrite Hc. cbn [mbind option_bind]. split.
  - destruct (row_builder_cells cs tb i col (Some v) R Hc Hcur) as (t & -> & Hb). simpl in Hb. rewrite Hb.
    by rewrite append_value_cell.
  - destruct (row_builder_cells cs tb i col None R Hc Hcur) as (t & -> & Hb). simpl in Hb. by rewrite Hb.
Qed.

(** Old columns keep their cells; the one written gets its cell. *)
Lemma written_slot_ok cs tb i col v j c :
  related cs tb -> cs_columns cs !! i = Some col -> slot_ok cs tb j c ->
  slot_ok (written_set cs tb i col v) (table_write tb (sl_name col) v) j c.
Proof.
  intros R Hc Hok. pose proof (lookup_lt_Some _ _ _ Hc) as Hlt. destruct (decide (j = i)) as [->|Hj].
  - destruct (slot_name _ _ _ _ _ R Hok Hc) as (Hn & b & Hb & Hbt & _).
    pose proof (slot_builder _ _ _ _ R Hc) as Hs. rewrite Hb, Hbt in Hs. destruct Hs as (_ & Ht & _).
    unfold slot_ok, builder_ok, written_set. rewrite Ht. simpl. rewrite list_lookup_insert_eq by done.
    eexists. split; [by rewrite Hn|]. simpl. rewrite <- Hn, lookup_insert_eq.
    destruct c as [n t]. simpl in *. by subst n.
  - destruct Hok as (b & Hb & Ht & Hv). exists b. simpl. rewrite list_lookup_insert_ne by done.
    split; [done|]. split; [done|]. simpl. rewrite lookup_insert_ne; [done|]. intros Heq. apply Hj.
    by apply (slot_unique cs tb i j c col R Hc); [exists b|].
Qed.

Lemma written_misses cs tb i col v :
  related cs tb -> t_current tb !! sl_name col = None ->
  misses_ok (cs_meta (written_set cs tb i col v)) (table_write tb (sl_name col) v).
Proof.
  intros R Hcur. unfold written_set. cbn [cs_meta set_column]. set (t := default _ _).
  pose proof (rejected_write cs tb (sl_name col) v) as Hr. fold t in Hr. destruct (rejects t v).
  - apply (misses_ok_miss _ tb); [apply R|]. intros k. by apply Hr.
  - apply (misses_ok_ext _ tb); [apply R|]. intros k. rewrite Hr by done. by case_decide; rewrite Z.add_0_r.
Qed.

Lemma write_related cs tb i col v :
  related cs tb -> cs_columns cs !! i = Some col -> t_current tb !! sl_name col = None ->
  related (written_set cs tb i col v) (table_write tb (sl_name col) v).
Proof.
  intros R Hc Hcur. pose proof (lookup_lt_Some _ _ _ Hc) as Hlt.
  pose proof (slot_builder _ _ _ _ R Hc) as Hb.
  assert (forall j c, slot_ok cs tb j c -> slot_ok (written_set cs tb i col v) (table_write tb (sl_name col) v) j c) as Hold
    by eauto using written_slot_ok.
  constructor; [apply R|apply R|by apply written_misses|..].
  - intros n j. simpl. rewrite (rel_slots _ _ R). destruct (decide (j = i)) as [->|Hj].
    + rewrite list_lookup_insert_eq, Hc by done. split; intros (col' & [= <-] & Hn); eauto.
    + by rewrite list_lookup_insert_ne.
  - simpl. apply NoDup_app. split; [apply R|]. destruct (table_type tb _) eqn:E; [split; [set_solver|constructor]|].
    split; [|apply NoDup_singleton]. intros j Hj ->%list_elem_of_singleton.
    destruct (sl_builder col); destruct Hb as [Hi ?]; [naive_solver|done].
  - simpl. destruct (table_type tb _) eqn:E.
    + rewrite app_nil_r. eapply Forall2_impl; [apply R|done].
    + apply Forall2_app; [eapply Forall2_impl; [apply R|done]|]. constructor; [|constructor].
      unfold slot_ok, builder_ok, written_set. rewrite E. simpl. rewrite list_lookup_insert_eq by done.
      eexists. split; [done|]. by rewrite lookup_insert_eq.
  - intros j col' Hj Hni. simpl in *. apply not_elem_of_app in Hni as [Hni Hni2].
    destruct (decide (j = i)) as [->|Hne]; [|rewrite list_lookup_insert_ne in Hj by done; by eapply R].
    destruct (sl_builder col); [by destruct Hb|]. destruct Hb as [_ Ht]. rewrite Ht in Hni2. set_solver.
  - intros n Hn%table_type_None. rewrite table_type_write in Hn. case_decide; [done|]. simpl.
    rewrite lookup_insert_ne by done. by apply R, table_type_None.
Qed.

(** *** Ending rows *)

Lemma column_cells_length tb c : length (column_cells tb c) = length (t_rows tb).
Proof. apply length_fmap. Qed.

Lemma pad_to_values b n : tb_values (pad_to b n) = tb_values b ++ replicate (n - length (tb_values b)) None.
Proof. done. Qed.

(** A row that does not write a column gives it a null, filled in later. *)
Lemma end_row_builder_ok tb c b :
  builder_ok tb c b ->
  builder_ok (mkTable (t_rows tb ++ [t_current tb]) ∅ (t_columns tb) (t_hints tb)) c b.
Proof.
  intros [Ht Hv]. split; [done|]. cbn [t_rows t_current]. rewrite lookup_empty, pad_to_values, length_app.
  unfold column_cells at 1. simpl. rewrite fmap_app. simpl.
  change ((fun row : Row => cell_of c.2 (mjoin (row !! c.1))) <$> t_rows tb) with (column_cells tb c).
  destruct (t_current tb !! c.1) as [v|].
  - rewrite Hv, length_app, column_cells_length. simpl. rewrite Nat.sub_diag. by rewrite app_nil_r.
  - rewrite pad_to_values in Hv. pose proof (f_equal length Hv) as Hl.
    rewrite length_app, length_replicate, column_cells_length in Hl.
    rewrite <- Hv, <- (assoc_L (++)). f_equal.
    replace (length (t_rows tb) + 1 - length (tb_values b))%nat
      with (length (t_rows tb) - length (tb_values b) + 1)%nat by lia.
    by rewrite replicate_add.
Qed.

Lemma end_row_related cs tb :
  related cs tb -> related (end_row cs) (mkTable (t_rows tb ++ [t_current tb]) ∅ (t_columns tb) (t_hints tb)).
Proof.
  intros R. constructor; try apply R; simpl.
  - rewrite length_app, (rel_count _ _ R). simpl. lia.
  - apply (misses_ok_ext _ tb); [apply R|]. intros n. unfold rejected, table_type. simpl.
    destruct (snd <$> _); [|done]. by rewrite filter_app, filter_cons, filter_nil, app_nil_r.
  - eapply Forall2_impl; [apply R|]. intros i c (b & Hb & Hok). exists b. split; [done|].
    by apply end_row_builder_ok.
  - intros n Hn. destruct (rel_fresh _ _ R n Hn) as [Hc Hr]. split; [done|].
    apply Forall_app. by repeat constructor.
Qed.

Lemma hint_related cs tb n t :
  related cs tb ->
  related (set_type_hint cs n t) (mkTable (t_rows tb) (t_current tb) (t_columns tb) (<[n := t]> (t_hints tb))).
Proof.
  intros R. constructor; try apply R; simpl. by rewrite (rel_hints _ _ R).
Qed.

Lemma run_op_related cs tb o tb' :
  related cs tb -> table_op tb o = Some tb' -> exists cs', run_op cs o = Some cs' /\ related cs' tb'.
Proof.
  intros R. destruct o as [n t|n|n v|]; simpl.
  - intros [= <-]. eauto using hint_related.
  - intros [= <-]. destruct (slot cs n) as [cs' i] eqn:Hs. exists cs'. split; [done|].
    by destruct (slot_related _ _ _ _ _ R Hs).
  - destruct (t_current tb !! n) eqn:Hcur; [done|]. intros [= <-]. unfold Columns.append, append_null.
    destruct (slot cs n) as [cs' i] eqn:Hs.
    destruct (slot_related _ _ _ _ _ R Hs) as (R' & col & Hc & <-).
    exists (written_set cs' tb i col v). split; [|by apply write_related].
    destruct v as [v|]; [by destruct (append_slot_eq cs' tb i col v R' Hc Hcur)|].
    by destruct (append_slot_eq cs' tb i col BNull R' Hc Hcur).
  - intros [= <-]. eauto using end_row_related.
Qed.

Lemma run_ops_related l : forall cs tb tb',
  related cs tb -> table_ops tb l = Some tb' -> exists cs', run_ops cs l = Some cs' /\ related cs' tb'.
Proof.
  induction l as [|o l IH]; intros cs tb tb' R; simpl; [intros [= <-]; eauto|].
  destruct (table_op tb o) as [tb1|] eqn:E; [|done]. simpl. intros Hl.
  destruct (run_op_related _ _ _ _ R E) as (cs1 & -> & R1). simpl. by eapply IH.
Qed.

(** *** Output order *)

Lemma find_column_other cols n m :
  find_column (filter (fun c => c.1 <> n) cols) m = if decide (m = n) then None else find_column cols m.
Proof.
  induction cols as [|c cols IH]; [by case_decide|]. rewrite filter_cons.
  destruct (decide (c.1 <> n)) as [Hc|Hc%dec_stable]; simpl; rewrite IH; case_decide; try done; subst;
    by rewrite bool_decide_false.
Qed.

Lemma order_columns_cons n order cols :
  order_columns (n :: order) cols
  = option_list (find_column cols n) ++ order_columns order (filter (fun c => c.1 <> n) cols).
Proof.
  unfold order_columns. simpl. rewrite (assoc_L (++)). f_equal.
  - trans (option_list (find_column cols n) ++ omap (find_column cols) (filter (.≠ n) (first_occurrences order)));
      [by destruct (find_column cols n)|]. f_equal.
    induction (first_occurrences order) as [|m l IH]; [done|]. rewrite filter_cons. simpl.
    rewrite find_column_other. destruct (decide (m = n)) as [->|Hm].
    + by rewrite decide_False by tauto.
    + rewrite decide_True by done. simpl. by destruct (find_column cols m); [f_equal|]; exact IH.
  - induction cols as [|c cols IH]; [done|]. rewrite !filter_cons.
    case_decide as H1; case_decide as H2; rewrite ?filter_cons; repeat case_decide; try set_solver; by rewrite IH.
Qed.

Lemma remove_first_spec i l :
  match remove_first i l with
  | Some l' => exists l1 l2, l = l1 ++ i :: l2 /\ l' = l1 ++ l2
  | None => i ∉ l
  end.
Proof.
  induction l as [|j l IH]; simpl; [set_solver|]. case_decide as Hj; [subst; by exists [], l|].
  destruct (remove_first i l) as [l'|]; simpl; [|set_solver].
  destruct IH as (l1 & l2 & -> & ->). by exists (j :: l1), l2.
Qed.

Lemma other_names cs tb i col l cols :
  related cs tb -> cs_columns cs !! i = Some col -> Forall2 (slot_ok cs tb) l cols -> i ∉ l ->
  sl_name col ∉ cols.*1.
Proof.
  intros R Hc HF Hi Hn. apply list_elem_of_fmap in Hn as (c & Hn & Hin).
  destruct (Forall2_elem_of_r _ _ _ _ HF Hin) as (j & Hj & Hok).
  by rewrite (slot_unique cs tb i j c col R Hc Hok) in Hj.
Qed.

Lemma filter_not_named n (cols : list (string * ArrowType)) :
  n ∉ cols.*1 -> filter (fun c => c.1 <> n) cols = cols.
Proof.
  intros Hn. apply filter_all, Forall_forall. intros c Hc <-. apply Hn. by apply list_elem_of_fmap_2.
Qed.

Lemma ordered_slots_ok cs tb order : forall l cols,
  related cs tb -> NoDup l -> Forall2 (slot_ok cs tb) l cols ->
  Forall2 (slot_ok cs tb) (ordered_slots cs order l) (order_columns order cols).
Proof.
  induction order as [|n order IH]; intros l cols R Hnd HF; simpl.
  { unfold order_columns. simpl. rewrite filter_all; [done|]. apply Forall_forall. set_solver. }
  rewrite order_columns_cons. destruct (cs_slots cs !! n) as [i|] eqn:Hs; simpl.
  - apply (rel_slots _ _ R) in Hs as (col & Hc & <-). pose proof (remove_first_spec i l) as Hr.
    destruct (remove_first i l) as [l'|]; simpl.
    + destruct Hr as (l1 & l2 & -> & ->).
      apply Forall2_app_inv_l in HF as (c1 & c2' & HF1 & HF2 & ->).
      apply Forall2_cons_inv_l in HF2 as (c & c2 & Hok & HF2 & ->).
      apply NoDup_app in Hnd as (Hn1 & Hd & [Hi2 Hn2]%NoDup_cons).
      pose proof (other_names cs tb i col l1 c1 R Hc HF1 ltac:(set_solver)) as Ho1.
      pose proof (other_names cs tb i col l2 c2 R Hc HF2 Hi2) as Ho2.
      destruct (slot_name _ _ _ _ _ R Hok Hc) as (Hn & _).
      rewrite find_column_app, (proj2 (find_column_None _ _) Ho1). simpl. rewrite bool_decide_true by done.
      rewrite filter_app, filter_cons, decide_False, !filter_not_named by naive_solver.
      constructor; [done|]. apply IH; [done|apply NoDup_app; set_solver|by apply Forall2_app].
    + pose proof (other_names cs tb i col l cols R Hc HF Hr) as Ho.
      rewrite (proj2 (find_column_None _ _) Ho), filter_not_named by done. by apply IH.
  - assert (n ∉ cols.*1) as Ho.
    { intros Hn. apply list_elem_of_fmap in Hn as (c & -> & Hin).
      destruct (Forall2_elem_of_r _ _ _ _ HF Hin) as (j & _ & b & Hb & _).
      assert (cs_slots cs !! c.1 = Some j) as Hx by (apply R; eexists; split; [exact Hb|done]). congruence. }
    rewrite (proj2 (find_column_None _ _) Ho), filter_not_named by done. by apply IH.
Qed.
End Tables.

(** ** Correctness *)

Section Correct.
Context {Col : Type} `{AL : ArrowLaws Col} `{AB : ArrowBuild Col} `{!ArrowBuildLaws Col}.
Context `{LE : JsonLaws (gmap string (list Z))} `{LS : JsonLaws (gmap string SecurityErrorMeta)}.
Context `{LD : JsonLaws (gmap string DelayedMeta)} `{LM : JsonLaws (gmap string Z)}.
Context `{LX : ExceptionsJsonLaws}.
Variable ids_to_json : list string -> string.
Variable ids_from_json : string -> option (list string).
Hypothesis ids_json : forall l, ids_from_json (ids_to_json l) = Some l.
Context `{ChronoStamp}.
Variables ryu_text other_text : spec_float -> string.
Local Abbreviation finish_with_order := (finish_with_order (Col := Col) ids_to_json).
Local Abbreviation column_cells := (column_cells ryu_text other_text).
Local Abbreviation related := (related ryu_text other_text).

Definition column_field (c : string * ArrowType) : Field := mkField c.1 (to_arrow_datatype c.2) true ∅.
Definition column_array (tb : Table) (c : string * ArrowType) : Col := array_of c.2 (column_cells tb c).

Lemma column_finish_cells cs tb i c :
  related cs tb -> t_current tb = ∅ -> slot_ok ryu_text other_text cs tb i c ->
  column_finish cs i = Some (column_field c, column_array tb c).
Proof.
  intros R Hcur (b & Hb & Ht & Hv). unfold column_finish. rewrite Hb. simpl. rewrite (rel_count _ _ _ _ R).
  rewrite Hcur, lookup_empty in Hv. rewrite pad_to_values in Hv. unfold column_field, column_array.
  by rewrite Ht, Hv.
Qed.

Lemma columns_finish cs tb l cols :
  related cs tb -> t_current tb = ∅ -> Forall2 (slot_ok ryu_text other_text cs tb) l cols ->
  mapM (column_finish cs) l = Some ((fun c => (column_field c, column_array tb c)) <$> cols).
Proof.
  intros R Hcur HF. induction HF as [|i c l cols Hok HF IH]; [done|]. simpl.
  by rewrite (column_finish_cells cs tb i c R Hcur Hok), IH.
Qed.

Lemma order_columns_nonempty order : forall cols, cols <> [] -> order_columns order cols <> [].
Proof.
  induction order as [|n order IH]; intros cols Hne.
  - unfold order_columns. simpl. rewrite filter_all; [done|]. apply Forall_forall. set_solver.
  - rewrite order_columns_cons. destruct (find_column cols n) as [c|] eqn:E; [done|]. simpl.
    apply find_column_None in E. rewrite filter_not_named by done. by apply IH.
Qed.

Lemma columns_fit (cells : string * ArrowType -> list (option ArrayCell)) n cols :
  (forall c, length (cells c) = n) ->
  fits (mkSchema (column_field <$> cols) ∅) ((fun c => array_of (Col := Col) c.2 (cells c)) <$> cols) n.
Proof.
  intros Hn. unfold fits. simpl. apply Forall2_fmap, Forall_Forall2_diag, Forall_forall. intros c _.
  destruct (array_of_ok (Col := Col) c.2 (cells c)) as [Ht Hl]. unfold column_fits. simpl. by rewrite Ht, Hl, Hn.
Qed.

(** A batch without metadata says nothing; attached diagnostics are all it says. *)
Lemma attach_fresh m fs (arrays : list Col) n :
  metadata_ok m ->
  exists b, attach ids_to_json m (mkArrowBatch (mkSchema fs ∅) arrays n) = Some b
    /\ fields (b_schema b) = fs /\ b_columns b = arrays /\ b_rows b = n /\ reading ids_from_json b = meaning m.
Proof.
  intros Hm.
  destruct (attach_reading ids_to_json ids_from_json ids_json m (mkArrowBatch (mkSchema fs ∅) arrays n) Hm)
    as (b & Hb & Hc & Hr & Hf & Hread). exists b. split_and!; try done. rewrite Hread. unfold meaning.
  unfold Metadata.reading. simpl. rewrite !lookup_empty. simpl. unfold kept.
  by f_equal; try case_decide; try done; destruct (rm_ids m).
Qed.

Lemma build_table cs tb cols :
  related cs tb -> cols <> [] ->
  exists b, build ids_to_json cs ((fun c => (column_field c, column_array tb c)) <$> cols) = Some (Ok b)
    /\ fields (b_schema b) = column_field <$> cols
    /\ b_columns b = column_array tb <$> cols
    /\ b_rows b = length (t_rows tb)
    /\ reading ids_from_json b = meaning (cs_meta cs).
Proof.
  intros R Hne. unfold build. rewrite <- !list_fmap_compose. unfold compose. cbn [fst snd].
  rewrite (try_new_ok _ _ (length (t_rows tb)));
    [|by destruct cols|apply (columns_fit (column_cells tb)), column_cells_length].
  destruct (attach_fresh (cs_meta cs) (column_field <$> cols) (column_array tb <$> cols) (length (t_rows tb)))
    as (b & Hb & Hrest).
  { rewrite (proj1 (rel_meta _ _ _ _ R)). split; [split; [constructor|apply map_Forall_empty]|constructor]. }
  exists b. split; [|done]. exact (f_equal (fmap (Ok (E := BlpError))) Hb).
Qed.

(** The batch of a set whose rows have ended. *)
Lemma finish_related cs tb order :
  related cs tb -> t_current tb = ∅ -> t_columns tb <> [] ->
  exists b misses, finish_with_order cs order = Some (Ok b)
    /\ fields (b_schema b) = column_field <$> order_columns order (t_columns tb)
    /\ b_columns b = column_array tb <$> order_columns order (t_columns tb)
    /\ b_rows b = length (t_rows tb)
    /\ reading ids_from_json b = mkReading ∅ ∅ ∅ ∅ misses []
    /\ forall n, misses !! n = let k := rejected ryu_text other_text tb n in
                              if decide (k = 0) then None else Some (wrap_u 64 k).
Proof.
  intros R Hcur Hne. pose proof (rel_written _ _ _ _ R) as HF. unfold Columns.finish_with_order.
  destruct (cs_written cs) as [|i w] eqn:Hw; [by apply Forall2_nil_inv_l in HF|].
  assert (Forall2 (slot_ok ryu_text other_text cs tb) (ordered_slots cs order (i :: w))
            (order_columns order (t_columns tb))) as HO.
  { apply ordered_slots_ok; [done|rewrite <- Hw; apply R|done]. }
  rewrite (columns_finish _ tb _ _ R Hcur HO). cbn [mbind option_bind].
  destruct (build_table cs tb (order_columns order (t_columns tb)) R) as (b & Hb & Hf & Hc & Hr & Hm).
  { by apply order_columns_nonempty. }
  destruct (rel_meta _ _ _ _ R) as [Hmeta Hmiss].
  exists b, (type_misses (cs_meta cs)). split_and!; try done. rewrite Hm, Hmeta. done.
Qed.

(** Nothing written: the batch asked for has its columns without rows, typed by the hints. *)
Lemma finish_unwritten cs tb order :
  related cs tb -> t_columns tb = [] -> order <> [] ->
  finish ids_to_json cs = Some (Ok empty_batch)
  /\ exists b, finish_with_order cs order = Some (Ok b) /\ b_rows b = 0%nat
       /\ b_columns b = (fun n => array_of (default ATString (t_hints tb !! n)) []) <$> order
       /\ fields (b_schema b)
          = (fun n => column_field (n, default ATString (t_hints tb !! n))) <$> order
       /\ reading ids_from_json b = reading_empty.
Proof.
  intros R Hcols Hne. pose proof (rel_written _ _ _ _ R) as HF. rewrite Hcols in HF. apply Forall2_nil_inv_r in HF.
  unfold finish, Columns.finish_with_order, build_empty_with_order.
  rewrite HF, (rel_hints _ _ _ _ R). destruct order as [|o order]; [done|]. split; [done|].
  rewrite (try_new_ok _ _ 0); [|done|].
  - eexists. split; [done|]. split; [done|]. cbn [b_schema fields b_columns]. rewrite <- !list_fmap_compose.
    split; [done|]. split; [done|]. unfold reading. simpl. by rewrite !lookup_empty.
  - unfold fits. apply Forall2_fmap, Forall_Forall2_diag, Forall_fmap, Forall_forall. intros n _.
    destruct (array_of_ok (Col := Col) (default ATString (t_hints tb !! n)) []) as [Ht Hn].
    unfold column_fits. simpl. by rewrite Ht, Hn.
Qed.

(** C13: What the column set builds is the table: whatever order columns appear in, however
    many rows skip them and wherever type hints are set, as long as no column is
    written twice in one row, the finished batch has one column per written name in the
    order asked for (named ones first, once each; then first-write order), typed by the
    hint or first value known at its first write, with one cell per ended row that is
    null exactly where the row did not write the column, wrote a null, or wrote a value
    the type rejects, and its diagnostics count the rejected values of every column. *)
Theorem column_set_is_table l tb :
  table_ops table_new l = Some tb -> t_current tb = ∅ -> t_columns tb <> [] ->
  exists cs, run_ops ryu_text other_text column_set_new l = Some cs
    /\ finish ids_to_json cs = finish_with_order cs []
    /\ forall order, exists b, finish_with_order cs order = Some (Ok b)
       /\ fields (b_schema b) = column_field <$> order_columns order (t_columns tb)
       /\ b_columns b = column_array tb <$> order_columns order (t_columns tb)
       /\ b_rows b = length (t_rows tb)
       /\ forall n, r_misses (reading ids_from_json b) !! n
            = let k := rejected ryu_text other_text tb n in
              if decide (k = 0) then None else Some (wrap_u 64 k).
Proof.
  intros Hl Hcur Hne.
  destruct (run_ops_related ryu_text other_text l _ _ _ (related_new ryu_text other_text) Hl) as (cs & Hcs & R).
  exists cs. split; [done|]. split.
  - pose proof (rel_written _ _ _ _ R) as HF. unfold finish, Columns.finish_with_order.
    destruct (cs_written cs); [by apply Forall2_nil_inv_l in HF|done].
  - intros order. destruct (finish_related cs tb order R Hcur Hne) as (b & misses & Hb & Hf & Hc & Hr & Hread & Hm).
    exists b. by rewrite Hread.
Qed.
End Correct.

(** ** A concrete instance *)

Module SimpleBuild.

#[export] Instance simple_build : ArrowBuild SimpleCol := {
  array_of t l := mkCol (to_arrow_datatype t) (length l) (length (filter (fun c => c = None) l))
}.

#[export] Instance simple_build_laws : ArrowBuildLaws SimpleCol.
Proof. by constructor. Qed.

#[export] Instance no_stamps : ChronoStamp := { from_timestamp_text _ _ := None }.
End SimpleBuild.

Section Examples.
Import Codec Concrete SimpleBuild.
Local Open Scope string_scope.

Definition some_text (v : spec_float) : string := "0.0".

(** A late column, a skipped one and a rejected value. *)
Definition sample_ops : list Op :=
  [OHint "px" ATFloat64; OWrite "ticker" (Some (BString "SYN_A")); OWrite "px" (Some (BString "n.a."));
   OEndRow; OSlot "size"; OEndRow; OWrite "size" (Some (BInt64 5)); OWrite "ticker" None; OEndRow].

Definition sample_table : Table := default table_new (table_ops table_new sample_ops).

Lemma column_set_is_table_witness :
  order_columns ["size"; "absent"; "size"] (t_columns sample_table)
  = [("size", ATInt64); ("ticker", ATString); ("px", ATFloat64)]
  /\ column_cells some_text some_text sample_table ("size", ATInt64) = [None; None; Some (CellI64 5)]
  /\ rejected some_text some_text sample_table "px" = 1%Z
  /\ is_Some (run_ops some_text some_text column_set_new sample_ops).
Proof.
  split_and!; [vm_compute; reflexivity..|].
  destruct (column_set_is_table (Col := SimpleCol) ids_text text_ids text_ids_text some_text some_text
              sample_ops sample_table) as (cs & Hcs & _);
    [vm_compute; reflexivity|vm_compute; reflexivity|vm_compute; discriminate|].
  exists cs. exact Hcs.
Defined.
End Examples.
