(* ===== verification/Extract.v ===== *)
(** * Reading values and building fixed layouts

    [Element::get_value] of xbbg-core and the readers and column builders of
    [engine/state/value_utils.rs] that the reference and historical extractors share:
    reading with a cached type, the long layouts of one row per value ([LongStringColumns],
    [TypedLongColumns], [LongRowWriter]) and the wide one of a column per field
    ([WideColumns]), which is drained chunk by chunk and keeps the types it learnt.

    Capacity reservations are left out.  No element reads as [Value::Datetime]; the
    typed layout treats one as having date parts. *)

From Stdlib Require Import Ascii String ZArith Lia SpecFloat.
From stdpp Require Import pretty.
From S2P Require Import Prelude Errors Update Decoder Plan Schema Diagnostics Pool Metadata.
From S2P Require Import ShardMerge Calendar Columns.
Local Open Scope Z_scope.

(** ** Reading *)

(** The typed getters of an element beside those of [Sdk], and its type. *)
Class SdkScalars (E : Type) := {
  e_datatype : E -> DataType;
  e_char : E -> nat -> option Z;
  e_i64 : E -> nat -> option Z;
  e_f64 : E -> nat -> option spec_float;
  e_datetime : E -> nat -> option HighPrecisionDatetime;
  DATE_PART : Z;
  OFFSET_PART : Z
}.

Section Reading.
Context {E : Type} `{Sdk E} `{SdkScalars E}.

Definition get_value_fast_with_datatype (e : E) (i : nat) (t : DataType) : option Value :=
  match t with
  | DtBool => BBool <$> e_bool e i
  | DtChar | DtByte =>
      (fun c => if c =? 89 then BBool true else if c =? 78 then BBool false else BByte c) <$> e_char e i
  | DtInt32 => BInt32 <$> e_i32 e i
  | DtInt64 => BInt64 <$> e_i64 e i
  | DtFloat32 | DtFloat64 | DtDecimal => BFloat64 <$> e_f64 e i
  | DtString => BString <$> e_str e i
  | DtDate =>
      (fun d => BDate32 (wrap_s 32 (Z.quot (to_micros OFFSET_PART d) DAY_MICROS))) <$> e_datetime e i
  | DtTime => (fun d => BTime64Micros (to_time_micros d)) <$> e_datetime e i
  | DtDatetime =>
      (fun d => if has_date_parts DATE_PART d then BTimestampMicros (to_micros OFFSET_PART d)
                else BTime64Micros (to_time_micros d)) <$> e_datetime e i
  | DtEnumeration => BEnum <$> e_str e i
  | DtSequence | DtChoice | DtByteArray | DtCorrelationId => Some BNull
  end.

Definition get_value (e : E) (i : nat) : option Value :=
  if e_is_null e then Some BNull
  else if (e_len e <=? i)%nat then None
  else get_value_fast_with_datatype e i (e_datatype e).

Definition has_scalar_value (t : DataType) : bool :=
  match t with DtSequence | DtChoice | DtByteArray | DtCorrelationId => false | _ => true end.

(** For an element that is not null. *)
Definition non_null_value (e : E) (t : DataType) : option Value :=
  if has_scalar_value t then get_value_fast_with_datatype e 0 t
  else if (e_len e =? 0)%nat then None else Some BNull.

(** The value and the cached type. *)
Definition refresh_value_datatype (e : E) (cached : option DataType) : option Value * option DataType :=
  if e_is_null e then (Some BNull, cached)
  else let t := e_datatype e in (non_null_value e t, Some t).

Definition get_value_cached_datatype (e : E) (cached : option DataType)
  : option Value * option DataType :=
  match cached with
  | Some t =>
      match (if has_scalar_value t then get_value_fast_with_datatype e 0 t else None) with
      | Some v => (Some v, cached)
      | None => refresh_value_datatype e cached
      end
  | None => refresh_value_datatype e cached
  end.

Definition get_value_with_datatype (e : E) (t : DataType) : option Value :=
  if has_scalar_value t then
    match get_value_fast_with_datatype e 0 t with
    | Some v => Some v
    | None => if e_is_null e then Some BNull else None
    end
  else if e_is_null e then Some BNull
  else non_null_value e t.

(** The value of a named child: [element.get(name).and_then(...)]. *)
Definition read_child (e : E) (name : string) (cached : option DataType) : option Value * option DataType :=
  match e_get e name with
  | Some child => get_value_cached_datatype child cached
  | None => (None, cached)
  end.
End Reading.

(** ** Types of the value column *)

#[export] Instance ArrowType_eq_dec : EqDecision ArrowType.
Proof. solve_decision. Defined.

(** The loop of [common_value_type]: whether a float and an integer were seen, or
    [None] for the return inside it. *)
Fixpoint numeric_hints (l : list string) (types : gmap string ArrowType) (has_float has_int : bool)
  : option (bool * bool) :=
  match l with
  | [] => Some (has_float, has_int)
  | n :: l =>
      match types !! n with
      | Some ATFloat64 => numeric_hints l types true has_int
      | Some ATInt64 | Some ATInt32 => numeric_hints l types has_float true
      | _ => None
      end
  end.

Definition common_value_type (names : list string) (types : gmap string ArrowType) : ArrowType :=
  if bool_decide (names = []) || bool_decide (types = ∅) then ATString
  else match numeric_hints names types false false with
       | Some (has_float, has_int) => if has_float || has_int then ATFloat64 else ATString
       | None => ATString
       end.

Definition type_name (t : ArrowType) : string :=
  match t with
  | ATFloat64 => "float64" | ATInt64 => "int64" | ATInt32 => "int32" | ATString => "string"
  | ATBool => "bool" | ATDate32 => "date32" | ATTimestampMicros => "timestamp" | ATTime64Micros => "time64"
  end.

Definition field_dtype_hints (names : list string) (types : gmap string ArrowType) : list (option string) :=
  (fun n => type_name <$> types !! n) <$> names.

(** [append_date32_value] *)
Definition date32_of (v : option Value) : option Z :=
  match v with
  | Some (BDate32 days) => Some days
  | Some (BTimestampMicros micros) => Some (wrap_s 32 (micros / DAY_MICROS))
  | _ => None
  end.

(** ** Long rows *)

Record LongStringColumns : Type := mkLong {
  ls_ticker : list string;
  ls_date : option (list (option Z));
  ls_field : list string;
  ls_value : TypedBuilder;
  ls_row_count : nat;
  ls_meta : ResponseMetadata
}.

Definition long_new (value_type : ArrowType) (include_date : bool) : LongStringColumns :=
  mkLong [] (if include_date then Some [] else None) [] (builder_new value_type) 0 metadata_default.

Record TypedLongColumns : Type := mkTyped {
  tl_ticker : list string;
  tl_date : option (list (option Z));
  tl_field : list string;
  tl_f64 : list (option spec_float);
  tl_i64 : list (option Z);
  tl_str : list (option string);
  tl_bool : list (option bool);
  tl_days : list (option Z);
  tl_ts : list (option Z);
  tl_time : list (option Z);
  tl_row_count : nat;
  tl_schema : list Field
}.

Definition nullable_field (name : string) (t : ArrowType) : Field :=
  mkField name (to_arrow_datatype t) true ∅.

Definition typed_schema (include_date : bool) : list Field :=
  [nullable_field "ticker" ATString]
  ++ (if include_date then [nullable_field "date" ATDate32] else [])
  ++ [nullable_field "field" ATString; nullable_field "value_f64" ATFloat64;
      nullable_field "value_i64" ATInt64; nullable_field "value_str" ATString;
      nullable_field "value_bool" ATBool; nullable_field "value_date" ATDate32;
      nullable_field "value_ts" ATTimestampMicros; nullable_field "value_time" ATTime64Micros].

Definition typed_new (include_date : bool) : TypedLongColumns :=
  mkTyped [] (if include_date then Some [] else None) [] [] [] [] [] [] [] [] 0 (typed_schema include_date).

Definition reserve_if_empty (c : TypedLongColumns) : TypedLongColumns :=
  if (tl_row_count c =? 0)%nat then typed_new (bool_decide (is_Some (tl_date c))) else c.

(** What [append_typed_value] appends to the builders of floats, integers, texts,
    booleans, days, timestamps and times. *)
Record TypedCells : Type := mkTypedCells {
  tc_f64 : option spec_float; tc_i64 : option Z; tc_str : option string; tc_bool : option bool;
  tc_days : option Z; tc_ts : option Z; tc_time : option Z
}.

Definition append_typed_value (v : option Value) : TypedCells :=
  match v with
  | Some (BFloat64 v) => mkTypedCells (Some v) None None None None None None
  | Some (BInt64 v) | Some (BInt32 v) | Some (BByte v) => mkTypedCells None (Some v) None None None None None
  | Some (BString s) | Some (BEnum s) => mkTypedCells None None (Some s) None None None None
  | Some (BBool b) => mkTypedCells None None None (Some b) None None None
  | Some (BDate32 d) => mkTypedCells None None None None (Some d) None None
  | Some (BTimestampMicros m) | Some (BDatetime m) => mkTypedCells None None None None None (Some m) None
  | Some (BTime64Micros m) => mkTypedCells None None None None None None (Some m)
  | Some BNull | None => mkTypedCells None None None None None None None
  end.

Definition typed_append_row (c : TypedLongColumns) (ticker : string) (date : option Value)
  (field : string) (v : option Value) : TypedLongColumns :=
  let x := append_typed_value v in
  mkTyped (tl_ticker c ++ [ticker]) ((fun l => l ++ [date32_of date]) <$> tl_date c)
    (tl_field c ++ [field]) (tl_f64 c ++ [tc_f64 x]) (tl_i64 c ++ [tc_i64 x]) (tl_str c ++ [tc_str x])
    (tl_bool c ++ [tc_bool x]) (tl_days c ++ [tc_days x]) (tl_ts c ++ [tc_ts x]) (tl_time c ++ [tc_time x])
    (S (tl_row_count c)) (tl_schema c).

(** ** Wide rows *)

Record WideFieldColumn : Type := mkWideField {
  wf_name : string;
  wf_type_hint : option ArrowType;
  wf_builder : option TypedBuilder;
  wf_type_misses : Z
}.

Record WideColumns : Type := mkWide {
  wc_ticker : list string;
  wc_date : option (list (option Z));
  wc_fields : list WideFieldColumn;
  wc_row_count : nat;
  wc_schema : option (list Field)
}.

Definition wide_new (names : list string) (types : gmap string ArrowType) (include_date : bool) : WideColumns :=
  mkWide [] (if include_date then Some [] else None)
    ((fun n => mkWideField n (types !! n) None 0) <$> names) 0 None.

(** [value.filter(|value| !value.is_null())] *)
Definition present (v : option Value) : option Value :=
  match v with None | Some BNull => None | Some v => Some v end.

Section Appending.
Context `{ChronoStamp}.
Variables ryu_text other_text : spec_float -> string.
Local Abbreviation append_value := (append_value ryu_text other_text).
Local Abbreviation append_slot := (append_slot ryu_text other_text).

(** [append_refdata_row] and [append_histdata_row]; without a date builder the date is
    not looked at. *)
Definition long_append_row (c : LongStringColumns) (ticker : string) (date : option Value)
  (field : string) (v : option Value) : LongStringColumns :=
  let '(value, rejected) := append_value (ls_value c) v in
  mkLong (ls_ticker c ++ [ticker]) ((fun l => l ++ [date32_of date]) <$> ls_date c)
    (ls_field c ++ [field]) value (S (ls_row_count c))
    (if rejected then record_type_miss (ls_meta c) field else ls_meta c).

(** [value_to_string] *)
Definition value_to_string (v : Value) : string :=
  match v with
  | BNull => ""
  | BBool b => if b then "true" else "false"
  | BInt32 i | BInt64 i | BByte i => pretty i
  | BFloat64 f => other_text f
  | BString s | BEnum s => s
  | BDate32 d => format_date32 d
  | BTimestampMicros ts | BDatetime ts => format_timestamp_micros ts
  | BTime64Micros t => format_time64_micros t
  end.

(** *** Rows through a column set *)

Record LongRowWriter : Type := mkWriter {
  lw_mode : LongMode;
  lw_ticker : nat;
  lw_date : option nat;
  lw_field : nat;
  lw_value : nat;
  lw_dtype : nat
}.

Definition writer_new (cs : ColumnSet) (mode : LongMode) (include_date : bool) : ColumnSet * LongRowWriter :=
  let '(cs, ticker) := slot cs "ticker" in
  let '(cs, date) := if include_date then let '(cs, d) := slot cs "date" in (cs, Some d) else (cs, None) in
  let '(cs, field) := slot cs "field" in
  let '(cs, value) := slot cs "value" in
  let '(cs, dtype) := slot cs "dtype" in
  (cs, mkWriter mode ticker date field value dtype).

Definition append_str_slot (cs : ColumnSet) (i : nat) (s : string) : option ColumnSet :=
  append_slot cs i (BString s).

Definition append_opt_slot (cs : ColumnSet) (i : nat) (v : option Value) : option ColumnSet :=
  match v with Some v => append_slot cs i v | None => append_null_slot cs i end.

(** [None] is a panic: a slot of another set, or the typed mode. *)
Definition writer_append_row (w : LongRowWriter) (cs : ColumnSet) (ticker : string) (date : option Value)
  (field : string) (v : option Value) (dtype_hint : option string) : option ColumnSet :=
  cs ← append_str_slot cs (lw_ticker w) ticker;
  cs ← match lw_date w with Some i => append_opt_slot cs i date | None => Some cs end;
  cs ← append_str_slot cs (lw_field w) field;
  cs ← match lw_mode w with
       | LmString => append_opt_slot cs (lw_value w) v
       | LmWithMetadata =>
           match v with
           | Some v =>
               let dtype := default (type_name (arrow_type_from_value v)) dtype_hint in
               cs ← append_str_slot cs (lw_value w) (value_to_string v);
               append_str_slot cs (lw_dtype w) dtype
           | None =>
               cs ← append_null_slot cs (lw_value w);
               append_str_slot cs (lw_dtype w) "null"
           end
       | LmTyped => None
       end;
  Some (end_row cs).

(** *** Wide rows *)

Definition wide_set_field (c : WideColumns) (i : nat) (f : WideFieldColumn) (schema : option (list Field))
  : WideColumns :=
  mkWide (wc_ticker c) (wc_date c) (<[i := f]> (wc_fields c)) (wc_row_count c) schema.

Definition count_miss (rejected : bool) (n : Z) : Z := if rejected then u64_wrapping_add n 1 else n.

Definition append_field_value (c : WideColumns) (i : nat) (v : option Value) : WideColumns :=
  match wc_fields c !! i with
  | None => c
  | Some f =>
      match wf_builder f with
      | Some b =>
          let '(b, rejected) := append_value b v in
          wide_set_field c i
            (mkWideField (wf_name f) (wf_type_hint f) (Some b) (count_miss rejected (wf_type_misses f)))
            (wc_schema c)
      | None =>
          match present v with
          | None => c
          | Some v =>
              let t := default (arrow_type_from_value v) (wf_type_hint f) in
              let schema :=
                if bool_decide (t <> default ATString (wf_type_hint f)) then None else wc_schema c in
              let '(b, rejected) := append_value (append_nulls (builder_new t) (wc_row_count c)) (Some v) in
              wide_set_field c i
                (mkWideField (wf_name f) (wf_type_hint f) (Some b) (count_miss rejected (wf_type_misses f)))
                schema
          end
      end
  end.

Section WideRows.
Context {E : Type} `{Sdk E} `{SdkScalars E}.

(** One index of the loop of [append_field_values], with the cached types. *)
Definition append_field_at (fd : E) (names : list string) (st : WideColumns * list (option DataType)) (i : nat)
  : WideColumns * list (option DataType) :=
  let '(c, dts) := st in
  match names !! i, dts !! i with
  | Some name, Some dt =>
      let '(v, dt) := read_child fd name dt in (append_field_value c i v, <[i := dt]> dts)
  | _, _ => (append_field_value c i None, dts)
  end.

Definition append_field_values (c : WideColumns) (fd : E) (names : list string) (dts : list (option DataType))
  : WideColumns * list (option DataType) :=
  fold_left (append_field_at fd names) (seq 0 (length (wc_fields c))) (c, dts).

(** [append_refdata_row] and [append_histdata_row] *)
Definition wide_append_row (c : WideColumns) (ticker : string) (date : option Value) (fd : E)
  (names : list string) (dts : list (option DataType)) : WideColumns * list (option DataType) :=
  let c := mkWide (wc_ticker c ++ [ticker]) ((fun l => l ++ [date32_of date]) <$> wc_date c)
             (wc_fields c) (wc_row_count c) (wc_schema c) in
  let '(c, dts) := append_field_values c fd names dts in
  (mkWide (wc_ticker c) (wc_date c) (wc_fields c) (S (wc_row_count c)) (wc_schema c), dts).
End WideRows.
End Appending.

(** ** Finishing *)

Section Finishing.
Context {Col : Type} `{ArrowOps Col} `{ArrowBuild Col}.
Context `{JE : Json (gmap string (list Z))} `{JS : Json (gmap string SecurityErrorMeta)}.
Context `{JD : Json (gmap string DelayedMeta)} `{JM : Json (gmap string Z)}.
Context `{EX : ExceptionsJson}.
Variable ids_to_json : list string -> string.
Local Open Scope string_scope.

Definition cells {A} (f : A -> ArrayCell) (l : list (option A)) : list (option ArrayCell) :=
  option_map f <$> l.

Definition str_array (l : list string) : Col := array_of ATString ((fun s => Some (CellStr s)) <$> l).
Definition date_array (l : list (option Z)) : Col := array_of ATDate32 (cells CellDate (l)).

(** [RecordBatch::try_new], with diagnostics attached when it succeeds. *)
Definition try_build (what : string) (m : ResponseMetadata) (fs : list Field) (arrays : list Col)
  : option (result (ArrowBatch Col) BlpError) :=
  match try_new (mkSchema fs ∅) arrays with
  | Ok b => Ok <$> attach ids_to_json m b
  | Err e => Some (Err (Internal (what ++ ": " ++ e)))
  end.

Definition long_finish_refdata (c : LongStringColumns) : option (result (ArrowBatch Col) BlpError) :=
  try_build "build long ReferenceData RecordBatch" (ls_meta c)
    [nullable_field "ticker" ATString; nullable_field "field" ATString;
     nullable_field "value" (tb_type (ls_value c))]
    [str_array (ls_ticker c); str_array (ls_field c);
     array_of (tb_type (ls_value c)) (tb_values (ls_value c))].

Definition long_finish_histdata (c : LongStringColumns) : option (result (ArrowBatch Col) BlpError) :=
  match ls_date c with
  | None => Some (Err (Internal "histdata long columns missing date builder"))
  | Some date =>
      try_build "build long HistoricalData RecordBatch" (ls_meta c)
        [nullable_field "ticker" ATString; nullable_field "date" ATDate32; nullable_field "field" ATString;
         nullable_field "value" (tb_type (ls_value c))]
        [str_array (ls_ticker c); date_array date; str_array (ls_field c);
         array_of (tb_type (ls_value c)) (tb_values (ls_value c))]
  end.

Definition typed_finish (c : TypedLongColumns) : result (ArrowBatch Col) BlpError :=
  result_map_err (fun e => Internal ("build typed long RecordBatch: " ++ e))
    (try_new (mkSchema (tl_schema c) ∅)
       ([str_array (tl_ticker c)]
        ++ (match tl_date c with Some date => [date_array date] | None => [] end)
        ++ [str_array (tl_field c); array_of ATFloat64 (cells CellF64 (tl_f64 c));
            array_of ATInt64 (cells CellI64 (tl_i64 c)); array_of ATString (cells CellStr (tl_str c));
            array_of ATBool (cells CellBool (tl_bool c)); date_array (tl_days c);
            array_of ATTimestampMicros (cells CellStamp (tl_ts c));
            array_of ATTime64Micros (cells CellTime (tl_time c))])%list).

Definition wide_field_type (f : WideFieldColumn) : ArrowType :=
  match wf_builder f with Some b => tb_type b | None => default ATString (wf_type_hint f) end.

Definition wide_schema (c : WideColumns) (include_date : bool) : list Field :=
  ([nullable_field "ticker" ATString] ++ (if include_date then [nullable_field "date" ATDate32] else [])
   ++ ((fun f => nullable_field (wf_name f) (wide_field_type f)) <$> wc_fields c))%list.

(** The array of a column and the column after the chunk. *)
Definition wide_field_finish (rows : nat) (f : WideFieldColumn) : Col * WideFieldColumn :=
  match wf_builder f with
  | Some b => (array_of (tb_type b) (tb_values b),
               mkWideField (wf_name f) (wf_type_hint f) (Some (builder_new (tb_type b))) 0)
  | None => (let t := default ATString (wf_type_hint f) in array_of t (replicate rows None),
             mkWideField (wf_name f) (wf_type_hint f) None 0)
  end.

(** The misses of the chunk, in the order of the fields. *)
Definition wide_misses (l : list WideFieldColumn) : gmap string Z :=
  fold_left (fun m f => if 0 <? wf_type_misses f then <[wf_name f := wf_type_misses f]> m else m)%Z l ∅.

Definition wide_finish (c : WideColumns) (include_date : bool)
  : WideColumns * option (result (ArrowBatch Col) BlpError) :=
  let schema := default (wide_schema c include_date) (wc_schema c) in
  let missing := include_date && negb (bool_decide (is_Some (wc_date c))) in
  if missing then
    (mkWide [] (wc_date c) (wc_fields c) (wc_row_count c) (Some schema),
     Some (Err (Internal "wide HistoricalData columns missing date builder")))
  else
    let columns := wide_field_finish (wc_row_count c) <$> wc_fields c in
    let diagnostics := mkMetadata ∅ ∅ exceptions_default ∅ (wide_misses (wc_fields c)) [] false [] in
    (mkWide [] (if include_date then (fun _ => []) <$> wc_date c else wc_date c) columns.*2 0 (Some schema),
     try_build "build wide RecordBatch" diagnostics schema
       ([str_array (wc_ticker c)]
        ++ (if include_date then [date_array (default [] (wc_date c))] else [])
        ++ columns.*1)%list).
End Finishing.

(** ** Cached types are invisible *)

(** A typed getter succeeds only on an element that is not null and has a value there. *)
Class SdkScalarLaws (E : Type) `{Sdk E} `{SdkScalars E} := {
  getter_present (e : E) i :
    is_Some (e_bool e i) \/ is_Some (e_char e i) \/ is_Some (e_i32 e i) \/ is_Some (e_i64 e i)
    \/ is_Some (e_f64 e i) \/ is_Some (e_str e i) \/ is_Some (e_datetime e i) ->
    e_is_null e = false /\ (i < e_len e)%nat
}.

Section ReadingLaws.
Context {E : Type} `{SdkScalarLaws E}.

Lemma fast_present (e : E) i t :
  has_scalar_value t = true -> is_Some (get_value_fast_with_datatype e i t) ->
  e_is_null e = false /\ (i < e_len e)%nat.
Proof.
  intros Ht [v Hv]. apply getter_present.
  destruct t; simpl in *; try done; apply fmap_Some in Hv as (x & -> & _); naive_solver eauto.
Qed.

(** The cached type of a field is unknown or that of its element. *)
Definition cache_fits (t : DataType) (cached : option DataType) : Prop := cached = None \/ cached = Some t.

Lemma refresh_value (e : E) cached :
  cache_fits (e_datatype e) cached ->
  exists cached', refresh_value_datatype e cached = (get_value e 0, cached') /\ cache_fits (e_datatype e) cached'.
Proof.
  intros Hc. unfold refresh_value_datatype, get_value, non_null_value.
  destruct (e_is_null e) eqn:Hn; [by exists cached|]. eexists. split; [|by right]. f_equal.
  destruct (has_scalar_value (e_datatype e)) eqn:Hs.
  - destruct (Nat.leb_spec (e_len e) 0); [|done].
    destruct (get_value_fast_with_datatype e 0 (e_datatype e)) eqn:Hg; [|done].
    destruct (fast_present e 0 _ Hs) as [_ ?]; [by eexists|lia].
  - destruct (e_len e); [done|]. simpl. by destruct (e_datatype e).
Qed.

(** A read with the cached type is [get_value(0)]. *)
Lemma cached_value (e : E) cached :
  cache_fits (e_datatype e) cached ->
  exists cached', get_value_cached_datatype e cached = (get_value e 0, cached')
    /\ cache_fits (e_datatype e) cached'.
Proof.
  intros Hc. unfold get_value_cached_datatype. destruct Hc as [-> | ->]; [apply refresh_value; by left|].
  destruct (has_scalar_value (e_datatype e)) eqn:Hs; [|apply refresh_value; by right].
  destruct (get_value_fast_with_datatype e 0 (e_datatype e)) as [v|] eqn:Hg; [|apply refresh_value; by right].
  destruct (fast_present e 0 _ Hs) as [Hn Hl]; [by eexists|]. eexists. split; [|by right].
  unfold get_value. rewrite Hn, Hg. destruct (Nat.leb_spec (e_len e) 0); [lia|done].
Qed.

(** So is a read with the type at hand. *)
Theorem known_type_value (e : E) : get_value_with_datatype e (e_datatype e) = get_value e 0.
Proof.
  unfold get_value_with_datatype, get_value, non_null_value.
  destruct (has_scalar_value (e_datatype e)) eqn:Hs.
  - destruct (get_value_fast_with_datatype e 0 (e_datatype e)) as [v|] eqn:Hg.
    + destruct (fast_present e 0 _ Hs) as [-> Hl]; [by eexists|].
      destruct (Nat.leb_spec (e_len e) 0); [lia|done].
    + destruct (e_is_null e); [done|]. by destruct (e_len e <=? 0)%nat.
  - destruct (e_is_null e); [done|]. destruct (e_len e); [done|]. simpl. by destruct (e_datatype e).
Qed.

(** The value of a field. *)
Definition field_value (fd : E) (name : string) : option Value := e_get fd name ≫= fun e => get_value e 0.

(** The elements of each field have one type. *)
Definition typed_by (types : string -> DataType) (fd : E) : Prop :=
  forall name e, e_get fd name = Some e -> e_datatype e = types name.

Lemma read_child_value types (fd : E) name cached :
  typed_by types fd -> cache_fits (types name) cached ->
  exists cached', read_child fd name cached = (field_value fd name, cached') /\ cache_fits (types name) cached'.
Proof.
  intros Ht Hc. unfold read_child, field_value. destruct (e_get fd name) as [e|] eqn:He; [|by exists cached].
  simpl. rewrite <- (Ht name e He) in *. by apply cached_value.
Qed.
End ReadingLaws.

(** ** Wide columns as tables *)

Record WideRow : Type := mkWideRow {
  wr_ticker : string;
  wr_date : option Value;
  wr_values : list (option Value)
}.

(** The values of a field, by its index. *)
Definition values_of (j : nat) (rows : list WideRow) : list (option Value) :=
  (fun r => mjoin (wr_values r !! j)) <$> rows.

(** The type of a field: its hint or that of the first value, once there is one. *)
Definition known_type (hint : option ArrowType) (vs : list (option Value)) : option ArrowType :=
  (fun v => default (arrow_type_from_value v) hint) <$> head (omap present vs).

Lemma known_type_snoc hint vs v :
  known_type hint (vs ++ [v])
  = match known_type hint vs with
    | Some t => Some t
    | None => (fun v => default (arrow_type_from_value v) hint) <$> present v
    end.
Proof.
  unfold known_type. rewrite omap_app. destruct (omap present vs) as [|w l]; simpl; [|done].
  by destruct (present v).
Qed.

Section WideTables.
Context `{ChronoStamp}.
Variables ryu_text other_text : spec_float -> string.
Local Abbreviation cell_of := (cell_of ryu_text other_text).
Local Abbreviation rejects := (rejects ryu_text other_text).
Local Abbreviation append_field_value := (append_field_value ryu_text other_text).

Definition rejected_values (t : ArrowType) (vs : list (option Value)) : Z :=
  Z.of_nat (length (filter (fun v => rejects t v = true) vs)).

(** A column after the values [hist] of earlier chunks and [cur] of this one. *)
Definition field_state (name : string) (hint : option ArrowType) (hist cur : list (option Value))
  : WideFieldColumn :=
  mkWideField name hint ((fun t => mkBuilderT t (cell_of t <$> cur)) <$> known_type hint (hist ++ cur))
    (from_option (fun t => wrap_u 64 (rejected_values t cur)) 0 (known_type hint (hist ++ cur))).

Lemma rejected_values_snoc t vs v :
  wrap_u 64 (rejected_values t (vs ++ [v])) = count_miss (rejects t v) (wrap_u 64 (rejected_values t vs)).
Proof.
  unfold rejected_values, count_miss, u64_wrapping_add, wrap_u.
  rewrite filter_app, length_app, filter_cons, filter_nil. destruct (rejects t v).
  - rewrite decide_True by done. simpl. rewrite Zplus_mod_idemp_l. f_equal. lia.
  - rewrite decide_False by done. simpl. f_equal. lia.
Qed.

(** Values that are absent or null fill a column with nulls of any type. *)
Lemma absent_values hint hist cur t :
  known_type hint (hist ++ cur) = None ->
  cell_of t <$> cur = replicate (length cur) None /\ rejected_values t cur = 0.
Proof.
  unfold known_type. rewrite omap_app. intros Hk.
  assert (omap present cur = []) as Hn by (destruct (omap present hist), (omap present cur); done).
  clear Hk. unfold rejected_values. induction cur as [|v cur IH]; [done|]. simpl in Hn.
  destruct (IH ltac:(destruct v as [[]|]; done)) as [IH1 IH2].
  assert (cell_of t v = None /\ rejects t v = false) as [Hc Hj] by (destruct v as [[]|]; done).
  rewrite fmap_cons, filter_cons, Hc, Hj, IH1. by rewrite decide_False.
Qed.

Lemma append_field_state c i n h hist cur v :
  wc_fields c !! i = Some (field_state n h hist cur) -> wc_row_count c = length cur ->
  exists schema,
    append_field_value c i v = wide_set_field c i (field_state n h hist (cur ++ [v])) schema
    /\ (schema = None
        \/ schema = wc_schema c
           /\ wide_field_type (field_state n h hist (cur ++ [v])) = wide_field_type (field_state n h hist cur)).
Proof.
  intros Hf Hr. unfold Extract.append_field_value. rewrite Hf. unfold field_state at 1.
  cbn [wf_builder wf_name wf_type_hint wf_type_misses].
  destruct (known_type h (hist ++ cur)) as [t|] eqn:Hk; cbn [fmap option_fmap option_map from_option].
  - rewrite append_value_cell. simpl. exists (wc_schema c). unfold field_state, wide_field_type.
    rewrite (assoc_L (++)), known_type_snoc, Hk. simpl. split; [|by right].
    by rewrite rejected_values_snoc, fmap_app.
  - destruct (present v) as [w|] eqn:Hp.
    + assert (v = Some w) as -> by (by destruct v as [[]|]; simplify_eq/=).
      set (t := default (arrow_type_from_value w) h).
      destruct (absent_values h hist cur t Hk) as [Hc Hz].
      rewrite append_value_cell. eexists. split.
      * unfold append_nulls. simpl. unfold field_state.
        rewrite (assoc_L (++)), known_type_snoc, Hk, Hp. simpl. fold t.
        by rewrite rejected_values_snoc, Hz, fmap_app, Hc, Hr.
      * case_bool_decide as Ht; [by left|]. right. split; [done|].
        unfold wide_field_type, field_state. simpl.
        by rewrite (assoc_L (++)), known_type_snoc, Hk, Hp.
    + exists (wc_schema c). split; [|right; split; [done|]].
      * unfold field_state. rewrite (assoc_L (++)), known_type_snoc, Hk, Hp. simpl.
        unfold wide_set_field. rewrite list_insert_id.
        -- by destruct c.
        -- rewrite Hf. unfold field_state. by rewrite Hk.
      * unfold wide_field_type, field_state. simpl. by rewrite (assoc_L (++)), known_type_snoc, Hk, Hp.
Qed.

Section WideRows.
Context {E : Type} `{SdkScalarLaws E}.
Local Abbreviation append_field_at := (append_field_at ryu_text other_text).
Variables (names : list string) (types : gmap string ArrowType) (include_date : bool).
Variable datatypes : string -> DataType.

(** The columns while the values of a row are appended to the first [k] fields. *)
Definition fields_upto (hist cur : list WideRow) (vs : list (option Value)) (k : nat) : list WideFieldColumn :=
  imap (fun j n => field_state n (types !! n) (values_of j hist)
                     (values_of j cur ++ if (j <? k)%nat then [mjoin (vs !! j)] else [])) names.

Definition schema_ok (c : WideColumns) : Prop :=
  wc_schema c = None \/ wc_schema c = Some (wide_schema c include_date).

Definition caches_fit (dts : list (option DataType)) : Prop := Forall2 (fun n => cache_fits (datatypes n)) names dts.

(** Setting a field without changing its name and type keeps the schema. *)
Lemma wide_schema_set c i f f' schema :
  wc_fields c !! i = Some f -> wf_name f' = wf_name f -> schema_ok c ->
  schema = None \/ schema = wc_schema c /\ wide_field_type f' = wide_field_type f ->
  schema_ok (wide_set_field c i f' schema).
Proof.
  intros Hf Hn Hok [->|[-> Ht]]; [by left|]. unfold schema_ok in *. simpl.
  assert (wide_schema (wide_set_field c i f' (wc_schema c)) include_date = wide_schema c include_date) as ->; [|done].
  unfold wide_schema. simpl. do 2 f_equal. rewrite list_fmap_insert. apply list_insert_id.
  rewrite list_lookup_fmap, Hf. simpl. by rewrite Hn, Ht.
Qed.

Lemma fields_upto_lookup hist cur vs k j n :
  names !! j = Some n ->
  fields_upto hist cur vs k !! j
  = Some (field_state n (types !! n) (values_of j hist)
            (values_of j cur ++ if (j <? k)%nat then [mjoin (vs !! j)] else [])).
Proof. intros Hn. unfold fields_upto. by rewrite list_lookup_imap, Hn. Qed.

Lemma fields_upto_step hist cur vs k n :
  names !! k = Some n ->
  <[k := field_state n (types !! n) (values_of k hist) (values_of k cur ++ [mjoin (vs !! k)])]>
    (fields_upto hist cur vs k)
  = fields_upto hist cur vs (S k).
Proof.
  intros Hn. apply list_eq. intros j. destruct (decide (j = k)) as [->|Hj].
  - rewrite list_lookup_insert_eq, (fields_upto_lookup _ _ _ _ _ n Hn).
    + by rewrite (proj2 (Nat.ltb_lt k (S k))) by lia.
    + unfold fields_upto. rewrite length_imap. by eapply lookup_lt_Some.
  - rewrite list_lookup_insert_ne by done. unfold fields_upto. rewrite !list_lookup_imap.
    destruct (names !! j); [|done]. simpl.
    destruct (Nat.ltb_spec j k), (Nat.ltb_spec j (S k)); try done; lia.
Qed.

Lemma append_fields_upto c (fd : E) dts hist cur k :
  typed_by datatypes fd -> caches_fit dts -> (k <= length names)%nat ->
  wc_fields c = fields_upto hist cur (field_value fd <$> names) 0 -> wc_row_count c = length cur ->
  schema_ok c ->
  exists c' dts', fold_left (append_field_at fd names) (seq 0 k) (c, dts) = (c', dts')
    /\ caches_fit dts' /\ schema_ok c'
    /\ wc_fields c' = fields_upto hist cur (field_value fd <$> names) k
    /\ wc_ticker c' = wc_ticker c /\ wc_date c' = wc_date c /\ wc_row_count c' = wc_row_count c.
Proof.
  intros Ht Hd Hk Hf Hr Hs. induction k as [|k IH]; [by exists c, dts|].
  destruct IH as (c1 & dts1 & E1 & Hd1 & Hs1 & Hf1 & Htk & Hdt & Hrc); [lia|].
  rewrite seq_S, fold_left_app, E1. simpl.
  destruct (lookup_lt_is_Some_2 names k) as [n Hn]; [lia|]. rewrite Hn.
  destruct (Forall2_lookup_l _ _ _ _ _ Hd1 Hn) as (dt & Hdk & Hfit). rewrite Hdk.
  destruct (read_child_value datatypes fd n dt Ht Hfit) as (dt' & -> & Hfit').
  assert (wc_fields c1 !! k = Some (field_state n (types !! n) (values_of k hist) (values_of k cur))) as Hk1.
  { rewrite Hf1, (fields_upto_lookup _ _ _ _ _ n Hn), Nat.ltb_irrefl. by rewrite app_nil_r. }
  destruct (append_field_state c1 k n _ _ _ (field_value fd n) Hk1) as (schema & -> & Hsch).
  { unfold values_of. rewrite length_fmap. congruence. }
  eexists _, _. split; [done|]. split_and!; try done.
  - unfold caches_fit. rewrite <- (list_insert_id names k n Hn). by apply Forall2_insert.
  - by eapply wide_schema_set.
  - simpl. rewrite Hf1, <- (fields_upto_step _ _ _ _ n Hn). by rewrite list_lookup_fmap, Hn.
Qed.

(** The set holds the rows [cur], after the chunks [hist]. *)
Record wide_ok (hist cur : list WideRow) (c : WideColumns) : Prop := mkWideOk {
  ok_ticker : wc_ticker c = wr_ticker <$> cur;
  ok_date : wc_date c = if include_date then Some (date32_of ∘ wr_date <$> cur) else None;
  ok_fields : wc_fields c = imap (fun j n => field_state n (types !! n) (values_of j hist) (values_of j cur)) names;
  ok_rows : wc_row_count c = length cur;
  ok_schema : schema_ok c
}.

Lemma wide_new_ok : wide_ok [] [] (wide_new names types include_date).
Proof.
  constructor; [done|done| |done|by left]. simpl. rewrite <- imap_const. by apply imap_ext.
Qed.

Lemma wide_append_row_ok hist cur c ticker date (fd : E) dts :
  wide_ok hist cur c -> typed_by datatypes fd -> caches_fit dts ->
  exists c' dts', wide_append_row ryu_text other_text c ticker date fd names dts = (c', dts')
    /\ caches_fit dts'
    /\ wide_ok hist (cur ++ [mkWideRow ticker date (field_value fd <$> names)]) c'.
Proof.
  intros [Ktk Kdt Kfs Krc Ksc] Ht Hd. unfold wide_append_row, append_field_values. simpl.
  set (c0 := mkWide _ _ (wc_fields c) _ _).
  destruct (append_fields_upto c0 fd dts hist cur (length names) Ht Hd)
    as (c' & dts' & E1 & Hd' & Hs' & Hf' & Hk' & Hdt' & Hr'); [done| |done|done|].
  { simpl. rewrite Kfs. unfold fields_upto. apply imap_ext. intros j n _. by rewrite app_nil_r. }
  assert (length (wc_fields c) = length names) as -> by (rewrite Kfs; apply length_imap).
  rewrite E1. eexists _, _. split; [done|]. split; [done|]. constructor; simpl.
  - by rewrite Hk', fmap_app, <- Ktk.
  - rewrite Hdt'. simpl. rewrite Kdt. destruct include_date; [|done]. simpl. by rewrite fmap_app.
  - rewrite Hf'. unfold fields_upto. apply imap_ext. intros j n Hj%lookup_lt_Some.
    rewrite (proj2 (Nat.ltb_lt _ _)) by done. unfold values_of at 4. by rewrite fmap_app.
  - rewrite Hr', length_app. simpl. lia.
  - destruct Hs' as [?|?]; [by left|by right].
Qed.
End WideRows.
End WideTables.

(** ** Finished batches *)

Section Finished.
Context {Col : Type} `{AL : ArrowLaws Col} `{AB : ArrowBuild Col} `{!ArrowBuildLaws Col}.
Context `{LE : JsonLaws (gmap string (list Z))} `{LS : JsonLaws (gmap string SecurityErrorMeta)}.
Context `{LD : JsonLaws (gmap string DelayedMeta)} `{LM : JsonLaws (gmap string Z)}.
Context `{LX : ExceptionsJsonLaws}.
Variable ids_to_json : list string -> string.
Variable ids_from_json : string -> option (list string).
Hypothesis ids_json : forall l, ids_from_json (ids_to_json l) = Some l.
Local Abbreviation reading := (reading ids_from_json).

Lemma nullable_fits name t l n : length l = n -> column_fits n (nullable_field name t) (array_of (Col := Col) t l).
Proof.
  intros <-. destruct (array_of_ok (Col := Col) t l) as [Ht Hl]. unfold column_fits. simpl. by rewrite Ht, Hl.
Qed.

Lemma try_build_ok what m fs (arrays : list Col) n :
  arrays <> [] -> Forall2 (column_fits n) fs arrays -> metadata_ok m ->
  exists b, try_build ids_to_json what m fs arrays = Some (Ok b)
    /\ fields (b_schema b) = fs /\ b_columns b = arrays /\ b_rows b = n /\ reading b = meaning m.
Proof.
  intros Hne Hf Hm. unfold try_build. rewrite (try_new_ok (mkSchema fs ∅) arrays n Hne Hf).
  destruct (attach_fresh ids_to_json ids_from_json ids_json m fs arrays n Hm) as (b & -> & Hb). by exists b.
Qed.

Lemma misses_other l n : forall m : gmap string Z, n ∉ wf_name <$> l ->
  fold_left (fun m f => if 0 <? wf_type_misses f then <[wf_name f := wf_type_misses f]> m else m) l m !! n
  = m !! n.
Proof.
  induction l as [|f l IH]; intros m Hn; [done|]. simpl. rewrite fmap_cons, not_elem_of_cons in Hn.
  rewrite IH by naive_solver. destruct (0 <? wf_type_misses f); [|done]. by rewrite lookup_insert_ne by naive_solver.
Qed.

Lemma wide_misses_lookup l j f :
  NoDup (wf_name <$> l) -> l !! j = Some f ->
  wide_misses l !! wf_name f = if 0 <? wf_type_misses f then Some (wf_type_misses f) else None.
Proof.
  unfold wide_misses. assert ((∅ : gmap string Z) !! wf_name f = None) as H0' by done. revert H0'.
  generalize (∅ : gmap string Z). revert j.
  induction l as [|g l IH]; intros j m Hm Hnd Hj; [done|]. rewrite fmap_cons, NoDup_cons in Hnd.
  destruct Hnd as [Hg Hnd]. destruct j as [|j]; simpl in *.
  - injection Hj as ->. rewrite misses_other by done. destruct (0 <? wf_type_misses f); [|done].
    by rewrite lookup_insert_eq.
  - apply (IH j); [|done|done]. destruct (0 <? wf_type_misses g); [|done].
    rewrite lookup_insert_ne; [done|]. intros Heq. apply Hg. rewrite Heq.
    apply list_elem_of_fmap_2. by eapply list_elem_of_lookup_2.
Qed.

(** *** One chunk of wide rows *)

Section WideFinished.
Context `{ChronoStamp}.
Variables ryu_text other_text : spec_float -> string.
Local Abbreviation cell_of := (cell_of ryu_text other_text).
Variables (names : list string) (types : gmap string ArrowType) (include_date : bool).
Local Abbreviation wide_ok := (wide_ok ryu_text other_text names types include_date).

(** The type of a field in a chunk. *)
Definition chunk_type (rows : list WideRow) (j : nat) (n : string) : ArrowType :=
  default (default ATString (types !! n)) (known_type (types !! n) (values_of j rows)).

(** The batch of a chunk of rows [cur] that follows the rows [hist]. *)
Definition chunk_fields (hist cur : list WideRow) : list Field :=
  [nullable_field "ticker" ATString] ++ (if include_date then [nullable_field "date" ATDate32] else [])
  ++ imap (fun j n => nullable_field n (chunk_type (hist ++ cur) j n)) names.

Definition chunk_columns (hist cur : list WideRow) : list Col :=
  [str_array (wr_ticker <$> cur)]
  ++ (if include_date then [date_array (date32_of ∘ wr_date <$> cur)] else [])
  ++ imap (fun j n => let t := chunk_type (hist ++ cur) j n in
                      array_of t (cell_of t <$> values_of j cur)) names.

Definition chunk_misses (hist cur : list WideRow) (j : nat) (n : string) : Z :=
  wrap_u 64 (rejected_values ryu_text other_text (chunk_type (hist ++ cur) j n) (values_of j cur)).

Lemma values_of_app j r1 r2 : values_of j (r1 ++ r2) = values_of j r1 ++ values_of j r2.
Proof. apply fmap_app. Qed.

Lemma field_state_type hist cur j n :
  wide_field_type (field_state ryu_text other_text n (types !! n) (values_of j hist) (values_of j cur))
  = chunk_type (hist ++ cur) j n.
Proof.
  unfold wide_field_type, chunk_type, field_state. simpl. rewrite values_of_app.
  by destruct (known_type _ _).
Qed.

Lemma field_state_finish hist cur j n :
  wide_field_finish (Col := Col) (length cur)
    (field_state ryu_text other_text n (types !! n) (values_of j hist) (values_of j cur))
  = (let t := chunk_type (hist ++ cur) j n in array_of t (cell_of t <$> values_of j cur),
     field_state ryu_text other_text n (types !! n) (values_of j (hist ++ cur)) (values_of j [])).
Proof.
  unfold wide_field_finish, chunk_type, field_state. simpl. rewrite app_nil_r, values_of_app.
  destruct (known_type _ _) as [t|] eqn:Hk; simpl; [done|].
  destruct (absent_values ryu_text other_text _ _ _ (default ATString (types !! n)) Hk) as [Hc _].
  rewrite Hc. unfold values_of. by rewrite length_fmap.
Qed.

Lemma field_state_misses hist cur j n :
  wf_type_misses (field_state ryu_text other_text n (types !! n) (values_of j hist) (values_of j cur))
  = chunk_misses hist cur j n.
Proof.
  unfold field_state, chunk_misses, chunk_type. simpl. rewrite values_of_app.
  destruct (known_type _ _) as [t|] eqn:Hk; simpl; [done|].
  destruct (absent_values ryu_text other_text _ _ _ (default ATString (types !! n)) Hk) as [_ Hz].
  by rewrite Hz.
Qed.

Lemma chunk_fits hist cur : Forall2 (column_fits (length cur)) (chunk_fields hist cur) (chunk_columns hist cur).
Proof.
  unfold chunk_fields, chunk_columns. constructor; [apply nullable_fits; by rewrite !length_fmap|]. apply Forall2_app.
  - destruct include_date; constructor; [|done]. apply nullable_fits. unfold cells. by rewrite !length_fmap.
  - apply Forall2_same_length_lookup_2; [by rewrite !length_imap|]. intros j f col.
    rewrite !list_lookup_imap. destruct (names !! j) as [n|]; [|done]. intros [= <-] [= <-].
    apply nullable_fits. unfold values_of. by rewrite !length_fmap.
Qed.

Lemma wide_schema_chunk hist cur c : wide_ok hist cur c -> wide_schema c include_date = chunk_fields hist cur.
Proof.
  intros Hok. unfold wide_schema, chunk_fields. rewrite (ok_fields _ _ _ _ _ _ _ _ Hok), fmap_imap.
  do 2 f_equal. apply imap_ext. intros j n _. simpl. by rewrite field_state_type.
Qed.

Lemma wide_finish_ok hist cur c :
  wide_ok hist cur c -> NoDup names ->
  exists c' b, wide_finish ids_to_json c include_date = (c', Some (Ok b))
    /\ wide_ok (hist ++ cur) [] c'
    /\ fields (b_schema b) = chunk_fields hist cur
    /\ b_columns b = chunk_columns hist cur
    /\ b_rows b = length cur
    /\ (exists misses, reading b = mkReading ∅ ∅ ∅ ∅ misses []
         /\ forall j n, names !! j = Some n ->
              misses !! n = if 0 <? chunk_misses hist cur j n then Some (chunk_misses hist cur j n) else None).
Proof.
  intros Hok Hnd. pose proof Hok as [Kt Kd Kf Kr Ks].
  assert (default (wide_schema c include_date) (wc_schema c) = chunk_fields hist cur) as Esch.
  { destruct Ks as [->| ->]; simpl; by apply wide_schema_chunk. }
  assert (wide_field_finish (Col := Col) (wc_row_count c) <$> wc_fields c
          = imap (fun j n => (let t := chunk_type (hist ++ cur) j n in array_of t (cell_of t <$> values_of j cur),
              field_state ryu_text other_text n (types !! n) (values_of j (hist ++ cur)) (values_of j []))) names) as Ecol.
  { rewrite Kf, Kr, fmap_imap. apply imap_ext. intros j n _. simpl. apply field_state_finish. }
  unfold wide_finish. rewrite Esch, Ecol, !fmap_imap.
  replace (include_date && negb (bool_decide (is_Some (wc_date c)))) with false
    by (rewrite Kd; by destruct include_date).
  destruct (try_build_ok "build wide RecordBatch" (mkMetadata ∅ ∅ exceptions_default ∅ (wide_misses (wc_fields c)) [] false [])
              (chunk_fields hist cur) (chunk_columns hist cur) (length cur)) as (b & Hb & Hf & Hc & Hr & Hm);
    [done|apply chunk_fits|split; [split; [constructor|apply map_Forall_empty]|constructor]|].
  eexists _, b. split.
  { f_equal. etrans; [|exact Hb]. unfold chunk_columns. rewrite Kt, Kd. by destruct include_date. }
  split_and!; try done.
  - constructor; simpl; try done.
    + rewrite Kd. by destruct include_date.
    + right. simpl. f_equal. symmetry. unfold wide_schema. simpl. unfold chunk_fields. do 2 f_equal.
      rewrite fmap_imap. apply imap_ext. intros j n _.
      pose proof (field_state_type (hist ++ cur) [] j n) as Et. rewrite app_nil_r in Et.
      unfold compose. by rewrite <- Et.
  - exists (wide_misses (wc_fields c)). split; [rewrite Hm; reflexivity|]. intros j n Hn.
    pose proof (wide_misses_lookup (wc_fields c) j
      (field_state ryu_text other_text n (types !! n) (values_of j hist) (values_of j cur))) as Hl.
    rewrite field_state_misses in Hl. apply Hl; rewrite Kf.
    + rewrite fmap_imap.
      assert (imap (fun j n => wf_name (field_state ryu_text other_text n (types !! n) (values_of j hist)
                                 (values_of j cur))) names = names) as Hid; [|exact (eq_ind_r NoDup Hnd Hid)].
      etrans; [apply (imap_const id)|apply list_fmap_id].
    + by rewrite list_lookup_imap, Hn.
Qed.
End WideFinished.
End Finished.
