(* ===== verification/Extractors.v ===== *)
(** * Reference and historical extractors

    [RefDataState] of [engine/state/refdata.rs], [HistDataResponse] and [HistDataState] of
    [engine/state/histdata.rs], and the streaming [ResponseStream] and
    [HistDataStreamState] of [engine/state/histdata_stream.rs]: the messages of a response
    are read into rows, failed securities become diagnostics, and the answer is one batch
    or a stream of chunks.

    The builders both extractors keep side by side are the record [Sinks].  A reply
    channel is the value sent on it; the bounded channel of a stream is a queue. *)

From Stdlib Require Import Ascii String ZArith Lia SpecFloat.
From stdpp Require Import pretty.
From S2P Require Import Prelude Errors Update Decoder Plan Schema Diagnostics Pool Metadata.
From S2P Require Import ShardMerge Calendar Columns Extract.
Local Open Scope Z_scope.

(** ** Builders *)

Record Sinks : Type := mkSinks {
  sk_columns : ColumnSet;
  sk_long_rows : option LongRowWriter;
  sk_long : option LongStringColumns;
  sk_typed : option TypedLongColumns;
  sk_wide : option WideColumns
}.

(** The builders [with_format] and [HistDataResponse::new] create. *)
Definition sinks_new (names : list string) (types : gmap string ArrowType) (format : OutputFormat)
  (mode : LongMode) (include_date : bool) : Sinks :=
  let long_value_type :=
    match format, mode with OfLong, LmString => Some (common_value_type names types) | _, _ => None end in
  let wide := match format with OfWide => Some (wide_new names types include_date) | OfLong => None end in
  let columns :=
    match long_value_type, wide, mode with
    | None, None, LmString | None, None, LmWithMetadata =>
        map_fold (fun n t cs => set_type_hint cs n t) column_set_new types
    | _, _, _ => column_set_new
    end in
  mkSinks columns None ((fun t => long_new t include_date) <$> long_value_type)
    (match format, mode with OfLong, LmTyped => Some (typed_new include_date) | _, _ => None end)
    wide.

Definition sinks_row_count (s : Sinks) (format : OutputFormat) : nat :=
  match format with
  | OfLong =>
      match sk_long s with
      | Some c => ls_row_count c
      | None => match sk_typed s with Some c => tl_row_count c | None => cs_row_count (sk_columns s) end
      end
  | OfWide => match sk_wide s with Some c => wc_row_count c | None => cs_row_count (sk_columns s) end
  end.

Definition with_columns (s : Sinks) (cs : ColumnSet) (w : option LongRowWriter) : Sinks :=
  mkSinks cs w (sk_long s) (sk_typed s) (sk_wide s).
Definition with_long (s : Sinks) (c : LongStringColumns) : Sinks :=
  mkSinks (sk_columns s) (sk_long_rows s) (Some c) (sk_typed s) (sk_wide s).
Definition with_typed (s : Sinks) (c : TypedLongColumns) : Sinks :=
  mkSinks (sk_columns s) (sk_long_rows s) (sk_long s) (Some c) (sk_wide s).
Definition with_wide (s : Sinks) (c : WideColumns) : Sinks :=
  mkSinks (sk_columns s) (sk_long_rows s) (sk_long s) (sk_typed s) (Some c).

(** The writer, resolved on first use. *)
Definition long_row_writer (s : Sinks) (mode : LongMode) (include_date : bool) : Sinks * LongRowWriter :=
  match sk_long_rows s with
  | Some w => (s, w)
  | None =>
      let '(cs, w) := writer_new (sk_columns s) mode include_date in (with_columns s cs (Some w), w)
  end.

(** [reserve_if_empty], called in the typed long mode only. *)
Definition reserve (s : Sinks) (format : OutputFormat) (mode : LongMode) : Sinks :=
  match format, mode, sk_typed s with
  | OfLong, LmTyped, Some c => with_typed s (reserve_if_empty c)
  | _, _, _ => s
  end.

Section Rows.
Context {E : Type} `{Sdk E} `{SdkScalars E} `{ChronoStamp}.
Variables ryu_text other_text : spec_float -> string.

(** The loops over the requested fields, their cached types and their dtype hints. *)
Fixpoint for_fields {S : Type} (f : S -> string -> option string -> option Value -> option S) (fd : E)
  (names : list string) (dts : list (option DataType)) (hints : list (option string)) (s : S)
  : option (S * list (option DataType)) :=
  match names, dts, hints with
  | name :: names, dt :: dts, hint :: hints =>
      let '(v, dt) := read_child fd name dt in
      s ← f s name hint v;
      '(s, dts) ← for_fields f fd names dts hints s;
      Some (s, dt :: dts)
  | _, _, _ => Some (s, dts)
  end.

(** One row of any long layout; [None] is a panic. *)
Definition append_long_row (s : Sinks) (mode : LongMode) (include_date : bool) (ticker : string)
  (date : option Value) (field : string) (hint : option string) (v : option Value) : option Sinks :=
  match sk_long s with
  | Some c => Some (with_long s (long_append_row ryu_text other_text c ticker date field v))
  | None =>
      match sk_typed s with
      | Some c => Some (with_typed s (typed_append_row c ticker date field v))
      | None =>
          let '(s, w) := long_row_writer s mode include_date in
          cs ← writer_append_row ryu_text other_text w (sk_columns s) ticker date field v hint;
          Some (with_columns s cs (sk_long_rows s))
      end
  end.

(** [process_long_format] *)
Definition process_long_format (s : Sinks) (mode : LongMode) (include_date : bool) (names : list string)
  (dts : list (option DataType)) (hints : list (option string)) (ticker : string) (date : option Value) (fd : E)
  : option (Sinks * list (option DataType)) :=
  let s := match sk_long s, sk_typed s with
           | None, None => (long_row_writer s mode include_date).1
           | _, _ => s
           end in
  for_fields (fun s name hint v => append_long_row s mode include_date ticker date name hint v)
    fd names dts hints s.

(** [process_wide_format] *)
Definition process_wide_format (s : Sinks) (names : list string) (dts : list (option DataType))
  (ticker : string) (date : option Value) (fd : E) : Sinks * list (option DataType) :=
  match sk_wide s with
  | Some c =>
      let '(c, dts) := wide_append_row ryu_text other_text c ticker date fd names dts in
      (with_wide s c, dts)
  | None => (s, dts)
  end.

Definition process_format (s : Sinks) (format : OutputFormat) (mode : LongMode) (include_date : bool)
  (names : list string) (dts : list (option DataType)) (hints : list (option string))
  (ticker : string) (date : option Value) (fd : E) : option (Sinks * list (option DataType)) :=
  match format with
  | OfLong => process_long_format s mode include_date names dts hints ticker date fd
  | OfWide => Some (process_wide_format s names dts ticker date fd)
  end.

(** ** Reference data *)

Record RefDataState : Type := mkRefData {
  rd_field_names : list string;
  rd_datatypes : list (option DataType);
  rd_dtype_hints : list (option string);
  rd_format : OutputFormat;
  rd_long_mode : LongMode;
  rd_include_security_errors : bool;
  rd_failed_securities : list string;
  rd_field_exception_securities : gset string;
  rd_field_exception_count : nat;
  rd_sinks : Sinks;
  rd_meta : ResponseMetadata
}.

(** [with_format], then [capture_delayed] when there is something to capture. *)
Definition refdata_with_format (names : list string) (format : OutputFormat) (mode : LongMode)
  (types : option (gmap string ArrowType)) (include_security_errors : bool) : RefDataState :=
  let types := default ∅ types in
  mkRefData names (replicate (length names) None) (field_dtype_hints names types) format mode
    include_security_errors [] ∅ 0 (sinks_new names types format mode false) metadata_default.

Definition refdata_capture_delayed (st : RefDataState) (hidden : list string) : RefDataState :=
  mkRefData (rd_field_names st) (rd_datatypes st) (rd_dtype_hints st) (rd_format st) (rd_long_mode st)
    (rd_include_security_errors st) (rd_failed_securities st) (rd_field_exception_securities st)
    (rd_field_exception_count st) (rd_sinks st) (capture_delayed (rd_meta st) hidden).

Definition refdata_set (st : RefDataState) (dts : list (option DataType)) (failed : list string)
  (exceptions : gset string) (count : nat) (s : Sinks) (m : ResponseMetadata) : RefDataState :=
  mkRefData (rd_field_names st) dts (rd_dtype_hints st) (rd_format st) (rd_long_mode st)
    (rd_include_security_errors st) failed exceptions count s m.

Definition security_error_detail (e : SecurityErrorDetails) : string :=
  ("code=" +:+ pretty (sd_code e) +:+ " category=" +:+ sd_category e +:+ " subcategory=" +:+ sd_subcategory e
   +:+ " message=" +:+ sd_message e)%string.

Definition append_security_error_row (s : Sinks) (mode : LongMode) (ticker : string) (e : SecurityErrorDetails)
  : option Sinks :=
  append_long_row s mode false ticker None "__SECURITY_ERROR__" (Some "string"%string)
    (Some (BString (security_error_detail e))).

(** One security of the loop of [process_message]. *)
Definition refdata_security (st : RefDataState) (entry : E) : option RefDataState :=
  let security := scan entry in
  let t := ticker security in
  let '(m, diagnostics) := record_security (rd_meta st) t security in
  match diag_security_error diagnostics with
  | Some error =>
      s ← (if rd_include_security_errors st
           then append_security_error_row (rd_sinks st) (rd_long_mode st) t error
           else Some (rd_sinks st));
      Some (refdata_set st (rd_datatypes st) (rd_failed_securities st ++ [t])
              (rd_field_exception_securities st) (rd_field_exception_count st) s m)
  | None =>
      let n := field_exception_count diagnostics in
      let '(exceptions, count) :=
        if (0 <? n)%nat then ({[t]} ∪ rd_field_exception_securities st, (rd_field_exception_count st + n)%nat)
        else (rd_field_exception_securities st, rd_field_exception_count st) in
      match sec_field_data security with
      | None =>
          Some (refdata_set st (rd_datatypes st) (rd_failed_securities st) exceptions count (rd_sinks st) m)
      | Some fd =>
          '(s, dts) ← process_format (rd_sinks st) (rd_format st) (rd_long_mode st) false
                        (rd_field_names st) (rd_datatypes st) (rd_dtype_hints st) t None fd;
          Some (refdata_set st dts (rd_failed_securities st) exceptions count s m)
      end
  end.

Fixpoint refdata_securities (st : RefDataState) (l : list E) : option RefDataState :=
  match l with [] => Some st | e :: l => st ← refdata_security st e; refdata_securities st l end.

Definition refdata_process_message (st : RefDataState) (root : E) : option RefDataState :=
  match e_get root "securityData" with
  | None => Some st
  | Some security_data =>
      refdata_securities
        (refdata_set st (rd_datatypes st) (rd_failed_securities st) (rd_field_exception_securities st)
           (rd_field_exception_count st) (reserve (rd_sinks st) (rd_format st) (rd_long_mode st)) (rd_meta st))
        (e_values security_data)
  end.

(** ** Historical data *)

Record HistDataResponse : Type := mkHistData {
  hd_field_names : list string;
  hd_datatypes : list (option DataType);
  hd_date_datatype : option DataType;
  hd_dtype_hints : list (option string);
  hd_format : OutputFormat;
  hd_long_mode : LongMode;
  hd_sinks : Sinks;
  hd_meta : ResponseMetadata
}.

Definition histdata_new (names : list string) (format : OutputFormat) (mode : LongMode)
  (types : option (gmap string ArrowType)) : HistDataResponse :=
  let types := default ∅ types in
  mkHistData names (replicate (length names) None) None (field_dtype_hints names types) format mode
    (sinks_new names types format mode true) metadata_default.

Definition histdata_set (st : HistDataResponse) (dts : list (option DataType)) (date : option DataType)
  (s : Sinks) (m : ResponseMetadata) : HistDataResponse :=
  mkHistData (hd_field_names st) dts date (hd_dtype_hints st) (hd_format st) (hd_long_mode st) s m.

(** One row of the loop over [fieldData]. *)
Definition histdata_row (st : HistDataResponse) (t : string) (row : E) : option HistDataResponse :=
  let '(date, date_datatype) := read_child row "date" (hd_date_datatype st) in
  '(s, dts) ← process_format (hd_sinks st) (hd_format st) (hd_long_mode st) true
                (hd_field_names st) (hd_datatypes st) (hd_dtype_hints st) t date row;
  Some (histdata_set st dts date_datatype s (hd_meta st)).

Fixpoint histdata_rows (st : HistDataResponse) (t : string) (l : list E) : option HistDataResponse :=
  match l with [] => Some st | row :: l => st ← histdata_row st t row; histdata_rows st t l end.

(** The state and the security that failed. *)
Definition histdata_process_message (st : HistDataResponse) (root : E)
  : option (HistDataResponse * option string) :=
  match e_get root "securityData" with
  | None => Some (st, None)
  | Some security_data =>
      if e_is_null security_data then Some (st, None)
      else
        let security := scan security_data in
        let t := ticker security in
        let '(m, diagnostics) := record_security (hd_meta st) t security in
        let st := histdata_set st (hd_datatypes st) (hd_date_datatype st) (hd_sinks st) m in
        match diag_security_error diagnostics with
        | Some _ => Some (st, Some t)
        | None =>
            match sec_field_data security with
            | None => Some (st, None)
            | Some field_data =>
                let st := histdata_set st (hd_datatypes st) (hd_date_datatype st)
                            (reserve (hd_sinks st) (hd_format st) (hd_long_mode st)) m in
                st ← histdata_rows st t (e_values field_data);
                Some (st, None)
            end
        end
  end.
End Rows.

(** ** Answers *)

Section Answers.
Context {Col : Type} `{ArrowOps Col} `{ArrowBuild Col}.
Context `{JE : Json (gmap string (list Z))} `{JS : Json (gmap string SecurityErrorMeta)}.
Context `{JD : Json (gmap string DelayedMeta)} `{JM : Json (gmap string Z)}.
Context `{EX : ExceptionsJson}.
Variable ids_to_json : list string -> string.
Context {E : Type} `{Sdk E} `{SdkScalars E} `{ChronoStamp}.
Variables ryu_text other_text : spec_float -> string.

Abbreviation Answer := (result (ArrowBatch Col) BlpError).

(** [result.map(|batch| response_meta.attach(batch))]; [None] is a panic. *)
Definition map_attach (m : ResponseMetadata) (r : option Answer) : option Answer :=
  r ← r;
  match r with
  | Ok b => Ok <$> attach ids_to_json m b
  | Err e => Some (Err e)
  end.

Definition all_failed (operation : string) (failed : list string) : BlpError :=
  RequestFailure "//blp/refdata" (Some operation) None
    (Some ("All securities failed: " +:+ String.concat ", " failed)%string) None [] None.

(** The batch of [RefDataState::finish], before its diagnostics. *)
Definition refdata_batch (st : RefDataState) : option Answer :=
  let s := rd_sinks st in
  match rd_format st with
  | OfLong =>
      match rd_long_mode st with
      | LmString =>
          match sk_long s with
          | Some c => long_finish_refdata ids_to_json c
          | None => finish_with_order ids_to_json (sk_columns s) ["ticker"; "field"; "value"]%string
          end
      | LmWithMetadata =>
          finish_with_order ids_to_json (sk_columns s) ["ticker"; "field"; "value"; "dtype"]%string
      | LmTyped => Some (typed_finish (default (typed_new false) (sk_typed s)))
      end
  | OfWide =>
      match sk_wide s with
      | Some c => (wide_finish ids_to_json c false).2
      | None => finish_with_order ids_to_json (sk_columns s) ("ticker"%string :: rd_field_names st)
      end
  end.

(** [RefDataState::finish]: the reply; [None] is a panic. *)
Definition refdata_finish (st : RefDataState) (root : E) : option Answer :=
  match top_level_response_error root "//blp/refdata" "ReferenceDataRequest" with
  | Some error => Some (Err error)
  | None =>
      st ← refdata_process_message ryu_text other_text st root;
      if (sinks_row_count (rd_sinks st) (rd_format st) =? 0)%nat
         && negb (bool_decide (rd_failed_securities st = []))
      then Some (Err (all_failed "ReferenceDataRequest" (rd_failed_securities st)))
      else map_attach (rd_meta st) (refdata_batch st)
  end.

(** A response: partial messages, then the final one. *)
Fixpoint refdata_run (st : RefDataState) (partials : list E) (final : E) : option Answer :=
  match partials with
  | [] => refdata_finish st final
  | root :: partials => st ← refdata_process_message ryu_text other_text st root; refdata_run st partials final
  end.

(** [HistDataResponse::finish_batch]; the builders of a long layout are taken. *)
Definition finish_batch (st : HistDataResponse) : HistDataResponse * option Answer :=
  let s := hd_sinks st in
  let done s r := (histdata_set st (hd_datatypes st) (hd_date_datatype st) s metadata_default,
                   map_attach (hd_meta st) r) in
  let taken := with_columns s column_set_new None in
  match hd_format st with
  | OfLong =>
      match hd_long_mode st with
      | LmString =>
          match sk_long s with
          | Some c => done (mkSinks (sk_columns s) (sk_long_rows s) None (sk_typed s) (sk_wide s))
                        (long_finish_histdata ids_to_json c)
          | None => done taken
                      (finish_with_order ids_to_json (sk_columns s) ["ticker"; "date"; "field"; "value"]%string)
          end
      | LmWithMetadata =>
          done taken
            (finish_with_order ids_to_json (sk_columns s) ["ticker"; "date"; "field"; "value"; "dtype"]%string)
      | LmTyped => done (mkSinks (sk_columns s) (sk_long_rows s) (sk_long s) None (sk_wide s))
                     (Some (typed_finish (default (typed_new true) (sk_typed s))))
      end
  | OfWide =>
      match sk_wide s with
      | Some c => let '(c, r) := wide_finish ids_to_json c true in done (with_wide s c) r
      | None => (st, None)
      end
  end.

Definition histdata_row_count (st : HistDataResponse) : nat := sinks_row_count (hd_sinks st) (hd_format st).

Definition histdata_is_empty (st : HistDataResponse) : bool :=
  (histdata_row_count st =? 0)%nat && metadata_is_empty (hd_meta st).

(** *** One answer *)

Record HistDataState : Type := mkHistState { hs_response : HistDataResponse; hs_failed : list string }.

Definition histdata_on_partial (st : HistDataState) (root : E) : option HistDataState :=
  '(r, failed) ← histdata_process_message ryu_text other_text (hs_response st) root;
  Some (mkHistState r (match failed with Some t => hs_failed st ++ [t] | None => hs_failed st end)).

Definition histdata_finish (st : HistDataState) (root : E) : option Answer :=
  match top_level_response_error root "//blp/refdata" "HistoricalDataRequest" with
  | Some error => Some (Err error)
  | None =>
      st ← histdata_on_partial st root;
      if (histdata_row_count (hs_response st) =? 0)%nat && negb (bool_decide (hs_failed st = []))
      then Some (Err (all_failed "HistoricalDataRequest" (hs_failed st)))
      else (finish_batch (hs_response st)).2
  end.

Fixpoint histdata_run (st : HistDataState) (partials : list E) (final : E) : option Answer :=
  match partials with
  | [] => histdata_finish st final
  | root :: partials => st ← histdata_on_partial st root; histdata_run st partials final
  end.
End Answers.

(** ** Streams

    [ResponseStream] and its bounded channel.  [st_sender] is the sender the SDK callback
    holds, [st_task] what the task spawned on overflow waits to send with its own. *)

Section Streams.
Context {B : Type}.
Abbreviation Item := (result B BlpError).

Record Stream : Type := mkStream {
  st_operation : string;
  st_capacity : nat;
  st_sender : bool;
  st_task : option BlpError;
  st_queue : list Item;
  st_receiver : bool
}.

Definition stream_new (operation : string) (capacity : nat) : Stream :=
  mkStream operation capacity true None [] true.

(** [is_closed]: the sender is gone or the receiver was dropped. *)
Definition stream_is_closed (s : Stream) : bool := negb (st_sender s) || negb (st_receiver s).

Definition overflow_error (operation : string) : BlpError :=
  Internal (operation +:+ " stream channel is full; response terminated to avoid silent data loss")%string.

Definition stream_send (s : Stream) (item : Item) : Stream :=
  if st_sender s then
    if st_receiver s then
      if (length (st_queue s) <? st_capacity s)%nat then
        mkStream (st_operation s) (st_capacity s) (match item with Ok _ => true | Err _ => false end)
          (st_task s) (st_queue s ++ [item]) true
      else
        mkStream (st_operation s) (st_capacity s) false
          (Some (match item with Err e => e | Ok _ => overflow_error (st_operation s) end))
          (st_queue s) true
    else mkStream (st_operation s) (st_capacity s) false (st_task s) (st_queue s) false
  else s.

(** The task sends when there is room, or gives up on a dropped receiver. *)
Definition task_step (s : Stream) : option Stream :=
  e ← st_task s;
  if st_receiver s then
    if (length (st_queue s) <? st_capacity s)%nat then
      Some (mkStream (st_operation s) (st_capacity s) (st_sender s) None (st_queue s ++ [Err e]) true)
    else None
  else Some (mkStream (st_operation s) (st_capacity s) (st_sender s) None (st_queue s) false).

Definition stream_recv (s : Stream) : option (Item * Stream) :=
  if st_receiver s then
    match st_queue s with
    | [] => None
    | item :: q => Some (item, mkStream (st_operation s) (st_capacity s) (st_sender s) (st_task s) q true)
    end
  else None.

Definition stream_drop (s : Stream) : Stream :=
  mkStream (st_operation s) (st_capacity s) (st_sender s) (st_task s) [] false.
End Streams.
Arguments Stream : clear implicits.

(** *** Streamed historical data *)

Section HistStream.
Context {Col : Type} `{ArrowOps Col} `{ArrowBuild Col}.
Context `{JE : Json (gmap string (list Z))} `{JS : Json (gmap string SecurityErrorMeta)}.
Context `{JD : Json (gmap string DelayedMeta)} `{JM : Json (gmap string Z)}.
Context `{EX : ExceptionsJson}.
Variable ids_to_json : list string -> string.
Context {E : Type} `{Sdk E} `{SdkScalars E} `{ChronoStamp}.
Variables ryu_text other_text : spec_float -> string.

Record HistDataStreamState : Type := mkHistStream {
  hst_response : HistDataResponse;
  hst_stream : Stream (ArrowBatch Col);
  hst_type_misses : ResponseMetadata
}.

Definition histstream_with_types (names : list string) (types : option (gmap string ArrowType)) (capacity : nat)
  : HistDataStreamState :=
  mkHistStream (histdata_new names OfWide LmString types)
    (stream_new "HistoricalDataRequest" capacity) metadata_default.

(** [on_partial], which [finish] is too; [None] is a panic. *)
Definition histstream_on_partial (st : HistDataStreamState) (root : E) : option HistDataStreamState :=
  if stream_is_closed (hst_stream st) then Some st
  else
    match top_level_response_error root "//blp/refdata" "HistoricalDataRequest" with
    | Some error => Some (mkHistStream (hst_response st) (stream_send (hst_stream st) (Err error)) (hst_type_misses st))
    | None =>
        '(r, _) ← histdata_process_message ryu_text other_text (hst_response st) root;
        if histdata_is_empty r then Some (mkHistStream r (hst_stream st) (hst_type_misses st))
        else
          let '(r, batch) := finish_batch ids_to_json r in
          batch ← batch;
          Some (mkHistStream r (stream_send (hst_stream st) batch)
                  (match batch with Ok b => collect_type_misses (hst_type_misses st) b | Err _ => hst_type_misses st end))
    end.

Definition histstream_fail (st : HistDataStreamState) (error : BlpError) : HistDataStreamState :=
  mkHistStream (hst_response st) (stream_send (hst_stream st) (Err error)) (hst_type_misses st).
End HistStream.

(** ** Streams end once *)

Section StreamLaws.
Context {B : Type}.
Abbreviation Item := (result B BlpError).

(** What the receiver and the task do between sends. *)
Inductive StreamOp : Type := SSend (item : Item) | STask | SRecv.

(** The stream and what was received; a step that cannot be taken changes nothing. *)
Definition stream_step (st : Stream B * list Item) (o : StreamOp) : Stream B * list Item :=
  let '(s, got) := st in
  match o with
  | SSend item => (stream_send s item, got)
  | STask => (default s (task_step s), got)
  | SRecv => match stream_recv s with Some (item, s) => (s, got ++ [item]) | None => (s, got) end
  end.

Definition stream_run (ops : list StreamOp) (st : Stream B * list Item) : Stream B * list Item :=
  fold_left stream_step ops st.

Definition sends (ops : list StreamOp) : list Item :=
  omap (fun o => match o with SSend item => Some item | _ => None end) ops.

Definition pending (s : Stream B) : list Item := option_list (Err <$> st_task s).

(** Everything the receiver got or will get. *)
Definition visible (st : Stream B * list Item) : list Item := st.2 ++ st_queue st.1 ++ pending st.1.

Definition is_ok (item : Item) : Prop := match item with Ok _ => True | Err _ => False end.

(** The items sent are all visible, or a prefix of them and then one error: that of the
    next item, or the report of the overflow it caused. *)
Definition stream_ok (offered : list Item) (st : Stream B * list Item) : Prop :=
  st_receiver st.1 = true /\ (length (st_queue st.1) <= st_capacity st.1)%nat
  /\ if st_sender st.1 then st_task st.1 = None /\ visible st = offered /\ Forall is_ok offered
     else exists good bad rest e,
       offered = good ++ bad :: rest /\ Forall is_ok good /\ visible st = good ++ [Err e]
       /\ match bad with Err e' => e = e' | Ok _ => e = overflow_error (st_operation st.1) end.

Lemma stream_new_ok operation capacity : stream_ok [] (stream_new operation capacity, []).
Proof. split; [done|]. split; [apply Nat.le_0_l|]. by repeat constructor. Qed.

Lemma stream_send_ok offered st item :
  stream_ok offered st -> stream_ok (offered ++ [item]) (stream_step st (SSend item)).
Proof.
  destruct st as [s got]. intros (Hr & Hl & Hs). unfold stream_ok, stream_step, stream_send, visible, pending in *.
  simpl in *. rewrite Hr in *. destruct (st_sender s) eqn:Hsend.
  - destruct Hs as (Ht & Hv & Hok). rewrite Ht in Hv. simpl in Hv. rewrite app_nil_r in Hv.
    destruct (Nat.ltb_spec (length (st_queue s)) (st_capacity s)) as [Hc|Hc]; simpl.
    + split; [done|]. split; [rewrite length_app; simpl; lia|]. rewrite Ht. simpl.
      rewrite app_nil_r, (assoc_L (++)), Hv. destruct item as [b|e].
      * split; [done|]. split; [done|]. apply Forall_app. by repeat constructor.
      * exists offered, (Err e), [], e. done.
    + split; [done|]. split; [done|]. rewrite (assoc_L (++)), Hv. exists offered, item, [].
      destruct item as [b|e]; eexists; done.
  - split; [done|]. split; [done|]. rewrite Hsend. destruct Hs as (good & bad & rest & e & -> & Hg & Hv & He).
    exists good, bad, (rest ++ [item]), e. split; [by rewrite <- (assoc_L (++))|]. done.
Qed.

Lemma stream_other_ok offered st o :
  stream_ok offered st -> match o with SSend _ => False | _ => True end ->
  stream_ok offered (stream_step st o)
  /\ visible (stream_step st o) = visible st /\ st_sender (stream_step st o).1 = st_sender st.1.
Proof.
  destruct st as [s got]. intros (Hr & Hl & Hs) Ho.
  enough (st_receiver (stream_step (s, got) o).1 = true
          /\ (length (st_queue (stream_step (s, got) o).1) <= st_capacity (stream_step (s, got) o).1)%nat
          /\ visible (stream_step (s, got) o) = visible (s, got)
          /\ st_sender (stream_step (s, got) o).1 = st_sender s
          /\ st_operation (stream_step (s, got) o).1 = st_operation s
          /\ (st_task s = None -> st_task (stream_step (s, got) o).1 = None)) as (E1 & E2 & E3 & E4 & E5 & E6).
  { split; [|done]. unfold stream_ok. split; [done|]. split; [done|]. rewrite E3, E4, E5. simpl in *.
    destruct (st_sender s); [naive_solver|done]. }
  unfold visible, pending in *. simpl in *. destruct o as [|  |]; [done|..]; simpl.
  - unfold task_step. rewrite Hr. destruct (st_task s) as [e|] eqn:Ht; simpl.
    + destruct (Nat.ltb_spec (length (st_queue s)) (st_capacity s)); simpl; [|by rewrite Ht].
      split_and!; try done; [rewrite length_app; simpl; lia|]. by rewrite app_nil_r.
    + by rewrite Ht.
  - unfold stream_recv. rewrite Hr. destruct (st_queue s) as [|item q] eqn:Hq; simpl; [by rewrite Hq|].
    split_and!; try done; [simpl in Hl; lia|]. by rewrite <- (assoc_L (++)).
Qed.

Lemma stream_run_ok ops : forall offered st,
  stream_ok offered st -> stream_ok (offered ++ sends ops) (stream_run ops st).
Proof.
  induction ops as [|o ops IH]; intros offered st Hok; [by rewrite app_nil_r|].
  change (stream_run (o :: ops) st) with (stream_run ops (stream_step st o)). destruct o as [item| |]; simpl.
  - rewrite (cons_middle item), (assoc_L (++)). by apply IH, stream_send_ok.
  - by apply IH, stream_other_ok.
  - by apply IH, stream_other_ok.
Qed.

(** Receiving empties the stream: first the queue, then what the task sends. *)
Lemma stream_drains n : forall offered st,
  stream_ok offered st -> (0 < st_capacity st.1)%nat -> length (st_queue st.1 ++ pending st.1) = n ->
  exists ops, sends ops = [] /\ (stream_run ops st).2 = visible st.
Proof.
  induction n as [|n IH]; intros offered [s got] Hok Hc Hn.
  { exists []. apply nil_length_inv in Hn. unfold visible. simpl in *. by rewrite Hn, app_nil_r. }
  pose proof (proj1 Hok) as Hr. simpl in *. destruct (st_queue s) as [|item q] eqn:Hq; simpl in Hn.
  - unfold pending in Hn. destruct (st_task s) as [e|] eqn:Ht; [|done].
    set (s' := mkStream (B := B) (st_operation s) (st_capacity s) (st_sender s) None [] true).
    assert (stream_run [STask; SRecv] (s, got) = (s', got ++ [Err e])) as Hrun.
    { unfold stream_run. simpl. unfold task_step. rewrite Ht, Hr, Hq. simpl.
      destruct (Nat.ltb_spec 0 (st_capacity s)); [done|lia]. }
    exists [STask; SRecv]. split; [done|]. rewrite Hrun. unfold visible, pending. simpl. by rewrite Hq, Ht.
  - destruct (stream_other_ok offered (s, got) SRecv Hok I) as (Hok' & Hv & _).
    destruct (IH offered _ Hok') as (ops & Hs & Hrun).
    + simpl. unfold stream_recv. by rewrite Hr, Hq.
    + simpl. unfold stream_recv. rewrite Hr, Hq. injection Hn as Hn. exact Hn.
    + exists (SRecv :: ops). split; [done|].
      change (stream_run (SRecv :: ops) (s, got)) with (stream_run ops (stream_step (s, got) SRecv)).
      by rewrite Hrun, Hv.
Qed.

(** C31: A response stream ends once and loses nothing silently.  However sends, receives
    and the overflow task interleave, the receiver sees every item sent, in order, as
    long as nothing went wrong; otherwise a prefix of them followed by exactly one
    error, that of the failed item or the report of the overflow, and nothing after it.
    Reading on delivers all of that. *)
Theorem response_stream_contract operation capacity ops :
  (0 < capacity)%nat ->
  let st := stream_run ops (stream_new operation capacity, []) in
  stream_ok (sends ops) st
  /\ exists more, sends more = [] /\ (stream_run more st).2 = visible st.
Proof.
  intros Hc. cbv zeta.
  pose proof (stream_run_ok ops [] _ (stream_new_ok operation capacity)) as Hok. split; [exact Hok|].
  eapply stream_drains; [exact Hok| |done].
  enough (forall l s, st_capacity (stream_run l s).1 = st_capacity s.1) as -> by done.
  clear. induction l as [|o l IH]; intros s; [done|].
  change (stream_run (o :: l) s) with (stream_run l (stream_step s o)). rewrite IH. destruct s as [s got], o; simpl.
  - unfold stream_send. by repeat case_match.
  - unfold task_step. destruct (st_task s); simpl; [|done]. by repeat case_match.
  - unfold stream_recv. by repeat case_match; simplify_eq/=.
Qed.
End StreamLaws.
Arguments StreamOp : clear implicits.

(** ** What a historical message says *)

Section HistMessages.
Context {E : Type} `{Sdk E} `{SdkScalars E}.
Variable names : list string.

Definition message_security (root : E) : option E :=
  sd ← e_get root "securityData"; if e_is_null sd then None else Some sd.

(** The rows of a message: those of its security, unless it failed. *)
Definition message_rows (root : E) : list WideRow :=
  match message_security root with
  | None => []
  | Some sd =>
      match entry_error (scan sd), sec_field_data (scan sd) with
      | None, Some fd =>
          (fun row => mkWideRow (ticker (scan sd)) (field_value row "date") (field_value row <$> names))
          <$> e_values fd
      | _, _ => []
      end
  end.

Record Diagnosis : Type := mkDiagnosis {
  dg_eids : gmap string (list Z);
  dg_errors : gmap string SecurityErrorMeta;
  dg_exceptions : gmap string (list FieldExceptionMeta)
}.

#[export] Instance Diagnosis_eq_dec : EqDecision Diagnosis.
Proof. solve_decision. Defined.

(** What one entry adds. *)
Definition add_entry (d : Diagnosis) (hidden : list string) (entry : E) : Diagnosis :=
  let s := scan entry in
  let t := ticker s in
  mkDiagnosis
    (upsert t ((fun eids => default [] (dg_eids d !! t) ++ omap (fun i => e_i32 eids i) (seq 0 (e_len eids)))
               <$> sec_eid_data s) (dg_eids d))
    (upsert t ((fun x => mkSecurityError (sd_category x) (sd_code x) (sd_subcategory x) (sd_message x))
               <$> entry_error s) (dg_errors d))
    (add_exceptions t
       (to_owned ∘ exception_ref <$> reported hidden (from_option e_values [] (sec_field_exceptions s)))
       (dg_exceptions d)).

Definition no_diagnosis : Diagnosis := mkDiagnosis ∅ ∅ ∅.

Definition message_diagnosis (root : E) : Diagnosis := from_option (add_entry no_diagnosis []) no_diagnosis (message_security root).

(** Metadata with a diagnosis and nothing else. *)
Definition says (d : Diagnosis) (m : ResponseMetadata) : Prop :=
  metadata_ok m /\ eid_data m = dg_eids d /\ security_errors m = dg_errors d
  /\ view (field_exceptions m) = dg_exceptions d
  /\ rm_delayed m = ∅ /\ type_misses m = ∅ /\ rm_ids m = [] /\ rm_capture_delayed m = false /\ hidden_fields m = [].

Lemma says_default : says no_diagnosis metadata_default.
Proof.
  split_and!; try done. split; [split; [constructor|apply map_Forall_empty]|constructor].
Qed.

Lemma record_says d m entry :
  says d m ->
  exists m' diag, record_security m (ticker (scan entry)) (scan entry) = (m', diag)
    /\ says (add_entry d [] entry) m' /\ diag_security_error diag = entry_error (scan entry).
Proof.
  intros (Hok & He & Hs & Hx & Hd & Ht & Hi & Hc & Hh).
  destruct (response_diagnostics_exact m (ticker (scan entry)) (scan entry) (proj1 Hok)) as (x & -> & Hw & Hv).
  eexists _, _. split; [done|]. split; [|done].
  split_and!; simpl; try done; [split; [done|by rewrite Hi; constructor]| | | |].
  - by rewrite He.
  - by rewrite Hs.
  - by rewrite Hv, Hx, Hh.
  - unfold delay_status. by rewrite Hc.
Qed.

(** Such metadata is empty when the diagnosis is. *)
Lemma says_empty d m : says d m -> metadata_is_empty m = bool_decide (d = no_diagnosis).
Proof.
  intros (Hok & He & Hs & Hx & Hd & Ht & Hi & _). unfold metadata_is_empty, exceptions_is_empty.
  rewrite He, Hs, Hd, Ht, Hi. apply eq_bool_prop_intro. rewrite !andb_True, !bool_decide_spec.
  rewrite <- view_empty, Hx. destruct d as [a b c]. unfold no_diagnosis. simpl. split.
  - intros [[[[[Ha Hb] Hcc] _] _] _]. by subst.
  - intros [= Ha Hb Hcc]. by subst.
Qed.
End HistMessages.

(** ** Streamed chunks are exact *)

Lemma kept_fresh {V} (x : gmap string V) : kept x ∅ = x.
Proof. unfold kept. by case_decide. Qed.

Lemma kept_none {V} (old : gmap string V) : kept ∅ old = old.
Proof. unfold kept. by rewrite decide_True. Qed.

Section HistStreamLaws.
Context {Col : Type} `{AL : ArrowLaws Col} `{AB : ArrowBuild Col} `{!ArrowBuildLaws Col}.
Context `{LE : JsonLaws (gmap string (list Z))} `{LS : JsonLaws (gmap string SecurityErrorMeta)}.
Context `{LD : JsonLaws (gmap string DelayedMeta)} `{LM : JsonLaws (gmap string Z)}.
Context `{LX : ExceptionsJsonLaws}.
Variable ids_to_json : list string -> string.
Variable ids_from_json : string -> option (list string).
Hypothesis ids_json : forall l, ids_from_json (ids_to_json l) = Some l.
Context {E : Type} `{SL : SdkScalarLaws E} `{CS : ChronoStamp}.
Variables ryu_text other_text : spec_float -> string.
Variables (names : list string) (types : gmap string ArrowType).
Variable datatypes : string -> DataType.
Hypothesis names_nodup : NoDup names.

Local Abbreviation wide_ok := (wide_ok ryu_text other_text names types true).
Local Abbreviation process_message := (histdata_process_message ryu_text other_text).

(** The fields of the rows of a message have one type each, and so have the dates. *)
Definition message_typed (root : E) : Prop :=
  forall sd fd, message_security root = Some sd -> sec_field_data (scan sd) = Some fd ->
    Forall (typed_by datatypes) (e_values fd).

(** The response has the rows [cur] of this chunk after those of earlier ones. *)
Record response_ok (hist cur : list WideRow) (d : Diagnosis) (st : HistDataResponse) : Prop := mkResponseOk {
  ro_names : hd_field_names st = names;
  ro_format : hd_format st = OfWide;
  ro_caches : caches_fit names datatypes (hd_datatypes st);
  ro_date : cache_fits (datatypes "date") (hd_date_datatype st);
  ro_wide : exists c, sk_wide (hd_sinks st) = Some c /\ wide_ok hist cur c;
  ro_meta : says d (hd_meta st)
}.

Lemma histdata_new_ok : response_ok [] [] no_diagnosis (histdata_new names OfWide LmString (Some types)).
Proof.
  constructor; try done; [|by left| |apply says_default].
  - unfold caches_fit. simpl. apply Forall2_same_length_lookup_2; [by rewrite length_replicate|].
    intros i n dt _ [-> _]%lookup_replicate. by left.
  - eexists. split; [done|]. apply wide_new_ok.
Qed.

Lemma histdata_row_ok hist cur d st t (row : E) :
  response_ok hist cur d st -> typed_by datatypes row ->
  exists st', histdata_row ryu_text other_text st t row = Some st'
    /\ response_ok hist (cur ++ [mkWideRow t (field_value row "date") (field_value row <$> names)]) d st'.
Proof.
  intros [Kn Kf Kc Kd (c & Kw & Kok) Km] Ht. unfold histdata_row.
  destruct (read_child_value datatypes row "date" _ Ht Kd) as (date' & -> & Hd').
  rewrite Kf. simpl. unfold process_wide_format. rewrite Kw, Kn.
  destruct (wide_append_row_ok ryu_text other_text names types true datatypes hist cur c t
              (field_value row "date") row (hd_datatypes st) Kok Ht Kc) as (c' & dts' & -> & Hc' & Hok').
  eexists. split; [done|]. constructor; simpl; try done. by exists c'.
Qed.

Lemma histdata_rows_ok hist d t (l : list E) : forall cur st,
  response_ok hist cur d st -> Forall (typed_by datatypes) l ->
  exists st', histdata_rows ryu_text other_text st t l = Some st'
    /\ response_ok hist
         (cur ++ ((fun row => mkWideRow t (field_value row "date") (field_value row <$> names)) <$> l)) d st'.
Proof.
  induction l as [|row l IH]; intros cur st Hok Hl; [exists st; by rewrite app_nil_r|].
  apply Forall_cons in Hl as [Hr Hl]. destruct (histdata_row_ok _ _ _ _ t row Hok Hr) as (st1 & E1 & Hok1).
  destruct (IH _ _ Hok1 Hl) as (st2 & E2 & Hok2). exists st2. split; [simpl; by rewrite E1|].
  simpl. by rewrite <- (assoc_L (++)) in Hok2.
Qed.

Lemma process_message_ok hist st (root : E) :
  response_ok hist [] no_diagnosis st -> message_typed root ->
  exists st' failed, process_message st root = Some (st', failed)
    /\ response_ok hist (message_rows names root) (message_diagnosis root) st'.
Proof.
  intros Hok Ht. unfold histdata_process_message, message_diagnosis, message_rows, message_typed in *.
  assert (message_security root = sd ← e_get root "securityData"; if e_is_null sd then None else Some sd) as Hms by done.
  destruct (e_get root "securityData") as [sd|]; [|simpl in Hms; rewrite Hms; by eexists _, _].
  simpl in Hms. destruct (e_is_null sd); rewrite Hms in *; [by eexists _, _|]. cbn [from_option].
  destruct Hok as [Kn Kf Kc Kd Kw Km].
  destruct (record_says no_diagnosis (hd_meta st) sd Km) as (m' & diag & -> & Hm' & ->).
  set (st1 := histdata_set st (hd_datatypes st) (hd_date_datatype st) (hd_sinks st) m').
  assert (response_ok hist [] (add_entry no_diagnosis [] sd) st1) as Hok1 by (by constructor).
  destruct (entry_error (scan sd)); [eexists _, _; split; [done|exact Hok1]|].
  destruct (sec_field_data (scan sd)) as [fd|] eqn:Hfd; [|eexists _, _; split; [done|exact Hok1]].
  assert (reserve (hd_sinks st1) (hd_format st1) (hd_long_mode st1) = hd_sinks st) as ->.
  { unfold reserve. simpl. by rewrite Kf. }
  destruct (histdata_rows_ok hist _ (ticker (scan sd)) (e_values fd) [] st1 Hok1) as (st2 & E2 & Hok2).
  { by eapply Ht. }
  eexists _, _. split; [|exact Hok2].
  match goal with |- context [histdata_rows _ _ ?s _ _] => change s with st1 end. by rewrite E2.
Qed.

(** The batch of a chunk: its rows, with the types known by then, the diagnostics of
    its message and the values its columns rejected. *)
Definition chunk_batch (hist cur : list WideRow) (d : Diagnosis) (b : ArrowBatch Col) : Prop :=
  fields (b_schema b) = chunk_fields names types true hist cur
  /\ b_columns b = chunk_columns ryu_text other_text names types true hist cur
  /\ b_rows b = length cur
  /\ exists misses,
       reading ids_from_json b = mkReading (dg_eids d) (dg_errors d) (dg_exceptions d) ∅ misses []
       /\ forall j n, names !! j = Some n ->
            let k := chunk_misses ryu_text other_text types hist cur j n in
            misses !! n = if 0 <? k then Some k else None.

Lemma finish_batch_ok hist cur d st :
  response_ok hist cur d st ->
  exists st' b, finish_batch ids_to_json st = (st', Some (Ok b))
    /\ response_ok (hist ++ cur) [] no_diagnosis st' /\ chunk_batch hist cur d b.
Proof.
  intros [Kn Kf Kc Kd (c & Kw & Kok) Km]. unfold finish_batch. rewrite Kf, Kw.
  destruct (wide_finish_ok ids_to_json ids_from_json ids_json ryu_text other_text names types true hist cur c
              Kok names_nodup) as (c' & b & -> & Hok' & Hf & Hc & Hr & misses & Hread & Hmiss).
  destruct Km as (Hm & He & Hs & Hx & Hd & Ht & Hi & _).
  destruct (attach_reading ids_to_json ids_from_json ids_json (hd_meta st) b Hm)
    as (b' & Hb' & Hc' & Hr' & Hf' & Hread').
  eexists _, b'. split; [simpl; by rewrite Hb'|]. split.
  - constructor; simpl; try done; [by exists c'|apply says_default].
  - unfold chunk_batch. rewrite Hf', Hc', Hr', Hread', Hread, He, Hs, Hx, Hd, Ht, Hi. split_and!; try done.
    exists misses. split; [|done]. simpl. by rewrite !kept_fresh, kept_none.
Qed.

(** The batches of messages, in order; a message without rows and diagnostics has none. *)
Fixpoint chunks (hist : list WideRow) (roots : list E) (bs : list (ArrowBatch Col)) : Prop :=
  match roots with
  | [] => bs = []
  | root :: roots =>
      let rows := message_rows names root in
      let d := message_diagnosis root in
      if bool_decide (rows = [] /\ d = no_diagnosis) then chunks hist roots bs
      else match bs with
           | b :: bs => chunk_batch hist rows d b /\ chunks (hist ++ rows) roots bs
           | [] => False
           end
  end.

Definition rows_of (roots : list E) : list WideRow := concat (message_rows names <$> roots).

Lemma chunks_snoc roots root bs more : forall hist,
  chunks hist roots bs ->
  (if bool_decide (message_rows names root = [] /\ message_diagnosis root = no_diagnosis) then more = []
   else exists b, more = [b] /\ chunk_batch (hist ++ rows_of roots) (message_rows names root) (message_diagnosis root) b) ->
  chunks hist (roots ++ [root]) (bs ++ more).
Proof.
  revert bs. induction roots as [|r roots IH]; intros bs hist Hc Hm; simpl in *.
  - subst bs. unfold rows_of in Hm. simpl in Hm. rewrite app_nil_r in Hm. simpl.
    destruct (bool_decide _); [done|]. by destruct Hm as (b & -> & Hb).
  - assert (hist ++ rows_of (r :: roots) = (hist ++ message_rows names r) ++ rows_of roots) as Er
      by (unfold rows_of; simpl; by rewrite (assoc_L (++))).
    rewrite Er in Hm.
    destruct (bool_decide_reflect (message_rows names r = [] /\ message_diagnosis r = no_diagnosis)) as [He|He].
    + apply IH; [done|]. by rewrite (proj1 He), app_nil_r in Hm.
    + destruct bs as [|b bs]; [done|]. destruct Hc as [Hb Hc]. split; [done|]. by apply IH.
Qed.

(** *** Runs *)

Inductive HOp : Type := HMessage (root : E) | HTask | HRecv.

Definition hist_step (st : HistDataStreamState (Col := Col) * list (result (ArrowBatch Col) BlpError)) (o : HOp)
  : option (HistDataStreamState * list (result (ArrowBatch Col) BlpError)) :=
  let '(h, got) := st in
  let other o := let '(s, got) := stream_step (hst_stream h, got) o in
                 Some (mkHistStream (hst_response h) s (hst_type_misses h), got) in
  match o with
  | HMessage root => h ← histstream_on_partial ids_to_json ryu_text other_text h root; Some (h, got)
  | HTask => other STask
  | HRecv => other SRecv
  end.

Fixpoint hist_run (ops : list HOp) (st : HistDataStreamState * list (result (ArrowBatch Col) BlpError))
  : option (HistDataStreamState * list (result (ArrowBatch Col) BlpError)) :=
  match ops with [] => Some st | o :: ops => st ← hist_step st o; hist_run ops st end.

Definition messages (ops : list HOp) : list E :=
  omap (fun o => match o with HMessage root => Some root | _ => None end) ops.

(** A message with an answer for the stream. *)
Definition message_ok (root : E) : Prop :=
  message_typed root
  /\ top_level_response_error root "//blp/refdata" "HistoricalDataRequest" = None.

Definition run_ok (roots : list E) (st : HistDataStreamState (Col := Col) * list (result (ArrowBatch Col) BlpError))
  : Prop :=
  exists handled ignored bs, roots = handled ++ ignored /\ chunks [] handled bs
    /\ stream_ok (Ok <$> bs) (hst_stream st.1, st.2)
    /\ st_operation (hst_stream st.1) = "HistoricalDataRequest"%string
    /\ (st_sender (hst_stream st.1) = true ->
        ignored = [] /\ response_ok (rows_of handled) [] no_diagnosis (hst_response st.1)).

(** A message handed to an open stream sends its chunk. *)
Lemma on_partial_ok h handled (root : E) :
  response_ok (rows_of handled) [] no_diagnosis (hst_response h) -> message_ok root ->
  stream_is_closed (hst_stream h) = false ->
  exists h' more, histstream_on_partial ids_to_json ryu_text other_text h root = Some h'
    /\ hst_stream h' = fold_left stream_send (Ok <$> more) (hst_stream h)
    /\ response_ok (rows_of (handled ++ [root])) [] no_diagnosis (hst_response h')
    /\ (if bool_decide (message_rows names root = [] /\ message_diagnosis root = no_diagnosis) then more = []
        else exists b, more = [b]
             /\ chunk_batch (rows_of handled) (message_rows names root) (message_diagnosis root) b).
Proof.
  intros Hok [Ht Hte] Hcl. unfold histstream_on_partial. rewrite Hcl, Hte.
  destruct (process_message_ok _ _ root Hok Ht) as (r & failed & -> & Hr). simpl.
  assert (rows_of (handled ++ [root]) = rows_of handled ++ message_rows names root) as ->.
  { unfold rows_of. rewrite fmap_app, concat_app. simpl. by rewrite app_nil_r. }
  assert (histdata_is_empty r = bool_decide (message_rows names root = [] /\ message_diagnosis root = no_diagnosis)) as ->.
  { destruct Hr as [_ Kf _ _ (c & Kw & Kok) Km]. unfold histdata_is_empty, histdata_row_count, sinks_row_count.
    rewrite Kf, Kw, (ok_rows _ _ _ _ _ _ _ _ Kok), (says_empty _ _ Km).
    destruct (message_rows names root); simpl; repeat case_bool_decide; naive_solver. }
  case_bool_decide as He.
  - eexists _, []. split; [done|]. split; [done|]. split; [|done]. destruct He as [Hn Hd].
    rewrite Hd, Hn in Hr. rewrite Hn, app_nil_r. exact Hr.
  - destruct (finish_batch_ok _ _ _ _ Hr) as (r' & b & -> & Hr' & Hb). simpl. eexists _, [b]. split; [done|].
    split; [done|]. split; [done|]. by exists b.
Qed.

(** Nothing is added to an ended stream. *)
Lemma stream_ok_more {B} (offered more : list (result B BlpError)) st :
  stream_ok offered st -> st_sender st.1 = false -> stream_ok (offered ++ more) st.
Proof.
  intros (Hr & Hl & Hs) Hc. split; [done|]. split; [done|]. rewrite Hc in *.
  destruct Hs as (good & bad & rest & e & -> & Hs). exists good, bad, (rest ++ more), e.
  split; [by rewrite <- (assoc_L (++))|done].
Qed.

(** What the receiver of batches sees. *)
Lemma stream_outcome {B} (bs : list B) (s : Stream B) got operation :
  stream_ok (Ok <$> bs) (s, got) -> st_operation s = operation ->
  if st_sender s then got ++ st_queue s = Ok <$> bs
  else exists k, (k < length bs)%nat
         /\ got ++ st_queue s ++ pending s = (Ok <$> take k bs) ++ [Err (overflow_error operation)].
Proof.
  intros (_ & _ & Hs) Ho. simpl in *. destruct (st_sender s).
  - destruct Hs as (Ht & Hv & _). unfold visible, pending in Hv. simpl in Hv. rewrite Ht in Hv. simpl in Hv.
    by rewrite app_nil_r in Hv.
  - destruct Hs as (good & bad & rest & e & Hg & _ & Hv & He). exists (length good).
    assert (length good < length bs)%nat as Hlt.
    { rewrite <- (length_fmap (Ok (E := BlpError)) bs), Hg, length_app. simpl. lia. }
    split; [done|]. unfold visible in Hv. simpl in Hv. rewrite Hv, fmap_take, Hg, take_app_length.
    destruct bad as [b|e']; [by rewrite He, Ho|].
    assert ((Ok <$> bs) !! length good = Some (Err e')) as Hl by (by rewrite Hg, list_lookup_middle).
    rewrite list_lookup_fmap in Hl. by destruct (bs !! length good).
Qed.

Lemma step_operation {B} (st : Stream B * list (result B BlpError)) o :
  st_operation (stream_step st o).1 = st_operation st.1.
Proof.
  destruct st as [s got], o; simpl.
  - unfold stream_send. by repeat case_match.
  - unfold task_step. destruct (st_task s); simpl; [|done]. by repeat case_match.
  - unfold stream_recv. by repeat case_match; simplify_eq/=.
Qed.

Lemma hist_message_ok roots h got root :
  run_ok roots (h, got) -> message_ok root ->
  exists h', histstream_on_partial ids_to_json ryu_text other_text h root = Some h'
    /\ run_ok (roots ++ [root]) (h', got).
Proof.
  intros (handled & ignored & bs & -> & Hc & Hs & Ho & Hopen) Hm. simpl in *.
  destruct (stream_is_closed (hst_stream h)) eqn:Hcl.
  - exists h. split; [unfold histstream_on_partial; by rewrite Hcl|].
    exists handled, (ignored ++ [root]), bs. rewrite <- (assoc_L (++)). split_and!; try done. simpl.
    unfold stream_is_closed in Hcl. rewrite (proj1 Hs : st_receiver (hst_stream h) = true) in Hcl.
    destruct (st_sender (hst_stream h)); [done|done].
  - assert (st_sender (hst_stream h) = true) as Hsend.
    { unfold stream_is_closed in Hcl. by destruct (st_sender (hst_stream h)). }
    destruct (Hopen Hsend) as [-> Hr]. rewrite app_nil_r.
    destruct (on_partial_ok h handled root Hr Hm Hcl) as (h' & more & Hp & Hst & Hr' & Hmore).
    exists h'. split; [done|]. exists (handled ++ [root]), [], (bs ++ more). rewrite app_nil_r, fmap_app. simpl.
    rewrite Hst. split; [done|]. split; [by apply chunks_snoc|].
    case_bool_decide; [|destruct Hmore as (b & -> & _)]; [subst more; rewrite app_nil_r; by split_and!|].
    split; [exact (stream_send_ok _ _ (Ok b) Hs)|]. split; [|done]. simpl.
    etrans; [apply (step_operation (hst_stream h, got) (SSend (Ok b)))|done].
Qed.

Lemma hist_other_ok roots h got o :
  run_ok roots (h, got) -> match o with SSend _ => False | _ => True end ->
  let '(s, got) := stream_step (hst_stream h, got) o in
  run_ok roots (mkHistStream (hst_response h) s (hst_type_misses h), got).
Proof.
  intros (handled & ignored & bs & -> & Hc & Hs & Ho & Hopen) Hno. cbn [fst snd] in *.
  destruct (stream_other_ok _ _ o Hs Hno) as (Hs' & _ & Hsend).
  pose proof (step_operation (hst_stream h, got) o) as Hop.
  destruct (stream_step (hst_stream h, got) o) as [s got']. simpl in *.
  exists handled, ignored, bs. simpl. rewrite Hsend, Hop. done.
Qed.

Lemma hist_run_ok ops : forall roots st,
  run_ok roots st -> Forall message_ok (messages ops) ->
  exists st', hist_run ops st = Some st' /\ run_ok (roots ++ messages ops) st'.
Proof.
  induction ops as [|o ops IH]; intros roots [h got] Hok Hm; [exists (h, got); by rewrite app_nil_r|].
  destruct o as [root| |]; simpl in *.
  - apply Forall_cons in Hm as [Hm Hms]. destruct (hist_message_ok _ _ _ _ Hok Hm) as (h' & -> & Hok').
    simpl. rewrite (cons_middle root), (assoc_L (++)). by apply IH.
  - pose proof (hist_other_ok _ _ _ STask Hok I) as Hok'. by apply (IH roots) in Hok'.
  - pose proof (hist_other_ok _ _ _ SRecv Hok I) as Hok'. simpl in Hok'.
    destruct (stream_recv (hst_stream h)) as [[item s]|]; by apply (IH roots) in Hok'.
Qed.

(** C16: A streamed historical response delivers exactly its chunks.  However messages,
    receives and the overflow task interleave, nothing panics, and each message that has
    rows or diagnostics becomes one batch: a row per date of its security, unless that
    failed, a column per requested field typed by its hint or the first value seen in
    the whole stream so far, whatever types were cached before, and the diagnostics of
    that message with its rejected values.  The receiver gets these batches in order, all
    of them while the stream is open; after an overflow a prefix and then one error. *)
Theorem histdata_stream_exact capacity ops :
  Forall message_ok (messages ops) ->
  exists h got handled ignored bs,
    hist_run ops (histstream_with_types names (Some types) capacity, []) = Some (h, got)
    /\ messages ops = handled ++ ignored /\ chunks [] handled bs
    /\ if st_sender (hst_stream h)
       then ignored = [] /\ got ++ st_queue (hst_stream h) = Ok <$> bs
       else exists k, (k < length bs)%nat
              /\ got ++ st_queue (hst_stream h) ++ pending (hst_stream h)
                 = (Ok <$> take k bs) ++ [Err (overflow_error "HistoricalDataRequest")].
Proof.
  intros Hm.
  destruct (hist_run_ok ops [] (histstream_with_types names (Some types) capacity, [])) as ([h got] & Hrun & Hok);
    [|done|].
  { exists [], [], []. split_and!; try done; [apply stream_new_ok|]. intros _. split; [done|]. apply histdata_new_ok. }
  destruct Hok as (handled & ignored & bs & Hr & Hc & Hs & Ho & Hopen). simpl in *.
  exists h, got, handled, ignored, bs. split; [done|]. split; [done|]. split; [done|].
  pose proof (stream_outcome _ _ _ _ Hs Ho) as Hout.
  destruct (st_sender (hst_stream h)) eqn:Hsend; [|exact Hout]. split; [by apply Hopen|exact Hout].
Qed.
End HistStreamLaws.

(** ** A concrete instance *)

Module ConcreteScalars.
Import Concrete.

#[export] Instance tree_scalars : SdkScalars Tree := {
  e_datatype t :=
    match t with
    | TValues _ (SInt _ :: _) => DtInt32
    | TValues _ (SBool _ :: _) => DtBool
    | TValues _ _ => DtString
    | _ => DtSequence
    end;
  e_char _ _ := None;
  e_i64 _ _ := None;
  e_f64 _ _ := None;
  e_datetime _ _ := None;
  DATE_PART := 1;
  OFFSET_PART := 8
}.

#[export] Instance tree_scalar_laws : SdkScalarLaws Tree.
Proof.
  constructor. intros e i Hget.
  assert (is_Some (t_scalar e i)) as [x Hx].
  { simpl in Hget. destruct (t_scalar e i); [by eexists|].
    destruct Hget as [[? ?]|[[? ?]|[[? ?]|[[? ?]|[[? ?]|[[? ?]|[? ?]]]]]]]; done. }
  destruct e as [n [|v l]| |]; simpl in *; try done. split; [done|]. by apply lookup_lt_Some in Hx.
Qed.

(** The children of an element decide its types. *)
Lemma typed_children datatypes name children :
  Forall (fun c => e_datatype c = datatypes (t_name c)) children ->
  typed_by datatypes (TSequence name children).
Proof.
  intros Hc n e He. simpl in He. apply find_some in He as [Hin Hn]. apply bool_decide_eq_true in Hn. subst n.
  rewrite Forall_forall in Hc. apply Hc. by apply list_elem_of_In.
Qed.
End ConcreteScalars.

Section Examples.
Import Codec Concrete SimpleBuild ConcreteScalars.
Local Open Scope string_scope.

Lemma response_stream_contract_witness :
  let ops := [SSend (B := nat) (Ok 1%nat); SSend (Ok 2%nat); STask; SRecv; STask; SSend (Ok 3%nat)] in
  (stream_run ops (stream_new "op" 1, [])).2 = [Ok 1%nat]
  /\ visible (stream_run ops (stream_new "op" 1, [])) = [Ok 1%nat; Err (overflow_error "op")]
  /\ exists more, sends more = []
       /\ (stream_run more (stream_run ops (stream_new "op" 1, []))).2 = [Ok 1%nat; Err (overflow_error "op")].
Proof.
  cbv zeta. split; [reflexivity|]. split; [reflexivity|].
  exact (proj2 (response_stream_contract "op" 1
    [SSend (Ok 1%nat); SSend (Ok 2%nat); STask; SRecv; STask; SSend (Ok 3%nat)] ltac:(lia))).
Defined.

Definition sample_types (n : string) : DataType := if bool_decide (n = "PX_LAST") then DtInt32 else DtString.

(** A historical message of one security. *)
Definition hist_message (security : string) (rows : list Tree) : Tree :=
  TSequence "root" [TSequence "securityData" [TValues "security" [SStr security]; TArray "fieldData" rows]].

Definition hist_sample (security : string) : Tree :=
  hist_message security
    [TSequence "row" [TValues "date" [SStr "2024-01-02"]];
     TSequence "row" [TValues "date" [SStr "2024-01-03"]; TValues "PX_LAST" [SInt 7]]].

Lemma histdata_stream_exact_witness :
  exists h got handled ignored bs,
    hist_run (Col := SimpleCol) ids_text some_text some_text
      [HMessage (hist_sample "SYN_A"); HMessage (hist_sample "SYN_B"); HRecv]
      (histstream_with_types ["PX_LAST"] (Some ∅) 1, []) = Some (h, got)
    /\ [hist_sample "SYN_A"; hist_sample "SYN_B"] = (handled ++ ignored)%list
    /\ chunks text_ids some_text some_text ["PX_LAST"] ∅ [] handled bs.
Proof.
  destruct (histdata_stream_exact (Col := SimpleCol) ids_text text_ids text_ids_text some_text some_text
    ["PX_LAST"] ∅ sample_types ltac:(apply NoDup_singleton) 1
    [HMessage (hist_sample "SYN_A"); HMessage (hist_sample "SYN_B"); HRecv])
    as (h & got & handled & ignored & bs & Hrun & Hm & Hc & _).
  - repeat constructor; intros sd fd [= <-] [= <-]; repeat constructor; apply typed_children; repeat constructor.
  - exists h, got, handled, ignored, bs. split; [exact Hrun|]. split; [exact Hm|exact Hc].
Defined.
End Examples.
