(* ===== verification/Refdata.v ===== *)
(** * Reference answers are the requested table

    Theorems on [RefDataState] of [Extractors.v]: in every layout the answer to a
    reference request has exactly the rows its messages call for, however they are split
    into messages, and fails when every security failed. *)

From Stdlib Require Import Ascii String ZArith Lia SpecFloat.
From stdpp Require Import pretty.
From S2P Require Import Prelude Errors Update Decoder Plan Schema Diagnostics Pool Metadata.
From S2P Require Import ShardMerge Calendar Columns Extract Extractors.
Local Open Scope Z_scope.

Record LongRow : Type := mkLongRow {
  lr_ticker : string;
  lr_date : option Value;
  lr_field : string;
  lr_hint : option string;
  lr_value : option Value
}.

(** ** The rows of a response *)

Section Response.
Context {E : Type} `{Sdk E} `{SdkScalars E}.
Variables (names : list string) (hints : list (option string)).

Definition entries_of (root : E) : list E := from_option e_values [] (e_get root "securityData").

Definition error_row (t : string) (e : SecurityErrorDetails) : LongRow :=
  mkLongRow t None "__SECURITY_ERROR__" (Some "string"%string) (Some (BString (security_error_detail e))).

(** A failed security has an error row when these are asked for; another one has a row
    per requested field. *)
Definition entry_rows (include_errors : bool) (entry : E) : list LongRow :=
  let s := scan entry in
  match entry_error s with
  | Some e => if include_errors then [error_row (ticker s) e] else []
  | None =>
      match sec_field_data s with
      | None => []
      | Some fd =>
          zip_with (fun n h => mkLongRow (ticker s) None n h (field_value fd n)) names hints
      end
  end.

(** The wide row of a security that did not fail. *)
Definition entry_wide (entry : E) : list WideRow :=
  let s := scan entry in
  match entry_error s, sec_field_data s with
  | None, Some fd => [mkWideRow (ticker s) None (field_value fd <$> names)]
  | _, _ => []
  end.

Definition entry_failed (entry : E) : list string :=
  match entry_error (scan entry) with Some _ => [ticker (scan entry)] | None => [] end.

(** The diagnostics collected over entries. *)
Definition collect (m : ResponseMetadata) (entries : list E) : ResponseMetadata :=
  fold_left (fun m e => (record_security m (ticker (scan e)) (scan e)).1) entries m.

Definition entry_typed (datatypes : string -> DataType) (entry : E) : Prop :=
  forall fd, sec_field_data (scan entry) = Some fd -> typed_by datatypes fd.

(** What processing an entry leaves alone. *)
Lemma record_frame m (entry : E) :
  metadata_ok m ->
  let m' := (record_security m (ticker (scan entry)) (scan entry)).1 in
  metadata_ok m' /\ type_misses m' = type_misses m /\ rm_ids m' = rm_ids m
  /\ diag_security_error (record_security m (ticker (scan entry)) (scan entry)).2 = entry_error (scan entry).
Proof.
  intros [Hw Hi]. destruct (response_diagnostics_exact m (ticker (scan entry)) (scan entry) Hw) as (x & E1 & Hx & _).
  cbv zeta. rewrite E1. by split_and!.
Qed.
End Response.

(** ** Rows through a column set *)

Section SlotWrites.
Context `{ChronoStamp}.
Variables ryu_text other_text : spec_float -> string.
Local Abbreviation related := (related ryu_text other_text).
Local Abbreviation append_opt_slot := (append_opt_slot ryu_text other_text).

Definition slot_named (cs : ColumnSet) (i : nat) (n : string) : Prop :=
  exists col, cs_columns cs !! i = Some col /\ sl_name col = n.

Definition slots_kept (cs cs' : ColumnSet) : Prop := forall i n, slot_named cs i n -> slot_named cs' i n.

Lemma write_slot cs tb i n v :
  related cs tb -> slot_named cs i n -> t_current tb !! n = None ->
  exists cs', append_opt_slot cs i v = Some cs' /\ related cs' (table_write tb n v) /\ slots_kept cs cs'.
Proof.
  intros R (col & Hc & <-) Hcur. exists (written_set ryu_text other_text cs tb i col v). split_and!.
  - destruct v as [v|]; simpl; [by apply append_slot_eq|]. by apply (append_slot_eq _ _ cs tb i col BNull).
  - by apply write_related.
  - intros j m (col' & Hj & Hm). unfold slot_named. simpl. destruct (decide (j = i)) as [->|Hne].
    + rewrite list_lookup_insert_eq by (by eapply lookup_lt_Some). eexists. split; [done|].
      simpl. congruence.
    + rewrite list_lookup_insert_ne by done. by exists col'.
Qed.

Lemma resolve_slot cs tb n cs' i :
  related cs tb -> slot cs n = (cs', i) ->
  related cs' tb /\ slot_named cs' i n /\ slots_kept cs cs'.
Proof.
  intros R Hs. destruct (slot_related _ _ cs tb n cs' i R Hs) as [R' Hn]. split; [done|]. split; [done|].
  unfold slot in Hs. intros j m (col & Hj & Hm). destruct (cs_slots cs !! n); simplify_eq; [by exists col|].
  exists col. split; [|done]. simpl. by apply lookup_app_l_Some.
Qed.

(** The writer of rows without dates. *)
Definition writer_ok (mode : LongMode) (cs : ColumnSet) (w : LongRowWriter) : Prop :=
  lw_mode w = mode /\ lw_date w = None
  /\ slot_named cs (lw_ticker w) "ticker" /\ slot_named cs (lw_field w) "field"
  /\ slot_named cs (lw_value w) "value" /\ slot_named cs (lw_dtype w) "dtype".

Lemma writer_ok_kept mode cs cs' w : writer_ok mode cs w -> slots_kept cs cs' -> writer_ok mode cs' w.
Proof. intros (? & ? & ? & ? & ? & ?) Hk. split_and!; auto. Qed.

Lemma writer_new_ok cs tb mode :
  related cs tb ->
  exists cs' w, writer_new cs mode false = (cs', w) /\ related cs' tb /\ writer_ok mode cs' w.
Proof.
  intros R. unfold writer_new.
  destruct (slot cs "ticker") as [cs1 i1] eqn:E1. destruct (resolve_slot _ _ _ _ _ R E1) as (R1 & N1 & K1).
  destruct (slot cs1 "field") as [cs2 i2] eqn:E2. destruct (resolve_slot _ _ _ _ _ R1 E2) as (R2 & N2 & K2).
  destruct (slot cs2 "value") as [cs3 i3] eqn:E3. destruct (resolve_slot _ _ _ _ _ R2 E3) as (R3 & N3 & K3).
  destruct (slot cs3 "dtype") as [cs4 i4] eqn:E4. destruct (resolve_slot _ _ _ _ _ R3 E4) as (R4 & N4 & K4).
  eexists _, _. split; [done|]. split; [done|]. split_and!; simpl; try done; auto.
Qed.

(** The writes of a row. *)
Definition row_writes (mode : LongMode) (r : LongRow) : list (string * option Value) :=
  [("ticker", Some (BString (lr_ticker r))); ("field", Some (BString (lr_field r)))]%string
  ++ match mode with
     | LmWithMetadata =>
         match lr_value r with
         | Some v => [("value", Some (BString (value_to_string other_text v)));
                      ("dtype", Some (BString (default (type_name (arrow_type_from_value v)) (lr_hint r))))]%string
         | None => [("value", None); ("dtype", Some (BString "null"))]%string
         end
     | _ => [("value", lr_value r)]%string
     end.

Definition table_row (tb : Table) (ws : list (string * option Value)) : Table :=
  let tb := fold_left (fun tb w => table_write tb w.1 w.2) ws tb in
  mkTable (t_rows tb ++ [t_current tb]) ∅ (t_columns tb) (t_hints tb).

(** One write of a row, with the writer still resolved. *)
Local Ltac write_next R W slot name v :=
  let cs := fresh "cs" in let Ew := fresh "Ew" in let R' := fresh "R" in let K := fresh "K" in
  destruct (write_slot _ _ slot name v R ltac:(apply W)) as (cs & Ew & R' & K);
    [simpl; rewrite ?lookup_insert_ne by done; by rewrite ?lookup_empty|
     simpl in Ew; unfold append_str_slot; rewrite Ew; cbn [mbind option_bind]; clear Ew;
     apply (fun H => writer_ok_kept _ _ _ _ H K) in W; clear R; rename R' into R].

Lemma writer_append_row_ok cs tb mode w r :
  related cs tb -> t_current tb = ∅ -> writer_ok mode cs w -> mode <> LmTyped ->
  exists cs', writer_append_row ryu_text other_text w cs (lr_ticker r) (lr_date r) (lr_field r) (lr_value r) (lr_hint r)
              = Some cs'
    /\ related cs' (table_row tb (row_writes mode r)) /\ writer_ok mode cs' w.
Proof.
  intros R Hcur W Hm. destruct tb as [rows cur cols hs]. simpl in Hcur. subst cur.
  unfold writer_append_row. pose proof W as (Hmode & Hdate & _). rewrite Hmode, Hdate.
  write_next R W (lw_ticker w) "ticker"%string (Some (BString (lr_ticker r))).
  write_next R W (lw_field w) "field"%string (Some (BString (lr_field r))).
  destruct mode; [| |done].
  - write_next R W (lw_value w) "value"%string (lr_value r).
    eexists. split; [done|]. split; [|done]. exact (end_row_related _ _ _ _ R).
  - unfold row_writes. destruct (lr_value r) as [v|].
    + write_next R W (lw_value w) "value"%string (Some (BString (value_to_string other_text v))).
      write_next R W (lw_dtype w) "dtype"%string
        (Some (BString (default (type_name (arrow_type_from_value v)) (lr_hint r)))).
      eexists. split; [done|]. split; [|done]. exact (end_row_related _ _ _ _ R).
    + write_next R W (lw_value w) "value"%string (None : option Value).
      write_next R W (lw_dtype w) "dtype"%string (Some (BString "null")).
      eexists. split; [done|]. split; [|done]. exact (end_row_related _ _ _ _ R).
Qed.
End SlotWrites.

(** ** Layouts *)

Section Layouts.
Context `{ChronoStamp}.
Variables ryu_text other_text : spec_float -> string.
Variables (names : list string) (types : gmap string ArrowType).
Local Abbreviation cell_of := (cell_of ryu_text other_text).
Local Abbreviation rejects := (rejects ryu_text other_text).

(** A column: its name, its type and its cell in a row. *)
Record LayoutColumn : Type := mkLayoutColumn {
  lc_name : string;
  lc_type : ArrowType;
  lc_cell : LongRow -> option ArrayCell
}.

Definition hinted (c : string) : ArrowType := default ATString (types !! c).

Definition dtype_of (r : LongRow) : string :=
  match lr_value r with
  | Some v => default (type_name (arrow_type_from_value v)) (lr_hint r)
  | None => "null"
  end.

Definition meta_value (c : string) (r : LongRow) : option Value :=
  if decide (c = "ticker"%string) then Some (BString (lr_ticker r))
  else if decide (c = "field"%string) then Some (BString (lr_field r))
  else if decide (c = "value"%string) then (fun v => BString (value_to_string other_text v)) <$> lr_value r
  else if decide (c = "dtype"%string) then Some (BString (dtype_of r))
  else None.

Definition meta_names : list string := ["ticker"; "field"; "value"; "dtype"]%string.

Definition layout (mode : LongMode) : list LayoutColumn :=
  let str f := fun r => Some (CellStr (f r)) in
  let typed {A} (f : A -> ArrayCell) (g : TypedCells -> option A) :=
    fun r => option_map f (g (append_typed_value (lr_value r))) in
  match mode with
  | LmString =>
      let t := common_value_type names types in
      [mkLayoutColumn "ticker" ATString (str lr_ticker); mkLayoutColumn "field" ATString (str lr_field);
       mkLayoutColumn "value" t (fun r => cell_of t (lr_value r))]
  | LmWithMetadata =>
      (fun c => mkLayoutColumn c (hinted c) (fun r => cell_of (hinted c) (meta_value c r))) <$> meta_names
  | LmTyped =>
      [mkLayoutColumn "ticker" ATString (str lr_ticker); mkLayoutColumn "field" ATString (str lr_field);
       mkLayoutColumn "value_f64" ATFloat64 (typed CellF64 tc_f64);
       mkLayoutColumn "value_i64" ATInt64 (typed CellI64 tc_i64);
       mkLayoutColumn "value_str" ATString (typed CellStr tc_str);
       mkLayoutColumn "value_bool" ATBool (typed CellBool tc_bool);
       mkLayoutColumn "value_date" ATDate32 (typed CellDate tc_days);
       mkLayoutColumn "value_ts" ATTimestampMicros (typed CellStamp tc_ts);
       mkLayoutColumn "value_time" ATTime64Micros (typed CellTime tc_time)]
  end.

(** The number of values of a field the value column rejects. *)
Definition long_rejected (rows : list LongRow) (n : string) : Z :=
  Z.of_nat (length (filter (fun r => lr_field r = n /\ rejects (common_value_type names types) (lr_value r) = true) rows)).

(** *** Builders after rows *)

Definition long_misses (rows : list LongRow) : ResponseMetadata :=
  fold_left (fun m r => if rejects (common_value_type names types) (lr_value r)
                        then record_type_miss m (lr_field r) else m) rows metadata_default.

Definition long_of (rows : list LongRow) : LongStringColumns :=
  let t := common_value_type names types in
  mkLong (lr_ticker <$> rows) None (lr_field <$> rows) (mkBuilderT t ((fun r => cell_of t (lr_value r)) <$> rows))
    (length rows) (long_misses rows).

Definition typed_of (rows : list LongRow) : TypedLongColumns :=
  let col {A} (g : TypedCells -> option A) := (fun r => g (append_typed_value (lr_value r))) <$> rows in
  mkTyped (lr_ticker <$> rows) None (lr_field <$> rows) (col tc_f64) (col tc_i64) (col tc_str) (col tc_bool)
    (col tc_days) (col tc_ts) (col tc_time) (length rows) (typed_schema false).

Definition meta_row (r : LongRow) : gmap string (option Value) :=
  <["dtype" := meta_value "dtype" r]> (<["value" := meta_value "value" r]>
    (<["field" := meta_value "field" r]> (<["ticker" := meta_value "ticker" r]> ∅)))%string.

Definition meta_table (rows : list LongRow) : Table :=
  mkTable (meta_row <$> rows) ∅
    (match rows with [] => [] | _ => (fun c => (c, hinted c)) <$> meta_names end) types.

Lemma long_of_snoc rows r :
  long_append_row ryu_text other_text (long_of rows) (lr_ticker r) (lr_date r) (lr_field r) (lr_value r)
  = long_of (rows ++ [r]).
Proof.
  unfold long_append_row, long_of. simpl. rewrite append_value_cell. simpl.
  unfold long_misses. by rewrite fold_left_app, !fmap_app, length_app, Nat.add_1_r.
Qed.

Lemma typed_of_snoc rows r :
  typed_append_row (typed_of rows) (lr_ticker r) (lr_date r) (lr_field r) (lr_value r) = typed_of (rows ++ [r]).
Proof.
  unfold typed_append_row, typed_of. simpl. by rewrite !fmap_app, length_app, Nat.add_1_r.
Qed.

Lemma meta_table_snoc rows r :
  table_row (meta_table rows) (row_writes other_text LmWithMetadata r) = meta_table (rows ++ [r]).
Proof.
  destruct rows as [|r0 rows], r as [t d f h [v|]]; try reflexivity.
  - unfold meta_table. rewrite fmap_app. reflexivity.
  - unfold meta_table. rewrite fmap_app. reflexivity.
Qed.

Lemma long_misses_lookup rows n :
  type_misses (long_misses rows) !! n
  = let k := long_rejected rows n in if decide (k = 0) then None else Some (wrap_u 64 k).
Proof.
  induction rows as [|r rows IH] using rev_ind; [done|]. unfold long_misses, long_rejected in *.
  rewrite fold_left_app, filter_app, length_app, Nat2Z.inj_add. cbn [fold_left].
  set (k := Z.of_nat (length (filter _ rows))) in IH |- *. cbv zeta in IH |- *.
  destruct (rejects (common_value_type names types) (lr_value r)) eqn:Hr.
  - destruct (decide (lr_field r = n)) as [<-|Hn].
    + rewrite (filter_all _ [r]) by (by repeat constructor). simpl. rewrite IH, (decide_False (P := (k + 1 = 0))) by lia.
      case_decide as Hk; rewrite lookup_insert_eq; [by rewrite Hk|].
      unfold u64_wrapping_add, wrap_u. by rewrite Zplus_mod_idemp_l.
    + rewrite filter_cons, (decide_False (P := _ /\ _)) by (by intros [? _]). simpl. rewrite Z.add_0_r, <- IH.
      destruct (type_misses _ !! lr_field r); by rewrite lookup_insert_ne.
  - rewrite filter_cons, (decide_False (P := _ /\ _)) by (intros [_ ?]; congruence). simpl. by rewrite Z.add_0_r.
Qed.

Lemma long_misses_frame rows :
  long_misses rows = mkMetadata ∅ ∅ exceptions_default ∅ (type_misses (long_misses rows)) [] false [].
Proof.
  induction rows as [|r rows IH] using rev_ind; [done|]. unfold long_misses in *. rewrite fold_left_app. simpl.
  destruct (rejects _ (lr_value r)); [|done]. rewrite IH. done.
Qed.
End Layouts.

(** ** Processing *)

Section Processing.
Context {E : Type} `{SL : SdkScalarLaws E} `{CS : ChronoStamp}.
Variables ryu_text other_text : spec_float -> string.
Variables (names : list string) (types : gmap string ArrowType).
Variables (format : OutputFormat) (mode : LongMode) (include_errors : bool).
Variable datatypes : string -> DataType.
Variable m0 : ResponseMetadata.
Hypothesis planned : format = OfWide -> mode <> LmTyped.

Local Abbreviation related := (related ryu_text other_text).
Local Abbreviation long_of := (long_of ryu_text other_text names types).
Local Abbreviation meta_table := (meta_table other_text types).
Local Abbreviation hints := (field_dtype_hints names types).

Definition writer_state (s : Sinks) : Prop :=
  match sk_long_rows s with None => True | Some w => writer_ok mode (sk_columns s) w end.

(** The builders hold the rows; a wide layout has its own rows, and puts error rows where
    they are not looked at. *)
Definition sink_ok (rows : list LongRow) (wide : list WideRow) (s : Sinks) : Prop :=
  match format with
  | OfLong =>
      match mode with
      | LmString => sk_long s = Some (long_of rows)
      | LmTyped => sk_long s = None /\ sk_typed s = Some (typed_of rows)
      | LmWithMetadata =>
          sk_long s = None /\ sk_typed s = None /\ related (sk_columns s) (meta_table rows) /\ writer_state s
      end
  | OfWide =>
      sk_long s = None /\ sk_typed s = None
      /\ (exists tb, related (sk_columns s) tb /\ t_current tb = ∅) /\ writer_state s
      /\ exists c, sk_wide s = Some c /\ wide_ok ryu_text other_text names types false [] wide c
  end.

(** A row through the column set. *)
Lemma columns_row s tb r :
  sk_long s = None -> sk_typed s = None -> related (sk_columns s) tb -> t_current tb = ∅ ->
  writer_state s -> mode <> LmTyped ->
  exists s', append_long_row ryu_text other_text s mode false (lr_ticker r) (lr_date r) (lr_field r) (lr_hint r)
               (lr_value r) = Some s'
    /\ sk_long s' = None /\ sk_typed s' = None /\ sk_wide s' = sk_wide s
    /\ related (sk_columns s') (table_row tb (row_writes other_text mode r)) /\ writer_state s'.
Proof.
  intros Hl Ht R Hcur W Hm. unfold append_long_row, long_row_writer, writer_state in *. rewrite Hl, Ht.
  destruct (sk_long_rows s) as [w|] eqn:Hw.
  - destruct (writer_append_row_ok _ _ _ _ mode w r R Hcur W Hm) as (cs & -> & R' & W').
    eexists. split; [done|]. simpl. by rewrite Hw.
  - destruct (writer_new_ok _ _ _ _ mode R) as (cs & w & -> & R1 & W1).
    destruct (writer_append_row_ok _ _ _ _ mode w r R1 Hcur W1 Hm) as (cs' & E1 & R' & W').
    simpl. rewrite E1. by eexists.
Qed.

Lemma append_long_row_ok rows wide s r :
  sink_ok rows wide s ->
  exists s', append_long_row ryu_text other_text s mode false (lr_ticker r) (lr_date r) (lr_field r) (lr_hint r)
               (lr_value r) = Some s'
    /\ sink_ok (rows ++ [r]) wide s'.
Proof.
  unfold sink_ok. intros Hok. destruct format.
  - destruct mode eqn:Em; simpl in *.
    + unfold append_long_row. rewrite Hok. eexists. split; [done|]. simpl. by rewrite long_of_snoc.
    + destruct Hok as (Hl & Ht & R & W).
      destruct (columns_row s (meta_table rows) r) as (s' & Es & Hl' & Ht' & _ & R' & W'); rewrite ?Em; try done.
      rewrite Em in Es, R'. exists s'. split; [done|]. rewrite meta_table_snoc in R'. done.
    + destruct Hok as [Hl Ht]. unfold append_long_row. rewrite Hl, Ht. eexists. split; [done|]. simpl.
      by rewrite typed_of_snoc.
  - destruct Hok as (Hl & Ht & (tb & R & Hcur) & W & c & Hc & Hw).
    destruct (columns_row s tb r) as (s' & Es & Hl' & Ht' & Hw' & R' & W'); try done; [by apply planned|].
    exists s'. split; [done|]. split_and!; try done; [by eexists|]. exists c. by rewrite Hw'.
Qed.

(** The loop over the fields appends a row each, whatever types were cached. *)
Lemma for_fields_ok {S} (f : S -> string -> option string -> option Value -> option S)
  (P : list LongRow -> S -> Prop) (mk : string -> option string -> option Value -> LongRow) (fd : E) :
  (forall rows s n h v, P rows s -> exists s', f s n h v = Some s' /\ P (rows ++ [mk n h v]) s') ->
  typed_by datatypes fd ->
  forall l dts hs rows s, P rows s -> caches_fit l datatypes dts -> length hs = length l ->
  exists s' dts', for_fields f fd l dts hs s = Some (s', dts')
    /\ caches_fit l datatypes dts'
    /\ P (rows ++ zip_with (fun n h => mk n h (field_value fd n)) l hs) s'.
Proof.
  intros Hf Ht. induction l as [|n l IH]; intros dts hs rows s Hs Hc Hl.
  { exists s, dts. simpl. by rewrite app_nil_r. }
  apply Forall2_cons_inv_l in Hc as (dt & dts1 & Hdt & Hc & ->). destruct hs as [|h hs]; [done|]. simpl.
  destruct (read_child_value datatypes fd n dt Ht Hdt) as (dt' & -> & Hdt').
  destruct (Hf rows s n h (field_value fd n) Hs) as (s1 & -> & Hs1). simpl.
  destruct (IH dts1 hs _ s1 Hs1 Hc) as (s2 & dts2 & -> & Hc2 & Hs2); [by injection Hl|]. simpl.
  eexists _, _. split; [done|]. split; [by constructor|]. by rewrite <- (assoc_L (++)) in Hs2.
Qed.

Lemma hints_length : length hints = length names.
Proof. apply length_fmap. Qed.

(** Resolving the writer changes no row. *)
Lemma writer_resolved rows wide s :
  sink_ok rows wide s ->
  sink_ok rows wide (match sk_long s, sk_typed s with
                     | None, None => (long_row_writer s mode false).1
                     | _, _ => s
                     end).
Proof.
  intros Hok. destruct (sk_long s) eqn:Hl; [done|]. destruct (sk_typed s) eqn:Ht; [done|].
  unfold long_row_writer. destruct (sk_long_rows s) eqn:Hw; [done|].
  unfold sink_ok, writer_state in *. destruct format.
  - destruct mode eqn:Em; [congruence| |destruct Hok; congruence].
    destruct Hok as (_ & _ & R & _). rewrite <- Em in *.
    destruct (writer_new_ok _ _ _ _ mode R) as (cs & w & -> & R1 & W1). simpl. by rewrite Em in W1 |- *.
  - destruct Hok as (_ & _ & (tb & R & Hcur) & _ & Hwide).
    destruct (writer_new_ok _ _ _ _ mode R) as (cs & w & -> & R1 & W1). simpl. split_and!; try done. by exists tb.
Qed.

Lemma process_format_ok rows wide s dts t (fd : E) :
  sink_ok rows wide s -> typed_by datatypes fd -> caches_fit names datatypes dts ->
  exists s' dts', process_format ryu_text other_text s format mode false names dts hints t None fd = Some (s', dts')
    /\ caches_fit names datatypes dts'
    /\ sink_ok (rows ++ zip_with (fun n h => mkLongRow t None n h (field_value fd n)) names hints)
         (wide ++ [mkWideRow t None (field_value fd <$> names)]) s'.
Proof.
  intros Hok Ht Hc. unfold process_format.
  assert (format = OfLong \/ format = OfWide) as [Ef|Ef] by (destruct format; auto); rewrite Ef.
  - apply writer_resolved in Hok. destruct (for_fields_ok
      (fun s name hint v => append_long_row ryu_text other_text s mode false t None name hint v)
      (fun rows s => sink_ok rows wide s) (mkLongRow t None) fd) with (l := names) (dts := dts) (hs := hints)
      (rows := rows) (s := match sk_long s, sk_typed s with
                           | None, None => (long_row_writer s mode false).1 | _, _ => s end)
      as (s' & dts' & Es & Hc' & Hs'); try done.
    + intros rows' s' n h v Hs'. by apply (append_long_row_ok rows' wide s' (mkLongRow t None n h v)).
    + apply hints_length.
    + exists s', dts'. split; [exact Es|]. split; [done|]. unfold sink_ok in *. by rewrite Ef in Hs' |- *.
  - unfold sink_ok in Hok. rewrite Ef in Hok. destruct Hok as (Hl & Hty & Htb & W & c & Hw & Hwok).
    destruct (wide_append_row_ok ryu_text other_text names types false datatypes [] wide c t None fd dts Hwok Ht Hc)
      as (c' & dts' & Ew & Hc' & Hwok').
    unfold process_wide_format. rewrite Hw, Ew. eexists _, _. split; [done|]. split; [done|].
    unfold sink_ok. rewrite Ef. split_and!; try done. by exists c'.
Qed.

(** The state after the entries [es]. *)
Record refdata_ok (es : list E) (st : RefDataState) : Prop := mkRefdataOk {
  rk_names : rd_field_names st = names;
  rk_hints : rd_dtype_hints st = hints;
  rk_format : rd_format st = format;
  rk_mode : rd_long_mode st = mode;
  rk_include : rd_include_security_errors st = include_errors;
  rk_caches : caches_fit names datatypes (rd_datatypes st);
  rk_failed : rd_failed_securities st = concat (entry_failed <$> es);
  rk_meta : rd_meta st = collect m0 es;
  rk_meta_ok : metadata_ok (rd_meta st) /\ type_misses (rd_meta st) = type_misses m0 /\ rm_ids (rd_meta st) = rm_ids m0;
  rk_sinks : sink_ok (concat (entry_rows names hints include_errors <$> es)) (concat (entry_wide names <$> es)) (rd_sinks st)
}.

Lemma concat_snoc {A B} (f : A -> list B) es e : concat (f <$> (es ++ [e])) = concat (f <$> es) ++ f e.
Proof. rewrite fmap_app, concat_app. simpl. by rewrite app_nil_r. Qed.

Lemma refdata_security_ok es st (entry : E) :
  refdata_ok es st -> entry_typed datatypes entry ->
  exists st', refdata_security ryu_text other_text st entry = Some st' /\ refdata_ok (es ++ [entry]) st'.
Proof.
  intros [Kn Kh Kf Km Ki Kc Kfail Kmeta (Kok & Kty & Kids) Ks] Ht. unfold refdata_security.
  destruct (record_frame (rd_meta st) entry Kok) as (Hok' & Hty' & Hids' & Hdiag).
  assert (collect m0 (es ++ [entry]) = (record_security (rd_meta st) (ticker (scan entry)) (scan entry)).1) as Hcol.
  { unfold collect. rewrite fold_left_app. simpl. by rewrite Kmeta. }
  destruct (record_security (rd_meta st) (ticker (scan entry)) (scan entry)) as [m' diag]. cbn [fst snd] in *.
  rewrite Hdiag, Ki, Km, Kn, Kh, Kf.
  assert (forall dts failed xs k s, caches_fit names datatypes dts -> failed = concat (entry_failed <$> (es ++ [entry])) ->
    sink_ok (concat (entry_rows names hints include_errors <$> (es ++ [entry]))) (concat (entry_wide names <$> (es ++ [entry]))) s ->
    refdata_ok (es ++ [entry]) (refdata_set st dts failed xs k s m')) as Hdone.
  { intros dts failed xs k s Hd -> Hs. constructor; simpl; try done. split_and!; congruence. }
  rewrite !concat_snoc in Hdone.
  unfold entry_failed at 2 in Hdone. unfold entry_rows at 2 in Hdone. unfold entry_wide at 2 in Hdone.
  destruct (entry_error (scan entry)) as [err|].
  - rewrite !app_nil_r in Hdone. destruct include_errors.
    + destruct (append_long_row_ok _ _ _ (error_row (ticker (scan entry)) err) Ks) as (s' & Es & Hs').
      unfold append_security_error_row. simpl in Es. rewrite Es. simpl. eexists. split; [done|].
      apply Hdone; [done|by rewrite Kfail|done].
    + cbn [mbind option_bind]. eexists. split; [done|]. rewrite app_nil_r in Hdone.
      apply Hdone; [done|by rewrite Kfail|done].
  - rewrite app_nil_r in Hdone. destruct (if (0 <? field_exception_count diag)%nat then _ else _) as [xs k].
    destruct (sec_field_data (scan entry)) as [fd|] eqn:Hfd.
    + destruct (process_format_ok _ _ _ (rd_datatypes st) (ticker (scan entry)) fd Ks (Ht fd Hfd) Kc)
        as (s' & dts' & -> & Hc' & Hs'). simpl. eexists. split; [done|]. by apply Hdone.
    + eexists. split; [done|]. rewrite !app_nil_r in Hdone. by apply Hdone.
Qed.

Lemma refdata_securities_ok l : forall es st,
  refdata_ok es st -> Forall (entry_typed datatypes) l ->
  exists st', refdata_securities ryu_text other_text st l = Some st' /\ refdata_ok (es ++ l) st'.
Proof.
  induction l as [|e l IH]; intros es st Hok Hl; [exists st; by rewrite app_nil_r|].
  apply Forall_cons in Hl as [He Hl]. destruct (refdata_security_ok es st e Hok He) as (st1 & E1 & Hok1).
  destruct (IH _ _ Hok1 Hl) as (st2 & E2 & Hok2). exists st2. simpl. rewrite E1. split; [done|].
  by rewrite <- (assoc_L (++)) in Hok2.
Qed.

Lemma reserve_ok rows wide s : sink_ok rows wide s -> sink_ok rows wide (reserve s format mode).
Proof.
  unfold sink_ok, reserve. intros Hok. destruct format; [|done]. destruct mode; try done.
  destruct Hok as [Hl Ht]. rewrite Ht. split; [done|]. simpl. unfold reserve_if_empty. by destruct rows.
Qed.

Lemma refdata_message_ok es st (root : E) :
  refdata_ok es st -> Forall (entry_typed datatypes) (entries_of root) ->
  exists st', refdata_process_message ryu_text other_text st root = Some st'
    /\ refdata_ok (es ++ entries_of root) st'.
Proof.
  intros Hok Ht. unfold refdata_process_message, entries_of in *.
  destruct (e_get root "securityData") as [sd|]; simpl in *; [|exists st; by rewrite app_nil_r].
  apply refdata_securities_ok; [|done]. destruct Hok as [Kn Kh Kf Km Ki Kc Kfail Kmeta Kok Ks].
  constructor; simpl; try done. rewrite Kf, Km. by apply reserve_ok.
Qed.

Lemma hinted_columns : related (map_fold (fun n t cs => set_type_hint cs n t) column_set_new types)
                         (mkTable [] ∅ [] types).
Proof.
  apply (map_fold_weak_ind (fun cs hs => related cs (mkTable [] ∅ [] hs))); [apply related_new|].
  intros n t hs cs _ R. exact (hint_related _ _ _ _ n t R).
Qed.

Lemma sinks_new_ok : sink_ok [] [] (sinks_new names types format mode false).
Proof.
  unfold sink_ok, sinks_new. destruct format.
  - destruct mode; simpl; [done| |done]. split_and!; try done. apply hinted_columns.
  - simpl. destruct mode; simpl; (split_and!; try done); first [by exists table_new; split; [apply related_new|]|
      eexists; split; [done|]; apply wide_new_ok].
Qed.

Lemma refdata_new_ok st :
  st = refdata_with_format names format mode (Some types) include_errors -> metadata_ok m0 ->
  refdata_ok [] (refdata_set st (rd_datatypes st) [] ∅ 0 (rd_sinks st) m0).
Proof.
  intros -> Hm. constructor; simpl; try done; [|apply sinks_new_ok].
  unfold caches_fit. apply Forall2_same_length_lookup_2; [by rewrite length_replicate|].
  intros i n dt _ [-> _]%lookup_replicate. by left.
Qed.
End Processing.

(** ** Answers *)

Section Answered.
Context {Col : Type} `{AL : ArrowLaws Col} `{AB : ArrowBuild Col} `{!ArrowBuildLaws Col}.
Context `{LE : JsonLaws (gmap string (list Z))} `{LS : JsonLaws (gmap string SecurityErrorMeta)}.
Context `{LD : JsonLaws (gmap string DelayedMeta)} `{LM : JsonLaws (gmap string Z)}.
Context `{LX : ExceptionsJsonLaws}.
Variable ids_to_json : list string -> string.
Variable ids_from_json : string -> option (list string).
Hypothesis ids_json : forall l, ids_from_json (ids_to_json l) = Some l.
Context {E : Type} `{SL : SdkScalarLaws E} `{CS : ChronoStamp}.
Variables ryu_text other_text : spec_float -> string.
Variables (names : list string) (types : gmap string ArrowType).
Variables (format : OutputFormat) (mode : LongMode) (include_errors : bool).
Variable datatypes : string -> DataType.
Variable hidden : option (list string).

Local Abbreviation sink_ok := (sink_ok ryu_text other_text names types format mode).
Local Abbreviation layout := (layout ryu_text other_text names types mode).
Local Abbreviation reading := (reading ids_from_json).
Local Abbreviation refdata_batch := (refdata_batch (Col := Col) ids_to_json).
Local Abbreviation hints := (field_dtype_hints names types).

(** The rejected values of a column, as the layout counts them. *)
Definition row_misses (rows : list LongRow) (n : string) : Z :=
  match mode with
  | LmString => long_rejected ryu_text other_text names types rows n
  | LmWithMetadata => rejected ryu_text other_text (meta_table other_text types rows) n
  | LmTyped => 0
  end.

Definition counted (misses : gmap string Z) (n : string) (k : Z) : Prop :=
  misses !! n = if decide (k = 0) then None else Some (wrap_u 64 k).

Definition layout_field (c : LayoutColumn) : Field := nullable_field (lc_name c) (lc_type c).
Definition layout_array (rows : list LongRow) (c : LayoutColumn) : Col := array_of (lc_type c) (lc_cell c <$> rows).

(** The batch has the rows in the layout asked for. *)
Definition long_content (rows : list LongRow) (b : ArrowBatch Col) (misses : gmap string Z) : Prop :=
  fields (b_schema b) = layout_field <$> layout
  /\ b_columns b = layout_array rows <$> layout
  /\ b_rows b = length rows
  /\ forall n, counted misses n (row_misses rows n).

Definition wide_content (rows : list WideRow) (b : ArrowBatch Col) (misses : gmap string Z) : Prop :=
  fields (b_schema b) = chunk_fields names types false [] rows
  /\ b_columns b = chunk_columns ryu_text other_text names types false [] rows
  /\ b_rows b = length rows
  /\ forall j n, names !! j = Some n ->
       let k := chunk_misses ryu_text other_text types [] rows j n in
       misses !! n = if 0 <? k then Some k else None.

Lemma layout_fits rows (l : list LayoutColumn) :
  Forall2 (column_fits (length rows)) (layout_field <$> l) (layout_array rows <$> l).
Proof.
  apply Forall2_fmap, Forall_Forall2_diag, Forall_forall. intros c _. apply nullable_fits, length_fmap.
Qed.

Lemma long_batch_ok rows wide st :
  format = OfLong -> rd_format st = format -> rd_long_mode st = mode -> sink_ok rows wide (rd_sinks st) ->
  exists b misses, refdata_batch st = Some (Ok b) /\ long_content rows b misses
    /\ reading b = mkReading ∅ ∅ ∅ ∅ misses [].
Proof.
  intros Ef Hf Hm Hs. unfold Extractors.refdata_batch, Refdata.sink_ok, long_content, row_misses in *. rewrite Hf, Hm, Ef in *.
  destruct mode.
  - rewrite Hs. unfold long_finish_refdata.
    destruct (try_build_ok ids_to_json ids_from_json ids_json "build long ReferenceData RecordBatch"
      (long_misses ryu_text other_text names types rows) (layout_field <$> Refdata.layout ryu_text other_text names types LmString)
      (layout_array rows <$> Refdata.layout ryu_text other_text names types LmString) (length rows))
      as (b & Hb & Hfl & Hc & Hr & Hread); [done|apply layout_fits| |].
    { rewrite long_misses_frame. split; [split; [constructor|apply map_Forall_empty]|constructor]. }
    exists b, (type_misses (long_misses ryu_text other_text names types rows)). split_and!; try done.
    + etrans; [|exact Hb]. unfold str_array. simpl. by rewrite <- !list_fmap_compose.
    + intros n. apply long_misses_lookup.
    + rewrite Hread, long_misses_frame. done.
  - destruct Hs as (_ & _ & R & _). destruct rows as [|r rows].
    + destruct (finish_unwritten ids_to_json ids_from_json ryu_text other_text (sk_columns (rd_sinks st)) _
        ["ticker"; "field"; "value"; "dtype"]%string R) as (_ & b & Hb & Hr & Hc & Hfl & Hread); [done|done|].
      exists b, ∅. split_and!; try done.
    + destruct (finish_related ids_to_json ids_from_json ids_json ryu_text other_text (sk_columns (rd_sinks st)) _
        ["ticker"; "field"; "value"; "dtype"]%string R) as (b & misses & Hb & Hfl & Hc & Hr & Hread & Hm'); [done|done|].
      exists b, misses. split_and!; try done.
      * rewrite Hc. unfold column_array, column_cells. simpl. by rewrite <- !list_fmap_compose.
      * rewrite Hr. simpl. by rewrite length_fmap.
  - destruct Hs as [_ Ht]. rewrite Ht. simpl. unfold typed_finish.
    assert (try_new (mkSchema (layout_field <$> Refdata.layout ryu_text other_text names types LmTyped) ∅)
              (layout_array rows <$> Refdata.layout ryu_text other_text names types LmTyped)
            = Ok (mkArrowBatch (mkSchema (layout_field <$> Refdata.layout ryu_text other_text names types LmTyped) ∅)
                    (layout_array rows <$> Refdata.layout ryu_text other_text names types LmTyped) (length rows))) as Hb.
    { apply try_new_ok; [done|]. unfold fits. apply layout_fits. }
    eexists _, ∅. split; [|split].
    + f_equal. etrans; [apply (f_equal (result_map_err _)); etrans; [|exact Hb]|done].
      unfold str_array, date_array, cells. simpl. by rewrite <- !list_fmap_compose.
    + split_and!; try done.
    + unfold Metadata.reading. simpl. by rewrite !lookup_empty.
Qed.

Lemma wide_batch_ok rows wide st :
  format = OfWide -> rd_format st = format -> NoDup names -> sink_ok rows wide (rd_sinks st) ->
  exists b misses, refdata_batch st = Some (Ok b) /\ wide_content wide b misses
    /\ reading b = mkReading ∅ ∅ ∅ ∅ misses [].
Proof.
  intros Ef Hf Hnd Hs. unfold Extractors.refdata_batch, Refdata.sink_ok in *. rewrite Hf, Ef in *.
  destruct Hs as (_ & _ & _ & _ & c & Hc & Hok). rewrite Hc.
  destruct (wide_finish_ok ids_to_json ids_from_json ids_json ryu_text other_text names types false [] wide c Hok Hnd)
    as (c' & b & -> & _ & Hfl & Hcol & Hr & misses & Hread & Hm).
  exists b, misses. by split_and!.
Qed.

Definition start_meta : ResponseMetadata :=
  match hidden with Some h => capture_delayed metadata_default h | None => metadata_default end.

Definition start_state : RefDataState :=
  let st := refdata_with_format names format mode (Some types) include_errors in
  match hidden with Some h => refdata_capture_delayed st h | None => st end.

Local Abbreviation refdata_ok :=
  (refdata_ok ryu_text other_text names types format mode include_errors datatypes start_meta).

Hypothesis planned : format = OfWide -> mode <> LmTyped /\ NoDup names.

Lemma planned_mode : format = OfWide -> mode <> LmTyped.
Proof. intros Hf. by destruct (planned Hf). Qed.

Lemma start_ok : refdata_ok ([] : list E) start_state.
Proof.
  pose proof (refdata_new_ok (E := E) ryu_text other_text names types format mode include_errors datatypes start_meta
                planned_mode _ eq_refl) as Hok.
  unfold start_state, start_meta in *. destruct hidden; apply Hok;
    (split; [split; [constructor|apply map_Forall_empty]|constructor]).
Qed.

Definition row_count (rows : list LongRow) (wide : list WideRow) : nat :=
  match format with OfLong => length rows | OfWide => length wide end.

Lemma sink_row_count rows wide s : sink_ok rows wide s -> sinks_row_count s format = row_count rows wide.
Proof.
  unfold Refdata.sink_ok, sinks_row_count, row_count. destruct format.
  - destruct mode; [by intros ->| |by intros [-> ->]]. intros (-> & -> & R & _).
    rewrite (rel_count _ _ _ _ R). apply length_fmap.
  - intros (_ & _ & _ & _ & c & -> & Hw). apply Hw.
Qed.

(** The diagnostics of a response, and the rejected values of the batch. *)
Definition answer_reading (es : list E) (misses : gmap string Z) : Reading :=
  let m := meaning (collect start_meta es) in
  mkReading (r_eids m) (r_errors m) (r_exceptions m) (r_delayed m) misses [].

Definition content (rows : list LongRow) (wide : list WideRow) (b : ArrowBatch Col) (misses : gmap string Z) : Prop :=
  match format with OfLong => long_content rows b misses | OfWide => wide_content wide b misses end.

(** The reply to a final message that is not a rejection. *)
Lemma refdata_finish_ok es st (final : E) :
  refdata_ok es st -> Forall (entry_typed datatypes) (entries_of final) ->
  top_level_response_error final "//blp/refdata" "ReferenceDataRequest" = None ->
  let all := es ++ entries_of final in
  let rows := concat (entry_rows names hints include_errors <$> all) in
  let wide := concat (entry_wide names <$> all) in
  let failed := concat (entry_failed <$> all) in
  if (row_count rows wide =? 0)%nat && negb (bool_decide (failed = [])) then
    refdata_finish (Col := Col) ids_to_json ryu_text other_text st final
    = Some (Err (all_failed "ReferenceDataRequest" failed))
  else exists b misses, refdata_finish ids_to_json ryu_text other_text st final = Some (Ok b)
         /\ content rows wide b misses /\ reading b = answer_reading all misses.
Proof.
  intros Hok Ht Hte. cbv zeta. unfold refdata_finish. rewrite Hte.
  destruct (refdata_message_ok _ _ _ _ _ _ _ _ _ planned_mode es st final Hok Ht) as (st' & -> & Hok').
  destruct Hok' as [Kn Kh Kf Km Ki Kc Kfail Kmeta (Kok & Kty & Kids) Ks]. cbn [mbind option_bind].
  rewrite Kf, (sink_row_count _ _ _ Ks), Kfail. destruct (_ && _); [done|].
  assert (exists b misses, refdata_batch st' = Some (Ok b)
            /\ content (concat (entry_rows names hints include_errors <$> (es ++ entries_of final)))
                 (concat (entry_wide names <$> (es ++ entries_of final))) b misses
            /\ reading b = mkReading ∅ ∅ ∅ ∅ misses []) as (b & misses & Hb & Hcon & Hread).
  { assert (format = OfLong \/ format = OfWide) as [Ef|Ef] by (destruct format; auto); unfold content; rewrite Ef.
    - by eapply long_batch_ok.
    - eapply wide_batch_ok; try done. by apply planned. }
  unfold map_attach. rewrite Hb. cbn [mbind option_bind].
  destruct (attach_reading ids_to_json ids_from_json ids_json (rd_meta st') b Kok) as (b' & -> & Hc' & Hr' & Hf' & Hread').
  assert (type_misses (rd_meta st') = ∅ /\ rm_ids (rd_meta st') = []) as [Em Ei]
    by (rewrite Kty, Kids; unfold start_meta; by destruct hidden).
  exists b', misses. split; [done|]. split.
  - unfold content, long_content, wide_content in *. by rewrite Hc', Hr', Hf'.
  - rewrite Hread', Hread, Em, Ei. unfold answer_reading. rewrite <- Kmeta. simpl. by rewrite !kept_fresh, kept_none.
Qed.

(** Partial messages add their entries. *)
Lemma refdata_partials partials (final : E) : forall es st,
  refdata_ok es st -> Forall (entry_typed datatypes) (concat (entries_of <$> partials)) ->
  exists st', refdata_ok (es ++ concat (entries_of <$> partials)) st'
    /\ refdata_run (Col := Col) ids_to_json ryu_text other_text st partials final
       = refdata_finish ids_to_json ryu_text other_text st' final.
Proof.
  induction partials as [|root partials IH]; intros es st Hok Ht; [exists st; by rewrite app_nil_r|].
  simpl in Ht. apply Forall_app in Ht as [Hr Ht].
  destruct (refdata_message_ok _ _ _ _ _ _ _ _ _ planned_mode es st root Hok Hr) as (st1 & E1 & Hok1).
  destruct (IH _ st1 Hok1 Ht) as (st2 & Hok2 & Hrun). exists st2. simpl. rewrite E1. simpl.
  by rewrite (assoc_L (++)).
Qed.

(** C14: The answer to a reference request is the requested table.  However its entries are
    split into messages, and whatever types were cached on the way: a rejected request
    fails with the rejection; when there is no row and securities failed, the request
    fails naming them in order; otherwise the batch has, in the layout asked for, a row per
    security and requested field (or one row per security in the wide layout) in the
    order of the response, an error row per failed security where these are asked for and
    the layout is long, and the diagnostics of every security with the rejected values. *)
Theorem refdata_answer_exact (partials : list E) final :
  let all := concat (entries_of <$> partials) ++ entries_of final in
  let rows := concat (entry_rows names hints include_errors <$> all) in
  let wide := concat (entry_wide names <$> all) in
  let failed := concat (entry_failed <$> all) in
  let answer := refdata_run (Col := Col) ids_to_json ryu_text other_text start_state partials final in
  Forall (entry_typed datatypes) all ->
  match top_level_response_error final "//blp/refdata" "ReferenceDataRequest" with
  | Some e => answer = Some (Err e)
  | None =>
      if (row_count rows wide =? 0)%nat && negb (bool_decide (failed = []))
      then answer = Some (Err (all_failed "ReferenceDataRequest" failed))
      else exists b misses, answer = Some (Ok b)
             /\ content rows wide b misses /\ reading b = answer_reading all misses
  end.
Proof.
  cbv zeta. intros [Hp Hf]%Forall_app. destruct (refdata_partials partials final [] start_state start_ok Hp)
    as (st & Hok & ->).
  destruct (top_level_response_error final _ _) as [e|] eqn:Hte; [unfold refdata_finish; by rewrite Hte|].
  exact (refdata_finish_ok _ _ _ Hok Hf Hte).
Qed.
End Answered.

Section Examples.
Import Codec Concrete SimpleBuild ConcreteScalars.
Local Open Scope string_scope.

Definition ref_entry (security : string) (price : Z) : Tree :=
  TSequence "securityData"
    [TValues "security" [SStr security];
     TSequence "fieldData" [TValues "PX_LAST" [SInt price]; TValues "NAME" [SStr security]]].

Definition failed_entry (security : string) : Tree :=
  TSequence "securityData"
    [TValues "security" [SStr security]; TSequence "securityError" [TValues "category" [SStr "BAD_SEC"]]].

Definition ref_message (entries : list Tree) : Tree := TSequence "root" [TArray "securityData" entries].

Lemma ref_entry_typed security price : entry_typed sample_types (ref_entry security price).
Proof. intros fd [= <-]. apply typed_children. repeat constructor. Qed.

Lemma failed_entry_typed security : entry_typed sample_types (failed_entry security).
Proof. by intros fd [=]. Qed.

(** Two securities in two messages, one of which failed, with metadata rows. *)
Lemma refdata_answer_exact_witness :
  exists b, refdata_run (Col := SimpleCol) ids_text some_text some_text
              (start_state ["PX_LAST"; "NAME"] ∅ OfLong LmWithMetadata true None)
              [ref_message [ref_entry "SYN_A" 7]] (ref_message [failed_entry "SYN_B"])
            = Some (Ok b) /\ b_rows b = 3%nat.
Proof.
  pose proof (refdata_answer_exact (Col := SimpleCol) ids_text text_ids text_ids_text some_text some_text
    ["PX_LAST"; "NAME"] ∅ OfLong LmWithMetadata true sample_types None ltac:(discriminate)
    [ref_message [ref_entry "SYN_A" 7]] (ref_message [failed_entry "SYN_B"])) as Hx.
  destruct Hx as (b & misses & Hb & (_ & _ & Hr & _) & _).
  { constructor; [apply ref_entry_typed|]. constructor; [apply failed_entry_typed|constructor]. }
  exists b. split; [exact Hb|exact Hr].
Defined.

(** In the wide layout the row of a failed security is not part of the answer. *)
Example wide_drops_error_rows :
  refdata_run (Col := SimpleCol) ids_text some_text some_text
    (start_state ["PX_LAST"] ∅ OfWide LmString true None) [] (ref_message [failed_entry "SYN_B"])
  = Some (Err (all_failed "ReferenceDataRequest" ["SYN_B"])).
Proof. vm_compute. reflexivity. Qed.
End Examples.
