(* ===== verification/Bulk.v ===== *)
(** * Bulk answers

    [BulkDataState] of [engine/state/bulkdata.rs]: the rows of an array field are
    written to a column set, a column per sub-field in the order they are first seen.
    The answer is proved to be the table of those rows when no sub-field has the name of
    one of the two columns the extractor writes itself; a sub-field of such a name
    makes the request fail. *)

From Stdlib Require Import Ascii String ZArith Lia SpecFloat.
From S2P Require Import Prelude Errors Update Decoder Plan Schema Diagnostics Pool Metadata.
From S2P Require Import ShardMerge Calendar Columns Extract Extractors Refdata.
Local Open Scope Z_scope.

(** Array entries by index, and whether an element is an array. *)
Class SdkArrays (E : Type) := {
  e_element : E -> nat -> option E;
  e_is_array : E -> bool
}.

Definition arrow_type_for_element (t : DataType) : ArrowType :=
  match t with
  | DtBool => ATBool
  | DtChar | DtByte | DtInt32 => ATInt32
  | DtInt64 => ATInt64
  | DtFloat32 | DtFloat64 | DtDecimal => ATFloat64
  | DtString | DtEnumeration => ATString
  | DtDate => ATDate32
  | DtTime => ATTime64Micros
  | DtDatetime => ATTimestampMicros
  | DtSequence | DtChoice | DtByteArray | DtCorrelationId => ATString
  end.

Record BulkSubfield : Type := mkSubfield {
  bs_name : string;
  bs_slot : nat;
  bs_last_row : option nat
}.

Record BulkDataState : Type := mkBulk {
  bk_field_name : string;
  bk_columns : ColumnSet;
  bk_ticker_slot : nat;
  bk_field_slot : nat;
  bk_subfields : list BulkSubfield;
  bk_index_by_key : gmap string nat;
  bk_meta : ResponseMetadata
}.

Definition bulk_new (field : string) : BulkDataState :=
  let '(cs, ticker_slot) := slot column_set_new "ticker" in
  let '(cs, field_slot) := slot cs "field" in
  mkBulk field cs ticker_slot field_slot [] ∅ metadata_default.

Definition bulk_set (st : BulkDataState) (cs : ColumnSet) (subfields : list BulkSubfield)
  (index : gmap string nat) : BulkDataState :=
  mkBulk (bk_field_name st) cs (bk_ticker_slot st) (bk_field_slot st) subfields index (bk_meta st).

Definition bulk_set_meta (st : BulkDataState) (m : ResponseMetadata) : BulkDataState :=
  mkBulk (bk_field_name st) (bk_columns st) (bk_ticker_slot st) (bk_field_slot st) (bk_subfields st)
    (bk_index_by_key st) m.

Section Bulk.
Context {E : Type} `{Sdk E} `{SdkScalars E} `{SdkArrays E} `{ChronoStamp}.
Variables ryu_text other_text : spec_float -> string.

(** [children()], which ends where the SDK rejects an index. *)
Fixpoint children_from (e : E) (i n : nat) : list E :=
  match n with
  | O => []
  | S n => match e_get_at e i with Some c => c :: children_from e (S i) n | None => [] end
  end.

Definition children (e : E) : list E := children_from e 0 (e_num_children e).

Definition resolve_subfield_index (st : BulkDataState) (child : E) : BulkDataState * nat :=
  match bk_index_by_key st !! e_name child with
  | Some i => (st, i)
  | None =>
      let name := e_name child in
      let i := length (bk_subfields st) in
      let cs := set_type_hint (bk_columns st) name (arrow_type_for_element (e_datatype child)) in
      let '(cs, s) := slot cs name in
      (bulk_set st cs (bk_subfields st ++ [mkSubfield name s None]) (<[name := i]> (bk_index_by_key st)), i)
  end.

(** One child of the loop of [append_row_subfields]; [None] is a panic. *)
Definition append_subfield (row_number : nat) (st : BulkDataState) (child : E) : option BulkDataState :=
  if e_is_array child then Some st
  else if negb (has_scalar_value (e_datatype child)) then Some st
  else
    let '(st, i) := resolve_subfield_index st child in
    subfield ← bk_subfields st !! i;
    if bool_decide (bs_last_row subfield = Some row_number) then Some st
    else
      let subfields := <[i := mkSubfield (bs_name subfield) (bs_slot subfield) (Some row_number)]> (bk_subfields st) in
      cs ← append_opt_slot ryu_text other_text (bk_columns st) (bs_slot subfield)
             (get_value_with_datatype child (e_datatype child));
      Some (bulk_set st cs subfields (bk_index_by_key st)).

Fixpoint append_subfields (row_number : nat) (st : BulkDataState) (l : list E) : option BulkDataState :=
  match l with [] => Some st | c :: l => st ← append_subfield row_number st c; append_subfields row_number st l end.

Definition append_row_subfields (st : BulkDataState) (row : E) : option BulkDataState :=
  append_subfields (cs_row_count (bk_columns st)) st (children row).

(** One row of the bulk field. *)
Definition bulk_row (st : BulkDataState) (t : string) (row : E) : option BulkDataState :=
  let set cs := bulk_set st cs (bk_subfields st) (bk_index_by_key st) in
  cs ← append_str_slot ryu_text other_text (bk_columns st) (bk_ticker_slot st) t;
  cs ← append_str_slot ryu_text other_text cs (bk_field_slot st) (bk_field_name st);
  st ← append_row_subfields (set cs) row;
  Some (bulk_set st (end_row (bk_columns st)) (bk_subfields st) (bk_index_by_key st)).

Fixpoint bulk_rows (st : BulkDataState) (t : string) (l : list E) : option BulkDataState :=
  match l with [] => Some st | row :: l => st ← bulk_row st t row; bulk_rows st t l end.

(** The entries [get_element] gives, in order of their index. *)
Definition elements (e : E) : list E := omap (e_element e) (seq 0 (e_len e)).

Definition bulk_security (st : BulkDataState) (entry : E) : option BulkDataState :=
  let security := scan entry in
  let t := ticker security in
  let '(m, diagnostics) := record_security (bk_meta st) t security in
  let st := bulk_set_meta st m in
  match diag_security_error diagnostics with
  | Some _ => Some st
  | None =>
      match sec_field_data security ≫= (fun fd => e_get fd (bk_field_name st)) with
      | None => Some st
      | Some bulk_field => bulk_rows st t (elements bulk_field)
      end
  end.

Fixpoint bulk_securities (st : BulkDataState) (l : list E) : option BulkDataState :=
  match l with [] => Some st | e :: l => st ← bulk_security st e; bulk_securities st l end.

Definition bulk_process_message (st : BulkDataState) (root : E) : option BulkDataState :=
  match e_get root "securityData" with
  | None => Some st
  | Some security_data => bulk_securities st (elements security_data)
  end.

Context {Col : Type} `{ArrowOps Col} `{ArrowBuild Col}.
Context `{JE : Json (gmap string (list Z))} `{JS : Json (gmap string SecurityErrorMeta)}.
Context `{JD : Json (gmap string DelayedMeta)} `{JM : Json (gmap string Z)}.
Context `{EX : ExceptionsJson}.
Variable ids_to_json : list string -> string.

(** The reply; [None] is a panic. *)
Definition bulk_finish (st : BulkDataState) (root : E) : option (result (ArrowBatch Col) BlpError) :=
  match top_level_response_error root "//blp/refdata" "ReferenceDataRequest" with
  | Some error => Some (Err error)
  | None =>
      st ← bulk_process_message st root;
      map_attach ids_to_json (bk_meta st)
        (finish_with_order ids_to_json (bk_columns st)
           ("ticker" :: "field" :: (bs_name <$> bk_subfields st))%string)
  end.

Fixpoint bulk_run (st : BulkDataState) (partials : list E) (final : E)
  : option (result (ArrowBatch Col) BlpError) :=
  match partials with
  | [] => bulk_finish st final
  | root :: partials => st ← bulk_process_message st root; bulk_run st partials final
  end.
End Bulk.

(** ** The rows of a response *)

Lemma first_occurrences_elem l n : n ∈ first_occurrences l <-> n ∈ l.
Proof.
  induction l as [|m l IH]; [done|]. simpl. rewrite !elem_of_cons, list_elem_of_filter, IH.
  destruct (decide (n = m)); naive_solver.
Qed.

Lemma first_occurrences_snoc l n :
  first_occurrences (l ++ [n]) = if decide (n ∈ l) then first_occurrences l else first_occurrences l ++ [n].
Proof.
  induction l as [|m l IH]; [done|]. simpl. rewrite IH. destruct (decide (n = m)) as [->|Hn].
  - rewrite (decide_True (P := m ∈ m :: l)) by (by left). case_decide; [done|]. f_equal.
    rewrite filter_app, filter_cons, decide_False, filter_nil, app_nil_r by tauto. done.
  - case_decide as Hl.
    + by rewrite (decide_True (P := n ∈ m :: l)) by (by right).
    + rewrite (decide_False (P := n ∈ m :: l)) by (by rewrite elem_of_cons; intros [?|?]).
      by rewrite filter_app, filter_cons, decide_True, filter_nil.
Qed.

Lemma first_occurrences_nodup l : NoDup (first_occurrences l).
Proof.
  induction l as [|m l IH]; simpl; constructor.
  - rewrite list_elem_of_filter. tauto.
  - by apply NoDup_filter.
Qed.

Section Table.
Context {E : Type} `{SL : SdkScalarLaws E} `{SdkArrays E} `{CS : ChronoStamp}.
Variables ryu_text other_text : spec_float -> string.
Variable field : string.

Definition is_scalar (c : E) : bool := negb (e_is_array c) && has_scalar_value (e_datatype c).

(** A row: its security and its scalar children. *)
Abbreviation BulkRow := (string * list E)%type.

Definition seen (rows : list BulkRow) : list E := concat rows.*2.

Definition subfields (l : list E) : list string := first_occurrences (e_name <$> l).

Definition child_named (n : string) (l : list E) : option E := List.find (fun c => bool_decide (e_name c = n)) l.

(** The type of the first child of the name. *)
Definition subfield_type (l : list E) (n : string) : ArrowType :=
  from_option (fun c => arrow_type_for_element (e_datatype c)) ATString (child_named n l).

Definition row_value (n : string) (r : BulkRow) : option Value := child_named n r.2 ≫= fun c => get_value c 0.

Definition base_row (t : string) : gmap string (option Value) :=
  <["field" := Some (BString field)]> (<["ticker" := Some (BString t)]> ∅)%string.

Definition row_map (r : BulkRow) : gmap string (option Value) :=
  fold_left (fun m c => match m !! e_name c with
                        | Some _ => m
                        | None => <[e_name c := get_value c 0]> m
                        end) r.2 (base_row r.1).

Lemma row_map_snoc t l c :
  row_map (t, l ++ [c])
  = match row_map (t, l) !! e_name c with
    | Some _ => row_map (t, l)
    | None => <[e_name c := get_value c 0]> (row_map (t, l))
    end.
Proof. unfold row_map. simpl. by rewrite fold_left_app. Qed.

Lemma child_named_snoc n l c :
  child_named n (l ++ [c])
  = match child_named n l with
    | Some x => Some x
    | None => if decide (e_name c = n) then Some c else None
    end.
Proof.
  unfold child_named. induction l as [|d l IH]; simpl.
  - by case_bool_decide; case_decide.
  - by destruct (bool_decide (e_name d = n)).
Qed.

Lemma child_named_None n l : child_named n l = None <-> n ∉ e_name <$> l.
Proof.
  unfold child_named. induction l as [|d l IH]; [split; [by intros _ ?%elem_of_nil|done]|].
  rewrite fmap_cons, elem_of_cons. simpl. case_bool_decide; naive_solver.
Qed.

(** Names of the columns the extractor writes itself are not used by sub-fields. *)
Definition unreserved (c : E) : Prop := e_name c <> "ticker"%string /\ e_name c <> "field"%string.

Lemma row_map_lookup t l n :
  n <> "ticker"%string -> n <> "field"%string ->
  row_map (t, l) !! n = (fun c => get_value c 0) <$> child_named n l.
Proof.
  intros Ht Hf. induction l as [|c l IH] using rev_ind.
  - unfold row_map, base_row. simpl. by rewrite !lookup_insert_ne.
  - rewrite row_map_snoc, child_named_snoc. destruct (decide (e_name c = n)) as [<-|Hn].
    + rewrite IH. destruct (child_named (e_name c) l); simpl; [by rewrite IH|]. by rewrite lookup_insert_eq.
    + assert (forall o : option (option Value),
                match o with
                | Some _ => row_map (t, l)
                | None => <[e_name c := get_value c 0]> (row_map (t, l))
                end !! n = row_map (t, l) !! n) as -> by (intros []; by rewrite ?lookup_insert_ne).
      rewrite IH. by destruct (child_named n l).
Qed.

(** *** The relation *)

Definition here (cur : option BulkRow) : list E := from_option snd [] cur.

Definition table_columns (rows : list BulkRow) (cur : option BulkRow) : list (string * ArrowType) :=
  match rows, cur with
  | [], None => []
  | _, _ => ("ticker", ATString) :: ("field", ATString)
              :: ((fun n => (n, subfield_type (seen rows ++ here cur) n)) <$> subfields (seen rows ++ here cur))
  end%string.

(** The state holds the rows, the children written in the current one, and the sub-fields
    of the children known so far. *)
Record bulk_rel (rows : list BulkRow) (cur : option BulkRow) (known : list E) (st : BulkDataState) (tb : Table)
  : Prop := mkBulkRel {
  br_related : related ryu_text other_text (bk_columns st) tb;
  br_rows : t_rows tb = row_map <$> rows;
  br_cur : t_current tb = from_option row_map ∅ cur;
  br_cols : t_columns tb = table_columns rows cur;
  br_hints : forall n, t_hints tb !! n
    = if decide (n ∈ e_name <$> known) then Some (subfield_type known n) else None;
  br_subs : bs_name <$> bk_subfields st = subfields known;
  br_slots : Forall (fun s => slot_named (bk_columns st) (bs_slot s) (bs_name s)) (bk_subfields st);
  br_last : Forall (fun s => (bs_last_row s = Some (length rows) <-> bs_name s ∈ e_name <$> here cur)
                            /\ forall r, bs_last_row s = Some r -> (r <= length rows)%nat) (bk_subfields st);
  br_index : forall n i, bk_index_by_key st !! n = Some i <-> subfields known !! i = Some n;
  br_ticker : slot_named (bk_columns st) (bk_ticker_slot st) "ticker";
  br_field : slot_named (bk_columns st) (bk_field_slot st) "field";
  br_name : bk_field_name st = field;
  br_known : forall n, n ∈ e_name <$> (seen rows ++ here cur) -> n ∈ e_name <$> known
}.

Lemma names_snoc n (l : list E) c : n ∈ e_name <$> (l ++ [c]) <-> n ∈ e_name <$> l \/ n = e_name c.
Proof. by rewrite fmap_app, elem_of_app, fmap_cons, list_elem_of_singleton. Qed.

Lemma subfields_snoc l c :
  subfields (l ++ [c]) = if decide (e_name c ∈ e_name <$> l) then subfields l else subfields l ++ [e_name c].
Proof. unfold subfields. rewrite fmap_app. apply first_occurrences_snoc. Qed.

Lemma subfield_type_snoc l c n :
  n ∈ e_name <$> l -> subfield_type (l ++ [c]) n = subfield_type l n.
Proof.
  intros Hn. unfold subfield_type. rewrite child_named_snoc.
  destruct (child_named n l) eqn:E1; [done|]. by apply child_named_None in E1.
Qed.

Lemma subfield_type_new l c :
  e_name c ∉ e_name <$> l -> subfield_type (l ++ [c]) (e_name c) = arrow_type_for_element (e_datatype c).
Proof.
  intros Hn%child_named_None. unfold subfield_type. rewrite child_named_snoc, Hn. by rewrite decide_True.
Qed.

Lemma hint_snoc l c n :
  (if decide (n ∈ e_name <$> (l ++ [c])) then Some (subfield_type (l ++ [c]) n) else None)
  = if decide (n ∈ e_name <$> l) then Some (subfield_type l n)
    else if decide (n = e_name c) then Some (arrow_type_for_element (e_datatype c)) else None.
Proof.
  destruct (decide (n ∈ e_name <$> l)) as [Hl|Hl].
  - rewrite decide_True by (apply names_snoc; by left). by rewrite subfield_type_snoc.
  - destruct (decide (n = e_name c)) as [->|Hn].
    + rewrite decide_True by (apply names_snoc; by right). by rewrite subfield_type_new.
    + rewrite decide_False; [done|]. rewrite names_snoc. by intros [?|?].
Qed.

Lemma resolve_ok rows t l known st tb c :
  bulk_rel rows (Some (t, l)) known st tb ->
  exists st1 i tb1 s, resolve_subfield_index st c = (st1, i)
    /\ bulk_rel rows (Some (t, l)) (known ++ [c]) st1 tb1 /\ bk_meta st1 = bk_meta st
    /\ bk_subfields st1 !! i = Some s /\ bs_name s = e_name c.
Proof.
  intros [Kr Kro Kcu Kco Kh Ks Ksl Kla Kix Kt Kf Kn Kk]. unfold resolve_subfield_index.
  destruct (bk_index_by_key st !! e_name c) as [i|] eqn:Hi.
  - apply Kix in Hi. assert (e_name c ∈ e_name <$> known) as Hk.
    { apply first_occurrences_elem. by eapply list_elem_of_lookup_2. }
    pose proof Hi as Hs. rewrite <- Ks, list_lookup_fmap in Hs. apply fmap_Some in Hs as (s & Hs & Hn).
    exists st, i, tb, s. split; [done|]. split; [|done].
    assert (subfields (known ++ [c]) = subfields known) as Esub by (by rewrite subfields_snoc, decide_True).
    constructor; rewrite ?Esub; try done.
    + intros n. rewrite Kh, hint_snoc. destruct (decide (n ∈ e_name <$> known)); [done|].
      by rewrite decide_False by (by intros ->).
    + intros n Hin%Kk. rewrite fmap_app, elem_of_app. by left.
  - assert (e_name c ∉ e_name <$> known) as Hk.
    { intros Hin%first_occurrences_elem. apply list_elem_of_lookup in Hin as [i Hin]. apply Kix in Hin. congruence. }
    pose proof (hint_related _ _ _ _ (e_name c) (arrow_type_for_element (e_datatype c)) Kr) as R1.
    destruct (slot _ (e_name c)) as [cs j] eqn:Hsl.
    destruct (resolve_slot _ _ _ _ _ _ _ R1 Hsl) as (R2 & N2 & K2).
    assert (length (bk_subfields st) = length (subfields known)) as Hlen by (rewrite <- Ks; by rewrite length_fmap).
    eexists _, _, _, _. split; [done|]. split; [|split; [done|]].
    + assert (subfields (known ++ [c]) = subfields known ++ [e_name c]) as Esub by (by rewrite subfields_snoc, decide_False).
      constructor; rewrite ?Esub; simpl; try done.
      * intros n. rewrite hint_snoc. simpl. destruct (decide (n = e_name c)) as [->|Hn].
        -- by rewrite lookup_insert_eq, decide_False.
        -- by rewrite lookup_insert_ne, Kh by done.
      * by rewrite fmap_app, Ks.
      * apply Forall_app. split; [|by repeat constructor]. eapply Forall_impl; [exact Ksl|]. intros s Hs. by apply K2.
      * apply Forall_app. split; [done|]. constructor; [|constructor]. simpl. split; [|done]. split; [done|].
        intros Hin. exfalso. apply Hk, Kk. rewrite fmap_app, elem_of_app. by right.
      * intros n i. rewrite Hlen. destruct (decide (n = e_name c)) as [->|Hn].
        -- rewrite lookup_insert_eq, lookup_snoc_Some. split; [intros [= <-]; by right|].
           intros [[_ Hin]|[-> _]]; [|done]. exfalso. apply Hk, first_occurrences_elem. by eapply list_elem_of_lookup_2.
        -- rewrite lookup_insert_ne, Kix, lookup_snoc_Some by done. split; [|naive_solver].
           intros Hin. left. split; [by eapply lookup_lt_Some|done].
      * by apply K2.
      * by apply K2.
      * intros n Hin%Kk. rewrite fmap_app, elem_of_app. by left.
    + simpl. by rewrite lookup_app_r, Nat.sub_diag by lia.
Qed.

Lemma table_columns_row rows t l :
  table_columns rows (Some (t, l))
  = [("ticker", ATString); ("field", ATString)]%string
    ++ ((fun n => (n, subfield_type (seen rows ++ l) n)) <$> subfields (seen rows ++ l)).
Proof. by destruct rows. Qed.

Lemma table_columns_snoc rows t l c :
  table_columns rows (Some (t, l ++ [c]))
  = table_columns rows (Some (t, l))
    ++ if decide (e_name c ∈ e_name <$> (seen rows ++ l)) then []
       else [(e_name c, subfield_type (seen rows ++ l ++ [c]) (e_name c))].
Proof.
  rewrite !table_columns_row, (assoc_L (++) (seen rows)), subfields_snoc.
  assert ((fun n => (n, subfield_type ((seen rows ++ l) ++ [c]) n)) <$> subfields (seen rows ++ l)
          = (fun n => (n, subfield_type (seen rows ++ l) n)) <$> subfields (seen rows ++ l)) as Eold.
  { apply list_fmap_ext. intros i n Hin. f_equal. apply subfield_type_snoc.
    apply first_occurrences_elem. by eapply list_elem_of_lookup_2. }
  case_decide.
  - by rewrite Eold, app_nil_r.
  - rewrite fmap_app, Eold, <- (assoc_L (++)). done.
Qed.

Lemma table_names rows t l n :
  n <> "ticker"%string -> n <> "field"%string ->
  n ∈ (table_columns rows (Some (t, l))).*1 <-> n ∈ e_name <$> (seen rows ++ l).
Proof.
  intros Ht Hf. rewrite table_columns_row, fmap_app, <- list_fmap_compose. simpl.
  rewrite !elem_of_cons, <- (first_occurrences_elem (e_name <$> _)). unfold subfields.
  change (fst ∘ (fun n => (n, subfield_type (seen rows ++ l) n))) with (fun n : string => n).
  rewrite list_fmap_id. naive_solver.
Qed.

(** The child is written in this row already. *)
Lemma repeated_ok rows t l st tb c :
  bulk_rel rows (Some (t, l)) ((seen rows ++ l) ++ [c]) st tb -> unreserved c -> e_name c ∈ e_name <$> l ->
  bulk_rel rows (Some (t, l ++ [c])) (seen rows ++ l ++ [c]) st tb.
Proof.
  rewrite <- (assoc_L (++)). intros [Kr Kro Kcu Kco Kh Ks Ksl Kla Kix Kt Kf Kn Kk] [Hu1 Hu2] Hin.
  constructor; try done.
  - rewrite Kcu. simpl. rewrite row_map_snoc, row_map_lookup by done.
    destruct (child_named (e_name c) l) eqn:E1; [done|]. by apply child_named_None in E1.
  - rewrite Kco, table_columns_snoc, decide_True, app_nil_r; [done|]. rewrite fmap_app, elem_of_app. by right.
  - eapply Forall_impl; [exact Kla|]. intros s [Hl Hb]. split; [|done]. rewrite Hl. simpl.
    rewrite names_snoc. split; [by left|]. intros [?| ->]; done.
Qed.

(** Marking the sub-field of a child as written in this row. *)
Lemma mark_written (subs : list BulkSubfield) i s (c : E) l k :
  NoDup (bs_name <$> subs) -> subs !! i = Some s -> bs_name s = e_name c ->
  Forall (fun s => (bs_last_row s = Some k <-> bs_name s ∈ e_name <$> l)
                   /\ forall r, bs_last_row s = Some r -> (r <= k)%nat) subs ->
  Forall (fun s => (bs_last_row s = Some k <-> bs_name s ∈ e_name <$> (l ++ [c]))
                   /\ forall r, bs_last_row s = Some r -> (r <= k)%nat)
    (<[i := mkSubfield (bs_name s) (bs_slot s) (Some k)]> subs).
Proof.
  intros Hnd Hi Hs Hl. rewrite Forall_lookup. intros j x. destruct (decide (j = i)) as [->|Hne].
  - rewrite list_lookup_insert_eq by (by eapply lookup_lt_Some). intros [= <-]. simpl. split; [|intros r [= <-]; lia].
    rewrite Hs, names_snoc. split; [by right|done].
  - rewrite list_lookup_insert_ne by done. intros Hj. destruct (Forall_lookup_1 _ _ _ _ Hl Hj) as [Hx Hb].
    split; [|done]. rewrite Hx, names_snoc. split; [by left|]. intros [?|Hin]; [done|].
    exfalso. apply Hne, (NoDup_lookup _ _ _ (bs_name x) Hnd); rewrite list_lookup_fmap.
    + by rewrite Hj.
    + rewrite Hi. simpl. congruence.
Qed.

Lemma written_ok rows t l st tb c i s :
  bulk_rel rows (Some (t, l)) ((seen rows ++ l) ++ [c]) st tb -> unreserved c -> e_name c ∉ e_name <$> l ->
  bk_subfields st !! i = Some s -> bs_name s = e_name c ->
  exists cs tb', append_opt_slot ryu_text other_text (bk_columns st) (bs_slot s)
                   (get_value_with_datatype c (e_datatype c)) = Some cs
    /\ bulk_rel rows (Some (t, l ++ [c])) (seen rows ++ l ++ [c])
         (bulk_set st cs (<[i := mkSubfield (bs_name s) (bs_slot s) (Some (length rows))]> (bk_subfields st))
            (bk_index_by_key st)) tb'.
Proof.
  rewrite <- (assoc_L (++)). intros [Kr Kro Kcu Kco Kh Ks Ksl Kla Kix Kt Kf Kn Kk] [Hu1 Hu2] Hnin Hi Hs.
  rewrite known_type_value.
  assert (t_current tb !! e_name c = None) as Hcur.
  { rewrite Kcu. simpl. rewrite row_map_lookup by done. by rewrite (proj2 (child_named_None _ _) Hnin). }
  assert (slot_named (bk_columns st) (bs_slot s) (e_name c)) as Hslot.
  { rewrite <- Hs. by apply (Forall_lookup_1 _ _ _ _ Ksl Hi). }
  destruct (write_slot _ _ _ _ _ _ (get_value c 0) Kr Hslot Hcur) as (cs & Ew & R & K). exists cs, (table_write tb (e_name c) (get_value c 0)).
  split; [done|].
  assert (bs_name <$> <[i:=mkSubfield (bs_name s) (bs_slot s) (Some (length rows))]> (bk_subfields st)
          = bs_name <$> bk_subfields st) as Enames.
  { rewrite list_fmap_insert. apply list_insert_id. by rewrite list_lookup_fmap, Hi. }
  constructor; simpl; try done.
  - rewrite row_map_snoc. rewrite Kcu in Hcur. simpl in Hcur. by rewrite Hcur, Kcu.
  - rewrite table_columns_snoc, <- Kco. destruct (table_type tb (e_name c)) as [ty|] eqn:Ety.
    + rewrite decide_True, app_nil_r; [done|]. apply (table_names rows t l); [done..|]. rewrite <- Kco.
      apply table_type_Some in Ety. by apply (list_elem_of_fmap_2' fst _ _ _ Ety).
    + apply table_type_None in Ety. rewrite Kco, table_names in Ety by done. rewrite decide_False by done.
      unfold fresh_type. rewrite Kh, decide_True; [done|]. rewrite (assoc_L (++)). apply names_snoc. by right.
  - by rewrite Enames.
  - apply Forall_insert; [|by apply K, (Forall_lookup_1 _ _ _ _ Ksl Hi)].
    eapply Forall_impl; [exact Ksl|]. intros x Hx. by apply K.
  - apply mark_written; [|done..]. rewrite Ks. apply first_occurrences_nodup.
  - by apply K.
  - by apply K.
Qed.

(** One child of a row. *)
Lemma subfield_step rows t l st tb c :
  bulk_rel rows (Some (t, l)) (seen rows ++ l) st tb -> is_scalar c = true -> unreserved c ->
  exists st' tb', append_subfield ryu_text other_text (length rows) st c = Some st'
    /\ bulk_rel rows (Some (t, l ++ [c])) (seen rows ++ l ++ [c]) st' tb' /\ bk_meta st' = bk_meta st.
Proof.
  intros Hrel [Ha Hs]%andb_prop Hu. unfold append_subfield. apply negb_true_iff in Ha. rewrite Ha, Hs. simpl.
  destruct (resolve_ok rows t l (seen rows ++ l) st tb c Hrel) as (st1 & i & tb1 & s & -> & Hrel1 & Hm & Hi & Hn).
  rewrite Hi. cbn [mbind option_bind].
  assert (bs_last_row s = Some (length rows) <-> e_name c ∈ e_name <$> l) as Hlast.
  { rewrite <- Hn. apply (Forall_lookup_1 _ _ _ _ (br_last _ _ _ _ _ Hrel1) Hi). }
  case_bool_decide as Hb; rewrite Hlast in Hb.
  - exists st1, tb1. split; [done|]. split; [by apply repeated_ok|done].
  - destruct (written_ok rows t l st1 tb1 c i s Hrel1 Hu Hb Hi Hn) as (cs & tb2 & -> & Hrel2).
    eexists _, tb2. split; [done|]. split; [exact Hrel2|done].
Qed.

Lemma subfields_step rows t cs : forall l st tb,
  bulk_rel rows (Some (t, l)) (seen rows ++ l) st tb -> Forall unreserved (List.filter is_scalar cs) ->
  exists st' tb', append_subfields ryu_text other_text (length rows) st cs = Some st'
    /\ bulk_rel rows (Some (t, l ++ List.filter is_scalar cs)) (seen rows ++ l ++ List.filter is_scalar cs) st' tb'
    /\ bk_meta st' = bk_meta st.
Proof.
  induction cs as [|c cs IH]; intros l st tb Hrel Hu; cbn [append_subfields List.filter] in *.
  { exists st, tb. by rewrite app_nil_r. }
  destruct (is_scalar c) eqn:Hc.
  - apply Forall_cons in Hu as [Hu Hus].
    destruct (subfield_step rows t l st tb c Hrel Hc Hu) as (st1 & tb1 & -> & Hrel1 & Hm1). cbn [mbind option_bind].
    destruct (IH (l ++ [c]) st1 tb1 Hrel1 Hus) as (st2 & tb2 & E2 & Hrel2 & Hm2).
    exists st2, tb2. rewrite <- !(assoc_L (++)) in Hrel2. split; [done|]. split; [exact Hrel2|congruence].
  - assert (append_subfield ryu_text other_text (length rows) st c = Some st) as ->.
    { unfold append_subfield. unfold is_scalar in Hc. by destruct (e_is_array c), (has_scalar_value (e_datatype c)). }
    cbn [mbind option_bind]. exact (IH l st tb Hrel Hu).
Qed.

(** The two columns of the extractor open a row. *)
Lemma open_row rows st tb t :
  bulk_rel rows None (seen rows) st tb ->
  exists cs1 cs2 tb', append_str_slot ryu_text other_text (bk_columns st) (bk_ticker_slot st) t = Some cs1
    /\ append_str_slot ryu_text other_text cs1 (bk_field_slot st) field = Some cs2
    /\ bulk_rel rows (Some (t, [])) (seen rows ++ []) (bulk_set st cs2 (bk_subfields st) (bk_index_by_key st)) tb'.
Proof.
  intros [Kr Kro Kcu Kco Kh Ks Ksl Kla Kix Kt Kf Kn Kk]. simpl in Kcu.
  destruct (write_slot _ _ _ _ _ "ticker" (Some (BString t)) Kr Kt) as (cs1 & E1 & R1 & K1); [by rewrite Kcu|].
  destruct (write_slot _ _ _ _ _ "field" (Some (BString field)) R1 (K1 _ _ Kf)) as (cs2 & E2 & R2 & K2).
  { simpl. by rewrite Kcu, lookup_insert_ne. }
  exists cs1, cs2. eexists. split; [exact E1|]. split; [exact E2|]. rewrite app_nil_r.
  assert (forall i n, slot_named (bk_columns st) i n -> slot_named cs2 i n) as K by (intros; by apply K2, K1).
  constructor; simpl; try done; try (by apply K).
  - simpl. by rewrite Kcu.
  - simpl. destruct rows as [|r rows].
    + assert (forall n, t_hints tb !! n = None) as Hh by (intros n; by rewrite Kh, decide_False by apply not_elem_of_nil).
      unfold fresh_type, table_type. simpl. rewrite Kco. simpl. unfold fresh_type, table_type. rewrite Kco. simpl. by rewrite !Hh.
    + unfold table_type. simpl. unfold table_type. rewrite Kco. done.
  - eapply Forall_impl; [exact Ksl|]. intros s Hs. by apply K.
Qed.

Lemma seen_snoc rows r : seen (rows ++ [r]) = seen rows ++ r.2.
Proof. unfold seen. rewrite fmap_app, concat_app. simpl. by rewrite app_nil_r. Qed.

Lemma close_row rows t l st tb :
  bulk_rel rows (Some (t, l)) (seen rows ++ l) st tb ->
  exists tb', bulk_rel (rows ++ [(t, l)]) None (seen (rows ++ [(t, l)]))
                (bulk_set st (end_row (bk_columns st)) (bk_subfields st) (bk_index_by_key st)) tb'.
Proof.
  intros [Kr Kro Kcu Kco Kh Ks Ksl Kla Kix Kt Kf Kn Kk].
  exists (mkTable (t_rows tb ++ [t_current tb]) ∅ (t_columns tb) (t_hints tb)).
  rewrite seen_snoc. constructor; simpl; try done.
  - by apply end_row_related.
  - by rewrite Kro, Kcu, fmap_app.
  - rewrite Kco, table_columns_row. unfold table_columns. rewrite seen_snoc. simpl. rewrite app_nil_r.
    by destruct rows.
  - eapply Forall_impl; [exact Kla|]. intros s [_ Hb]. rewrite length_app. simpl. split.
    + split; [intros Hx%Hb; lia|by intros ?%elem_of_nil].
    + intros r Hx%Hb. lia.
  - intros n. by rewrite app_nil_r, seen_snoc.
Qed.

Definition scalars (row : E) : list E := List.filter is_scalar (children row).

Lemma bulk_row_ok rows st tb t row :
  bulk_rel rows None (seen rows) st tb -> Forall unreserved (scalars row) ->
  exists st' tb', bulk_row ryu_text other_text st t row = Some st'
    /\ bulk_rel (rows ++ [(t, scalars row)]) None (seen (rows ++ [(t, scalars row)])) st' tb'
    /\ bk_meta st' = bk_meta st.
Proof.
  intros Hrel Hu. destruct (open_row rows st tb t Hrel) as (cs1 & cs2 & tb1 & E1 & E2 & Hrel1).
  unfold bulk_row. rewrite E1. cbn [mbind option_bind]. rewrite (br_name _ _ _ _ _ Hrel), E2. cbn [mbind option_bind].
  unfold append_row_subfields.
  assert (cs_row_count cs2 = length rows) as Hc.
  { pose proof (rel_count _ _ _ _ (br_related _ _ _ _ _ Hrel1)) as Hc. simpl in Hc.
    by rewrite Hc, (br_rows _ _ _ _ _ Hrel1), length_fmap. }
  simpl bk_columns. rewrite Hc.
  destruct (subfields_step rows t (children row) [] _ tb1 Hrel1 Hu) as (st2 & tb2 & -> & Hrel2 & Hm). cbn [mbind option_bind].
  destruct (close_row _ _ _ _ _ Hrel2) as (tb3 & Hrel3). eexists _, tb3. split; [done|]. split; [exact Hrel3|exact Hm].
Qed.

Lemma bulk_rows_ok t l : forall rows st tb,
  bulk_rel rows None (seen rows) st tb -> Forall (fun row => Forall unreserved (scalars row)) l ->
  let rows' := rows ++ ((fun row => (t, scalars row)) <$> l) in
  exists st' tb', bulk_rows ryu_text other_text st t l = Some st'
    /\ bulk_rel rows' None (seen rows') st' tb' /\ bk_meta st' = bk_meta st.
Proof.
  induction l as [|row l IH]; intros rows st tb Hrel Hu; cbn [bulk_rows].
  { exists st, tb. simpl. by rewrite app_nil_r. }
  apply Forall_cons in Hu as [Hu Hus]. destruct (bulk_row_ok rows st tb t row Hrel Hu) as (st1 & tb1 & -> & Hrel1 & Hm1).
  cbn [mbind option_bind]. destruct (IH _ st1 tb1 Hrel1 Hus) as (st2 & tb2 & -> & Hrel2 & Hm2).
  exists st2, tb2. rewrite <- (assoc_L (++)) in Hrel2. split; [done|]. split; [exact Hrel2|congruence].
Qed.

(** *** The response *)

Definition bulk_entries (root : E) : list E := from_option elements [] (e_get root "securityData").

(** A security that did not fail has a row per entry of the bulk field. *)
Definition entry_bulk (entry : E) : list BulkRow :=
  let s := scan entry in
  match entry_error s, sec_field_data s ≫= (fun fd => e_get fd field) with
  | None, Some bulk_field => (fun row => (ticker s, scalars row)) <$> elements bulk_field
  | _, _ => []
  end.

Definition bulk_table (es : list E) : list BulkRow := concat (entry_bulk <$> es).

Definition entry_unreserved (entry : E) : Prop := Forall (fun r => Forall unreserved r.2) (entry_bulk entry).

Record bulk_ok (es : list E) (st : BulkDataState) : Prop := mkBulkOk {
  bo_table : exists tb, bulk_rel (bulk_table es) None (seen (bulk_table es)) st tb;
  bo_meta : bk_meta st = collect metadata_default es;
  bo_meta_ok : metadata_ok (bk_meta st) /\ type_misses (bk_meta st) = ∅ /\ rm_ids (bk_meta st) = []
}.

Lemma bulk_rel_meta rows cur known st tb m :
  bulk_rel rows cur known st tb -> bulk_rel rows cur known (bulk_set_meta st m) tb.
Proof. intros []. by constructor. Qed.

Lemma bulk_new_ok : bulk_ok [] (bulk_new field).
Proof.
  constructor; [|done|split; [split; [split; [constructor|apply map_Forall_empty]|constructor]|done]].
  pose proof (related_new ryu_text other_text) as R. unfold bulk_new.
  destruct (slot column_set_new "ticker") as [cs1 i1] eqn:E1. destruct (resolve_slot _ _ _ _ _ _ _ R E1) as (R1 & N1 & _).
  destruct (slot cs1 "field") as [cs2 i2] eqn:E2. destruct (resolve_slot _ _ _ _ _ _ _ R1 E2) as (R2 & N2 & K2).
  exists table_new. constructor; simpl; try done; try constructor; try (by apply K2).
Qed.

Lemma bulk_security_ok es st entry :
  bulk_ok es st -> entry_unreserved entry ->
  exists st', bulk_security ryu_text other_text st entry = Some st' /\ bulk_ok (es ++ [entry]) st'.
Proof.
  intros [[tb Hrel] Hm (Hok & Hty & Hids)] Hu. unfold bulk_security.
  destruct (record_frame (bk_meta st) entry Hok) as (Hok' & Hty' & Hids' & Hdiag).
  assert (collect metadata_default (es ++ [entry])
          = (record_security (bk_meta st) (ticker (scan entry)) (scan entry)).1) as Hcol.
  { unfold collect. rewrite fold_left_app. simpl. by rewrite Hm. }
  destruct (record_security (bk_meta st) (ticker (scan entry)) (scan entry)) as [m' diag]. cbn [fst snd] in *.
  apply (bulk_rel_meta _ _ _ _ _ m') in Hrel.
  assert (forall st', bk_meta st' = m' -> (exists tb, bulk_rel (bulk_table es ++ entry_bulk entry) None
                        (seen (bulk_table es ++ entry_bulk entry)) st' tb) -> bulk_ok (es ++ [entry]) st') as Hdone.
  { intros st' Em Ht. constructor; [|congruence|split_and!; congruence]. unfold bulk_table in *. by rewrite concat_snoc. }
  unfold entry_unreserved in Hu. unfold entry_bulk in Hdone, Hu. rewrite Hdiag.
  simpl bk_field_name. pose proof (br_name _ _ _ _ _ Hrel) as Hn. simpl in Hn. rewrite Hn.
  destruct (entry_error (scan entry)); [eexists; split; [done|]; apply Hdone; [done|exists tb; by rewrite app_nil_r]|].
  destruct (sec_field_data (scan entry) ≫= _) as [bf|];
    [|eexists; split; [done|]; apply Hdone; [done|exists tb; by rewrite app_nil_r]].
  destruct (bulk_rows_ok (ticker (scan entry)) (elements bf) _ _ tb Hrel) as (st' & tb' & -> & Hrel' & Hm').
  { by rewrite Forall_fmap in Hu. }
  exists st'. split; [done|]. apply Hdone; [done|by exists tb'].
Qed.

Lemma bulk_securities_ok l : forall es st,
  bulk_ok es st -> Forall entry_unreserved l ->
  exists st', bulk_securities ryu_text other_text st l = Some st' /\ bulk_ok (es ++ l) st'.
Proof.
  induction l as [|e l IH]; intros es st Hok Hu; [exists st; by rewrite app_nil_r|].
  apply Forall_cons in Hu as [Hu Hus]. destruct (bulk_security_ok es st e Hok Hu) as (st1 & E1 & Hok1).
  destruct (IH _ st1 Hok1 Hus) as (st2 & E2 & Hok2). exists st2. cbn [bulk_securities]. rewrite E1. simpl.
  by rewrite <- (assoc_L (++)) in Hok2.
Qed.

Lemma bulk_message_ok es st root :
  bulk_ok es st -> Forall entry_unreserved (bulk_entries root) ->
  exists st', bulk_process_message ryu_text other_text st root = Some st' /\ bulk_ok (es ++ bulk_entries root) st'.
Proof.
  intros Hok Hu. unfold bulk_process_message, bulk_entries in *.
  destruct (e_get root "securityData"); [by apply bulk_securities_ok|]. exists st. by rewrite app_nil_r.
Qed.

(** *** The layout *)

Definition bulk_layout (rows : list BulkRow) : list (string * ArrowType) :=
  ("ticker", ATString) :: ("field", ATString)
    :: ((fun n => (n, subfield_type (seen rows) n)) <$> subfields (seen rows)).

(** The value of a column in a row: of several children of one name, the first. *)
Definition bulk_value (n : string) (r : BulkRow) : option Value :=
  if decide (n = "ticker"%string) then Some (BString r.1)
  else if decide (n = "field"%string) then Some (BString field)
  else row_value n r.

Lemma row_map_base t l n : is_Some (base_row t !! n) -> row_map (t, l) !! n = base_row t !! n.
Proof.
  intros [v Hv]. induction l as [|c l IH] using rev_ind; [done|]. rewrite row_map_snoc.
  destruct (decide (e_name c = n)) as [->|Hn].
  - rewrite IH, Hv. by rewrite IH.
  - destruct (row_map (t, l) !! e_name c); [done|]. by rewrite lookup_insert_ne.
Qed.

Lemma row_map_value n r : mjoin (row_map r !! n) = bulk_value n r.
Proof.
  destruct r as [t l]. unfold bulk_value. case_decide as Ht; [|case_decide as Hf].
  - subst. rewrite row_map_base; [done|]. by eexists.
  - subst. rewrite row_map_base; [done|]. by eexists.
  - rewrite row_map_lookup by done. unfold row_value. simpl. by destruct (child_named n l).
Qed.
End Table.

Lemma length_filter_fmap {A B} (f : A -> B) (P : B -> Prop) (Q : A -> Prop)
  `{!forall x, Decision (P x), !forall x, Decision (Q x)} (l : list A) :
  (forall x, P (f x) <-> Q x) -> length (filter P (f <$> l)) = length (filter Q l).
Proof.
  intros HPQ. induction l as [|x l IH]; [done|]. rewrite fmap_cons, !filter_cons.
  destruct (decide (Q x)) as [Hq|Hq].
  - rewrite decide_True by (by apply HPQ). simpl. by rewrite IH.
  - rewrite decide_False by (by rewrite HPQ). exact IH.
Qed.

Lemma order_all cols : NoDup cols.*1 -> order_columns cols.*1 cols = cols.
Proof.
  induction cols as [|c cols IH]; [done|]. rewrite fmap_cons. intros [Hc Hnd]%NoDup_cons.
  rewrite order_columns_cons. unfold find_column. simpl. rewrite bool_decide_true by done. simpl. f_equal.
  rewrite filter_cons, decide_False by tauto. rewrite filter_all; [by apply IH|].
  apply Forall_forall. intros d Hd Hn. apply Hc. rewrite <- Hn. by apply list_elem_of_fmap_2.
Qed.

Section Answered.
Context {Col : Type} `{AL : ArrowLaws Col} `{AB : ArrowBuild Col} `{!ArrowBuildLaws Col}.
Context `{LE : JsonLaws (gmap string (list Z))} `{LS : JsonLaws (gmap string SecurityErrorMeta)}.
Context `{LD : JsonLaws (gmap string DelayedMeta)} `{LM : JsonLaws (gmap string Z)}.
Context `{LX : ExceptionsJsonLaws}.
Variable ids_to_json : list string -> string.
Variable ids_from_json : string -> option (list string).
Hypothesis ids_json : forall l, ids_from_json (ids_to_json l) = Some l.
Context {E : Type} `{SL : SdkScalarLaws E} `{SA : SdkArrays E} `{CS : ChronoStamp}.
Variables ryu_text other_text : spec_float -> string.
Variable field : string.

Local Abbreviation reading := (reading ids_from_json).
Local Abbreviation bulk_ok := (bulk_ok (E := E) ryu_text other_text field).
Local Abbreviation table := (bulk_table (E := E) field).

Definition bulk_cell (c : string * ArrowType) (r : string * list E) : option ArrayCell :=
  cell_of ryu_text other_text c.2 (bulk_value field c.1 r).

(** The number of values a column rejects. *)
Definition bulk_rejected (rows : list (string * list E)) (n : string) : Z :=
  match find_column (bulk_layout rows) n with
  | None => 0
  | Some c =>
      Z.of_nat (length (filter (fun r => rejects ryu_text other_text c.2 (bulk_value field n r) = true) rows))
  end.

Definition bulk_content (rows : list (string * list E)) (b : ArrowBatch Col) (misses : gmap string Z) : Prop :=
  fields (b_schema b) = (fun c => nullable_field c.1 c.2) <$> bulk_layout rows
  /\ b_columns b = (fun c => array_of c.2 (bulk_cell c <$> rows)) <$> bulk_layout rows
  /\ b_rows b = length rows
  /\ forall n, counted misses n (bulk_rejected rows n).

Lemma layout_nodup rows : Forall unreserved (seen rows) -> NoDup (bulk_layout (E := E) rows).*1.
Proof.
  intros Hu. unfold bulk_layout. rewrite !fmap_cons, <- list_fmap_compose. simpl.
  change (fst ∘ (fun n => (n, subfield_type (seen rows) n))) with (fun n : string => n). rewrite list_fmap_id.
  assert (forall n, n ∈ subfields (seen rows) -> n <> "ticker"%string /\ n <> "field"%string) as Hn.
  { intros n (c & -> & Hc)%first_occurrences_elem%list_elem_of_fmap. by apply (proj1 (Forall_forall _ _) Hu). }
  repeat (constructor; [rewrite ?elem_of_cons; naive_solver|]). apply first_occurrences_nodup.
Qed.

Lemma bulk_rejected_ok rows st tb n :
  bulk_rel ryu_text other_text field rows None (seen rows) st tb -> t_columns tb = bulk_layout rows ->
  rejected ryu_text other_text tb n = bulk_rejected rows n.
Proof.
  intros Hrel Hl. unfold rejected, bulk_rejected, table_type. rewrite Hl.
  destruct (find_column (bulk_layout rows) n) as [c|]; [|done]. simpl.
  rewrite (br_rows _ _ _ _ _ _ _ _ Hrel), (br_cur _ _ _ _ _ _ _ _ Hrel). simpl.
  rewrite filter_app, filter_cons, decide_False, filter_nil, app_nil_r by (by rewrite lookup_empty).
  f_equal. apply length_filter_fmap. intros r. by rewrite row_map_value.
Qed.

Lemma bulk_batch_ok rows st tb :
  bulk_rel ryu_text other_text field rows None (seen rows) st tb -> Forall unreserved (seen rows) ->
  exists b misses, finish_with_order ids_to_json (bk_columns st)
                     ("ticker" :: "field" :: (bs_name <$> bk_subfields st))%string = Some (Ok b)
    /\ bulk_content rows b misses /\ reading b = mkReading ∅ ∅ ∅ ∅ misses [].
Proof.
  intros Hrel Hu. pose proof (br_related _ _ _ _ _ _ _ _ Hrel) as R. pose proof (br_cols _ _ _ _ _ _ _ _ Hrel) as Hc.
  rewrite (br_subs _ _ _ _ _ _ _ _ Hrel). destruct rows as [|r rows].
  - destruct (finish_unwritten ids_to_json ids_from_json ryu_text other_text (bk_columns st) tb
      ["ticker"; "field"]%string R Hc) as (_ & b & Hb & Hr & Hcol & Hf & Hread); [done|].
    assert (forall n, t_hints tb !! n = None) as Hh.
    { intros n. by rewrite (br_hints _ _ _ _ _ _ _ _ Hrel), decide_False by apply not_elem_of_nil. }
    exists b, ∅. split; [exact Hb|]. split; [|exact Hread]. unfold bulk_content. rewrite Hf, Hcol. simpl. rewrite !Hh.
    split_and!; try done. intros n. unfold counted, bulk_rejected.
    rewrite lookup_empty. by destruct (find_column _ n).
  - assert (t_columns tb = bulk_layout (r :: rows)) as Hl.
    { rewrite Hc. unfold table_columns, bulk_layout. simpl here. by rewrite app_nil_r. }
    assert ("ticker" :: "field" :: subfields (seen (r :: rows)) = (bulk_layout (r :: rows)).*1)%string as ->.
    { unfold bulk_layout. rewrite !fmap_cons, <- list_fmap_compose. do 2 f_equal. symmetry. apply list_fmap_id. }
    destruct (finish_related ids_to_json ids_from_json ids_json ryu_text other_text (bk_columns st) tb
      (bulk_layout (r :: rows)).*1 R) as (b & misses & Hb & Hf & Hcol & Hr & Hread & Hm).
    { apply (br_cur _ _ _ _ _ _ _ _ Hrel). }
    { by rewrite Hl. }
    rewrite Hl, order_all in Hf, Hcol by (by apply layout_nodup).
    exists b, misses. split; [done|]. split; [|done]. split_and!.
    + exact Hf.
    + rewrite Hcol. apply list_fmap_ext. intros i c _. unfold column_array, column_cells, bulk_cell. f_equal.
      rewrite (br_rows _ _ _ _ _ _ _ _ Hrel), <- list_fmap_compose. apply list_fmap_ext.
      intros j x _. simpl. by rewrite row_map_value.
    + rewrite Hr, (br_rows _ _ _ _ _ _ _ _ Hrel). apply length_fmap.
    + intros n. unfold counted. rewrite Hm. cbv zeta. by rewrite (bulk_rejected_ok _ _ _ _ Hrel Hl).
Qed.

Lemma table_unreserved (es : list E) : Forall (entry_unreserved field) es -> Forall unreserved (seen (table es)).
Proof.
  intros Hu. unfold seen. apply Forall_concat, Forall_fmap. unfold bulk_table. by apply Forall_concat, Forall_fmap.
Qed.

(** Partial messages add their entries. *)
Lemma bulk_partials partials (final : E) : forall es st,
  bulk_ok es st -> Forall (entry_unreserved field) (concat (bulk_entries <$> partials)) ->
  exists st', bulk_ok (es ++ concat (bulk_entries <$> partials)) st'
    /\ bulk_run (Col := Col) ryu_text other_text ids_to_json st partials final
       = bulk_finish ryu_text other_text ids_to_json st' final.
Proof.
  induction partials as [|root partials IH]; intros es st Hok Ht; [exists st; by rewrite app_nil_r|].
  simpl in Ht. apply Forall_app in Ht as [Hr Ht].
  destruct (bulk_message_ok _ _ _ es st root Hok Hr) as (st1 & E1 & Hok1).
  destruct (IH _ st1 Hok1 Ht) as (st2 & Hok2 & Hrun). exists st2. simpl. rewrite E1. simpl.
  by rewrite (assoc_L (++)).
Qed.

Definition bulk_reading (es : list E) (misses : gmap string Z) : Reading :=
  let m := meaning (collect metadata_default es) in
  mkReading (r_eids m) (r_errors m) (r_exceptions m) (r_delayed m) misses [].

(** C15: The answer to a bulk request is the table of its array.  However the securities are
    split into messages: a rejected request fails with the rejection; otherwise the batch
    has a row per entry of the bulk field, in the order of the response, with the
    security, the field and a column per scalar sub-field in the order these are first
    seen, typed as the first child of the name; a row has the value of its first child of
    a name and null where it has none or the column rejects it, and the rejected values
    and the diagnostics of every security are in the batch.  No sub-field may have the name of
    one of the first two columns. *)
Theorem bulk_answer_exact (partials : list E) final :
  let all := concat (bulk_entries <$> partials) ++ bulk_entries final in
  let answer := bulk_run (Col := Col) ryu_text other_text ids_to_json (bulk_new field) partials final in
  Forall (entry_unreserved field) all ->
  match top_level_response_error final "//blp/refdata" "ReferenceDataRequest" with
  | Some e => answer = Some (Err e)
  | None => exists b misses, answer = Some (Ok b)
              /\ bulk_content (table all) b misses /\ reading b = bulk_reading all misses
  end.
Proof.
  cbv zeta. intros Hall. pose proof (table_unreserved _ Hall) as Hu. apply Forall_app in Hall as [Hp Hf].
  destruct (bulk_partials partials final [] _ (bulk_new_ok _ _ _) Hp) as (st & Hok & ->). unfold bulk_finish.
  destruct (top_level_response_error final _ _) as [e|]; [done|].
  destruct (bulk_message_ok _ _ _ _ st final Hok Hf) as (st' & -> & Hok'). cbn [mbind option_bind].
  destruct Hok' as [[tb Hrel] Hm (Kok & Kty & Kids)].
  destruct (bulk_batch_ok _ _ _ Hrel Hu) as (b & misses & Hb & Hcon & Hread).
  unfold map_attach. rewrite Hb. cbn [mbind option_bind].
  destruct (attach_reading ids_to_json ids_from_json ids_json (bk_meta st') b Kok) as (b' & -> & Hc' & Hr' & Hf' & Hread').
  exists b', misses. split; [done|]. split.
  - unfold bulk_content in *. by rewrite Hc', Hr', Hf'.
  - rewrite Hread', Hread, Kty, Kids, Hm. unfold bulk_reading. simpl. by rewrite !kept_fresh, kept_none.
Qed.
End Answered.

Module ArrayTrees.
Import Concrete.

#[export] Instance tree_arrays : SdkArrays Tree := {
  e_element t i := match t with TArray _ l => l !! i | _ => None end;
  e_is_array t := match t with TArray _ _ => true | _ => false end
}.
End ArrayTrees.

Section Examples.
Import Codec Concrete SimpleBuild ConcreteScalars ArrayTrees.
Local Open Scope string_scope.

Definition bulk_entry (security : string) (rows : list Tree) : Tree :=
  TSequence "securityData"
    [TValues "security" [SStr security]; TSequence "fieldData" [TArray "BULK" rows]].

Definition bulk_message (entries : list Tree) : Tree := TSequence "root" [TArray "securityData" entries].

Definition paid (amount : Z) : Tree := TSequence "row" [TValues "Amount" [SInt amount]; TValues "Amount" [SInt 0]].
Definition declared (date : string) : Tree :=
  TSequence "row" [TArray "History" []; TValues "Declared" [SStr date]; TValues "Amount" [SInt 9]].

(** Rows in two messages, with a column that appears late and a repeated name. *)
Lemma bulk_answer_exact_witness :
  exists b, bulk_run (Col := SimpleCol) some_text some_text ids_text (bulk_new "BULK")
              [bulk_message [bulk_entry "SYN_A" [paid 7]]]
              (bulk_message [bulk_entry "SYN_B" [declared "2024-01-15"; paid 8]])
            = Some (Ok b) /\ b_rows b = 3%nat
            /\ f_name <$> fields (b_schema b) = ["ticker"; "field"; "Amount"; "Declared"].
Proof.
  pose proof (bulk_answer_exact (Col := SimpleCol) ids_text text_ids text_ids_text some_text some_text "BULK"
    [bulk_message [bulk_entry "SYN_A" [paid 7]]]
    (bulk_message [bulk_entry "SYN_B" [declared "2024-01-15"; paid 8]])) as Hx.
  destruct Hx as (b & misses & Hb & (Hf & _ & Hr & _) & _).
  { repeat constructor; discriminate. }
  exists b. split; [exact Hb|]. split; [exact Hr|]. rewrite Hf. reflexivity.
Defined.

(** A sub-field with the name of the security column fails the request. *)
Example reserved_subfield_fails :
  match bulk_run (Col := SimpleCol) some_text some_text ids_text (bulk_new "BULK") []
          (bulk_message [bulk_entry "SYN_A" [TSequence "row" [TValues "ticker" [SStr "SYN_B"]]]]) with
  | Some (Ok _) => False
  | _ => True
  end.
Proof. vm_compute. exact I. Qed.
End Examples.
