(* ===== verification/Intraday.v ===== *)
(** * Intraday bars

    [IntradayBarResponse], [IntradayBarState] and [IntradayBarStreamState] of
    [engine/state/intradaybar.rs] and [intradaybar_stream.rs]: bars are read into fixed
    columns with the types of their numeric fields cached, collected into one answer or
    streamed a chunk per message.  Both are proved exact, so that a stream that is read
    to its end has the bars of the answer. *)

From Stdlib Require Import Ascii String ZArith Lia SpecFloat.
From S2P Require Import Prelude Errors Update Decoder Plan Schema Diagnostics Pool Metadata.
From S2P Require Import ShardMerge Calendar Columns Extract Extractors Refdata Bulk.
Local Open Scope Z_scope.

(** ** State *)

Record IntradayBarDatatypes : Type := mkBarTypes {
  bt_open : option DataType;
  bt_high : option DataType;
  bt_low : option DataType;
  bt_close : option DataType;
  bt_volume : option DataType;
  bt_num_events : option DataType;
  bt_value : option DataType
}.

Definition bar_types_default : IntradayBarDatatypes := mkBarTypes None None None None None None None.

(** The values appended to each builder. *)
Record IntradayBarBuilders : Type := mkBarBuilders {
  bb_ticker : list string;
  bb_time : list (option Z);
  bb_open : list (option spec_float);
  bb_high : list (option spec_float);
  bb_low : list (option spec_float);
  bb_close : list (option spec_float);
  bb_volume : list (option spec_float);
  bb_num_events : list (option Z);
  bb_value : list (option spec_float)
}.

Definition bar_builders_new : IntradayBarBuilders := mkBarBuilders [] [] [] [] [] [] [] [] [].

Record IntradayBarResponse : Type := mkBarResponse {
  ib_ticker : string;
  ib_builders : option IntradayBarBuilders;
  ib_datatypes : IntradayBarDatatypes;
  ib_meta : ResponseMetadata
}.

Definition bar_response_new (t : string) : IntradayBarResponse :=
  mkBarResponse t None bar_types_default metadata_default.

(** [with_timezone("UTC")] is part of the type of a timestamp array. *)
Definition bar_fields : list Field :=
  [mkField "ticker" (to_arrow_datatype ATString) false ∅; nullable_field "time" ATTimestampMicros;
   nullable_field "open" ATFloat64; nullable_field "high" ATFloat64; nullable_field "low" ATFloat64;
   nullable_field "close" ATFloat64; nullable_field "volume" ATFloat64; nullable_field "numEvents" ATInt32;
   nullable_field "value" ATFloat64].

(** [value.is_some_and(|value| !value.is_null())] *)
Definition value_present (v : option Value) : bool :=
  match v with None | Some BNull => false | Some _ => true end.

Definition is_none {A} (o : option A) : bool := match o with None => true | Some _ => false end.

(** ** Reading a bar *)

Section Bars.
Context {E : Type} `{Sdk E} `{SdkScalars E} `{SdkArrays E}.

Definition get_timestamp_us (e : E) (i : nat) : option Z := to_micros OFFSET_PART <$> e_datetime e i.

Definition append_time_field (element : E) (name : string) (builder : list (option Z)) : list (option Z) * bool :=
  let field := e_get element name in
  let value := field ≫= fun field => get_timestamp_us field 0 in
  (builder ++ [value], is_none value && from_option (fun field => negb (e_is_null field)) false field).

Definition append_f64_field (element : E) (name : string) (datatype : option DataType)
  (builder : list (option spec_float)) : list (option spec_float) * option DataType * bool :=
  let '(value, datatype) := read_child element name datatype in
  let converted := value ≫= as_f64 in
  (builder ++ [converted], datatype, is_none converted && value_present value).

Definition as_i32 (v : Value) : option Z :=
  match v with
  | BInt32 i => Some i
  | BInt64 i => in_range (- 2 ^ 31) (2 ^ 31 - 1) i
  | BByte i => Some i
  | BBool b => Some (if b then 1 else 0)
  | BFloat64 f => f64_integral f ≫= in_range (- 2 ^ 31) (2 ^ 31 - 1)
  | _ => None
  end.

Definition append_i32_field (element : E) (name : string) (datatype : option DataType)
  (builder : list (option Z)) : list (option Z) * option DataType * bool :=
  let '(value, datatype) := read_child element name datatype in
  let converted := value ≫= as_i32 in
  (builder ++ [converted], datatype, is_none converted && value_present value).

Definition record_miss (m : ResponseMetadata) (name : string) (miss : bool) : ResponseMetadata :=
  if miss then record_type_miss m name else m.

(** One bar. *)
Definition bar_row (t : string) (st : IntradayBarBuilders * IntradayBarDatatypes * ResponseMetadata) (bar : E)
  : IntradayBarBuilders * IntradayBarDatatypes * ResponseMetadata :=
  let '(b, types, m) := st in
  let '(time, miss) := append_time_field bar "time" (bb_time b) in
  let m := record_miss m "time" miss in
  let '(open, t_open, miss) := append_f64_field bar "open" (bt_open types) (bb_open b) in
  let m := record_miss m "open" miss in
  let '(high, t_high, miss) := append_f64_field bar "high" (bt_high types) (bb_high b) in
  let m := record_miss m "high" miss in
  let '(low, t_low, miss) := append_f64_field bar "low" (bt_low types) (bb_low b) in
  let m := record_miss m "low" miss in
  let '(close, t_close, miss) := append_f64_field bar "close" (bt_close types) (bb_close b) in
  let m := record_miss m "close" miss in
  let '(volume, t_volume, miss) := append_f64_field bar "volume" (bt_volume types) (bb_volume b) in
  let m := record_miss m "volume" miss in
  let '(num_events, t_events, miss) := append_i32_field bar "numEvents" (bt_num_events types) (bb_num_events b) in
  let m := record_miss m "numEvents" miss in
  let '(value, t_value, miss) := append_f64_field bar "value" (bt_value types) (bb_value b) in
  let m := record_miss m "value" miss in
  (mkBarBuilders (bb_ticker b ++ [t]) time open high low close volume num_events value,
   mkBarTypes t_open t_high t_low t_close t_volume t_events t_value, m).

(** The state, and whether there is something to send. *)
Definition bar_process_message (st : IntradayBarResponse) (root : E) : IntradayBarResponse * bool :=
  match e_get root "barData" with
  | None => (st, false)
  | Some bar_data =>
      let found := find_children bar_data ["eidData"; "barTickData"]%string in
      let m := match mjoin (found !! 0%nat) with
               | Some eids => record_eid_data (ib_meta st) (ib_ticker st) eids
               | None => ib_meta st
               end in
      let unchanged := mkBarResponse (ib_ticker st) (ib_builders st) (ib_datatypes st) m in
      match mjoin (found !! 1%nat) with
      | None => (unchanged, negb (metadata_is_empty m))
      | Some bar_tick_data =>
          if (e_len bar_tick_data =? 0)%nat then (unchanged, negb (metadata_is_empty m))
          else
            let '(b, types, m) :=
              fold_left (bar_row (ib_ticker st)) (elements bar_tick_data)
                (default bar_builders_new (ib_builders st), ib_datatypes st, m) in
            (mkBarResponse (ib_ticker st) (Some b) types m, true)
      end
  end.

Context {Col : Type} `{ArrowOps Col} `{ArrowBuild Col}.
Context `{JE : Json (gmap string (list Z))} `{JS : Json (gmap string SecurityErrorMeta)}.
Context `{JD : Json (gmap string DelayedMeta)} `{JM : Json (gmap string Z)}.
Context `{EX : ExceptionsJson}.
Variable ids_to_json : list string -> string.

Definition bar_builders_finish (b : IntradayBarBuilders) : list Col :=
  let f64 (l : list (option spec_float)) := array_of ATFloat64 (option_map CellF64 <$> l) in
  [array_of ATString ((fun t => Some (CellStr t)) <$> bb_ticker b);
   array_of ATTimestampMicros (option_map CellStamp <$> bb_time b);
   f64 (bb_open b); f64 (bb_high b); f64 (bb_low b); f64 (bb_close b); f64 (bb_volume b);
   array_of ATInt32 (option_map CellI32 <$> bb_num_events b); f64 (bb_value b)].

(** The state and the batch; [None] is a panic. *)
Definition bar_finish_batch (st : IntradayBarResponse)
  : IntradayBarResponse * option (result (ArrowBatch Col) BlpError) :=
  let b := default bar_builders_new (ib_builders st) in
  match try_new (mkSchema bar_fields ∅) (bar_builders_finish b) with
  | Err e => (mkBarResponse (ib_ticker st) None (ib_datatypes st) (ib_meta st),
              Some (Err (Internal ("build IntradayBar RecordBatch: " +:+ e)%string)))
  | Ok batch => (mkBarResponse (ib_ticker st) None (ib_datatypes st) metadata_default,
                 Ok <$> attach ids_to_json (ib_meta st) batch)
  end.

(** *** Collected *)

Definition bar_finish (st : IntradayBarResponse) (root : E) : option (result (ArrowBatch Col) BlpError) :=
  match top_level_response_error root "//blp/refdata" "IntradayBarRequest" with
  | Some error => Some (Err error)
  | None => (bar_finish_batch (bar_process_message st root).1).2
  end.

Fixpoint bar_run (st : IntradayBarResponse) (partials : list E) (final : E)
  : option (result (ArrowBatch Col) BlpError) :=
  match partials with
  | [] => bar_finish st final
  | root :: partials => bar_run (bar_process_message st root).1 partials final
  end.

(** *** Streamed *)

Record IntradayBarStreamState : Type := mkBarStream {
  ibs_response : IntradayBarResponse;
  ibs_stream : Stream (ArrowBatch Col);
  ibs_type_misses : ResponseMetadata
}.

Definition barstream_new (t : string) (capacity : nat) : IntradayBarStreamState :=
  mkBarStream (bar_response_new t) (stream_new "IntradayBarRequest" capacity) metadata_default.

(** [on_partial], which [finish] is too; [None] is a panic. *)
Definition barstream_on_partial (st : IntradayBarStreamState) (root : E) : option IntradayBarStreamState :=
  if stream_is_closed (ibs_stream st) then Some st
  else
    match top_level_response_error root "//blp/refdata" "IntradayBarRequest" with
    | Some error => Some (mkBarStream (ibs_response st) (stream_send (ibs_stream st) (Err error)) (ibs_type_misses st))
    | None =>
        let '(r, some) := bar_process_message (ibs_response st) root in
        if some then
          let '(r, batch) := bar_finish_batch r in
          batch ← batch;
          Some (mkBarStream r (stream_send (ibs_stream st) batch)
                  (match batch with Ok b => collect_type_misses (ibs_type_misses st) b | Err _ => ibs_type_misses st end))
        else Some (mkBarStream r (ibs_stream st) (ibs_type_misses st))
    end.

Definition barstream_fail (st : IntradayBarStreamState) (error : BlpError) : IntradayBarStreamState :=
  mkBarStream (ibs_response st) (stream_send (ibs_stream st) (Err error)) (ibs_type_misses st).
End Bars.

(** ** What the bars say *)

Lemma counted_miss m k n miss c :
  0 <= c -> counted (type_misses m) n c ->
  counted (type_misses (record_miss m k miss)) n (c + if miss && bool_decide (k = n) then 1 else 0).
Proof.
  unfold counted, record_miss. intros Hc Hm. destruct miss; simpl; [|by rewrite Z.add_0_r].
  case_bool_decide as Hk; [subst k|].
  - rewrite Hm, (decide_False (P := c + 1 = 0)) by lia. case_decide as H0; rewrite lookup_insert_eq; [by rewrite H0|].
    unfold u64_wrapping_add, wrap_u. by rewrite Zplus_mod_idemp_l.
  - rewrite Z.add_0_r, <- Hm. destruct (type_misses m !! k); by rewrite lookup_insert_ne.
Qed.

Section BarLaws.
Context {E : Type} `{SL : SdkScalarLaws E} `{SA : SdkArrays E}.
Variable t : string.
Variable datatypes : string -> DataType.

Definition bar_f64 (n : string) (bar : E) : option spec_float := field_value bar n ≫= as_f64.
Definition bar_events (bar : E) : option Z := field_value bar "numEvents" ≫= as_i32.
Definition bar_time (bar : E) : option Z := e_get bar "time" ≫= fun e => get_timestamp_us e 0.

Definition bar_names : list string :=
  ["time"; "open"; "high"; "low"; "close"; "volume"; "numEvents"; "value"]%string.

(** A value that is present but is not one of its column. *)
Definition bar_lost (n : string) (bar : E) : bool :=
  if decide (n ∈ bar_names) then
    if decide (n = "time"%string) then
      is_none (bar_time bar) && from_option (fun e => negb (e_is_null e)) false (e_get bar n)
    else if decide (n = "numEvents"%string) then is_none (bar_events bar) && value_present (field_value bar n)
    else is_none (bar_f64 n bar) && value_present (field_value bar n)
  else false.

Definition bars_lost (bars : list E) (n : string) : Z :=
  Z.of_nat (length (filter (fun bar => bar_lost n bar = true) bars)).

Definition builders_of (bars : list E) : IntradayBarBuilders :=
  mkBarBuilders ((fun _ => t) <$> bars) (bar_time <$> bars) (bar_f64 "open" <$> bars) (bar_f64 "high" <$> bars)
    (bar_f64 "low" <$> bars) (bar_f64 "close" <$> bars) (bar_f64 "volume" <$> bars) (bar_events <$> bars)
    (bar_f64 "value" <$> bars).

Definition types_fit (types : IntradayBarDatatypes) : Prop :=
  cache_fits (datatypes "open") (bt_open types) /\ cache_fits (datatypes "high") (bt_high types)
  /\ cache_fits (datatypes "low") (bt_low types) /\ cache_fits (datatypes "close") (bt_close types)
  /\ cache_fits (datatypes "volume") (bt_volume types) /\ cache_fits (datatypes "numEvents") (bt_num_events types)
  /\ cache_fits (datatypes "value") (bt_value types).

Definition bar_misses (m : ResponseMetadata) (bar : E) : ResponseMetadata :=
  fold_left (fun m n => record_miss m n (bar_lost n bar)) bar_names m.

Lemma f64_field_ok (bar : E) n cached l :
  typed_by datatypes bar -> cache_fits (datatypes n) cached ->
  exists cached', append_f64_field bar n cached l
                  = (l ++ [bar_f64 n bar], cached', is_none (bar_f64 n bar) && value_present (field_value bar n))
    /\ cache_fits (datatypes n) cached'.
Proof.
  intros Ht Hc. unfold append_f64_field. destruct (read_child_value datatypes bar n cached Ht Hc) as (c & -> & Hc').
  by exists c.
Qed.

Lemma i32_field_ok (bar : E) cached l :
  typed_by datatypes bar -> cache_fits (datatypes "numEvents") cached ->
  exists cached', append_i32_field bar "numEvents" cached l
                  = (l ++ [bar_events bar], cached', is_none (bar_events bar) && value_present (field_value bar "numEvents"))
    /\ cache_fits (datatypes "numEvents") cached'.
Proof.
  intros Ht Hc. unfold append_i32_field.
  destruct (read_child_value datatypes bar "numEvents" cached Ht Hc) as (c & -> & Hc'). by exists c.
Qed.

Lemma bar_row_ok bars types m (bar : E) :
  types_fit types -> typed_by datatypes bar ->
  exists types', bar_row t (builders_of bars, types, m) bar = (builders_of (bars ++ [bar]), types', bar_misses m bar)
    /\ types_fit types'.
Proof.
  intros (K1 & K2 & K3 & K4 & K5 & K6 & K7) Ht. unfold bar_row. cbn [append_time_field].
  destruct (f64_field_ok bar "open" _ (bb_open (builders_of bars)) Ht K1) as (c1 & -> & K1').
  destruct (f64_field_ok bar "high" _ (bb_high (builders_of bars)) Ht K2) as (c2 & -> & K2').
  destruct (f64_field_ok bar "low" _ (bb_low (builders_of bars)) Ht K3) as (c3 & -> & K3').
  destruct (f64_field_ok bar "close" _ (bb_close (builders_of bars)) Ht K4) as (c4 & -> & K4').
  destruct (f64_field_ok bar "volume" _ (bb_volume (builders_of bars)) Ht K5) as (c5 & -> & K5').
  destruct (i32_field_ok bar _ (bb_num_events (builders_of bars)) Ht K6) as (c6 & -> & K6').
  destruct (f64_field_ok bar "value" _ (bb_value (builders_of bars)) Ht K7) as (c7 & -> & K7').
  exists (mkBarTypes c1 c2 c3 c4 c5 c6 c7). split; [|by split_and!].
  apply (f_equal2 pair); [apply (f_equal2 pair)|]; [unfold builders_of; by rewrite !fmap_app|done|].
  unfold bar_misses, bar_lost, bar_names. cbn [fold_left].
  reflexivity.
Qed.

(** The metadata of bars: the entitlements, and the values that were lost. *)
Definition bars_say (bars : list E) (eids : gmap string (list Z)) (m : ResponseMetadata) : Prop :=
  m = mkMetadata eids ∅ exceptions_default ∅ (type_misses m) [] false []
  /\ forall n, counted (type_misses m) n (bars_lost bars n).

Lemma miss_frame m k miss eids :
  m = mkMetadata eids ∅ exceptions_default ∅ (type_misses m) [] false [] ->
  record_miss m k miss = mkMetadata eids ∅ exceptions_default ∅ (type_misses (record_miss m k miss)) [] false [].
Proof. intros Hm. unfold record_miss. destruct miss; [|done]. by rewrite Hm. Qed.

Lemma misses_frame l (bar : E) eids : forall m,
  m = mkMetadata eids ∅ exceptions_default ∅ (type_misses m) [] false [] ->
  let m' := fold_left (fun m n => record_miss m n (bar_lost n bar)) l m in
  m' = mkMetadata eids ∅ exceptions_default ∅ (type_misses m') [] false [].
Proof. induction l as [|n l IH]; intros m Hm; [done|]. by apply IH, miss_frame. Qed.

Lemma misses_counted l (bar : E) n : forall m c,
  0 <= c -> NoDup l -> counted (type_misses m) n c ->
  counted (type_misses (fold_left (fun m n => record_miss m n (bar_lost n bar)) l m)) n
    (c + if bool_decide (n ∈ l) && bar_lost n bar then 1 else 0).
Proof.
  induction l as [|k l IH]; intros m c Hc Hnd Hm; [by rewrite Z.add_0_r|]. simpl.
  apply NoDup_cons in Hnd as [Hk Hnd]. pose proof (counted_miss m k n (bar_lost k bar) c Hc Hm) as H1.
  set (c1 := c + _) in H1.
  assert (c + (if bool_decide (n ∈ k :: l) && bar_lost n bar then 1 else 0)
          = c1 + (if bool_decide (n ∈ l) && bar_lost n bar then 1 else 0)) as ->.
  { unfold c1. destruct (decide (k = n)) as [->|Hn].
    - rewrite (bool_decide_true (n = n)), (bool_decide_true (n ∈ n :: l)), (bool_decide_false (n ∈ l)) by (done || by left).
      simpl. destruct (bar_lost n bar); simpl; lia.
    - rewrite (bool_decide_false (k = n)), andb_false_r, Z.add_0_r by done. f_equal.
      rewrite (bool_decide_ext (n ∈ k :: l) (n ∈ l)); [done|]. rewrite elem_of_cons. naive_solver. }
  apply IH; [|done|done]. subst c1. clear H1. destruct (bar_lost k bar), (bool_decide (k = n)); simpl; lia.
Qed.

Lemma bars_say_snoc bars eids m (bar : E) : bars_say bars eids m -> bars_say (bars ++ [bar]) eids (bar_misses m bar).
Proof.
  intros [Hm Hc]. split; [by apply misses_frame|]. intros n.
  assert (bars_lost (bars ++ [bar]) n = bars_lost bars n + if bool_decide (n ∈ bar_names) && bar_lost n bar then 1 else 0) as ->.
  { unfold bars_lost. rewrite filter_app, length_app, Nat2Z.inj_add. f_equal. rewrite filter_cons, filter_nil.
    assert (bool_decide (n ∈ bar_names) && bar_lost n bar = bar_lost n bar) as ->.
    { unfold bar_lost. destruct (decide (n ∈ bar_names)); [by rewrite bool_decide_true|by rewrite andb_false_r]. }
    by destruct (bar_lost n bar). }
  apply misses_counted; [unfold bars_lost; lia| |done]. apply (bool_decide_unpack _). vm_compute. exact I.
Qed.

Lemma bar_rows_ok more : forall bars types m eids,
  types_fit types -> bars_say bars eids m -> Forall (typed_by datatypes) more ->
  exists types' m', fold_left (bar_row t) more (builders_of bars, types, m) = (builders_of (bars ++ more), types', m')
    /\ types_fit types' /\ bars_say (bars ++ more) eids m'.
Proof.
  induction more as [|bar more IH]; intros bars types m eids Hty Hm Ht; [exists types, m; by rewrite app_nil_r|].
  apply Forall_cons in Ht as [Ht Hts]. destruct (bar_row_ok bars types m bar Hty Ht) as (types1 & E1 & Hty1).
  destruct (IH (bars ++ [bar]) types1 _ eids Hty1 (bars_say_snoc _ _ _ _ Hm) Hts) as (types2 & m2 & E2 & H2).
  exists types2, m2. rewrite <- (assoc_L (++)) in E2, H2. split; [|exact H2].
  change (fold_left (bar_row t) (bar :: more) (builders_of bars, types, m))
    with (fold_left (bar_row t) more (bar_row t (builders_of bars, types, m) bar)). by rewrite E1.
Qed.

(** *** Messages *)

Definition bar_children (root : E) : option E * option E :=
  match e_get root "barData" with
  | None => (None, None)
  | Some bar_data =>
      let found := find_children bar_data ["eidData"; "barTickData"]%string in
      (mjoin (found !! 0%nat), mjoin (found !! 1%nat))
  end.

Definition message_bars (root : E) : list E := from_option elements [] (bar_children root).2.

(** The entitlements with those of a message. *)
Definition add_eids (eids : gmap string (list Z)) (root : E) : gmap string (list Z) :=
  upsert t ((fun e => default [] (eids !! t) ++ omap (fun i => e_i32 e i) (seq 0 (e_len e))) <$> (bar_children root).1) eids.

(** A message with bars or entitlements becomes a chunk. *)
Definition message_sends (root : E) : bool :=
  negb (is_none (bar_children root).1) || from_option (fun e => negb (e_len e =? 0)%nat) false (bar_children root).2.

Record bar_ok (bars : list E) (eids : gmap string (list Z)) (st : IntradayBarResponse) : Prop := mkBarOk {
  bo_ticker : ib_ticker st = t;
  bo_builders : default bar_builders_new (ib_builders st) = builders_of bars;
  bo_types : types_fit (ib_datatypes st);
  bo_says : bars_say bars eids (ib_meta st)
}.

Lemma bar_new_ok : bar_ok [] ∅ (bar_response_new t).
Proof. constructor; try done. by split_and!; left. Qed.

Lemma bars_say_eids bars eids m e :
  bars_say bars eids m ->
  bars_say bars (upsert t ((fun e => default [] (eids !! t) ++ omap (fun i => e_i32 e i) (seq 0 (e_len e))) <$> e) eids)
    (match e with Some eids => record_eid_data m t eids | None => m end).
Proof.
  intros [Hm Hc]. destruct e as [e|]; [|done]. split; [|exact Hc]. unfold record_eid_data. by rewrite Hm.
Qed.

(** Without bars the metadata is empty when there are no entitlements. *)
Lemma bars_say_empty eids m : bars_say [] eids m -> metadata_is_empty m = bool_decide (eids = ∅).
Proof.
  intros [Hm Hc]. assert (type_misses m = ∅) as Hn.
  { apply map_eq. intros n. rewrite Hc, lookup_empty. done. }
  rewrite Hm, Hn. unfold metadata_is_empty. simpl. by rewrite !andb_true_r.
Qed.

Lemma bar_message_ok bars eids st root :
  bar_ok bars eids st -> Forall (typed_by datatypes) (message_bars root) ->
  exists st' some, bar_process_message st root = (st', some)
    /\ bar_ok (bars ++ message_bars root) (add_eids eids root) st'
    /\ (bars = [] -> eids = ∅ -> some = message_sends root).
Proof.
  intros [Kt Kb Kty Ks] Ht. unfold bar_process_message, message_bars, add_eids, message_sends, bar_children in *.
  rewrite Kt, Kb. destruct (e_get root "barData") as [bd|]; cbn [fst snd] in *;
    [|exists st, false; rewrite app_nil_r; split; [done|]; split; [by constructor|done]].
  set (found := find_children bd _) in *. apply (bars_say_eids _ _ _ (mjoin (found !! 0%nat))) in Ks.
  set (m := match mjoin (found !! 0%nat) with Some eids => _ | None => _ end) in *.
  assert (forall some, bars = [] -> eids = ∅ -> some = false ->
            negb (metadata_is_empty m) = negb (is_none (mjoin (found !! 0%nat))) || some) as Hempty.
  { intros some -> -> ->. rewrite (bars_say_empty _ _ Ks), orb_false_r.
    destruct (mjoin (found !! 0%nat)) as [e|]; simpl; [|done]. rewrite bool_decide_false; [done|apply insert_non_empty]. }
  destruct (mjoin (found !! 1%nat)) as [btd|]; simpl in *.
  - destruct (e_len btd =? 0)%nat eqn:Hn.
    + eexists _, _. split; [done|]. split; [|intros; by apply Hempty]. apply Nat.eqb_eq in Hn.
      unfold elements. rewrite Hn, app_nil_r. by constructor.
    + destruct (bar_rows_ok (elements btd) bars (ib_datatypes st) m _ Kty Ks Ht) as (types' & m' & -> & Hty' & Hm').
      eexists _, _. split; [done|]. split; [by constructor|]. intros _ _. by rewrite orb_true_r.
  - eexists _, _. split; [done|]. rewrite app_nil_r. split; [by constructor|]. intros; by apply Hempty.
Qed.
End BarLaws.

(** ** Batches *)

(** Null counts of built arrays. *)
Class ArrowNullLaws (Col : Type) `{ArrowOps Col, ArrowBuild Col} := {
  array_of_nulls t l : Forall is_Some l -> null_count (array_of t l) = 0%nat
}.

Section BarBatches.
Context {Col : Type} `{AL : ArrowLaws Col} `{AB : ArrowBuild Col} `{!ArrowBuildLaws Col} `{!ArrowNullLaws Col}.
Context `{LE : JsonLaws (gmap string (list Z))} `{LS : JsonLaws (gmap string SecurityErrorMeta)}.
Context `{LD : JsonLaws (gmap string DelayedMeta)} `{LM : JsonLaws (gmap string Z)}.
Context `{LX : ExceptionsJsonLaws}.
Variable ids_to_json : list string -> string.
Variable ids_from_json : string -> option (list string).
Hypothesis ids_json : forall l, ids_from_json (ids_to_json l) = Some l.
Context {E : Type} `{SL : SdkScalarLaws E} `{SA : SdkArrays E}.
Variable t : string.
Variable datatypes : string -> DataType.

Local Abbreviation reading := (reading ids_from_json).
Local Abbreviation bar_ok := (bar_ok (E := E) t datatypes).
Local Abbreviation Item := (result (ArrowBatch Col) BlpError).

(** The columns of the bars, in the order of the schema. *)
Definition bar_columns (bars : list E) : list Col :=
  let f64 n := array_of ATFloat64 ((fun bar => CellF64 <$> bar_f64 n bar) <$> bars) in
  [array_of ATString ((fun _ => Some (CellStr t)) <$> bars);
   array_of ATTimestampMicros ((fun bar => CellStamp <$> bar_time bar) <$> bars);
   f64 "open"; f64 "high"; f64 "low"; f64 "close"; f64 "volume";
   array_of ATInt32 ((fun bar => CellI32 <$> bar_events bar) <$> bars); f64 "value"]%string.

(** A batch with the bars, the entitlements and the number of values lost per column. *)
Definition bar_batch (bars : list E) (eids : gmap string (list Z)) (b : ArrowBatch Col) : Prop :=
  fields (b_schema b) = bar_fields /\ b_columns b = bar_columns bars /\ b_rows b = length bars
  /\ exists misses, reading b = mkReading eids ∅ ∅ ∅ misses [] /\ forall n, counted misses n (bars_lost bars n).

Lemma bar_columns_fit bars : Forall2 (column_fits (length bars)) bar_fields (bar_columns bars).
Proof.
  unfold bar_fields, bar_columns. constructor; [|repeat (constructor; [apply nullable_fits, length_fmap|]); constructor].
  destruct (array_of_ok (Col := Col) ATString ((fun _ => Some (CellStr t)) <$> bars)) as [Ht Hl].
  split; [done|]. split; [|by rewrite Hl, length_fmap]. intros _. apply array_of_nulls.
  apply Forall_fmap, Forall_forall. intros bar _; by eexists.
Qed.

Lemma builders_finish bars : bar_builders_finish (builders_of t bars) = bar_columns bars.
Proof. unfold bar_builders_finish, builders_of. simpl. by rewrite <- !list_fmap_compose. Qed.

Lemma bar_batch_ok bars eids st :
  bar_ok bars eids st ->
  exists b st', bar_finish_batch ids_to_json st = (st', Some (Ok b)) /\ bar_batch bars eids b /\ bar_ok [] ∅ st'.
Proof.
  intros [Kt Kb Kty [Km Kc]]. unfold bar_finish_batch. rewrite Kb, builders_finish, Kt.
  rewrite (try_new_ok (mkSchema bar_fields ∅) (bar_columns bars) (length bars) ltac:(done) (bar_columns_fit bars)).
  destruct (attach_fresh ids_to_json ids_from_json ids_json (ib_meta st) bar_fields (bar_columns bars) (length bars))
    as (b & -> & Hf & Hc & Hr & Hread).
  { rewrite Km. split; [split; [constructor|apply map_Forall_empty]|constructor]. }
  eexists b, _. split; [done|]. split.
  - split; [done|]. split; [done|]. split; [done|]. exists (type_misses (ib_meta st)). split; [|done].
    rewrite Hread. unfold meaning. rewrite Km. done.
  - constructor; try done.
Qed.

(** *** Collected *)

Definition all_bars (roots : list E) : list E := concat (message_bars <$> roots).
Definition all_eids (roots : list E) : gmap string (list Z) := fold_left (add_eids t) roots ∅.

Definition bars_typed (root : E) : Prop := Forall (typed_by datatypes) (message_bars root).

Lemma bar_run_ok partials final : forall roots st,
  bar_ok (all_bars roots) (all_eids roots) st -> Forall bars_typed (partials ++ [final]) ->
  top_level_response_error final "//blp/refdata" "IntradayBarRequest" = None ->
  exists b, bar_run ids_to_json st partials final = Some (Ok b)
    /\ bar_batch (all_bars (roots ++ partials ++ [final])) (all_eids (roots ++ partials ++ [final])) b.
Proof.
  assert (forall roots root, all_bars (roots ++ [root]) = all_bars roots ++ message_bars root) as Hb.
  { intros roots root. unfold all_bars. by rewrite concat_snoc. }
  assert (forall roots root, all_eids (roots ++ [root]) = add_eids t (all_eids roots) root) as He.
  { intros roots root. unfold all_eids. by rewrite fold_left_app. }
  induction partials as [|root partials IH]; intros roots st Hok Ht Hte; simpl in *; apply Forall_cons in Ht as [Ht Hts].
  - unfold bar_finish. rewrite Hte. destruct (bar_message_ok t datatypes _ _ st final Hok Ht) as (st' & some & -> & Hok' & _).
    rewrite <- Hb, <- He in Hok'. simpl. destruct (bar_batch_ok _ _ _ Hok') as (b & st'' & -> & Hbb & _). by exists b.
  - destruct (bar_message_ok t datatypes _ _ st root Hok Ht) as (st' & some & -> & Hok' & _). rewrite <- Hb, <- He in Hok'.
    simpl. destruct (IH _ st' Hok' Hts Hte) as (b & Hrun & Hbb). exists b. split; [exact Hrun|].
    by rewrite <- (assoc_L (++)) in Hbb.
Qed.

(** *** Streamed *)

Local Abbreviation BarStream := (IntradayBarStreamState (Col := Col)).

Definition bar_step (st : BarStream * list Item) (o : HOp (E := E)) : option (BarStream * list Item) :=
  let '(h, got) := st in
  let other o := let '(s, got) := stream_step (ibs_stream h, got) o in
                 Some (mkBarStream (ibs_response h) s (ibs_type_misses h), got) in
  match o with
  | HMessage root => h ← barstream_on_partial ids_to_json h root; Some (h, got)
  | HTask => other STask
  | HRecv => other SRecv
  end.

Fixpoint bar_steps (ops : list HOp) (st : BarStream * list Item) : option (BarStream * list Item) :=
  match ops with [] => Some st | o :: ops => st ← bar_step st o; bar_steps ops st end.

(** The chunks of messages: one for each that has bars or entitlements. *)
Definition bar_chunks (roots : list E) (bs : list (ArrowBatch Col)) : Prop :=
  Forall2 (fun root b => bar_batch (message_bars root) (add_eids t ∅ root) b)
    (List.filter message_sends roots) bs.

Definition bar_message (root : E) : Prop :=
  bars_typed root /\ top_level_response_error root "//blp/refdata" "IntradayBarRequest" = None.

Definition streaming (roots : list E) (st : BarStream * list Item) : Prop :=
  exists handled ignored bs, roots = handled ++ ignored /\ bar_chunks handled bs
    /\ stream_ok (Ok <$> bs) (ibs_stream st.1, st.2)
    /\ st_operation (ibs_stream st.1) = "IntradayBarRequest"%string
    /\ (st_sender (ibs_stream st.1) = true -> ignored = [] /\ bar_ok [] ∅ (ibs_response st.1)).

(** A message without a chunk has no bars. *)
Lemma silent_message (root : E) : message_sends root = false -> message_bars root = [] /\ add_eids t ∅ root = ∅.
Proof.
  unfold message_sends, message_bars, add_eids. intros [He Hb]%orb_false_elim.
  destruct (bar_children root) as [[e|] [b|]]; simpl in *; try done. split; [|done].
  apply negb_false_iff, Nat.eqb_eq in Hb. unfold elements. by rewrite Hb.
Qed.

(** A message handed to an open stream. *)
Lemma barstream_message h (root : E) :
  bar_ok [] ∅ (ibs_response h) -> bar_message root -> stream_is_closed (ibs_stream h) = false ->
  exists h' more, barstream_on_partial ids_to_json h root = Some h'
    /\ ibs_stream h' = fold_left stream_send (Ok <$> more) (ibs_stream h)
    /\ bar_ok [] ∅ (ibs_response h') /\ (length more <= 1)%nat /\ bar_chunks [root] more.
Proof.
  intros Hok [Ht Hte] Hcl. unfold barstream_on_partial. rewrite Hcl, Hte.
  destruct (bar_message_ok t datatypes [] ∅ _ root Hok Ht) as (r & some & -> & Hr & Hsome).
  rewrite (Hsome eq_refl eq_refl). unfold bar_chunks. simpl. simpl in Hr. destruct (message_sends root) eqn:Hs.
  - destruct (bar_batch_ok _ _ _ Hr) as (b & r' & -> & Hb & Hr'). simpl.
    eexists _, [b]. split_and!; try done. constructor; [done|constructor].
  - destruct (silent_message root Hs) as [Hn Hd]. rewrite Hn, Hd in Hr. eexists _, [].
    split; [done|]. split; [done|]. split; [exact Hr|]. split; [apply Nat.le_0_l|constructor].
Qed.

Lemma streaming_message roots h got root :
  streaming roots (h, got) -> bar_message root ->
  exists h', barstream_on_partial ids_to_json h root = Some h' /\ streaming (roots ++ [root]) (h', got).
Proof.
  intros (handled & ignored & bs & -> & Hc & Hs & Ho & Hopen) Hm. simpl in *.
  destruct (stream_is_closed (ibs_stream h)) eqn:Hcl.
  - exists h. split; [unfold barstream_on_partial; by rewrite Hcl|].
    exists handled, (ignored ++ [root]), bs. rewrite <- (assoc_L (++)). split_and!; try done. simpl.
    unfold stream_is_closed in Hcl. rewrite (proj1 Hs : st_receiver (ibs_stream h) = true) in Hcl.
    by destruct (st_sender (ibs_stream h)).
  - assert (st_sender (ibs_stream h) = true) as Hsend by (unfold stream_is_closed in Hcl; by destruct (st_sender (ibs_stream h))).
    destruct (Hopen Hsend) as [-> Hr]. rewrite app_nil_r.
    destruct (barstream_message h root Hr Hm Hcl) as (h' & more & Hp & Hst & Hr' & Hlen & Hmore).
    exists h'. split; [done|]. exists (handled ++ [root]), [], (bs ++ more). rewrite app_nil_r, fmap_app. simpl.
    rewrite Hst. split; [done|]. split; [unfold bar_chunks in *; rewrite List.filter_app; by apply Forall2_app|].
    destruct more as [|b [|? ?]]; simpl in *; [by rewrite app_nil_r| |lia].
    split; [exact (stream_send_ok _ _ (Ok b) Hs)|]. split; [|done].
    etrans; [apply (step_operation (ibs_stream h, got) (SSend (Ok b)))|done].
Qed.

Lemma streaming_other roots h got o :
  streaming roots (h, got) -> match o with SSend _ => False | _ => True end ->
  let '(s, got) := stream_step (ibs_stream h, got) o in
  streaming roots (mkBarStream (ibs_response h) s (ibs_type_misses h), got).
Proof.
  intros (handled & ignored & bs & -> & Hc & Hs & Ho & Hopen) Hno. cbn [fst snd] in *.
  destruct (stream_other_ok _ _ o Hs Hno) as (Hs' & _ & Hsend).
  pose proof (step_operation (ibs_stream h, got) o) as Hop.
  destruct (stream_step (ibs_stream h, got) o) as [s got']. simpl in *.
  exists handled, ignored, bs. simpl. by rewrite Hsend, Hop.
Qed.

Lemma streaming_run ops : forall roots st,
  streaming roots st -> Forall bar_message (messages ops) ->
  exists st', bar_steps ops st = Some st' /\ streaming (roots ++ messages ops) st'.
Proof.
  induction ops as [|o ops IH]; intros roots [h got] Hok Hm; [exists (h, got); by rewrite app_nil_r|].
  destruct o as [root| |]; simpl in *.
  - apply Forall_cons in Hm as [Hm Hms]. destruct (streaming_message _ _ _ _ Hok Hm) as (h' & -> & Hok').
    simpl. rewrite (cons_middle root), (assoc_L (++)). by apply IH.
  - pose proof (streaming_other _ _ _ STask Hok I) as Hok'. by apply (IH roots) in Hok'.
  - pose proof (streaming_other _ _ _ SRecv Hok I) as Hok'. simpl in Hok'.
    destruct (stream_recv (ibs_stream h)) as [[item s]|]; by apply (IH roots) in Hok'.
Qed.

Lemma sent_bars (roots : list E) : all_bars (List.filter message_sends roots) = all_bars roots.
Proof.
  unfold all_bars. induction roots as [|root roots IH]; [done|]. simpl.
  destruct (message_sends root) eqn:Hs; simpl; [f_equal; exact IH|].
  rewrite (proj1 (silent_message root Hs)). exact IH.
Qed.

(** C17: Streamed intraday bars are the collected ones.  For the messages of a response, however
    their handling, receives and the overflow task interleave and whatever types were
    cached: the collected answer has a row per bar in order with its time, prices,
    volume, number of events and value, null where the bar has no such value of the column's type,
    the number of values lost per column, and the entitlements; the stream
    has one such batch per message with bars or entitlements, in order, which together
    have exactly the bars of the answer; the receiver gets all of them while the stream is
    open, and after an overflow a prefix and then one error. *)
Theorem bars_streamed_as_collected capacity ops (partials : list E) final :
  messages ops = partials ++ [final] -> Forall bar_message (messages ops) ->
  (exists b, bar_run ids_to_json (bar_response_new t) partials final = Some (Ok b)
     /\ bar_batch (all_bars (messages ops)) (all_eids (messages ops)) b)
  /\ exists h got handled ignored bs,
       bar_steps ops (barstream_new t capacity, []) = Some (h, got)
       /\ messages ops = handled ++ ignored /\ bar_chunks handled bs
       /\ all_bars (List.filter message_sends handled) = all_bars handled
       /\ if st_sender (ibs_stream h)
          then ignored = [] /\ got ++ st_queue (ibs_stream h) = Ok <$> bs
          else exists k, (k < length bs)%nat
                 /\ got ++ st_queue (ibs_stream h) ++ pending (ibs_stream h)
                    = (Ok <$> take k bs) ++ [Err (overflow_error "IntradayBarRequest")].
Proof.
  intros Ho Hm. split.
  - rewrite Ho in *. apply (bar_run_ok partials final []).
    + apply bar_new_ok.
    + eapply Forall_impl; [exact Hm|]. by intros root [? _].
    + apply Forall_app in Hm as [_ Hm]. by apply Forall_singleton in Hm as [_ ?].
  - destruct (streaming_run ops [] (barstream_new t capacity, [])) as ([h got] & Hrun & Hok); [|done|].
    { exists [], [], []. split_and!; try done; [constructor|apply stream_new_ok|]. intros _. split; [done|]. apply bar_new_ok. }
    destruct Hok as (handled & ignored & bs & Hr & Hc & Hs & Hop & Hopen). simpl in *.
    exists h, got, handled, ignored, bs. split; [done|]. split; [done|]. split; [done|]. split; [apply sent_bars|].
    pose proof (stream_outcome _ _ _ _ Hs Hop) as Hout.
    destruct (st_sender (ibs_stream h)) eqn:Hsend; [|exact Hout]. split; [by apply Hopen|exact Hout].
Qed.
End BarBatches.

(** ** Examples *)

Module SimpleNulls.
Import SimpleBuild.

#[export] Instance simple_nulls : ArrowNullLaws SimpleCol.
Proof.
  constructor. intros t l Hl. simpl. induction Hl as [|c l [x ->] _ IH]; [done|]. by rewrite filter_cons, decide_False.
Qed.
End SimpleNulls.

Section Examples.
Import Codec Concrete SimpleBuild ConcreteScalars ArrayTrees SimpleNulls.
Local Open Scope string_scope.

Definition bar_tree (open events : Z) : Tree :=
  TSequence "bar" [TValues "open" [SInt open]; TValues "numEvents" [SInt events]].

Definition bars_tree (bars : list Tree) : Tree :=
  TSequence "root" [TSequence "barData" [TValues "eidData" [SInt 7]; TArray "barTickData" bars]].

Definition bar_ops : list (HOp (E := Tree)) :=
  [HMessage (bars_tree [bar_tree 10 1]); HRecv; HMessage (bars_tree [bar_tree 11 2; bar_tree 12 3])].

Lemma bar_tree_typed open events : typed_by (fun _ => DtInt32) (bar_tree open events).
Proof. apply typed_children. repeat constructor. Qed.

(** Two messages, with one chunk received between them. *)
Lemma bars_streamed_as_collected_witness :
  exists b h got, bar_run (Col := SimpleCol) ids_text (bar_response_new "SYN") [bars_tree [bar_tree 10 1]]
                    (bars_tree [bar_tree 11 2; bar_tree 12 3]) = Some (Ok b)
    /\ b_rows b = 3%nat
    /\ bar_steps (Col := SimpleCol) ids_text bar_ops (barstream_new "SYN" 1, []) = Some (h, got) /\ length got = 1%nat.
Proof.
  destruct (bars_streamed_as_collected (Col := SimpleCol) ids_text text_ids text_ids_text "SYN" (fun _ => DtInt32) 1 bar_ops
    [bars_tree [bar_tree 10 1]] (bars_tree [bar_tree 11 2; bar_tree 12 3])) as [(b & Hb & Hc) (h & got & Hx)].
  - reflexivity.
  - repeat (constructor; [split; [repeat (constructor; [apply bar_tree_typed|]); constructor|reflexivity]|]). constructor.
  - destruct Hx as (handled & ignored & bs & Hrun & _). exists b, h, got. split; [exact Hb|].
    split; [exact (proj1 (proj2 (proj2 Hc)))|]. split; [exact Hrun|]. vm_compute in Hrun. by injection Hrun as _ <-.
Defined.
End Examples.
