(* ===== verification/Ticks.v ===== *)
(** * Intraday ticks

    [IntradayTickState] of [engine/state/intradaytick.rs], which discovers the columns of
    ticks as it reads them, and [IntradayTickStreamState] of [intradaytick_stream.rs],
    which streams the core ones.  The collected answer is proved to be a table of rows
    keyed by column names, without indices, marks and padding; the stream delivers, in order, the
    chunks that found room in its channel. *)

From Stdlib Require Import Ascii String ZArith Lia SpecFloat.
From S2P Require Import Prelude Errors Update Decoder Plan Schema Diagnostics Pool Metadata.
From S2P Require Import ShardMerge Calendar Columns Extract Extractors Refdata Bulk Intraday.
Local Open Scope Z_scope.

(** ** Collected ticks *)

Definition TICKER_COLUMN : string := "ticker".

Definition CORE_TICK_FIELDS : list (string * ArrowType) :=
  [("time", ATTimestampMicros); ("type", ATString); ("value", ATFloat64); ("size", ATInt64)]%string.

(** The interned lookup name is the output name. *)
Record TickField : Type := mkTickField {
  tf_output_name : string;
  tf_builder : TypedBuilder
}.

Definition tick_field_new (name : string) (t : ArrowType) : TickField := mkTickField name (builder_new t).

Record IntradayTickState : Type := mkTickState {
  tk_ticker : string;
  tk_column_names : gset string;
  tk_ticker_builder : TypedBuilder;
  tk_fields : list TickField;
  tk_lookup_names : list string;
  tk_seen : list bool;
  tk_row_count : nat;
  tk_meta : ResponseMetadata
}.

Definition tick_new (t : string) : IntradayTickState :=
  let fields := (fun f => tick_field_new f.1 f.2) <$> CORE_TICK_FIELDS in
  mkTickState t (list_to_set (TICKER_COLUMN :: CORE_TICK_FIELDS.*1)) (builder_new ATString) fields
    (tf_output_name <$> fields) (replicate (length CORE_TICK_FIELDS) false) 0 metadata_default.

(** The fields, the marks, and what discovery changes. *)
Definition tick_set (st : IntradayTickState) (names : gset string) (fields : list TickField) (lookup : list string)
  (seen : list bool) : IntradayTickState :=
  mkTickState (tk_ticker st) names (tk_ticker_builder st) fields lookup seen (tk_row_count st) (tk_meta st).

(** [Vec::resize] with [false] *)
Definition resize (l : list bool) (n : nat) : list bool := take n l ++ replicate (n - length l) false.

Section Ticks.
Context {E : Type} `{Sdk E} `{SdkScalars E} `{SdkArrays E} `{ChronoStamp}.
Variables ryu_text other_text : spec_float -> string.

Definition get_date32 (e : E) (i : nat) : option Z :=
  (fun d => wrap_s 32 (Z.quot (to_micros OFFSET_PART d) DAY_MICROS)) <$> e_datetime e i.

Definition should_emit_scalar_field (e : E) : bool := negb (e_is_array e) && has_scalar_value (e_datatype e).

(** What the builder of a type reads of a child. *)
Definition child_cell (t : ArrowType) (child : E) : option ArrayCell :=
  match t with
  | ATFloat64 => CellF64 <$> e_f64 child 0
  | ATInt64 => CellI64 <$> e_i64 child 0
  | ATInt32 => CellI32 <$> e_i32 child 0
  | ATString => CellStr <$> e_str child 0
  | ATBool => CellBool <$> e_bool child 0
  | ATDate32 => CellDate <$> get_date32 child 0
  | ATTimestampMicros => CellStamp <$> get_timestamp_us child 0
  | ATTime64Micros => CellTime <$> (to_time_micros <$> e_datetime child 0)
  end.

Definition append_child_value (b : TypedBuilder) (child : E) : TypedBuilder :=
  mkBuilderT (tb_type b) (tb_values b ++ [child_cell (tb_type b) child]).

Definition discover_tick_field (st : IntradayTickState) (child : E) : IntradayTickState * option nat :=
  let name := e_name child in
  if bool_decide (name = TICKER_COLUMN) || bool_decide (name ∈ tk_column_names st) then (st, None)
  else
    let builder := append_nulls (builder_new (arrow_type_for_element (e_datatype child))) (tk_row_count st) in
    let fields := tk_fields st ++ [mkTickField name builder] in
    (tick_set st ({[name]} ∪ tk_column_names st) fields (tk_lookup_names st ++ [name]) (tk_seen st),
     Some (length fields - 1)%nat).

(** The value of a child at the index of its field; [None] is a panic. *)
Definition place_child (st : IntradayTickState) (field_index : nat) (child : E) : option IntradayTickState :=
  let seen := if (length (tk_seen st) <=? field_index)%nat then resize (tk_seen st) (length (tk_fields st))
              else tk_seen st in
  before ← seen !! field_index;
  if before : bool then Some (tick_set st (tk_column_names st) (tk_fields st) (tk_lookup_names st) seen)
  else
    field ← tk_fields st !! field_index;
    Some (tick_set st (tk_column_names st)
            (<[field_index := mkTickField (tf_output_name field) (append_child_value (tf_builder field) child)]>
               (tk_fields st))
            (tk_lookup_names st) (<[field_index := true]> seen)).

(** One child of the loop of [append_tick_fields]. *)
Definition append_tick_child (st : IntradayTickState) (child : E) : option IntradayTickState :=
  match name_index child (tk_lookup_names st) with
  | Some i => place_child st i child
  | None =>
      if negb (should_emit_scalar_field child) then Some st
      else match discover_tick_field st child with
           | (st, None) => Some st
           | (st, Some i) => place_child st i child
           end
  end.

Fixpoint append_tick_fields (st : IntradayTickState) (l : list E) : option IntradayTickState :=
  match l with [] => Some st | c :: l => st ← append_tick_child st c; append_tick_fields st l end.

(** The nulls of the fields a tick does not have. *)
Definition null_unseen (seen : list bool) (p : nat * TickField) : option TickField :=
  before ← seen !! p.1;
  Some (if before : bool then p.2 else mkTickField (tf_output_name p.2) (append_nulls (tf_builder p.2) 1)).

Definition tick_row (st : IntradayTickState) (tick : E) : option IntradayTickState :=
  let '(b, rejected) := append_value ryu_text other_text (tk_ticker_builder st) (Some (BString (tk_ticker st))) in
  if rejected then None
  else
    let st := mkTickState (tk_ticker st) (tk_column_names st) b (tk_fields st) (tk_lookup_names st)
                (replicate (length (tk_fields st)) false) (tk_row_count st) (tk_meta st) in
    st ← append_tick_fields st (children tick);
    fields ← mapM (null_unseen (tk_seen st)) (imap pair (tk_fields st));
    Some (mkTickState (tk_ticker st) (tk_column_names st) (tk_ticker_builder st) fields (tk_lookup_names st)
            (tk_seen st) (S (tk_row_count st)) (tk_meta st)).

Fixpoint tick_rows (st : IntradayTickState) (l : list E) : option IntradayTickState :=
  match l with [] => Some st | tick :: l => st ← tick_row st tick; tick_rows st l end.

(** [eidData] and the ticks of a message. *)
Definition tick_children (root : E) : option E * option E :=
  match e_get root "tickData" with
  | None => (None, None)
  | Some outer =>
      let found := find_children outer ["eidData"; "tickData"]%string in
      (mjoin (found !! 0%nat), mjoin (found !! 1%nat))
  end.

Definition tick_process_message (st : IntradayTickState) (root : E) : option IntradayTickState :=
  let '(eids, tick_data) := tick_children root in
  let m := match eids with Some eids => record_eid_data (tk_meta st) (tk_ticker st) eids | None => tk_meta st end in
  let st := mkTickState (tk_ticker st) (tk_column_names st) (tk_ticker_builder st) (tk_fields st)
              (tk_lookup_names st) (tk_seen st) (tk_row_count st) m in
  match tick_data with
  | None => Some st
  | Some tick_data => tick_rows st (elements tick_data)
  end.

Context {Col : Type} `{ArrowOps Col} `{ArrowBuild Col}.
Context `{JE : Json (gmap string (list Z))} `{JS : Json (gmap string SecurityErrorMeta)}.
Context `{JD : Json (gmap string DelayedMeta)} `{JM : Json (gmap string Z)}.
Context `{EX : ExceptionsJson}.
Variable ids_to_json : list string -> string.

Definition builder_field (name : string) (b : TypedBuilder) : Field := nullable_field name (tb_type b).
Definition builder_array (b : TypedBuilder) : Col := array_of (tb_type b) (tb_values b).

Definition tick_finish_batch (st : IntradayTickState) : option (result (ArrowBatch Col) BlpError) :=
  let fields := builder_field TICKER_COLUMN (tk_ticker_builder st)
                :: ((fun f => builder_field (tf_output_name f) (tf_builder f)) <$> tk_fields st) in
  let arrays := builder_array (tk_ticker_builder st) :: ((fun f => builder_array (tf_builder f)) <$> tk_fields st) in
  match try_new (mkSchema fields ∅) arrays with
  | Err e => Some (Err (Internal ("build IntradayTick RecordBatch: " +:+ e)%string))
  | Ok batch => Ok <$> attach ids_to_json (tk_meta st) batch
  end.

Definition tick_finish (st : IntradayTickState) (root : E) : option (result (ArrowBatch Col) BlpError) :=
  match top_level_response_error root "//blp/refdata" "IntradayTickRequest" with
  | Some error => Some (Err error)
  | None => st ← tick_process_message st root; tick_finish_batch st
  end.

Fixpoint tick_run (st : IntradayTickState) (partials : list E) (final : E)
  : option (result (ArrowBatch Col) BlpError) :=
  match partials with
  | [] => tick_finish st final
  | root :: partials => st ← tick_process_message st root; tick_run st partials final
  end.
End Ticks.

(** ** The table of ticks *)

Record TickTable : Type := mkTickTable {
  tt_columns : list (string * ArrowType);
  tt_rows : list (gmap string (option ArrayCell))
}.

Section Table.
Context {E : Type} `{SL : Sdk E} `{SS : SdkScalars E} `{SA : SdkArrays E} `{CS : ChronoStamp}.
Variables ryu_text other_text : spec_float -> string.
Variable t : string.
Abbreviation TickRow := (gmap string (option ArrayCell)).

(** A child fills in its column unless the row has it; a scalar child of a new name adds
    a column. *)
Definition table_child (cur : list (string * ArrowType) * TickRow) (child : E)
  : list (string * ArrowType) * TickRow :=
  let '(cols, row) := cur in
  let n := e_name child in
  match find_column cols n with
  | Some c => (cols, match row !! n with Some _ => row | None => <[n := child_cell c.2 child]> row end)
  | None =>
      if should_emit_scalar_field child && negb (bool_decide (n = TICKER_COLUMN)) then
        let ty := arrow_type_for_element (e_datatype child) in
        (cols ++ [(n, ty)], <[n := child_cell ty child]> row)
      else (cols, row)
  end.

Definition table_tick (tb : TickTable) (tick : E) : TickTable :=
  let '(cols, row) := fold_left table_child (children tick) (tt_columns tb, ∅) in
  mkTickTable cols (tt_rows tb ++ [row]).

Definition ticks_table (ticks : list E) : TickTable := fold_left table_tick ticks (mkTickTable CORE_TICK_FIELDS []).

(** *** The relation *)

Definition tick_cells (rows : list TickRow) (n : string) : list (option ArrayCell) :=
  (fun row => mjoin (row !! n)) <$> rows.

Definition field_of (rows : list TickRow) (row : TickRow) (c : string * ArrowType) : TickField :=
  mkTickField c.1 (mkBuilderT c.2 (tick_cells rows c.1 ++ option_list (row !! c.1))).

Definition marks (cols : list (string * ArrowType)) (row : TickRow) : list bool :=
  (fun c => bool_decide (is_Some (row !! c.1))) <$> cols.

Definition named_in (cols : list (string * ArrowType)) (row : TickRow) : Prop :=
  forall n, is_Some (row !! n) -> n ∈ cols.*1.

(** The fields of the state, in a row with [k] tickers. *)
Record tick_rel (cols : list (string * ArrowType)) (rows : list TickRow) (row : TickRow) (k : nat)
  (m : ResponseMetadata) (st : IntradayTickState) : Prop := mkTickRel {
  tr_fields : tk_fields st = field_of rows row <$> cols;
  tr_lookup : tk_lookup_names st = cols.*1;
  tr_names : forall n, n ∈ tk_column_names st <-> n = TICKER_COLUMN \/ n ∈ cols.*1;
  tr_count : tk_row_count st = length rows;
  tr_nodup : NoDup cols.*1;
  tr_rows : Forall (named_in cols) rows;
  tr_row : named_in cols row;
  tr_ticker : tk_ticker st = t;
  tr_tickers : tk_ticker_builder st = mkBuilderT ATString (replicate k (Some (CellStr t)));
  tr_meta : tk_meta st = m
}.

Lemma name_index_find (cols : list (string * ArrowType)) (child : E) :
  match name_index child cols.*1 with
  | Some i => exists c, cols !! i = Some c /\ c.1 = e_name child /\ find_column cols (e_name child) = Some c
  | None => find_column cols (e_name child) = None /\ e_name child ∉ cols.*1
  end.
Proof.
  unfold name_index, find_column. induction cols as [|c cols IH]; [split; [done|apply not_elem_of_nil]|].
  rewrite fmap_cons. simpl. destruct (decide (e_name child = c.1)) as [He|He].
  - simpl. exists c. rewrite bool_decide_true by done. done.
  - rewrite bool_decide_false by done. destruct (list_find (eq (e_name child)) cols.*1) as [[i y]|]; simpl in *; [done|].
    destruct IH as [IH1 IH2]. split; [done|]. by rewrite not_elem_of_cons.
Qed.

(** Writing a cell of the row. *)
Lemma write_fields cols rows row i c v :
  NoDup cols.*1 -> cols !! i = Some c -> row !! c.1 = None ->
  <[i := mkTickField c.1 (mkBuilderT c.2 (tick_cells rows c.1 ++ [v]))]> (field_of rows row <$> cols)
  = field_of rows (<[c.1 := v]> row) <$> cols.
Proof.
  intros Hnd Hi Hr. apply list_eq. intros j. rewrite list_lookup_fmap. destruct (decide (j = i)) as [->|Hj].
  - rewrite list_lookup_insert_eq by (rewrite length_fmap; by eapply lookup_lt_Some). rewrite Hi. simpl.
    unfold field_of. by rewrite lookup_insert_eq.
  - rewrite list_lookup_insert_ne, list_lookup_fmap by done. destruct (cols !! j) as [d|] eqn:Hd; [|done]. simpl.
    unfold field_of. rewrite lookup_insert_ne; [done|]. intros Hcd. apply Hj.
    apply (NoDup_lookup _ _ _ c.1 Hnd); rewrite list_lookup_fmap; [by rewrite Hd, Hcd|by rewrite Hi].
Qed.

Lemma write_marks cols row i c v :
  NoDup cols.*1 -> cols !! i = Some c -> <[i := true]> (marks cols row) = marks cols (<[c.1 := v]> row).
Proof.
  intros Hnd Hi. unfold marks. apply list_eq. intros j. rewrite list_lookup_fmap. destruct (decide (j = i)) as [->|Hj].
  - rewrite list_lookup_insert_eq by (rewrite length_fmap; by eapply lookup_lt_Some). rewrite Hi. simpl.
    by rewrite lookup_insert_eq.
  - rewrite list_lookup_insert_ne, list_lookup_fmap by done. destruct (cols !! j) as [d|] eqn:Hd; [|done]. simpl.
    rewrite lookup_insert_ne; [done|]. intros Hcd. apply Hj.
    apply (NoDup_lookup _ _ _ c.1 Hnd); rewrite list_lookup_fmap; [by rewrite Hd, Hcd|by rewrite Hi].
Qed.

(** The value of a child of a known column. *)
Lemma place_ok cols rows row k m st i c child :
  tick_rel cols rows row k m st -> tk_seen st = marks cols row -> cols !! i = Some c -> c.1 = e_name child ->
  exists st', place_child st i child = Some st'
    /\ let row' := match row !! c.1 with Some _ => row | None => <[c.1 := child_cell c.2 child]> row end in
       tick_rel cols rows row' k m st' /\ tk_seen st' = marks cols row'.
Proof.
  intros [Kf Kl Kn Kc Knd Krs Kr Kt Kts Km] Hs Hi Hc. unfold place_child.
  assert ((length (tk_seen st) <=? i)%nat = false) as ->.
  { apply Nat.leb_gt. rewrite Hs. unfold marks. rewrite length_fmap. by eapply lookup_lt_Some. }
  assert (marks cols row !! i = Some (bool_decide (is_Some (row !! c.1)))) as Hmark.
  { unfold marks. by rewrite list_lookup_fmap, Hi. }
  rewrite Hs, Hmark. cbn [mbind option_bind].
  destruct (row !! c.1) as [v|] eqn:Hr.
  - rewrite bool_decide_true by done. eexists. split; [done|]. cbv zeta. split; [by constructor|done].
  - rewrite bool_decide_false by (by intros [? ?]). rewrite Kf, list_lookup_fmap, Hi. simpl.
    eexists. split; [done|]. cbv zeta. unfold append_child_value. simpl. rewrite Hr. simpl. rewrite app_nil_r. split.
    + constructor; simpl; try done; [by apply write_fields|].
      intros n. destruct (decide (n = c.1)) as [->|Hn]; [|by rewrite lookup_insert_ne; [apply Kr|]].
      intros _. rewrite list_elem_of_lookup. exists i. by rewrite list_lookup_fmap, Hi.
    + by apply write_marks.
Qed.

(** Marks that are missing read as not seen. *)
Lemma place_resized st i (child : E) :
  (length (tk_seen st) <= i)%nat -> (i < length (tk_fields st))%nat ->
  place_child st i child
  = place_child (tick_set st (tk_column_names st) (tk_fields st) (tk_lookup_names st)
                   (resize (tk_seen st) (length (tk_fields st)))) i child.
Proof.
  intros Hl Hi. unfold place_child. simpl. rewrite (proj2 (Nat.leb_le _ _) Hl).
  assert (length (resize (tk_seen st) (length (tk_fields st))) = length (tk_fields st)) as Hlen.
  { unfold resize. rewrite length_app, length_take, length_replicate. lia. }
  by rewrite Hlen, (proj2 (Nat.leb_gt _ _) Hi).
Qed.

Lemma resize_marks cols row c :
  row !! c.1 = None -> resize (marks cols row) (S (length cols)) = marks (cols ++ [c]) row.
Proof.
  intros Hr. unfold resize, marks. rewrite take_ge, length_fmap, fmap_app by (rewrite length_fmap; lia). f_equal.
  rewrite Nat.sub_succ_l, Nat.sub_diag by lia. simpl. rewrite bool_decide_false; [done|]. rewrite Hr. by intros [? ?].
Qed.

(** A new column. *)
Lemma discover_ok cols rows row k m st (child : E) :
  tick_rel cols rows row k m st -> tk_seen st = marks cols row ->
  e_name child ∉ cols.*1 -> e_name child <> TICKER_COLUMN ->
  let c := (e_name child, arrow_type_for_element (e_datatype child)) in
  exists st', discover_tick_field st child = (st', Some (length cols))
    /\ tk_seen st' = tk_seen st /\ tick_rel (cols ++ [c]) rows row k m st'.
Proof.
  intros [Kf Kl Kn Kc Knd Krs Kr Kt Kts Km] Hs Hn Htk. cbv zeta. unfold discover_tick_field.
  rewrite (bool_decide_false (e_name child = TICKER_COLUMN)) by done.
  rewrite bool_decide_false by (rewrite Kn; naive_solver). simpl.
  assert (row !! e_name child = None) as Hrow.
  { destruct (row !! e_name child) eqn:Hx; [|done]. exfalso. apply Hn, Kr. by eexists. }
  assert (forall r, named_in cols r -> named_in (cols ++ [(e_name child, arrow_type_for_element (e_datatype child))]) r) as Hmono.
  { intros r Hr n Hx%Hr. rewrite fmap_app, elem_of_app. by left. }
  eexists. split; [f_equal; rewrite length_app, Kf, length_fmap; simpl; f_equal; lia|]. split; [done|].
  constructor; simpl; try done.
  - rewrite Kf, fmap_app. simpl. f_equal. unfold field_of. simpl. rewrite Hrow, Kc. simpl. rewrite app_nil_r.
    unfold append_nulls. simpl. do 3 f_equal. apply list_eq. intros j. unfold tick_cells. rewrite list_lookup_fmap.
    destruct (rows !! j) as [r|] eqn:Hj.
    + simpl. rewrite lookup_replicate_2 by (by eapply lookup_lt_Some). destruct (r !! e_name child) eqn:Hx; [|done].
      exfalso. apply Hn, (Forall_lookup_1 _ _ _ _ Krs Hj). by eexists.
    + apply lookup_ge_None in Hj. simpl. by apply lookup_replicate_None.
  - by rewrite Kl, fmap_app.
  - intros n. rewrite fmap_app. simpl. set_solver.
  - rewrite fmap_app. apply NoDup_app. split; [done|]. split; [|apply NoDup_singleton].
    intros n Hin ->%list_elem_of_singleton. done.
  - eapply Forall_impl; [exact Krs|]. intros r Hr. by apply Hmono.
  - by apply Hmono.
Qed.

Lemma tick_child_ok cols rows row k m st child :
  tick_rel cols rows row k m st -> tk_seen st = marks cols row ->
  exists st', append_tick_child st child = Some st'
    /\ let '(cols', row') := table_child (cols, row) child in
       tick_rel cols' rows row' k m st' /\ tk_seen st' = marks cols' row'.
Proof.
  intros Hrel Hs. unfold append_tick_child, table_child. rewrite (tr_lookup _ _ _ _ _ _ Hrel).
  pose proof (name_index_find cols child) as Hf. destruct (name_index child cols.*1) as [i|].
  - destruct Hf as (c & Hi & Hc & ->). rewrite <- Hc. exact (place_ok _ _ _ _ _ _ _ _ _ Hrel Hs Hi Hc).
  - destruct Hf as [-> Hn]. destruct (should_emit_scalar_field child); simpl; [|by exists st].
    case_bool_decide as Htk; simpl.
    + exists st. split; [|done]. unfold discover_tick_field. by rewrite bool_decide_true.
    + set (c := (e_name child, arrow_type_for_element (e_datatype child))).
      destruct (discover_ok _ _ _ _ _ _ child Hrel Hs Hn Htk) as (st1 & -> & Hs1 & Hrel1). fold c in Hrel1.
      assert (row !! c.1 = None) as Hrow.
      { destruct (row !! c.1) eqn:Hx; [|done]. exfalso. apply Hn, (tr_row _ _ _ _ _ _ Hrel). by eexists. }
      assert (length (tk_fields st1) = S (length cols)) as Hlen.
      { rewrite (tr_fields _ _ _ _ _ _ Hrel1), length_fmap, length_app. simpl. lia. }
      rewrite place_resized, Hlen by (rewrite ?Hs1, ?Hs; unfold marks; rewrite ?length_fmap; lia).
      destruct (place_ok (cols ++ [c]) rows row k m
        (tick_set st1 (tk_column_names st1) (tk_fields st1) (tk_lookup_names st1) (resize (tk_seen st1) (S (length cols))))
        (length cols) c child) as (st2 & E2 & H2); try done.
      * destruct Hrel1. by constructor.
      * simpl. rewrite Hs1, Hs. by apply resize_marks.
      * by rewrite lookup_app_r, Nat.sub_diag by lia.
      * exists st2. split; [exact E2|]. cbv zeta in H2. by rewrite Hrow in H2.
Qed.

Lemma tick_fields_ok l : forall cols rows row k m st,
  tick_rel cols rows row k m st -> tk_seen st = marks cols row ->
  exists st', append_tick_fields st l = Some st'
    /\ let '(cols', row') := fold_left table_child l (cols, row) in
       tick_rel cols' rows row' k m st' /\ tk_seen st' = marks cols' row'.
Proof.
  induction l as [|c l IH]; intros cols rows row k m st Hrel Hs; [by exists st|].
  cbn [append_tick_fields fold_left]. destruct (tick_child_ok _ _ _ _ _ _ c Hrel Hs) as (st1 & -> & H1).
  destruct (table_child (cols, row) c) as [cols1 row1]. destruct H1 as [Hrel1 Hs1]. cbn [mbind option_bind].
  exact (IH _ _ _ _ _ _ Hrel1 Hs1).
Qed.

(** The columns of the fields that a tick does not have. *)
Lemma null_unseen_ok cols rows row :
  mapM (null_unseen (marks cols row)) (imap pair (field_of rows row <$> cols))
  = Some (field_of (rows ++ [row]) ∅ <$> cols).
Proof.
  apply mapM_Some, Forall2_same_length_lookup_2; [by rewrite length_imap, !length_fmap|].
  intros i x y Hx Hy. rewrite list_lookup_imap, list_lookup_fmap in Hx. rewrite list_lookup_fmap in Hy.
  destruct (cols !! i) as [c|] eqn:Hi; [|done]. simplify_eq/=. unfold null_unseen, marks. simpl.
  rewrite list_lookup_fmap, Hi. simpl. f_equal. unfold field_of. rewrite lookup_empty. simpl. rewrite app_nil_r.
  unfold tick_cells. rewrite fmap_app. simpl. destruct (row !! c.1) as [v|]; simpl; [done|].
  unfold append_nulls. simpl. by rewrite app_nil_r.
Qed.

Definition tick_ok (tb : TickTable) (m : ResponseMetadata) (st : IntradayTickState) : Prop :=
  tick_rel (tt_columns tb) (tt_rows tb) ∅ (length (tt_rows tb)) m st.

Lemma tick_row_ok tb m st tick :
  tick_ok tb m st -> exists st', tick_row ryu_text other_text st tick = Some st' /\ tick_ok (table_tick tb tick) m st'.
Proof.
  intros [Kf Kl Kn Kc Knd Krs Kr Kt Kts Km]. unfold tick_row, append_value. rewrite Kts, Kt. cbn.
  set (st0 := mkTickState _ _ _ _ _ _ _ _).
  destruct (tick_fields_ok (children tick) (tt_columns tb) (tt_rows tb) ∅ (S (length (tt_rows tb))) m st0) as (st1 & E1 & H1).
  { constructor; try done. unfold st0. cbn [tk_ticker_builder]. by rewrite replicate_S_end. }
  { simpl. rewrite Kf, length_fmap. unfold marks. symmetry. by apply (const_fmap (fun c : string * ArrowType => bool_decide (is_Some ((∅ : TickRow) !! c.1)))); intros; rewrite lookup_empty. }
  rewrite E1. cbn [mbind option_bind]. unfold tick_ok, table_tick.
  destruct (fold_left table_child (children tick) (tt_columns tb, ∅)) as [cols row].
  destruct H1 as [[Jf Jl Jn Jc Jnd Jrs Jr Jt Jts Jm] Hs]. rewrite Hs, Jf, null_unseen_ok. cbn [mbind option_bind].
  eexists. split; [done|]. constructor; simpl; try done.
  - rewrite length_app, Jc. simpl. lia.
  - apply Forall_app. by repeat constructor.
  - by intros n [? ?].
  - by rewrite length_app, Nat.add_1_r.
Qed.

Lemma tick_rows_ok l : forall tb m st,
  tick_ok tb m st ->
  exists st', tick_rows ryu_text other_text st l = Some st' /\ tick_ok (fold_left table_tick l tb) m st'.
Proof.
  induction l as [|tick l IH]; intros tb m st Hok; [by exists st|]. cbn [tick_rows fold_left].
  destruct (tick_row_ok tb m st tick Hok) as (st1 & -> & Hok1). cbn [mbind option_bind]. by apply IH.
Qed.

Definition message_ticks (root : E) : list E := from_option elements [] (tick_children root).2.

Definition with_eids (eids : gmap string (list Z)) (root : E) : gmap string (list Z) :=
  upsert t ((fun e => default [] (eids !! t) ++ omap (fun i => e_i32 e i) (seq 0 (e_len e))) <$> (tick_children root).1) eids.

Definition collected (ticks : list E) (eids : gmap string (list Z)) (st : IntradayTickState) : Prop :=
  exists m, tick_ok (ticks_table ticks) m st /\ bars_say (E := E) [] eids m.

Lemma tick_message_ok ticks eids st root :
  collected ticks eids st ->
  exists st', tick_process_message ryu_text other_text st root = Some st'
    /\ collected (ticks ++ message_ticks root) (with_eids eids root) st'.
Proof.
  intros (m & Hok & Hm). unfold tick_process_message, message_ticks, with_eids.
  apply (bars_say_eids t _ _ _ (tick_children root).1) in Hm.
  destruct (tick_children root) as [e td]. cbn [fst snd] in *.
  rewrite (tr_ticker _ _ _ _ _ _ Hok), (tr_meta _ _ _ _ _ _ Hok).
  set (m' := match e with Some eids => _ | None => _ end) in *. set (st0 := mkTickState _ _ _ _ _ _ _ _).
  assert (tick_ok (ticks_table ticks) m' st0) as Hok0 by (destruct Hok; by constructor).
  destruct td as [td|]; simpl.
  - destruct (tick_rows_ok (elements td) _ _ _ Hok0) as (st1 & -> & Hok1). exists st1. split; [done|].
    exists m'. split; [|done]. unfold ticks_table in *. by rewrite fold_left_app.
  - eexists. split; [done|]. rewrite app_nil_r. by exists m'.
Qed.

Lemma tick_new_ok : collected [] ∅ (tick_new t).
Proof.
  exists metadata_default. split; [|by split]. constructor; simpl; try done.
  - intros n. unfold CORE_TICK_FIELDS. simpl. set_solver.
  - apply (bool_decide_unpack _). vm_compute. exact I.
  - by intros n [? ?].
Qed.
End Table.

(** ** Streamed ticks *)

(** A bounded channel whose sender does not wait. *)
Record TickChannel (B : Type) : Type := mkTickChannel {
  tc_capacity : nat;
  tc_queue : list (result B BlpError);
  tc_receiver : bool
}.
Arguments mkTickChannel {B}.
Arguments tc_capacity {B}.
Arguments tc_queue {B}.
Arguments tc_receiver {B}.

(** [let _ = self.stream.try_send(item)] *)
Definition try_send_chunk {B} (c : TickChannel B) (item : result B BlpError) : TickChannel B :=
  if tc_receiver c && (length (tc_queue c) <? tc_capacity c)%nat
  then mkTickChannel (tc_capacity c) (tc_queue c ++ [item]) true
  else c.

Definition recv_chunk {B} (c : TickChannel B) : option (result B BlpError * TickChannel B) :=
  match tc_queue c with
  | item :: q => if tc_receiver c then Some (item, mkTickChannel (tc_capacity c) q true) else None
  | [] => None
  end.

Definition tick_stream_fields : list Field :=
  [mkField "ticker" (to_arrow_datatype ATString) false ∅; nullable_field "time" ATTimestampMicros;
   nullable_field "type" ATString; nullable_field "value" ATFloat64; nullable_field "size" ATInt64].

Section TickStream.
Context {E : Type} `{Sdk E} `{SdkScalars E} `{SdkArrays E}.
Context {Col : Type} `{ArrowOps Col} `{ArrowBuild Col}.
Context `{JE : Json (gmap string (list Z))} `{JS : Json (gmap string SecurityErrorMeta)}.
Context `{JD : Json (gmap string DelayedMeta)} `{JM : Json (gmap string Z)}.
Context `{EX : ExceptionsJson}.
Variable ids_to_json : list string -> string.

Record IntradayTickStreamState : Type := mkTickStream {
  tks_ticker : string;
  tks_stream : TickChannel (ArrowBatch Col);
  tks_schema : option (list Field)
}.

Definition tickstream_new (t : string) (capacity : nat) : IntradayTickStreamState :=
  mkTickStream t (mkTickChannel capacity [] true) None.

Definition read_core {A} (name : string) (get : E -> option A) (tick : E) : option A := e_get tick name ≫= get.

Definition read_size (e : E) : option Z :=
  match e_i64 e 0 with Some s => Some s | None => e_i32 e 0 end.

(** The columns of the core fields of ticks. *)
Definition core_columns (t : string) (ticks : list E) : list Col :=
  [array_of ATString ((fun _ => Some (CellStr t)) <$> ticks);
   array_of ATTimestampMicros ((fun tick => CellStamp <$> read_core "time" (fun e => get_timestamp_us e 0) tick) <$> ticks);
   array_of ATString ((fun tick => CellStr <$> read_core "type" (fun e => e_str e 0) tick) <$> ticks);
   array_of ATFloat64 ((fun tick => CellF64 <$> read_core "value" (fun e => e_f64 e 0) tick) <$> ticks);
   array_of ATInt64 ((fun tick => CellI64 <$> read_core "size" read_size tick) <$> ticks)]%string.

(** The cached schema and the chunk, if there is one; the outer [None] is a panic. *)
Definition tickstream_process_message (st : IntradayTickStreamState) (root : E)
  : option (option (list Field) * option (ArrowBatch Col)) :=
  match e_get root "tickData" with
  | None => Some (tks_schema st, None)
  | Some _ =>
      let '(eids, tick_data) := tick_children root in
      let m := match eids with
               | Some eids => record_eid_data metadata_default (tks_ticker st) eids
               | None => metadata_default
               end in
      let n := from_option e_len 0%nat tick_data in
      if (n =? 0)%nat && is_none eids then Some (tks_schema st, None)
      else
        let ticks := from_option elements [] tick_data in
        let schema := default tick_stream_fields (tks_schema st) in
        match try_new (mkSchema schema ∅) (core_columns (tks_ticker st) ticks) with
        | Err _ => Some (Some schema, None)
        | Ok batch => b ← attach ids_to_json m batch; Some (Some schema, Some b)
        end
  end.

Definition tickstream_on_partial (st : IntradayTickStreamState) (root : E) : option IntradayTickStreamState :=
  '(schema, batch) ← tickstream_process_message st root;
  Some (mkTickStream (tks_ticker st)
          (match batch with Some b => try_send_chunk (tks_stream st) (Ok b) | None => tks_stream st end) schema).

Definition tickstream_finish (st : IntradayTickStreamState) (root : E) : option IntradayTickStreamState :=
  match top_level_response_error root "//blp/refdata" "IntradayTickRequest" with
  | Some error => Some (mkTickStream (tks_ticker st) (try_send_chunk (tks_stream st) (Err error)) (tks_schema st))
  | None => tickstream_on_partial st root
  end.

Definition tickstream_fail (st : IntradayTickStreamState) (error : BlpError) : IntradayTickStreamState :=
  mkTickStream (tks_ticker st) (try_send_chunk (tks_stream st) (Err error)) (tks_schema st).
End TickStream.

(** ** Answers and chunks *)

Section TickAnswers.
Context {Col : Type} `{AL : ArrowLaws Col} `{AB : ArrowBuild Col} `{!ArrowBuildLaws Col} `{!ArrowNullLaws Col}.
Context `{LE : JsonLaws (gmap string (list Z))} `{LS : JsonLaws (gmap string SecurityErrorMeta)}.
Context `{LD : JsonLaws (gmap string DelayedMeta)} `{LM : JsonLaws (gmap string Z)}.
Context `{LX : ExceptionsJsonLaws}.
Variable ids_to_json : list string -> string.
Variable ids_from_json : string -> option (list string).
Hypothesis ids_json : forall l, ids_from_json (ids_to_json l) = Some l.
Context {E : Type} `{SL : SdkScalarLaws E} `{SA : SdkArrays E} `{CS : ChronoStamp}.
Variables ryu_text other_text : spec_float -> string.
Variable t : string.

Local Abbreviation reading := (reading ids_from_json).
Local Abbreviation Item := (result (ArrowBatch Col) BlpError).

Definition tick_batch (tb : TickTable) (eids : gmap string (list Z)) (b : ArrowBatch Col) : Prop :=
  fields (b_schema b) = (fun c => nullable_field c.1 c.2) <$> ((TICKER_COLUMN, ATString) :: tt_columns tb)
  /\ b_columns b = array_of ATString (replicate (length (tt_rows tb)) (Some (CellStr t)))
                   :: ((fun c => array_of c.2 (tick_cells (tt_rows tb) c.1)) <$> tt_columns tb)
  /\ b_rows b = length (tt_rows tb) /\ reading b = mkReading eids ∅ ∅ ∅ ∅ [].

Lemma bars_say_meaning (m : ResponseMetadata) eids :
  bars_say (E := E) [] eids m -> metadata_ok m /\ meaning m = mkReading eids ∅ ∅ ∅ ∅ [].
Proof.
  intros [Hm Hc]. assert (type_misses m = ∅) as Hn.
  { apply map_eq. intros n. by rewrite Hc, lookup_empty. }
  rewrite Hm, Hn. split; [|done]. split; [split; [constructor|apply map_Forall_empty]|constructor].
Qed.

Lemma tick_batch_ok ticks eids st :
  collected (E := E) t ticks eids st ->
  exists b, tick_finish_batch ids_to_json st = Some (Ok b) /\ tick_batch (ticks_table ticks) eids b.
Proof.
  intros (m & [Kf Kl Kn Kc Knd Krs Kr Kt Kts Km] & [Hok Hmean]%bars_say_meaning). set (tb := ticks_table ticks) in *.
  unfold tick_finish_batch. rewrite Kf, Kts, Km. rewrite <- !list_fmap_compose.
  rewrite (try_new_ok _ _ (length (tt_rows tb))); [|done|].
  - destruct (attach_fresh ids_to_json ids_from_json ids_json m
      (builder_field TICKER_COLUMN (mkBuilderT ATString (replicate (length (tt_rows tb)) (Some (CellStr t))))
       :: ((fun f => builder_field (tf_output_name f) (tf_builder f)) ∘ field_of (tt_rows tb) ∅ <$> tt_columns tb))
      (builder_array (Col := Col) (mkBuilderT ATString (replicate (length (tt_rows tb)) (Some (CellStr t))))
       :: ((fun f => builder_array (tf_builder f)) ∘ field_of (tt_rows tb) ∅ <$> tt_columns tb))
      (length (tt_rows tb)) Hok) as (b & -> & Hfl & Hc & Hr & Hread).
    exists b. split; [done|]. split_and!; [rewrite Hfl; done| |done|by rewrite Hread].
    rewrite Hc. f_equal. apply list_fmap_ext. intros i c _. unfold builder_array. simpl. by rewrite lookup_empty, app_nil_r.
  - constructor; [apply nullable_fits, length_replicate|]. apply Forall2_fmap, Forall_Forall2_diag, Forall_forall.
    intros c _. apply nullable_fits. simpl. rewrite lookup_empty, app_nil_r. apply length_fmap.
Qed.

Definition all_ticks (roots : list E) : list E := concat (message_ticks <$> roots).

Lemma tick_run_ok partials final : forall ticks eids st,
  collected t ticks eids st ->
  top_level_response_error final "//blp/refdata" "IntradayTickRequest" = None ->
  exists b, tick_run ryu_text other_text ids_to_json st partials final = Some (Ok b)
    /\ tick_batch (ticks_table (ticks ++ all_ticks (partials ++ [final])))
         (fold_left (with_eids t) (partials ++ [final]) eids) b.
Proof.
  induction partials as [|root partials IH]; intros ticks eids st Hok Hte; simpl.
  - unfold tick_finish. rewrite Hte. destruct (tick_message_ok ryu_text other_text t _ _ st final Hok) as (st' & -> & Hok').
    cbn [mbind option_bind]. unfold all_ticks. simpl. rewrite app_nil_r. by apply tick_batch_ok.
  - destruct (tick_message_ok ryu_text other_text t _ _ st root Hok) as (st' & -> & Hok'). cbn [mbind option_bind].
    destruct (IH _ _ st' Hok' Hte) as (b & Hrun & Hb). exists b. split; [done|]. by rewrite <- (assoc_L (++)) in Hb.
Qed.

(** C18: The answer to an intraday tick request is the table of its ticks.  However the ticks are
    split into messages, nothing panics: a rejected request fails with the rejection;
    otherwise the batch has a row per tick in order, the security, the core columns, and a
    column per further scalar child in the order these are first seen, typed by the first
    one, null in the rows before it; a row has the first child of each column and null where
    it has none; and the batch has the entitlements of the messages. *)
Theorem tick_answer_is_table (partials : list E) final :
  let answer := tick_run ryu_text other_text ids_to_json (tick_new t) partials final in
  match top_level_response_error final "//blp/refdata" "IntradayTickRequest" with
  | Some e => answer = Some (Err e)
  | None => exists b, answer = Some (Ok b)
              /\ tick_batch (ticks_table (all_ticks (partials ++ [final])))
                   (fold_left (with_eids t) (partials ++ [final]) ∅) b
  end.
Proof.
  cbv zeta. destruct (top_level_response_error final _ _) as [e|] eqn:Hte; [|apply (tick_run_ok partials final []); [apply tick_new_ok|done]].
  assert (forall ticks eids st, collected t ticks eids st ->
            tick_run (Col := Col) ryu_text other_text ids_to_json st partials final = Some (Err e)) as Herr.
  { induction partials as [|root partials IH]; intros ticks eids st Hok; simpl; [unfold tick_finish; by rewrite Hte|].
    destruct (tick_message_ok ryu_text other_text t _ _ st root Hok) as (st' & -> & Hok'). cbn [mbind option_bind].
    by eapply IH. }
  eapply Herr, tick_new_ok.
Qed.

(** *** Streamed *)

Definition ticks_send (root : E) : bool :=
  negb (is_none (tick_children root).1) || from_option (fun e => negb (e_len e =? 0)%nat) false (tick_children root).2.

Definition tick_chunk (root : E) (b : ArrowBatch Col) : Prop :=
  fields (b_schema b) = tick_stream_fields /\ b_columns b = core_columns t (message_ticks root)
  /\ b_rows b = length (message_ticks root) /\ reading b = mkReading (with_eids t ∅ root) ∅ ∅ ∅ ∅ [].

Lemma core_columns_fit (ticks : list E) : Forall2 (column_fits (length ticks)) tick_stream_fields (core_columns (Col := Col) t ticks).
Proof.
  unfold tick_stream_fields, core_columns.
  constructor; [|repeat (constructor; [apply nullable_fits, length_fmap|]); constructor].
  destruct (array_of_ok (Col := Col) ATString ((fun _ => Some (CellStr t)) <$> ticks)) as [Ht Hl].
  split; [done|]. split; [|by rewrite Hl, length_fmap]. intros _. apply array_of_nulls.
  apply Forall_fmap, Forall_forall. intros tick _. by eexists.
Qed.

Definition schema_fits (st : IntradayTickStreamState (Col := Col)) : Prop :=
  tks_ticker st = t /\ default tick_stream_fields (tks_schema st) = tick_stream_fields.

Lemma tick_chunk_ok st (root : E) :
  schema_fits st ->
  exists st' more, tickstream_on_partial ids_to_json st root = Some st' /\ schema_fits st'
    /\ tks_stream st' = fold_left try_send_chunk (Ok <$> more) (tks_stream st)
    /\ Forall2 tick_chunk (List.filter ticks_send [root]) more.
Proof.
  intros [Kt Ks]. unfold tickstream_on_partial, tickstream_process_message. simpl. unfold ticks_send, tick_chunk, message_ticks, with_eids.
  destruct (e_get root "tickData") as [outer|] eqn:Ho.
  2:{ unfold tick_children. rewrite Ho. simpl. eexists _, []. split_and!; try done; constructor. }
  pose proof (bars_say_meaning _ _ (bars_say_eids t (E := E) [] ∅ metadata_default (tick_children root).1 ltac:(by split)))
    as [Hok Hmean].
  destruct (tick_children root) as [e td] eqn:Hch. cbn [fst snd] in *.
  set (m := match e with Some _ => _ | None => _ end) in Hok, Hmean.
  assert (((from_option e_len 0 td =? 0)%nat && is_none e)
          = negb (negb (is_none e) || from_option (fun e => negb (e_len e =? 0)%nat) false td)) as Hsend.
  { destruct e, td as [d|]; simpl; by rewrite ?andb_false_r, ?andb_true_r, ?negb_involutive. }
  rewrite Hsend, Ks, Kt. destruct (negb (is_none e) || _) eqn:Hs; simpl.
  - rewrite (try_new_ok (mkSchema tick_stream_fields ∅) (core_columns t (from_option elements [] td))
      (length (from_option elements [] td))); [|done|apply core_columns_fit].
    destruct (attach_fresh ids_to_json ids_from_json ids_json m tick_stream_fields
      (core_columns (Col := Col) t (from_option elements [] td)) (length (from_option elements [] td)) Hok)
      as (b & Hb & Hf & Hc & Hr & Hread).
    fold m. rewrite Hb. simpl. eexists _, [b]. split; [done|]. split; [done|]. split; [done|].
    constructor; [|constructor]. rewrite Hch. split_and!; try done. by rewrite Hread.
  - eexists _, []. split_and!; try done; constructor.
Qed.

(** Messages and receives. *)
Inductive TickOp : Type := TickMessage (root : E) | TickRecv.

Definition tick_step (st : IntradayTickStreamState * list Item) (o : TickOp) : option (IntradayTickStreamState * list Item) :=
  match o with
  | TickMessage root => h ← tickstream_on_partial ids_to_json st.1 root; Some (h, st.2)
  | TickRecv =>
      Some (match recv_chunk (tks_stream st.1) with
            | Some (item, c) => (mkTickStream (tks_ticker st.1) c (tks_schema st.1), st.2 ++ [item])
            | None => st
            end)
  end.

Fixpoint tick_steps (ops : list TickOp) (st : IntradayTickStreamState * list Item)
  : option (IntradayTickStreamState * list Item) :=
  match ops with [] => Some st | o :: ops => st ← tick_step st o; tick_steps ops st end.

Definition tick_messages (ops : list TickOp) : list E :=
  omap (fun o => match o with TickMessage root => Some root | TickRecv => None end) ops.

(** What was delivered is in order, and all of it while the channel has room for it. *)
Definition delivering (capacity : nat) (roots : list E) (st : IntradayTickStreamState (Col := Col) * list Item) : Prop :=
  schema_fits st.1 /\ tc_receiver (tks_stream st.1) = true /\ tc_capacity (tks_stream st.1) = capacity
  /\ exists bs, Forall2 tick_chunk (List.filter ticks_send roots) bs
       /\ sublist (st.2 ++ tc_queue (tks_stream st.1)) (Ok <$> bs)
       /\ ((length bs <= capacity)%nat -> st.2 ++ tc_queue (tks_stream st.1) = Ok <$> bs).

Lemma try_send_sublist (c : TickChannel (ArrowBatch Col)) got bs b :
  tc_receiver c = true -> sublist (got ++ tc_queue c) (Ok <$> bs) ->
  ((length bs <= tc_capacity c)%nat -> got ++ tc_queue c = Ok <$> bs) ->
  let c' := try_send_chunk c (Ok b) in
  tc_receiver c' = true /\ tc_capacity c' = tc_capacity c
  /\ sublist (got ++ tc_queue c') (Ok <$> (bs ++ [b]))
  /\ ((length (bs ++ [b]) <= tc_capacity c)%nat -> got ++ tc_queue c' = Ok <$> (bs ++ [b])).
Proof.
  intros Hr Hs Hall. cbv zeta. unfold try_send_chunk. rewrite Hr. simpl. rewrite !fmap_app, length_app. simpl.
  destruct (Nat.ltb_spec (length (tc_queue c)) (tc_capacity c)) as [Hc|Hc]; simpl; rewrite ?(assoc_L (++)).
  - split_and!; try done; [by apply sublist_app|]. intros Hle. by rewrite Hall by lia.
  - split_and!; try done; [by apply sublist_inserts_r|]. intros Hle. exfalso.
    assert (length (got ++ tc_queue c) = length bs) as Hlen by (rewrite Hall by lia; apply length_fmap).
    rewrite length_app in Hlen. lia.
Qed.

(** The stream of ticks delivers its chunks in order.  What the receiver got and can still
    read are the chunks of the messages with ticks or entitlements, in order, less those that
    found the channel full, which nothing reports; while no more than the capacity were
    sent, all of them. *)
Theorem tick_stream_delivers capacity ops :
  exists h got bs, tick_steps ops (tickstream_new t capacity, []) = Some (h, got)
    /\ Forall2 tick_chunk (List.filter ticks_send (tick_messages ops)) bs
    /\ sublist (got ++ tc_queue (tks_stream h)) (Ok <$> bs)
    /\ ((length bs <= capacity)%nat -> got ++ tc_queue (tks_stream h) = Ok <$> bs).
Proof.
  enough (forall ops roots st, delivering capacity roots st ->
            exists st', tick_steps ops st = Some st' /\ delivering capacity (roots ++ tick_messages ops) st') as Hrun.
  { destruct (Hrun ops [] (tickstream_new t capacity, [])) as ([h got] & E1 & _ & _ & _ & bs & Hbs).
    - split; [done|]. split; [done|]. split; [done|]. exists []. split_and!; try done; constructor.
    - by exists h, got, bs. }
  clear ops. induction ops as [|o ops IH]; intros roots [h got] Hd; [exists (h, got); by rewrite app_nil_r|].
  destruct Hd as (Hf & Hr & Hc & bs & Hbs & Hs & Hall). simpl in *. destruct o as [root|]; simpl.
  - destruct (tick_chunk_ok h root Hf) as (h' & more & -> & Hf' & Hst & Hmore). simpl.
    rewrite (cons_middle root), (assoc_L (++)). apply IH. split; [done|]. simpl. rewrite Hst.
    assert (Forall2 tick_chunk (List.filter ticks_send (roots ++ [root])) (bs ++ more)) as Hch
      by (rewrite List.filter_app; by apply Forall2_app).
    destruct more as [|b more].
    + rewrite app_nil_r in Hch. split; [done|]. split; [done|]. by exists bs.
    + assert (more = []) as ->.
      { apply Forall2_length in Hmore. simpl in Hmore. destruct (ticks_send root), more; simpl in *; try done. }
      rewrite <- Hc in *. destruct (try_send_sublist (tks_stream h) got bs b Hr Hs Hall) as (Hr' & Hc' & Hs' & Hall').
      split; [done|]. split; [done|]. exists (bs ++ [b]). split; [done|]. by split.
  - destruct (recv_chunk (tks_stream h)) as [[item c]|] eqn:Hrecv.
    + apply IH. unfold recv_chunk in Hrecv. destruct (tc_queue (tks_stream h)) as [|x q] eqn:Hq; [done|].
      rewrite Hr in Hrecv. simplify_eq/=. split; [done|]. split; [done|]. split; [done|]. exists bs.
      simpl. rewrite <- (assoc_L (++)). by split_and!.
    + apply IH. split; [done|]. split; [done|]. split; [done|]. by exists bs.
Qed.
End TickAnswers.

(** ** Examples *)

Section Examples.
Import Codec Concrete SimpleBuild ConcreteScalars ArrayTrees SimpleNulls.
Local Open Scope string_scope.

Definition tick_tree (children : list Tree) : Tree := TSequence "tick" children.

Definition ticks_tree (ticks : list Tree) : Tree := TSequence "root" [TSequence "tickData" [TArray "tickData" ticks]].

Definition trade : Tree := tick_tree [TValues "type" [SStr "TRADE"]; TValues "exchange" [SStr "SYN"]; TValues "type" [SStr "ASK"]].

(** Two messages; the second adds a column. *)
Lemma tick_answer_is_table_witness :
  exists b, tick_run (Col := SimpleCol) some_text some_text ids_text (tick_new "SYN")
              [ticks_tree [tick_tree [TValues "type" [SStr "BID"]; TArray "codes" []]]] (ticks_tree [trade; trade])
            = Some (Ok b) /\ b_rows b = 3%nat
            /\ f_name <$> fields (b_schema b) = ["ticker"; "time"; "type"; "value"; "size"; "exchange"].
Proof.
  destruct (tick_answer_is_table (Col := SimpleCol) ids_text text_ids text_ids_text some_text some_text "SYN"
    [ticks_tree [tick_tree [TValues "type" [SStr "BID"]; TArray "codes" []]]] (ticks_tree [trade; trade]))
    as (b & Hb & Hf & _ & Hr & _).
  exists b. split; [exact Hb|]. split; [exact Hr|]. rewrite Hf. reflexivity.
Defined.

(** A chunk that finds the channel full is lost, and the stream goes on. *)
Example full_channel_loses_chunk :
  match tick_steps (Col := SimpleCol) ids_text
          [TickMessage (ticks_tree [trade]); TickMessage (ticks_tree [trade; trade]); TickRecv;
           TickMessage (ticks_tree [trade; trade; trade]); TickRecv] (tickstream_new "SYN" 1, []) with
  | Some (_, got) => (fun item => match item with Ok b => b_rows b | Err _ => 0%nat end) <$> got
  | None => []
  end = [1; 3]%nat.
Proof. vm_compute. reflexivity. Qed.
End Examples.
