(* ===== verification/SessionPool.v ===== *)
(** * The pool of subscription sessions

    [SubscriptionSessionPool], [SessionClaim], [ClaimLease] and [CommandLeaseRef] of
    [engine/subscription_pool.rs]: claims of sessions under bounded admission, command
    handles that share the lease of a claim, the return of clean sessions to the pool, and
    its shutdown, signalled or blocking.

    A claim is a task with a program counter; so is a call of a shutdown.  A step is one
    section under a mutex or one atomic operation, and any interleaving of steps is a run.
    Signalling a session that only this claim can still reach is joined with its next step.
    A session is what the pool reads of it: whether it is dead, to be shut down, being stopped
    and clean; callbacks of the SDK and commands change it at any time, but never undo a stop.
    The registry keeps the identifiers of sessions whose handle was dropped; these were
    stopped and another signal changes nothing.  Identifiers do not wrap around.

    Proved: permits are conserved, there are never more sessions than the bound, a session has
    one owner, a pooled session has no command handle, after a blocking shutdown every
    session ever started is stopped and the pool stays empty, and a shutdown never
    blocks for good. *)

From Stdlib Require Import Lia.
From stdpp Require Import list_numbers.
From S2P Require Import Prelude.

(** ** State *)

(** What the pool reads of a session: [health], [shutdown_requested], [stop_started] and
    [is_clean].  Its termination by the SDK requests the shutdown and does not start the stop. *)
Record WorkerView : Type := mkWorkerView {
  w_dead : bool;
  w_shutdown : bool;
  w_stop : bool;
  w_clean : bool
}.

Definition worker_spawned : WorkerView := mkWorkerView false false false true.

Definition worker_reusable (w : WorkerView) : bool := negb (w_dead w) && (negb (w_shutdown w) && w_clean w).

(** [signal_shutdown] of a session: once; its state is drained. *)
Definition worker_signal_shutdown (w : WorkerView) : WorkerView :=
  if w_stop w then w else mkWorkerView true true true true.

Definition worker_shutdown_blocking (w : WorkerView) : WorkerView := mkWorkerView true true true true.

(** The lease of a claim: its session, whether it is valid, and its command handles.
    The permit is returned when the claim and the last handle are gone. *)
Record ClaimLease : Type := mkLease {
  l_worker : nat;
  l_valid : bool;
  l_command_count : nat
}.

(** The counter of a claim, from its permit to the end of its [Drop]. *)
Inductive ClaimPc : Type :=
| CAcquired                        (** the permit was acquired *)
| CAdmitted                        (** [acquire_capacity] returned *)
| CBegun                           (** the creation guard is held *)
| CPop                             (** about to look for a pooled session *)
| CSpawn (id : nat)                (** none was left; [next_id] was taken *)
| CSpawning (id : nat)             (** the pool was open; the session starts *)
| CRegister (id : nat)             (** started, not yet registered *)
| CFinal (id : nat)                (** the last check *)
| CFailed                          (** failed; the guard is still held *)
| CWon (id : nat)                  (** claimed; the guard is still held *)
| CLive (id : nat)                 (** the claim *)
| DInvalid (id : nat)              (** dropped: the lease was invalidated *)
| DCounted (id : nat) (outstanding : bool)
| RCheck (id : nat)                (** [release] *)
| RPush (id : nat)                 (** its section under the mutex *)
| DEnd                             (** the handle is gone *)
| CGone.

#[export] Instance ClaimPc_eq_dec : EqDecision ClaimPc.
Proof. solve_decision. Defined.

Record Claim : Type := mkClaim {
  c_pc : ClaimPc;
  c_lease : option ClaimLease
}.

(** The counter of a shutdown; [blocking] is [shutdown_blocking]. *)
Inductive StopPc : Type :=
| SStart (blocking : bool)
| SClose (blocking : bool)
| SWait
| SSnap (blocking : bool)
| SDrain (blocking : bool) (todo : list nat)
| SDrop (blocking : bool) (handles todo : list nat)
| SStop (blocking : bool) (todo : list nat)
| SDone (blocking : bool)
| SReturned.                       (** another call had shut the pool down *)

Record SessionPool : Type := mkPool {
  p_max : nat;
  p_available : list nat;
  p_registry : list nat;
  p_permits : nat;
  p_closed : bool;
  p_shutdown : bool;
  p_next_id : nat;
  p_creations : nat;
  p_workers : gmap nat WorkerView;
  p_claims : list Claim;
  p_stops : list StopPc
}.

(** [new] with every session started. *)
Definition session_pool_new (size max : nat) : option SessionPool :=
  if (max =? 0)%nat || (max <? size)%nat then None
  else Some (mkPool max (seq 0 size) (seq 0 size) max false false size 0
               (list_to_map ((fun id => (id, worker_spawned)) <$> seq 0 size)) [] []).

(** ** Updates *)

Definition set_pc (p : SessionPool) (i : nat) (c : Claim) : SessionPool :=
  mkPool (p_max p) (p_available p) (p_registry p) (p_permits p) (p_closed p) (p_shutdown p) (p_next_id p)
    (p_creations p) (p_workers p) (<[i := c]> (p_claims p)) (p_stops p).

Definition set_available (p : SessionPool) (l : list nat) : SessionPool :=
  mkPool (p_max p) l (p_registry p) (p_permits p) (p_closed p) (p_shutdown p) (p_next_id p)
    (p_creations p) (p_workers p) (p_claims p) (p_stops p).

Definition register_worker (p : SessionPool) (id : nat) : SessionPool :=
  mkPool (p_max p) (p_available p) (p_registry p ++ [id]) (p_permits p) (p_closed p) (p_shutdown p) (p_next_id p)
    (p_creations p) (p_workers p) (p_claims p) (p_stops p).

Definition return_permit (p : SessionPool) : SessionPool :=
  mkPool (p_max p) (p_available p) (p_registry p) (S (p_permits p)) (p_closed p) (p_shutdown p) (p_next_id p)
    (p_creations p) (p_workers p) (p_claims p) (p_stops p).

Definition set_creations (p : SessionPool) (n : nat) : SessionPool :=
  mkPool (p_max p) (p_available p) (p_registry p) (p_permits p) (p_closed p) (p_shutdown p) (p_next_id p)
    n (p_workers p) (p_claims p) (p_stops p).

Definition set_worker (p : SessionPool) (id : nat) (f : WorkerView -> WorkerView) : SessionPool :=
  mkPool (p_max p) (p_available p) (p_registry p) (p_permits p) (p_closed p) (p_shutdown p) (p_next_id p)
    (p_creations p) (alter f id (p_workers p)) (p_claims p) (p_stops p).

Definition add_worker (p : SessionPool) (id : nat) : SessionPool :=
  mkPool (p_max p) (p_available p) (p_registry p) (p_permits p) (p_closed p) (p_shutdown p) (p_next_id p)
    (p_creations p) (<[id := worker_spawned]> (p_workers p)) (p_claims p) (p_stops p).

Definition take_id (p : SessionPool) : SessionPool :=
  mkPool (p_max p) (p_available p) (p_registry p) (p_permits p) (p_closed p) (p_shutdown p) (S (p_next_id p))
    (p_creations p) (p_workers p) (p_claims p) (p_stops p).

Definition set_stop (p : SessionPool) (i : nat) (s : StopPc) : SessionPool :=
  mkPool (p_max p) (p_available p) (p_registry p) (p_permits p) (p_closed p) (p_shutdown p) (p_next_id p)
    (p_creations p) (p_workers p) (p_claims p) (<[i := s]> (p_stops p)).

Definition set_flags (p : SessionPool) (closed shutdown : bool) : SessionPool :=
  mkPool (p_max p) (p_available p) (p_registry p) (p_permits p) closed shutdown (p_next_id p)
    (p_creations p) (p_workers p) (p_claims p) (p_stops p).

Definition reusable (p : SessionPool) (id : nat) : bool := from_option worker_reusable false (p_workers p !! id).

(** Dropping a handle signals its session. *)
Definition drop_handle (p : SessionPool) (id : nat) : SessionPool := set_worker p id worker_signal_shutdown.

Definition drop_handles (p : SessionPool) (ids : list nat) : SessionPool := fold_left drop_handle ids p.

(** ** Steps *)

(** The loop of [claim_with_permit]: the last reusable session, and those before it that
    are not popped; the others after it are dropped. *)
Fixpoint pop_reusable (p : SessionPool) (rev_available dropped : list nat) : list nat * option nat * list nat :=
  match rev_available with
  | [] => ([], None, dropped)
  | id :: rest => if reusable p id then (rest, Some id, dropped) else pop_reusable p rest (dropped ++ [id])
  end.

(** [release] of the session of claim [i]: its first check, and its section under the mutex. *)
Definition release_step (p : SessionPool) (i : nat) (c : Claim) : option SessionPool :=
  let go pc := set_pc p i (mkClaim pc (c_lease c)) in
  match c_pc c with
  | RCheck id =>
      Some (if p_shutdown p || negb (reusable p id) then drop_handle (go DEnd) id else go (RPush id))
  | RPush id =>
      Some (if p_shutdown p || negb (reusable p id) then drop_handle (go DEnd) id
            else set_available (go DEnd) (p_available p ++ [id]))
  | _ => None
  end.

(** [Drop] of claim [i]: the lease is invalidated, its command handles are counted, and the
    session is released or shut down; [ok] is whether the claim has no active keys.  Then the
    lease is dropped. *)
Definition drop_step (p : SessionPool) (i : nat) (c : Claim) (ok : bool) : option SessionPool :=
  let go pc := set_pc p i (mkClaim pc (c_lease c)) in
  match c_pc c with
  | CLive id =>
      l ← c_lease c;
      Some (set_pc p i (mkClaim (DInvalid id) (Some (mkLease (l_worker l) false (l_command_count l)))))
  | DInvalid id => l ← c_lease c; Some (go (DCounted id (negb (l_command_count l =? 0)%nat)))
  | DCounted id outstanding =>
      Some (if ok && negb outstanding && reusable p id then go (RCheck id)
            else drop_handle (go DEnd) id)
  | DEnd =>
      l ← c_lease c;
      Some (if (l_command_count l =? 0)%nat then return_permit (set_pc p i (mkClaim CGone None)) else go CGone)
  | _ => None
  end.

(** A step of claim [i]; [ok] is whether a session that is started starts. *)
Definition claim_step (p : SessionPool) (i : nat) (ok : bool) : option SessionPool :=
  c ← p_claims p !! i;
  let go pc := set_pc p i (mkClaim pc (c_lease c)) in
  let fail p := return_permit (set_pc p i (mkClaim CFailed None)) in
  match c_pc c with
  | CAcquired => Some (if p_shutdown p then return_permit (go CGone) else go CAdmitted)
  | CAdmitted =>
      Some (if p_shutdown p then return_permit (go CGone) else set_creations (go CBegun) (S (p_creations p)))
  | CBegun => Some (if p_shutdown p then fail p else go CPop)
  | CPop =>
      let '(rest, chosen, dropped) := pop_reusable p (reverse (p_available p)) [] in
      let p := drop_handles (set_available p (reverse rest)) dropped in
      match chosen with
      | Some id => Some (set_pc p i (mkClaim (CFinal id) None))
      | None => Some (take_id (set_pc p i (mkClaim (CSpawn (p_next_id p)) None)))
      end
  | CSpawn id => Some (if p_shutdown p then fail p else go (CSpawning id))
  | CSpawning id => Some (if ok then add_worker (go (CRegister id)) id else fail p)
  | CRegister id =>
      Some (if p_shutdown p then fail (drop_handle p id) else register_worker (go (CFinal id)) id)
  | CFinal id =>
      Some (if p_shutdown p || negb (reusable p id) then fail (drop_handle p id)
            else set_pc p i (mkClaim (CWon id) (Some (mkLease id true 0))))
  | CFailed => Some (set_creations (go CGone) (p_creations p - 1))
  | CWon id => Some (set_creations (go (CLive id)) (p_creations p - 1))
  | CLive _ | DInvalid _ | DCounted _ _ | DEnd => drop_step p i c ok
  | RCheck _ | RPush _ => release_step p i c
  | CGone => None
  end.

(** [CommandLeaseRef::try_new] on a claim, which is borrowed meanwhile. *)
Definition command_new (p : SessionPool) (i : nat) : option SessionPool :=
  c ← p_claims p !! i;
  l ← c_lease c;
  match c_pc c with
  | CLive _ =>
      if l_valid l then Some (set_pc p i (mkClaim (c_pc c) (Some (mkLease (l_worker l) true (S (l_command_count l))))))
      else Some p
  | _ => None
  end.

(** [Clone] and [Drop] of a command handle. *)
Definition command_clone (p : SessionPool) (i : nat) : option SessionPool :=
  c ← p_claims p !! i;
  l ← c_lease c;
  if (l_command_count l =? 0)%nat then None
  else Some (set_pc p i (mkClaim (c_pc c) (Some (mkLease (l_worker l) (l_valid l) (S (l_command_count l)))))).

Definition command_drop (p : SessionPool) (i : nat) : option SessionPool :=
  c ← p_claims p !! i;
  l ← c_lease c;
  match l_command_count l with
  | O => None
  | S n =>
      match n, c_pc c with
      | O, CGone => Some (return_permit (set_pc p i (mkClaim CGone None)))
      | _, _ => Some (set_pc p i (mkClaim (c_pc c) (Some (mkLease (l_worker l) (l_valid l) n))))
      end
  end.

(** A permit for a new claim; the first check of [acquire_capacity] may be long ago. *)
Definition acquire (p : SessionPool) : option SessionPool :=
  match p_permits p with
  | S n =>
      if p_closed p then None
      else Some (mkPool (p_max p) (p_available p) (p_registry p) n (p_closed p) (p_shutdown p) (p_next_id p)
                   (p_creations p) (p_workers p) (p_claims p ++ [mkClaim CAcquired None]) (p_stops p))
  | O => None
  end.

(** A permit that is not used for a claim. *)
Definition abandon (p : SessionPool) (i : nat) : option SessionPool :=
  c ← p_claims p !! i;
  match c_pc c with
  | CAdmitted => Some (return_permit (set_pc p i (mkClaim CGone None)))
  | _ => None
  end.

Definition stop_call (p : SessionPool) (blocking : bool) : SessionPool :=
  mkPool (p_max p) (p_available p) (p_registry p) (p_permits p) (p_closed p) (p_shutdown p) (p_next_id p)
    (p_creations p) (p_workers p) (p_claims p) (p_stops p ++ [SStart blocking]).

Definition stop_step (p : SessionPool) (i : nat) : option SessionPool :=
  s ← p_stops p !! i;
  match s with
  | SStart true => Some (set_stop (set_flags p (p_closed p) true) i (SClose true))
  | SStart false =>
      Some (if p_shutdown p then set_stop p i SReturned
            else set_stop (set_flags p (p_closed p) true) i (SClose false))
  | SClose blocking => Some (set_stop (set_flags p true (p_shutdown p)) i (if blocking then SWait else SSnap false))
  | SWait => if (p_creations p =? 0)%nat then Some (set_stop p i (SSnap true)) else None
  | SSnap blocking => Some (set_stop p i (SDrain blocking (p_registry p)))
  | SDrain blocking todo => Some (set_stop (set_available p []) i (SDrop blocking (p_available p) todo))
  | SDrop blocking [] todo => Some (set_stop p i (SStop blocking todo))
  | SDrop blocking (id :: handles) todo => Some (set_stop (drop_handle p id) i (SDrop blocking handles todo))
  | SStop blocking [] => Some (set_stop p i (SDone blocking))
  | SStop blocking (id :: todo) =>
      Some (set_stop (set_worker p id (if blocking then worker_shutdown_blocking else worker_signal_shutdown))
              i (SStop blocking todo))
  | SDone _ | SReturned => None
  end.

(** A callback of the SDK or a command changes a session; [shutdown] when the callback
    requests its shutdown. *)
Definition worker_event (p : SessionPool) (id : nat) (dead shutdown clean : bool) : SessionPool :=
  set_worker p id (fun w => mkWorkerView dead (w_shutdown w || shutdown) (w_stop w) clean).

(** A command that fails signals the session of its lease. *)
Definition command_signal (p : SessionPool) (i : nat) : option SessionPool :=
  c ← p_claims p !! i;
  l ← c_lease c;
  if (l_command_count l =? 0)%nat then None else Some (set_worker p (l_worker l) worker_signal_shutdown).

Inductive PoolOp : Type :=
| PAcquire
| PAbandon (i : nat)
| PClaim (i : nat) (ok : bool)
| PCommand (i : nat)
| PClone (i : nat)
| PDropCommand (i : nat)
| PStopCall (blocking : bool)
| PStop (i : nat)
| PEvent (id : nat) (dead shutdown clean : bool)
| PSignal (i : nat).

Definition pool_step (p : SessionPool) (o : PoolOp) : option SessionPool :=
  match o with
  | PAcquire => acquire p
  | PAbandon i => abandon p i
  | PClaim i ok => claim_step p i ok
  | PCommand i => command_new p i
  | PClone i => command_clone p i
  | PDropCommand i => command_drop p i
  | PStopCall blocking => Some (stop_call p blocking)
  | PStop i => stop_step p i
  | PEvent id dead shutdown clean => Some (worker_event p id dead shutdown clean)
  | PSignal i => command_signal p i
  end.

Fixpoint pool_run (p : SessionPool) (l : list PoolOp) : option SessionPool :=
  match l with [] => Some p | o :: l => p ← pool_step p o; pool_run p l end.

(** ** The invariant *)

Definition permit (c : Claim) : nat :=
  match c_pc c with
  | CFailed => 0
  | CGone => from_option (fun l => if (l_command_count l =? 0)%nat then 0 else 1) 0 (c_lease c)
  | _ => 1
  end.

Definition guard (c : Claim) : nat :=
  match c_pc c with
  | CBegun | CPop | CSpawn _ | CSpawning _ | CRegister _ | CFinal _ | CFailed | CWon _ => 1
  | _ => 0
  end.

Definition pc_session (pc : ClaimPc) : option nat :=
  match pc with
  | CSpawn id | CSpawning id | CRegister id | CFinal id | CWon id | CLive id | DInvalid id | DCounted id _
  | RCheck id | RPush id => Some id
  | _ => None
  end.

(** Whether a claim has a session, or its identifier. *)
Definition holds (id : nat) (c : Claim) : nat := if decide (pc_session (c_pc c) = Some id) then 1 else 0.

(** The sessions a claim has or is about to start. *)
Definition sessions (shutdown : bool) (c : Claim) : nat :=
  match c_pc c with
  | CSpawn _ => if shutdown then 0 else 1
  | pc => from_option (fun _ => 1) 0 (pc_session pc)
  end.

Definition dropped_handles (s : StopPc) : list nat := match s with SDrop _ handles _ => handles | _ => [] end.

Definition cnt (id : nat) (l : list nat) : nat := sum_list_with (fun x => if decide (x = id) then 1 else 0) l.

Definition owners (p : SessionPool) (id : nat) : nat :=
  cnt id (p_available p) + sum_list_with (holds id) (p_claims p)
  + sum_list_with (fun s => cnt id (dropped_handles s)) (p_stops p).

Definition session_count (p : SessionPool) : nat :=
  length (p_available p) + sum_list_with (sessions (p_shutdown p)) (p_claims p)
  + sum_list_with (fun s => length (dropped_handles s)) (p_stops p).

Definition stopped (ws : gmap nat WorkerView) (id : nat) : Prop :=
  exists w, ws !! id = Some w /\ w_stop w = true.

(** The session a claim has. *)
Definition started (pc : ClaimPc) : option nat :=
  match pc with CSpawn _ | CSpawning _ => None | pc => pc_session pc end.

(** The identifier of a session that is yet to start. *)
Definition unborn (pc : ClaimPc) : option nat :=
  match pc with CSpawn id | CSpawning id => Some id | _ => None end.

Definition lease_ok (ws : gmap nat WorkerView) (c : Claim) : Prop :=
  match c_pc c with
  | CWon id | CLive id => exists n, c_lease c = Some (mkLease id true n)
  | DInvalid id => exists n, c_lease c = Some (mkLease id false n)
  | DCounted id outstanding => exists n, c_lease c = Some (mkLease id false n) /\ (outstanding = false -> n = 0)
  | RCheck id | RPush id => c_lease c = Some (mkLease id false 0)
  | DEnd => exists id n, c_lease c = Some (mkLease id false n) /\ (n = 0 \/ stopped ws id)
  | CGone => c_lease c = None \/ exists id n, c_lease c = Some (mkLease id false (S n)) /\ stopped ws id
  | _ => c_lease c = None
  end.

Definition claim_ok (ws : gmap nat WorkerView) (c : Claim) : Prop :=
  lease_ok ws c /\ forall id, started (c_pc c) = Some id -> is_Some (ws !! id).

(** A session that is not shut down is listed or about to be registered. *)
Definition covered (p : SessionPool) (l : list nat) : Prop :=
  forall id, is_Some (p_workers p !! id) ->
  stopped (p_workers p) id \/ id ∈ l \/ exists c, c ∈ p_claims p /\ c_pc c = CRegister id.

(** The sessions that have an owner: the pool, a claim, or a shutdown that drops them. *)
Definition slots (p : SessionPool) : list nat :=
  p_available p ++ omap (fun c => started (c_pc c)) (p_claims p) ++ (p_stops p ≫= dropped_handles).

Definition stop_ok (p : SessionPool) (s : StopPc) : Prop :=
  let past blocking := p_shutdown p = true /\ (blocking = true -> p_creations p = 0) in
  match s with
  | SStart _ => True
  | SClose _ | SWait | SReturned => p_shutdown p = true
  | SSnap blocking => past blocking
  | SDrain blocking todo => past blocking /\ covered p todo
  | SDrop blocking _ todo | SStop blocking todo => past blocking /\ p_available p = [] /\ covered p todo
  | SDone blocking => past blocking /\ p_available p = [] /\ covered p []
  end.

Record pool_inv (p : SessionPool) : Prop := mkPoolInv {
  pi_permits : p_permits p + sum_list_with permit (p_claims p) = p_max p;
  pi_guards : p_creations p = sum_list_with guard (p_claims p);
  pi_owners : forall id, owners p id <= 1;
  pi_fresh : forall id, p_next_id p <= id -> owners p id = 0 /\ p_workers p !! id = None;
  pi_bound : session_count p <= p_max p;
  pi_claims : Forall (claim_ok (p_workers p)) (p_claims p);
  pi_unborn : forall c id, c ∈ p_claims p -> unborn (c_pc c) = Some id -> p_workers p !! id = None;
  pi_stops : Forall (stop_ok p) (p_stops p);
  pi_registered : covered p (p_registry p);
  pi_running : forall id, is_Some (p_workers p !! id) -> stopped (p_workers p) id \/ id ∈ slots p
}.

(** ** Sums *)

Lemma sum_insert {A} (f : A -> nat) (l : list A) i x y :
  l !! i = Some x -> sum_list_with f (<[i := y]> l) + f x = sum_list_with f l + f y.
Proof.
  revert i. induction l as [|z l IH]; intros [|i] Hi; simplify_eq/=; [lia|]. specialize (IH i Hi). lia.
Qed.

Lemma sum_le {A} (f g : A -> nat) (l : list A) :
  (forall x, f x <= g x) -> sum_list_with f l <= sum_list_with g l.
Proof. intros Hfg. induction l as [|x l IH]; simpl; [done|]. specialize (Hfg x). lia. Qed.

Lemma sum_zero {A} (f : A -> nat) (l : list A) : Forall (fun x => f x = 0) l -> sum_list_with f l = 0.
Proof. induction 1 as [|x l Hx _ IH]; simpl; lia. Qed.

Lemma cnt_app id l k : cnt id (l ++ k) = cnt id l + cnt id k.
Proof. apply sum_list_with_app. Qed.

Lemma cnt_elem id l : id ∈ l -> 1 <= cnt id l.
Proof.
  intros Hin. unfold cnt. etrans; [|exact (sum_list_with_in id (fun x => if decide (x = id) then 1 else 0) l Hin)].
  simpl. by rewrite decide_True.
Qed.

Lemma sessions_permit shutdown c : sessions shutdown c <= permit c.
Proof. unfold sessions, permit. destruct (c_pc c), shutdown; simpl; lia. Qed.

Lemma stopped_dropping p : pool_inv p -> p_shutdown p = false -> forall s, s ∈ p_stops p -> dropped_handles s = [].
Proof.
  intros Hp Hs s Hin. pose proof (proj1 (Forall_forall _ _) (pi_stops p Hp) s Hin) as Hok.
  destruct s; simpl in *; try done. destruct Hok as [[? _] _]. congruence.
Qed.

(** ** A claim moves *)

(** How sessions may change: none is forgotten and none is restarted. *)
Definition workers_mono (ws ws' : gmap nat WorkerView) : Prop :=
  forall id, (is_Some (ws !! id) -> is_Some (ws' !! id)) /\ (stopped ws id -> stopped ws' id).

Lemma claim_ok_mono ws ws' c : workers_mono ws ws' -> claim_ok ws c -> claim_ok ws' c.
Proof.
  intros Hm [Hl Hs]. split; [|intros id Hid; by apply Hm, Hs].
  clear Hs. revert Hl. unfold lease_ok. destruct (c_pc c); try done.
  - intros (id & n & ? & [?|Hs]); exists id, n; [naive_solver|]. split; [done|]. right. by apply (Hm id).
  - intros [?|(id & n & ? & Hs)]; [by left|]. right. exists id, n. split; [done|]. by apply (Hm id).
Qed.

(** What a step of claim [i] may change. *)
Record claim_moves (p : SessionPool) (i : nat) (c c' : Claim) (p' : SessionPool) : Prop := mkMoves {
  mv_at : p_claims p !! i = Some c;
  mv_claims : p_claims p' = <[i := c']> (p_claims p);
  mv_frame : p_max p' = p_max p /\ p_stops p' = p_stops p /\ p_shutdown p' = p_shutdown p /\ p_closed p' = p_closed p;
  mv_permits : p_permits p' + permit c' = p_permits p + permit c;
  mv_guards : p_creations p' + guard c = p_creations p + guard c';
  mv_stopped : p_shutdown p = true -> p_creations p' <= p_creations p /\ (p_available p = [] -> p_available p' = []);
  mv_next : p_next_id p' = p_next_id p \/ p_next_id p' = S (p_next_id p);
  mv_owners : forall id, cnt id (p_available p') + holds id c'
    <= cnt id (p_available p) + holds id c + (if decide (id = p_next_id p) then p_next_id p' - p_next_id p else 0);
  mv_fresh : forall id, p_next_id p' <= id -> p_workers p !! id = None -> p_workers p' !! id = None;
  mv_bound : length (p_available p') + sessions (p_shutdown p) c' <= length (p_available p) + sessions (p_shutdown p) c
    \/ (p_shutdown p = false /\ p_available p' = []);
  mv_workers : workers_mono (p_workers p) (p_workers p');
  mv_new : forall id, is_Some (p_workers p' !! id) ->
    is_Some (p_workers p !! id) \/ (c_pc c = CSpawning id /\ c_pc c' = CRegister id);
  mv_unborn : forall id, unborn (c_pc c') = Some id -> p_workers p' !! id = None;
  mv_registry : forall id, id ∈ p_registry p -> id ∈ p_registry p';
  mv_leave : forall id, c_pc c = CRegister id ->
    stopped (p_workers p') id \/ (p_shutdown p = false /\ id ∈ p_registry p') \/ c_pc c' = CRegister id;
  mv_ok : claim_ok (p_workers p') c';
  mv_kept : forall id, is_Some (p_workers p !! id) -> id ∈ p_available p \/ started (c_pc c) = Some id ->
    stopped (p_workers p') id \/ id ∈ p_available p' \/ started (c_pc c') = Some id
}.

Lemma moves_owners p i c c' p' id :
  claim_moves p i c c' p' ->
  owners p' id
  <= owners p id + (if decide (id = p_next_id p) then p_next_id p' - p_next_id p else 0).
Proof.
  intros M. unfold owners. rewrite (mv_claims _ _ _ _ _ M), (proj1 (proj2 (mv_frame _ _ _ _ _ M))).
  pose proof (sum_insert (holds id) _ _ _ c' (mv_at _ _ _ _ _ M)). pose proof (mv_owners _ _ _ _ _ M id).
  repeat case_decide; lia.
Qed.

(** A session covered before is covered after. *)
Lemma moves_covered p i c c' p' l l' :
  claim_moves p i c c' p' -> covered p l -> (forall id, id ∈ l -> id ∈ l') ->
  (forall id, c_pc c = CRegister id -> stopped (p_workers p') id \/ id ∈ l' \/ c_pc c' = CRegister id) ->
  covered p' l'.
Proof.
  intros M Hc Hl Hleave id Hid. rewrite (mv_claims _ _ _ _ _ M).
  assert (c' ∈ <[i := c']> (p_claims p)) as Hin'.
  { apply list_elem_of_lookup. exists i. apply list_lookup_insert_eq. eapply lookup_lt_Some, M. }
  destruct (mv_new _ _ _ _ _ M id Hid) as [Hold|[_ Hnew]]; [|right; right; by exists c'].
  destruct (Hc id Hold) as [Hs|[Hin|(d & Hd & Hpc)]].
  - left. by apply (mv_workers _ _ _ _ _ M id).
  - right. left. by apply Hl.
  - apply list_elem_of_lookup in Hd as [j Hj]. destruct (decide (j = i)) as [->|Hne].
    + rewrite (mv_at _ _ _ _ _ M) in Hj. injection Hj as <-.
      destruct (Hleave id Hpc) as [?|[?|?]]; [by left|by right; left|right; right; by exists c'].
    + right. right. exists d. split; [|done]. apply list_elem_of_lookup. exists j. by rewrite list_lookup_insert_ne.
Qed.

Lemma moves_stop p i c c' p' s : claim_moves p i c c' p' -> stop_ok p s -> stop_ok p' s.
Proof.
  intros M. destruct (mv_frame _ _ _ _ _ M) as (_ & _ & Hsh & _).
  assert (forall b, p_shutdown p = true /\ (b = true -> p_creations p = 0) ->
            p_shutdown p' = true /\ (b = true -> p_creations p' = 0)) as Hpast.
  { intros b [Hs Hb]. rewrite Hsh. split; [done|]. intros Ht. specialize (Hb Ht).
    destruct (mv_stopped _ _ _ _ _ M Hs) as [Hle _]. lia. }
  assert (forall todo, p_shutdown p = true -> covered p todo -> covered p' todo) as Hcov.
  { intros todo Hs Hc. eapply moves_covered; [exact M|exact Hc|done|]. intros id Hpc.
    destruct (mv_leave _ _ _ _ _ M id Hpc) as [?|[[? _]|?]]; [by left|congruence|by right; right]. }
  assert (p_shutdown p = true -> p_available p = [] -> p_available p' = []) as Hav.
  { intros Hs. apply (mv_stopped _ _ _ _ _ M Hs). }
  destruct s; simpl; rewrite ?Hsh in *; try done; [apply Hpast| | | |].
  - intros [Hp Hc]. split; [by apply Hpast|]. by apply Hcov; [apply Hp|].
  - intros (Hp & Ha & Hc). split; [by apply Hpast|]. split; [by apply Hav; [apply Hp|]|]. by apply Hcov; [apply Hp|].
  - intros (Hp & Ha & Hc). split; [by apply Hpast|]. split; [by apply Hav; [apply Hp|]|]. by apply Hcov; [apply Hp|].
  - intros (Hp & Ha & Hc). split; [by apply Hpast|]. split; [by apply Hav; [apply Hp|]|]. by apply Hcov; [apply Hp|].
Qed.

Lemma moves_bound p i c c' p' : pool_inv p -> claim_moves p i c c' p' -> session_count p' <= p_max p'.
Proof.
  intros Hp M. destruct (mv_frame _ _ _ _ _ M) as (Hmax & Hst & Hsh & _). unfold session_count.
  rewrite (mv_claims _ _ _ _ _ M), Hst, Hsh, Hmax.
  pose proof (sum_insert (sessions (p_shutdown p)) _ _ _ c' (mv_at _ _ _ _ _ M)) as Hs.
  destruct (mv_bound _ _ _ _ _ M) as [Hle|[Hf ->]].
  - pose proof (pi_bound p Hp) as Hb. unfold session_count in Hb. lia.
  - rewrite (sum_zero (fun s => length (dropped_handles s))).
    + pose proof (sum_le (sessions (p_shutdown p)) permit (<[i := c']> (p_claims p)) (sessions_permit _)) as Hle.
      pose proof (sum_insert permit _ _ _ c' (mv_at _ _ _ _ _ M)). pose proof (mv_permits _ _ _ _ _ M).
      pose proof (pi_permits p Hp). simpl. lia.
    + apply Forall_forall. intros s Hin. by rewrite (stopped_dropping p Hp Hf s Hin).
Qed.

Lemma holds_one id c : pc_session (c_pc c) = Some id -> holds id c = 1.
Proof. intros Hc. unfold holds. by rewrite decide_True. Qed.

(** No other claim has the identifier. *)
Lemma holds_once p i j c d id :
  pool_inv p -> p_claims p !! i = Some c -> p_claims p !! j = Some d ->
  pc_session (c_pc c) = Some id -> pc_session (c_pc d) = Some id -> i = j.
Proof.
  intros Hp Hi Hj Hc Hd. destruct (decide (i = j)) as [|Hne]; [done|]. exfalso.
  pose proof (sum_insert (holds id) _ _ _ (mkClaim CGone None) Hi) as Hs.
  rewrite (holds_one id c Hc) in Hs. change (holds id (mkClaim CGone None)) with 0 in Hs.
  assert (d ∈ <[i := mkClaim CGone None]> (p_claims p)) as Hin.
  { apply list_elem_of_lookup. exists j. by rewrite list_lookup_insert_ne. }
  pose proof (sum_list_with_in d (holds id) _ Hin) as Hge. rewrite (holds_one id d Hd) in Hge.
  pose proof (pi_owners p Hp id) as Ho. unfold owners in Ho. lia.
Qed.

Lemma unborn_session pc id : unborn pc = Some id -> pc_session pc = Some id.
Proof. by destruct pc. Qed.

Lemma moves_unborn p i c c' p' d id :
  pool_inv p -> claim_moves p i c c' p' -> d ∈ p_claims p' -> unborn (c_pc d) = Some id -> p_workers p' !! id = None.
Proof.
  intros Hp M Hin Hu. rewrite (mv_claims _ _ _ _ _ M) in Hin. apply list_elem_of_lookup in Hin as [j Hj].
  destruct (decide (j = i)) as [->|Hne].
  - rewrite list_lookup_insert_eq in Hj by (eapply lookup_lt_Some, M). injection Hj as <-. by apply (mv_unborn _ _ _ _ _ M).
  - rewrite list_lookup_insert_ne in Hj by done.
    pose proof (pi_unborn p Hp d id (list_elem_of_lookup_2 _ _ _ Hj) Hu) as Hnone.
    destruct (p_workers p' !! id) eqn:Hw; [|done]. exfalso. apply Hne.
    destruct (mv_new _ _ _ _ _ M id) as [[? ?]|[Hsp _]]; [by eexists|congruence|].
    eapply (holds_once p j i d c id Hp Hj); [apply M|by apply unborn_session|by rewrite Hsp].
Qed.

Lemma slots_elem p id :
  id ∈ slots p <-> id ∈ p_available p \/ (exists c, c ∈ p_claims p /\ started (c_pc c) = Some id)
                  \/ exists s, s ∈ p_stops p /\ id ∈ dropped_handles s.
Proof.
  unfold slots. rewrite !elem_of_app, list_elem_of_omap, list_elem_of_bind. naive_solver.
Qed.

Lemma moves_running p i c c' p' id :
  pool_inv p -> claim_moves p i c c' p' -> is_Some (p_workers p' !! id) -> stopped (p_workers p') id \/ id ∈ slots p'.
Proof.
  intros Hp M Hid. rewrite slots_elem, (mv_claims _ _ _ _ _ M), (proj1 (proj2 (mv_frame _ _ _ _ _ M))).
  assert (c' ∈ <[i := c']> (p_claims p)) as Hin'.
  { apply list_elem_of_lookup. exists i. apply list_lookup_insert_eq. eapply lookup_lt_Some, M. }
  destruct (mv_new _ _ _ _ _ M id Hid) as [Hold|[_ Hpc]].
  2:{ right. right. left. exists c'. by rewrite Hpc. }
  destruct (pi_running p Hp id Hold) as [Hs|Hs]; [left; by apply (mv_workers _ _ _ _ _ M)|].
  apply slots_elem in Hs as [Ha|[(d & Hd & Hst)|Hs]]; [| |by right; right; right].
  - destruct (mv_kept _ _ _ _ _ M id Hold) as [?|[?|?]]; [by left|by left|by right; left|]. right. right. left. by exists c'.
  - apply list_elem_of_lookup in Hd as [j Hj]. destruct (decide (j = i)) as [->|Hne].
    + rewrite (mv_at _ _ _ _ _ M) in Hj. injection Hj as <-.
      destruct (mv_kept _ _ _ _ _ M id Hold) as [?|[?|?]]; [by right|by left|by right; left|]. right. right. left. by exists c'.
    + right. right. left. exists d. split; [|done]. apply list_elem_of_lookup. exists j. by rewrite list_lookup_insert_ne.
Qed.

Lemma moves_inv p i c c' p' : pool_inv p -> claim_moves p i c c' p' -> pool_inv p'.
Proof.
  intros Hp M. destruct (mv_frame _ _ _ _ _ M) as (Hmax & Hst & Hsh & _).
  pose proof (fun id => moves_owners p i c c' p' id M) as Ho.
  constructor.
  - rewrite (mv_claims _ _ _ _ _ M), Hmax. pose proof (sum_insert permit _ _ _ c' (mv_at _ _ _ _ _ M)).
    pose proof (mv_permits _ _ _ _ _ M). pose proof (pi_permits p Hp). lia.
  - rewrite (mv_claims _ _ _ _ _ M). pose proof (sum_insert guard _ _ _ c' (mv_at _ _ _ _ _ M)).
    pose proof (mv_guards _ _ _ _ _ M). pose proof (pi_guards p Hp). lia.
  - intros id. specialize (Ho id). pose proof (pi_owners p Hp id). case_decide as Hid; [|lia]. subst id.
    destruct (pi_fresh p Hp (p_next_id p)) as [H0 _]; [done|]. destruct (mv_next _ _ _ _ _ M); lia.
  - intros id Hid. specialize (Ho id). destruct (mv_next _ _ _ _ _ M) as [Hn|Hn].
    + destruct (pi_fresh p Hp id) as [H0 Hw]; [lia|]. split; [case_decide; lia|]. by apply (mv_fresh _ _ _ _ _ M).
    + destruct (pi_fresh p Hp id) as [H0 Hw]; [lia|]. split; [rewrite decide_False in Ho by lia; lia|].
      by apply (mv_fresh _ _ _ _ _ M).
  - by eapply moves_bound.
  - rewrite (mv_claims _ _ _ _ _ M). apply Forall_insert; [|apply M].
    eapply Forall_impl; [apply Hp|]. intros d. apply claim_ok_mono, M.
  - intros d id. by eapply moves_unborn.
  - rewrite Hst. eapply Forall_impl; [apply Hp|]. intros s. by eapply moves_stop.
  - eapply moves_covered; [exact M|apply Hp|apply M|]. intros id Hpc.
    destruct (mv_leave _ _ _ _ _ M id Hpc) as [?|[[_ ?]|?]]; [by left|by right; left|by right; right].
  - intros id. by eapply moves_running.
Qed.

(** ** Steps of claims *)

Lemma workers_mono_refl ws : workers_mono ws ws.
Proof. done. Qed.

Lemma workers_mono_trans ws1 ws2 ws3 : workers_mono ws1 ws2 -> workers_mono ws2 ws3 -> workers_mono ws1 ws3.
Proof. intros H1 H2 id. split; intros ?; by apply H2, H1. Qed.

Lemma alter_mono f id ws : (forall w, w_stop w = true -> w_stop (f w) = true) -> workers_mono ws (alter f id ws).
Proof.
  intros Hf j. split; [by intros [w Hw]; rewrite lookup_alter_is_Some|]. intros (w & Hw & Hs).
  destruct (decide (j = id)) as [->|Hj].
  - exists (f w). rewrite lookup_alter_eq, Hw. split; [done|]. by apply Hf.
  - exists w. by rewrite lookup_alter_ne.
Qed.

Lemma signal_keeps w : w_stop w = true -> w_stop (worker_signal_shutdown w) = true.
Proof. intros Hw. unfold worker_signal_shutdown. by rewrite Hw. Qed.

Lemma signal_mono id ws : workers_mono ws (alter worker_signal_shutdown id ws).
Proof. apply alter_mono, signal_keeps. Qed.

Lemma signal_stops id ws : is_Some (ws !! id) -> stopped (alter worker_signal_shutdown id ws) id.
Proof.
  intros [w Hw]. exists (worker_signal_shutdown w). rewrite lookup_alter_eq, Hw. split; [done|].
  unfold worker_signal_shutdown. by destruct (w_stop w) eqn:Hs.
Qed.

Lemma alter_known f id (ws : gmap nat WorkerView) j : is_Some (alter f id ws !! j) -> is_Some (ws !! j).
Proof. by rewrite lookup_alter_is_Some. Qed.

Definition drop_workers (ws : gmap nat WorkerView) (ids : list nat) : gmap nat WorkerView :=
  fold_left (fun ws id => alter worker_signal_shutdown id ws) ids ws.

Lemma drop_handles_eq p ids :
  drop_handles p ids
  = mkPool (p_max p) (p_available p) (p_registry p) (p_permits p) (p_closed p) (p_shutdown p) (p_next_id p)
      (p_creations p) (drop_workers (p_workers p) ids) (p_claims p) (p_stops p).
Proof.
  revert p. unfold drop_handles. induction ids as [|id ids IH]; intros p; [by destruct p|]. simpl. by rewrite IH.
Qed.

Lemma drop_workers_mono ids : forall ws, workers_mono ws (drop_workers ws ids).
Proof.
  induction ids as [|id ids IH]; intros ws; [done|]. simpl.
  eapply workers_mono_trans; [apply signal_mono|apply IH].
Qed.

Lemma drop_workers_known ids j : forall ws, is_Some (drop_workers ws ids !! j) -> is_Some (ws !! j).
Proof. induction ids as [|id ids IH]; intros ws Hj; [done|]. apply IH in Hj. by apply alter_known in Hj. Qed.

Lemma drop_workers_stops ids id : forall ws, id ∈ ids -> is_Some (ws !! id) -> stopped (drop_workers ws ids) id.
Proof.
  induction ids as [|j ids IH]; intros ws Hin Hid; [by apply elem_of_nil in Hin|]. simpl.
  apply elem_of_cons in Hin as [<-|Hin].
  - by apply drop_workers_mono, signal_stops.
  - apply IH; [done|]. by apply signal_mono.
Qed.

Lemma pop_reusable_split p l : forall d rest chosen dropped,
  pop_reusable p l d = (rest, chosen, dropped) ->
  dropped ++ option_list chosen ++ rest = d ++ l
  /\ match chosen with Some id => reusable p id = true | None => rest = [] end.
Proof.
  induction l as [|id l IH]; intros d rest chosen dropped; simpl.
  - intros [= <- <- <-]. done.
  - destruct (reusable p id) eqn:Hr; [intros [= <- <- <-]; done|]. intros [He Hc]%IH. split; [|done].
    by rewrite He, <- (assoc_L (++)).
Qed.

Lemma cnt_reverse id l : cnt id (reverse l) = cnt id l.
Proof. apply sum_list_with_reverse. Qed.

Lemma reusable_known p id : reusable p id = true -> is_Some (p_workers p !! id).
Proof. unfold reusable. by destruct (p_workers p !! id). Qed.

(** The fields of a move that follow by computation. *)
Local Ltac moving :=
  constructor; unfold permit, guard; simpl; try done; try lia;
  try (by apply workers_mono_refl); try (by apply signal_mono);
  try (by intros ? ?%alter_known; left); try (by intros ? ?; left);
  try (by intros ? ?; rewrite lookup_alter_None);
  try (left; unfold sessions; simpl; lia); try (by split; [left|]); try (by split);
  try (by intros ? ? [?|?]; [right; left|right; right]);
  try (intros ?; unfold holds; simpl; repeat case_decide; simplify_eq; lia).

(** A claim that fails gives its permit back. *)
Lemma fail_moves p i c :
  p_claims p !! i = Some c -> permit c = 1 -> guard c = 1 -> started (c_pc c) = None ->
  claim_moves p i c (mkClaim CFailed None) (return_permit (set_pc p i (mkClaim CFailed None))).
Proof.
  intros Hi Hpe Hg Hr. moving; unfold permit, guard in *; simpl; try lia.
  - intros id Hc. by rewrite Hc in Hr.
  - rewrite Hr. intros id _ [?|?]; [by right; left|done].
Qed.

Lemma fail_drop_moves p i c id :
  p_claims p !! i = Some c -> permit c = 1 -> guard c = 1 -> started (c_pc c) = Some id ->
  claim_ok (p_workers p) c ->
  claim_moves p i c (mkClaim CFailed None) (return_permit (set_pc (drop_handle p id) i (mkClaim CFailed None))).
Proof.
  intros Hi Hpe Hg Hs [_ Hok]. moving; unfold permit, guard in *; simpl; try lia.
  - intros j Hj. rewrite Hj in Hs. injection Hs as ->. left. apply signal_stops, Hok. by rewrite Hj.
  - rewrite Hs. intros j Hj [?|[= <-]]; [by right; left|]. left. by apply signal_stops.
Qed.

(** The handle of a dropped claim is dropped. *)
Lemma discard_moves p i c id n :
  p_claims p !! i = Some c -> permit c = 1 -> guard c = 0 -> started (c_pc c) = Some id ->
  (forall j, c_pc c <> CRegister j) -> c_lease c = Some (mkLease id false n) -> claim_ok (p_workers p) c ->
  let lease := Some (mkLease id false n) in
  claim_moves p i c (mkClaim DEnd lease) (drop_handle (set_pc p i (mkClaim DEnd lease)) id).
Proof.
  intros Hi Hpe Hg Hs Hr Hl [_ Hok]. moving; unfold permit, guard in *; simpl; try lia.
  - by intros j ?%Hr.
  - split; [|done]. unfold lease_ok. simpl. exists id, n. split; [done|]. right. apply signal_stops. by apply Hok.
  - rewrite Hs. intros j Hj [?|[= <-]]; [by right; left|]. left. by apply signal_stops.
Qed.

Lemma spawn_moves p i id :
  p_claims p !! i = Some (mkClaim (CSpawning id) None) -> p_workers p !! id = None -> id < p_next_id p ->
  claim_moves p i (mkClaim (CSpawning id) None) (mkClaim (CRegister id) None)
    (add_worker (set_pc p i (mkClaim (CRegister id) None)) id).
Proof.
  intros Hi Hn Hlt. moving.
  - intros j Hj. rewrite lookup_insert_ne by lia. done.
  - intros j. split; [intros ?; by apply lookup_insert_is_Some'; right|]. intros (w & Hw & Hs). exists w. split; [|done].
    rewrite lookup_insert_ne; [done|]. intros ->. congruence.
  - intros j Hj. destruct (decide (j = id)) as [->|Hne]; [by right|]. left. by rewrite lookup_insert_ne in Hj.
  - split; [done|]. intros j [= <-]. rewrite lookup_insert_eq. by eexists.
Qed.

(** What is left of the pool and what was taken of it. *)
Lemma popped (l rest dropped : list nat) chosen :
  dropped ++ option_list chosen ++ rest = reverse l ->
  length (reverse rest) + length (option_list chosen) <= length l
  /\ forall id, cnt id (reverse rest) + cnt id (option_list chosen) <= cnt id l.
Proof.
  intros Hs. split.
  - apply (f_equal length) in Hs. rewrite !length_app, length_reverse in Hs. rewrite length_reverse. lia.
  - intros id. apply (f_equal (cnt id)) in Hs. rewrite !cnt_app, cnt_reverse in Hs. rewrite cnt_reverse. lia.
Qed.

Lemma pop_moves p i id rest dropped :
  p_claims p !! i = Some (mkClaim CPop None) -> dropped ++ [id] ++ rest = reverse (p_available p) -> reusable p id = true ->
  claim_moves p i (mkClaim CPop None) (mkClaim (CFinal id) None)
    (set_pc (mkPool (p_max p) (reverse rest) (p_registry p) (p_permits p) (p_closed p) (p_shutdown p) (p_next_id p)
               (p_creations p) (drop_workers (p_workers p) dropped) (p_claims p) (p_stops p))
       i (mkClaim (CFinal id) None)).
Proof.
  intros Hi Hs Hr. destruct (popped (p_available p) rest dropped (Some id) Hs) as [Hlen Hcnt]. simpl in Hlen.
  moving; try (by apply drop_workers_mono).
  - intros _. split; [done|]. intros Ha. rewrite Ha in Hlen. simpl in Hlen. lia.
  - intros j. specialize (Hcnt j). unfold cnt at 2 in Hcnt. simpl in Hcnt. unfold holds. simpl.
    repeat case_decide; simplify_eq; lia.
  - intros j _ Hn. destruct (drop_workers (p_workers p) dropped !! j) eqn:Hw; [|done].
    apply (mk_is_Some), drop_workers_known in Hw. rewrite Hn in Hw. by destruct Hw.
  - intros j Hw%drop_workers_known. by left.
  - split; [done|]. intros j [= <-]. by apply drop_workers_mono, reusable_known.
  - intros j Hj [Ha|?]; [|done]. rewrite <- elem_of_reverse, <- Hs, elem_of_app in Ha.
    destruct Ha as [Hd|[<-|Hin]%elem_of_cons].
    + left. by apply drop_workers_stops.
    + by right; right.
    + right. left. by apply elem_of_reverse.
Qed.

Lemma exhausted_moves p i rest dropped :
  pool_inv p -> p_claims p !! i = Some (mkClaim CPop None) -> dropped ++ [] ++ rest = reverse (p_available p) -> rest = [] ->
  claim_moves p i (mkClaim CPop None) (mkClaim (CSpawn (p_next_id p)) None)
    (take_id (set_pc (mkPool (p_max p) (reverse rest) (p_registry p) (p_permits p) (p_closed p) (p_shutdown p) (p_next_id p)
               (p_creations p) (drop_workers (p_workers p) dropped) (p_claims p) (p_stops p))
       i (mkClaim (CSpawn (p_next_id p)) None))).
Proof.
  intros Hp Hi Hs ->. destruct (pi_fresh p Hp (p_next_id p)) as [_ Hn]; [done|].
  assert (forall j, p_workers p !! j = None -> drop_workers (p_workers p) dropped !! j = None) as Hnone.
  { intros j Hj. destruct (drop_workers (p_workers p) dropped !! j) eqn:Hw; [|done].
    apply (mk_is_Some), drop_workers_known in Hw. rewrite Hj in Hw. by destruct Hw. }
  moving; try (by apply drop_workers_mono).
  - intros j _. apply Hnone.
  - destruct (p_shutdown p); [left; unfold sessions; simpl; lia|by right].
  - intros j Hw%drop_workers_known. by left.
  - intros j [= <-]. by apply Hnone.
  - intros j Hj [Ha|?]; [|done]. rewrite <- elem_of_reverse, <- Hs, elem_of_app in Ha.
    destruct Ha as [Hd|?%elem_of_nil]; [|done]. left. by apply drop_workers_stops.
Qed.

(** The identifier of a claim was taken. *)
Lemma claimed_below p i c id :
  pool_inv p -> p_claims p !! i = Some c -> pc_session (c_pc c) = Some id -> id < p_next_id p.
Proof.
  intros Hp Hi Hc. destruct (decide (p_next_id p <= id)) as [Hle|]; [|lia]. destruct (pi_fresh p Hp id Hle) as [H0 _].
  pose proof (sum_list_with_in c (holds id) _ (list_elem_of_lookup_2 _ _ _ Hi)) as Hid.
  rewrite holds_one in Hid by done. unfold owners in H0. lia.
Qed.

(** The session of a dropped claim returns to the pool. *)
Lemma push_moves p i id :
  let lease := Some (mkLease id false 0) in
  p_claims p !! i = Some (mkClaim (RPush id) lease) -> p_shutdown p = false ->
  claim_moves p i (mkClaim (RPush id) lease) (mkClaim DEnd lease)
    (set_available (set_pc p i (mkClaim DEnd lease)) (p_available p ++ [id])).
Proof.
  intros lease Hi Hsd. moving.
  - by rewrite Hsd.
  - intros j. rewrite cnt_app. unfold holds, cnt. simpl. repeat case_decide; simplify_eq; lia.
  - left. unfold sessions. rewrite length_app. simpl. lia.
  - split; [|done]. exists id, 0. by split; [|left].
  - intros j _ [?|[= <-]]; right; left; apply elem_of_app; [by left|right; by apply list_elem_of_singleton].
Qed.

(** The lease of a dropped claim is left to its command handles, or its permit returns. *)
Lemma end_moves p i id n :
  let lease := Some (mkLease id false n) in
  p_claims p !! i = Some (mkClaim DEnd lease) -> n = 0 \/ stopped (p_workers p) id ->
  exists c c', claim_moves p i c c'
    (if (n =? 0)%nat then return_permit (set_pc p i (mkClaim CGone None)) else set_pc p i (mkClaim CGone lease)).
Proof.
  intros lease Hi Hn. subst lease.
  destruct (n =? 0)%nat eqn:E0; [exists (mkClaim DEnd (Some (mkLease id false n))), (mkClaim CGone None); moving|].
  exists (mkClaim DEnd (Some (mkLease id false n))), (mkClaim CGone (Some (mkLease id false n))). moving.
  - rewrite E0. lia.
  - split; [|done]. right. apply Nat.eqb_neq in E0. exists id, (n - 1). destruct n; [done|]. simpl.
    rewrite Nat.sub_0_r. split; [done|]. by destruct Hn.
Qed.

Lemma claim_step_moves p i ok p' :
  pool_inv p -> claim_step p i ok = Some p' -> exists c c', claim_moves p i c c' p'.
Proof.
  intros Hp. unfold claim_step, drop_step, release_step. destruct (p_claims p !! i) as [[pc lease]|] eqn:Hi; [|done]. simpl.
  pose proof (Forall_lookup_1 _ _ _ _ (pi_claims p Hp) Hi) as Hok. pose proof Hok as [Hl Hst].
  unfold lease_ok in Hl. simpl in Hl, Hst.
  pose proof (fun id => pi_unborn p Hp _ id (list_elem_of_lookup_2 _ _ _ Hi)) as Hun. simpl in Hun.
  pose proof (pi_guards p Hp) as Hg. pose proof (sum_list_with_in _ guard _ (list_elem_of_lookup_2 _ _ _ Hi)) as Hge.
  destruct pc; simpl in *; try done; try (subst lease; simpl).
  - intros [= <-]. destruct (p_shutdown p) eqn:Hsd; eexists _, _; moving.
  - intros [= <-]. destruct (p_shutdown p) eqn:Hsd; eexists _, _; moving. by rewrite Hsd.
  - intros [= <-]. destruct (p_shutdown p) eqn:Hsd; eexists _, _; [by apply fail_moves|moving].
  - destruct (pop_reusable p (reverse (p_available p)) []) as [[rest chosen] dropped] eqn:Hpop.
    apply pop_reusable_split in Hpop as [Hsplit Hchosen]. rewrite drop_handles_eq.
    destruct chosen as [id|]; intros [= <-]; eexists _, _; [by eapply pop_moves|by eapply exhausted_moves].
  - intros [= <-]. destruct (p_shutdown p) eqn:Hsd; eexists _, _; [by apply fail_moves|moving].
    left. unfold sessions. simpl. rewrite Hsd. lia.
  - intros [= <-]. destruct ok; eexists _, _; [|by apply fail_moves]. apply spawn_moves; [done|by apply Hun|].
    by eapply claimed_below.
  - intros [= <-]. destruct (p_shutdown p) eqn:Hsd; eexists _, _; [by apply fail_drop_moves|]. moving.
    + intros j Hj. apply elem_of_app. by left.
    + intros j [= <-]. right. left. split; [done|]. apply elem_of_app. right. by apply list_elem_of_singleton.
  - intros [= <-]. destruct (p_shutdown p || negb (reusable p id)) eqn:Hr; eexists _, _; [by apply fail_drop_moves|].
    moving. split; [by exists 0|exact Hst].
  - intros [= <-]. change (1 <= sum_list_with guard (p_claims p)) in Hge.
    exists (mkClaim CFailed None), (mkClaim CGone None). moving. intros _. split; [lia|done].
  - intros [= <-]. change (1 <= sum_list_with guard (p_claims p)) in Hge.
    exists (mkClaim (CWon id) lease), (mkClaim (CLive id) lease). moving. intros _. split; [lia|done].
  - destruct Hl as (n & ->). intros [= <-]. eexists _, _. moving. split; [by exists n|exact Hst].
  - destruct Hl as (n & ->). intros [= <-]. eexists _, _. moving. split; [|exact Hst]. exists n. split; [done|].
    simpl. intros Hn%negb_false_iff. by apply Nat.eqb_eq.
  - destruct Hl as (n & -> & Hn). intros [= <-]. destruct (ok && negb outstanding && reusable p id) eqn:Hc;
      [|eexists _, _; by eapply discard_moves]. apply andb_prop in Hc as [[_ Ho%negb_true_iff]%andb_prop _].
    exists (mkClaim (DCounted id outstanding) (Some (mkLease id false n))), (mkClaim (RCheck id) (Some (mkLease id false n))).
    moving. split; [by rewrite (Hn Ho)|exact Hst].
  - intros [= <-]. destruct (p_shutdown p || negb (reusable p id)) eqn:Hr; eexists _, _; [by eapply discard_moves|].
    moving.
  - intros [= <-]. destruct (p_shutdown p || negb (reusable p id)) eqn:Hr; eexists _, _; [by eapply discard_moves|].
    apply orb_false_elim in Hr as [Hsd _]. by eapply push_moves.
  - destruct Hl as (id & n & -> & Hn). intros [= <-]. by eapply end_moves.
Qed.

(** ** Steps of commands *)

(** Command handles come and go under the lease of a claim. *)
Lemma command_moves p i pc l n :
  p_claims p !! i = Some (mkClaim pc (Some l)) ->
  permit (mkClaim pc (Some (mkLease (l_worker l) (l_valid l) n))) = permit (mkClaim pc (Some l)) ->
  lease_ok (p_workers p) (mkClaim pc (Some (mkLease (l_worker l) (l_valid l) n))) ->
  claim_ok (p_workers p) (mkClaim pc (Some l)) -> unborn pc = None ->
  claim_moves p i (mkClaim pc (Some l)) (mkClaim pc (Some (mkLease (l_worker l) (l_valid l) n)))
    (set_pc p i (mkClaim pc (Some (mkLease (l_worker l) (l_valid l) n)))).
Proof.
  intros Hi Hpe Hl [_ Hst] Hu. moving.
  - unfold permit in Hpe. simpl in Hpe. lia.
  - by rewrite Hu.
  - by right; right.
Qed.

(** A lease with commands can have one more, or one less while its claim or another is there. *)
Lemma lease_more ws pc l n :
  lease_ok ws (mkClaim pc (Some l)) -> l_command_count l <> 0 -> (n <> 0 \/ pc <> CGone) ->
  let c' := mkClaim pc (Some (mkLease (l_worker l) (l_valid l) n)) in
  lease_ok ws c' /\ permit c' = permit (mkClaim pc (Some l)) /\ unborn pc = None.
Proof.
  intros Hl Hn Hor. destruct l as [w v k]. simpl in *. unfold lease_ok, permit in *. simpl in *.
  destruct pc; try done; simpl in *.
  - destruct Hl as (m & [= -> -> ->]). split; [by exists n|done].
  - destruct Hl as (m & [= -> -> ->]). split; [by exists n|done].
  - destruct Hl as (m & [= -> -> ->]). split; [by exists n|done].
  - destruct Hl as (m & [= -> -> ->] & Ho). split; [|done]. exists n. split; [done|]. intros Hx. by apply Ho in Hx.
  - injection Hl as -> -> ->. done.
  - injection Hl as -> -> ->. done.
  - destruct Hl as (id & m & [= -> -> ->] & [?|Hs]); [done|]. split; [|done]. exists id, n. by split; [|right].
  - destruct Hl as [?|(id & m & [= -> -> ->] & Hs)]; [done|]. destruct n as [|n]; [naive_solver|].
    split; [|done]. right. by exists id, n.
Qed.

Lemma command_new_inv p i p' : pool_inv p -> command_new p i = Some p' -> pool_inv p'.
Proof.
  intros Hp. unfold command_new. destruct (p_claims p !! i) as [[pc lease]|] eqn:Hi; [|done]. simpl.
  destruct lease as [l|]; [|done]. simpl.
  pose proof (Forall_lookup_1 _ _ _ _ (pi_claims p Hp) Hi) as Hok. destruct pc; try done. destruct l as [w v k]. simpl.
  destruct v; intros [= <-]; [|done]. eapply moves_inv; [done|]. apply (command_moves p i (CLive id) (mkLease w true k)); try done.
  destruct Hok as [(m & [= -> ->]) _]. by exists (S m).
Qed.

Lemma command_clone_inv p i p' : pool_inv p -> command_clone p i = Some p' -> pool_inv p'.
Proof.
  intros Hp. unfold command_clone. destruct (p_claims p !! i) as [[pc lease]|] eqn:Hi; [|done]. simpl.
  destruct lease as [l|]; [|done]. simpl. destruct (Nat.eqb_spec (l_command_count l) 0) as [|Hn]; [done|]. intros [= <-].
  pose proof (Forall_lookup_1 _ _ _ _ (pi_claims p Hp) Hi) as Hok.
  destruct (lease_more (p_workers p) pc l (S (l_command_count l)) (proj1 Hok) Hn) as (Hl & Hpe & Hu); [by left|].
  eapply moves_inv; [done|]. by apply command_moves.
Qed.

Lemma command_drop_inv p i p' : pool_inv p -> command_drop p i = Some p' -> pool_inv p'.
Proof.
  intros Hp. unfold command_drop. destruct (p_claims p !! i) as [[pc lease]|] eqn:Hi; [|done]. simpl.
  destruct lease as [l|]; [|done]. simpl. destruct (l_command_count l) as [|n] eqn:Hn; [done|].
  pose proof (Forall_lookup_1 _ _ _ _ (pi_claims p Hp) Hi) as Hok.
  destruct (decide (n = 0 /\ pc = CGone)) as [[-> ->]|Hne].
  - intros [= <-]. eapply (moves_inv p i (mkClaim CGone (Some l)) (mkClaim CGone None)); [done|]. moving. rewrite Hn. simpl. lia.
  - assert (n <> 0 \/ pc <> CGone) as Hor by (destruct (decide (n = 0)); naive_solver).
    destruct (lease_more (p_workers p) pc l n (proj1 Hok)) as (Hl & Hpe & Hu); [lia|done|].
    assert (forall q, match n, pc with
                      | 0, CGone => Some q
                      | _, _ => Some (set_pc p i (mkClaim pc (Some (mkLease (l_worker l) (l_valid l) n))))
                      end = Some (set_pc p i (mkClaim pc (Some (mkLease (l_worker l) (l_valid l) n))))) as Hm
      by (intros q; destruct n, pc; try done; naive_solver).
    rewrite Hm. intros [= <-]. eapply moves_inv; [done|]. by apply command_moves.
Qed.

Lemma abandon_inv p i p' : pool_inv p -> abandon p i = Some p' -> pool_inv p'.
Proof.
  intros Hp. unfold abandon. destruct (p_claims p !! i) as [[pc lease]|] eqn:Hi; [|done]. simpl.
  destruct pc; try done. intros [= <-].
  eapply (moves_inv p i (mkClaim CAdmitted lease) (mkClaim CGone None)); [done|]. moving.
Qed.

Lemma acquire_inv p p' : pool_inv p -> acquire p = Some p' -> pool_inv p'.
Proof.
  intros Hp. unfold acquire. destruct (p_permits p) as [|n] eqn:Hn; [done|]. destruct (p_closed p); [done|]. intros [= <-].
  destruct Hp as [Kp Kg Ko Kf Kb Kc Ku Ks Kr Kw].
  assert (forall l, covered p l ->
            covered (mkPool (p_max p) (p_available p) (p_registry p) n false (p_shutdown p) (p_next_id p)
                       (p_creations p) (p_workers p) (p_claims p ++ [mkClaim CAcquired None]) (p_stops p)) l) as Hcov.
  { intros l Hc id Hid. destruct (Hc id Hid) as [?|[?|(c & Hin & Hpc)]]; [by left|by right; left|].
    right. right. exists c. split; [|done]. simpl. apply elem_of_app. by left. }
  constructor; simpl.
  - rewrite sum_list_with_app. cbn [sum_list_with]. change (permit (mkClaim CAcquired None)) with 1. lia.
  - rewrite sum_list_with_app. cbn [sum_list_with]. change (guard (mkClaim CAcquired None)) with 0. lia.
  - intros id. specialize (Ko id). unfold owners in *. simpl. rewrite sum_list_with_app. cbn [sum_list_with]. change (holds id (mkClaim CAcquired None)) with 0. lia.
  - intros id Hid. destruct (Kf id Hid) as [H0 Hw]. split; [|done]. unfold owners in *. simpl.
    rewrite sum_list_with_app. cbn [sum_list_with]. change (holds id (mkClaim CAcquired None)) with 0. lia.
  - unfold session_count in *. simpl. rewrite sum_list_with_app. cbn [sum_list_with]. change (sessions (p_shutdown p) (mkClaim CAcquired None)) with 0. lia.
  - apply Forall_app. split; [done|]. by repeat constructor.
  - intros c id [Hin| ->%list_elem_of_singleton]%elem_of_app; [by apply Ku|done].
  - eapply Forall_impl; [exact Ks|]. intros [] Hs; simpl in *; naive_solver.
  - by apply Hcov.
  - intros id Hid. destruct (Kw id Hid) as [?|Hs]; [by left|]. right. apply slots_elem. simpl.
    apply slots_elem in Hs as [?|[(c & Hin & Hst)|?]]; [by left| |by right; right].
    right. left. exists c. split; [|done]. apply elem_of_app. by left.
Qed.

(** ** Shutdown *)

(** What a step of a shutdown, a call of one or an event of a session may change. *)
Record stop_moves (p p' : SessionPool) : Prop := mkStopMoves {
  sm_frame : p_claims p' = p_claims p /\ p_max p' = p_max p /\ p_permits p' = p_permits p
    /\ p_creations p' = p_creations p /\ p_next_id p' = p_next_id p /\ p_registry p' = p_registry p;
  sm_shutdown : p_shutdown p = true -> p_shutdown p' = true;
  sm_owners : forall id,
    cnt id (p_available p') + sum_list_with (fun s => cnt id (dropped_handles s)) (p_stops p')
    <= cnt id (p_available p) + sum_list_with (fun s => cnt id (dropped_handles s)) (p_stops p);
  sm_bound :
    length (p_available p') + sum_list_with (fun s => length (dropped_handles s)) (p_stops p')
    <= length (p_available p) + sum_list_with (fun s => length (dropped_handles s)) (p_stops p);
  sm_available : p_available p = [] -> p_available p' = [];
  sm_workers : workers_mono (p_workers p) (p_workers p');
  sm_known : forall id, is_Some (p_workers p' !! id) -> is_Some (p_workers p !! id);
  sm_kept : forall id, is_Some (p_workers p !! id) -> id ∈ slots p -> stopped (p_workers p') id \/ id ∈ slots p'
}.

Lemma stop_covered p p' l : stop_moves p p' -> covered p l -> covered p' l.
Proof.
  intros M Hc id Hid%(sm_known _ _ M). destruct (sm_frame _ _ M) as (-> & _).
  destruct (Hc id Hid) as [Hs|Hs]; [|by right]. left. by apply (sm_workers _ _ M).
Qed.

Lemma stop_ok_moves p p' s : stop_moves p p' -> stop_ok p s -> stop_ok p' s.
Proof.
  intros M. pose proof (sm_shutdown _ _ M) as Hsh. pose proof (fun l => stop_covered p p' l M) as Hcov.
  pose proof (sm_available _ _ M) as Hav. destruct (sm_frame _ _ M) as (_ & _ & _ & Hcr & _).
  destruct s; simpl; rewrite ?Hcr; naive_solver.
Qed.

Lemma sessions_shutdown b c : sessions true c <= sessions b c.
Proof. unfold sessions. destruct (c_pc c), b; simpl; lia. Qed.

Lemma stop_moves_inv p p' : pool_inv p -> stop_moves p p' -> Forall (stop_ok p') (p_stops p') -> pool_inv p'.
Proof.
  intros Hp M Hs. destruct (sm_frame _ _ M) as (Hcl & Hmax & Hpe & Hcr & Hnx & Hrg).
  assert (forall id, owners p' id <= owners p id) as Ho.
  { intros id. pose proof (sm_owners _ _ M id). unfold owners. rewrite Hcl. lia. }
  constructor; rewrite ?Hcl, ?Hmax, ?Hpe, ?Hcr, ?Hnx, ?Hrg; try apply Hp; try done.
  - intros id. pose proof (pi_owners p Hp id). specialize (Ho id). lia.
  - intros id Hid. destruct (pi_fresh p Hp id Hid) as [H0 Hw]. specialize (Ho id). split; [lia|].
    destruct (p_workers p' !! id) eqn:Hx; [|done]. destruct (sm_known _ _ M id) as [? ?]; [by eexists|congruence].
  - pose proof (sm_bound _ _ M) as Hb. pose proof (pi_bound p Hp) as Hm. unfold session_count in *. rewrite Hcl.
    assert (sum_list_with (sessions (p_shutdown p')) (p_claims p) <= sum_list_with (sessions (p_shutdown p)) (p_claims p)) as Hle.
    { apply sum_le. intros c. destruct (p_shutdown p') eqn:E'; [apply sessions_shutdown|].
      destruct (p_shutdown p) eqn:E; [|done]. by rewrite (sm_shutdown _ _ M E) in E'. }
    lia.
  - eapply Forall_impl; [apply Hp|]. intros c. apply claim_ok_mono, M.
  - intros c id Hc Hu. pose proof (pi_unborn p Hp c id Hc Hu) as Hn.
    destruct (p_workers p' !! id) eqn:Hx; [|done]. destruct (sm_known _ _ M id) as [? ?]; [by eexists|congruence].
  - eapply stop_covered; [exact M|]. apply Hp.
  - intros id Hid%(sm_known _ _ M). destruct (pi_running p Hp id Hid) as [Hr|Hr]; [left; by apply (sm_workers _ _ M)|].
    by apply (sm_kept _ _ M).
Qed.

(** A shutdown moves from one counter to the next. *)
Lemma stop_step_inv_at p p' i s s' :
  pool_inv p -> p_stops p !! i = Some s -> p_stops p' = <[i := s']> (p_stops p) ->
  p_claims p' = p_claims p /\ p_max p' = p_max p /\ p_permits p' = p_permits p
    /\ p_creations p' = p_creations p /\ p_next_id p' = p_next_id p /\ p_registry p' = p_registry p ->
  (p_shutdown p = true -> p_shutdown p' = true) ->
  (forall id, cnt id (p_available p') + cnt id (dropped_handles s') <= cnt id (p_available p) + cnt id (dropped_handles s)) ->
  length (p_available p') + length (dropped_handles s') <= length (p_available p) + length (dropped_handles s) ->
  (p_available p = [] -> p_available p' = []) -> workers_mono (p_workers p) (p_workers p') ->
  (forall id, is_Some (p_workers p' !! id) -> is_Some (p_workers p !! id)) -> stop_ok p' s' ->
  (forall id, is_Some (p_workers p !! id) -> id ∈ p_available p \/ id ∈ dropped_handles s ->
    stopped (p_workers p') id \/ id ∈ p_available p' \/ id ∈ dropped_handles s') ->
  pool_inv p'.
Proof.
  intros Hp Hi Hst Hfr Hsh Ho Hb Ha Hw Hk Hok Hkept.
  assert (stop_moves p p') as M.
  { constructor; try done.
    - intros id. rewrite Hst. specialize (Ho id).
      pose proof (sum_insert (fun s => cnt id (dropped_handles s)) _ _ _ s' Hi) as Hs. simpl in Hs. lia.
    - rewrite Hst. pose proof (sum_insert (fun s => length (dropped_handles s)) _ _ _ s' Hi) as Hs. simpl in Hs. lia.
    - intros id Hid. rewrite !slots_elem, Hst, (proj1 Hfr).
      assert (s' ∈ <[i := s']> (p_stops p)) as Hin'.
      { apply list_elem_of_lookup. exists i. apply list_lookup_insert_eq. by eapply lookup_lt_Some. }
      intros [Hav|[Hcl|(x & Hx & Hd)]]; [| |].
      + destruct (Hkept id Hid) as [?|[?|?]]; [by left|by left|by right; left|]. right. right. right. by exists s'.
      + by right; right; left.
      + apply list_elem_of_lookup in Hx as [j Hj]. destruct (decide (j = i)) as [->|Hne].
        * rewrite Hi in Hj. injection Hj as <-.
          destruct (Hkept id Hid) as [?|[?|?]]; [by right|by left|by right; left|]. right. right. right. by exists s'.
        * right. right. right. exists x. split; [|done]. apply list_elem_of_lookup. exists j. by rewrite list_lookup_insert_ne. }
  eapply stop_moves_inv; [done|exact M|]. rewrite Hst. apply Forall_insert; [|done].
  eapply Forall_impl; [apply Hp|]. intros x. by apply stop_ok_moves.
Qed.

Lemma blocking_mono id ws : workers_mono ws (alter worker_shutdown_blocking id ws).
Proof. by apply alter_mono. Qed.

(** Signalling the next session of the list. *)
Lemma covered_next p id todo f i s :
  (forall w, w_stop (f w) = true) -> covered p (id :: todo) -> covered (set_stop (set_worker p id f) i s) todo.
Proof.
  intros Hf Hc j Hj. simpl in *. apply alter_known in Hj as Hj'.
  destruct (Hc j Hj') as [Hs|[[-> |Hin]%elem_of_cons|Hr]].
  - left. apply alter_mono; [by intros w _|done].
  - left. destruct Hj' as [w Hw]. exists (f w). by rewrite lookup_alter_eq, Hw.
  - by right; left.
  - by right; right.
Qed.

(** Dropping the next handle that was drained. *)
Lemma drop_step_inv p i b id handles todo :
  pool_inv p -> p_stops p !! i = Some (SDrop b (id :: handles) todo) -> stop_ok p (SDrop b (id :: handles) todo) ->
  pool_inv (set_stop (drop_handle p id) i (SDrop b handles todo)).
Proof.
  intros Hp Hi Hok. eapply (stop_step_inv_at p _ i _ (SDrop b handles todo)); try done; simpl.
  - intros j. unfold cnt. simpl. lia.
  - lia.
  - apply signal_mono.
  - intros j. apply alter_known.
  - destruct Hok as (Hpast & Ha & Hc). split; [done|]. split; [done|]. intros j Hj. simpl in *. apply alter_known in Hj.
    destruct (Hc j Hj) as [Hs|Hs]; [left; by apply signal_mono|by right].
  - intros j Hj [?|[-> |?]%elem_of_cons]; [by right; left| |by right; right]. left. by apply signal_stops.
Qed.

Lemma stop_step_inv p i p' : pool_inv p -> stop_step p i = Some p' -> pool_inv p'.
Proof.
  intros Hp. unfold stop_step. destruct (p_stops p !! i) as [s|] eqn:Hi; [|done]. simpl.
  pose proof (Forall_lookup_1 _ _ _ _ (pi_stops p Hp) Hi) as Hok.
  destruct s as [[]|b| |b|b todo|b [|id handles] todo|b [|id todo]| |]; simpl in Hok; try done.
  - intros [= <-]. eapply (stop_step_inv_at p _ i _ (SClose true)); try done; by intros; right.
  - destruct (p_shutdown p) eqn:Hsd; intros [= <-].
    + eapply (stop_step_inv_at p _ i _ SReturned); try done; by intros; right.
    + eapply (stop_step_inv_at p _ i _ (SClose false)); try done; by intros; right.
  - intros [= <-]. eapply (stop_step_inv_at p _ i _ (if b then SWait else SSnap false)); try done; [by destruct b|by destruct b|by destruct b|by intros; destruct b; right].
  - destruct (Nat.eqb_spec (p_creations p) 0) as [H0|]; [|done]. intros [= <-].
    eapply (stop_step_inv_at p _ i _ (SSnap true)); try done; by intros; right.
  - intros [= <-]. eapply (stop_step_inv_at p _ i _ (SDrain b (p_registry p))); try done; [|by intros; right]. split; [done|]. apply Hp.
  - intros [= <-]. eapply (stop_step_inv_at p _ i _ (SDrop b (p_available p) todo)); try done; simpl.
    + intros id. unfold cnt. simpl. lia.
    + lia.
    + by destruct Hok.
    + intros id _ [?|?%elem_of_nil]; [by right; right|done].
  - intros [= <-]. eapply (stop_step_inv_at p _ i _ (SStop b todo)); try done; by intros; right.
  - intros [= <-]. by eapply drop_step_inv.
  - intros [= <-]. eapply (stop_step_inv_at p _ i _ (SDone b)); try done; by intros; right.
  - intros [= <-]. eapply (stop_step_inv_at p _ i _ (SStop b todo)); try done; simpl.
    + destruct b; [apply blocking_mono|apply signal_mono].
    + intros j. apply alter_known.
    + destruct Hok as (Hpast & Ha & Hc). split; [done|]. split; [done|]. apply covered_next; [|done].
      intros w. destruct b; [done|]. unfold worker_signal_shutdown. by destruct (w_stop w) eqn:Hw.
    + intros j _ [?|?%elem_of_nil]; [by right; left|done].
Qed.

(** A session changes and its stop is not undone. *)
Lemma event_moves p id f : (forall w, w_stop w = true -> w_stop (f w) = true) -> stop_moves p (set_worker p id f).
Proof.
  intros Hf. constructor; simpl; try done.
  - by apply alter_mono.
  - intros j. apply alter_known.
  - intros j _ ?. by right.
Qed.

Lemma event_inv p id f : pool_inv p -> (forall w, w_stop w = true -> w_stop (f w) = true) -> pool_inv (set_worker p id f).
Proof.
  intros Hp Hf. pose proof (event_moves p id f Hf) as M. eapply stop_moves_inv; [done|exact M|].
  eapply Forall_impl; [apply Hp|]. intros s. by apply stop_ok_moves.
Qed.

Lemma stop_call_moves p blocking : stop_moves p (stop_call p blocking).
Proof.
  constructor; simpl; try done.
  - intros id. rewrite sum_list_with_app. simpl. unfold cnt. simpl. lia.
  - rewrite sum_list_with_app. simpl. lia.
  - intros id _. rewrite !slots_elem. simpl. intros [?|[?|(s & Hs & ?)]]; right; [by left|by right; left|].
    right. right. exists s. split; [|done]. apply elem_of_app. by left.
Qed.

Lemma pool_step_inv p o p' : pool_inv p -> pool_step p o = Some p' -> pool_inv p'.
Proof.
  intros Hp. destruct o; simpl.
  - by apply acquire_inv.
  - by apply abandon_inv.
  - intros Hs. destruct (claim_step_moves p i ok p' Hp Hs) as (c & c' & M). by eapply moves_inv.
  - by apply command_new_inv.
  - by apply command_clone_inv.
  - by apply command_drop_inv.
  - intros [= <-]. pose proof (stop_call_moves p blocking) as M. eapply stop_moves_inv; [done|exact M|].
    simpl. apply Forall_app. split; [|by repeat constructor]. eapply Forall_impl; [apply Hp|]. intros s. by apply stop_ok_moves.
  - by apply stop_step_inv.
  - intros [= <-]. by apply event_inv.
  - unfold command_signal. destruct (p_claims p !! i) as [[pc [l|]]|]; try done. simpl. case_match; [done|].
    intros [= <-]. apply event_inv; [done|]. apply signal_keeps.
Qed.

Lemma cnt_seq id n : forall k, cnt id (seq k n) = if decide (k <= id < k + n) then 1 else 0.
Proof.
  induction n as [|n IH]; intros k; [rewrite decide_False by lia; done|]. change (cnt id (seq k (S n)))
    with ((if decide (k = id) then 1 else 0) + cnt id (seq (S k) n)). rewrite IH. repeat case_decide; lia.
Qed.

Lemma new_workers size id :
  list_to_map (M := gmap nat WorkerView) ((fun id => (id, worker_spawned)) <$> seq 0 size) !! id
  = if decide (id < size) then Some worker_spawned else None.
Proof.
  case_decide as Hid.
  - apply elem_of_list_to_map.
    + rewrite <- list_fmap_compose. change (fst ∘ (fun id => (id, worker_spawned))) with (fun x : nat => x).
      rewrite list_fmap_id. apply NoDup_seq.
    + apply list_elem_of_fmap. exists id. split; [done|]. apply elem_of_seq. lia.
  - apply not_elem_of_list_to_map. rewrite <- list_fmap_compose.
    change (fst ∘ (fun id => (id, worker_spawned))) with (fun x : nat => x). rewrite list_fmap_id, elem_of_seq. lia.
Qed.

Lemma session_pool_new_inv size max p : session_pool_new size max = Some p -> pool_inv p /\ p_max p = max.
Proof.
  unfold session_pool_new. destruct (_ || _) eqn:Hb; [done|]. intros [= <-].
  apply orb_false_elim in Hb as [_ Hle%Nat.ltb_ge]. split; [|done]. constructor; simpl; try done.
  - intros id. unfold owners. simpl. rewrite cnt_seq. case_decide; lia.
  - intros id Hid. unfold owners. simpl. rewrite cnt_seq, new_workers, !decide_False by lia. done.
  - unfold session_count. simpl. rewrite length_seq. lia.
  - by intros c id ?%elem_of_nil.
  - intros id [w Hw]. simpl in *. rewrite new_workers in Hw. case_decide; [|done]. right. left. apply elem_of_seq. lia.
  - intros id [w Hw]. rewrite new_workers in Hw. case_decide; [|done]. right. apply slots_elem. left. simpl.
    apply elem_of_seq. lia.
Qed.

Lemma pool_step_max p o p' : pool_step p o = Some p' -> p_max p' = p_max p.
Proof.
  destruct o; simpl.
  - unfold acquire. repeat case_match; intros; by simplify_eq.
  - unfold abandon. destruct (p_claims p !! i) as [[pc l]|]; [|done]. simpl. destruct pc; intros; by simplify_eq.
  - unfold claim_step, drop_step, release_step. destruct (p_claims p !! i) as [[pc l]|]; [|done]. simpl. destruct pc; simpl; try done.
    all: try (destruct l as [l|]; simpl; try done); repeat case_match; intros; simplify_eq; try done;
      by rewrite drop_handles_eq.
  - unfold command_new. destruct (p_claims p !! i) as [[pc [l|]]|]; try done. simpl. repeat case_match; intros; by simplify_eq.
  - unfold command_clone. destruct (p_claims p !! i) as [[pc [l|]]|]; try done. simpl. repeat case_match; intros; by simplify_eq.
  - unfold command_drop. destruct (p_claims p !! i) as [[pc [l|]]|]; try done. simpl. repeat case_match; intros; by simplify_eq.
  - by intros [= <-].
  - unfold stop_step. destruct (p_stops p !! i) as [s|]; [|done]. simpl. repeat case_match; intros; by simplify_eq.
  - by intros [= <-].
  - unfold command_signal. destruct (p_claims p !! i) as [[pc [l|]]|]; try done. simpl. case_match; intros; by simplify_eq.
Qed.

(** ** What the pool promises *)

Lemma pool_run_inv l : forall p p', pool_inv p -> pool_run p l = Some p' -> pool_inv p' /\ p_max p' = p_max p.
Proof.
  induction l as [|o l IH]; intros p p' Hp; simpl; [by intros [= <-]|].
  destruct (pool_step p o) as [q|] eqn:Ho; simpl; [|done]. intros Hr.
  destruct (IH q p' (pool_step_inv _ _ _ Hp Ho) Hr) as [? ->]. split; [done|]. by eapply pool_step_max.
Qed.

(** The sessions whose stop has not started. *)
Definition running (p : SessionPool) : gset nat := dom (filter (fun kw => w_stop kw.2 = false) (p_workers p)).

Lemma running_elem p id : id ∈ running p <-> is_Some (p_workers p !! id) /\ ~ stopped (p_workers p) id.
Proof.
  unfold running, stopped. rewrite elem_of_dom. split.
  - intros [w [Hw Hs]%map_lookup_filter_Some]. split; [by eexists|]. intros (w' & Hw' & Hs'). simpl in *. congruence.
  - intros [[w Hw] Hn]. exists w. apply map_lookup_filter_Some. split; [done|]. simpl.
    destruct (w_stop w) eqn:Hs; [|done]. exfalso. apply Hn. by exists w.
Qed.

Lemma set_size_le (X : gset nat) (l : list nat) : (forall x, x ∈ X -> x ∈ l) -> size X <= length l.
Proof.
  intros Hx. transitivity (size (list_to_set (C := gset nat) l)); [|clear Hx X].
  - apply subseteq_size. intros x Hin%Hx. by apply elem_of_list_to_set.
  - induction l as [|x l IH]; [by rewrite list_to_set_nil, size_empty|].
    rewrite list_to_set_cons, size_union_alt, size_singleton.
    assert (size (list_to_set (C := gset nat) l ∖ {[x]}) <= size (list_to_set (C := gset nat) l)) by (apply subseteq_size; set_solver).
    simpl. lia.
Qed.

Lemma slots_length p : length (slots p) <= session_count p.
Proof.
  unfold slots, session_count. rewrite !length_app.
  assert (length (omap (fun c => started (c_pc c)) (p_claims p)) <= sum_list_with (sessions (p_shutdown p)) (p_claims p)).
  { induction (p_claims p) as [|c l IH]; simpl; [done|].
    assert (length (option_list (started (c_pc c))) <= sessions (p_shutdown p) c) 
      by (unfold sessions; destruct (c_pc c); simpl; lia).
    change (list_omap Claim nat (fun c => started (c_pc c)) l) with (omap (fun c => started (c_pc c)) l).
    destruct (started (c_pc c)); simpl in *; lia. }
  assert (length (p_stops p ≫= dropped_handles) = sum_list_with (fun s => length (dropped_handles s)) (p_stops p)).
  { induction (p_stops p) as [|s l IH]; [done|]. rewrite bind_cons, length_app, IH. done. }
  lia.
Qed.

(** A session with a handle in the pool has no claim. *)
Lemma pooled_unclaimed p i c id :
  pool_inv p -> p_claims p !! i = Some c -> pc_session (c_pc c) = Some id -> id ∉ p_available p.
Proof.
  intros Hp Hi Hc Hin%cnt_elem. pose proof (pi_owners p Hp id) as Ho. unfold owners in Ho.
  pose proof (sum_list_with_in c (holds id) _ (list_elem_of_lookup_2 _ _ _ Hi)) as Hge.
  rewrite (holds_one id c Hc) in Hge. lia.
Qed.

Lemma cnt_NoDup l : (forall id, cnt id l <= 1) -> NoDup l.
Proof.
  induction l as [|x l IH]; intros Hl; [constructor|].
  assert (forall id, cnt id (x :: l) = (if decide (x = id) then 1 else 0) + cnt id l) as Hc by done.
  constructor.
  - intros Hin%cnt_elem. specialize (Hl x). rewrite Hc, decide_True in Hl by done. lia.
  - apply IH. intros id. specialize (Hl id). rewrite Hc in Hl. lia.
Qed.

(** Command handles of a session that runs belong to the claim that has the session. *)
Lemma commands_claimed p i c l :
  pool_inv p -> p_claims p !! i = Some c -> c_lease c = Some l -> l_command_count l <> 0 -> l_worker l ∈ running p ->
  pc_session (c_pc c) = Some (l_worker l).
Proof.
  intros Hp Hi Hl Hn [_ Hr]%running_elem.
  destruct (Forall_lookup_1 _ _ _ _ (pi_claims p Hp) Hi) as [Hok _]. unfold lease_ok in Hok. rewrite Hl in Hok.
  destruct (c_pc c); naive_solver.
Qed.

Lemma running_bound p : pool_inv p -> size (running p) <= p_max p.
Proof.
  intros Hp. transitivity (session_count p); [|apply Hp]. etrans; [|apply slots_length]. apply set_size_le.
  intros id [Hid Hn]%running_elem. by destruct (pi_running p Hp id Hid).
Qed.

Lemma no_creation p c id : pool_inv p -> p_creations p = 0 -> c ∈ p_claims p -> c_pc c = CRegister id -> False.
Proof.
  intros Hp H0 Hc Hpc. rewrite (pi_guards p Hp) in H0. pose proof (sum_list_with_in c guard _ Hc) as Hg.
  unfold guard at 1 in Hg. rewrite Hpc in Hg. lia.
Qed.

(** ** Claims *)

(** C8: In every interleaving of claims, drops, command handles, shutdowns, SDK callbacks
    and failures, a permit is free or held by one claim or by the command handles that
    outlive it; at most [max_subscription_sessions] sessions run; a session is in the
    pool once, or is of one claim and not in the pool; and a command handle on a session that
    runs is of the claim that has it, so that a session never returns to the pool, and is
    never claimed again, while a command handle can use it. *)
Theorem sessions_bounded_and_owned size max p ops p' :
  session_pool_new size max = Some p -> pool_run p ops = Some p' ->
  p_permits p' + sum_list_with permit (p_claims p') = max
  /\ base.size (running p') <= max
  /\ NoDup (p_available p')
  /\ (forall i j c d id, p_claims p' !! i = Some c -> p_claims p' !! j = Some d ->
      pc_session (c_pc c) = Some id -> pc_session (c_pc d) = Some id -> i = j)
  /\ (forall i c id, p_claims p' !! i = Some c -> pc_session (c_pc c) = Some id -> id ∉ p_available p')
  /\ (forall i c l, p_claims p' !! i = Some c -> c_lease c = Some l -> l_command_count l <> 0 ->
      l_worker l ∈ running p' -> pc_session (c_pc c) = Some (l_worker l)).
Proof.
  intros Hnew Hrun. destruct (session_pool_new_inv _ _ _ Hnew) as [H0 Hmax].
  destruct (pool_run_inv _ _ _ H0 Hrun) as [Hp Hm]. rewrite Hmax in Hm.
  split; [rewrite <- Hm; apply Hp|]. split; [rewrite <- Hm; by apply running_bound|]. split.
  { apply cnt_NoDup. intros id. pose proof (pi_owners p' Hp id) as Ho. unfold owners in Ho. lia. }
  split; [intros; by eapply holds_once|]. split; [intros; by eapply pooled_unclaimed|].
  intros; by eapply commands_claimed.
Qed.

(** Two claims, one of a pooled session with a command handle, one that starts a session. *)
Definition two_claims : list PoolOp :=
  [PAcquire] ++ replicate 6 (PClaim 0 true) ++ [PCommand 0; PAcquire] ++ replicate 6 (PClaim 1 true).

Definition after_ops (ops : list PoolOp) : SessionPool :=
  default (mkPool 0 [] [] 0 false false 0 0 ∅ [] []) (p ← session_pool_new 1 2; pool_run p ops).

Lemma sessions_bounded_and_owned_witness :
  (c_pc <$> p_claims (after_ops two_claims)) = [CLive 0; CRegister 1]
  /\ p_permits (after_ops two_claims) + sum_list_with permit (p_claims (after_ops two_claims)) = 2.
Proof.
  split; [vm_compute; reflexivity|].
  refine (proj1 (sessions_bounded_and_owned 1 2 (after_ops []) two_claims (after_ops two_claims) _ _));
    vm_compute; reflexivity.
Defined.

(** C9: When a blocking shutdown has returned, no session runs, the pool is empty and no
    claim is being made, in that state and in every later one.  When a signalled
    shutdown has returned, the pool is empty and a session that runs is being started by
    a claim, whose next step stops it and fails the claim. *)
Theorem shutdown_stops_sessions size max p ops p' i blocking :
  session_pool_new size max = Some p -> pool_run p ops = Some p' -> p_stops p' !! i = Some (SDone blocking) ->
  p_available p' = []
  /\ (blocking = true -> running p' = ∅ /\ p_creations p' = 0)
  /\ (forall id, id ∈ running p' -> exists j c, p_claims p' !! j = Some c /\ c_pc c = CRegister id
      /\ forall ok, exists q, claim_step p' j ok = Some q
                      /\ p_claims q !! j = Some (mkClaim CFailed None) /\ id ∉ running q).
Proof.
  intros Hnew Hrun Hi. destruct (session_pool_new_inv _ _ _ Hnew) as [H0 _].
  destruct (pool_run_inv _ _ _ H0 Hrun) as [Hp _].
  destruct (Forall_lookup_1 _ _ _ _ (pi_stops p' Hp) Hi) as ([Hsh Hcr] & Ha & Hcov).
  assert (forall id, id ∈ running p' -> exists c, c ∈ p_claims p' /\ c_pc c = CRegister id) as Hleft.
  { intros id [Hid Hn]%running_elem. by destruct (Hcov id Hid) as [?|[?%elem_of_nil|?]]. }
  split; [done|]. split.
  - intros Hb. split; [|by apply Hcr]. apply set_eq. intros id. split; [|by intros ?%elem_of_empty].
    intros (c & Hc & Hpc)%Hleft. destruct (no_creation p' c id Hp (Hcr Hb) Hc Hpc).
  - intros id Hr. destruct (Hleft id Hr) as (c & [j Hj]%list_elem_of_lookup & Hpc). exists j, c.
    split; [done|]. split; [done|]. intros ok. unfold claim_step, drop_step, release_step. rewrite Hj. simpl. rewrite Hpc, Hsh.
    eexists. split; [done|]. split.
    + simpl. apply list_lookup_insert_eq. by eapply lookup_lt_Some.
    + intros [_ Hn]%running_elem. apply Hn. simpl. apply signal_stops. by apply running_elem in Hr as [? _].
Qed.

(** A signalled shutdown while the second claim starts its session, which then fails. *)
Definition stopped_run : list PoolOp := two_claims ++ [PStopCall false] ++ replicate 7 (PStop 0).

Lemma shutdown_stops_sessions_witness :
  p_stops (after_ops stopped_run) !! 0 = Some (SDone false) /\ elements (running (after_ops stopped_run)) = [1]
  /\ p_available (after_ops stopped_run) = [].
Proof.
  split; [vm_compute; reflexivity|]. split; [vm_compute; reflexivity|].
  refine (proj1 (shutdown_stops_sessions 1 2 (after_ops []) stopped_run (after_ops stopped_run) 0 false _ _ _));
    vm_compute; reflexivity.
Defined.

(** ** Progress *)

(** A shutdown that has not returned can take its next step, or it waits for a claim
    that is being made and can take its own. *)
Lemma shutdown_progress p i s :
  pool_inv p -> p_stops p !! i = Some s -> s <> SReturned -> (forall b, s <> SDone b) ->
  is_Some (stop_step p i)
  \/ (s = SWait /\ exists j c, p_claims p !! j = Some c /\ guard c = 1 /\ forall ok, is_Some (claim_step p j ok)).
Proof.
  intros Hp Hi Hr Hd. unfold stop_step. rewrite Hi. simpl.
  destruct s as [[]|b| |b|b todo|b [|id handles] todo|b [|id todo]|b|]; try done; try (by destruct (Hd b)); try by left; eexists.
  destruct (Nat.eqb_spec (p_creations p) 0) as [|Hne]; [by left; eexists|]. right. split; [done|].
  assert (exists j c, p_claims p !! j = Some c /\ guard c = 1) as (j & c & Hj & Hg).
  { rewrite (pi_guards p Hp) in Hne. clear -Hne. induction (p_claims p) as [|c l IH]; [done|]. simpl in Hne.
    destruct (guard c) as [|[|n]] eqn:Hg.
    - destruct (IH Hne) as (j & d & Hj & Hd). by exists (S j), d.
    - by exists 0, c.
    - unfold guard in Hg. by destruct (c_pc c). }
  exists j, c. split; [done|]. split; [done|]. intros ok. unfold claim_step, drop_step, release_step. rewrite Hj. simpl.
  unfold guard in Hg. destruct (c_pc c); try done; repeat case_match; by eexists.
Qed.
